(* ===== verification/_CoqProject ===== *)
-Q . S2P
Prelude.v
RlpRaw.v
RlpEncode.v
RlpStream.v
RlpRoundtrip.v
RlpTyped.v
TrieEncoding.v
TrieNode.v
TrieSpec.v
TrieUpdate.v
TrieStore.v
TrieOps.v
TriePaths.v
TrieRefine.v
TrieHash.v
TrieBinding.v
TrieCommit.v
TrieProof.v
StackTrie.v
DeriveSha.v
StateAccess.v
State.v
StateWorld.v
StateRevert.v
StateSnapshot.v
StateTidy.v
StateSpec.v
StateSupply.v
StatePrepare.v
StateFinalise.v
Bloom.v
Header.v
Consensus.v
Uint256.v
VmAnalysis.v
VmCore.v
VmGas.v
VmInstr.v
VmInterp.v
VmLaws.v
VmInv.v
VmMemory.v
VmSafeOps.v
VmSafeMem.v
VmSafeStore.v
VmSafeCalls.v
VmSafeCallOps.v
VmSafety.v
VmFuel.v
VmSpec.v
VmCreate.v
VmJump.v
TxTransition.v
TxTypes.v
TxSpec.v
GoHeap.v
TxList.v
TxListSpec.v
BlockContext.v
BlockProcess.v
BlockSpec.v
BlockBody.v
SecureTrie.v
StateRoot.v
StateRootSpec.v
StateStore.v
StateBlock.v
