(* ===== verification/Prelude.v ===== *)
(** * go-zond: a verification development

    go-zond is an execution client: it keeps a state of accounts in Merkle tries,
    runs the transactions of blocks on it with a virtual machine, and checks the
    headers that the consensus layer hands to it.  The development models the path of a
    block through the client: the RLP encoding everything is stored and hashed in, the
    trie, the state on top of it, the virtual machine, the transition of a transaction,
    and the processing of a block, with the header checks of the consensus engine.

    ** Conventions

    Definitions are translated from the Go sources under src/ and keep their names; a
    prefix tells apart methods of the same name ([mem_Set], [obj_GetState]).  All of
    them can be evaluated.  A Go function that may fail is an [outcome]: a value, an
    error, a panic of the runtime ([Panic]: an index out of range, a nil pointer, an
    explicit panic) or [OutOfFuel].  Bytes are lists of [Z]; [bytes_ok] says that the
    numbers are bytes and [slice_len] that the list can be a slice.  Machine integers
    are [Z] with their wrap-around written out ([u8], [u64]); big.Int is [Z].  State is
    passed explicitly; Go maps are [gmap].

    Code outside the repository is a parameter: the hash function ([Hasher], with
    [HasherLaws] for the length of hashes), 256-bit integers ([Uint256], with the laws
    of its documentation in [Uint256Laws]), precompiled contracts, the databases behind
    the tries ([Backend], the reader of TrieOps), the signature scheme.  That a hash
    identifies what was hashed is a hypothesis where it is needed, about the values at
    hand and never about all values.  For the virtual machine, which keeps jump analyses
    by the hash of the code, these are the codes that a run meets ([Codes] of [VmInv]):
    no two of them have the same hash ([codes_apart]), and an interpreter that refuses all
    other codes does the same ([meets_codes]).  Every property with hypotheses is applied to
    concrete values in the lemma [..._witness] next to it.

    ** Components

    - RLP.  [RlpRaw]: src/rlp/raw.go, sizes and headers.  [RlpEncode]: encode.go and
      encbuffer.go, the writers of all built-in kinds on the buffer that keeps list
      headers apart.  [RlpStream]: the Stream of decode.go and decoding into empty
      interfaces.  [RlpTyped]: the decoders that makeDecoder chooses by type, for
      integers, booleans, strings, bytes, arrays, slices, pointers and structs.
      Theorems: encoder and decoder are exact inverses for dynamic values
      ([RlpRoundtrip]); decoding into a type accepts exactly the spellings of its values,
      which differ only in optional fields that are zero, and are the encodings when
      these are slices or pointers without a nil tag; decoding returns on every input;
      and the stream accepts a list longer than the one around it.
    - Tries.  [TrieEncoding] (encoding.go), [TrieNode] (node.go, node_enc.go),
      [TrieOps] (trie.go, tracer.go, trie_reader.go), [TrieHash] (hasher.go),
      [TrieCommit] (committer.go, trienode/node.go, parts of triedb/pathdb).
      [TrieSpec] and [TrieUpdate] hold the abstract trie, [TrieStore] the form it is
      stored in, [TriePaths] what the tracer means, [TrieRefine] the refinement: a trie,
      whatever of it is loaded, is a map; its root hash depends on the map alone; what
      a commit writes can be opened again, and the database then holds exactly the
      nodes of the new trie.  [TrieBinding]: the root hash determines the contents.
      [TrieProof] (proof.go): a proof of a key is accepted and gives the value of the
      trie, and no proof gives another.  [StackTrie] (stacktrie.go): the trie for sorted
      keys that hashes what is complete; it has the root hash of the ordinary trie and
      writes exactly its nodes.  [DeriveSha] (core/types/hashing.go): the root of a list
      with any hasher that keeps the laws [TrieHasherLaws], as both tries do.
    - State.  [StateAccess] (access_list.go), [State] (statedb.go, state_object.go,
      journal.go), [StatePrepare] and [StateFinalise] (the start and the end of a
      transaction).  [StateWorld] is the specification, a world of accounts that
      snapshots save; [StateSpec] the refinement, with [StateRevert] and
      [StateSnapshot] for undoing and [StateTidy] for what Finalise relies on;
      [StateSupply] sums balances.  [SecureTrie] (trie/secure_trie.go, trie_id.go, the
      account formats, core/state/database.go) has the tries of accounts and slots;
      [StateRoot] is IntermediateRoot with updateTrie and updateRoot.  [StateRootSpec] shows
      that the root it returns is that of the tries of the world, for a state whose objects
      stand on their tries; [StateStore] that every operation and every revert keeps them
      there; [StateBlock] that this holds from a new state through all transactions of a
      block.
    - Virtual machine.  [VmAnalysis] (analysis.go), [VmCore] (stack, memory, errors),
      [VmGas] (gas tables), [VmInstr] (instructions.go, eips.go), [VmInterp] (zvm.go,
      interpreter.go, jump_table.go) on the interface of [Uint256].  [VmLaws] states
      what the machine needs of the state; StateDB is an instance.  [VmInv], [VmMemory],
      [VmSafeOps], [VmSafeMem], [VmSafeStore], [VmSafeCalls], [VmSafeCallOps], [VmSafety]
      and [VmFuel] prove that running code ends, without a panic, and keeps the
      invariants of the world; [VmSpec] and [VmJump] hold the theorems: calls return,
      failed calls change nothing, static calls write nothing, no balance is made or
      lost, jumps reach instructions.  [VmCreate]: a creation that cannot pay for its
      code is not undone.
    - Transactions.  [TxTypes] (transaction.go, tx_dynamic_fee.go,
      transaction_signing.go, hashing.go of core/types), [TxTransition]
      (core/state_transition.go, core/gaspool.go; TransitionDb is [accept_message],
      [perform_message] and [settle_message]), [TxSpec]: the wire format is exact,
      when a message is accepted, what a refused and what a failed one changes, and
      that fees and refunds settle.  [TxList] (core/txpool/legacypool/list.go) on
      [GoHeap], the heaps of the standard library, models the pooled transactions of an
      account; [TxListSpec] shows that they behave like a plain sorted list.
    - Blocks.  [Bloom] (bloom9.go), [Header] (block.go, gen_header_rlp.go), [Consensus]
      (consensus/beacon, consensus/misc), [BlockContext] (core/zvm.go), [BlockProcess]
      (core/state_processor.go), [BlockSpec], [BlockBody] (ValidateBody of
      core/block_validator.go and the lists of a block): log filters miss nothing, headers are
      known by their hashes, exactly the chains of valid headers are accepted whatever
      the interleaving with an abort, BLOCKHASH gives the ancestors' hashes, a
      processed block conserves money but for base fees and withdrawals, and a header
      fits one body only.

    The components meet at interfaces: the trie at its reader, the state at [Backend]
    and [TrieWriter] with [TrieLaws], the machine at [VmStateDB] with [VmStateLaws], the processor at [BlockStateDB] with
    [BlockStateLaws]; clients are proved against the laws, which the implementations
    are instances of.

    ** Fuel and bounds

    Decoding takes as fuel the length of the input, trie operations the length of the
    key, and the theorems show that this suffices.  The interpreter takes one unit for
    an iteration of its main loop; every iteration costs gas or ends a frame, and
    [VmSafety] shows that more fuel than gas is enough, [VmFuel] that more changes
    nothing.  A block is processed with more fuel than its gas limit, for limits below
    2^56, where the refund counter cannot overflow; the consensus engine accepts limits
    up to 20000000.  GetHashFn loops at most once for each ancestor.

    ** Not modelled

    Concurrency is modelled where its order can be observed (the header batch of
    [Consensus]); the parallel branch of the trie hasher, whose goroutines write to
    separate places, is the sequential loop, and prefetchers are left out, as they only
    warm caches.  Not modelled are: types with their own EncodeRLP or DecodeRLP methods
    and the uint256 writers of rlp; decoding into fields that are tails, RawValues or
    interfaces; trie iterators, range proofs, the binary form of the
    stack trie and the databases under the tries; Commit and Copy of StateDB
    and the snapshot tree; tracer hooks and the code of precompiled contracts; JSON
    conversions; the chain and its database, the pool around the transaction lists, the miner; and the
    network, RPC, console, metrics, key storage and command line, which are I/O around
    the parts above. *)

From Stdlib Require Import ZArith Lia.
From stdpp Require Export base list numbers gmap.
#[global] Open Scope Z_scope.
#[global] Set Default Goal Selector "!".

(** ** Outcomes of Go functions

    A fallible Go function returns a value ([Ok]), an error ([Err]) or panics
    ([Panic]: index out of range, an explicit call of panic).  A loop or a
    recursion that is not structural carries fuel; [OutOfFuel] marks that the
    fuel did not suffice and is excluded by the termination theorems. *)
Inductive outcome (E A : Type) : Type :=
| Ok (a : A)
| Err (e : E)
| Panic
| OutOfFuel.
Arguments Ok {E A} _.
Arguments Err {E A} _.
Arguments Panic {E A}.
Arguments OutOfFuel {E A}.

#[export] Instance outcome_bind {E} : MBind (outcome E) := fun A B f m =>
  match m with
  | Ok a => f a
  | Err e => Err e
  | Panic => Panic
  | OutOfFuel => OutOfFuel
  end.
#[export] Instance outcome_ret {E} : MRet (outcome E) := fun A a => Ok a.

(** The outcome is a value or an error: the call returned. *)
Definition returns {E A} (o : outcome E A) : Prop :=
  match o with Ok _ | Err _ => True | Panic | OutOfFuel => False end.

(** ** Machine integers *)
Definition u8 (x : Z) : Z := x mod 256.
Definition u64 (x : Z) : Z := x mod 2 ^ 64.

Abbreviation bytes := (list Z).
Abbreviation len l := (Z.of_nat (length l)).

Definition is_byte (b : Z) : Prop := 0 <= b < 256.
Abbreviation bytes_ok l := (Forall is_byte l).

(** ** Slices

    [at_ l i] is [l[i]], [slice l a b] is [l[a:b]], [slice_from l a] is
    [l[a:]]; all panic out of range. *)
Definition at_ {E A} (l : list A) (i : Z) : outcome E A :=
  if i <? 0 then Panic
  else match l !! Z.to_nat i with Some x => Ok x | None => Panic end.

Definition slice {E A} (l : list A) (a b : Z) : outcome E (list A) :=
  if (0 <=? a) && (a <=? b) && (b <=? len l)
  then Ok (take (Z.to_nat (b - a)) (drop (Z.to_nat a) l)) else Panic.

Definition slice_from {E A} (l : list A) (a : Z) : outcome E (list A) :=
  slice l a (len l).

(** [put b xs] stores [xs] at [b[0], b[1], ...] by element assignments. *)
Definition put {E A} (b xs : list A) : outcome E (list A) :=
  if len xs <=? len b then Ok (xs ++ drop (length xs) b) else Panic.

(** The assignment [l[i] = x]. *)
Definition set_at {E A} (l : list A) (i : Z) (x : A) : outcome E (list A) :=
  if (0 <=? i) && (i <? len l) then Ok (<[Z.to_nat i := x]> l) else Panic.

(** The built-in [copy(dst[pos:], src)]: the new [dst] and the count. *)
Definition copy_at {E A} (dst : list A) (pos : Z) (src : list A)
  : outcome E (list A * Z) :=
  if (0 <=? pos) && (pos <=? len dst) then
    let n := Nat.min (length dst - Z.to_nat pos) (length src) in
    Ok (take (Z.to_nat pos) dst ++ take n src ++ drop (Z.to_nat pos + n) dst,
        Z.of_nat n)
  else Panic.

(** ** Big-endian numbers *)
Definition be_val (l : bytes) : Z := foldl (fun acc b => acc * 256 + b) 0 l.

Fixpoint be_bytes (n : nat) (x : Z) : bytes :=
  match n with
  | O => []
  | S n' => be_bytes n' (x / 256) ++ [x mod 256]
  end.

(** ** Automation *)
Create HintDb zond.
Create Rewrite HintDb len.

Ltac zb :=
  repeat match goal with
  | H : (_ =? _) = true |- _ => apply Z.eqb_eq in H
  | H : (_ =? _) = false |- _ => apply Z.eqb_neq in H
  | H : (_ <? _) = true |- _ => apply Z.ltb_lt in H
  | H : (_ <? _) = false |- _ => apply Z.ltb_ge in H
  | H : (_ <=? _) = true |- _ => apply Z.leb_le in H
  | H : (_ <=? _) = false |- _ => apply Z.leb_gt in H
  | H : andb _ _ = true |- _ => apply andb_true_iff in H; destruct H
  | H : orb _ _ = false |- _ => apply orb_false_iff in H; destruct H
  | H : negb _ = true |- _ => apply negb_true_iff in H
  | H : negb _ = false |- _ => apply negb_false_iff in H
  end.

(** Split on the first boolean comparison an [if] of the goal (or of a
    hypothesis) tests, keeping the arithmetic fact. *)
Ltac case_if :=
  match goal with
  | |- context [if ?b then _ else _] => destruct b eqn:?; zb
  | H : context [if ?b then _ else _] |- _ => destruct b eqn:?; zb
  end.

(** Discharge a comparison the context decides. *)
Ltac decide_if :=
  match goal with
  | |- context [?a =? ?b] =>
      first [ replace (a =? b) with true by (symmetry; apply Z.eqb_eq; lia)
            | replace (a =? b) with false by (symmetry; apply Z.eqb_neq; lia) ]
  | |- context [?a <? ?b] =>
      first [ replace (a <? b) with true by (symmetry; apply Z.ltb_lt; lia)
            | replace (a <? b) with false by (symmetry; apply Z.ltb_ge; lia) ]
  | |- context [?a <=? ?b] =>
      first [ replace (a <=? b) with true by (symmetry; apply Z.leb_le; lia)
            | replace (a <=? b) with false by (symmetry; apply Z.leb_gt; lia) ]
  end.

(** Invert a bind that returned [Ok]. *)
Ltac inv_bind H :=
  match type of H with
  | (?m ≫= _) = Ok _ =>
      let E := fresh "E" in
      destruct m eqn:E; cbn [mbind outcome_bind] in H; try discriminate H
  end.

(** ** Generic lemmas *)
Lemma u8_id b : is_byte b → u8 b = b.
Proof. apply Z.mod_small. Qed.

Lemma u8_byte x : is_byte (u8 x).
Proof. apply Z.mod_pos_bound; lia. Qed.

Lemma u64_id x : 0 <= x < 2 ^ 64 → u64 x = x.
Proof. apply Z.mod_small. Qed.

Lemma u64_range x : 0 <= u64 x < 2 ^ 64.
Proof. apply Z.mod_pos_bound. lia. Qed.

Lemma len_app {A} (l k : list A) : len (l ++ k) = len l + len k.
Proof. rewrite length_app; lia. Qed.

Lemma len_cons {A} (x : A) l : len (x :: l) = 1 + len l.
Proof. cbn [length]; lia. Qed.

Lemma len_nil {A} : len (@nil A) = 0.
Proof. done. Qed.

Lemma len_nonneg {A} (l : list A) : 0 <= len l.
Proof. lia. Qed.

Lemma concat_elem_len (l : list bytes) e : e ∈ l → len e <= len (concat l).
Proof.
  induction l as [| x l IH]; intros He; [by apply elem_of_nil in He |]. cbn [concat]. rewrite len_app.
  apply elem_of_cons in He as [-> | He]; [lia |]. specialize (IH He). lia.
Qed.

#[export] Hint Resolve u8_byte len_nonneg : zond.
#[export] Hint Rewrite @len_app @len_cons @len_nil : len.

Lemma bind_returns {E A B} (m : outcome E A) (f : A → outcome E B) :
  returns m → (∀ a, m = Ok a → returns (f a)) → returns (m ≫= f).
Proof. destruct m; cbn; intros H Hf; try done. by apply Hf. Qed.

Lemma at_ok {E A} (l : list A) i x :
  l !! i = Some x → @at_ E A l (Z.of_nat i) = Ok x.
Proof.
  intros H. unfold at_. rewrite Nat2Z.id, H.
  destruct (Z.ltb_spec (Z.of_nat i) 0); [lia | done].
Qed.

Lemma at_index {E A} (l : list A) i x : 0 <= i → l !! Z.to_nat i = Some x → @at_ E A l i = Ok x.
Proof. intros Hi Hl. unfold at_. rewrite (proj2 (Z.ltb_ge _ _) Hi). by rewrite Hl. Qed.

Lemma set_at_index {E A} (l : list A) i x y :
  0 <= i → l !! Z.to_nat i = Some x → @set_at E A l i y = Ok (<[Z.to_nat i := y]> l).
Proof. intros Hi Hl. apply lookup_lt_Some in Hl. unfold set_at. by repeat decide_if. Qed.

Lemma at_app {E A} (l k : list A) x : @at_ E A (l ++ x :: k) (len l) = Ok x.
Proof. apply at_ok. by apply list_lookup_middle. Qed.

Lemma set_at_app {E A} (l k : list A) x y :
  @set_at E A (l ++ x :: k) (len l) y = Ok (l ++ y :: k).
Proof.
  unfold set_at. rewrite len_app, len_cons. repeat decide_if. cbn. rewrite Nat2Z.id.
  by rewrite insert_app_r_alt, Nat.sub_diag by lia.
Qed.

Lemma set_at_0 {E A} (k : list A) x y : @set_at E A (x :: k) 0 y = Ok (y :: k).
Proof. exact (set_at_app [] k x y). Qed.

Lemma slice_app_mid {E A} (l1 l2 l3 : list A) :
  @slice E A (l1 ++ l2 ++ l3) (len l1) (len l1 + len l2) = Ok l2.
Proof.
  unfold slice. rewrite !len_app.
  repeat decide_if. cbn. f_equal. rewrite Nat2Z.id.
  rewrite drop_app_length.
  replace (Z.to_nat _) with (length l2) by lia. apply take_app_length.
Qed.

Lemma slice_prefix_app {E A} (l k : list A) n : n = len l → @slice E A (l ++ k) 0 n = Ok l.
Proof. intros ->. apply (slice_app_mid [] l k). Qed.

Lemma slice_from_app {E A} (l1 l2 : list A) :
  @slice_from E A (l1 ++ l2) (len l1) = Ok l2.
Proof.
  unfold slice_from. rewrite len_app.
  rewrite <- (app_nil_r l2) at 1. apply slice_app_mid.
Qed.

Lemma copy_at_app {E A} (l1 l2 l3 src : list A) :
  length src = length l2 →
  @copy_at E A (l1 ++ l2 ++ l3) (len l1) src = Ok (l1 ++ src ++ l3, len src).
Proof.
  intros H. unfold copy_at. rewrite !length_app.
  repeat decide_if. cbn. rewrite Nat2Z.id.
  replace (Nat.min _ _) with (length src) by lia.
  rewrite take_app_length, firstn_all, (app_assoc l1 l2 l3).
  replace (length l1 + length src)%nat with (length (l1 ++ l2))
    by (rewrite length_app; lia).
  by rewrite drop_app_length.
Qed.

Lemma bytes_ok_forallb l :
  forallb (fun b => (0 <=? b) && (b <? 256)) l = true → bytes_ok l.
Proof.
  induction l as [| b l IH]; cbn [forallb]; intros H; constructor; zb.
  - by split.
  - auto.
Qed.

(** Concrete byte strings. *)
Ltac solve_bytes := apply bytes_ok_forallb; vm_compute; reflexivity.

(** *** Bits *)
Lemma lor_shift_add a b k :
  0 <= k → 0 <= b < 2 ^ k → Z.lor (Z.shiftl a k) b = a * 2 ^ k + b.
Proof.
  intros Hk Hb. rewrite Z.shiftl_mul_pow2 by lia.
  rewrite <- Z.lxor_lor; [rewrite <- Z.add_nocarry_lxor; [done |] |];
    apply Z.bits_inj'; intros n Hn; rewrite Z.land_spec, Z.bits_0;
    rewrite <- Z.shiftl_mul_pow2 by lia;
    (destruct (Z.lt_ge_cases n k);
      [rewrite Z.shiftl_spec_low by lia; done |]);
    destruct (decide (b = 0)) as [-> |]; rewrite ?Z.bits_0, ?andb_false_r; auto;
    rewrite (Z.bits_above_log2 b n), andb_false_r; auto; try lia;
    apply Z.log2_lt_pow2; try lia;
    apply Z.lt_le_trans with (2 ^ k); try lia;
    apply Z.pow_le_mono_r; lia.
Qed.

(** *** Big-endian numbers *)
Lemma be_val_app l k : be_val (l ++ k) = be_val l * 256 ^ len k + be_val k.
Proof.
  unfold be_val. rewrite foldl_app.
  generalize (foldl (fun acc b => acc * 256 + b) 0 l). intros a.
  revert a. induction k as [| x k IH] using rev_ind; intros a; [cbn; lia |].
  rewrite !foldl_app; cbn. rewrite IH, length_app; cbn.
  replace (Z.of_nat (length k + 1)) with (Z.succ (len k)) by lia.
  rewrite Z.pow_succ_r by lia. lia.
Qed.

Lemma be_val_cons b l : be_val (b :: l) = b * 256 ^ len l + be_val l.
Proof. exact (be_val_app [b] l). Qed.

Lemma be_val_bound l : bytes_ok l → 0 <= be_val l < 256 ^ len l.
Proof.
  induction 1 as [| b l Hb _ IH]; [cbn; lia |].
  rewrite be_val_cons, len_cons, Z.add_comm, Z.pow_add_r by lia.
  unfold is_byte in Hb. nia.
Qed.

Lemma length_be_bytes n x : length (be_bytes n x) = n.
Proof.
  revert x; induction n as [| n IH]; intros x; [done |]; cbn.
  rewrite length_app, IH; cbn; lia.
Qed.

Lemma be_bytes_ok n x : bytes_ok (be_bytes n x).
Proof.
  revert x; induction n as [| n IH]; intros x; cbn; [constructor |].
  apply Forall_app; split; [done |]. repeat constructor; apply u8_byte.
Qed.

Lemma be_val_be_bytes n x : 0 <= x < 256 ^ Z.of_nat n → be_val (be_bytes n x) = x.
Proof.
  revert x; induction n as [| n IH]; intros x Hx; [cbn in *; lia |].
  cbn [be_bytes]. rewrite be_val_app. rewrite IH.
  - cbn. pose proof (Z.div_mod x 256). lia.
  - rewrite Nat2Z.inj_succ, Z.pow_succ_r in Hx by lia.
    split; [apply Z.div_pos; lia | apply Z.div_lt_upper_bound; lia].
Qed.

Lemma be_bytes_be_val l : bytes_ok l → be_bytes (length l) (be_val l) = l.
Proof.
  induction l as [| b l IH] using rev_ind; intros Hl; [done |].
  apply Forall_app in Hl as [Hl Hb]. inversion Hb as [| ?? Hb' _]; subst.
  rewrite length_app, Nat.add_1_r. cbn [be_bytes].
  rewrite be_val_app. unfold is_byte in Hb'.
  replace (be_val l * _ + be_val [b]) with (b + be_val l * 256) by (cbn; lia).
  rewrite Z.div_add, Z.mod_add by lia.
  rewrite Z.div_small, Z.mod_small by lia. by rewrite Z.add_0_l, IH.
Qed.

Lemma be_bytes_cons n x :
  be_bytes (S n) x = (x / 256 ^ Z.of_nat n) mod 256 :: be_bytes n x.
Proof.
  revert x; induction n as [| n IH]; intros x; [cbn; by rewrite Z.div_1_r |].
  change (be_bytes (S (S n)) x) with (be_bytes (S n) (x / 256) ++ [x mod 256]).
  rewrite IH. cbn [app be_bytes]. f_equal.
  rewrite Z.div_div, Nat2Z.inj_succ, Z.pow_succ_r by lia. done.
Qed.

Lemma be_val_inj l k :
  bytes_ok l → bytes_ok k → length l = length k → be_val l = be_val k → l = k.
Proof.
  intros Hl Hk Hlen Hv.
  by rewrite <- (be_bytes_be_val l), <- (be_bytes_be_val k), Hlen, Hv.
Qed.

#[export] Hint Resolve be_bytes_ok : zond.
