(* ===== verification/RlpRaw.v ===== *)
(** * RLP without reflection: src/rlp/raw.go and the integer and header
    helpers of src/rlp/encode.go

    Sizes and headers ([intsize], [putint], [headsize], [puthead]), the
    splitting of an encoded byte slice ([readSize], [readKind], [Split],
    [SplitString], [SplitUint64], [SplitList], [CountValues]) and
    [AppendUint64].  The theorems relate them to the reference encoding
    [enc_string] / [enc_list]: splitting is total, sound (what it accepts is
    the canonical encoding of what it returns) and complete. *)

From S2P Require Import Prelude.

(** ** Data *)

(** The error values of src/rlp/decode.go, encode.go and package io. *)
Inductive rlp_error : Type :=
| EOL
| ErrExpectedString
| ErrExpectedList
| ErrCanonInt
| ErrCanonSize
| ErrElemTooLarge
| ErrValueTooLarge
| ErrMoreThanOneValue
| errNotInList
| errNotAtEOL
| errUintOverflow
| errUint256Large
| ErrNegativeBigInt
| ErrUnexpectedEOF
| EOF
| errInvalidBool (n : Z)
| errWrongSize (got want : Z)
| errTooFewElements
| errStringTooLong
| errStringTooShort
| errWrongEmptyKind
| decodeError (inner : rlp_error).  (* wrapStreamError: the message depends on [inner] *)

#[export] Instance rlp_error_eq_dec : EqDecision rlp_error.
Proof. solve_decision. Defined.

(** Kind: the kind of value ahead ([Byte], [String], [List] in the source). *)
Inductive Kind : Type := KByte | KString | KList.

#[export] Instance Kind_eq_dec : EqDecision Kind.
Proof. solve_decision. Defined.

Abbreviation go := (outcome rlp_error).

(** ** Integers and headers (encode.go) *)

(** The loop of [intsize]; a uint64 is zero after at most eight shifts. *)
Fixpoint intsize_loop (fuel : nat) (size i : Z) : Z :=
  match fuel with
  | O => size
  | S fuel =>
      let i := Z.shiftr i 8 in
      if i =? 0 then size else intsize_loop fuel (size + 1) i
  end.

Definition intsize (i : Z) : Z := intsize_loop 8 1 i.

(** putint writes [i] to the beginning of [b], big endian, minimal length. *)
Definition putint (b : bytes) (i : Z) : go (bytes * Z) :=
  let byte k := u8 (Z.shiftr i k) in
  if i <? Z.shiftl 1 8 then
    b ← put b [byte 0]; Ok (b, 1)
  else if i <? Z.shiftl 1 16 then
    b ← put b [byte 8; byte 0]; Ok (b, 2)
  else if i <? Z.shiftl 1 24 then
    b ← put b [byte 16; byte 8; byte 0]; Ok (b, 3)
  else if i <? Z.shiftl 1 32 then
    b ← put b [byte 24; byte 16; byte 8; byte 0]; Ok (b, 4)
  else if i <? Z.shiftl 1 40 then
    b ← put b [byte 32; byte 24; byte 16; byte 8; byte 0]; Ok (b, 5)
  else if i <? Z.shiftl 1 48 then
    b ← put b [byte 40; byte 32; byte 24; byte 16; byte 8; byte 0]; Ok (b, 6)
  else if i <? Z.shiftl 1 56 then
    b ← put b [byte 48; byte 40; byte 32; byte 24; byte 16; byte 8; byte 0];
    Ok (b, 7)
  else
    b ← put b [byte 56; byte 48; byte 40; byte 32; byte 24; byte 16; byte 8;
               byte 0];
    Ok (b, 8).

Definition headsize (size : Z) : Z :=
  if size <? 56 then 1 else 1 + intsize size.

(** puthead writes a header to [buf] and returns its length; [tl] is the view
    [buf[1:]], which putint fills in place. *)
Definition puthead (buf : bytes) (smalltag largetag size : Z) : go (bytes * Z) :=
  if size <? 56 then
    buf ← put buf [u8 (smalltag + u8 size)]; Ok (buf, 1)
  else
    tl ← slice_from buf 1;
    '(tl, sizesize) ← putint tl size;
    Ok (u8 (largetag + u8 sizesize) :: tl, sizesize + 1).

(** ** raw.go *)

Definition BytesSize (b : bytes) : Z :=
  match b with
  | [] => 1
  | [x] => if x <=? 0x7f then 1 else 2
  | _ => u64 (headsize (u64 (len b)) + len b)
  end.

Definition StringSize (s : bytes) : Z :=
  match s with
  | [] => 1
  | [x] => if x <=? 0x7f then 1 else 2
  | _ => u64 (headsize (u64 (len s)) + len s)
  end.

Definition ListSize (contentSize : Z) : Z := u64 (headsize contentSize + contentSize).

Definition IntSize (x : Z) : Z := if x <? 0x80 then 1 else 1 + intsize x.

(** [B k] is [b[k]]: in range, since [slen <= len b] was checked. *)
Definition readSize (b : bytes) (slen : Z) : go Z :=
  if len b <? slen then Err ErrUnexpectedEOF
  else
    let B k := nth k b 0 in
    let sh k n := Z.shiftl (B k) n in
    let s := match slen with
             | 1 => B 0%nat
             | 2 => Z.lor (sh 0%nat 8) (B 1%nat)
             | 3 => Z.lor (Z.lor (sh 0%nat 16) (sh 1%nat 8)) (B 2%nat)
             | 4 => Z.lor (Z.lor (Z.lor (sh 0%nat 24) (sh 1%nat 16)) (sh 2%nat 8)) (B 3%nat)
             | 5 => Z.lor (Z.lor (Z.lor (Z.lor (sh 0%nat 32) (sh 1%nat 24)) (sh 2%nat 16))
                      (sh 3%nat 8)) (B 4%nat)
             | 6 => Z.lor (Z.lor (Z.lor (Z.lor (Z.lor (sh 0%nat 40) (sh 1%nat 32)) (sh 2%nat 24))
                      (sh 3%nat 16)) (sh 4%nat 8)) (B 5%nat)
             | 7 => Z.lor (Z.lor (Z.lor (Z.lor (Z.lor (Z.lor (sh 0%nat 48) (sh 1%nat 40))
                      (sh 2%nat 32)) (sh 3%nat 24)) (sh 4%nat 16)) (sh 5%nat 8)) (B 6%nat)
             | 8 => Z.lor (Z.lor (Z.lor (Z.lor (Z.lor (Z.lor (Z.lor (sh 0%nat 56) (sh 1%nat 48))
                      (sh 2%nat 40)) (sh 3%nat 32)) (sh 4%nat 24)) (sh 5%nat 16)) (sh 6%nat 8))
                      (B 7%nat)
             | _ => 0
             end in
    if (s <? 56) || (B 0%nat =? 0) then Err ErrCanonSize else Ok s.

(** readKind: the kind, the tag size and the content size of the first value. *)
Definition readKind (buf : bytes) : go (Kind * Z * Z) :=
  match buf with
  | [] => Err ErrUnexpectedEOF
  | b :: tl =>
      '(k, tagsize, contentsize) ←
        (if b <? 0x80 then Ok (KByte, 0, 1)
         else if b <? 0xB8 then
           let contentsize := u8 (b - 0x80) in
           if (contentsize =? 1) && (1 <? len buf) && (nth 1 buf 0 <? 128)
           then Err ErrCanonSize
           else Ok (KString, 1, contentsize)
         else if b <? 0xC0 then
           contentsize ← readSize tl (u8 (b - 0xB7));
           Ok (KString, u8 (b - 0xB7) + 1, contentsize)
         else if b <? 0xF8 then Ok (KList, 1, u8 (b - 0xC0))
         else
           contentsize ← readSize tl (u8 (b - 0xF7));
           Ok (KList, u8 (b - 0xF7) + 1, contentsize)) : go (Kind * Z * Z);
      if u64 (u64 (len buf) - tagsize) <? contentsize
      then Err ErrValueTooLarge
      else Ok (k, tagsize, contentsize)
  end.

Definition Split (b : bytes) : go (Kind * bytes * bytes) :=
  '(k, ts, cs) ← readKind b;
  content ← slice b ts (u64 (ts + cs));
  rest ← slice_from b (u64 (ts + cs));
  Ok (k, content, rest).

Definition SplitString (b : bytes) : go (bytes * bytes) :=
  '(k, content, rest) ← Split b;
  match k with
  | KList => Err ErrExpectedString
  | _ => Ok (content, rest)
  end.

Definition SplitUint64 (b : bytes) : go (Z * bytes) :=
  '(content, rest) ← SplitString b;
  match content with
  | [] => Ok (0, rest)
  | [x] => if x =? 0 then Err ErrCanonInt else Ok (x, rest)
  | _ =>
      if 8 <? len content then Err errUintOverflow
      else match readSize content (u8 (len content)) with
           | Ok x => Ok (x, rest)
           | Err _ => Err ErrCanonInt
           | Panic => Panic
           | OutOfFuel => OutOfFuel
           end
  end.

Definition SplitList (b : bytes) : go (bytes * bytes) :=
  '(k, content, rest) ← Split b;
  match k with
  | KList => Ok (content, rest)
  | _ => Err ErrExpectedList
  end.

(** The loop of CountValues: every value takes at least one byte. *)
Fixpoint CountValues_loop (fuel : nat) (i : Z) (b : bytes) : go Z :=
  match b with
  | [] => Ok i
  | _ =>
      match fuel with
      | O => OutOfFuel
      | S fuel =>
          '(_, tagsize, size) ← readKind b;
          b' ← slice_from b (u64 (tagsize + size));
          CountValues_loop fuel (i + 1) b'
      end
  end.

Definition CountValues (b : bytes) : go Z := CountValues_loop (length b) 0 b.

Definition AppendUint64 (b : bytes) (i : Z) : bytes :=
  let byte k := u8 (Z.shiftr i k) in
  if i =? 0 then b ++ [0x80]
  else if i <? 128 then b ++ [byte 0]
  else if i <? Z.shiftl 1 8 then b ++ [0x81; byte 0]
  else if i <? Z.shiftl 1 16 then b ++ [0x82; byte 8; byte 0]
  else if i <? Z.shiftl 1 24 then b ++ [0x83; byte 16; byte 8; byte 0]
  else if i <? Z.shiftl 1 32 then b ++ [0x84; byte 24; byte 16; byte 8; byte 0]
  else if i <? Z.shiftl 1 40 then
    b ++ [0x85; byte 32; byte 24; byte 16; byte 8; byte 0]
  else if i <? Z.shiftl 1 48 then
    b ++ [0x86; byte 40; byte 32; byte 24; byte 16; byte 8; byte 0]
  else if i <? Z.shiftl 1 56 then
    b ++ [0x87; byte 48; byte 40; byte 32; byte 24; byte 16; byte 8; byte 0]
  else
    b ++ [0x88; byte 56; byte 48; byte 40; byte 32; byte 24; byte 16; byte 8;
          byte 0].

(** ** Reference encoding *)

(** The header of a payload of [n] bytes. *)
Definition head (small large n : Z) : bytes :=
  if n <? 56 then [small + n]
  else large + intsize n :: be_bytes (Z.to_nat (intsize n)) n.

Definition single_byte (b : bytes) : bool :=
  match b with [x] => x <? 128 | _ => false end.

Definition enc_string (b : bytes) : bytes :=
  if single_byte b then b else head 0x80 0xB7 (len b) ++ b.

Definition enc_list (payload : bytes) : bytes :=
  head 0xC0 0xF7 (len payload) ++ payload.

(** What Split's triple denotes. *)
Definition enc_kind (k : Kind) (content : bytes) : bytes :=
  match k with
  | KList => enc_list content
  | _ => enc_string content
  end.

Definition kind_fits (k : Kind) (content : bytes) : Prop :=
  match k with
  | KByte => single_byte content = true
  | KString => single_byte content = false
  | KList => True
  end.

(** The minimal big-endian form of an unsigned integer. *)
Definition min_be (i : Z) : bytes :=
  if i =? 0 then [] else be_bytes (Z.to_nat (intsize i)) i.

#[global] Arguments intsize : simpl never.
#[global] Arguments head : simpl never.

(** A Go slice's length is a non-negative int. *)
Abbreviation slice_len b := (len b < 2 ^ 63).

(** ** Lemmas: sizes *)

Lemma intsize_unique i n :
  1 <= n <= 8 → 0 <= i < 256 ^ n → (n = 1 ∨ 256 ^ (n - 1) <= i) → intsize i = n.
Proof.
  intros Hn Hi Hl. unfold intsize.
  assert (n = 1 ∨ n = 2 ∨ n = 3 ∨ n = 4 ∨ n = 5 ∨ n = 6 ∨ n = 7 ∨ n = 8) as Hc by lia.
  cbn [intsize_loop]. rewrite !Z.shiftr_shiftr, !Z.shiftr_div_pow2 by lia.
  assert (Hlo : ∀ k, 0 <= k → i < 2 ^ k → i / 2 ^ k = 0)
    by (intros; apply Z.div_small; lia).
  assert (Hhi : ∀ k, 0 <= k → 2 ^ k <= i → i / 2 ^ k ≠ 0)
    by (intros k ? ?; pose proof (Z.div_str_pos i (2 ^ k)); lia).
  repeat match goal with
  | |- context [?x / 2 ^ ?k =? 0] =>
      let v := eval compute in k in change k with v
  end.
  destruct Hc as [-> | [-> | [-> | [-> | [-> | [-> | [-> | ->]]]]]]];
    cbn in Hi, Hl;
    repeat match goal with
    | |- context [i / 2 ^ ?k =? 0] =>
        first [ rewrite (proj2 (Z.eqb_neq (i / 2 ^ k) 0)) by (apply Hhi; cbn; lia)
              | rewrite (proj2 (Z.eqb_eq (i / 2 ^ k) 0)) by (apply Hlo; cbn; lia) ]
    end; reflexivity.
Qed.

Lemma intsize_exists i :
  0 <= i < 2 ^ 64 →
  ∃ n, intsize i = n ∧ 1 <= n <= 8 ∧ i < 256 ^ n ∧ (n = 1 ∨ 256 ^ (n - 1) <= i).
Proof.
  intros Hi. change (2 ^ 64) with (256 ^ 8) in Hi.
  assert (∃ n, 1 <= n <= 8 ∧ i < 256 ^ n ∧ (n = 1 ∨ 256 ^ (n - 1) <= i)) as (n & ? & ? & ?).
  { destruct (Z.lt_ge_cases i (256 ^ 1)); [by exists 1; split_and!; try lia; left |].
    destruct (Z.lt_ge_cases i (256 ^ 2)); [by exists 2; split_and!; try lia; right |].
    destruct (Z.lt_ge_cases i (256 ^ 3)); [by exists 3; split_and!; try lia; right |].
    destruct (Z.lt_ge_cases i (256 ^ 4)); [by exists 4; split_and!; try lia; right |].
    destruct (Z.lt_ge_cases i (256 ^ 5)); [by exists 5; split_and!; try lia; right |].
    destruct (Z.lt_ge_cases i (256 ^ 6)); [by exists 6; split_and!; try lia; right |].
    destruct (Z.lt_ge_cases i (256 ^ 7)); [by exists 7; split_and!; try lia; right |].
    by exists 8; split_and!; try lia; right. }
  exists n. split; [apply intsize_unique; auto; lia |]. split_and!; try lia; done.
Qed.

Lemma intsize_range i : 0 <= i < 2 ^ 64 → 1 <= intsize i <= 8.
Proof. intros (n & -> & ? & _)%intsize_exists. done. Qed.

Lemma intsize_lt i : 0 <= i < 2 ^ 64 → i < 256 ^ intsize i.
Proof. intros (n & -> & _ & ? & _)%intsize_exists. done. Qed.

Lemma head_length small large n :
  0 <= n < 2 ^ 64 → len (head small large n) = headsize n.
Proof.
  intros Hn. unfold head, headsize. case_if; [done |].
  rewrite len_cons, length_be_bytes. pose proof (intsize_range n Hn). lia.
Qed.

Lemma headsize_range n : 0 <= n < 2 ^ 64 → 1 <= headsize n <= 9.
Proof.
  intros Hn. unfold headsize. pose proof (intsize_range n Hn). case_if; lia.
Qed.

(** The byte expressions [byte(i >> k)] spell out [be_bytes]. *)
Ltac be_expand :=
  repeat match goal with
  | |- context [Z.to_nat (Zpos ?k)] =>
      let v := eval vm_compute in (Z.to_nat (Zpos k)) in
      change (Z.to_nat (Zpos k)) with v
  end;
  cbn [be_bytes app]; unfold u8;
  rewrite ?Z.shiftr_div_pow2, ?Z.div_div, ?Z.pow_0_r, ?Z.div_1_r by lia;
  reflexivity.

Lemma put_ok {A} (b xs : list A) :
  (length xs <= length b)%nat → put b xs = (Ok (xs ++ drop (length xs) b) : go _).
Proof. intros H. unfold put. by decide_if. Qed.

Ltac shiftl_consts :=
  repeat match goal with
  | H : context [Z.shiftl 1 ?k] |- _ =>
      let v := eval vm_compute in (Z.shiftl 1 k) in change (Z.shiftl 1 k) with v in H
  end.

Ltac int_case n Hi :=
  shiftl_consts;
  match type of Hi with
  | 0 <= ?i < _ =>
      replace (intsize i) with n by
        (symmetry; apply intsize_unique; cbn in *; lia)
  end.

Lemma putint_ok b i :
  0 <= i < 2 ^ 64 → intsize i <= len b →
  putint b i = Ok (be_bytes (Z.to_nat (intsize i)) i ++ drop (Z.to_nat (intsize i)) b,
                   intsize i).
Proof.
  intros Hi. unfold putint.
  repeat case_if;
    [int_case 1 Hi | int_case 2 Hi | int_case 3 Hi | int_case 4 Hi
    | int_case 5 Hi | int_case 6 Hi | int_case 7 Hi | int_case 8 Hi];
    intros Hb; rewrite put_ok by (cbn; lia); cbn [mbind outcome_bind];
    do 3 f_equal; be_expand.
Qed.

Lemma puthead_ok buf small large n :
  0 <= n < 2 ^ 64 → 0 <= small → small + 55 < 256 → 0 <= large → large + 8 < 256 →
  headsize n <= len buf →
  puthead buf small large n =
    Ok (head small large n ++ drop (length (head small large n)) buf, headsize n).
Proof.
  intros Hn Hs Hs' Hl Hl'. unfold puthead, head, headsize.
  pose proof (intsize_range n Hn) as Hr.
  case_if; intros Hb.
  - rewrite put_ok by (cbn; lia). cbn [mbind outcome_bind]. unfold u8.
    by rewrite (Z.mod_small n), (Z.mod_small (small + n)) by lia.
  - destruct buf as [| x buf]; [cbn in Hb; lia |].
    rewrite len_cons in Hb.
    change (x :: buf) with ([x] ++ buf).
    rewrite (slice_from_app [x] buf : slice_from ([x] ++ buf) 1 = _).
    cbn [mbind outcome_bind]. rewrite putint_ok by lia. cbn [mbind outcome_bind].
    cbn [length app drop]. rewrite length_be_bytes. unfold u8.
    rewrite (Z.mod_small (intsize n)), (Z.mod_small (large + _)) by lia.
    do 2 f_equal. lia.
Qed.

(** ** Lemmas: readSize *)

(** One Horner step of the shifted disjunctions. *)
Lemma horner_lor a b k :
  0 <= k → is_byte b → Z.lor (Z.shiftl a (k + 8)) (Z.shiftl b k) = Z.shiftl (a * 256 + b) k.
Proof.
  intros Hk Hb. replace (k + 8) with (8 + k) by lia.
  rewrite <- Z.shiftl_shiftl, <- Z.shiftl_lor by lia.
  by rewrite lor_shift_add by (unfold is_byte in Hb; lia).
Qed.

Lemma horner_last a b : is_byte b → Z.lor (Z.shiftl a 8) b = a * 256 + b.
Proof. intros Hb. by rewrite lor_shift_add by (unfold is_byte in Hb; lia). Qed.

Lemma be_val_1 a : be_val [a] = a.
Proof. done. Qed.

(** The value readSize assembles from a prefix of [n] bytes. *)
Lemma readSize_spec b n :
  bytes_ok b → (1 <= n <= 8)%nat → (n <= length b)%nat →
  readSize b (Z.of_nat n) =
    if (be_val (take n b) <? 56) || (nth 0 b 0 =? 0)
    then Err ErrCanonSize else Ok (be_val (take n b)).
Proof.
  intros Hok Hn Hl. unfold readSize. decide_if.
  assert (n = 1 ∨ n = 2 ∨ n = 3 ∨ n = 4 ∨ n = 5 ∨ n = 6 ∨ n = 7 ∨ n = 8)%nat as Hc by lia.
  destruct Hc as [-> | [-> | [-> | [-> | [-> | [-> | [-> | ->]]]]]]];
    do 8 (try (destruct b as [| ? b]; [cbn in Hl; lia |]));
    repeat match goal with
    | H : Forall _ (_ :: _) |- _ => apply Forall_cons in H as [? H]
    end;
    match goal with
    | |- context [Z.of_nat ?k] =>
        let v := eval vm_compute in (Z.of_nat k) in change (Z.of_nat k) with v
    end;
    cbn -[Z.lor Z.shiftl be_val Z.ltb Z.eqb];
    rewrite ?(horner_lor _ _ 48), ?(horner_lor _ _ 40), ?(horner_lor _ _ 32),
      ?(horner_lor _ _ 24), ?(horner_lor _ _ 16), ?(horner_lor _ _ 8),
      ?horner_last by (lia || done); reflexivity.
Qed.

Lemma intsize_be_val x l :
  bytes_ok (x :: l) → x ≠ 0 → (length l <= 7)%nat →
  intsize (be_val (x :: l)) = len (x :: l).
Proof.
  intros Hok Hx Hl. pose proof (be_val_bound _ Hok) as Hb.
  apply Forall_cons in Hok as [Hx' Hok]. pose proof (be_val_bound _ Hok) as Hb'.
  apply intsize_unique; [cbn [length]; lia | done |]. right.
  rewrite be_val_cons, len_cons. replace (1 + len l - 1) with (len l) by lia.
  unfold is_byte in Hx'. nia.
Qed.

Lemma be_bytes_intsize_hd n :
  0 < n < 2 ^ 64 → nth 0 (be_bytes (Z.to_nat (intsize n)) n) 0 ≠ 0.
Proof.
  intros Hn. destruct (intsize_exists n) as (m & -> & Hm & Hlt & Hlo); [lia |].
  destruct (Z.to_nat m) as [| k] eqn:Ek; [lia |]. rewrite be_bytes_cons; cbn [nth].
  assert (Hge : 256 ^ Z.of_nat k <= n).
  { destruct Hlo as [-> | Hlo]; [by replace (Z.of_nat k) with 0 by lia; cbn; lia |].
    by replace (Z.of_nat k) with (m - 1) by lia. }
  assert (Hup : n < 256 * 256 ^ Z.of_nat k).
  { rewrite <- Z.pow_succ_r by lia. by replace (Z.succ _) with m by lia. }
  rewrite Z.mod_small.
  - pose proof (Z.div_str_pos n (256 ^ Z.of_nat k)). lia.
  - split; [apply Z.div_pos; lia | apply Z.div_lt_upper_bound; lia].
Qed.

(** ** Split: soundness *)

(** [readKind]'s answer describes a decomposition of its input. *)
Definition splits (b : bytes) (k : Kind) (ts cs : Z) : Prop :=
  ∃ hd content rest,
    b = hd ++ content ++ rest ∧ len hd = ts ∧ len content = cs ∧
    hd ++ content = enc_kind k content ∧ kind_fits k content.

Lemma readSize_head large b tl s :
  bytes_ok tl → 1 <= b - large <= 8 →
  readSize tl (b - large) = Ok s →
  56 <= s < 2 ^ 64 ∧
  ∃ hd r, tl = hd ++ r ∧ len hd = b - large ∧ ∀ small, head small large s = b :: hd.
Proof.
  intros Hok Hn H. set (n := Z.to_nat (b - large)).
  destruct (Z.lt_ge_cases (len tl) (b - large)) as [Hlt | Hge].
  { unfold readSize in H. by rewrite (proj2 (Z.ltb_lt _ _)) in H by lia. }
  assert (En : b - large = Z.of_nat n) by lia. rewrite En in H.
  rewrite readSize_spec in H by (done || lia). case_if; [done |]. zb.
  injection H as <-.
  assert (Hokn : bytes_ok (take n tl)) by (by apply Forall_take).
  assert (Hlen : length (take n tl) = n) by (rewrite length_take; lia).
  assert (Hsz : intsize (be_val (take n tl)) = Z.of_nat n).
  { destruct tl as [| x tl]; [cbn in *; lia |].
    destruct n as [| m]; [lia |]. cbn [take] in *.
    rewrite intsize_be_val; [lia | done | done | cbn in Hlen; lia]. }
  pose proof (be_val_bound _ Hokn) as Hbd. rewrite Hlen in Hbd.
  split.
  - split; [lia |]. apply Z.lt_le_trans with (256 ^ Z.of_nat n); [lia |].
    change (2 ^ 64) with (256 ^ 8). apply Z.pow_le_mono_r; lia.
  - exists (take n tl), (drop n tl). split_and!; [by rewrite take_drop | lia |].
    intros small. unfold head. decide_if. rewrite Hsz, Nat2Z.id.
    rewrite <- Hlen at 2. rewrite be_bytes_be_val by done. f_equal. lia.
Qed.

Lemma readSize_len b n s : readSize b n = Ok s → n <= len b.
Proof. unfold readSize. case_if; [done | lia]. Qed.

Lemma content_split (tl : bytes) cs :
  0 <= cs <= len tl → ∃ c r, tl = c ++ r ∧ len c = cs.
Proof.
  intros H. exists (take (Z.to_nat cs) tl), (drop (Z.to_nat cs) tl).
  rewrite take_drop, length_take. split; [done | lia].
Qed.

Lemma splits_long k small large b tl s :
  ((k = KString ∧ small = 0x80 ∧ large = 0xB7) ∨ (k = KList ∧ small = 0xC0 ∧ large = 0xF7)) →
  bytes_ok tl → 1 <= b - large <= 8 → readSize tl (b - large) = Ok s →
  s <= 1 + len tl - (b - large + 1) →
  splits (b :: tl) k (b - large + 1) s.
Proof.
  intros Hk Hok Hb H Hle.
  destruct (readSize_head large b tl s Hok Hb H) as (Hs & hd & r & -> & Hhd & Hh).
  rewrite len_app in Hle.
  destruct (content_split r s) as (c & r' & -> & Hc); [lia |].
  exists (b :: hd), c, r'. split_and!; [done | rewrite len_cons; lia | done | |].
  - destruct Hk as [(-> & -> & ->) | (-> & -> & ->)]; cbn [enc_kind].
    + unfold enc_string. destruct c as [| x [| y c]]; cbn [single_byte];
        rewrite ?Hc, Hh; try done. rewrite len_cons in Hc; cbn in Hc; lia.
    + unfold enc_list. by rewrite Hc, Hh.
  - destruct Hk as [(-> & _) | (-> & _)]; [| done].
    destruct c as [| x [| y c]]; cbn; try done. rewrite len_cons in Hc; cbn in Hc; lia.
Qed.

Lemma readKind_sound b k ts cs :
  bytes_ok b → slice_len b → readKind b = Ok (k, ts, cs) → splits b k ts cs.
Proof.
  intros Hok Hlen H. destruct b as [| b tl]; [done |].
  apply Forall_cons in Hok as [Hb Hok]. unfold is_byte in Hb.
  unfold readKind in H. inv_bind H. destruct a as [[k' ts'] cs'].
  case_if; [done |]. injection H as <- <- <-.
  rewrite len_cons in *. rewrite (u64_id (1 + len tl)) in * by lia.
  repeat case_if; try done; [injection E as <- <- <- .. | | injection E as <- <- <- |].
  - rewrite u64_id in * by lia. exists [], [b], tl. split_and!; try done; cbn.
    + unfold enc_string; cbn. by rewrite (proj2 (Z.ltb_lt b 128)) by lia.
    + by apply Z.ltb_lt.
  - rewrite u64_id in * by lia. rewrite u8_id in * by (unfold is_byte; lia).
    destruct (content_split tl (b - 128)) as (c & r & -> & Hc); [lia |].
    assert (Hs : single_byte c = false).
    { destruct c as [| x [| y c]]; try done. cbn in Hc. cbn.
      match goal with H : _ && _ = false |- _ => rename H into Hf end.
      apply andb_false_iff in Hf as [Hf | Hf]; [| by zb; apply Z.ltb_ge].
      rewrite len_app in Hf; cbn in Hf.
      apply andb_false_iff in Hf as [Hf | Hf]; zb; lia. }
    exists [b], c, r. split_and!; try done. cbn [enc_kind]. unfold enc_string.
    rewrite Hs, Hc. unfold head. decide_if. by replace (128 + (b - 128)) with b by lia.
  - inv_bind E. injection E as <- <- <-. rewrite u8_id in * by (unfold is_byte; lia).
    match goal with H : readSize _ _ = Ok _ |- _ => pose proof (readSize_len _ _ _ H) end.
    rewrite u64_id in * by lia. eapply splits_long; eauto; lia.
  - rewrite u64_id in * by lia. rewrite u8_id in * by (unfold is_byte; lia).
    destruct (content_split tl (b - 192)) as (c & r & -> & Hc); [lia |].
    exists [b], c, r. split_and!; try done. cbn [enc_kind]. unfold enc_list, head.
    rewrite Hc. decide_if. by replace (192 + (b - 192)) with b by lia.
  - inv_bind E. injection E as <- <- <-. rewrite u8_id in * by (unfold is_byte; lia).
    match goal with H : readSize _ _ = Ok _ |- _ => pose proof (readSize_len _ _ _ H) end.
    rewrite u64_id in * by lia. eapply splits_long; eauto; lia.
Qed.

(** ** Split: completeness *)

(** readSize looks at the first [n] bytes only. *)
Lemma readSize_app l r :
  (1 <= length l <= 8)%nat → readSize (l ++ r) (len l) = readSize l (len l).
Proof.
  intros Hl. unfold readSize. rewrite len_app. repeat decide_if.
  do 8 (try (destruct l as [| ? l]; [cbn in Hl; try lia; reflexivity |])).
  destruct l; [reflexivity | cbn in Hl; lia].
Qed.

Lemma readSize_be_bytes n r :
  56 <= n < 2 ^ 64 →
  readSize (be_bytes (Z.to_nat (intsize n)) n ++ r) (intsize n) = Ok n.
Proof.
  intros Hn. pose proof (intsize_range n ltac:(lia)) as Hr.
  set (l := be_bytes (Z.to_nat (intsize n)) n).
  assert (Hl : length l = Z.to_nat (intsize n)) by apply length_be_bytes.
  replace (intsize n) with (len l) by lia. rewrite readSize_app by lia.
  rewrite readSize_spec by (lia || apply be_bytes_ok).
  rewrite firstn_all. unfold l at 1 3. rewrite be_val_be_bytes.
  - decide_if. cbn [orb]. rewrite (proj2 (Z.eqb_neq _ 0)); [done |].
    apply be_bytes_intsize_hd. lia.
  - rewrite Z2Nat.id by lia. pose proof (intsize_lt n). lia.
Qed.

Lemma head_short small large n : n < 56 → head small large n = [small + n].
Proof. intros. unfold head. by decide_if. Qed.

Lemma head_long small large n :
  56 <= n → head small large n = large + intsize n :: be_bytes (Z.to_nat (intsize n)) n.
Proof. intros. unfold head. by decide_if. Qed.

Definition tags (k : Kind) (small large : Z) : Prop :=
  (k = KString ∧ small = 0x80 ∧ large = 0xB7) ∨ (k = KList ∧ small = 0xC0 ∧ large = 0xF7).

Lemma size_check {A} (x : go A) n ts cs :
  0 <= ts → ts + cs <= n → 0 <= cs → n < 2 ^ 63 →
  (if u64 (u64 n - ts) <? cs then Err ErrValueTooLarge else x) = x.
Proof. intros. rewrite !u64_id by (rewrite ?u64_id; lia). by decide_if. Qed.

Lemma readKind_long k small large c r :
  tags k small large → 56 <= len c →
  slice_len (head small large (len c) ++ c ++ r) →
  readKind (head small large (len c) ++ c ++ r) =
    Ok (k, len (head small large (len c)), len c).
Proof.
  intros Hk Hs. rewrite !len_app. pose proof (len_nonneg r). intros Hlen.
  pose proof (intsize_range (len c) ltac:(lia)) as Hr.
  rewrite head_long in * by lia. rewrite len_cons, length_be_bytes in *.
  destruct Hk as [(-> & -> & ->) | (-> & -> & ->)]; cbn [app readKind];
    rewrite !(proj2 (Z.ltb_ge _ _)) by lia;
    repeat decide_if; rewrite Z.add_simpl_l, u8_id by (unfold is_byte; lia);
    rewrite readSize_be_bytes by lia; cbn [mbind outcome_bind];
    rewrite size_check by (rewrite ?len_cons, ?len_app, ?length_be_bytes; lia);
    do 3 f_equal; lia.
Qed.

Lemma readKind_short_list c r :
  len c < 56 → slice_len (192 + len c :: c ++ r) →
  readKind (192 + len c :: c ++ r) = Ok (KList, 1, len c).
Proof.
  intros Hs Hlen. cbn [readKind]. repeat decide_if.
  rewrite u8_id by (unfold is_byte; lia). cbn [mbind outcome_bind].
  replace (192 + len c - 192) with (len c) by lia.
  rewrite len_cons, len_app in *. rewrite size_check by lia. done.
Qed.

Lemma readKind_short_string c r :
  len c < 56 → single_byte c = false → slice_len (128 + len c :: c ++ r) →
  readKind (128 + len c :: c ++ r) = Ok (KString, 1, len c).
Proof.
  intros Hs Hfit Hlen. cbn [readKind]. repeat decide_if.
  replace (128 + len c - 128) with (len c) by lia.
  rewrite u8_id by (unfold is_byte; lia).
  rewrite len_cons, len_app in *. pose proof (len_nonneg r).
  assert (Hn : (len c =? 1) && (1 <? 1 + (len c + len r)) &&
               (nth 1 (128 + len c :: c ++ r) 0 <? 128) = false).
  { destruct c as [| x [| y c]]; [done | | rewrite !len_cons; by decide_if].
    cbn [nth app single_byte] in Hfit |- *. rewrite Hfit. apply andb_false_r. }
  rewrite Hn. cbn [mbind outcome_bind]. by rewrite size_check by lia.
Qed.

Lemma readKind_complete k c r :
  kind_fits k c → slice_len (enc_kind k c ++ r) →
  readKind (enc_kind k c ++ r) = Ok (k, len (enc_kind k c) - len c, len c).
Proof.
  intros Hfit Hlen. destruct k; cbn [enc_kind kind_fits] in *.
  - destruct c as [| x [| y c]]; try done. unfold enc_string in *.
    rewrite Hfit in *. cbn in Hfit. zb. cbn [app readKind] in *. decide_if.
    cbn [mbind outcome_bind]. rewrite len_cons in *.
    by rewrite size_check by lia.
  - unfold enc_string in *. rewrite Hfit in *. rewrite len_app, Z.add_simpl_r.
    rewrite <- app_assoc in *.
    destruct (Z.lt_ge_cases (len c) 56) as [Hs | Hs].
    + rewrite head_short in * by lia. exact (readKind_short_string c r Hs Hfit Hlen).
    + apply readKind_long; [by left | lia | done].
  - unfold enc_list in *. rewrite len_app, Z.add_simpl_r. rewrite <- app_assoc in *.
    destruct (Z.lt_ge_cases (len c) 56) as [Hs | Hs].
    + rewrite head_short in * by lia. exact (readKind_short_list c r Hs Hlen).
    + apply readKind_long; [by right | lia | done].
Qed.

Lemma enc_kind_hd k c : ∃ hd, enc_kind k c = hd ++ c.
Proof.
  destruct k; cbn; unfold enc_string, enc_list; try (case_if; [by exists [] |]); eauto.
Qed.

Lemma enc_string_bound b : len b < 2 ^ 63 → len (enc_string b) <= 9 + len b.
Proof.
  intros Hb. unfold enc_string. case_if; [lia |]. rewrite len_app, head_length by lia. pose proof (headsize_range (len b)). lia.
Qed.

Lemma Split_of_readKind k hd c r :
  slice_len (hd ++ c ++ r) →
  readKind (hd ++ c ++ r) = Ok (k, len hd, len c) →
  Split (hd ++ c ++ r) = Ok (k, c, r).
Proof.
  intros Hlen H. unfold Split. rewrite H. cbn [mbind outcome_bind].
  rewrite !len_app in Hlen. pose proof (len_nonneg r).
  rewrite u64_id by lia. rewrite slice_app_mid. cbn [mbind outcome_bind].
  rewrite app_assoc, <- len_app, slice_from_app. done.
Qed.

(** ** Properties of raw.go *)

Lemma Split_spec b k c r :
  bytes_ok b → slice_len b →
  Split b = Ok (k, c, r) ↔ b = enc_kind k c ++ r ∧ kind_fits k c.
Proof.
  intros Hok Hlen. split.
  - intros H. unfold Split in H. inv_bind H. destruct a as [[k' ts] cs].
    apply readKind_sound in E as (hd & c' & r' & -> & <- & <- & Henc & Hfit); try done.
    rewrite !len_app in Hlen. pose proof (len_nonneg r').
    rewrite u64_id, slice_app_mid in H by lia. cbn [mbind outcome_bind] in H.
    rewrite app_assoc, <- len_app, slice_from_app in H. injection H as <- <- <-.
    by rewrite app_assoc, Henc.
  - intros [-> Hfit]. pose proof (readKind_complete k c r Hfit Hlen) as H.
    destruct (enc_kind_hd k c) as [hd Hhd]. rewrite Hhd, <- app_assoc in *.
    rewrite len_app, Z.add_simpl_r in H. by apply Split_of_readKind.
Qed.

(** [Split] accepts exactly the canonical encodings: on any byte slice it
    returns kind [k], content [c] and rest [r] if and only if the slice is the
    canonical encoding of [c] as a [k] followed by [r] (a one-byte string below
    0x80 being encoded as itself, sizes minimal). *)
Theorem Split_correct b k c r :
  bytes_ok b → slice_len b →
  Split b = Ok (k, c, r) ↔ b = enc_kind k c ++ r ∧ kind_fits k c.
Proof. apply Split_spec. Qed.

Lemma Split_correct_witness :
  Split [0xb8; 0x01; 0x00] = Err ErrCanonSize ∧
  [0x83; 1; 2; 3; 0x80] = enc_kind KString [1; 2; 3] ++ [0x80].
Proof.
  split; [done |].
  apply (Split_correct [0x83; 1; 2; 3; 0x80] KString [1; 2; 3] [0x80]);
    [solve_bytes | done | vm_compute; reflexivity].
Defined.

Lemma readSize_returns b n : returns (readSize b n).
Proof. unfold readSize. repeat case_if; done. Qed.

Lemma readKind_returns b : returns (readKind b).
Proof.
  destruct b as [| b tl]; [done |]. unfold readKind.
  apply bind_returns; [| intros [[??]?] _; by case_if].
  repeat case_if; try done; (apply bind_returns; [apply readSize_returns | done]).
Qed.

Lemma Split_returns b : bytes_ok b → slice_len b → returns (Split b).
Proof.
  intros Hok Hlen. unfold Split. apply bind_returns; [apply readKind_returns |].
  intros [[k ts] cs] E.
  apply readKind_sound in E as (hd & c & r & -> & <- & <- & _); try done.
  rewrite !len_app in Hlen. pose proof (len_nonneg r).
  rewrite u64_id, slice_app_mid by lia. cbn [mbind outcome_bind].
  by rewrite app_assoc, <- len_app, slice_from_app.
Qed.

Lemma SplitString_returns b : bytes_ok b → slice_len b → returns (SplitString b).
Proof.
  intros Hok Hlen. apply bind_returns; [by apply Split_returns | by intros [[[] ?]?] _].
Qed.

Lemma SplitList_returns b : bytes_ok b → slice_len b → returns (SplitList b).
Proof.
  intros Hok Hlen. apply bind_returns; [by apply Split_returns | by intros [[[] ?]?] _].
Qed.

(** [Split], [SplitString], [SplitList] and [SplitUint64] return a value or
    an error on every byte slice: no slice expression is out of range. *)
Theorem raw_split_total b :
  bytes_ok b → slice_len b →
  returns (Split b) ∧ returns (SplitString b) ∧ returns (SplitList b) ∧
  returns (SplitUint64 b).
Proof.
  intros Hok Hlen. pose proof (SplitString_returns b Hok Hlen) as HS.
  split_and!; [by apply Split_returns | done | by apply SplitList_returns |].
  apply bind_returns; [done |]. intros [c r] _.
  destruct c as [| x [| y c]]; [done | by case_if |].
  case_if; [done |].
  pose proof (readSize_returns (x :: y :: c) (u8 (len (x :: y :: c)))) as Hr.
  by destruct (readSize _ _).
Qed.

Lemma raw_split_total_witness : returns (SplitUint64 [0x82; 0x01; 0x00]).
Proof.
  apply (raw_split_total [0x82; 0x01; 0x00]); [solve_bytes | done].
Defined.

(** ** Integers *)

Lemma min_be_length i : 0 <= i < 2 ^ 64 → (length (min_be i) <= 8)%nat.
Proof.
  intros Hi. unfold min_be. case_if; [cbn; lia |]. rewrite length_be_bytes.
  pose proof (intsize_range i Hi). lia.
Qed.

Lemma min_be_ok i : bytes_ok (min_be i).
Proof. unfold min_be. case_if; [constructor | apply be_bytes_ok]. Qed.

Lemma be_val_min_be i : 0 <= i < 2 ^ 64 → be_val (min_be i) = i.
Proof.
  intros Hi. unfold min_be. case_if; [by subst |]. apply be_val_be_bytes.
  pose proof (intsize_range i Hi). rewrite Z2Nat.id by lia.
  pose proof (intsize_lt i Hi). lia.
Qed.

Lemma min_be_hd i : 0 < i < 2 ^ 64 → nth 0 (min_be i) 0 ≠ 0.
Proof. intros Hi. unfold min_be. decide_if. by apply be_bytes_intsize_hd. Qed.

Lemma min_be_be_val x l :
  bytes_ok (x :: l) → x ≠ 0 → (length l <= 7)%nat → min_be (be_val (x :: l)) = x :: l.
Proof.
  intros Hok Hx Hl. unfold min_be. rewrite intsize_be_val by done.
  rewrite Nat2Z.id, be_bytes_be_val by done. case_if; [| done]. exfalso.
  apply Forall_cons in Hok as [Hx' Hok]. pose proof (be_val_bound _ Hok).
  rewrite be_val_cons in *. unfold is_byte in Hx'. nia.
Qed.

Lemma AppendUint64_spec b i :
  0 <= i < 2 ^ 64 → AppendUint64 b i = b ++ enc_string (min_be i).
Proof.
  intros Hi. unfold AppendUint64, min_be. case_if; [done |].
  case_if.
  { int_case 1 Hi. change (be_bytes (Z.to_nat 1) i) with [i mod 256].
    unfold enc_string, u8. cbn [single_byte].
    rewrite Z.shiftr_0_r, Z.mod_small by lia. by decide_if. }
  case_if.
  { int_case 1 Hi. change (be_bytes (Z.to_nat 1) i) with [i mod 256].
    unfold enc_string, u8. cbn [single_byte].
    rewrite Z.shiftr_0_r, Z.mod_small by lia. decide_if. done. }
  assert (Hn : ∀ n, (2 <= n)%nat → single_byte (be_bytes n i) = false).
  { intros [| [| n]] Hn; try lia. by rewrite !be_bytes_cons. }
  repeat case_if; f_equal;
    [int_case 2 Hi | int_case 3 Hi | int_case 4 Hi
    | int_case 5 Hi | int_case 6 Hi | int_case 7 Hi | int_case 8 Hi];
    unfold enc_string; rewrite Hn by (vm_compute; lia);
    rewrite head_short by (rewrite length_be_bytes; lia);
    rewrite length_be_bytes; cbn [app]; f_equal; be_expand.
Qed.

Lemma enc_uint_small i : 0 < i < 128 → enc_string (min_be i) = [i].
Proof.
  intros Hi. unfold min_be. decide_if.
  replace (intsize i) with 1 by (symmetry; apply intsize_unique; lia).
  change (be_bytes (Z.to_nat 1) i) with [i mod 256]. rewrite Z.mod_small by lia.
  unfold enc_string. cbn [single_byte]. by decide_if.
Qed.

Lemma enc_uint_large i :
  128 <= i < 2 ^ 64 →
  enc_string (min_be i) = 0x80 + intsize i :: be_bytes (Z.to_nat (intsize i)) i.
Proof.
  intros Hi. unfold min_be. decide_if. pose proof (intsize_range i ltac:(lia)) as Hr.
  unfold enc_string. replace (single_byte _) with false.
  - rewrite head_short; rewrite length_be_bytes; [| lia]. cbn [app]. f_equal. lia.
  - destruct (Z.to_nat (intsize i)) as [| [| n]] eqn:En; [lia | | by rewrite !be_bytes_cons].
    change (be_bytes 1 i) with [i mod 256]. pose proof (intsize_lt i ltac:(lia)) as Hlt.
    replace (intsize i) with 1 in Hlt by lia. cbn [single_byte].
    rewrite Z.mod_small by lia. symmetry. apply Z.ltb_ge. lia.
Qed.

Lemma SplitString_spec b c r :
  bytes_ok b → slice_len b →
  SplitString b = Ok (c, r) ↔ b = enc_string c ++ r.
Proof.
  intros Hok Hlen. unfold SplitString. split.
  - intros H. inv_bind H. destruct a as [[k c'] r'].
    apply Split_spec in E as [-> Hf]; try done.
    destruct k; try done; by injection H as <- <-.
  - intros ->. set (k := if single_byte c then KByte else KString).
    assert (Hk : Split (enc_string c ++ r) = Ok (k, c, r)).
    { apply Split_spec; try done. by unfold k; destruct (single_byte c) eqn:Es. }
    rewrite Hk. unfold k. cbn. by destruct (single_byte c).
Qed.

(** The content of a canonical integer, and its value. *)
Definition uint_content (c : bytes) : Prop :=
  (length c <= 8)%nat ∧ (c = [] ∨ nth 0 c 0 ≠ 0).

Lemma uint_content_min_be c : bytes_ok c → uint_content c → min_be (be_val c) = c.
Proof.
  intros Hok [Hl Hc]. destruct c as [| x c]; [done |]. destruct Hc as [? | Hc]; [done |].
  apply min_be_be_val; [done | done |]. cbn in Hl. lia.
Qed.

Lemma min_be_uint_content i : 0 <= i < 2 ^ 64 → uint_content (min_be i).
Proof.
  intros Hi. split; [by apply min_be_length |].
  destruct (decide (i = 0)) as [-> |]; [by left | right]. apply min_be_hd. lia.
Qed.

(** SplitUint64 on the content of a string. *)
Lemma readSize_content x y c :
  bytes_ok (x :: y :: c) → (length c <= 6)%nat →
  readSize (x :: y :: c) (u8 (len (x :: y :: c))) =
    if x =? 0 then Err ErrCanonSize else Ok (be_val (x :: y :: c)).
Proof.
  intros Hok Hl. rewrite u8_id by (unfold is_byte; cbn [length]; lia).
  rewrite readSize_spec by (done || (cbn [length]; lia)).
  rewrite firstn_all. cbn [nth]. case_if; [| by zb; repeat decide_if].
  destruct (Z.eqb_spec x 0) as [-> | Hx]; [done |].
  rewrite orb_false_r in *. zb. exfalso.
  apply Forall_cons in Hok as [Hx' Hok]. pose proof (be_val_bound _ Hok) as Hb.
  rewrite (be_val_cons x (y :: c)) in *. unfold is_byte in Hx'.
  assert (256 <= 256 ^ len (y :: c)).
  { rewrite len_cons, Z.pow_add_r by lia. pose proof (Z.pow_pos_nonneg 256 (len c)). lia. }
  nia.
Qed.

Lemma enc_string_ok_inv c : bytes_ok (enc_string c) → bytes_ok c.
Proof.
  unfold enc_string. destruct (single_byte c); [done |].
  by intros [_ ?]%Forall_app.
Qed.

Lemma SplitUint64_spec b x r :
  bytes_ok b → slice_len b →
  SplitUint64 b = Ok (x, r) ↔ 0 <= x < 2 ^ 64 ∧ b = enc_string (min_be x) ++ r.
Proof.
  intros Hok Hlen. unfold SplitUint64. split.
  - intros H. inv_bind H. destruct a as [c r'].
    apply SplitString_spec in E as ->; [| done | done].
    apply Forall_app in Hok as [Hok _].
    apply enc_string_ok_inv in Hok as Hc.
    destruct c as [| z [| y c]].
    + injection H as <- <-. split; [lia | done].
    + case_if; [done |]. injection H as <- <-.
      apply Forall_cons in Hc as Hz. destruct Hz as [Hz _].
      rewrite <- (be_val_1 z), min_be_be_val by (done || cbn; lia).
      split; [unfold is_byte in Hz; cbn; lia | done].
    + case_if; [done |].
      assert (Hl : (length c <= 6)%nat) by (cbn [length] in *; lia).
      rewrite readSize_content in H by done. case_if; [done |]. injection H as <- <-.
      rewrite min_be_be_val by (done || cbn [length]; lia). split; [| done].
      pose proof (be_val_bound _ Hc) as Hb. split; [lia |].
      apply Z.lt_le_trans with (256 ^ len (z :: y :: c)); [lia |].
      change (2 ^ 64) with (256 ^ 8). apply Z.pow_le_mono_r; rewrite ?len_cons; lia.
  - intros [Hx ->].
    assert (Hs : SplitString (enc_string (min_be x) ++ r) = Ok (min_be x, r))
      by (by apply SplitString_spec).
    rewrite Hs. cbn [mbind outcome_bind].
    pose proof (min_be_ok x) as Hbok. pose proof (be_val_min_be x Hx) as Hv.
    pose proof (min_be_uint_content x Hx) as [Hl Hh].
    destruct (min_be x) as [| z [| y c]].
    + by rewrite <- Hv.
    + destruct Hh as [| Hh]; [done |]. cbn in Hh. rewrite be_val_1 in Hv. subst z.
      by decide_if.
    + destruct Hh as [| Hh]; [done |]. cbn [nth] in Hh. cbn [length] in Hl.
      rewrite (proj2 (Z.ltb_ge 8 _)) by (cbn [length]; lia).
      rewrite readSize_content by (done || lia). decide_if. by rewrite Hv.
Qed.

(** [SplitUint64] inverts [AppendUint64] and accepts nothing else: it
    returns [x] and [r] exactly on the slices [AppendUint64(nil, x) ++ r] with
    [x] a uint64, so integers have a unique accepted encoding. *)
Theorem SplitUint64_AppendUint64 b x r :
  bytes_ok b → slice_len b →
  SplitUint64 b = Ok (x, r) ↔ 0 <= x < 2 ^ 64 ∧ b = AppendUint64 [] x ++ r.
Proof.
  intros Hok Hlen. rewrite SplitUint64_spec by done.
  split; intros [Hx H]; (split; [done |]); rewrite AppendUint64_spec in * by done; done.
Qed.

Lemma SplitUint64_AppendUint64_witness :
  SplitUint64 (AppendUint64 [] 0xFFCCB5DDFFEE1483 ++ [1; 2]) =
    Ok (0xFFCCB5DDFFEE1483, [1; 2]).
Proof.
  apply (SplitUint64_AppendUint64
    (AppendUint64 [] 0xFFCCB5DDFFEE1483 ++ [1; 2]) 0xFFCCB5DDFFEE1483 [1; 2]);
    [solve_bytes | done | split; [lia | done]].
Defined.

(** ** Counting and sizes *)

Definition enc_values (vs : list (Kind * bytes)) : bytes :=
  concat (map (fun '(k, c) => enc_kind k c) vs).

Lemma head_nonempty s l n : (1 <= length (head s l n))%nat.
Proof. unfold head. case_if; cbn; lia. Qed.

Lemma enc_kind_nonempty k c : kind_fits k c → (1 <= length (enc_kind k c))%nat.
Proof.
  pose proof head_nonempty as Hh.
  destruct k; cbn [enc_kind kind_fits]; unfold enc_string, enc_list; intros H.
  - rewrite H. destruct c as [| ? [|]]; [done | cbn; lia | done].
  - rewrite H, length_app. pose proof (Hh 0x80 0xB7 (len c)). lia.
  - rewrite length_app. pose proof (Hh 0xC0 0xF7 (len c)). lia.
Qed.

Lemma enc_string_pos b : 0 < len (enc_string b).
Proof.
  destruct (single_byte b) eqn:E; [pose proof (enc_kind_nonempty KByte b E)
    | pose proof (enc_kind_nonempty KString b E)]; cbn in *; lia.
Qed.

Lemma enc_values_cons k c vs : enc_values ((k, c) :: vs) = enc_kind k c ++ enc_values vs.
Proof. done. Qed.

Lemma CountValues_step fuel i x tl :
  bytes_ok (x :: tl) → slice_len (x :: tl) →
  (∃ e, CountValues_loop (S fuel) i (x :: tl) = Err e ∧ readKind (x :: tl) = Err e) ∨
  (∃ k c r, x :: tl = enc_kind k c ++ r ∧ kind_fits k c ∧ (length r <= length tl)%nat ∧
     CountValues_loop (S fuel) i (x :: tl) = CountValues_loop fuel (i + 1) r).
Proof.
  intros Hok Hlen. cbn [CountValues_loop].
  pose proof (readKind_returns (x :: tl)) as Hr.
  destruct (readKind (x :: tl)) as [[[k ts] cs] | e | |] eqn:E; try done; [right | left; eauto].
  apply readKind_sound in E as (hd & c & r & Hb & <- & <- & Henc & Hfit); try done.
  rewrite Hb in *. rewrite !len_app in Hlen. pose proof (len_nonneg r).
  cbn [mbind outcome_bind]. rewrite u64_id by lia.
  rewrite app_assoc, <- len_app, slice_from_app. cbn [mbind outcome_bind].
  exists k, c, r. rewrite <- Henc. split_and!; try done.
  apply enc_kind_nonempty in Hfit as Hne. rewrite <- Henc in Hne.
  apply (f_equal length) in Hb. rewrite app_assoc, length_app in Hb. cbn in Hb. lia.
Qed.

Lemma CountValues_loop_sound fuel i b n :
  bytes_ok b → slice_len b →
  CountValues_loop fuel i b = Ok n →
  ∃ vs, n = i + len vs ∧ b = enc_values vs ∧ Forall (fun v => kind_fits v.1 v.2) vs.
Proof.
  revert i b; induction fuel as [| fuel IH]; intros i [| x tl] Hok Hlen; try done.
  1,2: intros [= <-]; exists []; split_and!; [cbn; lia | done | constructor].
  destruct (CountValues_step fuel i x tl Hok Hlen) as [(e & -> & _) | (k & c & r & Hb & Hk & Hl & ->)];
    [done |].
  rewrite Hb in *. apply Forall_app in Hok as [_ Hok]. rewrite len_app in Hlen.
  intros (vs & -> & -> & Hvs)%IH; [| done | lia].
  exists ((k, c) :: vs). split_and!; [rewrite len_cons; lia | done | by constructor].
Qed.

Lemma CountValues_loop_complete fuel i vs :
  (length (enc_values vs) <= fuel)%nat → bytes_ok (enc_values vs) → slice_len (enc_values vs) →
  Forall (fun v => kind_fits v.1 v.2) vs →
  CountValues_loop fuel i (enc_values vs) = Ok (i + len vs).
Proof.
  revert fuel i; induction vs as [| [k c] vs IH]; intros fuel i Hf Hok Hlen Hvs.
  { cbn. rewrite Z.add_0_r. by destruct fuel. }
  apply Forall_cons in Hvs as [Hk Hvs]. cbn in Hk.
  apply enc_kind_nonempty in Hk as Hne. rewrite enc_values_cons in *.
  pose proof (readKind_complete k c (enc_values vs) Hk Hlen) as HrK.
  destruct (enc_kind k c ++ enc_values vs) as [| x tl] eqn:Eb.
  { apply app_eq_nil in Eb as [Eb _]. rewrite Eb in Hne. cbn in Hne. lia. }
  destruct fuel as [| fuel]; [cbn in Hf; lia |]. cbn [CountValues_loop].
  rewrite HrK. cbn [mbind outcome_bind]. rewrite <- Eb in *.
  rewrite length_app in Hf. rewrite len_app in Hlen. apply Forall_app in Hok as [_ Hok].
  destruct (enc_kind_hd k c) as [hd Hhd].
  assert (len c <= len (enc_kind k c)) by (rewrite Hhd, len_app; lia).
  rewrite u64_id by lia. replace (len (enc_kind k c) - len c + len c) with (len (enc_kind k c)) by lia.
  rewrite slice_from_app. cbn [mbind outcome_bind].
  rewrite IH by (done || lia). f_equal. rewrite len_cons. lia.
Qed.

Lemma CountValues_loop_returns fuel i b :
  (length b <= fuel)%nat → bytes_ok b → slice_len b → returns (CountValues_loop fuel i b).
Proof.
  revert i b; induction fuel as [| fuel IH]; intros i [| x tl] Hf Hok Hlen; try done;
    [cbn in Hf; lia |].
  destruct (CountValues_step fuel i x tl Hok Hlen)
    as [(e & -> & _) | (k & c & r & Hb & _ & Hl & ->)]; [done |].
  rewrite Hb in *. apply Forall_app in Hok as [_ Hok]. rewrite len_app in Hlen.
  apply (f_equal length) in Hb. cbn in Hb, Hf.
  rewrite length_app in *. apply IH; [lia | done | lia].
Qed.

Lemma CountValues_returns b : bytes_ok b → slice_len b → returns (CountValues b).
Proof. by apply CountValues_loop_returns. Qed.

(** [CountValues] counts: it returns [n] exactly when the slice is the
    concatenation of [n] canonically encoded values, and it returns (a value
    or an error) on every byte slice. *)
Theorem CountValues_correct b n :
  bytes_ok b → slice_len b →
  returns (CountValues b) ∧
  (CountValues b = Ok n ↔
   ∃ vs, n = len vs ∧ b = enc_values vs ∧ Forall (fun v => kind_fits v.1 v.2) vs).
Proof.
  intros Hok Hlen. split; [| split].
  - by apply CountValues_returns.
  - apply CountValues_loop_sound; done.
  - intros (vs & -> & -> & Hvs). by apply CountValues_loop_complete.
Qed.

Lemma CountValues_correct_witness :
  returns (CountValues [0x01; 0x81; 0x80; 0xC1; 0x05; 0x80]) ∧
  CountValues [0x01; 0x81; 0x80; 0xC1; 0x05; 0x80] = Ok 4.
Proof.
  pose proof (CountValues_correct [0x01; 0x81; 0x80; 0xC1; 0x05; 0x80] 4) as H.
  destruct H as [H1 H2]; [solve_bytes | done |]. split; [done |]. apply H2.
  exists [(KByte, [1]); (KString, [0x80]); (KList, [5]); (KString, [])].
  split_and!; [done | done | repeat constructor].
Defined.

Lemma enc_string_length b : slice_len b → len (enc_string b) =
  match b with [x] => if x <? 128 then 1 else 2 | _ => headsize (len b) + len b end.
Proof.
  intros Hb. unfold enc_string.
  assert (Hh : len (head 0x80 0xB7 (len b)) = headsize (len b)) by (apply head_length; lia).
  destruct b as [| x [| y b]]; cbn [single_byte]; [done | by case_if |].
  by rewrite len_app, Hh.
Qed.

(** The size functions predict the length of the encoding: [BytesSize] and
    [StringSize] for strings, [IntSize] for uint64s, [ListSize] for a list with
    the given payload. *)
Theorem sizes_correct b i :
  bytes_ok b → len b < 2 ^ 62 → 0 <= i < 2 ^ 64 →
  BytesSize b = len (enc_string b) ∧ StringSize b = len (enc_string b) ∧
  ListSize (len b) = len (enc_list b) ∧ IntSize i = len (AppendUint64 [] i).
Proof.
  intros Hok Hb Hi. pose proof (headsize_range (len b) ltac:(lia)).
  assert (HB : BytesSize b = len (enc_string b)).
  { rewrite enc_string_length by lia. unfold BytesSize.
    destruct b as [| x [| y b]]; [done | |].
    - destruct (Z.leb_spec x 0x7f), (Z.ltb_spec x 128); try lia; done.
    - by rewrite (u64_id (len _)), u64_id by (rewrite ?u64_id; lia). }
  split_and!; [done | done | |].
  - unfold ListSize, enc_list. rewrite len_app, head_length, u64_id by lia. done.
  - rewrite AppendUint64_spec by done. cbn [app].
    rewrite enc_string_length by (pose proof (min_be_length i Hi); lia).
    unfold IntSize, min_be. pose proof (intsize_range i Hi) as Hr. case_if.
    + case_if; [done |]. int_case 1 Hi. change (be_bytes (Z.to_nat 1) i) with [i mod 256].
      by rewrite (Z.mod_small i), (proj2 (Z.ltb_lt i 128)) by lia.
    + decide_if. destruct (Z.to_nat (intsize i)) as [| [| n]] eqn:En; [lia | |].
      * change (be_bytes 1 i) with [i mod 256]. pose proof (intsize_lt i Hi) as Hlt.
        replace (intsize i) with 1 in * by lia.
        rewrite (Z.mod_small i) by lia. by decide_if.
      * assert (Hl : length (be_bytes (S (S n)) i) = S (S n)) by apply length_be_bytes.
        rewrite !be_bytes_cons in *. rewrite Hl. unfold headsize. decide_if. lia.
Qed.

Lemma sizes_correct_witness :
  BytesSize [0x80] = 2 ∧ IntSize 0x400 = 3 ∧ len (AppendUint64 [] 0x400) = 3.
Proof.
  pose proof (sizes_correct [0x80] 0x400) as H.
  destruct H as (H1 & _ & _ & H4); [solve_bytes | done | lia |].
  split_and!; [rewrite H1; done | rewrite H4; done | rewrite <- H4; done].
Defined.
