(* ===== verification/RlpEncode.v ===== *)
(** * The RLP encoder: src/rlp/encbuffer.go and src/rlp/encode.go

    [encBuffer] keeps the string data and, apart from it, the list headers
    with their offsets; the output interleaves the two.  Values are the
    dynamic values reflection sees ([rval]), and [writer] is the writer that
    [makeWriter] selects for them.  The theorems: the buffer's output refines
    the compositional reference encoding [rlp_enc], for any recycled buffer,
    and the three ways to obtain the output agree.

    Not modelled: types with their own EncodeRLP method, uint256 values
    (package holiman/uint256), the type cache. *)

From S2P Require Import Prelude RlpRaw.
#[local] Set Warnings "-register-all".

(** ** The encoder buffer *)

Record listhead := ListHead { offset : Z; lh_size : Z }.

Record encBuffer := EncBuffer {
  str : bytes;             (* string data, everything except list headers *)
  lheads : list listhead;  (* all list headers *)
  lhsize : Z;              (* sum of sizes of all encoded list headers *)
  sizebuf : bytes          (* auxiliary [9]byte *)
}.

Definition append_str (buf : encBuffer) (b : bytes) : encBuffer :=
  EncBuffer (str buf ++ b) (lheads buf) (lhsize buf) (sizebuf buf).

Definition reset (buf : encBuffer) : encBuffer := EncBuffer [] [] 0 (sizebuf buf).

(** The recycled buffer the pool hands out, reset. *)
Definition getEncBuffer (pooled : encBuffer) : encBuffer := reset pooled.

Definition enc_size (buf : encBuffer) : Z := len (str buf) + lhsize buf.

(** listhead.encode: the buffer after the write and the encoded bytes, its
    first [n]. *)
Definition encode_head (h : listhead) (buf : bytes) : go (bytes * bytes) :=
  '(buf, n) ← puthead buf 0xC0 0xF7 (u64 (lh_size h));
  enc ← slice buf 0 n;
  Ok (buf, enc).

Fixpoint copyTo_loop (heads : list listhead) (st dst : bytes) (pos strpos : Z)
  : go (bytes * Z * Z) :=
  match heads with
  | [] => Ok (dst, pos, strpos)
  | h :: heads =>
      seg ← slice st strpos (offset h);
      '(dst, n) ← copy_at dst pos seg;
      let pos := pos + n in
      let strpos := strpos + n in
      view ← slice_from dst pos;
      '(view, enc) ← encode_head h view;
      let dst := take (Z.to_nat pos) dst ++ view in
      copyTo_loop heads st dst (pos + len enc) strpos
  end.

Definition copyTo (buf : encBuffer) (dst : bytes) : go bytes :=
  '(dst, pos, strpos) ← copyTo_loop (lheads buf) (str buf) dst 0 0;
  seg ← slice_from (str buf) strpos;
  '(dst, _) ← copy_at dst pos seg;
  Ok dst.

(** The allocation panics for a negative size. *)
Definition makeBytes (buf : encBuffer) : go bytes :=
  if enc_size buf <? 0 then Panic
  else copyTo buf (repeat 0 (Z.to_nat (enc_size buf))).

(** io.Writer, as the encoder uses it: [Write p w] is the new writer, the count
    and the error. *)
Class io_Writer (W : Type) := Write : bytes → W → W * Z * option rlp_error.

Fixpoint writeTo_loop `{io_Writer W} (heads : list listhead) (st sbuf : bytes)
    (strpos : Z) (w : W) : go (Z * bytes * W) :=
  match heads with
  | [] => Ok (strpos, sbuf, w)
  | h :: heads =>
      '(strpos, w) ←
        (if 0 <? offset h - strpos then
           seg ← slice st strpos (offset h);
           let '(w, n, err) := Write seg w in
           match err with
           | Some e => Err e
           | None => Ok (strpos + n, w)
           end
         else Ok (strpos, w) : go (Z * W));
      '(sbuf, enc) ← encode_head h sbuf;
      let '(w, _, err) := Write enc w in
      match err with
      | Some e => Err e
      | None => writeTo_loop heads st sbuf strpos w
      end
  end.

Definition writeTo `{io_Writer W} (buf : encBuffer) (w : W) : go W :=
  '(strpos, _, w) ← writeTo_loop (lheads buf) (str buf) (sizebuf buf) 0 w;
  if strpos <? len (str buf) then
    seg ← slice_from (str buf) strpos;
    let '(w, _, err) := Write seg w in
    match err with Some e => Err e | None => Ok w end
  else Ok w.

Definition writeBool (b : bool) (buf : encBuffer) : encBuffer :=
  append_str buf (if b then [0x01] else [0x80]).

(** The common step of writeUint64 and encodeStringHeader: putint into
    [sizebuf[1:]], the tag in [sizebuf[0]], and [sizebuf[:s+1]] appended. *)
Definition append_tagged (tag i : Z) (buf : encBuffer) : go encBuffer :=
  tl ← slice_from (sizebuf buf) 1;
  '(tl, s) ← putint tl i;
  let sizebuf' := u8 (tag + u8 s) :: tl in
  piece ← slice sizebuf' 0 (s + 1);
  Ok (EncBuffer (str buf ++ piece) (lheads buf) (lhsize buf) sizebuf').

Definition writeUint64 (i : Z) (buf : encBuffer) : go encBuffer :=
  if i =? 0 then Ok (append_str buf [0x80])
  else if i <? 128 then Ok (append_str buf [u8 i])
  else append_tagged 0x80 i buf.

Definition encodeStringHeader (size : Z) (buf : encBuffer) : go encBuffer :=
  if size <? 56 then Ok (append_str buf [u8 (0x80 + u8 size)])
  else append_tagged 0xB7 (u64 size) buf.

Definition writeBytes (b : bytes) (buf : encBuffer) : go encBuffer :=
  match b with
  | [x] =>
      if x <=? 0x7F then Ok (append_str buf [x])
      else buf ← encodeStringHeader (len b) buf; Ok (append_str buf b)
  | _ => buf ← encodeStringHeader (len b) buf; Ok (append_str buf b)
  end.

Definition writeString (s : bytes) (buf : encBuffer) : go encBuffer := writeBytes s buf.

(** big.Int: BitLen, and Bits, the little-endian words of the absolute value. *)
Definition BitLen (x : Z) : Z := if x =? 0 then 0 else Z.log2 (Z.abs x) + 1.

Fixpoint words (n : nat) (x : Z) : list Z :=
  match n with
  | O => []
  | S n => x mod 2 ^ 64 :: words n (x / 2 ^ 64)
  end.

Definition Bits (x : Z) : list Z := words (Z.to_nat ((BitLen x + 63) / 64)) (Z.abs x).

(** The inner loop of writeBigInt over the bytes of one word. *)
Fixpoint put_word (j : nat) (d index : Z) (b : bytes) : go (Z * bytes) :=
  match j with
  | O => Ok (index, b)
  | S j =>
      if 0 <? index then
        let index := index - 1 in
        _ ← at_ b index;
        put_word j (Z.shiftr d 8) index (<[Z.to_nat index := u8 d]> b)
      else Ok (index, b)
  end.

Fixpoint put_words (ds : list Z) (index : Z) (b : bytes) : go (Z * bytes) :=
  match ds with
  | [] => Ok (index, b)
  | d :: ds =>
      '(index, b) ← put_word 8 d index b;
      put_words ds index b
  end.

Definition writeBigInt (i : Z) (buf : encBuffer) : go encBuffer :=
  let bitlen := BitLen i in
  if bitlen <=? 64 then writeUint64 (u64 (Z.abs i)) buf
  else
    let length := Z.shiftr (Z.land (bitlen + 7) (-8)) 3 in
    buf ← encodeStringHeader length buf;
    '(_, bytesBuf) ← put_words (Bits i) length (repeat 0 (Z.to_nat length));
    Ok (append_str buf bytesBuf).

(** list and listEnd. *)
Definition open_list (buf : encBuffer) : encBuffer * Z :=
  let lheads' := lheads buf ++ [ListHead (len (str buf)) (lhsize buf)] in
  (EncBuffer (str buf) lheads' (lhsize buf) (sizebuf buf), len lheads' - 1).

Definition listEnd (index : Z) (buf : encBuffer) : go encBuffer :=
  lh ← at_ (lheads buf) index;
  let size := enc_size buf - offset lh - lh_size lh in
  let lheads' := <[Z.to_nat index := ListHead (offset lh) size]> (lheads buf) in
  let lhsize' := if size <? 56 then lhsize buf + 1
                 else lhsize buf + (1 + intsize (u64 size)) in
  Ok (EncBuffer (str buf) lheads' lhsize' (sizebuf buf)).

(** ** Values and writers *)

(** The values reflection hands to a writer, by the case of makeWriter their
    type selects.  A pointer carries the kind of its nil value
    (typeNilKind); a struct field carries its "optional" tag and what
    reflect's IsZero answers for it. *)
Inductive rval : Type :=
| VRaw (b : bytes)
| VBigPtr (x : option Z)
| VBig (x : Z)
| VPtr (nilKind : Kind) (v : option rval)
| VUint (x : Z)
| VBool (b : bool)
| VString (s : bytes)
| VBytes (b : bytes)
| VByteArray (b : bytes)
| VSlice (tail : bool) (l : list rval)
| VStruct (fields : list (rval * (bool * bool)))
| VInterface (v : option rval).

Definition writeBigIntPtr (x : option Z) (w : encBuffer) : go encBuffer :=
  match x with
  | None => Ok (append_str w [0x80])
  | Some i => if i <? 0 then Err ErrNegativeBigInt else writeBigInt i w
  end.

Definition writeBigIntNoPtr (i : Z) (w : encBuffer) : go encBuffer :=
  if i <? 0 then Err ErrNegativeBigInt else writeBigInt i w.

(** The writers of byte arrays of length 0, 1 and more. *)
Definition writeByteArray (b : bytes) (w : encBuffer) : go encBuffer :=
  match b with
  | [] => Ok (append_str w [0x80])
  | [x] => if x <=? 0x7f then Ok (append_str w [x]) else Ok (append_str w [0x81; x])
  | _ => w ← encodeStringHeader (len b) w; Ok (append_str w b)
  end.

(** The writer of strings repeats writeBytes on the characters. *)
Definition writeStringVal (s : bytes) (w : encBuffer) : go encBuffer :=
  match s with
  | [x] =>
      if x <=? 0x7f then Ok (append_str w [x])
      else w ← encodeStringHeader (len s) w; Ok (append_str w s)
  | _ => w ← encodeStringHeader (len s) w; Ok (append_str w s)
  end.

(** The index of the first "optional" field. *)
Fixpoint firstOptionalField {A} (fields : list (A * (bool * bool))) : nat :=
  match fields with
  | [] => 0
  | (_, (optional, _)) :: fields => if optional then 0 else S (firstOptionalField fields)
  end.

(** The loop that drops zero optional fields from the end: the number of
    fields to write ([lastField + 1]). *)
Fixpoint writtenFields {A} (first n : nat) (fields : list (A * (bool * bool))) : nat :=
  match n with
  | O => O
  | S k =>
      if Nat.ltb k first then n
      else match fields !! k with
           | Some (_, (_, true)) => writtenFields first k fields
           | _ => n
           end
  end.

Definition fieldsToWrite {A} (fields : list (A * (bool * bool))) : nat :=
  let first := firstOptionalField fields in
  if Nat.eqb first (length fields) then length fields
  else writtenFields first (length fields) fields.

(** The loops over slice elements and struct fields, given the element writer. *)
Section Loops.
  Context {A : Type} (elem_writer : A → encBuffer → go encBuffer).

Fixpoint write_elems (l : list A) (w : encBuffer) : go encBuffer :=
  match l with
  | [] => Ok w
  | x :: l => w ← elem_writer x w; write_elems l w
  end.

Fixpoint write_fields (l : list (A * (bool * bool))) (n : nat) (w : encBuffer)
  : go encBuffer :=
  match l with
  | [] => Ok w
  | (x, _) :: l =>
      match n with
      | O => Ok w
      | S n => w ← elem_writer x w; write_fields l n w
      end
  end.
End Loops.

Fixpoint writer (v : rval) (w : encBuffer) : go encBuffer :=
  match v with
  | VRaw b => Ok (append_str w b)
  | VBigPtr x => writeBigIntPtr x w
  | VBig x => writeBigIntNoPtr x w
  | VPtr nilKind (Some x) => writer x w
  | VPtr nilKind None =>
      Ok (append_str w [if decide (nilKind = KString) then 0x80 else 0xC0])
  | VUint x => writeUint64 x w
  | VBool b => Ok (writeBool b w)
  | VString s => writeStringVal s w
  | VBytes b => writeBytes b w
  | VByteArray b => writeByteArray b w
  | VSlice true l => write_elems writer l w
  | VSlice false [] => Ok (append_str w [0xC0])
  | VSlice false l =>
      let '(w, lh) := open_list w in
      w ← write_elems writer l w; listEnd lh w
  | VStruct fields =>
      let '(w, lh) := open_list w in
      w ← write_fields writer fields (fieldsToWrite fields) w; listEnd lh w
  | VInterface None => Ok (append_str w [0xC0])
  | VInterface (Some x) => writer x w
  end.

Definition EncodeToBytes (pooled : encBuffer) (v : rval) : go bytes :=
  let buf := getEncBuffer pooled in
  buf ← writer v buf;
  makeBytes buf.

Definition Encode `{io_Writer W} (pooled : encBuffer) (w : W) (v : rval) : go W :=
  let buf := getEncBuffer pooled in
  buf ← writer v buf;
  writeTo buf w.

(** ** Reference encoding of values *)

(** The minimal big-endian form of a non-negative integer of any size. *)
Definition big_be (x : Z) : bytes := be_bytes (Z.to_nat ((BitLen x + 7) / 8)) x.

Section Spec_loops.
  Context {A : Type} (f : A → go bytes).

Fixpoint enc_elems (l : list A) : go bytes :=
  match l with
  | [] => Ok []
  | x :: l => e ← f x; es ← enc_elems l; Ok (e ++ es)
  end.

Fixpoint enc_fields (l : list (A * (bool * bool))) (n : nat) : go bytes :=
  match l with
  | [] => Ok []
  | (x, _) :: l =>
      match n with
      | O => Ok []
      | S n => e ← f x; es ← enc_fields l n; Ok (e ++ es)
      end
  end.
End Spec_loops.

Definition enc_big (x : Z) : go bytes :=
  if x <? 0 then Err ErrNegativeBigInt else Ok (enc_string (big_be x)).

(** RLP of a value, compositionally: the encoding of a list is a header with
    the payload's length and the payload. *)
Fixpoint rlp_enc (v : rval) : go bytes :=
  match v with
  | VRaw b => Ok b
  | VBigPtr None => Ok (enc_string [])
  | VBigPtr (Some x) => enc_big x
  | VBig x => enc_big x
  | VPtr _ (Some x) => rlp_enc x
  | VPtr k None => Ok (if decide (k = KString) then enc_string [] else enc_list [])
  | VUint x => Ok (enc_string (min_be x))
  | VBool b => Ok (enc_string (min_be (if b then 1 else 0)))
  | VString s => Ok (enc_string s)
  | VBytes b => Ok (enc_string b)
  | VByteArray b => Ok (enc_string b)
  | VSlice true l => enc_elems rlp_enc l
  | VSlice false l => p ← enc_elems rlp_enc l; Ok (enc_list p)
  | VStruct fields =>
      p ← enc_fields rlp_enc fields (fieldsToWrite fields); Ok (enc_list p)
  | VInterface None => Ok (enc_list [])
  | VInterface (Some x) => rlp_enc x
  end.

(** Values a Go program can hold: byte strings of bytes, uint64s, and
    encodings that fit a slice. *)
Fixpoint rval_ok (v : rval) : Prop :=
  (∀ e, rlp_enc v = Ok e → slice_len e) ∧
  match v with
  | VRaw b | VString b | VBytes b | VByteArray b => bytes_ok b
  | VUint x => 0 <= x < 2 ^ 64
  | VBig _ | VBigPtr _ | VBool _ => True
  | VPtr _ (Some x) | VInterface (Some x) => rval_ok x
  | VPtr _ None | VInterface None => True
  | VSlice _ l => fold_right (fun x P => rval_ok x ∧ P) True l
  | VStruct fs => fold_right (fun f P => rval_ok (fst f) ∧ P) True fs
  end.

(** Induction over values, with hypotheses for the elements of lists. *)
Section rval_induction.
  Context (P : rval → Prop)
    (Hraw : ∀ b, P (VRaw b)) (Hbigp : ∀ x, P (VBigPtr x)) (Hbig : ∀ x, P (VBig x))
    (Hptr : ∀ k v, (∀ x, v = Some x → P x) → P (VPtr k v))
    (Huint : ∀ x, P (VUint x)) (Hbool : ∀ b, P (VBool b)) (Hstring : ∀ s, P (VString s))
    (Hbytes : ∀ b, P (VBytes b)) (Harr : ∀ b, P (VByteArray b))
    (Hslice : ∀ t l, Forall P l → P (VSlice t l))
    (Hstruct : ∀ fs, Forall (fun f => P (fst f)) fs → P (VStruct fs))
    (Hiface : ∀ v, (∀ x, v = Some x → P x) → P (VInterface v)).

Fixpoint rval_ind' (v : rval) : P v :=
  let opt (o : option rval) : ∀ x, o = Some x → P x :=
    match o with
    | None => fun x H => match H in (_ = y) return
                  (match y with Some _ => P x | None => True end) with
                  | eq_refl => I end
    | Some y => fun x H => match H in (_ = z) return
                  (match z with Some w => P w | None => True end) with
                  | eq_refl => rval_ind' y end
    end in
  match v with
  | VRaw b => Hraw b
  | VBigPtr x => Hbigp x
  | VBig x => Hbig x
  | VPtr k o => Hptr k o (opt o)
  | VUint x => Huint x
  | VBool b => Hbool b
  | VString s => Hstring s
  | VBytes b => Hbytes b
  | VByteArray b => Harr b
  | VSlice t l => Hslice t l
      ((fix go (l : list rval) : Forall P l :=
          match l with
          | [] => Forall_nil_2 P
          | x :: l => Forall_cons_2 P x l (rval_ind' x) (go l)
          end) l)
  | VStruct fs => Hstruct fs
      ((fix go (l : list (rval * (bool * bool))) : Forall (fun f => P (fst f)) l :=
          match l with
          | [] => Forall_nil_2 _
          | (x, t) :: l => Forall_cons_2 (fun f => P (fst f)) (x, t) l (rval_ind' x) (go l)
          end) fs)
  | VInterface o => Hiface o (opt o)
  end.
End rval_induction.

(** ** Tokens: the buffer's contents in output order *)

Inductive tok : Type := TStr (b : bytes) | THead (n : Z).

Definition tok_str (t : tok) : bytes := match t with TStr b => b | THead _ => [] end.
Definition strs (ts : list tok) : bytes := concat (map tok_str ts).

Definition tok_render (t : tok) : bytes :=
  match t with TStr b => b | THead n => head 0xC0 0xF7 n end.
Definition render (ts : list tok) : bytes := concat (map tok_render ts).

(** The list headers, with offsets into the string data starting at [k]. *)
Fixpoint heads_from (k : Z) (ts : list tok) : list listhead :=
  match ts with
  | [] => []
  | TStr b :: ts => heads_from (k + len b) ts
  | THead n :: ts => ListHead k n :: heads_from k ts
  end.

Fixpoint hsz (ts : list tok) : Z :=
  match ts with
  | [] => 0
  | TStr _ :: ts => hsz ts
  | THead n :: ts => headsize n + hsz ts
  end.

Definition tok_ok (t : tok) : Prop :=
  match t with TStr _ => True | THead n => 0 <= n < 2 ^ 63 end.

(** [buf'] is [buf] with the tokens [ts] written after it. *)
Record extends (buf buf' : encBuffer) (ts : list tok) : Prop := {
  ext_str : str buf' = str buf ++ strs ts;
  ext_heads : lheads buf' = lheads buf ++ heads_from (len (str buf)) ts;
  ext_size : lhsize buf' = lhsize buf + hsz ts;
  ext_sizebuf : length (sizebuf buf') = length (sizebuf buf)
}.

Lemma strs_app a b : strs (a ++ b) = strs a ++ strs b.
Proof. unfold strs. by rewrite map_app, concat_app. Qed.

Lemma render_app a b : render (a ++ b) = render a ++ render b.
Proof. unfold render. by rewrite map_app, concat_app. Qed.

Lemma hsz_app a b : hsz (a ++ b) = hsz a + hsz b.
Proof. induction a as [| [] a IH]; cbn; lia. Qed.

Lemma heads_from_app k a b :
  heads_from k (a ++ b) = heads_from k a ++ heads_from (k + len (strs a)) b.
Proof.
  revert k; induction a as [| [s | n] a IH]; intros k; cbn.
  - by rewrite Z.add_0_r.
  - rewrite IH. unfold strs; cbn. rewrite len_app. do 2 f_equal. lia.
  - by rewrite IH.
Qed.

Lemma render_length ts : Forall tok_ok ts → len (render ts) = len (strs ts) + hsz ts.
Proof.
  induction 1 as [| [s | n] ts Ht _ IH]; [done | |]; unfold render, strs in *; cbn in *;
    rewrite ?len_app, ?head_length by lia; lia.
Qed.

Lemma extends_trans b1 b2 b3 s t :
  extends b1 b2 s → extends b2 b3 t → extends b1 b3 (s ++ t).
Proof.
  intros [S1 H1 Z1 L1] [S2 H2 Z2 L2]. split; [| | |congruence].
  - by rewrite S2, S1, strs_app, app_assoc.
  - by rewrite H2, H1, S1, len_app, heads_from_app, app_assoc.
  - rewrite Z2, Z1, hsz_app. lia.
Qed.

Lemma extends_nil b : extends b b [].
Proof. split; cbn; rewrite ?app_nil_r; auto; lia. Qed.

Lemma extends_append b s : extends b (append_str b s) [TStr s].
Proof. split; unfold strs; cbn; rewrite ?app_nil_r; auto; lia. Qed.

Lemma render_str b : render [TStr b] = b.
Proof. apply app_nil_r. Qed.

#[export] Hint Resolve extends_nil extends_append : zond.

(** *** Leaves *)

Lemma slice_prefix {A} (l r : list A) n : len l = n → (slice (l ++ r) 0 n : go _) = Ok l.
Proof. intros <-. exact (slice_app_mid [] l r). Qed.

Lemma append_tagged_ok tag i buf :
  0 <= tag → tag + 8 < 256 → 0 <= i < 2 ^ 64 → length (sizebuf buf) = 9%nat →
  ∃ buf', append_tagged tag i buf = Ok buf' ∧
    extends buf buf' [TStr (tag + intsize i :: be_bytes (Z.to_nat (intsize i)) i)].
Proof.
  intros Ht Ht' Hi Hs. unfold append_tagged.
  destruct (sizebuf buf) as [| x sb] eqn:Es; [done |]. cbn in Hs.
  pose proof (intsize_range i Hi) as Hr.
  rewrite (slice_from_app [x] sb : slice_from (x :: sb) 1 = _). cbn [mbind outcome_bind].
  rewrite putint_ok by lia. cbn [mbind outcome_bind].
  rewrite (u8_id (intsize i)), u8_id by (unfold is_byte; lia).
  rewrite app_comm_cons, slice_prefix by (rewrite len_cons, length_be_bytes; lia).
  cbn [mbind outcome_bind]. eexists; split; [done |].
  split; cbn -[be_bytes]; rewrite ?app_nil_r; unfold strs; cbn -[be_bytes];
    rewrite ?app_nil_r; auto; try lia.
  rewrite Es. cbn. rewrite length_app, length_be_bytes, length_drop. lia.
Qed.

Lemma writeUint64_ok i buf :
  0 <= i < 2 ^ 64 → length (sizebuf buf) = 9%nat →
  ∃ buf', writeUint64 i buf = Ok buf' ∧ extends buf buf' [TStr (enc_string (min_be i))].
Proof.
  intros Hi Hs. unfold writeUint64. case_if; [subst; eauto with zond |]. case_if.
  - rewrite enc_uint_small, u8_id by (unfold is_byte; lia). eauto with zond.
  - rewrite enc_uint_large by lia. apply append_tagged_ok; lia.
Qed.

Lemma encodeStringHeader_ok n buf :
  0 <= n < 2 ^ 63 → length (sizebuf buf) = 9%nat →
  ∃ buf', encodeStringHeader n buf = Ok buf' ∧ extends buf buf' [TStr (head 0x80 0xB7 n)].
Proof.
  intros Hn Hs. unfold encodeStringHeader. case_if.
  - rewrite head_short by lia.
    rewrite (u8_id n), u8_id by (unfold is_byte; lia). eauto with zond.
  - rewrite head_long by lia. rewrite u64_id by lia. apply append_tagged_ok; lia.
Qed.

Lemma extends_string buf buf' h b :
  extends buf buf' [TStr h] → extends buf (append_str buf' b) [TStr (h ++ b)].
Proof.
  intros [S1 H1 Z1 L1]. unfold strs in *. cbn in *. rewrite !app_nil_r in *.
  split; unfold strs; cbn; rewrite ?app_nil_r; auto. by rewrite S1, app_assoc.
Qed.

(** The header-and-content branch shared by all string writers. *)
Lemma string_with_header_ok b buf :
  slice_len b → single_byte b = false → length (sizebuf buf) = 9%nat →
  ∃ buf', (buf ← encodeStringHeader (len b) buf; Ok (append_str buf b)) = Ok buf' ∧
    extends buf buf' [TStr (enc_string b)].
Proof.
  intros Hb Hs Hbuf. destruct (encodeStringHeader_ok (len b) buf) as (b' & -> & Hx); [lia | done |].
  cbn [mbind outcome_bind]. eexists; split; [done |].
  unfold enc_string. rewrite Hs. by apply extends_string.
Qed.

Lemma enc_string_single x : x < 128 → enc_string [x] = [x].
Proof. intros. unfold enc_string. cbn [single_byte]. by decide_if. Qed.

Ltac string_writer :=
  match goal with
  | |- context [match ?b with [] => _ | _ => _ end] =>
      destruct b as [| ? [| ? ?]];
        [by apply string_with_header_ok
        | case_if;
          [ rewrite enc_string_single by lia; eauto with zond
          | apply string_with_header_ok; [done | by apply Z.ltb_ge; lia | done] ]
        | by apply string_with_header_ok]
  end.

Lemma writeBytes_ok b buf :
  slice_len b → length (sizebuf buf) = 9%nat →
  ∃ buf', writeBytes b buf = Ok buf' ∧ extends buf buf' [TStr (enc_string b)].
Proof. intros Hb Hs. unfold writeBytes. string_writer. Qed.

Lemma writeStringVal_ok b buf :
  slice_len b → length (sizebuf buf) = 9%nat →
  ∃ buf', writeStringVal b buf = Ok buf' ∧ extends buf buf' [TStr (enc_string b)].
Proof. exact (writeBytes_ok b buf). Qed.

Lemma writeByteArray_ok b buf :
  slice_len b → length (sizebuf buf) = 9%nat →
  ∃ buf', writeByteArray b buf = Ok buf' ∧ extends buf buf' [TStr (enc_string b)].
Proof.
  intros Hb Hs. unfold writeByteArray. destruct b as [| x [| y b]].
  - eauto with zond.
  - case_if; [rewrite enc_string_single by lia; eauto with zond |].
    unfold enc_string. cbn [single_byte]. decide_if. eauto with zond.
  - by apply string_with_header_ok.
Qed.

(** *** Big integers *)

Lemma put_word_ok x j k d pre :
  d mod 256 ^ Z.of_nat j = (x / 256 ^ Z.of_nat k) mod 256 ^ Z.of_nat j →
  let m := Nat.min j (length pre) in
  put_word j d (len pre) (pre ++ be_bytes k x) =
    Ok (Z.of_nat (length pre - m), take (length pre - m) pre ++ be_bytes (k + m) x).
Proof.
  revert k d pre; induction j as [| j IH]; intros k d pre Hd m.
  { subst m. cbn. by rewrite Nat.sub_0_r, Nat.add_0_r, firstn_all. }
  cbn [put_word]. destruct pre as [| p pre _] using rev_ind.
  { subst m. cbn. by rewrite Nat.add_0_r. }
  replace (len (pre ++ [p])) with (len pre + 1) by (rewrite len_app; cbn; lia).
  decide_if. cbn beta zeta. rewrite Z.add_simpl_r.
  rewrite (at_ok _ _ p) by (rewrite <- app_assoc; apply list_lookup_middle; lia).
  cbn [mbind outcome_bind]. rewrite Nat2Z.id, <- app_assoc. cbn [app].
  rewrite insert_app_r_alt, Nat.sub_diag by lia.
  change (<[0%nat:=u8 d]> (p :: be_bytes k x)) with (u8 d :: be_bytes k x).
  set (q := x / 256 ^ Z.of_nat k) in *.
  assert (Hd2 : u8 d = q mod 256 ∧
    (d / 256) mod 256 ^ Z.of_nat j = (q / 256) mod 256 ^ Z.of_nat j).
  { rewrite Nat2Z.inj_succ, Z.pow_succ_r, !Z.rem_mul_r in Hd by lia. unfold u8.
    pose proof (Z.mod_pos_bound d 256). pose proof (Z.mod_pos_bound q 256). lia. }
  destruct Hd2 as [H1 H2]. rewrite H1. unfold q at 1. rewrite <- be_bytes_cons, IH.
  - subst m. rewrite length_app; cbn [length].
    replace (Nat.min (S j) (length pre + 1)) with (S (Nat.min j (length pre))) by lia.
    replace (length pre + 1 - S (Nat.min j (length pre)))%nat
      with (length pre - Nat.min j (length pre))%nat by lia.
    rewrite take_app_le by lia. do 3 f_equal. f_equal. lia.
  - rewrite Z.shiftr_div_pow2 by lia. change (2 ^ 8) with 256. rewrite H2. unfold q.
    rewrite Z.div_div, Nat2Z.inj_succ, Z.pow_succ_r by lia. repeat (f_equal; try lia).
Qed.

Lemma put_words_ok x n k pre :
  (length pre <= 8 * n)%nat →
  put_words (words n (x / 256 ^ Z.of_nat k)) (len pre) (pre ++ be_bytes k x) =
    Ok (0, be_bytes (k + length pre) x).
Proof.
  revert k pre; induction n as [| n IH]; intros k pre Hl; cbn [words put_words].
  { destruct pre; [| cbn in Hl; lia]. cbn. by rewrite Nat.add_0_r. }
  rewrite put_word_ok by (rewrite Z.mod_mod; [done | lia]). cbn [mbind outcome_bind].
  destruct (Nat.le_gt_cases 8 (length pre)) as [H8 | H8].
  - rewrite Nat.min_l by lia.
    replace (length pre - 8)%nat with (length (take (length pre - 8) pre)) at 1
      by (rewrite length_take; lia).
    rewrite Z.div_div by lia. change (2 ^ 64) with (256 ^ 8).
    rewrite <- Z.pow_add_r by lia. replace (Z.of_nat k + 8) with (Z.of_nat (k + 8)) by lia.
    rewrite IH by (rewrite length_take; lia). do 3 f_equal. rewrite length_take. lia.
  - rewrite Nat.min_r by lia. rewrite Nat.sub_diag. cbn [take app].
    rewrite Z.div_div by lia. generalize (x / (256 ^ Z.of_nat k * 2 ^ 64)). clear.
    induction n as [| n IH]; intros y; [done |]. cbn [words put_words put_word].
    cbn [mbind outcome_bind Z.ltb Z.of_nat]. apply IH.
Qed.

Lemma BitLen_bound x : 0 < x → 2 ^ (BitLen x - 1) <= x < 2 ^ BitLen x.
Proof.
  intros Hx. unfold BitLen. decide_if. rewrite Z.abs_eq, Z.add_simpl_r by lia.
  pose proof (Z.log2_spec x Hx). by rewrite Z.add_1_r.
Qed.

Lemma big_be_min_be x : 0 <= x < 2 ^ 64 → big_be x = min_be x.
Proof.
  intros Hx. unfold big_be, min_be. case_if; [by subst |].
  pose proof (BitLen_bound x ltac:(lia)) as Hb.
  assert (1 <= BitLen x).
  { unfold BitLen. decide_if. pose proof (Z.log2_nonneg (Z.abs x)). lia. }
  assert (BitLen x <= 64).
  { assert (BitLen x - 1 < 64); [| lia]. apply (Z.pow_lt_mono_r_iff 2); lia. }
  f_equal. f_equal. symmetry. pose proof (Z.div_mod (BitLen x + 7) 8 ltac:(lia)) as Hd.
  pose proof (Z.mod_pos_bound (BitLen x + 7) 8 ltac:(lia)) as Hm.
  set (n := (BitLen x + 7) / 8) in *.
  apply intsize_unique; [lia | |].
  - split; [lia |]. apply Z.lt_le_trans with (2 ^ BitLen x); [lia |].
    change 256 with (2 ^ 8). rewrite <- Z.pow_mul_r by lia. apply Z.pow_le_mono_r; lia.
  - right. change 256 with (2 ^ 8). rewrite <- Z.pow_mul_r by lia.
    apply Z.le_trans with (2 ^ (BitLen x - 1)); [| lia]. apply Z.pow_le_mono_r; lia.
Qed.

Lemma land_shift3 a : Z.shiftr (Z.land a (-8)) 3 = a / 8.
Proof.
  rewrite Z.shiftr_land. change (Z.shiftr (-8) 3) with (-1).
  by rewrite Z.land_m1_r, Z.shiftr_div_pow2 by lia.
Qed.

Lemma BitLen_nonneg x : 0 <= BitLen x.
Proof. unfold BitLen. case_if; [lia |]. pose proof (Z.log2_nonneg (Z.abs x)). lia. Qed.

Lemma be_val_big_be x : 0 <= x → be_val (big_be x) = x.
Proof.
  intros Hx. destruct (decide (x = 0)) as [-> | Hnz]; [done |]. pose proof (BitLen_bound x ltac:(lia)) as Hb. pose proof (BitLen_nonneg x).
  apply be_val_be_bytes. split; [lia |]. rewrite Z2Nat.id by (apply Z.div_pos; lia). eapply Z.lt_le_trans; [apply Hb |].
  replace 256 with (2 ^ 8) by done. rewrite <- Z.pow_mul_r by (try apply Z.div_pos; lia). apply Z.pow_le_mono_r; [lia |].
  pose proof (Z.div_mod (BitLen x + 7) 8 ltac:(lia)). pose proof (Z.mod_pos_bound (BitLen x + 7) 8 ltac:(lia)). lia.
Qed.

(** A big-endian number without leading zeros is the one that big_be gives. *)
Lemma big_be_be_val b : bytes_ok b → (b = [] ∨ nth 0 b 0 ≠ 0) → big_be (be_val b) = b.
Proof.
  intros Hb Hz. destruct b as [| x l]; [done |]. destruct Hz as [? | Hx]; [done |]. cbn in Hx. apply Forall_cons in Hb as [Hbx Hbl].
  pose proof (be_val_bound l Hbl) as Hl. unfold is_byte in Hbx. set (n := length (x :: l)). assert (Hn : len l = Z.of_nat n - 1) by (unfold n; cbn; lia).
  assert (Hp : 0 < 256 ^ len l) by (apply Z.pow_pos_nonneg; lia).
  assert (Hv : 256 ^ len l <= be_val (x :: l)) by (rewrite be_val_cons; nia).
  pose proof (be_val_bound (x :: l) ltac:(by constructor)) as Hu. pose proof (BitLen_bound (be_val (x :: l)) ltac:(lia)) as [B1 B2]. pose proof (BitLen_nonneg (be_val (x :: l))).
  assert (E8 : ∀ m, 0 <= m → 256 ^ m = 2 ^ (8 * m)) by (intros m Hm; rewrite Z.pow_mul_r by lia; done).
  rewrite E8 in Hv, Hu by lia. fold n in Hu. assert (L1 : 8 * len l < BitLen (be_val (x :: l))) by (apply (Z.pow_lt_mono_r_iff 2); lia).
  assert (L2 : BitLen (be_val (x :: l)) - 1 < 8 * Z.of_nat n) by (apply (Z.pow_lt_mono_r_iff 2); lia).
  unfold big_be. replace (Z.to_nat ((BitLen (be_val (x :: l)) + 7) / 8)) with n; [apply be_bytes_be_val; by constructor |].
  symmetry. replace ((BitLen (be_val (x :: l)) + 7) / 8) with (Z.of_nat n); [lia |]. apply (Z.div_unique _ 8 _ (BitLen (be_val (x :: l)) + 7 - 8 * Z.of_nat n)); lia.
Qed.

Lemma writeBigInt_ok x buf :
  0 <= x → slice_len (big_be x) → length (sizebuf buf) = 9%nat →
  ∃ buf', writeBigInt x buf = Ok buf' ∧ extends buf buf' [TStr (enc_string (big_be x))].
Proof.
  intros Hx Hlen Hs. unfold writeBigInt. pose proof (BitLen_nonneg x) as Hnn. case_if.
  - assert (Hx64 : 0 <= x < 2 ^ 64).
    { destruct (decide (x = 0)) as [-> |]; [lia |].
      pose proof (BitLen_bound x ltac:(lia)) as Hb. split; [lia |].
      apply Z.lt_le_trans with (2 ^ BitLen x); [lia |]. apply Z.pow_le_mono_r; lia. }
    rewrite Z.abs_eq, u64_id, big_be_min_be by lia. by apply writeUint64_ok.
  - rewrite land_shift3. unfold big_be in Hlen. rewrite length_be_bytes in Hlen.
    set (n := (BitLen x + 7) / 8) in *.
    pose proof (Z.div_mod (BitLen x + 7) 8 ltac:(lia)) as Hd.
    pose proof (Z.mod_pos_bound (BitLen x + 7) 8 ltac:(lia)) as Hm. fold n in Hd.
    destruct (encodeStringHeader_ok n buf) as (b' & -> & Hext); [lia | done |].
    cbn [mbind outcome_bind].
    pose proof (put_words_ok x (Z.to_nat ((BitLen x + 63) / 64)) 0 (repeat 0 (Z.to_nat n))) as Hp.
    rewrite repeat_length, app_nil_r, Z.div_1_r in Hp. unfold Bits.
    rewrite Z.abs_eq by lia. rewrite Z2Nat.id in Hp by lia. rewrite Hp.
    + cbn [mbind outcome_bind]. eexists; split; [done |].
      assert (Hb2 : (2 <= Z.to_nat n)%nat) by lia.
      assert (Hl : len (big_be x) = n) by (unfold big_be; rewrite length_be_bytes; lia).
      unfold enc_string. replace (single_byte (big_be x)) with false.
      * rewrite Hl. by apply extends_string.
      * unfold big_be. fold n. destruct (Z.to_nat n) as [| [| k]]; try lia.
        by rewrite !be_bytes_cons.
    + pose proof (Z.div_mod (BitLen x + 63) 64 ltac:(lia)).
      pose proof (Z.mod_pos_bound (BitLen x + 63) 64 ltac:(lia)). lia.
Qed.

(** *** Lists *)

Lemma list_ok w w' p ts :
  extends (fst (open_list w)) w' ts → Forall tok_ok ts → render ts = p →
  slice_len p →
  ∃ w'', listEnd (snd (open_list w)) w' = Ok w'' ∧
    extends w w'' (THead (len p) :: ts).
Proof.
  intros [S1 H1 Z1 L1] Hok Hr Hp. cbn in *.
  rewrite len_app in *. unfold listEnd. rewrite H1, <- app_assoc. cbn [app length].
  replace (len (lheads w) + Z.of_nat 1 - 1) with (len (lheads w)) by lia.
  rewrite (at_ok _ _ (ListHead (len (str w)) (lhsize w)))
    by (apply list_lookup_middle; done).
  cbn [mbind outcome_bind offset lh_size]. eexists; split; [done |].
  assert (Hsz : enc_size w' - len (str w) - lhsize w = len p).
  { unfold enc_size. rewrite S1, Z1, len_app, <- Hr, render_length by done. lia. }
  rewrite Hsz. split; cbn.
  - done.
  - rewrite Nat2Z.id, insert_app_r_alt, Nat.sub_diag by lia. done.
  - unfold headsize. rewrite u64_id by lia. case_if; lia.
  - done.
Qed.

Definition writes (v : rval) : Prop :=
  ∀ w, rval_ok v → length (sizebuf w) = 9%nat →
  match rlp_enc v with
  | Ok e => ∃ w' ts, writer v w = Ok w' ∧ extends w w' ts ∧ Forall tok_ok ts ∧ render ts = e
  | Err x => writer v w = Err x
  | _ => False
  end.

Lemma writes_leaf v w e :
  rlp_enc v = Ok e → (∃ w', writer v w = Ok w' ∧ extends w w' [TStr e]) →
  match rlp_enc v with
  | Ok e => ∃ w' ts, writer v w = Ok w' ∧ extends w w' ts ∧ Forall tok_ok ts ∧ render ts = e
  | Err x => writer v w = Err x
  | _ => False
  end.
Proof.
  intros -> (w' & Hw & Hx). exists w', [TStr e]. split_and!; auto.
  - repeat constructor.
  - apply render_str.
Qed.

Lemma enc_string_slice_len b : slice_len (enc_string b) → slice_len b.
Proof.
  unfold enc_string. destruct (single_byte b); [done |]. rewrite len_app.
  pose proof (len_nonneg (head 0x80 0xB7 (len b))). lia.
Qed.

Lemma elems_ok l w :
  Forall writes l → fold_right (fun x P => rval_ok x ∧ P) True l →
  length (sizebuf w) = 9%nat →
  match enc_elems rlp_enc l with
  | Ok e => ∃ w' ts, write_elems writer l w = Ok w' ∧ extends w w' ts ∧
              Forall tok_ok ts ∧ render ts = e
  | Err x => write_elems writer l w = Err x
  | _ => False
  end.
Proof.
  revert w; induction l as [| v l IH]; intros w Hl Hok Hs; cbn.
  { exists w, []. split_and!; auto with zond; constructor. }
  apply Forall_cons in Hl as [Hv Hl]. destruct Hok as [Hokv Hokl].
  specialize (Hv w Hokv Hs). destruct (rlp_enc v) as [e | x | |]; try done; cbn.
  2: { by rewrite Hv. }
  destruct Hv as (w1 & t1 & -> & X1 & K1 & R1). cbn.
  specialize (IH w1 Hl Hokl ltac:(rewrite (ext_sizebuf _ _ _ X1); done)).
  destruct (enc_elems rlp_enc l) as [es | x | |]; try done.
  destruct IH as (w2 & t2 & -> & X2 & K2 & R2). cbn.
  exists w2, (t1 ++ t2). split_and!; [done | by eapply extends_trans | by apply Forall_app |].
  by rewrite render_app, R1, R2.
Qed.

Lemma write_fields_elems {A} (f : A → encBuffer → go encBuffer) l n w :
  write_fields f l n w = write_elems f (map fst (take n l)) w.
Proof.
  revert n w; induction l as [| [x t] l IH]; intros [| n] w; cbn; try done.
  destruct (f x w); cbn; auto.
Qed.

Lemma enc_fields_elems {A} (f : A → go bytes) l n :
  enc_fields f l n = enc_elems f (map fst (take n l)).
Proof.
  revert n; induction l as [| [x t] l IH]; intros [| n]; cbn; try done.
  destruct (f x); cbn; [by rewrite IH | done ..].
Qed.

Lemma fields_ok_take n (fs : list (rval * (bool * bool))) :
  fold_right (fun f P => rval_ok (fst f) ∧ P) True fs →
  fold_right (fun x P => rval_ok x ∧ P) True (map fst (take n fs)).
Proof.
  revert n; induction fs as [| f fs IH]; intros [| n]; cbn; try done.
  intros [? ?]. auto.
Qed.

(** A bracketed list of elements. *)
Lemma bracket_ok w l :
  Forall writes l → fold_right (fun x P => rval_ok x ∧ P) True l →
  (∀ e, (p ← enc_elems rlp_enc l; Ok (enc_list p)) = Ok e → slice_len e) →
  length (sizebuf w) = 9%nat →
  let run := let '(w, lh) := open_list w in
             w ← write_elems writer l w; listEnd lh w in
  match (p ← enc_elems rlp_enc l; Ok (enc_list p)) with
  | Ok e => ∃ w' ts, run = Ok w' ∧ extends w w' ts ∧ Forall tok_ok ts ∧ render ts = e
  | Err x => run = Err x
  | _ => False
  end.
Proof.
  intros Hl Hok Hlen Hs. cbn zeta.
  pose proof (elems_ok l (fst (open_list w)) Hl Hok Hs) as He.
  change (let '(w, lh) := open_list w in w ← write_elems writer l w; listEnd lh w)
    with (w' ← write_elems writer l (fst (open_list w)); listEnd (snd (open_list w)) w').
  destruct (enc_elems rlp_enc l) as [p | x | |]; try done; cbn [mbind outcome_bind] in *.
  2: { by rewrite He. }
  destruct He as (w' & ts & -> & Hx & Hk & Hr). cbn [mbind outcome_bind].
  specialize (Hlen _ eq_refl). unfold enc_list in Hlen |- *. rewrite len_app in Hlen.
  pose proof (len_nonneg (head 0xC0 0xF7 (len p))).
  destruct (list_ok w w' p ts) as (w'' & Hw & Hx'); try done; [lia |].
  exists w'', (THead (len p) :: ts). split_and!; try done.
  - constructor; [cbn; lia | done].
  - by rewrite <- Hr.
Qed.

Ltac leaf e := eapply (writes_leaf _ _ e); [done |].

Lemma writer_writes v : writes v.
Proof.
  induction v as [b | x | x | k v IH | x | b | s | b | b | t l IH | fs IH | v IH]
    using rval_ind'; intros w [Hlen Hok] Hs.
  - leaf b. cbn. eauto with zond.
  - destruct x as [x |]; [| leaf [0x80]; cbn; eauto with zond].
    cbn in *. unfold enc_big in *. destruct (x <? 0) eqn:E; [done |]. zb.
    specialize (Hlen _ eq_refl). apply enc_string_slice_len in Hlen.
    destruct (writeBigInt_ok x w) as (w' & -> & Hx); try done.
    exists w', [TStr (enc_string (big_be x))].
    split_and!; [done | done | repeat constructor | apply render_str].
  - cbn in *. unfold enc_big, writeBigIntNoPtr in *. destruct (x <? 0) eqn:E; [done |]. zb.
    specialize (Hlen _ eq_refl). apply enc_string_slice_len in Hlen.
    destruct (writeBigInt_ok x w) as (w' & -> & Hx); try done.
    exists w', [TStr (enc_string (big_be x))].
    split_and!; [done | done | repeat constructor | apply render_str].
  - destruct v as [v |]; [by apply (IH v eq_refl) |].
    leaf (if decide (k = KString) then enc_string [] else enc_list []).
    cbn. eexists; split; [done |]. case_decide; apply extends_append.
  - leaf (enc_string (min_be x)). by apply writeUint64_ok.
  - leaf (enc_string (min_be (if b then 1 else 0))). cbn. eexists; split; [done |].
    destruct b; apply extends_append.
  - leaf (enc_string s). apply writeStringVal_ok; [| done].
    by apply enc_string_slice_len, Hlen.
  - leaf (enc_string b). apply writeBytes_ok; [| done].
    by apply enc_string_slice_len, Hlen.
  - leaf (enc_string b). apply writeByteArray_ok; [| done].
    by apply enc_string_slice_len, Hlen.
  - destruct t; [by apply elems_ok |]. destruct l as [| v l].
    + leaf (enc_list []). cbn. eauto with zond.
    + by apply (bracket_ok w (v :: l)).
  - cbn in *. rewrite enc_fields_elems in *.
    pose proof (bracket_ok w (map fst (take (fieldsToWrite fs) fs))) as Hb.
    rewrite write_fields_elems.
    apply Hb; [| by apply fields_ok_take | done | done].
    apply Forall_map, Forall_take. exact IH.
  - destruct v as [v |]; [by apply (IH v eq_refl) |].
    leaf (enc_list []). cbn. eauto with zond.
Qed.

(** ** Reading the buffer out *)

Lemma encode_head_ok n buf off :
  0 <= n < 2 ^ 63 → headsize n <= len buf →
  encode_head (ListHead off n) buf =
    Ok (head 0xC0 0xF7 n ++ drop (length (head 0xC0 0xF7 n)) buf, head 0xC0 0xF7 n).
Proof.
  intros Hn Hb. unfold encode_head. cbn [lh_size]. rewrite u64_id by lia.
  rewrite puthead_ok by lia. cbn [mbind outcome_bind].
  rewrite slice_prefix; [done |]. apply head_length. lia.
Qed.

Lemma copyTo_ok ts before acc dn z :
  Forall tok_ok ts → length z = (length acc + length (render ts))%nat →
  ('(dst, pos, strpos) ← copyTo_loop (heads_from (len before + len acc) ts)
      (before ++ acc ++ strs ts) (dn ++ z) (len dn) (len before);
   seg ← slice_from (before ++ acc ++ strs ts) strpos;
   '(dst, _) ← copy_at dst pos seg; Ok dst) =
  (Ok (dn ++ acc ++ render ts) : go bytes).
Proof.
  revert before acc dn z; induction ts as [| [s | n] ts IH]; intros before acc dn z Hok Hz.
  - cbn. rewrite slice_from_app. cbn [mbind outcome_bind].
    change (strs []) with (@nil Z). change (render []) with (@nil Z) in *.
    rewrite !app_nil_r. cbn in Hz. rewrite Nat.add_0_r in Hz.
    pose proof (copy_at_app (E := rlp_error) dn z [] acc ltac:(done)) as Hc.
    rewrite !app_nil_r in Hc. by rewrite Hc.
  - apply Forall_cons in Hok as [_ Hok]. cbn [heads_from].
    change (strs (TStr s :: ts)) with (s ++ strs ts).
    change (render (TStr s :: ts)) with (s ++ render ts) in *.
    rewrite (app_assoc acc s (strs ts)), (app_assoc acc s (render ts)).
    replace (len before + len acc + len s) with (len before + len (acc ++ s))
      by (rewrite len_app; lia).
    apply IH; [done |]. rewrite Hz, !length_app. lia.
  - apply Forall_cons in Hok as [Hn Hok]. cbn in Hn. cbn [heads_from].
    change (strs (THead n :: ts)) with (strs ts).
    change (render (THead n :: ts)) with (head 0xC0 0xF7 n ++ render ts) in *.
    cbn [copyTo_loop offset]. rewrite slice_app_mid. cbn [mbind outcome_bind].
    rewrite length_app in Hz. rewrite <- (take_drop (length acc) z).
    rewrite copy_at_app by (rewrite length_take; lia). cbn [mbind outcome_bind].
    rewrite (app_assoc dn acc (drop _ z)), <- (len_app dn acc), slice_from_app.
    cbn [mbind outcome_bind]. pose proof (head_length 0xC0 0xF7 n ltac:(lia)) as Hh.
    rewrite encode_head_ok by (rewrite ?length_drop; lia). cbn [mbind outcome_bind].
    rewrite Nat2Z.id, take_app_length.
    specialize (IH (before ++ acc) [] ((dn ++ acc) ++ head 0xC0 0xF7 n)
      (drop (length (head 0xC0 0xF7 n)) (drop (length acc) z)) Hok).
    replace (len (before ++ acc) + len (@nil Z)) with (len before + len acc) in IH
      by (rewrite len_app; cbn; lia).
    rewrite !len_app, <- !app_assoc in IH. rewrite <- !app_assoc, !len_app.
    apply IH. rewrite !length_drop. cbn. lia.
Qed.

(** A finished buffer holds exactly the tokens [ts]. *)
Lemma finished pooled w ts :
  extends (getEncBuffer pooled) w ts →
  str w = strs ts ∧ lheads w = heads_from 0 ts ∧ lhsize w = hsz ts ∧
  length (sizebuf w) = length (sizebuf pooled).
Proof. intros [-> -> -> ->]. done. Qed.

Lemma makeBytes_ok pooled w ts :
  extends (getEncBuffer pooled) w ts → Forall tok_ok ts → makeBytes w = Ok (render ts).
Proof.
  intros (Hs & Hh & Hz & _)%finished Hok. unfold makeBytes, copyTo, enc_size.
  rewrite Hs, Hh, Hz, <- render_length by done. decide_if.
  pose proof (copyTo_ok ts [] [] [] (repeat 0 (length (render ts))) Hok) as H.
  cbn [app length] in H. rewrite Nat2Z.id. apply H. by rewrite repeat_length.
Qed.

Lemma EncodeToBytes_spec pooled v :
  length (sizebuf pooled) = 9%nat → rval_ok v → EncodeToBytes pooled v = rlp_enc v.
Proof.
  intros Hs Hok. unfold EncodeToBytes.
  pose proof (writer_writes v (getEncBuffer pooled) Hok Hs) as H.
  destruct (rlp_enc v) as [e | x | |]; try done; [| by rewrite H].
  destruct H as (w' & ts & -> & Hx & Hk & <-). cbn [mbind outcome_bind].
  by eapply makeBytes_ok.
Qed.

(** C30. [EncodeToBytes] computes the compositional RLP encoding: whatever
    recycled buffer it gets from the pool, and although headers are kept apart
    from the string data until the end, the bytes returned are [rlp_enc v] and
    the only error is that of a negative big.Int. *)
Theorem EncodeToBytes_refines pooled v :
  length (sizebuf pooled) = 9%nat → rval_ok v → EncodeToBytes pooled v = rlp_enc v.
Proof. apply EncodeToBytes_spec. Qed.

Lemma EncodeToBytes_refines_witness :
  EncodeToBytes (EncBuffer [7; 7] [ListHead 1 2] 3 (repeat 5 9))
    (VStruct [(VUint 1024, (false, false));
              (VSlice false [VString [0x61]; VBytes [0x80]], (false, false));
              (VBig (2 ^ 70), (true, false)); (VBool false, (true, true))]) =
  Ok [0xD1; 0x82; 0x04; 0x00; 0xC3; 0x61; 0x81; 0x80;
      0x89; 0x40; 0; 0; 0; 0; 0; 0; 0; 0].
Proof.
  rewrite EncodeToBytes_refines; [vm_compute; reflexivity | done |].
  repeat split; try solve_bytes;
    try (intros e He; vm_compute in He; injection He as <-; vm_compute; reflexivity);
    vm_compute; congruence.
Defined.

(** What package io documents of a Writer: without an error all of [p] was
    written. *)
Class WriterLaws (W : Type) `{io_Writer W} := {
  written : W → bytes;
  Write_spec : ∀ p w w' n, Write p w = (w', n, None) → n = len p ∧ written w' = written w ++ p
}.

Section WriteTo.
  Context `{HW : io_Writer W} {HL : WriterLaws W}.

Lemma writeTo_ok ts before acc sbuf (w : W) :
  Forall tok_ok ts → length sbuf = 9%nat →
  let st := before ++ acc ++ strs ts in
  let run := ('(strpos, _, w) ← writeTo_loop (heads_from (len before + len acc) ts) st sbuf
                (len before) w;
              if strpos <? len st then
                seg ← slice_from st strpos;
                let '(w, _, err) := Write seg w in
                match err with Some e => Err e | None => Ok w end
              else Ok w) : go W in
  (∃ w', run = Ok w' ∧ written w' = written w ++ acc ++ render ts) ∨
  (∃ e p w0 w1 n, run = Err e ∧ Write p w0 = (w1, n, Some e)).
Proof.
  revert before acc sbuf w; induction ts as [| [s | n] ts IH];
    intros before acc sbuf w Hok Hs st.
  - cbn. subst st. change (strs []) with (@nil Z). change (render []) with (@nil Z).
    rewrite app_nil_r. rewrite len_app. case_if.
    + rewrite slice_from_app. cbn [mbind outcome_bind].
      destruct (Write acc w) as [[w' n] [e |]] eqn:E; [right; eauto 10 |].
      left. apply Write_spec in E as [_ E]. by exists w'.
    + left. exists w. assert (acc = []) as -> by (destruct acc; [done | rewrite len_cons in *; lia]).
      by rewrite app_nil_r.
  - apply Forall_cons in Hok as [_ Hok]. cbn [heads_from]. subst st.
    change (strs (TStr s :: ts)) with (s ++ strs ts).
    change (render (TStr s :: ts)) with (s ++ render ts).
    rewrite (app_assoc acc s (strs ts)), (app_assoc acc s (render ts)).
    replace (len before + len acc + len s) with (len before + len (acc ++ s))
      by (rewrite len_app; lia).
    by apply IH.
  - apply Forall_cons in Hok as [Hn Hok]. cbn in Hn. cbn [heads_from]. subst st.
    change (strs (THead n :: ts)) with (strs ts).
    change (render (THead n :: ts)) with (head 0xC0 0xF7 n ++ render ts).
    cbn [writeTo_loop offset]. replace (len before + len acc - len before) with (len acc) by lia.
    pose proof (head_length 0xC0 0xF7 n ltac:(lia)) as Hh.
    pose proof (headsize_range n ltac:(lia)) as Hhr.
    set (sbuf' := head 0xC0 0xF7 n ++ drop (length (head 0xC0 0xF7 n)) sbuf).
    assert (Hs' : length sbuf' = 9%nat) by (subst sbuf'; rewrite length_app, length_drop; lia).
    specialize (IH (before ++ acc) []). rewrite <- app_assoc in IH.
    replace (len (before ++ acc) + len (@nil Z)) with (len before + len acc) in IH
      by (rewrite len_app; cbn; lia).
    case_if.
    + rewrite slice_app_mid. cbn [mbind outcome_bind].
      destruct (Write acc w) as [[w1 n1] [e |]] eqn:E1; [right; eauto 10 |].
      apply Write_spec in E1 as [-> E1]. cbn [mbind outcome_bind].
      rewrite encode_head_ok by lia. cbn [mbind outcome_bind].
      destruct (Write (head 0xC0 0xF7 n) w1) as [[w2 n2] [e |]] eqn:E2; [right; eauto 10 |].
      apply Write_spec in E2 as [_ E2].
      specialize (IH sbuf' w2 Hok Hs'). rewrite len_app in IH.
      rewrite E2, E1, <- !app_assoc in IH. exact IH.
    + assert (acc = []) as -> by (destruct acc; [done | rewrite len_cons in *; lia]).
      cbn [mbind outcome_bind]. rewrite encode_head_ok by lia. cbn [mbind outcome_bind].
      destruct (Write (head 0xC0 0xF7 n) w) as [[w2 n2] [e |]] eqn:E2; [right; eauto 10 |].
      apply Write_spec in E2 as [_ E2].
      specialize (IH sbuf' w2 Hok Hs'). rewrite app_nil_r, len_nil, Z.add_0_r in *.
      rewrite E2, <- !app_assoc in IH. exact IH.
Qed.

Lemma Encode_spec pooled v (w : W) :
  length (sizebuf pooled) = 9%nat → rval_ok v →
  match rlp_enc v with
  | Ok e =>
      (∃ w', Encode pooled w v = Ok w' ∧ written w' = written w ++ e) ∨
      (∃ x p w0 w1 n, Encode pooled w v = Err x ∧ Write p w0 = (w1, n, Some x))
  | Err x => Encode pooled w v = Err x
  | _ => False
  end.
Proof.
  intros Hs Hok. unfold Encode.
  pose proof (writer_writes v (getEncBuffer pooled) Hok Hs) as H.
  destruct (rlp_enc v) as [e | x | |]; try done; [| by rewrite H].
  destruct H as (w' & ts & -> & Hx & Hk & <-). cbn [mbind outcome_bind].
  apply finished in Hx as (Hstr & Hh & _ & Hsb). unfold writeTo. rewrite Hstr, Hh.
  exact (writeTo_ok ts [] [] (sizebuf w') w Hk (eq_trans Hsb Hs)).
Qed.

(** [Encode] streams the same bytes [EncodeToBytes] returns: with any
    io.Writer, either everything was written, or the error is the one a Write
    call returned, or the value was not encodable. *)
Theorem Encode_writes pooled v (w : W) :
  length (sizebuf pooled) = 9%nat → rval_ok v →
  match rlp_enc v with
  | Ok e =>
      (∃ w', Encode pooled w v = Ok w' ∧ written w' = written w ++ e) ∨
      (∃ x p w0 w1 n, Encode pooled w v = Err x ∧ Write p w0 = (w1, n, Some x))
  | Err x => Encode pooled w v = Err x
  | _ => False
  end.
Proof. apply Encode_spec. Qed.
End WriteTo.

(** A bytes.Buffer as the writer. *)
#[export] Instance buffer_writer : io_Writer bytes := fun p w => (w ++ p, len p, None).

#[export] Instance buffer_writer_laws : WriterLaws bytes.
Proof. exists (fun w => w). intros p w w' n H. by injection H as <- <-. Defined.

Lemma Encode_buffer pooled (w : bytes) v e :
  length (sizebuf pooled) = 9%nat → rval_ok v → rlp_enc v = Ok e → Encode pooled w v = Ok (w ++ e).
Proof.
  intros Hs Hok E. pose proof (Encode_spec pooled v w Hs Hok) as H. rewrite E in H.
  destruct H as [(w' & Ew & Hw) | (x & p & w0 & w1 & n & _ & Hx)]; [| done]. cbn in Hw. by rewrite Ew, Hw.
Qed.

Lemma Encode_writes_witness :
  ∃ w', Encode (EncBuffer [] [] 0 (repeat 0 9)) [9] (VSlice false [VUint 5; VBytes []]) = Ok w' ∧
        written w' = written [9] ++ [0xC2; 0x05; 0x80].
Proof.
  pose proof (Encode_writes (EncBuffer [] [] 0 (repeat 0 9)) (VSlice false [VUint 5; VBytes []]) [9]) as H.
  destruct H as [H | (x & p & w0 & w1 & n & _ & H)]; [done | | exact H | discriminate H].
  repeat split; try constructor;
    try (intros e He; vm_compute in He; injection He as <-; vm_compute; reflexivity);
    vm_compute; congruence.
Defined.
