(* ===== verification/RlpStream.v ===== *)
(** * The RLP decoder: the Stream of src/rlp/decode.go

    A Stream reads from a byte reader, here the package's own sliceReader (the
    reader of DecodeBytes).  It caches the kind and size of the value ahead,
    limits the input, and keeps the sizes of the enclosing lists on a stack.
    Operations are state passing: an error leaves the stream in the state the
    code leaves it in.  The theorems: decoding into an empty interface (nested
    lists of byte strings) inverts the encoder, accepts only canonical
    encodings, and returns on every input; reading an integer agrees with
    SplitUint64.

    [uintbuf] is scratch memory that is always overwritten before it is read
    and has no field here. *)

From S2P Require Import Prelude RlpRaw.
#[local] Set Warnings "-register-all".

(** ** State *)

Record Stream := MkStream {
  s_r : bytes;                  (* the sliceReader: what is left of the input *)
  remaining : Z;                (* number of bytes remaining to be read from r *)
  s_size : Z;                   (* size of value ahead *)
  kinderr : option rlp_error;   (* error from last readKind *)
  stack : list Z;               (* list sizes, innermost first *)
  s_kind : option Kind;         (* kind of value ahead; None is -1 *)
  byteval : Z;                  (* value of single byte in type tag *)
  limited : bool                (* true if input limit is in effect *)
}.

Definition set_r r (s : Stream) := MkStream r (remaining s) (s_size s) (kinderr s) (stack s) (s_kind s) (byteval s) (limited s).
Definition set_remaining n (s : Stream) := MkStream (s_r s) n (s_size s) (kinderr s) (stack s) (s_kind s) (byteval s) (limited s).
Definition set_size n (s : Stream) := MkStream (s_r s) (remaining s) n (kinderr s) (stack s) (s_kind s) (byteval s) (limited s).
Definition set_kinderr e (s : Stream) := MkStream (s_r s) (remaining s) (s_size s) e (stack s) (s_kind s) (byteval s) (limited s).
Definition set_stack k (s : Stream) := MkStream (s_r s) (remaining s) (s_size s) (kinderr s) k (s_kind s) (byteval s) (limited s).
Definition set_kind k (s : Stream) := MkStream (s_r s) (remaining s) (s_size s) (kinderr s) (stack s) k (byteval s) (limited s).
Definition set_byteval b (s : Stream) := MkStream (s_r s) (remaining s) (s_size s) (kinderr s) (stack s) (s_kind s) b (limited s).

(** An operation: its outcome and the stream after it. *)
Abbreviation sop A := (Stream → go A * Stream).

(** Run [f] on the value, pass everything else through. *)
Definition sbind {A B} (m : sop A) (f : A → sop B) : sop B := fun s =>
  let '(o, s) := m s in
  match o with
  | Ok a => f a s
  | Err e => (Err e, s)
  | Panic => (Panic, s)
  | OutOfFuel => (OutOfFuel, s)
  end.

Declare Scope stream_scope.
Delimit Scope stream_scope with stream.
Notation "x <- m ;; k" := (sbind m (fun x => k))
  (at level 100, m at next level, right associativity) : stream_scope.
#[local] Open Scope stream_scope.

(** ** The reader *)

(** sliceReader.Read into a buffer of [n] bytes: data, error, rest. *)
Definition sliceReader_Read (n : nat) (sr : bytes) : bytes * option rlp_error * bytes :=
  match sr with
  | [] => ([], Some EOF, [])
  | _ => (take n sr, None, drop n sr)
  end.

Definition sliceReader_ReadByte (sr : bytes) : (Z * bytes) + rlp_error :=
  match sr with
  | [] => inr EOF
  | b :: sr => inl (b, sr)
  end.

(** ** Limits *)

Definition listLimit (s : Stream) : bool * Z :=
  match stack s with
  | [] => (false, 0)
  | l :: _ => (true, l)
  end.

Definition set_top (n : Z) (s : Stream) : Stream :=
  match stack s with
  | [] => s
  | _ :: k => set_stack (n :: k) s
  end.

Definition willRead (n : Z) : sop unit := fun s =>
  let s := set_kind None s in
  let '(inList, limit) := listLimit s in
  if inList && (limit <? n) then (Err ErrElemTooLarge, s)
  else
    let s := if inList then set_top (u64 (limit - n)) s else s in
    if limited s then
      if remaining s <? n then (Err ErrValueTooLarge, s)
      else (Ok tt, set_remaining (u64 (remaining s - n)) s)
    else (Ok tt, s).

Definition readByte : sop Z :=
  _ <- willRead 1 ;;
  fun s => match sliceReader_ReadByte (s_r s) with
           | inl (b, r) => (Ok b, set_r r s)
           | inr EOF => (Err ErrUnexpectedEOF, s)
           | inr e => (Err e, s)
           end.

(** The loop of readFull for a buffer of [want] bytes: what was read and the
    last error. *)
Fixpoint readFull_loop (fuel want : nat) (buf : bytes) (r : bytes)
  : go (bytes * option rlp_error * bytes) :=
  if Nat.ltb (length buf) want then
    match fuel with
    | O => OutOfFuel
    | S fuel =>
        let '(d, err, r) := sliceReader_Read (want - length buf) r in
        match err with
        | None => readFull_loop fuel want (buf ++ d) r
        | Some e => Ok (buf ++ d, Some e, r)
        end
    end
  else Ok (buf, None, r).

Definition readFull (n : Z) : sop bytes :=
  _ <- willRead n ;;
  fun s =>
    match readFull_loop (S (Z.to_nat n)) (Z.to_nat n) [] (s_r s) with
    | Ok (buf, err, r) =>
        let s := set_r r s in
        match err with
        | None => (Ok buf, s)
        | Some EOF => if Nat.ltb (length buf) (Z.to_nat n)
                      then (Err ErrUnexpectedEOF, s) else (Ok buf, s)
        | Some e => (Err e, s)
        end
    | Err e => (Err e, s)
    | Panic => (Panic, s)
    | OutOfFuel => (OutOfFuel, s)
    end.

(** ** Kinds *)

Definition readUint (size : Z) : sop Z := fun s =>
  if size =? 0 then (Ok 0, set_kind None s)
  else if size =? 1 then readByte s
  else if 8 <? size then (Panic, s)
  else
    let start := Z.to_nat (8 - size) in
    (buf <- readFull size ;;
     fun s => if nth 0 buf 0 =? 0 then (Err ErrCanonSize, s)
              else (Ok (be_val (repeat 0 start ++ buf)), s)) s.

(** The size of a value whose tag announces a size of [slen] bytes. *)
Definition readKind_long (k : Kind) (slen : Z) (s : Stream)
  : (Kind * Z * option rlp_error * bool) * Stream :=
  let '(o, s) := readUint slen s in
  match o with
  | Ok size => ((k, size, if size <? 56 then Some ErrCanonSize else None, false), s)
  | Err e => ((k, 0, Some e, false), s)
  | _ => ((k, 0, None, true), s)
  end.

(** Stream.readKind: kind, size, error and whether the call panicked.  On an error the source returns kind 0 ([Byte]) where the
    tag could not be read, and the kind of the tag otherwise. *)
Definition stream_readKind : Stream → (Kind * Z * option rlp_error * bool) * Stream := fun s =>
  let '(o, s1) := readByte s in
  match o with
  | Err e =>
      let e := match stack s1, e with
               | [], ErrUnexpectedEOF => EOF
               | [], ErrValueTooLarge => EOF
               | _, _ => e
               end in
      ((KByte, 0, Some e, false), s1)
  | Ok b =>
      let s2 := set_byteval 0 s1 in
      if b <? 0x80 then ((KByte, 0, None, false), set_byteval b s2)
      else if b <? 0xB8 then ((KString, u8 (b - 0x80), None, false), s2)
      else if b <? 0xC0 then readKind_long KString (u8 (b - 0xB7)) s2
      else if b <? 0xF8 then ((KList, u8 (b - 0xC0), None, false), s2)
      else readKind_long KList (u8 (b - 0xF7)) s2
  | _ => ((KByte, 0, None, true), s1)
  end.

(** Kind returns the kind and size of the next value, reading them once. *)
Definition stream_Kind : sop (Kind * Z) := fun s =>
  let answer (s : Stream) k :=
    match kinderr s with
    | Some e => (Err e, s)
    | None => (Ok (k, s_size s), s)
    end in
  match s_kind s with
  | Some k => answer s k
  | None =>
      let '(inList, limit) := listLimit s in
      if inList && (limit =? 0) then (Err EOL, s)
      else
        let '((k, size, err, panicked), s1) := stream_readKind s in
        if panicked : bool then (Panic, s1)
        else
          let err := match err with
                     | Some e => Some e
                     | None => if inList && (limit <? size) then Some ErrElemTooLarge
                               else if limited s1 && (remaining s1 <? size)
                               then Some ErrValueTooLarge else None
                     end in
          answer (set_kinderr err (set_size size (set_kind (Some k) s1))) k
  end.

(** ** Reading values *)

Definition stream_Bytes : sop bytes :=
  ks <- stream_Kind ;;
  match ks with
  | (KByte, _) => fun s => (Ok [byteval s], set_kind None s)
  | (KString, size) =>
      b <- readFull size ;;
      fun s => if (size =? 1) && (nth 0 b 0 <? 128) then (Err ErrCanonSize, s) else (Ok b, s)
  | _ => fun s => (Err ErrExpectedString, s)
  end.

(** ReadBytes into a buffer of [n] bytes; the result is the filled buffer. *)
Definition stream_ReadBytes (n : Z) : sop bytes :=
  ks <- stream_Kind ;;
  match ks with
  | (KByte, _) => fun s =>
      if n =? 1 then (Ok [byteval s], set_kind None s) else (Err (errWrongSize 1 n), s)
  | (KString, size) =>
      if n =? size then
        b <- readFull n ;;
        fun s => if (size =? 1) && (nth 0 b 0 <? 128) then (Err ErrCanonSize, s) else (Ok b, s)
      else fun s => (Err (errWrongSize size n), s)
  | _ => fun s => (Err ErrExpectedString, s)
  end.

(** Raw rebuilds the header, which was consumed, in front of the content:
    [buf] is allocated with room for it and the content is read behind it. *)
Definition stream_Raw : sop bytes :=
  ks <- stream_Kind ;;
  match ks with
  | (KByte, _) => fun s => (Ok [byteval s], set_kind None s)
  | (kind, size) =>
      let start := headsize size in
      content <- readFull size ;;
      fun s =>
        let buf := repeat 0 (Z.to_nat start) ++ content in
        match (match kind with
               | KString => puthead buf 0x80 0xB7 size
               | _ => puthead buf 0xC0 0xF7 size
               end) with
        | Ok (buf, _) => (Ok buf, s)
        | Err e => (Err e, s)
        | Panic => (Panic, s)
        | OutOfFuel => (OutOfFuel, s)
        end
  end.

Definition stream_uint (maxbits : Z) : sop Z :=
  ks <- stream_Kind ;;
  match ks with
  | (KByte, _) => fun s =>
      if byteval s =? 0 then (Err ErrCanonInt, s) else (Ok (byteval s), set_kind None s)
  | (KString, size) => fun s =>
      if maxbits / 8 <? size then (Err errUintOverflow, s)
      else
        let '(o, s) := readUint (u8 size) s in
        match o with
        | Ok v => if (0 <? size) && (v <? 128) then (Err ErrCanonSize, s) else (Ok v, s)
        | Err ErrCanonSize => (Err ErrCanonInt, s)
        | o => (o, s)
        end
  | _ => fun s => (Err ErrExpectedString, s)
  end.

Definition stream_Uint64 : sop Z := stream_uint 64.
Definition stream_Uint32 : sop Z := i <- stream_uint 32 ;; fun s => (Ok (i mod 2 ^ 32), s).
Definition stream_Uint16 : sop Z := i <- stream_uint 16 ;; fun s => (Ok (i mod 2 ^ 16), s).
Definition stream_Uint8 : sop Z := i <- stream_uint 8 ;; fun s => (Ok (i mod 2 ^ 8), s).

Definition stream_Bool : sop bool :=
  num <- stream_uint 8 ;;
  match num with
  | 0 => fun s => (Ok false, s)
  | 1 => fun s => (Ok true, s)
  | _ => fun s => (Err (errInvalidBool num), s)
  end.

(** List pushes the size of the list, after taking it out of the enclosing
    list's remaining size (a uint64 subtraction). *)
Definition stream_List : sop Z :=
  ks <- stream_Kind ;;
  match ks with
  | (KList, size) => fun s =>
      let '(inList, limit) := listLimit s in
      let s := if inList then set_top (u64 (limit - size)) s else s in
      (Ok size, set_size 0 (set_kind None (set_stack (size :: stack s) s)))
  | _ => fun s => (Err ErrExpectedList, s)
  end.

Definition stream_ListEnd : sop unit := fun s =>
  match stack s with
  | [] => (Err errNotInList, s)
  | limit :: k =>
      if 0 <? limit then (Err errNotAtEOL, s)
      else (Ok tt, set_size 0 (set_kind None (set_stack k s)))
  end.

Definition stream_MoreDataInList (s : Stream) : bool := 0 <? snd (listLimit s).

(** decodeBigInt: the value set in [dst]. *)
Definition stream_BigInt : sop Z :=
  ks <- stream_Kind ;;
  let finish (buffer : bytes) : sop Z := fun s =>
    if (0 <? len buffer) && (nth 0 buffer 0 =? 0) then (Err ErrCanonInt, s)
    else (Ok (be_val buffer), s) in
  match ks with
  | (KList, _) => fun s => (Err ErrExpectedString, s)
  | (KByte, _) => fun s => finish [byteval s] (set_kind None s)
  | (KString, size) =>
      if size =? 0 then fun s => finish [] (set_kind None s)
      else if size <=? 32 then
        buffer <- readFull size ;;
        fun s => if (size =? 1) && (nth 0 buffer 0 <? 128) then (Err ErrCanonSize, s)
                 else finish buffer s
      else
        buffer <- readFull size ;; finish buffer
  end.

(** Reset on a sliceReader: a limit of zero means no limit (the reader is not a
    bytes.Reader, bytes.Buffer or strings.Reader). *)
Definition stream_Reset (r : bytes) (inputLimit : Z) (s : Stream) : Stream :=
  if 0 <? inputLimit then MkStream r inputLimit 0 None [] None 0 true
  else MkStream r (remaining s) 0 None [] None 0 false.

Definition zero_stream : Stream := MkStream [] 0 0 None [] (Some KByte) 0 false.

Definition NewStream (r : bytes) (inputLimit : Z) : Stream :=
  stream_Reset r inputLimit zero_stream.

Definition NewListStream (r : bytes) (length : Z) : Stream :=
  set_size length (set_kind (Some KList) (stream_Reset r length zero_stream)).

(** ** Decoding lists and interfaces *)

Definition wrapStreamError (e : rlp_error) : rlp_error :=
  match e with
  | ErrCanonInt | ErrCanonSize | ErrExpectedList | ErrExpectedString
  | errUintOverflow | errNotAtEOL => decodeError e
  | _ => e
  end.

Definition wrap_err {A} (m : sop A) : sop A := fun s =>
  let '(o, s) := m s in
  match o with Err e => (Err (wrapStreamError e), s) | o => (o, s) end.

Section Lists.
  Context {A : Type} (elemdec : sop A).

(** decodeSliceElems: elements until the end of the list. *)
Fixpoint decodeSliceElems (fuel : nat) (acc : list A) : sop (list A) := fun s =>
  match fuel with
  | O => (OutOfFuel, s)
  | S fuel =>
      let '(o, s) := elemdec s in
      match o with
      | Ok x => decodeSliceElems fuel (acc ++ [x]) s
      | Err EOL => (Ok acc, s)
      | Err e => (Err e, s)
      | Panic => (Panic, s)
      | OutOfFuel => (OutOfFuel, s)
      end
  end.

Definition decodeListSlice (fuel : nat) : sop (list A) :=
  size <- wrap_err stream_List ;;
  if size =? 0 then _ <- stream_ListEnd ;; fun s => (Ok [], s)
  else
    l <- decodeSliceElems fuel [] ;;
    _ <- stream_ListEnd ;;
    fun s => (Ok l, s).

(** decodeListArray for an array of [n] elements. *)
Fixpoint decodeArrayElems (n : nat) (acc : list A) : sop (list A) := fun s =>
  match n with
  | O => (Ok acc, s)
  | S n =>
      let '(o, s) := elemdec s in
      match o with
      | Ok x => decodeArrayElems n (acc ++ [x]) s
      | Err EOL => (Err errTooFewElements, s)
      | Err e => (Err e, s)
      | Panic => (Panic, s)
      | OutOfFuel => (OutOfFuel, s)
      end
  end.

Definition decodeListArray (n : nat) : sop (list A) :=
  _ <- wrap_err stream_List ;;
  l <- decodeArrayElems n [] ;;
  _ <- wrap_err stream_ListEnd ;;
  fun s => (Ok l, s).
End Lists.

(** What decodes into an empty interface: byte strings and lists. *)
Inductive item : Type :=
| IBytes (b : bytes)
| IList (l : list item).

Fixpoint decodeInterface (fuel : nat) : sop item := fun s =>
  match fuel with
  | O => (OutOfFuel, s)
  | S fuel =>
      (ks <- stream_Kind ;;
       match ks with
       | (KList, _) => l <- decodeListSlice (decodeInterface fuel) fuel ;; fun s => (Ok (IList l), s)
       | _ => b <- stream_Bytes ;; fun s => (Ok (IBytes b), s)
       end) s
  end.

(** DecodeBytes into an empty interface, with a recycled Stream.  The fuel is
    enough: see [DecodeBytes_total]. *)
Definition DecodeBytes (pooled : Stream) (b : bytes) : go item :=
  let s := stream_Reset b (len b) pooled in
  let '(o, s) := decodeInterface (S (length b)) s in
  match o with
  | Ok v => if 0 <? len (s_r s) then Err ErrMoreThanOneValue else Ok v
  | o => o
  end.

(** ** The effect of reading [n] bytes *)

(** The stream after [n] bytes were taken from the input, the input limit and
    the innermost list; [r] is the rest of the input. *)
Definition took (n : Z) (r : bytes) (s : Stream) : Stream :=
  MkStream r (if limited s then remaining s - n else remaining s) (s_size s) (kinderr s)
    (match stack s with [] => [] | t :: k => u64 (t - n) :: k end) None (byteval s) (limited s).

Definition room (n : Z) (s : Stream) : Prop :=
  (∀ t k, stack s = t :: k → n <= t) ∧ (limited s = true → n <= remaining s).

(** List sizes and the limit are uint64s. *)
Definition stream_ok (s : Stream) : Prop :=
  Forall (fun t => 0 <= t < 2 ^ 64) (stack s) ∧
  (limited s = true → 0 <= remaining s < 2 ^ 64) ∧ bytes_ok (s_r s) ∧ slice_len (s_r s).

Lemma u64_sub a b : u64 (u64 a - b) = u64 (a - b).
Proof. unfold u64. apply Zminus_mod_idemp_l. Qed.

Lemma willRead_cases n s :
  0 <= n → stream_ok s →
  (room n s ∧ willRead n s = (Ok tt, took n (s_r s) s)) ∨
  (¬ room n s ∧ ∃ e s', willRead n s = (Err e, s') ∧ (e = ErrElemTooLarge ∨ e = ErrValueTooLarge)).
Proof.
  intros Hn (Hst & Hrem & _). unfold willRead, took, room, listLimit. cbn.
  destruct s as [r rm sz ke st kd bv lm]; cbn in *.
  destruct st as [| t k]; cbn.
  - destruct lm; cbn; [case_if |].
    + right. split; [intros [_ H]; specialize (H eq_refl); lia | eauto 6].
    + left. split; [by split |]. rewrite u64_id by (specialize (Hrem eq_refl); lia). done.
    + left. by split.
  - case_if; cbn.
    + right. split; [intros [H _]; specialize (H _ _ eq_refl); lia | eauto 6].
    + destruct lm; cbn; [case_if |].
      * right. split; [intros [_ H']; specialize (H' eq_refl); lia | eauto 6].
      * left. split; [split; [intros t' k' [= <- <-]; lia | done] |].
        rewrite u64_id by (specialize (Hrem eq_refl); lia).
        unfold set_top, set_remaining; cbn. done.
      * left. split; [| done]. split; [intros t' k' [= <- <-]; lia | done].
Qed.

Lemma took_ok n r s : stream_ok s → 0 <= n → room n s → bytes_ok r → slice_len r → stream_ok (took n r s).
Proof.
  intros (Hst & Hrem & _) Hn [_ Hr] Hb Hl. split_and!; cbn; try done.
  - destruct (stack s) as [| t k]; [done |]. apply Forall_cons in Hst as [_ Hst].
    constructor; [apply u64_range | done].
  - intros H. rewrite H. specialize (Hrem H). specialize (Hr H). lia.
Qed.

Lemma took_took a b r r' s : took b r' (took a r s) = took (a + b) r' s.
Proof.
  unfold took; cbn. f_equal.
  - destruct (limited s); lia.
  - destruct (stack s) as [| t k]; [done |]. rewrite u64_sub. do 2 f_equal. lia.
Qed.

Lemma room_took a b r s : 0 <= a → 0 <= b → stream_ok s → room (a + b) s → room b (took a r s).
Proof.
  intros Ha Hb (Hst & Hrem & _) [H1 H2]. split; cbn.
  - destruct (stack s) as [| t k]; [done |]. intros t' k' [= <- <-].
    apply Forall_cons in Hst as [Ht _]. specialize (H1 _ _ eq_refl).
    rewrite u64_id by lia. lia.
  - intros H. rewrite H. specialize (H2 H). lia.
Qed.

Lemma room_untook a b r s :
  0 <= a → 0 <= b → stream_ok s → room a s → room b (took a r s) → room (a + b) s.
Proof.
  intros Ha Hb (Hst & _) [H1 H2] [K1 K2]. cbn in K1, K2. split.
  - intros t k E. rewrite E in K1, Hst. apply Forall_cons in Hst as [Ht _].
    specialize (H1 _ _ E). specialize (K1 _ _ eq_refl). rewrite u64_id in K1 by lia. lia.
  - intros H. rewrite H in K2. specialize (K2 eq_refl). lia.
Qed.

Lemma room_le a b s : a <= b → room b s → room a s.
Proof.
  intros Hab [H1 H2]. split; [intros t k E; specialize (H1 t k E) | intros H; specialize (H2 H)]; lia.
Qed.

Lemma readByte_cases s :
  stream_ok s →
  (∃ b r, s_r s = b :: r ∧ room 1 s ∧ readByte s = (Ok b, took 1 r s)) ∨
  (∃ e s', readByte s = (Err e, s') ∧ e ≠ EOL ∧ (s_r s = [] ∨ ¬ room 1 s)).
Proof.
  intros Hok. unfold readByte, sbind.
  destruct (willRead_cases 1 s ltac:(lia) Hok) as [[Hr ->] | [Hr (e & s' & -> & He)]].
  - cbn. destruct (s_r s) as [| b r] eqn:Er; cbn.
    + right. eexists _, _. by split_and!; [| | left].
    + left. exists b, r. split_and!; try done.
  - right. exists e, s'. split_and!; [done | | by right]. by destruct He as [-> | ->].
Qed.

Lemma readFull_loop_ok n buf r :
  (length buf <= n)%nat →
  readFull_loop (S (n - length buf)) n buf r =
    if Nat.leb (n - length buf) (length r)
    then Ok (buf ++ take (n - length buf) r, None, drop (n - length buf) r)
    else Ok (buf ++ r, Some EOF, []).
Proof.
  intros Hb. cbn [readFull_loop].
  destruct (Nat.ltb_spec (length buf) n) as [Hlt | Hge].
  2: { replace (n - length buf)%nat with 0%nat by lia. cbn. by rewrite app_nil_r. }
  destruct r as [| x r]; cbn [sliceReader_Read].
  { destruct (Nat.leb_spec (n - length buf) (length (@nil Z))) as [H | H]; [cbn in H; lia | done]. }
  set (m := (n - length buf)%nat) in *. set (r' := x :: r) in *.
  destruct (Nat.leb_spec m (length r')) as [H | H].
  - destruct m as [| m'] eqn:Em; [lia |]. cbn [readFull_loop].
    rewrite (proj2 (Nat.ltb_ge _ _)); [done |]. rewrite length_app, length_take. lia.
  - rewrite take_ge, drop_ge by lia. destruct m as [| m'] eqn:Em; [lia |]. cbn [readFull_loop].
    rewrite (proj2 (Nat.ltb_lt _ _)) by (rewrite length_app; lia).
    cbn. by rewrite app_nil_r.
Qed.

Lemma readFull_cases n s :
  0 <= n → stream_ok s →
  (∃ b r, s_r s = b ++ r ∧ len b = n ∧ room n s ∧ readFull n s = (Ok b, took n r s)) ∨
  (∃ e s', readFull n s = (Err e, s') ∧ e ≠ EOL ∧ (len (s_r s) < n ∨ ¬ room n s)).
Proof.
  intros Hn Hok. unfold readFull, sbind.
  destruct (willRead_cases n s Hn Hok) as [[Hr ->] | [Hr (e & s' & -> & He)]].
  2: { right. exists e, s'. split_and!; [done | | by right]. by destruct He as [-> | ->]. }
  pose proof (readFull_loop_ok (Z.to_nat n) [] (s_r s) ltac:(cbn; lia)) as Hl.
  cbn [length] in Hl. rewrite Nat.sub_0_r in Hl. cbn [s_r took]. rewrite Hl.
  destruct (Nat.leb_spec (Z.to_nat n) (length (s_r s))) as [H | H].
  - left. exists (take (Z.to_nat n) (s_r s)), (drop (Z.to_nat n) (s_r s)).
    rewrite take_drop, length_take. split_and!; try done. lia.
  - right. cbn [app]. rewrite (proj2 (Nat.ltb_lt _ _)) by lia. eexists _, _.
    split_and!; [done | done | left; lia].
Qed.

Lemma readFull_exact n s b r :
  0 <= n → stream_ok s → room n s → s_r s = b ++ r → len b = n →
  readFull n s = (Ok b, took n r s).
Proof.
  intros Hn Hok Hr Hs Hb.
  destruct (readFull_cases n s Hn Hok) as [(b' & r' & E & Hb' & _ & ->) | (e & s' & _ & _ & [H | H])].
  - rewrite Hs in E. apply app_inj_1 in E as [-> ->]; [done | lia].
  - rewrite Hs, len_app in H. lia.
  - done.
Qed.

(** ** Kind *)

Lemma be_val_zeros k b : be_val (repeat 0 k ++ b) = be_val b.
Proof.
  rewrite be_val_app. replace (be_val (repeat 0 k)) with 0; [lia |].
  induction k as [| k IH]; [done |]. cbn [repeat]. rewrite be_val_cons, <- IH. lia.
Qed.

Lemma readUint_cases n s :
  1 <= n <= 8 → stream_ok s →
  (∃ b r, s_r s = b ++ r ∧ len b = n ∧ room n s ∧ (n = 1 ∨ nth 0 b 0 ≠ 0) ∧
     readUint n s = (Ok (be_val b), took n r s)) ∨
  (∃ e s', readUint n s = (Err e, s') ∧ e ≠ EOL).
Proof.
  intros Hn Hok. unfold readUint. decide_if. case_if.
  - subst n. destruct (readByte_cases s Hok) as [(b & r & Hs & Hr & ->) | (e & s' & -> & He & _)];
      [left | right; eauto].
    exists [b], r. split_and!; auto.
  - decide_if. unfold sbind.
    destruct (readFull_cases n s ltac:(lia) Hok) as [(b & r & Hs & Hb & Hr & ->) | (e & s' & -> & He & _)];
      [| right; eauto].
    case_if; [right; eauto |]. left. exists b, r. rewrite be_val_zeros. split_and!; auto.
Qed.

Lemma readUint_be_bytes n s r :
  56 <= n < 2 ^ 64 → stream_ok s → room (intsize n) s →
  s_r s = be_bytes (Z.to_nat (intsize n)) n ++ r →
  readUint (intsize n) s = (Ok n, took (intsize n) r s).
Proof.
  intros Hn Hok Hr Hs. pose proof (intsize_range n ltac:(lia)) as Hi.
  pose proof (intsize_lt n ltac:(lia)) as Hlt.
  assert (Hv : be_val (be_bytes (Z.to_nat (intsize n)) n) = n)
    by (apply be_val_be_bytes; rewrite Z2Nat.id by lia; lia).
  unfold readUint. decide_if. case_if.
  - destruct (readByte_cases s Hok) as [(b & r' & Hs' & _ & ->) | (e & s' & _ & _ & [H | H])].
    + replace (intsize n) with 1 in * by lia. rewrite Hs in Hs'.
      change (be_bytes (Z.to_nat 1) n) with [n mod 256] in *.
      injection Hs' as <- <-. rewrite be_val_1 in Hv. by rewrite Hv.
    + rewrite H in Hs. symmetry in Hs. apply app_eq_nil in Hs as [Hs _].
      apply (f_equal length) in Hs. rewrite length_be_bytes in Hs. cbn in Hs. lia.
    + by replace (intsize n) with 1 in * by lia.
  - decide_if. unfold sbind.
    rewrite (readFull_exact (intsize n) s _ r ltac:(lia) Hok Hr Hs)
      by (rewrite length_be_bytes; lia).
    rewrite (proj2 (Z.eqb_neq _ 0)) by (apply be_bytes_intsize_hd; lia).
    by rewrite be_val_zeros, Hv.
Qed.

(** The stream after Kind: the header is consumed, kind and size are cached. *)
Definition after_head (k : Kind) (n bv hs : Z) (r : bytes) (s : Stream) : Stream :=
  MkStream r (remaining (took hs r s)) n None (stack (took hs r s)) (Some k) bv (limited s).

(** [n], the size announced, passes the checks Kind makes: against the list
    size before the header, and against the input left after it. *)
Definition announced (n hs : Z) (s : Stream) : Prop :=
  (∀ t k, stack s = t :: k → n <= t) ∧ (limited s = true → n <= remaining s - hs).

(** The header of a string or list value at the front of the input. *)
Definition head_ahead (s : Stream) (k : Kind) (n : Z) (r : bytes) : Prop :=
  ∃ small large, tags k small large ∧ 0 <= n < 2 ^ 64 ∧
    s_r s = head small large n ++ r ∧ room (headsize n) s ∧ announced n (headsize n) s.

Definition byte_ahead (s : Stream) (b : Z) (r : bytes) : Prop :=
  0 <= b < 128 ∧ s_r s = b :: r ∧ room 1 s ∧ announced 0 1 s.

(** A size read after a tag is the minimal one the header [head] holds. *)
Lemma readKind_long_cases s b r k small large :
  stream_ok s → s_r s = b :: r → room 1 s → tags k small large → 1 <= b - large <= 8 →
  (∃ n r', 0 <= n < 2 ^ 64 ∧ s_r s = head small large n ++ r' ∧ room (headsize n) s ∧
     readKind_long k (b - large) (set_byteval 0 (took 1 r s)) =
       ((k, n, None, false), set_byteval 0 (took (headsize n) r' s))) ∨
  (∃ n e s', readKind_long k (b - large) (set_byteval 0 (took 1 r s)) =
       ((k, n, Some e, false), s') ∧ e ≠ EOL).
Proof.
  intros Hok Hs Hr Ht Hlg.
  assert (Hrok : bytes_ok r ∧ slice_len r).
  { destruct Hok as (_ & _ & Hb & Hl). rewrite Hs in Hb, Hl. rewrite len_cons in Hl.
    apply Forall_cons in Hb as [_ Hb]. split; [done | lia]. }
  destruct Hrok as [Hbr Hlr].
  assert (Hok2 : stream_ok (set_byteval 0 (took 1 r s)))
    by exact (took_ok 1 r s Hok ltac:(lia) Hr Hbr Hlr).
  unfold readKind_long.
  destruct (readUint_cases (b - large) _ Hlg Hok2)
    as [(c & r' & Hc & Hlc & Hrc & Hnz & ->) | (e & s' & -> & He)]; [| right; eauto 10].
  cbn in Hc. case_if; [right; eauto 10 |]. left.
  assert (Hcok : bytes_ok c) by (rewrite Hc in Hbr; by apply Forall_app in Hbr as [? _]).
  pose proof (be_val_bound _ Hcok) as Hbd.
  destruct c as [| x c]; [cbn in Hlc; lia |].
  assert (Hx : x ≠ 0).
  { destruct Hnz as [Hn1 | Hnz]; [| done]. intros ->. rewrite len_cons in Hlc.
    destruct c; [cbn in *; lia | rewrite len_cons in Hlc; lia]. }
  assert (Hi : intsize (be_val (x :: c)) = b - large)
    by (rewrite intsize_be_val; [done | done | done | rewrite len_cons in Hlc; lia]).
  exists (be_val (x :: c)), r'. unfold headsize. decide_if. rewrite Hi. split_and!.
  - lia.
  - apply Z.lt_le_trans with (256 ^ len (x :: c)); [lia |].
    change (2 ^ 64) with (256 ^ 8). apply Z.pow_le_mono_r; lia.
  - rewrite head_long, Hi, <- Hlc, Nat2Z.id, be_bytes_be_val by (done || lia).
    rewrite Hlc, Hs, Hc. cbn [app]. f_equal. lia.
  - apply (room_untook 1 (b - large) r s); [lia | lia | done | done | exact Hrc].
  - change (took (b - large) r' (set_byteval 0 (took 1 r s)))
      with (set_byteval 0 (took (b - large) r' (took 1 r s))).
    by rewrite took_took.
Qed.

(** What [stream_readKind] can find. *)
Lemma stream_readKind_cases s :
  stream_ok s →
  (∃ b r, 0 <= b < 128 ∧ s_r s = b :: r ∧ room 1 s ∧
     stream_readKind s = ((KByte, 0, None, false), set_byteval b (took 1 r s))) ∨
  (∃ k small large n r, tags k small large ∧ 0 <= n < 2 ^ 64 ∧ s_r s = head small large n ++ r ∧
     room (headsize n) s ∧
     stream_readKind s = ((k, n, None, false), set_byteval 0 (took (headsize n) r s))) ∨
  (∃ k n e s', stream_readKind s = ((k, n, Some e, false), s') ∧ e ≠ EOL).
Proof.
  intros Hok. unfold stream_readKind.
  destruct (readByte_cases s Hok) as [(b & r & Hs & Hr & ->) | (e & s' & -> & He & _)].
  2: { right; right. destruct (stack s'), e; cbn; eauto 10. }
  assert (Hb : is_byte b).
  { destruct Hok as (_ & _ & Hb & _). rewrite Hs in Hb. by apply Forall_cons in Hb as [? _]. }
  unfold is_byte in Hb. case_if; [left; exists b, r; split_and!; try done; lia |].
  assert (Hshort : ∀ k small large, tags k small large → 0 <= b - small < 56 →
    ∃ k0 small0 large0 n0 r0, tags k0 small0 large0 ∧ 0 <= n0 < 2 ^ 64 ∧
      s_r s = head small0 large0 n0 ++ r0 ∧ room (headsize n0) s ∧
      (k, u8 (b - small), @None rlp_error, false, set_byteval 0 (took 1 r s)) =
      (k0, n0, None, false, set_byteval 0 (took (headsize n0) r0 s))).
  { intros k small large Ht Hn. exists k, small, large, (b - small), r.
    rewrite u8_id by (unfold is_byte; lia). rewrite head_short by lia.
    unfold headsize. decide_if. split_and!; try done; try lia.
    rewrite Hs. cbn. f_equal. lia. }
  repeat case_if; rewrite ?(u8_id (b - 0xB7)), ?(u8_id (b - 0xF7)) by (unfold is_byte; lia).
  - right; left. apply (Hshort KString 0x80 0xB7); [by left | lia].
  - right. destruct (readKind_long_cases s b r KString 0x80 0xB7 Hok Hs Hr ltac:(by left) ltac:(lia))
      as [(n & r' & ? & ? & ? & ->) | (n & e & s' & -> & ?)]; [left | right; eauto 10].
    exists KString, 0x80, 0xB7, n, r'. split_and!; try done; try lia. by left.
  - right; left. apply (Hshort KList 0xC0 0xF7); [by right | lia].
  - right. destruct (readKind_long_cases s b r KList 0xC0 0xF7 Hok Hs Hr ltac:(by right) ltac:(lia))
      as [(n & r' & ? & ? & ? & ->) | (n & e & s' & -> & ?)]; [left | right; eauto 10].
    exists KList, 0xC0, 0xF7, n, r'. split_and!; try done; try lia. by right.
Qed.

(** Kind on a stream that has not looked ahead: a value within the limits, the
    end of the list, or an error. *)
Lemma Kind_cases s :
  stream_ok s → s_kind s = None →
  (∃ b r, byte_ahead s b r ∧ stream_Kind s = (Ok (KByte, 0), after_head KByte 0 b 1 r s)) ∨
  (∃ k n r, head_ahead s k n r ∧ stream_Kind s = (Ok (k, n), after_head k n 0 (headsize n) r s)) ∨
  (∃ k, stack s = 0 :: k ∧ stream_Kind s = (Err EOL, s)) ∨
  (∃ e s', stream_Kind s = (Err e, s') ∧ e ≠ EOL).
Proof.
  intros Hok Hk. unfold stream_Kind. rewrite Hk.
  destruct (listLimit s) as [inList limit] eqn:El.
  assert (Hlim : (inList = false ∧ stack s = []) ∨ (inList = true ∧ ∃ k, stack s = limit :: k)).
  { unfold listLimit in El. destruct (stack s) as [| t k]; injection El as <- <-; eauto. }
  destruct (inList && (limit =? 0)) eqn:E0.
  { right; right; left. zb. subst. destruct Hlim as [[? _] | [_ [k Hst]]]; [done |]. eauto. }
  destruct (stream_readKind_cases s Hok)
    as [(b & r & Hb & Hs & Hr & ->) | [(k & small & large & n & r & Ht & Hn & Hs & Hr & ->)
       | (k & n & e & s' & -> & He)]].
  - assert (Hnn : limited s = true → (remaining s - 1 <? 0) = false).
    { intros H. destruct Hr as [_ Hr]. specialize (Hr H). apply Z.ltb_ge. lia. }
    assert (Hz : inList && (limit <? 0) = false).
    { destruct Hlim as [[-> _] | [-> [k Hst]]]; [done |]. destruct Hok as (Hf & _).
      rewrite Hst in Hf. apply Forall_cons in Hf as [Hf _]. apply Z.ltb_ge. lia. }
    rewrite Hz. cbn.
    assert (Hz2 : limited s && ((if limited s then remaining s - 1 else remaining s) <? 0) = false)
      by (destruct (limited s); [by apply Hnn | done]).
    rewrite Hz2. left. exists b, r. split; [| done]. split_and!; try lia; try done. split.
    + intros t k Hst. destruct Hok as (Hf & _). rewrite Hst in Hf.
      apply Forall_cons in Hf as [Hf _]. lia.
    + intros H. specialize (Hnn H). zb. lia.
  - cbn. destruct (inList && (limit <? n)) eqn:E1; [right; right; right; eauto |].
    destruct (limited s && ((if limited s then remaining s - headsize n else remaining s) <? n))
      eqn:E2; [right; right; right; eauto |].
    right; left. exists k, n, r. split; [| done]. exists small, large. split_and!; try done; try lia.
    split.
    + intros t k' Hst. destruct Hlim as [[_ ?] | [-> [k'' Hst']]]; [congruence |].
      rewrite Hst in Hst'. injection Hst' as <- _. cbn in E1. zb. lia.
    + intros H. rewrite H in E2. cbn in E2. zb. lia.
  - right; right; right. cbn. eauto.
Qed.

Lemma stream_readKind_head s k small large n r :
  stream_ok s → tags k small large → 0 <= n < 2 ^ 64 → s_r s = head small large n ++ r →
  room (headsize n) s →
  stream_readKind s = ((k, n, None, false), set_byteval 0 (took (headsize n) r s)).
Proof.
  intros Hok Ht Hn Hs Hr. pose proof (headsize_range n Hn) as Hh. unfold stream_readKind.
  destruct (readByte_cases s Hok) as [(b & r1 & Hs1 & _ & ->) | (e & s' & _ & _ & [H | H])].
  - rewrite Hs in Hs1. destruct (Z.lt_ge_cases n 56) as [Hsm | Hlg].
    + rewrite head_short in Hs1 by lia. injection Hs1 as <- <-. unfold headsize. decide_if.
      destruct Ht as [(-> & -> & ->) | (-> & -> & ->)]; repeat decide_if;
        rewrite u8_id by (unfold is_byte; lia); by rewrite Z.add_simpl_l.
    + rewrite head_long in Hs1 by lia. injection Hs1 as <- <-.
      pose proof (intsize_range n Hn) as Hi.
      assert (Hlong : readKind_long k (intsize n)
        (set_byteval 0 (took 1 (be_bytes (Z.to_nat (intsize n)) n ++ r) s)) =
        ((k, n, None, false), set_byteval 0 (took (headsize n) r s))).
      { unfold headsize in *. rewrite (proj2 (Z.ltb_ge n 56)) in * by lia.
        unfold readKind_long. rewrite (readUint_be_bytes n _ r).
        - rewrite (proj2 (Z.ltb_ge n 56)) by lia.
          by rewrite <- (took_took 1 (intsize n) (be_bytes (Z.to_nat (intsize n)) n ++ r) r s).
        - lia.
        - destruct Hok as (H1 & H2 & H3 & H4). rewrite Hs, head_long in H3, H4 by lia.
          apply (took_ok 1); [split_and!; try done | lia | by eapply room_le; [| exact Hr]; lia | |].
          + by rewrite Hs, head_long by lia.
          + by rewrite Hs, head_long by lia.
          + by apply Forall_cons in H3 as [_ ?].
          + cbn [app] in H4. rewrite len_cons in H4. lia.
        - apply (room_took 1 (intsize n)); [lia | lia | done | done].
        - done. }
      destruct Ht as [(-> & -> & ->) | (-> & -> & ->)]; repeat decide_if;
        rewrite Z.add_simpl_l, u8_id by (unfold is_byte; lia); exact Hlong.
  - rewrite H in Hs. symmetry in Hs. apply app_eq_nil in Hs as [Hs _].
    apply (f_equal length) in Hs. pose proof (head_length small large n Hn). cbn in Hs. lia.
  - destruct H. by eapply room_le; [| exact Hr]; lia.
Qed.

Lemma Kind_head s k n r :
  stream_ok s → s_kind s = None → head_ahead s k n r →
  stream_Kind s = (Ok (k, n), after_head k n 0 (headsize n) r s).
Proof.
  intros Hok Hk (small & large & Ht & Hn & Hs & Hr & Ha1 & Ha2).
  pose proof (headsize_range n Hn) as Hh.
  unfold stream_Kind. rewrite Hk.
  assert (Hlim : ∀ inList limit, listLimit s = (inList, limit) →
    inList && (limit =? 0) = false ∧ inList && (limit <? n) = false).
  { unfold listLimit. intros il l. destruct (stack s) as [| t k'] eqn:Est; intros [= <- <-]; [done |].
    destruct Hr as [Hr _]. specialize (Hr _ _ Est). specialize (Ha1 _ _ eq_refl). cbn.
    split; [apply Z.eqb_neq | apply Z.ltb_ge]; lia. }
  destruct (listLimit s) as [il l]. destruct (Hlim il l eq_refl) as [-> Hl2].
  pose proof (stream_readKind_head s k small large n r Hok Ht Hn Hs Hr) as Hrk.
  rewrite Hrk, Hl2. cbn.
  destruct (limited s) eqn:Hlm; cbn; [| done].
  specialize (Ha2 eq_refl). by rewrite (proj2 (Z.ltb_ge _ _)) by lia.
Qed.

(** ** Sound decoders

    A decoder is sound for an encoding when what it accepts is that encoding
    and nothing else, and it accounts for it in the limits. *)

Definition moved (n : Z) (s s' : Stream) : Prop :=
  stack s' = stack (took n [] s) ∧ remaining s' = remaining (took n [] s) ∧
  limited s' = limited s ∧ s_kind s' = None.

(** [s'] is [s] after the bytes [e]. *)
Definition consumed (e : bytes) (s s' : Stream) : Prop :=
  s_r s = e ++ s_r s' ∧ moved (len e) s s' ∧ stream_ok s'.

Definition sound_dec {A} (enc : A → bytes) (d : sop A) : Prop :=
  ∀ s x s', stream_ok s → s_kind s = None → d s = (Ok x, s') → consumed (enc x) s s'.

(** The end of a list is reported only there, and changes nothing. *)
Definition eol_only {A} (d : sop A) : Prop :=
  ∀ s s', stream_ok s → s_kind s = None → d s = (Err EOL, s') →
  s' = s ∧ ∃ k, stack s = 0 :: k.

Definition eol_at_end {A} (d : sop A) : Prop :=
  ∀ s k, s_kind s = None → stack s = 0 :: k → d s = (Err EOL, s).

(** What it accepts is not empty. *)
Definition pos_dec {A} (enc : A → bytes) (d : sop A) : Prop :=
  ∀ s x s', stream_ok s → s_kind s = None → d s = (Ok x, s') → 0 < len (enc x).

(** A decoder returns on every input of at most [n] bytes. *)
Definition total_dec {A} (n : Z) (d : sop A) : Prop :=
  ∀ s, stream_ok s → s_kind s = None → len (s_r s) <= n → returns (fst (d s)).

(** A value within the limits is accepted. *)
Definition complete_dec {A} (enc : A → bytes) (d : sop A) (x : A) : Prop :=
  ∀ s r, stream_ok s → s_kind s = None → s_r s = enc x ++ r → room (len (enc x)) s →
  ∃ s', d s = (Ok x, s').

Lemma moved_took a b s s1 s2 : moved a s s1 → moved b s1 s2 → moved (a + b) s s2.
Proof.
  intros (S1 & R1 & L1 & _) (S2 & R2 & L2 & K2).
  split_and!; [| | congruence | done].
  - rewrite S2, <- (took_took a b [] [] s). cbn. by rewrite S1.
  - rewrite R2, <- (took_took a b [] [] s). cbn. by rewrite R1, L1.
Qed.

Lemma stream_Kind_cached s k : s_kind s = Some k → kinderr s = None → stream_Kind s = (Ok (k, s_size s), s).
Proof. intros H1 H2. unfold stream_Kind. by rewrite H1, H2. Qed.

Lemma after_head_ok k n bv hs r s :
  stream_ok s → 0 <= hs → room hs s → bytes_ok r → slice_len r → stream_ok (after_head k n bv hs r s).
Proof. intros Hok Hh Hr Hb Hl. exact (took_ok hs r s Hok Hh Hr Hb Hl). Qed.

Lemma rest_ok (s : Stream) h r : stream_ok s → s_r s = h ++ r → bytes_ok r ∧ slice_len r.
Proof.
  intros (_ & _ & Hb & Hl) E. rewrite E in Hb, Hl. apply Forall_app in Hb as [_ Hb].
  rewrite len_app in Hl. split; [done | lia].
Qed.

Lemma concat_map_cons {A} (enc : A → bytes) x l :
  concat (map enc (x :: l)) = enc x ++ concat (map enc l).
Proof. done. Qed.

Section Elements.
  Context {A : Type} (enc : A → bytes) (d : sop A).

Lemma elems_sound fuel acc s l s' :
  sound_dec enc d → eol_only d → stream_ok s → s_kind s = None →
  decodeSliceElems d fuel acc s = (Ok l, s') →
  ∃ l', l = acc ++ l' ∧ s_r s = concat (map enc l') ++ s_r s' ∧
    moved (len (concat (map enc l'))) s s' ∧ stream_ok s' ∧ ∃ k, stack s' = 0 :: k.
Proof.
  intros Hs He. revert acc s; induction fuel as [| fuel IH]; intros acc s Hok Hk H; [done |].
  cbn in H. destruct (d s) as [[x | e | |] s1] eqn:E; try done.
  - destruct (Hs s x s1 Hok Hk E) as (Hr & Hm & Hok1).
    destruct (IH _ _ Hok1 (proj2 (proj2 (proj2 Hm))) H) as (l' & -> & Hr' & Hm' & Hok' & Hk').
    exists (x :: l'). rewrite concat_map_cons, len_app. split_and!; try done.
    + by rewrite <- app_assoc.
    + by rewrite Hr, Hr', app_assoc.
    + by eapply moved_took.
  - destruct e; try done. injection H as <- <-. destruct (He s s1 Hok Hk E) as [-> [k Hst]].
    exists []. cbn. rewrite app_nil_r. split_and!; try done; [| eauto].
    split_and!; cbn; try done; [rewrite Hst; cbn; by rewrite Z.sub_0_r |].
    by destruct (limited s); rewrite ?Z.sub_0_r.
Qed.

Lemma elems_complete fuel acc s l r n k :
  sound_dec enc d → eol_at_end d → Forall (complete_dec enc d) l → (length l < fuel)%nat →
  stream_ok s → s_kind s = None → stack s = n :: k → n = len (concat (map enc l)) →
  (limited s = true → n <= remaining s) → s_r s = concat (map enc l) ++ r →
  ∃ s', decodeSliceElems d fuel acc s = (Ok (acc ++ l), s').
Proof.
  intros Hs He. revert acc s n fuel; induction l as [| x l IH];
    intros acc s n [| fuel] Hc Hf Hok Hk Hst Hn Hrem Hr; try (cbn in Hf; lia); cbn.
  - cbn in Hn. subst n. rewrite (He s k Hk Hst). rewrite app_nil_r. eauto.
  - apply Forall_cons in Hc as [Hx Hc]. rewrite concat_map_cons in *.
    rewrite len_app in Hn. rewrite <- app_assoc in Hr.
    destruct (Hx s (concat (map enc l) ++ r) Hok Hk Hr) as [s1 E].
    { split; [intros t k' Et; rewrite Hst in Et; injection Et as <- <-; lia |].
      intros Hl. specialize (Hrem Hl). lia. }
    rewrite E. destruct (Hs s x s1 Hok Hk E) as (Hr1 & (S1 & R1 & L1 & K1) & Hok1).
    rewrite Hr1 in Hr. apply app_inv_head in Hr.
    assert (Hn' : 0 <= n < 2 ^ 64).
    { destruct Hok as (Hf' & _). rewrite Hst in Hf'. by apply Forall_cons in Hf' as [? _]. }
    cbn in S1. rewrite Hst in S1. rewrite u64_id in S1 by lia.
    destruct (IH (acc ++ [x]) s1 (n - len (enc x)) fuel Hc ltac:(cbn in Hf; lia) Hok1 K1 S1
      ltac:(lia)) as [s' E'].
    + intros Hl. cbn in R1. rewrite L1 in Hl. rewrite Hl in R1. specialize (Hrem Hl). lia.
    + done.
    + exists s'. rewrite E', <- app_assoc. done.
Qed.
Lemma elems_total fuel acc s n :
  sound_dec enc d → pos_dec enc d → total_dec n d → stream_ok s → s_kind s = None →
  len (s_r s) <= n → len (s_r s) < Z.of_nat fuel → returns (fst (decodeSliceElems d fuel acc s)).
Proof.
  intros Hs Hpos Ht. revert acc s; induction fuel as [| fuel IH]; intros acc s Hok Hk Hn Hf; [lia |].
  cbn. specialize (Ht s Hok Hk Hn). destruct (d s) as [[x | e | |] s1] eqn:E; try done.
  - destruct (Hs s x s1 Hok Hk E) as (Hr & (_ & _ & _ & Hk1) & Hok1).
    specialize (Hpos s x s1 Hok Hk E). rewrite Hr, len_app in Hn, Hf. apply IH; done || lia.
  - by destruct e.
Qed.

End Elements.

(** ** Looking ahead twice *)

Lemma Kind_idem s k s1 : stream_Kind s = (Ok k, s1) → stream_Kind s1 = (Ok k, s1).
Proof.
  unfold stream_Kind. destruct (s_kind s) as [k0 |] eqn:E.
  - destruct (kinderr s) eqn:Ee; [done |]. intros [= <- <-]. by rewrite E, Ee.
  - destruct (listLimit s) as [il l]. case_if; [done |].
    destruct (stream_readKind s) as [[[[k0 n] e] p] s2]. destruct p; [done |]. cbn.
    destruct (match e with Some e => Some e | None => _ end); [done |].
    by intros [= <- <-].
Qed.

Lemma after_Kind {A} (f : Kind * Z → sop A) s k s1 :
  stream_Kind s = (Ok k, s1) → sbind stream_Kind f s1 = sbind stream_Kind f s.
Proof. intros H. unfold sbind. by rewrite H, (Kind_idem s k s1 H). Qed.

Lemma Kind_eol s k : s_kind s = None → stack s = 0 :: k → stream_Kind s = (Err EOL, s).
Proof. intros H1 H2. unfold stream_Kind, listLimit. by rewrite H1, H2. Qed.

Lemma Kind_byte s b r :
  stream_ok s → s_kind s = None → 0 <= b < 128 → s_r s = b :: r → room 1 s →
  stream_Kind s = (Ok (KByte, 0), after_head KByte 0 b 1 r s).
Proof.
  intros Hok Hk Hb Hs Hr.
  unfold stream_Kind. rewrite Hk.
  destruct (listLimit s) as [il l] eqn:El.
  assert (Hl : il && (l =? 0) = false ∧ il && (l <? 0) = false).
  { unfold listLimit in El. destruct (stack s) as [| t kk] eqn:Est; injection El as <- <-; [done |].
    specialize (proj1 Hr _ _ Est) as Ht. split; [apply Z.eqb_neq | apply Z.ltb_ge]; lia. }
  destruct Hl as [-> Hl0]. unfold stream_readKind.
  destruct (readByte_cases s Hok) as [(b0 & r0 & Hs0 & _ & ->) | (e0 & s0 & _ & _ & [H | H])];
    [| by rewrite H in Hs | done].
  rewrite Hs in Hs0. injection Hs0 as <- <-. decide_if. cbn. rewrite Hl0.
  destruct (limited s) eqn:Hlm; cbn; [| done].
  specialize (proj2 Hr Hlm) as Hr2. by rewrite (proj2 (Z.ltb_ge _ _)) by lia.
Qed.

(** ** Byte strings *)

Lemma took_consumed n e r bv s :
  stream_ok s → room n s → s_r s = e ++ r → n = len e → consumed e s (set_byteval bv (took n r s)).
Proof.
  intros Hok Hr Hs ->. destruct (rest_ok s e r Hok Hs) as [Hb Hl].
  split_and!; [done | by split_and! |]. apply (took_ok (len e) r s); done || lia.
Qed.

Lemma single_byte_nth b : (len b =? 1) && (nth 0 b 0 <? 128) = single_byte b.
Proof.
  destruct b as [| x [| y b]]; cbn [single_byte nth]; [done | done |].
  rewrite !len_cons. by rewrite (proj2 (Z.eqb_neq _ _)) by lia.
Qed.

Lemma room_after_head k n bv hs r s m :
  0 <= hs → 0 <= m → stream_ok s → room hs s → room m (after_head k n bv hs r s) → room (hs + m) s.
Proof. intros ? ? ? ? H. apply (room_untook hs m r s); try done. Qed.

Lemma head_ahead_nonneg s k n r : head_ahead s k n r → 0 <= n.
Proof. intros (small & large & _ & Hn & _). lia. Qed.

Lemma head_ahead_ok s k n r :
  stream_ok s → head_ahead s k n r → stream_ok (after_head k n 0 (headsize n) r s).
Proof.
  intros Hok (small & large & _ & Hn & Hs & Hr & _). destruct (rest_ok s _ r Hok Hs) as [Hb Hl].
  pose proof (headsize_range n Hn). apply after_head_ok; done || lia.
Qed.

Lemma took_head_consumed s n r b r' :
  stream_ok s → head_ahead s KString n r → r = b ++ r' → len b = n → single_byte b = false →
  room n (after_head KString n 0 (headsize n) r s) →
  consumed (enc_string b) s (took n r' (after_head KString n 0 (headsize n) r s)).
Proof.
  intros Hok Ha Hb Hlb Esb Hr1.
  destruct Ha as (small & large & [(_ & -> & ->) | [? _]] & Hn & Hs & Hr & _); [| done].
  pose proof (headsize_range n Hn) as Hh.
  assert (Hc : consumed (head 0x80 0xB7 (len b) ++ b) s (set_byteval 0 (took (headsize n + n) r' s))).
  { apply took_consumed; try done.
    - apply (room_after_head KString n 0 (headsize n) r s n); done || lia.
    - by rewrite Hs, Hb, Hlb, app_assoc.
    - by rewrite len_app, head_length, Hlb by lia. }
  destruct Hc as (C1 & C2 & C3). rewrite <- (took_took _ _ r r' s) in C2, C3.
  unfold enc_string. rewrite Esb. exact (conj C1 (conj C2 C3)).
Qed.

Lemma Bytes_cases s :
  stream_ok s → s_kind s = None →
  (∃ b s', stream_Bytes s = (Ok b, s') ∧ consumed (enc_string b) s s') ∨
  (∃ k, stack s = 0 :: k ∧ stream_Bytes s = (Err EOL, s)) ∨
  (∃ e s', stream_Bytes s = (Err e, s') ∧ e ≠ EOL).
Proof.
  intros Hok Hk. unfold stream_Bytes, sbind.
  destruct (Kind_cases s Hok Hk) as [(b & r & (Hb & Hs & Hr & _) & ->) | [(k & n & r & Ha & ->)
    | [(k & Hst & ->) | (e & s' & -> & He)]]]; [left | | by eauto | by eauto 6].
  - exists [b], (set_kind None (after_head KByte 0 b 1 r s)). split; [done |].
    unfold enc_string, single_byte. decide_if.
    exact (took_consumed 1 [b] r b s Hok Hr Hs eq_refl).
  - destruct k; [| | right; right; eauto 6].
    { by destruct Ha as (small & large & [[? _] | [? _]] & _). }
    assert (Hok1 : stream_ok (after_head KString n 0 (headsize n) r s)) by by apply head_ahead_ok.
    destruct (readFull_cases n _ (head_ahead_nonneg _ _ _ _ Ha) Hok1)
      as [(b & r' & Hb & Hlb & Hr1 & ->) | (e & s' & -> & He & _)]; [| right; right; eauto 6].
    assert (Hsb : (n =? 1) && (nth 0 b 0 <? 128) = single_byte b)
      by (rewrite <- Hlb; apply single_byte_nth).
    rewrite Hsb. destruct (single_byte b) eqn:Esb; [right; right; eauto 6 |].
    left. do 2 eexists. split; [done |]. by apply took_head_consumed.
Qed.

Lemma Bytes_sound : sound_dec enc_string stream_Bytes.
Proof.
  intros s x s' Hok Hk H.
  destruct (Bytes_cases s Hok Hk) as [(b & s1 & E & Hc) | [(k & _ & E) | (e & s1 & E & _)]];
    rewrite E in H; try done. by injection H as <- <-.
Qed.

Lemma Bytes_eol : eol_only stream_Bytes.
Proof.
  intros s s' Hok Hk H.
  destruct (Bytes_cases s Hok Hk) as [(b & s1 & E & Hc) | [(k & Hst & E) | (e & s1 & E & He)]];
    rewrite E in H; [done | injection H as <-; by eauto | congruence].
Qed.

Lemma Bytes_total n : total_dec n stream_Bytes.
Proof.
  intros s Hok Hk _.
  destruct (Bytes_cases s Hok Hk) as [(b & s1 & -> & _) | [(k & _ & ->) | (e & s1 & -> & _)]]; done.
Qed.

Lemma head_ahead_payload s k small large n r c :
  stream_ok s → tags k small large → len c = n → s_r s = head small large n ++ c ++ r →
  room (headsize n + n) s → head_ahead s k n (c ++ r) ∧ 0 <= n < 2 ^ 64.
Proof.
  intros Hok Ht Hc Hs [H1 H2].
  assert (Hn : 0 <= n < 2 ^ 64).
  { destruct Hok as (_ & _ & _ & Hl). rewrite Hs, !len_app in Hl. lia. }
  pose proof (headsize_range n Hn). split; [| done]. exists small, large.
  split_and!; try done; try lia; split; intros; [specialize (H1 _ _ H0) | specialize (H2 H0)
    | specialize (H1 _ _ H0) | specialize (H2 H0)]; lia.
Qed.

Lemma Bytes_complete b : complete_dec enc_string stream_Bytes b.
Proof.
  intros s r Hok Hk Hs Hr. unfold stream_Bytes, sbind.
  destruct (single_byte b) eqn:Eb; unfold enc_string in Hs, Hr; rewrite Eb in Hs, Hr.
  - destruct b as [| x [|]]; try done. cbn in Eb, Hs. zb.
    rewrite (Kind_byte s x r); try done; [by eauto |].
    destruct Hok as (_ & _ & Hb & _). rewrite Hs in Hb. apply Forall_cons in Hb as [Hb _].
    unfold is_byte in Hb. lia.
  - rewrite <- app_assoc in Hs.
    assert (Hlb : 0 <= len b < 2 ^ 64).
    { destruct Hok as (_ & _ & _ & Hl). rewrite Hs, !len_app in Hl. lia. }
    rewrite len_app, head_length in Hr by done.
    destruct (head_ahead_payload s KString 0x80 0xB7 (len b) r b Hok ltac:(by left) eq_refl Hs Hr)
      as [Ha Hn].
    rewrite (Kind_head s KString (len b) (b ++ r) Hok Hk Ha).
    destruct (rest_ok s _ (b ++ r) Hok Hs) as [Hbr Hlr].
    pose proof (headsize_range _ Hn) as Hh.
    assert (Hr1 : room (headsize (len b)) s) by (eapply room_le; [| exact Hr]; lia).
    rewrite (readFull_exact (len b) _ b r).
    + rewrite single_byte_nth, Eb. eauto.
    + lia.
    + apply after_head_ok; done || lia.
    + apply (room_took (headsize (len b)) (len b) (b ++ r) s); done || lia.
    + done.
    + done.
Qed.

Lemma Bytes_at_end : eol_at_end stream_Bytes.
Proof. intros s k Hk Hst. unfold stream_Bytes, sbind. by rewrite (Kind_eol s k Hk Hst). Qed.

(** ** Lists *)

(** The stream inside a list of [n] bytes whose header was at the front of
    [s]: the list is taken out of the enclosing one at once. *)
Definition in_list (n : Z) (r : bytes) (s : Stream) : Stream :=
  MkStream r (remaining (took (headsize n) r s)) 0 None (n :: stack (took (headsize n + n) r s))
    None 0 (limited s).

Lemma List_head s n r :
  head_ahead s KList n r → stream_Kind s = (Ok (KList, n), after_head KList n 0 (headsize n) r s) →
  stream_List s = (Ok n, in_list n r s).
Proof.
  intros Ha E. unfold stream_List, sbind. rewrite E. unfold listLimit, in_list. cbn.
  destruct (stack s) as [| t k] eqn:Hst; cbn; [by rewrite Hst |]. unfold set_top. cbn.
  rewrite u64_sub. unfold set_stack. cbn. rewrite Hst, Z.sub_add_distr. done.
Qed.

Lemma List_cases s :
  stream_ok s → s_kind s = None →
  (∃ n r, head_ahead s KList n r ∧ stream_List s = (Ok n, in_list n r s)) ∨
  (∃ k, stack s = 0 :: k ∧ stream_List s = (Err EOL, s)) ∨
  (∃ e s', stream_List s = (Err e, s') ∧ e ≠ EOL).
Proof.
  intros Hok Hk.
  destruct (Kind_cases s Hok Hk) as [(b & r & _ & E) | [(k & n & r & Ha & E)
    | [(k & Hst & E) | (e & s' & E & He)]]].
  - right; right. unfold stream_List, sbind. rewrite E. eauto.
  - destruct k.
    + right; right. unfold stream_List, sbind. rewrite E. eauto.
    + right; right. unfold stream_List, sbind. rewrite E. eauto.
    + left. exists n, r. eauto using List_head.
  - right; left. unfold stream_List, sbind. rewrite E. eauto.
  - right; right. unfold stream_List, sbind. rewrite E. eauto.
Qed.

Lemma head_ahead_list s n r :
  head_ahead s KList n r →
  0 <= n < 2 ^ 64 ∧ s_r s = head 0xC0 0xF7 n ++ r ∧ room (headsize n) s ∧ announced n (headsize n) s.
Proof. by intros (small & large & [(? & _) | (_ & -> & ->)] & ?). Qed.

Lemma in_list_ok s n r : stream_ok s → head_ahead s KList n r → stream_ok (in_list n r s).
Proof.
  intros Hok (Hn & Hs & Hr & _)%head_ahead_list. pose proof (headsize_range n Hn) as Hh.
  destruct (rest_ok s _ r Hok Hs) as [Hb Hl].
  destruct (after_head_ok KList n 0 (headsize n) r s Hok ltac:(lia) Hr Hb Hl) as (_ & H2 & H3 & H4).
  split_and!; [| done | done | done]. constructor; [done |].
  destruct Hok as (Hst & _). cbn. destruct (stack s) as [| t k]; [done |].
  apply Forall_cons in Hst as [_ Hst]. constructor; [apply u64_range | done].
Qed.

(** Leaving the list: its bytes and its header have been consumed. *)
Lemma ListEnd_consumed s n r payload s' k :
  stream_ok s → head_ahead s KList n r → consumed payload (in_list n r s) s' → stack s' = 0 :: k →
  ∃ s'', stream_ListEnd s' = (Ok tt, s'') ∧ consumed (enc_list payload) s s''.
Proof.
  intros Hok (Hn & Hs & Hr & _)%head_ahead_list (Hp & (Hst & Hrem & Hlim & Hkd) & Hok') Hk.
  cbn in Hp. unfold stream_ListEnd. rewrite Hk. cbn. eexists. split; [done |].
  rewrite Hst in Hk. cbn in Hk. injection Hk as Hz Hk.
  assert (Hnp : n = len payload).
  { destruct Hok as (_ & _ & _ & Hl). rewrite Hs, Hp, !len_app in Hl.
    unfold u64 in Hz. apply Z.mod_divide in Hz; [| lia]. destruct Hz as [q Hq]. lia. }
  unfold enc_list. rewrite <- Hnp. split_and!; cbn.
  - by rewrite Hs, Hp, app_assoc.
  - split_and!; [| | done | done]; cbn; rewrite len_app, head_length, <- Hnp by lia.
    + by rewrite <- Hk.
    + rewrite Hrem. cbn. rewrite <- Hnp. destruct (limited s); lia.
  - destruct Hok' as (H1 & H2 & H3 & H4). split_and!; [| done | done | done].
    rewrite Hst in H1. cbn in H1. rewrite Hk in H1. by apply Forall_cons in H1 as [_ ?].
Qed.

Definition enc_all {A} (enc : A → bytes) (l : list A) : bytes := enc_list (concat (map enc l)).

Section ListSlice.
  Context {A : Type} (enc : A → bytes) (d : sop A).

Lemma wrap_eol e : wrapStreamError e = EOL → e = EOL.
Proof. by destruct e. Qed.

Lemma in_list_empty s r :
  stream_ok s → head_ahead s KList 0 r → consumed [] (in_list 0 r s) (in_list 0 r s).
Proof.
  intros Hok Ha. split_and!; [done | | by apply in_list_ok].
  split_and!; cbn; [done | | done | done]. destruct (limited s); lia.
Qed.

Lemma ListSlice_sound fuel :
  sound_dec enc d → eol_only d → sound_dec (enc_all enc) (decodeListSlice d fuel).
Proof.
  intros Hs He s l s' Hok Hk. unfold decodeListSlice, sbind, wrap_err.
  destruct (List_cases s Hok Hk) as [(n & r & Ha & ->) | [(k & _ & ->) | (e & s1 & -> & _)]]; [| done | done].
  case_if; zb.
  - subst n. destruct (ListEnd_consumed s 0 r [] _ (stack (took (headsize 0 + 0) r s)) Hok Ha
      (in_list_empty s r Hok Ha) eq_refl) as (s2 & -> & Hc).
    by intros [= <- <-].
  - destruct (decodeSliceElems d fuel [] (in_list n r s)) as [[l0 | e | |] s2] eqn:E; try done.
    destruct (elems_sound enc d fuel [] _ l0 s2 Hs He (in_list_ok s n r Hok Ha) eq_refl E)
      as (l' & -> & H1 & H2 & H3 & k & Hst).
    destruct (ListEnd_consumed s n r _ s2 k Hok Ha (conj H1 (conj H2 H3)) Hst) as (s3 & -> & Hc).
    by intros [= <- <-].
Qed.

Lemma elems_no_eol fuel acc s s' : decodeSliceElems d fuel acc s ≠ (Err EOL, s').
Proof.
  revert acc s; induction fuel as [| fuel IH]; intros acc s; cbn; [done |].
  destruct (d s) as [[x | e | |] s1]; try done. by destruct e.
Qed.

Lemma elems_at_end fuel acc s k :
  eol_at_end d → s_kind s = None → stack s = 0 :: k →
  decodeSliceElems d (S fuel) acc s = (Ok acc, s).
Proof. intros He Hk Hst. cbn. by rewrite (He s k Hk Hst). Qed.

Lemma ListSlice_eol fuel : eol_only (decodeListSlice d fuel).
Proof.
  intros s s' Hok Hk. unfold decodeListSlice, sbind, wrap_err.
  destruct (List_cases s Hok Hk) as [(n & r & Ha & ->) | [(k & Hst & ->) | (e & s1 & -> & He)]].
  - case_if; unfold stream_ListEnd; [cbn; by case_if |].
    destruct (decodeSliceElems d fuel [] (in_list n r s)) as [[l0 | e | |] s2] eqn:E; try done.
    + destruct (stack s2); [done |]. by case_if.
    + intros [= -> ->]. by apply elems_no_eol in E.
  - intros [= <-]. eauto.
  - intros [= E ->]. by apply wrap_eol in E.
Qed.

Lemma ListSlice_at_end fuel : eol_at_end (decodeListSlice d fuel).
Proof.
  intros s k Hk Hst. unfold decodeListSlice, wrap_err, stream_List, sbind.
  by rewrite (Kind_eol s k Hk Hst).
Qed.

Lemma ListSlice_total fuel n :
  sound_dec enc d → eol_only d → pos_dec enc d → total_dec (n - 1) d → n <= Z.of_nat fuel →
  total_dec n (decodeListSlice d fuel).
Proof.
  intros Hs He Hpos Ht Hf s Hok Hk Hn. unfold decodeListSlice, sbind, wrap_err.
  destruct (List_cases s Hok Hk) as [(m & r & Ha & ->) | [(k & _ & ->) | (e & s1 & -> & _)]]; [| done | done].
  assert (Hlr : len r < n).
  { apply head_ahead_list in Ha as (Hm & Hr & _). pose proof (headsize_range m Hm).
    rewrite Hr, len_app, head_length in Hn by done. lia. }
  case_if; [unfold stream_ListEnd; cbn; by case_if |].
  pose proof (elems_total enc d fuel [] (in_list m r s) (n - 1) Hs Hpos Ht
    (in_list_ok s m r Hok Ha) eq_refl ltac:(cbn; lia) ltac:(cbn; lia)) as HT.
  destruct (decodeSliceElems d fuel [] (in_list m r s)) as [[l0 | e | |] s2]; try done.
  unfold stream_ListEnd. destruct (stack s2); [done |]. by case_if.
Qed.

Lemma ListSlice_complete fuel l :
  sound_dec enc d → eol_only d → eol_at_end d → Forall (complete_dec enc d) l → (length l < fuel)%nat →
  complete_dec (enc_all enc) (decodeListSlice d fuel) l.
Proof.
  intros Hs He Hend Hc Hf s r Hok Hk Hr Hroom. set (p := concat (map enc l)) in *.
  assert (Hlp : 0 <= len p < 2 ^ 64).
  { destruct Hok as (_ & _ & _ & Hl). unfold enc_all, enc_list in Hr.
    rewrite Hr, !len_app in Hl. fold p in Hl. lia. }
  unfold enc_all, enc_list in Hr, Hroom. fold p in Hr, Hroom.
  rewrite len_app, head_length in Hroom by done. rewrite <- app_assoc in Hr.
  destruct (head_ahead_payload s KList 0xC0 0xF7 (len p) r p Hok ltac:(by right) eq_refl Hr Hroom) as [Ha _].
  pose proof (List_head s _ _ Ha (Kind_head s KList _ _ Hok Hk Ha)) as HL.
  unfold decodeListSlice, sbind, wrap_err. rewrite HL.
  assert (Hin : stream_ok (in_list (len p) (p ++ r) s)) by by apply in_list_ok.
  destruct (elems_complete enc d fuel [] (in_list (len p) (p ++ r) s) l r (len p)
    (stack (took (headsize (len p) + len p) (p ++ r) s)) Hs Hend Hc Hf Hin eq_refl eq_refl eq_refl) as [s2 E].
  { cbn. intros Hl. rewrite Hl. destruct Hroom as [_ H2]. specialize (H2 Hl). lia. }
  { done. }
  case_if; zb.
  - assert (Hl : l = []).
    { destruct fuel; [lia |].
      rewrite (elems_at_end fuel [] (in_list (len p) (p ++ r) s) (stack (took (headsize (len p) + len p) (p ++ r) s)) Hend eq_refl) in E;
        [by injection E | cbn; congruence]. }
    subst l. unfold stream_ListEnd. cbn. eauto.
  - rewrite E. cbn.
    destruct (elems_sound enc d fuel [] _ l s2 Hs He Hin eq_refl E) as (l' & Hl' & H1 & H2 & H3 & k & Hst).
    unfold stream_ListEnd. rewrite Hst. cbn. eauto.
Qed.
End ListSlice.

(** ** Interfaces *)

Fixpoint enc_item (it : item) : bytes :=
  match it with
  | IBytes b => enc_string b
  | IList l => enc_list (concat (map enc_item l))
  end.

Section ItemInd.
  Context (P : item → Prop) (Hb : ∀ b, P (IBytes b)) (Hl : ∀ l, Forall P l → P (IList l)).

Fixpoint item_nested_ind (it : item) : P it :=
  match it with
  | IBytes b => Hb b
  | IList l => Hl l ((fix go (l : list item) : Forall P l :=
      match l with
      | [] => @List.Forall_nil _ P
      | x :: l => @List.Forall_cons _ P x l (item_nested_ind x) (go l)
      end) l)
  end.
End ItemInd.

(** decodeInterface looks ahead and then decodes the same value. *)
Lemma decodeInterface_cases fuel s :
  stream_ok s → s_kind s = None →
  (∃ l s', decodeListSlice (decodeInterface fuel) fuel s = (Ok l, s') ∧
     decodeInterface (S fuel) s = (Ok (IList l), s')) ∨
  (∃ b s', stream_Bytes s = (Ok b, s') ∧ decodeInterface (S fuel) s = (Ok (IBytes b), s')) ∨
  (∃ k, stack s = 0 :: k ∧ decodeInterface (S fuel) s = (Err EOL, s)) ∨
  (∃ e s', decodeInterface (S fuel) s = (Err e, s') ∧ e ≠ EOL) ∨
  (¬ returns (fst (decodeListSlice (decodeInterface fuel) fuel s)) ∧
   ¬ returns (fst (decodeInterface (S fuel) s))).
Proof.
  intros Hok Hk. cbn [decodeInterface]. set (d := decodeInterface fuel).
  assert (Hlist : ∀ n s1, stream_Kind s = (Ok (KList, n), s1) →
    decodeListSlice d fuel s1 = decodeListSlice d fuel s).
  { intros n s1 E. unfold decodeListSlice, wrap_err, stream_List, sbind.
    by rewrite E, (Kind_idem s _ s1 E). }
  assert (Hbytes : ∀ k s1, stream_Kind s = (Ok k, s1) → stream_Bytes s1 = stream_Bytes s)
    by (intros k s1 E; exact (after_Kind _ s k s1 E)).
  destruct (Kind_cases s Hok Hk) as [(b & r & _ & E) | [(k & n & r & Ha & E)
    | [(k & Hst & E) | (e & s' & E & He)]]].
  - unfold sbind. rewrite E, (Hbytes _ _ E).
    destruct (Bytes_cases s Hok Hk) as [(b' & s1 & EB & Hc) | [(k & Hst & EB) | (e & s1 & EB & He)]];
      rewrite EB; eauto 10.
  - destruct k.
    + by destruct Ha as (small & large & [[? _] | [? _]] & _).
    + unfold sbind. rewrite E, (Hbytes _ _ E).
      destruct (Bytes_cases s Hok Hk) as [(b & s1 & EB & Hc) | [(k & Hst & EB) | (e & s1 & EB & He)]];
        rewrite EB; eauto 10.
    + unfold sbind. rewrite E, (Hlist _ _ E).
      destruct (decodeListSlice d fuel s) as [[l | e | |] s1] eqn:EL.
      * left; eauto.
      * right; right. destruct (decide (e = EOL)) as [-> | He]; [left | right; left; eauto].
        destruct (ListSlice_eol d fuel s s1 Hok Hk EL) as [-> [k Hst]]. eauto.
      * do 4 right. split; by intros ?.
      * do 4 right. split; by intros ?.
  - right; right; left. unfold sbind. rewrite E. eauto.
  - do 3 right; left. unfold sbind. rewrite E. eauto.
Qed.

Lemma enc_item_pos it : 0 < len (enc_item it).
Proof.
  destruct it as [b | l]; cbn [enc_item].
  - destruct (single_byte b) eqn:E; [pose proof (enc_kind_nonempty KByte b E) as H
      | pose proof (enc_kind_nonempty KString b E) as H]; cbn in H; lia.
  - pose proof (enc_kind_nonempty KList (concat (map enc_item l)) I) as H. cbn in H. lia.
Qed.

Lemma decodeInterface_sound fuel : sound_dec enc_item (decodeInterface fuel) ∧ eol_only (decodeInterface fuel).
Proof.
  induction fuel as [| fuel [IHs IHe]]; [by split |].
  split.
  - intros s it s' Hok Hk H.
    destruct (decodeInterface_cases fuel s Hok Hk) as [(l & s1 & EL & E) | [(b & s1 & EB & E)
      | [(k & Hst & E) | [(e & s1 & E & He) | [_ E]]]]]; rewrite H in E; try done.
    + injection E as -> ->. exact (ListSlice_sound enc_item _ fuel IHs IHe s l s1 Hok Hk EL).
    + injection E as -> ->. exact (Bytes_sound s b s1 Hok Hk EB).
  - intros s s' Hok Hk H.
    destruct (decodeInterface_cases fuel s Hok Hk) as [(l & s1 & EL & E) | [(b & s1 & EB & E)
      | [(k & Hst & E) | [(e & s1 & E & He) | [_ E]]]]]; rewrite H in E; try done.
    + injection E as <-. eauto.
    + congruence.
Qed.

Lemma decodeInterface_total fuel : total_dec (Z.of_nat fuel - 1) (decodeInterface fuel).
Proof.
  induction fuel as [| fuel IH]; intros s Hok Hk Hn; [lia |].
  destruct (decodeInterface_cases fuel s Hok Hk) as [(l & s1 & _ & ->) | [(b & s1 & _ & ->)
    | [(k & _ & ->) | [(e & s1 & -> & _) | [E _]]]]]; try done.
  destruct E. destruct (decodeInterface_sound fuel) as [Hs He].
  refine (ListSlice_total enc_item _ fuel (Z.of_nat fuel) Hs He (fun _ it _ _ _ _ => enc_item_pos it) _ _ s Hok Hk _); [done | lia | lia].
Qed.

Lemma decodeInterface_at_end fuel : (0 < fuel)%nat → eol_at_end (decodeInterface fuel).
Proof.
  intros Hf s k Hk Hst. destruct fuel; [lia |]. cbn. unfold sbind. by rewrite (Kind_eol s k Hk Hst).
Qed.

Lemma concat_in_len (l : list item) x : x ∈ l → len (enc_item x) <= len (concat (map enc_item l)).
Proof.
  induction l as [| y l IH]; intros Hx; [by apply elem_of_nil in Hx |].
  rewrite concat_map_cons, len_app. apply elem_of_cons in Hx as [-> | Hx]; [lia |].
  specialize (IH Hx). lia.
Qed.

Lemma concat_count_len (l : list item) : Z.of_nat (length l) <= len (concat (map enc_item l)).
Proof.
  induction l as [| y l IH]; [done |]. rewrite concat_map_cons, len_app. pose proof (enc_item_pos y).
  cbn [length]. lia.
Qed.

Lemma Kind_enc_string s b r :
  stream_ok s → s_kind s = None → s_r s = enc_string b ++ r → room (len (enc_string b)) s →
  ∃ k n s1, stream_Kind s = (Ok (k, n), s1) ∧ k ≠ KList.
Proof.
  intros Hok Hk Hs Hr. unfold enc_string in Hs, Hr. destruct (single_byte b) eqn:Eb.
  - destruct b as [| x [|]]; try done. cbn in Eb, Hs. zb.
    rewrite (Kind_byte s x r); try done; [by eauto |].
    destruct Hok as (_ & _ & Hb & _). rewrite Hs in Hb. apply Forall_cons in Hb as [Hb _].
    unfold is_byte in Hb. lia.
  - rewrite <- app_assoc in Hs.
    assert (Hlb : 0 <= len b < 2 ^ 64).
    { destruct Hok as (_ & _ & _ & Hl). rewrite Hs, !len_app in Hl. lia. }
    rewrite len_app, head_length in Hr by done.
    destruct (head_ahead_payload s KString 0x80 0xB7 (len b) r b Hok ltac:(by left) eq_refl Hs Hr)
      as [Ha Hn].
    rewrite (Kind_head s KString (len b) (b ++ r) Hok Hk Ha). by eauto.
Qed.

Lemma Kind_enc_list s p r :
  stream_ok s → s_kind s = None → s_r s = enc_list p ++ r → room (len (enc_list p)) s →
  ∃ n s1, stream_Kind s = (Ok (KList, n), s1).
Proof.
  intros Hok Hk Hs Hr. unfold enc_list in Hs, Hr. rewrite <- app_assoc in Hs.
  assert (Hlb : 0 <= len p < 2 ^ 64).
  { destruct Hok as (_ & _ & _ & Hl). rewrite Hs, !len_app in Hl. lia. }
  rewrite len_app, head_length in Hr by done.
  destruct (head_ahead_payload s KList 0xC0 0xF7 (len p) r p Hok ltac:(by right) eq_refl Hs Hr) as [Ha Hn].
  rewrite (Kind_head s KList (len p) (p ++ r) Hok Hk Ha). by eauto.
Qed.

Lemma decodeInterface_complete it fuel :
  len (enc_item it) < Z.of_nat fuel → complete_dec enc_item (decodeInterface fuel) it.
Proof.
  revert fuel; induction it as [b | l IH] using item_nested_ind;
    intros [| fuel] Hf s r Hok Hk Hs Hr; try lia; cbn [enc_item] in Hs, Hr; cbn [decodeInterface];
    unfold sbind at 1.
  - destruct (Kind_enc_string s b r Hok Hk Hs Hr) as (k & n & s1 & E & Hkl). rewrite E.
    destruct (Bytes_complete b s r Hok Hk Hs Hr) as [s2 EB].
    destruct k; [| | done]; unfold sbind at 1;
      rewrite (after_Kind _ s _ s1 E : stream_Bytes s1 = stream_Bytes s), EB; eauto.
  - destruct (Kind_enc_list s _ r Hok Hk Hs Hr) as (n & s1 & E). rewrite E.
    assert (Hpay : len (concat (map enc_item l)) < Z.of_nat fuel).
    { cbn [enc_item] in Hf. unfold enc_list in Hf. rewrite len_app in Hf.
      pose proof (head_nonempty 0xC0 0xF7 (len (concat (map enc_item l)))). lia. }
    pose proof (concat_count_len l) as Hcount.
    destruct (decodeInterface_sound fuel) as [Hsd Heo].
    destruct (ListSlice_complete enc_item (decodeInterface fuel) fuel l Hsd Heo
      (decodeInterface_at_end fuel ltac:(lia))) with (s := s) (r := r) as [s2 EL]; try done; [| lia |].
    + apply List.Forall_forall. intros x Hx. rewrite Forall_forall in IH.
      apply list_elem_of_In in Hx. apply IH; [done |].
      pose proof (concat_in_len l x Hx). lia.
    + assert (HL : decodeListSlice (decodeInterface fuel) fuel s1 = (Ok l, s2)).
      { rewrite <- EL. unfold decodeListSlice, wrap_err, stream_List, sbind.
        by rewrite E, (Kind_idem s _ s1 E). }
      unfold sbind. rewrite HL. eauto.
Qed.

Lemma Reset_ok b pooled :
  bytes_ok b → slice_len b →
  let s := stream_Reset b (len b) pooled in
  stream_ok s ∧ s_kind s = None ∧ s_r s = b ∧ (0 < len b → ∀ n, n <= len b → room n s).
Proof.
  intros Hb Hl s. unfold s, stream_Reset. case_if; (split_and!; [split_and! | done | done |]); cbn; try done.
  intros _. split; [lia |]. eapply Z.le_lt_trans with (2 ^ 63); [lia | done].
Qed.

Lemma DecodeBytes_spec pooled b it :
  bytes_ok b → slice_len b → DecodeBytes pooled b = Ok it ↔ b = enc_item it.
Proof.
  intros Hb Hl. destruct (Reset_ok b pooled Hb Hl) as (Hok & Hk & Hr & Hroom).
  unfold DecodeBytes. set (s := stream_Reset b (len b) pooled) in *. split.
  - destruct (decodeInterface (S (length b)) s) as [[x | e | |] s'] eqn:E; try done.
    case_if; [done |]. intros [= ->]. zb.
    destruct (proj1 (decodeInterface_sound _) s it s' Hok Hk E) as (Hs & _).
    destruct (s_r s') as [| y r]; [by rewrite <- Hr, Hs, app_nil_r |]. rewrite len_cons in Heqb0. lia.
  - intros ->. pose proof (enc_item_pos it) as Hpos.
    destruct (decodeInterface_complete it (S (length (enc_item it))) ltac:(lia) s [] Hok Hk) as [s' E].
    + by rewrite app_nil_r.
    + by apply Hroom.
    + rewrite E. destruct (proj1 (decodeInterface_sound _) s it s' Hok Hk E) as (Hs & _).
      rewrite Hr in Hs. rewrite <- (app_nil_r (enc_item it)) in Hs at 1.
      apply app_inv_head in Hs. by rewrite <- Hs.
Qed.

(** C28.  Decoding is exact: DecodeBytes into an empty interface returns the
    value whose encoding the input is, and fails on every other input, so that
    a value has one accepted encoding; recycled streams do not matter. *)
Theorem DecodeBytes_correct pooled b it :
  bytes_ok b → slice_len b → DecodeBytes pooled b = Ok it ↔ b = enc_item it.
Proof. apply DecodeBytes_spec. Qed.

Lemma DecodeBytes_correct_witness :
  DecodeBytes zero_stream [0xC4; 0x05; 0xC2; 0x81; 0x80] =
  Ok (IList [IBytes [5]; IList [IBytes [0x80]]]).
Proof. apply DecodeBytes_correct; [solve_bytes | by vm_compute | by vm_compute]. Defined.

(** DecodeBytes returns a value or an error on every input: it neither
    panics nor runs out of the fuel that bounds its recursion. *)
Theorem DecodeBytes_total pooled b :
  bytes_ok b → slice_len b → returns (DecodeBytes pooled b).
Proof.
  intros Hb Hl. destruct (Reset_ok b pooled Hb Hl) as (Hok & Hk & Hr & _). unfold DecodeBytes.
  pose proof (decodeInterface_total (S (length b)) _ Hok Hk ltac:(rewrite Hr; lia)) as H.
  destruct (decodeInterface _ _) as [[x | e | |] s']; try done. by case_if.
Qed.

Lemma DecodeBytes_total_witness : returns (DecodeBytes zero_stream [0xF9; 0x00; 0x01]).
Proof. apply DecodeBytes_total; [solve_bytes | by vm_compute]. Defined.

(** C39.  A nested list that does not fit into the rest of the enclosing list
    is not refused by Stream.List: its size is compared with the list limit as
    it was before the header was read, and the subtraction from what is left
    after the header wraps around, leaving an enclosing list of almost 2^64
    bytes. *)
Theorem List_limit_wraps s n r t k :
  stream_ok s → s_kind s = None → head_ahead s KList n r → stack s = t :: k → t < headsize n + n →
  ∃ s', stream_List s = (Ok n, s') ∧ stack s' = n :: 2 ^ 64 - (headsize n + n - t) :: k.
Proof.
  intros Hok Hk Ha Hst Ht. exists (in_list n r s).
  split; [by apply List_head; [| apply Kind_head] |].
  apply head_ahead_list in Ha as (Hn & _ & [Hr _] & [Han _]).
  specialize (Hr _ _ Hst). specialize (Han _ _ Hst). pose proof (headsize_range n Hn).
  unfold in_list. cbn. rewrite Hst. do 2 f_equal. unfold u64.
  replace (t - (headsize n + n)) with (2 ^ 64 - (headsize n + n - t) + (-1) * 2 ^ 64) by lia.
  rewrite Z.mod_add, Z.mod_small by lia. lia.
Qed.

Lemma List_limit_wraps_witness :
  ∃ s', stream_List (snd (stream_List (NewStream [0xC1; 0xC1; 0x00; 5; 5] 5))) = (Ok 1, s') ∧
    stack s' = [1; 2 ^ 64 - 1].
Proof.
  apply (List_limit_wraps _ 1 [0; 5; 5] 1 []).
  - split_and!; [by repeat constructor | by vm_compute | solve_bytes | by vm_compute].
  - by vm_compute.
  - exists 0xC0, 0xF7. split_and!; [by right | done | done | by vm_compute | split | split].
    all: try (by vm_compute). all: intros ? ? [= <- <-]; by vm_compute.
  - by vm_compute.
  - by vm_compute.
Defined.

(** ** Unsigned integers *)

Definition enc_uint (x : Z) : bytes := enc_string (min_be x).

Lemma be_val_single b : len b = 1 → be_val b = nth 0 b 0.
Proof. destruct b as [| x [|]]; cbn; lia. Qed.

(** An integer read from [b] after its header. *)
Lemma uint_content_of b :
  bytes_ok b → len b <= 8 → (len b = 1 ∨ nth 0 b 0 ≠ 0) → 128 <= be_val b →
  min_be (be_val b) = b ∧ single_byte b = false.
Proof.
  intros Hb Hl Hz Hv. split.
  - apply uint_content_min_be; [done |]. split; [lia |]. right.
    destruct Hz as [H1 |]; [| done]. rewrite be_val_single in Hv by done. lia.
  - destruct b as [| x [|]]; try done. rewrite be_val_1 in Hv. cbn. apply Z.ltb_ge. lia.
Qed.

Lemma uint_sound w s x s' :
  1 <= w <= 8 → stream_ok s → s_kind s = None → stream_uint (8 * w) s = (Ok x, s') →
  0 <= x < 256 ^ w ∧ consumed (enc_uint x) s s'.
Proof.
  intros Hw Hok Hk. unfold stream_uint, sbind, enc_uint. rewrite Z.mul_comm, Z.div_mul by lia.
  assert (H256 : 256 ^ 1 <= 256 ^ w) by (apply Z.pow_le_mono_r; lia).
  destruct (Kind_cases s Hok Hk) as [(b & r & (Hb & Hs & Hr & _) & ->) | [(k & n & r & Ha & ->)
    | [(k & Hst & ->) | (e & s1 & -> & He)]]]; try done.
  - cbn [byteval after_head]. case_if; [done |]. intros [= <- <-]. split; [lia |].
    rewrite enc_uint_small by lia. exact (took_consumed 1 [b] r b s Hok Hr Hs eq_refl).
  - destruct k; [by destruct Ha as (? & ? & [[? _] | [? _]] & _) | | done].
    pose proof (head_ahead_nonneg _ _ _ _ Ha) as Hn. case_if; [done |].
    rewrite u8_id by (unfold is_byte; lia).
    assert (Hok1 : stream_ok (after_head KString n 0 (headsize n) r s)) by by apply head_ahead_ok.
    destruct (Z.eq_dec n 0) as [-> | Hn0].
    + cbn. intros [= <- <-]. split; [lia |].
      destruct Ha as (small & large & [(_ & -> & ->) | [? _]] & _ & Hs & Hr & _); [| done].
      exact (took_consumed 1 [0x80] r 0 s Hok Hr Hs eq_refl).
    + destruct (readUint_cases n _ ltac:(lia) Hok1)
        as [(b & r' & Hb & Hlb & Hr1 & Hz & ->) | (e & s1 & -> & He)]; [| by destruct e].
      rewrite (proj2 (Z.ltb_lt 0 n)) by lia. cbn [andb]. case_if; [done |]. intros [= <- <-].
      assert (Hbok : bytes_ok b).
      { destruct Hok1 as (_ & _ & H & _). rewrite Hb in H. by apply Forall_app in H as [? _]. }
      destruct (uint_content_of b Hbok ltac:(lia)) as [Hmin Hsb]; [rewrite Hlb; by destruct Hz; auto | lia |].
      split.
      * pose proof (be_val_bound _ Hbok) as Hbd.
        assert (256 ^ len b <= 256 ^ w) by (apply Z.pow_le_mono_r; lia). lia.
      * rewrite Hmin. by apply took_head_consumed.
Qed.

Lemma uint_complete w x :
  1 <= w <= 8 → 0 <= x < 256 ^ w → complete_dec enc_uint (stream_uint (8 * w)) x.
Proof.
  intros Hw Hx s r Hok Hk Hs Hr. unfold enc_uint in Hs, Hr.
  assert (H64 : 256 ^ w <= 256 ^ 8) by (apply Z.pow_le_mono_r; lia). change (256 ^ 8) with (2 ^ 64) in H64.
  unfold stream_uint, sbind. rewrite Z.mul_comm, Z.div_mul by lia.
  destruct (Z.lt_ge_cases x 128) as [Hsm | Hlg].
  - destruct (Z.eq_dec x 0) as [-> | Hx0].
    + change (enc_string (min_be 0)) with [0x80] in *. cbn in Hs.
      destruct (head_ahead_payload s KString 0x80 0xB7 0 r [] Hok ltac:(by left) eq_refl Hs Hr) as [Ha _].
      rewrite (Kind_head s KString 0 r Hok Hk Ha). case_if; [lia |]. cbn. eauto.
    + rewrite enc_uint_small in Hs, Hr by lia. rewrite (Kind_byte s x r) by (done || lia).
      cbn [byteval after_head]. decide_if. eauto.
  - set (b := min_be x) in *.
    assert (Hb : min_be x = b) by done.
    assert (Hlb : len b = intsize x).
    { unfold b, min_be. rewrite (proj2 (Z.eqb_neq x 0)), length_be_bytes by lia.
      pose proof (intsize_range x ltac:(lia)). lia. }
    assert (Hi : 1 <= intsize x <= w).
    { destruct (intsize_exists x ltac:(lia)) as (m & -> & Hm & Hlt & Hlo). split; [lia |].
      destruct (Z.le_gt_cases m w) as [| Hgt]; [done |]. exfalso.
      assert (256 ^ w <= 256 ^ (m - 1)) by (apply Z.pow_le_mono_r; lia). lia. }
    assert (Hnz : nth 0 b 0 ≠ 0) by (apply min_be_hd; lia).
    assert (Hv : be_val b = x) by (apply be_val_min_be; lia).
    destruct (uint_content_of b (min_be_ok x) ltac:(lia) ltac:(by right) ltac:(lia)) as [_ Hsb].
    unfold enc_string in Hs, Hr. rewrite Hsb in Hs, Hr. rewrite <- app_assoc in Hs.
    rewrite len_app, head_length in Hr by lia.
    destruct (head_ahead_payload s KString 0x80 0xB7 (len b) r b Hok ltac:(by left) eq_refl Hs Hr)
      as [Ha Hn].
    rewrite (Kind_head s KString (len b) (b ++ r) Hok Hk Ha). decide_if.
    rewrite u8_id by (unfold is_byte; lia).
    assert (Hok1 := head_ahead_ok _ _ _ _ Hok Ha). pose proof (headsize_range _ Hn).
    assert (Hr1 : room (len b) (after_head KString (len b) 0 (headsize (len b)) (b ++ r) s))
      by (apply (room_took (headsize (len b)) (len b) (b ++ r) s); done || lia).
    assert (Hbb : b = be_bytes (Z.to_nat (intsize x)) x)
      by (unfold b, min_be; by rewrite (proj2 (Z.eqb_neq x 0)) by lia).
    rewrite Hlb in *. rewrite (readUint_be_bytes x _ r); [| lia | done | done | cbn; by rewrite <- Hbb].
    rewrite (proj2 (Z.ltb_ge x 128)), andb_false_r by lia. eauto.
Qed.

(** The stream's integer decoder for integers of [w] bytes (Uint8 to
    Uint64) accepts what SplitUint64 accepts, when the value fits: canonical
    big-endian forms only, and with the same value. *)
Theorem stream_uint_SplitUint64 w b x :
  1 <= w <= 8 → bytes_ok b → slice_len b →
  fst (stream_uint (8 * w) (NewStream b (len b))) = Ok x ↔
  x < 256 ^ w ∧ ∃ r, SplitUint64 b = Ok (x, r).
Proof.
  intros Hw Hb Hl. destruct (Reset_ok b zero_stream Hb Hl) as (Hok & Hk & Hr & Hroom).
  unfold NewStream. set (s := stream_Reset b (len b) zero_stream) in *. split.
  - destruct (stream_uint (8 * w) s) as [o s'] eqn:E. cbn. intros ->.
    destruct (uint_sound w s x s' Hw Hok Hk E) as (Hx & Hs & _). split; [lia |].
    assert (256 ^ w <= 256 ^ 8) by (apply Z.pow_le_mono_r; lia). change (256 ^ 8) with (2 ^ 64) in *.
    exists (s_r s'). apply SplitUint64_spec; [done | done |]. rewrite <- Hr. split; [lia | done].
  - intros [Hx (r & E)]. apply SplitUint64_spec in E as [Hx0 Hbr]; [| done | done].
    pose proof (enc_item_pos (IBytes (min_be x))) as Hpos. cbn in Hpos.
    assert (Hle : len (enc_string (min_be x)) <= len b) by (rewrite Hbr, len_app; lia).
    destruct (uint_complete w x Hw ltac:(lia) s r Hok Hk) as [s' ->]; [| apply Hroom; unfold enc_uint; lia | done].
    by rewrite Hr, Hbr.
Qed.

Lemma stream_uint_SplitUint64_witness :
  fst (stream_Uint64 (NewStream [0x82; 4; 0; 9] 4)) = Ok 1024 ↔
  1024 < 256 ^ 8 ∧ ∃ r, SplitUint64 [0x82; 4; 0; 9] = Ok (1024, r).
Proof. apply (stream_uint_SplitUint64 8 [0x82; 4; 0; 9] 1024); [lia | solve_bytes | by vm_compute]. Defined.
