(* ===== verification/RlpRoundtrip.v ===== *)
(** * Encoding and decoding together

    What DecodeBytes puts into an empty interface ([]byte and []interface{})
    is a value EncodeToBytes can encode; on these the two are inverse.  The
    encoder's theory (RlpEncode) and the decoder's (RlpStream) meet in the
    compositional encoding. *)

From S2P Require Import Prelude RlpRaw RlpEncode RlpStream.

(** The Go value an interface holds after decoding. *)
Fixpoint to_rval (it : item) : rval :=
  match it with
  | IBytes b => VInterface (Some (VBytes b))
  | IList l => VInterface (Some (VSlice false (map to_rval l)))
  end.

Lemma enc_elems_items l :
  Forall (fun it => rlp_enc (to_rval it) = Ok (enc_item it)) l →
  enc_elems rlp_enc (map to_rval l) = Ok (concat (map enc_item l)).
Proof.
  induction 1 as [| it l Hit Hl IH]; [done |]. cbn. by rewrite Hit, IH.
Qed.

Lemma rlp_enc_item it : rlp_enc (to_rval it) = Ok (enc_item it).
Proof.
  induction it as [b | l IH] using item_nested_ind; [done |]. cbn.
  by rewrite (enc_elems_items l IH).
Qed.

Lemma rval_ok_item it : bytes_ok (enc_item it) → slice_len (enc_item it) → rval_ok (to_rval it).
Proof.
  induction it as [b | l IH] using item_nested_ind; intros Hb Hl.
  - cbn. split_and!; [by intros e [= <-] | by intros e [= <-] | by apply enc_string_ok_inv].
  - pose proof (rlp_enc_item (IList l)) as E. cbn in E |- *. rewrite E.
    split_and!; [by intros e [= <-] | by intros e [= <-] |].
    cbn [enc_item] in Hb, Hl. unfold enc_list in Hb, Hl. apply Forall_app in Hb as [_ Hb].
    rewrite len_app in Hl. assert (Hl' : slice_len (concat (map enc_item l))) by lia.
    clear E Hl. induction l as [| x l IHl]; [done |]. cbn in Hb, Hl' |- *.
    apply Forall_app in Hb as [Hb1 Hb2]. rewrite len_app in Hl'. apply Forall_cons in IH as [IHx IH].
    split; [apply IHx; [done | lia] | apply IHl; [done | done | lia]].
Qed.

(** C29.  Round trip: what DecodeBytes returns encodes to the bytes it was
    given, and what EncodeToBytes produces for such a value decodes to it,
    whatever recycled stream and buffer the two are given. *)
Theorem EncodeToBytes_DecodeBytes stream buf b it :
  length (sizebuf buf) = 9%nat → bytes_ok b → slice_len b →
  bytes_ok (enc_item it) → slice_len (enc_item it) →
  DecodeBytes stream b = Ok it ↔ EncodeToBytes buf (to_rval it) = Ok b.
Proof.
  intros Hs Hb Hl Hbi Hli.
  rewrite EncodeToBytes_spec, rlp_enc_item by (done || by apply rval_ok_item).
  rewrite DecodeBytes_spec by done. split; [by intros -> | by intros [= ->]].
Qed.

Lemma EncodeToBytes_DecodeBytes_witness :
  DecodeBytes zero_stream [0xC4; 0x05; 0xC2; 0x81; 0x80] = Ok (IList [IBytes [5]; IList [IBytes [0x80]]]) ↔
  EncodeToBytes (EncBuffer [] [] 0 (repeat 0 9)) (to_rval (IList [IBytes [5]; IList [IBytes [0x80]]])) =
    Ok [0xC4; 0x05; 0xC2; 0x81; 0x80].
Proof.
  apply EncodeToBytes_DecodeBytes; [done | solve_bytes | by vm_compute | | by vm_compute].
  vm_compute enc_item. solve_bytes.
Defined.
