(* ===== verification/RlpTyped.v ===== *)
(** * Decoding into Go values: the decoders of rlp/decode.go that makeDecoder selects by type

    A type is a value of [rtype]; the decoder of a type builds a value of the encoder's
    [rval] from a zero value.  Struct fields carry the flags of the encoder (optional,
    and whether the field is the zero value of its type); a required field is never
    asked for its zero flag and has [false].  Decoding is exact: it accepts the
    spellings of the values of the type, where optional fields may be left out at the
    end of a struct, and no other input.  Not among the types are slices tagged tail,
    RawValue, interfaces and types with a DecodeRLP method of their own. *)

From S2P Require Import Prelude RlpRaw RlpEncode RlpStream.
#[local] Open Scope stream_scope.

(** The types makeDecoder distinguishes; integers by their width in bytes, pointers
    with the kind of value that stands for nil. *)
Inductive rtype : Type :=
| TBigPtr
| TBig
| TUint (w : Z)
| TBool
| TString
| TByteSlice
| TByteArray (n : nat)
| TSlice (t : rtype)
| TArray (n : nat) (t : rtype)
| TPtr (nilKind : Kind) (t : rtype)
| TNilPtr (nilKind : Kind) (t : rtype)
| TStruct (fields : list (rtype * bool)).

(** ** The decoders *)

Definition sret {A} (x : A) : sop A := fun s => (Ok x, s).
Definition sfail {A} (e : rlp_error) : sop A := fun s => (Err e, s).

Definition decodeByteArray (n : nat) : sop bytes :=
  ks <- stream_Kind ;;
  match ks with
  | (KByte, _) =>
      if Nat.eqb n 0 then sfail errStringTooLong
      else if Nat.ltb 1 n then sfail errStringTooShort
      else fun s => (Ok [byteval s], set_kind None s)
  | (KString, size) =>
      if Z.of_nat n <? size then sfail errStringTooLong
      else if size <? Z.of_nat n then sfail errStringTooShort
      else
        b <- readFull (Z.of_nat n) ;;
        if (size =? 1) && (nth 0 b 0 <? 128) then sfail (wrapStreamError ErrCanonSize) else sret b
  | (KList, _) => sfail (wrapStreamError ErrExpectedString)
  end.

(** makeNilPtrDecoder *)
Definition decodeNilPtr {A} (nilKind : Kind) (d : sop A) : sop (option A) :=
  ks <- wrap_err stream_Kind ;;
  let '(kind, size) := ks in
  if negb (bool_decide (kind = KByte)) && (size =? 0) then
    if negb (bool_decide (kind = nilKind)) then sfail errWrongEmptyKind else fun s => (Ok None, set_kind None s)
  else x <- d ;; sret (Some x).

(** The loop of makeStructDecoder over the fields: decoder, optional or not, and zero
    value; [isZero] tells whether the value of a field is the zero value.  At the end of
    the list the fields left are set to zero. *)
Fixpoint decodeFields {A} (isZero : A → bool) (fields : list (sop A * bool * A)) : sop (list (A * (bool * bool))) := fun s =>
  match fields with
  | [] => (Ok [], s)
  | (d, optional, _) :: rest =>
      let '(o, s) := d s in
      match o with
      | Ok v =>
          let '(o, s) := decodeFields isZero rest s in
          (match o with Ok vs => Ok ((v, (optional, if isZero v then optional else false)) :: vs) | Err e => Err e | Panic => Panic | OutOfFuel => OutOfFuel end, s)
      | Err EOL =>
          if optional : bool then (Ok (map (fun f => (snd f, (snd (fst f), true))) fields), s) else (Err errTooFewElements, s)
      | Err e => (Err e, s)
      | Panic => (Panic, s)
      | OutOfFuel => (OutOfFuel, s)
      end
  end.

Definition decodeStruct {A} (isZero : A → bool) (fields : list (sop A * bool * A)) : sop (list (A * (bool * bool))) :=
  _ <- wrap_err stream_List ;;
  vs <- decodeFields isZero fields ;;
  _ <- wrap_err stream_ListEnd ;;
  sret vs.

(** reflect.Value.IsZero of a decoded number, string or pointer, array of bytes, or
    slice, which is not nil when it was decoded; not asked of other values *)
Definition IsZero (v : rval) : bool :=
  match v with
  | VUint x => x =? 0
  | VBool b => negb b
  | VString b => len b =? 0
  | VByteArray b => forallb (Z.eqb 0) b
  | VPtr _ None | VBigPtr None => true
  | _ => false
  end.

(** reflect.Zero *)
Fixpoint zero_of (t : rtype) : rval :=
  match t with
  | TBigPtr => VBigPtr None
  | TBig => VBig 0
  | TUint _ => VUint 0
  | TBool => VBool false
  | TString => VString []
  | TByteSlice => VBytes []
  | TByteArray n => VByteArray (repeat 0 n)
  | TSlice _ => VSlice false []
  | TArray n t => VSlice false (repeat (zero_of t) n)
  | TPtr k _ | TNilPtr k _ => VPtr k None
  | TStruct fields => VStruct (map (fun f => (zero_of (fst f), (snd f, snd f))) fields)
  end.

(** makeDecoder *)
Fixpoint decoder_as (isZero : rval → bool) (fuel : nat) (t : rtype) : sop rval :=
  match t with
  | TBigPtr => x <- wrap_err stream_BigInt ;; sret (VBigPtr (Some x))
  | TBig => x <- wrap_err stream_BigInt ;; sret (VBig x)
  | TUint w => x <- wrap_err (stream_uint (8 * w)) ;; sret (VUint x)
  | TBool => b <- wrap_err stream_Bool ;; sret (VBool b)
  | TString => b <- wrap_err stream_Bytes ;; sret (VString b)
  | TByteSlice => b <- wrap_err stream_Bytes ;; sret (VBytes b)
  | TByteArray n => b <- decodeByteArray n ;; sret (VByteArray b)
  | TSlice t => l <- decodeListSlice (decoder_as isZero fuel t) fuel ;; sret (VSlice false l)
  | TArray n t => l <- decodeListArray (decoder_as isZero fuel t) n ;; sret (VSlice false l)
  | TPtr k t => x <- decoder_as isZero fuel t ;; sret (VPtr k (Some x))
  | TNilPtr k t => x <- decodeNilPtr k (decoder_as isZero fuel t) ;; sret (VPtr k x)
  | TStruct fields => vs <- decodeStruct isZero (map (fun f => (decoder_as isZero fuel (fst f), snd f, zero_of (fst f))) fields) ;; sret (VStruct vs)
  end.

Definition decoder (fuel : nat) (t : rtype) : sop rval := decoder_as IsZero fuel t.

(** DecodeBytes with a decoder, and a recycled Stream *)
Definition DecodeBytes_as (pooled : Stream) (d : nat → sop rval) (b : bytes) : go rval :=
  let s := stream_Reset b (len b) pooled in
  let '(o, s) := d (S (length b)) s in
  match o with
  | Ok v => if 0 <? len (s_r s) then Err ErrMoreThanOneValue else Ok v
  | o => o
  end.

(** DecodeBytes into a value of the type *)
Definition DecodeBytes_into (pooled : Stream) (t : rtype) (b : bytes) : go rval := DecodeBytes_as pooled (fun fuel => decoder fuel t) b.

(** ** The values of a type *)

(** The encoding of a value that has one *)
Definition enc_val (v : rval) : bytes := match rlp_enc v with Ok e => e | _ => [] end.

(** The fields of a struct: present ones, then absent optional ones *)
Fixpoint fields_typed {F A} (opt : F → bool) (zero : F → A) (P : F → A → Prop) (fields : list F) (vs : list (A * (bool * bool))) : Prop :=
  match fields with
  | [] => vs = []
  | f :: rest =>
      (opt f = true ∧ vs = map (fun f => (zero f, (opt f, true))) fields) ∨
      ∃ v vs', vs = (v, (opt f, false)) :: vs' ∧ P f v ∧ fields_typed opt zero P rest vs'
  end.

(** The values that decoding into a type can give: pointers are set, except those that
    stand for an empty value. *)
Fixpoint typed (t : rtype) (v : rval) : Prop :=
  match t, v with
  | TBigPtr, VBigPtr (Some x) => 0 <= x
  | TBig, VBig x => 0 <= x
  | TUint w, VUint x => 0 <= x < 256 ^ w
  | TBool, VBool _ => True
  | TString, VString _ => True
  | TByteSlice, VBytes _ => True
  | TByteArray n, VByteArray b => length b = n
  | TSlice t, VSlice false l => Forall (typed t) l
  | TArray n t, VSlice false l => length l = n ∧ Forall (typed t) l
  | TPtr k t, VPtr k' (Some x) => k' = k ∧ typed t x
  | TNilPtr k t, VPtr k' None => k' = k
  | TNilPtr k t, VPtr k' (Some x) => k' = k ∧ typed t x ∧ enc_val x ≠ [0x80] ∧ enc_val x ≠ [0xC0]
  | TStruct fields, VStruct vs => fields_typed snd (fun f => zero_of (fst f)) (fun f => typed (fst f)) fields vs
  | _, _ => False
  end.

(** Types whose nil value is not the value of any input *)
Definition nilable (t : rtype) : bool := match t with TBigPtr | TByteSlice | TSlice _ | TPtr _ _ => true | _ => false end.

(** Types of which IsZero is known when they are decoded *)
Definition zeroable (t : rtype) : bool := match t with TUint _ | TBool | TString | TByteArray _ | TNilPtr _ _ => true | _ => nilable t end.

(** The types of the programs: widths of integers, kinds of nil, and optional fields
    last, as structFields demands, and of a type in [K] *)
Fixpoint rtype_with (K : rtype → bool) (t : rtype) : Prop :=
  match t with
  | TUint w => 1 <= w <= 8
  | TSlice t | TArray _ t | TPtr _ t => rtype_with K t
  | TNilPtr k t => k ≠ KByte ∧ rtype_with K t
  | TStruct fields =>
      fold_right (fun f P => rtype_with K (fst f) ∧ P) True fields ∧
      Forall (fun f => snd f = true → K (fst f) = true) fields ∧
      ∃ required optional, fields = required ++ optional ∧ Forall (fun f => snd f = false) required ∧ Forall (fun f => snd f = true) optional
  | _ => True
  end.

(** Optional fields are pointers without a nil tag, or slices. *)
Abbreviation rtype_ok := (rtype_with nilable).

(** A present field that is not told from an absent one by its value: the decoder with
    the flags of what the input spells out *)
Abbreviation speller := (decoder_as (fun _ => false)).

Section RtypeInd.
  Context (P : rtype → Prop) (Hbigp : P TBigPtr) (Hbig : P TBig) (Huint : ∀ w, P (TUint w)) (Hbool : P TBool) (Hstr : P TString) (Hbytes : P TByteSlice)
    (Harr : ∀ n, P (TByteArray n)) (Hslice : ∀ t, P t → P (TSlice t)) (Harray : ∀ n t, P t → P (TArray n t)) (Hptr : ∀ k t, P t → P (TPtr k t))
    (Hnil : ∀ k t, P t → P (TNilPtr k t)) (Hstruct : ∀ fs, Forall (fun f => P (fst f)) fs → P (TStruct fs)).

Fixpoint rtype_nested_ind (t : rtype) : P t :=
  match t with
  | TBigPtr => Hbigp
  | TBig => Hbig
  | TUint w => Huint w
  | TBool => Hbool
  | TString => Hstr
  | TByteSlice => Hbytes
  | TByteArray n => Harr n
  | TSlice t => Hslice t (rtype_nested_ind t)
  | TArray n t => Harray n t (rtype_nested_ind t)
  | TPtr k t => Hptr k t (rtype_nested_ind t)
  | TNilPtr k t => Hnil k t (rtype_nested_ind t)
  | TStruct fs =>
      Hstruct fs ((fix go (l : list (rtype * bool)) : Forall (fun f => P (fst f)) l :=
        match l with
        | [] => List.Forall_nil _
        | f :: l => List.Forall_cons _ _ _ (match f return P (fst f) with (t, _) => rtype_nested_ind t end) (go l)
        end) fs)
  end.
End RtypeInd.

(** ** Exact decoders *)

(** The decoder looks at the value ahead before anything else. *)
Definition kind_first {A} (d : sop A) : Prop := ∀ s k s1, stream_Kind s = (Ok k, s1) → d s1 = d s.

(** [d] accepts the encodings of the values [P], and returns on inputs of less than [fuel] bytes. *)
Record exact_dec {A} (fuel : nat) (P : A → Prop) (enc : A → bytes) (d : sop A) : Prop := MkExact {
  ed_sound : sound_dec enc d;
  ed_typed : ∀ s x s', stream_ok s → s_kind s = None → d s = (Ok x, s') → P x;
  ed_complete : ∀ x, P x → len (enc x) < Z.of_nat fuel → complete_dec enc d x;
  ed_eol : eol_only d;
  ed_end : eol_at_end d;
  ed_kind : kind_first d;
  ed_total : total_dec (Z.of_nat fuel - 1) d;
  ed_shape : ∀ x, P x → (∃ b, enc x = enc_string b) ∨ (∃ p, enc x = enc_list p)
}.

Lemma enc_list_pos p : 0 < len (enc_list p).
Proof. unfold enc_list. rewrite len_app. pose proof (head_nonempty 0xC0 0xF7 (len p)). lia. Qed.

Lemma ed_pos {A} fuel (P : A → Prop) enc d : exact_dec fuel P enc d → ∀ x, P x → 0 < len (enc x).
Proof. intros Hd x Hx. destruct (ed_shape _ _ _ _ Hd x Hx) as [[b ->] | [p ->]]; [apply enc_string_pos | apply enc_list_pos]. Qed.

Section Combinators.
  Context {A B : Type} (fuel : nat) (P : A → Prop) (enc : A → bytes) (d : sop A) (Hd : exact_dec fuel P enc d).

Lemma exact_wrap : exact_dec fuel P enc (wrap_err d).
Proof.
  destruct Hd as [H1 H2 H3 H4 H5 H6 H7 H8]. unfold wrap_err. split; [| | | | | | | done].
  - intros s x s' Hok Hk E. destruct (d s) as [[y | e | |] s1] eqn:Ed; try done. injection E as <- <-. by apply H1.
  - intros s x s' Hok Hk E. destruct (d s) as [[y | e | |] s1] eqn:Ed; try done. injection E as <- <-. by eapply H2.
  - intros x Hx Hf s r Hok Hk Hs Hr. destruct (H3 x Hx Hf s r Hok Hk Hs Hr) as [s' ->]. eauto.
  - intros s s' Hok Hk E. destruct (d s) as [[y | e | |] s1] eqn:Ed; try done. injection E as E <-. apply wrap_eol in E as ->. by apply H4.
  - intros s k Hk Hst. by rewrite (H5 s k Hk Hst).
  - intros s k s1 E. by rewrite (H6 s k s1 E).
  - intros s Hok Hk Hn. specialize (H7 s Hok Hk Hn). by destruct (d s) as [[y | e | |] s1].
Qed.

Lemma exact_map (Q : B → Prop) (enc' : B → bytes) (f : A → B) :
  (∀ x, P x → Q (f x) ∧ enc' (f x) = enc x) → (∀ y, Q y → ∃ x, y = f x ∧ P x) →
  exact_dec fuel Q enc' (x <- d ;; sret (f x)).
Proof.
  intros Hf Hq. destruct Hd as [H1 H2 H3 H4 H5 H6 H7 H8]. unfold sbind, sret. split.
  - intros s y s' Hok Hk E. destruct (d s) as [[x | e | |] s1] eqn:Ed; try done. injection E as <- <-.
    rewrite (proj2 (Hf x (H2 _ _ _ Hok Hk Ed))). by apply H1.
  - intros s y s' Hok Hk E. destruct (d s) as [[x | e | |] s1] eqn:Ed; try done. injection E as <- <-. by eapply Hf, H2.
  - intros y (x & -> & Hx)%Hq. rewrite (proj2 (Hf x Hx)). intros Hl s r Hok Hk Hs Hr. rewrite (proj2 (Hf x Hx)) in Hs, Hr.
    destruct (H3 x Hx Hl s r Hok Hk Hs Hr) as [s' ->]. eauto.
  - intros s s' Hok Hk E. destruct (d s) as [[x | e | |] s1] eqn:Ed; try done. injection E as -> <-. by apply H4.
  - intros s k Hk Hst. by rewrite (H5 s k Hk Hst).
  - intros s k s1 E. by rewrite (H6 s k s1 E).
  - intros s Hok Hk Hn. specialize (H7 s Hok Hk Hn). by destruct (d s) as [[x | e | |] s1].
  - intros y (x & -> & Hx)%Hq. rewrite (proj2 (Hf x Hx)). by apply H8.
Qed.
End Combinators.

(** ** Decoders of strings and numbers *)

Lemma Kind_then s :
  stream_ok s → s_kind s = None →
  (∃ k n s1, stream_Kind s = (Ok (k, n), s1) ∧ stream_ok s1 ∧ 0 <= n) ∨
  (∃ k, stack s = 0 :: k ∧ stream_Kind s = (Err EOL, s)) ∨
  (∃ e s1, stream_Kind s = (Err e, s1) ∧ e ≠ EOL).
Proof.
  intros Hok Hk. destruct (Kind_cases s Hok Hk) as [(b & r & (Hb & Hs & Hr & _) & ->) | [(k & n & r & Ha & ->) | [(k & Hst & ->) | (e & s' & -> & He)]]].
  - left. eexists _, _, _. split_and!; [done | | done]. destruct (rest_ok s [b] r Hok Hs) as [Hbr Hlr]. apply after_head_ok; done || lia.
  - left. eexists _, _, _. split_and!; [done | by apply head_ahead_ok | by eapply head_ahead_nonneg].
  - right; left. eauto.
  - right; right. eauto.
Qed.

(** The continuation returns, and does not report the end of a list. *)
Definition plain {A} (o : go A) : Prop := match o with Ok _ => True | Err e => e ≠ EOL | Panic | OutOfFuel => False end.

Section AfterKind.
  Context {A : Type} (f : Kind * Z → sop A).

Lemma kind_total n : (∀ k m s, stream_ok s → 0 <= m → plain (fst (f (k, m) s))) → total_dec n (sbind stream_Kind f).
Proof.
  intros Hf s Hok Hk _. unfold sbind. destruct (Kind_then s Hok Hk) as [(k & m & s1 & -> & Hok1 & Hm) | [(k & _ & ->) | (e & s1 & -> & _)]]; [| done | done].
  specialize (Hf k m s1 Hok1 Hm). by destruct (f (k, m) s1) as [[x | e | |] s2].
Qed.

Lemma kind_eol : (∀ k m s, stream_ok s → 0 <= m → plain (fst (f (k, m) s))) → eol_only (sbind stream_Kind f).
Proof.
  intros Hf s s' Hok Hk. unfold sbind. destruct (Kind_then s Hok Hk) as [(k & m & s1 & -> & Hok1 & Hm) | [(k & Hst & ->) | (e & s1 & -> & He)]].
  - specialize (Hf k m s1 Hok1 Hm). destruct (f (k, m) s1) as [[x | e | |] s2]; try done. by intros [= ->].
  - intros [= <-]. eauto.
  - by intros [= ->].
Qed.

Lemma kind_at_end : eol_at_end (sbind stream_Kind f).
Proof. intros s k Hk Hst. unfold sbind. by rewrite (Kind_eol s k Hk Hst). Qed.

Lemma kind_kind : kind_first (sbind stream_Kind f).
Proof. intros s k s1 E. by apply (after_Kind f s k s1). Qed.
End AfterKind.

Lemma readFull_plain n s : 0 <= n → stream_ok s → plain (fst (readFull n s)).
Proof. intros Hn Hok. destruct (readFull_cases n s Hn Hok) as [(b & r & _ & _ & _ & ->) | (e & s' & -> & He & _)]; done. Qed.

Lemma exact_Bytes fuel : exact_dec fuel (fun _ => True) enc_string stream_Bytes.
Proof.
  split; [apply Bytes_sound | done | intros; apply Bytes_complete | apply Bytes_eol | apply Bytes_at_end | apply kind_kind | apply Bytes_total | intros; left; eauto].
Qed.

Lemma exact_uint fuel w : 1 <= w <= 8 → exact_dec fuel (fun x => 0 <= x < 256 ^ w) enc_uint (stream_uint (8 * w)).
Proof.
  intros Hw. assert (Hp : ∀ k m s, stream_ok s → 0 <= m → plain (fst ((match (k, m) with
      | (KByte, _) => fun s => if byteval s =? 0 then (Err ErrCanonInt, s) else (Ok (byteval s), set_kind None s)
      | (KString, size) => fun s => if 8 * w / 8 <? size then (Err errUintOverflow, s) else
          let '(o, s) := readUint (u8 size) s in
          match o with
          | Ok v => if (0 <? size) && (v <? 128) then (Err ErrCanonSize, s) else (Ok v, s)
          | Err ErrCanonSize => (Err ErrCanonInt, s)
          | o => (o, s)
          end
      | _ => fun s => (Err ErrExpectedString, s)
      end : sop Z) s))).
  { intros k m s Hok Hm. destruct k; [by case_if | | done]. case_if; [done |]. rewrite Z.mul_comm, Z.div_mul in Heqb by lia. rewrite u8_id by (unfold is_byte; lia).
    destruct (decide (m = 0)) as [-> | Hm0]; [done |].
    destruct (readUint_cases m s ltac:(lia) Hok) as [(b & r & _ & _ & _ & _ & ->) | (e & s' & -> & He)]; [by case_if | by destruct e]. }
  split.
  - intros s x s' Hok Hk E. by apply (uint_sound w s x s' Hw).
  - intros s x s' Hok Hk E. by apply (uint_sound w s x s' Hw).
  - intros x Hx _. by apply uint_complete.
  - by apply kind_eol.
  - apply kind_at_end.
  - apply kind_kind.
  - by apply kind_total.
  - intros x _. left. by eexists.
Qed.

Lemma exact_Bool fuel : exact_dec fuel (fun _ => True) (fun b : bool => enc_uint (if b then 1 else 0)) stream_Bool.
Proof.
  destruct (exact_uint fuel 1 ltac:(lia)) as [H1 H2 H3 H4 H5 H6 H7 H8]. change (8 * 1) with 8 in *. unfold stream_Bool, sbind. split.
  - intros s b s' Hok Hk E. destruct (stream_uint 8 s) as [[n | e | |] s1] eqn:Eu; try done. specialize (H1 s n s1 Hok Hk Eu).
    destruct n as [| [p | p |] | p]; try done; by injection E as <- <-.
  - done.
  - intros b _ Hl s r Hok Hk Hs Hr. destruct (H3 (if b then 1 else 0) ltac:(by destruct b) Hl s r Hok Hk Hs Hr) as [s' ->]. destruct b; eauto.
  - intros s s' Hok Hk E. destruct (stream_uint 8 s) as [[n | e | |] s1] eqn:Eu; try done; [by destruct n as [| [p | p |] | p] |].
    injection E as -> <-. by apply H4.
  - intros s k Hk Hst. by rewrite (H5 s k Hk Hst).
  - intros s k s1 E. by rewrite (H6 s k s1 E).
  - intros s Hok Hk Hn. specialize (H7 s Hok Hk Hn). destruct (stream_uint 8 s) as [[n | e | |] s1]; try done. by destruct n as [| [p | p |] | p].
  - intros b _. left. by eexists.
Qed.

Lemma took_zero s : stream_ok s → took 0 (s_r s) s = set_kind None s.
Proof.
  intros (Hst & _). unfold took, set_kind. f_equal; [by destruct (limited s); rewrite ?Z.sub_0_r |]. destruct (stack s) as [| t k]; [done |].
  apply Forall_cons in Hst as [Ht _]. by rewrite Z.sub_0_r, u64_id.
Qed.

(** A big integer is a string that does not start with a zero. *)
Definition canon_int (b : bytes) : sop Z := if (0 <? len b) && (nth 0 b 0 =? 0) then sfail ErrCanonInt else sret (be_val b).

Lemma BigInt_Bytes s : stream_ok s → s_kind s = None → stream_BigInt s = (b <- stream_Bytes ;; canon_int b) s.
Proof.
  intros Hok Hk. unfold stream_BigInt, stream_Bytes, sbind. destruct (Kind_then s Hok Hk) as [(k & n & s1 & -> & Hok1 & Hn) | [(k & _ & ->) | (e & s1 & -> & _)]]; [| done | done].
  assert (Hfin : ∀ b (t : Stream), (if (0 <? len b) && (nth 0 b 0 =? 0) then (Err ErrCanonInt, t) else (Ok (be_val b), t)) = canon_int b t).
  { intros b t. unfold canon_int. by case_if. }
  destruct k; [by rewrite Hfin | | done]. case_if.
  - subst n. assert (Hr : room 0 s1).
    { split; [intros t k Est; destruct Hok1 as (Hst & _); rewrite Est in Hst; apply Forall_cons in Hst as [Ht _]; lia |].
      intros Hl. destruct Hok1 as (_ & Hr & _). specialize (Hr Hl). lia. }
    by rewrite (readFull_exact 0 s1 [] (s_r s1) ltac:(lia) Hok1 Hr eq_refl eq_refl), took_zero.
  - case_if.
    + destruct (readFull n s1) as [[b | e | |] s2]; try done. case_if; [done |]. by rewrite Hfin.
    + destruct (readFull n s1) as [[b | e | |] s2]; try done. rewrite (proj2 (Z.eqb_neq n 1)) by lia. cbn [andb]. by rewrite Hfin.
Qed.

Definition enc_bigint (x : Z) : bytes := enc_string (big_be x).

Lemma canon_int_cases b : bytes_ok b →
  (canon_int b = sret (be_val b) ∧ big_be (be_val b) = b ∧ 0 <= be_val b) ∨ (canon_int b = sfail ErrCanonInt).
Proof.
  intros Hb. unfold canon_int. destruct (_ && _) eqn:E; [by right |]. left. split_and!; [done | | by apply be_val_bound]. apply big_be_be_val; [done |].
  destruct b as [| x l]; [by left |]. right. rewrite len_cons in E. apply andb_false_iff in E as [E | E]; zb; [lia | done].
Qed.

Lemma canon_int_big x : 0 <= x → canon_int (big_be x) = sret x.
Proof.
  intros Hx. unfold canon_int. rewrite be_val_big_be by done. destruct (_ && _) eqn:E; [| done]. exfalso. zb.
  assert (Hnz : x ≠ 0) by (intros ->; by cbn in *). pose proof (BitLen_bound x ltac:(lia)) as [B1 _]. unfold big_be in *. rewrite length_be_bytes in *.
  set (n := Z.to_nat ((BitLen x + 7) / 8)) in *. destruct n as [| m] eqn:En; [cbn in *; lia |].
  pose proof (be_val_be_bytes (S m) x) as Hv. pose proof (be_val_big_be x Hx) as Hv'. unfold big_be in Hv'. fold n in Hv'. rewrite En in Hv'.
  pose proof (be_bytes_ok (S m) x) as Hok. pose proof (length_be_bytes (S m) x) as Hl. destruct (be_bytes (S m) x) as [| y l]; [done |].
  cbn in H0, Hl. subst y. apply Forall_cons in Hok as [_ Hok]. rewrite be_val_cons in Hv'. pose proof (be_val_bound l Hok). pose proof (BitLen_nonneg x).
  assert (Hm : 8 * Z.of_nat m <= BitLen x - 1) by (pose proof (Z.div_mod (BitLen x + 7) 8 ltac:(lia)); pose proof (Z.mod_pos_bound (BitLen x + 7) 8 ltac:(lia)); lia).
  assert (2 ^ (8 * Z.of_nat m) <= 2 ^ (BitLen x - 1)) by (apply Z.pow_le_mono_r; lia). rewrite Z.pow_mul_r in * by lia. change (2 ^ 8) with 256 in *.
  injection Hl as Hl. rewrite Hl in *. lia.
Qed.

Lemma exact_BigInt fuel : exact_dec fuel (fun x => 0 <= x) enc_bigint stream_BigInt.
Proof.
  assert (Hcan : ∀ s b s1, stream_ok s → s_kind s = None → stream_Bytes s = (Ok b, s1) → bytes_ok b).
  { intros s b s1 Hok Hk E. destruct (Bytes_sound s b s1 Hok Hk E) as (Hs & _). destruct Hok as (_ & _ & Hb & _). rewrite Hs in Hb. apply Forall_app in Hb as [Hb _].
    unfold enc_string in Hb. case_if; [done |]. by apply Forall_app in Hb as [_ ?]. }
  assert (Hret : ∀ s x s', stream_ok s → s_kind s = None → stream_BigInt s = (Ok x, s') → ∃ b, stream_Bytes s = (Ok b, s') ∧ big_be x = b ∧ 0 <= x).
  { intros s x s' Hok Hk E. rewrite BigInt_Bytes in E by done. unfold sbind in E. destruct (stream_Bytes s) as [[b | e | |] s1] eqn:Eb; try done.
    destruct (canon_int_cases b (Hcan _ _ _ Hok Hk Eb)) as [(Ec & H1 & H2) | Ec]; rewrite Ec in E; [| done]. injection E as <- <-. by exists b. }
  split.
  - intros s x s' Hok Hk E. destruct (Hret s x s' Hok Hk E) as (b & Eb & Hx & _). unfold enc_bigint. rewrite Hx. by apply Bytes_sound.
  - intros s x s' Hok Hk E. by destruct (Hret s x s' Hok Hk E) as (b & _ & _ & ?).
  - intros x Hx _ s r Hok Hk Hs Hr. destruct (Bytes_complete (big_be x) s r Hok Hk Hs Hr) as [s' E]. exists s'. rewrite BigInt_Bytes by done.
    unfold sbind. by rewrite E, canon_int_big.
  - intros s s' Hok Hk E. rewrite BigInt_Bytes in E by done. unfold sbind in E. destruct (stream_Bytes s) as [[b | e | |] s1] eqn:Eb; try done.
    + destruct (canon_int_cases b (Hcan _ _ _ Hok Hk Eb)) as [(Ec & _) | Ec]; by rewrite Ec in E.
    + injection E as -> <-. by apply Bytes_eol.
  - apply kind_at_end.
  - apply kind_kind.
  - intros s Hok Hk Hn. rewrite BigInt_Bytes by done. pose proof (Bytes_total _ s Hok Hk Hn) as HT. unfold sbind. destruct (stream_Bytes s) as [[b | e | |] s1] eqn:Eb; try done.
    destruct (canon_int_cases b (Hcan _ _ _ Hok Hk Eb)) as [(-> & _) | ->]; done.
  - intros x _. left. by eexists.
Qed.

Lemma ByteArray_Bytes n s b s' :
  stream_ok s → s_kind s = None → decodeByteArray n s = (Ok b, s') ↔ stream_Bytes s = (Ok b, s') ∧ length b = n.
Proof.
  intros Hok Hk. unfold decodeByteArray, stream_Bytes, sbind.
  destruct (Kind_then s Hok Hk) as [(k & m & s1 & -> & Hok1 & Hm) | [(k & _ & ->) | (e & s1 & -> & _)]]; [| by split; [| intros [? _]] | by split; [| intros [? _]]].
  destruct k; [| | by split; [| intros [? _]]].
  - destruct n as [| [| n]]; cbn; [split; [done | by intros [[= <- _] ?]] | split; [by intros [= <- <-] | by intros [? _]] | split; [done | by intros [[= <- _] ?]]].
  - destruct (readFull_cases m s1 Hm Hok1) as [(c & r & Hs & Hc & Hr & E) | (e & s2 & E & He & _)].
    + destruct (decide (m = Z.of_nat n)) as [-> | Hne].
      * rewrite !Z.ltb_irrefl, E. destruct (_ && _); unfold sfail, sret; [by split; [| intros [? _]] |]. split; [intros [= <- <-]; split; [done | lia] | by intros [? _]].
      * split; [do 2 (case_if; [done |]); lia |]. rewrite E. intros [H Hb]. destruct ((m =? 1) && (nth 0 c 0 <? 128)); [done |]. injection H as <- _. lia.
    + split; [| rewrite E; by intros [? _]]. do 2 (case_if; [done |]). assert (m = Z.of_nat n) as <- by lia. by rewrite E.
Qed.

Lemma exact_ByteArray fuel n : exact_dec fuel (fun b => length b = n) enc_string (decodeByteArray n).
Proof.
  assert (Hp : ∀ k m s, stream_ok s → 0 <= m → plain (fst ((match (k, m) with
      | (KByte, _) => if Nat.eqb n 0 then sfail errStringTooLong else if Nat.ltb 1 n then sfail errStringTooShort else fun s => (Ok [byteval s], set_kind None s)
      | (KString, size) =>
          if Z.of_nat n <? size then sfail errStringTooLong else if size <? Z.of_nat n then sfail errStringTooShort
          else (b <- readFull (Z.of_nat n) ;; if (size =? 1) && (nth 0 b 0 <? 128) then sfail (wrapStreamError ErrCanonSize) else sret b)
      | (KList, _) => sfail (wrapStreamError ErrExpectedString)
      end : sop bytes) s))).
  { intros k m s Hok Hm. destruct k; [by repeat case_if | | done]. do 2 (case_if; [done |]). unfold sbind. pose proof (readFull_plain (Z.of_nat n) s ltac:(lia) Hok) as HR.
    destruct (readFull (Z.of_nat n) s) as [[b | e | |] s2]; try done. by case_if. }
  split.
  - intros s b s' Hok Hk E. apply Bytes_sound; try done. by apply (ByteArray_Bytes n).
  - intros s b s' Hok Hk E. by apply (ByteArray_Bytes n) in E as [_ ?].
  - intros b Hb _ s r Hok Hk Hs Hr. destruct (Bytes_complete b s r Hok Hk Hs Hr) as [s' E]. exists s'. by apply ByteArray_Bytes.
  - by apply kind_eol.
  - apply kind_at_end.
  - apply kind_kind.
  - by apply kind_total.
  - intros b _. left. by eexists.
Qed.

(** ** Decoders of lists *)

Lemma kind_bind {A B} (d : sop A) (f : A → sop B) : kind_first d → kind_first (sbind d f).
Proof. intros Hd s k s1 E. unfold sbind. by rewrite (Hd s k s1 E). Qed.

Lemma kind_wrap {A} (d : sop A) : kind_first d → kind_first (wrap_err d).
Proof. intros Hd s k s1 E. unfold wrap_err. by rewrite (Hd s k s1 E). Qed.

Lemma concat_length_len {A} (P : A → Prop) (enc : A → bytes) l :
  (∀ x, P x → 0 < len (enc x)) → Forall P l → Z.of_nat (length l) <= len (concat (map enc l)).
Proof.
  intros Hp Hl. induction Hl as [| x l Hx _ IH]; [done |]. rewrite concat_map_cons, len_app. specialize (Hp x Hx). cbn [length]. lia.
Qed.

Section Slices.
  Context {A : Type} (fuel : nat) (P : A → Prop) (enc : A → bytes) (d : sop A) (Hd : exact_dec fuel P enc d).

Lemma exact_pos : pos_dec enc d.
Proof. intros s x s1 Hok Hk E. apply (ed_pos _ _ _ _ Hd). by apply (ed_typed _ _ _ _ Hd s x s1). Qed.

Lemma elems_typed n acc s l s' :
  stream_ok s → s_kind s = None → Forall P acc → decodeSliceElems d n acc s = (Ok l, s') → Forall P l.
Proof.
  revert acc s. induction n as [| n IH]; intros acc s Hok Hk Hacc E; [done |]. cbn in E. destruct (d s) as [[x | e | |] s1] eqn:Ed; try done.
  - destruct (ed_sound _ _ _ _ Hd s x s1 Hok Hk Ed) as (_ & (_ & _ & _ & Hk1) & Hok1). apply (IH (acc ++ [x]) s1 Hok1 Hk1); [| done].
    apply Forall_app. split; [done |]. constructor; [by apply (ed_typed _ _ _ _ Hd s x s1) | done].
  - destruct e; try done. by injection E as <- _.
Qed.

Lemma exact_ListSlice : exact_dec fuel (Forall P) (enc_all enc) (decodeListSlice d fuel).
Proof.
  pose proof Hd as [H1 H2 H3 H4 H5 H6 H7 H8]. split.
  - by apply ListSlice_sound.
  - intros s l s' Hok Hk. unfold decodeListSlice, sbind, wrap_err.
    destruct (List_cases s Hok Hk) as [(n & r & Ha & ->) | [(k & _ & ->) | (e & s1 & -> & _)]]; [| done | done]. case_if.
    + destruct (stream_ListEnd _) as [[u | e | |] s2]; try done. intros [= <- _]. done.
    + destruct (decodeSliceElems d fuel [] (in_list n r s)) as [[l0 | e | |] s2] eqn:E; try done. apply elems_typed in E; [| by apply in_list_ok | done | done].
      destruct (stream_ListEnd _) as [[u | e | |] s3]; try done. by intros [= <- _].
  - intros l Hl Hf. unfold enc_all in Hf. pose proof (enc_list_pos (concat (map enc l))) as Hp. assert (Hlt : len (concat (map enc l)) < Z.of_nat fuel).
    { unfold enc_list in Hf. rewrite len_app in Hf. pose proof (head_nonempty 0xC0 0xF7 (len (concat (map enc l)))). lia. }
    pose proof (concat_length_len P enc l (ed_pos _ _ _ _ Hd) Hl). apply ListSlice_complete; [done | done | done | | lia].
    apply List.Forall_forall. intros x Hx. apply list_elem_of_In in Hx. rewrite Forall_forall in Hl. apply H3; [by apply Hl |].
    pose proof (concat_elem_len (map enc l) (enc x) (list_elem_of_fmap_2 enc l x Hx)). lia.
  - apply ListSlice_eol.
  - apply ListSlice_at_end.
  - apply kind_bind, kind_wrap, kind_kind.
  - intros s Hok Hk Hn. apply (ListSlice_total enc d fuel (Z.of_nat fuel) H1 H4 exact_pos H7); (done || lia).
  - intros l _. right. by eexists.
Qed.
End Slices.

(** ** Decoders of structs *)

Lemma consumed_nil s : stream_ok s → s_kind s = None → consumed [] s s.
Proof.
  intros Hok Hk. split_and!; [done | | done]. pose proof (took_zero s Hok) as E. split_and!; [| | done | done]; cbn.
  - change (stack s = stack (took 0 (s_r s) s)). by rewrite E.
  - change (remaining s = remaining (took 0 (s_r s) s)). by rewrite E.
Qed.

Lemma consumed_app a b s s1 s2 : consumed a s s1 → consumed b s1 s2 → consumed (a ++ b) s s2.
Proof.
  intros (R1 & M1 & _) (R2 & M2 & Hok). split_and!; [by rewrite R1, R2, app_assoc | | done]. rewrite len_app. by eapply moved_took.
Qed.

Section Structs.
  Context {F A : Type} (fuel : nat) (dec : F → sop A) (opt : F → bool) (zero : F → A) (P : F → A → Prop) (enc : A → bytes).
  Abbreviation field f := (dec f, opt f, zero f) (only parsing).
  Abbreviation well fs vs := (fields_typed opt zero P fs vs) (only parsing).

(** The bytes of the present fields *)
Fixpoint payload (vs : list (A * (bool * bool))) : bytes :=
  match vs with
  | [] => []
  | (v, (_, absent)) :: vs => if absent : bool then payload vs else enc v ++ payload vs
  end.

Lemma payload_absent (fs : list F) : payload (map (fun f => (zero f, (opt f, true))) fs) = [].
Proof. by induction fs as [| f fs IH]. Qed.

Lemma decodeFields_sound fs : Forall (fun f => exact_dec fuel (P f) enc (dec f)) fs → ∀ s vs s',
  stream_ok s → s_kind s = None → decodeFields (fun _ => false) (map (fun f => field f) fs) s = (Ok vs, s') → well fs vs ∧ consumed (payload vs) s s'.
Proof.
  induction fs as [| f fs IH]; intros Hex s vs s' Hok Hk E; cbn [map decodeFields] in E.
  { injection E as <- <-. split; [done |]. by apply consumed_nil. }
  apply Forall_cons in Hex as [Hf0 Hex]. destruct Hf0 as [H1 H2 _ H4 _ _ _ _]. destruct (dec f s) as [[v | e | |] s1] eqn:Ed; try done.
  - pose proof (H1 s v s1 Hok Hk Ed) as Hc. pose proof Hc as (_ & (_ & _ & _ & Hk1) & Hok1).
    destruct (decodeFields _ _ s1) as [[vs1 | e | |] s2] eqn:Er; try done. injection E as <- <-.
    destruct (IH Hex s1 vs1 s2 Hok1 Hk1 Er) as [Hw Hc2]. split; [| by eapply consumed_app].
    right. exists v, vs1. split_and!; [done | by apply (H2 s v s1) | done].
  - destruct e; try done. destruct (opt f) eqn:Eo; [| done]. injection E as <- <-. destruct (H4 s s1 Hok Hk Ed) as [-> _].
    assert (Em : map (fun g => (snd g, (snd (fst g), true))) (map (fun f => field f) fs) = map (fun f => (zero f, (opt f, true))) fs) by (by rewrite map_map).
    cbn [fst snd]. rewrite Em. split; [left; split; [done |]; cbn [map]; by rewrite Eo |]. cbn [payload]. rewrite payload_absent. by apply consumed_nil.
Qed.

Lemma decodeFields_complete fs : Forall (fun f => exact_dec fuel (P f) enc (dec f)) fs → ∀ s vs r n k,
  well fs vs → len (payload vs) < Z.of_nat fuel → stream_ok s → s_kind s = None → stack s = n :: k → n = len (payload vs) →
  (limited s = true → n <= remaining s) → s_r s = payload vs ++ r → ∃ s', decodeFields (fun _ => false) (map (fun f => field f) fs) s = (Ok vs, s').
Proof.
  induction fs as [| f fs IH]; intros Hex s vs r n k Hw Hf Hok Hk Hst Hn Hrem Hr; cbn [map decodeFields fields_typed] in *.
  { subst vs. eauto. }
  apply Forall_cons in Hex as [Hf0 Hex]. destruct Hf0 as [H1 _ H3 _ H5 _ _ _]. destruct Hw as [[Ho ->] | (v & vs' & -> & Hv & Hw)].
  - cbn [payload] in *. rewrite payload_absent in *. cbn in Hn. subst n. rewrite (H5 s k Hk Hst), Ho. eexists. cbn [fst snd]. by rewrite map_map.
  - cbn [payload] in *. rewrite len_app in Hf, Hn. rewrite <- app_assoc in Hr.
    destruct (H3 v Hv ltac:(lia) s (payload vs' ++ r) Hok Hk Hr) as [s1 E].
    { split; [intros t k' Et; rewrite Hst in Et; injection Et as <- <-; lia |]. intros Hl. specialize (Hrem Hl). lia. }
    rewrite E. destruct (H1 s v s1 Hok Hk E) as (Hr1 & (S1 & R1 & L1 & K1) & Hok1). rewrite Hr1 in Hr. apply app_inv_head in Hr.
    assert (Hn' : 0 <= n < 2 ^ 64) by (destruct Hok as (Hf' & _); rewrite Hst in Hf'; by apply Forall_cons in Hf' as [? _]).
    cbn in S1. rewrite Hst in S1. rewrite u64_id in S1 by lia.
    destruct (IH Hex s1 vs' r (n - len (enc v)) k Hw ltac:(lia) Hok1 K1 S1 ltac:(lia)) as [s' E'].
    + intros Hl. cbn in R1. rewrite L1 in Hl. rewrite Hl in R1. specialize (Hrem Hl). lia.
    + done.
    + exists s'. by rewrite E'.
Qed.

Lemma decodeFields_total fs : Forall (fun f => exact_dec fuel (P f) enc (dec f)) fs → ∀ s,
  stream_ok s → s_kind s = None → len (s_r s) < Z.of_nat fuel → returns (fst (decodeFields (fun _ => false) (map (fun f => field f) fs) s)).
Proof.
  induction fs as [| f fs IH]; intros Hex s Hok Hk Hn; [done |]. cbn [map decodeFields]. apply Forall_cons in Hex as [Hf0 Hex]. destruct Hf0 as [H1 _ _ _ _ _ H7 _].
  specialize (H7 s Hok Hk ltac:(lia)). destruct (dec f s) as [[v | e | |] s1] eqn:Ed; try done.
  - destruct (H1 s v s1 Hok Hk Ed) as (Hr & (_ & _ & _ & Hk1) & Hok1). rewrite Hr, len_app in Hn.
    specialize (IH Hex s1 Hok1 Hk1 ltac:(lia)). by destruct (decodeFields _ _ s1) as [[vs1 | e | |] s2].
  - destruct e; try done. by destruct (opt f).
Qed.
End Structs.

(** What is decoded between List and ListEnd *)
Section ListBody.
  Context {B : Type} (fuel : nat) (body : sop B) (Q : B → Prop) (pay : B → bytes).
  Context (Hsound : ∀ s x s', stream_ok s → s_kind s = None → body s = (Ok x, s') → Q x ∧ consumed (pay x) s s').
  Context (Hcomplete : ∀ x s r n k, Q x → len (pay x) < Z.of_nat fuel → stream_ok s → s_kind s = None → stack s = n :: k → n = len (pay x) →
    (limited s = true → n <= remaining s) → s_r s = pay x ++ r → ∃ s', body s = (Ok x, s')).
  Context (Hno : ∀ s s', body s ≠ (Err EOL, s')).
  Context (Htotal : ∀ s, stream_ok s → s_kind s = None → len (s_r s) < Z.of_nat fuel → returns (fst (body s))).

Definition list_body : sop B :=
  _ <- wrap_err stream_List ;;
  x <- body ;;
  _ <- wrap_err stream_ListEnd ;;
  sret x.

Lemma ListEnd_ok s u s' : stream_ok s → stream_ListEnd s = (Ok u, s') → ∃ k, stack s = 0 :: k.
Proof.
  intros (Hst & _). unfold stream_ListEnd. destruct (stack s) as [| t k]; [done |]. apply Forall_cons in Hst as [Ht _]. case_if; [done |].
  intros _. exists k. f_equal. lia.
Qed.

Lemma ListEnd_plain s : plain (fst (stream_ListEnd s)).
Proof. unfold stream_ListEnd. destruct (stack s); [done |]. by case_if. Qed.

Lemma list_body_sound s x s' :
  stream_ok s → s_kind s = None → list_body s = (Ok x, s') → Q x ∧ consumed (enc_list (pay x)) s s'.
Proof.
  intros Hok Hk. unfold list_body, sbind, wrap_err.
  destruct (List_cases s Hok Hk) as [(n & r & Ha & ->) | [(k & _ & ->) | (e & s1 & -> & _)]]; [| done | done].
  destruct (body (in_list n r s)) as [[y | e | |] s2] eqn:E; try done. destruct (Hsound _ y s2 (in_list_ok s n r Hok Ha) eq_refl E) as [Hq Hc].
  destruct (stream_ListEnd s2) as [[u | e | |] s3] eqn:El; try done. intros [= <- <-]. split; [done |].
  destruct (ListEnd_ok s2 u s3 (proj2 (proj2 Hc)) El) as [k Hst]. destruct (ListEnd_consumed s n r _ s2 k Hok Ha Hc Hst) as (s4 & E4 & Hc4).
  rewrite El in E4. by injection E4 as _ <-.
Qed.

Lemma list_body_complete x : Q x → len (enc_list (pay x)) < Z.of_nat fuel → complete_dec (fun x => enc_list (pay x)) list_body x.
Proof.
  intros Hq Hf s r Hok Hk Hr Hroom. set (p := pay x) in *. unfold enc_list in Hr, Hroom, Hf.
  assert (Hlp : 0 <= len p < 2 ^ 64) by (destruct Hok as (_ & _ & _ & Hl); rewrite Hr, !len_app in Hl; lia).
  rewrite len_app, head_length in Hroom by done. rewrite <- app_assoc in Hr. rewrite len_app in Hf.
  destruct (head_ahead_payload s KList 0xC0 0xF7 (len p) r p Hok ltac:(by right) eq_refl Hr Hroom) as [Ha _].
  pose proof (List_head s _ _ Ha (Kind_head s KList _ _ Hok Hk Ha)) as HL. unfold list_body, sbind, wrap_err. rewrite HL.
  pose proof (in_list_ok s _ _ Hok Ha) as Hin.
  destruct (Hcomplete x (in_list (len p) (p ++ r) s) r (len p) (stack (took (headsize (len p) + len p) (p ++ r) s)) Hq ltac:(fold p; lia) Hin eq_refl eq_refl eq_refl) as [s2 E].
  { cbn. intros Hl. rewrite Hl. destruct Hroom as [_ H2]. specialize (H2 Hl). lia. }
  { done. }
  rewrite E. destruct (Hsound _ x s2 Hin eq_refl E) as [_ (_ & (Hst & _) & _)]. cbn in Hst. fold p in Hst. rewrite Z.sub_diag in Hst. unfold stream_ListEnd. rewrite Hst. cbn. eauto.
Qed.

Lemma exact_list_body : exact_dec fuel Q (fun x => enc_list (pay x)) list_body.
Proof.
  split.
  - intros s x s' Hok Hk E. by apply list_body_sound.
  - intros s x s' Hok Hk E. by apply list_body_sound in E as [? _].
  - apply list_body_complete.
  - intros s s' Hok Hk. unfold list_body, sbind, wrap_err. destruct (List_cases s Hok Hk) as [(n & r & Ha & ->) | [(k & Hst & ->) | (e & s1 & -> & He)]].
    + specialize (Hno (in_list n r s)). destruct (body _) as [[x | e | |] s2]; try done; [| intros [= -> ->]; by destruct (Hno s')].
      pose proof (ListEnd_plain s2) as HP. destruct (stream_ListEnd s2) as [[u | e | |] s3]; try done. intros [= E _]. by apply wrap_eol in E.
    + intros [= <-]. eauto.
    + intros [= E _]. by apply wrap_eol in E.
  - intros s k Hk Hst. unfold list_body, wrap_err, stream_List, sbind. by rewrite (Kind_eol s k Hk Hst).
  - apply kind_bind, kind_wrap, kind_kind.
  - intros s Hok Hk Hn. unfold list_body, sbind, wrap_err. destruct (List_cases s Hok Hk) as [(n & r & Ha & ->) | [(k & Hst & ->) | (e & s1 & -> & He)]]; [| done | done].
    assert (Hlr : len r < Z.of_nat fuel).
    { apply head_ahead_list in Ha as (Hm & Hr & _). rewrite Hr, len_app in Hn. lia. }
    specialize (Htotal (in_list n r s) (in_list_ok s n r Hok Ha) eq_refl Hlr). destruct (body _) as [[x | e | |] s2]; try done.
    pose proof (ListEnd_plain s2) as HP. by destruct (stream_ListEnd s2) as [[u | e | |] s3].
  - intros x _. right. by eexists.
Qed.
End ListBody.

Lemma decodeFields_no_eol {A} (iz : A → bool) (fs : list (sop A * bool * A)) : ∀ s s', decodeFields iz fs s ≠ (Err EOL, s').
Proof.
  induction fs as [| [[d o] z] fs IH]; intros s s'; cbn [decodeFields]; [done |]. destruct (d s) as [[v | e | |] s1]; try done.
  - specialize (IH s1). destruct (decodeFields iz fs s1) as [[vs | e | |] s2]; done.
  - destruct e; try done. by destruct o.
Qed.

Lemma exact_Struct {F A} fuel (dec : F → sop A) opt zero P enc fs :
  Forall (fun f => exact_dec fuel (P f) enc (dec f)) fs →
  exact_dec fuel (fields_typed opt zero P fs) (fun vs => enc_list (payload enc vs)) (decodeStruct (fun _ => false) (map (fun f => (dec f, opt f, zero f)) fs)).
Proof.
  intros Hex. apply exact_list_body.
  - intros s vs s'. by apply decodeFields_sound with (fuel := fuel).
  - intros vs s r n k. by apply decodeFields_complete.
  - apply decodeFields_no_eol.
  - intros s. by apply decodeFields_total with (P := P) (enc := enc).
Qed.

(** An array is a struct of equal fields. *)
Lemma decodeArrayElems_fields {A} (d : sop A) (z : A) n : ∀ acc s,
  decodeArrayElems d n acc s =
    (let '(o, s) := decodeFields (fun _ => false) (map (fun _ : unit => (d, false, z)) (repeat tt n)) s in
     (match o with Ok vs => Ok (acc ++ map fst vs) | Err e => Err e | Panic => Panic | OutOfFuel => OutOfFuel end, s)).
Proof.
  induction n as [| n IH]; intros acc s; cbn [decodeArrayElems repeat map decodeFields]; [by rewrite app_nil_r |].
  destruct (d s) as [[x | e | |] s1]; try done; [| by destruct e]. rewrite IH. destruct (decodeFields _ _ s1) as [[vs | e | |] s2]; try done.
  cbn [map fst]. by rewrite <- app_assoc.
Qed.

Lemma array_fields {A} (P : A → Prop) (z : A) n vs :
  fields_typed (fun _ : unit => false) (fun _ => z) (fun _ => P) (repeat tt n) vs ↔ vs = map (fun x => (x, (false, false))) (map fst vs) ∧ length vs = n ∧ Forall P (map fst vs).
Proof.
  revert vs. induction n as [| n IH]; intros vs; cbn [repeat fields_typed].
  - split; [by intros -> | intros (_ & Hl & _); by destruct vs].
  - split.
    + intros [[? _] | (v & vs' & -> & Hv & Hw)]; [done |]. apply IH in Hw as (E & Hl & Hf). cbn [map fst length]. split_and!; [by rewrite <- E | lia | by constructor].
    + intros (E & Hl & Hf). destruct vs as [| [v fl] vs]; [done |]. right. cbn [map fst] in *. injection E as -> E. apply Forall_cons in Hf as [Hv Hf].
      exists v, vs. split_and!; [done | done |]. apply IH. split_and!; [done | by injection Hl | done].
Qed.

Lemma payload_all {A} (enc : A → bytes) l : payload enc (map (fun x => (x, (false, false))) l) = concat (map enc l).
Proof. induction l as [| x l IH]; [done |]. cbn [map payload]. by rewrite IH. Qed.

Lemma flagged_fst {A} (l : list A) : map fst (map (fun x => (x, (false, false))) l) = l.
Proof. induction l as [| x l IH]; [done |]. cbn [map fst]. by rewrite IH. Qed.

Lemma exact_ListArray {A} fuel (P : A → Prop) enc d (z : A) n :
  exact_dec fuel P enc d → exact_dec fuel (fun l => length l = n ∧ Forall P l) (enc_all enc) (decodeListArray d n).
Proof.
  intros Hd. set (flagged l := map (fun x : A => (x, (false, false))) l).
  assert (Hfs : Forall (fun _ : unit => exact_dec fuel P enc d) (repeat tt n)) by (apply Forall_forall; done).
  assert (Hwell : ∀ l, length l = n → Forall P l → fields_typed (fun _ : unit => false) (fun _ => z) (fun _ => P) (repeat tt n) (flagged l)).
  { intros l Hl HP. apply array_fields. unfold flagged. rewrite flagged_fst, length_map. by split_and!. }
  apply (exact_list_body fuel (decodeArrayElems d n []) (fun l => length l = n ∧ Forall P l) (fun l => concat (map enc l))).
  - intros s l s' Hok Hk. rewrite (decodeArrayElems_fields d z). destruct (decodeFields _ _ s) as [[vs | e | |] s1] eqn:E; try done. intros [= <- <-].
    destruct (decodeFields_sound fuel (fun _ => d) (fun _ => false) (fun _ => z) (fun _ => P) enc _ Hfs s vs s1 Hok Hk E) as [Hw Hc].
    apply array_fields in Hw as (Ev & Hl & HP). split; [split; [by rewrite length_map | done] |]. cbn [app]. rewrite <- payload_all, <- Ev. done.
  - intros l s r m k [Hl HP] Hf Hok Hk Hst Hm Hrem Hr. rewrite <- payload_all in Hf, Hm, Hr.
    destruct (decodeFields_complete fuel (fun _ => d) (fun _ => false) (fun _ => z) (fun _ => P) enc _ Hfs s (flagged l) r m k (Hwell l Hl HP) Hf Hok Hk Hst Hm Hrem Hr) as [s' E].
    exists s'. rewrite (decodeArrayElems_fields d z), E. unfold flagged. by rewrite flagged_fst.
  - intros s s' E. rewrite (decodeArrayElems_fields d z) in E. destruct (decodeFields _ _ s) as [[vs | e | |] s1] eqn:Ef; try done. injection E as -> ->. by apply decodeFields_no_eol in Ef.
  - intros s Hok Hk Hn. rewrite (decodeArrayElems_fields d z).
    pose proof (decodeFields_total fuel (fun _ => d) (fun _ => false) (fun _ => z) (fun _ => P) enc _ Hfs s Hok Hk Hn) as HT. by destruct (decodeFields _ _ s) as [[vs | e | |] s1].
Qed.

(** ** Decoders of pointers that may be nil *)

Lemma enc_string_empty b l : 0 <= len b < 2 ^ 64 → enc_string b = 0x80 :: l → b = [].
Proof.
  intros Hl. unfold enc_string. destruct (single_byte b) eqn:Es; [destruct b as [| x [|]]; try done; cbn in Es; intros [= -> _]; lia |].
  unfold head. case_if; cbn [app]; intros [= E _]; [destruct b; [done | rewrite len_cons in E; lia] |]. pose proof (intsize_range (len b) ltac:(lia)). lia.
Qed.

Lemma enc_list_empty p l : 0 <= len p < 2 ^ 64 → enc_list p = 0xC0 :: l → p = [].
Proof.
  intros Hl. unfold enc_list, head. case_if; cbn [app]; intros [= E _]; [destruct p; [done | rewrite len_cons in E; lia] |]. pose proof (intsize_range (len p) ltac:(lia)). lia.
Qed.

Lemma enc_string_hd b l : 0 <= len b < 2 ^ 64 → enc_string b ≠ 0xC0 :: l.
Proof.
  intros Hl. unfold enc_string. destruct (single_byte b) eqn:Es; [destruct b as [| x [|]]; try done; cbn in Es; intros [= -> _]; lia |].
  unfold head. case_if; cbn [app]; intros [= E _]; [lia |]. pose proof (intsize_range (len b) ltac:(lia)). lia.
Qed.

Lemma enc_list_hd p l : 0 <= len p < 2 ^ 64 → enc_list p ≠ 0x80 :: l.
Proof. intros Hl. unfold enc_list, head. case_if; cbn [app]; intros [= E _]; [lia |]. pose proof (intsize_range (len p) ltac:(lia)). lia. Qed.

(** The encoding of the empty value of a kind *)
Definition enc_empty (k : Kind) : bytes := if decide (k = KString) then [0x80] else [0xC0].

Section NilPtr.
  Context {A : Type} (fuel : nat) (P : A → Prop) (enc : A → bytes) (d : sop A) (Hd : exact_dec fuel P enc d) (nilKind : Kind) (Hnk : nilKind ≠ KByte).

Definition nil_or (x : option A) : Prop := match x with Some x => P x ∧ enc x ≠ [0x80] ∧ enc x ≠ [0xC0] | None => True end.
Definition enc_opt (x : option A) : bytes := match x with Some x => enc x | None => enc_empty nilKind end.

(** An encoding that starts like an empty value is one. *)
Lemma enc_starts_empty x b l : P x → slice_len (enc x) → (b = 0x80 ∨ b = 0xC0) → enc x = b :: l → enc x = [b].
Proof.
  intros Hx Hl Hb E. destruct (ed_shape _ _ _ _ Hd x Hx) as [[c Ec] | [p Ep]].
  - rewrite Ec in *. assert (Hc : 0 <= len c < 2 ^ 64) by (unfold enc_string in Hl; case_if; rewrite ?len_app in Hl; lia).
    destruct Hb as [-> | ->]; [by rewrite (enc_string_empty c l) | by apply enc_string_hd in E].
  - rewrite Ep in *. assert (Hc : 0 <= len p < 2 ^ 64) by (unfold enc_list in Hl; rewrite len_app in Hl; lia).
    destruct Hb as [-> | ->]; [by apply enc_list_hd in E | by rewrite (enc_list_empty p l)].
Qed.

(** The header of an empty value, read *)
Lemma Kind_empty s k r : stream_ok s → s_kind s = None → k ≠ KByte → s_r s = enc_empty k ++ r → room 1 s →
  stream_Kind s = (Ok (k, 0), after_head k 0 0 1 r s).
Proof.
  intros Hok Hk Hnb Hs Hr. unfold enc_empty in Hs. destruct (decide (k = KString)) as [-> | Hne].
  - destruct (head_ahead_payload s KString 0x80 0xB7 0 r [] Hok ltac:(by left) eq_refl Hs Hr) as [Ha _]. exact (Kind_head s KString 0 r Hok Hk Ha).
  - assert (k = KList) as -> by (by destruct k).
    destruct (head_ahead_payload s KList 0xC0 0xF7 0 r [] Hok ltac:(by right) eq_refl Hs Hr) as [Ha _]. exact (Kind_head s KList 0 r Hok Hk Ha).
Qed.

Lemma head_ahead_empty s k r : head_ahead s k 0 r → k ≠ KByte ∧ s_r s = enc_empty k ++ r ∧ room 1 s.
Proof. intros (small & large & [(-> & -> & ->) | (-> & -> & ->)] & _ & Hs & Hr & _); by split_and!. Qed.

Definition starts_empty (s : Stream) : Prop := ∃ b l, (b = 0x80 ∨ b = 0xC0) ∧ s_r s = b :: l.

Lemma decodeNilPtr_cases s :
  stream_ok s → s_kind s = None →
  (∃ k, stack s = 0 :: k ∧ decodeNilPtr nilKind d s = (Err EOL, s)) ∨
  (∃ r, s_r s = enc_empty nilKind ++ r ∧ room 1 s ∧ decodeNilPtr nilKind d s = (Ok None, set_kind None (after_head nilKind 0 0 1 r s))) ∨
  (∃ e s', decodeNilPtr nilKind d s = (Err e, s') ∧ e ≠ EOL ∧ (starts_empty s ∨ ∃ e s1, stream_Kind s = (Err e, s1))) ∨
  (¬ starts_empty s ∧ (∃ k s1, stream_Kind s = (Ok k, s1)) ∧ decodeNilPtr nilKind d s = (x <- d ;; sret (Some x)) s).
Proof.
  intros Hok Hk. unfold decodeNilPtr, wrap_err. destruct (Kind_cases s Hok Hk) as [(b & r & (Hb & Hs & Hr & _) & E) | [(k & n & r & Ha & E) | [(k & Hst & E) | (e & s' & E & He)]]].
  - right; right; right. split_and!; [| eauto |].
    + intros (c & l & Hc & Hl). rewrite Hs in Hl. injection Hl as -> _. lia.
    + unfold sbind at 1. rewrite E. cbn [negb]. rewrite bool_decide_true by done. cbn [negb andb]. unfold sbind. by rewrite (ed_kind _ _ _ _ Hd s _ _ E).
  - destruct (decide (n = 0)) as [-> | Hn].
    + destruct (head_ahead_empty s k r Ha) as (Hkb & Hs & Hr).
      destruct (decide (k = nilKind)) as [-> | Hne].
      * right; left. exists r. split_and!; [done | done |]. unfold sbind at 1. rewrite E, (bool_decide_false (nilKind = KByte)), (bool_decide_true (nilKind = nilKind)) by done. done.
      * right; right; left. unfold sbind at 1. rewrite E, (bool_decide_false (k = KByte)), (bool_decide_false (k = nilKind)) by done. eexists _, _. split_and!; [done | done |]. left. exists (if decide (k = KString) then 0x80 else 0xC0), r.
        unfold enc_empty in Hs. destruct (decide (k = KString)); by split; auto.
    + right; right; right. split_and!; [| eauto |].
      * intros (c & l & Hc & Hl). destruct Ha as (small & large & Ht & Hn2 & Hs & Hr & _). pose proof (headsize_range n Hn2).
        assert (Hr1 : room 1 s) by (eapply room_le; [| exact Hr]; lia).
        destruct Hc as [-> | ->]; [rewrite (Kind_empty s KString l Hok Hk) in E by done | rewrite (Kind_empty s KList l Hok Hk) in E by done]; by injection E as <- <-.
      * unfold sbind at 1. rewrite E. rewrite (proj2 (Z.eqb_neq n 0)), andb_false_r by done. unfold sbind. by rewrite (ed_kind _ _ _ _ Hd s _ _ E).
  - left. exists k. split; [done |]. unfold sbind at 1. by rewrite E.
  - right; right; left. unfold sbind at 1. rewrite E. eexists _, _. split_and!; [done | by intros ?%wrap_eol | eauto].
Qed.

Lemma exact_NilPtr : exact_dec fuel nil_or enc_opt (decodeNilPtr nilKind d).
Proof.
  pose proof Hd as [H1 H2 H3 H4 H5 H6 H7 H8].
  assert (Hsome : ∀ s x s', stream_ok s → s_kind s = None → ¬ starts_empty s → d s = (Ok x, s') → P x ∧ enc x ≠ [0x80] ∧ enc x ≠ [0xC0]).
  { intros s x s' Hok Hk Hne E. split; [by apply (H2 s x s') |]. destruct (H1 s x s' Hok Hk E) as (Hr & _).
    split; intros Ee; apply Hne; rewrite Ee in Hr; [exists 0x80, (s_r s') | exists 0xC0, (s_r s')]; by split; auto. }
  split.
  - intros s o s' Hok Hk E. destruct (decodeNilPtr_cases s Hok Hk) as [(k & _ & E') | [(r & Hs & Hr & E') | [(e & s1 & E' & _) | (Hne & _ & E')]]]; rewrite E' in E; try done.
    + injection E as <- <-. cbn [enc_opt]. refine (took_consumed 1 (enc_empty nilKind) r 0 s Hok Hr Hs _). unfold enc_empty. by case_decide.
    + unfold sbind in E. destruct (d s) as [[x | e | |] s1] eqn:Ed; try done. injection E as <- <-. by apply H1.
  - intros s o s' Hok Hk E. destruct (decodeNilPtr_cases s Hok Hk) as [(k & _ & E') | [(r & Hs & Hr & E') | [(e & s1 & E' & _) | (Hne & _ & E')]]]; rewrite E' in E; try done.
    + by injection E as <- <-.
    + unfold sbind in E. destruct (d s) as [[x | e | |] s1] eqn:Ed; try done. injection E as <- <-. by apply (Hsome s x s1).
  - intros [x |] Hx Hf s r Hok Hk Hs Hr; cbn [enc_opt nil_or] in *.
    + destruct Hx as (Hx & Hx1 & Hx2). destruct (H3 x Hx Hf s r Hok Hk Hs Hr) as [s' E]. pose proof (ed_pos _ _ _ _ Hd x Hx) as Hpos.
      assert (Hse : ¬ starts_empty s).
      { intros (b & l & Hb & Hl). rewrite Hs in Hl. destruct (enc x) as [| y t] eqn:Ex; [done |]. injection Hl as -> _. pose proof Hok as (_ & _ & _ & Hsl).
        rewrite Hs, len_app in Hsl. assert (Hone := enc_starts_empty x b t Hx ltac:(rewrite Ex; lia) Hb Ex). rewrite Ex in Hone. destruct Hb as [-> | ->]; congruence. }
      assert (Hkind : ∃ k s1, stream_Kind s = (Ok k, s1)).
      { destruct (H8 x Hx) as [[b Eb] | [p Ep]]; [rewrite Eb in Hs, Hr; destruct (Kind_enc_string s b r Hok Hk Hs Hr) as (k & m & s1 & E1 & _); eauto |].
        rewrite Ep in Hs, Hr. destruct (Kind_enc_list s p r Hok Hk Hs Hr) as (m & s1 & E1). eauto. }
      destruct (decodeNilPtr_cases s Hok Hk) as [(k & Hst & _) | [(r' & Hs' & _ & _) | [(e & s1 & _ & _ & [Hc | (e' & s2 & Ek)]) | (_ & _ & E')]]].
      * destruct Hr as [Hr _]. specialize (Hr 0 k Hst). lia.
      * exfalso. apply Hse. unfold enc_empty in Hs'. destruct (decide (nilKind = KString)); [exists 0x80, r' | exists 0xC0, r']; by split; auto.
      * done.
      * destruct Hkind as (k & s3 & Ek'). congruence.
      * exists s'. rewrite E'. unfold sbind. by rewrite E.
    + assert (Hr1 : room 1 s) by (eapply room_le; [| exact Hr]; unfold enc_empty; by case_decide).
      eexists. unfold decodeNilPtr, wrap_err, sbind. rewrite (Kind_empty s nilKind r Hok Hk Hnk Hs Hr1). by rewrite bool_decide_false, bool_decide_true.
  - intros s s' Hok Hk E. destruct (decodeNilPtr_cases s Hok Hk) as [(k & Hst & E') | [(r & Hs & Hr & E') | [(e & s1 & E' & He & _) | (Hne & (k & s1 & Ek) & E')]]]; rewrite E' in E; try done.
    + injection E as <-. eauto.
    + by injection E as ->.
    + unfold sbind in E. destruct (d s) as [[x | e | |] s2] eqn:Ed; try done. injection E as -> <-. by apply H4.
  - intros s k Hk Hst. unfold decodeNilPtr, wrap_err, sbind. by rewrite (Kind_eol s k Hk Hst).
  - apply kind_bind, kind_wrap. intros s k s1 E. by rewrite E, (Kind_idem s k s1 E).
  - intros s Hok Hk Hn. destruct (decodeNilPtr_cases s Hok Hk) as [(k & _ & ->) | [(r & Hs & Hr & ->) | [(e & s1 & -> & _) | (Hne & _ & ->)]]]; try done.
    specialize (H7 s Hok Hk Hn). unfold sbind. by destruct (d s) as [[x | e | |] s1].
  - intros [x |] Hx; [by apply H8, Hx |]. cbn. unfold enc_empty. case_decide; [left; by exists [] | right; by exists []].
Qed.
End NilPtr.

(** ** The encodings of typed values *)

Section Fields.
  Context {A : Type}.
  Implicit Types ps zs vs : list (A * (bool * bool)).

Definition present ps : Prop := Forall (fun f => snd (snd f) = false) ps.
Definition absent zs : Prop := Forall (fun f => snd f = (true, true)) zs.

Lemma firstOptional_le ps zs : zs ≠ [] → absent zs → (firstOptionalField (ps ++ zs) <= length ps)%nat.
Proof.
  intros Hz Ha. induction ps as [| [v [o z]] ps IH]; cbn [app firstOptionalField length].
  - destruct zs as [| [v fl] zs]; [done |]. apply Forall_cons in Ha as [E _]. cbn in E. subst fl. cbn. lia.
  - destruct o; [lia |]. lia.
Qed.

Lemma written_present first ps zs m : present ps → absent zs → (first <= length ps ∨ zs = [])%nat → (m <= length zs)%nat →
  writtenFields first (length ps + m) (ps ++ zs) = length ps.
Proof.
  intros Hp Hz Hf. induction m as [| m IH]; intros Hm.
  - rewrite Nat.add_0_r. destruct (length ps) as [| n] eqn:En; [done |]. cbn [writtenFields]. destruct (Nat.ltb n first); [done |].
    rewrite lookup_app_l by lia. destruct (lookup_lt_is_Some_2 ps n ltac:(lia)) as [[v [o z]] E]. rewrite E. apply (Forall_lookup_1 _ _ _ _ Hp) in E. cbn in E. by subst z.
  - destruct Hf as [Hf | ->]; [| cbn in Hm; lia]. rewrite Nat.add_succ_r. cbn [writtenFields]. rewrite (proj2 (Nat.ltb_ge _ _)) by lia.
    rewrite lookup_app_r by lia. destruct (lookup_lt_is_Some_2 zs (length ps + m - length ps) ltac:(lia)) as [[v fl] E]. rewrite E.
    apply (Forall_lookup_1 _ _ _ _ Hz) in E. cbn in E. subst fl. apply IH. lia.
Qed.

Lemma fieldsToWrite_present ps zs : present ps → absent zs → fieldsToWrite (ps ++ zs) = length ps.
Proof.
  intros Hp Hz. unfold fieldsToWrite. rewrite length_app. destruct (decide (zs = [])) as [-> | Hne].
  - destruct (Nat.eqb _ _); cbn [length]; [lia |]. apply written_present; [done | done | by right | done].
  - pose proof (firstOptional_le ps zs Hne Hz). destruct zs as [| z zs]; [done |]. rewrite (proj2 (Nat.eqb_neq _ _)) by (cbn [length]; lia).
    apply written_present; [done | done | by left | done].
Qed.

Lemma enc_fields_present (f : A → go bytes) (enc : A → bytes) ps zs : present ps → absent zs → Forall (fun x => f (fst x) = Ok (enc (fst x))) ps →
  enc_fields f (ps ++ zs) (length ps) = Ok (payload enc (ps ++ zs)).
Proof.
  intros Hp Hz He. induction ps as [| [v [o z]] ps IH]; cbn [app length enc_fields payload].
  - destruct zs as [| [v fl] zs]; [done |]. cbn [enc_fields]. f_equal. symmetry. induction Hz as [| [u fl'] l Hfl Hl IHz]; [done |]. cbn in Hfl. subst fl'. exact IHz.
  - apply Forall_cons in Hp as [Ez Hp]. cbn in Ez. subst z. apply Forall_cons in He as [Ev He]. cbn in Ev. rewrite Ev. cbn [mbind outcome_bind]. by rewrite IH.
Qed.
End Fields.

Lemma fields_split {F A} (opt : F → bool) (zero : F → A) P required optional vs :
  Forall (fun f => opt f = false) required → Forall (fun f => opt f = true) optional → fields_typed opt zero P (required ++ optional) vs →
  ∃ ps zs, vs = ps ++ zs ∧ present ps ∧ absent zs ∧ Forall (fun x => ∃ f, f ∈ required ++ optional ∧ P f (fst x)) ps.
Proof.
  intros Hr Ho. assert (Hopt : ∀ l vs, Forall (fun f => opt f = true) l → fields_typed opt zero P l vs →
    ∃ ps zs, vs = ps ++ zs ∧ present ps ∧ absent zs ∧ Forall (fun x => ∃ f, f ∈ l ∧ P f (fst x)) ps).
  { clear. intros l. induction l as [| f l IH]; intros vs Hl Hw; cbn [fields_typed] in Hw.
    - subst vs. exists [], []. split_and!; [done | constructor | constructor | constructor].
    - destruct Hw as [[_ ->] | (v & vs' & -> & Hv & Hw)].
      + exists [], (map (fun f => (zero f, (opt f, true))) (f :: l)). split_and!; [done | constructor | | constructor].
        apply Forall_map. apply (Forall_impl _ _ _ Hl). intros g Hg. cbn. by rewrite Hg.
      + apply Forall_cons in Hl as [_ Hl]. destruct (IH vs' Hl Hw) as (ps & zs & -> & Hp & Hz & HF). exists ((v, (opt f, false)) :: ps), zs.
        split_and!; [done | by constructor | done |]. constructor; [exists f; split; [by left | done] |].
        apply (Forall_impl _ _ _ HF). intros x (g & Hg & Hx). exists g. split; [by right | done]. }
  revert vs. induction Hr as [| f required Hf Hr IH]; intros vs Hw; [by apply Hopt |]. cbn [app fields_typed] in Hw.
  destruct Hw as [[Hc _] | (v & vs' & -> & Hv & Hw)]; [congruence |]. destruct (IH vs' Hw) as (ps & zs & -> & Hp & Hz & HF).
  exists ((v, (opt f, false)) :: ps), zs. split_and!; [done | by constructor | done |]. constructor; [exists f; split; [by left | done] |].
  apply (Forall_impl _ _ _ HF). intros x (g & Hg & Hx). exists g. split; [by right | done].
Qed.

Lemma enc_elems_vals l : Forall (fun v => rlp_enc v = Ok (enc_val v)) l → enc_elems rlp_enc l = Ok (concat (map enc_val l)).
Proof. induction 1 as [| v l Hv _ IH]; [done |]. cbn [enc_elems map concat]. rewrite Hv. cbn [mbind outcome_bind]. by rewrite IH. Qed.

(** A typed value has an encoding; the encoding of a struct is the one of its present fields. *)
Lemma struct_encodes K fields vs :
  Forall (fun f => ∀ v, typed (fst f) v → rlp_enc v = Ok (enc_val v)) fields → rtype_with K (TStruct fields) → typed (TStruct fields) (VStruct vs) →
  rlp_enc (VStruct vs) = Ok (enc_list (payload enc_val vs)).
Proof.
  intros IH (_ & _ & required & optional & -> & Hr & Ho) Hw. destruct (fields_split _ _ _ required optional vs Hr Ho Hw) as (ps & zs & -> & Hp & Hz & HF).
  cbn [rlp_enc]. rewrite fieldsToWrite_present by done. rewrite (enc_fields_present rlp_enc enc_val ps zs Hp Hz); [done |].
  apply (Forall_impl _ _ _ HF). intros x (f & Hf & Hx). rewrite Forall_forall in IH. by apply (IH f).
Qed.

Lemma fields_rtype_ok K fields : rtype_with K (TStruct fields) → Forall (fun f => rtype_with K (fst f)) fields.
Proof. intros [H _]. induction fields as [| f fields IH]; [constructor |]. cbn in H. destruct H as [H1 H2]. constructor; [done | by apply IH]. Qed.

Lemma typed_encodes {K} t : rtype_with K t → ∀ v, typed t v → rlp_enc v = Ok (enc_val v).
Proof.
  induction t as [| | w | | | | n | t IH | n t IH | k t IH | k t IH | fields IH] using rtype_nested_ind; intros Hok v Hv; destruct v as [| x | x | k' x | | | | | | tl l | vs |]; try done; cbn [typed] in Hv.
  - destruct x as [x |]; [| done]. unfold enc_val. cbn. unfold enc_big. by rewrite (proj2 (Z.ltb_ge x 0)).
  - unfold enc_val. cbn. unfold enc_big. by rewrite (proj2 (Z.ltb_ge x 0)).
  - destruct tl; [done |]. unfold enc_val. cbn [rlp_enc]. rewrite enc_elems_vals; [done |]. apply (Forall_impl _ _ _ Hv). intros u. by apply IH.
  - destruct tl; [done |]. destruct Hv as [_ Hv]. unfold enc_val. cbn [rlp_enc]. rewrite enc_elems_vals; [done |]. apply (Forall_impl _ _ _ Hv). intros u. by apply IH.
  - destruct x as [x |]; [| done]. destruct Hv as [_ Hv]. unfold enc_val. cbn [rlp_enc]. by rewrite (IH Hok x Hv).
  - destruct x as [x |]; [| done]. destruct Hv as (_ & Hv & _). unfold enc_val. cbn [rlp_enc]. by rewrite (IH (proj2 Hok) x Hv).
  - assert (E : rlp_enc (VStruct vs) = Ok (enc_list (payload enc_val vs))); [| unfold enc_val at 1; by rewrite E]. apply (struct_encodes K fields); [| done | done].
    apply fields_rtype_ok in Hok. clear Hv. induction Hok as [| f fields Hf Hfs IHf]; [constructor |]. apply Forall_cons in IH as [I1 I2]. constructor; [by apply I1 | by apply IHf].
Qed.

Lemma enc_val_ok v e : rlp_enc v = Ok e → enc_val v = e.
Proof. unfold enc_val. by intros ->. Qed.

(** ** Decoding is exact *)

Lemma decoder_exact {K} fuel t : rtype_with K t → exact_dec fuel (typed t) enc_val (speller fuel t).
Proof.
  induction t as [| | w | | | | n | t IH | n t IH | k t IH | k t IH | fields IH] using rtype_nested_ind; intros Hok; cbn [decoder_as].
  - eapply exact_map; [apply exact_wrap, exact_BigInt | |].
    + intros x Hx. split; [done |]. apply enc_val_ok. cbn. unfold enc_big. by rewrite (proj2 (Z.ltb_ge x 0)).
    + intros [] Hv; try done. destruct x as [x |]; [by exists x | done].
  - eapply exact_map; [apply exact_wrap, exact_BigInt | |].
    + intros x Hx. split; [done |]. apply enc_val_ok. cbn. unfold enc_big. by rewrite (proj2 (Z.ltb_ge x 0)).
    + intros [] Hv; try done. by exists x.
  - eapply exact_map; [by apply exact_wrap, exact_uint | |]; [by intros x Hx |]. intros [] Hv; try done. by exists x.
  - eapply exact_map; [by apply exact_wrap, exact_Bool | |]; [by intros x Hx; destruct x |]. intros [] Hv; try done. by exists b.
  - eapply exact_map; [by apply exact_wrap, exact_Bytes | |]; [by intros x Hx |]. intros [] Hv; try done. by exists s.
  - eapply exact_map; [by apply exact_wrap, exact_Bytes | |]; [by intros x Hx |]. intros [] Hv; try done. by exists b.
  - eapply exact_map; [by apply exact_ByteArray | |]; [by intros x Hx |]. intros [] Hv; try done. by exists b.
  - eapply exact_map; [by apply exact_ListSlice, IH | |].
    + intros l Hl. split; [done |]. apply enc_val_ok. cbn [rlp_enc]. rewrite enc_elems_vals; [done |]. apply (Forall_impl _ _ _ Hl). by eapply typed_encodes.
    + intros [] Hv; try done. destruct tail; [done |]. by exists l.
  - eapply exact_map; [apply exact_ListArray; [exact (zero_of t) | by apply IH] | |].
    + intros l [Hn Hl]. split; [done |]. apply enc_val_ok. cbn [rlp_enc]. rewrite enc_elems_vals; [done |]. apply (Forall_impl _ _ _ Hl). by eapply typed_encodes.
    + intros [] Hv; try done. destruct tail; [done |]. by exists l.
  - eapply exact_map; [by apply IH | |]; [by intros x Hx |]. intros [] Hv; try done. destruct v as [x |]; [| done]. destruct Hv as [-> Hv]. by exists x.
  - destruct Hok as [Hk Hok]. eapply exact_map; [by apply exact_NilPtr, Hk; apply IH | |].
    + intros [x |] Hx; [by split | split; [done |]]. unfold enc_val, enc_opt, enc_empty. cbn. by case_decide.
    + intros [] Hv; try done. destruct v as [x |]; cbn in Hv; [destruct Hv as (-> & Hv); by exists (Some x) | subst; by exists None].
  - eapply exact_map; [apply exact_Struct with (P := fun f => typed (fst f)) (enc := enc_val) | |].
    + apply fields_rtype_ok in Hok. induction Hok as [| f fields Hf Hfs IHf]; [constructor |]. apply Forall_cons in IH as [I1 I2]. constructor; [by apply I1 | by apply IHf].
    + intros vs Hvs. split; [done |]. apply enc_val_ok. apply (struct_encodes K fields); [| done | done]. apply fields_rtype_ok in Hok.
      apply (Forall_impl _ _ _ Hok). intros f Hf. by eapply typed_encodes.
    + intros [] Hv; try done. by exists fields0.
Qed.

Lemma spelling_spec {K} pooled t b v :
  rtype_with K t → bytes_ok b → slice_len b → DecodeBytes_as pooled (fun fuel => speller fuel t) b = Ok v ↔ typed t v ∧ rlp_enc v = Ok b.
Proof.
  intros Ht Hb Hl. destruct (Reset_ok b pooled Hb Hl) as (Hok & Hk & Hr & Hroom). destruct (decoder_exact (S (length b)) t Ht) as [H1 H2 H3 _ _ _ _ _].
  pose proof (typed_encodes t Ht) as He. unfold DecodeBytes_as. set (s := stream_Reset b (len b) pooled) in *. split.
  - destruct (speller (S (length b)) t s) as [[x | e | |] s'] eqn:E; try done. case_if; [done |]. intros [= ->]. assert (Hx : typed t v) by (by apply (H2 s v s')).
    split; [done |]. rewrite (He v Hx). destruct (H1 s v s' Hok Hk E) as (Hs & _). f_equal. destruct (s_r s') as [| y r]; [by rewrite <- Hr, Hs, app_nil_r |].
    rewrite len_cons in Heqb0. lia.
  - intros [Hv Ev]. pose proof (enc_val_ok v b Ev) as Eb. destruct (H3 v Hv ltac:(rewrite Eb; lia) s [] Hok Hk) as [s' E].
    + by rewrite app_nil_r, Eb.
    + rewrite Eb. apply Hroom; [| done]. rewrite <- Eb. by apply (ed_pos _ _ _ _ (decoder_exact 0 t Ht)).
    + rewrite E. destruct (H1 s v s' Hok Hk E) as (Hs & _). rewrite Hr, Eb in Hs. rewrite <- (app_nil_r b) in Hs at 1. apply app_inv_head in Hs. by rewrite <- Hs.
Qed.

Lemma spelling_returns {K} pooled t b : rtype_with K t → bytes_ok b → slice_len b → returns (DecodeBytes_as pooled (fun fuel => speller fuel t) b).
Proof.
  intros Ht Hb Hl. destruct (Reset_ok b pooled Hb Hl) as (Hok & Hk & Hr & _).
  pose proof (ed_total _ _ _ _ (decoder_exact (S (length b)) t Ht) _ Hok Hk) as HT. rewrite Hr in HT. specialize (HT ltac:(lia)). unfold DecodeBytes_as.
  destruct (speller (S (length b)) t _) as [[x | e | |] s']; try done. by case_if.
Qed.

(** ** Values and their spellings *)

(** The value that is spelled out: a present optional field gets the flag of its value. *)
Fixpoint value_of (v : rval) : rval :=
  match v with
  | VPtr k (Some x) => VPtr k (Some (value_of x))
  | VSlice tail l => VSlice tail (map value_of l)
  | VStruct vs => VStruct (map (fun f => match f with (x, (optional, absent)) =>
      if absent : bool then f else (value_of x, (optional, if IsZero (value_of x) then optional else false)) end) vs)
  | v => v
  end.

(** [d'] is [d] with its results changed by [g]. *)
Definition changed {A B} (g : A → B) (d : sop A) (d' : sop B) : Prop :=
  ∀ s, d' s = (match fst (d s) with Ok x => Ok (g x) | Err e => Err e | Panic => Panic | OutOfFuel => OutOfFuel end, snd (d s)).

Lemma changed_ret {A B C D} (g : A → B) (k : C → D) (f : A → C) (f' : B → D) d d' :
  changed g d d' → (∀ x, f' (g x) = k (f x)) → changed k (x <- d ;; sret (f x)) (x <- d' ;; sret (f' x)).
Proof. intros Hd Hf s. unfold sbind, sret. rewrite (Hd s). destruct (d s) as [[x | e | |] s1]; cbn; try done. by rewrite Hf. Qed.

Lemma changed_leaf {A B} (k : B → B) (f : A → B) d : (∀ x, k (f x) = f x) → changed k (x <- d ;; sret (f x)) (x <- d ;; sret (f x)).
Proof. intros Hf s. unfold sbind, sret. destruct (d s) as [[x | e | |] s1]; cbn; try done. by rewrite Hf. Qed.

Lemma changed_elems {A B} (g : A → B) d d' n : changed g d d' → ∀ acc s,
  decodeSliceElems d' n (map g acc) s = (match fst (decodeSliceElems d n acc s) with Ok l => Ok (map g l) | Err e => Err e | Panic => Panic | OutOfFuel => OutOfFuel end, snd (decodeSliceElems d n acc s)).
Proof.
  intros Hd. induction n as [| n IH]; intros acc s; [done |]. cbn [decodeSliceElems]. rewrite (Hd s). destruct (d s) as [[x | e | |] s1]; cbn [fst snd]; try done.
  - rewrite <- IH, map_app. done.
  - by destruct e.
Qed.

Lemma changed_array {A B} (g : A → B) d d' n : changed g d d' → ∀ acc s,
  decodeArrayElems d' n (map g acc) s = (match fst (decodeArrayElems d n acc s) with Ok l => Ok (map g l) | Err e => Err e | Panic => Panic | OutOfFuel => OutOfFuel end, snd (decodeArrayElems d n acc s)).
Proof.
  intros Hd. induction n as [| n IH]; intros acc s; [done |]. cbn [decodeArrayElems]. rewrite (Hd s). destruct (d s) as [[x | e | |] s1]; cbn [fst snd]; try done.
  - rewrite <- IH, map_app. done.
  - by destruct e.
Qed.

Lemma changed_ListSlice {A B} (g : A → B) d d' fuel : changed g d d' → changed (map g) (decodeListSlice d fuel) (decodeListSlice d' fuel).
Proof.
  intros Hd s. unfold decodeListSlice, sbind. destruct (wrap_err stream_List s) as [[n | e | |] s1]; try done. case_if.
  - by destruct (stream_ListEnd s1) as [[u | e | |] s2].
  - pose proof (changed_elems g d d' fuel Hd [] s1) as E. cbn [map] in E. rewrite E. destruct (decodeSliceElems d fuel [] s1) as [[l | e | |] s2]; cbn [fst snd]; try done. by destruct (stream_ListEnd s2) as [[u | e | |] s3].
Qed.

Lemma changed_ListArray {A B} (g : A → B) d d' n : changed g d d' → changed (map g) (decodeListArray d n) (decodeListArray d' n).
Proof.
  intros Hd s. unfold decodeListArray, sbind. destruct (wrap_err stream_List s) as [[m | e | |] s1]; try done.
  pose proof (changed_array g d d' n Hd [] s1) as E. cbn [map] in E. rewrite E. destruct (decodeArrayElems d n [] s1) as [[l | e | |] s2]; cbn [fst snd]; try done. by destruct (wrap_err stream_ListEnd s2) as [[u | e | |] s3].
Qed.

Lemma changed_NilPtr {A B} (g : A → B) d d' k : changed g d d' → changed (fmap g) (decodeNilPtr k d) (decodeNilPtr k d').
Proof.
  intros Hd s. unfold decodeNilPtr, sbind. destruct (wrap_err stream_Kind s) as [[[kind size] | e | |] s1]; try done. case_if; [by case_if |].
  rewrite (Hd s1). by destruct (d s1) as [[x | e | |] s2].
Qed.

Definition value_field (f : rval * (bool * bool)) : rval * (bool * bool) :=
  match f with (x, (optional, absent)) => if absent : bool then f else (value_of x, (optional, if IsZero (value_of x) then optional else false)) end.

Lemma changed_fields fuel fields : Forall (fun f => changed value_of (speller fuel (fst f)) (decoder fuel (fst f))) fields →
  let ds d := map (fun f : rtype * bool => (d f, snd f, zero_of (fst f))) fields in
  changed (map value_field) (decodeFields (fun _ => false) (ds (fun f => speller fuel (fst f)))) (decodeFields IsZero (ds (fun f => decoder fuel (fst f)))).
Proof.
  induction 1 as [| f fields Hf _ IH]; intros ds s; [done |]. unfold ds in *. cbn [map decodeFields]. rewrite (Hf s).
  destruct (speller fuel (fst f) s) as [[x | e | |] s1]; cbn [fst snd]; try done.
  - rewrite (IH s1). by destruct (decodeFields (fun _ => false) _ s1) as [[vs | e | |] s2].
  - destruct e; try done. destruct (snd f) eqn:Ef; [| done]. cbn [fst snd map]. do 2 f_equal. rewrite !map_map. cbn [fst snd value_field]. f_equal.
Qed.

(** The decoder gives the values that the inputs spell. *)
Lemma decoder_changed fuel t : changed value_of (speller fuel t) (decoder fuel t).
Proof.
  induction t as [| | w | | | | n | t IH | n t IH | k t IH | k t IH | fields IH] using rtype_nested_ind; unfold decoder in *; cbn [decoder_as];
    try (by apply changed_leaf).
  - apply (changed_ret (map value_of) value_of (VSlice false) (VSlice false)); [by apply changed_ListSlice | done].
  - apply (changed_ret (map value_of) value_of (VSlice false) (VSlice false)); [by apply changed_ListArray | done].
  - apply (changed_ret value_of value_of (fun x => VPtr k (Some x)) (fun x => VPtr k (Some x))); [done | done].
  - apply (changed_ret (fmap value_of) value_of (VPtr k) (VPtr k)); [by apply changed_NilPtr |]. by intros [x |].
  - apply (changed_ret (map value_field) value_of VStruct VStruct); [| done]. intros s. unfold decodeStruct, sbind, sret. destruct (wrap_err stream_List s) as [[n | e | |] s1]; try done.
    pose proof (changed_fields fuel fields IH s1) as E. unfold decoder in E. rewrite E. destruct (decodeFields (fun _ => false) _ s1) as [[vs | e | |] s2]; cbn [fst snd]; try done. by destruct (wrap_err stream_ListEnd s2) as [[u | e | |] s3].
Qed.

Lemma DecodeBytes_into_value pooled t b :
  DecodeBytes_into pooled t b = match DecodeBytes_as pooled (fun fuel => speller fuel t) b with Ok p => Ok (value_of p) | Err e => Err e | Panic => Panic | OutOfFuel => OutOfFuel end.
Proof.
  unfold DecodeBytes_into, DecodeBytes_as. rewrite (decoder_changed (S (length b)) t _). destruct (speller _ _ _) as [[p | e | |] s']; cbn [fst snd]; try done. by case_if.
Qed.

(** A spelling without optional fields of other types is a value. *)
Lemma value_of_typed t : rtype_ok t → ∀ v, typed t v → value_of v = v.
Proof.
  induction t as [| | w | | | | n | t IH | n t IH | k t IH | k t IH | fields IH] using rtype_nested_ind; intros Hok v Hv; destruct v as [| x | x | k' x | | | | | | tl l | vs |]; try done; cbn [typed] in Hv; cbn [value_of].
  - destruct tl; [done |]. f_equal. rewrite <- (map_id l) at 2. apply list_fmap_ext. intros i x Hx. apply IH; [done |]. by apply (Forall_lookup_1 _ _ _ _ Hv Hx).
  - destruct tl; [done |]. destruct Hv as [_ Hv]. f_equal. rewrite <- (map_id l) at 2. apply list_fmap_ext. intros i x Hx. apply IH; [done |]. by apply (Forall_lookup_1 _ _ _ _ Hv Hx).
  - destruct x as [x |]; [| done]. destruct Hv as [_ Hv]. by rewrite (IH Hok x Hv).
  - destruct x as [x |]; [| done]. destruct Hv as (_ & Hv & _). by rewrite (IH (proj2 Hok) x Hv).
  - f_equal. change (map value_field vs = vs). pose proof (fields_rtype_ok _ _ Hok) as Hfs. destruct Hok as (_ & Hnil & _). revert vs Hv.
    induction fields as [| f fields IHf]; intros vs Hv; cbn [fields_typed] in Hv; [by subst vs |]. apply Forall_cons in IH as [I1 I2]. apply Forall_cons in Hfs as [F1 F2]. apply Forall_cons in Hnil as [N1 N2].
    destruct Hv as [[_ ->] | (v & vs' & -> & Hv & Hw)]; [rewrite map_map; by apply map_ext |]. cbn [map]. rewrite (IHf I2 N2 F2 vs' Hw). f_equal. unfold value_field. rewrite (I1 F1 v Hv). do 2 f_equal.
    destruct (snd f); [| by destruct (IsZero v)]. specialize (N1 eq_refl). destruct (fst f); try done; destruct v as [| y | y | k y | | | | | | tl l | ws |]; try done; by destruct y.
Qed.

Lemma DecodeBytes_into_spec pooled t b v :
  rtype_ok t → bytes_ok b → slice_len b → DecodeBytes_into pooled t b = Ok v ↔ typed t v ∧ rlp_enc v = Ok b.
Proof.
  intros Ht Hb Hl. rewrite <- (spelling_spec pooled t b v Ht Hb Hl), DecodeBytes_into_value. pose proof (fun p => spelling_spec pooled t b p Ht Hb Hl) as Hs.
  destruct (DecodeBytes_as _ _ _) as [p | e | |]; try done. destruct (proj1 (Hs p) eq_refl) as [Hp _]. by rewrite (value_of_typed t Ht p Hp).
Qed.

Lemma DecodeBytes_into_returns {K} pooled t b : rtype_with K t → bytes_ok b → slice_len b → returns (DecodeBytes_into pooled t b).
Proof. intros Ht Hb Hl. pose proof (spelling_returns pooled t b Ht Hb Hl) as H. rewrite DecodeBytes_into_value. by destruct (DecodeBytes_as _ _ _). Qed.

(** A struct without optional fields holds one value for each field. *)
Lemma required_typed fields vs : Forall (fun f => snd f = false) fields →
  fields_typed snd (fun f => zero_of (fst f)) (fun f => typed (fst f)) fields vs ↔
  ∃ l, vs = map (fun x => (x, (false, false))) l ∧ Forall2 (fun f x => typed (fst f) x) fields l.
Proof.
  intros Hf. revert vs. induction Hf as [| f fields Hf _ IH]; intros vs; cbn [fields_typed].
  - split; [intros ->; by exists [] | intros (l & -> & Hl); by inversion Hl].
  - split.
    + intros [[Hc _] | (v & vs' & -> & Hv & Hw)]; [congruence |]. apply IH in Hw as (l & -> & Hl). exists (v :: l). rewrite Hf. split; [done | by constructor].
    + intros (l & -> & Hl). apply Forall2_cons_inv_l in Hl as (x & l' & Hx & Hl & ->). right. exists x, (map (fun x => (x, (false, false))) l'). rewrite Hf.
      split; [done |]. split; [done |]. apply IH. by exists l'.
Qed.

(** ** Typed values can be written *)

Lemma payload_elem (enc : rval → bytes) ps zs x : present ps → absent zs → x ∈ ps → ∃ l r, payload enc (ps ++ zs) = l ++ enc (fst x) ++ r.
Proof.
  intros Hp Hz Hx. induction Hx as [[v [o z]] ps | y [v [o z]] ps Hx IH]; apply Forall_cons in Hp as [Ez Hp]; cbn in Ez; subst z; cbn [app payload fst].
  - by exists [], (payload enc (ps ++ zs)).
  - destruct (IH Hp) as (l & r & E). exists (enc v ++ l), r. by rewrite E, <- app_assoc.
Qed.

Lemma concat_elem {A} (enc : A → bytes) l x : x ∈ l → ∃ a b, concat (map enc l) = a ++ enc x ++ b.
Proof.
  induction 1 as [x l | x y l _ (a & b & E)]; rewrite concat_map_cons; [by exists [], (concat (map enc l)) | exists (enc y ++ a), b; by rewrite E, <- app_assoc].
Qed.

(** A part of an encoding has the bounds of the whole. *)
Lemma part_ok (a e b : bytes) : bytes_ok (a ++ e ++ b) → slice_len (a ++ e ++ b) → bytes_ok e ∧ slice_len e.
Proof. intros Hb Hl. rewrite !len_app in Hl. apply Forall_app in Hb as [_ Hb]. apply Forall_app in Hb as [Hb _]. split; [done | lia]. Qed.

Lemma enc_list_part p : bytes_ok (enc_list p) → slice_len (enc_list p) → bytes_ok p ∧ slice_len p.
Proof. unfold enc_list. intros Hb Hl. rewrite len_app in Hl. apply Forall_app in Hb as [_ Hb]. split; [done | lia]. Qed.

Lemma enc_string_part b : bytes_ok (enc_string b) → bytes_ok b.
Proof. unfold enc_string. case_if; [done |]. intros Hb. by apply Forall_app in Hb as [_ ?]. Qed.

Lemma rval_ok_bound v e : rlp_enc v = Ok e → slice_len e → ∀ e', rlp_enc v = Ok e' → slice_len e'.
Proof. intros E Hl e' E'. rewrite E in E'. by injection E' as <-. Qed.

Lemma elems_rval_ok t l : (∀ v, typed t v → bytes_ok (enc_val v) → slice_len (enc_val v) → rval_ok v) → Forall (typed t) l →
  bytes_ok (concat (map enc_val l)) → slice_len (concat (map enc_val l)) → fold_right (fun x P => rval_ok x ∧ P) True l.
Proof.
  intros IH Hl Hb Hs. assert (Hall : ∀ x, x ∈ l → rval_ok x).
  { intros x Hx. destruct (concat_elem enc_val l x Hx) as (a & b & E). rewrite E in Hb, Hs. destruct (part_ok _ _ _ Hb Hs). rewrite Forall_forall in Hl. apply IH; auto. }
  clear -Hall. induction l as [| x l IHl]; [done |]. split; [apply Hall; by left | apply IHl; intros y Hy; apply Hall; by right].
Qed.

(** Absent fields are written nowhere, and have no parts. *)
Lemma nilable_zero_ok t : nilable t = true → rval_ok (zero_of t).
Proof. destruct t; intros Hn; try discriminate Hn; cbn [zero_of rval_ok]; (split; [| done]); intros e E; cbn [rlp_enc enc_elems mbind outcome_bind] in E;
  try case_decide; injection E as <-; vm_compute; reflexivity. Qed.

Lemma fields_rval_ok fields : ∀ vs, rtype_ok (TStruct fields) →
  (∀ f v, f ∈ fields → typed (fst f) v → bytes_ok (enc_val v) → slice_len (enc_val v) → rval_ok v) →
  fields_typed snd (fun f => zero_of (fst f)) (fun f => typed (fst f)) fields vs → bytes_ok (payload enc_val vs) → slice_len (payload enc_val vs) →
  fold_right (fun f P => rval_ok (fst f) ∧ P) True vs.
Proof.
  intros vs (_ & Hnil & required & optional & -> & Hr & Ho) IH Hw Hb Hl.
  assert (Hz : ∀ fs, Forall (fun f => snd f = true → nilable (fst f) = true) fs → Forall (fun f => snd f = true) fs →
    fold_right (fun (f : rval * (bool * bool)) P => rval_ok (fst f) ∧ P) True (map (fun f : rtype * bool => (zero_of (fst f), (snd f, true))) fs)).
  { clear. induction fs as [| f fs IHf]; intros Hn Hf; [done |]. apply Forall_cons in Hn as [N1 N2]. apply Forall_cons in Hf as [F1 F2]. split; [by apply nilable_zero_ok, N1 | by apply IHf]. }
  revert vs Hw Hb Hl. induction Hr as [| f required Hf Hr IHr].
  - induction Ho as [| f optional Hf Ho IHo]; intros vs Hw Hb Hl; cbn [app fields_typed] in Hw; [by subst vs |].
    destruct Hw as [[_ ->] | (v & vs' & -> & Hv & Hw)]; [apply Hz; [done | by constructor] |]. cbn [payload] in Hb, Hl. apply Forall_cons in Hnil as [_ Hnil].
    destruct (part_ok [] (enc_val v) (payload enc_val vs') Hb Hl) as [Hb1 Hl1]. apply Forall_app in Hb as [_ Hb]. rewrite len_app in Hl.
    split; [by apply (IH f v); [left |..] |]. apply IHo; [done | | done | done | lia]. intros g u Hg. apply IH. by right.
  - intros vs Hw Hb Hl. cbn [app fields_typed] in Hw. destruct Hw as [[Hc _] | (v & vs' & -> & Hv & Hw)]; [congruence |]. cbn [payload] in Hb, Hl.
    apply Forall_cons in Hnil as [_ Hnil]. destruct (part_ok [] (enc_val v) (payload enc_val vs') Hb Hl) as [Hb1 Hl1]. apply Forall_app in Hb as [_ Hb]. rewrite len_app in Hl.
    split; [by apply (IH f v); [left |..] |]. apply IHr; [done | | done | done | lia]. intros g u Hg. apply IH. by right.
Qed.

Lemma typed_rval_ok t : rtype_ok t → ∀ v, typed t v → bytes_ok (enc_val v) → slice_len (enc_val v) → rval_ok v.
Proof.
  induction t as [| | w | | | | n | t IH | n t IH | k t IH | k t IH | fields IH] using rtype_nested_ind; intros Hok v Hv Hb Hl; pose proof (typed_encodes _ Hok v Hv) as He;
    pose proof (rval_ok_bound v _ He Hl) as Hbound; destruct v as [| x | x | k' x | x | | | | | tl l | vs |]; try done; cbn [typed] in Hv.
  - split; [done |]. assert (256 ^ w <= 256 ^ 8) by (apply Z.pow_le_mono_r; cbn in Hok; lia). change (256 ^ 8) with (2 ^ 64) in *. lia.
  - split; [done |]. by apply enc_string_part.
  - split; [done |]. by apply enc_string_part.
  - split; [done |]. by apply enc_string_part.
  - destruct tl; [done |]. split; [done |]. unfold enc_val in Hb, Hl. cbn [rlp_enc] in Hb, Hl. rewrite enc_elems_vals in Hb, Hl by (apply (Forall_impl _ _ _ Hv); by eapply typed_encodes).
    destruct (enc_list_part _ Hb Hl). apply (elems_rval_ok t); auto.
  - destruct tl; [done |]. destruct Hv as [_ Hv]. split; [done |]. unfold enc_val in Hb, Hl. cbn [rlp_enc] in Hb, Hl.
    rewrite enc_elems_vals in Hb, Hl by (apply (Forall_impl _ _ _ Hv); by eapply typed_encodes). destruct (enc_list_part _ Hb Hl). apply (elems_rval_ok t); auto.
  - destruct x as [x |]; [| done]. destruct Hv as [_ Hv]. split; [done |]. by apply IH.
  - destruct x as [x |]; [| by split]. destruct Hv as (_ & Hv & _). split; [done |]. apply IH; [by apply Hok | done | done | done].
  - split; [done |]. pose proof Hok as Hok'. apply fields_rtype_ok in Hok'.
    rewrite (enc_val_ok _ _ (struct_encodes _ fields vs ltac:(apply (Forall_impl _ _ _ Hok'); intros f Hf; by eapply typed_encodes) Hok Hv)) in Hb, Hl.
    destruct (enc_list_part _ Hb Hl). apply (fields_rval_ok fields); try done. intros f v Hf. rewrite Forall_forall in IH, Hok'. by apply IH, Hok'.
Qed.

(** C9.  Decoding into a Go type is exact and always returns.  The types are those of
    [rtype], with pointers that may be tagged nil, and with optional fields that are
    integers, booleans, strings, byte arrays, pointers or slices.  The inputs accepted
    are the spellings of the values of the type: their encodings, where an optional
    field at the end of a struct may be left out or be written whether or not it is
    zero, and each input gives the value it spells.  When all optional fields are
    slices or pointers without a nil tag, a value has one spelling: decoding gives
    exactly the values whose encoding is the input. *)
Theorem DecodeBytes_into_exact pooled t b :
  rtype_with zeroable t → bytes_ok b → slice_len b →
  (∀ v, DecodeBytes_into pooled t b = Ok v ↔ ∃ p, typed t p ∧ rlp_enc p = Ok b ∧ v = value_of p) ∧
  returns (DecodeBytes_into pooled t b) ∧
  (rtype_ok t → ∀ v, DecodeBytes_into pooled t b = Ok v ↔ typed t v ∧ rlp_enc v = Ok b).
Proof.
  intros Ht Hb Hl. split_and!; [| by apply (DecodeBytes_into_returns (K := zeroable)) | intros Ht' v; by apply DecodeBytes_into_spec].
  intros v. rewrite DecodeBytes_into_value. pose proof (fun p => spelling_spec pooled t b p Ht Hb Hl) as Hs. split.
  - destruct (DecodeBytes_as _ _ _) as [p | e | |]; try done. intros [= <-]. exists p. destruct (proj1 (Hs p) eq_refl). by split_and!.
  - intros (p & Hp & Ep & ->). by rewrite (proj2 (Hs p) (conj Hp Ep)).
Qed.

(** A struct with optional fields, for examples. *)
Definition demo_type : rtype := TStruct [(TUint 8, false); (TSlice (TByteArray 2), false); (TNilPtr KString (TByteArray 2), false); (TBigPtr, true); (TUint 8, true)].

Lemma demo_type_ok : rtype_with zeroable demo_type.
Proof.
  split; [by repeat split |]. split; [repeat constructor; done |].
  by exists [(TUint 8, false); (TSlice (TByteArray 2), false); (TNilPtr KString (TByteArray 2), false)], [(TBigPtr, true); (TUint 8, true)]; repeat constructor.
Qed.

(** The last field is written though it is zero. *)
Definition demo_input : bytes := [0xC9; 0x05; 0xC3; 0x82; 0x01; 0x02; 0x80; 0x81; 0x80; 0x80].
Definition demo_value (absent : bool) : rval :=
  VStruct [(VUint 5, (false, false)); (VSlice false [VByteArray [1; 2]], (false, false)); (VPtr KString None, (false, false)); (VBigPtr (Some 128), (true, false)); (VUint 0, (true, absent))].

Lemma demo_value_typed : typed demo_type (demo_value false).
Proof.
  right. eexists _, _. split; [reflexivity |]. split; [done |]. right. eexists _, _. split; [reflexivity |]. split; [by repeat constructor |].
  right. eexists _, _. split; [reflexivity |]. split; [done |]. right. eexists _, _. split; [reflexivity |]. split; [done |]. right. eexists _, _. split; [reflexivity |]. done.
Qed.

Lemma DecodeBytes_into_exact_witness : DecodeBytes_into zero_stream demo_type demo_input = Ok (demo_value true).
Proof.
  destruct (DecodeBytes_into_exact zero_stream demo_type demo_input demo_type_ok ltac:(solve_bytes) ltac:(done)) as [H _].
  destruct (H (demo_value true)) as [_ H2]. apply H2. exists (demo_value false). split; [apply demo_value_typed | split; vm_compute; reflexivity].
Defined.

(** A value is known by its encoding. *)
Lemma typed_inj t v1 v2 : rtype_ok t → typed t v1 → typed t v2 → bytes_ok (enc_val v1) → slice_len (enc_val v1) → enc_val v1 = enc_val v2 → v1 = v2.
Proof.
  intros Ht H1 H2 Hb Hl E. pose proof (typed_encodes t Ht _ H1) as E1. pose proof (typed_encodes t Ht _ H2) as E2. rewrite <- E in E2.
  pose proof (proj2 (DecodeBytes_into_spec zero_stream t _ v1 Ht Hb Hl) (conj H1 E1)) as D1.
  pose proof (proj2 (DecodeBytes_into_spec zero_stream t _ v2 Ht Hb Hl) (conj H2 E2)) as D2. congruence.
Qed.
