(* ===== verification/TrieEncoding.v ===== *)
(** * Trie keys: src/trie/encoding.go

    Keys come in three encodings: key bytes, hex (one nibble per byte and a
    terminator, 16, for keys of values) and compact (the form stored in the
    database).  The theorems: the conversions are inverse on the keys the trie
    uses, the in-place conversion to compact form equals the allocating one on
    every non-empty slice. *)

From S2P Require Import Prelude.

Section Encoding.
  Context {E : Type}.

(** hasTerm returns whether a hex key has the terminator flag. *)
Definition hasTerm (s : bytes) : bool :=
  match last s with Some x => x =? 16 | None => false end.

(** decodeNibbles stores the packed nibbles from [bytes_[bi]] on. *)
Fixpoint decodeNibbles (nibbles bytes_ : bytes) (bi : Z) : outcome E bytes :=
  match nibbles with
  | [] => Ok bytes_
  | [_] => Panic
  | a :: b :: nibbles =>
      bytes_ ← set_at bytes_ bi (Z.lor (u8 (Z.shiftl a 4)) b);
      decodeNibbles nibbles bytes_ (bi + 1)
  end.

Definition hexToCompact (hex : bytes) : outcome E bytes :=
  let '(terminator, hex) :=
    if hasTerm hex then (1, take (length hex - 1) hex) else (0, hex) in
  let buf := repeat 0 (length hex / 2 + 1) in
  let flag := u8 (Z.shiftl terminator 5) in
  if Z.land (len hex) 1 =? 1 then
    first ← at_ hex 0;
    buf ← set_at buf 0 (Z.lor (Z.lor flag (Z.shiftl 1 4)) first);
    decodeNibbles (drop 1 hex) buf 1
  else
    buf ← set_at buf 0 flag;
    decodeNibbles hex buf 1.

(** The loop of hexToCompactInPlace, which reads and writes one buffer. *)
Fixpoint compactInPlace_loop (fuel : nat) (hex : bytes) (hexLen bi ni : Z) : outcome E bytes :=
  if ni <? hexLen then
    match fuel with
    | O => OutOfFuel
    | S fuel =>
        a ← at_ hex ni;
        b ← at_ hex (ni + 1);
        hex ← set_at hex bi (Z.lor (u8 (Z.shiftl a 4)) b);
        compactInPlace_loop fuel hex hexLen (bi + 1) (ni + 2)
    end
  else Ok hex.

(** hexToCompactInPlace: the buffer afterwards and the compact key, a prefix
    of it. *)
Definition hexToCompactInPlace (hex : bytes) : outcome E (bytes * bytes) :=
  let '(hexLen, firstByte) :=
    if hasTerm hex then (len hex - 1, u8 (Z.shiftl 1 5)) else (len hex, 0) in
  let binLen := hexLen / 2 + 1 in
  '(firstByte, ni) ← (if Z.land hexLen 1 =? 1 then
                        first ← at_ hex 0;
                        Ok (Z.lor (Z.lor firstByte (Z.shiftl 1 4)) first, 1)
                      else Ok (firstByte, 0));
  hex ← compactInPlace_loop (length hex) hex hexLen 1 ni;
  hex ← set_at hex 0 firstByte;
  key ← slice hex 0 binLen;
  Ok (hex, key).

Definition keybytesToHex (str : bytes) : bytes :=
  concat (map (fun b => [b / 16; b mod 16]) str) ++ [16].

Definition compactToHex (compact : bytes) : outcome E bytes :=
  match compact with
  | [] => Ok compact
  | _ =>
      let base := keybytesToHex compact in
      b0 ← at_ base 0;
      base ← (if b0 <? 2 then slice base 0 (len base - 1) else Ok base);
      let chop := u8 (2 - Z.land b0 1) in
      slice_from base chop
  end.

Definition hexToKeybytes (hex : bytes) : outcome E bytes :=
  let hex := if hasTerm hex then take (length hex - 1) hex else hex in
  if negb (Z.land (len hex) 1 =? 0) then Panic
  else decodeNibbles hex (repeat 0 (length hex / 2)) 0.
End Encoding.

(** prefixLen returns the length of the common prefix of [a] and [b]. *)
Fixpoint prefixLen (a b : bytes) : nat :=
  match a, b with
  | x :: a, y :: b => if x =? y then S (prefixLen a b) else 0%nat
  | _, _ => 0%nat
  end.

(** ** Specification *)

Definition is_nibble (x : Z) : Prop := 0 <= x < 16.

(** Packing two nibbles per byte. *)
Fixpoint pack (nibbles : bytes) : bytes :=
  match nibbles with
  | a :: b :: l => Z.lor (u8 (Z.shiftl a 4)) b :: pack l
  | _ => []
  end.

(** A hex key: nibbles, possibly with the terminator behind them. *)
Definition hex_key (hex : bytes) : Prop :=
  ∃ l, Forall is_nibble l ∧ (hex = l ∨ hex = l ++ [16]).

Definition hex_body (hex : bytes) : bytes := if hasTerm hex then take (length hex - 1) hex else hex.

(** The compact form of any byte string. *)
Definition compact (hex : bytes) : bytes :=
  let flag := if hasTerm hex then 32 else 0 in
  let l := hex_body hex in
  if Nat.odd (length l) then Z.lor (Z.lor flag 16) (hd 0 l) :: pack (tl l)
  else flag :: pack l.

(** ** Lemmas *)

Lemma land_1_odd n : (Z.land (Z.of_nat n) 1 =? 1) = Nat.odd n.
Proof.
  change 1 with (Z.ones 1) at 1. rewrite Z.land_ones by lia. change (2 ^ 1) with 2.
  destruct (Nat.odd n) eqn:Ho.
  - apply Nat.odd_spec in Ho as [k ->]. apply Z.eqb_eq.
    replace (Z.of_nat (2 * k + 1)) with (1 + Z.of_nat k * 2) by lia. by rewrite Z.mod_add by lia.
  - apply Z.eqb_neq. rewrite <- Nat.negb_even in Ho. apply negb_false_iff, Nat.even_spec in Ho as [k ->].
    replace (Z.of_nat (2 * k)) with (Z.of_nat k * 2) by lia. rewrite Z.mod_mul; lia.
Qed.

(** Induction two nibbles at a time. *)
Lemma pairs_ind (P : bytes → Prop) :
  P [] → (∀ a b l, P l → P (a :: b :: l)) → ∀ l, Nat.odd (length l) = false → P l.
Proof.
  intros H0 H2 l. remember (length l) as n eqn:Hn. revert l Hn.
  induction n as [n IH] using lt_wf_ind. intros [| a [| b l]] Hn Ho; [done | by subst |].
  apply H2, (IH (length l)); [subst; cbn; lia | done |].
  by rewrite Hn in Ho.
Qed.

Lemma even_half {A} (l : list A) : Nat.odd (length l) = false → (2 * (length l / 2) = length l)%nat.
Proof.
  intros Ho. rewrite <- Nat.negb_even in Ho. apply negb_false_iff, Nat.even_spec in Ho as [k Hk].
  rewrite Hk. replace (2 * k / 2)%nat with k; [lia |]. by rewrite Nat.mul_comm, Nat.div_mul by lia.
Qed.

Lemma pack_length l : Nat.odd (length l) = false → (2 * length (pack l) = length l)%nat.
Proof. intros Ho. pattern l. apply pairs_ind; [done | | done]. intros a b k IH. cbn. lia. Qed.

Lemma decodeNibbles_ok {E} l :
  Nat.odd (length l) = false → ∀ pre mid post, (length l = 2 * length mid)%nat →
  @decodeNibbles E l (pre ++ mid ++ post) (len pre) = Ok (pre ++ pack l ++ post).
Proof.
  intros Ho. pattern l. apply pairs_ind; [| | done].
  - intros pre mid post Hm. cbn in Hm. by destruct mid; [| cbn in Hm; lia].
  - intros a b k IH pre [| y mid] post Hm; [cbn in Hm; lia |]. cbn [decodeNibbles app pack].
    rewrite set_at_app. cbn [mbind outcome_bind].
    specialize (IH (pre ++ [Z.lor (u8 (Z.shiftl a 4)) b]) mid post ltac:(cbn in Hm; lia)).
    rewrite len_app, <- !app_assoc in IH. cbn in IH. exact IH.
Qed.

Lemma decodeNibbles_fill {E} l pre :
  Nat.odd (length l) = false →
  @decodeNibbles E l (pre ++ repeat 0 (length l / 2)) (len pre) = Ok (pre ++ pack l).
Proof.
  intros Ho. pose proof (decodeNibbles_ok (E := E) l Ho pre (repeat 0 (length l / 2)) []) as H.
  rewrite !app_nil_r in H. apply H. rewrite repeat_length. by rewrite even_half.
Qed.

Lemma hexToCompact_compact {E} hex : @hexToCompact E hex = Ok (compact hex).
Proof.
  unfold hexToCompact, compact, hex_body.
  destruct (if hasTerm hex then (1, take (length hex - 1) hex) else (0, hex)) as [t l] eqn:Et.
  replace (if hasTerm hex then take (length hex - 1) hex else hex) with l
    by (destruct (hasTerm hex); by injection Et as <- <-).
  replace (if hasTerm hex then 32 else 0) with (u8 (Z.shiftl t 5))
    by (destruct (hasTerm hex); by injection Et as <- <-).
  rewrite land_1_odd, Nat.add_1_r. cbn [repeat]. destruct (Nat.odd (length l)) eqn:Ho.
  - destruct l as [| x l]; [done |]. change (at_ (x :: l) 0) with (@Ok E Z x).
    cbn [mbind outcome_bind drop hd tl].
    assert (Ho' : Nat.odd (length l) = false).
    { cbn in Ho. rewrite Nat.odd_succ in Ho. rewrite <- Nat.negb_even. by rewrite Ho. }
    assert (Hhalf : (length (x :: l) / 2 = length l / 2)%nat).
    { pose proof (even_half l Ho'). cbn [length].
      replace (S (length l)) with (1 + length l / 2 * 2)%nat by lia. by rewrite Nat.div_add by lia. }
    rewrite Hhalf. rewrite set_at_0. cbn [mbind outcome_bind app].
    exact (decodeNibbles_fill l [_] Ho').
  - rewrite set_at_0. cbn [mbind outcome_bind app].
    exact (decodeNibbles_fill l [_] Ho).
Qed.

(** ** Conversion in place *)

Lemma compactInPlace_loop_ok {E} l :
  Nat.odd (length l) = false → ∀ fuel d j post, (length l <= fuel)%nat →
  ∃ rest, @compactInPlace_loop E fuel (d ++ j ++ l ++ post) (len (d ++ j ++ l)) (len d) (len (d ++ j)) =
    Ok (d ++ pack l ++ rest) ∧ length (pack l ++ rest) = length (j ++ l ++ post).
Proof.
  intros Ho. pattern l. apply pairs_ind; [| | done].
  - intros fuel d j post _. exists (j ++ post). rewrite app_nil_r.
    destruct fuel; cbn; by rewrite Z.ltb_irrefl.
  - intros a b k IH [| fuel] d j post Hf; [cbn in Hf; lia |]. cbn [compactInPlace_loop].
    rewrite (proj2 (Z.ltb_lt _ _)) by (rewrite !len_app, !len_cons; lia).
    rewrite (app_assoc d j ((a :: b :: k) ++ post)). cbn [app]. rewrite at_app. cbn [mbind outcome_bind].
    replace (len (d ++ j) + 1) with (len ((d ++ j) ++ [a])) by (rewrite (len_app (d ++ j)); done).
    replace ((d ++ j) ++ a :: b :: k ++ post) with (((d ++ j) ++ [a]) ++ b :: k ++ post)
      by by rewrite <- app_assoc.
    rewrite at_app. cbn [mbind outcome_bind]. set (x := Z.lor (u8 (Z.shiftl a 4)) b).
    assert (Hset : ∃ j', set_at (((d ++ j) ++ [a]) ++ b :: k ++ post) (len d) x =
      @Ok E _ ((d ++ [x]) ++ j' ++ k ++ post) ∧ length j' = S (length j)).
    { destruct j as [| y j].
      - exists [b]. rewrite app_nil_r, <- app_assoc. cbn [app]. rewrite set_at_app.
        by rewrite <- app_assoc.
      - exists (j ++ [a; b]). rewrite <- !app_assoc. cbn [app]. rewrite set_at_app.
        split; [done |]. rewrite length_app. cbn. lia. }
    destruct Hset as (j' & -> & Hj'). cbn [mbind outcome_bind].
    destruct (IH fuel (d ++ [x]) j' post ltac:(cbn in Hf; lia)) as (rest & IHe & IHl).
    exists rest. split.
    + transitivity (@Ok E _ ((d ++ [x]) ++ pack k ++ rest)); [| by rewrite <- app_assoc].
      rewrite <- IHe. f_equal; autorewrite with len; lia.
    + cbn [pack app length]. rewrite IHl, !length_app. cbn [length]. rewrite length_app. lia.
Qed.

Lemma hex_split hex : hex = hex_body hex ++ (if hasTerm hex then [16] else []).
Proof.
  unfold hex_body, hasTerm. destruct hex as [| x hex] using rev_ind; [done |].
  rewrite last_snoc, length_app, Nat.add_sub. case_if; [subst | by rewrite app_nil_r].
  by rewrite take_app_length.
Qed.

Lemma hex_body_length hex :
  len (hex_body hex) = if hasTerm hex then len hex - 1 else len hex.
Proof.
  pose proof (f_equal length (hex_split hex)) as H. rewrite length_app in H.
  destruct (hasTerm hex); cbn in H; lia.
Qed.

(** The buffer after the loop, when the terminator and an odd first nibble are
    set aside. *)
Lemma compactInPlace_even {E} l post :
  Nat.odd (length l) = false → l ++ post ≠ [] →
  ∃ x rest, @compactInPlace_loop E (length (l ++ post)) (l ++ post) (len l) 1 0 =
    Ok (x :: pack l ++ rest) ∧ length (x :: pack l ++ rest) = length (l ++ post).
Proof.
  intros Ho Hne. destruct l as [| a [| b l]]; [| done |].
  - destruct post as [| y post]; [done |]. by exists y, post.
  - cbn [app length compactInPlace_loop]. rewrite (proj2 (Z.ltb_lt _ _)) by lia.
    change (at_ (a :: b :: l ++ post) 0) with (@Ok E Z a). change (0 + 1) with 1.
    change (at_ (a :: b :: l ++ post) 1) with (@Ok E Z b). cbn [mbind outcome_bind].
    set (x := Z.lor (u8 (Z.shiftl a 4)) b).
    rewrite (set_at_app [a] (l ++ post) b x : set_at (a :: b :: l ++ post) 1 x = _).
    cbn [mbind outcome_bind app].
    destruct (compactInPlace_loop_ok (E := E) l Ho (S (length (l ++ post))) [a; x] [] post) as (rest & H & Hl).
    { rewrite length_app. lia. }
    exists a, rest. cbn [app] in H. change (len [a; x]) with (1 + 1) in H.
    split; [exact H |]. cbn in *. by rewrite Hl.
Qed.

Lemma odd_tl (x : Z) l : Nat.odd (length (x :: l)) = true → Nat.odd (length l) = false.
Proof. cbn [length]. rewrite Nat.odd_succ, <- Nat.negb_even. by intros ->. Qed.

Lemma compact_length hex : (length (compact hex) = length (hex_body hex) / 2 + 1)%nat.
Proof.
  unfold compact. destruct (Nat.odd (length (hex_body hex))) eqn:Ho.
  - destruct (hex_body hex) as [| x l]; [done |]. apply odd_tl in Ho. cbn [tl length].
    pose proof (pack_length l Ho). replace (length l) with (length (pack l) * 2)%nat by lia.
    replace (S (length (pack l) * 2)) with (1 + length (pack l) * 2)%nat by lia.
    rewrite Nat.div_add by lia. cbn. lia.
  - pose proof (pack_length _ Ho). cbn [length].
    replace (length (hex_body hex)) with (length (pack (hex_body hex)) * 2)%nat by lia.
    rewrite Nat.div_mul by lia. lia.
Qed.

Lemma set_first {E} (x y : Z) r l n :
  n = len (y :: l) →
  (hex ← @set_at E Z (x :: l ++ r) 0 y; key ← slice hex 0 n; Ok (hex, key)) = Ok (y :: l ++ r, y :: l).
Proof.
  intros ->. rewrite set_at_0. cbn [mbind outcome_bind].
  by rewrite (slice_prefix_app (y :: l) r).
Qed.

(** The key packed from the body [l] with the flag [f]. *)
Definition compact_of (f : Z) (l : bytes) : bytes :=
  if Nat.odd (length l) then Z.lor (Z.lor f 16) (hd 0 l) :: pack (tl l) else f :: pack l.

Lemma inPlace_core {E} l post f n :
  l ++ post ≠ [] → n = len (compact_of f l) →
  ∃ rest, ('(firstByte, ni) ← (if Nat.odd (length l) then
                                first ← @at_ E _ (l ++ post) 0;
                                Ok (Z.lor (Z.lor f (Z.shiftl 1 4)) first, 1)
                              else Ok (f, 0));
           hex ← compactInPlace_loop (length (l ++ post)) (l ++ post) (len l) 1 ni;
           hex ← set_at hex 0 firstByte;
           key ← slice hex 0 n;
           Ok (hex, key)) = Ok (compact_of f l ++ rest, compact_of f l) ∧
    length (compact_of f l ++ rest) = length (l ++ post).
Proof.
  intros Hne ->. unfold compact_of. destruct (Nat.odd (length l)) eqn:Ho.
  - destruct l as [| x l]; [done |]. apply odd_tl in Ho. cbn [hd tl app].
    change (at_ (x :: l ++ post) 0) with (@Ok E Z x). cbn [mbind outcome_bind].
    destruct (compactInPlace_loop_ok (E := E) l Ho (length (x :: l ++ post)) [x] [] post) as (rest & H & Hl).
    { cbn. rewrite length_app. lia. }
    cbn [app] in H, Hl. change (len [x]) with 1 in H. rewrite H. cbn [mbind outcome_bind].
    exists rest. rewrite set_first by done. split; [done | cbn; by rewrite Hl].
  - destruct (compactInPlace_even (E := E) l post Ho Hne) as (x & rest & H & Hl).
    cbn [mbind outcome_bind]. rewrite H. cbn [mbind outcome_bind]. exists rest.
    rewrite set_first by done. split; [done | by rewrite <- Hl].
Qed.

(** hexToCompactInPlace overwrites the nibbles it has already read and no
    others: on every non-empty slice it returns what hexToCompact returns, as
    the prefix of the same buffer. *)
Theorem hexToCompactInPlace_correct {E} hex :
  hex ≠ [] →
  ∃ key rest, @hexToCompact E hex = Ok key ∧
    @hexToCompactInPlace E hex = Ok (key ++ rest, key) ∧ length (key ++ rest) = length hex.
Proof.
  intros Hne. rewrite hexToCompact_compact. exists (compact hex).
  pose proof (hex_body_length hex) as Hlen. pose proof (compact_length hex) as Hcl.
  unfold hexToCompactInPlace.
  replace (if hasTerm hex then (len hex - 1, u8 (Z.shiftl 1 5)) else (len hex, 0))
    with (len (hex_body hex), if hasTerm hex then 32 else 0) by (destruct (hasTerm hex); by rewrite Hlen).
  rewrite land_1_odd. pose proof (hex_split hex) as Hs. unfold compact in *.
  set (f := if hasTerm hex then 32 else 0) in *. set (post := if hasTerm hex then [16] else []) in *.
  set (l := hex_body hex) in *. clearbody f post l. subst hex.
  destruct (inPlace_core (E := E) l post f (len l / 2 + 1) Hne) as (rest & H1 & H2).
  { unfold compact_of. rewrite Hcl, Nat2Z.inj_add, Nat2Z.inj_div. lia. }
  exists rest. split_and!; [done | exact H1 | exact H2].
Qed.

Lemma hexToCompactInPlace_correct_witness :
  ∃ key rest, @hexToCompact unit [1; 2; 3; 4; 5; 16] = Ok key ∧
    @hexToCompactInPlace unit [1; 2; 3; 4; 5; 16] = Ok (key ++ rest, key) ∧ length (key ++ rest) = 6%nat.
Proof. by apply (hexToCompactInPlace_correct [1; 2; 3; 4; 5; 16]). Defined.

(** ** Round trips *)

Lemma nibbles_pack a b : is_nibble a → is_nibble b → Z.lor (u8 (Z.shiftl a 4)) b = a * 16 + b.
Proof.
  unfold is_nibble. intros Ha Hb.
  rewrite u8_id by (unfold is_byte; rewrite Z.shiftl_mul_pow2 by lia; change (2 ^ 4) with 16; lia).
  rewrite lor_shift_add by (change (2 ^ 4) with 16; lia). done.
Qed.

Definition unpack (str : bytes) : bytes := concat (map (fun b => [b / 16; b mod 16]) str).

Lemma unpack_byte a b : is_nibble a → is_nibble b → (a * 16 + b) / 16 = a ∧ (a * 16 + b) mod 16 = b.
Proof.
  unfold is_nibble. intros Ha Hb. rewrite Z.add_comm, Z.div_add, Z.mod_add by lia.
  rewrite Z.div_small, Z.mod_small by lia. split; lia.
Qed.

Lemma unpack_pack l : Nat.odd (length l) = false → Forall is_nibble l → unpack (pack l) = l.
Proof.
  intros Ho. pattern l. apply pairs_ind; [done | | done]. intros a b k IH Hl.
  apply Forall_cons in Hl as [Ha Hl]. apply Forall_cons in Hl as [Hb Hl].
  unfold unpack in *. cbn [pack map concat app]. rewrite IH by done.
  rewrite nibbles_pack by done. by destruct (unpack_byte a b Ha Hb) as [-> ->].
Qed.

Lemma unpack_nibbles str : bytes_ok str → Forall is_nibble (unpack str).
Proof.
  induction 1 as [| b str Hb _ IH]; [constructor |]. unfold unpack, is_byte in *. cbn.
  repeat constructor; [| | | | done].
  - apply Z.div_pos; lia.
  - apply Z.div_lt_upper_bound; lia.
  - apply Z.mod_pos_bound; lia.
  - apply Z.mod_pos_bound; lia.
Qed.

Lemma unpack_length str : (length (unpack str) = 2 * length str)%nat.
Proof. induction str as [| b str IH]; [done |]. unfold unpack in *. cbn. lia. Qed.

Lemma pack_unpack str : bytes_ok str → pack (unpack str) = str.
Proof.
  induction 1 as [| b str Hb _ IH]; [done |]. unfold is_byte in Hb. unfold unpack in *. cbn. rewrite IH.
  rewrite nibbles_pack.
  - f_equal. pose proof (Z.div_mod b 16). lia.
  - split; [apply Z.div_pos; lia | apply Z.div_lt_upper_bound; lia].
  - apply Z.mod_pos_bound. lia.
Qed.

Lemma hasTerm_nibbles l : Forall is_nibble l → hasTerm l = false.
Proof.
  intros Hl. unfold hasTerm. destruct (last l) as [x |] eqn:E; [| done].
  apply last_Some_elem_of in E. rewrite Forall_forall in Hl. specialize (Hl x E).
  unfold is_nibble in Hl. apply Z.eqb_neq. lia.
Qed.

Lemma hasTerm_snoc l : hasTerm (l ++ [16]) = true.
Proof. unfold hasTerm. by rewrite last_snoc. Qed.

Lemma hex_body_snoc l : hex_body (l ++ [16]) = l.
Proof. unfold hex_body. rewrite hasTerm_snoc, length_app, Nat.add_sub. apply take_app_length. Qed.

Lemma hex_body_nibbles l : Forall is_nibble l → hex_body l = l.
Proof. intros Hl. unfold hex_body. by rewrite hasTerm_nibbles. Qed.

Lemma slice_drop {E A} (l : list A) n : 0 <= n <= len l → @slice_from E A l n = Ok (drop (Z.to_nat n) l).
Proof.
  intros Hn. unfold slice_from, slice. repeat decide_if. cbn. f_equal. apply take_ge.
  rewrite length_drop. lia.
Qed.

(** compactToHex of a key packed with the flag of a leaf (32) or not (0). *)
Lemma compactToHex_of {E} (t : bool) l :
  Forall is_nibble l →
  @compactToHex E (compact_of (if t then 32 else 0) l) = Ok (l ++ if t then [16] else []).
Proof.
  intros Hl. unfold compact_of. destruct (Nat.odd (length l)) eqn:Ho.
  - destruct l as [| x l]; [done |]. apply odd_tl in Ho. apply Forall_cons in Hl as [Hx Hl].
    unfold compactToHex, keybytesToHex. cbn [hd tl map concat]. change (concat (map _ (pack l))) with (unpack (pack l)).
    rewrite unpack_pack by done.
    set (f := Z.lor (if t then 32 else 0) 16).
    assert (Hf : Z.lor f x = (if t then 3 else 1) * 16 + x).
    { rewrite <- (lor_shift_add _ x 4) by (unfold is_nibble in Hx; change (2 ^ 4) with 16; lia).
      by destruct t. }
    rewrite Hf. destruct (unpack_byte (if t then 3 else 1) x) as [-> ->]; [destruct t; split; lia | done |].
    destruct t; cbn [app].
    + change (at_ _ 0) with (@Ok E Z 3). cbn [mbind outcome_bind].
      change (3 <? 2) with false. change (u8 (2 - Z.land 3 1)) with 1. cbn [mbind outcome_bind].
      by rewrite slice_drop by (rewrite !len_cons; lia).
    + change (at_ _ 0) with (@Ok E Z 1). cbn [mbind outcome_bind].
      change (1 <? 2) with true. change (u8 (2 - Z.land 1 1)) with 1. cbv iota.
      replace (slice (1 :: x :: l ++ [16]) 0 _) with (@Ok E _ (1 :: x :: l)).
      * cbn [mbind outcome_bind]. rewrite slice_drop by (rewrite !len_cons; lia). by rewrite app_nil_r.
      * symmetry. apply (slice_prefix_app (1 :: x :: l) [16]). rewrite !len_cons, len_app. cbn. lia.
  - unfold compactToHex, keybytesToHex. cbn [map concat]. change (concat (map _ (pack l))) with (unpack (pack l)).
    rewrite unpack_pack by done. destruct t; cbn [app].
    + change (at_ _ 0) with (@Ok E Z 2). cbn [mbind outcome_bind].
      change (2 <? 2) with false. change (u8 (2 - Z.land 2 1)) with 2. cbn [mbind outcome_bind].
      by rewrite slice_drop by (rewrite !len_cons; lia).
    + change (at_ _ 0) with (@Ok E Z 0). cbn [mbind outcome_bind].
      change (0 <? 2) with true. change (u8 (2 - Z.land 0 1)) with 2. cbv iota.
      replace (slice (0 / 16 :: 0 mod 16 :: l ++ [16]) 0 _) with (@Ok E _ (0 :: 0 :: l)).
      * cbn [mbind outcome_bind]. rewrite slice_drop by (rewrite !len_cons; lia). by rewrite app_nil_r.
      * symmetry. apply (slice_prefix_app (0 :: 0 :: l) [16]). rewrite !len_cons, len_app. cbn. lia.
Qed.

Lemma compactToHex_compact {E} hex : hex_key hex → @compactToHex E (compact hex) = Ok hex.
Proof.
  intros (l & Hl & [-> | ->]).
  - unfold compact. rewrite hasTerm_nibbles, hex_body_nibbles by done.
    pose proof (compactToHex_of (E := E) false l Hl) as H. rewrite app_nil_r in H. exact H.
  - unfold compact. rewrite hasTerm_snoc, hex_body_snoc.
    exact (compactToHex_of true l Hl).
Qed.

(** The key encodings are inverse: compact form and back for every hex key
    (nibbles with or without the terminator), hex and back for key bytes. *)
Theorem key_roundtrip {E} hex str :
  hex_key hex → bytes_ok str →
  (key ← @hexToCompact E hex; compactToHex key) = Ok hex ∧
  @hexToKeybytes E (keybytesToHex str) = Ok str.
Proof.
  intros Hh Hs. split.
  - rewrite hexToCompact_compact. by apply compactToHex_compact.
  - unfold hexToKeybytes, keybytesToHex. change (concat _) with (unpack str).
    rewrite hasTerm_snoc, length_app, Nat.add_sub, take_app_length.
    pose proof (unpack_length str) as Hl.
    assert (Ho : Nat.odd (length (unpack str)) = false).
    { rewrite Hl, <- Nat.negb_even. apply negb_false_iff, Nat.even_spec. eexists; done. }
    replace (Z.land (len (unpack str)) 1 =? 0) with true.
    + exact (eq_trans (decodeNibbles_fill (unpack str) [] Ho) (f_equal Ok (pack_unpack str Hs))).
    + pose proof (land_1_odd (length (unpack str))) as H. rewrite Ho in H. zb.
      assert (HL : Z.land (len (unpack str)) 1 = len (unpack str) mod 2)
        by exact (Z.land_ones _ 1 ltac:(lia)).
      rewrite HL in *. symmetry. apply Z.eqb_eq.
      pose proof (Z.mod_pos_bound (len (unpack str)) 2). lia.
Qed.

Lemma key_roundtrip_witness :
  (key ← @hexToCompact unit [15; 1; 12; 16]; compactToHex key) = Ok [15; 1; 12; 16] ∧
  @hexToKeybytes unit (keybytesToHex [0xAB; 0x01]) = Ok [0xAB; 0x01].
Proof.
  apply key_roundtrip; [| solve_bytes]. exists [15; 1; 12]. split; [| by right].
  repeat constructor; by vm_compute.
Defined.
