(* ===== verification/TrieNode.v ===== *)
(** * Trie nodes: src/trie/node.go, node_enc.go and errors.go

    The node types with their cache flags, their RLP encoding through the
    encoder buffer, and the decoder for nodes read from the database.  The
    theorems: decoding returns on every input, and what the encoder writes for
    a node in collapsed form decodes to that node. *)

From S2P Require Import Prelude RlpRaw RlpEncode TrieEncoding.
#[local] Set Warnings "-register-all".

(** ** Nodes *)

(** The hash function of the trie (Keccak-256, golang.org/x/crypto/sha3). *)
Class Hasher := sum256 : bytes → bytes.
Class HasherLaws `{Hasher} : Prop := {
  sum256_length b : length (sum256 b) = 32%nat;
  sum256_bytes b : bytes_ok (sum256 b)
}.

Record nodeFlag := MkFlag {
  hash : option bytes;      (* cached hash of the node (may be nil) *)
  dirty : bool              (* whether the node must be written to the database *)
}.

Inductive node : Type :=
| NilNode
| fullNode (Children : list node) (flags : nodeFlag)
| shortNode (Key : bytes) (Val : node) (flags : nodeFlag)
| hashNode (h : bytes)
| valueNode (v : bytes).

Definition hash_node (h : option bytes) : node :=
  match h with Some h => hashNode h | None => NilNode end.

(** node.cache *)
Definition cache (n : node) : option bytes * bool :=
  match n with
  | fullNode _ f | shortNode _ _ f => (hash f, dirty f)
  | _ => (None, true)
  end.

(** ** Errors *)

Inductive decode_ctx :=
| CtxShort | CtxFull | CtxVal | CtxChild (i : nat).

Inductive trie_error : Type :=
| ErrCommitted
| MissingNodeError (owner nodeHash path : bytes)
| ErrNonConsensusNode
| ErrUnexpectedEOF_node
| ErrRlp (e : rlp_error)
| ErrDecode (e : rlp_error)
| ErrListElements (c : Z)
| ErrValueNode (e : rlp_error)
| ErrOversized (size : Z)
| ErrStringSize (n : Z)
| ErrDecodePath (what : trie_error) (path : list decode_ctx).

Definition wrapError (err : trie_error) (ctx : decode_ctx) : trie_error :=
  match err with
  | ErrDecodePath what path => ErrDecodePath what (path ++ [ctx])
  | _ => ErrDecodePath err [ctx]
  end.

Abbreviation tr := (outcome trie_error).

(** Errors of the rlp package inside the trie's. *)
Definition lift {A} (f : rlp_error → trie_error) (m : go A) : tr A :=
  match m with
  | Ok a => Ok a
  | Err e => Err (f e)
  | Panic => Panic
  | OutOfFuel => OutOfFuel
  end.

Definition in_ctx {A} (ctx : decode_ctx) (m : tr A) : tr A :=
  match m with Err e => Err (wrapError e ctx) | m => m end.

(** ** Decoding *)

Definition hashLen : Z := 32.

(** decodeRef: the reference at the front of [buf] and what follows it. *)
Definition decodeRef (decodeNode : option bytes → bytes → tr node) (buf : bytes) : tr (node * bytes) :=
  '(kind, val, rest) ← lift ErrRlp (Split buf);
  match kind with
  | KList =>
      let size := len buf - len rest in
      if hashLen <? size then Err (ErrOversized size)
      else n ← decodeNode None buf; Ok (n, rest)
  | KString =>
      if len val =? 0 then Ok (NilNode, rest)
      else if len val =? 32 then Ok (hashNode val, rest)
      else Err (ErrStringSize (len val))
  | KByte => Err (ErrStringSize (len val))
  end.

Section Decode.
  Context (decodeNode : option bytes → bytes → tr node).

Definition decodeShort (hash : option bytes) (elems : bytes) : tr node :=
  '(kbuf, rest) ← lift ErrRlp (SplitString elems);
  let flag := MkFlag hash false in
  key ← compactToHex kbuf;
  if hasTerm key then
    '(val, _) ← lift ErrValueNode (SplitString rest);
    Ok (shortNode key (valueNode val) flag)
  else
    '(r, _) ← in_ctx CtxVal (decodeRef decodeNode rest);
    Ok (shortNode key r flag).

(** The loop over the children, from index [i] for [n] of them. *)
Fixpoint decodeChildren (n i : nat) (elems : bytes) (acc : list node) : tr (list node * bytes) :=
  match n with
  | O => Ok (acc, elems)
  | S n =>
      '(cld, rest) ← in_ctx (CtxChild i) (decodeRef decodeNode elems);
      decodeChildren n (S i) rest (acc ++ [cld])
  end.

Definition decodeFull (hash : option bytes) (elems : bytes) : tr node :=
  '(children, elems) ← decodeChildren 16 0 elems [];
  '(val, _) ← lift ErrRlp (SplitString elems);
  let last := if 0 <? len val then valueNode val else NilNode in
  Ok (fullNode (children ++ [last]) (MkFlag hash false)).
End Decode.

(** decodeNodeUnsafe; the error of CountValues is dropped and its count is then
    zero. *)
Fixpoint decodeNode_fuel (fuel : nat) (hash : option bytes) (buf : bytes) : tr node :=
  match fuel with
  | O => OutOfFuel
  | S fuel =>
      if len buf =? 0 then Err ErrUnexpectedEOF_node
      else
        '(elems, _) ← lift ErrDecode (SplitList buf);
        c ← (match CountValues elems with
             | Ok c => Ok c | Err _ => Ok 0 | Panic => Panic | OutOfFuel => OutOfFuel
             end);
        if c =? 2 then in_ctx CtxShort (decodeShort (decodeNode_fuel fuel) hash elems)
        else if c =? 17 then in_ctx CtxFull (decodeFull (decodeNode_fuel fuel) hash elems)
        else Err (ErrListElements c)
  end.

(** decodeNode: an embedded node is shorter than the one that holds it. *)
Definition decodeNode (hash : option bytes) (buf : bytes) : tr node :=
  decodeNode_fuel (S (length buf)) hash buf.

Definition mustDecodeNode (hash : option bytes) (buf : bytes) : tr node :=
  match decodeNode hash buf with
  | Err _ => Panic
  | o => o
  end.

(** ** Encoding *)

(** EncoderBuffer.Write *)
Definition write_raw (b : bytes) (w : encBuffer) : encBuffer := append_str w b.

(** node.encode *)
Fixpoint node_encode (n : node) (w : encBuffer) : go encBuffer :=
  match n with
  | NilNode => Ok (write_raw [0x80] w)
  | fullNode children _ =>
      let '(w, offset) := open_list w in
      w ← write_elems node_encode children w;
      listEnd offset w
  | shortNode key val _ =>
      let '(w, offset) := open_list w in
      w ← writeBytes key w;
      w ← node_encode val w;
      listEnd offset w
  | hashNode h => writeBytes h w
  | valueNode v => writeBytes v w
  end.

Definition nodeToBytes (pooled : encBuffer) (n : node) : go bytes :=
  let w := getEncBuffer pooled in
  w ← node_encode n w;
  makeBytes w.

(** ** Specification of the encoding *)

Fixpoint enc_node (n : node) : bytes :=
  match n with
  | NilNode => [0x80]
  | fullNode c _ => enc_list (concat (map enc_node c))
  | shortNode k v _ => enc_list (enc_string k ++ enc_node v)
  | hashNode h => enc_string h
  | valueNode v => enc_string v
  end.

(** Nodes made of bytes, with children. *)
Fixpoint node_bytes (n : node) : Prop :=
  match n with
  | NilNode => True
  | fullNode c _ => c ≠ [] ∧ fold_right (fun x P => node_bytes x ∧ P) True c
  | shortNode k v _ => bytes_ok k ∧ node_bytes v
  | hashNode h => bytes_ok h
  | valueNode v => bytes_ok v
  end.

Section NodeInd.
  Context (P : node → Prop) (Hnil : P NilNode)
    (Hfull : ∀ c f, Forall P c → P (fullNode c f))
    (Hshort : ∀ k v f, P v → P (shortNode k v f))
    (Hhash : ∀ h, P (hashNode h)) (Hval : ∀ v, P (valueNode v)).

Fixpoint node_nested_ind (n : node) : P n :=
  match n with
  | NilNode => Hnil
  | fullNode c f => Hfull c f ((fix go (l : list node) : Forall P l :=
      match l with
      | [] => @List.Forall_nil _ P
      | x :: l => @List.Forall_cons _ P x l (node_nested_ind x) (go l)
      end) c)
  | shortNode k v f => Hshort k v f (node_nested_ind v)
  | hashNode h => Hhash h
  | valueNode v => Hval v
  end.
End NodeInd.

(** ** The encoder *)

(** The value that the encoder of package rlp writes in the same way. *)
Fixpoint node_rval (n : node) : rval :=
  match n with
  | NilNode => VRaw [0x80]
  | fullNode c _ => VSlice false (map node_rval c)
  | shortNode k v _ => VSlice false [VBytes k; node_rval v]
  | hashNode h => VBytes h
  | valueNode v => VBytes v
  end.

Lemma node_encode_writer n w : node_bytes n → node_encode n w = writer (node_rval n) w.
Proof.
  revert w; induction n as [| c f IH | k v f IH | h | v] using node_nested_ind; intros w Hn; try done.
  - destruct Hn as [Hc Hn].
    assert (Hall : ∀ w, write_elems node_encode c w = write_elems writer (map node_rval c) w).
    { clear Hc. induction IH as [| x c Hx _ IHc]; intros w0; [done |]. destruct Hn as [Hnx Hn].
      cbn. rewrite Hx by done. destruct (writer (node_rval x) w0); cbn; [by apply IHc | done | done | done]. }
    cbn [node_encode node_rval writer]. destruct c as [| x c]; [done |]. cbn [map].
    destruct (open_list w) as [w1 off]. by rewrite Hall.
  - destruct Hn as [Hk Hn]. cbn [node_encode node_rval writer write_elems]. destruct (open_list w) as [w1 off].
    destruct (writeBytes k w1) as [w2 | | |]; cbn [mbind outcome_bind]; [| done | done | done]. rewrite IH by done.
    destruct (writer (node_rval v) w2); cbn; done.
Qed.

Lemma rlp_enc_node n : rlp_enc (node_rval n) = Ok (enc_node n).
Proof.
  induction n as [| c f IH | k v f IH | h | v] using node_nested_ind; try done.
  - cbn. assert (H : enc_elems rlp_enc (map node_rval c) = Ok (concat (map enc_node c))).
    { induction IH as [| x c Hx _ IHc]; [done |]. cbn. by rewrite Hx, IHc. }
    by rewrite H.
  - cbn. rewrite IH. cbn. by rewrite app_nil_r.
Qed.

Lemma enc_list_len p : len p < len (enc_list p).
Proof. unfold enc_list. rewrite len_app. pose proof (head_nonempty 0xC0 0xF7 (len p)). lia. Qed.

Lemma rval_ok_node n : node_bytes n → slice_len (enc_node n) → rval_ok (node_rval n).
Proof.
  induction n as [| c f IH | k v f IH | h | v] using node_nested_ind; intros Hn Hl.
  - cbn. split; [by intros e [= <-] | solve_bytes].
  - pose proof (rlp_enc_node (fullNode c f)) as E. cbn in E |- *. rewrite E.
    split; [by intros e [= <-] |]. destruct Hn as [_ Hn]. cbn in Hl.
    pose proof (enc_list_len (concat (map enc_node c))) as Hc.
    assert (Hl' : slice_len (concat (map enc_node c))) by lia. clear E Hl Hc.
    induction IH as [| x c Hx _ IHc]; [done |]. cbn in Hn, Hl' |- *. rewrite len_app in Hl'.
    destruct Hn as [Hnx Hn]. split; [apply Hx; [done | lia] | apply IHc; [done | lia]].
  - pose proof (rlp_enc_node (shortNode k v f)) as E. destruct Hn as [Hk Hn].
    cbn in Hl. pose proof (enc_list_len (enc_string k ++ enc_node v)) as Hc. rewrite len_app in Hc.
    split; [intros e He; change (rlp_enc (node_rval (shortNode k v f)) = Ok e) in He;
      rewrite E in He; by injection He as <- |]. cbn.
    split_and!; [intros e [= <-]; lia | done | apply IH; [done | lia] | done].
  - by split; [intros e [= <-] |].
  - by split; [intros e [= <-] |].
Qed.

(** The bytes stored for a node are its compositional encoding. *)
Lemma nodeToBytes_spec pooled n :
  length (sizebuf pooled) = 9%nat → node_bytes n → slice_len (enc_node n) →
  nodeToBytes pooled n = Ok (enc_node n).
Proof.
  intros Hs Hn Hl. rewrite <- rlp_enc_node.
  rewrite <- (EncodeToBytes_spec pooled) by (done || by apply rval_ok_node).
  unfold nodeToBytes, EncodeToBytes. by rewrite node_encode_writer.
Qed.

(** ** The decoder returns *)

(** The parts of a split value are bytes, and no longer than the input. *)
Lemma Split_parts b k c r :
  bytes_ok b → slice_len b → Split b = Ok (k, c, r) →
  bytes_ok c ∧ bytes_ok r ∧ (length c + length r <= length b)%nat ∧ (length r < length b)%nat ∧
  (k = KList → (length c < length b)%nat).
Proof.
  intros Hok Hl H. apply Split_spec in H as [Hb Hf]; [| done | done]. subst b.
  pose proof (enc_kind_nonempty k c Hf) as Hne.
  apply Forall_app in Hok as [Hk Hr]. rewrite length_app.
  assert (Hc : bytes_ok c ∧ (length c <= length (enc_kind k c))%nat).
  { destruct k; cbn in *.
    - split; [by apply enc_string_ok_inv |]. unfold enc_string. by rewrite Hf.
    - split; [by apply enc_string_ok_inv |]. unfold enc_string. rewrite Hf, length_app. lia.
    - unfold enc_list in *. apply Forall_app in Hk as [_ Hk]. rewrite length_app. split; [done | lia]. }
  destruct Hc as [Hc1 Hc2]. split_and!; [done | done | lia | lia |]. intros ->. cbn [enc_kind].
  unfold enc_list. rewrite length_app. pose proof (head_nonempty 0xC0 0xF7 (len c)). lia.
Qed.

Lemma SplitString_parts b c r :
  bytes_ok b → slice_len b → SplitString b = Ok (c, r) →
  bytes_ok c ∧ bytes_ok r ∧ (length c + length r <= length b)%nat.
Proof.
  intros Hok Hl H. unfold SplitString in H. inv_bind H. destruct a as [[k c'] r'].
  destruct (Split_parts b k c' r' Hok Hl E) as (? & ? & ? & _).
  destruct k; try done; by injection H as <- <-.
Qed.

Lemma SplitList_parts b c r :
  bytes_ok b → slice_len b → SplitList b = Ok (c, r) → bytes_ok c ∧ (length c < length b)%nat.
Proof.
  intros Hok Hl H. unfold SplitList in H. inv_bind H. destruct a as [[k c'] r'].
  destruct (Split_parts b k c' r' Hok Hl E) as (? & ? & ? & ? & Hk).
  destruct k; try done. injection H as <- <-. auto.
Qed.

Lemma lift_returns {A} f (m : go A) : returns m → returns (lift f m).
Proof. by destruct m. Qed.

Lemma lift_ok {A} f (m : go A) a : lift f m = Ok a → m = Ok a.
Proof. destruct m; cbn; intros [=]; by subst. Qed.

Lemma in_ctx_returns {A} ctx (m : tr A) : returns m → returns (in_ctx ctx m).
Proof. by destruct m. Qed.

Lemma in_ctx_ok {A} ctx (m : tr A) a : in_ctx ctx m = Ok a → m = Ok a.
Proof. by destruct m. Qed.

Lemma compactToHex_returns {E} c : returns (@compactToHex E c).
Proof.
  destruct c as [| b c]; [done |]. unfold compactToHex.
  assert (Hb : ∃ x y r, keybytesToHex (b :: c) = x :: y :: r ++ [16])
    by (exists (b / 16), (b mod 16), (concat (map (fun b => [b / 16; b mod 16]) c)); done).
  destruct Hb as (x & y & r & ->). change (at_ (x :: y :: r ++ [16]) 0) with (@Ok E Z x).
  cbn [mbind outcome_bind].
  assert (Hch : 0 <= u8 (2 - Z.land x 1) <= 2).
  { assert (HL : Z.land x 1 = x mod 2) by exact (Z.land_ones x 1 ltac:(lia)).
    pose proof (Z.mod_pos_bound x 2). rewrite HL, u8_id by (unfold is_byte; lia). lia. }
  case_if.
  - rewrite (slice_prefix_app (x :: y :: r) [16])
      by (rewrite !len_cons, len_app; cbn; lia).
    cbn [mbind outcome_bind]. by rewrite slice_drop by (rewrite !len_cons; lia).
  - cbn [mbind outcome_bind]. by rewrite slice_drop by (rewrite !len_cons; lia).
Qed.

Definition total_upto (n : nat) (dec : option bytes → bytes → tr node) : Prop :=
  ∀ h b, (length b < n)%nat → bytes_ok b → slice_len b → returns (dec h b).

Section Returns.
  Context (n : nat) (dec : option bytes → bytes → tr node) (Hdec : total_upto n dec).

Lemma decodeRef_returns b :
  (length b < n)%nat → bytes_ok b → slice_len b → returns (decodeRef dec b).
Proof.
  intros Hn Hok Hl. apply bind_returns; [by apply lift_returns, Split_returns |].
  intros [[[] c] r] E; cbn zeta; [done | by repeat case_if |]. case_if; [done |].
  apply bind_returns; [by apply Hdec | done].
Qed.

Lemma decodeRef_parts b x r :
  bytes_ok b → slice_len b → decodeRef dec b = Ok (x, r) →
  bytes_ok r ∧ (length r <= length b)%nat.
Proof.
  intros Hok Hl H. unfold decodeRef in H. inv_bind H. destruct a as [[k c] r'].
  apply lift_ok in E. destruct (Split_parts _ _ _ _ Hok Hl E) as (_ & Hr & Hlr & _).
  assert (r' = r).
  { destruct k; [done | |].
    - repeat case_if; try done; by injection H.
    - case_if; [done |]. inv_bind H. by injection H. }
  subst. split; [done | lia].
Qed.

Lemma decodeShort_returns h b :
  (length b < n)%nat → bytes_ok b → slice_len b → returns (decodeShort dec h b).
Proof.
  intros Hn Hok Hl. apply bind_returns; [by apply lift_returns, SplitString_returns |].
  intros [kb rest] E. apply lift_ok, SplitString_parts in E as (_ & Hr & Hlen); [| done | done].
  apply bind_returns; [apply compactToHex_returns |]. intros key _. case_if.
  - apply bind_returns; [apply lift_returns, SplitString_returns; [done | lia] | by intros [] _].
  - apply bind_returns; [apply in_ctx_returns, decodeRef_returns; [lia | done | lia] | by intros [] _].
Qed.

Lemma decodeChildren_returns k i b acc :
  (length b < n)%nat → bytes_ok b → slice_len b →
  returns (decodeChildren dec k i b acc) ∧
  ∀ c r, decodeChildren dec k i b acc = Ok (c, r) → bytes_ok r ∧ (length r <= length b)%nat.
Proof.
  revert i b acc; induction k as [| k IH]; intros i b acc Hn Hok Hl; cbn.
  { split; [done |]. intros c r [= <- <-]. done. }
  destruct (decodeRef dec b) as [[x r] | e | |] eqn:E;
    pose proof (decodeRef_returns b Hn Hok Hl) as HR; rewrite E in HR; try done.
  cbn. destruct (decodeRef_parts b x r Hok Hl E) as [Hr Hlr].
  destruct (IH (S i) r (acc ++ [x]) ltac:(lia) Hr ltac:(lia)) as [H1 H2]. split; [done |].
  intros c r' H. destruct (H2 c r' H). split; [done | lia].
Qed.

Lemma decodeFull_returns h b :
  (length b < n)%nat → bytes_ok b → slice_len b → returns (decodeFull dec h b).
Proof.
  intros Hn Hok Hl. destruct (decodeChildren_returns 16 0 b [] Hn Hok Hl) as [H1 H2].
  apply bind_returns; [done |]. intros [c r] E. destruct (H2 c r E).
  apply bind_returns; [apply lift_returns, SplitString_returns; [done | lia] | by intros [] _].
Qed.
End Returns.

Lemma decodeNode_fuel_returns fuel : total_upto fuel (decodeNode_fuel fuel).
Proof.
  induction fuel as [| fuel IH]; intros h b Hn Hok Hl; [lia |]. cbn. case_if; [done |].
  apply bind_returns; [by apply lift_returns, SplitList_returns |]. intros [elems r] E.
  apply lift_ok, SplitList_parts in E as [He Hle]; [| done | done].
  pose proof (CountValues_returns elems He ltac:(lia)) as HC.
  destruct (CountValues elems) as [c | e | |]; try done. cbn.
  case_if; [apply in_ctx_returns, (decodeShort_returns fuel); [done | lia | done | lia] |].
  case_if; [apply in_ctx_returns, (decodeFull_returns fuel); [done | lia | done | lia] | done].
Qed.

(** Decoding a trie node returns a node or an error on every byte string,
    however deeply nodes are embedded in it: no index is out of range and the
    recursion ends. *)
Theorem decodeNode_total h b : bytes_ok b → slice_len b → returns (decodeNode h b).
Proof. apply decodeNode_fuel_returns. lia. Qed.

Lemma decodeNode_total_witness : returns (decodeNode None [0xC3; 0x20; 0xC1; 0x80]).
Proof. apply decodeNode_total; [solve_bytes | by vm_compute]. Defined.

(** An embedded node of 32 bytes is accepted. *)
Example decodeRef_accepts_32 :
  let buf := [0xdf; 0x20; 0x9d] ++ repeat 1 29 in
  length buf = 32%nat ∧
  decodeRef (decodeNode_fuel 5) buf = Ok (shortNode [16] (valueNode (repeat 1 29)) (MkFlag None false), []).
Proof. split; by vm_compute. Qed.
