(* ===== verification/TrieSpec.v ===== *)
(** * The abstract trie

    A fully loaded trie without cache flags ([tree]), the form the operations
    keep it in ([wf]: the reduced form the comments of src/trie/trie.go
    describe), and the map from terminated hex keys to values it stands for
    ([tget]).  The form is canonical: a map has one tree, so a trie does not
    depend on the order of the updates that built it. *)

From S2P Require Import Prelude TrieEncoding.
#[local] Set Warnings "-register-all".

Inductive tree : Type :=
| TNil
| TFull (c : list tree)
| TShort (k : bytes) (t : tree)
| TVal (v : bytes).

(** Slices this long do not exist; the bound keeps every encoding of a node
    within the range of a Go slice. *)
Abbreviation small b := (len b < 2 ^ 56).

Abbreviation nibbles k := (Forall is_nibble k).

(** Hex keys of values end with the terminator. *)
Definition tkey (key : bytes) : Prop := ∃ l, nibbles l ∧ key = l ++ [16].

Definition value_ok (v : bytes) : Prop := v ≠ [] ∧ bytes_ok v ∧ small v.

(** The reduced form: an extension leads to a branch, a branch has at least two
    children, the seventeenth child is a value. *)
Inductive wf : tree → Prop :=
| wf_leaf k v : nibbles k → value_ok v → wf (TShort (k ++ [16]) (TVal v))
| wf_ext k c : nibbles k → k ≠ [] → wf (TFull c) → wf (TShort k (TFull c))
| wf_full c :
    length c = 17%nat →
    (∀ i t, c !! i = Some t → (i < 16)%nat → t ≠ TNil → wf t) →
    (∀ t, c !! 16%nat = Some t → t ≠ TNil → ∃ v, t = TVal v ∧ value_ok v) →
    (∃ i j ti tj, i ≠ j ∧ c !! i = Some ti ∧ ti ≠ TNil ∧ c !! j = Some tj ∧ tj ≠ TNil) →
    wf (TFull c).

#[export] Instance tnil_dec t : Decision (t = TNil).
Proof. by destruct t; [left | right | right | right]. Defined.

Fixpoint tget (t : tree) (key : bytes) : option bytes :=
  match t with
  | TNil => None
  | TVal v => match key with [] => Some v | _ => None end
  | TShort k t => if decide (take (length k) key = k) then tget t (drop (length k) key) else None
  | TFull c =>
      match key with
      | [] => None
      | i :: key => nth (Z.to_nat i) (map (fun t => tget t) c) (fun _ => None) key
      end
  end.

(** The tree of a trie is empty or in reduced form. *)
Definition wf_root (t : tree) : Prop := t = TNil ∨ wf t.

(** ** Reading *)

Lemma tget_full c i key :
  tget (TFull c) (i :: key) = match c !! Z.to_nat i with Some t => tget t key | None => None end.
Proof.
  cbn. generalize (Z.to_nat i) as n. intros n. revert n.
  induction c as [| t c IH]; intros [| n]; cbn; try done.
Qed.

Lemma tget_short k t key : tget (TShort k t) (k ++ key) = tget t key.
Proof. cbn. rewrite take_app_length, drop_app_length. by rewrite decide_True. Qed.

Lemma tget_short_Some k t key v :
  tget (TShort k t) key = Some v → ∃ key', key = k ++ key' ∧ tget t key' = Some v.
Proof.
  cbn. case_decide as H; [| done]. intros Hv. exists (drop (length k) key). split; [| done].
  rewrite <- H at 1. by rewrite take_drop.
Qed.

Lemma tget_full_Some c key v :
  tget (TFull c) key = Some v →
  ∃ i key' t, key = i :: key' ∧ c !! Z.to_nat i = Some t ∧ tget t key' = Some v.
Proof.
  destruct key as [| i key]; [done |]. rewrite tget_full.
  destruct (c !! Z.to_nat i) as [t |] eqn:E; [| done]. eauto 10.
Qed.

Lemma tkey_cons i key : is_nibble i → tkey key → tkey (i :: key).
Proof. intros Hi (l & Hl & ->). exists (i :: l). split; [by constructor | done]. Qed.

Lemma tkey_app k key : nibbles k → tkey key → tkey (k ++ key).
Proof. intros Hk (l & Hl & ->). exists (k ++ l). rewrite app_assoc. split; [by apply Forall_app | done]. Qed.

Lemma tkey_nonempty key : tkey key → key ≠ [].
Proof. intros (l & _ & ->) H. by apply app_eq_nil in H as [_ ?]. Qed.

Lemma tkey_cons_inv i key : tkey (i :: key) → (i = 16 ∧ key = []) ∨ (is_nibble i ∧ tkey key).
Proof.
  intros ([| x l] & Hl & E); cbn in E; injection E as -> ->; [by left |].
  apply Forall_cons in Hl as [? ?]. right. split; [done | by exists l].
Qed.

Lemma nibble_index n : (n < 16)%nat → is_nibble (Z.of_nat n).
Proof. unfold is_nibble. lia. Qed.

(** No terminated key is a proper prefix of another. *)
Lemma tkey_prefix_free k1 k2 r1 r2 : nibbles k1 → nibbles k2 →
  k1 ++ 16 :: r1 = k2 ++ 16 :: r2 → k1 = k2 ∧ r1 = r2.
Proof.
  revert k2; induction k1 as [| x k1 IH]; intros [| y k2] H1 H2 E; cbn in E.
  - by injection E.
  - apply Forall_cons in H2 as [H2 _]. unfold is_nibble in H2. injection E as <- _. lia.
  - apply Forall_cons in H1 as [H1 _]. unfold is_nibble in H1. injection E as -> _. lia.
  - apply Forall_cons in H1 as [_ H1], H2 as [_ H2]. injection E as <- E.
    destruct (IH k2 H1 H2 E) as [-> ->]. done.
Qed.

Lemma tget_leaf k v key : tget (TShort (k ++ [16]) (TVal v)) key = if decide (key = k ++ [16]) then Some v else None.
Proof.
  case_decide as H.
  - subst. rewrite <- (app_nil_r (k ++ [16])) at 2. apply tget_short.
  - destruct (tget _ key) as [v' |] eqn:E; [| done].
    apply tget_short_Some in E as (key' & -> & E). cbn in E. destruct key'; [| done].
    by rewrite app_nil_r in H.
Qed.

(** Every tree in reduced form holds a value. *)
Lemma wf_inhabited t : wf t → ∃ key v, tkey key ∧ tget t key = Some v.
Proof.
  induction 1 as [k v Hk Hv | k c Hk Hne Hw (key & v & Hkey & Hv)
    | c Hlen Hch IH Hval (i & j & ti & tj & Hij & Hi & Hti & _)].
  - exists (k ++ [16]), v. split; [by exists k |]. rewrite tget_leaf. by rewrite decide_True.
  - exists (k ++ key), v. split; [by apply tkey_app |]. by rewrite tget_short.
  - assert (Hi17 : (i < 17)%nat) by (rewrite <- Hlen; by eapply lookup_lt_Some).
    destruct (decide (i < 16)%nat) as [Hlt | Hge].
    + destruct (IH i ti Hi Hlt Hti) as (key & v & Hkey & Hv). exists (Z.of_nat i :: key), v.
      split; [apply tkey_cons; [by apply nibble_index | done] |].
      by rewrite tget_full, Nat2Z.id, Hi.
    + replace i with 16%nat in * by lia. destruct (Hval ti Hi Hti) as (v & -> & _).
      exists [16], v. split; [by exists [] |]. by rewrite tget_full, (Hi : c !! Z.to_nat 16 = _).
Qed.

Lemma wf_full_child c i t :
  wf (TFull c) → c !! i = Some t → t = TNil ∨ (wf t ∧ (i < 16)%nat) ∨ ∃ v, t = TVal v ∧ value_ok v ∧ i = 16%nat.
Proof.
  intros Hw Hi. inversion Hw as [| | ? Hlen Hch Hval _]; subst.
  assert (Hi17 : (i < 17)%nat) by (rewrite <- Hlen; by eapply lookup_lt_Some).
  destruct (decide (t = TNil)) as [-> | Ht]; [by left | right].
  destruct (decide (i < 16)%nat); [left; eauto | right]. replace i with 16%nat in * by lia.
  destruct (Hval t Hi Ht) as (v & -> & Hv). eauto.
Qed.

Lemma wf_child_key c i t :
  wf (TFull c) → c !! i = Some t → t ≠ TNil →
  ∃ key v, tkey (Z.of_nat i :: key) ∧ tget (TFull c) (Z.of_nat i :: key) = Some v.
Proof.
  intros Hw Hi Ht. inversion Hw as [| | ? Hlen Hch Hval _]; subst.
  assert (Hi17 : (i < 17)%nat) by (rewrite <- Hlen; by eapply lookup_lt_Some).
  destruct (decide (i < 16)%nat) as [Hlt | Hge].
  - destruct (wf_inhabited t (Hch i t Hi Hlt Ht)) as (key & v & Hkey & Hv). exists key, v.
    split; [apply tkey_cons; [by apply nibble_index | done] |].
    by rewrite tget_full, Nat2Z.id, Hi.
  - replace i with 16%nat in * by lia. destruct (Hval t Hi Ht) as (v & -> & _).
    exists [], v. split; [by exists [] |]. by rewrite tget_full, Nat2Z.id, Hi.
Qed.

(** A branch holds keys that differ in their first nibble. *)
Lemma wf_full_two c :
  wf (TFull c) → ∃ i j k1 k2 v1 v2, i ≠ j ∧ tkey (i :: k1) ∧ tkey (j :: k2) ∧
    tget (TFull c) (i :: k1) = Some v1 ∧ tget (TFull c) (j :: k2) = Some v2.
Proof.
  intros Hw. inversion Hw as [| | ? Hlen Hch Hval (i & j & ti & tj & Hij & Hi & Hti & Hj & Htj)]; subst.
  destruct (wf_child_key c i ti Hw Hi Hti) as (k1 & v1 & ? & ?).
  destruct (wf_child_key c j tj Hw Hj Htj) as (k2 & v2 & ? & ?).
  exists (Z.of_nat i), (Z.of_nat j), k1, k2, v1, v2. split_and!; try done. lia.
Qed.

Abbreviation same_map t1 t2 := (∀ key, tkey key → tget t1 key = tget t2 key).

Lemma leaf_not_branching k v t2 key1 key2 v1 v2 :
  same_map (TShort (k ++ [16]) (TVal v)) t2 → key1 ≠ key2 → tkey key1 → tkey key2 →
  tget t2 key1 = Some v1 → tget t2 key2 = Some v2 → False.
Proof.
  intros Hs Hne Hk1 Hk2 H1 H2. rewrite <- (Hs _ Hk1), tget_leaf in H1. rewrite <- (Hs _ Hk2), tget_leaf in H2.
  case_decide; [| done]. case_decide; [| done]. congruence.
Qed.

(** An extension of a branch fixes the common prefix of its keys. *)
Lemma ext_prefix_le k c k' t' :
  nibbles k → wf (TFull c) → same_map (TShort k (TFull c)) (TShort k' t') → ∃ r, k = k' ++ r.
Proof.
  intros Hk Hw Hs. destruct (wf_full_two c Hw) as (i & j & k1 & k2 & v1 & v2 & Hij & Hki & Hkj & Hi & Hj).
  assert (H1 : tget (TShort k' t') (k ++ i :: k1) = Some v1)
    by (rewrite <- Hs by (by apply tkey_app); by rewrite tget_short).
  assert (H2 : tget (TShort k' t') (k ++ j :: k2) = Some v2)
    by (rewrite <- Hs by (by apply tkey_app); by rewrite tget_short).
  apply tget_short_Some in H1 as (r1 & E1 & _), H2 as (r2 & E2 & _).
  clear -Hij E1 E2. revert k' E1 E2. induction k as [| x k IH]; intros [| y k'] E1 E2; cbn in *.
  - by exists [].
  - exfalso. injection E1 as -> _. injection E2 as -> _. done.
  - by exists (x :: k).
  - injection E1 as <- E1. injection E2 as E2. destruct (IH k' E1 E2) as [r ->]. by exists r.
Qed.

Lemma ext_not_full k c c2 :
  nibbles k → k ≠ [] → wf (TFull c2) → same_map (TShort k (TFull c)) (TFull c2) → False.
Proof.
  intros Hk Hne Hw Hs. destruct (wf_full_two c2 Hw) as (i & j & k1 & k2 & v1 & v2 & Hij & Hki & Hkj & Hi & Hj).
  rewrite <- (Hs _ Hki) in Hi. rewrite <- (Hs _ Hkj) in Hj.
  apply tget_short_Some in Hi as (r1 & E1 & _), Hj as (r2 & E2 & _).
  destruct k as [| x k]; [done |]. injection E1 as -> _. by injection E2 as -> _.
Qed.

Lemma same_map_sym t1 t2 : same_map t1 t2 → same_map t2 t1.
Proof. intros H key Hk. by rewrite H. Qed.

Lemma same_map_child c c2 i t t2 :
  same_map (TFull c) (TFull c2) → (i < 16)%nat → c !! i = Some t → c2 !! i = Some t2 → same_map t t2.
Proof.
  intros Hs Hi H1 H2 key Hkey. specialize (Hs (Z.of_nat i :: key)).
  rewrite !tget_full, !Nat2Z.id, H1, H2 in Hs. apply Hs, tkey_cons; [by apply nibble_index | done].
Qed.

Lemma wf_not_empty t : wf t → same_map t TNil → False.
Proof. intros Hw Hs. destruct (wf_inhabited t Hw) as (key & v & Hk & Hv). by rewrite Hs in Hv. Qed.

Lemma wf_children_eq c c2 :
  wf (TFull c) → wf (TFull c2) → same_map (TFull c) (TFull c2) →
  (∀ i t, c !! i = Some t → (i < 16)%nat → t ≠ TNil → ∀ t2, wf t2 → same_map t t2 → t = t2) → c = c2.
Proof.
  intros Hw1 Hw2 Hs IH. inversion Hw1 as [| | ? Hl1 Hc1 Hv1 _]; subst.
  inversion Hw2 as [| | ? Hl2 Hc2 Hv2 _]; subst. apply list_eq_same_length with (n := 17%nat); [done | done |].
  intros i t t2 Hi H1 H2. destruct (decide (i < 16)%nat) as [Hlt | Hge].
  - pose proof (same_map_child c c2 i t t2 Hs Hlt H1 H2) as Hst.
    destruct (decide (t = TNil)) as [-> | Hn1], (decide (t2 = TNil)) as [-> | Hn2]; try done.
    + destruct (wf_not_empty t2 (Hc2 i t2 H2 Hlt Hn2)). by apply same_map_sym.
    + destruct (wf_not_empty t (Hc1 i t H1 Hlt Hn1)). done.
    + apply (IH i t H1 Hlt Hn1); [by apply (Hc2 i) | done].
  - replace i with 16%nat in * by lia.
    assert (H16 : tget t [] = tget t2 []).
    { specialize (Hs [16] ltac:(by exists [])). by rewrite !tget_full, (H1 : c !! Z.to_nat 16 = _),
        (H2 : c2 !! Z.to_nat 16 = _) in Hs. }
    destruct (decide (t = TNil)) as [-> | Hn1], (decide (t2 = TNil)) as [-> | Hn2]; try done.
    + by destruct (Hv2 t2 H2 Hn2) as (v & -> & _).
    + by destruct (Hv1 t H1 Hn1) as (v & -> & _).
    + destruct (Hv1 t H1 Hn1) as (v & -> & _), (Hv2 t2 H2 Hn2) as (v2 & -> & _). by injection H16 as ->.
Qed.

Lemma wf_canonical t1 : wf t1 → ∀ t2, wf t2 → same_map t1 t2 → t1 = t2.
Proof.
  induction 1 as [k v Hk Hv | k c Hk Hne Hw IH | c Hlen Hch IH Hval Htwo]; intros t2 Hw2 Hsame.
  - destruct Hw2 as [k2 v2 Hk2 Hv2 | k2 c2 Hk2 Hne2 Hw2 | c2 Hlen2 Hch2 Hval2 Htwo2].
    + specialize (Hsame (k ++ [16]) ltac:(by exists k)). rewrite !tget_leaf in Hsame.
      rewrite decide_True in Hsame by done. case_decide as E; [| done].
      apply tkey_prefix_free in E as [-> _]; [| done | done]. by injection Hsame as ->.
    + exfalso. destruct (wf_full_two c2 Hw2) as (i & j & k1 & k3 & v1 & v2 & Hij & Hki & Hkj & Hi & Hj).
      eapply (leaf_not_branching k v _ (k2 ++ i :: k1) (k2 ++ j :: k3) v1 v2 Hsame);
        [| by apply tkey_app | by apply tkey_app | by rewrite tget_short | by rewrite tget_short].
      intros E. apply app_inv_head in E. by injection E.
    + exfalso. assert (Hw2 : wf (TFull c2)) by by constructor.
      destruct (wf_full_two c2 Hw2) as (i & j & k1 & k3 & v1 & v2 & Hij & Hki & Hkj & Hi & Hj).
      eapply (leaf_not_branching k v _ (i :: k1) (j :: k3) v1 v2 Hsame); try done. by intros [=].
  - destruct Hw2 as [k2 v2 Hk2 Hv2 | k2 c2 Hk2 Hne2 Hw2 | c2 Hlen2 Hch2 Hval2 Htwo2].
    + exfalso. destruct (wf_full_two c Hw) as (i & j & k1 & k3 & v1 & v3 & Hij & Hki & Hkj & Hi & Hj).
      eapply (leaf_not_branching k2 v2 _ (k ++ i :: k1) (k ++ j :: k3) v1 v3 (same_map_sym _ _ Hsame));
        [| by apply tkey_app | by apply tkey_app | by rewrite tget_short | by rewrite tget_short].
      intros E. apply app_inv_head in E. by injection E.
    + destruct (ext_prefix_le k c k2 (TFull c2) Hk Hw Hsame) as [r1 E1].
      destruct (ext_prefix_le k2 c2 k (TFull c) Hk2 Hw2 (same_map_sym _ _ Hsame)) as [r2 E2].
      assert (k = k2).
      { rewrite E2 in E1. rewrite <- app_assoc in E1. rewrite <- (app_nil_r k) in E1 at 1.
        apply app_inv_head in E1. symmetry in E1. apply app_eq_nil in E1 as [-> _].
        by rewrite app_nil_r in E2. }
      clear E1 E2. subst k2. f_equal. apply IH; [done |]. intros key Hkey.
      specialize (Hsame (k ++ key) (tkey_app k key Hk Hkey)). by rewrite !tget_short in Hsame.
    + exfalso. by eapply (ext_not_full k c c2 Hk Hne); [constructor |].
  - assert (Hw : wf (TFull c)) by by constructor.
    destruct Hw2 as [k2 v2 Hk2 Hv2 | k2 c2 Hk2 Hne2 Hw2 | c2 Hlen2 Hch2 Hval2 Htwo2].
    + exfalso. destruct (wf_full_two c Hw) as (i & j & k1 & k3 & v1 & v3 & Hij & Hki & Hkj & Hi & Hj).
      eapply (leaf_not_branching k2 v2 _ (i :: k1) (j :: k3) v1 v3 (same_map_sym _ _ Hsame)); try done.
      by intros [=].
    + exfalso. by eapply (ext_not_full k2 c2 c Hk2 Hne2 Hw), same_map_sym.
    + f_equal. apply wf_children_eq; [done | by constructor | done |].
      intros i t Hi Hlt Hn t2 Hw2 Hst. by apply (IH i t Hi Hlt Hn).
Qed.

(** The keys of a trie are shorter than a bound no slice reaches. *)
Definition bounded (t : tree) : Prop := ∀ key v, tkey key → tget t key = Some v → small key.

Lemma bounded_short k t : wf (TShort k t) → bounded (TShort k t) → small k ∧ (wf t → bounded t).
Proof.
  intros Hw Hb. split.
  - destruct (wf_inhabited _ Hw) as (key & v & Hk & Hv). pose proof (Hb key v Hk Hv) as Hs.
    apply tget_short_Some in Hv as (r & -> & _). rewrite len_app in Hs. lia.
  - intros Hwt key v Hk Hv. inversion Hw as [| ? c Hkn |]; subst; [by inversion Hwt |].
    specialize (Hb (k ++ key) v (tkey_app k key Hkn Hk)). rewrite tget_short, len_app in Hb.
    specialize (Hb Hv). lia.
Qed.

Lemma bounded_child c i t : bounded (TFull c) → c !! i = Some t → (i < 16)%nat → bounded t.
Proof.
  intros Hb Hi Hlt key v Hk Hv. specialize (Hb (Z.of_nat i :: key) v).
  rewrite tget_full, Nat2Z.id, Hi, len_cons in Hb.
  specialize (Hb (tkey_cons _ _ (nibble_index i Hlt) Hk) Hv). lia.
Qed.

Lemma wf_root_canonical t1 t2 : wf_root t1 → wf_root t2 → same_map t1 t2 → t1 = t2.
Proof.
  intros [-> | H1] [-> | H2] Hs; [done | | | by apply wf_canonical].
  - by destruct (wf_not_empty t2 H2 (same_map_sym _ _ Hs)).
  - by destruct (wf_not_empty t1 H1 Hs).
Qed.
