(* ===== verification/TrieUpdate.v ===== *)
(** * Updates of abstract tries

    How setting and removing the value under a key changes an abstract trie in
    reduced form, as facts about trees: what a split, an update of a child and
    the reduction of a branch do to the map, and that the results are in reduced
    form again. *)

From S2P Require Import Prelude TrieEncoding TrieSpec.

(** ** Keys along the trie *)

(** The rest of a key at a subtrie. *)
Definition fits (t : tree) (rest : bytes) : Prop :=
  (t = TNil ∧ (tkey rest ∨ rest = [])) ∨ (wf t ∧ tkey rest) ∨ (∃ v, t = TVal v ∧ value_ok v ∧ rest = []).

Lemma tkey_suffix k r : nibbles k → tkey (k ++ r) → tkey r.
Proof.
  induction k as [| x k IH]; intros Hk Hr; [done |]. apply Forall_cons in Hk as [Hx Hk].
  apply tkey_cons_inv in Hr as [[-> _] | [_ Hr]]; [unfold is_nibble in Hx; lia | by apply IH].
Qed.

Lemma tkey_suffix_term l r : nibbles l → tkey ((l ++ [16]) ++ r) → r = [].
Proof.
  intros Hl. rewrite <- app_assoc. intros Hr%tkey_suffix; [| done]. cbn in Hr.
  apply tkey_cons_inv in Hr as [[_ ->] | [Hx _]]; [done | unfold is_nibble in Hx; lia].
Qed.

Lemma fits_short k t r : wf (TShort k t) → tkey (k ++ r) → fits t r.
Proof.
  inversion 1 as [l v Hl Hv | ? c Hl Hne Hw |]; subst; intros Hr.
  - right; right. exists v. split_and!; [done | done | by eapply tkey_suffix_term].
  - right; left. split; [done | by eapply tkey_suffix].
Qed.

Lemma fits_child c i r :
  wf (TFull c) → tkey (i :: r) → 0 <= i ∧ (Z.to_nat i < 17)%nat ∧
  ∀ t, c !! Z.to_nat i = Some t → fits t r.
Proof.
  intros Hw Hk. apply tkey_cons_inv in Hk as [[-> ->] | [Hi Hr]].
  - split_and!; [lia | lia |]. intros t Ht. change (Z.to_nat 16) with 16%nat in Ht.
    destruct (wf_full_child c 16 t Hw Ht) as [-> | [[_ ?] | (v & -> & Hv & _)]];
      [left; auto | lia | right; right; eauto].
  - unfold is_nibble in Hi. split_and!; [lia | lia |]. intros t Ht.
    destruct (wf_full_child c _ t Hw Ht) as [-> | [[? _] | (v & -> & Hv & ?)]];
      [left; auto | right; left; auto | lia].
Qed.

Lemma wf_short_nonempty k t : wf (TShort k t) → k ≠ [].
Proof. inversion 1; subst; [| done]. intros E. by apply app_eq_nil in E as [_ ?]. Qed.

(** ** Setting a value *)

(** Keys that belong to the same kind of position. *)
Definition same_sort (key key' : bytes) : Prop := (key = [] ∧ key' = []) ∨ (tkey key ∧ tkey key').

(** [t'] is [t] with the value [v] under [key]; [None] removes it. *)
Definition upd (t t' : tree) (key : bytes) (v : option bytes) : Prop :=
  ∀ key', same_sort key key' → tget t' key' = if decide (key' = key) then v else tget t key'.

Definition is_full (t : tree) : Prop := ∃ c, t = TFull c.

(** What a trie looks like after an insertion at a position for [key]. *)
Definition grown (t t' : tree) (key : bytes) (v : bytes) : Prop :=
  fits t' key ∧ t' ≠ TNil ∧ upd t t' key (Some v) ∧ (is_full t → is_full t').

Lemma fits_wf t key : fits t key → tkey key → t ≠ TNil → wf t.
Proof.
  intros [[? _] | [[? _] | (v & _ & _ & ->)]] Hk Ht; [done | done |]. by apply tkey_nonempty in Hk.
Qed.

Lemma upd_short k tc tc' r v :
  wf (TShort k tc) → tkey (k ++ r) → upd tc tc' r v → upd (TShort k tc) (TShort k tc') (k ++ r) v.
Proof.
  intros Hw Hk Hu key' [[E _] | [_ Hk']]; [by apply tkey_nonempty in Hk |].
  destruct (decide (take (length k) key' = k)) as [E | E].
  - assert (Hkey : key' = k ++ drop (length k) key') by (rewrite <- E at 1; by rewrite take_drop).
    set (r' := drop (length k) key') in *. clearbody r'. clear E. subst key'. rewrite !tget_short, Hu.
    + destruct (decide (r' = r)) as [-> | Hne]; [by rewrite decide_True |].
      rewrite decide_False; [done |]. intros Ha. by apply app_inv_head in Ha.
    + inversion Hw as [l v0 Hl Hv | ? c Hl Hne Hwc |]; subst.
      * left. split; by eapply tkey_suffix_term.
      * right. split; by eapply tkey_suffix.
  - cbn. rewrite !(decide_False (P := take (length k) key' = k)) by done.
    rewrite decide_False; [done |]. intros ->. by rewrite take_app_length in E.
Qed.

Lemma upd_full c i r tc tc' v :
  c !! Z.to_nat i = Some tc → wf (TFull c) → tkey (i :: r) → upd tc tc' r v →
  upd (TFull c) (TFull (<[Z.to_nat i := tc']> c)) (i :: r) v.
Proof.
  intros Hc Hw Hk Hu key' [[E _] | [_ Hk']]; [done |].
  destruct key' as [| j r']; [by apply tkey_nonempty in Hk' |].
  destruct (fits_child c i r Hw Hk) as (Hi & _). destruct (fits_child c j r' Hw Hk') as (Hj & _).
  rewrite !tget_full. destruct (decide (i = j)) as [<- | Hij].
  - rewrite list_lookup_insert_eq, Hc by by eapply lookup_lt_Some. rewrite Hu.
    + destruct (decide (r' = r)) as [-> | Hne]; [by rewrite decide_True |].
      rewrite decide_False; [done |]. by intros [=].
    + apply tkey_cons_inv in Hk as [[-> ->] | [Hi1 Hr]], Hk' as [[E ->] | [Hi2 Hr']];
        [by left | unfold is_nibble in *; lia | unfold is_nibble in *; lia | by right].
  - rewrite list_lookup_insert_ne by lia. rewrite decide_False; [done |]. by intros [=].
Qed.

(** A child set to a value or a subtrie in reduced form. *)
Lemma wf_full_insert c i r tc' :
  wf (TFull c) → tkey (i :: r) → fits tc' r → tc' ≠ TNil → wf (TFull (<[Z.to_nat i := tc']> c)).
Proof.
  intros Hw Hk Hf Hn. destruct (fits_child c i r Hw Hk) as (Hi & Hlt & _).
  inversion Hw as [| | ? Hlen Hch Hval (a & b & ta & tb & Hab & Ha & Hta & Hb & Htb)]; subst.
  assert (Hkeep : ∀ x tx, c !! x = Some tx → tx ≠ TNil →
    ∃ tx', <[Z.to_nat i := tc']> c !! x = Some tx' ∧ tx' ≠ TNil).
  { intros x tx Hx Htx. destruct (decide (x = Z.to_nat i)) as [-> | Hne].
    - exists tc'. split; [apply list_lookup_insert_eq; lia | done].
    - exists tx. by rewrite list_lookup_insert_ne. }
  constructor.
  - by rewrite length_insert.
  - intros x t Hx Hx16 Ht. apply list_lookup_insert_Some in Hx as [(<- & <- & _) | [_ Hx]]; [| by apply (Hch x)].
    apply (fits_wf tc' r); [done | | done].
    apply tkey_cons_inv in Hk as [[-> _] | [_ ?]]; [cbn in Hx16; lia | done].
  - intros t Hx Ht. apply list_lookup_insert_Some in Hx as [(E & <- & _) | [_ Hx]]; [| by apply Hval].
    apply tkey_cons_inv in Hk as [[-> ->] | [Hi' _]]; [| unfold is_nibble in Hi'; lia].
    destruct Hf as [[? _] | [[_ Hf] | (v & -> & Hv & _)]]; [done | by apply tkey_nonempty in Hf | eauto].
  - destruct (Hkeep a ta Ha Hta) as (ta' & ? & ?), (Hkeep b tb Hb Htb) as (tb' & ? & ?).
    by exists a, b, ta', tb'.
Qed.

Lemma grown_full c i r tc tc' v :
  wf (TFull c) → tkey (i :: r) → c !! Z.to_nat i = Some tc → grown tc tc' r v →
  grown (TFull c) (TFull (<[Z.to_nat i := tc']> c)) (i :: r) v.
Proof.
  intros Hw Hk Hc (Hf & Hn & Hu & _). split_and!; [| done | by apply (upd_full c i r tc) | by eexists].
  right; left. split; [by eapply wf_full_insert | done].
Qed.

Lemma grown_short k r tc tc' v :
  wf (TShort k tc) → tkey (k ++ r) → grown tc tc' r v → grown (TShort k tc) (TShort k tc') (k ++ r) v.
Proof.
  intros Hw Hk (Hf & Hn & Hu & Hfull). split_and!; [| done | by apply upd_short | by intros [? ?]].
  right; left. split; [| done]. inversion Hw as [l v0 Hl Hv | ? c Hl Hne Hwc |]; subst.
  - apply tkey_suffix_term in Hk as ->; [| done].
    destruct Hf as [[? _] | [[_ Hf] | (v1 & -> & Hv1 & _)]]; [done | by apply tkey_nonempty in Hf | by constructor].
  - destruct (Hfull ltac:(by eexists)) as [c' ->]. constructor; [done | done |].
    apply (fits_wf _ r); [done | by eapply tkey_suffix | done].
Qed.

Lemma grown_nil key v : tkey key → value_ok v → grown TNil (TShort key (TVal v)) key v.
Proof.
  intros Hk Hv. destruct Hk as (l & Hl & ->).
  split_and!; [| done | | by intros [? ?]].
  - right; left. split; [by constructor | by exists l].
  - intros key' _. apply tget_leaf.
Qed.

(** ** Splitting a short node *)

(** A short node, or the subtrie itself when the key is empty. *)
Definition mk_short (k : bytes) (t : tree) : tree :=
  match k with [] => t | _ => TShort k t end.

Lemma tget_mk_short k t r : tget (mk_short k t) r = tget (TShort k t) r.
Proof. by destruct k. Qed.

Lemma tget_short_app m k t r : tget (TShort (m ++ k) t) (m ++ r) = tget (TShort k t) r.
Proof.
  destruct (decide (take (length k) r = k)) as [E | E].
  - rewrite <- (take_drop (length k) r), E, app_assoc, !tget_short. done.
  - cbn. rewrite (decide_False (P := take (length k) r = k)) by done. rewrite decide_False; [done |].
    rewrite length_app, take_app_add. intros Ha. by apply app_inv_head in Ha.
Qed.

Lemma tget_short_cons_ne a b k t r : a ≠ b → tget (TShort (a :: k) t) (b :: r) = None.
Proof. intros Hne. cbn. rewrite decide_False; [done |]. intros [=]. congruence. Qed.

Lemma tget_short_not_prefix m k t key : take (length m) key ≠ m → tget (TShort (m ++ k) t) key = None.
Proof.
  intros Hne. destruct (tget _ key) as [v |] eqn:E; [| done].
  apply tget_short_Some in E as (r & -> & _). destruct Hne. by rewrite <- app_assoc, take_app_length.
Qed.

Lemma tkey_prefix m x r : tkey (m ++ x :: r) → nibbles m ∧ tkey (x :: r).
Proof.
  induction m as [| y m IH]; intros Hk; [by split |]. cbn in Hk.
  apply tkey_cons_inv in Hk as [[_ E] | [Hy Hk]]; [by destruct m |].
  destruct (IH Hk). split; [by constructor | done].
Qed.

Definition valid_child (i : Z) (t : tree) : Prop :=
  (is_nibble i ∧ wf t) ∨ (i = 16 ∧ ∃ v, t = TVal v ∧ value_ok v).

Lemma valid_child_rest m a k tc :
  nibbles m → wf (TShort (m ++ a :: k) tc) → valid_child a (mk_short k tc).
Proof.
  intros Hm Hw. inversion Hw as [l v Hl Hv E | k0 c Hl Hne Hwc E |]; subst.
  - assert (Hk : tkey (m ++ a :: k)) by (rewrite <- E; by exists l).
    destruct (tkey_prefix m a k Hk) as [_ [[-> ->] | [Ha Hk']]%tkey_cons_inv]; [right; eauto |].
    left. split; [done |]. pose proof (tkey_nonempty _ Hk') as Hne. destruct Hk' as (l' & Hl' & ->).
    replace (mk_short (l' ++ [16]) (TVal v)) with (TShort (l' ++ [16]) (TVal v)) by by destruct l'.
    by constructor.
  - apply Forall_app in Hl as [_ Hl]. apply Forall_cons in Hl as [Ha Hl]. left. split; [done |].
    destruct k as [| x k]; [done |]. by constructor.
Qed.

Lemma valid_child_new b r v :
  tkey (b :: r) → value_ok v → valid_child b (mk_short r (TVal v)).
Proof.
  intros [[-> ->] | [Hb Hr]]%tkey_cons_inv Hv; [right; eauto |]. left. split; [done |].
  destruct Hr as (l & Hl & ->).
  replace (mk_short (l ++ [16]) (TVal v)) with (TShort (l ++ [16]) (TVal v)) by by destruct l.
  by constructor.
Qed.

Lemma valid_child_index i t : valid_child i t → 0 <= i ∧ (Z.to_nat i < 17)%nat ∧ t ≠ TNil.
Proof. intros [[Hi Hw] | [-> (v & -> & _)]]; [| split_and!; [lia | lia | done]].
  unfold is_nibble in Hi. split_and!; [lia | lia | by destruct Hw]. Qed.

Definition branch2 (a b : Z) (ta tb : tree) : list tree :=
  <[Z.to_nat b := tb]> (<[Z.to_nat a := ta]> (repeat TNil 17)).

Lemma branch2_lookup a b ta tb i :
  a ≠ b → valid_child a ta → valid_child b tb → 0 <= i → (Z.to_nat i < 17)%nat →
  branch2 a b ta tb !! Z.to_nat i =
    Some (if decide (i = b) then tb else if decide (i = a) then ta else TNil).
Proof.
  intros Hab Ha Hb Hi Hlt. apply valid_child_index in Ha as (Ha & Ha' & _), Hb as (Hb & Hb' & _).
  unfold branch2. case_decide as E1; [subst; apply list_lookup_insert_eq; rewrite length_insert; done |].
  rewrite list_lookup_insert_ne by lia.
  case_decide as E2; [subst; by apply list_lookup_insert_eq |].
  rewrite list_lookup_insert_ne by lia. by apply (lookup_replicate_2 17 TNil).
Qed.

Lemma wf_branch2 a b ta tb :
  a ≠ b → valid_child a ta → valid_child b tb → wf (TFull (branch2 a b ta tb)).
Proof.
  intros Hab Ha Hb.
  assert (Hget : ∀ i t, branch2 a b ta tb !! i = Some t → t ≠ TNil → valid_child (Z.of_nat i) t).
  { intros i t Hi Ht.
    assert (Hlt : (i < 17)%nat) by (apply lookup_lt_Some in Hi; unfold branch2 in Hi; by rewrite !length_insert in Hi).
    rewrite <- (Nat2Z.id i) in Hi. rewrite branch2_lookup in Hi; try done; try lia.
    injection Hi as <-. repeat case_decide; by subst. }
  constructor.
  - unfold branch2. by rewrite !length_insert.
  - intros i t Hi Hlt Ht. destruct (Hget i t Hi Ht) as [[_ ?] | [? _]]; [done | lia].
  - intros t Hi Ht. destruct (Hget 16%nat t Hi Ht) as [[Hn _] | [_ ?]]; [unfold is_nibble in Hn; lia | done].
  - exists (Z.to_nat a), (Z.to_nat b), ta, tb.
    pose proof (valid_child_index _ _ Ha) as (? & ? & ?). pose proof (valid_child_index _ _ Hb) as (? & ? & ?).
    rewrite !branch2_lookup by done. rewrite (decide_False (P := a = b)), !decide_True by done.
    split_and!; try done. lia.
Qed.

Lemma grown_split m a k tc b r v :
  wf (TShort (m ++ a :: k) tc) → tkey (m ++ b :: r) → a ≠ b → value_ok v →
  grown (TShort (m ++ a :: k) tc)
    (mk_short m (TFull (branch2 a b (mk_short k tc) (mk_short r (TVal v))))) (m ++ b :: r) v.
Proof.
  intros Hw Hk Hab Hv. destruct (tkey_prefix m b r Hk) as [Hm Hbr].
  pose proof (valid_child_rest m a k tc Hm Hw) as Hva.
  pose proof (valid_child_new b r v Hbr Hv) as Hvb.
  pose proof (wf_branch2 a b _ _ Hab Hva Hvb) as Hwb. set (c := branch2 _ _ _ _) in *.
  split_and!; [| by destruct m | | by intros [? ?]].
  - right; left. split; [| done]. destruct m as [| x m]; [done |]. by constructor.
  - intros key' [[E _] | [_ Hk']]; [by apply tkey_nonempty in Hk |]. rewrite tget_mk_short.
    destruct (decide (take (length m) key' = m)) as [E | E].
    + assert (Hkey : key' = m ++ drop (length m) key') by (rewrite <- E at 1; by rewrite take_drop).
      set (r' := drop (length m) key') in *. clearbody r'. clear E. subst key'. rewrite tget_short, tget_short_app.
      apply tkey_suffix in Hk'; [| done]. destruct r' as [| x r']; [by apply tkey_nonempty in Hk' |].
      destruct (fits_child c x r' Hwb Hk') as (Hx & Hx17 & _). rewrite tget_full. unfold c.
      rewrite branch2_lookup by done. destruct (decide (x = b)) as [-> | Hxb].
      * rewrite tget_mk_short, tget_short_cons_ne by done.
        destruct (decide (r' = r)) as [-> | Hr].
        { rewrite decide_True by done. rewrite <- (app_nil_r r) at 2. by rewrite tget_short. }
        rewrite decide_False by (intros Ha; apply app_inv_head in Ha; by injection Ha).
        destruct (tget (TShort r (TVal v)) r') eqn:Eg; [| done].
        apply tget_short_Some in Eg as (z & -> & Ez). destruct z; [by rewrite app_nil_r in Hr | done].
      * rewrite (decide_False (P := m ++ x :: r' = m ++ b :: r)) by (intros Ha; apply app_inv_head in Ha; by injection Ha).
        case_decide as Hxa; [subst x | by rewrite tget_short_cons_ne].
        rewrite tget_mk_short. symmetry. exact (tget_short_app [a] k tc r').
    + rewrite <- (app_nil_r m) at 1. rewrite !tget_short_not_prefix by done.
      rewrite decide_False; [done |]. intros ->. by rewrite take_app_length in E.
Qed.

Lemma prefixLen_split a b :
  ∃ m ra rb, a = m ++ ra ∧ b = m ++ rb ∧ prefixLen a b = length m ∧
    match ra, rb with x :: _, y :: _ => x ≠ y | _, _ => True end.
Proof.
  revert b; induction a as [| x a IH]; intros [| y b]; cbn.
  - by exists [], [], [].
  - by exists [], [], (y :: b).
  - by exists [], (x :: a), [].
  - case_if; [| by exists [], (x :: a), (y :: b)]. subst y.
    destruct (IH b) as (m & ra & rb & -> & -> & -> & H). by exists (x :: m), ra, rb.
Qed.

Lemma wf_short_prefix m a k tc : wf (TShort (m ++ a :: k) tc) → nibbles m.
Proof.
  inversion 1 as [l v Hl Hv E | k0 c Hl Hne Hwc E |]; subst.
  - apply (tkey_prefix m a k). rewrite <- E. by exists l.
  - by apply Forall_app in Hl as [? _].
Qed.

Lemma tkey_not_nibbles k : tkey k → nibbles k → False.
Proof.
  intros (l & _ & ->) Hn. apply Forall_app in Hn as [_ Hn]. apply Forall_cons in Hn as [Hn _].
  unfold is_nibble in Hn. lia.
Qed.

(** ** Removing a value *)

Definition shrunk (t t' : tree) (key : bytes) : Prop :=
  fits t' key ∧ upd t t' key None ∧ (is_full t → t' ≠ TNil).

Lemma shrunk_same t key : fits t key → tget t key = None → shrunk t t key.
Proof.
  intros Hf Hn. split_and!; [done | | by intros [c ->]]. intros key' _. by case_decide; subst.
Qed.

Lemma shrunk_leaf k v : nibbles k → shrunk (TShort (k ++ [16]) (TVal v)) TNil (k ++ [16]).
Proof.
  intros Hk. split_and!; [left; split; [done | left; by exists k] | | by intros [? ?]].
  intros key' _. rewrite tget_leaf. by repeat case_decide.
Qed.

Lemma shrunk_val v : shrunk (TVal v) TNil [].
Proof.
  split_and!; [left; auto | | by intros [? ?]].
  by intros key' [[_ ->] | [H _]]; [| apply tkey_nonempty in H].
Qed.

(** A short node above [s], merged with [s] if that is a short node. *)
Definition merge (k : bytes) (s : tree) : tree :=
  match s with TShort k2 t => TShort (k ++ k2) t | _ => TShort k s end.

Lemma tget_short_assoc k k2 t key : tget (TShort (k ++ k2) t) key = tget (TShort k (TShort k2 t)) key.
Proof.
  destruct (decide (take (length k) key = k)) as [E | E].
  - rewrite <- (take_drop (length k) key), E. by rewrite tget_short_app, tget_short.
  - rewrite tget_short_not_prefix by done. cbn. by rewrite decide_False.
Qed.

Lemma tget_merge k s key : tget (merge k s) key = tget (TShort k s) key.
Proof. destruct s; try done. apply tget_short_assoc. Qed.

Lemma wf_merge k s : nibbles k → k ≠ [] → wf s → wf (merge k s).
Proof.
  intros Hk Hne Hw. destruct Hw as [k2 v Hk2 Hv | k2 c Hk2 Hne2 Hw | c Hlen Hch Hval Htwo]; cbn.
  - rewrite app_assoc. constructor; [by apply Forall_app | done].
  - constructor; [by apply Forall_app | intros E; by apply app_eq_nil in E as [? _] | done].
  - constructor; [done | done | by constructor].
Qed.

Lemma upd_ext t t' t'' key v : upd t t' key v → (∀ key', tget t'' key' = tget t' key') → upd t t'' key v.
Proof. intros Hu He key' Hs. by rewrite He, Hu. Qed.

Lemma shrunk_short k c r tc' :
  wf (TShort k (TFull c)) → tkey (k ++ r) → shrunk (TFull c) tc' r →
  shrunk (TShort k (TFull c)) (merge k tc') (k ++ r) ∧ wf tc'.
Proof.
  intros Hw Hk (Hf & Hu & Hn). inversion Hw as [| ? ? Hkn Hne Hwc |]; subst.
  pose proof (tkey_suffix k r Hkn Hk) as Hr. specialize (Hn ltac:(by eexists)).
  pose proof (fits_wf tc' r Hf Hr Hn) as Hwt. split; [| done].
  split_and!; [right; left; split; [by apply wf_merge | done] | | by intros [? ?]].
  eapply upd_ext; [by apply upd_short | apply tget_merge].
Qed.

Lemma shrunk_full c i r tc tc' :
  wf (TFull c) → tkey (i :: r) → c !! Z.to_nat i = Some tc → shrunk tc tc' r → tc' ≠ TNil →
  shrunk (TFull c) (TFull (<[Z.to_nat i := tc']> c)) (i :: r).
Proof.
  intros Hw Hk Hc (Hf & Hu & _) Hn. split_and!; [| by apply (upd_full c i r tc) | done].
  right; left. split; [by eapply wf_full_insert | done].
Qed.

(** The children left when the child [i] is gone. *)
Lemma shrunk_full_nil c i r tc :
  wf (TFull c) → tkey (i :: r) → c !! Z.to_nat i = Some tc → shrunk tc TNil r →
  upd (TFull c) (TFull (<[Z.to_nat i := TNil]> c)) (i :: r) None ∧
  (∀ j t, <[Z.to_nat i := TNil]> c !! j = Some t → t ≠ TNil → c !! j = Some t ∧ valid_child (Z.of_nat j) t) ∧
  (∃ j t, <[Z.to_nat i := TNil]> c !! j = Some t ∧ t ≠ TNil).
Proof.
  intros Hw Hk Hc (_ & Hu & _). split_and!; [by apply (upd_full c i r tc) | |].
  - intros j t Hj Ht. apply list_lookup_insert_Some in Hj as [(_ & <- & _) | [_ Hj]]; [done |].
    split; [done |]. destruct (wf_full_child c j t Hw Hj) as [-> | [[Hwt Hlt] | (v & -> & Hv & ->)]];
      [done | left; split; [by apply nibble_index | done] | right; eauto].
  - inversion Hw as [| | ? _ _ _ (a & b & ta & tb & Hab & Ha & Hta & Hb & Htb)]; subst.
    destruct (decide (a = Z.to_nat i)) as [-> | Hne].
    + exists b, tb. by rewrite list_lookup_insert_ne.
    + exists a, ta. by rewrite list_lookup_insert_ne.
Qed.

Lemma shrunk_full_two c i r tc j1 j2 t1 t2 :
  wf (TFull c) → tkey (i :: r) → c !! Z.to_nat i = Some tc → shrunk tc TNil r → j1 ≠ j2 →
  <[Z.to_nat i := TNil]> c !! j1 = Some t1 → t1 ≠ TNil →
  <[Z.to_nat i := TNil]> c !! j2 = Some t2 → t2 ≠ TNil →
  shrunk (TFull c) (TFull (<[Z.to_nat i := TNil]> c)) (i :: r).
Proof.
  intros Hw Hk Hc Hs Hj H1 Hn1 H2 Hn2. destruct (shrunk_full_nil c i r tc Hw Hk Hc Hs) as (Hu & Hch & _).
  split_and!; [| done | done]. right; left. split; [| done].
  assert (H17 : length c = 17%nat) by by inversion Hw. constructor.
  - by rewrite length_insert.
  - intros j t Hj' Hlt Ht. destruct (Hch j t Hj' Ht) as [_ [[_ ?] | [? _]]]; [done | lia].
  - intros t Hj' Ht. destruct (Hch 16%nat t Hj' Ht) as [_ [[Hb _] | [_ ?]]]; [unfold is_nibble in Hb; lia | done].
  - by exists j1, j2, t1, t2.
Qed.

(** One child left: the branch becomes a short node. *)
Lemma shrunk_full_one c i r tc j s :
  wf (TFull c) → tkey (i :: r) → c !! Z.to_nat i = Some tc → shrunk tc TNil r →
  <[Z.to_nat i := TNil]> c !! j = Some s → s ≠ TNil →
  (∀ j' t, j' ≠ j → <[Z.to_nat i := TNil]> c !! j' = Some t → t = TNil) →
  shrunk (TFull c) (merge [Z.of_nat j] s) (i :: r).
Proof.
  intros Hw Hk Hc Hs Hj Hn Hoth. destruct (shrunk_full_nil c i r tc Hw Hk Hc Hs) as (Hu & Hch & _).
  assert (H17 : length c = 17%nat) by by inversion Hw.
  destruct (Hch j s Hj Hn) as [_ Hv]. split_and!; [| | by destruct s].
  - right; left. split; [| done]. destruct Hv as [[Hb Hws] | [E (v & -> & Hv)]].
    + apply wf_merge; [by apply Forall_singleton | done | done].
    + rewrite E. exact (wf_leaf [] v (Forall_nil_2 _) Hv).
  - intros key' Hss. rewrite tget_merge, <- Hu by done.
    destruct Hss as [[? _] | [_ Hk']]; [done |]. destruct key' as [| x r']; [by apply tkey_nonempty in Hk' |].
    destruct (fits_child c x r' Hw Hk') as (Hx & Hx17 & _). rewrite tget_full.
    destruct (decide (Z.to_nat x = j)) as [<- | Hne].
    + rewrite Hj, Z2Nat.id by done. exact (tget_short [x] s r').
    + rewrite tget_short_cons_ne by lia.
      destruct (<[Z.to_nat i:=TNil]> c !! Z.to_nat x) as [t |] eqn:E; [| done].
      by rewrite (Hoth _ t Hne E).
Qed.
