(* ===== verification/TrieStore.v ===== *)
(** * Stored tries

    The encoding under which the nodes of an abstract trie are stored
    ([tree_enc]): children whose encoding is shorter than a hash are embedded,
    the others are referred to by their hash.  What the decoder of
    src/trie/node.go makes of it is [load]: the node with its children behind
    hash nodes.  The theorem is the round trip of the database format. *)

From S2P Require Import Prelude RlpRaw RlpEncode TrieEncoding TrieNode TrieSpec.

Section Store.
  Context `{HF : Hasher} `{HL : !HasherLaws}.

(** A child in its parent's encoding, given its own encoding. *)
Definition ref_of (t : tree) (e : bytes) : bytes :=
  match t with
  | TNil | TVal _ => e
  | _ => if len e <? 32 then e else enc_string (sum256 e)
  end.

Fixpoint tree_enc (t : tree) : bytes :=
  match t with
  | TNil => [0x80]
  | TVal v => enc_string v
  | TShort k t => enc_list (enc_string (compact k) ++ ref_of t (tree_enc t))
  | TFull c => enc_list (concat (map (fun t => ref_of t (tree_enc t)) c))
  end.

Definition tree_ref (t : tree) : bytes := ref_of t (tree_enc t).

(** A child as the decoder sees it, given the decoded child. *)
Definition node_ref (t : tree) (n : node) : node :=
  match t with
  | TNil | TVal _ => n
  | _ => if len (tree_enc t) <? 32 then n else hashNode (sum256 (tree_enc t))
  end.

Fixpoint load (h : option bytes) (t : tree) : node :=
  match t with
  | TNil => NilNode
  | TVal v => valueNode v
  | TShort k t => shortNode k (node_ref t (load None t)) (MkFlag h false)
  | TFull c => fullNode (map (fun t => node_ref t (load None t)) c) (MkFlag h false)
  end.

Definition load_ref (t : tree) : node := node_ref t (load None t).

(** ** Sizes and bytes *)

Lemma enc_string_kind s : ∃ k, enc_string s = enc_kind k s ∧ kind_fits k s ∧ k ≠ KList.
Proof.
  destruct (single_byte s) eqn:E; [by exists KByte | by exists KString].
Qed.

Lemma head_bytes small large n :
  0 <= n < 2 ^ 63 → 0 <= small → 0 <= large → small + 55 < 256 → large + 8 < 256 → bytes_ok (head small large n).
Proof.
  intros Hn Hs Hl Hs2 Hl2. unfold head. case_if.
  - repeat constructor; lia.
  - pose proof (intsize_range n ltac:(lia)). constructor; [split; lia | apply be_bytes_ok].
Qed.

Lemma enc_string_bytes s : bytes_ok s → slice_len s → bytes_ok (enc_string s).
Proof.
  intros Hs Hl. unfold enc_string. destruct (single_byte s); [done |].
  apply Forall_app. split; [apply head_bytes; lia | done].
Qed.

Lemma enc_list_bytes p : bytes_ok p → slice_len p → bytes_ok (enc_list p).
Proof. intros Hs Hl. apply Forall_app. split; [apply head_bytes; lia | done]. Qed.

Lemma enc_string_len s : slice_len s → len (enc_string s) <= 9 + len s.
Proof.
  intros Hl. unfold enc_string. destruct (single_byte s); [lia |].
  pose proof (headsize_range (len s) ltac:(lia)). rewrite len_app, head_length by lia. lia.
Qed.

Lemma enc_list_len_le p : slice_len p → len (enc_list p) <= 9 + len p.
Proof.
  intros Hl. unfold enc_list. pose proof (headsize_range (len p) ltac:(lia)).
  rewrite len_app, head_length by lia. lia.
Qed.

Lemma enc_hash_len e : len (enc_string (sum256 e)) = 33.
Proof.
  pose proof (sum256_length e) as Hl. rewrite enc_string_length by lia.
  destruct (sum256 e) as [| x [| y l]]; [done | done |]. rewrite Hl. done.
Qed.

Lemma pack_bytes l : nibbles l → bytes_ok (pack l).
Proof.
  intros Hl. remember (length l) as n eqn:Hn. revert l Hl Hn.
  induction n as [n IH] using lt_wf_ind. intros [| a [| b l]] Hl Hn; [constructor | constructor |].
  apply Forall_cons in Hl as [Ha Hl]. apply Forall_cons in Hl as [Hb Hl]. cbn [pack]. constructor.
  - rewrite nibbles_pack by done. unfold is_nibble, is_byte in *. lia.
  - eapply (IH (length l)); [subst; cbn; lia | done | done].
Qed.

Lemma compact_bytes hex : hex_key hex → bytes_ok (compact hex).
Proof.
  intros (l & Hl & Hhex).
  assert (Hb : hex_body hex = l) by (destruct Hhex as [-> | ->]; [by apply hex_body_nibbles | apply hex_body_snoc]).
  unfold compact. rewrite Hb. destruct (Nat.odd (length l)).
  - destruct l as [| x l]; [repeat constructor; by destruct (hasTerm hex) |].
    apply Forall_cons in Hl as [Hx Hl]. cbn [hd tl]. constructor; [| by apply pack_bytes].
    replace (Z.lor (if hasTerm hex then 32 else 0) 16) with (Z.shiftl (if hasTerm hex then 3 else 1) 4)
      by by destruct (hasTerm hex).
    unfold is_nibble in Hx. rewrite lor_shift_add by (change (2 ^ 4) with 16; lia).
    change (2 ^ 4) with 16. unfold is_byte. destruct (hasTerm hex); lia.
  - constructor; [by destruct (hasTerm hex) | by apply pack_bytes].
Qed.

Lemma compact_len hex : len (compact hex) <= 1 + len hex.
Proof.
  rewrite compact_length. pose proof (hex_body_length hex). 
  assert (length (hex_body hex) / 2 <= length (hex_body hex))%nat by (apply Nat.Div0.div_le_upper_bound; lia).
  destruct (hasTerm hex); lia.
Qed.

(** References are short: at most 33 bytes. *)
Lemma ref_len t : wf t → len (tree_ref t) <= 33.
Proof.
  intros Hw. unfold tree_ref, ref_of.
  assert (H : len (if len (tree_enc t) <? 32 then tree_enc t else enc_string (sum256 (tree_enc t))) <= 33)
    by (case_if; [lia | rewrite enc_hash_len; lia]).
  by destruct Hw.
Qed.

Lemma concat_bounds (l : list bytes) B :
  Forall (fun e => bytes_ok e ∧ len e <= B) l → bytes_ok (concat l) ∧ len (concat l) <= len l * B.
Proof.
  induction 1 as [| e l [He Hl] _ [IH1 IH2]]; [split; [constructor | done] |].
  cbn [concat]. split; [by apply Forall_app | rewrite len_app, len_cons; lia].
Qed.

Lemma ref_bytes t : bytes_ok (tree_enc t) → bytes_ok (tree_ref t).
Proof.
  intros Ht. unfold tree_ref, ref_of.
  assert (H : bytes_ok (if len (tree_enc t) <? 32 then tree_enc t else enc_string (sum256 (tree_enc t)))).
  { case_if; [done |]. apply enc_string_bytes; [apply sum256_bytes |]. rewrite sum256_length. lia. }
  by destruct t.
Qed.

(** The encoding of a node in reduced form is a string of bytes that fits a
    slice. *)
Lemma tree_enc_ok t : wf t → bounded t → bytes_ok (tree_enc t) ∧ len (tree_enc t) < 2 ^ 62.
Proof.
  intros Hw0. induction Hw0 as [k v Hk (Hv1 & Hv2 & Hv3) | k c Hk Hne Hw IH | c Hlen Hch IH Hval Htwo]; intros Hbd.
  - destruct (bounded_short _ _ (wf_leaf k v Hk (conj Hv1 (conj Hv2 Hv3))) Hbd) as [Hs _].
    rewrite len_app in Hs. change (len [16]) with 1 in Hs.
    assert (Hkey : hex_key (k ++ [16])) by (exists k; auto).
    pose proof (compact_bytes _ Hkey) as Hcb. pose proof (compact_len (k ++ [16])) as Hcl.
    rewrite len_app in Hcl. change (len [16]) with 1 in Hcl.
    pose proof (enc_string_len (compact (k ++ [16])) ltac:(lia)). pose proof (enc_string_len v ltac:(lia)).
    cbn [tree_enc ref_of].
    assert (Hp : len (enc_string (compact (k ++ [16])) ++ enc_string v) <= 2 ^ 56 + 2 ^ 56 + 20)
      by (rewrite len_app; lia).
    pose proof (enc_list_len_le (enc_string (compact (k ++ [16])) ++ enc_string v) ltac:(lia)).
    split; [| lia]. apply enc_list_bytes; [| lia].
    apply Forall_app. split; apply enc_string_bytes; done || lia.
  - destruct (bounded_short _ _ (wf_ext k c Hk Hne Hw) Hbd) as [Hs Hbc]. destruct (IH (Hbc Hw)) as [IH1 IH2].
    assert (Hkey : hex_key k) by (exists k; auto).
    pose proof (compact_bytes _ Hkey) as Hcb. pose proof (compact_len k) as Hcl.
    pose proof (enc_string_len (compact k) ltac:(lia)). pose proof (ref_len (TFull c) Hw) as Hr.
    pose proof (ref_bytes (TFull c) IH1) as Hrb. unfold tree_ref in Hr, Hrb.
    change (tree_enc (TShort k (TFull c)))
      with (enc_list (enc_string (compact k) ++ ref_of (TFull c) (tree_enc (TFull c)))).
    set (e := tree_enc (TFull c)) in *.
    assert (Hp : len (enc_string (compact k) ++ ref_of (TFull c) e) <= 2 ^ 56 + 50) by (rewrite len_app; lia).
    pose proof (enc_list_len_le (enc_string (compact k) ++ ref_of (TFull c) e) ltac:(lia)).
    split; [| lia]. apply enc_list_bytes; [| lia]. apply Forall_app. split; [| done].
    apply enc_string_bytes; [done | lia].
  - assert (Hall : Forall (fun e => bytes_ok e ∧ len e <= 2 ^ 56 + 50) (map (fun t => ref_of t (tree_enc t)) c)).
    { apply Forall_map, Forall_lookup. intros i t Hi.
      assert (Hw : wf (TFull c)) by by constructor.
      destruct (wf_full_child c i t Hw Hi) as [-> | [[Hwt Hlt] | (v & -> & (Hv1 & Hv2 & Hv3) & _)]].
      - split; [solve_bytes | done].
      - destruct (IH i t Hi Hlt) as [Hb _]; [by destruct Hwt | by eapply bounded_child |].
        split; [by apply ref_bytes | pose proof (ref_len t Hwt); unfold tree_ref in *; lia].
      - cbn. split; [apply enc_string_bytes; [done | lia] |].
        pose proof (enc_string_len v ltac:(lia)). lia. }
    apply concat_bounds in Hall as [Hb Hl]. rewrite length_map, Hlen in Hl. cbn [tree_enc].
    pose proof (enc_list_len_le (concat (map (fun t => ref_of t (tree_enc t)) c)) ltac:(lia)).
    split; [apply enc_list_bytes; [done | lia] | lia].
Qed.

(** ** Decoding what was stored *)

Lemma Split_enc_list p r :
  bytes_ok (enc_list p ++ r) → slice_len (enc_list p ++ r) → Split (enc_list p ++ r) = Ok (KList, p, r).
Proof. intros Hb Hl. by apply Split_spec. Qed.

Lemma SplitString_enc s r :
  bytes_ok (enc_string s ++ r) → slice_len (enc_string s ++ r) → SplitString (enc_string s ++ r) = Ok (s, r).
Proof. intros Hb Hl. by apply SplitString_spec. Qed.

Lemma tree_enc_list t : wf t → ∃ p, tree_enc t = enc_list p.
Proof. destruct 1; cbn; eauto. Qed.

(** The child has been or will be decoded as [load] says, if it is embedded. *)
Definition decodes (dec : option bytes → bytes → tr node) (t : tree) : Prop :=
  len (tree_enc t) < 32 → ∀ r, bytes_ok r → slice_len (tree_enc t ++ r) →
  dec None (tree_enc t ++ r) = Ok (load None t).

Lemma decodeRef_load dec t r :
  t = TNil ∨ (wf t ∧ bounded t ∧ decodes dec t) → bytes_ok r → slice_len (tree_ref t ++ r) →
  decodeRef dec (tree_ref t ++ r) = Ok (load_ref t, r).
Proof.
  intros [-> | (Hw & Hbd & Hdec)] Hr Hl.
  - unfold decodeRef. change (tree_ref TNil) with (enc_string []) in *.
    assert (E : Split (enc_string [] ++ r) = Ok (KString, [], r)).
    { apply Split_spec; [| done | done]. apply Forall_app. split; [solve_bytes | done]. }
    by rewrite E.
  - assert (Href : tree_ref t = if len (tree_enc t) <? 32 then tree_enc t else enc_string (sum256 (tree_enc t)))
      by (unfold tree_ref, ref_of; by destruct Hw).
    assert (Hload : load_ref t = if len (tree_enc t) <? 32 then load None t else hashNode (sum256 (tree_enc t)))
      by (unfold load_ref, node_ref; by destruct Hw).
    rewrite Href in Hl |- *. rewrite Hload. destruct (tree_enc_ok t Hw Hbd) as [Hb _].
    destruct (len (tree_enc t) <? 32) eqn:Hsz; zb.
    + destruct (tree_enc_list t Hw) as [p Ep]. unfold decodeRef.
      assert (E : Split (tree_enc t ++ r) = Ok (KList, p, r)).
      { rewrite Ep in *. apply Split_enc_list; [by apply Forall_app | done]. }
      rewrite E. cbn [lift mbind outcome_bind].
      rewrite (proj2 (Z.ltb_ge hashLen _)) by (rewrite len_app; unfold hashLen; lia).
      by rewrite (Hdec Hsz r Hr Hl).
    + unfold decodeRef.
      assert (E : Split (enc_string (sum256 (tree_enc t)) ++ r) = Ok (KString, sum256 (tree_enc t), r)).
      { apply Split_spec; [| done |].
        - apply Forall_app. split; [| done].
          apply enc_string_bytes; [apply sum256_bytes | rewrite sum256_length; lia].
        - split; [done |]. cbn. pose proof (sum256_length (tree_enc t)) as H32.
          by destruct (sum256 (tree_enc t)) as [| x [| y l]]. }
      rewrite E. cbn [lift mbind outcome_bind]. by rewrite sum256_length.
Qed.

Lemma decodeChildren_load dec cs i r acc :
  Forall (fun t => t = TNil ∨ (wf t ∧ bounded t ∧ decodes dec t)) cs → bytes_ok r →
  slice_len (concat (map tree_ref cs) ++ r) → bytes_ok (concat (map tree_ref cs)) →
  decodeChildren dec (length cs) i (concat (map tree_ref cs) ++ r) acc = Ok (acc ++ map load_ref cs, r).
Proof.
  intros Hcs Hr. revert i acc. induction Hcs as [| t cs Ht _ IH]; intros i acc Hl Hb; cbn [length decodeChildren].
  { by rewrite app_nil_r. }
  cbn [map concat] in *. apply Forall_app in Hb as [Hbt Hb]. rewrite <- app_assoc in Hl |- *.
  rewrite decodeRef_load; [| done | by apply Forall_app | done]. cbn [in_ctx mbind outcome_bind].
  rewrite IH; [by rewrite <- app_assoc | | done]. rewrite len_app in Hl. lia.
Qed.

Lemma ref_kind t : t = TNil ∨ wf t ∨ (∃ v, t = TVal v) → ∃ kc, tree_ref t = enc_kind kc.1 kc.2 ∧ kind_fits kc.1 kc.2.
Proof.
  intros [-> | [Hw | [v ->]]].
  - by exists (KString, []).
  - unfold tree_ref, ref_of.
    assert (H : ∃ kc, (if len (tree_enc t) <? 32 then tree_enc t else enc_string (sum256 (tree_enc t))) =
      enc_kind kc.1 kc.2 ∧ kind_fits kc.1 kc.2).
    { case_if; [destruct (tree_enc_list t Hw) as [p ->]; by exists (KList, p) |].
      destruct (enc_string_kind (sum256 (tree_enc t))) as (k & ? & ? & _). by exists (k, sum256 (tree_enc t)). }
    by destruct Hw.
  - destruct (enc_string_kind v) as (k & ? & ? & _). by exists (k, v).
Qed.

Lemma CountValues_refs (l : list bytes) :
  Forall (fun e => ∃ kc, e = enc_kind kc.1 kc.2 ∧ kind_fits kc.1 kc.2) l →
  bytes_ok (concat l) → slice_len (concat l) → CountValues (concat l) = Ok (len l).
Proof.
  intros Hl Hb Hs.
  assert (H : ∃ vs, concat l = enc_values vs ∧ length vs = length l ∧ Forall (fun v => kind_fits v.1 v.2) vs).
  { clear Hb Hs. induction Hl as [| e l ((k & c) & -> & Hf) _ (vs & E & Hlen & Hvs)]; [by exists [] |].
    exists ((k, c) :: vs). cbn [concat]. rewrite enc_values_cons, E. cbn.
    split_and!; [done | by rewrite Hlen | by constructor]. }
  destruct H as (vs & E & Hlen & Hvs). unfold CountValues. rewrite E in *.
  rewrite CountValues_loop_complete by done. by rewrite Hlen.
Qed.

(** One level of the decoder on the encoding of a list of [n] references. *)
Lemma decodeNode_list fuel h (l : list bytes) r :
  bytes_ok (enc_list (concat l) ++ r) → slice_len (enc_list (concat l) ++ r) →
  Forall (fun e => ∃ kc, e = enc_kind kc.1 kc.2 ∧ kind_fits kc.1 kc.2) l →
  decodeNode_fuel (S fuel) h (enc_list (concat l) ++ r) =
    if len l =? 2 then in_ctx CtxShort (decodeShort (decodeNode_fuel fuel) h (concat l))
    else if len l =? 17 then in_ctx CtxFull (decodeFull (decodeNode_fuel fuel) h (concat l))
    else Err (ErrListElements (len l)).
Proof.
  intros Hb Hl Hk. cbn [decodeNode_fuel]. pose proof (enc_list_len (concat l)) as Hlen.
  rewrite (proj2 (Z.eqb_neq _ 0)) by (rewrite len_app; lia).
  assert (E : SplitList (enc_list (concat l) ++ r) = Ok (concat l, r))
    by (unfold SplitList; by rewrite Split_enc_list).
  rewrite E. cbn [lift mbind outcome_bind].
  apply Forall_app in Hb as [Hb _]. apply Forall_app in Hb as [_ Hb].
  rewrite CountValues_refs; [done | done | done |]. rewrite len_app in Hl. lia.
Qed.

Lemma decodeShort_leaf dec h k v :
  nibbles k → bytes_ok (enc_string (compact (k ++ [16])) ++ enc_string v) →
  slice_len (enc_string (compact (k ++ [16])) ++ enc_string v) →
  decodeShort dec h (enc_string (compact (k ++ [16])) ++ enc_string v) =
    Ok (shortNode (k ++ [16]) (valueNode v) (MkFlag h false)).
Proof.
  intros Hk Hb Hl. unfold decodeShort. rewrite SplitString_enc by done. cbn [lift mbind outcome_bind].
  rewrite compactToHex_compact by (exists k; auto). cbn [mbind outcome_bind].
  rewrite hasTerm_snoc. apply Forall_app in Hb as [_ Hb]. rewrite len_app in Hl.
  rewrite <- (app_nil_r (enc_string v)) in Hb |- *.
  rewrite SplitString_enc; [done | done |]. rewrite app_nil_r. lia.
Qed.

Lemma decodeShort_ext dec h k c :
  nibbles k → wf (TFull c) → bounded (TFull c) → decodes dec (TFull c) →
  bytes_ok (enc_string (compact k) ++ tree_ref (TFull c)) →
  slice_len (enc_string (compact k) ++ tree_ref (TFull c)) →
  decodeShort dec h (enc_string (compact k) ++ tree_ref (TFull c)) =
    Ok (shortNode k (load_ref (TFull c)) (MkFlag h false)).
Proof.
  intros Hk Hw Hbd Hd Hb Hl. unfold decodeShort. rewrite SplitString_enc by done. cbn [lift mbind outcome_bind].
  rewrite compactToHex_compact by (exists k; auto). cbn [mbind outcome_bind].
  rewrite hasTerm_nibbles by done. rewrite len_app in Hl.
  rewrite <- (app_nil_r (tree_ref (TFull c))).
  rewrite decodeRef_load; [done | by right | constructor |]. rewrite app_nil_r. lia.
Qed.

Lemma decodeFull_load dec h c :
  wf (TFull c) → bounded (TFull c) → (∀ i t, c !! i = Some t → wf t → decodes dec t) →
  bytes_ok (concat (map tree_ref c)) → slice_len (concat (map tree_ref c)) →
  decodeFull dec h (concat (map tree_ref c)) = Ok (fullNode (map load_ref c) (MkFlag h false)).
Proof.
  intros Hw Hbd Hd Hb Hl. inversion Hw as [| | ? Hlen _ _ _]; subst.
  destruct (c !! 16%nat) as [t16 |] eqn:E16; [| apply lookup_ge_None in E16; lia].
  assert (Hc : c = take 16 c ++ [t16]).
  { rewrite <- (take_drop 16 c) at 1. f_equal. apply drop_S in E16. rewrite E16. f_equal.
    apply nil_length_inv. rewrite length_drop. lia. }
  assert (H16 : length (take 16 c) = 16%nat) by (rewrite length_take; lia).
  assert (Hch : Forall (fun t => t = TNil ∨ (wf t ∧ bounded t ∧ decodes dec t)) (take 16 c)).
  { apply Forall_lookup. intros i t Hi. apply lookup_take_Some in Hi as [Hi Hlt].
    destruct (wf_full_child c i t Hw Hi) as [-> | [[Hwt _] | (v & -> & _ & ->)]];
      [by left | right; split_and!; [done | by eapply bounded_child | eauto] | lia]. }
  assert (Hlast : ∃ v, tree_ref t16 = enc_string v ∧
    load_ref t16 = if 0 <? len v then valueNode v else NilNode).
  { destruct (wf_full_child c 16 t16 Hw E16) as [-> | [[_ ?] | (v & -> & (Hv & _) & _)]]; [by exists [] | lia |].
    exists v. split; [done |]. cbn. by destruct v. }
  destruct Hlast as (v & Ev & Lv). set (cs := take 16 c) in *. rewrite Hc in Hb, Hl |- *. clearbody cs.
  rewrite map_app, concat_app in *. cbn [map concat] in *. rewrite app_nil_r in *.
  apply Forall_app in Hb as [Hb1 Hb2]. unfold decodeFull. rewrite <- H16.
  rewrite decodeChildren_load by done. cbn [mbind outcome_bind app]. rewrite Ev in *.
  rewrite len_app in Hl. rewrite <- (app_nil_r (enc_string v)) in Hb2 |- *.
  rewrite SplitString_enc; [| done | rewrite app_nil_r; lia]. cbn [lift mbind outcome_bind].
  by rewrite map_app, <- Lv.
Qed.

(** Embedded children are shorter than their parent. *)
Lemma child_len c i t : c !! i = Some t → wf t → len (tree_enc t) < 32 → len (tree_enc t) < len (tree_enc (TFull c)).
Proof.
  intros Hi Hw Hs. pose proof (enc_list_len (concat (map tree_ref c))) as H.
  assert (Hin : tree_enc t ∈ map tree_ref c).
  { apply list_elem_of_lookup. exists i. rewrite list_lookup_fmap, Hi. cbn. f_equal.
    unfold tree_ref, ref_of. rewrite (proj2 (Z.ltb_lt _ _)) by done. by destruct t. }
  pose proof (concat_elem_len _ _ Hin). change (tree_enc (TFull c)) with (enc_list (concat (map tree_ref c))). lia.
Qed.

Lemma ext_child_len k c : len (tree_enc (TFull c)) < 32 →
  len (tree_enc (TFull c)) < len (tree_enc (TShort k (TFull c))).
Proof.
  intros Hs. pose proof (enc_list_len (enc_string (compact k) ++ tree_ref (TFull c))) as H.
  assert (Hr : tree_ref (TFull c) = tree_enc (TFull c)).
  { unfold tree_ref, ref_of. by rewrite (proj2 (Z.ltb_lt _ _)) by done. }
  rewrite Hr, len_app in H.
  change (tree_enc (TShort k (TFull c))) with (enc_list (enc_string (compact k) ++ tree_ref (TFull c))).
  rewrite Hr. lia.
Qed.

Lemma decodeNode_load t :
  wf t → bounded t → ∀ fuel h r, len (tree_enc t) < Z.of_nat fuel → bytes_ok r → slice_len (tree_enc t ++ r) →
  decodeNode_fuel fuel h (tree_enc t ++ r) = Ok (load h t).
Proof.
  intros Hw0. induction Hw0 as [k v Hk Hv | k c Hk Hne Hw IH | c Hlen Hch IH Hval Htwo];
    intros Hbd [| fuel] h r Hf Hr Hl; try lia.
  - assert (Hw : wf (TShort (k ++ [16]) (TVal v))) by by constructor.
    destruct (tree_enc_ok _ Hw Hbd) as [Hb Hsz]. cbn [tree_enc ref_of] in *.
    replace (enc_string (compact (k ++ [16])) ++ enc_string v)
      with (concat [enc_string (compact (k ++ [16])); enc_string v]) in * by (cbn; by rewrite app_nil_r).
    rewrite decodeNode_list; [| by apply Forall_app | done |].
    + apply Forall_app in Hb as [_ Hb]. pose proof (enc_list_len (concat [enc_string (compact (k ++ [16])); enc_string v])).
      cbn [concat] in *. rewrite app_nil_r in *. cbn. rewrite decodeShort_leaf; [done | done | done | lia].
    + destruct (enc_string_kind (compact (k ++ [16]))) as (k1 & ? & ? & _), (enc_string_kind v) as (k2 & ? & ? & _).
      repeat constructor; [by exists (k1, compact (k ++ [16])) | by exists (k2, v)].
  - assert (Hw1 : wf (TShort k (TFull c))) by by constructor.
    destruct (tree_enc_ok _ Hw1 Hbd) as [Hb Hsz]. pose proof (ext_child_len k c) as Hcl.
    destruct (bounded_short _ _ Hw1 Hbd) as [_ Hbc]. specialize (Hbc Hw).
    assert (Hd : decodes (decodeNode_fuel fuel) (TFull c)).
    { intros H32 r' Hr' Hl'. apply IH; [done | | done | done]. specialize (Hcl H32). lia. }
    change (tree_enc (TShort k (TFull c)))
      with (enc_list (enc_string (compact k) ++ tree_ref (TFull c))) in *.
    replace (enc_string (compact k) ++ tree_ref (TFull c))
      with (concat [enc_string (compact k); tree_ref (TFull c)]) in * by (cbn [concat]; by rewrite app_nil_r).
    rewrite decodeNode_list; [| by apply Forall_app | done |].
    + apply Forall_app in Hb as [_ Hb]. pose proof (enc_list_len (concat [enc_string (compact k); tree_ref (TFull c)])).
      cbn [concat] in *. rewrite app_nil_r in *. cbn [length]. change (Z.of_nat 2 =? 2) with true. cbv iota.
      rewrite decodeShort_ext; [done | done | done | done | done | done | lia].
    + destruct (enc_string_kind (compact k)) as (k1 & ? & ? & _), (ref_kind (TFull c)) as (kc & ? & ?); [by auto |].
      repeat constructor; [by exists (k1, compact k) | by exists kc].
  - assert (Hw1 : wf (TFull c)) by by constructor.
    destruct (tree_enc_ok _ Hw1 Hbd) as [Hb Hsz].
    assert (Hd : ∀ i t, c !! i = Some t → wf t → decodes (decodeNode_fuel fuel) t).
    { intros i t Hi Hwt H32 r' Hr' Hl'. pose proof (child_len c i t Hi Hwt H32).
      destruct (wf_full_child c i t Hw1 Hi) as [-> | [[_ Hlt] | (v & -> & _)]]; [by inversion Hwt | | by inversion Hwt].
      apply (IH i t Hi Hlt); [by destruct Hwt | by eapply bounded_child | lia | done | done]. }
    change (tree_enc (TFull c)) with (enc_list (concat (map tree_ref c))) in *.
    rewrite decodeNode_list; [| by apply Forall_app | done |].
    + rewrite length_map, Hlen. change (Z.of_nat 17 =? 2) with false. change (Z.of_nat 17 =? 17) with true. cbv iota.
      apply Forall_app in Hb as [_ Hb]. pose proof (enc_list_len (concat (map tree_ref c))).
      rewrite decodeFull_load; [done | done | done | done | done | lia].
    + apply Forall_map, Forall_lookup. intros i t Hi. apply ref_kind.
      destruct (wf_full_child c i t Hw1 Hi) as [-> | [[Hwt _] | (v & -> & _)]]; eauto.
Qed.

Lemma decodeNode_stored t h : wf t → bounded t → decodeNode h (tree_enc t) = Ok (load h t).
Proof.
  intros Hw Hbd. destruct (tree_enc_ok t Hw Hbd) as [_ Hl].
  pose proof (decodeNode_load t Hw Hbd (S (length (tree_enc t))) h [] ltac:(lia)) as H.
  rewrite app_nil_r in H. unfold decodeNode. apply H; [constructor | lia].
Qed.

(** The database format: the decoder reads the stored encoding of a trie
    node in reduced form back as that node, with embedded children decoded in
    place and the others behind the hash they are stored under. *)
Theorem decodeNode_tree_enc t h : wf t → bounded t → decodeNode h (tree_enc t) = Ok (load h t).
Proof. apply decodeNode_stored. Qed.
End Store.

(** A hash function for examples. *)
Definition toy_hash : Hasher := fun b => 1 :: map u8 (take 31 (b ++ repeat 0 31)).

Lemma toy_hash_laws : @HasherLaws toy_hash.
Proof.
  split; intros b; unfold sum256, toy_hash.
  - cbn [length]. rewrite length_map, length_take, length_app, repeat_length. lia.
  - constructor; [done |]. apply Forall_map, Forall_forall. intros x _. apply u8_byte.
Qed.

Lemma decodeNode_tree_enc_witness :
  decodeNode None (@tree_enc toy_hash (TShort [1; 2; 16] (TVal [7]))) =
  Ok (shortNode [1; 2; 16] (valueNode [7]) (MkFlag None false)).
Proof.
  apply (@decodeNode_tree_enc toy_hash toy_hash_laws).
  - apply (wf_leaf [1; 2] [7]); [repeat constructor; by vm_compute |].
    split_and!; [done | solve_bytes | by vm_compute].
  - intros key v _ H. change [1; 2; 16] with ([1; 2] ++ [16]) in H. rewrite tget_leaf in H.
    case_decide; [by subst | done].
Defined.
