(* ===== verification/TrieOps.v ===== *)
(** * Trie operations: src/trie/trie.go, tracer.go and trie_reader.go

    Tries with their reader and tracer; reading, inserting and deleting,
    resolving nodes behind hashes on the way.  The operations thread the tracer,
    which also changes when they fail. *)

From S2P Require Import Prelude TrieEncoding TrieNode.

(** ** The tracer *)

Record tracer := MkTracer {
  inserts : gset bytes;
  deletes : gset bytes;
  accessList : gmap bytes bytes
}.

Definition newTracer : tracer := MkTracer ∅ ∅ ∅.

Definition onRead (path val : bytes) (t : tracer) : tracer :=
  MkTracer (inserts t) (deletes t) (<[path := val]> (accessList t)).

Definition onInsert (path : bytes) (t : tracer) : tracer :=
  if decide (path ∈ deletes t) then MkTracer (inserts t) (deletes t ∖ {[path]}) (accessList t)
  else MkTracer (inserts t ∪ {[path]}) (deletes t) (accessList t).

Definition onDelete (path : bytes) (t : tracer) : tracer :=
  if decide (path ∈ inserts t) then MkTracer (inserts t ∖ {[path]}) (deletes t) (accessList t)
  else MkTracer (inserts t) (deletes t ∪ {[path]}) (accessList t).

(** tracer.deletedNodes: the deleted paths that were read from the database. *)
Definition deletedNodes (t : tracer) : list bytes :=
  filter (fun path => is_Some (accessList t !! path)) (elements (deletes t)).

(** ** The reader *)

(** Reader.Node of the trie database: owner, path and hash to a blob; [None]
    is an error. *)
Definition Reader : Type := bytes → bytes → bytes → option bytes.

Record trieReader := MkReader {
  rd_owner : bytes;
  reader : option Reader;
  banned : option (gset bytes)
}.

(** common.BytesToHash *)
Definition BytesToHash (b : bytes) : bytes :=
  let b := if 32 <? len b then drop (length b - 32) b else b in
  repeat 0 (32 - length b) ++ b.

Lemma BytesToHash_32 h : length h = 32%nat → BytesToHash h = h.
Proof.
  intros H. unfold BytesToHash. rewrite (proj2 (Z.ltb_ge 32 _)) by lia. by rewrite H.
Qed.

(** trieReader.node *)
Definition reader_node (r : trieReader) (path hash : bytes) : tr bytes :=
  let missing := Err (MissingNodeError (rd_owner r) hash path) in
  if match banned r with Some b => bool_decide (path ∈ b) | None => false end then missing
  else match reader r with
  | None => missing
  | Some node =>
      match node (rd_owner r) path hash with
      | None => missing
      | Some blob => if len blob =? 0 then missing else Ok blob
      end
  end.

(** ** Operations over a tracer *)

Abbreviation top A := (tracer → tr A * tracer).

Definition tbind {A B} (m : top A) (f : A → top B) : top B := fun t =>
  let '(o, t) := m t in
  match o with
  | Ok a => f a t
  | Err e => (Err e, t)
  | Panic => (Panic, t)
  | OutOfFuel => (OutOfFuel, t)
  end.
Definition tret {A} (a : A) : top A := fun t => (Ok a, t).
Definition tlift {A} (o : tr A) : top A := fun t => (o, t).
Definition trace (f : tracer → tracer) : top unit := fun t => (Ok tt, f t).

Declare Scope trie_scope.
Delimit Scope trie_scope with trie.
Notation "x <- m ;; k" := (tbind m (fun x => k))
  (at level 100, m at next level, right associativity) : trie_scope.
Notation "'let!' p := m 'in' k" := (tbind m (fun p => k))
  (at level 10, p strict pattern, m at level 200, k at level 200) : trie_scope.
#[local] Open Scope trie_scope.

Definition newFlag : nodeFlag := MkFlag None true.

Section Ops.
  Context (rd : trieReader).

(** resolveAndTrack loads a node and remembers its original encoding. *)
Definition resolveAndTrack (h prefix : bytes) : top node :=
  blob <- tlift (reader_node rd prefix (BytesToHash h)) ;;
  _ <- trace (onRead prefix blob) ;;
  tlift (mustDecodeNode (Some h) blob).

Definition resolve (n : node) (prefix : bytes) : top node :=
  match n with
  | hashNode h => resolveAndTrack h prefix
  | _ => tret n
  end.

(** get: the value, the node with what was resolved, and whether anything was. *)
Fixpoint get (fuel : nat) (origNode : node) (key : bytes) (pos : Z) : top (option bytes * node * bool) :=
  match fuel with
  | O => tlift OutOfFuel
  | S fuel =>
      match origNode with
      | NilNode => tret (None, NilNode, false)
      | valueNode v => tret (Some v, origNode, false)
      | shortNode nkey nval f =>
          if len key - pos <? len nkey then tret (None, origNode, false)
          else
            part <- tlift (slice key pos (pos + len nkey)) ;;
            if negb (bool_decide (nkey = part)) then tret (None, origNode, false)
            else
              let! (value, newnode, didResolve) := get fuel nval key (pos + len nkey) in
              let n := if didResolve : bool then shortNode nkey newnode f else origNode in
              tret (value, n, didResolve)
      | fullNode children f =>
          i <- tlift (at_ key pos) ;;
          child <- tlift (at_ children i) ;;
          let! (value, newnode, didResolve) := get fuel child key (pos + 1) in
          n <- (if didResolve : bool then
                  c <- tlift (set_at children i newnode) ;; tret (fullNode c f)
                else tret origNode) ;;
          tret (value, n, didResolve)
      | hashNode h =>
          prefix <- tlift (slice key 0 pos) ;;
          child <- resolveAndTrack h prefix ;;
          let! (value, newnode, _) := get fuel child key pos in
          tret (value, newnode, true)
      end
  end.

(** insert: whether the subtrie changed, and the new subtrie. *)
Fixpoint insert (fuel : nat) (n : node) (prefix key : bytes) (value : node) : top (bool * node) :=
  match fuel with
  | O => tlift OutOfFuel
  | S fuel =>
      if len key =? 0 then
        match n with
        | valueNode v =>
            match value with
            | valueNode v' => tret (negb (bool_decide (v = v')), value)
            | _ => tlift Panic
            end
        | _ => tret (true, value)
        end
      else
        match n with
        | shortNode nkey nval _ =>
            let matchlen := Z.of_nat (prefixLen key nkey) in
            if matchlen =? len nkey then
              km <- tlift (slice key 0 matchlen) ;;
              rest <- tlift (slice_from key matchlen) ;;
              let! (dirty, nn) := insert fuel nval (prefix ++ km) rest value in
              if negb dirty then tret (false, n)
              else tret (true, shortNode nkey nn newFlag)
            else
              ni <- tlift (at_ nkey matchlen) ;;
              npre <- tlift (slice nkey 0 (matchlen + 1)) ;;
              nrest <- tlift (slice_from nkey (matchlen + 1)) ;;
              let! (_, c1) := insert fuel NilNode (prefix ++ npre) nrest nval in
              branch <- tlift (set_at (repeat NilNode 17) ni c1) ;;
              ki <- tlift (at_ key matchlen) ;;
              kpre <- tlift (slice key 0 (matchlen + 1)) ;;
              krest <- tlift (slice_from key (matchlen + 1)) ;;
              let! (_, c2) := insert fuel NilNode (prefix ++ kpre) krest value in
              branch <- tlift (set_at branch ki c2) ;;
              if matchlen =? 0 then tret (true, fullNode branch newFlag)
              else
                km <- tlift (slice key 0 matchlen) ;;
                _ <- trace (onInsert (prefix ++ km)) ;;
                tret (true, shortNode km (fullNode branch newFlag) newFlag)
        | fullNode children f =>
            k0 <- tlift (at_ key 0) ;;
            rest <- tlift (slice_from key 1) ;;
            child <- tlift (at_ children k0) ;;
            let! (dirty, nn) := insert fuel child (prefix ++ [k0]) rest value in
            if negb dirty then tret (false, n)
            else c <- tlift (set_at children k0 nn) ;; tret (true, fullNode c newFlag)
        | NilNode =>
            _ <- trace (onInsert prefix) ;;
            tret (true, shortNode key value newFlag)
        | hashNode h =>
            rn <- resolveAndTrack h prefix ;;
            let! (dirty, nn) := insert fuel rn prefix key value in
            if negb dirty then tret (false, rn) else tret (true, nn)
        | valueNode _ => tlift Panic
        end
  end.

(** The loop that looks for the only child left: its index, -1 when there is
    none and -2 when there are two. *)
Fixpoint only_child (children : list node) (i pos : Z) : Z :=
  match children with
  | [] => pos
  | NilNode :: children => only_child children (i + 1) pos
  | _ :: children => if pos =? -1 then only_child children (i + 1) i else -2
  end.

(** The reduction at the end of a deletion: a full node with one child left
    becomes a short node. *)
Definition reduceFull (prefix : bytes) (children : list node) : top (bool * node) :=
  let pos := only_child children 0 (-1) in
  if 0 <=? pos then
    cld <- tlift (at_ children pos) ;;
    if negb (pos =? 16) then
      cnode <- resolve cld (prefix ++ [pos]) ;;
      match cnode with
      | shortNode ckey cval _ =>
          _ <- trace (onDelete (prefix ++ [pos])) ;;
          tret (true, shortNode (pos :: ckey) cval newFlag)
      | _ => tret (true, shortNode [pos] cld newFlag)
      end
    else tret (true, shortNode [pos] cld newFlag)
  else tret (true, fullNode children newFlag).

Fixpoint delete (fuel : nat) (n : node) (prefix key : bytes) : top (bool * node) :=
  match fuel with
  | O => tlift OutOfFuel
  | S fuel =>
      match n with
      | shortNode nkey nval _ =>
          let matchlen := Z.of_nat (prefixLen key nkey) in
          if matchlen <? len nkey then tret (false, n)
          else if matchlen =? len key then
            _ <- trace (onDelete prefix) ;; tret (true, NilNode)
          else
            kpre <- tlift (slice key 0 (len nkey)) ;;
            rest <- tlift (slice_from key (len nkey)) ;;
            let! (dirty, child) := delete fuel nval (prefix ++ kpre) rest in
            if negb dirty then tret (false, n)
            else
              match child with
              | shortNode ckey cval _ =>
                  _ <- trace (onDelete (prefix ++ nkey)) ;;
                  tret (true, shortNode (nkey ++ ckey) cval newFlag)
              | _ => tret (true, shortNode nkey child newFlag)
              end
      | fullNode children _ =>
          k0 <- tlift (at_ key 0) ;;
          rest <- tlift (slice_from key 1) ;;
          child <- tlift (at_ children k0) ;;
          let! (dirty, nn) := delete fuel child (prefix ++ [k0]) rest in
          if negb dirty then tret (false, n)
          else
            children <- tlift (set_at children k0 nn) ;;
            match nn with
            | NilNode => reduceFull prefix children
            | _ => tret (true, fullNode children newFlag)
            end
      | valueNode _ => tret (true, NilNode)
      | NilNode => tret (false, NilNode)
      | hashNode h =>
          rn <- resolveAndTrack h prefix ;;
          let! (dirty, nn) := delete fuel rn prefix key in
          if negb dirty then tret (false, rn) else tret (true, nn)
      end
  end.
End Ops.

(** ** Tries *)

Record Trie := MkTrie {
  root : node;
  owner : bytes;
  committed : bool;
  unhashed : Z;
  t_reader : trieReader;
  t_tracer : tracer
}.

Definition set_root n (t : Trie) := MkTrie n (owner t) (committed t) (unhashed t) (t_reader t) (t_tracer t).
Definition set_tracer tr (t : Trie) := MkTrie (root t) (owner t) (committed t) (unhashed t) (t_reader t) tr.
Definition inc_unhashed (t : Trie) := MkTrie (root t) (owner t) (committed t) (unhashed t + 1) (t_reader t) (t_tracer t).

(** Levels of a trie are as many as nibbles of the key, each possibly behind a
    hash. *)
Definition op_fuel (k : bytes) : nat := 2 * length k + 4.

Definition Get (t : Trie) (key : bytes) : tr (option bytes) * Trie :=
  if committed t then (Err ErrCommitted, t)
  else
    let k := keybytesToHex key in
    let '(o, tr) := get (t_reader t) (op_fuel k) (root t) k 0 (t_tracer t) in
    let t := set_tracer tr t in
    match o with
    | Ok (value, newroot, didResolve) =>
        (Ok value, if didResolve : bool then set_root newroot t else t)
    | Err e => (Err e, t)
    | Panic => (Panic, t)
    | OutOfFuel => (OutOfFuel, t)
    end.

(** What update and Delete do with the outcome of insert and delete. *)
Definition store_root (t : Trie) (r : tr (bool * node) * tracer) : tr unit * Trie :=
  let '(o, tr) := r in
  let t := set_tracer tr t in
  match o with
  | Ok (_, n) => (Ok tt, set_root n t)
  | Err e => (Err e, t)
  | Panic => (Panic, t)
  | OutOfFuel => (OutOfFuel, t)
  end.

Definition update (t : Trie) (key value : bytes) : tr unit * Trie :=
  let t := inc_unhashed t in
  let k := keybytesToHex key in
  if negb (len value =? 0) then
    store_root t (insert (t_reader t) (op_fuel k) (root t) [] k (valueNode value) (t_tracer t))
  else
    store_root t (delete (t_reader t) (op_fuel k) (root t) [] k (t_tracer t)).

Definition Update (t : Trie) (key value : bytes) : tr unit * Trie :=
  if committed t then (Err ErrCommitted, t) else update t key value.

Definition Delete (t : Trie) (key : bytes) : tr unit * Trie :=
  if committed t then (Err ErrCommitted, t)
  else
    let t := inc_unhashed t in
    let k := keybytesToHex key in
    store_root t (delete (t_reader t) (op_fuel k) (root t) [] k (t_tracer t)).
