(* ===== verification/TriePaths.v ===== *)
(** * Paths of nodes, and what the tracer records

    The paths at which a trie has nodes ([has_node]), and the meaning of the
    tracer of src/trie/tracer.go: against the nodes the trie had when it was
    opened, [inserts] are the paths that are new and [deletes] the paths that
    are gone.  [tracks] says that a change of a subtrie is recorded, and composes
    along paths. *)

From S2P Require Import Prelude TrieSpec TrieUpdate TrieNode TrieOps.

Section TreeInd.
  Context (P : tree → Prop) (Hnil : P TNil) (Hfull : ∀ c, Forall P c → P (TFull c))
    (Hshort : ∀ k t, P t → P (TShort k t)) (Hval : ∀ v, P (TVal v)).

Fixpoint tree_nested_ind (t : tree) : P t :=
  match t with
  | TNil => Hnil
  | TFull c =>
      Hfull c ((fix go (l : list tree) : Forall P l :=
                  match l with
                  | [] => @List.Forall_nil _ P
                  | x :: l => @List.Forall_cons _ P x l (tree_nested_ind x) (go l)
                  end) c)
  | TShort k t => Hshort k t (tree_nested_ind t)
  | TVal v => Hval v
  end.
End TreeInd.

(** The subtree at a path. *)
Fixpoint sub (t : tree) (r : bytes) {struct t} : option tree :=
  match r with
  | [] => Some t
  | i :: r' =>
      match t with
      | TShort k t => if decide (take (length k) r = k) then sub t (drop (length k) r) else None
      | TFull c => if 0 <=? i then nth (Z.to_nat i) (map (fun t => sub t) c) (fun _ => None) r' else None
      | _ => None
      end
  end.

Definition is_node (t : tree) : bool := match t with TShort _ _ | TFull _ => true | _ => false end.

Definition has_node (t : tree) (r : bytes) : bool :=
  match sub t r with Some s => is_node s | None => false end.

Lemma sub_nil t : sub t [] = Some t.
Proof. by destruct t. Qed.

Lemma sub_short k t r : k ≠ [] → sub (TShort k t) (k ++ r) = sub t r.
Proof.
  intros Hk. destruct k as [| x k]; [done |]. cbn [app sub].
  change (x :: k ++ r) with ((x :: k) ++ r). rewrite take_app_length, drop_app_length. by rewrite decide_True.
Qed.

Lemma sub_short_end k t : k ≠ [] → sub (TShort k t) k = Some t.
Proof. intros Hk. rewrite <- (app_nil_r k) at 2. by rewrite sub_short, sub_nil. Qed.

Lemma sub_short_Some k t r s :
  r ≠ [] → sub (TShort k t) r = Some s → ∃ r', r = k ++ r' ∧ sub t r' = Some s.
Proof.
  intros Hr. destruct r as [| x r]; [done |]. cbn [sub]. case_decide as H; [| done].
  intros Hs. exists (drop (length k) (x :: r)). split; [| done]. rewrite <- H at 1. by rewrite take_drop.
Qed.

Lemma sub_short_None k t r : r ≠ [] → ¬ k `prefix_of` r → sub (TShort k t) r = None.
Proof.
  intros Hr Hp. destruct (sub (TShort k t) r) eqn:E; [| done].
  apply sub_short_Some in E as (r' & -> & _); [| done]. by destruct Hp; exists r'.
Qed.

Lemma sub_full c i r : sub (TFull c) (Z.of_nat i :: r) = match c !! i with Some t => sub t r | None => None end.
Proof.
  cbn [sub]. rewrite (proj2 (Z.leb_le 0 _)) by lia. rewrite Nat2Z.id. revert i.
  induction c as [| t c IH]; intros [| i]; cbn; done.
Qed.

Lemma sub_full_Some c r s :
  r ≠ [] → sub (TFull c) r = Some s → ∃ i r' t, r = Z.of_nat i :: r' ∧ c !! i = Some t ∧ sub t r' = Some s.
Proof.
  intros Hr Hs. destruct r as [| x r]; [done |].
  destruct (Z.leb_spec 0 x) as [Hx | Hx]; [| cbn [sub] in Hs; by rewrite (proj2 (Z.leb_gt 0 x)) in Hs].
  rewrite <- (Z2Nat.id x), sub_full in Hs by done.
  destruct (c !! Z.to_nat x) as [t |] eqn:E; [| done]. exists (Z.to_nat x), r, t. by rewrite Z2Nat.id.
Qed.

Lemma sub_app t r r' s : sub t r = Some s → sub t (r ++ r') = sub s r'.
Proof.
  revert r; induction t as [| c IH | k t IH | v] using tree_nested_ind; intros r;
    (destruct r as [| x r]; [rewrite sub_nil; by intros [= <-] |]); try done.
  - intros H. apply sub_full_Some in H as (i & r1 & t & E & Ht & Hs); [| done]. rewrite E. cbn [app].
    rewrite sub_full, Ht. rewrite Forall_lookup in IH. by eapply IH.
  - cbn [sub app]. case_decide as H; [| done]. intros Hs.
    assert (Hl : (length k <= length (x :: r))%nat) by (apply (f_equal length) in H; rewrite length_take in H; lia).
    change (x :: r ++ r') with ((x :: r) ++ r').
    rewrite take_app_le, drop_app_le by done. rewrite decide_True by done. by apply IH.
Qed.

(** ** The tracer *)

(** Below [p], with nodes at the paths [P] and originally at [P0]. *)
Definition traced (P0 : bytes → bool) (p : bytes) (P : bytes → bool) (tr : tracer) : Prop :=
  ∀ r, (p ++ r ∈ inserts tr ↔ P r = true ∧ P0 (p ++ r) = false) ∧
       (p ++ r ∈ deletes tr ↔ P r = false ∧ P0 (p ++ r) = true).

Definition outside (p : bytes) (tr tr' : tracer) : Prop :=
  ∀ q, ¬ p `prefix_of` q → (q ∈ inserts tr' ↔ q ∈ inserts tr) ∧ (q ∈ deletes tr' ↔ q ∈ deletes tr).

Definition tracks (p : bytes) (P P' : bytes → bool) (tr tr' : tracer) : Prop :=
  outside p tr tr' ∧ ∀ P0, traced P0 p P tr → traced P0 p P' tr'.

Lemma tracks_same p P tr tr' : inserts tr' = inserts tr → deletes tr' = deletes tr → tracks p P P tr tr'.
Proof.
  intros Hi Hd. split; [intros q _; by rewrite Hi, Hd |]. intros P0 H r. rewrite Hi, Hd. apply H.
Qed.

Lemma tracks_trans p P1 P2 P3 tr1 tr2 tr3 :
  tracks p P1 P2 tr1 tr2 → tracks p P2 P3 tr2 tr3 → tracks p P1 P3 tr1 tr3.
Proof.
  intros [O1 H1] [O2 H2]. split; [| by auto]. intros q Hq. destruct (O1 q Hq), (O2 q Hq). split; by etrans.
Qed.

Lemma onInsert_elem q x tr :
  (q ∈ inserts (onInsert x tr) ↔ q ∈ inserts tr ∨ (q = x ∧ x ∉ deletes tr)) ∧
  (q ∈ deletes (onInsert x tr) ↔ q ∈ deletes tr ∧ q ≠ x).
Proof.
  unfold onInsert. case_decide; cbn; rewrite ?elem_of_union, ?elem_of_difference, ?elem_of_singleton;
    destruct (decide (q = x)) as [-> |]; tauto.
Qed.

Lemma onDelete_elem q x tr :
  (q ∈ inserts (onDelete x tr) ↔ q ∈ inserts tr ∧ q ≠ x) ∧
  (q ∈ deletes (onDelete x tr) ↔ q ∈ deletes tr ∨ (q = x ∧ x ∉ inserts tr)).
Proof.
  unfold onDelete. case_decide; cbn; rewrite ?elem_of_union, ?elem_of_difference, ?elem_of_singleton;
    destruct (decide (q = x)) as [-> |]; tauto.
Qed.

Lemma tracks_insert p x P P' tr :
  P x = false → P' x = true → (∀ r, r ≠ x → P' r = P r) → tracks p P P' tr (onInsert (p ++ x) tr).
Proof.
  intros Hx Hx' Hr. split.
  - intros q Hq. assert (q ≠ p ++ x) by (intros ->; by apply Hq; exists x).
    destruct (onInsert_elem q (p ++ x) tr) as [-> ->]. tauto.
  - intros P0 Ht r. destruct (Ht x) as [Hi Hd]. rewrite Hx in Hi, Hd. destruct (Ht r) as [Hi' Hd'].
    destruct (onInsert_elem (p ++ r) (p ++ x) tr) as [-> ->].
    destruct (decide (r = x)) as [-> | Hne]; [rewrite Hx', Hd | rewrite (Hr r Hne), Hi', Hd'].
    + destruct (P0 (p ++ x)); intuition congruence.
    + assert (p ++ r ≠ p ++ x) by (intros E; by apply app_inv_head in E). tauto.
Qed.

Lemma tracks_delete p x P P' tr :
  P x = true → P' x = false → (∀ r, r ≠ x → P' r = P r) → tracks p P P' tr (onDelete (p ++ x) tr).
Proof.
  intros Hx Hx' Hr. split.
  - intros q Hq. assert (q ≠ p ++ x) by (intros ->; by apply Hq; exists x).
    destruct (onDelete_elem q (p ++ x) tr) as [-> ->]. tauto.
  - intros P0 Ht r. destruct (Ht x) as [Hi Hd]. rewrite Hx in Hi, Hd. destruct (Ht r) as [Hi' Hd'].
    destruct (onDelete_elem (p ++ r) (p ++ x) tr) as [-> ->].
    destruct (decide (r = x)) as [-> | Hne]; [rewrite Hx', Hi | rewrite (Hr r Hne), Hi', Hd'].
    + destruct (P0 (p ++ x)); intuition congruence.
    + assert (p ++ r ≠ p ++ x) by (intros E; by apply app_inv_head in E). tauto.
Qed.

(** A change below [p ++ k] seen from [p]. *)
Lemma tracks_below p k P P' Q Q' tr tr' :
  tracks (p ++ k) P P' tr tr' →
  (∀ r, Q (k ++ r) = P r) → (∀ r, Q' (k ++ r) = P' r) → (∀ r, ¬ k `prefix_of` r → Q' r = Q r) →
  tracks p Q Q' tr tr'.
Proof.
  intros [Ho Ht] HQ HQ' Hrest. split.
  - intros q Hq. apply Ho. intros [r ->]. apply Hq. exists (k ++ r). by rewrite app_assoc.
  - intros P0 H r. destruct (decide (k `prefix_of` r)) as [[s ->] | Hp].
    + rewrite app_assoc, HQ'. apply Ht. intros r. rewrite <- app_assoc, <- HQ. apply H.
    + rewrite (Hrest r Hp). destruct (Ho (p ++ r)) as [Hi Hd].
      { intros [s E]. rewrite <- app_assoc in E. apply app_inv_head in E. by destruct Hp; exists s. }
      rewrite Hi, Hd. apply H.
Qed.

Lemma traced_new P0 : traced P0 [] P0 newTracer.
Proof. intros r. cbn. rewrite !elem_of_empty. destruct (P0 r); intuition congruence. Qed.

(** ** The paths of changed tries *)

Lemma has_node_short k t r : k ≠ [] → has_node (TShort k t) (k ++ r) = has_node t r.
Proof. intros Hk. unfold has_node. by rewrite sub_short. Qed.

Lemma has_node_short_other k t r : r ≠ [] → ¬ k `prefix_of` r → has_node (TShort k t) r = false.
Proof. intros Hr Hk. unfold has_node. by rewrite sub_short_None. Qed.

Lemma has_node_full c i r : has_node (TFull c) (Z.of_nat i :: r) = match c !! i with Some t => has_node t r | None => false end.
Proof. unfold has_node. rewrite sub_full. by destruct (c !! i). Qed.

Lemma has_node_full_neg c x r : x < 0 → has_node (TFull c) (x :: r) = false.
Proof. intros Hx. unfold has_node. cbn [sub]. by rewrite (proj2 (Z.leb_gt 0 x)). Qed.

Lemma has_node_none r : has_node TNil r = false.
Proof. by destruct r. Qed.

Lemma has_node_val v r : has_node (TVal v) r = false.
Proof. by destruct r. Qed.

Lemma tracks_short p k t t' tr tr' :
  k ≠ [] → tracks (p ++ k) (has_node t) (has_node t') tr tr' →
  tracks p (has_node (TShort k t)) (has_node (TShort k t')) tr tr'.
Proof.
  intros Hk Ht. apply (tracks_below p k _ _ _ _ tr tr' Ht); [by intros; apply has_node_short.. |].
  intros r Hr. destruct (decide (r = [])) as [-> | Hne]; [done |]. by rewrite !has_node_short_other.
Qed.

Lemma tracks_full p c i t t' tr tr' :
  c !! i = Some t → tracks (p ++ [Z.of_nat i]) (has_node t) (has_node t') tr tr' →
  tracks p (has_node (TFull c)) (has_node (TFull (<[i := t']> c))) tr tr'.
Proof.
  intros Hi Ht. pose proof (lookup_lt_Some _ _ _ Hi) as Hlt.
  apply (tracks_below p [Z.of_nat i] _ _ _ _ tr tr' Ht); cbn [app]; [intros r.. |].
  - by rewrite has_node_full, Hi.
  - by rewrite has_node_full, list_lookup_insert_eq.
  - intros [| x r] Hr; [done |]. destruct (Z.leb_spec 0 x) as [Hx | Hx]; [| by rewrite !has_node_full_neg].
    rewrite <- (Z2Nat.id x) by done. rewrite !has_node_full, list_lookup_insert_ne; [done |].
    intros ->. apply Hr. exists r. cbn. by rewrite Z2Nat.id.
Qed.

(** A path gets a node, if [b]. *)
Lemma tracks_maybe_insert p x (b : bool) P tr :
  (b = true → P x = false) →
  tracks p P (fun r => P r || (b && bool_decide (r = x))) tr (if b then onInsert (p ++ x) tr else tr).
Proof.
  intros Hb. destruct b; cbn.
  - apply tracks_insert; [auto | by rewrite bool_decide_true, orb_true_r |].
    intros r Hr. by rewrite bool_decide_false, orb_false_r.
  - split; [done |]. intros P0 Ht r. rewrite orb_false_r. apply Ht.
Qed.

Lemma tracks_ext p P P' Q' tr tr' : tracks p P P' tr tr' → (∀ r, Q' r = P' r) → tracks p P Q' tr tr'.
Proof. intros [Ho Ht] HQ. split; [done |]. intros P0 H0 r. rewrite HQ. by apply Ht. Qed.

Lemma tracks_merge p k k2 t2 tr :
  k ≠ [] → k2 ≠ [] →
  tracks p (has_node (TShort k (TShort k2 t2))) (has_node (TShort (k ++ k2) t2)) tr (onDelete (p ++ k) tr).
Proof.
  intros Hk Hk2. apply tracks_delete.
  - rewrite <- (app_nil_r k) at 2. by rewrite has_node_short.
  - apply has_node_short_other; [done |]. intros [s E]. rewrite <- app_assoc in E.
    rewrite <- (app_nil_r k) in E at 1. apply app_inv_head in E. by destruct k2.
  - intros r Hr. destruct (decide (r = [])) as [-> | Hne]; [done |].
    destruct (decide (k `prefix_of` r)) as [[s ->] | Hp].
    + assert (s ≠ []) by (intros ->; by rewrite app_nil_r in Hr).
      rewrite (has_node_short k) by done. destruct (decide (k2 `prefix_of` s)) as [[s2 ->] | Hp2].
      * rewrite (has_node_short k2), app_assoc by done. apply has_node_short. by intros [? _]%app_eq_nil.
      * rewrite !has_node_short_other; [done | done | done | done |].
        intros [s2 E]. rewrite <- app_assoc in E. apply app_inv_head in E. by destruct Hp2; exists s2.
    + rewrite !has_node_short_other; [done | done | done | done |].
      intros [s2 E]. rewrite <- app_assoc in E. by destruct Hp; exists (k2 ++ s2).
Qed.

(** A branch with one child has the paths of a one-nibble extension. *)
Lemma has_node_one c j s r :
  c !! j = Some s → (∀ j' s', j' ≠ j → c !! j' = Some s' → s' = TNil) →
  has_node (TShort [Z.of_nat j] s) r = has_node (TFull c) r.
Proof.
  intros Hj Ho. destruct r as [| x r]; [done |].
  destruct (decide (x = Z.of_nat j)) as [-> | Hx].
  - change (Z.of_nat j :: r) with ([Z.of_nat j] ++ r) at 1. rewrite has_node_short, has_node_full by done.
    by rewrite Hj.
  - rewrite has_node_short_other; [| done | by intros [? [= ?]]].
    destruct (Z.leb_spec 0 x) as [H0 | H0]; [| by rewrite has_node_full_neg].
    rewrite <- (Z2Nat.id x) by done. rewrite has_node_full.
    destruct (c !! Z.to_nat x) as [s' |] eqn:E; [| done].
    rewrite (Ho (Z.to_nat x) s' ltac:(lia) E). by rewrite has_node_none.
Qed.

Lemma has_node_mk_short k t r : has_node (mk_short k t) (k ++ r) = has_node t r.
Proof. destruct k; [done |]. by apply has_node_short. Qed.

Lemma has_node_branch2 a b ta tb x r :
  a ≠ b → valid_child a ta → valid_child b tb →
  has_node (TFull (branch2 a b ta tb)) (x :: r) =
    if decide (x = b) then has_node tb r else if decide (x = a) then has_node ta r else false.
Proof.
  intros Hab Ha Hb. destruct (Z.leb_spec 0 x) as [Hx | Hx].
  - rewrite <- (Z2Nat.id x) at 1 by done. rewrite has_node_full.
    destruct (Nat.ltb_spec (Z.to_nat x) 17) as [Hlt | Hge].
    + rewrite branch2_lookup by done. by repeat case_decide; rewrite ?has_node_none.
    + rewrite lookup_ge_None_2 by (unfold branch2; rewrite !length_insert, repeat_length; lia).
      destruct (valid_child_index _ _ Ha) as (? & ? & _), (valid_child_index _ _ Hb) as (? & ? & _).
      by rewrite !decide_False by lia.
  - rewrite has_node_full_neg by done.
    destruct (valid_child_index _ _ Ha) as (? & ? & _), (valid_child_index _ _ Hb) as (? & ? & _).
    by rewrite !decide_False by lia.
Qed.

(** Inserting a short node at [path], none if its key is empty. *)
Definition ins (key path : bytes) (tr : tracer) : tracer :=
  match key with [] => tr | _ => onInsert path tr end.

Definition nonempty (k : bytes) : bool := match k with [] => false | _ => true end.

Lemma ins_if key path tr : ins key path tr = if nonempty key then onInsert path tr else tr.
Proof. by destruct key. Qed.

Lemma has_node_short_split m a k tc x s :
  has_node (TShort (m ++ a :: k) tc) (m ++ x :: s) =
  if decide (x = a) then
    (if decide (k `prefix_of` s) then has_node tc (drop (length k) s) else false)
  else false.
Proof.
  assert (Hne : m ++ x :: s ≠ []) by (by destruct m).
  case_decide as Hx; [subst x; case_decide as Hp |].
  - destruct Hp as [u ->]. rewrite drop_app_length. change (a :: k ++ u) with ((a :: k) ++ u).
    rewrite app_assoc. apply has_node_short. by destruct m.
  - apply has_node_short_other; [done |]. intros [u E]. rewrite <- app_assoc in E.
    apply app_inv_head in E. injection E as E. by destruct Hp; exists u.
  - apply has_node_short_other; [done |]. intros [u E]. rewrite <- app_assoc in E.
    apply app_inv_head in E. by injection E.
Qed.

Lemma has_node_mk_short_at k tc s :
  has_node (mk_short k tc) s =
  (if decide (k `prefix_of` s) then has_node tc (drop (length k) s) else false) || (nonempty k && bool_decide (s = [])).
Proof.
  destruct k as [| x k].
  - rewrite decide_True by apply prefix_nil. cbn. by rewrite orb_false_r, drop_0.
  - cbn [mk_short nonempty andb]. destruct (decide (s = [])) as [-> | Hs].
    + by rewrite bool_decide_true, orb_true_r.
    + rewrite bool_decide_false, orb_false_r by done. case_decide as Hp.
      * destruct Hp as [u ->]. rewrite drop_app_length. by apply has_node_short.
      * by apply has_node_short_other.
Qed.

Lemma has_node_split m a k tc b r v s :
  a ≠ b → valid_child a (mk_short k tc) → valid_child b (mk_short r (TVal v)) →
  has_node (mk_short m (TFull (branch2 a b (mk_short k tc) (mk_short r (TVal v))))) s =
  ((has_node (TShort (m ++ a :: k) tc) s || (nonempty k && bool_decide (s = m ++ [a])))
     || (nonempty r && bool_decide (s = m ++ [b]))) || (nonempty m && bool_decide (s = m)).
Proof.
  intros Hab Ha Hb. destruct (decide (m `prefix_of` s)) as [[s' ->] | Hm].
  - rewrite has_node_mk_short.
    assert (Eq : ∀ c, bool_decide (m ++ s' = m ++ [c]) = bool_decide (s' = [c])).
    { intros c. apply bool_decide_ext. split; [by intros ?%app_inv_head | by intros ->]. }
    assert (Eq0 : bool_decide (m ++ s' = m) = bool_decide (s' = [])).
    { apply bool_decide_ext. split; [| intros ->; by rewrite app_nil_r].
      rewrite <- (app_nil_r m) at 2. by intros ?%app_inv_head. }
    rewrite !Eq, Eq0. destruct s' as [| x s'].
    + rewrite app_nil_r. destruct m as [| y m]; [by rewrite !orb_true_l |]. cbn. by rewrite !orb_true_r.
    + rewrite has_node_branch2, has_node_short_split, !has_node_mk_short_at by done.
      rewrite (bool_decide_false (x :: s' = [])) by done. rewrite andb_false_r, orb_false_r.
      assert (Eqc : ∀ c, bool_decide (x :: s' = [c]) = bool_decide (x = c) && bool_decide (s' = [])).
      { intros c. rewrite <- bool_decide_and. apply bool_decide_ext. split; [by intros [= -> ->] | by intros [-> ->]]. }
      rewrite !Eqc. destruct (decide (x = b)) as [-> | Hxb].
      * rewrite (decide_False (P := b = a)), (bool_decide_false (b = a)), (bool_decide_true (b = b)) by congruence.
        cbn [andb orb]. rewrite andb_false_r, orb_false_l. destruct (decide (r `prefix_of` s')); by rewrite ?has_node_val.
      * rewrite (bool_decide_false (x = b)) by done. cbn [andb]. rewrite andb_false_r, orb_false_r.
        destruct (decide (x = a)) as [-> | Hxa]; [by rewrite (bool_decide_true (a = a)) |].
        rewrite (bool_decide_false (x = a)) by done. cbn. by rewrite andb_false_r.
  - assert (Hme : m ≠ []) by (intros ->; apply Hm, prefix_nil).
    assert (Hmx : ∀ c, bool_decide (s = m ++ c) = false).
    { intros c. apply bool_decide_false. intros ->. by apply Hm; exists c. }
    pose proof (Hmx []) as Hm0. rewrite app_nil_r in Hm0. rewrite !Hmx, Hm0, !andb_false_r, !orb_false_r.
    destruct m as [| y m]; [done |]. cbn [mk_short]. destruct (decide (s = [])) as [-> | Hs]; [done |].
    rewrite !has_node_short_other; [done | done | | done | done].
    intros [u E]. rewrite <- app_assoc in E. by apply Hm; eexists.
Qed.

Lemma tracks_split p m a k tc b r v tr :
  a ≠ b → valid_child a (mk_short k tc) → valid_child b (mk_short r (TVal v)) →
  tracks p (has_node (TShort (m ++ a :: k) tc))
    (has_node (mk_short m (TFull (branch2 a b (mk_short k tc) (mk_short r (TVal v))))))
    tr (ins m (p ++ m) (ins r (p ++ m ++ [b]) (ins k (p ++ m ++ [a]) tr))).
Proof.
  intros Hab Ha Hb. rewrite !ins_if. eapply tracks_ext; [| intros s; by apply has_node_split].
  eapply tracks_trans; [eapply tracks_trans |]; apply tracks_maybe_insert; cbv beta.
  - rewrite has_node_short_split. intros Hk. rewrite decide_True by done. by destruct k.
  - rewrite has_node_short_split. intros Hr. rewrite decide_False by congruence. cbn.
    rewrite bool_decide_false; [by rewrite andb_false_r |]. intros E. apply app_inv_head in E. congruence.
  - intros Hm. assert (Hne : ∀ c, bool_decide (m = m ++ [c]) = false).
    { intros c. apply bool_decide_false. intros E. apply (f_equal length) in E. rewrite length_app in E. cbn in E. lia. }
    rewrite !Hne, !andb_false_r, !orb_false_r. apply has_node_short_other; [by destruct m |].
    intros [u E]. apply (f_equal length) in E. rewrite !length_app in E. cbn in E. lia.
Qed.
