(* ===== verification/TrieRefine.v ===== *)
(** * The trie implements a map

    [rep p n t]: the node [n] at path [p], with whatever parts of it are still
    behind hashes in the database, stands for the abstract trie [t].  The
    operations of src/trie/trie.go respect the relation whatever is loaded:
    they succeed as long as the database holds the nodes, and change the
    abstract trie as the operations of a map do.  [a0] is the trie the database
    holds; [logged] says that the tracer follows the changes. *)

From S2P Require Import Prelude TrieEncoding TrieNode TrieSpec TrieUpdate TrieStore TrieOps TriePaths.
#[local] Open Scope trie_scope.

(** ** Nodes behind hashes *)

(** What is at the path [r] of [n] has not been loaded. *)
Fixpoint behind (n : node) (r : bytes) {struct n} : bool :=
  match n with
  | hashNode _ => true
  | shortNode k v _ => if decide (take (length k) r = k) then behind v (drop (length k) r) else false
  | fullNode c _ =>
      match r with
      | [] => false
      | i :: r => (0 <=? i) && nth (Z.to_nat i) (map (fun n => behind n) c) (fun _ => false) r
      end
  | _ => false
  end.

Lemma behind_short k n f r : behind (shortNode k n f) (k ++ r) = behind n r.
Proof. cbn. rewrite take_app_length, drop_app_length. by rewrite decide_True. Qed.

Lemma behind_short_true k n f r : behind (shortNode k n f) r = true → ∃ r', r = k ++ r' ∧ behind n r' = true.
Proof.
  cbn. case_decide as H; [| done]. intros Hb. exists (drop (length k) r). split; [| done].
  rewrite <- H at 1. by rewrite take_drop.
Qed.

Lemma behind_full c f i r :
  behind (fullNode c f) (Z.of_nat i :: r) = match c !! i with Some n => behind n r | None => false end.
Proof.
  cbn [behind]. rewrite (proj2 (Z.leb_le 0 _)) by lia. rewrite Nat2Z.id, andb_true_l. revert i.
  induction c as [| n c IH]; intros [| i]; cbn; done.
Qed.

Lemma behind_full_true c f r :
  behind (fullNode c f) r = true → ∃ i r' n, r = Z.of_nat i :: r' ∧ c !! i = Some n ∧ behind n r' = true.
Proof.
  destruct r as [| x r]; [done |]. destruct (Z.leb_spec 0 x) as [Hx | Hx].
  - rewrite <- (Z2Nat.id x) by done. rewrite behind_full.
    destruct (c !! Z.to_nat x) as [n |] eqn:E; [| done]. intros Hb. by exists (Z.to_nat x), r, n.
  - cbn [behind]. by rewrite (proj2 (Z.leb_gt 0 x)).
Qed.

Section Refine.
  Context `{HF : Hasher} `{HL : !HasherLaws} (rd : trieReader) (a0 : tree).

(** Nodes stored on their own: the root and nodes too long to embed. *)
Definition big (p : bytes) (t : tree) : Prop := p = [] ∨ 32 <= len (tree_enc t).

(** The database has [t] at path [p]. *)
Definition orig (p : bytes) (t : tree) : Prop := sub a0 p = Some t.

Definition db_holds : Prop :=
  ∀ p t, orig p t → wf t → big p t → reader_node rd p (sum256 (tree_enc t)) = Ok (tree_enc t).

(** Every node in memory that is stored on its own has its hash cached. *)
Inductive hashed : bytes → node → tree → Prop :=
| hashed_nil p t : hashed p NilNode t
| hashed_val p v t : hashed p (valueNode v) t
| hashed_hash p h t : hashed p (hashNode h) t
| hashed_short p k n f t :
    (big p (TShort k t) → is_Some (hash f)) → hashed (p ++ k) n t → hashed p (shortNode k n f) (TShort k t)
| hashed_full p cn f ct :
    (big p (TFull ct) → is_Some (hash f)) →
    (∀ i n t, cn !! i = Some n → ct !! i = Some t → hashed (p ++ [Z.of_nat i]) n t) →
    hashed p (fullNode cn f) (TFull ct).

(** A cached hash is the node's hash and comes with the hashes of what is below
    ([below]); a node that is not dirty is in the database. *)
Definition flag_ok (p : bytes) (f : nodeFlag) (t : tree) (below : Prop) : Prop :=
  (∀ h, hash f = Some h → h = sum256 (tree_enc t) ∧ big p t ∧ below) ∧
  (dirty f = false → orig p t ∧ (big p t → is_Some (hash f))).

Definition hashed_children (p : bytes) (cn : list node) (ct : list tree) : Prop :=
  ∀ i n t, cn !! i = Some n → ct !! i = Some t → hashed (p ++ [Z.of_nat i]) n t.

Inductive rep : bytes → node → tree → Prop :=
| rep_nil p : rep p NilNode TNil
| rep_val p v : rep p (valueNode v) (TVal v)
| rep_short p k n f t :
    rep (p ++ k) n t → flag_ok p f (TShort k t) (hashed (p ++ k) n t) → rep p (shortNode k n f) (TShort k t)
| rep_full p cn f ct :
    length cn = length ct →
    (∀ i n t, cn !! i = Some n → ct !! i = Some t → rep (p ++ [Z.of_nat i]) n t) →
    flag_ok p f (TFull ct) (hashed_children p cn ct) → rep p (fullNode cn f) (TFull ct)
| rep_hash p h t : wf t → bounded t → big p t → h = sum256 (tree_enc t) → orig p t → rep p (hashNode h) t.

(** ** The log of an operation *)

(** What was behind a hash still is, or its encoding is in the access list. *)
Definition kept (p : bytes) (n n' : node) (tr tr' : tracer) : Prop :=
  (∀ q, is_Some (accessList tr !! q) → is_Some (accessList tr' !! q)) ∧
  ∀ r, behind n r = true → behind n' r = true ∨
    ∀ t, orig (p ++ r) t → wf t → big (p ++ r) t → is_Some (accessList tr' !! (p ++ r)).

(** The change from [n] for [t] to [n'] for [t'] is in the tracer. *)
Definition logged (p : bytes) (n n' : node) (t t' : tree) (tr tr' : tracer) : Prop :=
  tracks p (has_node t) (has_node t') tr tr' ∧ kept p n n' tr tr'.

Lemma kept_same p n tr tr' : (∀ q, is_Some (accessList tr !! q) → is_Some (accessList tr' !! q)) → kept p n n tr tr'.
Proof. intros H. split; [done |]. intros r Hr. by left. Qed.

Lemma kept_loaded p n n' tr tr' :
  (∀ r, behind n r = true → behind n' r = true) → accessList tr' = accessList tr → kept p n n' tr tr'.
Proof. intros Hn Ha. split; [intros q; by rewrite Ha |]. intros r Hr. left. auto. Qed.

Lemma kept_trans p n1 n2 n3 tr1 tr2 tr3 : kept p n1 n2 tr1 tr2 → kept p n2 n3 tr2 tr3 → kept p n1 n3 tr1 tr3.
Proof.
  intros [M1 H1] [M2 H2]. split; [by auto |]. intros r Hr. destruct (H1 r Hr) as [Hr2 | Hq]; [by auto |].
  right. intros t Ho Hw Hb. eauto.
Qed.

Lemma kept_short p k n n' f f' tr tr' :
  kept (p ++ k) n n' tr tr' → kept p (shortNode k n f) (shortNode k n' f') tr tr'.
Proof.
  intros [M H]. split; [done |]. intros r Hr. apply behind_short_true in Hr as (s & -> & Hs).
  rewrite behind_short, app_assoc. by apply H.
Qed.

Lemma kept_full p c i n n' f f' tr tr' :
  c !! i = Some n → kept (p ++ [Z.of_nat i]) n n' tr tr' →
  kept p (fullNode c f) (fullNode (<[i := n']> c) f') tr tr'.
Proof.
  intros Hi [M H]. split; [done |]. intros r Hr. apply behind_full_true in Hr as (j & s & m & -> & Hm & Hs).
  rewrite behind_full. destruct (decide (i = j)) as [-> | Hne].
  - rewrite Hi in Hm. injection Hm as <-. rewrite list_lookup_insert_eq by by eapply lookup_lt_Some.
    destruct (H s Hs) as [? | Hq]; [by left | right]. by rewrite <- app_assoc in Hq.
  - left. by rewrite list_lookup_insert_ne, Hm.
Qed.

Lemma logged_same p n t tr : logged p n n t t tr tr.
Proof. split; [by apply tracks_same | by apply kept_same]. Qed.

Lemma logged_trans p n1 n2 n3 t1 t2 t3 tr1 tr2 tr3 :
  logged p n1 n2 t1 t2 tr1 tr2 → logged p n2 n3 t2 t3 tr2 tr3 → logged p n1 n3 t1 t3 tr1 tr3.
Proof. intros [? ?] [? ?]. split; [by eapply tracks_trans | by eapply kept_trans]. Qed.

Lemma logged_short p k n n' f f' t t' tr tr' :
  k ≠ [] → logged (p ++ k) n n' t t' tr tr' →
  logged p (shortNode k n f) (shortNode k n' f') (TShort k t) (TShort k t') tr tr'.
Proof. intros Hk [? ?]. split; [by apply tracks_short | by apply kept_short]. Qed.

Lemma logged_full p cn ct i n n' f f' t t' tr tr' :
  cn !! i = Some n → ct !! i = Some t → logged (p ++ [Z.of_nat i]) n n' t t' tr tr' →
  logged p (fullNode cn f) (fullNode (<[i := n']> cn) f') (TFull ct) (TFull (<[i := t']> ct)) tr tr'.
Proof. intros Hn Ht [? ?]. split; [by eapply tracks_full | by eapply kept_full]. Qed.

(** The result is not used: the node stays as it was. *)
Lemma logged_drop p n n' t t' tr tr' : logged p n n' t t' tr tr' → logged p n n t t' tr tr'.
Proof. intros [? [? _]]. split; [done | by apply kept_same]. Qed.

Lemma logged_leaf p n n' t t' tr :
  is_node t = false → is_node t' = false → (∀ r, behind n r = false) → logged p n n' t t' tr tr.
Proof.
  intros Ht Ht' Hn. split.
  - eapply tracks_ext; [by apply tracks_same |]. intros r.
    destruct t, t'; try done; by rewrite ?has_node_none, ?has_node_val.
  - split; [done |]. intros r Hr. by rewrite Hn in Hr.
Qed.

(** ** Loaded nodes *)

Lemma newFlag_ok p t below : flag_ok p newFlag t below.
Proof. by split. Qed.

Lemma orig_child_short p k t : k ≠ [] → orig p (TShort k t) → orig (p ++ k) t.
Proof. intros Hk H. unfold orig. by rewrite (sub_app _ _ _ _ H), sub_short_end. Qed.

Lemma orig_child_full p c i t : orig p (TFull c) → c !! i = Some t → orig (p ++ [Z.of_nat i]) t.
Proof. intros H Hi. unfold orig. by rewrite (sub_app _ _ _ _ H), sub_full, Hi, sub_nil. Qed.

Lemma path_snoc_ne (p : bytes) k : k ≠ [] → p ++ k ≠ [].
Proof. intros Hk H. by apply app_eq_nil in H as [_ ?]. Qed.

Lemma flag_ok_below p f t (below below' : Prop) :
  flag_ok p f t below → (below → below') → flag_ok p f t below'.
Proof. intros [H1 H2] Hb. split; [| done]. intros h (? & ? & ?)%H1. auto. Qed.

(** [n] stands for [t], and has all its hashes. *)
Definition loaded (p : bytes) (n : node) (t : tree) : Prop := rep p n t ∧ hashed p n t.

(** A child behind its reference, given that it loads. *)
Lemma load_ref_rep p t :
  p ≠ [] → orig p t → (wf t ∧ bounded t) ∨ t = TNil ∨ (∃ v, t = TVal v) →
  (∀ h, wf t → flag_ok p (MkFlag h false) t True → loaded p (load h t) t) →
  loaded p (load_ref t) t.
Proof.
  intros Hp Hst [[Hw Hbd] | [-> | [v ->]]] IH; [| split; constructor | split; constructor].
  assert (E : load_ref t = if len (tree_enc t) <? 32 then load None t else hashNode (sum256 (tree_enc t)))
    by (unfold load_ref, node_ref; by destruct Hw).
  rewrite E. case_if.
  - apply IH; [done |]. split; [done |]. intros _. split; [done |]. intros [? | ?]; [done | lia].
  - split; constructor; [done | done | by right | done | done].
Qed.

Lemma load_short p k n h t :
  flag_ok p (MkFlag h false) (TShort k t) True → loaded (p ++ k) n t →
  loaded p (shortNode k n (MkFlag h false)) (TShort k t).
Proof.
  intros Hf [Hr Hh]. split; constructor; [done | by eapply flag_ok_below | | done].
  by apply (proj2 Hf).
Qed.

Lemma load_full p cn h ct :
  flag_ok p (MkFlag h false) (TFull ct) True → length cn = length ct →
  (∀ i n t, cn !! i = Some n → ct !! i = Some t → loaded (p ++ [Z.of_nat i]) n t) →
  loaded p (fullNode cn (MkFlag h false)) (TFull ct).
Proof.
  intros Hf Hl Hch. split; constructor; [done | | | |].
  - intros. by eapply Hch.
  - eapply flag_ok_below; [exact Hf |]. intros _ i n t Hn Ht. by eapply Hch.
  - by apply (proj2 Hf).
  - intros. by eapply Hch.
Qed.

Lemma load_rep p h t :
  wf t → bounded t → orig p t → flag_ok p (MkFlag h false) t True → loaded p (load h t) t.
Proof.
  intros Hw. revert p h. induction Hw as [k v Hk Hv | k c Hk Hne Hw IH | c Hlen Hch IH Hval Htwo];
    intros p h Hbd Hst Hf.
  - apply load_short; [done | split; constructor].
  - change (load h (TShort k (TFull c))) with (shortNode k (load_ref (TFull c)) (MkFlag h false)).
    destruct (bounded_short _ _ (wf_ext k c Hk Hne Hw) Hbd) as [_ Hbc]. specialize (Hbc Hw).
    apply load_short; [done |].
    apply load_ref_rep; [by apply path_snoc_ne | by apply orig_child_short | by left |].
    intros h' _ Hf'. apply IH; [done | by apply orig_child_short | done].
  - assert (Hw : wf (TFull c)) by by constructor.
    change (load h (TFull c)) with (fullNode (map load_ref c) (MkFlag h false)).
    apply load_full; [done | apply length_map |]. intros i n t Hn Ht.
    rewrite list_lookup_fmap, Ht in Hn. injection Hn as <-.
    pose proof (orig_child_full p c i t Hst Ht) as Hst'.
    apply load_ref_rep; [by apply path_snoc_ne | done | |].
    + destruct (wf_full_child c i t Hw Ht) as [-> | [[? ?] | (v & -> & _)]]; eauto using bounded_child.
    + intros h' Hwt Hf'. destruct (wf_full_child c i t Hw Ht) as [-> | [[_ Hlt] | (v & -> & _)]];
        [by inversion Hwt | | by inversion Hwt].
      apply (IH i t Ht Hlt); [by destruct Hwt | by eapply bounded_child | done | done].
Qed.

Definition is_hash (n : node) : nat := match n with hashNode _ => 1 | _ => 0 end.

(** Stored descendants of a loaded node are behind their hashes. *)
Lemma load_ref_behind t r s :
  wf t → sub t r = Some s → wf s → 32 <= len (tree_enc s) →
  (∀ h, r ≠ [] → behind (load h t) r = true) → behind (load_ref t) r = true.
Proof.
  intros Hw Hs Hws Hl IH.
  assert (E : load_ref t = if len (tree_enc t) <? 32 then load None t else hashNode (sum256 (tree_enc t)))
    by (unfold load_ref, node_ref; by destruct Hw).
  rewrite E. case_if; [| done]. apply IH. intros ->. rewrite sub_nil in Hs. injection Hs as ->. lia.
Qed.

Lemma sub_val_wf v r s : sub (TVal v) r = Some s → ¬ wf s.
Proof. destruct r; [| done]. intros [= <-]. by inversion 1. Qed.

Lemma sub_none_wf r s : sub TNil r = Some s → ¬ wf s.
Proof. destruct r; [| done]. intros [= <-]. by inversion 1. Qed.

Lemma load_behind t h r s :
  wf t → r ≠ [] → sub t r = Some s → wf s → 32 <= len (tree_enc s) → behind (load h t) r = true.
Proof.
  intros Hw. revert h r. induction Hw as [k v Hk Hv | k c Hk Hne Hw IH | c Hlen Hch IH Hval Htwo];
    intros h r Hr Hs Hws Hl.
  - apply sub_short_Some in Hs as (r' & _ & Hs); [| done]. by apply sub_val_wf in Hs.
  - apply sub_short_Some in Hs as (r' & -> & Hs); [| done].
    change (load h (TShort k (TFull c))) with (shortNode k (load_ref (TFull c)) (MkFlag h false)).
    rewrite behind_short. eapply load_ref_behind; [done | done | done | done |]. intros h' Hr'. by apply IH.
  - assert (Hw : wf (TFull c)) by by constructor.
    apply sub_full_Some in Hs as (i & r' & t & -> & Ht & Hs); [| done].
    change (load h (TFull c)) with (fullNode (map load_ref c) (MkFlag h false)).
    rewrite behind_full, list_lookup_fmap, Ht. cbn [fmap option_fmap option_map].
    destruct (wf_full_child c i t Hw Ht) as [-> | [[Hwt Hlt] | (v & -> & _)]];
      [by apply sub_none_wf in Hs | | by apply sub_val_wf in Hs].
    eapply load_ref_behind; [done | done | done | done |]. intros h' Hr'.
    by apply (IH i t Ht Hlt); [by destruct Hwt | ..].
Qed.

Context (Hdb : db_holds).

(** Resolving a hash node finds the node it stands for. *)
Lemma resolve_hash p h t tr :
  rep p (hashNode h) t →
  ∃ n, resolveAndTrack rd h p tr = (Ok n, onRead p (tree_enc t) tr) ∧ loaded p n t ∧ is_hash n = 0%nat ∧ wf t ∧
    logged p (hashNode h) n t t tr (onRead p (tree_enc t) tr).
Proof.
  inversion 1 as [| | | | ? ? ? Hw Hbd Hbig Hh Ho]; subst. exists (load (Some (sum256 (tree_enc t))) t).
  pose proof (Hdb p t Ho Hw Hbig) as Hn.
  split_and!; [| | by destruct Hw | done |].
  - unfold resolveAndTrack, tbind, tlift, trace. rewrite BytesToHash_32 by apply sum256_length.
    rewrite Hn. unfold mustDecodeNode. by rewrite decodeNode_stored.
  - apply load_rep; [done | done | done |]. split; [by intros h [= <-] | by intros _].
  - split; [by apply tracks_same |]. split.
    { intros q [b Hq]. cbn. destruct (decide (q = p)) as [-> | Hne]; [by rewrite lookup_insert_eq; eauto |].
      rewrite lookup_insert_ne by done. eauto. }
    intros r _. destruct (decide (r = [])) as [-> | Hr].
    + right. intros. rewrite app_nil_r. cbn. rewrite lookup_insert_eq. eauto.
    + destruct (behind (load (Some (sum256 (tree_enc t))) t) r) eqn:E; [by left | right].
      intros s Hs Hws [Hp | Hl]; [by apply path_snoc_ne in Hp |]. unfold orig in Hs.
      rewrite (sub_app _ _ _ _ Ho) in Hs. by rewrite (load_behind t _ r s) in E.
Qed.

(** ** Reading *)

Definition get_sim (fuel : nat) (n : node) (p rest : bytes) (t : tree) (tr : tracer) : Prop :=
  ∃ n' b tr', get rd fuel n (p ++ rest) (len p) tr = (Ok (tget t rest, n', b), tr') ∧
    rep p n' t ∧ (hashed p n t → hashed p n' t) ∧ (b = false → n' = n) ∧ logged p n n' t t tr tr'.

Lemma tget_short_short k t rest : len rest < len k → tget (TShort k t) rest = None.
Proof.
  intros Hl. cbn. case_decide as H; [| done]. apply (f_equal length) in H. rewrite length_take in H. lia.
Qed.

Lemma get_short fuel p k n f t rest tr :
  k ≠ [] → rep p (shortNode k n f) (TShort k t) →
  (∀ r, rest = k ++ r → get_sim fuel n (p ++ k) r t tr) →
  get_sim (S fuel) (shortNode k n f) p rest (TShort k t) tr.
Proof.
  intros Hk Hrep IH. unfold get_sim. cbn [get]. rewrite len_app.
  destruct (Z.ltb_spec (len p + len rest - len p) (len k)) as [Hlt | Hge].
  { rewrite tget_short_short by lia. unfold tret. eauto 12 using logged_same. }
  assert (Hsl : slice (p ++ rest) (len p) (len p + len k) = @Ok trie_error _ (take (length k) rest)).
  { rewrite <- (take_drop (length k) rest) at 1.
    replace (len k) with (len (take (length k) rest)) by (rewrite length_take; lia). apply slice_app_mid. }
  unfold tbind at 1, tlift at 1. rewrite Hsl.
  destruct (decide (k = take (length k) rest)) as [E | E].
  - rewrite bool_decide_true by done. cbn [negb].
    assert (Hrest : rest = k ++ drop (length k) rest) by (rewrite E at 1; by rewrite take_drop).
    destruct (IH (drop (length k) rest) Hrest) as (n' & b & tr' & Hget & Hrep' & Hhd & Hb & Htr).
    rewrite <- app_assoc, <- Hrest, len_app in Hget. unfold tbind. rewrite Hget.
    assert (Ht : tget (TShort k t) rest = tget t (drop (length k) rest))
      by (rewrite Hrest at 1; apply tget_short).
    rewrite Ht. unfold tret.
    inversion Hrep as [| | ? ? ? ? ? ? Hfl | |]; subst.
    destruct b; do 3 eexists; (split; [done |]);
      [| split_and!; [done | done | done | apply (logged_drop _ _ (shortNode k n' f)); by apply logged_short]].
    split_and!; [| | done | by apply logged_short].
    + constructor; [done | by eapply flag_ok_below].
    + inversion 1; subst. constructor; [done | by apply Hhd].
  - rewrite bool_decide_false by done. cbn [negb]. unfold tret.
    replace (tget (TShort k t) rest) with (@None bytes) by (cbn; by rewrite decide_False by done).
    eauto 12 using logged_same.
Qed.

Lemma rep_full_update p cn f f' ct i n' t' :
  rep p (fullNode cn f) (TFull ct) →
  flag_ok p f' (TFull (<[i := t']> ct)) (hashed_children p (<[i := n']> cn) (<[i := t']> ct)) →
  rep (p ++ [Z.of_nat i]) n' t' → rep p (fullNode (<[i := n']> cn) f') (TFull (<[i := t']> ct)).
Proof.
  inversion 1 as [| | | ? ? ? ? Hlen Hch Hf |]; subst. intros Hf' Hrep'.
  constructor; [by rewrite !length_insert | | done]. intros j m s Hm Hs.
  apply list_lookup_insert_Some in Hm, Hs.
  destruct Hm as [(E1 & <- & _) | [Hne Hm]], Hs as [(E2 & <- & _) | [Hne2 Hs]];
    [by subst | congruence | congruence | by apply (Hch j)].
Qed.

Lemma hashed_children_update p cn ct i n t n' :
  cn !! i = Some n → ct !! i = Some t → (hashed (p ++ [Z.of_nat i]) n t → hashed (p ++ [Z.of_nat i]) n' t) →
  hashed_children p cn ct → hashed_children p (<[i := n']> cn) ct.
Proof.
  intros Hn Ht Hi Hch j m s Hm Hs. apply list_lookup_insert_Some in Hm as [(<- & <- & _) | [Hne Hm]];
    [| by apply (Hch j)]. rewrite Ht in Hs. injection Hs as <-. by apply Hi, (Hch i).
Qed.

Lemma get_full fuel p cn f ct i rest tr n t :
  rep p (fullNode cn f) (TFull ct) → 0 <= i → cn !! Z.to_nat i = Some n → ct !! Z.to_nat i = Some t →
  get_sim fuel n (p ++ [i]) rest t tr →
  get_sim (S fuel) (fullNode cn f) p (i :: rest) (TFull ct) tr.
Proof.
  intros Hrep Hi Hn Ht (n' & b & tr' & Hget & Hrep' & Hhd & Hb & Htr). unfold get_sim. cbn [get].
  unfold tbind at 1, tlift at 1. rewrite at_app. unfold tbind at 1, tlift at 1.
  assert (Hat : at_ cn i = @Ok trie_error _ n) by (rewrite <- (Z2Nat.id i) by done; by apply at_ok).
  rewrite Hat. rewrite <- app_assoc, len_app in Hget. change (len [i]) with 1 in Hget. cbn [app] in Hget.
  unfold tbind at 1. rewrite Hget. rewrite tget_full, Ht.
  destruct b.
  - rewrite <- (Z2Nat.id i) in Hhd, Htr by done.
    assert (Hset : set_at cn i n' = @Ok trie_error _ (<[Z.to_nat i := n']> cn)).
    { unfold set_at. apply lookup_lt_Some in Hn. by repeat decide_if. }
    pose proof (hashed_children_update p cn ct (Z.to_nat i) n t n' Hn Ht Hhd) as Hhc.
    unfold tbind, tlift, tret. rewrite Hset. do 3 eexists. split; [done |].
    split_and!; [| | done | rewrite <- (list_insert_id ct (Z.to_nat i) t Ht) at 2; by eapply logged_full].
    + rewrite <- (list_insert_id ct (Z.to_nat i) t Ht).
      apply (rep_full_update p cn f); [done | | by rewrite Z2Nat.id].
      rewrite list_insert_id by done. inversion Hrep as [| | | ? ? ? ? ? ? Hfl |]; subst. by eapply flag_ok_below.
    + inversion 1; subst. constructor; [done | by apply Hhc].
  - unfold tbind, tret. do 3 eexists. split_and!; [done | done | done | done |].
    rewrite (Hb eq_refl) in Htr. rewrite <- (Z2Nat.id i) in Htr by done.
    rewrite <- (list_insert_id cn (Z.to_nat i) n Hn) at 2. rewrite <- (list_insert_id ct (Z.to_nat i) t Ht) at 2.
    by eapply logged_full.
Qed.

Lemma get_ok fuel n p rest t tr :
  rep p n t → fits t rest → (2 * length rest + is_hash n < fuel)%nat → get_sim fuel n p rest t tr.
Proof.
  revert n p rest t tr; induction fuel as [| fuel IH]; intros n p rest t tr Hrep Hfit Hf; [lia |].
  destruct n as [| cn f | k n f | h | v].
  - inversion Hrep; subst. unfold get_sim. cbn [get]. unfold tret. eauto 12 using logged_same.
  - inversion Hrep as [| | | ? ? ? ct Hlen Hch Hfl |]; subst.
    destruct Hfit as [[? _] | [[Hw Hk] | (v & ? & _)]]; [done | | done].
    destruct rest as [| i rest]; [by apply tkey_nonempty in Hk |].
    destruct (fits_child ct i rest Hw Hk) as (Hi & Hlt & Hfits).
    assert (H17 : length ct = 17%nat) by by inversion Hw.
    destruct (ct !! Z.to_nat i) as [t |] eqn:Et; [| apply lookup_ge_None in Et; lia].
    destruct (cn !! Z.to_nat i) as [n |] eqn:En; [| apply lookup_ge_None in En; lia].
    apply (get_full fuel p cn f ct i rest tr n t Hrep Hi En Et).
    pose proof (Hch _ n t En Et) as Hrep'. rewrite Z2Nat.id in Hrep' by done.
    apply IH; [done | by apply Hfits |]. cbn in Hf. destruct n; cbn; lia.
  - inversion Hrep as [| | ? ? ? ? t' Hrep' Hfl | |]; subst.
    destruct Hfit as [[? _] | [[Hw Hk] | (v & ? & _)]]; [done | | done].
    pose proof (wf_short_nonempty _ _ Hw) as Hne. apply get_short; [done | done |]. intros r ->.
    apply IH; [done | by eapply fits_short |]. rewrite length_app in Hf. cbn in Hf.
    destruct k; [done |]. cbn in Hf. destruct n; cbn; lia.
  - destruct (resolve_hash p h t tr Hrep) as (n & Hres & [Hrep' Hhd] & Hnh & Hw & Hlog). cbn in Hf.
    destruct (IH n p rest t (onRead p (tree_enc t) tr) Hrep' Hfit ltac:(lia))
      as (n' & b & tr' & Hget & Hr' & Hhd' & _ & Htr).
    unfold get_sim. cbn [get]. unfold tbind at 1, tlift at 1. rewrite (slice_prefix_app p rest) by done.
    unfold tbind at 1. rewrite Hres. unfold tbind. rewrite Hget. unfold tret.
    exists n', true, tr'. split_and!; [done | done | by auto | done | by eapply logged_trans].
  - inversion Hrep; subst. destruct Hfit as [[? _] | [[Hw _] | (v' & [= <-] & _ & ->)]]; [done | by inversion Hw |].
    unfold get_sim. cbn [get]. unfold tret. eauto 12 using logged_same.
Qed.

(** ** Inserting *)

Definition insert_sim (fuel : nat) (n : node) (p key v : bytes) (t : tree) (tr : tracer) : Prop :=
  ∃ d n' tr' t', insert rd fuel n p key (valueNode v) tr = (Ok (d, n'), tr') ∧
    rep p n' t' ∧ grown t t' key v ∧ (d = false → t' = t) ∧ logged p n n' t t' tr tr'.

(** A new short node, or the child itself when the key is empty. *)
Definition mk_snode (k : bytes) (n : node) : node :=
  match k with [] => n | _ => shortNode k n newFlag end.

Lemma insert_nil fuel p key value tr :
  (0 < fuel)%nat → insert rd fuel NilNode p key value tr = (Ok (true, mk_snode key value), ins key p tr).
Proof. intros Hf. destruct fuel; [lia |]. by destruct key as [| x key]. Qed.

Lemma behind_mk_snode k n r : behind (mk_snode k n) (k ++ r) = behind n r.
Proof. destruct k as [| x k]; [done |]. apply behind_short. Qed.

(** What was below the split short node is now below its part of the branch. *)
Lemma kept_split p m a k n f b nb tr tr' :
  0 <= a → 0 <= b → (Z.to_nat a < 17)%nat → a ≠ b → accessList tr' = accessList tr →
  kept p (shortNode (m ++ a :: k) n f)
    (mk_snode m (fullNode (<[Z.to_nat b := nb]> (<[Z.to_nat a := mk_snode k n]> (repeat NilNode 17))) newFlag)) tr tr'.
Proof.
  intros Ha Hb Hlt Hab Hacc. apply kept_loaded; [| done].
  intros r Hr. apply behind_short_true in Hr as (s & -> & Hs).
  rewrite <- app_assoc, behind_mk_snode. cbn [app].
  rewrite <- (Z2Nat.id a) at 2 by done. rewrite behind_full, list_lookup_insert_ne by lia.
  rewrite list_lookup_insert_eq by (rewrite repeat_length; done). by rewrite behind_mk_snode.
Qed.

Lemma accessList_ins k p tr : accessList (ins k p tr) = accessList tr.
Proof. destruct k; [done |]. cbn. unfold onInsert. by case_decide. Qed.

Lemma logged_new p x k v n' tr :
  logged p NilNode n' TNil (TShort (x :: k) (TVal v)) tr (ins (x :: k) p tr).
Proof.
  split; [| split; [| done]].
  - cbn [ins]. rewrite <- (app_nil_r p) at 2. apply tracks_insert; [done | done |].
    intros r Hr. rewrite has_node_none. unfold has_node.
    destruct (sub _ r) as [s |] eqn:E; [| done]. apply sub_short_Some in E as (r' & _ & E); [| done].
    destruct r'; [| done]. by injection E as <-.
  - intros q. by rewrite accessList_ins.
Qed.

Lemma rep_mk_short p k n t : rep (p ++ k) n t → rep p (mk_snode k n) (mk_short k t).
Proof.
  destruct k as [| x k]; cbn; [by rewrite app_nil_r |]. intros H. constructor; [done | apply newFlag_ok].
Qed.

Lemma rep_branch2 p a b na nb ta tb :
  0 <= a → 0 <= b → rep (p ++ [a]) na ta → rep (p ++ [b]) nb tb →
  rep p (fullNode (<[Z.to_nat b := nb]> (<[Z.to_nat a := na]> (repeat NilNode 17))) newFlag)
    (TFull (branch2 a b ta tb)).
Proof.
  intros Ha Hb Hra Hrb. unfold branch2.
  assert (H0 : rep p (fullNode (repeat NilNode 17) newFlag) (TFull (repeat TNil 17))).
  { constructor; [done | | apply newFlag_ok]. intros i n t Hn Ht.
    apply list_elem_of_lookup_2, list_elem_of_In, repeat_spec in Hn as ->.
    apply list_elem_of_lookup_2, list_elem_of_In, repeat_spec in Ht as ->. constructor. }
  eapply rep_full_update; [eapply rep_full_update; [exact H0 | apply newFlag_ok |] | apply newFlag_ok |];
    by rewrite Z2Nat.id.
Qed.

Lemma grown_val v v0 : value_ok v → grown (TVal v0) (TVal v) [] v.
Proof.
  intros Hv. split_and!; [right; right; eauto | done | | by intros [? ?]].
  by intros key' [[_ ->] | [H _]]; [| apply tkey_nonempty in H].
Qed.

Lemma grown_nil_val v : value_ok v → grown TNil (TVal v) [] v.
Proof.
  intros Hv. split_and!; [right; right; eauto | done | | by intros [? ?]].
  by intros key' [[_ ->] | [H _]]; [| apply tkey_nonempty in H].
Qed.

(** The key is used up: only values live here. *)
Lemma insert_empty fuel n p v t tr :
  rep p n t → fits t [] → value_ok v → insert_sim (S fuel) n p [] v t tr.
Proof.
  intros Hrep Hf Hv. unfold insert_sim.
  destruct Hf as [[-> _] | [[_ Hk] | (v0 & -> & _)]]; [| by apply tkey_nonempty in Hk |].
  - inversion Hrep as [| | | | ? ? ? Hw]; subst; [| by inversion Hw]. cbn. unfold tret.
    do 4 eexists. split_and!; [done | constructor | by apply grown_nil_val | done | by apply logged_leaf].
  - inversion Hrep as [| | | | ? ? ? Hw]; subst; [| by inversion Hw]. cbn. unfold tret.
    do 4 eexists. split_and!; [done | constructor | by apply grown_val | | by apply logged_leaf].
    intros Hd. apply negb_false_iff, bool_decide_eq_true in Hd. by subst.
Qed.

Lemma slices_at {E} (m r : bytes) x :
  @slice E _ (m ++ x :: r) 0 (len m) = Ok m ∧ @at_ E _ (m ++ x :: r) (len m) = Ok x ∧
  @slice E _ (m ++ x :: r) 0 (len m + 1) = Ok (m ++ [x]) ∧ @slice_from E _ (m ++ x :: r) (len m + 1) = Ok r.
Proof.
  assert (E1 : m ++ x :: r = (m ++ [x]) ++ r) by by rewrite <- app_assoc.
  assert (E2 : len m + 1 = len (m ++ [x])) by by rewrite len_app.
  split_and!; [by apply slice_prefix_app | apply at_app | |].
  - rewrite E1, E2. by apply slice_prefix_app.
  - rewrite E1, E2. apply slice_from_app.
Qed.

Lemma set_at_ok {E A} (l : list A) i x : 0 <= i → (Z.to_nat i < length l)%nat → @set_at E A l i x = Ok (<[Z.to_nat i := x]> l).
Proof. intros Hi Hl. unfold set_at. by repeat decide_if. Qed.

Lemma insert_split fuel p m a k n f tc b r v tr :
  rep p (shortNode (m ++ a :: k) n f) (TShort (m ++ a :: k) tc) → wf (TShort (m ++ a :: k) tc) →
  tkey (m ++ b :: r) → a ≠ b → value_ok v →
  prefixLen (m ++ b :: r) (m ++ a :: k) = length m → (0 < fuel)%nat →
  insert_sim (S fuel) (shortNode (m ++ a :: k) n f) p (m ++ b :: r) v (TShort (m ++ a :: k) tc) tr.
Proof.
  intros Hrep Hw Hk Hab Hv Hpl Hfuel.
  pose proof (grown_split m a k tc b r v Hw Hk Hab Hv) as Hg.
  destruct (tkey_prefix m b r Hk) as [Hm Hbr].
  pose proof (valid_child_rest m a k tc Hm Hw) as Hva. pose proof (valid_child_new b r v Hbr Hv) as Hvb.
  pose proof (valid_child_index _ _ Hva) as (Ha & Ha17 & _). pose proof (valid_child_index _ _ Hvb) as (Hb & Hb17 & _).
  unfold insert_sim. set (key := m ++ b :: r) in *. cbn [insert].
  rewrite (proj2 (Z.eqb_neq _ 0)) by (unfold key; rewrite len_app, len_cons; lia).
  rewrite Hpl, (proj2 (Z.eqb_neq _ _)) by (rewrite len_app, len_cons; lia).
  destruct (slices_at (E := trie_error) m k a) as (_ & E1 & E2 & E3).
  destruct (slices_at (E := trie_error) m r b) as (F0 & F1 & F2 & F3). fold key in F0, F1, F2, F3.
  unfold tbind, tlift. rewrite E1, E2, E3.
  rewrite insert_nil by done.
  rewrite set_at_ok by (rewrite ?repeat_length; done). rewrite F1, F2, F3.
  rewrite insert_nil by done.
  rewrite set_at_ok by (rewrite ?length_insert, ?repeat_length; done).
  assert (Hbr2 : rep (p ++ m) (fullNode (<[Z.to_nat b := mk_snode r (valueNode v)]>
      (<[Z.to_nat a := mk_snode k n]> (repeat NilNode 17))) newFlag)
    (TFull (branch2 a b (mk_short k tc) (mk_short r (TVal v))))).
  { inversion Hrep as [| | ? ? ? ? ? Hrc | |]; subst.
    apply rep_branch2; [done | done | |]; apply rep_mk_short; [| constructor].
    by rewrite <- !app_assoc. }
  assert (Hlog : logged p (shortNode (m ++ a :: k) n f)
      (mk_snode m (fullNode (<[Z.to_nat b := mk_snode r (valueNode v)]>
        (<[Z.to_nat a := mk_snode k n]> (repeat NilNode 17))) newFlag))
      (TShort (m ++ a :: k) tc) (mk_short m (TFull (branch2 a b (mk_short k tc) (mk_short r (TVal v)))))
      tr (ins m (p ++ m) (ins r (p ++ m ++ [b]) (ins k (p ++ m ++ [a]) tr)))).
  { split; [by apply tracks_split | apply kept_split; try done]. by rewrite !accessList_ins. }
  destruct m as [| x m].
  - rewrite app_nil_r in Hbr2. do 4 eexists. split_and!; [done | exact Hbr2 | exact Hg | done | exact Hlog].
  - rewrite (proj2 (Z.eqb_neq _ 0)) by (rewrite len_cons; lia). rewrite F0. unfold trace, tret.
    do 4 eexists. split_and!; [done | | exact Hg | done | exact Hlog]. constructor; [exact Hbr2 | apply newFlag_ok].
Qed.

Lemma insert_short fuel p k n f tc r v tr :
  rep p (shortNode k n f) (TShort k tc) → wf (TShort k tc) → tkey (k ++ r) →
  insert_sim fuel n (p ++ k) r v tc tr → prefixLen (k ++ r) k = length k →
  insert_sim (S fuel) (shortNode k n f) p (k ++ r) v (TShort k tc) tr.
Proof.
  intros Hrep Hw Hk (d & n' & tr' & tc' & Hins & Hrep' & Hg & Hd & Hlog) Hpl. unfold insert_sim. cbn [insert].
  rewrite (proj2 (Z.eqb_neq _ 0)) by (apply tkey_nonempty in Hk; destruct (k ++ r); [done | cbn; lia]).
  rewrite Hpl, Z.eqb_refl. unfold tbind, tlift.
  rewrite (slice_prefix_app k r), slice_from_app, Hins by done. unfold tret.
  pose proof (wf_short_nonempty _ _ Hw) as Hne. pose proof (grown_short k r tc tc' v Hw Hk Hg) as Hg'. destruct d; cbn [negb].
  - do 4 eexists. split_and!; [done | | exact Hg' | done | by apply logged_short].
    constructor; [done | apply newFlag_ok].
  - rewrite (Hd eq_refl) in *. do 4 eexists. split_and!; [done | exact Hrep | exact Hg' | done |].
    apply (logged_drop _ _ (shortNode k n' f)). by apply logged_short.
Qed.

Lemma insert_full fuel p cn f ct i r v n t tr :
  rep p (fullNode cn f) (TFull ct) → wf (TFull ct) → tkey (i :: r) →
  cn !! Z.to_nat i = Some n → ct !! Z.to_nat i = Some t → insert_sim fuel n (p ++ [i]) r v t tr →
  insert_sim (S fuel) (fullNode cn f) p (i :: r) v (TFull ct) tr.
Proof.
  intros Hrep Hw Hk Hn Ht (d & n' & tr' & t' & Hins & Hrep' & Hg & Hd & Hlog). unfold insert_sim. cbn [insert].
  destruct (fits_child ct i r Hw Hk) as (Hi & Hlt & _). rewrite <- (Z2Nat.id i) in Hlog by done.
  rewrite (proj2 (Z.eqb_neq _ 0)) by (rewrite len_cons; lia). unfold tbind, tlift.
  change (at_ (i :: r) 0) with (@Ok trie_error Z i).
  rewrite (slice_from_app [i] r : slice_from (i :: r) 1 = @Ok trie_error _ r).
  assert (Hat : at_ cn i = @Ok trie_error _ n) by (rewrite <- (Z2Nat.id i) by done; by apply at_ok).
  rewrite Hat, Hins. unfold tret. pose proof (grown_full ct i r t t' v Hw Hk Ht Hg) as Hg'. destruct d; cbn [negb].
  - rewrite set_at_ok by (done || by eapply lookup_lt_Some).
    do 4 eexists. split_and!; [done | | exact Hg' | done | by eapply logged_full].
    apply (rep_full_update p cn f); [done | apply newFlag_ok | by rewrite Z2Nat.id].
  - rewrite (Hd eq_refl) in *. rewrite list_insert_id in Hg' by done.
    do 4 eexists. split_and!; [done | exact Hrep | exact Hg' | done |].
    rewrite <- (list_insert_id ct (Z.to_nat i) t Ht) at 2.
    apply (logged_drop _ _ (fullNode (<[Z.to_nat i := n']> cn) f)). by eapply logged_full.
Qed.

Lemma rep_lookup p cn f ct i :
  rep p (fullNode cn f) (TFull ct) → wf (TFull ct) → 0 <= i → (Z.to_nat i < 17)%nat →
  ∃ n t, cn !! Z.to_nat i = Some n ∧ ct !! Z.to_nat i = Some t ∧ rep (p ++ [i]) n t.
Proof.
  intros Hrep Hw Hi Hlt. inversion Hrep as [| | | ? ? ? ? Hlen Hch Hfl |]; subst.
  assert (H17 : length ct = 17%nat) by by inversion Hw.
  destruct (ct !! Z.to_nat i) as [t |] eqn:Et; [| apply lookup_ge_None in Et; lia].
  destruct (cn !! Z.to_nat i) as [n |] eqn:En; [| apply lookup_ge_None in En; lia].
  exists n, t. split_and!; [done | done |]. pose proof (Hch _ n t En Et) as H. by rewrite Z2Nat.id in H.
Qed.

Lemma rep_short_inv p k n f t :
  rep p (shortNode k n f) t → ∃ tc, t = TShort k tc ∧ rep (p ++ k) n tc ∧ flag_ok p f t (hashed (p ++ k) n tc).
Proof. inversion 1; subst. eauto. Qed.

Lemma insert_ok fuel n p key v t tr :
  rep p n t → fits t key → value_ok v → (2 * length key + is_hash n < fuel)%nat →
  insert_sim fuel n p key v t tr.
Proof.
  revert n p key t tr; induction fuel as [| fuel IH]; intros n p key t tr Hrep Hfit Hv Hf; [lia |].
  destruct key as [| i r] eqn:Ekey; [by apply insert_empty |]. rewrite <- Ekey in *.
  assert (Hk : tkey key).
  { subst key. destruct Hfit as [[_ [? | ?]] | [[_ ?] | (? & _ & _ & ?)]]; done. }
  assert (Hw : t ≠ TNil → wf t) by (intros; by eapply fits_wf).
  destruct n as [| cn f | k n f | h | v0].
  - inversion Hrep; subst t. unfold insert_sim. rewrite insert_nil by lia.
    do 4 eexists. split_and!; [done | | by apply grown_nil | done | by subst key; apply logged_new].
    subst key. cbn [mk_snode]. constructor; [constructor | apply newFlag_ok].
  - inversion Hrep as [| | | ? ? ? ct Hlen Hch Hfl |]; subst. specialize (Hw ltac:(done)).
    destruct (fits_child ct i r Hw Hk) as (Hi & Hlt & Hfits).
    destruct (rep_lookup p cn f ct i Hrep Hw Hi Hlt) as (n & t & Hn & Ht & Hrep').
    eapply insert_full; [done | done | done | done | done |]. apply IH; [done | by apply Hfits | done |].
    cbn in Hf. destruct n; cbn; lia.
  - destruct (rep_short_inv _ _ _ _ _ Hrep) as (tc & -> & Hrep' & Hfl). specialize (Hw ltac:(done)).
    destruct (prefixLen_split key k) as (m & rk & rn & Ek & En & Hpl & Hdiff). destruct rn as [| a k2].
    + rewrite app_nil_r in En. subst m. rewrite Ek in *. apply insert_short; [done | done | done | | done].
      pose proof (wf_short_nonempty _ _ Hw) as Hne. rewrite length_app in *.
      apply IH; [done | by eapply fits_short | done |].
      cbn in Hf. destruct k; [done |]. cbn in Hf. destruct n; cbn; lia.
    + rewrite En in *. destruct rk as [| b r'].
      { rewrite app_nil_r in Ek. subst m. by destruct (tkey_not_nibbles key Hk (wf_short_prefix _ _ _ _ Hw)). }
      rewrite Ek in *. rewrite length_app in Hf. cbn in Hf. apply insert_split; done || lia || congruence.
  - destruct (resolve_hash p h t tr Hrep) as (n & Hres & [Hrep' _] & Hnh & _ & Hlog). cbn in Hf.
    destruct (IH n p key t (onRead p (tree_enc t) tr) Hrep' Hfit Hv ltac:(lia))
      as (d & n' & tr' & t' & Hins & Hr' & Hg & Hd & Hlog').
    unfold insert_sim. cbn [insert]. rewrite (proj2 (Z.eqb_neq _ 0)) by (subst key; rewrite len_cons; lia).
    unfold tbind. rewrite Hres, Hins. unfold tret. destruct d; cbn [negb].
    + do 4 eexists. split_and!; [done | exact Hr' | exact Hg | done | by eapply logged_trans].
    + rewrite (Hd eq_refl) in *. do 4 eexists. split_and!; [done | exact Hrep' | exact Hg | done |].
      eapply logged_trans; [exact Hlog | by eapply logged_drop].
  - inversion Hrep; subst. specialize (Hw ltac:(done)). inversion Hw.
Qed.

(** ** Deleting *)

Lemma rep_nil_iff p n t : rep p n t → n = NilNode ↔ t = TNil.
Proof. destruct 1 as [| | | | ? ? ? Hw]; try done. split; [done |]. intros ->. inversion Hw. Qed.

#[local] Instance nil_node_dec n : Decision (n = NilNode).
Proof. by destruct n; [left | right | right | right | right]. Defined.

Lemma only_child_cons n l i pos :
  only_child (n :: l) i pos =
  if decide (n = NilNode) then only_child l (i + 1) pos
  else if pos =? -1 then only_child l (i + 1) i else -2.
Proof. by destruct n. Qed.

Lemma only_child_seen l i pos :
  0 <= pos → (only_child l i pos = pos ∧ Forall (eq NilNode) l) ∨
  (only_child l i pos = -2 ∧ ∃ j n, l !! j = Some n ∧ n ≠ NilNode).
Proof.
  intros Hp. revert i; induction l as [| n l IH]; intros i; [left; by split |].
  rewrite only_child_cons. case_decide as Hn.
  - destruct (IH (i + 1)) as [[-> H] | [-> (j & m & Hj & Hm)]]; [left; split; [done | by constructor] |].
    right. split; [done |]. by exists (S j), m.
  - rewrite (proj2 (Z.eqb_neq _ _)) by lia. right. split; [done |]. by exists 0%nat, n.
Qed.

(** The search for the only child finds it, or two. *)
Lemma only_child_cases l i :
  0 <= i →
  (only_child l i (-1) = -1 ∧ Forall (eq NilNode) l) ∨
  (∃ j n, l !! j = Some n ∧ n ≠ NilNode ∧ only_child l i (-1) = i + Z.of_nat j ∧
     ∀ j' n', j' ≠ j → l !! j' = Some n' → n' = NilNode) ∨
  (only_child l i (-1) = -2 ∧ ∃ j1 j2 n1 n2, j1 ≠ j2 ∧ l !! j1 = Some n1 ∧ n1 ≠ NilNode ∧
     l !! j2 = Some n2 ∧ n2 ≠ NilNode).
Proof.
  revert i; induction l as [| n l IH]; intros i Hi; [left; by split |].
  rewrite only_child_cons. case_decide as Hn.
  - destruct (IH (i + 1) ltac:(lia)) as [[-> H] | [(j & m & Hj & Hm & -> & Ho) | [-> (j1 & j2 & n1 & n2 & Hj & H)]]].
    + left. split; [done | by constructor].
    + right; left. exists (S j), m. split_and!; [done | done | lia |].
      intros [| j'] n' Hne Hj'; [by injection Hj' as <- |]. apply (Ho j'); [congruence | done].
    + right; right. split; [done |]. exists (S j1), (S j2), n1, n2. split; [congruence | done].
  - cbn [Z.eqb Pos.eqb]. destruct (only_child_seen l (i + 1) i Hi) as [[-> H] | [-> (j & m & Hj & Hm)]].
    + right; left. exists 0%nat, n. split_and!; [done | done | lia |].
      intros [| j'] n' Hne Hj'; [done |]. rewrite Forall_lookup in H. symmetry. by apply (H j').
    + right; right. split; [done |]. by exists 0%nat, (S j), n, m.
Qed.

Definition delete_sim (fuel : nat) (n : node) (p key : bytes) (t : tree) (tr : tracer) : Prop :=
  ∃ d n' tr' t', delete rd fuel n p key tr = (Ok (d, n'), tr') ∧
    rep p n' t' ∧ shrunk t t' key ∧ (d = false → t' = t) ∧ (d = true → is_hash n' = 0%nat) ∧
    logged p n n' t t' tr tr'.

Lemma accessList_onDelete p tr : accessList (onDelete p tr) = accessList tr.
Proof. unfold onDelete. by case_decide. Qed.

Lemma behind_val p n v r : rep p n (TVal v) → behind n r = false.
Proof. inversion 1 as [| | | | ? ? ? Hw]; subst; [done | inversion Hw]. Qed.

(** A leaf goes. *)
Lemma logged_gone p k n f v tr :
  k ≠ [] → rep (p ++ k) n (TVal v) →
  logged p (shortNode k n f) NilNode (TShort k (TVal v)) TNil tr (onDelete p tr).
Proof.
  intros Hk Hrep. split; [| split].
  - rewrite <- (app_nil_r p) at 2. apply tracks_delete; [done | done |]. intros r Hr.
    rewrite has_node_none. unfold has_node. destruct (sub _ r) as [s |] eqn:E; [| done].
    apply sub_short_Some in E as (r' & _ & E); [| done]. destruct r'; [| done]. by injection E as <-.
  - intros q. by rewrite accessList_onDelete.
  - intros r Hr. apply behind_short_true in Hr as (s & -> & Hs). by rewrite (behind_val _ _ _ _ Hrep) in Hs.
Qed.

(** Two short nodes become one. *)
Lemma logged_merge p k k2 n2 t2 f f2 f' tr :
  k ≠ [] → k2 ≠ [] →
  logged p (shortNode k (shortNode k2 n2 f2) f) (shortNode (k ++ k2) n2 f')
    (TShort k (TShort k2 t2)) (TShort (k ++ k2) t2) tr (onDelete (p ++ k) tr).
Proof.
  intros Hk Hk2. split; [by apply tracks_merge |]. apply kept_loaded; [| apply accessList_onDelete].
  intros r Hr. apply behind_short_true in Hr as (s & -> & Hs). apply behind_short_true in Hs as (s2 & -> & Hs).
  by rewrite app_assoc, behind_short.
Qed.

(** A branch with one child left becomes a one-nibble short node. *)
Lemma logged_one p cn cc j n s f f' tr :
  cn !! j = Some n → cc !! j = Some s →
  (∀ j' n', j' ≠ j → cn !! j' = Some n' → n' = NilNode) → (∀ j' s', j' ≠ j → cc !! j' = Some s' → s' = TNil) →
  logged p (fullNode cn f) (shortNode [Z.of_nat j] n f') (TFull cc) (TShort [Z.of_nat j] s) tr tr.
Proof.
  intros Hn Hs Hon Hos. split.
  - eapply tracks_ext; [by apply tracks_same |]. intros r. by apply has_node_one.
  - apply kept_loaded; [| done]. intros r Hr. apply behind_full_true in Hr as (i & r' & n' & -> & Hi & Hb).
    destruct (decide (i = j)) as [-> | Hne]; [| by rewrite (Hon i n' Hne Hi) in Hb].
    rewrite Hn in Hi. injection Hi as <-. change (Z.of_nat j :: r') with ([Z.of_nat j] ++ r').
    by rewrite behind_short.
Qed.

Lemma delete_short fuel p k n f tc r tr :
  rep p (shortNode k n f) (TShort k tc) → wf (TShort k tc) → tkey (k ++ r) →
  prefixLen (k ++ r) k = length k → (r ≠ [] → delete_sim fuel n (p ++ k) r tc tr) →
  delete_sim (S fuel) (shortNode k n f) p (k ++ r) (TShort k tc) tr.
Proof.
  intros Hrep Hw Hk Hpl IH. unfold delete_sim. cbn [delete]. rewrite Hpl, Z.ltb_irrefl, len_app.
  destruct (decide (r = [])) as [-> | Hr].
  - rewrite (proj2 (Z.eqb_eq _ _)) by (cbn; lia). rewrite app_nil_r in *. unfold tbind, trace, tret.
    inversion Hw as [l v Hl Hv | ? c Hl Hne Hwc |]; subst; [| by destruct (tkey_not_nibbles k Hk Hl)].
    inversion Hrep; subst. pose proof (wf_short_nonempty _ _ Hw) as Hne.
    do 4 eexists. split_and!; [done | constructor | by apply shrunk_leaf | done | done | by apply logged_gone].
  - rewrite (proj2 (Z.eqb_neq _ _)) by (destruct r; [done | cbn; lia]). unfold tbind, tlift.
    rewrite (slice_prefix_app k r), slice_from_app by done.
    destruct (IH Hr) as (d & n' & tr' & tc' & -> & Hrep' & Hs & Hd & Hnh & Hlog).
    pose proof (wf_short_nonempty _ _ Hw) as Hkn. inversion Hw as [l v Hl Hv | ? c Hl Hne Hwc |]; subst.
    { by destruct Hr; eapply tkey_suffix_term. }
    destruct (shrunk_short k c r tc' Hw Hk Hs) as [Hs' Hwt]. destruct d; cbn [negb].
    + destruct n' as [| cn f' | k2 n2 f2 | h | v]; unfold tret, trace.
      * inversion Hrep'; subst. inversion Hwt.
      * inversion Hrep'; subst. do 4 eexists.
        split_and!; [done | | exact Hs' | done | done | by apply logged_short].
        constructor; [done | apply newFlag_ok].
      * destruct (rep_short_inv _ _ _ _ _ Hrep') as (t2 & -> & Hr2 & _).
        pose proof (wf_short_nonempty _ _ Hwt) as Hk2. do 4 eexists. split_and!; [done | | exact Hs' | done | done |].
        -- constructor; [by rewrite app_assoc | apply newFlag_ok].
        -- apply (logged_short p k _ _ f newFlag) in Hlog; [| done].
           eapply logged_trans; [exact Hlog | by apply logged_merge].
      * by specialize (Hnh eq_refl).
      * inversion Hrep'; subst. inversion Hwt.
    + rewrite (Hd eq_refl) in *. unfold tret. do 4 eexists. split_and!; [done | exact Hrep | exact Hs' | done | done |].
      apply (logged_drop _ _ (shortNode k n' f)). by apply logged_short.
Qed.

Lemma delete_short_miss fuel p k n f tc key tr :
  rep p (shortNode k n f) (TShort k tc) → fits (TShort k tc) key → (prefixLen key k < length k)%nat →
  delete_sim (S fuel) (shortNode k n f) p key (TShort k tc) tr.
Proof.
  intros Hrep Hf Hpl. unfold delete_sim. cbn [delete]. rewrite (proj2 (Z.ltb_lt _ _)) by lia. unfold tret.
  do 4 eexists. split_and!; [done | exact Hrep | | done | done | apply logged_same]. apply shrunk_same; [done |].
  destruct (tget (TShort k tc) key) eqn:E; [| done]. apply tget_short_Some in E as (r & -> & _).
  exfalso. clear -Hpl. induction k as [| x k IH]; cbn in Hpl; [lia |]. rewrite Z.eqb_refl in Hpl. apply IH. lia.
Qed.

Lemma resolve_ok p n t tr :
  rep p n t → ∃ n2 tr2, resolve rd n p tr = (Ok n2, tr2) ∧ rep p n2 t ∧ is_hash n2 = 0%nat ∧ logged p n n2 t t tr tr2.
Proof.
  intros Hrep. destruct (is_hash n) eqn:Hh.
  - exists n, tr. split_and!; [by destruct n | done | done | apply logged_same].
  - destruct n as [| | | h |]; try done.
    destruct (resolve_hash p h t tr Hrep) as (n & ? & [? _] & ? & _ & ?). by eauto 10.
Qed.

(** Reducing a branch whose child [i] is gone. *)
Lemma reduceFull_ok p cn cc tr t key :
  rep p (fullNode cn newFlag) (TFull cc) → length cc = 17%nat →
  (∀ j s, cc !! j = Some s → s ≠ TNil → valid_child (Z.of_nat j) s) →
  (∃ j s, cc !! j = Some s ∧ s ≠ TNil) →
  (∀ j1 j2 s1 s2, j1 ≠ j2 → cc !! j1 = Some s1 → s1 ≠ TNil → cc !! j2 = Some s2 → s2 ≠ TNil →
     shrunk t (TFull cc) key) →
  (∀ j s, cc !! j = Some s → s ≠ TNil → (∀ j' s', j' ≠ j → cc !! j' = Some s' → s' = TNil) →
     shrunk t (merge [Z.of_nat j] s) key) →
  ∃ n' tr' t', reduceFull rd p cn tr = (Ok (true, n'), tr') ∧
    rep p n' t' ∧ shrunk t t' key ∧ is_hash n' = 0%nat ∧ logged p (fullNode cn newFlag) n' (TFull cc) t' tr tr'.
Proof.
  intros Hrep Hlen Hvc (j0 & s0 & Hj0 & Hs0) Htwo Hone. unfold reduceFull. cbn zeta.
  inversion Hrep as [| | | ? ? ? ? Hl Hch _ |]; subst.
  assert (Hcn : ∀ j s, cc !! j = Some s → s ≠ TNil → ∃ n, cn !! j = Some n ∧ n ≠ NilNode ∧ rep (p ++ [Z.of_nat j]) n s).
  { intros j s Hj Hs. destruct (cn !! j) as [n |] eqn:En.
    - exists n. pose proof (Hch j n s En Hj) as Hr. split_and!; [done | | done].
      intros ->. by apply Hs, (rep_nil_iff _ _ _ Hr).
    - apply lookup_ge_None in En. apply lookup_lt_Some in Hj. lia. }
  assert (Hcc : ∀ j n, cn !! j = Some n → ∃ s, cc !! j = Some s ∧ rep (p ++ [Z.of_nat j]) n s).
  { intros j n Hn. destruct (cc !! j) as [s |] eqn:Es; [by eauto |].
    apply lookup_ge_None in Es. apply lookup_lt_Some in Hn. lia. }
  destruct (only_child_cases cn 0 ltac:(lia)) as [[_ Hall] | [(j & n & Hj & Hn & -> & Ho) | [-> (j1 & j2 & n1 & n2 & Hne & H1 & Hn1 & H2 & Hn2)]]].
  - exfalso. destruct (Hcn j0 s0 Hj0 Hs0) as (n & Hn & Hne & _). rewrite Forall_lookup in Hall.
    by specialize (Hall j0 n Hn).
  - destruct (Hcc j n Hj) as (s & Hs & Hrs).
    assert (Hsn : s ≠ TNil) by (intros ->; by apply Hn, (rep_nil_iff _ _ _ Hrs)).
    assert (Hos : ∀ j' s', j' ≠ j → cc !! j' = Some s' → s' = TNil).
    { intros j' s' Hj' Hs'. destruct (decide (s' = TNil)) as [| Hs'n]; [done |].
      destruct (Hcn j' s' Hs' Hs'n) as (n' & Hn' & Hnn & _). by destruct Hnn; apply (Ho j'). }
    assert (Hso : shrunk t (merge [Z.of_nat j] s) key) by by apply Hone.
    pose proof (logged_one p cn cc j n s newFlag newFlag tr Hj Hs Ho Hos) as Hl1.
    rewrite (proj2 (Z.leb_le _ _)) by lia. rewrite Z.add_0_l. unfold tbind at 1, tlift. rewrite (at_ok _ _ _ Hj).
    destruct (Hvc j s Hs Hsn) as [[Hnib Hws] | [E16 (v & -> & _)]].
    + unfold is_nibble in Hnib. rewrite (proj2 (Z.eqb_neq _ _)) by lia. cbn [negb]. unfold tbind.
      destruct (resolve_ok (p ++ [Z.of_nat j]) n s tr Hrs) as (n2 & tr2 & -> & Hr2 & Hh2 & Hl2).
      apply (logged_short p [Z.of_nat j] n n2 newFlag newFlag) in Hl2; [| done].
      pose proof (logged_trans _ _ _ _ _ _ _ _ _ _ Hl1 Hl2) as Hl3.
      pose proof (logged_trans _ _ _ _ _ _ _ _ _ _ Hl1 (logged_drop _ _ _ _ _ _ _ Hl2)) as Hl4. destruct n2 as [| c2 f2 | k2 v2 f2 | h2 | v2].
      * inversion Hr2; subst. done.
      * unfold tret. inversion Hr2; subst. do 3 eexists. split_and!; [done | | exact Hso | done | exact Hl4].
        constructor; [done | apply newFlag_ok].
      * unfold trace, tret. destruct (rep_short_inv _ _ _ _ _ Hr2) as (tc & -> & Hr3 & _).
        pose proof (wf_short_nonempty _ _ Hws) as Hk2. do 3 eexists. split_and!; [done | | exact Hso | done |].
        -- constructor; [by rewrite <- app_assoc in Hr3 | apply newFlag_ok].
        -- eapply logged_trans; [exact Hl3 | by apply (logged_merge p [Z.of_nat j])].
      * by cbn in Hh2.
      * inversion Hr2; subst. inversion Hws.
    + rewrite (proj2 (Z.eqb_eq _ _)) by lia. cbn [negb]. unfold tret. do 3 eexists.
      split_and!; [done | | exact Hso | done | exact Hl1]. constructor; [done | apply newFlag_ok].
  - change (0 <=? -2) with false. cbv iota. unfold tret.
    destruct (Hcc j1 n1 H1) as (s1 & Hs1 & Hr1), (Hcc j2 n2 H2) as (s2 & Hs2 & Hr2).
    do 3 eexists. split_and!; [done | exact Hrep | | done | apply logged_same]. apply (Htwo j1 j2 s1 s2); try done.
    + intros ->. by apply Hn1, (rep_nil_iff _ _ _ Hr1).
    + intros ->. by apply Hn2, (rep_nil_iff _ _ _ Hr2).
Qed.

Lemma delete_full fuel p cn f ct i r n t tr :
  rep p (fullNode cn f) (TFull ct) → wf (TFull ct) → tkey (i :: r) →
  cn !! Z.to_nat i = Some n → ct !! Z.to_nat i = Some t → delete_sim fuel n (p ++ [i]) r t tr →
  delete_sim (S fuel) (fullNode cn f) p (i :: r) (TFull ct) tr.
Proof.
  intros Hrep Hw Hk Hn Ht (d & n' & tr' & t' & Hdel & Hrep' & Hs & Hd & Hnh & Hlog). unfold delete_sim. cbn [delete].
  destruct (fits_child ct i r Hw Hk) as (Hi & Hlt & _). rewrite <- (Z2Nat.id i) in Hlog by done.
  pose proof (logged_full p cn ct (Z.to_nat i) n n' f newFlag t t' tr tr' Hn Ht Hlog) as Hl1.
  assert (H17 : length ct = 17%nat) by by inversion Hw. unfold tbind at 1, tlift at 1.
  change (at_ (i :: r) 0) with (@Ok trie_error Z i). unfold tbind at 1, tlift at 1.
  rewrite (slice_from_app [i] r : slice_from (i :: r) 1 = @Ok trie_error _ r). unfold tbind at 1, tlift at 1.
  assert (Hat : at_ cn i = @Ok trie_error _ n) by (rewrite <- (Z2Nat.id i) by done; by apply at_ok).
  rewrite Hat. unfold tbind at 1. rewrite Hdel. destruct d; cbn [negb].
  - unfold tbind, tlift. rewrite set_at_ok by (done || by eapply lookup_lt_Some).
    assert (Hrep2 : rep p (fullNode (<[Z.to_nat i := n']> cn) newFlag) (TFull (<[Z.to_nat i := t']> ct))).
    { apply (rep_full_update p cn f); [done | apply newFlag_ok | by rewrite Z2Nat.id]. }
    destruct (decide (n' = NilNode)) as [-> | Hnn].
    + assert (t' = TNil) as -> by by apply (rep_nil_iff _ _ _ Hrep').
      destruct (shrunk_full_nil ct i r t Hw Hk Ht Hs) as (_ & Hch & Hex).
      destruct (reduceFull_ok p _ _ tr' (TFull ct) (i :: r) Hrep2) as (n2 & tr2 & t2 & -> & Hr2 & Hs2 & Hh2 & Hl2).
      * by rewrite length_insert.
      * intros j s Hj Hsn. by apply (Hch j).
      * done.
      * intros. by eapply (shrunk_full_two ct i r t j1 j2 s1 s2).
      * intros. by eapply (shrunk_full_one ct i r t).
      * do 4 eexists. split_and!; [done | done | done | done | done | by eapply logged_trans].
    + assert (Htn : t' ≠ TNil) by (intros ->; by apply Hnn, (rep_nil_iff _ _ _ Hrep')).
      pose proof (shrunk_full ct i r t t' Hw Hk Ht Hs Htn) as Hs'.
      destruct n'; [done | | | |]; unfold tret; do 4 eexists; by split_and!.
  - rewrite (Hd eq_refl) in *. unfold tret.
    rewrite (list_insert_id ct) in Hl1 by done.
    do 4 eexists. split_and!; [done | exact Hrep | | done | done | by eapply logged_drop].
    apply shrunk_same; [by right; left |]. rewrite tget_full, Ht.
    destruct Hs as (_ & Hu & _). rewrite Hu; [by rewrite decide_True |].
    apply tkey_cons_inv in Hk as [[_ ->] | [_ ?]]; [by left | by right].
Qed.

Lemma delete_ok fuel n p key t tr :
  rep p n t → fits t key → (2 * length key + is_hash n < fuel)%nat → delete_sim fuel n p key t tr.
Proof.
  revert n p key t tr; induction fuel as [| fuel IH]; intros n p key t tr Hrep Hfit Hf; [lia |].
  destruct n as [| cn f | k n f | h | v0].
  - inversion Hrep; subst. unfold delete_sim. cbn. unfold tret. do 4 eexists.
    split_and!; [done | constructor | by apply shrunk_same | done | done | apply logged_same].
  - inversion Hrep as [| | | ? ? ? ct Hlen Hch Hfl |]; subst.
    destruct Hfit as [[? _] | [[Hw Hk] | (v & ? & _)]]; [done | | done].
    destruct key as [| i r]; [by apply tkey_nonempty in Hk |].
    destruct (fits_child ct i r Hw Hk) as (Hi & Hlt & Hfits).
    destruct (rep_lookup p cn f ct i Hrep Hw Hi Hlt) as (n & t & Hn & Ht & Hrep').
    eapply delete_full; [done | done | done | done | done |]. apply IH; [done | by apply Hfits |].
    cbn in Hf. destruct n; cbn; lia.
  - destruct (rep_short_inv _ _ _ _ _ Hrep) as (tc & -> & Hrep' & Hfl).
    destruct (prefixLen_split key k) as (m & rk & rn & Ek & En & Hpl & Hdiff). destruct rn as [| a k2].
    + rewrite app_nil_r in En. subst m. rewrite Ek in *.
      destruct Hfit as [[? _] | [[Hw Hk] | (v & ? & _)]]; [done | | done].
      apply delete_short; [done | done | done | done |]. intros _.
      pose proof (wf_short_nonempty _ _ Hw) as Hne. rewrite length_app in Hf.
      apply IH; [done | by eapply fits_short |]. cbn in Hf. destruct k; [done |]. cbn in Hf. destruct n; cbn; lia.
    + apply delete_short_miss; [done | done |]. rewrite Hpl, En, length_app. cbn. lia.
  - destruct (resolve_hash p h t tr Hrep) as (n & Hres & [Hrep' _] & Hnh & _ & Hlog). cbn in Hf.
    destruct (IH n p key t (onRead p (tree_enc t) tr) Hrep' Hfit ltac:(lia))
      as (d & n' & tr' & t' & Hdel & Hr' & Hg & Hd & Hh & Hlog').
    unfold delete_sim. cbn [delete]. unfold tbind. rewrite Hres, Hdel. unfold tret. destruct d; cbn [negb].
    + do 4 eexists. split_and!; [done | exact Hr' | done | done | done | by eapply logged_trans].
    + rewrite (Hd eq_refl) in *. do 4 eexists. split_and!; [done | exact Hrep' | done | done | done |].
      eapply logged_trans; [exact Hlog | by eapply logged_drop].
  - inversion Hrep; subst. destruct Hfit as [[? _] | [[Hw _] | (v & _ & _ & ->)]]; [done | by inversion Hw |].
    unfold delete_sim. cbn. unfold tret. do 4 eexists.
    split_and!; [done | constructor | apply shrunk_val | done | done | by apply logged_leaf].
Qed.
End Refine.

(** ** Tries as maps *)

Section Maps.
  Context `{HF : Hasher} `{HL : !HasherLaws}.

Lemma hex_tkey key : bytes_ok key → tkey (keybytesToHex key).
Proof. intros Hk. exists (unpack key). split; [by apply unpack_nibbles | done]. Qed.

Lemma hex_inj key key' : bytes_ok key → bytes_ok key' → keybytesToHex key = keybytesToHex key' → key = key'.
Proof.
  intros Hk Hk' E. unfold keybytesToHex in E. apply app_inv_tail in E.
  rewrite <- (pack_unpack key), <- (pack_unpack key') by done. unfold unpack. by rewrite E.
Qed.

(** The tree holds the values of the map [m] under the hex forms of its keys. *)
Definition holds (t : tree) (m : gmap bytes bytes) : Prop :=
  (∀ key, bytes_ok key → tget t (keybytesToHex key) = m !! key) ∧
  (∀ hex v, tkey hex → tget t hex = Some v → ∃ key, bytes_ok key ∧ hex = keybytesToHex key).

(** Stored nodes that have been loaded are in the access list. *)
Definition accessed (a0 : tree) (n : node) (tr : tracer) : Prop :=
  ∀ q t, orig a0 q t → wf t → big q t → is_Some (accessList tr !! q) ∨ behind n q = true.

(** The trie [t], opened over a database that holds [a0], is [a] now. *)
Record trie_is (t : Trie) (a0 a : tree) : Prop := MkTrieIs {
  ti_open : committed t = false;
  ti_owner : rd_owner (t_reader t) = owner t;
  ti_orig : wf_root a0;
  ti_db : db_holds (t_reader t) a0;
  ti_rep : rep a0 [] (root t) a;
  ti_wf : wf_root a;
  ti_traced : traced (has_node a0) [] (has_node a) (t_tracer t);
  ti_accessed : accessed a0 (root t) (t_tracer t)
}.

Definition represents_tree (t : Trie) (a0 a : tree) (m : gmap bytes bytes) : Prop := trie_is t a0 a ∧ holds a m.

Definition represents_over (a0 : tree) (t : Trie) (m : gmap bytes bytes) : Prop := ∃ a, represents_tree t a0 a m.

Definition represents (t : Trie) (m : gmap bytes bytes) : Prop := ∃ a0, represents_over a0 t m.

Lemma trie_is_step t t' a0 a a' :
  trie_is t a0 a → committed t' = false → t_reader t' = t_reader t → owner t' = owner t → rep a0 [] (root t') a' → wf_root a' →
  logged a0 [] (root t) (root t') a a' (t_tracer t) (t_tracer t') → trie_is t' a0 a'.
Proof.
  intros [_ Ho Hw0 Hdb _ _ Ht Ha] Hc Hrd How Hr Hw [[_ Htr] [Hm Hk]].
  constructor; [done | by rewrite Hrd, How | done | by rewrite Hrd | done | done | by apply Htr |].
  intros q s Hq0 Hws Hb. destruct (Ha q s Hq0 Hws Hb) as [? | Hq]; [by left; apply Hm |].
  destruct (Hk q Hq) as [? | Hs]; [by right | left]. by eapply Hs.
Qed.

Lemma fits_root a key : wf_root a → bytes_ok key → fits a (keybytesToHex key).
Proof. intros [-> | Hw] Hk; [left | right; left]; eauto using hex_tkey. Qed.

Lemma fuel_root n k : (2 * length k + is_hash n < op_fuel k)%nat.
Proof. unfold op_fuel. destruct n; cbn; lia. Qed.

(** What [upd] at a key does to the map. *)
Lemma holds_upd a a' m key v :
  holds a m → bytes_ok key → upd a a' (keybytesToHex key) v →
  holds a' (match v with Some v => <[key := v]> m | None => base.delete key m end).
Proof.
  intros [H1 H2] Hk Hu. split.
  - intros key' Hk'. rewrite Hu by (right; split; by apply hex_tkey). case_decide as E.
    + apply hex_inj in E as ->; [| done | done]. destruct v; [by rewrite lookup_insert_eq | by rewrite lookup_delete_eq].
    + assert (key ≠ key') by congruence. rewrite H1 by done.
      destruct v; [by rewrite lookup_insert_ne | by rewrite lookup_delete_ne].
  - intros hex v' Hh Hg. rewrite Hu in Hg by (right; split; [by apply hex_tkey | done]).
    case_decide; [by eauto | by eapply H2].
Qed.

Lemma Get_ok t a0 a m key :
  represents_tree t a0 a m → bytes_ok key →
  ∃ t', Get t key = (Ok (m !! key), t') ∧ represents_tree t' a0 a m ∧ t_reader t' = t_reader t.
Proof.
  intros [Ht Hh] Hk. unfold Get. rewrite (ti_open _ _ _ Ht). pose proof (ti_wf _ _ _ Ht) as Hw.
  destruct (get_ok (t_reader t) a0 (ti_db _ _ _ Ht) _ (root t) [] (keybytesToHex key) a (t_tracer t) (ti_rep _ _ _ Ht)
    (fits_root a key Hw Hk) (fuel_root _ _)) as (n' & b & tr' & Hget & Hr' & _ & Hb & Hlog).
  change (len []) with 0 in Hget. cbn [app] in Hget. rewrite Hget, (proj1 Hh key Hk). eexists.
  split; [done |]. split; [| by destruct b]. split; [| done].
  destruct b; [| rewrite (Hb eq_refl) in *]; (eapply trie_is_step; [exact Ht | apply Ht | done | done | done | done | done]).
Qed.

Lemma store_ok t a0 a m a' key v d n tr :
  represents_tree t a0 a m → bytes_ok key → rep a0 [] n a' → wf_root a' →
  upd a a' (keybytesToHex key) v → logged a0 [] (root t) n a a' (t_tracer t) tr →
  ∃ t', store_root (inc_unhashed t) (Ok (d, n), tr) = (Ok tt, t') ∧ t_reader t' = t_reader t ∧
    represents_over a0 t' (match v with Some v => <[key := v]> m | None => base.delete key m end).
Proof.
  intros [Ht Hh] Hk Hr' Hw' Hu Hlog. eexists. split; [done |]. split; [done |]. exists a'.
  split; [| by eapply holds_upd]. eapply trie_is_step; [exact Ht | apply Ht | done | done | done | done | done].
Qed.

Lemma Delete_ok t a0 m key :
  represents_over a0 t m → bytes_ok key →
  ∃ t', Delete t key = (Ok tt, t') ∧ t_reader t' = t_reader t ∧ represents_over a0 t' (base.delete key m).
Proof.
  intros [a Ha] Hk. pose proof Ha as [Ht _]. unfold Delete. rewrite (ti_open _ _ _ Ht). cbn zeta.
  destruct (delete_ok (t_reader t) a0 (ti_db _ _ _ Ht) _ (root t) [] (keybytesToHex key) a (t_tracer t) (ti_rep _ _ _ Ht)
    (fits_root a key (ti_wf _ _ _ Ht) Hk) (fuel_root _ _)) as (d & n' & tr' & a' & Hdel & Hr' & (Hf & Hu & _) & _ & _ & Hlog).
  destruct (store_ok t a0 a m a' key None d n' tr') as (t' & E & Hrd & Hrep'); try done.
  { destruct Hf as [[? _] | [[? _] | (v & _ & _ & Hk0)]]; [by left | by right |].
    by apply tkey_nonempty in Hk0; [| apply hex_tkey]. }
  exists t'. unfold inc_unhashed in *. cbn in *. rewrite Hdel. by split_and!.
Qed.

Lemma Update_ok t a0 m key v :
  represents_over a0 t m → bytes_ok key → bytes_ok v → small v →
  ∃ t', Update t key v = (Ok tt, t') ∧ t_reader t' = t_reader t ∧
    represents_over a0 t' (if decide (v = []) then base.delete key m else <[key := v]> m).
Proof.
  intros Hrep0 Hk Hv Hs. pose proof Hrep0 as [a Ha]. pose proof Ha as [Ht _].
  unfold Update. rewrite (ti_open _ _ _ Ht). unfold update. cbn zeta. case_decide as Ev.
  - subst v. change (negb (len [] =? 0)) with false. cbv iota.
    destruct (Delete_ok t a0 m key Hrep0 Hk) as (t' & E & Hrd & Hrep').
    unfold Delete in E. rewrite (ti_open _ _ _ Ht) in E. by exists t'.
  - rewrite (proj2 (Z.eqb_neq _ 0)) by (destruct v; [done | cbn; lia]). cbn [negb].
    destruct (insert_ok (t_reader t) a0 (ti_db _ _ _ Ht) _ (root t) [] (keybytesToHex key) v a (t_tracer t) (ti_rep _ _ _ Ht)
      (fits_root a key (ti_wf _ _ _ Ht) Hk) ltac:(by split_and!) (fuel_root _ _))
      as (d & n' & tr' & a' & Hins & Hr' & (Hf & Hn & Hu & _) & _ & Hlog).
    destruct (store_ok t a0 a m a' key (Some v) d n' tr') as (t' & E & Hrd & Hrep'); try done.
    { right. eapply fits_wf; [done | by apply hex_tkey | done]. }
    exists t'. unfold inc_unhashed in *. cbn in *. rewrite Hins. by split_and!.
Qed.

(** *** Sequences of operations *)

Inductive trie_op :=
| OpGet (key : bytes)
| OpUpdate (key value : bytes)
| OpDelete (key : bytes).

Definition op_ok (o : trie_op) : Prop :=
  match o with
  | OpGet key | OpDelete key => bytes_ok key
  | OpUpdate key v => bytes_ok key ∧ bytes_ok v ∧ small v
  end.

(** Run operations on a trie: the values read, until something fails. *)
Fixpoint run_trie (ops : list trie_op) (t : Trie) : tr (list (option bytes)) * Trie :=
  match ops with
  | [] => (Ok [], t)
  | o :: ops =>
      let '(r, t) := match o with
                     | OpGet key => let '(r, t) := Get t key in (v ← r; Ok [v], t)
                     | OpUpdate key v => let '(r, t) := Update t key v in (_ ← r; Ok [], t)
                     | OpDelete key => let '(r, t) := Delete t key in (_ ← r; Ok [], t)
                     end in
      match r with
      | Ok vs => let '(r, t) := run_trie ops t in (ws ← r; Ok (vs ++ ws), t)
      | _ => (r, t)
      end
  end.

(** The same operations on a map. *)
Fixpoint run_map (ops : list trie_op) (m : gmap bytes bytes) : list (option bytes) * gmap bytes bytes :=
  match ops with
  | [] => ([], m)
  | OpGet key :: ops => let '(vs, m') := run_map ops m in (m !! key :: vs, m')
  | OpUpdate key v :: ops => run_map ops (if decide (v = []) then base.delete key m else <[key := v]> m)
  | OpDelete key :: ops => run_map ops (base.delete key m)
  end.

Lemma run_ok ops t a0 m :
  represents_over a0 t m → Forall op_ok ops →
  ∃ t', run_trie ops t = (Ok (fst (run_map ops m)), t') ∧ represents_over a0 t' (snd (run_map ops m)) ∧
    t_reader t' = t_reader t.
Proof.
  revert t m; induction ops as [| [key | key v | key] ops IH]; intros t m Hrep Hops; cbn; [by eauto |..];
    apply Forall_cons in Hops as [Ho Hops].
  - destruct Hrep as [a Ha]. destruct (Get_ok t a0 a m key Ha Ho) as (t1 & -> & Hrep1 & Hrd). cbn.
    destruct (IH t1 m ltac:(by exists a) Hops) as (t2 & -> & Hrep2 & Hrd2).
    destruct (run_map ops m) as [vs m']. cbn in *. exists t2. split_and!; [done | done | congruence].
  - destruct Ho as (Hk & Hv & Hs). destruct (Update_ok t a0 m key v Hrep Hk Hv Hs) as (t1 & -> & Hrd & Hrep1). cbn.
    destruct (IH t1 _ Hrep1 Hops) as (t2 & -> & Hrep2 & Hrd2). cbn. exists t2.
    split_and!; [done | done | congruence].
  - destruct (Delete_ok t a0 m key Hrep Ho) as (t1 & -> & Hrd & Hrep1). cbn.
    destruct (IH t1 _ Hrep1 Hops) as (t2 & -> & Hrep2 & Hrd2). cbn. exists t2.
    split_and!; [done | done | congruence].
Qed.

(** C1.  The trie is a map.  Whatever part of it is loaded and whatever is still
    in the database, every sequence of Get, Update and Delete succeeds and reads
    what the same operations on a finite map read (an update with an empty value
    removes the key); the trie afterwards represents the map afterwards. *)
Theorem trie_refines_map ops t m :
  represents t m → Forall op_ok ops →
  ∃ t', run_trie ops t = (Ok (fst (run_map ops m)), t') ∧ represents t' (snd (run_map ops m)).
Proof.
  intros [a0 Hrep] Hops. destruct (run_ok ops t a0 m Hrep Hops) as (t' & H1 & H2 & _). exists t'.
  split; [done | by exists a0].
Qed.


Lemma holds_canonical a1 a2 m : wf_root a1 → wf_root a2 → holds a1 m → holds a2 m → a1 = a2.
Proof.
  intros Hw1 Hw2 H1 H2. apply wf_root_canonical; [done | done |].
  intros hex Hh. destruct (tget a1 hex) as [v |] eqn:E1.
  - destruct (proj2 H1 hex v Hh E1) as (key & Hk & ->). by rewrite (proj1 H2), <- (proj1 H1), E1.
  - destruct (tget a2 hex) as [v |] eqn:E2; [| done].
    destruct (proj2 H2 hex v Hh E2) as (key & Hk & ->).
    by rewrite (proj1 H2), <- (proj1 H1), E1 in E2.
Qed.
End Maps.

(** The empty trie. *)
Definition empty_trie (rd : trieReader) : Trie := MkTrie NilNode (rd_owner rd) false 0 rd newTracer.

Lemma empty_represents `{HF : Hasher} rd : represents_over TNil (empty_trie rd) ∅.
Proof.
  exists TNil. split; [constructor; [done | done | by left | | constructor | by left | apply traced_new |] |].
  - intros p t Ho Hw. by apply sub_none_wf in Ho.
  - intros q t Ho Hw. by apply sub_none_wf in Ho.
  - split; [| done]. intros key _. by rewrite lookup_empty.
Qed.

Lemma trie_refines_map_witness :
  let ops := [OpUpdate [0x12; 0x34] [7]; OpUpdate [0x12] [8]; OpUpdate [0x12; 0x35] [9];
              OpGet [0x12]; OpUpdate [0x12; 0x34] []; OpGet [0x12; 0x34]; OpGet [0x12; 0x35]] in
  ∃ t', run_trie ops (empty_trie (MkReader [] None None)) = (Ok [Some [8]; None; Some [9]], t') ∧
    @represents toy_hash t' (snd (run_map ops ∅)).
Proof.
  intros ops. replace [Some [8]; None; Some [9]] with (fst (run_map ops ∅)) by by vm_compute.
  apply (@trie_refines_map toy_hash toy_hash_laws _ _ ∅ (ex_intro _ TNil (empty_represents _))).
  repeat (apply Forall_cons; split; [try (split_and!; [| | by vm_compute]); solve_bytes |]). constructor.
Defined.
