(* ===== verification/TrieHash.v ===== *)
(** * Hashing tries: src/trie/hasher.go and Trie.Hash

    The hasher collapses a trie bottom up, using cached hashes, and returns the
    trie with the new hashes cached.  The theorem: the root hash is the hash of
    the stored encoding of the abstract trie, and so a function of the contents
    of the trie alone.

    [hb] is the encoder buffer of the hasher.  The parallel branch of
    hashFullNodeChildren runs the same loop with one goroutine per child; each
    writes its own index, and the sequential loop is what is modelled. *)

From S2P Require Import Prelude RlpRaw RlpEncode TrieEncoding TrieNode TrieSpec TrieUpdate TrieStore TrieOps TriePaths TrieRefine.

Section Hash.
  Context `{HF : Hasher} (hb : encBuffer).

(** encode and encodedBytes *)
Definition encodedBytes (n : node) : tr bytes := lift ErrRlp (nodeToBytes hb n).

Definition hashData (data : bytes) : node := hashNode (sum256 data).

Definition shortnodeToHash (n : node) (force : bool) : tr node :=
  enc ← encodedBytes n;
  if (len enc <? 32) && negb force then Ok n else Ok (hashData enc).

Definition fullnodeToHash (n : node) (force : bool) : tr node :=
  enc ← encodedBytes n;
  if (len enc <? 32) && negb force then Ok n else Ok (hashData enc).

(** The flags of the cached copy: the hash, if there is one. *)
Definition cache_hash (hashed : node) (f : nodeFlag) : nodeFlag :=
  match hashed with
  | hashNode h => MkFlag (Some h) (dirty f)
  | _ => MkFlag None (dirty f)
  end.

Section Children.
  Context (hash : node → bool → tr (node * node)).

(** The loop over the first [i] children: collapsed and cached. *)
Fixpoint hashChildren (i : nat) (children : list node) : tr (list node * list node) :=
  match i, children with
  | S i, child :: children =>
      '(collapsed, cached) ← (match child with
                              | NilNode => Ok (valueNode [], NilNode)
                              | _ => hash child false
                              end);
      '(cs, ds) ← hashChildren i children;
      Ok (collapsed :: cs, cached :: ds)
  | _, _ => Ok (children, children)
  end.
End Children.

Fixpoint node_hash (n : node) (force : bool) : tr (node * node) :=
  match cache n with
  | (Some h, _) => Ok (hashNode h, n)
  | (None, _) =>
      match n with
      | shortNode key val f =>
          (* hashShortNodeChildren *)
          ckey ← hexToCompact key;
          '(collapsedVal, cachedVal) ← (match val with
                                        | fullNode _ _ | shortNode _ _ _ => node_hash val false
                                        | _ => Ok (val, val)
                                        end);
          hashed ← shortnodeToHash (shortNode ckey collapsedVal f) force;
          Ok (hashed, shortNode key cachedVal (cache_hash hashed f))
      | fullNode children f =>
          '(collapsed, cached) ← hashChildren node_hash 16 children;
          hashed ← fullnodeToHash (fullNode collapsed f) force;
          Ok (hashed, fullNode cached (cache_hash hashed f))
      | _ => Ok (n, n)
      end
  end.

(** types.EmptyRootHash *)
Definition EmptyRootHash : bytes :=
  be_bytes 32 0x56e81f171bcc55a6ff8345e692c0f86e5b48e01b996cadc001622fb5e363b421.

(** Trie.Hash with hashRoot *)
Definition Hash (t : Trie) : tr bytes * Trie :=
  match root t with
  | NilNode => (Ok (BytesToHash EmptyRootHash), t)
  | _ =>
      match node_hash (root t) true with
      | Ok (hashed, cached) =>
          let t := MkTrie cached (owner t) (committed t) 0 (t_reader t) (t_tracer t) in
          match hashed with
          | hashNode h => (Ok (BytesToHash h), t)
          | _ => (Panic, t)
          end
      | Err e => (Err e, t)
      | Panic => (Panic, t)
      | OutOfFuel => (OutOfFuel, t)
      end
  end.
End Hash.

(** ** Correctness *)

Section HashCorrect.
  Context `{HF : Hasher} `{HL : !HasherLaws} (hb : encBuffer) (Hhb : length (sizebuf hb) = 9%nat).
  Context (a0 : tree).

(** The cached copy of [n]: the same trie with all its hashes, nothing more and
    nothing less loaded. *)
Definition cached_ok (p : bytes) (t : tree) (n cached : node) : Prop :=
  rep a0 p cached t ∧ hashed p cached t ∧ ∀ r, behind n r = true → behind cached r = true.

(** What the hasher returns for the node [n] at [p] that stands for [t]. *)
Definition hash_spec (p : bytes) (t : tree) (force : bool) (n hd cached : node) : Prop :=
  cached_ok p t n cached ∧ node_bytes hd ∧
  (if force || (32 <=? len (tree_enc t)) then hd = hashNode (sum256 (tree_enc t))
   else enc_node hd = tree_enc t ∧ is_hash hd = 0%nat).

Lemma ref_of_wf t :
  wf t → tree_ref t = if 32 <=? len (tree_enc t) then enc_string (sum256 (tree_enc t)) else tree_enc t.
Proof.
  intros Hw. rewrite Z.leb_antisym.
  assert (E : tree_ref t = if len (tree_enc t) <? 32 then tree_enc t else enc_string (sum256 (tree_enc t)))
    by (unfold tree_ref, ref_of; by destruct Hw).
  rewrite E. by destruct (len (tree_enc t) <? 32).
Qed.

(** The collapsed child is written as the reference to the child. *)
Lemma hash_spec_ref p t n hd cached :
  wf t → hash_spec p t false n hd cached → enc_node hd = tree_ref t.
Proof.
  intros Hw (_ & _ & H). rewrite ref_of_wf by done. cbn [orb] in H.
  destruct (32 <=? len (tree_enc t)); [by subst | by destruct H].
Qed.

(** Turning a collapsed node into its hash. *)
Lemma toHash_ok n t (force : bool) :
  wf t → bounded t → node_bytes n → enc_node n = tree_enc t → is_hash n = 0%nat →
  shortnodeToHash hb n force =
    Ok (if force || (32 <=? len (tree_enc t)) then hashNode (sum256 (tree_enc t)) else n).
Proof.
  intros Hw Hbd Hn He Hh. destruct (tree_enc_ok t Hw Hbd) as [_ Hl].
  unfold shortnodeToHash, encodedBytes. rewrite nodeToBytes_spec by (done || rewrite He; lia).
  cbn [lift mbind outcome_bind]. rewrite He, Z.leb_antisym.
  by destruct force, (len (tree_enc t) <? 32).
Qed.

Lemma cache_hash_ok p t (force : bool) n f (below below' : Prop) :
  (if force then p = [] else p ≠ []) → flag_ok a0 p f t below → hash f = None → is_hash n = 0%nat → below' →
  let f' := cache_hash (if force || (32 <=? len (tree_enc t)) then hashNode (sum256 (tree_enc t)) else n) f in
  flag_ok a0 p f' t below' ∧ (big p t → is_Some (hash f')).
Proof.
  intros Hp [_ Hd] Hnone Hn Hbelow f'. unfold f'; clear f'.
  assert (Hdirty : dirty f = false → ¬ big p t).
  { intros Hf Hbig. destruct (Hd Hf) as [_ H]. destruct (H Hbig) as [h E]. congruence. }
  destruct (force || (32 <=? len (tree_enc t))) eqn:E; cbn.
  - assert (Hbig : big p t).
    { apply orb_true_iff in E as [-> | E]; [by left | right; zb; lia]. }
    split; [split; [by intros h [= <-] |] | done]. cbn. intros Hf. by destruct (Hdirty Hf).
  - apply orb_false_iff in E as [-> E].
    assert (Hnb : ¬ big p t) by (intros [? | ?]; [done | zb; lia]).
    assert (Hf : flag_ok a0 p (MkFlag None (dirty f)) t below').
    { split; [done |]. cbn. intros Hf. destruct (Hd Hf). split; [done |]. by intros ?%(Hdirty Hf). }
    by destruct n.
Qed.

(** Leaves of the recursion: values and nodes with a hash. *)
Lemma node_hash_cached p n t (force : bool) h :
  rep a0 p n t → (if force then p = [] else p ≠ []) → wf t →
  (cache n).1 = Some h ∨ n = hashNode h → ∃ d, node_hash hb n force = Ok (d, n) ∧ hash_spec p t force n d n.
Proof.
  intros Hrep Hp Hw Hn.
  assert (Hh : h = sum256 (tree_enc t) ∧ big p t ∧ hashed p n t).
  { destruct Hn as [Hc | ->]; [| inversion Hrep; subst; split_and!; [done | done | constructor]].
    destruct n; try done; inversion Hrep as [| | ? ? ? ? ? ? [Hf _] | ? ? ? ? ? ? [Hf _] |]; subst; cbn in Hc;
      destruct (Hf h Hc) as (-> & Hbig & Hb); (split_and!; [done | done |]; constructor; [by rewrite Hc | done]). }
  destruct Hh as (-> & Hbig & Hhd). exists (hashNode (sum256 (tree_enc t))). split.
  - destruct Hn as [Hc | ->]; [| done]. destruct n as [| c [fh fd] | k v [fh fd] | |]; try done; cbn in Hc |- *; by subst fh.
  - split_and!; [by split_and! | apply sum256_bytes |].
    destruct force; [done |]. destruct Hbig as [? | Hbig]; [done |].
    by rewrite (proj2 (Z.leb_le _ _)).
Qed.

Definition hash_ok (n : node) : Prop :=
  ∀ p t (force : bool), rep a0 p n t → wf t → bounded t → (if force then p = [] else p ≠ []) →
  ∃ hd cached, node_hash hb n force = Ok (hd, cached) ∧ hash_spec p t force n hd cached.

Lemma child_kept_val p n v : rep a0 p n (TVal v) → bytes_ok v → node_bytes n ∧ enc_node n = tree_ref (TVal v).
Proof. inversion 1 as [| | | | ? ? ? Hw]; subst; [done | by inversion Hw]. Qed.

Lemma child_kept_hash p h t : p ≠ [] → rep a0 p (hashNode h) t → enc_node (hashNode h) = tree_ref t ∧ bytes_ok h.
Proof.
  intros Hp. inversion 1 as [| | | | ? ? ? Hw Hbd Hbig]; subst. split; [| apply sum256_bytes].
  rewrite ref_of_wf by done. destruct Hbig as [? | Hbig]; [done |]. by rewrite (proj2 (Z.leb_le _ _)).
Qed.

Lemma hashed_rep_val p n v : rep a0 p n (TVal v) → hashed p n (TVal v).
Proof. inversion 1; subst; constructor. Qed.

Lemma hash_child n p t :
  hash_ok n → p ≠ [] → rep a0 p n t → wf t → bounded t →
  ∃ c d, node_hash hb n false = Ok (c, d) ∧ enc_node c = tree_ref t ∧ node_bytes c ∧ cached_ok p t n d.
Proof.
  intros Hn Hp Hrep Hw Hbd. destruct (Hn p t false Hrep Hw Hbd Hp) as (c & d & E & Hs).
  exists c, d. split_and!; [done | by eapply hash_spec_ref | apply Hs | apply Hs].
Qed.

Lemma hashChildren_ok p off i cn ct :
  Forall hash_ok cn → length cn = length ct →
  (∀ j n t, cn !! j = Some n → ct !! j = Some t → rep a0 (p ++ [Z.of_nat (off + j)]) n t) →
  (∀ j t, ct !! j = Some t → t = TNil ∨ (wf t ∧ bounded t ∧ (j < i)%nat) ∨ (∃ v, t = TVal v ∧ bytes_ok v ∧ (i <= j)%nat)) →
  ∃ cs ds, hashChildren (node_hash hb) i cn = Ok (cs, ds) ∧ map enc_node cs = map tree_ref ct ∧
    fold_right (fun x P => node_bytes x ∧ P) True cs ∧ length ds = length ct ∧
    (∀ j n d t, cn !! j = Some n → ds !! j = Some d → ct !! j = Some t → cached_ok (p ++ [Z.of_nat (off + j)]) t n d).
Proof.
  intros Hall. revert off i ct. induction Hall as [| n cn Hn Hall IH]; intros off i ct Hlen Hrep Hok.
  { destruct ct; [| done]. destruct i; by exists [], []. }
  destruct ct as [| t ct]; [done |]. injection Hlen as Hlen.
  pose proof (Hrep 0%nat n t eq_refl eq_refl) as Hr0. rewrite Nat.add_0_r in Hr0.
  assert (Hp : p ++ [Z.of_nat off] ≠ []) by by apply path_snoc_ne.
  destruct (IH (S off) (pred i) ct Hlen) as (cs & ds & E & Hcs & Hb & Hds & Hrd).
  { intros j m s Hm Hs. rewrite Nat.add_succ_comm. by apply (Hrep (S j)). }
  { intros j s Hs. destruct (Hok (S j) s Hs) as [? | [(? & ? & ?) | (v & ? & ? & ?)]];
      [by left | right; left; split_and!; [done | done | lia] | right; right; exists v; split_and!; [done | done | lia]]. }
  assert (Hfirst : ∃ c d, (match i with
      | O => Ok (n, n)
      | S _ => match n with NilNode => Ok (valueNode [], NilNode) | _ => node_hash hb n false end
      end) = @Ok trie_error _ (c, d) ∧ enc_node c = tree_ref t ∧ node_bytes c ∧ cached_ok (p ++ [Z.of_nat off]) t n d).
  { destruct (Hok 0%nat t eq_refl) as [-> | [(Hw & Hbd & Hi) | (v & -> & Hv & Hi)]].
    - assert (n = NilNode) as -> by by apply (rep_nil_iff _ _ _ _ Hr0).
      destruct i; do 2 eexists; (split_and!; [done | done | | by split_and!; [constructor.. |]]); [done | solve_bytes].
    - destruct i; [lia |]. destruct (hash_child n _ t Hn Hp Hr0 Hw Hbd) as (c & d & Ec & H).
      exists c, d. split; [| done]. destruct n; try done. inversion Hr0; subst. inversion Hw.
    - destruct i; [| lia]. exists n, n. destruct (child_kept_val _ n v Hr0 Hv).
      split_and!; [done | done | done |]. split_and!; [done | by apply hashed_rep_val | done]. }
  destruct Hfirst as (c & d & Ef & He & Hcb & Hd0). exists (c :: cs), (d :: ds).
  split_and!; [| cbn; congruence | by split | cbn; congruence |].
  - destruct i as [| i]; cbn [hashChildren].
    + injection Ef as <- <-. cbn in E. destruct cn; cbn in E; by injection E as <- <-.
    + rewrite Ef. cbn [mbind outcome_bind]. cbn [pred] in E. by rewrite E.
  - intros [| j] m e s Hm He0 Hs;
      [injection Hm as <-; injection He0 as <-; injection Hs as <-; by rewrite Nat.add_0_r |].
    rewrite <- Nat.add_succ_comm. by apply Hrd.
Qed.

(** The child of a short node. *)
Lemma hash_short_val n p t :
  hash_ok n → p ≠ [] → rep a0 p n t → (wf t ∧ bounded t ∧ is_full t) ∨ (∃ v, t = TVal v ∧ bytes_ok v) →
  ∃ c d, (match n with fullNode _ _ | shortNode _ _ _ => node_hash hb n false | _ => Ok (n, n) end) = Ok (c, d) ∧
    enc_node c = tree_ref t ∧ node_bytes c ∧ cached_ok p t n d.
Proof.
  intros Hn Hp Hrep [(Hw & Hbd & [ct ->]) | (v & -> & Hv)].
  - destruct n as [| c f | k n f | h | v]; try by inversion Hrep.
    + by apply hash_child.
    + exists (hashNode h), (hashNode h). destruct (child_kept_hash p h _ Hp Hrep).
      split_and!; [done | done | done |]. by split_and!; [| constructor |].
  - exists n, n. destruct (child_kept_val p n v Hrep Hv). split_and!; [| done | done |].
    + inversion Hrep as [| | | | ? ? ? Hw]; subst; [done | inversion Hw].
    + split_and!; [done | by apply hashed_rep_val | done].
Qed.

Lemma hash_short_node k n f p t force :
  hash_ok n → rep a0 p (shortNode k n f) t → wf t → bounded t → (if force : bool then p = [] else p ≠ []) →
  hash f = None →
  ∃ hd cd, node_hash hb (shortNode k n f) force = Ok (hd, cd) ∧ hash_spec p t force (shortNode k n f) hd cd.
Proof.
  intros Hn Hrep Hw Hbd Hp Hf. destruct (rep_short_inv _ _ _ _ _ _ Hrep) as (tc & -> & Hrc & Hfl).
  cbn [node_hash cache]. rewrite Hf, hexToCompact_compact. cbn [mbind outcome_bind].
  assert (Htc : (wf tc ∧ bounded tc ∧ is_full tc) ∨ (∃ v, tc = TVal v ∧ bytes_ok v)).
  { destruct (bounded_short _ _ Hw Hbd) as [_ Hbc].
    inversion Hw as [l v Hl (_ & Hv & _) | ? c Hl Hne Hwc |]; subst; [right; eauto | left].
    split_and!; [done | by apply Hbc | by eexists]. }
  destruct (hash_short_val n (p ++ k) tc Hn (path_snoc_ne p k (wf_short_nonempty _ _ Hw)) Hrc Htc)
    as (c & d & -> & Hc & Hcb & Hd & Hhd & Hbd').
  cbn [mbind outcome_bind].
  assert (Hbytes : bytes_ok (compact k)).
  { apply compact_bytes. inversion Hw as [l v Hl Hv | ? c' Hl Hne Hwc |]; subst; [exists l | exists k]; by auto. }
  rewrite (toHash_ok _ (TShort k tc)); [| done | done | by split | cbn; by rewrite Hc | done].
  cbn [mbind outcome_bind]. do 2 eexists. split; [done |].
  destruct (cache_hash_ok p (TShort k tc) force (shortNode (compact k) c f) f _ (hashed (p ++ k) d tc) Hp Hfl Hf eq_refl Hhd)
    as [Hf' Hbig']. split_and!; [split_and! | |].
  - by constructor.
  - by constructor.
  - intros r Hr. apply behind_short_true in Hr as (s & -> & Hs). rewrite behind_short. auto.
  - destruct (force || _); [apply sum256_bytes | by split].
  - destruct (force || _); [done |]. cbn. by rewrite Hc.
Qed.

Lemma hash_full_node c f p t force :
  Forall hash_ok c → rep a0 p (fullNode c f) t → wf t → bounded t → (if force : bool then p = [] else p ≠ []) →
  hash f = None →
  ∃ hd cd, node_hash hb (fullNode c f) force = Ok (hd, cd) ∧ hash_spec p t force (fullNode c f) hd cd.
Proof.
  intros Hn Hrep Hw Hbd Hp Hf. inversion Hrep as [| | | ? ? ? ct Hlen Hch Hfl |]; subst.
  cbn [node_hash cache]. rewrite Hf.
  destruct (hashChildren_ok p 0 16 c ct Hn Hlen Hch) as (cs & ds & -> & Hcs & Hcb & Hds & Hrd).
  { intros j t Hj. destruct (wf_full_child ct j t Hw Hj) as [-> | [[Hwt Hlt] | (v & -> & (_ & Hv & _) & ->)]];
      [by left | right; left; split_and!; [done | by eapply bounded_child | done] | right; right; eauto]. }
  cbn [mbind outcome_bind].
  assert (Hne : cs ≠ []).
  { intros ->. inversion Hw as [| | ? H17 _ _ _]; subst. by destruct ct. }
  change (fullnodeToHash hb (fullNode cs f) force) with (shortnodeToHash hb (fullNode cs f) force).
  rewrite (toHash_ok _ (TFull ct));
    [| done | done | by split | cbn; by rewrite Hcs | done].
  cbn [mbind outcome_bind]. do 2 eexists. split; [done |].
  assert (Hds' : ∀ j d t, ds !! j = Some d → ct !! j = Some t → ∃ n, c !! j = Some n ∧ cached_ok (p ++ [Z.of_nat j]) t n d).
  { intros j d t Hd Ht. destruct (c !! j) as [n |] eqn:En; [by eauto |].
    apply lookup_ge_None in En. apply lookup_lt_Some in Ht. lia. }
  assert (Hhc : hashed_children p ds ct) by (intros j d t Hd Ht; by destruct (Hds' j d t Hd Ht) as (? & _ & _ & ? & _)).
  destruct (cache_hash_ok p (TFull ct) force (fullNode cs f) f _ (hashed_children p ds ct) Hp Hfl Hf eq_refl Hhc)
    as [Hf' Hbig']. split_and!; [split_and! | |].
  - constructor; [done | | done]. intros j d t Hd Ht. by destruct (Hds' j d t Hd Ht) as (? & _ & ? & _).
  - by constructor.
  - intros r Hr. apply behind_full_true in Hr as (j & s & n & -> & Hj & Hs). rewrite behind_full.
    destruct (ds !! j) as [d |] eqn:Ed; [| apply lookup_ge_None in Ed; apply lookup_lt_Some in Hj; lia].
    destruct (ct !! j) as [t |] eqn:Et; [| apply lookup_ge_None in Et; apply lookup_lt_Some in Hj; lia].
    by apply (Hrd j n d t Hj Ed Et).
  - destruct (force || _); [apply sum256_bytes | by split].
  - destruct (force || _); [done |]. cbn. by rewrite Hcs.
Qed.

Lemma node_hash_ok n : hash_ok n.
Proof.
  induction n as [| c f IH | k v f IH | h | v] using node_nested_ind; intros p t force Hrep Hw Hbd Hp.
  - inversion Hrep; subst. inversion Hw.
  - destruct (hash f) as [h |] eqn:Hf; [| by apply hash_full_node].
    destruct (node_hash_cached p (fullNode c f) t force h) as (d & E & Hs); try done; [by left |]. eauto.
  - destruct (hash f) as [h |] eqn:Hf; [| by apply hash_short_node].
    destruct (node_hash_cached p (shortNode k v f) t force h) as (d & E & Hs); try done; [by left |]. eauto.
  - destruct (node_hash_cached p (hashNode h) t force h) as (d & E & Hs); try done; [by right |]. eauto.
  - inversion Hrep as [| | | | ? ? ? Hw']; subst. inversion Hw.
Qed.
End HashCorrect.

(** Keys of lengths that slices can have. *)
Definition keys_bounded (m : gmap bytes bytes) : Prop := map_Forall (fun key _ => len key < 2 ^ 54) m.

Lemma holds_bounded a m : holds a m → keys_bounded m → bounded a.
Proof.
  intros [H1 H2] Hm hex v Hh Hv. destruct (H2 hex v Hh Hv) as (key & Hk & ->).
  rewrite H1 in Hv by done. specialize (Hm key v Hv). cbn beta in Hm. unfold keybytesToHex.
  change (concat (map _ key)) with (unpack key). rewrite len_app, unpack_length. change (len [16]) with 1. lia.
Qed.

(** ** The root hash *)

Section RootHash.
  Context `{HF : Hasher} `{HL : !HasherLaws} (hb : encBuffer) (Hhb : length (sizebuf hb) = 9%nat).

(** The root hash as a function of the abstract trie. *)
Definition tree_root (a : tree) : bytes :=
  match a with TNil => EmptyRootHash | _ => sum256 (tree_enc a) end.

Lemma EmptyRootHash_32 : BytesToHash EmptyRootHash = EmptyRootHash.
Proof. apply BytesToHash_32. apply length_be_bytes. Qed.

Lemma Hash_ok t a0 a m :
  represents_tree t a0 a m → bounded a →
  ∃ t', Hash hb t = (Ok (tree_root a), t') ∧ represents_tree t' a0 a m ∧ t_tracer t' = t_tracer t ∧
    t_reader t' = t_reader t ∧ owner t' = owner t ∧ hashed [] (root t') a.
Proof.
  intros [Ht Hh] Hbd. unfold Hash. pose proof (ti_rep _ _ _ Ht) as Hrep. destruct (ti_wf _ _ _ Ht) as [-> | Hw].
  - assert (Er : root t = NilNode) by by apply (rep_nil_iff _ _ _ _ Hrep).
    rewrite Er. exists t. rewrite EmptyRootHash_32. split_and!; [done | by split | done | done | done |].
    rewrite Er. constructor.
  - destruct (node_hash_ok hb Hhb a0 (root t) [] a true Hrep Hw Hbd eq_refl) as (hd & cd & E & (Hr & Hhd & Hb) & _ & ->).
    assert (Hroot : tree_root a = sum256 (tree_enc a)) by by destruct Hw.
    rewrite E, Hroot, (BytesToHash_32 (sum256 (tree_enc a))) by exact (sum256_length (tree_enc a)).
    set (t' := MkTrie cd (owner t) (committed t) 0 (t_reader t) (t_tracer t)).
    assert (Ht' : trie_is t' a0 a).
    { eapply trie_is_step; [exact Ht | apply Ht | done | done | done | by right |].
      split; [by apply tracks_same | by apply kept_loaded]. }
    destruct (root t) eqn:Er; [inversion Hrep; subst; inversion Hw |..];
      (exists t'; split_and!; [done | by split | done | done | done | done]).
Qed.

(** C17.  The root hash commits to the contents: two tries that hold the same keys
    and values have the same root hash, whichever sequences of updates and
    deletions led to them, whatever is loaded from which database and whichever
    hashes are already cached.  It is the hash of the encoding of the one
    well-formed trie that holds the map. *)
Theorem Hash_history_independent t1 t2 m :
  represents t1 m → represents t2 m → keys_bounded m →
  ∃ a t1' t2', wf_root a ∧ holds a m ∧
    Hash hb t1 = (Ok (tree_root a), t1') ∧ Hash hb t2 = (Ok (tree_root a), t2') ∧
    represents t1' m ∧ represents t2' m.
Proof.
  intros (o1 & a1 & Ha1) (o2 & a2 & Ha2) Hm. pose proof Ha1 as [Ht1 Hh1]. pose proof Ha2 as [Ht2 Hh2].
  assert (a1 = a2) as <- by (eapply holds_canonical; [apply Ht1 | apply Ht2 | done | done]).
  assert (Hbd : bounded a1) by by eapply holds_bounded.
  destruct (Hash_ok t1 o1 a1 m Ha1 Hbd) as (t1' & E1 & H1 & _), (Hash_ok t2 o2 a1 m Ha2 Hbd) as (t2' & E2 & H2 & _).
  exists a1, t1', t2'. split_and!; [apply Ht1 | done | done | done | by exists o1, a1 | by exists o2, a1].
Qed.
End RootHash.

(** Two ways to the same contents: different orders, and keys that come and go. *)
Definition ops_forth : list trie_op :=
  [OpUpdate [18; 52] [1]; OpUpdate [18; 53] (repeat 7 40); OpUpdate [200; 1] [3]].
Definition ops_back : list trie_op :=
  [OpUpdate [200; 1] [9]; OpUpdate [18; 53] (repeat 7 40); OpUpdate [18; 99] [5]; OpUpdate [18; 52] [1];
   OpDelete [18; 99]; OpUpdate [200; 1] [3]].

Lemma Hash_history_independent_witness :
  let t1 := (run_trie ops_forth (empty_trie (MkReader [] None None))).2 in
  let t2 := (run_trie ops_back (empty_trie (MkReader [] None None))).2 in
  ∃ h t1' t2', @Hash toy_hash (EncBuffer [] [] 0 (repeat 0 9)) t1 = (Ok h, t1') ∧
    @Hash toy_hash (EncBuffer [] [] 0 (repeat 0 9)) t2 = (Ok h, t2').
Proof.
  cbn zeta.
  assert (H1 : Forall op_ok ops_forth)
    by (repeat (apply Forall_cons; split; [try (split_and!; [| | by vm_compute]); solve_bytes |]); constructor).
  assert (H2 : Forall op_ok ops_back)
    by (repeat (apply Forall_cons; split; [try (split_and!; [| | by vm_compute]); solve_bytes |]); constructor).
  destruct (@run_ok toy_hash toy_hash_laws ops_forth _ TNil _ (empty_represents (MkReader [] None None)) H1) as (t1 & -> & Hr1 & _).
  destruct (@run_ok toy_hash toy_hash_laws ops_back _ TNil _ (empty_represents (MkReader [] None None)) H2) as (t2 & -> & Hr2 & _).
  assert (E : (run_map ops_forth ∅).2 = (run_map ops_back ∅).2) by by vm_compute.
  rewrite <- E in Hr2.
  destruct (@Hash_history_independent toy_hash toy_hash_laws (EncBuffer [] [] 0 (repeat 0 9)) eq_refl t1 t2 (run_map ops_forth ∅).2
    (ex_intro _ TNil Hr1) (ex_intro _ TNil Hr2))
    as (a & t1' & t2' & _ & _ & ? & ? & _); [apply (bool_decide_unpack _); vm_compute; exact I |].
  eexists; by eauto.
Defined.
