(* ===== verification/TrieBinding.v ===== *)
(** * The root hash binds the contents of a trie

    The converse of the history independence of Trie.Hash (src/trie/trie.go): when two
    tries have one root hash and no two of their nodes at the same path collide, the
    tries are the same.  The blocks of the chain rely on it wherever a header carries the
    root of a trie. *)

From S2P Require Import Prelude RlpRaw RlpEncode TrieEncoding TrieNode TrieSpec TrieUpdate TrieStore TrieOps TriePaths TrieRefine TrieHash.
#[local] Set Warnings "-register-all".

Section Binding.
  Context `{HF : Hasher} `{HL : !HasherLaws}.

(** The hash function does not send the encodings of two nodes at one path to one value. *)
Definition no_collision (a b : tree) : Prop :=
  ∀ q x y, sub a q = Some x → sub b q = Some y → wf x → wf y → sum256 (tree_enc x) = sum256 (tree_enc y) → tree_enc x = tree_enc y.

Lemma no_collision_short k t t' : k ≠ [] → no_collision (TShort k t) (TShort k t') → no_collision t t'.
Proof. intros Hk H q x y Hx Hy. apply (H (k ++ q)); by rewrite sub_short. Qed.

Lemma no_collision_full c c' i t t' : c !! i = Some t → c' !! i = Some t' → no_collision (TFull c) (TFull c') → no_collision t t'.
Proof. intros Ht Ht' H q x y Hx Hy. apply (H (Z.of_nat i :: q)); rewrite sub_full; by rewrite ?Ht, ?Ht'. Qed.

(** What may stand below a node *)
Definition child_ok (t : tree) : Prop := (∃ v, t = TVal v) ∨ t = TNil ∨ (wf t ∧ bounded t).

Definition load_injective (t : tree) : Prop :=
  ∀ t', wf t → bounded t → wf t' → bounded t' → no_collision t t' → load None t = load None t' → t = t'.

(** A node is known by its encoding when its children are. *)
Lemma enc_injective t t' : load_injective t → wf t → bounded t → wf t' → bounded t' → no_collision t t' → tree_enc t = tree_enc t' → t = t'.
Proof.
  intros IH Hw Hbd Hw' Hbd' Hn E. apply IH; try done. pose proof (decodeNode_stored t None Hw Hbd) as E1. rewrite E, decodeNode_stored in E1 by done. by injection E1 as ->.
Qed.

Lemma wf_shape t : wf t → (∃ k c, t = TShort k c) ∨ (∃ c, t = TFull c).
Proof. destruct 1; eauto. Qed.

Lemma ref_wf t : wf t → load_ref t = if len (tree_enc t) <? 32 then load None t else hashNode (sum256 (tree_enc t)).
Proof. by destruct 1. Qed.

Lemma load_node t h : wf t → (∀ v, load h t ≠ valueNode v) ∧ load h t ≠ NilNode ∧ ∀ x, load h t ≠ hashNode x.
Proof. by destruct 1. Qed.

Lemma ref_node t : wf t → (∀ v, load_ref t ≠ valueNode v) ∧ load_ref t ≠ NilNode.
Proof. intros Hw. rewrite ref_wf by done. destruct (load_node t None Hw) as (? & ? & _). by destruct (_ <? _). Qed.

Lemma ref_injective t t' : load_injective t → child_ok t → child_ok t' → no_collision t t' → load_ref t = load_ref t' → t = t'.
Proof.
  intros IH Ht Ht' Hn E. destruct Ht as [[v ->] | [-> | [Hw Hbd]]], Ht' as [[v' ->] | [-> | [Hw' Hbd']]]; try done.
  - by injection E as ->.
  - by destruct (ref_node t' Hw') as [Hv _]; destruct (Hv v).
  - by destruct (ref_node t' Hw') as [_ Hv].
  - by destruct (ref_node t Hw) as [Hv _]; destruct (Hv v').
  - by destruct (ref_node t Hw) as [_ Hv].
  - rewrite !ref_wf in E by done. destruct (load_node t None Hw) as (_ & _ & Hh), (load_node t' None Hw') as (_ & _ & Hh').
    destruct (len (tree_enc t) <? 32), (len (tree_enc t') <? 32); [by apply IH | by destruct (Hh _ E) | by destruct (Hh' (sum256 (tree_enc t))) |].
    injection E as E. apply enc_injective; try done. apply (Hn []); by rewrite ?sub_nil.
Qed.

Lemma full_child_ok c i t : wf (TFull c) → bounded (TFull c) → c !! i = Some t → child_ok t.
Proof.
  intros Hw Hbd Ht. destruct (wf_full_child c i t Hw Ht) as [-> | [[Hwt Hi] | (v & -> & _)]]; [by right; left | right; right | left; by eexists].
  split; [done |]. by eapply bounded_child.
Qed.

Lemma all_load_injective t : load_injective t.
Proof.
  induction t as [| c IH | k t IH | v] using tree_nested_ind; intros t' Hw Hbd Hw' Hbd' Hn E; [inversion Hw | | | inversion Hw].
  - destruct (wf_shape t' Hw') as [(k' & t1 & ->) | (c' & ->)]; [done |]. cbn [load] in E. injection E as E. f_equal. apply list_eq. intros i.
    apply (f_equal (fun l => l !! i)) in E. change (map (fun t => node_ref t (load None t))) with (fmap load_ref : list tree → list node) in E.
    rewrite !list_lookup_fmap in E. destruct (c !! i) as [t |] eqn:Ht, (c' !! i) as [t1 |] eqn:Ht'; try done. cbn in E. injection E as E. f_equal.
    apply ref_injective; [| by apply (full_child_ok c i) | by apply (full_child_ok c' i) | by apply (no_collision_full c c' i) | done]. rewrite Forall_lookup in IH. by eapply IH.
  - destruct (wf_shape t' Hw') as [(k' & t1 & ->) | (c' & ->)]; [| done]. cbn [load] in E. injection E as <- E. f_equal.
    assert (Hc : ∀ k t, wf (TShort k t) → bounded (TShort k t) → child_ok t).
    { intros k1 t2 H2 Hb2. destruct (bounded_short _ _ H2 Hb2) as [_ Hb3]. inversion H2; subst; [left; by eexists | right; right; auto]. }
    apply ref_injective; [done | by apply (Hc k) | by apply (Hc k) | | done]. apply (no_collision_short k); [by eapply wf_short_nonempty | done].
Qed.

(** Nor does it give the root hash of the empty trie. *)
Definition hash_sound (a b : tree) : Prop := no_collision a b ∧ ∀ x, x = a ∨ x = b → wf x → sum256 (tree_enc x) ≠ EmptyRootHash.

Lemma tree_root_binds a b : wf_root a → wf_root b → bounded a → bounded b → hash_sound a b → tree_root a = tree_root b → a = b.
Proof.
  assert (Hr : ∀ x, wf x → tree_root x = sum256 (tree_enc x)) by (by intros x []).
  intros [-> | Hw] [-> | Hw'] Hbd Hbd' [Hn He] E; [done | | |].
  - rewrite (Hr b Hw') in E. by destruct (He b (or_intror eq_refl) Hw').
  - rewrite (Hr a Hw) in E. by destruct (He a (or_introl eq_refl) Hw).
  - rewrite !Hr in E by done. apply enc_injective; try done; [apply all_load_injective |]. apply (Hn []); by rewrite ?sub_nil.
Qed.

Lemma hash_sound_same a : (wf a → sum256 (tree_enc a) ≠ EmptyRootHash) → hash_sound a a.
Proof. intros He. split; [intros q x y Hx Hy; rewrite Hx in Hy; by injection Hy as -> | by intros x [-> | ->]]. Qed.

Lemma holds_same a m1 m2 key : holds a m1 → holds a m2 → bytes_ok key → m1 !! key = m2 !! key.
Proof. intros [H1 _] [H2 _] Hk. by rewrite <- H1, <- H2. Qed.

Context (hb : encBuffer) (Hhb : length (sizebuf hb) = 9%nat).

(** C26.  The root hash binds the contents: two tries with the same root hash hold the
    same values under the same keys, whatever led to them, unless the hash function sends
    the encodings of two different nodes that sit at the same path of the two tries to
    one value, or the encoding of a root node to the root hash of the empty trie. *)
Theorem Hash_binds t1 t2 m1 m2 :
  represents t1 m1 → represents t2 m2 → keys_bounded m1 → keys_bounded m2 →
  (∀ a1 a2, wf_root a1 → holds a1 m1 → wf_root a2 → holds a2 m2 → hash_sound a1 a2) →
  (Hash hb t1).1 = (Hash hb t2).1 → ∀ key, bytes_ok key → m1 !! key = m2 !! key.
Proof.
  intros (o1 & a1 & Ha1) (o2 & a2 & Ha2) Hm1 Hm2 Hs E key Hk. pose proof Ha1 as [Ht1 Hh1]. pose proof Ha2 as [Ht2 Hh2].
  pose proof (holds_bounded a1 m1 Hh1 Hm1) as Hb1. pose proof (holds_bounded a2 m2 Hh2 Hm2) as Hb2.
  destruct (Hash_ok hb Hhb t1 o1 a1 m1 Ha1 Hb1) as (t1' & E1 & _), (Hash_ok hb Hhb t2 o2 a2 m2 Ha2 Hb2) as (t2' & E2 & _). rewrite E1, E2 in E. injection E as E.
  assert (a1 = a2) as <- by (apply tree_root_binds; try done; [apply Ht1 | apply Ht2 | apply Hs; [apply Ht1 | done | apply Ht2 | done]]). by apply (holds_same a1).
Qed.
End Binding.

Lemma toy_not_empty b : @sum256 toy_hash b ≠ EmptyRootHash.
Proof. intros E. apply (f_equal (hd 0)) in E. replace (hd 0 EmptyRootHash) with 0x56 in E by by vm_compute. change (1 = 0x56) in E. done. Qed.

(** The same contents by two ways *)
Lemma Hash_binds_witness :
  let t1 := (run_trie ops_forth (empty_trie (MkReader [] None None))).2 in
  let t2 := (run_trie ops_back (empty_trie (MkReader [] None None))).2 in
  (@Hash toy_hash (EncBuffer [] [] 0 (repeat 0 9)) t1).1 = (@Hash toy_hash (EncBuffer [] [] 0 (repeat 0 9)) t2).1 ∧
  ∀ key, bytes_ok key → (run_map ops_forth ∅).2 !! key = (run_map ops_back ∅).2 !! key.
Proof.
  cbn zeta. assert (Hok : Forall op_ok (ops_forth ++ ops_back)) by (repeat (apply Forall_cons; split; [try (split_and!; [| | by vm_compute]); solve_bytes |]); constructor).
  apply Forall_app in Hok as [H1 H2]. assert (Eh : (@Hash toy_hash (EncBuffer [] [] 0 (repeat 0 9)) (run_trie ops_forth (empty_trie (MkReader [] None None))).2).1 =
    (@Hash toy_hash (EncBuffer [] [] 0 (repeat 0 9)) (run_trie ops_back (empty_trie (MkReader [] None None))).2).1) by by vm_compute. split; [exact Eh |].
  destruct (@run_ok toy_hash toy_hash_laws ops_forth _ TNil _ (empty_represents (MkReader [] None None)) H1) as (t1 & E1 & Hr1 & _).
  destruct (@run_ok toy_hash toy_hash_laws ops_back _ TNil _ (empty_represents (MkReader [] None None)) H2) as (t2 & E2 & Hr2 & _). rewrite E1, E2 in Eh.
  apply (@Hash_binds toy_hash toy_hash_laws (EncBuffer [] [] 0 (repeat 0 9)) eq_refl t1 t2 _ _ (ex_intro _ TNil Hr1) (ex_intro _ TNil Hr2));
    [apply (bool_decide_unpack _); vm_compute; exact I | apply (bool_decide_unpack _); vm_compute; exact I | | exact Eh].
  intros a1 a2 Hw1 Hh1 Hw2 Hh2. assert (E : (run_map ops_forth ∅).2 = (run_map ops_back ∅).2) by by vm_compute. rewrite E in Hh1.
  assert (a1 = a2) as <- by exact (holds_canonical a1 a2 _ Hw1 Hw2 Hh1 Hh2). apply hash_sound_same. intros _. apply toy_not_empty.
Defined.
