(* ===== verification/TrieCommit.v ===== *)
(** * Committing tries: src/trie/committer.go, trienode/node.go, Trie.Commit and New

    A commit turns the dirty part of a trie into a set of nodes keyed by path:
    updated nodes with their encodings and deleted nodes.  The theorems: a trie
    opened by the committed root over a diff layer with that set (pathdb's
    diffLayer.node) represents the map that was committed, and a database that
    held exactly the stored nodes of the old trie holds, once the set is written
    to it (pathdb's writeNodes), exactly those of the new one. *)

From S2P Require Import Prelude RlpRaw RlpEncode TrieEncoding TrieNode TrieSpec TrieUpdate TrieStore.
From S2P Require Import TrieOps TriePaths TrieRefine TrieHash.

(** ** Node sets *)

Definition zero_hash : bytes := repeat 0 32.

(** trienode.Node *)
Record Node := MkNode { n_hash : bytes; n_blob : bytes }.

Definition NewDeleted : Node := MkNode zero_hash [].

Definition IsDeleted (n : Node) : bool := bool_decide (n_hash n = zero_hash).

Record NodeSet := MkNodeSet {
  ns_owner : bytes;
  Leaves : list (bytes * bytes);   (* parent hash and blob *)
  Nodes : gmap bytes Node;
  ns_updates : Z;
  ns_deletes : Z
}.

Definition NewNodeSet (owner : bytes) : NodeSet := MkNodeSet owner [] ∅ 0 0.

Definition AddNode (path : bytes) (n : Node) (set : NodeSet) : NodeSet :=
  if IsDeleted n
  then MkNodeSet (ns_owner set) (Leaves set) (<[path := n]> (Nodes set)) (ns_updates set) (ns_deletes set + 1)
  else MkNodeSet (ns_owner set) (Leaves set) (<[path := n]> (Nodes set)) (ns_updates set + 1) (ns_deletes set).

Definition AddLeaf (parent blob : bytes) (set : NodeSet) : NodeSet :=
  MkNodeSet (ns_owner set) (Leaves set ++ [(parent, blob)]) (Nodes set) (ns_updates set) (ns_deletes set).

(** ** The committer *)

Section Commit.
  Context `{HF : Hasher} (hb : encBuffer) (acc : gmap bytes bytes) (collectLeaf : bool).

(** committer.store; [acc] is the access list of the tracer. *)
Definition commit_store (path : bytes) (n : node) (set : NodeSet) : tr (node * NodeSet) :=
  match (cache n).1 with
  | None =>
      if decide (is_Some (acc !! path)) then Ok (n, AddNode path NewDeleted set) else Ok (n, set)
  | Some h =>
      let nhash := BytesToHash h in
      blob ← lift ErrRlp (nodeToBytes hb n);
      let set := AddNode path (MkNode nhash blob) set in
      let set := if collectLeaf then
                   match n with
                   | shortNode _ (valueNode val) _ => AddLeaf nhash val set
                   | _ => set
                   end
                 else set in
      Ok (hashNode h, set)
  end.

Section Children.
  Context (commit : bytes → node → NodeSet → tr (node * NodeSet)).

(** commitChildren, from child [i] on; the seventeenth child is kept. *)
Fixpoint commitChildren (path : bytes) (i : nat) (children : list node) (set : NodeSet) : tr (list node * NodeSet) :=
  match children with
  | [] => Ok ([], set)
  | child :: rest =>
      '(c, set) ← (if (i <? 16)%nat then
                     match child with
                     | NilNode => Ok (NilNode, set)
                     | hashNode _ => Ok (child, set)
                     | _ => commit (path ++ [Z.of_nat i]) child set
                     end
                   else Ok (child, set));
      '(cs, set) ← commitChildren path (S i) rest set;
      Ok (c :: cs, set)
  end.
End Children.

(** committer.commit *)
Fixpoint commit (path : bytes) (n : node) (set : NodeSet) {struct n} : tr (node * NodeSet) :=
  match cache n with
  | (Some h, false) => Ok (hashNode h, set)
  | _ =>
      match n with
      | shortNode key val f =>
          '(cval, set) ← (match val with
                          | fullNode _ _ => commit (path ++ key) val set
                          | _ => Ok (val, set)
                          end);
          ckey ← hexToCompact key;
          let collapsed := shortNode ckey cval f in
          '(hd, set) ← commit_store path collapsed set;
          match hd with hashNode _ => Ok (hd, set) | _ => Ok (collapsed, set) end
      | fullNode children f =>
          '(kids, set) ← commitChildren (fun p n s => commit p n s) path 0 children set;
          let collapsed := fullNode kids f in
          '(hd, set) ← commit_store path collapsed set;
          match hd with hashNode _ => Ok (hd, set) | _ => Ok (collapsed, set) end
      | hashNode _ => Ok (n, set)
      | _ => Panic
      end
  end.
End Commit.

(** ** Trie.Commit and New *)

Definition deleted_set (owner : bytes) (paths : list bytes) : NodeSet :=
  foldl (fun set path => AddNode path NewDeleted set) (NewNodeSet owner) paths.

(** The deferred part: the tracer is reset and the trie is marked. *)
Definition finish (t : Trie) (n : node) : Trie := MkTrie n (owner t) true (unhashed t) (t_reader t) newTracer.

Section TrieCommit.
  Context `{HF : Hasher} (hb : encBuffer).

(** The rest of Commit, with all nodes hashed. *)
Definition commit_hashed (collectLeaf : bool) (rootHash : bytes) (t : Trie) : tr (bytes * option NodeSet) * Trie :=
  let '(h, dirty) := cache (root t) in
  if negb dirty then
    (Ok (rootHash, None), finish t (match h with Some h => hashNode h | None => NilNode end))
  else
    let nodes := deleted_set (owner t) (deletedNodes (t_tracer t)) in
    match commit hb (accessList (t_tracer t)) collectLeaf [] (root t) nodes with
    | Ok (hashNode h, nodes) => (Ok (rootHash, Some nodes), finish t (hashNode h))
    | Ok _ => (Panic, finish t (root t))
    | Err e => (Err e, finish t (root t))
    | Panic => (Panic, finish t (root t))
    | OutOfFuel => (OutOfFuel, finish t (root t))
    end.

Definition Commit (collectLeaf : bool) (t : Trie) : tr (bytes * option NodeSet) * Trie :=
  match root t with
  | NilNode =>
      match deletedNodes (t_tracer t) with
      | [] => (Ok (EmptyRootHash, None), finish t NilNode)
      | paths => (Ok (EmptyRootHash, Some (deleted_set (owner t) paths)), finish t NilNode)
      end
  | _ =>
      let '(o, t) := Hash hb t in
      match o with
      | Ok rootHash => commit_hashed collectLeaf rootHash t
      | Err e => (Err e, finish t (root t))
      | Panic => (Panic, finish t (root t))
      | OutOfFuel => (OutOfFuel, finish t (root t))
      end
  end.
End TrieCommit.

Record ID := MkID { StateRoot : bytes; id_Owner : bytes; id_Root : bytes }.

(** newTrieReader; [db] is Database.Reader. *)
Definition newTrieReader (stateRoot owner : bytes) (db : bytes → option Reader) : tr trieReader :=
  if bool_decide (stateRoot = zero_hash) || bool_decide (stateRoot = EmptyRootHash)
  then Ok (MkReader owner None None)
  else match db stateRoot with
  | None => Err (MissingNodeError owner stateRoot [])
  | Some r => Ok (MkReader owner (Some r) None)
  end.

Definition New (id : ID) (db : bytes → option Reader) : tr Trie :=
  rd ← newTrieReader (StateRoot id) (id_Owner id) db;
  let trie := MkTrie NilNode (id_Owner id) false 0 rd newTracer in
  if negb (bool_decide (id_Root id = zero_hash)) && negb (bool_decide (id_Root id = EmptyRootHash)) then
    let '(o, tr) := resolveAndTrack rd (id_Root id) [] (t_tracer trie) in
    rootnode ← o;
    Ok (MkTrie rootnode (id_Owner id) false 0 rd tr)
  else Ok trie.

(** ** Where the nodes go *)

(** diffLayer.node over the layer below. *)
Definition diff_node (nodes : gmap bytes (gmap bytes Node)) (parent : Reader) : Reader := fun owner path hash =>
  match nodes !! owner with
  | Some subset =>
      match subset !! path with
      | Some n => if bool_decide (n_hash n = hash) then Some (n_blob n) else None
      | None => parent owner path hash
      end
  | None => parent owner path hash
  end.

(** writeNodes, for one owner: the nodes by path on disk. *)
Definition writeNodes (subset : gmap bytes Node) (disk : gmap bytes bytes) : gmap bytes bytes :=
  map_fold (fun path n disk => if IsDeleted n then base.delete path disk else <[path := n_blob n]> disk) disk subset.

(** ** The committer is correct *)

Section CommitCorrect.
  Context `{HF : Hasher} `{HL : !HasherLaws} (hb : encBuffer) (Hhb : length (sizebuf hb) = 9%nat).
  Context (a0 : tree) (acc : gmap bytes bytes) (collectLeaf : bool).

Definition node_of (s : tree) : Node := MkNode (sum256 (tree_enc s)) (tree_enc s).

(** What a commit does at the path [q] of the subtree [s]: nothing if the node is
    already in the database, or the node is written, or it is embedded in its
    parent and removed if it used to be stored. *)
Definition commit_at (q : bytes) (s : option tree) (o o' : option Node) : Prop :=
  match s with
  | Some s =>
      if is_node s then
        (orig a0 q s ∧ o' = o) ∨ (big q s ∧ o' = Some (node_of s)) ∨
        (¬ big q s ∧ o' = if decide (is_Some (acc !! q)) then Some NewDeleted else o)
      else o' = o
  | None => o' = o
  end.

Definition commits (p : bytes) (t : tree) (set set' : NodeSet) : Prop :=
  (∀ q, ¬ p `prefix_of` q → Nodes set' !! q = Nodes set !! q) ∧
  ∀ r, commit_at (p ++ r) (sub t r) (Nodes set !! (p ++ r)) (Nodes set' !! (p ++ r)).

(** The collapsed node. *)
Definition commit_res (p : bytes) (t : tree) (n : node) : Prop :=
  node_bytes n ∧ (big p t → n = hashNode (sum256 (tree_enc t))) ∧
  (¬ big p t → enc_node n = tree_enc t ∧ is_hash n = 0%nat).

Lemma commit_at_same q s o : (∀ t, s = Some t → is_node t = true → orig a0 q t) → commit_at q s o o.
Proof. intros H. destruct s as [s |]; [| done]. cbn. destruct (is_node s) eqn:E; [| done]. left. auto. Qed.

Lemma commits_orig p t set : orig a0 p t → commits p t set set.
Proof.
  intros Ho. split; [done |]. intros r. apply commit_at_same. intros s Hs _. unfold orig.
  by rewrite (sub_app _ _ _ _ Ho).
Qed.

Lemma commits_leaf p t set : is_node t = false → commits p t set set.
Proof.
  intros Ht. split; [done |]. intros r. apply commit_at_same. intros s Hs Hn.
  destruct t, r; try done; injection Hs as <-; done.
Qed.

Lemma commits_short p k t set set1 set2 :
  k ≠ [] → commits (p ++ k) t set set1 → (∀ q, q ≠ p → Nodes set2 !! q = Nodes set1 !! q) →
  commit_at p (Some (TShort k t)) (Nodes set1 !! p) (Nodes set2 !! p) → commits p (TShort k t) set set2.
Proof.
  intros Hk [Ho Hc] H2 Hp.
  assert (Hpk : ¬ (p ++ k) `prefix_of` p).
  { intros [s E]. rewrite <- app_assoc in E. rewrite <- (app_nil_r p) in E at 1. apply app_inv_head in E. by destruct k. }
  split.
  - intros q Hq. rewrite H2 by (intros ->; by apply Hq). apply Ho. intros [s ->].
    apply Hq. exists (k ++ s). by rewrite app_assoc.
  - intros r. destruct (decide (r = [])) as [-> | Hr].
    + rewrite app_nil_r, sub_nil, <- (Ho p Hpk). done.
    + assert (Hne : p ++ r ≠ p) by (rewrite <- (app_nil_r p) at 2; by intros ?%app_inv_head).
      rewrite H2 by done. destruct (decide (k `prefix_of` r)) as [[s ->] | Hp'].
      * rewrite sub_short, app_assoc by done. apply Hc.
      * rewrite sub_short_None by done. cbn. apply Ho. intros [s E]. rewrite <- app_assoc in E.
        apply app_inv_head in E. by destruct Hp'; exists s.
Qed.

(** The children from [i] on. *)
Definition commits_kids (p : bytes) (i : nat) (ct : list tree) (set set' : NodeSet) : Prop :=
  (∀ q, (∀ j t, ct !! j = Some t → ¬ (p ++ [Z.of_nat (i + j)]) `prefix_of` q) → Nodes set' !! q = Nodes set !! q) ∧
  ∀ j t r, ct !! j = Some t →
    commit_at (p ++ Z.of_nat (i + j) :: r) (sub t r)
      (Nodes set !! (p ++ Z.of_nat (i + j) :: r)) (Nodes set' !! (p ++ Z.of_nat (i + j) :: r)).

Lemma kid_path_ne p i j r s : i ≠ j → p ++ Z.of_nat i :: r ≠ (p ++ [Z.of_nat j]) ++ s.
Proof. intros Hij E. rewrite <- app_assoc in E. apply app_inv_head in E. cbn in E. injection E as E _. lia. Qed.

Lemma commits_kids_cons p i t ct set set1 set2 :
  commits (p ++ [Z.of_nat i]) t set set1 → commits_kids p (S i) ct set1 set2 →
  commits_kids p i (t :: ct) set set2.
Proof.
  intros [Ho Hc] [Ho2 Hc2]. split.
  - intros q Hq. rewrite Ho2, Ho; [done | |].
    + specialize (Hq 0%nat t eq_refl). by rewrite Nat.add_0_r in Hq.
    + intros j s Hs. rewrite Nat.add_succ_comm. by apply (Hq (S j) s).
  - intros [| j] s r Hs.
    + injection Hs as <-. rewrite Nat.add_0_r. specialize (Hc r). rewrite <- app_assoc in Hc. cbn [app] in Hc.
      rewrite Ho2; [done |]. intros j s Hs [u E]. by apply kid_path_ne in E; [| lia].
    + rewrite <- Nat.add_succ_comm. specialize (Hc2 j s r Hs).
      rewrite Ho in Hc2; [done |]. intros [u E]. by apply kid_path_ne in E; [| lia].
Qed.

Lemma commits_full p ct set set1 set2 :
  commits_kids p 0 ct set set1 → (∀ q, q ≠ p → Nodes set2 !! q = Nodes set1 !! q) →
  commit_at p (Some (TFull ct)) (Nodes set1 !! p) (Nodes set2 !! p) → commits p (TFull ct) set set2.
Proof.
  intros [Ho Hc] H2 Hp.
  assert (Hpk : ∀ x, ¬ (p ++ [x]) `prefix_of` p).
  { intros x [s E]. rewrite <- app_assoc in E. rewrite <- (app_nil_r p) in E at 1. by apply app_inv_head in E. }
  split.
  - intros q Hq. rewrite H2 by (intros ->; by apply Hq). apply Ho. intros j t _ [s ->].
    apply Hq. exists (Z.of_nat j :: s). by rewrite <- app_assoc.
  - intros [| x r].
    + rewrite app_nil_r, sub_nil, <- (Ho p) by (intros; apply Hpk). done.
    + assert (Hne : p ++ x :: r ≠ p) by (rewrite <- (app_nil_r p) at 2; by intros ?%app_inv_head).
      rewrite H2 by done. destruct (sub (TFull ct) (x :: r)) as [s |] eqn:Es.
      * apply sub_full_Some in Es as (i & r' & t & [= -> ->] & Ht & Hs); [| done]. rewrite <- Hs. by apply (Hc i t r').
      * cbn. destruct (Z.leb_spec 0 x) as [Hx | Hx].
        -- destruct (ct !! Z.to_nat x) as [t |] eqn:Et.
           ++ rewrite <- (Z2Nat.id x), sub_full, Et in Es by done. specialize (Hc _ t r Et).
              rewrite Es in Hc. cbn in Hc. by rewrite Z2Nat.id in Hc.
           ++ apply Ho. intros j t Hj [u E]. rewrite <- app_assoc in E. apply app_inv_head in E.
              injection E as -> _. rewrite Nat2Z.id in Et. congruence.
        -- apply Ho. intros j t Hj [u E]. rewrite <- app_assoc in E. apply app_inv_head in E. injection E as -> _. lia.
Qed.

Lemma AddNode_Nodes path n set : Nodes (AddNode path n set) = <[path := n]> (Nodes set).
Proof. unfold AddNode. by destruct (IsDeleted n). Qed.

Lemma commit_store_ok p n t set :
  wf t → bounded t → node_bytes n → enc_node n = tree_enc t → is_hash n = 0%nat →
  (∀ h, (cache n).1 = Some h → h = sum256 (tree_enc t) ∧ big p t) → (big p t → is_Some (cache n).1) →
  ∃ hd set', commit_store hb acc collectLeaf p n set = Ok (hd, set') ∧
    (big p t → hd = hashNode (sum256 (tree_enc t))) ∧ (¬ big p t → hd = n) ∧
    (∀ q, q ≠ p → Nodes set' !! q = Nodes set !! q) ∧ commit_at p (Some t) (Nodes set !! p) (Nodes set' !! p).
Proof.
  intros Hw Hbd Hn He Hh Hc Hb. assert (Hnode : is_node t = true) by by destruct Hw.
  unfold commit_store. cbn [commit_at]. rewrite Hnode. destruct (cache n).1 as [h |] eqn:Ec.
  - destruct (Hc h eq_refl) as [-> Hbig]. destruct (tree_enc_ok t Hw Hbd) as [_ Hl].
    rewrite nodeToBytes_spec by (done || rewrite He; lia). cbn [lift mbind outcome_bind]. rewrite He.
    rewrite BytesToHash_32 by apply sum256_length.
    set (set1 := AddNode p (MkNode (sum256 (tree_enc t)) (tree_enc t)) set).
    assert (E : ∀ b : bool, Nodes (if b then match n with shortNode _ (valueNode val) _ => AddLeaf (sum256 (tree_enc t)) val set1 | _ => set1 end else set1) = Nodes set1).
    { intros []; [| done]. destruct n as [| | ? [] | |]; done. }
    do 2 eexists. split; [done |]. split_and!; [done | done | |].
    + intros q Hq. rewrite E. unfold set1. by rewrite AddNode_Nodes, lookup_insert_ne.
    + right; left. split; [done |]. rewrite E. unfold set1. by rewrite AddNode_Nodes, lookup_insert_eq.
  - assert (Hnb : ¬ big p t) by (intros Hbig; by destruct (Hb Hbig)).
    case_decide as Ha; do 2 eexists; (split; [done |]); (split_and!; [done | done | |]).
    + intros q Hq. by rewrite AddNode_Nodes, lookup_insert_ne.
    + right; right. split; [done |]. by rewrite AddNode_Nodes, lookup_insert_eq.
    + done.
    + by right; right.
Qed.

Lemma commit_ref p t n : p ≠ [] → wf t → commit_res p t n → enc_node n = tree_ref t.
Proof.
  intros Hp Hw (_ & Hb & Hnb). rewrite ref_of_wf by done. destruct (Z.leb_spec 32 (len (tree_enc t))) as [Hl | Hl].
  - by rewrite Hb by by right.
  - apply Hnb. intros [? | ?]; [done | lia].
Qed.

Definition commit_ok (n : node) : Prop :=
  ∀ p t set, rep a0 p n t → wf t → bounded t → hashed p n t →
  ∃ n' set', commit hb acc collectLeaf p n set = Ok (n', set') ∧ commit_res p t n' ∧ commits p t set set'.

(** Nodes that are in the database already. *)
Lemma commit_clean p n t set h :
  rep a0 p n t → (cache n = (Some h, false) ∨ n = hashNode h) →
  ∃ n' set', commit hb acc collectLeaf p n set = Ok (n', set') ∧ commit_res p t n' ∧ commits p t set set'.
Proof.
  intros Hrep Hn.
  assert (H : h = sum256 (tree_enc t) ∧ big p t ∧ orig a0 p t).
  { destruct Hn as [Hc | ->]; [| by inversion Hrep; subst].
    destruct n as [| c [fh fd] | k v [fh fd] | |]; try done; cbn in Hc; injection Hc as -> ->;
      inversion Hrep as [| | ? ? ? ? ? ? [Hf Hd] | ? ? ? ? ? ? [Hf Hd] |]; subst;
      destruct (Hf h eq_refl) as (-> & Hbig & _); by destruct (Hd eq_refl) as [Ho _]. }
  destruct H as (-> & Hbig & Ho). exists (hashNode (sum256 (tree_enc t))), set. split_and!.
  - destruct Hn as [Hc | ->]; [| done]. destruct n; try done; cbn [commit]; by rewrite Hc.
  - split_and!; [apply sum256_bytes | done | done].
  - by apply commits_orig.
Qed.

(** The store at the end of a commit, with its result. *)
Lemma commit_end p t n set set1 :
  wf t → bounded t → node_bytes n → enc_node n = tree_enc t → is_hash n = 0%nat →
  (∀ h, (cache n).1 = Some h → h = sum256 (tree_enc t) ∧ big p t) → (big p t → is_Some (cache n).1) →
  (∀ set2, (∀ q, q ≠ p → Nodes set2 !! q = Nodes set1 !! q) →
     commit_at p (Some t) (Nodes set1 !! p) (Nodes set2 !! p) → commits p t set set2) →
  ∃ n' set', ('(hd, s) ← commit_store hb acc collectLeaf p n set1;
              match hd with hashNode _ => Ok (hd, s) | _ => Ok (n, s) end) = Ok (n', set') ∧
    commit_res p t n' ∧ commits p t set set'.
Proof.
  intros Hw Hbd Hn He Hh Hc Hb Hset.
  destruct (commit_store_ok p n t set1 Hw Hbd Hn He Hh Hc Hb) as (hd & set2 & -> & Hbig & Hnb & Ho & Hat).
  cbn [mbind outcome_bind]. destruct (cache n).1 as [h |] eqn:Ec.
  - destruct (Hc h eq_refl) as [_ Hbg]. rewrite (Hbig Hbg). exists (hashNode (sum256 (tree_enc t))), set2.
    split_and!; [done | | by apply Hset]. split_and!; [apply sum256_bytes | done | done].
  - assert (Hnbg : ¬ big p t) by (intros Hbg; by destruct (Hb Hbg)). rewrite (Hnb Hnbg). exists n, set2.
    split_and!; [by destruct n | | by apply Hset]. by split_and!.
Qed.

Lemma flags_dirty (f : nodeFlag) : (∃ h, (hash f, dirty f) = (Some h, false)) ∨
  (∀ (A : Type) (x : bytes → A) (y : A), match (hash f, dirty f) with (Some h, false) => x h | _ => y end = y).
Proof. destruct f as [[h |] []]; [by right | left; by exists h | by right | by right]. Qed.

Lemma commit_short_val n p t set :
  commit_ok n → p ≠ [] → rep a0 p n t → hashed p n t →
  (wf t ∧ bounded t ∧ is_full t) ∨ (∃ v, t = TVal v ∧ bytes_ok v) →
  ∃ c set', (match n with fullNode _ _ => commit hb acc collectLeaf p n set | _ => Ok (n, set) end) = Ok (c, set') ∧
    enc_node c = tree_ref t ∧ node_bytes c ∧ commits p t set set'.
Proof.
  intros Hn Hp Hrep Hhd [(Hw & Hbd & [ct ->]) | (v & -> & Hv)].
  - destruct n as [| c f | k n f | h | v]; try by inversion Hrep.
    + destruct (Hn p _ set Hrep Hw Hbd Hhd) as (c' & set' & E & Hr & Hs). exists c', set'.
      split_and!; [done | by apply (commit_ref p) | apply Hr | done].
    + exists (hashNode h), set. destruct (child_kept_hash a0 p h _ Hp Hrep).
      split_and!; [done | done | done |]. apply commits_orig. by inversion Hrep.
  - exists n, set. destruct (child_kept_val a0 p n v Hrep Hv). split_and!; [| done | done | by apply commits_leaf].
    inversion Hrep as [| | | | ? ? ? Hw]; subst; [done | inversion Hw].
Qed.

Lemma commit_child n p t i set :
  commit_ok n → p ≠ [] → rep a0 p n t → hashed p n t →
  t = TNil ∨ (wf t ∧ bounded t ∧ (i < 16)%nat) ∨ (∃ v, t = TVal v ∧ bytes_ok v ∧ (16 <= i)%nat) →
  ∃ c set', (if (i <? 16)%nat then
               match n with
               | NilNode => Ok (NilNode, set)
               | hashNode _ => Ok (n, set)
               | _ => commit hb acc collectLeaf p n set
               end
             else Ok (n, set)) = Ok (c, set') ∧
    enc_node c = tree_ref t ∧ node_bytes c ∧ commits p t set set'.
Proof.
  intros Hn Hp Hrep Hhd [-> | [(Hw & Hbd & Hi) | (v & -> & Hv & Hi)]].
  - assert (n = NilNode) as -> by by apply (rep_nil_iff _ _ _ _ Hrep).
    exists NilNode, set. split_and!; [by destruct (i <? 16)%nat | done | done | by apply commits_leaf].
  - rewrite (proj2 (Nat.ltb_lt _ _) Hi). destruct (Hn p t set Hrep Hw Hbd Hhd) as (c & set' & E & Hr & Hs).
    exists c, set'. split_and!; [| by apply (commit_ref p) | apply Hr | done].
    by destruct n.
  - rewrite (proj2 (Nat.ltb_ge _ _) Hi). exists n, set. destruct (child_kept_val a0 p n v Hrep Hv).
    split_and!; [done | done | done | by apply commits_leaf].
Qed.

Lemma commitChildren_ok p i cn ct set :
  Forall commit_ok cn → length cn = length ct →
  (∀ j n t, cn !! j = Some n → ct !! j = Some t →
     rep a0 (p ++ [Z.of_nat (i + j)]) n t ∧ hashed (p ++ [Z.of_nat (i + j)]) n t) →
  (∀ j t, ct !! j = Some t →
     t = TNil ∨ (wf t ∧ bounded t ∧ (i + j < 16)%nat) ∨ (∃ v, t = TVal v ∧ bytes_ok v ∧ (16 <= i + j)%nat)) →
  ∃ cs set', commitChildren (commit hb acc collectLeaf) p i cn set = Ok (cs, set') ∧
    map enc_node cs = map tree_ref ct ∧ fold_right (fun x P => node_bytes x ∧ P) True cs ∧
    commits_kids p i ct set set'.
Proof.
  intros Hall. revert i ct set. induction Hall as [| n cn Hn Hall IH]; intros i ct set Hlen Hrep Hok.
  { destruct ct; [| done]. by exists [], set. }
  destruct ct as [| t ct]; [done |]. injection Hlen as Hlen. cbn [commitChildren].
  destruct (Hrep 0%nat n t eq_refl eq_refl) as [Hr Hh]. pose proof (Hok 0%nat t eq_refl) as Ht.
  rewrite Nat.add_0_r in Hr, Hh, Ht.
  destruct (commit_child n _ t i set Hn (path_snoc_ne p [Z.of_nat i] ltac:(done)) Hr Hh Ht)
    as (c & set1 & -> & Hc & Hb & Hs1). cbn [mbind outcome_bind].
  destruct (IH (S i) ct set1 Hlen) as (cs & set2 & -> & Hcs & Hbs & Hs2).
  { intros j m s Hm Hs. rewrite Nat.add_succ_comm. by apply (Hrep (S j)). }
  { intros j s Hs. rewrite Nat.add_succ_comm. by apply (Hok (S j)). }
  cbn [mbind outcome_bind]. exists (c :: cs), set2. split; [done |].
  split; [cbn; congruence |]. split; [exact (conj Hb Hbs) | by eapply commits_kids_cons].
Qed.

Lemma commit_short_node k n f p t set :
  commit_ok n → rep a0 p (shortNode k n f) t → wf t → bounded t → hashed p (shortNode k n f) t →
  ∃ n' set', commit hb acc collectLeaf p (shortNode k n f) set = Ok (n', set') ∧ commit_res p t n' ∧ commits p t set set'.
Proof.
  intros Hn Hrep Hw Hbd Hhd. destruct (flags_dirty f) as [[h Hf] | Hf].
  { eapply commit_clean; [done | by left]. }
  destruct (rep_short_inv _ _ _ _ _ _ Hrep) as (tc & -> & Hrc & Hfl).
  inversion Hhd as [| | | ? ? ? ? ? Hbig Hhc |]; subst. pose proof (wf_short_nonempty _ _ Hw) as Hk.
  cbn [commit cache]. rewrite Hf.
  assert (Htc : (wf tc ∧ bounded tc ∧ is_full tc) ∨ (∃ v, tc = TVal v ∧ bytes_ok v)).
  { destruct (bounded_short _ _ Hw Hbd) as [_ Hbc].
    inversion Hw as [l v Hl (_ & Hv & _) | ? c Hl Hne Hwc |]; subst; [right; eauto | left].
    split_and!; [done | by apply Hbc | by eexists]. }
  destruct (commit_short_val n (p ++ k) tc set Hn (path_snoc_ne p k Hk) Hrc Hhc Htc) as (c & set1 & -> & Hc & Hcb & Hs1).
  cbn [mbind outcome_bind]. rewrite hexToCompact_compact. cbn [mbind outcome_bind].
  assert (Hbytes : bytes_ok (compact k)).
  { apply compact_bytes. inversion Hw as [l v Hl Hv | ? c' Hl Hne Hwc |]; subst; [exists l | exists k]; by auto. }
  apply (commit_end p (TShort k tc) (shortNode (compact k) c f) set set1);
    [done | done | by split | cbn; by rewrite Hc | done | | done |].
  - intros h Hh. destruct (proj1 Hfl h Hh) as (-> & ? & _). done.
  - intros set2. by apply commits_short.
Qed.

Lemma commit_full_node c f p t set :
  Forall commit_ok c → rep a0 p (fullNode c f) t → wf t → bounded t → hashed p (fullNode c f) t →
  ∃ n' set', commit hb acc collectLeaf p (fullNode c f) set = Ok (n', set') ∧ commit_res p t n' ∧ commits p t set set'.
Proof.
  intros Hn Hrep Hw Hbd Hhd. destruct (flags_dirty f) as [[h Hf] | Hf].
  { eapply commit_clean; [done | by left]. }
  inversion Hrep as [| | | ? ? ? ct Hlen Hch Hfl |]; subst. inversion Hhd as [| | | | ? ? ? ? Hbig Hhc]; subst.
  cbn [commit cache]. rewrite Hf.
  destruct (commitChildren_ok p 0 c ct set Hn Hlen) as (cs & set1 & E & Hcs & Hcb & Hs1).
  { intros j n t Hj Ht. split; [by apply Hch | by apply Hhc]. }
  { intros j t Hj. destruct (wf_full_child ct j t Hw Hj) as [-> | [[Hwt Hlt] | (v & -> & (_ & Hv & _) & ->)]];
      [by left | right; left; split_and!; [done | by eapply bounded_child | done] | right; right; eauto]. }
  change (commitChildren (fun p n s => commit hb acc collectLeaf p n s)) with (commitChildren (commit hb acc collectLeaf)).
  rewrite E. cbn [mbind outcome_bind].
  assert (Hne : cs ≠ []).
  { intros ->. inversion Hw as [| | ? H17 _ _ _]; subst. by destruct ct. }
  apply (commit_end p (TFull ct) (fullNode cs f) set set1); [done | done | by split | cbn; by rewrite Hcs | done | | done |].
  - intros h Hh. destruct (proj1 Hfl h Hh) as (-> & ? & _). done.
  - intros set2. by apply commits_full.
Qed.

Lemma commit_correct n : commit_ok n.
Proof.
  induction n as [| c f IH | k v f IH | h | v] using node_nested_ind; intros p t set Hrep Hw Hbd Hhd.
  - inversion Hrep; subst. inversion Hw.
  - by apply commit_full_node.
  - by apply commit_short_node.
  - eapply commit_clean; [done | by right].
  - inversion Hrep as [| | | | ? ? ? Hw']; subst. inversion Hw.
Qed.
End CommitCorrect.

(** The owner of the set stays. *)
Section Owner.
  Context `{HF : Hasher} (hb : encBuffer) (acc : gmap bytes bytes) (cl : bool).

Definition keeps_owner (set : NodeSet) {A} (o : tr (A * NodeSet)) : Prop :=
  ∀ a set', o = Ok (a, set') → ns_owner set' = ns_owner set.

Lemma keeps_owner_ret {A} set (a : A) : keeps_owner set (Ok (a, set)).
Proof. by intros ? ? [= <- <-]. Qed.

Lemma keeps_owner_bind {A B} set (o : tr (A * NodeSet)) (f : A * NodeSet → tr (B * NodeSet)) :
  keeps_owner set o → (∀ a set1, ns_owner set1 = ns_owner set → keeps_owner set (f (a, set1))) → keeps_owner set (o ≫= f).
Proof. intros Ho Hf. destruct o as [[a set1] | | |]; try done. apply Hf. by apply (Ho a). Qed.

Lemma keeps_owner_eq {A} set set1 (o : tr (A * NodeSet)) :
  keeps_owner set1 o → ns_owner set1 = ns_owner set → keeps_owner set o.
Proof. intros Ho E a s H. rewrite (Ho a s H). done. Qed.

Lemma AddNode_owner p n set : ns_owner (AddNode p n set) = ns_owner set.
Proof. unfold AddNode. by destruct (IsDeleted n). Qed.

Lemma commit_store_owner p n set : keeps_owner set (commit_store hb acc cl p n set).
Proof.
  unfold commit_store. destruct (cache n).1 as [h |].
  - destruct (nodeToBytes hb n); try done. intros ? s [= <- <-].
    destruct cl; [| by rewrite AddNode_owner]. destruct n as [| | ? [] | |]; apply AddNode_owner.
  - case_decide; intros ? ? [= <- <-]; [by rewrite AddNode_owner | done].
Qed.

Lemma commitChildren_owner commit p i cn set :
  Forall (fun n => ∀ p set, keeps_owner set (commit p n set)) cn →
  keeps_owner set (commitChildren commit p i cn set).
Proof.
  intros Hall. revert i set. induction Hall as [| n cn Hn Hall IH]; intros i set; [apply keeps_owner_ret |].
  cbn [commitChildren]. apply keeps_owner_bind.
  - destruct (i <? 16)%nat; [| apply keeps_owner_ret]. destruct n; solve [apply keeps_owner_ret | apply Hn].
  - intros c set1 E1. apply keeps_owner_bind; [by eapply keeps_owner_eq |]. intros cs set2 E2.
    by eapply keeps_owner_eq; [apply keeps_owner_ret |].
Qed.

Lemma commit_owner n p set : keeps_owner set (commit hb acc cl p n set).
Proof.
  assert (Hend : ∀ p c set set1, ns_owner set1 = ns_owner set →
    keeps_owner set ('(hd, s) ← commit_store hb acc cl p c set1;
                     match hd with hashNode _ => Ok (hd, s) | _ => Ok (c, s) end)).
  { intros q c s s1 E. apply keeps_owner_bind; [by eapply keeps_owner_eq; [apply commit_store_owner |] |].
    intros hd s2 E2. by destruct hd; (eapply keeps_owner_eq; [apply keeps_owner_ret |]). }
  revert p set. induction n as [| c f IH | k v f IH | h | v] using node_nested_ind; intros p set; try done.
  - cbn [commit cache]. destruct (flags_dirty f) as [[h Hf] | Hf]; [injection Hf as E1 E2; rewrite E1, E2; apply keeps_owner_ret | rewrite Hf].
    apply keeps_owner_bind; [by apply commitChildren_owner |]. intros kids set1 E. by apply Hend.
  - cbn [commit cache]. destruct (flags_dirty f) as [[h Hf] | Hf]; [injection Hf as E1 E2; rewrite E1, E2; apply keeps_owner_ret | rewrite Hf].
    apply keeps_owner_bind; [destruct v; solve [apply keeps_owner_ret | apply IH] |]. intros cv set1 E.
    destruct (hexToCompact k); try done. by apply Hend.
  - apply keeps_owner_ret.
Qed.
End Owner.

(** ** Commits of tries *)

Section Reopen.
  Context `{HF : Hasher} `{HL : !HasherLaws} (hb : encBuffer) (Hhb : length (sizebuf hb) = 9%nat) (cl : bool).

Definition nodes_of (set : option NodeSet) : gmap bytes Node :=
  match set with Some s => Nodes s | None => ∅ end.

(** The mark of a node that the tracer reports as deleted. *)
Definition mark (tr : tracer) (q : bytes) : option Node :=
  if decide (q ∈ deletedNodes tr) then Some NewDeleted else None.

Lemma deleted_set_fold paths set q :
  Nodes (foldl (fun set path => AddNode path NewDeleted set) set paths) !! q =
  if decide (q ∈ paths) then Some NewDeleted else Nodes set !! q.
Proof.
  revert set; induction paths as [| x paths IH]; intros set; cbn.
  - by rewrite decide_False by apply not_elem_of_nil.
  - rewrite IH, AddNode_Nodes. destruct (decide (q ∈ paths)) as [Hq | Hq].
    + by rewrite decide_True by by right.
    + destruct (decide (q = x)) as [-> | Hne].
      * rewrite decide_True by by left. by rewrite lookup_insert_eq.
      * rewrite decide_False by by intros [? | ?]%elem_of_cons. by rewrite lookup_insert_ne.
Qed.

Lemma deleted_set_mark owner tr q : Nodes (deleted_set owner (deletedNodes tr)) !! q = mark tr q.
Proof. unfold deleted_set, mark. rewrite deleted_set_fold. case_decide; [done | apply lookup_empty]. Qed.

Lemma deleted_set_owner owner paths : ns_owner (deleted_set owner paths) = owner.
Proof.
  unfold deleted_set. assert (H : ∀ set, ns_owner set = owner →
    ns_owner (foldl (fun set path => AddNode path NewDeleted set) set paths) = owner); [| by apply H].
  induction paths as [| x paths IH]; intros set Hs; [done |]. cbn. apply IH. by rewrite AddNode_owner.
Qed.

(** What a commit of the trie [a] over [a0] leaves in the set. *)
Definition set_ok (a0 a : tree) (tr : tracer) (owner : bytes) (set : option NodeSet) : Prop :=
  (∀ q, commit_at a0 (accessList tr) q (sub a q) (mark tr q) (nodes_of set !! q)) ∧
  (∀ s, set = Some s → ns_owner s = owner).

Lemma mark_clean a0 a tr q : traced (has_node a0) [] (has_node a) tr → sub a0 q = sub a q → mark tr q = None.
Proof.
  intros Ht Hs. unfold mark. apply decide_False. unfold deletedNodes. rewrite list_elem_of_filter, elem_of_elements.
  intros [_ Hd]. apply (Ht q) in Hd as [H1 H2]. unfold has_node in *. cbn in H2. rewrite Hs in H2. congruence.
Qed.

Lemma commit_hashed_ok t a0 a :
  trie_is t a0 a → wf a → bounded a → hashed [] (root t) a →
  ∃ set t', commit_hashed hb cl (tree_root a) t = (Ok (tree_root a, set), t') ∧ set_ok a0 a (t_tracer t) (owner t) set.
Proof.
  intros Ht Hw Hbd Hhd. pose proof (ti_rep _ _ _ Ht) as Hr. unfold commit_hashed.
  destruct (cache (root t)) as [h d] eqn:Ec. destruct d; cbn [negb].
  - destruct (commit_correct hb Hhb a0 (accessList (t_tracer t)) cl (root t) [] a
      (deleted_set (owner t) (deletedNodes (t_tracer t))) Hr Hw Hbd Hhd) as (n' & set' & E & Hcr & Hcs).
    destruct Hcr as (_ & Hbig & _). rewrite (Hbig ltac:(by left)) in E.
    pose proof (commit_owner _ _ _ _ _ _ _ _ E) as Ho. rewrite E. do 2 eexists. split; [done |]. split.
    + intros q. destruct Hcs as [_ Hcs]. specialize (Hcs q). cbn [app] in Hcs. by rewrite deleted_set_mark in Hcs.
    + intros s [= <-]. by rewrite Ho, deleted_set_owner.
  - assert (Hor : orig a0 [] a).
    { destruct (root t) as [| c f | k v f | |] eqn:Er; cbn in Ec; try done; injection Ec as _ Ed;
        inversion Hr as [| | ? ? ? ? ? ? [_ Hd] | ? ? ? ? ? ? [_ Hd] |]; subst; by apply Hd. }
    unfold orig in Hor. rewrite sub_nil in Hor. injection Hor as ->.
    do 2 eexists. split; [done |]. split; [| done]. intros q. cbn. rewrite lookup_empty.
    rewrite (mark_clean a a) by (done || apply Ht). by apply commit_at_same.
Qed.

Lemma Commit_ok t a0 a m :
  represents_tree t a0 a m → bounded a →
  ∃ set t', Commit hb cl t = (Ok (tree_root a, set), t') ∧ set_ok a0 a (t_tracer t) (owner t) set.
Proof.
  intros Hrep Hbd. pose proof Hrep as [Ht Hh]. unfold Commit. destruct (ti_wf _ _ _ Ht) as [-> | Hw].
  - assert (Er : root t = NilNode) by by apply (rep_nil_iff _ _ _ _ (ti_rep _ _ _ Ht)). rewrite Er.
    assert (Hat : ∀ set, (∀ q, nodes_of set !! q = mark (t_tracer t) q) →
      ∀ q, commit_at a0 (accessList (t_tracer t)) q (sub TNil q) (mark (t_tracer t) q) (nodes_of set !! q)).
    { intros set Hs q. rewrite Hs. apply commit_at_same. intros s Hq Hn. destruct q; [| done]. by injection Hq as <-. }
    destruct (deletedNodes (t_tracer t)) as [| x paths] eqn:Ed; do 2 eexists; (split; [done |]); split; try done.
    + apply Hat. intros q. unfold mark. by rewrite Ed.
    + rewrite <- Ed. apply Hat. intros q. apply deleted_set_mark.
    + intros s [= <-]. apply deleted_set_owner.
  - destruct (Hash_ok hb Hhb t a0 a m Hrep Hbd) as (t1 & -> & [Ht1 _] & Etr & Erd & Eow & Hhd).
    pose proof (ti_rep _ _ _ Ht) as Hr. rewrite <- Etr, <- Eow.
    destruct (root t) eqn:Er; [inversion Hr; subst; inversion Hw |..]; by apply commit_hashed_ok.
Qed.

(** *** Reopening over a diff layer *)

Definition layer_nodes (set : option NodeSet) : gmap bytes (gmap bytes Node) :=
  match set with Some s => {[ns_owner s := Nodes s]} | None => ∅ end.

Lemma diff_node_own (a0 a : tree) tr owner set parent q h :
  set_ok a0 a tr owner set →
  diff_node (layer_nodes set) parent owner q h =
    match nodes_of set !! q with
    | Some n => if bool_decide (n_hash n = h) then Some (n_blob n) else None
    | None => parent owner q h
    end.
Proof.
  intros [_ Ho]. unfold diff_node. destruct set as [s |]; cbn.
  - by rewrite (Ho s eq_refl), lookup_singleton_eq.
  - by rewrite !lookup_empty.
Qed.

Lemma mark_present a0 a tr q : traced (has_node a0) [] (has_node a) tr → has_node a q = true → mark tr q = None.
Proof.
  intros Ht Hs. unfold mark. apply decide_False. unfold deletedNodes. rewrite list_elem_of_filter, elem_of_elements.
  intros [_ Hd]. apply (Ht q) in Hd as [H1 H2]. congruence.
Qed.

(** A read through the reader is a read of the layer. *)
Lemma reader_node_layer rd q h b :
  reader_node rd q h = Ok b → ∃ r, reader rd = Some r ∧ r (rd_owner rd) q h = Some b ∧ len b ≠ 0.
Proof.
  unfold reader_node. destruct (match banned rd with Some b => _ | None => _ end); [done |].
  destruct (reader rd) as [r |]; [| done]. destruct (r (rd_owner rd) q h) as [b' |] eqn:E; [| done].
  case_if; [done |]. intros [= <-]. eauto.
Qed.

Lemma tree_enc_nonempty t : wf t → len (tree_enc t) ≠ 0.
Proof. intros Hw. destruct (tree_enc_list t Hw) as [p ->]. pose proof (enc_list_len p). lia. Qed.

Lemma diff_holds t a0 a set parent :
  trie_is t a0 a → set_ok a0 a (t_tracer t) (owner t) set → (∀ r, reader (t_reader t) = Some r → parent = r) →
  db_holds (MkReader (owner t) (Some (diff_node (layer_nodes set) parent)) None) a.
Proof.
  intros Ht Hset Hpar q s Hq Hw Hb. unfold orig in Hq. unfold reader_node. cbn [banned reader rd_owner].
  rewrite (diff_node_own a0 a _ _ _ _ _ _ Hset). pose proof (proj1 Hset q) as Hat. rewrite Hq in Hat. cbn in Hat.
  assert (Hn : is_node s = true) by by destruct Hw. rewrite Hn in Hat.
  destruct Hat as [[Ho ->] | [[_ ->] | [? _]]]; [| | done].
  - rewrite (mark_present a0 a _ q (ti_traced _ _ _ Ht)) by (unfold has_node; by rewrite Hq).
    destruct (reader_node_layer _ _ _ _ (ti_db _ _ _ Ht q s Ho Hw Hb)) as (r & Er & E & Hl).
    rewrite (Hpar r Er). rewrite (ti_owner _ _ _ Ht) in E. rewrite E. by rewrite (proj2 (Z.eqb_neq _ _)).
  - cbn. rewrite bool_decide_true by done. by rewrite (proj2 (Z.eqb_neq _ _)) by by apply tree_enc_nonempty.
Qed.

(** Opening a trie whose root is in the database. *)
Lemma New_ok id db a m rd :
  newTrieReader (StateRoot id) (id_Owner id) db = Ok rd → rd_owner rd = id_Owner id → db_holds rd a →
  wf_root a → bounded a → holds a m → id_Root id = tree_root a →
  tree_root a ≠ zero_hash → (tree_root a = EmptyRootHash → a = TNil) →
  ∃ t, New id db = Ok t ∧ represents_over a t m.
Proof.
  intros Hrd How Hdb Hw Hbd Hh Hroot Hz He. unfold New. rewrite Hrd, Hroot. cbn [mbind outcome_bind].
  rewrite (bool_decide_false (tree_root a = zero_hash)) by done. cbn [negb andb].
  destruct Hw as [-> | Hw].
  - rewrite bool_decide_true by done. cbn [negb]. eexists. split; [done |]. exists TNil. split; [| done].
    constructor; [done | done | by left | done | constructor | by left | apply traced_new |].
    intros q t Ho Hwt. by apply sub_none_wf in Ho.
  - rewrite bool_decide_false by (intros E; specialize (He E); subst; inversion Hw). cbn [negb t_tracer].
    assert (Er : tree_root a = sum256 (tree_enc a)) by by destruct Hw.
    assert (Hrep : rep a [] (hashNode (tree_root a)) a).
    { constructor; [done | done | by left | done | by unfold orig; rewrite sub_nil]. }
    destruct (resolve_hash rd a Hdb [] (tree_root a) a newTracer Hrep) as (n & -> & [Hr _] & _ & _ & [[_ Ht] [_ Hk]]).
    cbn [mbind outcome_bind]. eexists. split; [done |]. exists a. split; [| done].
    constructor; [done | done | by right | done | done | by right | by apply Ht, traced_new |].
    intros q s Ho Hws Hb. destruct (Hk q eq_refl) as [? | Hs]; [by right | left]. by apply (Hs s).
Qed.

(** C4.  A commit is durable.  Committing a trie that represents [m] succeeds, and
    the root it returns, opened over a diff layer that holds the returned nodes on
    top of the database the trie was opened over, gives a trie that represents
    [m].  The root must not be one of the two values New takes for the empty trie,
    unless [m] is empty. *)
Theorem Commit_reopen t a0 m :
  represents_over a0 t m → keys_bounded m →
  ∃ root set t', Commit hb cl t = (Ok (root, set), t') ∧
    ∀ sr db parent, sr ≠ zero_hash → sr ≠ EmptyRootHash → db sr = Some (diff_node (layer_nodes set) parent) →
      (∀ r, reader (t_reader t) = Some r → parent = r) →
      root ≠ zero_hash → (root = EmptyRootHash → m = ∅) →
      ∃ t2, New (MkID sr (owner t) root) db = Ok t2 ∧ represents t2 m.
Proof.
  intros [a Ha] Hm. pose proof Ha as [Ht Hh]. pose proof (holds_bounded a m Hh Hm) as Hbd.
  destruct (Commit_ok t a0 a m Ha Hbd) as (set & t' & E & Hset). exists (tree_root a), set, t'. split; [done |].
  intros sr db parent Hs1 Hs2 Hdb Hpar Hz He.
  destruct (New_ok (MkID sr (owner t) (tree_root a)) db a m
    (MkReader (owner t) (Some (diff_node (layer_nodes set) parent)) None)) as (t2 & E2 & Hr2); try done.
  - unfold newTrieReader. cbn. rewrite !bool_decide_false by done. cbn. by rewrite Hdb.
  - by eapply diff_holds.
  - apply Ht.
  - intros Er. specialize (He Er). subst m. destruct (ti_wf _ _ _ Ht) as [? | Hw]; [done |].
    eapply holds_canonical; [by right | by left | done |]. split; [intros; by rewrite lookup_empty | done].
  - exists t2. split; [done | by exists a].
Qed.

(** *** The nodes on disk *)

(** The blob stored at the path [q] for the trie [a]. *)
Definition stored_blob (a : tree) (q : bytes) : option bytes :=
  match sub a q with
  | Some s => if is_node s && (bool_decide (q = []) || (32 <=? len (tree_enc s))) then Some (tree_enc s) else None
  | None => None
  end.

Definition disk_is (disk : gmap bytes bytes) (a : tree) : Prop := ∀ q, disk !! q = stored_blob a q.

Lemma stored_blob_big a q s : sub a q = Some s → is_node s = true → big q s → stored_blob a q = Some (tree_enc s).
Proof.
  intros Hs Hn Hb. unfold stored_blob. rewrite Hs, Hn.
  destruct Hb as [-> | Hl]; [by rewrite bool_decide_true | by rewrite (proj2 (Z.leb_le _ _)), orb_true_r].
Qed.

Lemma stored_blob_small a q s : sub a q = Some s → ¬ big q s → stored_blob a q = None.
Proof.
  intros Hs Hb. unfold stored_blob. rewrite Hs. rewrite bool_decide_false by (intros ->; by apply Hb; left).
  rewrite (proj2 (Z.leb_gt _ _)); [by rewrite andb_false_r |]. destruct (Z.ltb_spec (len (tree_enc s)) 32); [done |].
  by destruct Hb; right.
Qed.

Lemma stored_blob_none a q : has_node a q = false → stored_blob a q = None.
Proof. unfold has_node, stored_blob. destruct (sub a q); [| done]. by intros ->. Qed.

Lemma stored_blob_Some a q b : stored_blob a q = Some b → ∃ s, sub a q = Some s ∧ is_node s = true ∧ big q s.
Proof.
  unfold stored_blob. destruct (sub a q) as [s |]; [| done]. destruct (is_node s) eqn:Hn; [| done]. cbn [andb].
  destruct (bool_decide (q = []) || _) eqn:E; [| done]. intros _. exists s. split_and!; [done | done |].
  apply orb_true_iff in E as [E%bool_decide_eq_true | E]; [by left | right; zb; lia].
Qed.

Lemma writeNodes_lookup subset disk q :
  writeNodes subset disk !! q =
  match subset !! q with Some n => if IsDeleted n then None else Some (n_blob n) | None => disk !! q end.
Proof.
  unfold writeNodes. revert subset. apply (map_fold_weak_ind (fun d subset => d !! q =
    match subset !! q with Some n => if IsDeleted n then None else Some (n_blob n) | None => disk !! q end)).
  - by rewrite lookup_empty.
  - intros p n subset d Hp IH. destruct (decide (q = p)) as [-> | Hne].
    + rewrite lookup_insert_eq. destruct (IsDeleted n); [by rewrite lookup_delete_eq | by rewrite lookup_insert_eq].
    + rewrite lookup_insert_ne by done. rewrite <- IH.
      destruct (IsDeleted n); [by rewrite lookup_delete_ne | by rewrite lookup_insert_ne].
Qed.

Lemma sub_wf t r s : wf t → sub t r = Some s → is_node s = true → wf s.
Proof.
  intros Hw. revert r. induction Hw as [k v Hk Hv | k c Hk Hne Hw IH | c Hlen Hch IH Hval Htwo]; intros r Hs Hn.
  - destruct (decide (r = [])) as [-> | Hr]; [rewrite sub_nil in Hs; injection Hs as <-; by constructor |].
    apply sub_short_Some in Hs as (r' & _ & Hs); [| done]. destruct r'; [| done]. by injection Hs as <-.
  - destruct (decide (r = [])) as [-> | Hr]; [rewrite sub_nil in Hs; injection Hs as <-; by constructor |].
    apply sub_short_Some in Hs as (r' & _ & Hs); [| done]. by eapply IH.
  - assert (Hw : wf (TFull c)) by by constructor.
    destruct (decide (r = [])) as [-> | Hr]; [rewrite sub_nil in Hs; by injection Hs as <- |].
    apply sub_full_Some in Hs as (i & r' & t & -> & Ht & Hs); [| done].
    destruct (wf_full_child c i t Hw Ht) as [-> | [[Hwt Hlt] | (v & -> & _)]].
    + destruct r'; [| done]. by injection Hs as <-.
    + apply (IH i t Ht Hlt) with r'; [by destruct Hwt | done | done].
    + destruct r'; [| done]. by injection Hs as <-.
Qed.

Lemma sub_wf_root a q s : wf_root a → sub a q = Some s → is_node s = true → wf s.
Proof. intros [-> | Hw] Hs Hn; [| by eapply sub_wf]. destruct q; [| done]. by injection Hs as <-. Qed.

(** What is behind a hash is what the database has. *)
Lemma behind_orig a0 n p t r :
  rep a0 p n t → wf t ∨ is_node t = false → behind n r = true → sub a0 (p ++ r) = sub t r.
Proof.
  revert p t r. induction n as [| c f IH | k v f IH | h | v] using node_nested_ind; intros p t r Hrep Hw Hb; try done.
  - apply behind_full_true in Hb as (i & r' & n & -> & Hn & Hb). inversion Hrep as [| | | ? ? ? ct Hlen Hch Hfl |]; subst.
    destruct Hw as [Hw | ?]; [| done].
    destruct (ct !! i) as [s |] eqn:Es; [| apply lookup_ge_None in Es; apply lookup_lt_Some in Hn; lia].
    rewrite sub_full, Es. change (Z.of_nat i :: r') with ([Z.of_nat i] ++ r'). rewrite app_assoc.
    rewrite Forall_lookup in IH. apply (IH i n Hn); [by apply Hch | | done].
    destruct (wf_full_child ct i s Hw Es) as [-> | [[? _] | (v & -> & _)]]; auto.
  - apply behind_short_true in Hb as (r' & -> & Hb).
    destruct (rep_short_inv _ _ _ _ _ _ Hrep) as (tc & -> & Hrc & _). destruct Hw as [Hw | ?]; [| done].
    rewrite sub_short, app_assoc by by eapply wf_short_nonempty. apply IH; [done | | done].
    inversion Hw; subst; auto.
  - inversion Hrep as [| | | | ? ? ? _ _ _ _ Ho]; subst. by apply sub_app.
Qed.

(** A stored node of the old trie that was not loaded is still there. *)
Lemma not_accessed_same t a0 a q b :
  trie_is t a0 a → stored_blob a0 q = Some b → ¬ is_Some (accessList (t_tracer t) !! q) → sub a0 q = sub a q.
Proof.
  intros Ht Hb Ha. destruct (stored_blob_Some _ _ _ Hb) as (s & Hs & Hn & Hbig).
  pose proof (sub_wf_root _ _ _ (ti_orig _ _ _ Ht) Hs Hn) as Hws.
  destruct (ti_accessed _ _ _ Ht q s Hs Hws Hbig) as [? | Hbh]; [done |].
  apply (behind_orig a0 (root t) [] a q (ti_rep _ _ _ Ht)); [| done].
  destruct (ti_wf _ _ _ Ht) as [-> | ?]; auto.
Qed.

Lemma write_exact t a0 a set disk :
  trie_is t a0 a → set_ok a0 a (t_tracer t) (owner t) set → (∀ q b, stored_blob a q = Some b → sum256 b ≠ zero_hash) →
  disk_is disk a0 → disk_is (writeNodes (nodes_of set) disk) a.
Proof.
  intros Ht [Hat _] Hz Hd q. rewrite writeNodes_lookup. specialize (Hat q).
  assert (Hdel : IsDeleted NewDeleted = true) by (by apply bool_decide_true).
  destruct (has_node a q) eqn:Hn.
  - rewrite (mark_present a0 a _ q (ti_traced _ _ _ Ht) Hn) in Hat. unfold has_node in Hn.
    destruct (sub a q) as [s |] eqn:Es; [| done]. cbn in Hat. rewrite Hn in Hat.
    destruct Hat as [[Ho ->] | [[Hb ->] | [Hb ->]]].
    + rewrite Hd. unfold stored_blob. by rewrite Ho, Es.
    + unfold IsDeleted. cbn. pose proof (stored_blob_big a q s Es Hn Hb) as Hbig. rewrite bool_decide_false by (by apply (Hz q)). done.
    + rewrite (stored_blob_small a q s) by done. case_decide as Ha; [by rewrite Hdel |].
      rewrite Hd. destruct (stored_blob a0 q) as [b |] eqn:E; [| done].
      pose proof (not_accessed_same t a0 a q b Ht E Ha) as Hsame. rewrite Es in Hsame.
      by rewrite (stored_blob_small a0 q s) in E.
  - rewrite (stored_blob_none a q Hn).
    assert (Hm : nodes_of set !! q = mark (t_tracer t) q).
    { unfold has_node in Hn. destruct (sub a q) as [s |]; [| done]. cbn in Hat. by rewrite Hn in Hat. }
    rewrite Hm. unfold mark. case_decide as Hq; [by rewrite Hdel |]. rewrite Hd.
    destruct (stored_blob a0 q) as [b |] eqn:E; [| done]. destruct Hq. unfold deletedNodes.
    apply list_elem_of_filter. destruct (decide (is_Some (accessList (t_tracer t) !! q))) as [Ha | Ha].
    + split; [done |]. apply elem_of_elements, (ti_traced _ _ _ Ht q). split; [done |]. cbn.
      destruct (stored_blob_Some _ _ _ E) as (s & Hs & Hsn & _). unfold has_node. by rewrite Hs.
    + pose proof (not_accessed_same t a0 a q b Ht E Ha) as Hsame.
      destruct (stored_blob_Some _ _ _ E) as (s & Hs & Hsn & _). unfold has_node in Hn.
      rewrite <- Hsame, Hs in Hn. congruence.
Qed.

(** C15.  The node set is exact.  If the database holds, path by path, exactly the
    stored nodes of the trie that was opened, then after writing the set of a
    commit it holds exactly those of the committed trie, which is the one of the
    map: nothing needed is missing and nothing stale is left behind.  No stored node
    of the committed trie has the zero hash, which marks the deleted ones. *)
Theorem Commit_exact t a0 m disk :
  represents_over a0 t m → keys_bounded m → (∀ a q b, wf_root a → holds a m → stored_blob a q = Some b → sum256 b ≠ zero_hash) → disk_is disk a0 →
  ∃ a set t', Commit hb cl t = (Ok (tree_root a, set), t') ∧ wf_root a ∧ holds a m ∧
    disk_is (writeNodes (nodes_of set) disk) a.
Proof.
  intros [a Ha] Hm Hz Hd. pose proof Ha as [Ht Hh]. pose proof (holds_bounded a m Hh Hm) as Hbd.
  destruct (Commit_ok t a0 a m Ha Hbd) as (set & t' & E & Hset). exists a, set, t'.
  split_and!; [done | apply Ht | done |]. eapply write_exact; [done | done | | done]. intros q b. apply Hz; [apply Ht | done].
Qed.
End Reopen.

(** ** Examples *)

Definition example_trie : Trie := (run_trie ops_forth (empty_trie (MkReader (repeat 9 32) None None))).2.
Definition example_map : gmap bytes bytes := (run_map ops_forth ∅).2.
Definition example_buf : encBuffer := EncBuffer [] [] 0 (repeat 0 9).

Lemma example_represents : @represents_over toy_hash TNil example_trie example_map.
Proof.
  destruct (@run_ok toy_hash toy_hash_laws ops_forth (empty_trie (MkReader (repeat 9 32) None None)) TNil ∅
    (empty_represents _)) as (t & E & Hr & _).
  { repeat (apply Forall_cons; split; [try (split_and!; [| | by vm_compute]); solve_bytes |]). constructor. }
  unfold example_trie. by rewrite E.
Qed.

Lemma example_bounded : keys_bounded example_map.
Proof. apply (bool_decide_unpack _). vm_compute. exact I. Qed.

Lemma Commit_reopen_witness :
  ∃ root set t', @Commit toy_hash example_buf true example_trie = (Ok (root, set), t') ∧
    ∃ t2, New (MkID root (owner example_trie) root)
              (fun _ => Some (diff_node (layer_nodes set) (fun _ _ _ => None))) = Ok t2 ∧
      @represents toy_hash t2 example_map.
Proof.
  destruct (@Commit_reopen toy_hash toy_hash_laws example_buf eq_refl true example_trie TNil example_map
    example_represents example_bounded) as (root & set & t' & E & H).
  exists root, set, t'. split; [exact E |].
  assert (Hr : match (@Commit toy_hash example_buf true example_trie).1 with
               | Ok (root, _) => bool_decide (root = zero_hash) || bool_decide (root = EmptyRootHash)
               | _ => true
               end = false) by by vm_compute.
  rewrite E in Hr. cbn [fst] in Hr. apply orb_false_iff in Hr as [Hz%bool_decide_eq_false He%bool_decide_eq_false].
  apply (H root (fun _ => Some (diff_node (layer_nodes set) (fun _ _ _ => None))) (fun _ _ _ => None));
    [exact Hz | exact He | reflexivity | | exact Hz | intros Hc; by destruct He].
  intros r Er. assert (Hn : reader (t_reader example_trie) = None) by by vm_compute. congruence.
Defined.

Lemma Commit_exact_witness :
  ∃ a set t', @Commit toy_hash example_buf true example_trie = (Ok (@tree_root toy_hash a, set), t') ∧
    @disk_is toy_hash (writeNodes (nodes_of set) ∅) a.
Proof.
  destruct (@Commit_exact toy_hash toy_hash_laws example_buf eq_refl true example_trie TNil example_map ∅
    example_represents example_bounded) as (a & set & t' & E & _ & _ & H).
  - intros a q b _ _ _. by vm_compute.
  - intros q. rewrite lookup_empty. by destruct q.
  - exists a, set, t'. exact (conj E H).
Defined.
