(* ===== verification/TrieProof.v ===== *)
(** * Merkle proofs: Prove and VerifyProof of src/trie/proof.go, proofHash of hasher.go

    A proof of a key is the set of the encoded nodes on the path to it, keyed by their
    hashes.  Whatever nodes it is given, the verifier says that one is missing or gives
    the value that the trie of the root hash has under the key, as long as the hash
    function does not send a node given to it and a different node of the trie to one
    value; and with the proof that Prove makes none is missing. *)

From S2P Require Import Prelude RlpRaw RlpEncode TrieEncoding TrieNode TrieSpec TrieUpdate TrieStore TrieOps TriePaths TrieRefine TrieHash.

Inductive proof_error := ProofNodeMissing (i : Z) (hash : bytes) | BadProofNode (i : Z) (e : trie_error).

(** get of proof.go; an index of a full node is a byte of the key *)
Fixpoint proof_get (tn : node) (key : bytes) (skipResolved : bool) : outcome proof_error (bytes * node) :=
  match tn with
  | shortNode nkey nval _ =>
      if (len key <? len nkey) || negb (bool_decide (nkey = take (length nkey) key)) then Ok ([], NilNode)
      else if skipResolved then proof_get nval (drop (length nkey) key) true
      else Ok (drop (length nkey) key, nval)
  | fullNode children _ =>
      match key with
      | [] => Panic
      | k0 :: key =>
          if skipResolved then nth (Z.to_nat k0) (map (fun child => proof_get child key true) children) Panic
          else child ← at_ children k0; Ok (key, child)
      end
  | hashNode _ | NilNode => Ok (key, tn)
  | valueNode _ => Ok ([], tn)
  end.

Section Verify.
  Context (proofDb : bytes → option bytes).

Definition bad_node (i : Z) (o : tr node) : outcome proof_error node :=
  match o with Ok n => Ok n | Err e => Err (BadProofNode i e) | Panic => Panic | OutOfFuel => OutOfFuel end.

(** copy(wantHash[:], cld) *)
Definition copy_hash (wantHash cld : bytes) : bytes := take 32 cld ++ drop (length cld) wantHash.

Fixpoint verify_loop (fuel : nat) (i : Z) (wantHash key : bytes) : outcome proof_error (option bytes) :=
  match fuel with
  | O => OutOfFuel
  | S fuel =>
      match proofDb wantHash with
      | None => Err (ProofNodeMissing i wantHash)
      | Some buf =>
          n ← bad_node i (decodeNode (Some wantHash) buf);
          '(keyrest, cld) ← proof_get n key true;
          match cld with
          | hashNode h => verify_loop fuel (i + 1) (copy_hash wantHash h) keyrest
          | valueNode v => Ok (Some v)
          | _ => Ok None
          end
      end
  end.

Definition VerifyProof (fuel : nat) (rootHash key : bytes) : outcome proof_error (option bytes) :=
  verify_loop fuel 0 rootHash (keybytesToHex key).
End Verify.

Section Prove.
  Context `{HF : Hasher} (hb : encBuffer).

Definition hashShortNodeChildren (key : bytes) (val : node) (f : nodeFlag) : tr node :=
  ckey ← hexToCompact key;
  '(collapsedVal, _) ← (match val with fullNode _ _ | shortNode _ _ _ => node_hash hb val false | _ => Ok (val, val) end);
  Ok (shortNode ckey collapsedVal f).

Definition hashFullNodeChildren (children : list node) (f : nodeFlag) : tr node :=
  '(collapsed, _) ← hashChildren (node_hash hb) 16 children;
  Ok (fullNode collapsed f).

(** The collapsed node and its hash, or the node when it is short *)
Definition proofHash (original : node) : tr (node * node) :=
  match original with
  | shortNode key val f => sn ← hashShortNodeChildren key val f; hn ← shortnodeToHash hb sn false; Ok (sn, hn)
  | fullNode children f => fn ← hashFullNodeChildren children f; hn ← fullnodeToHash hb fn false; Ok (fn, hn)
  | n => Ok (n, n)
  end.

(** The loop of Prove that collects the nodes on the path *)
Fixpoint prove_path (rd : trieReader) (fuel : nat) (tn : node) (prefix key : bytes) : tr (list node) :=
  match fuel with
  | O => OutOfFuel
  | S fuel =>
      match tn, key with
      | NilNode, _ | _, [] => Ok []
      | shortNode nkey nval _, _ =>
          nodes ← (if (len key <? len nkey) || negb (bool_decide (nkey = take (length nkey) key)) then Ok []
                   else prove_path rd fuel nval (prefix ++ nkey) (drop (length nkey) key));
          Ok (tn :: nodes)
      | fullNode children _, k0 :: key =>
          child ← at_ children k0;
          nodes ← prove_path rd fuel child (prefix ++ [k0]) key;
          Ok (tn :: nodes)
      | hashNode h, _ =>
          blob ← reader_node rd prefix (BytesToHash h);
          n ← mustDecodeNode (Some h) blob;
          prove_path rd fuel n prefix key
      | valueNode _, _ => Panic
      end
  end.

(** The loop that puts the nodes into the proof; [first] is i == 0 *)
Fixpoint put_nodes (first : bool) (nodes : list node) (proofDb : gmap bytes bytes) : tr (gmap bytes bytes) :=
  match nodes with
  | [] => Ok proofDb
  | n :: nodes =>
      '(n, hn) ← proofHash n;
      proofDb ← match hn with
                | hashNode hash => enc ← encodedBytes hb n; Ok (<[hash := enc]> proofDb)
                | _ => if first : bool then enc ← encodedBytes hb n; Ok (<[sum256 enc := enc]> proofDb) else Ok proofDb
                end;
      put_nodes false nodes proofDb
  end.

Definition Prove (t : Trie) (key : bytes) (proofDb : gmap bytes bytes) : tr (gmap bytes bytes) :=
  if committed t then Err ErrCommitted
  else
    let key := keybytesToHex key in
    nodes ← prove_path (t_reader t) (op_fuel key) (root t) [] key;
    put_nodes true nodes proofDb.
End Prove.

(** ** The nodes on the path to a key *)

Fixpoint on_path (t : tree) (key : bytes) : list tree :=
  match t with
  | TShort k c => t :: (if decide (take (length k) key = k) then on_path c (drop (length k) key) else [])
  | TFull c => t :: match key with [] => [] | i :: key => nth (Z.to_nat i) (map (fun t => on_path t) c) (fun _ => []) key end
  | _ => []
  end.

Lemma on_path_short k c r : on_path (TShort k c) (k ++ r) = TShort k c :: on_path c r.
Proof. cbn. rewrite take_app_length, drop_app_length. by rewrite decide_True. Qed.

Lemma on_path_full c i r : on_path (TFull c) (i :: r) = TFull c :: match c !! Z.to_nat i with Some t => on_path t r | None => [] end.
Proof.
  cbn. f_equal. generalize (Z.to_nat i). induction c as [| t c IH]; intros [| n]; cbn; try done.
Qed.

(** ** Verifying *)

Section Sound.
  Context `{HF : Hasher} `{HL : !HasherLaws}.

(** What the walk from a node for [t] ends at: the answer, or a node below, behind its
    hash, with the rest of the key, shorter than [n] *)
Definition got (t : tree) (key : bytes) (n : nat) (o : outcome proof_error (bytes * node)) : Prop :=
  ∃ kr cld, o = Ok (kr, cld) ∧
    match cld with
    | NilNode => tget t key = None
    | valueNode v => tget t key = Some v
    | hashNode h => ∃ t' l, h = sum256 (tree_enc t') ∧ wf t' ∧ bounded t' ∧ 32 <= len (tree_enc t') ∧ tkey kr ∧ (length kr < n)%nat ∧
        tget t key = tget t' kr ∧ on_path t key = l ++ on_path t' kr
    | _ => False
    end.

Lemma got_ref t r : fits t r → (wf t → bounded t) → (wf t → tkey r → got t r (length r) (proof_get (load None t) r true)) →
  got t r (S (length r)) (proof_get (load_ref t) r true).
Proof.
  intros [[-> _] | [[Hw Hk] | (v & -> & _ & ->)]] Hbd IH; [by eexists _, _ | | by eexists _, _].
  assert (E : load_ref t = if len (tree_enc t) <? 32 then load None t else hashNode (sum256 (tree_enc t))) by (unfold load_ref, node_ref; by destruct Hw).
  rewrite E. case_if.
  - destruct (IH Hw Hk) as (kr & cld & -> & H). exists kr, cld. split; [done |]. destruct cld; try done.
    destruct H as (t' & l & ? & ? & ? & ? & ? & ? & ? & ?). exists t', l. split_and!; try done. lia.
  - eexists _, _. split; [done |]. exists t, []. split_and!; try done; [by apply Hbd | lia].
Qed.

Lemma got_under t t' key r n m o l : got t' r n o → tget t key = tget t' r → on_path t key = l ++ on_path t' r → (n <= m)%nat → got t key m o.
Proof.
  intros (kr & cld & -> & H) Ht Hp Hnm. exists kr, cld. split; [done |]. destruct cld; rewrite ?Ht; try done.
  destruct H as (t2 & l2 & ? & ? & ? & ? & ? & ? & ? & Hp2). exists t2, (l ++ l2). split_and!; try done; [lia |]. by rewrite Hp, Hp2, app_assoc.
Qed.

Lemma got_short k t n f key : k ≠ [] → (∀ r, key = k ++ r → got t r (S (length r)) (proof_get n r true)) → got (TShort k t) key (length key) (proof_get (shortNode k n f) key true).
Proof.
  intros Hk IH. cbn [proof_get]. destruct (decide (k = take (length k) key)) as [E | E].
  - assert (Hkey : key = k ++ drop (length k) key) by (rewrite E at 1; by rewrite take_drop). set (r := drop (length k) key) in *. rewrite bool_decide_true by done.
    destruct (Z.ltb_spec (len key) (len k)) as [Hlt | _]; [rewrite Hkey, len_app in Hlt; lia |]. cbn [negb orb]. destruct k as [| x k]; [done |].
    apply (got_under _ t _ r (S (length r)) _ _ [TShort (x :: k) t]); [by apply IH | rewrite Hkey; apply tget_short | rewrite Hkey; apply on_path_short |].
    rewrite Hkey. cbn. rewrite length_app. lia.
  - rewrite bool_decide_false by done. rewrite orb_true_r. eexists _, _. split; [done |]. cbn. by rewrite decide_False by done.
Qed.

Lemma got_full c n i t r f : n !! Z.to_nat i = Some f → c !! Z.to_nat i = Some t → got t r (S (length r)) (proof_get f r true) →
  ∀ fl, got (TFull c) (i :: r) (length (i :: r)) (proof_get (fullNode n fl) (i :: r) true).
Proof.
  intros Hn Hc Hg fl. cbn [proof_get]. rewrite (nth_lookup_Some _ _ _ (proof_get f r true)) by (by rewrite list_lookup_fmap, Hn).
  apply (got_under _ t _ r (S (length r)) _ _ [TFull c]); [done | by rewrite tget_full, Hc | by rewrite on_path_full, Hc | done].
Qed.

Lemma got_load t : wf t → ∀ h key, bounded t → tkey key → got t key (length key) (proof_get (load h t) key true).
Proof.
  intros Hw0. induction Hw0 as [k v Hk Hv | k c Hk Hne Hw IH | c Hlen Hch IH Hval Htwo]; intros h key Hbd Hkey.
  - change (load h (TShort (k ++ [16]) (TVal v))) with (shortNode (k ++ [16]) (valueNode v) (MkFlag h false)).
    assert (Hwl : wf (TShort (k ++ [16]) (TVal v))) by by constructor.
    apply got_short; [by destruct k |]. intros r ->. apply got_ref; [by apply (fits_short _ _ _ Hwl) | by inversion 1 | by inversion 1].
  - assert (Hwl : wf (TShort k (TFull c))) by by constructor. destruct (bounded_short _ _ Hwl Hbd) as [_ Hbc].
    change (load h (TShort k (TFull c))) with (shortNode k (load_ref (TFull c)) (MkFlag h false)).
    apply got_short; [done |]. intros r ->. apply got_ref; [by apply (fits_short _ _ _ Hwl) | done |]. intros _ Hr. by apply IH; [apply Hbc |].
  - assert (Hw : wf (TFull c)) by by constructor. change (load h (TFull c)) with (fullNode (map load_ref c) (MkFlag h false)).
    destruct key as [| i r]; [by apply tkey_nonempty in Hkey |]. destruct (fits_child c i r Hw Hkey) as (Hi & Hlt & Hfits).
    destruct (c !! Z.to_nat i) as [t |] eqn:Et; [| apply lookup_ge_None in Et; lia].
    apply (got_full c (map load_ref c) i t r (load_ref t)); [by rewrite list_lookup_fmap, Et | done |].
    assert (H16 : wf t → (Z.to_nat i < 16)%nat) by (intros Hwt; destruct (wf_full_child c _ t Hw Et) as [-> | [[_ ?] | (v & -> & _)]]; [inversion Hwt | done | inversion Hwt]).
    apply got_ref; [by apply Hfits | intros Hwt; by eapply bounded_child; eauto |]. intros Hwt Hr.
    apply (IH _ t Et (H16 Hwt)); [by destruct Hwt | by eapply bounded_child; eauto | done].
Qed.

(** The verifier on nodes that are those of the trie *)
Lemma verify_loop_spec (db : bytes → option bytes) fuel : ∀ i t key,
  wf t → bounded t → tkey key → (length key < fuel)%nat → (∀ t' e, t' ∈ on_path t key → db (sum256 (tree_enc t')) = Some e → e = tree_enc t') →
  verify_loop db fuel i (sum256 (tree_enc t)) key = Ok (tget t key) ∨
  ∃ j t', verify_loop db fuel i (sum256 (tree_enc t)) key = Err (ProofNodeMissing j (sum256 (tree_enc t'))) ∧ db (sum256 (tree_enc t')) = None ∧
    t' ∈ on_path t key ∧ (t' = t ∨ 32 <= len (tree_enc t')).
Proof.
  induction fuel as [| fuel IH]; intros i t key Hw Hbd Hkey Hf Hdb; [lia |]. cbn [verify_loop].
  assert (Hin : t ∈ on_path t key) by (destruct Hw; cbn; left).
  destruct (db (sum256 (tree_enc t))) as [e |] eqn:Ee; [| right; by eexists i, t; eauto].
  rewrite (Hdb t e Hin Ee), decodeNode_stored by done. cbn [bad_node mbind outcome_bind].
  destruct (got_load t Hw (Some (sum256 (tree_enc t))) key Hbd Hkey) as (kr & cld & -> & H). cbn [mbind outcome_bind].
  destruct cld as [| | | h | v]; try done; [by left; rewrite H | | by left; rewrite H].
  destruct H as (t' & l & -> & Hw' & Hbd' & Hbig & Hkr & Hlt & Hget & Hp).
  assert (Ec : copy_hash (sum256 (tree_enc t)) (sum256 (tree_enc t')) = sum256 (tree_enc t')).
  { unfold copy_hash. rewrite sum256_length. rewrite firstn_all2 by (rewrite sum256_length; lia). rewrite skipn_all2 by (rewrite sum256_length; lia). by rewrite app_nil_r. }
  rewrite Ec, Hget. destruct (IH (i + 1) t' kr Hw' Hbd' Hkr ltac:(lia)) as [E | (j & t2 & E & Hn & Hin2 & Hbig2)].
  - intros t2 e2 Ht2. apply Hdb. rewrite Hp. apply elem_of_app. by right.
  - by left.
  - right. exists j, t2. split_and!; [done | done | rewrite Hp; apply elem_of_app; by right |]. right. by destruct Hbig2 as [-> |].
Qed.
End Sound.

(** ** Proving *)

Section Complete.
  Context `{HF : Hasher} `{HL : !HasherLaws} (hb : encBuffer) (Hhb : length (sizebuf hb) = 9%nat) (rd : trieReader) (a0 : tree).

(** A node in memory that stands for [t] *)
Definition stands (n : node) (t : tree) : Prop := wf t ∧ bounded t ∧ is_hash n = 0%nat ∧ ∃ p, rep a0 p n t.

Lemma hashShort_enc k n f p t : rep a0 p (shortNode k n f) t → wf t → bounded t →
  ∃ c, hashShortNodeChildren hb k n f = Ok c ∧ enc_node c = tree_enc t ∧ node_bytes c ∧ is_hash c = 0%nat.
Proof.
  intros Hrep Hw Hbd. destruct (rep_short_inv _ _ _ _ _ _ Hrep) as (tc & -> & Hrc & _). unfold hashShortNodeChildren. rewrite hexToCompact_compact. cbn [mbind outcome_bind].
  assert (Htc : (wf tc ∧ bounded tc ∧ is_full tc) ∨ (∃ v, tc = TVal v ∧ bytes_ok v)).
  { destruct (bounded_short _ _ Hw Hbd) as [_ Hbc]. inversion Hw as [l v Hl (_ & Hv & _) | ? c Hl Hne Hwc |]; subst; [right; eauto | left].
    split_and!; [done | by apply Hbc | by eexists]. }
  destruct (hash_short_val hb a0 n (p ++ k) tc (node_hash_ok hb Hhb a0 n) (path_snoc_ne p k (wf_short_nonempty _ _ Hw)) Hrc Htc) as (c & d & -> & Hc & Hcb & _).
  cbn [mbind outcome_bind]. eexists. split; [done |]. split_and!; [cbn; by rewrite Hc | | done]. split; [| done].
  apply compact_bytes. inversion Hw as [l v Hl Hv | ? c' Hl Hne Hwc |]; subst; [exists l | exists k]; by auto.
Qed.

Lemma hashFull_enc c f p t : rep a0 p (fullNode c f) t → wf t → bounded t →
  ∃ d, hashFullNodeChildren hb c f = Ok d ∧ enc_node d = tree_enc t ∧ node_bytes d ∧ is_hash d = 0%nat.
Proof.
  intros Hrep Hw Hbd. inversion Hrep as [| | | ? ? ? ct Hlen Hch Hfl |]; subst. unfold hashFullNodeChildren.
  destruct (hashChildren_ok hb Hhb a0 p 0 16 c ct) as (cs & ds & -> & Hcs & Hcb & _); [apply Forall_forall; intros n _; by apply node_hash_ok | done | done | |].
  { intros j t Hj. destruct (wf_full_child ct j t Hw Hj) as [-> | [[Hwt Hlt] | (v & -> & (_ & Hv & _) & ->)]];
      [by left | right; left; split_and!; [done | by eapply bounded_child | done] | right; right; eauto]. }
  cbn [mbind outcome_bind]. eexists. split; [done |]. split_and!; [cbn; by rewrite Hcs | | done]. split; [| done].
  intros ->. inversion Hw as [| | ? H17 _ _ _]; subst. by destruct ct.
Qed.

Lemma proofHash_spec n t : stands n t →
  ∃ c hn, proofHash hb n = Ok (c, hn) ∧ encodedBytes hb c = Ok (tree_enc t) ∧ is_hash c = 0%nat ∧ hn = (if 32 <=? len (tree_enc t) then hashNode (sum256 (tree_enc t)) else c).
Proof.
  intros (Hw & Hbd & Hn & p & Hrep). assert (Henc : ∀ c, enc_node c = tree_enc t → node_bytes c → encodedBytes hb c = Ok (tree_enc t)).
  { intros c E Hc. unfold encodedBytes. destruct (tree_enc_ok t Hw Hbd) as [_ Hl]. rewrite nodeToBytes_spec by (done || rewrite E; lia). by rewrite E. }
  destruct n as [| c f | k v f | h | v]; try done; [by inversion Hrep; subst; inversion Hw | | | by inversion Hrep; subst; inversion Hw]; cbn [proofHash].
  - destruct (hashFull_enc c f p t Hrep Hw Hbd) as (d & -> & He & Hb & Hh). cbn [mbind outcome_bind]. change (fullnodeToHash hb d false) with (shortnodeToHash hb d false).
    rewrite (toHash_ok hb Hhb d t false) by done. eexists _, _. split_and!; [done | by apply Henc | done | done].
  - destruct (hashShort_enc k v f p t Hrep Hw Hbd) as (d & -> & He & Hb & Hh). cbn [mbind outcome_bind].
    rewrite (toHash_ok hb Hhb d t false) by done. eexists _, _. split_and!; [done | by apply Henc | done | done].
Qed.

(** The nodes put under their hashes, when the hash tells them apart *)
Lemma put_nodes_spec nodes ts : Forall2 stands nodes ts →
  ∀ first db, (∀ t1 t2, t1 ∈ ts → t2 ∈ ts → sum256 (tree_enc t1) = sum256 (tree_enc t2) → tree_enc t1 = tree_enc t2) →
  ∃ db', put_nodes hb first nodes db = Ok db' ∧
    (∀ i t, ts !! i = Some t → (first = true ∧ i = 0%nat) ∨ 32 <= len (tree_enc t) → db' !! sum256 (tree_enc t) = Some (tree_enc t)) ∧
    (∀ h e, db' !! h = Some e → (∃ t, t ∈ ts ∧ h = sum256 (tree_enc t) ∧ e = tree_enc t) ∨ db !! h = Some e) ∧
    (∀ h, is_Some (db !! h) → is_Some (db' !! h)).
Proof.
  induction 1 as [| n t nodes ts Hn _ IH]; intros first db Hcol; [exists db; split_and!; [done | done | by right | done] |].
  destruct (proofHash_spec n t Hn) as (c & hn & E & Henc & Hc & Hhn). cbn [put_nodes]. rewrite E. cbn [mbind outcome_bind].
  assert (Hput : ∃ db1, match hn with
    | hashNode hash => enc ← encodedBytes hb c; Ok (<[hash := enc]> db)
    | _ => if first : bool then enc ← encodedBytes hb c; Ok (<[sum256 enc := enc]> db) else Ok db
    end = @Ok trie_error _ db1 ∧ (first = true ∨ 32 <= len (tree_enc t) → db1 = <[sum256 (tree_enc t) := tree_enc t]> db) ∧ (db1 = <[sum256 (tree_enc t) := tree_enc t]> db ∨ db1 = db)).
  { rewrite Hhn. destruct (Z.leb_spec 32 (len (tree_enc t))) as [Hl | Hl]; rewrite Henc; cbn [mbind outcome_bind]; [by eexists; eauto |].
    destruct first; [destruct c; try done; by eexists; eauto |]. exists db. destruct c; try done; (split_and!; [done | intros [? | ?]; [done | lia] | by right]). }
  destruct Hput as (db1 & -> & H1 & H2). cbn [mbind outcome_bind].
  destruct (IH false db1) as (db' & -> & Hall & Honly & Hmono); [intros t1 t2 Ht1 Ht2; apply Hcol; by right |]. exists db'. split_and!; [done | | |].
  - intros [| i] t' Hi Hbig; [| apply (Hall i t' Hi); destruct Hbig as [[_ ?] | ?]; [lia | by right]]. injection Hi as <-.
    rewrite H1 in Hmono, Honly by (destruct Hbig as [[? _] | ?]; auto). destruct (Hmono (sum256 (tree_enc t))) as [e He]; [rewrite lookup_insert_eq; by eauto |].
    rewrite He. f_equal. destruct (Honly _ e He) as [(t' & Ht' & Eh & ->) | Hdb]; [symmetry; apply Hcol; [left | by right | done] |].
    rewrite lookup_insert_eq in Hdb. by injection Hdb.
  - intros h e He. destruct (Honly h e He) as [(t' & Ht' & ?) | Hdb]; [left; exists t'; split; [by right | done] |].
    destruct H2 as [-> | ->]; [| by right]. apply lookup_insert_Some in Hdb as [[<- <-] | [_ ?]]; [left; exists t; split_and!; [left | done | done] | by right].
  - intros h Hh. apply Hmono. destruct H2 as [-> | ->]; [| done]. rewrite lookup_insert. case_decide; by eauto.
Qed.

Context (Hdb : db_holds rd a0).

Lemma prove_path_spec fuel : ∀ n p t key, rep a0 p n t → fits t key → (wf t → bounded t) → (2 * length key + is_hash n < fuel)%nat →
  ∃ nodes, prove_path rd fuel n p key = Ok nodes ∧ Forall2 stands nodes (on_path t key).
Proof.
  induction fuel as [| fuel IH]; intros n p t key Hrep Hfit Hbd Hf; [lia |]. cbn [prove_path].
  destruct n as [| cn f | k n f | h | v].
  - inversion Hrep; subst. by eexists.
  - inversion Hrep as [| | | ? ? ? ct Hlen Hch Hfl |]; subst. destruct Hfit as [[? _] | [[Hw Hk] | (v & ? & _)]]; [done | | done].
    destruct key as [| i r]; [by apply tkey_nonempty in Hk |]. destruct (fits_child ct i r Hw Hk) as (Hi & Hlt & Hfits). assert (H17 : length ct = 17%nat) by by inversion Hw.
    destruct (ct !! Z.to_nat i) as [t |] eqn:Et; [| apply lookup_ge_None in Et; lia]. destruct (cn !! Z.to_nat i) as [n |] eqn:En; [| apply lookup_ge_None in En; lia].
    assert (Hat : at_ cn i = @Ok trie_error _ n) by (rewrite <- (Z2Nat.id i) by done; by apply at_ok). rewrite Hat. cbn [mbind outcome_bind].
    pose proof (Hch _ n t En Et) as Hrep'. rewrite Z2Nat.id in Hrep' by done.
    destruct (IH n (p ++ [i]) t r Hrep' (Hfits t eq_refl)) as (nodes & -> & Hns); [| cbn in Hf; destruct n; cbn; lia |].
    { intros Hwt. destruct (wf_full_child ct _ t Hw Et) as [-> | [[_ H16] | (v & -> & _)]]; [inversion Hwt | by eapply bounded_child; eauto | inversion Hwt]. }
    cbn [mbind outcome_bind]. eexists. split; [done |]. rewrite on_path_full, Et. constructor; [| done]. split_and!; [done | by apply Hbd | done | by exists p].
  - inversion Hrep as [| | ? ? ? ? t' Hrep' Hfl | |]; subst. destruct Hfit as [[? _] | [[Hw Hk] | (v & ? & _)]]; [done | | done].
    pose proof (wf_short_nonempty _ _ Hw) as Hne. assert (Hst : stands (shortNode k n f) (TShort k t')) by (split_and!; [done | by apply Hbd | done | by exists p]).
    destruct key as [| x key']; [by apply tkey_nonempty in Hk |]. set (key := x :: key') in *. destruct (decide (k = take (length k) key)) as [E | E].
    + assert (Hkey : key = k ++ drop (length k) key) by (rewrite E at 1; by rewrite take_drop). set (r := drop (length k) key) in *. rewrite bool_decide_true by done.
      destruct (Z.ltb_spec (len key) (len k)) as [Hlt | _]; [rewrite Hkey, len_app in Hlt; lia |]. cbn [negb orb].
      destruct (IH n (p ++ k) t' r Hrep') as (nodes & -> & Hns); [apply (fits_short k t' r Hw); by rewrite <- Hkey | intros Hwt; by apply (bounded_short _ _ Hw (Hbd Hw)) | |].
      { rewrite Hkey, length_app in Hf. destruct k; [done |]. cbn in Hf. destruct n; cbn; lia. }
      cbn [mbind outcome_bind]. eexists. split; [done |]. rewrite Hkey, on_path_short. by constructor.
    + rewrite bool_decide_false by done. rewrite orb_true_r. eexists. split; [done |]. cbn [on_path]. rewrite decide_False by done. apply Forall2_cons. by split.
  - inversion Hrep as [| | | | ? ? ? Hw Hbt Hbig Hh Ho]; subst. destruct Hfit as [[-> _] | [[_ Hk] | (v & -> & _)]]; [by inversion Hw | | by inversion Hw].
    destruct key as [| x key']; [by apply tkey_nonempty in Hk |]. rewrite BytesToHash_32 by apply sum256_length. rewrite (Hdb p t Ho Hw Hbig). cbn [mbind outcome_bind].
    unfold mustDecodeNode. rewrite decodeNode_stored by done. cbn [mbind outcome_bind].
    apply IH; [| by right; left | done | destruct Hw; cbn in Hf |- *; lia]. apply load_rep; [done | done | done |]. split; [by intros h [= <-] | by intros _].
  - inversion Hrep; subst. destruct Hfit as [[? _] | [[Hw _] | (v' & [= <-] & _ & ->)]]; [done | by inversion Hw |]. by eexists.
Qed.
End Complete.

Lemma keybytesToHex_length key : length (keybytesToHex key) = (2 * length key + 1)%nat.
Proof. unfold keybytesToHex. change (concat (map _ key)) with (unpack key). pose proof (unpack_length key). rewrite length_app. cbn [length]. lia. Qed.

(** ** Theorems *)

Section Theorems.
  Context `{HF : Hasher} `{HL : !HasherLaws} (hb : encBuffer) (Hhb : length (sizebuf hb) = 9%nat).

(** The root hash of a trie that is not empty *)
Lemma root_of t a0 a m : represents_tree t a0 a m → keys_bounded m → wf a → bounded a ∧ (Hash hb t).1 = Ok (sum256 (tree_enc a)).
Proof.
  intros Hr Hm Hw. assert (Hbd : bounded a) by (eapply holds_bounded; [apply Hr | done]). split; [done |].
  destruct (Hash_ok hb Hhb t a0 a m Hr Hbd) as (t' & -> & _). cbn. by destruct Hw.
Qed.

(** C22.  Verification is sound: for the root hash of a trie, and whatever nodes are
    given under their hashes, VerifyProof reports a missing node or returns what the
    trie has under the key, a value or that there is none.  Of the hash function it is
    only asked that no node given collides with a different node on the path. *)
Theorem VerifyProof_sound t a0 a m (db : bytes → option bytes) key fuel :
  represents_tree t a0 a m → keys_bounded m → wf a → bytes_ok key → 2 * len key + 1 < Z.of_nat fuel →
  (∀ h e, db h = Some e → sum256 e = h) →
  (∀ t' h e, t' ∈ on_path a (keybytesToHex key) → db h = Some e → sum256 e = sum256 (tree_enc t') → e = tree_enc t') →
  ∃ root, (Hash hb t).1 = Ok root ∧
    (VerifyProof db fuel root key = Ok (m !! key) ∨ ∃ i h, VerifyProof db fuel root key = Err (ProofNodeMissing i h) ∧ db h = None).
Proof.
  intros Hr Hm Hw Hk Hf Hdb Hcol. destruct (root_of t a0 a m Hr Hm Hw) as [Hbd Hroot]. exists (sum256 (tree_enc a)). split; [done |].
  destruct Hr as [_ [Hh _]]. rewrite <- (Hh key Hk). unfold VerifyProof.
  destruct (verify_loop_spec db fuel 0 a (keybytesToHex key) Hw Hbd (hex_tkey key Hk)) as [E | (j & t' & E & Hn & _)]; [| | by left | right; by eauto].
  - rewrite keybytesToHex_length. lia.
  - intros t' e Ht' He. by apply (Hcol t' _ e Ht' He), Hdb.
Qed.

(** C23.  The proofs that Prove makes are accepted: for every key, held or not, whatever
    of the trie is loaded, Prove succeeds, and unless the trie is empty VerifyProof with
    its nodes and the root hash gives what the trie has under the key, when no two
    nodes on the path collide.  Of an empty trie Prove writes nothing, and VerifyProof
    reports that the node of the root is missing. *)
Theorem Prove_VerifyProof t a0 a m key fuel :
  represents_tree t a0 a m → keys_bounded m → bytes_ok key → 2 * len key + 1 < Z.of_nat fuel →
  (∀ t1 t2, t1 ∈ on_path a (keybytesToHex key) → t2 ∈ on_path a (keybytesToHex key) → sum256 (tree_enc t1) = sum256 (tree_enc t2) → tree_enc t1 = tree_enc t2) →
  ∃ proof root, Prove hb t key ∅ = Ok proof ∧ (Hash hb t).1 = Ok root ∧
    (a ≠ TNil → VerifyProof (fun h => proof !! h) fuel root key = Ok (m !! key)) ∧
    (a = TNil → proof = ∅ ∧ root = EmptyRootHash ∧ VerifyProof (fun h => proof !! h) fuel root key = Err (ProofNodeMissing 0 root)).
Proof.
  intros Hr Hm Hk Hf Hcol. destruct (ti_wf _ _ _ (proj1 Hr)) as [-> | Hw].
  { assert (Hbd : bounded TNil) by (eapply holds_bounded; [apply Hr | done]). destruct (Hash_ok hb Hhb t a0 TNil m Hr Hbd) as (t' & EH & _). destruct Hr as [Ht _].
    assert (Er : root t = NilNode) by (by apply (rep_nil_iff _ _ _ _ (ti_rep _ _ _ Ht))). unfold Prove. rewrite (ti_open _ _ _ Ht), Er. exists ∅, EmptyRootHash.
    split_and!; [unfold op_fuel; by rewrite Nat.add_comm | by rewrite EH | done |]. intros _. split_and!; [done | done |]. unfold VerifyProof. destruct fuel as [| fuel]; [lia |]. cbn [verify_loop]. by rewrite lookup_empty. }
  destruct (root_of t a0 a m Hr Hm Hw) as [Hbd Hroot]. destruct Hr as [Ht [Hh _]]. set (hex := keybytesToHex key) in *.
  unfold Prove. rewrite (ti_open _ _ _ Ht). fold hex. destruct (prove_path_spec hb Hhb (t_reader t) a0 (ti_db _ _ _ Ht) (op_fuel hex) (root t) [] a hex (ti_rep _ _ _ Ht)) as (nodes & -> & Hns);
    [right; left; split; [done | by apply hex_tkey] | done | apply fuel_root |]. cbn [mbind outcome_bind].
  destruct (put_nodes_spec hb Hhb a0 nodes _ Hns true ∅ Hcol) as (proof & -> & Hall & Honly & _). exists proof, (sum256 (tree_enc a)). split_and!; [done | done | intros _ | intros ->; by inversion Hw].
  rewrite <- (Hh key Hk). unfold VerifyProof. fold hex.
  destruct (verify_loop_spec (fun h => proof !! h) fuel 0 a hex Hw Hbd (hex_tkey key Hk)) as [E | (j & t' & E & Hn & Hin & Hbig)]; [| | done |].
  - unfold hex. rewrite keybytesToHex_length. lia.
  - intros t' e Ht' He. destruct (Honly _ e He) as [(t2 & Ht2 & Eh & ->) | He0]; [by symmetry; apply Hcol | by rewrite lookup_empty in He0].
  - exfalso. assert (Hfirst : on_path a hex !! 0%nat = Some a) by (by destruct Hw). apply list_elem_of_lookup in Hin as [i Hi].
    destruct Hbig as [-> | Hbig]; [rewrite (Hall 0%nat a Hfirst) in Hn; [done | by left] | rewrite (Hall i t' Hi) in Hn; [done | by right]].
Qed.
End Theorems.

(** ** A trie in memory for examples *)

(** The tree of a node without hash nodes *)
Fixpoint tree_of (n : node) : option tree :=
  match n with
  | NilNode => Some TNil
  | valueNode v => Some (TVal v)
  | shortNode k v _ => TShort k <$> tree_of v
  | fullNode c _ => TFull <$> mapM tree_of c
  | hashNode _ => None
  end.

Lemma rep_tree_of `{Hasher} a0 n : ∀ p t t', rep a0 p n t → tree_of n = Some t' → t = t'.
Proof.
  induction n as [| c f IH | k v f IH | h | v] using node_nested_ind; intros p t t' Hr Ht; inversion Hr as [| | ? ? ? ? tc Hrc | ? ? ? ct Hlen Hch |]; subst; cbn in Ht; try discriminate Ht; try by injection Ht.
  - destruct (mapM tree_of c) as [l |] eqn:El; [| done]. injection Ht as <-. f_equal. apply mapM_Some in El. apply list_eq. intros i.
    destruct (c !! i) as [n |] eqn:En.
    + destruct (ct !! i) as [s |] eqn:Es; [| apply lookup_ge_None in Es; apply lookup_lt_Some in En; lia].
      destruct (Forall2_lookup_l _ _ _ _ _ El En) as (s' & Es' & Hs'). rewrite Es'. f_equal. rewrite Forall_lookup in IH. by apply (IH i n En (p ++ [Z.of_nat i])); [apply (Hch i) |].
    + apply lookup_ge_None in En. pose proof (Forall2_length _ _ _ El). rewrite !lookup_ge_None_2 by lia. done.
  - destruct (tree_of v) as [s |] eqn:Es; [| done]. injection Ht as <-. f_equal. by apply (IH (p ++ k)).
Qed.

Definition demo_trie : Trie := (run_trie ops_forth (empty_trie (MkReader [] None None))).2.
Definition demo_tree : tree := default TNil (tree_of (root demo_trie)).
Definition demo_map : gmap bytes bytes := (run_map ops_forth ∅).2.

Lemma demo_trie_ok : @represents_tree toy_hash demo_trie TNil demo_tree demo_map ∧ wf demo_tree.
Proof.
  assert (Hops : Forall op_ok ops_forth) by (repeat (apply Forall_cons; split; [try (split_and!; [| | by vm_compute]); solve_bytes |]); constructor).
  destruct (@run_ok toy_hash toy_hash_laws ops_forth _ TNil _ (empty_represents (MkReader [] None None)) Hops) as (t & E & [a Ha] & _).
  assert (Et : demo_trie = t) by (unfold demo_trie; by rewrite E). rewrite <- Et in Ha.
  assert (a = demo_tree) as -> by (apply (rep_tree_of TNil (root demo_trie) [] _ _ (ti_rep _ _ _ (proj1 Ha))); vm_compute; reflexivity).
  split; [exact Ha |]. destruct (ti_wf _ _ _ (proj1 Ha)) as [Hn | Hw]; [discriminate Hn | exact Hw].
Qed.

Lemma ok_inj {E A} (x y : A) : @Ok E A x = Ok y → x = y.
Proof. by intros [= ->]. Qed.

#[local] Existing Instances toy_hash toy_hash_laws.

Definition demo_hb : encBuffer := EncBuffer [] [] 0 (repeat 0 9).
Definition demo_nodes (key : bytes) : list tree := on_path demo_tree (keybytesToHex key).
Definition demo_proof (key : bytes) : gmap bytes bytes := list_to_map (map (fun t => (sum256 (tree_enc t), tree_enc t)) (demo_nodes key)).

(** With the nodes for one key, the key next to it has its value or a node is missing. *)
Lemma VerifyProof_sound_witness : ∃ root, (Hash demo_hb demo_trie).1 = Ok root ∧
  VerifyProof (fun h => demo_proof [18; 53] !! h) 10 root [18; 53] = Ok (Some (repeat 7 40)) ∧ VerifyProof (fun h => demo_proof [18; 53] !! h) 10 root [19; 53] = Ok None.
Proof.
  assert (Hkeyed : map_Forall (fun h e => sum256 e = h) (demo_proof [18; 53])) by (apply (bool_decide_unpack _); vm_compute; exact I).
  assert (Hcol : ∀ key, bool_decide (Forall (fun t => map_Forall (fun _ e => sum256 e = sum256 (tree_enc t) → e = tree_enc t) (demo_proof [18; 53])) (demo_nodes key)) = true →
    ∀ t' h e, t' ∈ demo_nodes key → demo_proof [18; 53] !! h = Some e → sum256 e = sum256 (tree_enc t') → e = tree_enc t').
  { intros key Hd t' h e Ht He. apply bool_decide_eq_true in Hd. rewrite Forall_forall in Hd. by apply (Hd t' Ht h e). }
  destruct demo_trie_ok as [Hr Hw]. assert (Hm : keys_bounded demo_map) by (apply (bool_decide_unpack _); vm_compute; exact I).
  destruct (VerifyProof_sound demo_hb eq_refl demo_trie TNil demo_tree demo_map (fun h => demo_proof [18; 53] !! h) [18; 53] 10 Hr Hm Hw ltac:(solve_bytes) ltac:(cbn; lia) Hkeyed
    (Hcol [18; 53] ltac:(vm_compute; reflexivity))) as (root & Hroot & H1).
  destruct (VerifyProof_sound demo_hb eq_refl demo_trie TNil demo_tree demo_map (fun h => demo_proof [18; 53] !! h) [19; 53] 10 Hr Hm Hw ltac:(solve_bytes) ltac:(cbn; lia) Hkeyed
    (Hcol [19; 53] ltac:(vm_compute; reflexivity))) as (root' & Hroot' & H2).
  rewrite Hroot in Hroot'. injection Hroot' as <-. exists root. split; [exact Hroot |].
  assert (Er : (Hash demo_hb demo_trie).1 = Ok (sum256 (tree_enc demo_tree))) by (vm_compute; reflexivity). rewrite Hroot in Er. apply ok_inj in Er. rewrite Er in H1, H2 |- *. split.
  - destruct H1 as [H1 | (i & h & H1 & _)]; [exact H1 | vm_compute in H1; discriminate H1].
  - destruct H2 as [H2 | (i & h & H2 & _)]; [exact H2 | vm_compute in H2; discriminate H2].
Defined.

Lemma Prove_VerifyProof_witness : ∃ proof root, Prove demo_hb demo_trie [18; 53] ∅ = Ok proof ∧ (Hash demo_hb demo_trie).1 = Ok root ∧
  VerifyProof (fun h => proof !! h) 10 root [18; 53] = Ok (Some (repeat 7 40)).
Proof.
  destruct demo_trie_ok as [Hr Hw].
  destruct (Prove_VerifyProof demo_hb eq_refl demo_trie TNil demo_tree demo_map [18; 53] 10 Hr) as (proof & root & Ep & Eh & Hv & _); [| solve_bytes | cbn; lia | |].
  - apply (bool_decide_unpack _). vm_compute. exact I.
  - assert (Hd : Forall (fun t1 => Forall (fun t2 => sum256 (tree_enc t1) = sum256 (tree_enc t2) → tree_enc t1 = tree_enc t2) (demo_nodes [18; 53])) (demo_nodes [18; 53]))
      by (apply (bool_decide_unpack _); vm_compute; exact I).
    intros t1 t2 H1 H2. rewrite Forall_forall in Hd. specialize (Hd t1 H1). rewrite Forall_forall in Hd. exact (Hd t2 H2).
  - exists proof, root. split; [exact Ep | split; [exact Eh | apply Hv; discriminate]].
Defined.
