(* ===== verification/StackTrie.v ===== *)
(** * The stack trie: src/trie/stacktrie.go and DeriveSha of core/types/hashing.go

    A stack trie takes keys in increasing order and hashes a subtrie as soon as no key
    can come into it any more, so that only the path to the last key is in memory.  The
    writes to the database are the calls of the write function, here a list that grows.
    The theorem about DeriveSha, which the transaction and receipt roots of headers are
    made with: it gives the root hash of the trie from indexes to items. *)

From Stdlib Require Import Sorting.Sorted.
From S2P Require Import Prelude RlpRaw RlpEncode TrieEncoding TrieNode TrieSpec TrieUpdate TrieStore TrieOps TriePaths TrieRefine TrieHash TrieCommit.
#[local] Set Warnings "-register-all".

(** The types of nodes with the fields they use *)
Inductive st_node : Type :=
| emptyNode
| branchNode (children : list (option st_node))
| extNode (key : bytes) (child : st_node)
| leafNode (key val : bytes)
| hashedNode (val : bytes).

(** A call of the NodeWriteFunc: owner, path, hash and blob *)
Abbreviation write := (bytes * bytes * bytes * bytes)%type.

Record StackTrie := MkStackTrie { st_owner : bytes; st_root : st_node; st_writeFn : bool }.

(** ** Encoding nodes with hashed children *)

(** rawNode or hashNode of a child's val, or nilValueNode *)
Definition encode_child (val : option bytes) (w : encBuffer) : go encBuffer :=
  match val with
  | None => writeBytes [] w
  | Some val => if len val <? 32 then Ok (write_raw val w) else writeBytes val w
  end.

Definition encode_branch (vals : list (option bytes)) (w : encBuffer) : go encBuffer :=
  let '(w, offset) := open_list w in
  w ← write_elems encode_child vals w;
  listEnd offset (write_raw [0x80] w).

Definition encode_short (key : bytes) (val : encBuffer → go encBuffer) (w : encBuffer) : go encBuffer :=
  let '(w, offset) := open_list w in
  w ← writeBytes key w;
  w ← val w;
  listEnd offset w.

Section StackTrie.
  Context `{HF : Hasher} (hb : encBuffer) (owner : bytes) (writeFn : bool).

(** encode and encodedBytes of the hasher *)
Definition st_encoded (encode : encBuffer → go encBuffer) : go bytes := w ← encode (getEncBuffer hb); makeBytes w.

(** The end of hashRec: the val of the hashed node *)
Definition hashed_val (path encodedNode : bytes) (l : list write) : bytes * list write :=
  if len encodedNode <? 32 then (encodedNode, l)
  else
    let val := sum256 encodedNode in
    (val, if writeFn then l ++ [(owner, path, BytesToHash val, encodedNode)] else l).

Section Children.
  Context (hashRec : st_node → bytes → list write → go (bytes * list write)).

(** The loop of hashRec over the children of a branch *)
Fixpoint hash_children (i : Z) (children : list (option st_node)) (path : bytes) (l : list write) : go (list (option bytes) * list write) :=
  match children with
  | [] => Ok ([], l)
  | None :: children =>
      '(vals, l) ← hash_children (i + 1) children path l;
      Ok (None :: vals, l)
  | Some child :: children =>
      '(val, l) ← hashRec child (path ++ [i]) l;
      '(vals, l) ← hash_children (i + 1) children path l;
      Ok (Some val :: vals, l)
  end.
End Children.

(** hashRec turns the node into a hashedNode with the val that is returned. *)
Fixpoint hashRec (st : st_node) (path : bytes) (l : list write) : go (bytes * list write) :=
  match st with
  | hashedNode val => Ok (val, l)
  | emptyNode => Ok (EmptyRootHash, l)
  | branchNode children =>
      '(vals, l) ← hash_children hashRec 0 children path l;
      enc ← st_encoded (encode_branch vals);
      Ok (hashed_val path enc l)
  | extNode key child =>
      '(val, l) ← hashRec child (path ++ key) l;
      '(_, ckey) ← hexToCompactInPlace key;
      enc ← st_encoded (encode_short ckey (encode_child (Some val)));
      Ok (hashed_val path enc l)
  | leafNode key val =>
      '(_, ckey) ← hexToCompactInPlace (key ++ [16]);
      enc ← st_encoded (encode_short ckey (writeBytes val));
      Ok (hashed_val path enc l)
  end.

Fixpoint getDiffIndex (skey key : bytes) : go Z :=
  match skey, key with
  | [], _ => Ok 0
  | _ :: _, [] => Panic
  | nibble :: skey, x :: key => if negb (nibble =? x) then Ok 0 else d ← getDiffIndex skey key; Ok (d + 1)
  end.

(** The loop of insert that hashes the last child before [i] *)
Fixpoint hash_elder (i : nat) (children : list (option st_node)) (prefix : bytes) (l : list write) : go (list (option st_node) * list write) :=
  match i with
  | O => Ok (children, l)
  | S i =>
      match children !! i with
      | None => Panic
      | Some None => hash_elder i children prefix l
      | Some (Some (hashedNode _)) => Ok (children, l)
      | Some (Some child) =>
          '(val, l) ← hashRec child (prefix ++ [Z.of_nat i]) l;
          Ok (<[i := Some (hashedNode val)]> children, l)
      end
  end.

(** The branch that a leaf or an extension is split into, below what is left of its key *)
Definition split_node (skey key value : bytes) (diffidx : Z) (orig : st_node) : go st_node :=
  origIdx ← at_ skey diffidx;
  newIdx ← at_ key diffidx;
  rest ← slice_from key (diffidx + 1);
  children ← set_at (repeat None 16) origIdx (Some orig);
  children ← set_at children newIdx (Some (leafNode rest value));
  Ok (if diffidx =? 0 then branchNode children else extNode (take (Z.to_nat diffidx) skey) (branchNode children)).

Fixpoint st_insert (st : st_node) (key value prefix : bytes) (l : list write) : go (st_node * list write) :=
  match st with
  | branchNode children =>
      match key with
      | [] => Panic
      | k0 :: rest =>
          '(elder, l) ← hash_elder (Z.to_nat k0) children prefix l;
          '(child, l) ← nth (Z.to_nat k0) (map (fun c => match c with
                                                        | None => fun l => Ok (leafNode rest value, l)
                                                        | Some c => st_insert c rest value (prefix ++ [k0])
                                                        end) children) (fun _ => Panic) l;
          Ok (branchNode (<[Z.to_nat k0 := Some child]> elder), l)
      end
  | extNode skey child =>
      diffidx ← getDiffIndex skey key;
      if diffidx =? len skey then
        '(child, l) ← st_insert child (drop (Z.to_nat diffidx) key) value (prefix ++ take (Z.to_nat diffidx) key) l;
        Ok (extNode skey child, l)
      else
        '(val, l) ← (if diffidx <? len skey - 1
                     then hashRec (extNode (drop (Z.to_nat (diffidx + 1)) skey) child) (prefix ++ take (Z.to_nat (diffidx + 1)) skey) l
                     else hashRec child (prefix ++ skey) l);
        st ← split_node skey key value diffidx (hashedNode val);
        Ok (st, l)
  | leafNode skey sval =>
      diffidx ← getDiffIndex skey key;
      if len skey <=? diffidx then Panic
      else
        '(val, l) ← hashRec (leafNode (drop (Z.to_nat (diffidx + 1)) skey) sval) (prefix ++ take (Z.to_nat (diffidx + 1)) skey) l;
        st ← split_node skey key value diffidx (hashedNode val);
        Ok (st, l)
  | emptyNode => Ok (leafNode key value, l)
  | hashedNode _ => Panic
  end.
End StackTrie.

(** ** Operations *)

Section Operations.
  Context `{HF : Hasher} (hb : encBuffer).

Definition NewStackTrie (writeFn : bool) : StackTrie := MkStackTrie (repeat 0 32) emptyNode writeFn.

Definition NewStackTrieWithOwner (writeFn : bool) (owner : bytes) : StackTrie := MkStackTrie owner emptyNode writeFn.

Definition st_Reset (st : StackTrie) : StackTrie := MkStackTrie (repeat 0 32) emptyNode false.

Definition st_Update (key value : bytes) (st : StackTrie) (l : list write) : go (StackTrie * list write) :=
  let k := keybytesToHex key in
  if len value =? 0 then Panic
  else
    '(root, l) ← st_insert hb (st_owner st) (st_writeFn st) (st_root st) (take (length k - 1) k) value [] l;
    Ok (MkStackTrie (st_owner st) root (st_writeFn st), l).

Definition st_Hash (st : StackTrie) (l : list write) : go (bytes * StackTrie * list write) :=
  '(val, l) ← hashRec hb (st_owner st) (st_writeFn st) (st_root st) [] l;
  let st := MkStackTrie (st_owner st) (hashedNode val) (st_writeFn st) in
  Ok (if len val =? 32 then val else sum256 val, st, l).

(** Updates one after another *)
Fixpoint st_Updates (kvs : list (bytes * bytes)) (st : StackTrie) (l : list write) : go (StackTrie * list write) :=
  match kvs with
  | [] => Ok (st, l)
  | (key, value) :: kvs => '(st, l) ← st_Update key value st l; st_Updates kvs st l
  end.

(** [None] is ErrCommitDisabled. *)
Definition st_Commit (st : StackTrie) (l : list write) : go (option bytes * StackTrie * list write) :=
  if negb (st_writeFn st) then Ok (None, st, l)
  else
    '(val, l) ← hashRec hb (st_owner st) (st_writeFn st) (st_root st) [] l;
    let st := MkStackTrie (st_owner st) (hashedNode val) (st_writeFn st) in
    if len val =? 32 then Ok (Some val, st, l)
    else
      let h := sum256 val in
      Ok (Some h, st, l ++ [(st_owner st, [], h, val)]).
End Operations.

(** ** The encodings *)

Definition child_rval (val : option bytes) : rval :=
  match val with None => VBytes [] | Some v => if len v <? 32 then VRaw v else VBytes v end.
Definition child_enc (val : option bytes) : bytes :=
  match val with None => [0x80] | Some v => if len v <? 32 then v else enc_string v end.

Lemma child_rlp val : rlp_enc (child_rval val) = Ok (child_enc val).
Proof. destruct val as [v |]; cbn; [| done]. by case_if. Qed.

Lemma encode_child_writer val w : encode_child val w = writer (child_rval val) w.
Proof. destruct val as [v |]; cbn; [| done]. by case_if. Qed.

Lemma child_ok val : (∀ v, val = Some v → bytes_ok v) → slice_len (child_enc val) → rval_ok (child_rval val).
Proof.
  intros Hb Hl. destruct val as [v |]; cbn in *; [| split; [by intros e [= <-] | constructor]].
  specialize (Hb v eq_refl). destruct (len v <? 32); (split; [by intros e [= <-] | done]).
Qed.

Lemma write_elems_ext {A B} (f : A → encBuffer → go encBuffer) (g : B → encBuffer → go encBuffer) (h : A → B) l :
  (∀ x w, f x w = g (h x) w) → ∀ w, write_elems f l w = write_elems g (map h l) w.
Proof.
  intros Hfg. induction l as [| x l IH]; intros w; [done |]. cbn. rewrite Hfg. destruct (g (h x) w); cbn; [apply IH | done..].
Qed.

Lemma write_elems_snoc {A} (f : A → encBuffer → go encBuffer) l x w : write_elems f (l ++ [x]) w = (w ← write_elems f l w; f x w).
Proof.
  revert w. induction l as [| y l IH]; intros w; cbn; [by destruct (f x w) |]. destruct (f y w); cbn; [apply IH | done..].
Qed.

Lemma enc_elems_children vals : enc_elems rlp_enc (map child_rval vals) = Ok (concat (map child_enc vals)).
Proof. induction vals as [| v vals IH]; [done |]. cbn [map enc_elems concat]. rewrite child_rlp. cbn [mbind outcome_bind]. by rewrite IH. Qed.

Lemma enc_elems_snoc l x e p : enc_elems rlp_enc l = Ok p → rlp_enc x = Ok e → enc_elems rlp_enc (l ++ [x]) = Ok (p ++ e).
Proof.
  revert p. induction l as [| y l IH]; intros p Hl Hx; cbn in *; [injection Hl as <-; rewrite Hx; cbn; by rewrite app_nil_r |].
  destruct (rlp_enc y) as [ey | | |]; cbn in *; try done. destruct (enc_elems rlp_enc l) as [pl | | |]; cbn in *; try done. injection Hl as <-.
  rewrite (IH pl eq_refl Hx). cbn. by rewrite app_assoc.
Qed.

Section Encoded.
  Context (hb : encBuffer) (Hhb : length (sizebuf hb) = 9%nat).

Lemma st_encoded_branch vals : (∀ v, Some v ∈ vals → bytes_ok v) → slice_len (enc_list (concat (map child_enc vals) ++ [0x80])) →
  st_encoded hb (encode_branch vals) = Ok (enc_list (concat (map child_enc vals) ++ [0x80])).
Proof.
  intros Hb Hl. set (v := VSlice false (map child_rval vals ++ [VRaw [0x80]])).
  assert (Ev : rlp_enc v = Ok (enc_list (concat (map child_enc vals) ++ [0x80]))).
  { unfold v. cbn [rlp_enc]. by rewrite (enc_elems_snoc _ (VRaw [0x80]) [0x80] _ (enc_elems_children vals) eq_refl). }
  assert (Ew : ∀ w, encode_branch vals w = writer v w).
  { intros w. unfold encode_branch, v. assert (Hne : ∃ x l, map child_rval vals ++ [VRaw [0x80]] = x :: l) by (destruct vals; cbn; eauto). destruct Hne as (x & l & Hxl).
    cbn [writer]. rewrite Hxl. rewrite <- Hxl. destruct (open_list w) as [w1 off]. rewrite write_elems_snoc, (write_elems_ext encode_child writer child_rval) by apply encode_child_writer.
    destruct (write_elems writer (map child_rval vals) w1); done. }
  unfold st_encoded. rewrite Ew. rewrite <- Ev. change (EncodeToBytes hb v = rlp_enc v). apply EncodeToBytes_spec; [done |].
  split; [intros e He; change (rlp_enc v = Ok e) in He; rewrite Ev in He; by injection He as <- |]. pose proof (enc_list_len (concat (map child_enc vals) ++ [0x80])) as Hlen. rewrite len_app in Hlen.
  assert (Hlc : slice_len (concat (map child_enc vals))) by lia. clear -Hb Hlc. induction vals as [| x vals IH]; cbn [map app fold_right].
  - split; [| done]. split; [by intros e [= <-] | solve_bytes].
  - cbn [map concat] in Hlc. rewrite len_app in Hlc. split; [apply child_ok; [intros v ->; apply Hb; left | lia] | apply IH; [intros v Hv; apply Hb; by right | lia]].
Qed.

(** A short node with a value or a child *)
Lemma st_encoded_short key x val e : bytes_ok key → (∀ w, val w = writer x w) → rlp_enc x = Ok e → rval_ok x → slice_len (enc_list (enc_string key ++ e)) →
  st_encoded hb (encode_short key val) = Ok (enc_list (enc_string key ++ e)).
Proof.
  intros Hk Hval Hx Hok Hl. set (v := VSlice false [VBytes key; x]).
  assert (Ev : rlp_enc v = Ok (enc_list (enc_string key ++ e))) by (cbn; rewrite Hx; cbn; by rewrite app_nil_r).
  assert (Ew : ∀ w, encode_short key val w = writer v w).
  { intros w. unfold encode_short, v. cbn [writer write_elems]. destruct (open_list w) as [w1 off]. destruct (writeBytes key w1) as [w2 | | |]; cbn [mbind outcome_bind]; try done.
    rewrite Hval. by destruct (writer x w2). }
  unfold st_encoded. rewrite Ew. rewrite <- Ev. change (EncodeToBytes hb v = rlp_enc v). apply EncodeToBytes_spec; [done |].
  split; [intros e' He; change (rlp_enc v = Ok e') in He; rewrite Ev in He; by injection He as <- |]. pose proof (enc_list_len (enc_string key ++ e)) as Hlen. rewrite len_app in Hlen.
  split; [split; [intros e' [= <-]; lia | done] |]. by split.
Qed.
End Encoded.

(** ** What a stack trie stands for *)

Section Represents.
  Context `{HF : Hasher} `{HL : !HasherLaws} (hb : encBuffer) (Hhb : length (sizebuf hb) = 9%nat) (owner : bytes) (writeFn : bool).

(** The val of a hashed node *)
Definition ref_val (t : tree) : bytes := if len (tree_enc t) <? 32 then tree_enc t else sum256 (tree_enc t).

Inductive strep : st_node → tree → Prop :=
| strep_hashed t : strep (hashedNode (ref_val t)) t
| strep_leaf k v : strep (leafNode k v) (TShort (k ++ [16]) (TVal v))
| strep_ext k s c : strep s (TFull c) → strep (extNode k s) (TShort k (TFull c))
| strep_branch cs c :
    length cs = 16%nat → length c = 17%nat → c !! 16%nat = Some TNil →
    (∀ i t, cs !! i = Some None → c !! i = Some t → t = TNil) →
    (∀ i s t, cs !! i = Some (Some s) → c !! i = Some t → t ≠ TNil ∧ strep s t) →
    strep (branchNode cs) (TFull c).

Lemma ref_val_ok t : wf t → bounded t → bytes_ok (ref_val t) ∧ child_enc (Some (ref_val t)) = tree_ref t.
Proof.
  intros Hw Hbd. destruct (tree_enc_ok t Hw Hbd) as [Hb _]. rewrite ref_of_wf by done. unfold ref_val. cbn [child_enc]. rewrite Z.leb_antisym.
  destruct (len (tree_enc t) <? 32) eqn:E; cbn [negb]; [by rewrite E |]. rewrite sum256_length. split; [apply sum256_bytes | done].
Qed.

Fixpoint st_nested_ind (P : st_node → Prop) (He : P emptyNode) (Hb : ∀ cs, (∀ i s, cs !! i = Some (Some s) → P s) → P (branchNode cs))
    (Hx : ∀ k s, P s → P (extNode k s)) (Hl : ∀ k v, P (leafNode k v)) (Hh : ∀ v, P (hashedNode v)) (s : st_node) : P s.
Proof.
  destruct s as [| cs | k s | k v | v]; [done | apply Hb | apply Hx, st_nested_ind; assumption | done | done].
  induction cs as [| [c |] cs IH]; intros i s Hi; [done | |]; destruct i as [| i]; cbn in Hi; try discriminate Hi; try (by apply (IH i)).
  injection Hi as <-. by apply st_nested_ind.
Defined.

(** What is below a hashed node is written already. *)
Fixpoint dead (s : st_node) (q : bytes) : bool :=
  match s with
  | hashedNode _ => true
  | extNode k s => if decide (take (length k) q = k) then dead s (drop (length k) q) else false
  | branchNode cs =>
      match q with
      | [] => false
      | i :: q => (0 <=? i) && nth (Z.to_nat i) (map (fun c => match c with Some s => dead s | None => fun _ => false end) cs) (fun _ => false) q
      end
  | _ => false
  end.

Lemma dead_ext k s r : dead (extNode k s) (k ++ r) = dead s r.
Proof. cbn. rewrite take_app_length, drop_app_length. by rewrite decide_True. Qed.

Lemma dead_ext_nil k s : k ≠ [] → dead (extNode k s) [] = false.
Proof. intros Hk. cbn. rewrite decide_False; [done |]. rewrite take_nil. congruence. Qed.

Lemma dead_branch cs i r : dead (branchNode cs) (Z.of_nat i :: r) = match cs !! i with Some (Some s) => dead s r | _ => false end.
Proof.
  cbn [dead]. rewrite (proj2 (Z.leb_le 0 _)) by lia. rewrite Nat2Z.id, andb_true_l. revert i.
  induction cs as [| c cs IH]; intros [| i]; cbn; [done.. | by destruct c | apply IH].
Qed.

(** A node that has an entry of its own in the database *)
Definition node_at (t : tree) (q : bytes) (t' : tree) : Prop := sub t q = Some t' ∧ wf t' ∧ 32 <= len (tree_enc t').

(** The writes of the nodes that [P] holds of *)
Definition wrote (P : bytes → tree → Prop) (path : bytes) (l : list write) : Prop :=
  if writeFn then ∀ w, w ∈ l ↔ ∃ q t, P q t ∧ w = (owner, path ++ q, sum256 (tree_enc t), tree_enc t) else l = [].

Lemma wrote_iff P Q path l : (∀ q t, P q t ↔ Q q t) → wrote P path l → wrote Q path l.
Proof. unfold wrote. destruct writeFn; [| done]. intros HPQ H w. rewrite H. by setoid_rewrite HPQ. Qed.

Lemma wrote_app P Q path l1 l2 : wrote P path l1 → wrote Q path l2 → wrote (fun q t => P q t ∨ Q q t) path (l1 ++ l2).
Proof.
  unfold wrote. destruct writeFn; [| by intros -> ->]. intros H1 H2 w. rewrite elem_of_app, H1, H2. split.
  - intros [(q & t & ? & ?) | (q & t & ? & ?)]; exists q, t; auto.
  - intros (q & t & [? | ?] & ?); [left | right]; exists q, t; auto.
Qed.

Lemma wrote_under P path k l : wrote P (path ++ k) l → wrote (fun q t => ∃ r, q = k ++ r ∧ P r t) path l.
Proof.
  unfold wrote. destruct writeFn; [| done]. intros H w. rewrite H. split.
  - intros (q & t & HP & ->). exists (k ++ q), t. split; [by exists q |]. by rewrite <- app_assoc.
  - intros (q & t & (r & -> & HP) & ->). exists r, t. by rewrite <- app_assoc.
Qed.

Lemma wrote_nil P path : (∀ q t, ¬ P q t) → wrote P path [].
Proof.
  intros HP. unfold wrote. destruct writeFn; [| done]. intros w. split; [intros Hw; by apply elem_of_nil in Hw |]. intros (q & t & Hq & _). by apply HP in Hq.
Qed.

Lemma hashed_val_spec path t l : ∃ l', hashed_val owner writeFn path (tree_enc t) l = (ref_val t, l ++ l') ∧ wrote (fun q t' => q = [] ∧ t' = t ∧ 32 <= len (tree_enc t)) path l'.
Proof.
  unfold hashed_val, ref_val. destruct (Z.ltb_spec (len (tree_enc t)) 32) as [Hl | Hl].
  - exists []. rewrite app_nil_r. split; [done |]. apply wrote_nil. intros q t' (_ & _ & ?). lia.
  - rewrite BytesToHash_32 by apply sum256_length. unfold wrote. destruct writeFn; [| exists []; by rewrite app_nil_r]. eexists. split; [done |]. intros w. rewrite list_elem_of_singleton. split.
    + intros ->. exists [], t. by rewrite app_nil_r.
    + intros (q & t' & (-> & -> & _) & ->). by rewrite app_nil_r.
Qed.

(** Hashing a node that stands for [t] gives its val and writes what is not written. *)
Definition hashes (s : st_node) : Prop :=
  ∀ t path l, strep s t → wf t → bounded t →
  ∃ l', hashRec hb owner writeFn s path l = Ok (ref_val t, l ++ l') ∧ wrote (fun q t' => node_at t q t' ∧ dead s q = false) path l'.

Lemma node_at_short k t q t' : k ≠ [] → wf (TShort k t) →
  node_at (TShort k t) q t' ↔ (q = [] ∧ t' = TShort k t ∧ 32 <= len (tree_enc (TShort k t))) ∨ ∃ r, q = k ++ r ∧ node_at t r t'.
Proof.
  intros Hk Hw. split.
  - intros (Hs & Hwt & Hl). destruct (decide (q = [])) as [-> | Hq].
    + left. rewrite sub_nil in Hs. by injection Hs as <-.
    + right. apply sub_short_Some in Hs as (r & -> & Hs); [| done]. by exists r.
  - intros [(-> & -> & Hl) | (r & -> & Hs & Hwt & Hl)]; (split_and!; [| done | done]); [apply sub_nil | by rewrite sub_short].
Qed.

Lemma node_at_full c q t' : wf (TFull c) →
  node_at (TFull c) q t' ↔ (q = [] ∧ t' = TFull c ∧ 32 <= len (tree_enc (TFull c))) ∨ ∃ i r t, q = Z.of_nat i :: r ∧ c !! i = Some t ∧ node_at t r t'.
Proof.
  intros Hw. split.
  - intros (Hs & Hwt & Hl). destruct (decide (q = [])) as [-> | Hq].
    + left. rewrite sub_nil in Hs. by injection Hs as <-.
    + right. apply sub_full_Some in Hs as (i & r & t & -> & Hi & Hs); [| done]. by exists i, r, t.
  - intros [(-> & -> & Hl) | (i & r & t & -> & Hi & Hs & Hwt & Hl)]; (split_and!; [| done | done]); [apply sub_nil | by rewrite sub_full, Hi].
Qed.

Lemma node_at_leaf t q t' : ¬ wf t → (∀ c, t ≠ TFull c) → (∀ k c, t ≠ TShort k c) → ¬ node_at t q t'.
Proof.
  intros Hw Hf Hs (Hq & Hwt & _). destruct t as [| c | k t | v]; [| by eapply Hf | by eapply Hs |]; (destruct q; [injection Hq as <- | discriminate Hq]); by inversion Hwt.
Qed.

Lemma hash_children_spec cs : (∀ i s, cs !! i = Some (Some s) → hashes s) → ∀ off ts path l,
  (length cs <= length ts)%nat → (∀ i t, cs !! i = Some None → ts !! i = Some t → t = TNil) →
  (∀ i s t, cs !! i = Some (Some s) → ts !! i = Some t → strep s t ∧ wf t ∧ bounded t) →
  ∃ vals l', hash_children (hashRec hb owner writeFn) (Z.of_nat off) cs path l = Ok (vals, l ++ l') ∧
    map child_enc vals = map tree_ref (take (length cs) ts) ∧ (∀ v, Some v ∈ vals → bytes_ok v) ∧
    wrote (fun q t' => ∃ i s t r, q = Z.of_nat (off + i) :: r ∧ cs !! i = Some (Some s) ∧ ts !! i = Some t ∧ node_at t r t' ∧ dead s r = false) path l'.
Proof.
  induction cs as [| c cs IH]; intros Hh off ts path l Hlen Hnone Hsome.
  { exists [], []. rewrite app_nil_r. split_and!; [done | done | intros v Hv; by apply elem_of_nil in Hv | apply wrote_nil; by intros q t (i & s & t0 & r & _ & Hi & _)]. }
  destruct ts as [| t ts]; [cbn in Hlen; lia |].
  assert (IH' : ∀ l, ∃ vals l', hash_children (hashRec hb owner writeFn) (Z.of_nat (S off)) cs path l = Ok (vals, l ++ l') ∧
    map child_enc vals = map tree_ref (take (length cs) ts) ∧ (∀ v, Some v ∈ vals → bytes_ok v) ∧
    wrote (fun q t' => ∃ i s t r, q = Z.of_nat (S off + i) :: r ∧ cs !! i = Some (Some s) ∧ ts !! i = Some t ∧ node_at t r t' ∧ dead s r = false) path l').
  { intros l0. apply IH; [intros i; apply (Hh (S i)) | cbn in Hlen; lia | intros i; apply (Hnone (S i)) | intros i; apply (Hsome (S i))]. }
  cbn [hash_children length take map]. replace (Z.of_nat off + 1) with (Z.of_nat (S off)) by lia. destruct c as [s |].
  - destruct (Hsome 0%nat s t eq_refl eq_refl) as (Hr & Hw & Hbd). destruct (Hh 0%nat s eq_refl t (path ++ [Z.of_nat off]) l Hr Hw Hbd) as (l1 & -> & W1). cbn [mbind outcome_bind].
    destruct (IH' (l ++ l1)) as (vals & l2 & -> & Hv & Hb & W2). cbn [mbind outcome_bind]. destruct (ref_val_ok t Hw Hbd) as [Hvb Hve].
    exists (Some (ref_val t) :: vals), (l1 ++ l2). rewrite app_assoc. split_and!; [done | cbn [map]; by rewrite Hve, Hv | intros v [[= ->] | Hin]%elem_of_cons; [done | by apply Hb] |].
    eapply wrote_iff; [| exact (wrote_app _ _ _ _ _ (wrote_under _ _ _ _ W1) W2)].
    intros q t'. split.
    + intros [(r & -> & Hn & Hd) | (i & s' & t0 & r & -> & Hi & Ht & Hn & Hd)]; [exists 0%nat, s, t, r | exists (S i), s', t0, r]; split_and!; try done; cbn; do 2 f_equal; lia.
    + intros ([| i] & s' & t0 & r & -> & Hi & Ht & Hn & Hd); [left | right].
      * injection Hi as <-. injection Ht as <-. exists r. rewrite Nat.add_0_r. by split_and!.
      * exists i, s', t0, r. split_and!; try done. do 2 f_equal. lia.
  - assert (t = TNil) as -> by by apply (Hnone 0%nat). destruct (IH' l) as (vals & l2 & -> & Hv & Hb & W2). cbn [mbind outcome_bind].
    exists (None :: vals), l2. split_and!; [done | cbn [map]; by rewrite Hv | intros v [[=] | Hin]%elem_of_cons; by apply Hb |].
    eapply wrote_iff; [| exact W2]. intros q t'. split.
    + intros (i & s' & t0 & r & -> & Hi & Ht & Hn & Hd). exists (S i), s', t0, r. split_and!; try done. do 2 f_equal. lia.
    + intros ([| i] & s' & t0 & r & -> & Hi & Ht & Hn & Hd); [done |]. exists i, s', t0, r. split_and!; try done. do 2 f_equal. lia.
Qed.

Lemma branch_child cs c i s t : strep (branchNode cs) (TFull c) → wf (TFull c) → bounded (TFull c) → cs !! i = Some (Some s) → c !! i = Some t →
  strep s t ∧ wf t ∧ bounded t ∧ (i < 16)%nat.
Proof.
  inversion 1 as [| | | ? ? H16 H17 Hlast Hnone Hsome]; subst. intros Hw Hbd Hi Ht. destruct (Hsome i s t Hi Ht) as [Hn Hr].
  assert (Hlt : (i < 16)%nat) by (apply lookup_lt_Some in Hi; lia).
  destruct (wf_full_child c i t Hw Ht) as [-> | [[Hwt _] | (v & -> & _ & ->)]]; [done | | lia]. split_and!; [done | done | by eapply bounded_child | done].
Qed.

Lemma branch_last c : length c = 17%nat → c !! 16%nat = Some TNil → c = take 16 c ++ [TNil].
Proof.
  intros H17 Hlast. rewrite <- (take_drop 16 c) at 1. f_equal. apply drop_S in Hlast. rewrite Hlast. f_equal. apply nil_length_inv. rewrite length_drop. lia.
Qed.

Lemma hashes_branch cs : (∀ i s, cs !! i = Some (Some s) → hashes s) → hashes (branchNode cs).
Proof.
  intros IH t path l Hr Hw Hbd. inversion Hr as [| | | ? c H16 H17 Hlast Hnone Hsome]; subst. cbn [hashRec].
  destruct (hash_children_spec cs IH 0 c path l) as (vals & l1 & E & Hv & Hb & W1); [lia | done | intros i s t Hi Ht; by destruct (branch_child cs c i s t Hr Hw Hbd Hi Ht) as (? & ? & ? & _) |].
  change (Z.of_nat 0) with 0 in E. rewrite E. cbn [mbind outcome_bind]. rewrite H16 in Hv.
  assert (Ec : concat (map child_enc vals) ++ [0x80] = concat (map tree_ref c)) by (rewrite (branch_last c H17 Hlast), Hv, map_app, concat_app; reflexivity).
  change (enc_list (concat (map tree_ref c))) with (tree_enc (TFull c)) in *. destruct (tree_enc_ok _ Hw Hbd) as [_ Hl].
  rewrite (st_encoded_branch hb Hhb vals Hb); rewrite Ec; change (enc_list (concat (map tree_ref c))) with (tree_enc (TFull c)); [| lia]. cbn [mbind outcome_bind].
  destruct (hashed_val_spec path (TFull c) (l ++ l1)) as (l2 & -> & W2). exists (l1 ++ l2). rewrite app_assoc. split; [done |].
  eapply wrote_iff; [| exact (wrote_app _ _ _ _ _ W1 W2)]. intros q t'. rewrite node_at_full by done. split.
  - intros [(i & s & t & r & -> & Hi & Ht & Hn & Hd) | (-> & -> & Hbig)]; [| by auto]. cbn [Nat.add]. rewrite dead_branch, Hi. split; [right; eauto 10 | done].
  - intros [[(-> & -> & Hbig) | (i & r & t & -> & Ht & Hn)] Hd]; [by right | left]. rewrite dead_branch in Hd. destruct (cs !! i) as [[s |] |] eqn:Ei.
    + by exists i, s, t, r.
    + rewrite (Hnone i t Ei Ht) in Hn. by apply node_at_leaf in Hn; [| inversion 1 | done | done].
    + apply lookup_ge_None in Ei. assert (i = 16%nat) as -> by (apply lookup_lt_Some in Ht; lia). rewrite Ht in Hlast. injection Hlast as ->.
      by apply node_at_leaf in Hn; [| inversion 1 | done | done].
Qed.

Lemma inPlace_compact hex : hex ≠ [] → ∃ b, @hexToCompactInPlace rlp_error hex = Ok (b, compact hex).
Proof.
  intros Hne. destruct (hexToCompactInPlace_correct (E := rlp_error) hex Hne) as (key & rest & E1 & E2 & _). rewrite hexToCompact_compact in E1. injection E1 as <-. by eexists.
Qed.

Lemma hashes_ext k s : hashes s → hashes (extNode k s).
Proof.
  intros IH t path l Hr Hw Hbd. inversion Hr as [| | ? ? c Hrc |]; subst. pose proof (wf_short_nonempty _ _ Hw) as Hk. cbn [hashRec].
  destruct (bounded_short _ _ Hw Hbd) as [_ Hbc]. assert (Hc : wf (TFull c) ∧ nibbles k) by (by inversion Hw). destruct Hc as [Hwc Hn]. specialize (Hbc Hwc).
  destruct (IH (TFull c) (path ++ k) l Hrc Hwc Hbc) as (l1 & -> & W1). cbn [mbind outcome_bind]. destruct (inPlace_compact k Hk) as [b ->]. cbn [mbind outcome_bind].
  destruct (tree_enc_ok _ Hw Hbd) as [_ Hl]. destruct (ref_val_ok (TFull c) Hwc Hbc) as [Hvb Hve].
  change (tree_enc (TShort k (TFull c))) with (enc_list (enc_string (compact k) ++ tree_ref (TFull c))) in Hl.
  rewrite (st_encoded_short hb Hhb (compact k) (child_rval (Some (ref_val (TFull c)))) _ (tree_ref (TFull c)));
    [| apply compact_bytes; exists k; by auto | apply encode_child_writer | by rewrite child_rlp, Hve | apply child_ok; [by intros v [= <-] | rewrite Hve; pose proof (ref_len _ Hwc); lia] | lia].
  cbn [mbind outcome_bind]. change (enc_list (enc_string (compact k) ++ tree_ref (TFull c))) with (tree_enc (TShort k (TFull c))).
  destruct (hashed_val_spec path (TShort k (TFull c)) (l ++ l1)) as (l2 & -> & W2). exists (l1 ++ l2). rewrite app_assoc. split; [done |].
  eapply wrote_iff; [| exact (wrote_app _ _ _ _ _ (wrote_under _ _ _ _ W1) W2)]. intros q t'. rewrite node_at_short by done. split.
  - intros [(r & -> & Hn' & Hd) | (-> & -> & Hbig)]; [rewrite dead_ext; by eauto 10 |]. rewrite dead_ext_nil by done. by auto.
  - intros [[(-> & -> & Hbig) | (r & -> & Hn')] Hd]; [by right | left]. rewrite dead_ext in Hd. by exists r.
Qed.

Lemma hashes_leaf k v : hashes (leafNode k v).
Proof.
  intros t path l Hr Hw Hbd. inversion Hr; subst. cbn [hashRec]. destruct (inPlace_compact (k ++ [16])) as [b ->]; [by destruct k |]. cbn [mbind outcome_bind].
  assert (Hkv : nibbles k ∧ value_ok v).
  { inversion Hw as [k0 v0 Hk Hv E | |]; subst. apply app_inj_tail in E as [-> _]. done. }
  destruct Hkv as (Hk & Hv1 & Hv2 & Hv3). destruct (tree_enc_ok _ Hw Hbd) as [_ Hl].
  change (tree_enc (TShort (k ++ [16]) (TVal v))) with (enc_list (enc_string (compact (k ++ [16])) ++ enc_string v)) in Hl. pose proof (enc_list_len (enc_string (compact (k ++ [16])) ++ enc_string v)) as Hlen. rewrite len_app in Hlen.
  rewrite (st_encoded_short hb Hhb (compact (k ++ [16])) (VBytes v) _ (enc_string v)); [| apply compact_bytes; exists k; by auto | done | done | split; [intros e [= <-]; lia | done] | lia].
  cbn [mbind outcome_bind]. change (enc_list (enc_string (compact (k ++ [16])) ++ enc_string v)) with (tree_enc (TShort (k ++ [16]) (TVal v))).
  destruct (hashed_val_spec path (TShort (k ++ [16]) (TVal v)) l) as (l2 & -> & W2). exists l2. split; [done |].
  eapply wrote_iff; [| exact W2]. intros q t'. rewrite node_at_short by (done || by destruct k). split; [by auto |].
  intros [[? | (r & -> & Hn)] _]; [done |]. by apply node_at_leaf in Hn; [| inversion 1 | done | done].
Qed.

Lemma hashRec_hashes s : hashes s.
Proof.
  induction s as [| cs IH | k s IH | k v | v] using st_nested_ind; [intros t path l Hr; by inversion Hr | by apply hashes_branch | | |].
  - by apply hashes_ext.
  - by apply hashes_leaf.
  - intros t path l Hr Hw Hbd. inversion Hr; subst. exists []. rewrite app_nil_r. split; [done |]. apply wrote_nil. by intros q t' [_ ?].
Qed.

(** ** Progress: what becomes hashed is written *)

(** From a trie [t], of which [d] is written, to [t'] with [d'] by the writes [l] *)
Definition adv (path : bytes) (d : bytes → bool) (t : tree) (d' : bytes → bool) (t' : tree) (l : list write) : Prop :=
  wrote (fun q t1 => node_at t' q t1 ∧ d' q = true ∧ d q = false) path l ∧
  ∀ q, d q = true → d' q = true ∧ ∀ t1, node_at t q t1 ↔ node_at t' q t1.

Lemma adv_none path d t d' t' : (∀ q, d' q = false) → (∀ q, d q = false) → adv path d t d' t' [].
Proof. intros Hd' Hd. split; [apply wrote_nil; intros q t1 (_ & E & _); by rewrite Hd' in E |]. intros q E. by rewrite Hd in E. Qed.

Lemma adv_trans path d t d1 t1 d2 t2 l1 l2 : adv path d t d1 t1 l1 → adv path d1 t1 d2 t2 l2 → adv path d t d2 t2 (l1 ++ l2).
Proof.
  intros [W1 K1] [W2 K2]. split.
  - eapply wrote_iff; [| exact (wrote_app _ _ _ _ _ W1 W2)]. intros q x. split.
    + intros [(Hn & Hd1 & Hd) | (Hn & Hd2 & Hd1)]; [destruct (K2 q Hd1) as [? E]; by rewrite <- E |]. split_and!; [done | done |].
      destruct (d q) eqn:E; [| done]. by destruct (K1 q E) as [? _]; congruence.
    + intros (Hn & Hd2 & Hd). destruct (d1 q) eqn:E; [left | by right]. destruct (K2 q E) as [_ E2]. by rewrite E2.
  - intros q Hd. destruct (K1 q Hd) as [Hd1 E1]. destruct (K2 q Hd1) as [Hd2 E2]. split; [done |]. intros x. by rewrite E1.
Qed.

Lemma adv_hash path s t v l : wrote (fun q t' => node_at t q t' ∧ dead s q = false) path l → adv path (dead s) t (dead (hashedNode v)) t l.
Proof.
  intros W. split; [| by intros q _]. eapply wrote_iff; [| exact W]. intros q x. cbn. split; [by intros [? ?] | by intros (? & _ & ?)].
Qed.

Lemma adv_under path k d t d' t' T T' (D D' : bytes → bool) l :
  (∀ r x, node_at T' (k ++ r) x ↔ node_at t' r x) → (∀ r x, d r = true → node_at T (k ++ r) x ↔ node_at t r x) → (∀ r, D (k ++ r) = d r) → (∀ r, D' (k ++ r) = d' r) →
  (∀ q, (∃ r, q = k ++ r) ∨ D q = D' q ∧ (D q = true → ∀ x, node_at T q x ↔ node_at T' q x)) →
  adv (path ++ k) d t d' t' l → adv path D T D' T' l.
Proof.
  intros HT' HT HD HD' Hout [W K]. split.
  - eapply wrote_iff; [| exact (wrote_under _ _ _ _ W)]. intros q x. cbn. split.
    + intros (r & -> & Hn & Hd' & Hd). by rewrite HT', HD, HD'.
    + intros (Hn & Hd' & Hd). destruct (Hout q) as [(r & ->) | [E _]]; [| congruence]. exists r. by rewrite HT', HD, HD' in *.
  - intros q Hd. destruct (Hout q) as [(r & ->) | [E Hn]]; [| split; [congruence | by apply Hn]]. rewrite HD in Hd. destruct (K r Hd) as [Hd' E].
    split; [by rewrite HD' |]. intros x. by rewrite HT, HT' by done.
Qed.

Definition dead_opt (o : option st_node) (q : bytes) : bool := match o with Some s => dead s q | None => false end.

Lemma dead_branch_opt cs i r : dead (branchNode cs) (Z.of_nat i :: r) = match cs !! i with Some o => dead_opt o r | None => false end.
Proof. rewrite dead_branch. by destruct (cs !! i) as [[s |] |]. Qed.

Lemma node_at_child c i t r x : c !! i = Some t → node_at (TFull c) ([Z.of_nat i] ++ r) x ↔ node_at t r x.
Proof. intros Hi. unfold node_at. cbn [app]. by rewrite sub_full, Hi. Qed.

Lemma adv_branch path cs c i o o' t t' l : cs !! i = Some o → c !! i = Some t → adv (path ++ [Z.of_nat i]) (dead_opt o) t (dead_opt o') t' l →
  adv path (dead (branchNode cs)) (TFull c) (dead (branchNode (<[i := o']> cs))) (TFull (<[i := t']> c)) l.
Proof.
  intros Hcs Hc. pose proof (lookup_lt_Some _ _ _ Hcs) as Hl1. pose proof (lookup_lt_Some _ _ _ Hc) as Hl2. apply (adv_under path [Z.of_nat i]).
  - intros r x. apply node_at_child. by apply list_lookup_insert_eq.
  - intros r x _. by apply node_at_child.
  - intros r. cbn [app]. by rewrite dead_branch_opt, Hcs.
  - intros r. cbn [app]. by rewrite dead_branch_opt, list_lookup_insert_eq.
  - intros q. destruct (decide (q = [])) as [-> | Hq]; [by right |]. destruct q as [| z r]; [done |]. destruct (Z.leb_spec 0 z) as [Hz | Hz].
    + rewrite <- (Z2Nat.id z) by done. destruct (decide (Z.to_nat z = i)) as [-> | Hne]; [left; by exists r | right].
      rewrite !dead_branch_opt, list_lookup_insert_ne by done. split; [done |]. intros _ x. unfold node_at. by rewrite !sub_full, list_lookup_insert_ne.
    + right. cbn [dead]. rewrite (proj2 (Z.leb_gt 0 z)) by done. by rewrite !andb_false_l.
Qed.

Lemma adv_ext path k s s' c c' l : k ≠ [] → adv (path ++ k) (dead s) (TFull c) (dead s') (TFull c') l →
  adv path (dead (extNode k s)) (TShort k (TFull c)) (dead (extNode k s')) (TShort k (TFull c')) l.
Proof.
  intros Hk. apply (adv_under path k).
  - intros r x. unfold node_at. by rewrite sub_short.
  - intros r x _. unfold node_at. by rewrite sub_short.
  - intros r. apply dead_ext.
  - intros r. apply dead_ext.
  - intros q. destruct (decide (take (length k) q = k)) as [E | E]; [left; exists (drop (length k) q); rewrite <- E at 1; by rewrite take_drop |].
    right. cbn [dead]. by rewrite !(decide_False (P := take (length k) q = k)).
Qed.

(** ** Inserting in order *)

(** The path to the last key is not hashed. *)
Inductive live : st_node → Prop :=
| live_leaf k v : live (leafNode k v)
| live_ext k cs : live (branchNode cs) → live (extNode k (branchNode cs))
| live_branch cs i s : cs !! i = Some (Some s) → live s → (∀ j o, (i < j)%nat → cs !! j = Some o → o = None) → live (branchNode cs).

(** [a] comes before [b] and neither is a prefix of the other. *)
Definition klt (a b : bytes) : Prop := ∃ m x y r s, a = m ++ x :: r ∧ b = m ++ y :: s ∧ x < y.

Definition above (key : bytes) (t : tree) : Prop := ∀ k v, nibbles k → tget t (k ++ [16]) = Some v → klt k key.

Lemma klt_app k x key : klt (k ++ x) key →
  (∃ m a k2 b r, k = m ++ a :: k2 ∧ key = m ++ b :: r ∧ a < b) ∨ (∃ r, key = k ++ r ∧ klt x r).
Proof.
  revert key. induction k as [| c k IH]; intros key Hk; [right; by exists key |]. destruct Hk as (m & a & b & r & s & E1 & E2 & Hab).
  destruct m as [| c' m]; cbn in E1, E2.
  - injection E1 as -> _. left. exists [], a, k, b, s. done.
  - injection E1 as <- E1. destruct key as [| z key]; [done |]. injection E2 as -> E2.
    destruct (IH key) as [(m' & a' & k2 & b' & r' & -> & -> & Hlt) | (r' & -> & Hlt)]; [by exists m, a, b, r, s | left; by exists (c :: m'), a', k2, b', r' | right; by exists r'].
Qed.

Lemma klt_app_inv k x y : klt (k ++ x) (k ++ y) → klt x y.
Proof.
  intros H. apply klt_app in H as [(m & a & k2 & b & r & -> & E & Hlt) | (r & E & H)]; [| apply app_inv_head in E; by subst].
  rewrite <- app_assoc in E. apply app_inv_head in E. cbn in E. injection E as <- _. lia.
Qed.

Lemma getDiffIndex_split m a k b r : a ≠ b → getDiffIndex (m ++ a :: k) (m ++ b :: r) = Ok (len m).
Proof.
  intros Hab. induction m as [| x m IH]; cbn.
  - by rewrite (proj2 (Z.eqb_neq a b)).
  - rewrite Z.eqb_refl. cbn. rewrite IH. cbn. f_equal. lia.
Qed.

Lemma getDiffIndex_prefix k r : getDiffIndex k (k ++ r) = Ok (len k).
Proof. induction k as [| x k IH]; cbn; [done |]. rewrite Z.eqb_refl. cbn. rewrite IH. cbn. f_equal. lia. Qed.

Definition split_children (a b : Z) (orig new : st_node) : list (option st_node) :=
  <[Z.to_nat b := Some new]> (<[Z.to_nat a := Some orig]> (repeat None 16)).

Definition mk_ext (m : bytes) (s : st_node) : st_node := match m with [] => s | _ => extNode m s end.

Lemma split_node_ok m a k b r v orig : is_nibble a → is_nibble b →
  split_node (m ++ a :: k) (m ++ b :: r) v (len m) orig = Ok (mk_ext m (branchNode (split_children a b orig (leafNode r v)))).
Proof.
  intros Ha Hb. unfold split_node, is_nibble in *. rewrite !at_app. cbn [mbind outcome_bind].
  assert (Hs : slice_from (m ++ b :: r) (len m + 1) = @Ok rlp_error _ r).
  { replace (m ++ b :: r) with ((m ++ [b]) ++ r) by (by rewrite <- app_assoc). replace (len m + 1) with (len (m ++ [b])) by (rewrite len_app; done). apply slice_from_app. }
  rewrite Hs. cbn [mbind outcome_bind]. assert (Hset : ∀ (l : list (option st_node)) i o, length l = 16%nat → 0 <= i < 16 → set_at l i o = @Ok rlp_error _ (<[Z.to_nat i := o]> l)).
  { intros l i o Hl Hi. unfold set_at. by repeat decide_if. }
  rewrite Hset by (done || lia). cbn [mbind outcome_bind]. rewrite Hset by (rewrite ?length_insert; done || lia). cbn [mbind outcome_bind].
  rewrite Nat2Z.id, take_app_length. f_equal. destruct m; [done |]. cbn. by rewrite (proj2 (Z.eqb_neq _ 0)) by lia.
Qed.

Section Split.
  Context (m : bytes) (a b : Z) (Ha : is_nibble a) (Hb : is_nibble b) (Hab : a < b).

Lemma split_children_lookup orig new i : (i < 16)%nat →
  split_children a b orig new !! i = Some (if decide (Z.of_nat i = b) then Some new else if decide (Z.of_nat i = a) then Some orig else None).
Proof.
  intros Hi. unfold split_children, is_nibble in *. case_decide as E1; [rewrite <- E1, Nat2Z.id; apply list_lookup_insert_eq; by rewrite length_insert |].
  rewrite list_lookup_insert_ne by lia. case_decide as E2; [rewrite <- E2, Nat2Z.id; by apply list_lookup_insert_eq |].
  rewrite list_lookup_insert_ne by lia. by apply (lookup_replicate_2 16 None).
Qed.

Lemma split_children_length orig new : length (split_children a b orig new) = 16%nat.
Proof. unfold split_children. by rewrite !length_insert. Qed.

Lemma strep_split orig ta r v : valid_child a ta → valid_child b (TShort (r ++ [16]) (TVal v)) → strep orig ta →
  strep (mk_ext m (branchNode (split_children a b orig (leafNode r v)))) (mk_short m (TFull (branch2 a b ta (TShort (r ++ [16]) (TVal v))))).
Proof.
  intros Hva Hvb Hr. set (tb := TShort (r ++ [16]) (TVal v)) in *. set (c := branch2 a b ta tb).
  assert (Hlk : ∀ i, (i < 17)%nat → c !! i = Some (if decide (Z.of_nat i = b) then tb else if decide (Z.of_nat i = a) then ta else TNil)).
  { intros i Hi. unfold c. rewrite <- (Nat2Z.id i) at 1. apply branch2_lookup; try done; lia. }
  assert (Hbr : strep (branchNode (split_children a b orig (leafNode r v))) (TFull c)).
  { constructor.
    - apply split_children_length.
    - unfold c, branch2. by rewrite !length_insert.
    - rewrite Hlk by lia. unfold is_nibble in *. by rewrite !decide_False by lia.
    - intros i t Hi Ht. assert (Hlt : (i < 16)%nat) by (apply lookup_lt_Some in Hi; by rewrite split_children_length in Hi). rewrite split_children_lookup in Hi by done. rewrite Hlk in Ht by lia.
      injection Ht as <-. repeat case_decide; done.
    - intros i s t Hi Ht. assert (Hlt : (i < 16)%nat) by (apply lookup_lt_Some in Hi; by rewrite split_children_length in Hi). rewrite split_children_lookup in Hi by done. rewrite Hlk in Ht by lia.
      injection Ht as <-. apply valid_child_index in Hva as (_ & _ & Hn). case_decide; [injection Hi as <-; split; [done | constructor] |]. case_decide; [by injection Hi as <- | done]. }
  destruct m; [done |]. by constructor.
Qed.

Lemma live_split orig r v : live (mk_ext m (branchNode (split_children a b orig (leafNode r v)))).
Proof.
  assert (Hbr : live (branchNode (split_children a b orig (leafNode r v)))).
  { apply (live_branch _ (Z.to_nat b) (leafNode r v)); [| constructor |].
    - rewrite split_children_lookup by (unfold is_nibble in *; lia). unfold is_nibble in *. by rewrite decide_True by lia.
    - intros j o Hj Ho. assert (Hlt : (j < 16)%nat) by (apply lookup_lt_Some in Ho; by rewrite split_children_length in Ho). rewrite split_children_lookup in Ho by done.
      unfold is_nibble in *. rewrite !decide_False in Ho by lia. by injection Ho. }
  destruct m; [done |]. by constructor.
Qed.

Lemma dead_split h r v q : dead (mk_ext m (branchNode (split_children a b (hashedNode h) (leafNode r v)))) q = true ↔ ∃ q', q = m ++ a :: q'.
Proof.
  set (s := branchNode _). assert (Hs : ∀ q, dead s q = true ↔ ∃ q', q = a :: q').
  { intros [| z r']; [by split; [| intros [? ?]] |]. destruct (Z.leb_spec 0 z) as [Hz | Hz].
    - unfold s. rewrite <- (Z2Nat.id z) by done. rewrite dead_branch. unfold is_nibble in *. destruct (decide (Z.to_nat z < 16)%nat) as [Hlt | Hge].
      + rewrite split_children_lookup by done. rewrite !Z2Nat.id by done. case_decide as E; [split; [done | intros [? [= ? ?]]; lia] |]. case_decide as E2; [subst z; split; [by eauto | done] |].
        split; [done | intros [? [= ? ?]]; lia].
      + rewrite lookup_ge_None_2 by (rewrite split_children_length; lia). split; [done | intros [? [= ? ?]]; lia].
    - cbn [dead s]. rewrite (proj2 (Z.leb_gt 0 z)) by done. rewrite andb_false_l. split; [done |]. intros [? [= ? ?]]. unfold is_nibble in *. lia. }
  destruct m as [| x m'] eqn:Em; [apply Hs |]. cbn [mk_ext]. destruct (decide (take (length (x :: m')) q = x :: m')) as [E | E].
  - rewrite <- (take_drop (length (x :: m')) q), E. rewrite dead_ext, Hs. split; intros [q' Hq]; exists q'; [by rewrite Hq | by apply app_inv_head in Hq].
  - cbn [dead]. rewrite decide_False by done. split; [done |]. intros [q' ->]. by rewrite take_app_length in E.
Qed.

Lemma node_at_split ta tb r x : valid_child a ta → valid_child b tb → node_at (mk_short m (TFull (branch2 a b ta tb))) (m ++ a :: r) x ↔ node_at ta r x.
Proof.
  intros Hva Hvb. unfold node_at. assert (E : sub (mk_short m (TFull (branch2 a b ta tb))) (m ++ a :: r) = sub ta r); [| by rewrite E].
  assert (Eb : sub (TFull (branch2 a b ta tb)) (a :: r) = sub ta r).
  { unfold is_nibble in *. rewrite <- (Z2Nat.id a) at 2 by lia. rewrite sub_full, branch2_lookup by (done || lia). rewrite decide_False by lia. by rewrite decide_True. }
  destruct m as [| y m']; [done |]. cbn [mk_short]. by rewrite sub_short.
Qed.

Lemma adv_split path (D : bytes → bool) T ta tb h r v d l :
  valid_child a ta → valid_child b tb → (∀ r, D (m ++ a :: r) = d r) → (∀ r x, d r = true → node_at T (m ++ a :: r) x ↔ node_at ta r x) → (∀ q, D q = true → ∃ r, q = m ++ a :: r) →
  wrote (fun q t' => node_at ta q t' ∧ d q = false) (path ++ m ++ [a]) l →
  adv path D T (dead (mk_ext m (branchNode (split_children a b (hashedNode h) (leafNode r v))))) (mk_short m (TFull (branch2 a b ta tb))) l.
Proof.
  intros Hva Hvb HD HT Hout W. assert (Eapp : ∀ q : bytes, (m ++ [a]) ++ q = m ++ a :: q) by (intros q; by rewrite <- app_assoc).
  apply (adv_under path (m ++ [a]) d ta (fun _ => true) ta).
  - intros q x. rewrite Eapp. by apply node_at_split.
  - intros q x Hq. rewrite Eapp. by apply HT.
  - intros q. by rewrite Eapp.
  - intros q. rewrite Eapp. apply dead_split. by eexists.
  - intros q. destruct (D q) eqn:E; [left; destruct (Hout q E) as [q' ->]; by exists q' |]. destruct (dead _ q) eqn:E2; [| by right]. apply dead_split in E2 as [q' ->]. left. by exists q'.
  - split; [| by intros q _]. eapply wrote_iff; [| exact W]. intros q x. cbn. split; [by intros [? ?] | by intros (? & _ & ?)].
Qed.
End Split.

Definition is_branch (s : st_node) : Prop := ∃ cs, s = branchNode cs.

(** Inserting a key above all others *)
Definition inserts (s : st_node) : Prop :=
  ∀ t key v prefix l, strep s t → live s → wf t → bounded t → nibbles key → value_ok v → above key t →
  ∃ s' t' l', st_insert hb owner writeFn s key v prefix l = Ok (s', l ++ l') ∧ strep s' t' ∧ live s' ∧ grown t t' (key ++ [16]) v ∧
    adv prefix (dead s) t (dead s') t' l' ∧ (is_branch s → is_branch s').

Lemma mk_short_snoc k t : mk_short (k ++ [16]) t = TShort (k ++ [16]) t.
Proof. by destruct k. Qed.

Lemma nibbles_tkey k : nibbles k → tkey (k ++ [16]).
Proof. intros Hk. by exists k. Qed.

Lemma nibbles_mid m a k : nibbles (m ++ a :: k) → nibbles m ∧ is_nibble a ∧ nibbles k.
Proof. intros [Hm [Ha Hk]%Forall_cons]%Forall_app. done. Qed.

Lemma valid_child_wf a t : is_nibble a → valid_child a t → wf t.
Proof. intros Ha [[_ ?] | [-> _]]; [done |]. unfold is_nibble in Ha. lia. Qed.

Lemma bounded_rest m a k tc : nibbles m → is_nibble a → bounded (TShort (m ++ a :: k) tc) → bounded (mk_short k tc).
Proof.
  intros Hm Ha Hbd key v Hk Hv. rewrite tget_mk_short in Hv. specialize (Hbd (m ++ a :: key) v). rewrite tget_short_app in Hbd.
  specialize (Hbd (tkey_app m _ Hm (tkey_cons a key Ha Hk))). change (tget (TShort (a :: k) tc) (a :: key)) with (tget (TShort ([a] ++ k) tc) ([a] ++ key)) in Hbd. rewrite tget_short_app in Hbd. specialize (Hbd Hv). rewrite len_app, len_cons in Hbd. lia.
Qed.

Lemma insert_leaf k0 v0 : inserts (leafNode k0 v0).
Proof.
  intros t key v prefix l Hr _ Hw Hbd Hk Hv Hab. inversion Hr; subst. assert (Hk0 : nibbles k0) by (inversion Hw as [k1 v1 Hk1 _ E | |]; subst; by apply app_inj_tail in E as [-> _]).
  destruct (Hab k0 v0 Hk0) as (m & a & b & k & r & -> & -> & Hlt); [by rewrite tget_leaf, decide_True |]. clear Hab.
  apply nibbles_mid in Hk0 as (Hm & Ha & Hkn). apply nibbles_mid in Hk as (_ & Hb & Hrn). cbn [st_insert]. rewrite getDiffIndex_split by lia. cbn [mbind outcome_bind].
  destruct (Z.leb_spec (len (m ++ a :: k)) (len m)) as [Hle | _]; [rewrite len_app, len_cons in Hle; lia |]. replace (Z.to_nat (len m + 1)) with (length (m ++ [a])) by (rewrite length_app; cbn; lia).
  replace (m ++ a :: k) with ((m ++ [a]) ++ k) by (by rewrite <- app_assoc). rewrite drop_app_length, take_app_length. replace ((m ++ [a]) ++ k) with (m ++ a :: k) by (by rewrite <- app_assoc).
  set (ta := TShort (k ++ [16]) (TVal v0)). set (tb := TShort (r ++ [16]) (TVal v)).
  rewrite <- app_assoc in Hw, Hbd |- *. cbn [app] in Hw, Hbd |- *.
  assert (Hva : valid_child a ta) by (pose proof (valid_child_rest m a (k ++ [16]) (TVal v0) Hm Hw) as H; by rewrite mk_short_snoc in H).
  pose proof (valid_child_wf a ta Ha Hva) as Hwa. pose proof (bounded_rest m a (k ++ [16]) (TVal v0) Hm Ha Hbd) as Hba. rewrite mk_short_snoc in Hba. fold ta in Hba.
  destruct (hashRec_hashes (leafNode k v0) ta (prefix ++ m ++ [a]) l (strep_leaf k v0) Hwa Hba) as (l1 & -> & W). cbn [mbind outcome_bind].
  rewrite split_node_ok by done. cbn [mbind outcome_bind].
  assert (Hvb : valid_child b tb) by (left; split; [done | by constructor]).
  eexists _, (mk_short m (TFull (branch2 a b ta tb))), l1. split_and!; [done | | | | | by intros [? ?]].
  - apply strep_split; try done. constructor.
  - by apply live_split.
  - pose proof (grown_split m a (k ++ [16]) (TVal v0) b (r ++ [16]) v Hw) as G. rewrite !mk_short_snoc in G. rewrite <- app_assoc. apply G; [| lia | done].
    apply tkey_app; [done |]. apply tkey_cons; [done |]. by apply nibbles_tkey.
  - apply (adv_split m a b Ha Hb Hlt prefix _ _ ta tb _ r v (fun _ => false)); done.
Qed.

Lemma dead_ext_true k s q : dead (extNode k s) q = true → ∃ r, q = k ++ r ∧ dead s r = true.
Proof.
  cbn. case_decide as E; [| done]. intros Hd. exists (drop (length k) q). split; [| done]. rewrite <- E at 1. by rewrite take_drop.
Qed.

Lemma dead_mk_ext k s r : dead (mk_ext k s) (k ++ r) = dead s r.
Proof. destruct k; [done |]. apply dead_ext. Qed.

Lemma dead_ext_app m k s r : dead (extNode (m ++ k) s) (m ++ r) = dead (mk_ext k s) r.
Proof.
  destruct (decide (take (length k) r = k)) as [E | E].
  - rewrite <- (take_drop (length k) r), E, app_assoc, dead_ext. by rewrite dead_mk_ext.
  - destruct k as [| x k]; [done |]. cbn [mk_ext]. destruct (dead (extNode (x :: k) s) r) eqn:E2; [apply dead_ext_true in E2 as (r' & -> & _); by rewrite take_app_length in E |].
    destruct (dead (extNode (m ++ x :: k) s) (m ++ r)) eqn:E3; [| done]. apply dead_ext_true in E3 as (r' & E3 & _). rewrite <- app_assoc in E3. apply app_inv_head in E3 as ->.
    by rewrite take_app_length in E.
Qed.

(** An extension is split. *)
Lemma insert_ext_split m a k2 s b r c v prefix l :
  strep s (TFull c) → wf (TShort (m ++ a :: k2) (TFull c)) → bounded (TShort (m ++ a :: k2) (TFull c)) → a < b → is_nibble a → nibbles (m ++ b :: r) → value_ok v →
  ∃ s' t' l', st_insert hb owner writeFn (extNode (m ++ a :: k2) s) (m ++ b :: r) v prefix l = Ok (s', l ++ l') ∧ strep s' t' ∧ live s' ∧
    grown (TShort (m ++ a :: k2) (TFull c)) t' ((m ++ b :: r) ++ [16]) v ∧ adv prefix (dead (extNode (m ++ a :: k2) s)) (TShort (m ++ a :: k2) (TFull c)) (dead s') t' l'.
Proof.
  intros Hrc Hw Hbd Hlt Ha Hkey Hv. apply nibbles_mid in Hkey as (Hm & Hb & Hrn). cbn [st_insert]. rewrite getDiffIndex_split by lia. cbn [mbind outcome_bind].
  rewrite (proj2 (Z.eqb_neq (len m) _)) by (rewrite len_app, len_cons; lia). set (ta := mk_short k2 (TFull c)). set (tb := TShort (r ++ [16]) (TVal v)).
  assert (Hva : valid_child a ta) by (by apply valid_child_rest with (m := m)). pose proof (valid_child_wf a ta Ha Hva) as Hwa.
  assert (Hba : bounded ta) by (by apply (bounded_rest m a)). assert (Hra : strep (mk_ext k2 s) ta) by (unfold ta; destruct k2; [done | by constructor]).
  assert (Hvb : valid_child b tb) by (left; split; [done | by constructor]).
  assert (Eh : (if len m <? len (m ++ a :: k2) - 1 then hashRec hb owner writeFn (extNode (drop (Z.to_nat (len m + 1)) (m ++ a :: k2)) s) (prefix ++ take (Z.to_nat (len m + 1)) (m ++ a :: k2)) l
    else hashRec hb owner writeFn s (prefix ++ m ++ a :: k2) l) = hashRec hb owner writeFn (mk_ext k2 s) (prefix ++ m ++ [a]) l).
  { replace (Z.to_nat (len m + 1)) with (length (m ++ [a])) by (rewrite length_app; cbn; lia). rewrite len_app, len_cons. destruct k2 as [| x k2]; [by rewrite (proj2 (Z.ltb_ge _ _)) by (cbn; lia) |].
    rewrite (proj2 (Z.ltb_lt _ _)) by (cbn; lia). replace (m ++ a :: x :: k2) with ((m ++ [a]) ++ x :: k2) by (by rewrite <- app_assoc). by rewrite drop_app_length, take_app_length. }
  rewrite Eh. destruct (hashRec_hashes (mk_ext k2 s) ta (prefix ++ m ++ [a]) l Hra Hwa Hba) as (l1 & -> & W). cbn [mbind outcome_bind]. rewrite split_node_ok by done. cbn [mbind outcome_bind].
  eexists _, (mk_short m (TFull (branch2 a b ta tb))), l1. split_and!; [done | | | |].
  - apply strep_split; try done. constructor.
  - by apply live_split.
  - pose proof (grown_split m a k2 (TFull c) b (r ++ [16]) v Hw) as G. rewrite (mk_short_snoc r) in G. rewrite <- app_assoc. apply G; [| lia | done].
    apply tkey_app; [done |]. apply tkey_cons; [done |]. by apply nibbles_tkey.
  - apply (adv_split m a b Ha Hb Hlt prefix _ _ ta tb _ r v (dead (mk_ext k2 s))); try done.
    + intros q. pose proof (dead_ext_app (m ++ [a]) k2 s q) as E. by rewrite <- !app_assoc in E.
    + intros q x Hq. assert (Hq' : ∃ q', q = k2 ++ q') by (destruct k2; [by exists q | apply dead_ext_true in Hq as (q' & -> & _); by exists q']). destruct Hq' as [q' ->].
      unfold node_at. change (m ++ a :: k2 ++ q') with (m ++ (a :: k2) ++ q'). rewrite app_assoc, sub_short by (by destruct m). unfold ta. destruct k2; [done |]. cbn [mk_short]. by rewrite sub_short.
    + intros q Hq. apply dead_ext_true in Hq as (q' & -> & _). rewrite <- app_assoc. by eexists.
Qed.

Lemma insert_ext k s : inserts s → inserts (extNode k s).
Proof.
  intros IH t key v prefix l Hr Hl Hw Hbd Hk Hv Hab. inversion Hr as [| | ? ? c Hrc |]; subst. pose proof (wf_short_nonempty _ _ Hw) as Hne.
  assert (Hc : wf (TFull c) ∧ nibbles k) by (by inversion Hw). destruct Hc as [Hwc Hkn]. destruct (bounded_short _ _ Hw Hbd) as [_ Hbc]. specialize (Hbc Hwc).
  destruct (wf_inhabited _ Hwc) as (key0 & v0 & (k0 & Hk0 & ->) & Hv0).
  assert (Hget : ∀ x, tget (TShort k (TFull c)) ((k ++ x) ++ [16]) = tget (TFull c) (x ++ [16])) by (intros x; rewrite <- app_assoc; apply tget_short).
  pose proof (Hab (k ++ k0) v0 ltac:(by apply Forall_app)) as Hlt. rewrite Hget in Hlt. specialize (Hlt Hv0). cbn [st_insert].
  apply klt_app in Hlt as [(m & a & k2 & b & r & -> & -> & Hlt) | (r & -> & _)].
  - apply nibbles_mid in Hkn as (_ & Ha & _). destruct (insert_ext_split m a k2 s b r c v prefix l Hrc Hw Hbd Hlt Ha Hk Hv) as (s' & t' & l1 & E & Hr' & Hl' & Hg & Hadv).
    exists s', t', l1. cbn [st_insert] in E. split_and!; try done. by intros [? ?].
  - rewrite getDiffIndex_prefix. cbn [mbind outcome_bind]. rewrite Z.eqb_refl, Nat2Z.id, drop_app_length, take_app_length. apply Forall_app in Hk as [_ Hr0].
    inversion Hl as [| ? cs Hlb |]; subst.
    destruct (IH (TFull c) r v (prefix ++ k) l Hrc Hlb Hwc Hbc Hr0 Hv) as (s' & t' & l1 & -> & Hr' & Hl' & Hg & Hadv & Hbr).
    { intros x vx Hx Hget'. apply (klt_app_inv k). apply (Hab (k ++ x) vx); [by apply Forall_app | by rewrite Hget]. }
    cbn [mbind outcome_bind]. pose proof Hg as (_ & _ & _ & Hfull). destruct (Hfull ltac:(by eexists)) as [c' ->]. destruct (Hbr ltac:(by eexists)) as [cs' ->].
    eexists _, _, l1. split_and!; [done | by constructor | by constructor | | by apply adv_ext | by intros [? ?]].
    rewrite <- app_assoc. apply grown_short; [done | | done]. apply tkey_app; [done |]. by apply nibbles_tkey.
Qed.

Lemma strep_set cs c i s' t' : strep (branchNode cs) (TFull c) → (i < 16)%nat → strep s' t' → t' ≠ TNil → strep (branchNode (<[i := Some s']> cs)) (TFull (<[i := t']> c)).
Proof.
  inversion 1 as [| | | ? ? H16 H17 Hlast Hnone Hsome]; subst. intros Hi Hr Hn. constructor; rewrite ?length_insert; try done.
  - by rewrite list_lookup_insert_ne by lia.
  - intros j t Hj Ht. apply list_lookup_insert_Some in Hj as [(_ & ? & _) | [Hne Hj]]; [done |]. rewrite list_lookup_insert_ne in Ht by done. by apply (Hnone j).
  - intros j s t Hj Ht. apply list_lookup_insert_Some in Hj as [(<- & [= <-] & _) | [Hne Hj]].
    + rewrite list_lookup_insert_eq in Ht by lia. by injection Ht as <-.
    + rewrite list_lookup_insert_ne in Ht by done. by apply (Hsome j).
Qed.

Lemma adv_same path d t : adv path d t d t [].
Proof. split; [apply wrote_nil; intros q x (_ & E1 & E2); congruence | by intros q]. Qed.

Lemma hash_elder_spec i : ∀ cs c prefix l, (i <= 16)%nat → strep (branchNode cs) (TFull c) → wf (TFull c) → bounded (TFull c) →
  ∃ cs' l', hash_elder hb owner writeFn i cs prefix l = Ok (cs', l ++ l') ∧ strep (branchNode cs') (TFull c) ∧ (∀ j, (i <= j)%nat → cs' !! j = cs !! j) ∧
    adv prefix (dead (branchNode cs)) (TFull c) (dead (branchNode cs')) (TFull c) l'.
Proof.
  induction i as [| i IH]; intros cs c prefix l Hi Hr Hw Hbd; [exists cs, []; rewrite app_nil_r; split_and!; [done | done | done | apply adv_same] |]. cbn [hash_elder].
  pose proof Hr as Hr0. inversion Hr0 as [| | | ? ? H16 H17 _ _ _]; subst. destruct (cs !! i) as [[s |] |] eqn:Ei; [| | apply lookup_ge_None in Ei; lia].
  - assert (Hsame : ∃ cs' l', @Ok rlp_error _ (cs, l) = Ok (cs', l ++ l') ∧ strep (branchNode cs') (TFull c) ∧ (∀ j, (S i <= j)%nat → cs' !! j = cs !! j) ∧
      adv prefix (dead (branchNode cs)) (TFull c) (dead (branchNode cs')) (TFull c) l') by (exists cs, []; rewrite app_nil_r; split_and!; [done | done | done | apply adv_same]).
    destruct (c !! i) as [t |] eqn:Et; [| apply lookup_ge_None in Et; lia]. destruct (branch_child cs c i s t Hr Hw Hbd Ei Et) as (Hrs & Hwt & Hbt & Hlt).
    destruct (hashRec_hashes s t (prefix ++ [Z.of_nat i]) l Hrs Hwt Hbt) as (l1 & E & W).
    assert (Hhash : ∃ cs' l', ('(val, l) ← hashRec hb owner writeFn s (prefix ++ [Z.of_nat i]) l; Ok (<[i := Some (hashedNode val)]> cs, l)) = Ok (cs', l ++ l') ∧ strep (branchNode cs') (TFull c) ∧
      (∀ j, (S i <= j)%nat → cs' !! j = cs !! j) ∧ adv prefix (dead (branchNode cs)) (TFull c) (dead (branchNode cs')) (TFull c) l').
    { rewrite E. cbn [mbind outcome_bind]. exists (<[i := Some (hashedNode (ref_val t))]> cs), l1. rewrite <- (list_insert_id c i t Et). split_and!; [done | | |].
      - apply strep_set; [done | done | constructor | by destruct Hwt].
      - intros j Hj. by rewrite list_lookup_insert_ne by lia.
      - rewrite (list_insert_id c i t Et) at 1. apply (adv_branch prefix cs c i (Some s) _ t); [done | done |]. by apply adv_hash. }
    by destruct s.
  - destruct (IH cs c prefix l ltac:(lia) Hr Hw Hbd) as (cs' & l' & E & Hr' & Hsame & Hadv). exists cs', l'. split_and!; try done. intros j Hj. apply Hsame. lia.
Qed.

Lemma klt_cons x a y b : klt (x :: a) (y :: b) ↔ x < y ∨ x = y ∧ klt a b.
Proof.
  split.
  - intros ([| m1 m] & x0 & y0 & r & s & E1 & E2 & Hlt); injection E1 as -> ->; injection E2 as -> ->; [by left | right; split; [done |]]. by exists m, x0, y0, r, s.
  - intros [Hlt | [-> (m & x0 & y0 & r & s & -> & -> & Hlt)]]; [by exists [], x, y, a, b | by exists (y :: m), x0, y0, r, s].
Qed.

(** A test for [klt] *)
Fixpoint klt_b (a b : bytes) : bool :=
  match a, b with
  | x :: a, y :: b => (x <? y) || ((x =? y) && klt_b a b)
  | _, _ => false
  end.

Lemma klt_lt a b : klt_b a b = true → klt a b.
Proof.
  revert b. induction a as [| x a IH]; intros [| y b]; cbn; [done.. |]. intros H. apply klt_cons. destruct (Z.ltb_spec x y) as [Hlt | _]; [by left |]. cbn in H.
  destruct (Z.eqb_spec x y) as [-> | _]; [right; auto | done].
Qed.

Lemma nth_map_lookup {A B} (f : A → B) l i x d : l !! i = Some x → nth i (map f l) d = f x.
Proof. intros Hi. rewrite nth_lookup. change (map f l) with (f <$> l). by rewrite list_lookup_fmap, Hi. Qed.

(** The new child becomes the last one. *)
Lemma branch_grows cs cs' c i o s' t t' rest v prefix l l1 l2 : let n := st_insert hb owner writeFn (branchNode cs) (Z.of_nat i :: rest) v prefix l in
  strep (branchNode cs') (TFull c) → wf (TFull c) → (i < 16)%nat → nibbles rest → cs' !! i = Some o → c !! i = Some t → (∀ j o, (i < j)%nat → cs' !! j = Some o → o = None) →
  adv prefix (dead (branchNode cs)) (TFull c) (dead (branchNode cs')) (TFull c) l1 →
  strep s' t' → live s' → grown t t' (rest ++ [16]) v → adv (prefix ++ [Z.of_nat i]) (dead_opt o) t (dead_opt (Some s')) t' l2 →
  n = Ok (branchNode (<[i := Some s']> cs'), (l ++ l1) ++ l2) →
  ∃ s' t' l', n = Ok (s', l ++ l') ∧ strep s' t' ∧ live s' ∧ grown (TFull c) t' ((Z.of_nat i :: rest) ++ [16]) v ∧
    adv prefix (dead (branchNode cs)) (TFull c) (dead s') t' l' ∧ (is_branch (branchNode cs) → is_branch s').
Proof.
  intros n Hr Hw Hi Hrest Ho Ht Hright Hadv1 Hrs Hls Hg Hadv2 ->. pose proof (lookup_lt_Some _ _ _ Ho) as Hlen.
  exists (branchNode (<[i := Some s']> cs')), (TFull (<[i := t']> c)), (l1 ++ l2). rewrite app_assoc. split_and!; [done | | | | | by intros _; eexists].
  - apply strep_set; try done. by destruct Hg as (_ & ? & _).
  - apply (live_branch _ i s'); [by apply list_lookup_insert_eq | done |]. intros j o' Hj Hj'. rewrite list_lookup_insert_ne in Hj' by lia. by apply (Hright j).
  - rewrite <- (Nat2Z.id i) at 1. cbn [app]. apply (grown_full c (Z.of_nat i) (rest ++ [16]) t); try done; [| by rewrite Nat2Z.id].
    apply tkey_cons; [by apply nibble_index | by apply nibbles_tkey].
  - eapply adv_trans; [exact Hadv1 |]. by apply (adv_branch prefix cs' c i o (Some s') t t').
Qed.

Lemma insert_branch cs : (∀ i s, cs !! i = Some (Some s) → inserts s) → inserts (branchNode cs).
Proof.
  intros IH t key v prefix l Hr Hl Hw Hbd Hk Hv Hab. pose proof Hr as Hr0. inversion Hr0 as [| | | ? c H16 H17 Hlast Hnone Hsome]; subst.
  inversion Hl as [| | ? j sj Hj Hlj Hright]; subst. destruct (c !! j) as [tj |] eqn:Etj; [| apply lookup_lt_Some in Hj; apply lookup_ge_None in Etj; lia].
  destruct (branch_child cs c j sj tj Hr Hw Hbd Hj Etj) as (Hrj & Hwj & Hbj & Hlt).
  assert (Hchild : ∀ k x, nibbles k → tget tj (k ++ [16]) = Some x → klt (Z.of_nat j :: k) key).
  { intros k x Hkn Hx. apply (Hab _ x); [constructor; [by apply nibble_index | done] |]. cbn [app]. by rewrite tget_full, Nat2Z.id, Etj. }
  destruct (wf_inhabited _ Hwj) as (key0 & v0 & (k0 & Hk0 & ->) & Hv0). pose proof (Hchild k0 v0 Hk0 Hv0) as Hlt0.
  destruct key as [| z rest]; [destruct Hlt0 as ([| ? ?] & ? & ? & ? & ? & _ & ? & _); done |].
  apply Forall_cons in Hk as [Hz Hrest]. assert (exists i, z = Z.of_nat i ∧ (i < 16)%nat) as (i & -> & Hi) by (exists (Z.to_nat z); unfold is_nibble in Hz; lia).
  destruct (hash_elder_spec i cs c prefix l ltac:(lia) Hr Hw Hbd) as (cs' & l1 & Eel & Hr' & Hsame & Hadv).
  assert (j <= i)%nat as Hji by (apply klt_cons in Hlt0 as [? | [? _]]; lia).
  assert (Hright' : ∀ k o, (i < k)%nat → cs' !! k = Some o → o = None) by (intros k o Hk Ho; rewrite Hsame in Ho by lia; apply (Hright k); [lia | done]).
  destruct (decide (i = j)) as [-> | Hne].
  - destruct (IH j sj Hj tj rest v (prefix ++ [Z.of_nat j]) (l ++ l1) Hrj Hlj Hwj Hbj Hrest Hv) as (s' & t' & l2 & E & Hr2 & Hl2 & Hg & Hadv2 & _).
    { intros k x Hkn Hx. apply (klt_app_inv [Z.of_nat j]). by apply (Hchild k x). }
    apply (branch_grows cs cs' c j (Some sj) s' tj t' rest v prefix l l1 l2); try done; [by rewrite Hsame by lia |].
    cbn [st_insert]. rewrite Nat2Z.id, Eel. cbn [mbind outcome_bind]. erewrite nth_map_lookup by exact Hj. cbn beta match. by rewrite E.
  - destruct (cs !! i) as [o |] eqn:Ei; [| apply lookup_ge_None in Ei; lia]. pose proof (Hright i o ltac:(lia) Ei) as ->.
    destruct (c !! i) as [ti |] eqn:Eti; [| apply lookup_ge_None in Eti; lia]. pose proof (Hnone i ti Ei Eti) as ->.
    apply (branch_grows cs cs' c i None (leafNode rest v) TNil (TShort (rest ++ [16]) (TVal v)) rest v prefix l l1 []); try done.
    + by rewrite Hsame by lia.
    + constructor.
    + constructor.
    + apply grown_nil; [by apply nibbles_tkey | done].
    + by apply adv_none.
    + cbn [st_insert]. rewrite Nat2Z.id, Eel. cbn [mbind outcome_bind]. erewrite nth_map_lookup by exact Ei. cbn beta match. by rewrite app_nil_r.
Qed.

Lemma all_inserts s : inserts s.
Proof.
  induction s as [| cs IH | k s IH | k v | v] using st_nested_ind.
  - intros t key v prefix l Hr. inversion Hr.
  - by apply insert_branch.
  - by apply insert_ext.
  - apply insert_leaf.
  - intros t key w prefix l _ Hl. inversion Hl.
Qed.
End Represents.

(** ** Building a trie *)

Section Build.
  Context `{HF : Hasher} `{HL : !HasherLaws} (hb : encBuffer) (Hhb : length (sizebuf hb) = 9%nat).

Lemma klt_unpack a b : klt a b → klt (unpack a) (unpack b).
Proof.
  intros (m & x & y & r & s & -> & -> & Hlt). induction m as [| z m IH]; unfold unpack in *; cbn [app map concat]; rewrite !klt_cons; [| by auto].
  pose proof (Z.div_mod x 16 ltac:(lia)). pose proof (Z.div_mod y 16 ltac:(lia)). pose proof (Z.mod_pos_bound x 16 ltac:(lia)). pose proof (Z.mod_pos_bound y 16 ltac:(lia)). lia.
Qed.

Lemma adv_all owner writeFn path t d' t' l :
  adv owner writeFn path (fun _ => false) t d' t' l ↔ wrote owner writeFn (fun q t1 => node_at t' q t1 ∧ d' q = true) path l.
Proof. split; [intros [W _] | intros W; split; [| done]]; (eapply wrote_iff; [| exact W]); cbn; intros q x; tauto. Qed.

(** What a stack trie stands for that has done the writes [l] *)
Definition st_is (st : StackTrie) (a : tree) (l : list write) : Prop :=
  (st_root st = emptyNode ∧ a = TNil ∧ l = []) ∨
  (strep (st_root st) a ∧ live (st_root st) ∧ wf a ∧ wrote (st_owner st) (st_writeFn st) (fun q t => node_at a q t ∧ dead (st_root st) q = true) [] l).

Lemma st_is_wf st a l : st_is st a l → wf_root a.
Proof. intros [(_ & -> & _) | (_ & _ & ? & _)]; [by left | by right]. Qed.

Lemma take_hex key : take (length (keybytesToHex key) - 1) (keybytesToHex key) = unpack key.
Proof. unfold keybytesToHex. change (concat (map _ key)) with (unpack key). rewrite length_app. cbn. rewrite Nat.add_sub. apply take_app_length. Qed.

Lemma above_hex a m key : holds a m → map_Forall (fun k _ => klt k key) m → above (unpack key) a.
Proof.
  intros [H1 H2] Hm k v Hk Hv. destruct (H2 _ v (nibbles_tkey k Hk) Hv) as (key' & Hb & E). rewrite E, H1 in Hv by done.
  apply app_inj_tail in E as [-> _]. apply klt_unpack. by apply (Hm key' v).
Qed.

Lemma st_Update_ok st a l0 l m key v : st_is st a l → holds a m → keys_bounded m → bytes_ok key → value_ok v → map_Forall (fun k _ => klt k key) m →
  ∃ st' a' l', st_Update hb key v st l0 = Ok (st', l0 ++ l') ∧ st_owner st' = st_owner st ∧ st_writeFn st' = st_writeFn st ∧ st_is st' a' (l ++ l') ∧ holds a' (<[key := v]> m).
Proof.
  intros Hst Hh Hm Hk Hv Hab. pose proof (holds_bounded a m Hh Hm) as Hbd. unfold st_Update. destruct (Z.eqb_spec (len v) 0) as [E | _]; [by destruct v; [destruct Hv |] |]. rewrite take_hex.
  destruct Hst as [(Er & -> & ->) | (Hr & Hl & Hw & HW)].
  - rewrite Er. cbn [st_insert mbind outcome_bind]. eexists _, (TShort (unpack key ++ [16]) (TVal v)), []. rewrite app_nil_r. split_and!; [done | done | done | right | ].
    + cbn. split_and!; [constructor | constructor | constructor; [by apply unpack_nibbles | done] |]. apply wrote_nil. by intros q t [_ ?].
    + apply (holds_upd TNil _ m key (Some v)); [done | done |]. apply grown_nil; [by apply hex_tkey | done].
  - destruct (all_inserts hb Hhb (st_owner st) (st_writeFn st) (st_root st) a (unpack key) v [] l0 Hr Hl Hw Hbd (unpack_nibbles key Hk) Hv (above_hex a m key Hh Hab))
      as (s' & a' & l' & -> & Hr' & Hl' & Hg & Hadv & _). cbn [mbind outcome_bind]. eexists _, a', l'. split_and!; [done | done | done | right |].
    + cbn. destruct Hg as (Hf & Hn & _). split_and!; [done | done | by apply (fits_wf a' (keybytesToHex key)); [| apply hex_tkey |] |].
      apply (adv_all _ _ _ TNil), (adv_trans _ _ _ _ _ (dead (st_root st)) a); [by apply adv_all | done].
    + apply (holds_upd a a' m key (Some v)); [done | done | apply Hg].
Qed.

Lemma ref_val_root t : wf t → (if len (ref_val t) =? 32 then ref_val t else sum256 (ref_val t)) = tree_root t.
Proof.
  intros Hw. assert (tree_root t = sum256 (tree_enc t)) as -> by by destruct Hw. unfold ref_val. destruct (Z.ltb_spec (len (tree_enc t)) 32) as [Hlt | Hge].
  - by rewrite (proj2 (Z.eqb_neq _ _)) by lia.
  - by rewrite sum256_length.
Qed.

Lemma st_Hash_ok st a l0 l : st_is st a l → bounded a → ∃ st' l', st_Hash hb st l0 = Ok (tree_root a, st', l0 ++ l').
Proof.
  intros [(Er & -> & ->) | (Hr & Hl & Hw & HW)] Hbd; unfold st_Hash.
  - rewrite Er. cbn [hashRec mbind outcome_bind]. eexists _, []. rewrite app_nil_r. by replace (len EmptyRootHash) with 32 by (unfold EmptyRootHash; by rewrite length_be_bytes).
  - destruct (hashRec_hashes hb Hhb (st_owner st) (st_writeFn st) (st_root st) a [] l0 Hr Hw Hbd) as (l' & -> & W). cbn [mbind outcome_bind]. rewrite ref_val_root by done. by eexists _, l'.
Qed.

(** The database after the calls of the write function, by path *)
Definition disk_of (l : list write) : gmap bytes bytes := foldl (fun d (w : write) => let '(_, path, _, blob) := w in <[path := blob]> d) ∅ l.

Lemma stored_node a q b : wf a →
  stored_blob a q = Some b ↔ (∃ t, node_at a q t ∧ b = tree_enc t) ∨ (q = [] ∧ len (tree_enc a) < 32 ∧ b = tree_enc a).
Proof.
  intros Hw. assert (Hn : ∀ t, wf t → is_node t = true) by (by intros t []). split.
  - intros Hb. pose proof Hb as Hb0. apply (stored_blob_Some hb Hhb) in Hb0 as (t & Hs & Ht & Hbig). rewrite (stored_blob_big a q t Hs Ht Hbig) in Hb. injection Hb as <-.
    assert (Hwt : wf t) by (by apply (sub_wf a q t)). destruct (Z.ltb_spec (len (tree_enc t)) 32) as [Hlt | Hge]; [right | left; by exists t].
    destruct Hbig as [-> | Hbig]; [| lia]. rewrite sub_nil in Hs. by injection Hs as ->.
  - intros [(t & (Hs & Hwt & Hge) & ->) | (-> & _ & ->)]; apply stored_blob_big; [done | by apply Hn | by right | by apply sub_nil | by apply Hn | by left].
Qed.

Lemma st_Commit_ok st a l : st_is st a l → bounded a → st_writeFn st = true →
  ∃ st' l', st_Commit hb st l = Ok (Some (tree_root a), st', l') ∧ ∀ w, w ∈ l' ↔ ∃ q b, stored_blob a q = Some b ∧ w = (st_owner st, q, sum256 b, b).
Proof.
  intros Hst Hbd Hwf. unfold st_Commit. rewrite Hwf. cbn [negb]. destruct Hst as [(Er & -> & ->) | (Hr & Hl & Hw & HW)].
  - rewrite Er. cbn [hashRec mbind outcome_bind]. replace (len EmptyRootHash) with 32 by (unfold EmptyRootHash; by rewrite length_be_bytes).
    eexists _, []. split; [done |]. intros w. split; [by intros ?%not_elem_of_nil | intros ([| ? ?] & ? & ? & _); done].
  - rewrite Hwf in HW. destruct (hashRec_hashes hb Hhb (st_owner st) true (st_root st) a [] l Hr Hw Hbd) as (l' & -> & W). cbn [mbind outcome_bind].
    assert (HA : wrote (st_owner st) true (node_at a) [] (l ++ l')).
    { eapply wrote_iff; [| exact (wrote_app _ _ _ _ _ _ _ HW W)]. intros q t. cbn. destruct (dead (st_root st) q); intuition congruence. }
    cbn in HA. pose proof (ref_val_root a Hw) as Hroot. destruct (Z.eqb_spec (len (ref_val a)) 32) as [E | E]; rewrite Hroot; (eexists _, _; split; [done |]); intros w.
    + rewrite HA. unfold ref_val in E. split.
      * intros (q & t & Ht & ->). exists q, (tree_enc t). rewrite stored_node by done. split; [left; by exists t | done].
      * intros (q & b & Hb & ->). apply (stored_node _ _ _ Hw) in Hb as [(t & Ht & ->) | (_ & Hlt & _)]; [by exists q, t |].
        rewrite (proj2 (Z.ltb_lt _ _)) in E by done. lia.
    + assert (Er : tree_root a = sum256 (tree_enc a)) by by destruct Hw.
      assert (Hlt : len (tree_enc a) < 32) by (unfold ref_val in E; destruct (Z.ltb_spec (len (tree_enc a)) 32); [done | by rewrite sum256_length in E]).
      rewrite elem_of_app, HA, list_elem_of_singleton. cbn [st_owner]. unfold ref_val. rewrite (proj2 (Z.ltb_lt _ _)), Er by done. split.
      * intros [(q & t & Ht & ->) | ->]; eexists _, _; (split; [apply stored_node; [done |] | done]); [left; by exists t | by right].
      * intros (q & b & Hb & ->). apply (stored_node _ _ _ Hw) in Hb as [(t & Ht & ->) | (-> & _ & ->)]; [left; by exists q, t | by right].
Qed.

Lemma disk_of_spec (o : bytes) (f : bytes → option bytes) l : (∀ w, w ∈ l ↔ ∃ q b, f q = Some b ∧ w = (o, q, sum256 b, b)) → ∀ q, disk_of l !! q = f q.
Proof.
  intros Hl. assert (Hgen : ∀ q, match disk_of l !! q with Some b => (o, q, sum256 b, b) ∈ l | None => ∀ b, (o, q, sum256 b, b) ∉ l end).
  { assert (Hsub : ∀ w, w ∈ l → ∃ q b, w = (o, q, sum256 b, b)) by (intros w (q & b & _ & ->)%Hl; by exists q, b). clear Hl. unfold disk_of. induction l as [| w l IH] using rev_ind; intros q.
    - cbn. rewrite lookup_empty. intros b ?%not_elem_of_nil. done.
    - rewrite foldl_app. cbn [foldl]. destruct (Hsub w) as (q' & b & ->); [apply elem_of_app; right; by apply list_elem_of_singleton |].
      destruct (decide (q' = q)) as [-> | Hne]; [rewrite lookup_insert_eq; apply elem_of_app; right; by apply list_elem_of_singleton | rewrite lookup_insert_ne by done].
      specialize (IH ltac:(intros w Hw; apply Hsub, elem_of_app; by left) q). destruct (foldl _ _ l !! q) as [b' |]; [apply elem_of_app; by left |].
      intros b' [Hb | Hb%list_elem_of_singleton]%elem_of_app; [by apply (IH b') | by injection Hb as ->]. }
  intros q. specialize (Hgen q). destruct (disk_of l !! q) as [b |].
  - apply Hl in Hgen as (q' & b' & Hf & [= -> _ ->]). done.
  - destruct (f q) as [b |] eqn:E; [| done]. destruct (Hgen b). apply Hl. by exists q, b.
Qed.

(** A key and a value that may come into a stack trie *)
Definition entry_ok (p : bytes * bytes) : Prop := bytes_ok p.1 ∧ len p.1 < 2 ^ 54 ∧ value_ok p.2.

Definition map_of (kvs : list (bytes * bytes)) (m : gmap bytes bytes) : gmap bytes bytes := foldl (fun m p => <[p.1 := p.2]> m) m kvs.

Lemma holds_empty : holds TNil ∅.
Proof. split; [intros key Hk; by rewrite lookup_empty | by intros [| ? ?] v _]. Qed.

Lemma st_Updates_ok kvs : ∀ st a l m, st_is st a l → holds a m → keys_bounded m → Forall entry_ok kvs →
  StronglySorted (fun p q => klt p.1 q.1) kvs → Forall (fun p => map_Forall (fun k _ => klt k p.1) m) kvs →
  ∃ st' a' l', st_Updates hb kvs st l = Ok (st', l') ∧ st_owner st' = st_owner st ∧ st_writeFn st' = st_writeFn st ∧ st_is st' a' l' ∧
    holds a' (map_of kvs m) ∧ keys_bounded (map_of kvs m).
Proof.
  induction kvs as [| [k v] kvs IH]; intros st a l m Hst Hh Hm Hok Hsorted Hab; cbn [st_Updates map_of foldl]; [by exists st, a, l |].
  apply Forall_cons in Hok as [(Hk & Hlen & Hv) Hok]. apply Forall_cons in Hab as [Habk Hab]. cbn in Hk, Hlen, Hv, Habk. inversion Hsorted as [| ? ? Hs2 Hlt]; subst.
  destruct (st_Update_ok st a l l m k v Hst Hh Hm Hk Hv Habk) as (st1 & a1 & l1 & -> & Ho & Hwf & Hst1 & Hh1). cbn [mbind outcome_bind].
  destruct (IH st1 a1 (l ++ l1) (<[k := v]> m) Hst1 Hh1) as (st2 & a2 & l2 & E & Ho2 & Hwf2 & H2); [by apply map_Forall_insert_2 | done | done | |].
  - apply Forall_forall. intros p Hp. apply map_Forall_insert_2; [by apply (proj1 (Forall_forall _ _) Hlt) | by apply (proj1 (Forall_forall _ _) Hab)].
  - exists st2, a2, l2. split_and!; [done | congruence | congruence | apply H2..].
Qed.

(** C20.  Keys in increasing order, none a prefix of another, are accepted without
    a panic; the commit then returns the root hash that Trie.Hash gives for the same
    contents, and the calls of the write function, made while subtries are hashed and at
    the end, leave in an empty database exactly the stored nodes of the trie, each with
    its own hash and the owner. *)
Theorem StackTrie_Commit_exact owner kvs :
  Forall entry_ok kvs → StronglySorted (fun p q => klt p.1 q.1) kvs →
  ∃ a st l st' l', st_Updates hb kvs (NewStackTrieWithOwner true owner) [] = Ok (st, l) ∧ st_Commit hb st l = Ok (Some (tree_root a), st', l') ∧
    wf_root a ∧ holds a (map_of kvs ∅) ∧ disk_is (disk_of l') a ∧ Forall (fun w : write => ∃ q b, w = (owner, q, sum256 b, b)) l' ∧
    ∀ t, represents t (map_of kvs ∅) → (Hash hb t).1 = Ok (tree_root a).
Proof.
  intros Hok Hsorted. destruct (st_Updates_ok kvs (NewStackTrieWithOwner true owner) TNil [] ∅) as (st & a & l & E & Ho & Hwf & Hst & Hh & Hm); [by left | apply holds_empty | apply map_Forall_empty | done | done | |].
  - apply Forall_forall. intros p _. apply map_Forall_empty.
  - pose proof (holds_bounded _ _ Hh Hm) as Hbd. destruct (st_Commit_ok st a l Hst Hbd Hwf) as (st' & l' & Ec & Hl). rewrite Ho in Hl. exists a, st, l, st', l'.
    split_and!; [done | done | by eapply st_is_wf | done | exact (disk_of_spec owner (stored_blob a) l' Hl) | |].
    + apply Forall_forall. intros w Hw. apply Hl in Hw as (q & b & _ & ->). by exists q, b.
    + intros t (a0 & a1 & Ht & Hh1). assert (a1 = a) as -> by (eapply holds_canonical; [apply Ht | by eapply st_is_wf | done | done]).
      destruct (Hash_ok hb Hhb t a0 a _ (conj Ht Hh1) Hbd) as (t' & -> & _). done.
Qed.
End Build.

(** ** Example *)

Definition demo_kvs : list (bytes * bytes) := [([18; 52], [1]); ([18; 53], repeat 7 40); ([18; 53 + 16], repeat 8 40); ([200; 1], [3])].

Lemma StackTrie_Commit_exact_witness :
  ∃ a st l st' l', @st_Updates toy_hash example_buf demo_kvs (NewStackTrieWithOwner true (repeat 5 32)) [] = Ok (st, l) ∧
    @st_Commit toy_hash example_buf st l = Ok (Some (@tree_root toy_hash a), st', l') ∧ holds a (map_of demo_kvs ∅) ∧ @disk_is toy_hash (disk_of l') a.
Proof.
  destruct (@StackTrie_Commit_exact toy_hash toy_hash_laws example_buf eq_refl (repeat 5 32) demo_kvs) as (a & st & l & st' & l' & E & Ec & _ & Hh & Hd & _).
  - repeat (apply Forall_cons; split; [unfold entry_ok, value_ok; split_and!; [solve_bytes | by vm_compute | by vm_compute | solve_bytes | by vm_compute] |]). constructor.
  - repeat (apply SSorted_cons; [| repeat (apply Forall_cons; split; [apply klt_lt; by vm_compute |]); constructor]). constructor.
  - exists a, st, l, st', l'. exact (conj E (conj Ec (conj Hh Hd))).
Defined.
