(* ===== verification/DeriveSha.v ===== *)
(** * The roots of lists: DeriveSha of core/types/hashing.go and the lists of a block

    A header commits to the transactions, the receipts and the withdrawals of its block
    by the root hash of a trie from indexes to encodings.  DeriveSha works on any list
    that can encode its items and with any hasher: the two interfaces are classes, and
    what DeriveSha relies on is stated as laws of the hasher, which the stack trie
    fulfils.  The theorem: the result is the root hash that Trie.Hash gives for the same
    contents. *)

From Stdlib Require Import Sorting.Sorted.
From S2P Require Import Prelude RlpRaw RlpEncode TrieEncoding TrieNode TrieSpec TrieUpdate TrieStore TrieOps TriePaths TrieRefine TrieHash TrieCommit StackTrie.
#[local] Set Warnings "-register-all".

(** ** The interfaces *)

Class TrieHasher (T : Type) := {
  th_Reset : T → T;
  th_Update : bytes → bytes → T → outcome Empty_set (option trie_error * T);
  th_Hash : T → outcome Empty_set (bytes * T)
}.

Class DerivableList (L : Type) := {
  dl_Len : L → Z;
  EncodeIndex : L → Z → bytes → outcome Empty_set bytes
}.

Section DeriveSha.
  Context {T L : Type} `{!TrieHasher T} `{!DerivableList L} (list_ : L).

(** The buffer is reset, so the item is written to an empty one. *)
Definition encodeForDerive (i : Z) : outcome Empty_set bytes := EncodeIndex list_ i [].

(** The body of the loops; the error of Update is dropped. *)
Definition derive_item (i : Z) (hasher : T) : outcome Empty_set T :=
  let indexBuf := AppendUint64 [] (u64 i) in
  value ← encodeForDerive i;
  '(_, hasher) ← th_Update indexBuf value hasher;
  Ok hasher.

Fixpoint derive_loop (fuel : nat) (cond : Z → bool) (i : Z) (hasher : T) : outcome Empty_set T :=
  if cond i then
    match fuel with
    | O => OutOfFuel
    | S fuel => hasher ← derive_item i hasher; derive_loop fuel cond (i + 1) hasher
    end
  else Ok hasher.

Definition DeriveSha (hasher : T) : outcome Empty_set (bytes * T) :=
  let n := dl_Len list_ in
  let hasher := th_Reset hasher in
  hasher ← derive_loop (Z.to_nat n) (fun i => (i <? n) && (i <=? 0x7f)) 1 hasher;
  hasher ← (if 0 <? n then derive_item 0 hasher else Ok hasher);
  hasher ← derive_loop (Z.to_nat n) (fun i => i <? n) 0x80 hasher;
  th_Hash hasher.
End DeriveSha.

(** ** The hashers *)

(** The results of the encoders of nodes, which have no errors here *)
Definition never {A E} (o : outcome E A) : outcome Empty_set A := match o with Ok x => Ok x | Err _ | Panic => Panic | OutOfFuel => OutOfFuel end.

#[export] Instance StackTrie_TrieHasher `{HF : Hasher} (hb : encBuffer) : TrieHasher (StackTrie * list write) := {
  th_Reset := fun '(st, l) => (st_Reset st, l);
  th_Update := fun key value '(st, l) => '(st, l) ← never (st_Update hb key value st l); Ok (None, (st, l));
  th_Hash := fun '(st, l) => '(h, st, l) ← never (st_Hash hb st l); Ok (h, (st, l))
}.

(** Trie.Reset keeps the reader. *)
Definition Trie_Reset (t : Trie) : Trie := MkTrie NilNode zero_hash false 0 (t_reader t) newTracer.

#[export] Instance Trie_TrieHasher `{HF : Hasher} (hb : encBuffer) : TrieHasher Trie := {
  th_Reset := Trie_Reset;
  th_Update := fun key value t =>
    match Update t key value with
    | (Ok _, t) => Ok (None, t)
    | (Err e, t) => Ok (Some e, t)
    | (Panic, _) => Panic
    | (OutOfFuel, _) => OutOfFuel
    end;
  th_Hash := fun t => match Hash hb t with (Ok h, t) => Ok (h, t) | (Err _, _) | (Panic, _) => Panic | (OutOfFuel, _) => OutOfFuel end
}.

(** What a hasher promises: it takes keys in increasing order, and its hash is the root
    hash of the trie of what it took.  [th_valid] says when it can be reset. *)
Class TrieHasherLaws (T : Type) `{HF : Hasher} `{!TrieHasher T} := {
  th_valid : T → Prop;
  th_contains : T → gmap bytes bytes → Prop;
  th_Reset_empty : ∀ t, th_valid t → th_contains (th_Reset t) ∅;
  th_Update_next : ∀ t m key v, th_contains t m → keys_bounded m → entry_ok (key, v) → map_Forall (fun k _ => klt k key) m →
    ∃ t', th_Update key v t = Ok (None, t') ∧ th_contains t' (<[key := v]> m);
  th_Hash_root : ∀ t m, th_contains t m → keys_bounded m → ∃ a t', th_Hash t = Ok (tree_root a, t') ∧ wf_root a ∧ holds a m
}.

#[export] Instance StackTrie_Laws `{HF : Hasher} `{HL : !HasherLaws} (hb : encBuffer) (Hhb : length (sizebuf hb) = 9%nat) : @TrieHasherLaws _ HF (StackTrie_TrieHasher hb).
Proof.
  refine {| th_valid := fun _ => True; th_contains := fun '(st, l) m => ∃ a l0, st_is st a l0 ∧ holds a m |}.
  - intros [st l] _. exists TNil, []. split; [by left | apply holds_empty].
  - intros [st l] m key v (a & l0 & Hst & Hh) Hm (Hk & Hl & Hv) Hab. destruct (st_Update_ok hb Hhb st a l l0 m key v Hst Hh Hm Hk Hv Hab) as (st' & a' & l' & E & _ & _ & Hst' & Hh').
    exists (st', l ++ l'). cbn. rewrite E. split; [done |]. by exists a', (l0 ++ l').
  - intros [st l] m (a & l0 & Hst & Hh) Hm. destruct (st_Hash_ok hb Hhb st a l l0 Hst (holds_bounded _ _ Hh Hm)) as (st' & l' & E).
    exists a, (st', l ++ l'). cbn. rewrite E. split_and!; [done | by eapply st_is_wf | done].
Defined.

#[export] Instance Trie_Laws `{HF : Hasher} `{HL : !HasherLaws} (hb : encBuffer) (Hhb : length (sizebuf hb) = 9%nat) : @TrieHasherLaws _ HF (Trie_TrieHasher hb).
Proof.
  refine {| th_valid := fun t => rd_owner (t_reader t) = zero_hash; th_contains := represents_over TNil |}.
  - intros t Ht. change (th_Reset t) with (Trie_Reset t). unfold Trie_Reset. rewrite <- Ht. apply empty_represents.
  - intros t m key v Hr Hm (Hk & _ & Hne & Hv & Hs) _. destruct (Update_ok t TNil m key v Hr Hk Hv Hs) as (t' & E & _ & Hr'). exists t'. cbn. rewrite E. split; [done |]. by rewrite decide_False in Hr'.
  - intros t m [a Ha] Hm. pose proof Ha as [Ht Hh]. destruct (Hash_ok hb Hhb t TNil a m Ha (holds_bounded _ _ Hh Hm)) as (t' & E & _). exists a, t'. cbn. rewrite E. split_and!; [done | apply Ht | done].
Defined.

(** ** The order of the indexes *)

Definition index_key (i : Z) : bytes := AppendUint64 [] (u64 i).

(** The order in which DeriveSha inserts: 0 comes between 127 and 128. *)
Definition index_rank (i : Z) : Z := if i =? 0 then 0x7f else if i <=? 0x7f then i - 1 else i.

Lemma klt_be a : ∀ b, bytes_ok a → bytes_ok b → length a = length b → be_val a < be_val b → klt a b.
Proof.
  induction a as [| x a IH]; intros [| y b] Ha Hb Hl Hlt; [cbn in Hlt; lia | done | done |]. injection Hl as Hl.
  apply Forall_cons in Ha as [Hx Ha]. apply Forall_cons in Hb as [Hy Hb]. rewrite !be_val_cons in Hlt. apply klt_cons.
  pose proof (be_val_bound a Ha) as Ba. pose proof (be_val_bound b Hb) as Bb. rewrite <- Hl in *.
  destruct (Z.lt_trichotomy x y) as [? | [-> | ?]]; [by left | right | nia]. split; [done |]. apply IH; [done | done | done | lia].
Qed.

(** The key of an index, by its size *)
Lemma index_key_cases i : 0 <= i < 2 ^ 63 →
  (i = 0 ∧ index_key i = [0x80]) ∨ (0 < i < 128 ∧ index_key i = [i]) ∨
  (128 <= i ∧ ∃ n, (1 <= n <= 8)%nat ∧ i < 256 ^ Z.of_nat n ∧ (n = 1%nat ∨ 256 ^ (Z.of_nat n - 1) <= i) ∧ index_key i = 0x80 + Z.of_nat n :: be_bytes n i).
Proof.
  intros Hi. unfold index_key. rewrite (u64_id i) by lia. rewrite AppendUint64_spec by lia. cbn [app].
  destruct (decide (i = 0)) as [-> | Hne]; [left; split; [done | by vm_compute] | right]. destruct (decide (i < 128)) as [Hlt | Hge]; [left; split; [lia | by apply enc_uint_small; lia] | right].
  split; [lia |]. rewrite enc_uint_large by lia. destruct (intsize_exists i ltac:(lia)) as (n & -> & Hn & Hub & Hlb). exists (Z.to_nat n). rewrite Z2Nat.id by lia.
  split_and!; [lia | lia | done | destruct Hlb as [-> | ?]; [by left | by right] | done].
Qed.

Lemma klt_keys i j : 0 <= i < 2 ^ 63 → 0 <= j < 2 ^ 63 → index_rank i < index_rank j → klt (index_key i) (index_key j).
Proof.
  intros Hi Hj. unfold index_rank.
  destruct (index_key_cases i Hi) as [(-> & ->) | [(Hi1 & ->) | (Hi1 & n & Hn & Hub & Hlbi & ->)]], (index_key_cases j Hj) as [(-> & ->) | [(Hj1 & ->) | (Hj1 & k & Hk & Hub' & _ & ->)]];
    repeat case_if; zb; intros Hr; try lia; apply klt_cons; try (left; lia).
  destruct (lt_eq_lt_dec n k) as [[Hlt | ->] | Hgt]; [left; lia | right |].
  - split; [done |]. apply klt_be; [apply be_bytes_ok | apply be_bytes_ok | by rewrite !length_be_bytes | rewrite !be_val_be_bytes; lia].
  - destruct Hlbi as [-> | Hlbi]; [lia |]. pose proof (Z.pow_le_mono_r 256 (Z.of_nat k) (Z.of_nat n - 1) ltac:(lia) ltac:(lia)). lia.
Qed.

Lemma klt_irrefl a : ¬ klt a a.
Proof. intros (m & x & y & r & s & -> & E & Hlt). apply app_inv_head in E. injection E as -> _. lia. Qed.

Lemma index_key_inj i j : 0 <= i < 2 ^ 63 → 0 <= j < 2 ^ 63 → index_key i = index_key j → i = j.
Proof.
  intros Hi Hj E. destruct (Z.lt_trichotomy (index_rank i) (index_rank j)) as [Hlt | [Hr | Hgt]].
  - pose proof (klt_keys i j Hi Hj Hlt) as H. rewrite E in H. by apply klt_irrefl in H.
  - unfold index_rank in Hr. repeat case_if; zb; lia.
  - pose proof (klt_keys j i Hj Hi Hgt) as H. rewrite E in H. by apply klt_irrefl in H.
Qed.

Lemma index_key_ok i : 0 <= i < 2 ^ 63 → bytes_ok (index_key i) ∧ len (index_key i) <= 9.
Proof.
  intros Hi. destruct (index_key_cases i Hi) as [(_ & ->) | [(? & ->) | (_ & n & Hn & _ & _ & ->)]]; [split; [repeat constructor; unfold is_byte; lia | cbn; lia].. |].
  split; [constructor; [unfold is_byte; lia | apply be_bytes_ok] | rewrite len_cons, length_be_bytes; lia].
Qed.

(** ** The contents of a list *)

(** The trie of a list: the encoding of each item under the encoding of its index *)
Definition index_map (items : list bytes) : gmap bytes bytes := list_to_map (imap (fun i x => (index_key (Z.of_nat i), x)) items).

Section Items.
  Context (items : list bytes) (Hn : len items < 2 ^ 63).

(** The indexes in [P] have been taken. *)
Definition taken (P : Z → Prop) (m : gmap bytes bytes) : Prop :=
  ∀ key v, m !! key = Some v ↔ ∃ i, P i ∧ 0 <= i ∧ items !! Z.to_nat i = Some v ∧ key = index_key i.

Lemma item_range i v : 0 <= i → items !! Z.to_nat i = Some v → i < len items.
Proof. intros Hi Hv. apply lookup_lt_Some in Hv. lia. Qed.

Lemma index_map_taken : taken (fun _ => True) (index_map items).
Proof.
  intros key v. unfold index_map. rewrite <- elem_of_list_to_map.
  - rewrite elem_of_lookup_imap. split.
    + intros (i & x & [= -> ->] & Hi). exists (Z.of_nat i). rewrite Nat2Z.id. split_and!; [done | lia | done | done].
    + intros (i & _ & Hi & Hv & ->). exists (Z.to_nat i), v. by rewrite Z2Nat.id.
  - rewrite fmap_imap. apply NoDup_alt. intros i j x Hi Hj. rewrite list_lookup_imap in Hi, Hj.
    destruct (items !! i) as [vi |] eqn:Ei, (items !! j) as [vj |] eqn:Ej; try done. cbn in Hi, Hj. rewrite <- Hj in Hi. injection Hi as E.
    apply lookup_lt_Some in Ei, Ej. apply index_key_inj in E; lia.
Qed.

Lemma taken_unique P Q m m' : (∀ i, 0 <= i < len items → P i ↔ Q i) → taken P m → taken Q m' → m = m'.
Proof.
  intros HPQ H H'. apply map_eq. intros key. apply option_eq. intros v. rewrite (H key v), (H' key v).
  split; intros (i & Hi & H0 & Hv & ->); exists i; (split_and!; [apply HPQ; [split; [done | by eapply item_range] | done] | done | done | done]).
Qed.

Lemma taken_bounded P m : taken P m → keys_bounded m.
Proof. intros H key v Hk. apply H in Hk as (i & _ & Hi & Hv & ->). pose proof (item_range i v Hi Hv). destruct (index_key_ok i ltac:(lia)) as [_ ?]. lia. Qed.

Lemma taken_insert P m i v : taken P m → 0 <= i → items !! Z.to_nat i = Some v → taken (fun j => P j ∨ j = i) (<[index_key i := v]> m).
Proof.
  intros H Hi Hv key w. pose proof (item_range i v Hi Hv) as Hr. rewrite lookup_insert_Some, (H key w). split.
  - intros [[<- <-] | (Hne & j & Hj & H0 & Hw & ->)]; [exists i; by auto | exists j; by auto].
  - intros (j & [Hj | ->] & H0 & Hw & ->); [| left; rewrite Hv in Hw; by injection Hw as <-]. destruct (decide (i = j)) as [<- | Hne]; [left; rewrite Hv in Hw; by injection Hw as <- | right].
    pose proof (item_range j w H0 Hw). split; [intros E; apply index_key_inj in E; lia | by exists j].
Qed.
End Items.

Section Root.
  Context `{HF : Hasher} {T L : Type} `{!TrieHasher T} `{TL : !TrieHasherLaws T} `{!DerivableList L}.

(** [items] are the encodings of the list. *)
Definition encodes (l : L) (items : list bytes) : Prop :=
  dl_Len l = len items ∧ ∀ i x, items !! i = Some x → EncodeIndex l (Z.of_nat i) [] = Ok x.

Context (l : L) (items : list bytes) (Hl : encodes l items) (Hok : Forall value_ok items) (Hn : len items < 2 ^ 63).

Lemma derive_item_ok P t m i : th_contains t m → taken items P m → 0 <= i < len items → (∀ j, P j → 0 <= j < len items → index_rank j < index_rank i) →
  ∃ t' m', derive_item l i t = Ok t' ∧ th_contains t' m' ∧ taken items (fun j => P j ∨ j = i) m'.
Proof.
  intros Ht Hm Hi Hrank. destruct (lookup_lt_is_Some_2 items (Z.to_nat i)) as [v Hv]; [lia |]. unfold derive_item, encodeForDerive.
  pose proof (proj2 Hl _ _ Hv) as E. rewrite Z2Nat.id in E by lia. rewrite E. cbn [mbind outcome_bind]. fold (index_key i).
  destruct (index_key_ok i ltac:(lia)) as [Hkb Hkl]. rewrite Forall_lookup in Hok.
  destruct (th_Update_next t m (index_key i) v Ht (taken_bounded items Hn P m Hm)) as (t' & Eu & Ht').
  - split_and!; [done | cbn; lia | by apply (Hok (Z.to_nat i))].
  - intros key w Hk. apply Hm in Hk as (j & Hj & H0 & Hw & ->). pose proof (item_range items j w H0 Hw). apply klt_keys; [lia | lia | by apply Hrank].
  - exists t', (<[index_key i := v]> m). rewrite Eu. split_and!; [done | done |]. apply taken_insert; [done | done | lia | done].
Qed.

Lemma derive_loop_ok cond lo hi : 0 <= lo → hi <= len items → (∀ i, lo <= i → cond i = (i <? hi)) → (∀ i j, lo <= i < j → j < hi → index_rank i < index_rank j) →
  ∀ fuel i P t m, lo <= i → hi - i <= Z.of_nat fuel → th_contains t m → taken items (fun j => P j ∨ lo <= j < i) m →
    (∀ j k, P j → 0 <= j < len items → lo <= k < hi → index_rank j < index_rank k) →
  ∃ t' m', derive_loop l fuel cond i t = Ok t' ∧ th_contains t' m' ∧ taken items (fun j => P j ∨ lo <= j < Z.max i hi) m'.
Proof.
  intros Hlo Hhi Hcond Hmono. induction fuel as [| fuel IH]; intros i P t m Hi Hfuel Ht Hm Hrank; cbn [derive_loop]; rewrite Hcond by done.
  - rewrite (proj2 (Z.ltb_ge i hi)) by lia. exists t, m. rewrite Z.max_l by lia. done.
  - destruct (Z.ltb_spec i hi) as [Hlt | Hge]; [| exists t, m; rewrite Z.max_l by lia; done].
    destruct (derive_item_ok _ t m i Ht Hm ltac:(lia)) as (t1 & m1 & -> & Ht1 & Hm1); [intros j [Hj | Hj] Hr; [apply Hrank; [done | done | lia] | apply Hmono; lia] |]. cbn [mbind outcome_bind].
    destruct (IH (i + 1) P t1 m1 ltac:(lia) ltac:(lia) Ht1) as (t2 & m2 & E & Ht2 & Hm2); [| done | exists t2, m2; rewrite Z.max_r in * by lia; done].
    intros key v. rewrite (Hm1 key v). split; intros (j & Hj & Hr); exists j; (split; [| done]); [destruct Hj as [[? | ?] | ?]; [by left | right; lia | right; lia] | destruct Hj as [? | ?]; [by left; left |]; destruct (decide (j = i)); [by right | left; right; lia]].
Qed.

Lemma DeriveSha_ok t : th_valid t → ∃ a t', DeriveSha l t = Ok (tree_root a, t') ∧ wf_root a ∧ holds a (index_map items).
Proof.
  intros Hv. unfold DeriveSha. rewrite (proj1 Hl). pose proof (th_Reset_empty t Hv) as Ht0.
  destruct (derive_loop_ok (fun i => (i <? len items) && (i <=? 0x7f)) 1 (Z.min (len items) 128) ltac:(lia) ltac:(lia)) with (fuel := Z.to_nat (len items)) (i := 1) (P := fun _ : Z => False) (t := th_Reset t) (m := ∅ : gmap bytes bytes)
    as (t1 & m1 & -> & Ht1 & Hm1); [| | lia | lia | done | | done |].
  - intros i Hi. destruct (Z.ltb_spec i (len items)), (Z.leb_spec i 0x7f), (Z.ltb_spec i (Z.min (len items) 128)); lia || done.
  - intros i j Hij Hj. unfold index_rank. repeat case_if; zb; lia.
  - intros key v. rewrite lookup_empty. split; [done |]. intros (i & [[] | ?] & _). lia.
  - cbn [mbind outcome_bind].
    assert (Hzero : ∃ t2 m2, (if 0 <? len items then derive_item l 0 t1 else Ok t1) = Ok t2 ∧ th_contains t2 m2 ∧ taken items (fun j => 0 <= j < 128) m2).
    { destruct (Z.ltb_spec 0 (len items)) as [Hpos | Hneg].
      - destruct (derive_item_ok _ t1 m1 0 Ht1 Hm1 ltac:(lia)) as (t2 & m2 & E & Ht2 & Hm2); [intros j [[] | Hj] Hr; unfold index_rank; repeat case_if; zb; lia |].
        exists t2, m2. split_and!; [done | done |]. intros key v. rewrite (Hm2 key v). split; intros (i & Hi & H0 & Hx & ->); exists i; pose proof (item_range items i v H0 Hx); (refine (conj _ (conj H0 (conj Hx eq_refl))); cbn beta in *); [destruct Hi as [[[] | ?] | ->]; lia | destruct (decide (i = 0)); [by right | left; right; lia]].
      - exists t1, m1. split_and!; [done | done |]. intros key v. rewrite (Hm1 key v). split; intros (i & Hi & H0 & Hx & ->); pose proof (item_range items i v H0 Hx); lia. }
    destruct Hzero as (t2 & m2 & -> & Ht2 & Hm2). cbn [mbind outcome_bind].
    destruct (derive_loop_ok (fun i => i <? len items) 128 (len items) ltac:(lia) ltac:(lia) ltac:(done)) with (fuel := Z.to_nat (len items)) (i := 128) (P := fun j : Z => 0 <= j < 128) (t := t2) (m := m2)
      as (t3 & m3 & -> & Ht3 & Hm3); [| lia | lia | done | | |].
    + intros i j Hij Hj. unfold index_rank. repeat case_if; zb; lia.
    + intros key v. rewrite (Hm2 key v). split; intros (i & Hi & Hr); exists i; (split; [| done]); lia.
    + intros j k Hj _ Hk. unfold index_rank. repeat case_if; zb; lia.
    + cbn [mbind outcome_bind]. assert (m3 = index_map items) as -> by (eapply taken_unique; [| exact Hm3 | by apply index_map_taken]; intros i Hi; cbn; lia).
      apply th_Hash_root; [done |]. by eapply taken_bounded, index_map_taken.
Qed.
End Root.

(** C24.  DeriveSha, with any hasher that keeps the promises of the interface, always
    returns, and what it returns is the root hash of the trie that has each item of the
    list under its index: the one that Trie.Hash gives, whatever way such a trie was
    made.  So the order of insertion, 1 to 127, 0, 128 and on, is one that the stack trie
    can take. *)
Theorem DeriveSha_root `{HF : Hasher} `{HL : !HasherLaws} {T L : Type} `{!TrieHasher T} `{TL : !TrieHasherLaws T} `{!DerivableList L} (l : L) items (t : T) :
  encodes l items → Forall value_ok items → len items < 2 ^ 63 → th_valid t →
  ∃ a t', DeriveSha l t = Ok (tree_root a, t') ∧ wf_root a ∧ holds a (index_map items) ∧
    ∀ hb tr, length (sizebuf hb) = 9%nat → represents tr (index_map items) → (Hash hb tr).1 = Ok (tree_root a).
Proof.
  intros Hl Hok Hn Hv. destruct (DeriveSha_ok l items Hl Hok Hn t Hv) as (a & t' & E & Hw & Hh). exists a, t'. split_and!; [done | done | done |].
  intros hb tr Hhb (a0 & a1 & Ht & Hh1). assert (a1 = a) as -> by (eapply holds_canonical; [apply Ht | done | done | done]).
  assert (Hbd : bounded a) by (eapply holds_bounded; [done | by eapply taken_bounded, index_map_taken]).
  destruct (Hash_ok hb Hhb tr a0 a _ (conj Ht Hh1) Hbd) as (t2 & -> & _). done.
Qed.

(** ** Example: both hashers on a list of byte slices *)

#[local] Instance flatList : DerivableList (list bytes) := {
  dl_Len := fun l => len l;
  EncodeIndex := fun l i w => match l !! Z.to_nat i with Some x => Ok (w ++ x) | None => Panic end
}.

Definition demo_items : list bytes := map (fun i => repeat (Z.of_nat i) 40) (seq 0 130).

Lemma flat_encodes (items : list bytes) : encodes items items.
Proof. split; [done |]. intros i x Hi. unfold EncodeIndex, flatList. by rewrite Nat2Z.id, Hi. Qed.

Lemma demo_encodes : encodes demo_items demo_items ∧ Forall value_ok demo_items.
Proof.
  split; [apply flat_encodes |]. apply Forall_map, Forall_seq. intros i Hi. split_and!; [done | | rewrite repeat_length; lia].
  apply Forall_forall. intros x Hx. apply list_elem_of_In, repeat_spec in Hx as ->. unfold is_byte. lia.
Qed.

Lemma DeriveSha_root_witness :
  ∃ h t1 t2, @DeriveSha _ _ (@StackTrie_TrieHasher toy_hash example_buf) _ demo_items (NewStackTrie false, []) = Ok (h, t1) ∧
    @DeriveSha _ _ (@Trie_TrieHasher toy_hash example_buf) _ demo_items (empty_trie (MkReader zero_hash None None)) = Ok (h, t2).
Proof.
  destruct demo_encodes as [He Hv].
  destruct (@DeriveSha_root toy_hash toy_hash_laws _ _ _ (@StackTrie_Laws toy_hash toy_hash_laws example_buf eq_refl) _ demo_items demo_items (NewStackTrie false, []) He Hv ltac:(by vm_compute) I) as (a & t1 & E1 & Hw1 & Hh1 & _).
  destruct (@DeriveSha_root toy_hash toy_hash_laws _ _ _ (@Trie_Laws toy_hash toy_hash_laws example_buf eq_refl) _ demo_items demo_items (empty_trie (MkReader zero_hash None None)) He Hv ltac:(by vm_compute) eq_refl) as (b & t2 & E2 & Hw2 & Hh2 & _).
  assert (a = b) as <- by exact (holds_canonical a b _ Hw1 Hw2 Hh1 Hh2). exists (@tree_root toy_hash a), t1, t2. exact (conj E1 E2).
Defined.
