(* ===== verification/StateAccess.v ===== *)
(** * The access list: src/core/state/access_list.go

    Addresses with an index into a list of slot sets, or -1 for no slots.
    Removing a slot truncates the list of sets, which is right because the
    journal undoes additions in reverse order; the theorems say that it undoes
    them exactly and that the list is the set of addresses and slots added. *)

From S2P Require Import Prelude.

Record accessList := MkAccessList {
  addresses : gmap bytes Z;
  slots : list (gset bytes)
}.

Definition newAccessList : accessList := MkAccessList ∅ [].

Definition ContainsAddress (al : accessList) (address : bytes) : bool := bool_decide (is_Some (addresses al !! address)).

(** Contains: is the address there, is the slot there. *)
Definition Contains {E} (al : accessList) (address slot : bytes) : outcome E (bool * bool) :=
  match addresses al !! address with
  | None => Ok (false, false)
  | Some idx =>
      if idx =? -1 then Ok (true, false)
      else set ← at_ (slots al) idx; Ok (true, bool_decide (slot ∈ set))
  end.

Definition AddAddress (address : bytes) (al : accessList) : bool * accessList :=
  match addresses al !! address with
  | Some _ => (false, al)
  | None => (true, MkAccessList (<[address := -1]> (addresses al)) (slots al))
  end.

(** AddSlot: was the address added, was the slot added. *)
Definition AddSlot {E} (address slot : bytes) (al : accessList) : outcome E ((bool * bool) * accessList) :=
  let append present :=
    Ok ((negb present, true),
        MkAccessList (<[address := len (slots al)]> (addresses al)) (slots al ++ [{[slot]}])) in
  match addresses al !! address with
  | None => append false
  | Some idx =>
      if idx =? -1 then append true
      else
        slotmap ← at_ (slots al) idx;
        if bool_decide (slot ∈ slotmap) then Ok ((false, false), al)
        else s ← set_at (slots al) idx (slotmap ∪ {[slot]}); Ok ((false, true), MkAccessList (addresses al) s)
  end.

Definition DeleteSlot {E} (address slot : bytes) (al : accessList) : outcome E accessList :=
  match addresses al !! address with
  | None => Panic
  | Some idx =>
      slotmap ← at_ (slots al) idx;
      let slotmap := slotmap ∖ {[slot]} in
      s ← set_at (slots al) idx slotmap;
      if (size slotmap =? 0)%nat then
        s ← slice s 0 idx;
        Ok (MkAccessList (<[address := -1]> (addresses al)) s)
      else Ok (MkAccessList (addresses al) s)
  end.

Definition DeleteAddress (address : bytes) (al : accessList) : accessList :=
  MkAccessList (base.delete address (addresses al)) (slots al).

(** ** The list is well formed *)

(** Indices are -1 or in range, no slot set is empty, and no two addresses share
    a slot set. *)
Record al_ok (al : accessList) : Prop := MkAlOk {
  al_range : ∀ a i, addresses al !! a = Some i → i = -1 ∨ ∃ s, 0 <= i ∧ slots al !! Z.to_nat i = Some s;
  al_nonempty : ∀ i s, slots al !! i = Some s → s ≠ ∅;
  al_inj : ∀ a b i, addresses al !! a = Some i → addresses al !! b = Some i → i ≠ -1 → a = b
}.

(** The list as a map from addresses to slots. *)
Definition slots_at (al : accessList) (i : Z) : gset bytes :=
  if i =? -1 then ∅ else default ∅ (slots al !! Z.to_nat i).

Definition al_view (al : accessList) : gmap bytes (gset bytes) := slots_at al <$> addresses al.

Lemma new_ok : al_ok newAccessList.
Proof. split; cbn; [intros a i; by rewrite lookup_empty | by intros i s | intros a b i; by rewrite lookup_empty]. Qed.

Lemma slots_at_index al i s : 0 <= i → slots al !! Z.to_nat i = Some s → slots_at al i = s.
Proof. intros Hi Hs. unfold slots_at. by rewrite (proj2 (Z.eqb_neq _ _)), Hs by lia. Qed.

Lemma Contains_spec {E} al a s :
  al_ok al → @Contains E al a s =
    Ok (match al_view al !! a with Some set => (true, bool_decide (s ∈ set)) | None => (false, false) end).
Proof.
  intros Hal. unfold Contains, al_view. rewrite lookup_fmap. destruct (addresses al !! a) as [i |] eqn:Ea; [| done]. cbn.
  destruct (al_range _ Hal a i Ea) as [-> | (set & Hi & Hs)].
  - by rewrite Z.eqb_refl, bool_decide_false by apply not_elem_of_empty.
  - rewrite (proj2 (Z.eqb_neq _ _)) by lia. rewrite (at_index _ _ _ Hi Hs). cbn. by rewrite (slots_at_index al i set).
Qed.

Lemma ContainsAddress_spec al a : ContainsAddress al a = bool_decide (is_Some (al_view al !! a)).
Proof. unfold ContainsAddress, al_view. apply bool_decide_ext. by rewrite lookup_fmap, fmap_is_Some. Qed.

(** ** Adding and undoing *)

(** Undo what was reported as added, in reverse order. *)
Definition undo_add {E} (a s : bytes) (f : bool * bool) (al : accessList) : outcome E accessList :=
  al ← (if f.2 then DeleteSlot a s al else Ok al);
  Ok (if f.1 then DeleteAddress a al else al).

Lemma AddAddress_spec a al :
  al_ok al → let '(added, al') := AddAddress a al in
  al_ok al' ∧ added = negb (ContainsAddress al a) ∧
  al_view al' = (if ContainsAddress al a then al_view al else <[a := ∅]> (al_view al)) ∧
  (if added then DeleteAddress a al' else al') = al.
Proof.
  intros Hal. unfold AddAddress, ContainsAddress. destruct (addresses al !! a) as [i |] eqn:Ea.
  { by rewrite bool_decide_true by eauto. }
  rewrite bool_decide_false by by intros [? ?]. split_and!; [| done | |].
  - destruct Hal as [Hr Hn Hi]. split; cbn; [| done |].
    + intros b i. rewrite lookup_insert_Some. intros [[<- <-] | [_ ?]]; [by left | by eapply Hr].
    + intros b c i. rewrite !lookup_insert_Some. intros [[<- <-] | [? ?]] [[<- ?] | [? ?]] Hne; try done. by eapply Hi.
  - unfold al_view. cbn. rewrite fmap_insert. done.
  - unfold DeleteAddress. cbn. rewrite delete_insert_id by done. by destruct al.
Qed.

(** A new slot set at the end of the list. *)
Lemma AddSlot_append a s al :
  al_ok al → (∀ i, addresses al !! a = Some i → i = -1) →
  let al' := MkAccessList (<[a := len (slots al)]> (addresses al)) (slots al ++ [{[s]}]) in
  al_ok al' ∧ al_view al' = <[a := {[s]}]> (al_view al).
Proof.
  intros Hal Ha al'. pose proof Hal as [Hr Hn Hi].
  assert (Hnew : (slots al ++ [{[s]}]) !! Z.to_nat (len (slots al)) = Some ({[s]} : gset bytes)).
  { rewrite Nat2Z.id. by apply list_lookup_middle. }
  assert (Hold : ∀ i set, slots al !! i = Some set → (slots al ++ [{[s]}]) !! i = Some (set : gset bytes)).
  { intros i set H. by apply lookup_app_l_Some. }
  split.
  - split; cbn.
    + intros b i. rewrite lookup_insert_Some. intros [[<- <-] | [_ Hb]]; [right; exists {[s]}; split; [lia | done] |].
      destruct (Hr b i Hb) as [? | (set & H0 & Hs)]; [by left | right]. eauto.
    + intros i set. rewrite lookup_app_Some. intros [H | [_ H]]; [by eapply Hn |].
      apply list_lookup_singleton_Some in H as [_ <-]. set_solver.
    + intros b c i. rewrite !lookup_insert_Some. intros [[<- <-] | [? Hb]] [[<- ?] | [? Hc]] Hne; try done.
      * destruct (Hr c _ Hc) as [? | (set & _ & Hs)]; [done |]. apply lookup_lt_Some in Hs. lia.
      * destruct (Hr b _ Hb) as [? | (set & _ & Hs)]; [done |]. apply lookup_lt_Some in Hs. lia.
      * by eapply Hi.
  - apply map_eq. intros b. unfold al_view. cbn. rewrite lookup_fmap. destruct (decide (b = a)) as [-> | Hne].
    + rewrite !lookup_insert_eq. cbn. f_equal. apply slots_at_index; [lia | done].
    + rewrite !lookup_insert_ne, lookup_fmap by done. destruct (addresses al !! b) as [i |] eqn:Eb; [| done]. cbn. f_equal.
      destruct (Hr b i Eb) as [-> | (set & H0 & Hs)]; [done |].
      by rewrite (slots_at_index al i set), (slots_at_index al' i set) by auto.
Qed.

Lemma undo_append {E} a s al i :
  addresses al !! a = Some i ∨ (addresses al !! a = None ∧ i = -1) → i = -1 →
  @undo_add E a s (negb (bool_decide (is_Some (addresses al !! a))), true)
    (MkAccessList (<[a := len (slots al)]> (addresses al)) (slots al ++ [{[s]}])) = Ok al.
Proof.
  intros Ha ->. unfold undo_add, DeleteSlot. cbn [fst snd addresses slots]. rewrite lookup_insert_eq.
  assert (Hnew : (slots al ++ [{[s]}]) !! Z.to_nat (len (slots al)) = Some ({[s]} : gset bytes)).
  { rewrite Nat2Z.id. by apply list_lookup_middle. }
  rewrite (at_index _ (len (slots al)) _ ltac:(lia) Hnew). cbn [mbind outcome_bind].
  rewrite (set_at_index _ (len (slots al)) _ _ ltac:(lia) Hnew). cbn [mbind outcome_bind].
  assert (Hd : ({[s]} : gset bytes) ∖ {[s]} = ∅) by apply difference_diag_L.
  rewrite Hd, size_empty. cbn [Nat.eqb]. rewrite Nat2Z.id, insert_app_r_alt, Nat.sub_diag by done. cbn [list_insert].
  rewrite (slice_prefix_app (slots al)) by done. cbn [mbind outcome_bind]. f_equal.
  destruct Ha as [Ha | [Ha _]]; rewrite Ha.
  - rewrite bool_decide_true by eauto. cbn [negb]. rewrite insert_insert_eq, insert_id by done. by destruct al.
  - rewrite bool_decide_false by by intros [? ?]. cbn [negb]. unfold DeleteAddress. cbn.
    rewrite insert_insert_eq, delete_insert_id by done. by destruct al.
Qed.

(** A slot into an existing set. *)
Lemma AddSlot_existing {E} a s al i set :
  al_ok al → addresses al !! a = Some i → 0 <= i → slots al !! Z.to_nat i = Some set → s ∉ set →
  let al' := MkAccessList (addresses al) (<[Z.to_nat i := set ∪ {[s]}]> (slots al)) in
  al_ok al' ∧ al_view al' = <[a := set ∪ {[s]}]> (al_view al) ∧ @undo_add E a s (false, true) al' = Ok al.
Proof.
  intros Hal Ha Hi Hs Hns al'. pose proof Hal as [Hr Hn Hinj]. pose proof (lookup_lt_Some _ _ _ Hs) as Hlt.
  assert (Hnew : slots al' !! Z.to_nat i = Some (set ∪ {[s]})) by (cbn; by apply list_lookup_insert_eq).
  split_and!.
  - split; cbn; [| | done].
    + intros b j Hb. destruct (Hr b j Hb) as [? | (t & H0 & Ht)]; [by left | right].
      destruct (decide (Z.to_nat j = Z.to_nat i)) as [-> | Hne]; [eauto |].
      exists t. by rewrite list_lookup_insert_ne.
    + intros j t. rewrite list_lookup_insert_Some. intros [(_ & <- & _) | [_ ?]]; [set_solver | by eapply Hn].
  - apply map_eq. intros b. unfold al_view. cbn. rewrite lookup_fmap. destruct (decide (b = a)) as [-> | Hne].
    + rewrite lookup_insert_eq, Ha. cbn. f_equal. by apply slots_at_index.
    + rewrite lookup_insert_ne, lookup_fmap by done. destruct (addresses al !! b) as [j |] eqn:Eb; [| done]. cbn. f_equal.
      destruct (Hr b j Eb) as [-> | (t & H0 & Ht)]; [done |].
      assert (Hij : i ≠ j) by (intros <-; apply Hne; eapply Hinj; [done | done | lia]).
      rewrite (slots_at_index al j t) by done. apply slots_at_index; [done |]. cbn.
      rewrite list_lookup_insert_ne by lia. done.
  - unfold undo_add, DeleteSlot. cbn [fst snd]. change (addresses al') with (addresses al). rewrite Ha.
    rewrite (at_index _ i _ Hi Hnew). cbn [mbind outcome_bind].
    rewrite (set_at_index _ i _ _ Hi Hnew). cbn [mbind outcome_bind].
    assert (Hd : (set ∪ {[s]}) ∖ {[s]} = set) by (rewrite difference_union_distr_l_L, difference_diag_L, (right_id_L ∅ (∪)); apply difference_disjoint_L; set_solver). rewrite Hd.
    rewrite (proj2 (Nat.eqb_neq _ _)) by (intros H0; apply size_empty_iff, leibniz_equiv in H0; by eapply Hn).
    cbn. rewrite list_insert_insert_eq, list_insert_id by done. by destruct al.
Qed.

Definition view_has (v : gmap bytes (gset bytes)) (a s : bytes) : bool :=
  match v !! a with Some set => bool_decide (s ∈ set) | None => false end.

Lemma AddSlot_spec {E} a s al :
  al_ok al → ∃ f al', @AddSlot E a s al = Ok (f, al') ∧ al_ok al' ∧
    f = (negb (ContainsAddress al a), negb (view_has (al_view al) a s)) ∧
    al_view al' = <[a := default ∅ (al_view al !! a) ∪ {[s]}]> (al_view al) ∧
    @undo_add E a s f al' = Ok al.
Proof.
  intros Hal. unfold AddSlot, view_has. cbn zeta.
  assert (Hav : al_view al !! a = slots_at al <$> (addresses al !! a)) by apply lookup_fmap. rewrite Hav; clear Hav.
  assert (Happ : ∀ i, (addresses al !! a = Some i ∨ (addresses al !! a = None ∧ i = -1)) → i = -1 →
    ∃ f al', @Ok E _ ((negb (ContainsAddress al a), true),
      MkAccessList (<[a := len (slots al)]> (addresses al)) (slots al ++ [{[s]}])) = Ok (f, al') ∧ al_ok al' ∧
    f = (negb (ContainsAddress al a), true) ∧ al_view al' = <[a := {[s]}]> (al_view al) ∧ @undo_add E a s f al' = Ok al).
  { intros i Ha Hi. destruct (AddSlot_append a s al Hal) as [Hok Hv].
    { intros j Hj. destruct Ha as [Ha | [Ha _]]; congruence. }
    do 2 eexists. split_and!; [done | done | done | done |]. unfold ContainsAddress. by apply (undo_append a s al i). }
  destruct (addresses al !! a) as [i |] eqn:Ea; cbn [fmap option_fmap option_map from_option id].
  - assert (Hc : ContainsAddress al a = true) by (unfold ContainsAddress; rewrite Ea; by apply bool_decide_true; eauto).
    destruct (al_range _ Hal a i Ea) as [-> | (set & Hi & Hs)].
    + rewrite Z.eqb_refl. change (slots_at al (-1)) with (∅ : gset bytes).
      rewrite bool_decide_false by apply not_elem_of_empty. rewrite (left_id_L ∅ (∪)).
      destruct (Happ (-1) ltac:(by left) eq_refl) as (f & al' & E' & ?). rewrite Hc in E'. by exists f, al'.
    + rewrite (proj2 (Z.eqb_neq _ _)) by lia. rewrite (slots_at_index al i set), (at_index _ i set) by done.
      cbn [mbind outcome_bind]. destruct (decide (s ∈ set)) as [Hin | Hns].
      * rewrite !bool_decide_true by done. rewrite Hc. do 2 eexists. split_and!; [done | done | done | | done].
        assert (set ∪ {[s]} = set) as -> by (apply set_eq; set_solver). rewrite insert_id; [done |].
        unfold al_view. rewrite lookup_fmap, Ea. cbn. by rewrite (slots_at_index al i set).
      * rewrite !bool_decide_false by done. rewrite (set_at_index _ i set) by done. cbn [mbind outcome_bind]. rewrite Hc.
        destruct (AddSlot_existing (E := E) a s al i set Hal Ea Hi Hs Hns) as (? & ? & ?). do 2 eexists. by split_and!.
  - destruct (Happ (-1) ltac:(by right) eq_refl) as (f & al' & E' & ?). rewrite (left_id_L ∅ (∪)).
    unfold ContainsAddress in *. rewrite Ea in *. rewrite bool_decide_false in * by by intros [? ?]. by exists f, al'.
Qed.

(** ** Sequences *)

Inductive al_op := AlAddress (a : bytes) | AlSlot (a s : bytes).

(** What a sequence of additions changed, newest first, and the list after it. *)
Fixpoint al_run {E} (ops : list al_op) (al : accessList) : outcome E (list (al_op * (bool * bool)) * accessList) :=
  match ops with
  | [] => Ok ([], al)
  | AlAddress a :: ops =>
      let '(added, al) := AddAddress a al in
      '(log, al) ← al_run ops al; Ok (log ++ [(AlAddress a, (added, false))], al)
  | AlSlot a s :: ops =>
      '(f, al) ← AddSlot a s al;
      '(log, al) ← al_run ops al; Ok (log ++ [(AlSlot a s, f)], al)
  end.

Fixpoint al_undo {E} (log : list (al_op * (bool * bool))) (al : accessList) : outcome E accessList :=
  match log with
  | [] => Ok al
  | (AlAddress a, f) :: log => al_undo log (if f.1 then DeleteAddress a al else al)
  | (AlSlot a s, f) :: log => al ← undo_add a s f al; al_undo log al
  end.

Fixpoint al_spec (ops : list al_op) (v : gmap bytes (gset bytes)) : gmap bytes (gset bytes) :=
  match ops with
  | [] => v
  | AlAddress a :: ops => al_spec ops (match v !! a with Some _ => v | None => <[a := ∅]> v end)
  | AlSlot a s :: ops => al_spec ops (<[a := default ∅ (v !! a) ∪ {[s]}]> v)
  end.

Lemma al_undo_app {E} l1 l2 al : @al_undo E (l1 ++ l2) al = (al ← al_undo l1 al; al_undo l2 al).
Proof.
  revert al; induction l1 as [| [[a | a s] f] l1 IH]; intros al; cbn; [done | apply IH |].
  destruct (undo_add a s f al); cbn; [apply IH | done | done | done].
Qed.

(** The access list is the set of addresses and slots added, and undoing the
    additions that were reported, in reverse order, restores it exactly: every
    run of additions succeeds, Contains and ContainsAddress answer what the
    abstract map says, and al_undo gives the list back. *)
Theorem access_list_exact ops al :
  al_ok al →
  ∃ log al', @al_run Empty_set ops al = Ok (log, al') ∧ al_view al' = al_spec ops (al_view al) ∧
    @al_undo Empty_set log al' = Ok al ∧
    (∀ a s, @Contains Empty_set al' a s =
       Ok (match al_view al' !! a with Some set => (true, bool_decide (s ∈ set)) | None => (false, false) end)).
Proof.
  revert al; induction ops as [| [a | a s] ops IH]; intros al Hal; cbn.
  - exists [], al. split_and!; try done. intros. by apply Contains_spec.
  - pose proof (AddAddress_spec a al Hal) as H. destruct (AddAddress a al) as [added al1].
    destruct H as (Hok & Hadd & Hv & Hu). destruct (IH al1 Hok) as (log & al2 & -> & Hv2 & Hu2 & Hc). cbn.
    do 2 eexists. split_and!; [done | | | done].
    + rewrite Hv2, Hv, ContainsAddress_spec.
      destruct (al_view al !! a) eqn:E; [by rewrite bool_decide_true by eauto | by rewrite bool_decide_false by by intros [? ?]].
    + rewrite al_undo_app, Hu2. cbn. by rewrite Hu.
  - destruct (@AddSlot_spec Empty_set a s al Hal) as (f & al1 & -> & Hok & Hf & Hv & Hu). cbn.
    destruct (IH al1 Hok) as (log & al2 & -> & Hv2 & Hu2 & Hc). cbn.
    do 2 eexists. split_and!; [done | by rewrite Hv2, Hv | | done].
    rewrite al_undo_app, Hu2. cbn. by rewrite Hu.
Qed.

Lemma access_list_exact_witness :
  let ops := [AlAddress [1]; AlSlot [2] [7]; AlSlot [1] [8]; AlSlot [2] [9]; AlAddress [2]; AlSlot [1] [8]] in
  ∃ log al', @al_run Empty_set ops newAccessList = Ok (log, al') ∧ @al_undo Empty_set log al' = Ok newAccessList.
Proof.
  intros ops. destruct (access_list_exact ops newAccessList new_ok) as (log & al' & H1 & _ & H2 & _). by exists log, al'.
Defined.
