(* ===== verification/State.v ===== *)
(** * The state: src/core/state/statedb.go, state_object.go and journal.go

    Accounts with their storage, read from a trie or a snapshot on first use and
    changed in memory; every change of the current transaction is journalled so
    that it can be undone.  An object of the map [stateObjects] is modelled by
    its value: the code changes an object through the one pointer in the map, and
    the pointers kept in the journal are to objects no longer in the map.

    The account and storage tries, the code store and the snapshot are behind
    interfaces, as in the code.  Prefetching and time measurements are left
    out. *)

From S2P Require Import Prelude RlpRaw TrieNode TrieOps TrieHash StateAccess.

(** types.StateAccount and types.SlimAccount *)
Record StateAccount := MkAccount { Nonce : Z; Balance : Z; Root : bytes; CodeHash : bytes }.
Record SlimAccount := MkSlim { sl_Nonce : Z; sl_Balance : Z; sl_Root : bytes; sl_CodeHash : bytes }.

(** The Trie interface of database.go (reads), ContractCode and ContractCodeSize. *)
Class Backend (T ST E : Type) := {
  GetAccount : T → bytes → E + option StateAccount;
  OpenStorageTrie : bytes → bytes → bytes → E + ST;
  GetStorage : ST → bytes → bytes → E + bytes;
  ContractCode : bytes → bytes → option bytes * option E;
  ContractCodeSize : bytes → bytes → Z * option E
}.

(** snapshot.Snapshot *)
Record Snapshot_ (E : Type) := MkSnap {
  snap_Account : bytes → E + option SlimAccount;
  snap_Storage : bytes → bytes → bytes * option E
}.
Arguments snap_Account {E}.
Arguments snap_Storage {E}.

Inductive state_error (E : Type) :=
| ErrAccount (addr : bytes) (e : E)
| ErrStorage (e : E)
| ErrSplit
| ErrCode (hash : bytes) (e : E)
| ErrUpdateObject (addr : bytes) (e : E)
| ErrDeleteObject (addr : bytes) (e : E).
Arguments ErrAccount {E}.
Arguments ErrStorage {E}.
Arguments ErrSplit {E}.
Arguments ErrCode {E}.
Arguments ErrUpdateObject {E}.
Arguments ErrDeleteObject {E}.

(** Hash.SetBytes: the bytes go to the right end, what is left of them stays. *)
Definition SetBytes (h b : bytes) : bytes :=
  let b := if 32 <? len b then drop (length b - 32) b else b in
  take (32 - length b) h ++ b.

Definition zeroHash : bytes := repeat 0 32.

(** sort.Search *)
Fixpoint Search_loop (fuel : nat) (f : Z → bool) (i j : Z) : Z :=
  match fuel with
  | O => i
  | S fuel =>
      if i <? j then
        let h := Z.shiftr (i + j) 1 in
        if negb (f h) then Search_loop fuel f (h + 1) j else Search_loop fuel f i h
      else i
  end.
Definition Search (n : Z) (f : Z → bool) : Z := Search_loop (S (Z.to_nat n)) f 0 n.

Section State.
  Context `{HF : Hasher} {T ST E : Type} `{B : !Backend T ST E}.

Definition EmptyCodeHash : bytes := sum256 [].

Definition NewEmptyStateAccount : StateAccount := MkAccount 0 0 EmptyRootHash EmptyCodeHash.

(** ** Objects *)

Record stateObject := MkObject {
  address : bytes;
  addrHash : bytes;
  origin : option StateAccount;
  data : StateAccount;
  o_trie : option ST;
  code : option bytes;
  originStorage : gmap bytes bytes;
  pendingStorage : gmap bytes bytes;
  dirtyStorage : gmap bytes bytes;
  dirtyCode : bool;
  deleted : bool;
  created : bool
}.

Definition newObject (addr : bytes) (acct : option StateAccount) : stateObject :=
  MkObject addr (sum256 addr) acct (default NewEmptyStateAccount acct) None None ∅ ∅ ∅ false false false.

Definition empty (o : stateObject) : bool :=
  (Nonce (data o) =? 0) && (Balance (data o) =? 0) && bool_decide (CodeHash (data o) = EmptyCodeHash).

Definition with_data (d : StateAccount) (o : stateObject) : stateObject :=
  MkObject (address o) (addrHash o) (origin o) d (o_trie o) (code o) (originStorage o) (pendingStorage o)
    (dirtyStorage o) (dirtyCode o) (deleted o) (created o).

Definition setBalance (b : Z) (o : stateObject) : stateObject :=
  with_data (MkAccount (Nonce (data o)) b (Root (data o)) (CodeHash (data o))) o.
Definition setNonce (n : Z) (o : stateObject) : stateObject :=
  with_data (MkAccount n (Balance (data o)) (Root (data o)) (CodeHash (data o))) o.
Definition setCode (h : bytes) (c : option bytes) (o : stateObject) : stateObject :=
  MkObject (address o) (addrHash o) (origin o) (MkAccount (Nonce (data o)) (Balance (data o)) (Root (data o)) h)
    (o_trie o) c (originStorage o) (pendingStorage o) (dirtyStorage o) true (deleted o) (created o).
Definition setState (key value : bytes) (o : stateObject) : stateObject :=
  MkObject (address o) (addrHash o) (origin o) (data o) (o_trie o) (code o) (originStorage o) (pendingStorage o)
    (<[key := value]> (dirtyStorage o)) (dirtyCode o) (deleted o) (created o).

Definition set_code_cache (c : option bytes) (o : stateObject) : stateObject :=
  MkObject (address o) (addrHash o) (origin o) (data o) (o_trie o) c (originStorage o) (pendingStorage o)
    (dirtyStorage o) (dirtyCode o) (deleted o) (created o).
Definition set_trie_cache (t : option ST) (o : stateObject) : stateObject :=
  MkObject (address o) (addrHash o) (origin o) (data o) t (code o) (originStorage o) (pendingStorage o)
    (dirtyStorage o) (dirtyCode o) (deleted o) (created o).
Definition set_origin_cache (key value : bytes) (o : stateObject) : stateObject :=
  MkObject (address o) (addrHash o) (origin o) (data o) (o_trie o) (code o) (<[key := value]> (originStorage o))
    (pendingStorage o) (dirtyStorage o) (dirtyCode o) (deleted o) (created o).

(** ** The journal *)

Inductive journalEntry :=
| createObjectChange (account : bytes)
| resetObjectChange (account : bytes) (prev : stateObject) (prevdestruct : bool)
    (prevAccount : option bytes) (prevStorage : option (gmap bytes (option bytes)))
    (prevAccountOriginExist : bool) (prevAccountOrigin : option bytes)
    (prevStorageOrigin : option (gmap bytes (option bytes)))
| balanceChange (account : bytes) (prev : Z)
| nonceChange (account : bytes) (prev : Z)
| storageChange (account key prevalue : bytes)
| codeChange (account : bytes) (prevcode : option bytes) (prevhash : bytes)
| refundChange (prev : Z)
| addLogChange (txhash : bytes)
| addPreimageChange (hash : bytes)
| touchChange (account : bytes)
| accessListAddAccountChange (addr : bytes)
| accessListAddSlotChange (addr slot : bytes).

Definition dirtied (e : journalEntry) : option bytes :=
  match e with
  | createObjectChange a | resetObjectChange a _ _ _ _ _ _ _ | balanceChange a _ | nonceChange a _
  | storageChange a _ _ | codeChange a _ _ | touchChange a => Some a
  | _ => None
  end.

Record journal := MkJournal { entries : list journalEntry; dirties : gmap bytes Z }.

Definition newJournal : journal := MkJournal [] ∅.

Definition journal_append (e : journalEntry) (j : journal) : journal :=
  MkJournal (entries j ++ [e])
    (match dirtied e with
     | Some a => <[a := default 0 (dirties j !! a) + 1]> (dirties j)
     | None => dirties j
     end).

(** The dirty counter after an entry has been undone. *)
Definition undirty (e : journalEntry) (d : gmap bytes Z) : gmap bytes Z :=
  match dirtied e with
  | Some a =>
      let n := default 0 (d !! a) - 1 in
      if n =? 0 then base.delete a (<[a := n]> d) else <[a := n]> d
  | None => d
  end.

(** ** The state *)

(** types.Log, without the mark of logs that were removed by a reorganisation *)
Record Log := MkLog {
  lg_Address : bytes;
  lg_Topics : list bytes;
  lg_Data : bytes;
  lg_BlockNumber : Z;
  lg_TxHash : bytes;
  lg_TxIndex : Z;
  lg_BlockHash : bytes;
  lg_Index : Z
}.

Record StateDB := MkState {
  s_trie : T;
  snap : option (Snapshot_ E);
  originalRoot : bytes;
  accounts : gmap bytes bytes;
  storages : gmap bytes (gmap bytes (option bytes));
  accountsOrigin : gmap bytes (option bytes);
  storagesOrigin : gmap bytes (gmap bytes (option bytes));
  stateObjects : gmap bytes stateObject;
  stateObjectsPending : gset bytes;
  stateObjectsDirty : gset bytes;
  stateObjectsDestruct : gmap bytes (option StateAccount);
  dbErr : option (state_error E);
  refund : Z;
  thash : bytes;
  txIndex : Z;
  logs : gmap bytes (list Log);
  logSize : Z;
  preimages : gmap bytes bytes;
  s_accessList : accessList;
  s_journal : journal;
  validRevisions : list (Z * Z);
  nextRevisionId : Z
}.

Definition set_objects m (s : StateDB) : StateDB :=
  MkState (s_trie s) (snap s) (originalRoot s) (accounts s) (storages s) (accountsOrigin s) (storagesOrigin s)
    (m) (stateObjectsPending s) (stateObjectsDirty s) (stateObjectsDestruct s) (dbErr s) (refund s)
    (thash s) (txIndex s) (logs s) (logSize s) (preimages s) (s_accessList s) (s_journal s)
    (validRevisions s) (nextRevisionId s).
Definition set_objDirty d (s : StateDB) : StateDB :=
  MkState (s_trie s) (snap s) (originalRoot s) (accounts s) (storages s) (accountsOrigin s) (storagesOrigin s)
    (stateObjects s) (stateObjectsPending s) (d) (stateObjectsDestruct s) (dbErr s) (refund s) (thash s)
    (txIndex s) (logs s) (logSize s) (preimages s) (s_accessList s) (s_journal s) (validRevisions s)
    (nextRevisionId s).
Definition set_destruct d (s : StateDB) : StateDB :=
  MkState (s_trie s) (snap s) (originalRoot s) (accounts s) (storages s) (accountsOrigin s) (storagesOrigin s)
    (stateObjects s) (stateObjectsPending s) (stateObjectsDirty s) (d) (dbErr s) (refund s) (thash s)
    (txIndex s) (logs s) (logSize s) (preimages s) (s_accessList s) (s_journal s) (validRevisions s)
    (nextRevisionId s).
Definition set_caches a st ao so (s : StateDB) : StateDB :=
  MkState (s_trie s) (snap s) (originalRoot s) (a) (st) (ao) (so) (stateObjects s) (stateObjectsPending s)
    (stateObjectsDirty s) (stateObjectsDestruct s) (dbErr s) (refund s) (thash s) (txIndex s) (logs s)
    (logSize s) (preimages s) (s_accessList s) (s_journal s) (validRevisions s) (nextRevisionId s).
Definition set_dbErr e (s : StateDB) : StateDB :=
  MkState (s_trie s) (snap s) (originalRoot s) (accounts s) (storages s) (accountsOrigin s) (storagesOrigin s)
    (stateObjects s) (stateObjectsPending s) (stateObjectsDirty s) (stateObjectsDestruct s) (e) (refund
    s) (thash s) (txIndex s) (logs s) (logSize s) (preimages s) (s_accessList s) (s_journal s)
    (validRevisions s) (nextRevisionId s).
Definition set_refund r (s : StateDB) : StateDB :=
  MkState (s_trie s) (snap s) (originalRoot s) (accounts s) (storages s) (accountsOrigin s) (storagesOrigin s)
    (stateObjects s) (stateObjectsPending s) (stateObjectsDirty s) (stateObjectsDestruct s) (dbErr s)
    (r) (thash s) (txIndex s) (logs s) (logSize s) (preimages s) (s_accessList s) (s_journal s)
    (validRevisions s) (nextRevisionId s).
Definition set_logs l n (s : StateDB) : StateDB :=
  MkState (s_trie s) (snap s) (originalRoot s) (accounts s) (storages s) (accountsOrigin s) (storagesOrigin s)
    (stateObjects s) (stateObjectsPending s) (stateObjectsDirty s) (stateObjectsDestruct s) (dbErr s)
    (refund s) (thash s) (txIndex s) (l) (n) (preimages s) (s_accessList s) (s_journal s)
    (validRevisions s) (nextRevisionId s).
Definition set_preimages p (s : StateDB) : StateDB :=
  MkState (s_trie s) (snap s) (originalRoot s) (accounts s) (storages s) (accountsOrigin s) (storagesOrigin s)
    (stateObjects s) (stateObjectsPending s) (stateObjectsDirty s) (stateObjectsDestruct s) (dbErr s)
    (refund s) (thash s) (txIndex s) (logs s) (logSize s) (p) (s_accessList s) (s_journal s)
    (validRevisions s) (nextRevisionId s).
Definition set_accessList al (s : StateDB) : StateDB :=
  MkState (s_trie s) (snap s) (originalRoot s) (accounts s) (storages s) (accountsOrigin s) (storagesOrigin s)
    (stateObjects s) (stateObjectsPending s) (stateObjectsDirty s) (stateObjectsDestruct s) (dbErr s)
    (refund s) (thash s) (txIndex s) (logs s) (logSize s) (preimages s) (al) (s_journal s)
    (validRevisions s) (nextRevisionId s).
Definition set_journal j (s : StateDB) : StateDB :=
  MkState (s_trie s) (snap s) (originalRoot s) (accounts s) (storages s) (accountsOrigin s) (storagesOrigin s)
    (stateObjects s) (stateObjectsPending s) (stateObjectsDirty s) (stateObjectsDestruct s) (dbErr s)
    (refund s) (thash s) (txIndex s) (logs s) (logSize s) (preimages s) (s_accessList s) (j)
    (validRevisions s) (nextRevisionId s).
Definition set_revisions v n (s : StateDB) : StateDB :=
  MkState (s_trie s) (snap s) (originalRoot s) (accounts s) (storages s) (accountsOrigin s) (storagesOrigin s)
    (stateObjects s) (stateObjectsPending s) (stateObjectsDirty s) (stateObjectsDestruct s) (dbErr s)
    (refund s) (thash s) (txIndex s) (logs s) (logSize s) (preimages s) (s_accessList s) (s_journal s)
    (v) (n).

(** statedb.go New: the state of a root, given how the database opens tries and
    which snapshot layers there are. *)
Definition NewState (root : bytes) (OpenTrie : bytes → E + T) (snaps : option (bytes → option (Snapshot_ E))) : E + StateDB :=
  match OpenTrie root with
  | inl e => inl e
  | inr tr =>
      inr (MkState tr (match snaps with Some f => f root | None => None end) root ∅ ∅ ∅ ∅ ∅ ∅ ∅ ∅ None 0 zeroHash 0 ∅ 0 ∅
             newAccessList newJournal [] 0)
  end.

Definition append (e : journalEntry) (s : StateDB) : StateDB := set_journal (journal_append e (s_journal s)) s.

(** setError remembers the first error. *)
Definition setError (e : state_error E) (s : StateDB) : StateDB :=
  match dbErr s with None => set_dbErr (Some e) s | Some _ => s end.

Definition setStateObject (o : stateObject) (s : StateDB) : StateDB :=
  set_objects (<[address o := o]> (stateObjects s)) s.

(** ** Reading accounts *)

(** The account in the snapshot or, if that fails, in the trie. *)
Definition load_account (s : StateDB) (addr : bytes) : E + option StateAccount :=
  let from_trie := GetAccount (s_trie s) addr in
  match snap s with
  | None => from_trie
  | Some sn =>
      match snap_Account sn (sum256 addr) with
      | inl _ => from_trie
      | inr None => inr None
      | inr (Some acc) =>
          let ch := if len (sl_CodeHash acc) =? 0 then EmptyCodeHash else sl_CodeHash acc in
          let rt := BytesToHash (sl_Root acc) in
          let rt := if bool_decide (rt = zeroHash) then EmptyRootHash else rt in
          inr (Some (MkAccount (sl_Nonce acc) (sl_Balance acc) rt ch))
      end
  end.

Definition getDeletedStateObject (addr : bytes) (s : StateDB) : option stateObject * StateDB :=
  match stateObjects s !! addr with
  | Some o => (Some o, s)
  | None =>
      match load_account s addr with
      | inl e => (None, setError (ErrAccount addr e) s)
      | inr None => (None, s)
      | inr (Some d) => let o := newObject addr (Some d) in (Some o, setStateObject o s)
      end
  end.

Definition getStateObject (addr : bytes) (s : StateDB) : option stateObject * StateDB :=
  let '(o, s) := getDeletedStateObject addr s in
  match o with
  | Some o => if deleted o then (None, s) else (Some o, s)
  | None => (None, s)
  end.

(** ** Reading storage and code *)

(** getTrie: the storage trie, opened on first use. *)
Definition getTrie (o : stateObject) (s : StateDB) : (E + ST) * stateObject :=
  match o_trie o with
  | Some t => (inr t, o)
  | None =>
      match OpenStorageTrie (originalRoot s) (address o) (Root (data o)) with
      | inl e => (inl e, o)
      | inr t => (inr t, set_trie_cache (Some t) o)
      end
  end.

(** The part of GetCommittedState that reads the snapshot and the trie: the value,
    the object with what was cached, and the errors met. *)
Definition obj_LoadState (o : stateObject) (key : bytes) (s : StateDB) : bytes * stateObject * list (state_error E) :=
  let '(value, err, errs) :=
    match snap s with
    | None => (zeroHash, true, [])
    | Some sn =>
        let '(enc, err) := snap_Storage sn (addrHash o) (sum256 key) in
        let '(value, errs) :=
          if 0 <? len enc then
            match Split enc with
            | Ok (_, content, _) => (SetBytes zeroHash content, [])
            | _ => (SetBytes zeroHash [], [ErrSplit])
            end
          else (zeroHash, []) in
        (value, bool_decide (is_Some err), errs)
    end in
  if err : bool then
    let '(t, o) := getTrie o s in
    match t with
    | inl e => (zeroHash, o, errs ++ [ErrStorage e])
    | inr t =>
        match GetStorage t (address o) key with
        | inl e => (zeroHash, o, errs ++ [ErrStorage e])
        | inr val => let value := SetBytes value val in (value, set_origin_cache key value o, errs)
        end
    end
  else (value, set_origin_cache key value o, errs).

(** stateObject.GetCommittedState: the value, the object with what was cached,
    and the state with errors noted. *)
Definition obj_GetCommittedState (o : stateObject) (key : bytes) (s : StateDB) : bytes * stateObject * StateDB :=
  match pendingStorage o !! key with
  | Some v => (v, o, s)
  | None =>
      match originStorage o !! key with
      | Some v => (v, o, s)
      | None =>
          if bool_decide (is_Some (stateObjectsDestruct s !! address o)) then (zeroHash, o, s)
          else
            let '(value, o, errs) := obj_LoadState o key s in
            (value, o, foldl (fun s e => setError e s) s errs)
      end
  end.

Definition obj_GetState (o : stateObject) (key : bytes) (s : StateDB) : bytes * stateObject * StateDB :=
  match dirtyStorage o !! key with
  | Some v => (v, o, s)
  | None => obj_GetCommittedState o key s
  end.

(** stateObject.Code *)
Definition obj_Code (o : stateObject) (s : StateDB) : option bytes * stateObject * StateDB :=
  match code o with
  | Some c => (Some c, o, s)
  | None =>
      if bool_decide (CodeHash (data o) = EmptyCodeHash) then (None, o, s)
      else
        let '(c, err) := ContractCode (address o) (BytesToHash (CodeHash (data o))) in
        let s := match err with Some e => setError (ErrCode (CodeHash (data o)) e) s | None => s end in
        (c, set_code_cache c o, s)
  end.

(** stateObject.CodeSize *)
Definition obj_CodeSize (o : stateObject) (s : StateDB) : Z * stateObject * StateDB :=
  match code o with
  | Some c => (len c, o, s)
  | None =>
      if bool_decide (CodeHash (data o) = EmptyCodeHash) then (0, o, s)
      else
        let '(size, err) := ContractCodeSize (address o) (BytesToHash (CodeHash (data o))) in
        (size, o, match err with Some e => setError (ErrCode (CodeHash (data o)) e) s | None => s end)
  end.

(** ** Changing objects *)

Definition createObject (addr : bytes) (s : StateDB) : option stateObject * StateDB :=
  let '(prev, s) := getDeletedStateObject addr s in
  let new := newObject addr None in
  let s :=
    match prev with
    | None => append (createObjectChange addr) s
    | Some p =>
        let prevdestruct := bool_decide (is_Some (stateObjectsDestruct s !! address p)) in
        let s := if prevdestruct then s
                 else set_destruct (<[address p := origin p]> (stateObjectsDestruct s)) s in
        let s := append (resetObjectChange addr p prevdestruct
                   (accounts s !! addrHash p) (storages s !! addrHash p)
                   (bool_decide (is_Some (accountsOrigin s !! address p)))
                   (mjoin (accountsOrigin s !! address p))
                   (storagesOrigin s !! address p)) s in
        set_caches (base.delete (addrHash p) (accounts s)) (base.delete (addrHash p) (storages s))
          (base.delete (address p) (accountsOrigin s)) (base.delete (address p) (storagesOrigin s)) s
    end in
  let new := MkObject (address new) (addrHash new) (origin new) (data new) (o_trie new) (code new)
               (originStorage new) (pendingStorage new) (dirtyStorage new) (dirtyCode new) (deleted new) true in
  (match prev with Some p => if deleted p then None else Some p | None => None end, setStateObject new s).

(** GetOrNewStateObject: the state then has a live object at [addr]. *)
Definition GetOrNewStateObject (addr : bytes) (s : StateDB) : StateDB :=
  let '(o, s) := getStateObject addr s in
  match o with Some _ => s | None => (createObject addr s).2 end.

(** Apply a change to the object at [addr]; the code has a pointer to it. *)
Definition with_object (addr : bytes) (f : stateObject → StateDB → StateDB) (s : StateDB) : StateDB :=
  let s := GetOrNewStateObject addr s in
  match stateObjects s !! addr with Some o => f o s | None => s end.

Definition obj_SetBalance (amount : Z) (o : stateObject) (s : StateDB) : StateDB :=
  setStateObject (setBalance amount o) (append (balanceChange (address o) (Balance (data o))) s).

Definition obj_AddBalance (amount : Z) (o : stateObject) (s : StateDB) : StateDB :=
  if amount =? 0 then (if empty o then append (touchChange (address o)) s else s)
  else obj_SetBalance (Balance (data o) + amount) o s.

Definition obj_SubBalance (amount : Z) (o : stateObject) (s : StateDB) : StateDB :=
  if amount =? 0 then s else obj_SetBalance (Balance (data o) - amount) o s.

Definition obj_SetNonce (nonce : Z) (o : stateObject) (s : StateDB) : StateDB :=
  setStateObject (setNonce nonce o) (append (nonceChange (address o) (Nonce (data o))) s).

Definition obj_SetCode (codeHash : bytes) (c : bytes) (o : stateObject) (s : StateDB) : StateDB :=
  let '(prevcode, o, s) := obj_Code o s in
  let s := append (codeChange (address o) prevcode (CodeHash (data o))) s in
  setStateObject (setCode codeHash (Some c) o) s.

Definition obj_SetState (key value : bytes) (o : stateObject) (s : StateDB) : StateDB :=
  let '(prev, o, s) := obj_GetState o key s in
  let s := setStateObject o s in
  if bool_decide (prev = value) then s
  else setStateObject (setState key value o) (append (storageChange (address o) key prev) s).

Definition AddBalance (addr : bytes) (amount : Z) : StateDB → StateDB := with_object addr (obj_AddBalance amount).
Definition SubBalance (addr : bytes) (amount : Z) : StateDB → StateDB := with_object addr (obj_SubBalance amount).
Definition SetBalance (addr : bytes) (amount : Z) : StateDB → StateDB := with_object addr (obj_SetBalance amount).
Definition SetNonce (addr : bytes) (nonce : Z) : StateDB → StateDB := with_object addr (obj_SetNonce nonce).
Definition SetCode (addr c : bytes) : StateDB → StateDB := with_object addr (obj_SetCode (sum256 c) c).
Definition SetState (addr key value : bytes) : StateDB → StateDB := with_object addr (obj_SetState key value).

(** CreateAccount carries the balance over. *)
Definition CreateAccount (addr : bytes) (s : StateDB) : StateDB :=
  let '(prev, s) := createObject addr s in
  match prev with
  | Some p =>
      match stateObjects s !! addr with
      | Some o => setStateObject (setBalance (Balance (data p)) o) s
      | None => s
      end
  | None => s
  end.

(** ** Other changes *)

Definition stamp_log (log : Log) (txHash : bytes) (index logIndex : Z) : Log :=
  MkLog (lg_Address log) (lg_Topics log) (lg_Data log) (lg_BlockNumber log) txHash index (lg_BlockHash log) logIndex.

Definition AddLog (log : Log) (s : StateDB) : StateDB :=
  let s := append (addLogChange (thash s)) s in
  let lg := stamp_log log (thash s) (u64 (txIndex s)) (logSize s) in
  set_logs (<[thash s := default [] (logs s !! thash s) ++ [lg]]> (logs s)) (u64 (logSize s + 1)) s.

Definition AddPreimage (hash preimage : bytes) (s : StateDB) : StateDB :=
  match preimages s !! hash with
  | Some _ => s
  | None => set_preimages (<[hash := preimage]> (preimages s)) (append (addPreimageChange hash) s)
  end.

Definition AddRefund (gas : Z) (s : StateDB) : StateDB :=
  let s := append (refundChange (refund s)) s in set_refund (u64 (refund s + gas)) s.

Abbreviation st A := (outcome Empty_set A).

Definition SubRefund (gas : Z) (s : StateDB) : st StateDB :=
  let s := append (refundChange (refund s)) s in
  if refund s <? gas then Panic else Ok (set_refund (u64 (refund s - gas)) s).

Definition AddAddressToAccessList (addr : bytes) (s : StateDB) : StateDB :=
  let '(added, al) := AddAddress addr (s_accessList s) in
  let s := set_accessList al s in
  if added then append (accessListAddAccountChange addr) s else s.

Definition AddSlotToAccessList (addr slot : bytes) (s : StateDB) : st StateDB :=
  '((addrMod, slotMod), al) ← AddSlot addr slot (s_accessList s);
  let s := set_accessList al s in
  let s := if addrMod : bool then append (accessListAddAccountChange addr) s else s in
  Ok (if slotMod : bool then append (accessListAddSlotChange addr slot) s else s).

(** ** Reading *)

(** Run a read of the object at [addr], which may cache what it loads. *)
Definition read_object {A} (addr : bytes) (dflt : A)
    (f : stateObject → StateDB → A * stateObject * StateDB) (s : StateDB) : A * StateDB :=
  let '(o, s) := getStateObject addr s in
  match o with
  | None => (dflt, s)
  | Some o => let '(a, o, s) := f o s in (a, setStateObject o s)
  end.

Definition Exist (addr : bytes) : StateDB → bool * StateDB := read_object addr false (fun o s => (true, o, s)).
Definition Empty (addr : bytes) : StateDB → bool * StateDB := read_object addr true (fun o s => (empty o, o, s)).
Definition GetBalance (addr : bytes) : StateDB → Z * StateDB := read_object addr 0 (fun o s => (Balance (data o), o, s)).
Definition GetNonce (addr : bytes) : StateDB → Z * StateDB := read_object addr 0 (fun o s => (Nonce (data o), o, s)).
Definition GetStorageRoot (addr : bytes) : StateDB → bytes * StateDB :=
  read_object addr zeroHash (fun o s => (Root (data o), o, s)).
Definition GetCodeHash (addr : bytes) : StateDB → bytes * StateDB :=
  read_object addr zeroHash (fun o s => (BytesToHash (CodeHash (data o)), o, s)).
Definition GetCode (addr : bytes) : StateDB → option bytes * StateDB := read_object addr None obj_Code.
Definition GetCodeSize (addr : bytes) : StateDB → Z * StateDB := read_object addr 0 obj_CodeSize.
Definition GetState (addr key : bytes) : StateDB → bytes * StateDB :=
  read_object addr zeroHash (fun o => obj_GetState o key).
Definition GetCommittedState (addr key : bytes) : StateDB → bytes * StateDB :=
  read_object addr zeroHash (fun o => obj_GetCommittedState o key).

Definition GetRefund (s : StateDB) : Z := refund s.
Definition AddressInAccessList (addr : bytes) (s : StateDB) : bool := ContainsAddress (s_accessList s) addr.
Definition SlotInAccessList (addr slot : bytes) (s : StateDB) : st (bool * bool) := Contains (s_accessList s) addr slot.

(** ** Undoing *)

(** getStateObject(addr).f(): the code does not check for nil. *)
Definition undo_object (addr : bytes) (f : stateObject → stateObject) (s : StateDB) : st StateDB :=
  let '(o, s) := getStateObject addr s in
  match o with Some o => Ok (setStateObject (f o) s) | None => Panic end.

Definition revert_entry (e : journalEntry) (s : StateDB) : st StateDB :=
  match e with
  | createObjectChange a =>
      Ok (set_objDirty (stateObjectsDirty s ∖ {[a]}) (set_objects (base.delete a (stateObjects s)) s))
  | resetObjectChange _ prev prevdestruct prevAccount prevStorage prevAccountOriginExist prevAccountOrigin prevStorageOrigin =>
      let s := setStateObject prev s in
      let s := if negb prevdestruct then set_destruct (base.delete (address prev) (stateObjectsDestruct s)) s else s in
      Ok (set_caches
            (match prevAccount with Some b => <[addrHash prev := b]> (accounts s) | None => accounts s end)
            (match prevStorage with Some m => <[addrHash prev := m]> (storages s) | None => storages s end)
            (if prevAccountOriginExist then <[address prev := prevAccountOrigin]> (accountsOrigin s) else accountsOrigin s)
            (match prevStorageOrigin with Some m => <[address prev := m]> (storagesOrigin s) | None => storagesOrigin s end) s)
  | touchChange _ => Ok s
  | balanceChange a prev => undo_object a (setBalance prev) s
  | nonceChange a prev => undo_object a (setNonce prev) s
  | codeChange a prevcode prevhash => undo_object a (setCode (BytesToHash prevhash) prevcode) s
  | storageChange a key prevalue => undo_object a (setState key prevalue) s
  | refundChange prev => Ok (set_refund prev s)
  | addLogChange txhash =>
      let lgs := default [] (logs s !! txhash) in
      if len lgs =? 1 then Ok (set_logs (base.delete txhash (logs s)) (u64 (logSize s - 1)) s)
      else
        lgs ← slice lgs 0 (len lgs - 1);
        Ok (set_logs (<[txhash := lgs]> (logs s)) (u64 (logSize s - 1)) s)
  | addPreimageChange h => Ok (set_preimages (base.delete h (preimages s)) s)
  | accessListAddAccountChange a => Ok (set_accessList (DeleteAddress a (s_accessList s)) s)
  | accessListAddSlotChange a sl => al ← DeleteSlot a sl (s_accessList s); Ok (set_accessList al s)
  end.

(** The loop of journal.revert, newest entry first. *)
Fixpoint revert_entries (es : list journalEntry) (s : StateDB) : st StateDB :=
  match es with
  | [] => Ok s
  | e :: es =>
      s ← revert_entry e s;
      revert_entries es (set_journal (MkJournal (entries (s_journal s)) (undirty e (dirties (s_journal s)))) s)
  end.

Definition journal_revert (snapshot : Z) (s : StateDB) : st StateDB :=
  s ← revert_entries (rev (drop (Z.to_nat snapshot) (entries (s_journal s)))) s;
  es ← slice (entries (s_journal s)) 0 snapshot;
  Ok (set_journal (MkJournal es (dirties (s_journal s))) s).

Definition Snapshot (s : StateDB) : Z * StateDB :=
  let id := nextRevisionId s in
  (id, set_revisions (validRevisions s ++ [(id, len (entries (s_journal s)))]) (id + 1) s).

Definition RevertToSnapshot (revid : Z) (s : StateDB) : st StateDB :=
  let revs := validRevisions s in
  let idx := Search (len revs) (fun i => match revs !! Z.to_nat i with Some r => revid <=? r.1 | None => false end) in
  match revs !! Z.to_nat idx with
  | Some (id, snapshot) =>
      if negb (id =? revid) then Panic
      else
        s ← journal_revert snapshot s;
        revs ← slice (validRevisions s) 0 idx;
        Ok (set_revisions revs (nextRevisionId s) s)
  | None => Panic
  end.
End State.
