(* ===== verification/StateWorld.v ===== *)
(** * Worlds of accounts: the specification of the state

    What StateDB promises within a transaction: a function from addresses to
    accounts, the refund counter, logs, preimages and the accessed addresses and
    slots, together with the worlds saved by snapshots.  StateSpec proves that
    StateDB keeps the promise; the virtual machine is verified against it. *)

From S2P Require Import Prelude TrieNode TrieOps StateAccess State.

(** ** Operations on the state *)

Inductive op :=
| OpAddBalance (a : bytes) (x : Z) | OpSubBalance (a : bytes) (x : Z) | OpSetBalance (a : bytes) (x : Z)
| OpSetNonce (a : bytes) (n : Z) | OpSetCode (a c : bytes) | OpSetState (a k v : bytes) | OpCreateAccount (a : bytes)
| OpAddLog (p : Log) | OpAddPreimage (h p : bytes) | OpAddRefund (g : Z) | OpSubRefund (g : Z)
| OpAddAddress (a : bytes) | OpAddSlot (a k : bytes)
| OpGetBalance (a : bytes) | OpGetCode (a : bytes) | OpGetState (a k : bytes) | OpGetCommittedState (a k : bytes)
| OpSnapshot | OpRevert (id : Z).

Definition plain (o : op) : bool := match o with OpSnapshot | OpRevert _ => false | _ => true end.

Section World.
  Context `{HF : Hasher}.

(** ** The specification *)

Record account := MkView {
  v_nonce : Z;
  v_balance : Z;
  v_codeHash : bytes;
  v_code : option bytes;
  v_storage : bytes → bytes;
  v_committed : bytes → bytes
}.

Record world := MkWorld {
  w_account : bytes → option account;
  w_refund : Z;
  w_thash : bytes;
  w_txIndex : Z;
  w_logs : gmap bytes (list Log);
  w_logSize : Z;
  w_preimages : gmap bytes bytes;
  w_access : gmap bytes (gset bytes)
}.

Definition empty_account : account := MkView 0 0 EmptyCodeHash None (fun _ => zeroHash) (fun _ => zeroHash).

(** Change the account at [a], an empty one if there is none. *)
Definition change (a : bytes) (f : account → account) (w : world) : world :=
  MkWorld (fun b => if decide (b = a) then Some (f (default empty_account (w_account w a))) else w_account w b)
    (w_refund w) (w_thash w) (w_txIndex w) (w_logs w) (w_logSize w) (w_preimages w) (w_access w).

Definition spec_plain (o : op) (w : world) : option world :=
  match o with
  | OpAddBalance a x => Some (change a (fun v => MkView (v_nonce v) (v_balance v + x) (v_codeHash v) (v_code v) (v_storage v) (v_committed v)) w)
  | OpSubBalance a x => Some (change a (fun v => MkView (v_nonce v) (v_balance v - x) (v_codeHash v) (v_code v) (v_storage v) (v_committed v)) w)
  | OpSetBalance a x => Some (change a (fun v => MkView (v_nonce v) x (v_codeHash v) (v_code v) (v_storage v) (v_committed v)) w)
  | OpSetNonce a n => Some (change a (fun v => MkView n (v_balance v) (v_codeHash v) (v_code v) (v_storage v) (v_committed v)) w)
  | OpSetCode a c => Some (change a (fun v => MkView (v_nonce v) (v_balance v) (sum256 c) (Some c) (v_storage v) (v_committed v)) w)
  | OpSetState a k x =>
      Some (change a (fun v => MkView (v_nonce v) (v_balance v) (v_codeHash v) (v_code v)
                                 (fun k' => if decide (k' = k) then x else v_storage v k') (v_committed v)) w)
  | OpCreateAccount a => Some (change a (fun v => MkView 0 (v_balance v) EmptyCodeHash None (fun _ => zeroHash) (fun _ => zeroHash)) w)
  | OpAddLog p =>
      Some (MkWorld (w_account w) (w_refund w) (w_thash w) (w_txIndex w)
              (<[w_thash w := default [] (w_logs w !! w_thash w) ++ [stamp_log p (w_thash w) (u64 (w_txIndex w)) (w_logSize w)]]> (w_logs w))
              (u64 (w_logSize w + 1)) (w_preimages w) (w_access w))
  | OpAddPreimage h p =>
      Some (MkWorld (w_account w) (w_refund w) (w_thash w) (w_txIndex w) (w_logs w) (w_logSize w)
              (match w_preimages w !! h with Some _ => w_preimages w | None => <[h := p]> (w_preimages w) end) (w_access w))
  | OpAddRefund g =>
      Some (MkWorld (w_account w) (u64 (w_refund w + g)) (w_thash w) (w_txIndex w) (w_logs w) (w_logSize w) (w_preimages w) (w_access w))
  | OpSubRefund g =>
      if w_refund w <? g then None
      else Some (MkWorld (w_account w) (u64 (w_refund w - g)) (w_thash w) (w_txIndex w) (w_logs w) (w_logSize w) (w_preimages w) (w_access w))
  | OpAddAddress a =>
      Some (MkWorld (w_account w) (w_refund w) (w_thash w) (w_txIndex w) (w_logs w) (w_logSize w) (w_preimages w)
              (match w_access w !! a with Some _ => w_access w | None => <[a := ∅]> (w_access w) end))
  | OpAddSlot a k =>
      Some (MkWorld (w_account w) (w_refund w) (w_thash w) (w_txIndex w) (w_logs w) (w_logSize w) (w_preimages w)
              (<[a := default ∅ (w_access w !! a) ∪ {[k]}]> (w_access w)))
  | _ => Some w
  end.

(** A world and the worlds saved by the snapshots that are valid, newest first. *)
Record saved_world := MkSaved { sw_now : world; sw_saved : list (Z * world); sw_next : Z }.

(** Drop the snapshots after [id]. *)
Fixpoint restore (id : Z) (l : list (Z * world)) : option (world * list (Z * world)) :=
  match l with
  | [] => None
  | (i, w) :: l => if i =? id then Some (w, l) else restore id l
  end.

Definition spec_op (o : op) (s : saved_world) : option saved_world :=
  match o with
  | OpSnapshot => Some (MkSaved (sw_now s) ((sw_next s, sw_now s) :: sw_saved s) (sw_next s + 1))
  | OpRevert id => '(w, l) ← restore id (sw_saved s); Some (MkSaved w l (sw_next s))
  | _ => w ← spec_plain o (sw_now s); Some (MkSaved w (sw_saved s) (sw_next s))
  end.

Fixpoint spec_ops (ops : list op) (s : saved_world) : option saved_world :=
  match ops with
  | [] => Some s
  | o :: ops => s ← spec_op o s; spec_ops ops s
  end.

Definition spec_answers (w : world) (a k : bytes) : bool * bool * Z * Z * bytes * option bytes * bytes * bytes :=
  match w_account w a with
  | None => (false, true, 0, 0, zeroHash, None, zeroHash, zeroHash)
  | Some v =>
      (true, (v_nonce v =? 0) && (v_balance v =? 0) && bool_decide (v_codeHash v = EmptyCodeHash), v_balance v, v_nonce v,
       BytesToHash (v_codeHash v), v_code v, v_storage v k, v_committed v k)
  end.

End World.
