(* ===== verification/StateRevert.v ===== *)
(** * What a state shows, and undoing in states that show the same

    States are compared by what they show ([same]): objects may differ in what
    they have cached from the database and in values written back over
    themselves.  Reads do not change what a state shows, and undoing a journal
    entry in two states that show the same gives two states that show the
    same. *)

From S2P Require Import Prelude RlpRaw TrieNode TrieOps TrieHash StateAccess State.

Section Revert.
  Context `{HF : Hasher} {T ST E : Type} `{B : !Backend T ST E}.
  Abbreviation StateDB := (StateDB (T := T) (ST := ST) (E := E)).
  Abbreviation stateObject := (stateObject (ST := ST)).
  Abbreviation journalEntry := (journalEntry (ST := ST)).

(** ** What a state shows *)

(** The object at an address, loaded or not. *)
Definition obj_at (s : StateDB) (a : bytes) : option stateObject :=
  match stateObjects s !! a with
  | Some o => Some o
  | None => match load_account s a with inr (Some d) => Some (newObject a (Some d)) | _ => None end
  end.

Definition committed_val (s : StateDB) (o : stateObject) (k : bytes) : bytes := (obj_GetCommittedState o k s).1.1.
Definition state_val (s : StateDB) (o : stateObject) (k : bytes) : bytes := (obj_GetState o k s).1.1.
Definition code_val (s : StateDB) (o : stateObject) : option bytes := (obj_Code o s).1.1.

(** Two states read the same database in the same way. *)
Record env_eq (s1 s2 : StateDB) : Prop := MkEnvEq {
  ee_trie : s_trie s1 = s_trie s2;
  ee_snap : snap s1 = snap s2;
  ee_root : originalRoot s1 = originalRoot s2;
  ee_destruct : stateObjectsDestruct s1 = stateObjectsDestruct s2
}.

Record obj_eq (s1 s2 : StateDB) (o1 o2 : stateObject) : Prop := MkObjEq {
  oe_address : address o1 = address o2;
  oe_addrHash : addrHash o1 = addrHash o2;
  oe_origin : origin o1 = origin o2;
  oe_data : data o1 = data o2;
  oe_deleted : deleted o1 = deleted o2;
  oe_created : created o1 = created o2;
  oe_pending : pendingStorage o1 = pendingStorage o2;
  oe_committed : ∀ k, committed_val s1 o1 k = committed_val s2 o2 k;
  oe_state : ∀ k, state_val s1 o1 k = state_val s2 o2 k;
  oe_code : code_val s1 o1 = code_val s2 o2
}.

Definition obj_opt_eq (s1 s2 : StateDB) (x y : option stateObject) : Prop :=
  match x, y with
  | Some o1, Some o2 => obj_eq s1 s2 o1 o2
  | None, None => True
  | _, _ => False
  end.

Record same (s1 s2 : StateDB) : Prop := MkSame {
  sm_env : env_eq s1 s2;
  sm_accounts : accounts s1 = accounts s2;
  sm_storages : storages s1 = storages s2;
  sm_accountsOrigin : accountsOrigin s1 = accountsOrigin s2;
  sm_storagesOrigin : storagesOrigin s1 = storagesOrigin s2;
  sm_pending : stateObjectsPending s1 = stateObjectsPending s2;
  sm_dirty : stateObjectsDirty s1 = stateObjectsDirty s2;
  sm_refund : refund s1 = refund s2;
  sm_thash : thash s1 = thash s2;
  sm_txIndex : txIndex s1 = txIndex s2;
  sm_logs : logs s1 = logs s2;
  sm_logSize : logSize s1 = logSize s2;
  sm_preimages : preimages s1 = preimages s2;
  sm_accessList : s_accessList s1 = s_accessList s2;
  sm_objects : ∀ a, obj_opt_eq s1 s2 (obj_at s1 a) (obj_at s2 a)
}.

(** ** Reads depend on the environment only *)

Lemma load_account_env s1 s2 a : env_eq s1 s2 → load_account s1 a = load_account s2 a.
Proof. intros [Ht Hs _ _]. unfold load_account. by rewrite Ht, Hs. Qed.

(** The part of the environment that reads of the object at [a] see. *)
Definition env_at (s1 s2 : StateDB) (a : bytes) : Prop :=
  snap s1 = snap s2 ∧ originalRoot s1 = originalRoot s2 ∧ stateObjectsDestruct s1 !! a = stateObjectsDestruct s2 !! a.

Lemma env_eq_at s1 s2 a : env_eq s1 s2 → env_at s1 s2 a.
Proof. intros [? ? ? Hd]. unfold env_at. by rewrite Hd. Qed.

Lemma committed_env s1 s2 o k : env_at s1 s2 (address o) → committed_val s1 o k = committed_val s2 o k.
Proof.
  intros (Hs & Hr & Hd).
  assert (Hl : obj_LoadState o k s1 = obj_LoadState o k s2) by (unfold obj_LoadState, getTrie; by rewrite Hs, Hr).
  unfold committed_val, obj_GetCommittedState. rewrite Hd, Hl. repeat case_match; done.
Qed.

Lemma state_env s1 s2 o k : env_at s1 s2 (address o) → state_val s1 o k = state_val s2 o k.
Proof.
  intros He. unfold state_val, obj_GetState. destruct (dirtyStorage o !! k); [done |]. by apply committed_env.
Qed.

Lemma code_env s1 s2 o : code_val s1 o = code_val s2 o.
Proof. unfold code_val, obj_Code. repeat case_match; done. Qed.

Lemma obj_eq_env s1 s2 o : env_at s1 s2 (address o) → obj_eq s1 s2 o o.
Proof.
  intros He. constructor; try done; intros; [by apply committed_env | by apply state_env | apply code_env].
Qed.

Lemma obj_eq_refl s o : obj_eq s s o o.
Proof. by apply obj_eq_env. Qed.

Lemma obj_eq_trans s1 s2 s3 o1 o2 o3 : obj_eq s1 s2 o1 o2 → obj_eq s2 s3 o2 o3 → obj_eq s1 s3 o1 o3.
Proof.
  intros [A1 A2 A3 A4 A5 A6 A7 A8 A9 A10] [B1 B2 B3 B4 B5 B6 B7 B8 B9 B10].
  constructor; intros; rewrite ?A8, ?A9; congruence.
Qed.

Lemma obj_eq_sym s1 s2 o1 o2 : obj_eq s1 s2 o1 o2 → obj_eq s2 s1 o2 o1.
Proof. intros []. constructor; intros; by symmetry. Qed.

Lemma same_refl s : same s s.
Proof.
  constructor; [by constructor | done.. |]. intros a. unfold obj_opt_eq. destruct (obj_at s a); [apply obj_eq_refl | done].
Qed.

Lemma same_trans s1 s2 s3 : same s1 s2 → same s2 s3 → same s1 s3.
Proof.
  intros [[] ? ? ? ? ? ? ? ? ? ? ? ? ? Ho1] [[] ? ? ? ? ? ? ? ? ? ? ? ? ? Ho2].
  constructor; [constructor; by etrans | by etrans.. |]. intros a. specialize (Ho1 a). specialize (Ho2 a).
  unfold obj_opt_eq in *. destruct (obj_at s1 a), (obj_at s2 a), (obj_at s3 a); try done. by eapply obj_eq_trans.
Qed.

Lemma same_sym s1 s2 : same s1 s2 → same s2 s1.
Proof.
  intros [[] ? ? ? ? ? ? ? ? ? ? ? ? ? Ho]. constructor; [by constructor | done.. |]. intros a. specialize (Ho a).
  unfold obj_opt_eq in *. destruct (obj_at s1 a), (obj_at s2 a); try done. by apply obj_eq_sym.
Qed.

(** ** Reads and caches *)

Lemma getTrie_frame o s : let '(_, o') := getTrie o s in address o' = address o ∧ addrHash o' = addrHash o.
Proof. unfold getTrie. destruct (o_trie o); [done |]. by destruct (OpenStorageTrie _ _ _). Qed.

Lemma LoadState_cong s o1 o2 k :
  addrHash o1 = addrHash o2 → address o1 = address o2 → (getTrie o1 s).1 = (getTrie o2 s).1 →
  (obj_LoadState o1 k s).1.1 = (obj_LoadState o2 k s).1.1.
Proof.
  intros Hh Ha Ht. unfold obj_LoadState. rewrite Hh.
  destruct (match snap s with Some _ => _ | None => _ end) as [[value err] errs]. destruct err; [| done].
  pose proof (getTrie_frame o1 s) as F1. pose proof (getTrie_frame o2 s) as F2.
  destruct (getTrie o1 s) as [t1 o1'], (getTrie o2 s) as [t2 o2']. cbn in Ht. subst t2.
  destruct F1 as [-> _], F2 as [-> _]. rewrite Ha. destruct t1 as [e | t]; [done |]. by destruct (GetStorage t (address o2) k).
Qed.

Lemma committed_cong s o1 o2 k :
  pendingStorage o1 !! k = pendingStorage o2 !! k → originStorage o1 !! k = originStorage o2 !! k →
  addrHash o1 = addrHash o2 → address o1 = address o2 → (getTrie o1 s).1 = (getTrie o2 s).1 →
  committed_val s o1 k = committed_val s o2 k.
Proof.
  intros Hp Ho Hh Ha Ht. unfold committed_val, obj_GetCommittedState. rewrite Hp, Ho, Ha.
  destruct (pendingStorage o2 !! k); [done |]. destruct (originStorage o2 !! k); [done |].
  destruct (bool_decide _); [done |]. pose proof (LoadState_cong s o1 o2 k Hh Ha Ht) as H.
  destruct (obj_LoadState o1 k s) as [[v1 ?] ?], (obj_LoadState o2 k s) as [[v2 ?] ?]. done.
Qed.

Lemma state_cong s o1 o2 k :
  dirtyStorage o1 !! k = dirtyStorage o2 !! k → committed_val s o1 k = committed_val s o2 k →
  state_val s o1 k = state_val s o2 k.
Proof. intros Hd Hc. unfold state_val, obj_GetState. rewrite Hd. by destruct (dirtyStorage o2 !! k). Qed.

Lemma code_cong s o1 o2 :
  code o1 = code o2 → CodeHash (data o1) = CodeHash (data o2) → address o1 = address o2 → code_val s o1 = code_val s o2.
Proof. intros Hc Hh Ha. unfold code_val, obj_Code. rewrite Hc, Hh, Ha. repeat case_match; done. Qed.

Lemma trie_cache_eq s o : obj_eq s s o (getTrie o s).2.
Proof.
  assert (Ht : (getTrie (getTrie o s).2 s).1 = (getTrie o s).1).
  { unfold getTrie. destruct (o_trie o) eqn:Eo; cbn; [by rewrite Eo |].
    destruct (OpenStorageTrie _ _ _) eqn:Eop; cbn; [by rewrite Eo, Eop | done]. }
  assert (H : (getTrie o s).2 = o ∨ ∃ t, (getTrie o s).2 = set_trie_cache (Some t) o).
  { unfold getTrie. destruct (o_trie o); [by left |]. destruct (OpenStorageTrie _ _ _); [by left | right; eauto]. }
  destruct H as [-> | [t Et]]; [apply obj_eq_refl |]. rewrite Et in *.
  assert (Hc : ∀ k, committed_val s o k = committed_val s (set_trie_cache (Some t) o) k)
    by (intros; by apply committed_cong).
  constructor; try done; intros; [by apply state_cong | by apply code_cong].
Qed.

Lemma origin_cache_eq s o k v :
  pendingStorage o !! k = None → originStorage o !! k = None → committed_val s o k = v →
  obj_eq s s o (set_origin_cache k v o).
Proof.
  intros Hp Ho Hv.
  assert (Hc : ∀ k', committed_val s o k' = committed_val s (set_origin_cache k v o) k').
  { intros k'. destruct (decide (k' = k)) as [-> | Hne].
    - rewrite Hv. unfold committed_val, obj_GetCommittedState. cbn. by rewrite Hp, lookup_insert_eq.
    - apply committed_cong; cbn; [done | by rewrite lookup_insert_ne | done | done |].
      unfold getTrie. cbn. destruct (o_trie o); [done |]. by destruct (OpenStorageTrie _ _ _). }
  constructor; try done; intros; [by apply state_cong | by apply code_cong].
Qed.

Lemma code_cache_eq s o : obj_eq s s o (obj_Code o s).1.2.
Proof.
  unfold obj_Code. destruct (code o) eqn:Ec; [apply obj_eq_refl |].
  destruct (bool_decide _) eqn:Eb; [apply obj_eq_refl |].
  destruct (ContractCode (address o) (BytesToHash (CodeHash (data o)))) as [c err] eqn:Er. cbn.
  assert (Hc : ∀ k, committed_val s o k = committed_val s (set_code_cache c o) k).
  { intros. apply committed_cong; try done. unfold getTrie. cbn. destruct (o_trie o); [done |].
    by destruct (OpenStorageTrie _ _ _). }
  constructor; try done; intros; [by apply state_cong |].
  unfold code_val, obj_Code. cbn. rewrite Ec, Eb, Er. cbn. by destruct c; rewrite ?Eb, ?Er.
Qed.

Lemma note_errors errs (s : StateDB) : ∃ e, foldl (fun s e => setError e s) s errs = set_dbErr e s.
Proof.
  revert s; induction errs as [| x errs IH]; intros s; cbn.
  - exists (dbErr s). by destruct s.
  - destruct (IH (setError x s)) as [e ->]. exists e. unfold setError. by destruct (dbErr s).
Qed.

(** A read of storage: the value, the same object with more cached, and perhaps an
    error noted. *)
Lemma committed_read o k s v o' s' :
  obj_GetCommittedState o k s = (v, o', s') →
  v = committed_val s o k ∧ obj_eq s s o o' ∧ ∃ e, s' = set_dbErr e s.
Proof.
  intros Hr. assert (Hv : v = committed_val s o k) by (unfold committed_val; by rewrite Hr).
  split; [done |]. assert (Hs : ∃ e, s = set_dbErr e s) by (exists (dbErr s); by destruct s).
  unfold obj_GetCommittedState in Hr. destruct (pendingStorage o !! k) eqn:Hp.
  { injection Hr as _ <- <-. split; [apply obj_eq_refl | done]. }
  destruct (originStorage o !! k) eqn:Ho. { injection Hr as _ <- <-. split; [apply obj_eq_refl | done]. }
  destruct (bool_decide _). { injection Hr as _ <- <-. split; [apply obj_eq_refl | done]. }
  destruct (obj_LoadState o k s) as [[w o1] errs] eqn:El. injection Hr as -> <- <-.
  split; [| apply note_errors]. clear Hs. unfold obj_LoadState in El.
  destruct (match snap s with Some _ => _ | None => _ end) as [[value err] errs']. destruct err.
  - pose proof (trie_cache_eq s o) as Ht.
    assert (Hpo : pendingStorage (getTrie o s).2 !! k = None ∧ originStorage (getTrie o s).2 !! k = None).
    { unfold getTrie. destruct (o_trie o); [done |]. by destruct (OpenStorageTrie _ _ _). }
    destruct (getTrie o s) as [t o2]. cbn in *. destruct t as [e | t]; [by injection El as _ <- _ |].
    destruct (GetStorage t (address o2) k); injection El as <- <- _; [done |].
    eapply obj_eq_trans; [exact Ht |]. apply origin_cache_eq; [apply Hpo | apply Hpo |].
    by rewrite <- (oe_committed _ _ _ _ Ht).
  - injection El as <- <- _. by apply origin_cache_eq.
Qed.

Lemma state_read o k s v o' s' :
  obj_GetState o k s = (v, o', s') → v = state_val s o k ∧ obj_eq s s o o' ∧ ∃ e, s' = set_dbErr e s.
Proof.
  intros Hr. assert (Hv : v = state_val s o k) by (unfold state_val; by rewrite Hr).
  split; [done |]. unfold obj_GetState in Hr. destruct (dirtyStorage o !! k).
  - injection Hr as _ <- <-. split; [apply obj_eq_refl |]. exists (dbErr s). by destruct s.
  - by apply committed_read in Hr as (_ & ? & ?).
Qed.

Lemma code_read o s c o' s' :
  obj_Code o s = (c, o', s') → c = code_val s o ∧ obj_eq s s o o' ∧ ∃ e, s' = set_dbErr e s.
Proof.
  intros Hr. assert (Hv : c = code_val s o) by (unfold code_val; by rewrite Hr). split; [done |].
  pose proof (code_cache_eq s o) as Ho. rewrite Hr in Ho. split; [done |].
  assert (Hs : ∃ e, s = set_dbErr e s) by (exists (dbErr s); by destruct s).
  unfold obj_Code in Hr. destruct (code o); [by injection Hr as _ _ <- |].
  destruct (bool_decide _); [by injection Hr as _ _ <- |]. destruct (ContractCode _ _) as [x [e |]].
  - injection Hr as _ _ <-. destruct (note_errors [ErrCode (CodeHash (data o)) e] s) as [e' He]. by exists e'.
  - by injection Hr as _ _ <-.
Qed.

(** The same objects in other environments. *)
Lemma obj_eq_move s1 s2 s1' s2' o1 o2 :
  env_at s1 s1' (address o1) → env_at s2 s2' (address o2) → obj_eq s1 s2 o1 o2 → obj_eq s1' s2' o1 o2.
Proof.
  intros H1 H2 Ho. eapply obj_eq_trans; [apply obj_eq_sym, obj_eq_env, H1 |].
  eapply obj_eq_trans; [exact Ho | by apply obj_eq_env].
Qed.

(** ** Objects in the map *)

Lemma obj_at_set s o a : obj_at (setStateObject o s) a = if decide (a = address o) then Some o else obj_at s a.
Proof.
  unfold obj_at, setStateObject. cbn [stateObjects set_objects]. case_decide as Ha.
  - subst. by rewrite lookup_insert_eq.
  - by rewrite lookup_insert_ne.
Qed.

Lemma obj_at_live s a o : stateObjects s !! a = Some o → obj_at s a = Some o.
Proof. unfold obj_at. by intros ->. Qed.

(** Every object is at its address. *)
Definition addr_ok (s : StateDB) : Prop := ∀ a o, obj_at s a = Some o → address o = a.

Definition keeps (s s' : StateDB) : Prop :=
  s_journal s' = s_journal s ∧ validRevisions s' = validRevisions s ∧ nextRevisionId s' = nextRevisionId s.

Definition quiet (s s' : StateDB) : Prop := same s s' ∧ keeps s s'.

Lemma quiet_refl s : quiet s s.
Proof. split; [apply same_refl | done]. Qed.

Lemma keeps_trans s1 s2 s3 : keeps s1 s2 → keeps s2 s3 → keeps s1 s3.
Proof. intros (? & ? & ?) (? & ? & ?). split_and!; congruence. Qed.

Lemma quiet_trans s1 s2 s3 : quiet s1 s2 → quiet s2 s3 → quiet s1 s3.
Proof. intros [? ?] [? ?]. split; [by eapply same_trans | by eapply keeps_trans]. Qed.

Lemma same_dbErr e s : same s (set_dbErr e s).
Proof.
  constructor; try done. intros a. change (obj_at (set_dbErr e s) a) with (obj_at s a).
  unfold obj_opt_eq. destruct (obj_at s a); [by apply obj_eq_env | done].
Qed.

(** An object is replaced by one that shows the same. *)
Lemma same_put s o o' :
  obj_at s (address o') = Some o → obj_eq s s o o' → same s (setStateObject o' s).
Proof.
  intros Ho He. constructor; try done. intros a. rewrite obj_at_set. case_decide as Ha.
  - subst a. rewrite Ho. cbn. eapply obj_eq_trans; [exact He | by apply obj_eq_env].
  - unfold obj_opt_eq. destruct (obj_at s a); [by apply obj_eq_env | done].
Qed.

Lemma getDeleted_ok s a :
  ∃ s', getDeletedStateObject a s = (obj_at s a, s') ∧ quiet s s' ∧
    ∀ o, obj_at s a = Some o → stateObjects s' !! a = Some o.
Proof.
  unfold getDeletedStateObject, obj_at. destruct (stateObjects s !! a) as [o |] eqn:Eo.
  { exists s. split_and!; [done | apply quiet_refl | by intros ? [= <-]]. }
  destruct (load_account s a) as [e | [d |]] eqn:El.
  - destruct (note_errors [ErrAccount a e] s) as [e' He]. cbn in He. exists (setError (ErrAccount a e) s).
    split_and!; [done | | done]. rewrite He. split; [apply same_dbErr | done].
  - eexists. split_and!; [done | | intros ? [= <-]; cbn; by rewrite lookup_insert_eq].
    split; [| done]. apply (same_put s (newObject a (Some d))); [| apply obj_eq_refl]. unfold obj_at. cbn. by rewrite Eo, El.
  - exists s. split_and!; [done | apply quiet_refl | done].
Qed.

Definition live_at (s : StateDB) (a : bytes) : option stateObject :=
  match obj_at s a with Some o => if deleted o then None else Some o | None => None end.

Lemma getState_ok s a :
  ∃ s', getStateObject a s = (live_at s a, s') ∧ quiet s s' ∧
    ∀ o, obj_at s a = Some o → stateObjects s' !! a = Some o.
Proof.
  destruct (getDeleted_ok s a) as (s' & E1 & Hq & Ho). exists s'. unfold getStateObject, live_at. rewrite E1.
  split_and!; [| apply Hq | done]. destruct (obj_at s a) as [o |]; [by destruct (deleted o) | done].
Qed.

Lemma live_same s1 s2 a : same s1 s2 → obj_opt_eq s1 s2 (live_at s1 a) (live_at s2 a).
Proof.
  intros Hs. pose proof (sm_objects _ _ Hs a) as H. unfold live_at, obj_opt_eq in *.
  destruct (obj_at s1 a) as [o1 |], (obj_at s2 a) as [o2 |]; try done.
  rewrite <- (oe_deleted _ _ _ _ H). by destruct (deleted o1).
Qed.

(** ** Changes of objects *)

Lemma committed_with_data s d o k : Root d = Root (data o) → committed_val s (with_data d o) k = committed_val s o k.
Proof.
  intros Hr. apply committed_cong; try done. unfold getTrie. cbn. rewrite Hr.
  destruct (o_trie o); [done |]. by destruct (OpenStorageTrie _ _ _).
Qed.

Lemma committed_setCode s h c o k : committed_val s (setCode h c o) k = committed_val s o k.
Proof.
  apply committed_cong; try done. unfold getTrie. cbn.
  destruct (o_trie o); [done |]. by destruct (OpenStorageTrie _ _ _).
Qed.

Lemma committed_setState s k v o k' : committed_val s (setState k v o) k' = committed_val s o k'.
Proof.
  apply committed_cong; try done. unfold getTrie. cbn.
  destruct (o_trie o); [done |]. by destruct (OpenStorageTrie _ _ _).
Qed.

Lemma state_setState s k v o k' : state_val s (setState k v o) k' = if decide (k' = k) then v else state_val s o k'.
Proof.
  case_decide as Hk; [subst; unfold state_val, obj_GetState; cbn; by rewrite lookup_insert_eq |].
  apply state_cong; [cbn; by rewrite lookup_insert_ne | apply committed_setState].
Qed.

Lemma state_with_data s d o k : Root d = Root (data o) → state_val s (with_data d o) k = state_val s o k.
Proof. intros Hr. apply state_cong; [done | by apply committed_with_data]. Qed.

Lemma state_setCode s h c o k : state_val s (setCode h c o) k = state_val s o k.
Proof. apply state_cong; [done | apply committed_setCode]. Qed.

Lemma code_setCode s1 s2 h c o1 o2 : address o1 = address o2 → code_val s1 (setCode h c o1) = code_val s2 (setCode h c o2).
Proof. intros Ha. unfold code_val, obj_Code. cbn. rewrite Ha. repeat case_match; done. Qed.

(** Changes that keep the address and that objects that show the same show alike. *)
Definition respects (f : stateObject → stateObject) : Prop :=
  (∀ o, address (f o) = address o) ∧ ∀ s1 s2 o1 o2, obj_eq s1 s2 o1 o2 → obj_eq s1 s2 (f o1) (f o2).

Lemma respects_data (g : StateAccount → StateAccount) :
  (∀ d, Root (g d) = Root d) → (∀ d, CodeHash (g d) = CodeHash d) → respects (fun o => with_data (g (data o)) o).
Proof.
  intros Hr Hc. split; [done |]. intros s1 s2 o1 o2 [A1 A2 A3 A4 A5 A6 A7 A8 A9 A10].
  constructor; cbn; try done; intros; rewrite ?A4, ?committed_with_data, ?state_with_data by (rewrite ?A4; done); try done.
  rewrite (code_cong s1 (with_data (g (data o2)) o1) o1), (code_cong s2 (with_data (g (data o2)) o2) o2); try done; cbn; by rewrite Hc, ?A4.
Qed.

Lemma respects_setBalance b : respects (setBalance b).
Proof. by apply (respects_data (fun d => MkAccount (Nonce d) b (Root d) (CodeHash d))). Qed.

Lemma respects_setNonce n : respects (setNonce n).
Proof. by apply (respects_data (fun d => MkAccount n (Balance d) (Root d) (CodeHash d))). Qed.

Lemma respects_setCode h c : respects (setCode h c).
Proof.
  split; [done |]. intros s1 s2 o1 o2 [A1 A2 A3 A4 A5 A6 A7 A8 A9 A10].
  constructor; cbn; try done; intros; rewrite ?A4, ?committed_setCode, ?state_setCode; try done. by apply code_setCode.
Qed.

Lemma respects_setState k v : respects (setState k v).
Proof.
  split; [done |]. intros s1 s2 o1 o2 [A1 A2 A3 A4 A5 A6 A7 A8 A9 A10].
  constructor; cbn; try done; intros; rewrite ?committed_setState, ?state_setState, ?A9; try done.
  rewrite (code_cong s1 (setState k v o1) o1), (code_cong s2 (setState k v o2) o2); done.
Qed.

(** ** Undoing respects what states show *)

Lemma same_put2 s1 s2 o1 o2 :
  same s1 s2 → obj_eq s1 s2 o1 o2 → same (setStateObject o1 s1) (setStateObject o2 s2).
Proof.
  intros Hs Ho. destruct Hs as [He ? ? ? ? ? ? ? ? ? ? ? ? ? Hob]. constructor; try done.
  { destruct He. by constructor. }
  intros a. rewrite !obj_at_set, (oe_address _ _ _ _ Ho). case_decide.
  - cbn. by eapply obj_eq_move; [..| exact Ho].
  - specialize (Hob a). unfold obj_opt_eq in *. destruct (obj_at s1 a), (obj_at s2 a); try done.
    by eapply obj_eq_move; [..| exact Hob].
Qed.

Lemma undo_object_same a f s1 s2 s1' :
  respects f → same s1 s2 → undo_object a f s1 = Ok s1' →
  ∃ s2', undo_object a f s2 = Ok s2' ∧ same s1' s2'.
Proof.
  intros [Hfa Hf] Hs. unfold undo_object.
  destruct (getState_ok s1 a) as (t1 & -> & [Q1 _] & _), (getState_ok s2 a) as (t2 & -> & [Q2 _] & _).
  pose proof (live_same s1 s2 a Hs) as Hl. unfold obj_opt_eq in Hl.
  destruct (live_at s1 a) as [o1 |], (live_at s2 a) as [o2 |]; try done. intros [= <-]. eexists. split; [done |].
  apply same_put2; [exact (same_trans _ _ _ (same_sym _ _ Q1) (same_trans _ _ _ Hs Q2)) |].
  apply Hf. eapply obj_eq_move; [..| exact Hl]; apply env_eq_at; [apply Q1 | apply Q2].
Qed.

Lemma undo_object_frame a f s s' :
  respects f → undo_object a f s = Ok s' → keeps s s' ∧ (addr_ok s → addr_ok s').
Proof.
  intros [Hfa _]. unfold undo_object. destruct (getState_ok s a) as (t & -> & [Q K] & _).
  destruct (live_at s a) as [o |] eqn:El; [| done]. intros [= <-]. split; [exact K |]. intros Ha b o' Hb.
  assert (Ht : addr_ok t).
  { intros c oc Hc. pose proof (sm_objects _ _ Q c) as H. rewrite Hc in H. unfold obj_opt_eq in H.
    destruct (obj_at s c) as [oc' |] eqn:Ec; [| done]. rewrite <- (oe_address _ _ _ _ H). by apply Ha. }
  rewrite obj_at_set in Hb. case_decide; [by injection Hb as <- | by apply Ht].
Qed.

Lemma addr_same s s' : same s s' → addr_ok s → addr_ok s'.
Proof.
  intros Q Ha c oc Hc. pose proof (sm_objects _ _ Q c) as H. rewrite Hc in H. unfold obj_opt_eq in H.
  destruct (obj_at s c) as [oc' |] eqn:Ec; [| done]. rewrite <- (oe_address _ _ _ _ H). by apply Ha.
Qed.

Lemma same_journal j s : same s (set_journal j s).
Proof.
  constructor; try done. intros a. change (obj_at (set_journal j s) a) with (obj_at s a).
  unfold obj_opt_eq. destruct (obj_at s a); [by apply obj_eq_env | done].
Qed.

Lemma obj_at_ext s s' a :
  stateObjects s' = stateObjects s → s_trie s' = s_trie s → snap s' = snap s → obj_at s' a = obj_at s a.
Proof. intros Ho Ht Hs. unfold obj_at, load_account. by rewrite Ho, Ht, Hs. Qed.

Lemma obj_opt_move s1 s2 s1' s2' x y :
  (∀ o, x = Some o → env_at s1 s1' (address o)) → (∀ o, y = Some o → env_at s2 s2' (address o)) →
  obj_opt_eq s1 s2 x y → obj_opt_eq s1' s2' x y.
Proof.
  intros H1 H2 Ho. unfold obj_opt_eq in *. destruct x, y; try done. eapply obj_eq_move; [by apply H1 | by apply H2 | done].
Qed.

Lemma create_same a s1 s2 s1' :
  same s1 s2 → revert_entry (createObjectChange a) s1 = Ok s1' →
  ∃ s2', revert_entry (createObjectChange a) s2 = Ok s2' ∧ same s1' s2'.
Proof.
  intros Hs [= <-]. eexists. split; [done |]. pose proof Hs as [He ? ? ? ? ? Hd ? ? ? ? ? ? ? Ho].
  constructor; cbn; try done; [destruct He; by constructor | by rewrite Hd |]. intros b. specialize (Ho b).
  unfold obj_at in *. cbn [stateObjects set_objects set_objDirty]. destruct (decide (b = a)) as [-> | Hb].
  - rewrite !lookup_delete_eq. change (load_account (set_objDirty _ (set_objects _ ?s)) a) with (load_account s a).
    rewrite (load_account_env s1 s2 a He). unfold obj_opt_eq. destruct (load_account s2 a) as [| [d |]]; try done.
    apply obj_eq_env, env_eq_at. destruct He. by constructor.
  - rewrite !lookup_delete_ne by done. by eapply obj_opt_move; [| | exact Ho].
Qed.

Lemma reset_same a prev pd pa ps pe pao pso s1 s2 s1' :
  addr_ok s1 → same s1 s2 → revert_entry (resetObjectChange a prev pd pa ps pe pao pso) s1 = Ok s1' →
  ∃ s2', revert_entry (resetObjectChange a prev pd pa ps pe pao pso) s2 = Ok s2' ∧ same s1' s2'.
Proof.
  intros Ha Hs [= <-]. eexists. split; [done |]. pose proof (addr_same _ _ Hs Ha) as Ha2.
  pose proof Hs as [[He1 He2 He3 He4] Hac Hst Hao Hso ? Hd ? ? ? ? ? ? ? Ho].
  assert (Henv : ∀ s, (∀ b o, b ≠ address prev → obj_at s b = Some o → address o = b) → ∀ b, b ≠ address prev →
    ∀ o, obj_at s b = Some o →
    env_at s (if negb pd then set_destruct (base.delete (address prev) (stateObjectsDestruct (setStateObject prev s)))
               (setStateObject prev s) else setStateObject prev s) (address o)).
  { intros s Has b Hb o Hob. rewrite (Has _ _ Hb Hob). unfold env_at. destruct pd; cbn; [done |]. by rewrite lookup_delete_ne. }
  constructor; [destruct pd; constructor; cbn; by rewrite ?He4 |
    cbn; try (by destruct pd); (by destruct pd; cbn; rewrite ?Hac, ?Hst, ?Hao, ?Hso).. |].
  intros b. match goal with |- obj_opt_eq ?n1 ?n2 _ _ =>
    rewrite (obj_at_ext (setStateObject prev s1) n1) by (by destruct pd);
    rewrite (obj_at_ext (setStateObject prev s2) n2) by (by destruct pd) end.
  rewrite !obj_at_set. case_decide as Hb.
  - apply obj_eq_env. destruct pd; unfold env_at; cbn; by rewrite ?He4.
  - eapply obj_opt_move; [| | apply Ho]; intros o Hob; (eapply Henv; [by auto | exact Hb | exact Hob]).
Qed.

(** Undoing an entry in states that show the same. *)
Lemma revert_entry_same e s1 s2 s1' :
  addr_ok s1 → same s1 s2 → revert_entry e s1 = Ok s1' → ∃ s2', revert_entry e s2 = Ok s2' ∧ same s1' s2'.
Proof.
  intros Ha Hs Hr. destruct e; try (by eapply undo_object_same; [| exact Hs | exact Hr];
    eauto using respects_setBalance, respects_setNonce, respects_setCode, respects_setState).
  all: try (by eapply create_same); try (by eapply reset_same); cbn in Hr.
  all: pose proof Hs as [[? ? ? ?] ? ? ? ? ? Hd ? ? ? Hl Hls Hpre Hal Ho]; cbn; rewrite <- ?Hl, <- ?Hls, <- ?Hpre, <- ?Hal.
  all: repeat (case_match; simplify_eq); try (inv_bind Hr); simplify_eq; eexists; (split; [done |]).
  all: first [done | constructor; [by constructor | done.. |]].
  all: intros b; apply (obj_opt_move s1 s2); [done | done | apply Ho].
Qed.

Lemma revert_entry_frame e s s' : revert_entry e s = Ok s' → keeps s s' ∧ (addr_ok s → addr_ok s').
Proof.
  intros Hr. destruct e; try (by eapply undo_object_frame; [| exact Hr];
    eauto using respects_setBalance, respects_setNonce, respects_setCode, respects_setState).
  - injection Hr as <-. split; [done |]. intros Ha b o. unfold obj_at. cbn [stateObjects set_objects set_objDirty].
    destruct (decide (b = account)) as [-> | Hb]; [rewrite lookup_delete_eq | rewrite lookup_delete_ne by done; apply Ha].
    destruct (load_account _ _) as [| [d |]]; try done. by intros [= <-].
  - injection Hr as <-. split; [by destruct prevdestruct |]. intros Ha b o.
    match goal with |- obj_at ?n b = _ → _ => rewrite (obj_at_ext (setStateObject prev s) n) by (by destruct prevdestruct) end.
    rewrite obj_at_set. case_decide; [by intros [= <-] | apply Ha].
  - by injection Hr as <-.
  - cbn in Hr. case_if; [by injection Hr as <- |]. inv_bind Hr. by injection Hr as <-.
  - by injection Hr as <-.
  - by injection Hr as <-.
  - by injection Hr as <-.
  - cbn in Hr. inv_bind Hr. by injection Hr as <-.
Qed.

Lemma keeps_revert es s s' :
  revert_entries es s = Ok s' →
  s_journal s' = MkJournal (entries (s_journal s)) (foldl (fun d e => undirty e d) (dirties (s_journal s)) es) ∧
  validRevisions s' = validRevisions s ∧ nextRevisionId s' = nextRevisionId s ∧ (addr_ok s → addr_ok s').
Proof.
  revert s; induction es as [| e es IH]; intros s Hr; cbn in *.
  { injection Hr as <-. split_and!; try done. by destruct (s_journal s). }
  destruct (revert_entry e s) as [u | | |] eqn:Ee; try done. cbn in Hr.
  destruct (revert_entry_frame _ _ _ Ee) as ((Hj & Hv & Hn) & Ha). apply IH in Hr as (Hj' & Hv' & Hn' & Ha'). cbn in *.
  split_and!; [by rewrite Hj', Hj | congruence | congruence |]. intros H. apply Ha'.
  intros b o Hb. exact (Ha H b o Hb).
Qed.

Lemma revert_entries_same es s1 s2 s1' :
  addr_ok s1 → same s1 s2 → revert_entries es s1 = Ok s1' → ∃ s2', revert_entries es s2 = Ok s2' ∧ same s1' s2'.
Proof.
  revert s1 s2; induction es as [| e es IH]; intros s1 s2 Ha Hs Hr; cbn in *.
  { injection Hr as <-. eauto. }
  destruct (revert_entry e s1) as [u1 | | |] eqn:Ee; try done. cbn in Hr.
  destruct (revert_entry_same _ _ _ _ Ha Hs Ee) as (u2 & -> & Hu). cbn. eapply IH; [| | exact Hr].
  - intros b o Hb. exact (proj2 (revert_entry_frame _ _ _ Ee) Ha b o Hb).
  - exact (same_trans _ _ _ (same_sym _ _ (same_journal _ _)) (same_trans _ _ _ Hu (same_journal _ _))).
Qed.

Lemma revert_entries_app es1 es2 s : revert_entries (es1 ++ es2) s = (s ← revert_entries es1 s; revert_entries es2 s).
Proof.
  revert s; induction es1 as [| e es1 IH]; intros s; cbn; [done |]. destruct (revert_entry e s); cbn; [apply IH | done..].
Qed.
End Revert.
