(* ===== verification/StateSnapshot.v ===== *)
(** * Snapshots of the state

    The theorem of this file: whatever is done to a state after a snapshot, with
    other snapshots taken and reverted, RevertToSnapshot undoes.  Each operation
    is shown to be undone by the journal entries it appends ([undoes]); the
    snapshots that are valid form a chain of states, each undone from the next. *)

From S2P Require Import Prelude RlpRaw TrieNode TrieStore TrieOps TrieHash StateAccess State StateWorld StateRevert.

(** ** sort.Search *)

Lemma Search_loop_spec fuel f i j n :
  0 <= i <= j → j <= n → (Z.to_nat (j - i) < fuel)%nat →
  (∀ x y, 0 <= x <= y → y < n → f x = true → f y = true) →
  (∀ x, 0 <= x < i → f x = false) → (∀ x, j <= x < n → f x = true) →
  let r := Search_loop fuel f i j in
  0 <= r <= n ∧ (∀ x, 0 <= x < r → f x = false) ∧ (∀ x, r <= x < n → f x = true).
Proof.
  revert i j; induction fuel as [| fuel IH]; intros i j Hij Hj Hfuel Hmono Hlo Hhi; [lia |]. cbn.
  destruct (Z.ltb_spec i j) as [Hlt | Hge]; [| assert (i = j) as -> by lia; split_and!; [lia | lia | done | done]].
  rewrite Z.shiftr_div_pow2 by lia. change (2 ^ 1) with 2. pose proof (Z.div_mod (i + j) 2) as Hdm.
  pose proof (Z.mod_pos_bound (i + j) 2). set (h := (i + j) / 2) in *. destruct (f h) eqn:Eh; cbn [negb].
  - apply IH; try done; try lia. intros x Hx. eapply (Hmono h x); [lia | lia | done].
  - apply IH; try done; try lia. intros x Hx. destruct (f x) eqn:Ex; [| done].
    rewrite (Hmono x h) in Eh; [done | lia | lia | done].
Qed.

Lemma Search_spec f n :
  0 <= n → (∀ x y, 0 <= x <= y → y < n → f x = true → f y = true) →
  0 <= Search n f <= n ∧ (∀ x, 0 <= x < Search n f → f x = false) ∧ (∀ x, Search n f <= x < n → f x = true).
Proof. intros Hn Hm. apply Search_loop_spec; try done; lia. Qed.

Lemma u64_pred_succ n : 0 <= n < 2 ^ 64 → u64 (u64 (n + 1) - 1) = n.
Proof. intros Hn. unfold u64. rewrite Zminus_mod_idemp_l. replace (n + 1 - 1) with n by lia. by apply Z.mod_small. Qed.

Lemma slice_take {F A} (l : list A) i : (i <= length l)%nat → @slice F A l 0 (Z.of_nat i) = Ok (take i l).
Proof.
  intros Hi. transitivity (@slice F A (take i l ++ drop i l) 0 (Z.of_nat i)); [by rewrite take_drop |].
  apply slice_prefix_app. rewrite length_take. lia.
Qed.

Section Snapshot.
  Context `{HF : Hasher} `{HL : !HasherLaws} {T ST E : Type} `{B : !Backend T ST E}.
  Abbreviation StateDB := (StateDB (T := T) (ST := ST) (E := E)).
  Abbreviation stateObject := (stateObject (ST := ST)).
  Abbreviation journalEntry := (journalEntry (ST := ST)).

(** ** Changes that the journal undoes *)

Definition append_all (es : list journalEntry) (j : journal) : journal := foldl (fun j e => journal_append e j) j es.

(** The object that an entry brings back is at the address of the entry. *)
Definition entry_ok (e : journalEntry) : Prop :=
  match e with resetObjectChange a prev _ _ _ _ _ _ => address prev = a | _ => True end.

(** [s'] is [s] with changes whose entries, undone, show [s] again. *)
Definition undoes (s s' : StateDB) : Prop :=
  ∃ es, Forall entry_ok es ∧ s_journal s' = append_all es (s_journal s) ∧ ∃ u, revert_entries (rev es) s' = Ok u ∧ same s u.

Lemma append_all_app es1 es2 j : append_all (es1 ++ es2) j = append_all es2 (append_all es1 j).
Proof. apply foldl_app. Qed.

Lemma append_all_entries es j : entries (append_all es j) = entries j ++ es.
Proof.
  revert j; induction es as [| e es IH]; intros j; [cbn; by rewrite app_nil_r |].
  change (append_all (e :: es) j) with (append_all es (journal_append e j)). rewrite IH. cbn. by rewrite <- app_assoc.
Qed.

Lemma undoes_quiet s s' : quiet s s' → undoes s s'.
Proof. intros [Hs (Hj & _)]. exists []. split_and!; [constructor | done |]. exists s'. by split. Qed.

Lemma undoes_same s s' t : addr_ok s' → undoes s s' → same s' t → s_journal t = s_journal s' → undoes s t.
Proof.
  intros Ha (es & He & Hj & u & Hr & Hu) Hs Ht. exists es. split_and!; [done | congruence |].
  destruct (revert_entries_same _ _ _ _ Ha Hs Hr) as (v & Hv & Huv). exists v. split; [done |]. by eapply same_trans.
Qed.

Lemma undoes_trans s1 s2 s3 : addr_ok s2 → undoes s1 s2 → undoes s2 s3 → undoes s1 s3.
Proof.
  intros Ha (es1 & He1 & Hj1 & u1 & Hr1 & Hu1) (es2 & He2 & Hj2 & u2 & Hr2 & Hu2). exists (es1 ++ es2).
  split_and!; [by apply Forall_app | by rewrite append_all_app, Hj2, Hj1 |]. rewrite rev_app_distr, revert_entries_app, Hr2. cbn.
  destruct (revert_entries_same _ _ _ _ Ha Hu2 Hr1) as (v & Hv & Huv). exists v. split; [done |]. by eapply same_trans.
Qed.

Lemma undoes_one e s t u :
  s_journal t = journal_append e (s_journal s) → entry_ok e → revert_entry e t = Ok u → same s u → undoes s t.
Proof.
  intros Hj He Hr Hs. exists [e]. split_and!; [by repeat constructor | done |]. cbn. rewrite Hr. cbn. eexists. split; [done |].
  eapply same_trans; [exact Hs | apply same_journal].
Qed.

(** ** The dirty counters *)

Definition dirties_ok (j : journal (ST := ST)) : Prop := map_Forall (fun _ n => 1 <= n) (dirties j).

Lemma dirties_append e j : dirties_ok j → dirties_ok (journal_append e j).
Proof.
  intros Hd. unfold dirties_ok, journal_append. cbn. destruct (dirtied e) as [a |]; [| done].
  apply map_Forall_insert_2; [| done]. destruct (dirties j !! a) as [n |] eqn:En; cbn; [| lia]. specialize (Hd _ _ En). cbn in Hd. lia.
Qed.

Lemma dirties_append_all es j : dirties_ok j → dirties_ok (append_all es j).
Proof. revert j; induction es as [| e es IH]; intros j Hj; cbn; [done |]. by apply IH, dirties_append. Qed.

Lemma undirty_append e j : dirties_ok j → undirty e (dirties (journal_append e j)) = dirties j.
Proof.
  intros Hd. unfold undirty, journal_append. cbn. destruct (dirtied e) as [a |]; [| done].
  rewrite lookup_insert_eq, !insert_insert_eq. cbn. destruct (dirties j !! a) as [n |] eqn:En; cbn.
  - specialize (Hd _ _ En). cbn in Hd. rewrite (proj2 (Z.eqb_neq _ _)) by lia. replace (n + 1 - 1) with n by lia. by apply insert_id.
  - by apply delete_insert_id.
Qed.

Lemma undirty_all es j :
  dirties_ok j → foldl (fun d e => undirty e d) (dirties (append_all es j)) (rev es) = dirties j.
Proof.
  revert j; induction es as [| e es IH]; intros j Hj; [done |].
  change (append_all (e :: es) j) with (append_all es (journal_append e j)). cbn [rev].
  rewrite foldl_app. rewrite IH by by apply dirties_append. cbn [foldl]. by apply undirty_append.
Qed.

(** ** The invariant of states *)

Record inv (s : StateDB) : Prop := MkInv {
  iv_addr : addr_ok s;
  iv_code : ∀ a o, obj_at s a = Some o → length (CodeHash (data o)) = 32%nat;
  iv_dirty : ∀ a, a ∈ stateObjectsDirty s → is_Some (obj_at s a);
  iv_dirties : dirties_ok (s_journal s);
  iv_logs : map_Forall (fun _ l => l ≠ []) (logs s);
  iv_logSize : 0 <= logSize s < 2 ^ 64;
  iv_al : al_ok (s_accessList s)
}.

Lemma inv_same s s' : inv s → same s s' → dirties_ok (s_journal s') → inv s'.
Proof.
  intros [Ha Hc Hd ? Hl Hls Hal] Hs Hj. pose proof Hs as [_ _ _ _ _ _ Ed _ _ _ El Els _ Eal Ho]. constructor.
  - by eapply addr_same.
  - intros a o Hob. specialize (Ho a). rewrite Hob in Ho. unfold obj_opt_eq in Ho.
    destruct (obj_at s a) as [o' |] eqn:Eo; [| done]. rewrite <- (oe_data _ _ _ _ Ho). by eapply Hc.
  - intros a. rewrite <- Ed. intros [o Hob]%Hd. specialize (Ho a). rewrite Hob in Ho. unfold obj_opt_eq in Ho.
    destruct (obj_at s' a); [eauto | done].
  - done.
  - by rewrite <- El.
  - by rewrite <- Els.
  - by rewrite <- Eal.
Qed.

Lemma inv_quiet s s' : inv s → quiet s s' → inv s'.
Proof. intros Hi [Hs (Hj & _)]. eapply inv_same; [done | done |]. rewrite Hj. apply Hi. Qed.

Lemma inv_append s e : inv s → inv (append e s).
Proof. intros Hi. eapply inv_same; [done | apply same_journal |]. apply dirties_append, Hi. Qed.

Lemma inv_put s o : inv s → length (CodeHash (data o)) = 32%nat → inv (setStateObject o s).
Proof.
  intros [Ha Hc Hd ? Hl Hls Hal] Ho. constructor; try done.
  - intros b o'. rewrite obj_at_set. case_decide; [by intros [= <-] | apply Ha].
  - intros b o'. rewrite obj_at_set. case_decide; [by intros [= <-] | apply Hc].
  - intros b Hb. rewrite obj_at_set. case_decide; [eauto | by apply Hd].
Qed.

(** What every operation does: changes that the journal undoes, the invariant and
    the revisions kept. *)
Record step (s s' : StateDB) : Prop := MkStep {
  st_undoes : undoes s s';
  st_inv : inv s';
  st_valid : validRevisions s' = validRevisions s;
  st_next : nextRevisionId s' = nextRevisionId s
}.

Lemma step_quiet s s' : inv s → quiet s s' → step s s'.
Proof.
  intros Hi Hq. constructor; [by apply undoes_quiet | by eapply inv_quiet | apply Hq | apply Hq].
Qed.

Lemma step_trans s1 s2 s3 : step s1 s2 → step s2 s3 → step s1 s3.
Proof.
  intros [] []. constructor; [eapply undoes_trans; [| done | done]; by apply iv_addr | done | congruence | congruence].
Qed.

(** ** Operations on an object *)

Lemma same_overwrite s a o o1 o2 j :
  obj_at s a = Some o → address o1 = a → address o2 = a → obj_eq s s o o2 →
  same s (setStateObject o2 (setStateObject o1 (set_journal j s))).
Proof.
  intros Ho H1 H2 He. constructor; try done. intros b. rewrite !obj_at_set, H1, H2. case_decide as Hb.
  - subst b. rewrite Ho. cbn. eapply obj_eq_trans; [exact He | by apply obj_eq_env].
  - change (obj_at (set_journal j s) b) with (obj_at s b). unfold obj_opt_eq.
    destruct (obj_at s b); [by apply obj_eq_env | done].
Qed.

Lemma step_object s a o o1 g e :
  inv s → obj_at s a = Some o → address o1 = a → deleted o1 = false → length (CodeHash (data o1)) = 32%nat → entry_ok e →
  (∀ t, revert_entry e t = undo_object a g t) → address (g o1) = a → obj_eq s s o (g o1) →
  step s (setStateObject o1 (append e s)).
Proof.
  intros Hi Ho Ha Hdel Hc Hok He Hga Hobj. constructor; try done; [| by apply inv_put; [apply inv_append |]].
  eapply (undoes_one e); [done | done | | by eapply (same_overwrite s a o o1 (g o1))].
  rewrite He. unfold undo_object, getStateObject, getDeletedStateObject. cbn [stateObjects setStateObject set_objects].
  rewrite Ha, lookup_insert_eq, Hdel. done.
Qed.

Lemma live_code s a o : inv s → stateObjects s !! a = Some o → address o = a ∧ length (CodeHash (data o)) = 32%nat.
Proof. intros Hi Ho. apply obj_at_live in Ho. split; [by apply (iv_addr _ Hi) | by eapply iv_code]. Qed.

Lemma obj_SetBalance_step s a o x :
  inv s → stateObjects s !! a = Some o → deleted o = false → step s (obj_SetBalance x o s).
Proof.
  intros Hi Ho Hdel. destruct (live_code _ _ _ Hi Ho) as [Ha Hc]. unfold obj_SetBalance.
  apply (step_object s a o _ (setBalance (Balance (data o)))); try done; [by apply obj_at_live | by rewrite Ha |].
  replace (setBalance _ (setBalance x o)) with o by (by destruct o as [? ? ? [] ? ? ? ? ? ? ? ?]). apply obj_eq_refl.
Qed.

Lemma obj_SetNonce_step s a o x :
  inv s → stateObjects s !! a = Some o → deleted o = false → step s (obj_SetNonce x o s).
Proof.
  intros Hi Ho Hdel. destruct (live_code _ _ _ Hi Ho) as [Ha Hc]. unfold obj_SetNonce.
  apply (step_object s a o _ (setNonce (Nonce (data o)))); try done; [by apply obj_at_live | by rewrite Ha |].
  replace (setNonce _ (setNonce x o)) with o by (by destruct o as [? ? ? [] ? ? ? ? ? ? ? ?]). apply obj_eq_refl.
Qed.

Lemma obj_AddBalance_step s a o x :
  inv s → stateObjects s !! a = Some o → deleted o = false → step s (obj_AddBalance x o s).
Proof.
  intros Hi Ho Hdel. unfold obj_AddBalance. case_if; [| by eapply obj_SetBalance_step].
  case_if; [| by apply step_quiet, quiet_refl]. constructor; try done; [| by apply inv_append].
  eapply undoes_one; [done | done | done | apply same_journal].
Qed.

Lemma obj_SubBalance_step s a o x :
  inv s → stateObjects s !! a = Some o → deleted o = false → step s (obj_SubBalance x o s).
Proof.
  intros Hi Ho Hdel. unfold obj_SubBalance. case_if; [by apply step_quiet, quiet_refl | by eapply obj_SetBalance_step].
Qed.

Lemma code_val_set s o h : code_val s (setCode (CodeHash (data o)) (code_val s o) (setCode h (Some []) o)) = code_val s o.
Proof.
  unfold code_val at 1, obj_Code. cbn. destruct (code_val s o) eqn:Ec; [done |]. revert Ec.
  unfold code_val, obj_Code. destruct (code o); [done |]. case_match; [done |].
  destruct (ContractCode _ _) as [c err]. done.
Qed.

(** Code written back over another code. *)
Lemma setCode_back s o h c : obj_eq s s o (setCode (CodeHash (data o)) (code_val s o) (setCode h c o)).
Proof.
  constructor; try done; intros; [cbn; by destruct (data o) | by rewrite !committed_setCode | by rewrite !state_setCode |].
  rewrite <- (code_val_set s o h) at 1. by apply code_setCode.
Qed.

Lemma setState_back s o k v : obj_eq s s o (setState k (state_val s o k) (setState k v o)).
Proof.
  constructor; try done; intros; [by rewrite !committed_setState | | by apply code_cong].
  rewrite !state_setState. case_decide; [by subst | done].
Qed.

Lemma obj_SetCode_step s a o c :
  inv s → stateObjects s !! a = Some o → deleted o = false → step s (obj_SetCode (sum256 c) c o s).
Proof.
  intros Hi Ho Hdel. destruct (live_code _ _ _ Hi Ho) as [Ha Hc]. unfold obj_SetCode.
  destruct (obj_Code o s) as [[prevcode o'] s'] eqn:Er. apply code_read in Er as (-> & Ho' & [e ->]).
  pose proof Ho' as [Ea _ _ Ed Edel _ _ _ _ Ec]. eapply step_trans.
  { apply (step_quiet s (set_dbErr e s)); [done |]. split; [apply same_dbErr | done]. }
  assert (Hi' : inv (set_dbErr e s)) by (eapply inv_quiet; [exact Hi | split; [apply same_dbErr | done]]).
  apply (step_object (set_dbErr e s) a o _ (setCode (BytesToHash (CodeHash (data o'))) (code_val s o))); try done.
  - by apply obj_at_live.
  - cbn. congruence.
  - cbn. congruence.
  - cbn. apply sum256_length.
  - intros t. cbn. by rewrite <- Ea, Ha.
  - cbn. congruence.
  - rewrite BytesToHash_32, Ec by congruence. apply (obj_eq_move s s); [done | done |].
    eapply obj_eq_trans; [exact Ho' |]. apply setCode_back.
Qed.

Lemma obj_SetState_step s a o k v :
  inv s → stateObjects s !! a = Some o → deleted o = false → step s (obj_SetState k v o s).
Proof.
  intros Hi Ho Hdel. destruct (live_code _ _ _ Hi Ho) as [Ha Hc]. unfold obj_SetState.
  destruct (obj_GetState o k s) as [[prev o'] s'] eqn:Er. apply state_read in Er as (-> & Ho' & [e ->]).
  pose proof Ho' as [Ea _ _ Ed Edel _ _ _ Es _].
  assert (Hq : quiet s (setStateObject o' (set_dbErr e s))).
  { eapply quiet_trans; [split; [apply (same_dbErr e) | done] |]. split; [| done]. apply (same_put _ o).
    - rewrite <- Ea, Ha. by apply obj_at_live.
    - eapply obj_eq_move; [..| exact Ho']; done. }
  case_if; [by apply step_quiet |]. eapply step_trans; [by apply (step_quiet _ _ Hi Hq) |].
  assert (Hi' := inv_quiet _ _ Hi Hq). set (s1 := setStateObject o' (set_dbErr e s)) in *.
  apply (step_object s1 a o' _ (setState k (state_val s o k))); try done.
  - apply obj_at_live. cbn. by rewrite <- Ea, Ha, lookup_insert_eq.
  - cbn. congruence.
  - cbn. congruence.
  - cbn. congruence.
  - intros t. cbn. by rewrite <- Ea, Ha.
  - cbn. congruence.
  - rewrite Es, <- (state_env s1 s) by done. apply setState_back.
Qed.

(** ** Creating objects *)

Definition fresh_object (a : bytes) : stateObject :=
  MkObject a (sum256 a) None NewEmptyStateAccount None None ∅ ∅ ∅ false false true.

Lemma put_put o1 o2 (s : StateDB) : address o1 = address o2 → setStateObject o1 (setStateObject o2 s) = setStateObject o1 s.
Proof. intros Ha. unfold setStateObject, set_objects. cbn. by rewrite Ha, insert_insert_eq. Qed.

Lemma create_undone s a o1 :
  inv s → obj_at s a = None → address o1 = a →
  undoes s (setStateObject o1 (append (createObjectChange a) s)).
Proof.
  intros Hi Hn Ha. eapply undoes_one; [done | done | done |].
  assert (Hs : stateObjects s !! a = None) by (revert Hn; unfold obj_at; by destruct (stateObjects s !! a)).
  assert (Hd : stateObjectsDirty s ∖ {[a]} = stateObjectsDirty s).
  { apply difference_disjoint_L, disjoint_singleton_r. intros [o Ho]%(iv_dirty _ Hi). congruence. }
  cbn [setStateObject set_objects stateObjects append set_journal stateObjectsDirty]. rewrite Ha, delete_insert_id, Hd by done.
  constructor; try done. intros b. unfold obj_opt_eq.
  match goal with |- context [obj_at (set_objDirty ?d ?t) b] => rewrite (obj_at_ext s (set_objDirty d t)) by done end.
  destruct (obj_at s b); [by apply obj_eq_env | done].
Qed.

(** The state between the entry of createObject and the new object. *)
Definition reset_state (a : bytes) (p : stateObject) (s : StateDB) : StateDB :=
  let prevdestruct := bool_decide (is_Some (stateObjectsDestruct s !! address p)) in
  let s := if prevdestruct then s else set_destruct (<[address p := origin p]> (stateObjectsDestruct s)) s in
  let s := append (resetObjectChange a p prevdestruct (accounts s !! addrHash p) (storages s !! addrHash p)
             (bool_decide (is_Some (accountsOrigin s !! address p))) (mjoin (accountsOrigin s !! address p))
             (storagesOrigin s !! address p)) s in
  set_caches (base.delete (addrHash p) (accounts s)) (base.delete (addrHash p) (storages s))
    (base.delete (address p) (accountsOrigin s)) (base.delete (address p) (storagesOrigin s)) s.

Lemma restore_deleted {A} (k : bytes) (m : gmap bytes A) :
  match m !! k with Some x => <[k := x]> (base.delete k m) | None => base.delete k m end = m.
Proof. destruct (m !! k) eqn:Ek; [by rewrite insert_delete_id | by apply delete_id]. Qed.

Lemma restore_deleted_opt {A} (k : bytes) (m : gmap bytes (option A)) :
  (if bool_decide (is_Some (m !! k)) then <[k := mjoin (m !! k)]> (base.delete k m) else base.delete k m) = m.
Proof.
  case_bool_decide as Hk; [destruct Hk as [x Hk]; rewrite Hk; by rewrite insert_delete_id |].
  apply delete_id. by apply eq_None_not_Some.
Qed.

Lemma put_back s u a p o1 :
  obj_at s a = Some p → address p = a → address o1 = a → env_eq s u →
  stateObjects u = <[address p := p]> (<[address o1 := o1]> (stateObjects s)) →
  ∀ b, obj_opt_eq s u (obj_at s b) (obj_at u b).
Proof.
  intros Ho Hp Ha He Hu b. rewrite (obj_at_ext (setStateObject p (setStateObject o1 s)) u); [| done | by destruct He..].
  rewrite !obj_at_set, Hp, Ha. unfold obj_opt_eq. case_decide as Hb; [subst b; rewrite Ho | destruct (obj_at s b); [| done]].
  all: by apply obj_eq_env, env_eq_at.
Qed.

Lemma reset_undone s a p o1 :
  obj_at s a = Some p → address p = a → address o1 = a → undoes s (setStateObject o1 (reset_state a p s)).
Proof.
  intros Ho Hp Ha. pose proof (restore_deleted (addrHash p) (accounts s)) as R1.
  pose proof (restore_deleted (addrHash p) (storages s)) as R2.
  pose proof (restore_deleted_opt (address p) (accountsOrigin s)) as R3.
  pose proof (restore_deleted (address p) (storagesOrigin s)) as R4.
  destruct (bool_decide (is_Some (stateObjectsDestruct s !! address p))) eqn:Ed.
  all: assert (Hdel : bool_decide (is_Some (stateObjectsDestruct s !! address p)) = false →
    stateObjectsDestruct s = base.delete (address p) (<[address p := origin p]> (stateObjectsDestruct s)))
    by (intros ?%bool_decide_eq_false; rewrite delete_insert_id; [done | by apply eq_None_not_Some]).
  all: eapply undoes_one; [unfold reset_state; rewrite Ed; cbn; reflexivity | exact Hp | reflexivity |].
  all: unfold reset_state; rewrite Ed; cbn.
  all: rewrite R1, R2, R3, R4; (constructor; try done).
  - apply (put_back s _ a p o1); done.
  - constructor; try done. by apply Hdel.
  - apply (put_back s _ a p o1); try done. constructor; try done. by apply Hdel.
Qed.

Lemma inv_reset s a p : inv s → inv (reset_state a p s).
Proof.
  intros [Ha Hc Hd Hj Hl Hls Hal].
  assert (Ho : ∀ b, obj_at (reset_state a p s) b = obj_at s b) by (intros b; apply obj_at_ext; unfold reset_state; by case_match).
  constructor; [| | | unfold reset_state; case_match; by apply dirties_append | by unfold reset_state; case_match..].
  - intros b o. rewrite Ho. apply Ha.
  - intros b o. rewrite Ho. apply Hc.
  - intros b Hb. rewrite Ho. apply Hd. revert Hb. unfold reset_state. by case_match.
Qed.

(** The two cases of createObject, after the object has been looked up. *)
Lemma createObject_shape s a :
  inv s → ∃ t mid, quiet s t ∧ createObject a s = (live_at s a, setStateObject (fresh_object a) mid) ∧
    (obj_at t a = None ∧ mid = append (createObjectChange a) t ∨
     ∃ p, obj_at t a = Some p ∧ address p = a ∧ mid = reset_state a p t).
Proof.
  intros Hi. destruct (getDeleted_ok s a) as (t & Et & Hq & Hl). exists t. unfold createObject. rewrite Et.
  pose proof (sm_objects _ _ (proj1 Hq) a) as Hoa. unfold live_at. destruct (obj_at s a) as [p |] eqn:Ep.
  - exists (reset_state a p t). split_and!; [done | done |]. right. exists p.
    split_and!; [by apply obj_at_live, Hl | by apply (iv_addr _ Hi) | done].
  - exists (append (createObjectChange a) t). split_and!; [done | done |]. left. split; [| done].
    unfold obj_opt_eq in Hoa. by destruct (obj_at t a).
Qed.

Lemma createObject_ok s a :
  inv s → ∃ mid, createObject a s = (live_at s a, setStateObject (fresh_object a) mid) ∧ inv mid ∧
    validRevisions mid = validRevisions s ∧ nextRevisionId mid = nextRevisionId s ∧
    ∀ o1, address o1 = a → undoes s (setStateObject o1 mid).
Proof.
  intros Hi. destruct (createObject_shape s a Hi) as (t & mid & Hq & Ec & Hcase). exists mid.
  assert (Hit := inv_quiet _ _ Hi Hq). pose proof Hq as [_ (_ & Hv & Hn)].
  assert (Hundo : ∀ o1, undoes t (setStateObject o1 mid) → undoes s (setStateObject o1 mid)).
  { intros o1 Hu. eapply undoes_trans; [apply Hit | by apply undoes_quiet | done]. }
  destruct Hcase as [[Hnone ->] | (p & Hp & Ha & ->)].
  - split_and!; [done | by apply inv_append | done | done |]. intros o1 Ho1. by apply Hundo, create_undone.
  - split_and!; [done | by apply inv_reset | by unfold reset_state; case_match | by unfold reset_state; case_match |].
    intros o1 Ho1. by apply Hundo, reset_undone.
Qed.

Lemma createObject_step s a o1 :
  inv s → address o1 = a → length (CodeHash (data o1)) = 32%nat →
  step s (setStateObject o1 (createObject a s).2).
Proof.
  intros Hi Ha Hc. destruct (createObject_ok s a Hi) as (mid & -> & Him & Hv & Hn & Hu). cbn [snd].
  rewrite put_put by done. constructor; [by apply Hu | by apply inv_put | done | done].
Qed.

Lemma EmptyCodeHash_32 : length EmptyCodeHash = 32%nat.
Proof. apply sum256_length. Qed.

Lemma GetOrNew_step s a :
  inv s → step s (GetOrNewStateObject a s) ∧
  ∃ o, stateObjects (GetOrNewStateObject a s) !! a = Some o ∧ deleted o = false.
Proof.
  intros Hi. unfold GetOrNewStateObject. destruct (getState_ok s a) as (t & -> & Hq & Hl).
  destruct (live_at s a) as [o |] eqn:El.
  - split; [by apply step_quiet |]. exists o. unfold live_at in El. destruct (obj_at s a) as [o' |] eqn:Eo; [| done].
    destruct (deleted o') eqn:Ed; [done |]. injection El as ->. split; [by apply Hl | done].
  - assert (Hit := inv_quiet _ _ Hi Hq). split.
    + eapply step_trans; [by apply (step_quiet _ _ Hi Hq) |].
      destruct (createObject_ok t a Hit) as (mid & E1 & _).
      replace (createObject a t).2 with (setStateObject (fresh_object a) (createObject a t).2)
        by (rewrite E1; cbn [snd]; by apply put_put).
      apply createObject_step; [done | done | apply EmptyCodeHash_32].
    + destruct (createObject_ok t a Hit) as (mid & -> & _). exists (fresh_object a). split; [| done].
      cbn [snd]. apply lookup_insert_eq.
Qed.

Lemma with_object_step s a f :
  inv s → (∀ t o, inv t → stateObjects t !! a = Some o → deleted o = false → step t (f o t)) → step s (with_object a f s).
Proof.
  intros Hi Hf. destruct (GetOrNew_step s a Hi) as [Hs (o & Ho & Hd)]. unfold with_object. rewrite Ho.
  eapply step_trans; [exact Hs |]. apply Hf; [apply Hs | done | done].
Qed.

Lemma CreateAccount_step s a : inv s → step s (CreateAccount a s).
Proof.
  intros Hi. unfold CreateAccount. destruct (createObject_ok s a Hi) as (mid & E1 & _).
  pose proof (createObject_step s a (fresh_object a) Hi eq_refl EmptyCodeHash_32) as Hfresh.
  rewrite E1 in *. cbn [snd] in Hfresh. rewrite put_put in Hfresh by done.
  destruct (live_at s a) as [p |]; [| exact Hfresh]. cbn [stateObjects setStateObject set_objects].
  rewrite lookup_insert_eq.
  pose proof (createObject_step s a (setBalance (Balance (data p)) (fresh_object a)) Hi eq_refl EmptyCodeHash_32) as H.
  by rewrite E1 in H.
Qed.

(** ** Other operations *)

Lemma objects_ext s u :
  stateObjects u = stateObjects s → env_eq s u → ∀ b, obj_opt_eq s u (obj_at s b) (obj_at u b).
Proof.
  intros Ho He b. rewrite (obj_at_ext s u) by (done || by destruct He). unfold obj_opt_eq.
  destruct (obj_at s b); [by apply obj_eq_env, env_eq_at | done].
Qed.

Ltac show_same := constructor; try done; by apply objects_ext.

Lemma AddLog_step s p : inv s → step s (AddLog p s).
Proof.
  intros Hi. pose proof Hi as [Ha Hc Hd Hj Hl Hls Hal]. constructor; try done.
  - eapply (undoes_one (addLogChange (thash s)) s (AddLog p s)
      (set_logs (logs s) (logSize s) (AddLog p s))); [done | done | | show_same].
    unfold AddLog. cbn. rewrite lookup_insert_eq, u64_pred_succ by done. cbn. rewrite len_app.
    destruct (logs s !! thash s) as [l |] eqn:El; cbn.
    + assert (l ≠ []) by by apply (Hl _ _ El). rewrite (proj2 (Z.eqb_neq _ _)) by (destruct l; cbn; [done | lia]).
      rewrite (slice_prefix_app l) by (cbn; lia). cbn. by rewrite insert_insert_eq, insert_id.
    + by rewrite delete_insert_id.
  - constructor; try done; [| apply Z.mod_pos_bound; lia].
    cbn. apply map_Forall_insert_2; [| done]. by destruct (default [] _).
Qed.

Lemma AddPreimage_step s h p : inv s → step s (AddPreimage h p s).
Proof.
  intros Hi. unfold AddPreimage. destruct (preimages s !! h) eqn:Eh; [by apply step_quiet, quiet_refl |].
  constructor; try done; [| by destruct Hi; constructor].
  eapply undoes_one; [done | done | done |]. cbn. rewrite delete_insert_id by done. show_same.
Qed.

Lemma refund_step s x : inv s → step s (set_refund x (append (refundChange (refund s)) s)).
Proof.
  intros Hi. constructor; try done; [| by destruct Hi; constructor].
  eapply undoes_one; [done | done | done |]. show_same.
Qed.

Lemma AddAddress_step s a : inv s → step s (AddAddressToAccessList a s).
Proof.
  intros Hi. unfold AddAddressToAccessList. pose proof (AddAddress_spec a _ (iv_al _ Hi)) as H.
  destruct (AddAddress a (s_accessList s)) as [added al]. destruct H as (Hok & _ & _ & Hu).
  assert (Hi' : inv (set_accessList al s)) by (destruct Hi; by constructor).
  destruct added; [| subst al; apply step_quiet; [done |]; split; [show_same | done]].
  constructor; try done; [| by apply inv_append].
  eapply undoes_one; [done | done | done |]. cbn. rewrite Hu. show_same.
Qed.

Lemma AddSlot_step s a k s' : inv s → AddSlotToAccessList a k s = Ok s' → step s s'.
Proof.
  intros Hi Hr. unfold AddSlotToAccessList in Hr.
  destruct (@AddSlot_spec Empty_set a k _ (iv_al _ Hi)) as ([am sm] & al & E1 & Hok & _ & _ & Hu).
  rewrite E1 in Hr. cbn in Hr. injection Hr as <-. unfold undo_add in Hu. cbn in Hu.
  assert (Hi' : inv (set_accessList al s)) by (destruct Hi; by constructor).
  constructor; [| | by destruct am, sm | by destruct am, sm].
  2: { destruct am, sm; by repeat apply inv_append. }
  exists ((if am then [accessListAddAccountChange a] else []) ++ (if sm then [accessListAddSlotChange a k] else [])).
  split_and!; [destruct am, sm; by repeat constructor | by destruct am, sm |].
  destruct sm; [inv_bind Hu; injection Hu as Hu; destruct am | cbn in Hu; injection Hu as Hu; destruct am]; cbn.
  all: repeat match goal with H : DeleteSlot _ _ _ = _ |- _ => rewrite H; cbn; clear H end.
  all: eexists; (split; [reflexivity |]); cbn; rewrite ?Hu; subst; show_same.
Qed.

(** ** Reading *)

Definition reads {A} (f : stateObject → StateDB → A * stateObject * StateDB) : Prop :=
  ∀ o t v o' t', f o t = (v, o', t') → obj_eq t t o o' ∧ ∃ e, t' = set_dbErr e t.

Lemma read_quiet {A} a (d : A) f s : reads f → addr_ok s → quiet s (read_object a d f s).2.
Proof.
  intros Hf Ha. unfold read_object. destruct (getState_ok s a) as (t & -> & Hq & Hl). unfold live_at.
  destruct (obj_at s a) as [o |] eqn:Eo; [| done]. destruct (deleted o); [done |].
  destruct (f o t) as [[v o'] t'] eqn:Ef. apply Hf in Ef as (Ho & [e ->]). cbn [snd].
  eapply quiet_trans; [exact Hq |]. eapply quiet_trans; [split; [apply (same_dbErr e) | done] |]. split; [| done].
  apply (same_put _ o); [| by apply (obj_eq_move t t)].
  rewrite <- (oe_address _ _ _ _ Ho), (Ha _ _ Eo). by apply obj_at_live, Hl.
Qed.

Lemma read_same {A} a (d : A) f s1 s2 :
  (∀ t1 t2 o1 o2, obj_eq t1 t2 o1 o2 → (f o1 t1).1.1 = (f o2 t2).1.1) → same s1 s2 →
  (read_object a d f s1).1 = (read_object a d f s2).1.
Proof.
  intros Hf Hs. unfold read_object. destruct (getState_ok s1 a) as (t1 & -> & [Q1 _] & _).
  destruct (getState_ok s2 a) as (t2 & -> & [Q2 _] & _). pose proof (live_same s1 s2 a Hs) as Hl. unfold obj_opt_eq in Hl.
  destruct (live_at s1 a) as [o1 |], (live_at s2 a) as [o2 |]; try done.
  assert (Ho : obj_eq t1 t2 o1 o2).
  { apply (obj_eq_move s1 s2); [apply env_eq_at, Q1 | apply env_eq_at, Q2 | done]. }
  apply Hf in Ho. destruct (f o1 t1) as [[] ?], (f o2 t2) as [[] ?]. done.
Qed.

(** What the getters of StateDB answer. *)
Definition shown (s : StateDB) (a k : bytes) : bool * bool * Z * Z * bytes * option bytes * bytes * bytes * bytes :=
  ((Exist a s).1, (Empty a s).1, (GetBalance a s).1, (GetNonce a s).1, (GetCodeHash a s).1, (GetCode a s).1,
   (GetStorageRoot a s).1, (GetState a k s).1, (GetCommittedState a k s).1).

Lemma shown_same s1 s2 a k : same s1 s2 → shown s1 a k = shown s2 a k.
Proof.
  intros Hs. unfold shown. repeat (apply f_equal2).
  all: apply read_same; [| exact Hs]; intros t1 t2 o1 o2 [A1 A2 A3 A4 A5 A6 A7 A8 A9 A10]; cbn; unfold empty; rewrite ?A4; try done.
  - apply A9.
  - apply A8.
Qed.

(** ** Runs of operations *)

Definition run_op (o : op) (s : StateDB) : outcome Empty_set StateDB :=
  match o with
  | OpAddBalance a x => Ok (AddBalance a x s)
  | OpSubBalance a x => Ok (SubBalance a x s)
  | OpSetBalance a x => Ok (SetBalance a x s)
  | OpSetNonce a n => Ok (SetNonce a n s)
  | OpSetCode a c => Ok (SetCode a c s)
  | OpSetState a k v => Ok (SetState a k v s)
  | OpCreateAccount a => Ok (CreateAccount a s)
  | OpAddLog p => Ok (AddLog p s)
  | OpAddPreimage h p => Ok (AddPreimage h p s)
  | OpAddRefund g => Ok (AddRefund g s)
  | OpSubRefund g => SubRefund g s
  | OpAddAddress a => Ok (AddAddressToAccessList a s)
  | OpAddSlot a k => AddSlotToAccessList a k s
  | OpGetBalance a => Ok (GetBalance a s).2
  | OpGetCode a => Ok (GetCode a s).2
  | OpGetState a k => Ok (GetState a k s).2
  | OpGetCommittedState a k => Ok (GetCommittedState a k s).2
  | OpSnapshot => Ok (Snapshot s).2
  | OpRevert id => RevertToSnapshot id s
  end.

Fixpoint run_ops (ops : list op) (s : StateDB) : outcome Empty_set StateDB :=
  match ops with
  | [] => Ok s
  | o :: ops => s ← run_op o s; run_ops ops s
  end.

Lemma plain_step o s s' : plain o = true → inv s → run_op o s = Ok s' → step s s'.
Proof.
  intros Hp Hi Hr. pose proof (iv_addr _ Hi) as Ha.
  assert (Hread : ∀ A a (d : A) f, reads f → step s (read_object a d f s).2)
    by (intros; apply step_quiet; [done | by apply read_quiet]).
  destruct o; try done; cbn [run_op] in Hr; try (injection Hr as <-).
  - apply with_object_step; [done |]. intros. by eapply obj_AddBalance_step.
  - apply with_object_step; [done |]. intros. by eapply obj_SubBalance_step.
  - apply with_object_step; [done |]. intros. by eapply obj_SetBalance_step.
  - apply with_object_step; [done |]. intros. by eapply obj_SetNonce_step.
  - apply with_object_step; [done |]. intros. by eapply obj_SetCode_step.
  - apply with_object_step; [done |]. intros. by eapply obj_SetState_step.
  - by apply CreateAccount_step.
  - by apply AddLog_step.
  - by apply AddPreimage_step.
  - by apply refund_step.
  - unfold SubRefund in Hr. cbn zeta in Hr. case_if; [done |]. injection Hr as <-. by apply refund_step.
  - by apply AddAddress_step.
  - by eapply AddSlot_step.
  - apply Hread. intros o t v o' t' [= _ <- <-]. split; [apply obj_eq_refl |]. exists (dbErr t). by destruct t.
  - apply Hread. intros o t v o' t' Hf. by apply code_read in Hf as (_ & ? & ?).
  - apply Hread. intros o t v o' t' Hf. by apply state_read in Hf as (_ & ? & ?).
  - apply Hread. intros o t v o' t' Hf. by apply committed_read in Hf as (_ & ? & ?).
Qed.

(** ** Snapshots *)

(** The valid revisions are those of the states [gs], oldest first, in which they
    were taken; each state is undone from the later ones. *)
Record linked (s : StateDB) (gs : list (Z * StateDB)) : Prop := MkLinked {
  lk_valid : validRevisions s = map (fun g => (g.1, len (entries (s_journal g.2)))) gs;
  lk_incr : ∀ i j g h, (i < j)%nat → gs !! i = Some g → gs !! j = Some h → g.1 < h.1 ∧ undoes g.2 h.2;
  lk_last : ∀ i g, gs !! i = Some g → g.1 < nextRevisionId s ∧ undoes g.2 s;
  lk_inv : ∀ i g, gs !! i = Some g → inv g.2 ∧ validRevisions g.2 = take i (validRevisions s)
}.

Definition consistent (s : StateDB) : Prop := inv s ∧ ∃ gs, linked s gs.

Lemma linked_step s s' gs : inv s → step s s' → linked s gs → linked s' gs.
Proof.
  intros Hi [Hu Hi' Hv Hn] [Lv Li Ll Lg]. constructor; [congruence | done | | intros; rewrite Hv; by apply Lg].
  intros i g Hg. rewrite Hn. split; [by eapply Ll |]. eapply undoes_trans; [apply Hi | by eapply Ll | done].
Qed.

Lemma undoes_refl s : undoes s s.
Proof. apply undoes_quiet, quiet_refl. Qed.

Lemma same_revisions v n s : same s (set_revisions v n s).
Proof. constructor; try done. by apply objects_ext. Qed.

Lemma Snapshot_linked s gs :
  inv s → linked s gs → inv (Snapshot s).2 ∧ linked (Snapshot s).2 (gs ++ [((Snapshot s).1, s)]).
Proof.
  intros Hi [Lv Li Ll Lg].
  assert (Hi' : inv (Snapshot s).2) by (eapply inv_same; [exact Hi | apply same_revisions | apply Hi]).
  assert (Hu : ∀ g, undoes g s → undoes g (Snapshot s).2)
    by (intros g Hg; eapply undoes_same; [apply Hi | exact Hg | apply same_revisions | done]).
  assert (Hlen : length (validRevisions s) = length gs) by (by rewrite Lv, length_map).
  split; [done |]. constructor.
  - cbn. by rewrite Lv, map_app.
  - intros i j g h Hij Hg Hh. apply lookup_app_Some in Hh as [Hh | [Hle Hh]].
    + apply (Li i j); try done. rewrite lookup_app_l in Hg; [done |]. apply lookup_lt_Some in Hh. lia.
    + apply list_lookup_singleton_Some in Hh as [? <-]. rewrite lookup_app_l in Hg by lia. by eapply Ll.
  - intros i g Hg. cbn. apply lookup_app_Some in Hg as [Hg | [_ Hg]].
    + destruct (Ll _ _ Hg). split; [lia | by apply Hu].
    + apply list_lookup_singleton_Some in Hg as [_ <-]. cbn. split; [lia | apply Hu, undoes_refl].
  - intros i g Hg. cbn. apply lookup_app_Some in Hg as [Hg | [Hle Hg]].
    + rewrite take_app_le by (apply lookup_lt_Some in Hg; lia). by eapply Lg.
    + apply list_lookup_singleton_Some in Hg as [Hi0 <-]. cbn. split; [done |].
      rewrite take_app_length'; [done | lia].
Qed.

(** The search of RevertToSnapshot finds the revision. *)
Lemma Search_revision (revs : list (Z * Z)) i id n :
  revs !! i = Some (id, n) →
  (∀ j k r q, (j < k)%nat → revs !! j = Some r → revs !! k = Some q → r.1 < q.1) →
  Search (len revs) (fun i => match revs !! Z.to_nat i with Some r => id <=? r.1 | None => false end) = Z.of_nat i.
Proof.
  intros Hi Hincr. set (f := fun i => _). pose proof (lookup_lt_Some _ _ _ Hi) as Hlt.
  assert (Hm : ∀ x y, 0 <= x <= y → y < len revs → f x = true → f y = true).
  { intros x y Hxy Hy. unfold f. destruct (lookup_lt_is_Some_2 revs (Z.to_nat x) ltac:(lia)) as [r Hr].
    destruct (lookup_lt_is_Some_2 revs (Z.to_nat y) ltac:(lia)) as [q Hq]. rewrite Hr, Hq, !Z.leb_le.
    destruct (decide (x = y)) as [-> | Hne]; [congruence |]. specialize (Hincr (Z.to_nat x) (Z.to_nat y) _ _ ltac:(lia) Hr Hq). lia. }
  destruct (Search_spec f (len revs) ltac:(lia) Hm) as (Hr & Hlo & Hhi).
  assert (f (Z.of_nat i) = true) by (unfold f; rewrite Nat2Z.id, Hi; cbn; lia).
  destruct (Z.lt_trichotomy (Search (len revs) f) (Z.of_nat i)) as [Hlt' | [? | Hgt]]; [| done |].
  - specialize (Hhi (Search (len revs) f) ltac:(lia)). unfold f at 1 in Hhi.
    destruct (revs !! Z.to_nat (Search (len revs) f)) as [r |] eqn:Er; [| done]. apply Z.leb_le in Hhi.
    specialize (Hincr (Z.to_nat (Search (len revs) f)) i _ _ ltac:(lia) Er Hi). cbn in Hincr. lia.
  - specialize (Hlo (Z.of_nat i) ltac:(lia)). congruence.
Qed.

Lemma journal_revert_ok g s :
  undoes g s → inv g → inv s →
  ∃ u, journal_revert (len (entries (s_journal g))) s = Ok u ∧ same g u ∧ s_journal u = s_journal g ∧
    validRevisions u = validRevisions s ∧ nextRevisionId u = nextRevisionId s ∧ inv u.
Proof.
  intros (es & _ & Hj & u & Hr & Hu) Hg Hs. unfold journal_revert.
  rewrite Nat2Z.id, Hj, append_all_entries, drop_app_length, Hr. cbn.
  destruct (keeps_revert _ _ _ Hr) as (Hju & Hvu & Hnu & _).
  rewrite Hju, Hj, append_all_entries, undirty_all by apply Hg. cbn. rewrite (slice_prefix_app (entries (s_journal g))) by done.
  cbn. eexists. assert (Hsame := same_trans _ _ _ Hu (same_journal (MkJournal (entries (s_journal g)) (dirties (s_journal g))) u)).
  split_and!; [done | done | by destruct (s_journal g) | done | done |]. eapply inv_same; [exact Hg | done | apply Hg].
Qed.

Lemma Revert_ok s gs i id g :
  inv s → linked s gs → gs !! i = Some (id, g) →
  ∃ s', RevertToSnapshot id s = Ok s' ∧ same g s' ∧ s_journal s' = s_journal g ∧
    validRevisions s' = validRevisions g ∧ inv s' ∧ linked s' (take i gs).
Proof.
  intros Hi [Lv Li Ll Lg] Hg. destruct (Lg _ _ Hg) as [Hig Hvg], (Ll _ _ Hg) as [Hn Hu]. cbn in *.
  destruct (journal_revert_ok g s Hu Hig Hi) as (u & Hju & Hsu & Hjo & Hvu & Hnu & Hiu).
  assert (Hrev : validRevisions s !! i = Some (id, len (entries (s_journal g)))) by (by rewrite Lv, list_lookup_fmap, Hg).
  unfold RevertToSnapshot. rewrite (Search_revision _ i id _ Hrev), Nat2Z.id, Hrev.
  2: { intros j k r q Hjk. rewrite Lv, !list_lookup_fmap. intros (g1 & H1 & ->)%fmap_Some (g2 & H2 & ->)%fmap_Some.
       by apply (Li j k). }
  rewrite Z.eqb_refl, Hju. cbn. pose proof (lookup_lt_Some _ _ _ Hrev) as Hlt. rewrite Hvu.
  rewrite slice_take by lia. cbn.
  set (s' := set_revisions _ _ _).
  assert (Hs' : same g s') by (eapply same_trans; [exact Hsu | apply same_revisions]).
  eexists. split_and!; [done | done | done | done | eapply inv_same; [exact Hig | done | cbn; rewrite Hjo; apply Hig] |].
  constructor.
  - cbn. rewrite Lv, firstn_map. done.
  - intros j k h1 h2 Hjk. rewrite !lookup_take_Some. intros [? _] [? _]. by apply (Li j k).
  - intros j h. rewrite lookup_take_Some. intros [Hh Hji]. cbn. rewrite Hnu. split; [by eapply Ll |].
    eapply undoes_same; [apply Hig | by apply (Li j i h (id, g)) | exact Hs' | done].
  - intros j h. rewrite lookup_take_Some. intros [Hh Hji]. cbn. rewrite take_take, Nat.min_l by lia. by eapply Lg.
Qed.

Lemma Revert_known s s' gs id :
  linked s gs → RevertToSnapshot id s = Ok s' → ∃ i g, gs !! i = Some (id, g).
Proof.
  intros [Lv _ _ _] Hr. unfold RevertToSnapshot in Hr. set (idx := Z.to_nat _) in Hr. exists idx. revert Hr.
  rewrite Lv at 1. rewrite list_lookup_fmap. destruct (gs !! idx) as [[id' g] |]; [| done]. cbn.
  destruct (Z.eqb_spec id' id) as [-> | Hne]; [eauto | done].
Qed.

Lemma Revert_next s s' id : RevertToSnapshot id s = Ok s' → nextRevisionId s' = nextRevisionId s.
Proof.
  unfold RevertToSnapshot, journal_revert. destruct (_ !! _) as [[id' n] |]; [| done]. case_if; [done |]. intros Hr.
  destruct (revert_entries _ s) as [u | | |] eqn:Eu; try done. cbn in Hr. apply keeps_revert in Eu as (_ & _ & Hn & _).
  destruct (slice (entries _) _ _); try done. cbn in Hr. destruct (slice _ _ _); try done. cbn in Hr. by injection Hr as <-.
Qed.

(** Operations that do not revert to the snapshot [id] or an older one. *)
Definition newer (id : Z) (o : op) : Prop := match o with OpRevert i => id < i | _ => True end.

Lemma run_op_linked o s gs s' i id g :
  inv s → linked s gs → gs !! i = Some (id, g) → newer id o → run_op o s = Ok s' →
  ∃ gs', inv s' ∧ linked s' gs' ∧ gs' !! i = Some (id, g).
Proof.
  intros Hi Hl Hg Hn Hr. destruct (plain o) eqn:Ep.
  { assert (Hs := plain_step _ _ _ Ep Hi Hr). exists gs. split_and!; [apply Hs | by eapply linked_step | done]. }
  destruct o; try done; cbn [run_op] in Hr.
  - injection Hr as <-. destruct (Snapshot_linked _ _ Hi Hl) as [Hi' Hl']. eexists. split_and!; [done | exact Hl' |].
    by apply lookup_app_l_Some.
  - destruct (Revert_known _ _ _ _ Hl Hr) as (j & h & Hj). destruct (Revert_ok _ _ _ _ _ Hi Hl Hj) as (t & Et & _ & _ & _ & Hi' & Hl').
    rewrite Et in Hr. injection Hr as <-. exists (take j gs). split_and!; [done | done |].
    apply lookup_take_Some. split; [done |]. destruct (decide (i < j)%nat) as [? | Hge]; [done |]. cbn in Hn.
    destruct (decide (j = i)) as [-> | Hne]; [rewrite Hg in Hj; simplify_eq; lia |].
    destruct (lk_incr _ _ Hl j i _ _ ltac:(lia) Hj Hg) as [Hlt _]. cbn in Hlt. lia.
Qed.

Lemma run_ops_linked ops s gs s' i id g :
  inv s → linked s gs → gs !! i = Some (id, g) → Forall (newer id) ops → run_ops ops s = Ok s' →
  ∃ gs', inv s' ∧ linked s' gs' ∧ gs' !! i = Some (id, g).
Proof.
  revert s gs; induction ops as [| o ops IH]; intros s gs Hi Hl Hg Hn Hr; cbn in Hr.
  { injection Hr as <-. by exists gs. }
  inv_bind Hr. apply Forall_cons_1 in Hn as [Ho Hn].
  edestruct run_op_linked as (gs' & Hi' & Hl' & Hg'); [exact Hi | exact Hl | exact Hg | exact Ho | done |].
  by eapply IH.
Qed.

Lemma new_consistent root OpenTrie snaps s :
  NewState root OpenTrie snaps = inr s →
  (∀ a d, load_account s a = inr (Some d) → length (CodeHash d) = 32%nat) → consistent s.
Proof.
  unfold NewState. destruct (OpenTrie root) as [e | tr]; [done |]. intros [= <-] Hc. set (s := MkState _ _ _ _ _ _ _ _ _ _ _ _ _ _ _ _ _ _ _ _ _ _) in *.
  assert (Ho : ∀ a o, obj_at s a = Some o → address o = a ∧ length (CodeHash (data o)) = 32%nat).
  { intros a o. unfold obj_at. cbn [stateObjects s]. rewrite lookup_empty.
    destruct (load_account s a) as [| [d |]] eqn:El; try done. intros [= <-]. split; [done | by eapply Hc]. }
  split.
  - constructor; try (intros ? ? ?; by eapply Ho); cbn; [set_solver | done | done | lia | apply new_ok].
  - exists []. by constructor.
Qed.

(** C16.  RevertToSnapshot undoes everything since the snapshot: take a snapshot of
    a consistent state, run any operations, with further snapshots and reverts to
    those, and RevertToSnapshot succeeds with a state in which every getter
    answers for every account and slot as before the snapshot, with the refund
    counter, the logs, the preimages, the access list, the journal with its dirty
    counters and the valid revisions that were there, and which is consistent
    again. *)
Theorem RevertToSnapshot_restores s ops s2 :
  consistent s → Forall (newer (Snapshot s).1) ops → run_ops ops (Snapshot s).2 = Ok s2 →
  ∃ s3, RevertToSnapshot (Snapshot s).1 s2 = Ok s3 ∧ consistent s3 ∧
    (∀ a k, shown s3 a k = shown s a k) ∧
    refund s3 = refund s ∧ logs s3 = logs s ∧ logSize s3 = logSize s ∧ preimages s3 = preimages s ∧
    s_accessList s3 = s_accessList s ∧ s_journal s3 = s_journal s ∧ validRevisions s3 = validRevisions s.
Proof.
  intros [Hi [gs Hl]] Hn Hr. destruct (Snapshot_linked _ _ Hi Hl) as [Hi1 Hl1].
  assert (Hg : (gs ++ [((Snapshot s).1, s)]) !! length gs = Some ((Snapshot s).1, s)) by by apply list_lookup_middle.
  destruct (run_ops_linked _ _ _ _ _ _ _ Hi1 Hl1 Hg Hn Hr) as (gs2 & Hi2 & Hl2 & Hg2).
  destruct (Revert_ok _ _ _ _ _ Hi2 Hl2 Hg2) as (s3 & E3 & Hs & Hj & Hv & Hi3 & Hl3). exists s3.
  split_and!; [done | by split; [| eexists] | intros; symmetry; by apply shown_same | by destruct Hs.. | done | done].
Qed.
End Snapshot.

(** ** A database to run on *)

(** Accounts in a map; account [1;1] has a slot 7 with value 9 and code [6;0]. *)
Definition toy_backend : Backend (gmap bytes StateAccount) bytes unit := {|
  GetAccount := fun t a => inr (t !! a);
  OpenStorageTrie := fun _ a _ => inr a;
  GetStorage := fun t _ k => inr (if bool_decide (t = [1; 1] ∧ k = [7]) then [9] else []);
  ContractCode := fun _ _ => (Some [6; 0], None);
  ContractCodeSize := fun _ _ => (2, None)
|}.
#[local] Existing Instance toy_backend.
#[local] Existing Instance toy_hash.
#[local] Existing Instance toy_hash_laws.

Definition toy_accounts : gmap bytes StateAccount := {[ [1; 1] := MkAccount 3 500 (repeat 5 32) (repeat 6 32) ]}.

Definition toy_state : StateDB (T := gmap bytes StateAccount) (ST := bytes) (E := unit) :=
  match NewState [] (fun _ => inr toy_accounts) None with inr s => s | inl _ => MkState toy_accounts None [] ∅ ∅ ∅ ∅ ∅ ∅ ∅ ∅ None 0 [] 0 ∅ 0 ∅ newAccessList newJournal [] 0 end.

Lemma toy_consistent : consistent toy_state.
Proof.
  apply (new_consistent [] (fun _ => inr toy_accounts) None); [reflexivity |].
  intros a d. unfold load_account. cbn [snap toy_state NewState GetAccount toy_backend s_trie]. intros [= Hd].
  unfold toy_accounts in Hd. apply lookup_singleton_Some in Hd as [_ <-]. reflexivity.
Qed.

Definition toy_log (d : bytes) : Log := MkLog [1; 1] [[7]] d 12 [] 0 [] 0.

(** Changes of an existing and of a new account, with an inner snapshot that is
    reverted. *)
Definition toy_ops : list op :=
  [OpGetState [1; 1] [7]; OpSetState [1; 1] [7] [4]; OpAddBalance [2] 10; OpSnapshot; OpCreateAccount [1; 1];
   OpSetCode [2] [1; 2; 3]; OpAddLog (toy_log [1]); OpRevert 1; OpSubBalance [1; 1] 100; OpAddSlot [2] [8]; OpAddRefund 5;
   OpSubRefund 3; OpAddLog (toy_log [2]); OpAddPreimage [3] [4]; OpSetNonce [1; 1] 4; OpSetCode [1; 1] [9]].

Lemma RevertToSnapshot_restores_witness :
  ∃ s2 s3, run_ops toy_ops (Snapshot toy_state).2 = Ok s2 ∧ shown s2 [1; 1] [7] ≠ shown toy_state [1; 1] [7] ∧
    RevertToSnapshot (Snapshot toy_state).1 s2 = Ok s3 ∧ ∀ a k, shown s3 a k = shown toy_state a k.
Proof.
  assert (Hn : Forall (newer (Snapshot toy_state).1) toy_ops) by (cbn; repeat constructor).
  destruct (run_ops toy_ops (Snapshot toy_state).2) as [s2 | | |] eqn:Er; [| vm_compute in Er; discriminate Er..].
  destruct (RevertToSnapshot_restores toy_state toy_ops s2 toy_consistent Hn Er) as (s3 & H3 & _ & Hsh & _).
  exists s2, s3. split_and!; [done | | done | done]. vm_compute in Er. injection Er as <-. vm_compute. discriminate.
Defined.
