(* ===== verification/StateTidy.v ===== *)
(** * Accounts that a transaction has not changed

    An account that no entry of the journal names shows in every slot what it had
    when the transaction began, and without entries there is no refund: what
    Finalise relies on when it moves only the accounts of the journal. *)

From S2P Require Import Prelude RlpRaw TrieNode TrieOps TrieHash StateAccess State StateRevert StateSnapshot.

Section Tidy.
  Context `{HF : Hasher} `{HL : !HasherLaws} {T ST E : Type} `{B : !Backend T ST E}.
  Abbreviation StateDB := (StateDB (T := T) (ST := ST) (E := E)).
  Abbreviation stateObject := (stateObject (ST := ST)).
  Abbreviation journalEntry := (journalEntry (ST := ST)).

Record tidy (s : StateDB) : Prop := MkTidy {
  ty_refund : entries (s_journal s) = [] → refund s = 0;
  ty_object : ∀ a o, obj_at s a = Some o → deleted o = false → dirties (s_journal s) !! a = None → ∀ k, state_val s o k = committed_val s o k
}.

Lemma obj_opt_trans s1 s2 s3 x y z : obj_opt_eq s1 s2 x y → obj_opt_eq s2 s3 y z → obj_opt_eq s1 s3 x z.
Proof. unfold obj_opt_eq. destruct x, y, z; try done. apply obj_eq_trans. Qed.

Lemma tidy_objects s s' :
  (∀ a, obj_opt_eq s s' (obj_at s a) (obj_at s' a)) → s_journal s' = s_journal s → refund s' = refund s → tidy s → tidy s'.
Proof.
  intros Hs Hj Er [Hr Ho]. constructor; [by rewrite Hj, Er |]. intros a o Hob Hd Hn k.
  specialize (Hs a). rewrite Hob in Hs. unfold obj_opt_eq in Hs. destruct (obj_at s a) as [o' |] eqn:Eo; [| done].
  rewrite <- (oe_state _ _ _ _ Hs), <- (oe_committed _ _ _ _ Hs). apply (Ho a); [done | | by rewrite <- Hj]. by rewrite (oe_deleted _ _ _ _ Hs).
Qed.

Lemma tidy_same s s' : same s s' → s_journal s' = s_journal s → tidy s → tidy s'.
Proof. intros Hs Hj. apply tidy_objects; [apply Hs | done | symmetry; apply Hs]. Qed.

(** ** Undoing leaves the other accounts alone *)

Lemma undo_object_other b f s s' a :
  addr_ok s → respects f → a ≠ b → undo_object b f s = Ok s' → obj_opt_eq s s' (obj_at s a) (obj_at s' a).
Proof.
  intros Ha [Hf _] Hab. unfold undo_object. destruct (getState_ok s b) as (t & -> & [Q _] & _).
  destruct (live_at s b) as [o |] eqn:El; [| done]. intros [= <-].
  assert (Hob : address (f o) = b).
  { rewrite Hf. unfold live_at in El. destruct (obj_at s b) as [o' |] eqn:Eo; [| done]. destruct (deleted o'); [done |]. injection El as ->. by apply Ha. }
  rewrite obj_at_set, decide_False by congruence. eapply obj_opt_move; [done | | apply (sm_objects _ _ Q)]. done.
Qed.

Lemma revert_entry_other e s s' a :
  addr_ok s → entry_ok e → dirtied e ≠ Some a → revert_entry e s = Ok s' → obj_opt_eq s s' (obj_at s a) (obj_at s' a).
Proof.
  intros Ha He Hd Hr. destruct e; cbn in Hd;
    try (by eapply undo_object_other; [done | | | exact Hr]; [eauto using respects_setBalance, respects_setNonce, respects_setCode, respects_setState | congruence]).
  - injection Hr as <-. unfold obj_at. cbn [stateObjects set_objects set_objDirty]. rewrite lookup_delete_ne by congruence.
    change (load_account (set_objDirty _ _) a) with (load_account s a). unfold obj_opt_eq. repeat case_match; try done; by apply obj_eq_env.
  - injection Hr as <-. cbn in He.
    match goal with |- obj_opt_eq _ ?n _ _ => rewrite (obj_at_ext (setStateObject prev s) n) by (by destruct prevdestruct) end.
    rewrite obj_at_set, decide_False by congruence. unfold obj_opt_eq. destruct (obj_at s a) as [o |] eqn:Eo; [| done].
    apply obj_eq_env. unfold env_at. rewrite (Ha _ _ Eo). destruct prevdestruct; cbn; [done |]. by rewrite lookup_delete_ne by congruence.
  - injection Hr as <-. by apply objects_ext.
  - cbn in Hr. case_if; [injection Hr as <-; by apply objects_ext |]. inv_bind Hr. injection Hr as <-. by apply objects_ext.
  - injection Hr as <-. by apply objects_ext.
  - injection Hr as <-. by apply objects_ext.
  - injection Hr as <-. by apply objects_ext.
  - cbn in Hr. inv_bind Hr. injection Hr as <-. by apply objects_ext.
Qed.

Lemma revert_entries_other es s s' a :
  addr_ok s → Forall entry_ok es → Forall (fun e => dirtied e ≠ Some a) es → revert_entries es s = Ok s' →
  obj_opt_eq s s' (obj_at s a) (obj_at s' a).
Proof.
  revert s; induction es as [| e es IH]; intros s Ha He Hd Hr; cbn in Hr.
  { injection Hr as <-. unfold obj_opt_eq. destruct (obj_at s a); [apply obj_eq_refl | done]. }
  inversion He; inversion Hd; subst. destruct (revert_entry e s) as [u | | |] eqn:Ee; try done. cbn in Hr.
  eapply obj_opt_trans; [by eapply revert_entry_other |]. eapply obj_opt_trans; [| eapply IH; [| done | done | exact Hr]].
  - apply (same_journal _ u).
  - intros b o Hb. exact (proj2 (revert_entry_frame _ _ _ Ee) Ha b o Hb).
Qed.

Lemma append_all_dirties es j a :
  dirties (append_all es j) !! a = None → dirties j !! a = None ∧ Forall (fun e : journalEntry => dirtied e ≠ Some a) es.
Proof.
  revert j; induction es as [| e es IH]; intros j H; [done |]. change (append_all (e :: es) j) with (append_all es (journal_append e j)) in H.
  apply IH in H as [H1 H2]. cbn in H1. destruct (dirtied e) as [b |] eqn:Ed.
  - apply lookup_insert_None in H1 as [H1 Hb]. split; [done |]. constructor; [congruence | done].
  - split; [done |]. by constructor; [congruence |].
Qed.

Lemma tidy_undoes s s' : addr_ok s' → tidy s → undoes s s' → tidy s'.
Proof.
  intros Ha [Hr Ho] (es & He & Hj & u & Hu & Hs). constructor.
  - rewrite Hj, append_all_entries. intros [Hn ->]%app_nil. cbn in Hu. injection Hu as <-. rewrite <- (sm_refund _ _ Hs). by apply Hr.
  - intros a o Hob Hd Hn k. rewrite Hj in Hn. apply append_all_dirties in Hn as [Hn Hes].
    pose proof (revert_entries_other (rev es) s' u a Ha) as H. rewrite Hob in H.
    pose proof (sm_objects _ _ Hs a) as H2. unfold obj_opt_eq in *. destruct (obj_at u a) as [ou |]; [| by destruct H; try done; apply Forall_rev].
    destruct (obj_at s a) as [os |] eqn:Eo; [| done]. assert (H1 : obj_eq s' u o ou) by (apply H; [by apply Forall_rev.. | done]).
    rewrite (oe_state _ _ _ _ H1), (oe_committed _ _ _ _ H1), <- (oe_state _ _ _ _ H2), <- (oe_committed _ _ _ _ H2).
    apply (Ho a); [done | | done]. by rewrite (oe_deleted _ _ _ _ H2), <- (oe_deleted _ _ _ _ H1).
Qed.

(** A new state has nothing in memory. *)
Lemma tidy_new root OpenTrie snaps s : NewState root OpenTrie snaps = inr s → tidy s.
Proof.
  unfold NewState. destruct (OpenTrie root); [done |]. intros [= <-]. constructor; [done |]. intros a o. unfold obj_at. cbn [stateObjects]. rewrite lookup_empty.
  destruct (load_account _ a) as [| [d |]]; try done. by intros [= <-].
Qed.
End Tidy.
