(* ===== verification/StateSpec.v ===== *)
(** * The state refines worlds of accounts

    The theorem that every run of operations on a StateDB does what the
    specification of StateWorld does, and fails when it fails. *)

From S2P Require Import Prelude RlpRaw TrieNode TrieStore TrieOps TrieHash StateAccess State StateWorld StateRevert StateSnapshot StateTidy.

Section Spec.
  Context `{HF : Hasher} `{HL : !HasherLaws} {T ST E : Type} `{B : !Backend T ST E}.
  Abbreviation StateDB := (StateDB (T := T) (ST := ST) (E := E)).
  Abbreviation stateObject := (stateObject (ST := ST)).

(** ** What a state shows as a world *)

Definition view_of (s : StateDB) (o : stateObject) : account :=
  MkView (Nonce (data o)) (Balance (data o)) (CodeHash (data o)) (code_val s o) (state_val s o) (committed_val s o).

Definition view (s : StateDB) (a : bytes) : option account := view_of s <$> live_at s a.

(** Storage is compared slot by slot. *)
Definition account_eq (v1 v2 : account) : Prop :=
  v_nonce v1 = v_nonce v2 ∧ v_balance v1 = v_balance v2 ∧ v_codeHash v1 = v_codeHash v2 ∧ v_code v1 = v_code v2 ∧
  (∀ k, v_storage v1 k = v_storage v2 k) ∧ ∀ k, v_committed v1 k = v_committed v2 k.

#[export] Instance account_eq_equiv : Equivalence account_eq.
Proof.
  split; [by intros v | intros v w (? & ? & ? & ? & ? & ?); by split_and! |].
  intros u v w (? & ? & ? & ? & Hk & Hc) (? & ? & ? & ? & Hk' & Hc'). split_and!; [congruence.. | |]; intros k; congruence.
Qed.

Record shows (s : StateDB) (w : world) : Prop := MkShows {
  sh_account : ∀ a, option_Forall2 account_eq (view s a) (w_account w a);
  sh_refund : refund s = w_refund w;
  sh_thash : thash s = w_thash w;
  sh_txIndex : txIndex s = w_txIndex w;
  sh_logs : logs s = w_logs w;
  sh_logSize : logSize s = w_logSize w;
  sh_preimages : preimages s = w_preimages w;
  sh_access : al_view (s_accessList s) = w_access w
}.

(** ** Views *)

Lemma view_of_obj_eq s1 s2 o1 o2 : obj_eq s1 s2 o1 o2 → account_eq (view_of s1 o1) (view_of s2 o2).
Proof. intros [A1 A2 A3 A4 A5 A6 A7 A8 A9 A10]. split_and!; cbn; by rewrite ?A4. Qed.

Lemma view_of_env s1 s2 o : env_at s1 s2 (address o) → account_eq (view_of s1 o) (view_of s2 o).
Proof. intros He. by apply view_of_obj_eq, obj_eq_env. Qed.

Lemma view_same s1 s2 a : same s1 s2 → option_Forall2 account_eq (view s1 a) (view s2 a).
Proof.
  intros Hs. pose proof (live_same s1 s2 a Hs) as Hl. unfold view, obj_opt_eq in *.
  destruct (live_at s1 a), (live_at s2 a); try done. constructor. by apply view_of_obj_eq.
Qed.

Lemma shows_same s s' w : same s s' → shows s w → shows s' w.
Proof.
  intros Hs [H1 H2 H3 H4 H5 H6 H7 H8]. constructor; try (destruct Hs; congruence).
  intros a. etrans; [| apply H1]. symmetry. by apply view_same.
Qed.

(** Nothing but accounts is changed. *)
Definition frame_eq (s t : StateDB) : Prop :=
  refund t = refund s ∧ thash t = thash s ∧ txIndex t = txIndex s ∧ logs t = logs s ∧ logSize t = logSize s ∧
  preimages t = preimages s ∧ s_accessList t = s_accessList s.

(** The account at [a] is now [v], and nothing else is changed. *)
Definition changed (a : bytes) (v : account) (s t : StateDB) : Prop :=
  frame_eq s t ∧ ∀ b, option_Forall2 account_eq (view t b) (if decide (b = a) then Some v else view s b).

Lemma same_frame s t : same s t → frame_eq s t.
Proof. intros []. by split_and!. Qed.

Lemma frame_trans s t u : frame_eq s t → frame_eq t u → frame_eq s u.
Proof. intros (? & ? & ? & ? & ? & ? & ?) (? & ? & ? & ? & ? & ? & ?). split_and!; congruence. Qed.

Lemma changed_trans a v w s t u : changed a v s t → changed a w t u → changed a w s u.
Proof.
  intros [F1 V1] [F2 V2]. split; [by eapply frame_trans |]. intros b. etrans; [apply V2 |]. case_decide; [done |].
  etrans; [apply V1 |]. by rewrite decide_False.
Qed.

Lemma changed_same_l a v s t u : same s t → changed a v t u → changed a v s u.
Proof.
  intros Hs [F V]. split; [eapply frame_trans; [by apply same_frame | done] |]. intros b. etrans; [apply V |].
  case_decide; [done |]. symmetry. by apply view_same.
Qed.

Lemma changed_eq a v w s t : account_eq v w → changed a v s t → changed a w s t.
Proof. intros He [F V]. split; [done |]. intros b. etrans; [apply V |]. case_decide; [by constructor | done]. Qed.

Lemma changed_put t t1 o1 a :
  addr_ok t → stateObjects t1 = stateObjects t → s_trie t1 = s_trie t → snap t1 = snap t →
  (∀ b, b ≠ a → env_at t t1 b) → frame_eq t t1 → address o1 = a → deleted o1 = false →
  changed a (view_of t1 o1) t (setStateObject o1 t1).
Proof.
  intros Ha Ho Ht Hs He Hf Ha1 Hd. split; [exact Hf |]. intros b. unfold view, live_at. rewrite obj_at_set, Ha1.
  case_decide as Hb; [rewrite Hd; cbn; constructor; by apply view_of_env |].
  rewrite (obj_at_ext t t1) by done. destruct (obj_at t b) as [o |] eqn:Eo; [| constructor].
  destruct (deleted o); cbn; [constructor |]. constructor. symmetry. apply view_of_env. rewrite (Ha _ _ Eo).
  by apply He.
Qed.

(** ** New objects *)

(** An account the database does not have has no storage in it. *)
Record db_laws (s : StateDB) : Prop := MkDbLaws {
  dl_trie : ∀ r a t k v, OpenStorageTrie r a EmptyRootHash = inr t → GetStorage t a k = inr v → v = [];
  dl_snap : ∀ sn a k, snap s = Some sn → (∀ d, load_account s a ≠ inr (Some d)) → (snap_Storage sn (sum256 a) (sum256 k)).1 = []
}.

Lemma fresh_zero s a k :
  db_laws s → obj_at s a = None → committed_val s (fresh_object a) k = zeroHash.
Proof.
  intros [Lt Ls] Ho. unfold committed_val, obj_GetCommittedState. cbn [pendingStorage originStorage fresh_object]. rewrite !lookup_empty. case_match; [done |].
  unfold obj_LoadState. cbn [addrHash fresh_object].
  assert (Hload : ∀ d, load_account s a ≠ inr (Some d)).
  { intros d Hd. revert Ho. unfold obj_at. rewrite Hd. by destruct (stateObjects s !! a). }
  assert (Ht : ∀ errs : list (state_error E), (let '(t, o) := getTrie (fresh_object a) s in
    match t with
    | inl e => (zeroHash, o, errs ++ [ErrStorage e])
    | inr t => match GetStorage t (address o) k with
      | inl e => (zeroHash, o, errs ++ [ErrStorage e])
      | inr val => (SetBytes zeroHash val, set_origin_cache k (SetBytes zeroHash val) o, errs) end
    end).1.1 = zeroHash).
  { intros errs. unfold getTrie. cbn. destruct (OpenStorageTrie _ _ _) as [e | t] eqn:Eo; [done |].
    cbn. destruct (GetStorage t a k) as [e | v] eqn:Eg; [done |]. by rewrite (Lt _ _ _ _ _ Eo Eg). }
  set (m := match snap s with Some _ => _ | None => _ end).
  assert (Hm : m.1.1 = zeroHash).
  { unfold m. destruct (snap s) as [sn |] eqn:Esn; [| done]. specialize (Ls sn a k eq_refl Hload).
    cbn. destruct (snap_Storage sn (sum256 a) (sum256 k)) as [enc err]. cbn in Ls. by subst enc. }
  destruct m as [[value err] errs]. cbn in Hm. subst value. destruct err; [| done].
  specialize (Ht errs). cbn zeta in *. destruct (getTrie (fresh_object a) s) as [[e | t] o]; [done |].
  by destruct (GetStorage t (address o) k).
Qed.

Lemma db_laws_env s s' : s_trie s = s_trie s' → snap s = snap s' → db_laws s → db_laws s'.
Proof.
  intros Ht Hs [Lt Ls]. constructor; [done |]. intros sn a k Hsn Hl. apply Ls; [congruence |].
  intros d. unfold load_account in *. rewrite Ht, Hs. apply Hl.
Qed.

Lemma db_laws_same s s' : same s s' → db_laws s → db_laws s'.
Proof. intros [[] _ _ _ _ _ _ _ _ _ _ _ _ _ _]. by apply db_laws_env. Qed.

Lemma fresh_view s a :
  (∀ k, committed_val s (fresh_object a) k = zeroHash) → account_eq (view_of s (fresh_object a)) empty_account.
Proof.
  intros Hk. split_and!; try done; cbn.
  unfold code_val, obj_Code. cbn [code fresh_object data NewEmptyStateAccount CodeHash]. by rewrite bool_decide_true.
Qed.

(** The object put where createObject puts the new one. *)
Lemma createObject_changed s a :
  inv s → db_laws s → ∃ mid, createObject a s = (live_at s a, setStateObject (fresh_object a) mid) ∧
    account_eq (view_of mid (fresh_object a)) empty_account ∧
    ∀ o1, address o1 = a → deleted o1 = false → changed a (view_of mid o1) s (setStateObject o1 mid).
Proof.
  intros Hi Hdb. destruct (createObject_shape s a Hi) as (t & mid & Hq & Ec & Hcase). exists mid. split; [done |].
  assert (Hit := inv_quiet _ _ Hi Hq). pose proof (db_laws_same _ _ (proj1 Hq) Hdb) as Hdbt.
  destruct Hcase as [[Hnone ->] | (p & Hp & Ha & ->)].
  - split.
    + apply fresh_view. intros k. rewrite <- (fresh_zero t a k Hdbt Hnone). by apply committed_env.
    + intros o1 Ha1 Hd. eapply changed_same_l; [exact (proj1 Hq) |]. by apply changed_put; try done; apply Hit.
  - split.
    + apply fresh_view. intros k. unfold committed_val, obj_GetCommittedState. cbn [pendingStorage originStorage fresh_object].
      rewrite !lookup_empty, bool_decide_true; [done |]. unfold reset_state. rewrite Ha. case_bool_decide; [done |]. cbn.
      rewrite lookup_insert_eq. eauto.
    + intros o1 Ha1 Hd. eapply changed_same_l; [exact (proj1 Hq) |].
      apply changed_put; try done; [apply Hit | by unfold reset_state; case_match.. | | by unfold reset_state; case_match].
      intros b Hb. unfold env_at, reset_state. case_match; cbn; [done |]. by rewrite lookup_insert_ne by congruence.
Qed.

Lemma GetOrNew_changed s a :
  inv s → db_laws s → changed a (default empty_account (view s a)) s (GetOrNewStateObject a s).
Proof.
  intros Hi Hdb. unfold GetOrNewStateObject. destruct (getState_ok s a) as (t & -> & Hq & Hl).
  destruct (live_at s a) as [o |] eqn:El.
  - split; [by apply same_frame, Hq |]. intros b. etrans; [symmetry; apply view_same, Hq |].
    case_decide as Hb; [| done]. subst b. unfold view. rewrite El. by constructor.
  - assert (Hit := inv_quiet _ _ Hi Hq). eapply changed_same_l; [exact (proj1 Hq) |].
    destruct (createObject_changed t a Hit (db_laws_same _ _ (proj1 Hq) Hdb)) as (mid & -> & He & Hc). cbn [snd].
    eapply changed_eq; [| by apply Hc]. unfold view. by rewrite El.
Qed.

Lemma with_object_shows s w a f F :
  inv s → db_laws s → (∀ u v, account_eq u v → account_eq (F u) (F v)) →
  (∀ t o, inv t → stateObjects t !! a = Some o → deleted o = false → changed a (F (view_of t o)) t (f o t)) →
  shows s w → shows (with_object a f s) (change a F w).
Proof.
  intros Hi Hdb Hprop Hf [H1 H2 H3 H4 H5 H6 H7 H8]. pose proof (GetOrNew_changed s a Hi Hdb) as Hg.
  destruct (GetOrNew_step s a Hi) as [Hs (o & Ho & Hd)]. unfold with_object. rewrite Ho.
  set (t := GetOrNewStateObject a s) in *. pose proof (Hf t o (st_inv _ _ Hs) Ho Hd) as Hft.
  assert (Hv : account_eq (view_of t o) (default empty_account (w_account w a))).
  { destruct Hg as [_ Hv]. specialize (Hv a). rewrite decide_True in Hv by done.
    unfold view at 1 in Hv. unfold live_at in Hv. rewrite (obj_at_live _ _ _ Ho), Hd in Hv. cbn in Hv. inversion Hv as [? ? He |]; subst.
    etrans; [exact He |]. specialize (H1 a). by inversion H1. }
  destruct (changed_trans _ _ _ _ _ _ Hg Hft) as [(F1 & F2 & F3 & F4 & F5 & F6 & F7) V].
  constructor; cbn; try congruence. intros b. etrans; [apply V |]. case_decide; [| apply H1]. constructor. by apply Hprop.
Qed.

(** ** Changes of one account *)

Lemma changed_object s o o1 a e :
  inv s → stateObjects s !! a = Some o → deleted o1 = false → address o1 = a →
  changed a (view_of s o1) s (setStateObject o1 (append e s)).
Proof.
  intros Hi Ho Hd Ha. eapply changed_eq; [| by apply changed_put; try done; apply Hi]. by apply view_of_env.
Qed.

Lemma SetBalance_changed s o a x :
  inv s → stateObjects s !! a = Some o → deleted o = false →
  changed a (MkView (Nonce (data o)) x (CodeHash (data o)) (code_val s o) (state_val s o) (committed_val s o)) s (obj_SetBalance x o s).
Proof.
  intros Hi Ho Hd. destruct (live_code _ _ _ Hi Ho) as [Ha _]. eapply changed_eq; [| by eapply changed_object].
  split_and!; try done; cbn; [by apply code_cong | intros k; by apply state_with_data | intros k; by apply committed_with_data].
Qed.

Lemma unchanged s o a : stateObjects s !! a = Some o → deleted o = false → changed a (view_of s o) s s.
Proof.
  intros Ho Hd. split; [by split_and! |]. intros b. case_decide as Hb; [| done]. subst b. unfold view, live_at.
  by rewrite (obj_at_live _ _ _ Ho), Hd.
Qed.

Lemma SetNonce_changed s o a x :
  inv s → stateObjects s !! a = Some o → deleted o = false →
  changed a (MkView x (Balance (data o)) (CodeHash (data o)) (code_val s o) (state_val s o) (committed_val s o)) s (obj_SetNonce x o s).
Proof.
  intros Hi Ho Hd. destruct (live_code _ _ _ Hi Ho) as [Ha _]. eapply changed_eq; [| by eapply changed_object].
  split_and!; try done; cbn; [by apply code_cong | intros k; by apply state_with_data | intros k; by apply committed_with_data].
Qed.

Lemma AddBalance_changed s o a x :
  inv s → stateObjects s !! a = Some o → deleted o = false →
  changed a (MkView (Nonce (data o)) (Balance (data o) + x) (CodeHash (data o)) (code_val s o) (state_val s o) (committed_val s o)) s
    (obj_AddBalance x o s).
Proof.
  intros Hi Ho Hd. unfold obj_AddBalance. destruct (Z.eqb_spec x 0) as [-> | Hx]; [| by apply SetBalance_changed].
  rewrite Z.add_0_r. case_if; [| by apply unchanged]. eapply changed_same_l; [apply same_journal |].
  eapply changed_eq; [| by apply unchanged]. etrans; [by apply (view_of_env _ s) | done].
Qed.

Lemma SubBalance_changed s o a x :
  inv s → stateObjects s !! a = Some o → deleted o = false →
  changed a (MkView (Nonce (data o)) (Balance (data o) - x) (CodeHash (data o)) (code_val s o) (state_val s o) (committed_val s o)) s
    (obj_SubBalance x o s).
Proof.
  intros Hi Ho Hd. unfold obj_SubBalance. destruct (Z.eqb_spec x 0) as [-> | Hx]; [| by apply SetBalance_changed].
  rewrite Z.sub_0_r. by apply unchanged.
Qed.

Lemma SetCode_changed s o a c :
  inv s → stateObjects s !! a = Some o → deleted o = false →
  changed a (MkView (Nonce (data o)) (Balance (data o)) (sum256 c) (Some c) (state_val s o) (committed_val s o)) s (obj_SetCode (sum256 c) c o s).
Proof.
  intros Hi Ho Hd. destruct (live_code _ _ _ Hi Ho) as [Ha _]. unfold obj_SetCode.
  destruct (obj_Code o s) as [[prevcode o'] s'] eqn:Er. apply code_read in Er as (_ & Ho' & [e ->]).
  eapply changed_same_l; [apply (same_dbErr e) |].
  assert (Hi' : inv (set_dbErr e s)) by (eapply inv_quiet; [exact Hi | split; [apply same_dbErr | done]]).
  eapply changed_eq; [| eapply (changed_object (set_dbErr e s) o); [done | done | ..]].
  - destruct Ho' as [A1 A2 A3 A4 A5 A6 A7 A8 A9 A10]. split_and!; cbn; try done; [by rewrite A4 | by rewrite A4 | |].
    + intros k. rewrite state_setCode, A9. by apply state_env.
    + intros k. rewrite committed_setCode, A8. by apply committed_env.
  - cbn. by rewrite <- (oe_deleted _ _ _ _ Ho').
  - cbn. by rewrite <- (oe_address _ _ _ _ Ho').
Qed.

Lemma SetState_changed s o a k v :
  inv s → stateObjects s !! a = Some o → deleted o = false →
  changed a (MkView (Nonce (data o)) (Balance (data o)) (CodeHash (data o)) (code_val s o)
              (fun k' => if decide (k' = k) then v else state_val s o k') (committed_val s o)) s (obj_SetState k v o s).
Proof.
  intros Hi Ho Hd. destruct (live_code _ _ _ Hi Ho) as [Ha Hc]. unfold obj_SetState.
  destruct (obj_GetState o k s) as [[prev o'] s'] eqn:Er. apply state_read in Er as (-> & Ho' & [e ->]).
  pose proof Ho' as [A1 A2 A3 A4 A5 A6 A7 A8 A9 A10].
  assert (Hq : quiet s (setStateObject o' (set_dbErr e s))).
  { eapply quiet_trans; [split; [apply (same_dbErr e) | done] |]. split; [| done]. apply (same_put _ o).
    - rewrite <- A1, Ha. by apply obj_at_live.
    - eapply obj_eq_move; [..| exact Ho']; done. }
  set (s1 := setStateObject o' (set_dbErr e s)) in *. eapply changed_same_l; [apply Hq |].
  assert (Hs1 : stateObjects s1 !! a = Some o') by (cbn; by rewrite <- A1, Ha, lookup_insert_eq).
  assert (Hst : ∀ k', state_val s1 o' k' = state_val s o k') by (intros k'; rewrite A9; by apply state_env).
  assert (Hcode : code_val s1 o' = code_val s o) by (rewrite A10; apply code_env).
  case_bool_decide as Hv.
  - eapply changed_eq; [| eapply unchanged; [exact Hs1 | congruence]]. split_and!; cbn; try congruence; [| by intros k'; rewrite A8; apply committed_env].
    intros k'. rewrite Hst. case_decide; congruence.
  - eapply changed_eq; [| eapply changed_object; [by eapply inv_quiet | exact Hs1 | cbn; congruence | cbn; congruence]].
    split_and!; cbn; try congruence; [by rewrite <- Hcode; apply code_cong | |].
    + intros k'. rewrite state_setState, Hst. done.
    + intros k'. rewrite committed_setState, A8. by apply committed_env.
Qed.

Lemma CreateAccount_shows s w a :
  inv s → db_laws s → shows s w →
  shows (CreateAccount a s) (change a (fun v => MkView 0 (v_balance v) EmptyCodeHash None (fun _ => zeroHash) (fun _ => zeroHash)) w).
Proof.
  intros Hi Hdb [H1 H2 H3 H4 H5 H6 H7 H8]. destruct (createObject_changed s a Hi Hdb) as (mid & Ec & He & Hc).
  unfold CreateAccount. rewrite Ec.
  assert (Hch : ∀ t, changed a (MkView 0 (v_balance (default empty_account (view s a))) EmptyCodeHash None (fun _ => zeroHash) (fun _ => zeroHash)) s t →
    shows t (change a (fun v => MkView 0 (v_balance v) EmptyCodeHash None (fun _ => zeroHash) (fun _ => zeroHash)) w)).
  { intros t [(F1 & F2 & F3 & F4 & F5 & F6 & F7) V]. constructor; cbn; try congruence. intros b. etrans; [apply V |].
    case_decide; [| apply H1]. constructor. split_and!; try done. cbn. specialize (H1 a). destruct H1 as [? ? (_ & Hb & _) |]; done. }
  unfold view in Hch at 1. destruct (live_at s a) as [p |] eqn:El; cbn in Hch.
  - cbn [stateObjects setStateObject set_objects]. rewrite lookup_insert_eq, put_put by done. apply Hch.
    eapply changed_eq; [| by apply Hc]. destruct He as (E1 & E2 & E3 & E4 & E5 & E6). split_and!; try done; cbn.
    + etrans; [| exact E4]. by apply code_cong.
    + intros k. etrans; [| exact (E5 k)]. by apply state_with_data.
    + intros k. etrans; [| exact (E6 k)]. by apply committed_with_data.
  - apply Hch. by eapply changed_eq; [| by apply Hc].
Qed.

(** ** The operations against the specification *)

Ltac plain_change lem :=
  apply with_object_shows; [done | done | | | done];
    [by intros ? ? (? & ? & ? & ? & ? & ?); split_and!; cbn; congruence || done
    | intros; by apply lem].

Lemma view_frame s t b :
  stateObjects t = stateObjects s → env_eq s t → option_Forall2 account_eq (view t b) (view s b).
Proof.
  intros Ho He. pose proof (objects_ext s t Ho He b) as H. unfold view, live_at, obj_opt_eq in *.
  destruct (obj_at s b) as [o1 |], (obj_at t b) as [o2 |]; try done. rewrite (oe_deleted _ _ _ _ H).
  destruct (deleted o2); [done |]. constructor. symmetry. by apply view_of_obj_eq.
Qed.

Lemma plain_shows o s w :
  plain o = true → inv s → db_laws s → shows s w →
  match spec_plain o w with
  | Some w' => ∃ s', run_op o s = Ok s' ∧ shows s' w'
  | None => run_op o s = Panic
  end.
Proof.
  intros Hp Hi Hdb Hw. pose proof Hw as [H1 H2 H3 H4 H5 H6 H7 H8].
  assert (Hread : ∀ A a (d : A) f, reads f → ∃ s', Ok (E := Empty_set) (read_object a d f s).2 = Ok s' ∧ shows s' w).
  { intros A a d f Hf. eexists. split; [done |]. eapply shows_same; [| exact Hw]. by apply read_quiet; [| apply Hi]. }
  destruct o; try done; cbn [spec_plain run_op].
  - eexists. split; [done |]. plain_change AddBalance_changed.
  - eexists. split; [done |]. plain_change SubBalance_changed.
  - eexists. split; [done |]. plain_change SetBalance_changed.
  - eexists. split; [done |]. plain_change SetNonce_changed.
  - eexists. split; [done |]. plain_change SetCode_changed.
  - eexists. split; [done |].
    apply with_object_shows; [done | done | | intros; by apply SetState_changed | done].
    intros ? ? (? & ? & ? & ? & Hk & Hc). split_and!; cbn; try done. intros. by rewrite Hk.
  - eexists. split; [done |]. by apply CreateAccount_shows.
  - eexists. split; [done |]. constructor; cbn; try congruence. intros b. by etrans; [apply (view_frame s) | apply H1].
  - unfold AddPreimage. rewrite <- H7. destruct (preimages s !! h) eqn:Eh; (eexists; split; [done |]).
    + by constructor.
    + constructor; cbn; try congruence. intros b. by etrans; [apply (view_frame s) | apply H1].
  - eexists. split; [done |]. constructor; cbn; try congruence. intros b. by etrans; [apply (view_frame s) | apply H1].
  - unfold SubRefund. cbn. rewrite <- H2. case_if; [done |]. eexists. split; [done |].
    constructor; cbn; try congruence. intros b. by etrans; [apply (view_frame s) | apply H1].
  - eexists. split; [done |]. unfold AddAddressToAccessList. pose proof (AddAddress_spec a _ (iv_al _ Hi)) as H.
    rewrite ContainsAddress_spec, H8 in H. destruct (AddAddress a (s_accessList s)) as [added al]. destruct H as (_ & _ & Hv & _).
    assert (Hal : al_view al = match w_access w !! a with Some _ => w_access w | None => <[a:=∅]> (w_access w) end).
    { rewrite Hv. destruct (w_access w !! a); [by rewrite bool_decide_true by eauto | by rewrite bool_decide_false by by intros [? ?]]. }
    destruct added; (constructor; cbn; try congruence; intros b; by etrans; [apply (view_frame s) | apply H1]).
  - unfold AddSlotToAccessList. destruct (@AddSlot_spec Empty_set a k _ (iv_al _ Hi)) as ([am sm] & al & E1 & _ & _ & Hv & _).
    rewrite E1. cbn. rewrite H8 in Hv. eexists. split; [done |].
    destruct am, sm; (constructor; cbn; try congruence; intros b; by etrans; [apply (view_frame s) | apply H1]).
  - apply Hread. intros o t v o' t' [= _ <- <-]. split; [apply obj_eq_refl |]. exists (dbErr t). by destruct t.
  - apply Hread. intros o t v o' t' Hf. by apply code_read in Hf as (_ & ? & ?).
  - apply Hread. intros o t v o' t' Hf. by apply state_read in Hf as (_ & ? & ?).
  - apply Hread. intros o t v o' t' Hf. by apply committed_read in Hf as (_ & ? & ?).
Qed.

(** ** Snapshots against the specification *)

(** Undoing never changes which database is read. *)
Lemma revert_entry_db e (s s' : StateDB) : revert_entry e s = Ok s' → s_trie s' = s_trie s ∧ snap s' = snap s.
Proof.
  assert (Hu : ∀ a f, undo_object a f s = Ok s' → s_trie s' = s_trie s ∧ snap s' = snap s).
  { intros a f. unfold undo_object. destruct (getState_ok s a) as (t & -> & [[[? ? ? ?] _ _ _ _ _ _ _ _ _ _ _ _ _ _] _] & _).
    destruct (live_at s a); [| done]. by intros [= <-]. }
  destruct e; cbn; try (by apply Hu); try (by intros [= <-]).
  - intros [= <-]. by destruct prevdestruct.
  - case_if; [by intros [= <-] |]. intros Hr. inv_bind Hr. by injection Hr as <-.
  - intros Hr. inv_bind Hr. by injection Hr as <-.
Qed.

Lemma revert_entries_db es (s s' : StateDB) : revert_entries es s = Ok s' → s_trie s' = s_trie s ∧ snap s' = snap s.
Proof.
  revert s; induction es as [| e es IH]; intros s Hr; cbn in Hr; [by injection Hr as <- |].
  destruct (revert_entry e s) as [u | | |] eqn:Ee; try done. cbn in Hr. apply revert_entry_db in Ee as [Ht Hs].
  apply IH in Hr as [Ht' Hs']. cbn in *. split; congruence.
Qed.

Lemma undoes_laws s s' : undoes s s' → db_laws s → db_laws s'.
Proof.
  intros (es & _ & _ & u & [Ht Hs]%revert_entries_db & [[Ht' Hs' _ _] _ _ _ _ _ _ _ _ _ _ _ _ _ _]). apply db_laws_env; congruence.
Qed.

Definition ghost_shows (g : Z * StateDB) (w : Z * world) : Prop := g.1 = w.1 ∧ shows g.2 w.2 ∧ db_laws g.2 ∧ tidy g.2.

(** A state and a world with its saved worlds. *)
Record refines (s : StateDB) (sw : saved_world) : Prop := MkRefines {
  rf_inv : inv s;
  rf_laws : db_laws s;
  rf_tidy : tidy s;
  rf_shows : shows s (sw_now sw);
  rf_next : nextRevisionId s = sw_next sw;
  rf_saved : ∃ gs, linked s gs ∧ Forall2 ghost_shows (rev gs) (sw_saved sw)
}.

Lemma restore_spec id gs l :
  Forall2 ghost_shows (rev gs) l →
  match restore id l with
  | Some (w, l') => ∃ i g, gs !! i = Some (id, g) ∧ shows g w ∧ db_laws g ∧ tidy g ∧ Forall2 ghost_shows (rev (take i gs)) l'
  | None => ∀ i g, gs !! i ≠ Some (id, g)
  end.
Proof.
  revert l; induction gs as [| [j g] gs IH] using rev_ind; intros l Hl.
  { apply Forall2_nil_inv_l in Hl as ->. by intros i g. }
  rewrite rev_unit in Hl. apply Forall2_cons_inv_l in Hl as ([j' w] & l' & (Hj & Hw & Hdb & Hty) & Hl & ->). cbn in *. subst j'.
  destruct (Z.eqb_spec j id) as [-> | Hne].
  - exists (length gs), g. rewrite list_lookup_middle, take_app_length by done. done.
  - specialize (IH l' Hl). destruct (restore id l') as [[w' l''] |].
    + destruct IH as (i & h & Hi & Hh). exists i, h. rewrite take_app_le by (apply lookup_lt_Some in Hi; lia).
      split; [by apply lookup_app_l_Some | done].
    + intros i h [Hi | [_ Hi]]%lookup_app_Some; [by eapply IH |]. apply list_lookup_singleton_Some in Hi as [_ ?]. congruence.
Qed.

Lemma Revert_unknown s gs id :
  linked s gs → (∀ i g, gs !! i ≠ Some (id, g)) → RevertToSnapshot id s = Panic.
Proof.
  intros [Lv _ _ _] Hn. unfold RevertToSnapshot. set (idx := Z.to_nat _).
  destruct (validRevisions s !! idx) as [[id' n] |] eqn:Er; [| done].
  destruct (Z.eqb_spec id' id) as [-> | Hne]; [| done]. exfalso. rewrite Lv, list_lookup_fmap in Er.
  destruct (gs !! idx) as [[j g] |] eqn:Eg; [| done]. cbn in Er. injection Er as -> _. by eapply Hn.
Qed.

Lemma run_op_refines o s sw :
  refines s sw →
  match spec_op o sw with
  | Some sw' => ∃ s', run_op o s = Ok s' ∧ refines s' sw'
  | None => run_op o s = Panic
  end.
Proof.
  intros [Hi Hdb Hty Hw Hn (gs & Hl & Hgs)]. destruct (plain o) eqn:Ep.
  - assert (Hspec : spec_op o sw = (w ← spec_plain o (sw_now sw); Some (MkSaved w (sw_saved sw) (sw_next sw)))) by by destruct o.
    rewrite Hspec. pose proof (plain_shows o s _ Ep Hi Hdb Hw) as Hp. destruct (spec_plain o (sw_now sw)) as [w |]; [| done].
    destruct Hp as (s' & Hr & Hw'). exists s'. split; [done |]. pose proof (plain_step _ _ _ Ep Hi Hr) as Hs.
    constructor; cbn; [apply Hs | by eapply undoes_laws; [apply Hs |] | eapply tidy_undoes; [apply Hs | done | apply Hs] | done | by rewrite (st_next _ _ Hs) |].
    exists gs. split; [by eapply linked_step | done].
  - destruct o; try done; cbn [spec_op run_op].
    + destruct (Snapshot_linked _ _ Hi Hl) as [Hi' Hl']. eexists. split; [done |].
      constructor; cbn [sw_now sw_next sw_saved]; [done | by eapply db_laws_env; [| | exact Hdb] | by eapply tidy_same; [apply same_revisions | |] | | cbn; lia |].
      * eapply shows_same; [apply same_revisions | done].
      * eexists. split; [exact Hl' |]. rewrite rev_unit. constructor; [| done]. by split_and!.
    + pose proof (restore_spec id gs _ Hgs) as Hr. destruct (restore id (sw_saved sw)) as [[w l] |].
      * destruct Hr as (i & g & Hg & Hgw & Hgdb & Hgt & Hl'). cbn.
        destruct (Revert_ok _ _ _ _ _ Hi Hl Hg) as (s' & Er & Hs & Hjr & _ & Hi' & Hlk). exists s'. split; [done |].
        constructor; cbn; [done | by eapply db_laws_same | by eapply tidy_same | by eapply shows_same | | by eexists].
        rewrite <- Hn. by eapply Revert_next.
      * by eapply Revert_unknown.
Qed.

Lemma run_ops_refines ops s sw :
  refines s sw →
  match spec_ops ops sw with
  | Some sw' => ∃ s', run_ops ops s = Ok s' ∧ refines s' sw'
  | None => run_ops ops s = Panic
  end.
Proof.
  revert s sw; induction ops as [| o ops IH]; intros s sw Hr; cbn; [eauto |].
  pose proof (run_op_refines o s sw Hr) as Ho. destruct (spec_op o sw) as [sw' |]; cbn; [| by rewrite Ho].
  destruct Ho as (s' & -> & Hr'). cbn. by apply IH.
Qed.

(** ** What the getters answer *)

Definition answers (s : StateDB) (a k : bytes) : bool * bool * Z * Z * bytes * option bytes * bytes * bytes :=
  ((Exist a s).1, (Empty a s).1, (GetBalance a s).1, (GetNonce a s).1, (GetCodeHash a s).1, (GetCode a s).1,
   (GetState a k s).1, (GetCommittedState a k s).1).

Lemma read_value {A} a (d : A) f s :
  ∃ t, quiet s t ∧ (read_object a d f s).1 = match live_at s a with Some o => (f o t).1.1 | None => d end.
Proof.
  unfold read_object. destruct (getState_ok s a) as (t & -> & Hq & _). exists t. split; [done |].
  destruct (live_at s a) as [o |]; [| done]. by destruct (f o t) as [[? ?] ?].
Qed.

Lemma shows_answers s w a k : shows s w → answers s a k = spec_answers w a k.
Proof.
  intros [H1 _ _ _ _ _ _ _]. specialize (H1 a). unfold answers, spec_answers, Exist, Empty, GetBalance, GetNonce, GetCodeHash, GetCode, GetState, GetCommittedState.
  repeat match goal with |- context [(read_object a ?d ?f s).1] =>
    let t := fresh "t" in let Hq := fresh "Hq" in let E := fresh "Er" in
    destruct (read_value a d f s) as (t & Hq & E); rewrite E; clear E end.
  unfold view in H1. destruct (live_at s a) as [o |]; cbn in H1; inversion H1 as [v1 v2 He Hv1 Hv2 |]; [| done].
  subst v1. destruct He as (E1 & E2 & E3 & E4 & E5 & E6). cbn in E1, E2, E3, E4, E5, E6. cbn. unfold empty. rewrite <- E1, <- E2, <- E3, <- E4, <- E5, <- E6.
  assert (Henv : ∀ u, quiet s u → env_eq u s) by (intros u [[[] _ _ _ _ _ _ _ _ _ _ _ _ _ _] _]; by constructor).
  apply f_equal2; [apply f_equal2; [apply f_equal2; [done | apply code_env] |] |].
  - by apply state_env, env_eq_at, Henv.
  - by apply committed_env, env_eq_at, Henv.
Qed.

Definition world_of (s : StateDB) : world :=
  MkWorld (view s) (refund s) (thash s) (txIndex s) (logs s) (logSize s) (preimages s) (al_view (s_accessList s)).

Lemma shows_world s : shows s (world_of s).
Proof. by constructor. Qed.

Lemma new_refines root OpenTrie snaps s :
  NewState root OpenTrie snaps = inr s →
  (∀ a d, load_account s a = inr (Some d) → length (CodeHash d) = 32%nat) → db_laws s → refines s (MkSaved (world_of s) [] 0).
Proof.
  intros Hnew Hcode Hdb. destruct (new_consistent _ _ _ _ Hnew Hcode) as [Hi _]. pose proof (tidy_new _ _ _ _ Hnew) as Hty. unfold NewState in Hnew. destruct (OpenTrie root); [done |]. injection Hnew as Hs.
  constructor; [done | done | done | apply shows_world | by subst s |]. exists []. split; [| constructor]. by subst s; constructor.
Qed.

(** C7.  StateDB is a world of accounts with saved worlds: started on a database
    whose accounts have 32-byte code hashes, every run of reads, changes,
    snapshots and reverts on the journalled state with its caches does what the
    same run does on the abstract worlds, in which a snapshot saves the world and
    a revert brings the saved one back.  When the abstract run succeeds the
    concrete one does, every getter answers for every account and slot what the
    abstract world says, and refund, logs, preimages and access list are those of
    the world; when the abstract run fails (refund below zero, unknown revision)
    the code panics. *)
Theorem StateDB_refines_world root OpenTrie snaps s ops :
  NewState root OpenTrie snaps = inr s →
  (∀ a d, load_account s a = inr (Some d) → length (CodeHash d) = 32%nat) → db_laws s →
  match spec_ops ops (MkSaved (world_of s) [] 0) with
  | Some sw => ∃ s', run_ops ops s = Ok s' ∧ (∀ a k, answers s' a k = spec_answers (sw_now sw) a k) ∧
      refund s' = w_refund (sw_now sw) ∧ logs s' = w_logs (sw_now sw) ∧ preimages s' = w_preimages (sw_now sw) ∧
      al_view (s_accessList s') = w_access (sw_now sw)
  | None => run_ops ops s = Panic
  end.
Proof.
  intros Hnew Hcode Hdb. pose proof (new_refines _ _ _ _ Hnew Hcode Hdb) as Hr. pose proof (run_ops_refines ops _ _ Hr) as H. destruct (spec_ops ops _) as [sw |]; [| done].
  destruct H as (s' & Es & [_ _ _ Hw _ _]). exists s'. split_and!; [done | intros; by apply shows_answers | by destruct Hw..].
Qed.
End Spec.

(** A database with one account, its slots by address, no storage under the
    empty root. *)
Definition slot_backend `{Hasher} : Backend (gmap bytes StateAccount) (option bytes) unit := {|
  GetAccount := fun t a => inr (t !! a);
  OpenStorageTrie := fun _ a root => inr (if bool_decide (root = EmptyRootHash) then None else Some a);
  GetStorage := fun t _ k => inr (match t with Some [1; 1] => if bool_decide (k = [7]) then [9] else [] | _ => [] end);
  ContractCode := fun _ _ => (Some [6; 0], None);
  ContractCodeSize := fun _ _ => (2, None)
|}.
#[local] Existing Instance slot_backend.
#[local] Existing Instance toy_hash.
#[local] Existing Instance toy_hash_laws.

Definition slot_state : State.StateDB (T := gmap bytes StateAccount) (ST := option bytes) (E := unit) :=
  MkState toy_accounts None [] ∅ ∅ ∅ ∅ ∅ ∅ ∅ ∅ None 0 zeroHash 0 ∅ 0 ∅ newAccessList newJournal [] 0.

Lemma StateDB_refines_world_witness :
  ∃ sw s', spec_ops (OpSnapshot :: toy_ops) (MkSaved (world_of slot_state) [] 0) = Some sw ∧
    run_ops (OpSnapshot :: toy_ops) slot_state = Ok s' ∧
    answers s' [1; 1] [7] = spec_answers (sw_now sw) [1; 1] [7] ∧
    answers s' [1; 1] [7] = (true, false, 400, 4, BytesToHash (sum256 [9]), Some [9], [4], SetBytes zeroHash [9]) ∧ refund s' = 2.
Proof.
  assert (Hdb : db_laws slot_state).
  { constructor; [| done]. intros r a t k v. cbn. rewrite bool_decide_true by done. by intros [= <-] [= <-]. }
  assert (Hc : ∀ a d, load_account slot_state a = inr (Some d) → length (CodeHash d) = 32%nat).
  { intros a d [= Hd]. unfold toy_accounts in Hd. apply lookup_singleton_Some in Hd as [_ <-]. reflexivity. }
  pose proof (StateDB_refines_world [] (fun _ => inr toy_accounts) None slot_state (OpSnapshot :: toy_ops) eq_refl Hc Hdb) as H.
  destruct (spec_ops _ _) as [sw |]; [| vm_compute in H; discriminate H].
  destruct H as (s' & Er & Ha & _). exists sw, s'. split; [done |]. split; [done |]. split; [apply Ha |]. clear Ha.
  vm_compute in Er. injection Er as <-. vm_compute. done.
Defined.
