(* ===== verification/StateSupply.v ===== *)
(** * The sum of the balances of a world

    Worlds have infinitely many accounts, of which finitely many differ between two
    worlds of a run: what is added to the sum is that over any finite set that
    holds the accounts that differ. *)

From S2P Require Import Prelude TrieNode TrieOps StateAccess State StateWorld.

Section Supply.
  Context `{HF : Hasher}.

Definition acct (w : world) (a : bytes) : account := default empty_account (w_account w a).

Definition balance (w : world) (a : bytes) : Z := v_balance (acct w a).

(** The sum of a function over a finite set *)
Definition total (f : bytes → Z) (A : gset bytes) : Z := foldr (fun a n => f a + n) 0 (elements A).

(** [w'] has [d] more than [w]. *)
Definition gains (d : Z) (w w' : world) : Prop :=
  ∃ A : gset bytes, (∀ a, a ∉ A → balance w' a = balance w a) ∧ total (balance w') A = total (balance w) A + d.

Lemma acct_change a f w b : acct (change a f w) b = if decide (b = a) then f (acct w a) else acct w b.
Proof. unfold acct, change. cbn. by case_decide. Qed.

Lemma total_list f (l : list bytes) A : l ≡ₚ elements A → foldr (fun a n => f a + n) 0 l = total f A.
Proof. intros Hl. unfold total. induction Hl; cbn; lia. Qed.

Lemma total_ext f g A : (∀ a, a ∈ A → f a = g a) → total f A = total g A.
Proof.
  intros Hfg. unfold total. assert (H : ∀ l, (∀ a, a ∈ l → f a = g a) → foldr (fun a n => f a + n) 0 l = foldr (fun a n => g a + n) 0 l).
  { induction l as [| a l IH]; [done |]. intros H. cbn. rewrite (H a) by left. rewrite IH; [done |]. intros b Hb. apply H. by right. }
  apply H. intros a Ha. apply Hfg. by apply elem_of_elements.
Qed.

Lemma foldr_add_app (f : bytes → Z) l k : foldr (fun a n => f a + n) 0 (l ++ k) = foldr (fun a n => f a + n) 0 l + foldr (fun a n => f a + n) 0 k.
Proof. induction l as [| a l IH]; cbn; [done |]. rewrite IH. lia. Qed.

Lemma total_union f A B : A ## B → total f (A ∪ B) = total f A + total f B.
Proof. intros Hd. rewrite <- (total_list f (elements A ++ elements B)); [apply foldr_add_app |]. by rewrite elements_disj_union. Qed.

Lemma total_singleton f a : total f {[a]} = f a.
Proof. unfold total. rewrite elements_singleton. cbn. lia. Qed.

(** The set may be larger. *)
Lemma gains_superset d w w' A B :
  (∀ a, a ∉ A → balance w' a = balance w a) → total (balance w') A = total (balance w) A + d → A ⊆ B → total (balance w') B = total (balance w) B + d.
Proof.
  intros Hout HA HAB. rewrite (union_difference_L A B HAB). rewrite !total_union by set_solver.
  rewrite (total_ext (balance w') (balance w) (B ∖ A)); [lia |]. intros a Ha. apply Hout. set_solver.
Qed.

Lemma gains_same w w' : (∀ a, balance w' a = balance w a) → gains 0 w w'.
Proof. intros H. exists ∅. split; [done |]. unfold total. rewrite elements_empty. done. Qed.

Lemma gains_trans d1 d2 w1 w2 w3 : gains d1 w1 w2 → gains d2 w2 w3 → gains (d1 + d2) w1 w3.
Proof.
  intros (A & HA & SA) (B & HB & SB). exists (A ∪ B). split; [intros a Ha; rewrite HB, HA by set_solver; done |].
  rewrite (gains_superset d2 w2 w3 B (A ∪ B)), (gains_superset d1 w1 w2 A (A ∪ B)) by (done || set_solver). lia.
Qed.

Lemma gains_change a f w : gains (v_balance (f (acct w a)) - balance w a) w (change a f w).
Proof.
  exists {[a]}. split.
  - intros b Hb. unfold balance. rewrite acct_change, decide_False by set_solver. done.
  - rewrite !total_singleton. unfold balance. rewrite acct_change, decide_True by done. lia.
Qed.

(** Over any set that holds the accounts that differ *)
Lemma gains_total d w w' : gains d w w' → ∃ A : gset bytes, ∀ B, A ⊆ B → total (balance w') B = total (balance w) B + d.
Proof. intros (A & HA & SA). exists A. intros B. by apply gains_superset. Qed.
End Supply.
