(* ===== verification/StatePrepare.v ===== *)
(** * The access list at the start of a transaction *)

From S2P Require Import Prelude TrieNode TrieOps StateAccess State StateWorld StateRevert StateSnapshot StateTidy StateSpec.

(** types.AccessList: addresses with their storage keys *)
Abbreviation AccessList := (list (bytes * list bytes)) (only parsing).

(** ** Prepare *)

Definition add_address (al : accessList) (a : bytes) : accessList := snd (AddAddress a al).

Fixpoint add_slots {E} (a : bytes) (keys : list bytes) (al : accessList) : outcome E accessList :=
  match keys with
  | [] => Ok al
  | k :: keys => '(_, al) ← AddSlot a k al; add_slots a keys al
  end.

Fixpoint add_entries {E} (list : AccessList) (al : accessList) : outcome E accessList :=
  match list with
  | [] => Ok al
  | (a, keys) :: list => al ← add_slots a keys (add_address al a); add_entries list al
  end.

Section Prepare.
  Context `{HF : Hasher} {T ST E : Type} `{B : !Backend T ST E}.
  Abbreviation StateDB := (StateDB (T := T) (ST := ST) (E := E)).

Definition Prepare (sender coinbase : bytes) (dst : option bytes) (precompiles : list bytes) (list : AccessList)
    (s : StateDB) : outcome Empty_set StateDB :=
  let al := add_address newAccessList sender in
  let al := match dst with Some d => add_address al d | None => al end in
  let al := foldl add_address al precompiles in
  al ← add_entries list al;
  Ok (set_accessList (add_address al coinbase) s).
End Prepare.

(** ** As a map *)

Abbreviation accessed := (gmap bytes (gset bytes)) (only parsing).

Definition see_address (m : accessed) (a : bytes) : accessed := if decide (is_Some (m !! a)) then m else <[a := ∅]> m.
Definition see_slot (a : bytes) (m : accessed) (k : bytes) : accessed := <[a := default ∅ (m !! a) ∪ {[k]}]> m.
Definition see_entry (m : accessed) (e : bytes * list bytes) : accessed := foldl (see_slot e.1) (see_address m e.1) e.2.

(** What Prepare leaves in the access list *)
Definition prepared (sender coinbase : bytes) (dst : option bytes) (precompiles : list bytes) (list : AccessList) : accessed :=
  let m := see_address ∅ sender in
  let m := match dst with Some d => see_address m d | None => m end in
  see_address (foldl see_entry (foldl see_address m precompiles) list) coinbase.

Lemma add_address_spec al a : al_ok al → al_ok (add_address al a) ∧ al_view (add_address al a) = see_address (al_view al) a.
Proof.
  intros Hal. unfold add_address, see_address. pose proof (AddAddress_spec a al Hal) as H. destruct (AddAddress a al) as [added al'].
  destruct H as (H1 & _ & H2 & _). split; [done |]. cbn. rewrite H2, ContainsAddress_spec. by case_bool_decide; case_decide.
Qed.

Lemma add_addresses_spec l : ∀ al, al_ok al → al_ok (foldl add_address al l) ∧ al_view (foldl add_address al l) = foldl see_address (al_view al) l.
Proof.
  induction l as [| a l IH]; intros al Hal; [done |]. destruct (add_address_spec al a Hal) as [H1 H2]. cbn. rewrite <- H2. by apply IH.
Qed.

Lemma add_slots_spec {E} a keys : ∀ al, al_ok al →
  ∃ al', @add_slots E a keys al = Ok al' ∧ al_ok al' ∧ al_view al' = foldl (see_slot a) (al_view al) keys.
Proof.
  induction keys as [| k keys IH]; intros al Hal; [by exists al |]. cbn. destruct (@AddSlot_spec E a k al Hal) as (f & al' & -> & H1 & _ & H2 & _). cbn.
  destruct (IH al' H1) as (al2 & E2 & H3 & H4). exists al2. by rewrite H4, H2.
Qed.

Lemma add_entries_spec {E} list : ∀ al, al_ok al →
  ∃ al', @add_entries E list al = Ok al' ∧ al_ok al' ∧ al_view al' = foldl see_entry (al_view al) list.
Proof.
  induction list as [| [a keys] list IH]; intros al Hal; [by exists al |]. cbn. destruct (add_address_spec al a Hal) as [H1 H2].
  destruct (@add_slots_spec E a keys _ H1) as (al1 & -> & H3 & H4). cbn. destruct (IH al1 H3) as (al2 & -> & H5 & H6). exists al2.
  by rewrite H6, H4, H2.
Qed.

Lemma see_address_mono m a b : is_Some (m !! b) → is_Some (see_address m a !! b).
Proof. unfold see_address. case_decide; [done |]. intros Hb. rewrite lookup_insert. by case_decide. Qed.

Lemma see_address_in m a : is_Some (see_address m a !! a).
Proof. unfold see_address. case_decide; [done |]. rewrite lookup_insert, decide_True by done. by eexists. Qed.

Lemma see_addresses_mono l b : ∀ m, is_Some (m !! b) → is_Some (foldl see_address m l !! b).
Proof. induction l as [| a l IH]; intros m Hm; [done |]. cbn. by apply IH, see_address_mono. Qed.

Lemma see_slots_mono a keys b : ∀ m, is_Some (m !! b) → is_Some (foldl (see_slot a) m keys !! b).
Proof.
  induction keys as [| k keys IH]; intros m Hm; [done |]. cbn. apply IH. unfold see_slot. rewrite lookup_insert. by case_decide.
Qed.

Lemma see_entries_mono list b : ∀ m, is_Some (m !! b) → is_Some (foldl see_entry m list !! b).
Proof. induction list as [| e list IH]; intros m Hm; [done |]. cbn. by apply IH, see_slots_mono, see_address_mono. Qed.

(** The recipient is accessed. *)
Lemma prepared_dst sender coinbase d precompiles list : is_Some (prepared sender coinbase (Some d) precompiles list !! d).
Proof. unfold prepared. apply see_address_mono, see_entries_mono, see_addresses_mono, see_address_in. Qed.

Section Refine.
  Context `{HF : Hasher} `{HL : !HasherLaws} {T ST E : Type} `{B : !Backend T ST E}.
  Abbreviation StateDB := (StateDB (T := T) (ST := ST) (E := E)).

Definition with_access (acc : accessed) (w : world) : world :=
  MkWorld (w_account w) (w_refund w) (w_thash w) (w_txIndex w) (w_logs w) (w_logSize w) (w_preimages w) acc.

(** The list is not journalled: there must be no snapshot to go back to. *)
Lemma Prepare_refines sender coinbase dst precompiles list (s : StateDB) sw :
  refines s sw → sw_saved sw = [] →
  ∃ s', Prepare sender coinbase dst precompiles list s = Ok s' ∧
    refines s' (MkSaved (with_access (prepared sender coinbase dst precompiles list) (sw_now sw)) [] (sw_next sw)).
Proof.
  intros [Hi Hdb Hty Hw Hn (gs & Hl & Hgs)] Hsaved. unfold Prepare.
  destruct (add_address_spec _ sender new_ok) as [K1 V1]. set (al1 := add_address newAccessList sender) in *.
  set (al2 := match dst with Some d => add_address al1 d | None => al1 end).
  assert (H2 : al_ok al2 ∧ al_view al2 = match dst with Some d => see_address (al_view al1) d | None => al_view al1 end)
    by (unfold al2; destruct dst as [d |]; [by apply add_address_spec | done]). destruct H2 as [K2 V2].
  destruct (add_addresses_spec precompiles al2 K2) as [K3 V3]. destruct (@add_entries_spec Empty_set list _ K3) as (al4 & -> & K4 & V4). cbn [mbind outcome_bind].
  destruct (add_address_spec al4 coinbase K4) as [K5 V5]. eexists. split; [done |].
  assert (Hgs0 : gs = []) by (rewrite Hsaved in Hgs; apply Forall2_nil_inv_r in Hgs; by destruct gs as [| g gs] using rev_ind; [| rewrite rev_unit in Hgs]). subst gs.
  constructor; [| | | | done |].
  - destruct Hi. by constructor.
  - destruct Hdb. by constructor.
  - eapply tidy_objects; [by apply (objects_ext s) | done..].
  - destruct Hw as [Ha]. constructor; try done; [intros b; by etrans; [apply (view_frame s) | apply Ha] |]. cbn. rewrite V5, V4, V3, V2, V1. unfold prepared. by destruct dst.
  - exists []. split; [| constructor]. destruct Hl as [Lv _ _ _]. by constructor.
Qed.
End Refine.
