(* ===== verification/StateFinalise.v ===== *)
(** * The end of a transaction: Finalise, SetTxContext and GetLogs of statedb.go

    Finalise moves what a transaction wrote into the values that the next one calls
    committed, deletes the accounts it left empty and drops the journal, and with
    it every snapshot. *)

From S2P Require Import Prelude RlpRaw TrieNode TrieOps TrieHash StateAccess State StateWorld StateRevert StateSnapshot StateTidy StateSpec.

Section Finalise.
  Context `{HF : Hasher} `{HL : !HasherLaws} {T ST E : Type} `{B : !Backend T ST E}.
  Abbreviation StateDB := (StateDB (T := T) (ST := ST) (E := E)).
  Abbreviation stateObject := (stateObject (ST := ST)).

(** ** Definitions *)

Definition obj_finalise (o : stateObject) : stateObject :=
  MkObject (address o) (addrHash o) (origin o) (data o) (o_trie o) (code o) (originStorage o)
    (dirtyStorage o ∪ pendingStorage o) ∅ (dirtyCode o) (deleted o) (created o).

Definition set_flags (del cr : bool) (o : stateObject) : stateObject :=
  MkObject (address o) (addrHash o) (origin o) (data o) (o_trie o) (code o) (originStorage o) (pendingStorage o)
    (dirtyStorage o) (dirtyCode o) del cr.

Definition set_objPending d (s : StateDB) : StateDB :=
  MkState (s_trie s) (snap s) (originalRoot s) (accounts s) (storages s) (accountsOrigin s) (storagesOrigin s)
    (stateObjects s) d (stateObjectsDirty s) (stateObjectsDestruct s) (dbErr s) (refund s) (thash s)
    (txIndex s) (logs s) (logSize s) (preimages s) (s_accessList s) (s_journal s) (validRevisions s)
    (nextRevisionId s).

(** The loop of Finalise on one address *)
Definition finalise_address (deleteEmptyObjects : bool) (addr : bytes) (s : StateDB) : StateDB :=
  match stateObjects s !! addr with
  | None => s
  | Some obj =>
      let '(obj, s) :=
        if deleteEmptyObjects && empty obj then
          let s := match stateObjectsDestruct s !! address obj with
                   | Some _ => s
                   | None => set_destruct (<[address obj := origin obj]> (stateObjectsDestruct s)) s
                   end in
          (set_flags true (created obj) obj,
           set_caches (base.delete (addrHash obj) (accounts s)) (base.delete (addrHash obj) (storages s))
             (base.delete (address obj) (accountsOrigin s)) (base.delete (address obj) (storagesOrigin s)) s)
        else (obj_finalise obj, s) in
      let s := set_objects (<[addr := set_flags (deleted obj) false obj]> (stateObjects s)) s in
      set_objDirty (stateObjectsDirty s ∪ {[addr]}) (set_objPending (stateObjectsPending s ∪ {[addr]}) s)
  end.

Definition clearJournalAndRefund (s : StateDB) : StateDB :=
  let s := if 0 <? len (entries (s_journal s)) then set_refund 0 (set_journal newJournal s) else s in
  set_revisions [] (nextRevisionId s) s.

(** The addresses are taken in some order, as the code ranges over a map. *)
Definition Finalise (deleteEmptyObjects : bool) (s : StateDB) : StateDB :=
  clearJournalAndRefund (foldl (fun s a => finalise_address deleteEmptyObjects a s) s (elements (dom (dirties (s_journal s))))).

Definition SetTxContext (th : bytes) (ti : Z) (s : StateDB) : StateDB :=
  MkState (s_trie s) (snap s) (originalRoot s) (accounts s) (storages s) (accountsOrigin s) (storagesOrigin s)
    (stateObjects s) (stateObjectsPending s) (stateObjectsDirty s) (stateObjectsDestruct s) (dbErr s) (refund s) th
    ti (logs s) (logSize s) (preimages s) (s_accessList s) (s_journal s) (validRevisions s) (nextRevisionId s).

(** GetLogs writes the block into the logs, which it shares with the state. *)
Definition locate_log (blockNumber : Z) (blockHash : bytes) (l : Log) : Log :=
  MkLog (lg_Address l) (lg_Topics l) (lg_Data l) blockNumber (lg_TxHash l) (lg_TxIndex l) blockHash (lg_Index l).

Definition GetLogs (hash : bytes) (blockNumber : Z) (blockHash : bytes) (s : StateDB) : list Log * StateDB :=
  match logs s !! hash with
  | None => ([], s)
  | Some l => let l := map (locate_log blockNumber blockHash) l in (l, set_logs (<[hash := l]> (logs s)) (logSize s) s)
  end.

(** ** The specification *)

Definition v_empty (v : account) : bool := (v_nonce v =? 0) && (v_balance v =? 0) && bool_decide (v_codeHash v = EmptyCodeHash).

Definition v_commit (v : account) : account := MkView (v_nonce v) (v_balance v) (v_codeHash v) (v_code v) (v_storage v) (v_storage v).

(** The world of the next transaction: empty accounts of [D] are gone. *)
Definition finalised (D : gset bytes) (w : world) : world :=
  MkWorld (fun a => v ← w_account w a; if bool_decide (a ∈ D) && v_empty v then None else Some (v_commit v))
    0 (w_thash w) (w_txIndex w) (w_logs w) (w_logSize w) (w_preimages w) (w_access w).

(** ** What the loop leaves *)

(** The object after its turn, deleted if it is empty *)
Definition final_object (o : stateObject) : stateObject :=
  if empty o then set_flags true false o else set_flags (deleted o) false (obj_finalise o).

Record loop_left (D : gset bytes) (s t : StateDB) : Prop := MkLoopLeft {
  ll_object : ∀ a, stateObjects t !! a = (if decide (a ∈ D) then final_object <$> stateObjects s !! a else stateObjects s !! a);
  ll_destruct : ∀ a, (∀ o, stateObjects s !! a = Some o → empty o = false ∨ a ∉ D) → stateObjectsDestruct t !! a = stateObjectsDestruct s !! a;
  ll_dirty : ∀ a, a ∈ stateObjectsDirty t → a ∈ stateObjectsDirty s ∨ is_Some (stateObjects t !! a);
  ll_env : s_trie t = s_trie s ∧ snap t = snap s ∧ originalRoot t = originalRoot s;
  ll_frame : frame_eq s t;
  ll_journal : s_journal t = s_journal s ∧ nextRevisionId t = nextRevisionId s
}.

Lemma loop_left_refl s : loop_left ∅ s s.
Proof. constructor; [intros a; by rewrite decide_False by set_solver | done | by left | done | done | done]. Qed.

Lemma final_flags o : address (final_object o) = address o ∧ data (final_object o) = data o.
Proof. unfold final_object. by destruct (empty o). Qed.

Lemma finalise_address_left D s t a :
  (∀ b o, stateObjects s !! b = Some o → address o = b) → a ∉ D → loop_left D s t → loop_left ({[a]} ∪ D) s (finalise_address true a t).
Proof.
  intros Haddr Ha [Lo Ld Li Le Lf Lj].
  assert (Hin : ∀ b A (x y : A), b ≠ a → (if decide (b ∈ D) then x else y) = (if decide (b ∈ {[a]} ∪ D) then x else y)).
  { intros b A x y Hb. apply decide_ext. rewrite elem_of_union, elem_of_singleton. tauto. }
  assert (Hin_a : a ∈ {[a]} ∪ D) by (apply elem_of_union_l, elem_of_singleton; done).
  assert (Hweak : ∀ b, (∀ o, stateObjects s !! b = Some o → empty o = false ∨ b ∉ {[a]} ∪ D) → ∀ o, stateObjects s !! b = Some o → empty o = false ∨ b ∉ D).
  { intros b Hb o' Ho'. destruct (Hb o' Ho') as [? | Hn]; [by left | right]. intros ?. by apply Hn, elem_of_union_r. } pose proof (Lo a) as Ea. rewrite decide_False in Ea by done. unfold finalise_address.
  destruct (stateObjects t !! a) as [o |] eqn:Eo.
  2: { constructor; try done.
       - intros b. rewrite Lo. destruct (decide (b = a)) as [-> | Hb]; [| by apply Hin].
         by rewrite <- Ea, (decide_False (P := a ∈ D)), decide_True by done.
       - intros b Hb. by apply Ld, Hweak. }
  symmetry in Ea. pose proof (Haddr _ _ Ea) as Hadr.
  assert (Hobj : ∀ o' : stateObject, o' = final_object o → ∀ b, <[a := o']> (stateObjects t) !! b =
    (if decide (b ∈ {[a]} ∪ D) then final_object <$> stateObjects s !! b else stateObjects s !! b)).
  { intros o' -> b. rewrite lookup_insert. case_decide as Hb.
    - subst b. by rewrite decide_True, Ea by done.
    - rewrite Lo. by apply Hin. }
  assert (Hdirty : ∀ (o' : stateObject) b, b ∈ stateObjectsDirty t ∪ {[a]} → b ∈ stateObjectsDirty s ∨ is_Some (<[a := o']> (stateObjects t) !! b)).
  { intros o' b Hb. rewrite lookup_insert. case_decide; [right; by eexists |]. apply Li. apply elem_of_union in Hb as [? | ->%elem_of_singleton]; done. }
  cbn [andb]. unfold final_object in Hobj. destruct (empty o) eqn:Eem.
  - constructor; cbn; try done; try (by case_match).
    + destruct (stateObjectsDestruct t !! address o); cbn; by apply Hobj.
    + intros b Hb. assert (Hne : b ≠ a) by (intros ->; destruct (Hb _ Ea) as [? | ?]; [congruence | done]).
      assert (Hd : stateObjectsDestruct t !! b = stateObjectsDestruct s !! b).
      { by apply Ld, Hweak. }
      case_match; cbn; [done |]. by rewrite lookup_insert_ne by congruence.
    + case_match; cbn; apply Hdirty.
  - constructor; cbn; try done.
    + by apply Hobj.
    + intros b Hb. by apply Ld, Hweak.
    + apply Hdirty.
Qed.

Lemma finalise_loop s : ∀ l D t,
  (∀ b o, stateObjects s !! b = Some o → address o = b) → NoDup l → (∀ a, a ∈ l → a ∉ D) → loop_left D s t →
  loop_left (list_to_set l ∪ D) s (foldl (fun t a => finalise_address true a t) t l).
Proof.
  induction l as [| a l IH]; intros D t Haddr Hn Hd Hl; cbn [foldl list_to_set].
  { by rewrite union_empty_l_L. }
  apply NoDup_cons in Hn as [Ha Hn]. replace (({[a]} ∪ list_to_set l) ∪ D) with (list_to_set l ∪ ({[a]} ∪ D)) by set_solver.
  apply IH; [done | done | set_solver |]. apply finalise_address_left; [done | set_solver | done].
Qed.

(** ** Finalise against the specification *)

Lemma committed_finalise s o d c k : committed_val s (set_flags d c (obj_finalise o)) k = state_val s o k.
Proof.
  unfold state_val, obj_GetState. destruct (dirtyStorage o !! k) as [v |] eqn:Ed.
  - unfold committed_val, obj_GetCommittedState. cbn. by rewrite lookup_union, Ed, union_Some_l.
  - apply committed_cong; [cbn; rewrite lookup_union, Ed; by destruct (pendingStorage o !! k) | done | done | done |]. unfold getTrie. cbn. by repeat case_match.
Qed.

Lemma state_finalise s o d c k : state_val s (set_flags d c (obj_finalise o)) k = state_val s o k.
Proof. rewrite <- (committed_finalise s o d c k). unfold state_val, obj_GetState. cbn. by rewrite lookup_empty. Qed.

(** An object that reads as committed what it reads *)
Definition at_rest (s : StateDB) (o : stateObject) : Prop := ∀ k, state_val s o k = committed_val s o k.

Section Left.
  Context (s : StateDB) (D : gset bytes) (t : StateDB) (L : loop_left D s t).
  Context (Hi : inv s) (Hty : tidy s) (HD : D = dom (dirties (s_journal s))).

Lemma left_object a :
  obj_at t a = (if decide (a ∈ D) then match stateObjects s !! a with Some o => Some (final_object o) | None => obj_at s a end else obj_at s a).
Proof.
  destruct L as [Lo _ _ (Ht & Hs & _) _ _]. unfold obj_at. rewrite Lo. unfold load_account. rewrite Ht, Hs.
  case_decide; by destruct (stateObjects s !! a).
Qed.

Lemma left_env a o : stateObjects s !! a = Some o → empty o = false ∨ a ∉ D → env_at s t a.
Proof.
  intros Ho He. destruct L as [_ Ld _ (_ & Hs & Hr) _ _]. split_and!; [done | done |]. symmetry. apply Ld. intros o' Ho'.
  by rewrite Ho in Ho'; injection Ho' as <-.
Qed.

Lemma unloaded_rest u a o : stateObjects s !! a = None → obj_at s a = Some o → at_rest u o.
Proof. intros Hn. unfold obj_at. rewrite Hn. destruct (load_account s a) as [| [d |]]; try done. intros [= <-] k. done. Qed.

Lemma unloaded_env a : stateObjects s !! a = None → env_at s t a.
Proof. intros Hn. destruct L as [_ Ld _ (_ & Hs & Hr) _ _]. split_and!; [done | done |]. symmetry. apply Ld. by rewrite Hn. Qed.

Lemma final_live o : deleted (final_object o) = empty o || deleted o.
Proof. unfold final_object. by destruct (empty o). Qed.

Definition gone (a : bytes) : bool := match stateObjects s !! a with Some o => bool_decide (a ∈ D) && empty o | None => false end.

Lemma left_live a :
  ∃ o', live_at t a = (if gone a then None else o') ∧
    match live_at s a, o' with
    | Some o, Some o' => gone a = false → account_eq (view_of t o') (v_commit (view_of s o)) ∧ at_rest t o' ∧ empty o' = empty o
    | None, None => True
    | _, _ => False
    end.
Proof.
  unfold live_at, gone. rewrite left_object. destruct (stateObjects s !! a) as [o |] eqn:Eo.
  - rewrite (obj_at_live _ _ _ Eo). pose proof (iv_addr _ Hi _ _ (obj_at_live _ _ _ Eo)) as Hadr. case_decide as Ha.
    + rewrite bool_decide_true, final_live by done. destruct (empty o) eqn:Ee; cbn [orb andb].
      { exists (if deleted o then None else Some (final_object o)). split; [done |]. by destruct (deleted o). }
      eexists. split; [done |]. destruct (deleted o) eqn:Ed; [done |]. intros _.
      assert (He : env_at t s (address o)) by (rewrite Hadr; pose proof (left_env a o Eo (or_introl Ee)) as (? & ? & ?); by split_and!).
      unfold final_object. rewrite Ee. split; [| split; [| done]].
      * split_and!; cbn; try done; [by etrans; [apply (code_env t s) | apply code_cong] | |]; intros k.
        -- etrans; [apply (state_env t s); done | apply state_finalise].
        -- etrans; [apply (committed_env t s); done | apply committed_finalise].
      * intros k. by rewrite state_finalise, committed_finalise.
    + rewrite bool_decide_false by done. cbn [andb]. eexists. split; [done |]. destruct (deleted o) eqn:Ed; [done |]. intros _.
      assert (He : env_at t s (address o)) by (rewrite Hadr; pose proof (left_env a o Eo (or_intror Ha)) as (? & ? & ?); by split_and!).
      assert (Hrest : at_rest s o). { intros k. eapply ty_object; [done | by apply obj_at_live | done |]. apply not_elem_of_dom. by rewrite <- HD. }
      split; [| split; [| done]].
      * split_and!; cbn; try done; [by apply code_env | |]; intros k; [by apply state_env |]. rewrite Hrest. by apply committed_env.
      * intros k. rewrite (state_env t s), (committed_env t s) by done. apply Hrest.
  - replace (if decide (a ∈ D) then obj_at s a else obj_at s a) with (obj_at s a) by by case_decide. eexists. split; [done |].
    destruct (obj_at s a) as [o |] eqn:Ea; [| done]. destruct (deleted o) eqn:Ed; [done |]. intros _.
    pose proof (iv_addr _ Hi _ _ Ea) as Hadr. assert (He : env_at t s (address o)) by (rewrite Hadr; pose proof (unloaded_env a Eo) as (? & ? & ?); by split_and!).
    pose proof (unloaded_rest s a o Eo Ea) as Hrest. split; [| split; [by eapply unloaded_rest | done]].
    split_and!; cbn; try done; [by apply code_env | |]; intros k; [by apply state_env |]. rewrite Hrest. by apply committed_env.
Qed.
End Left.

Lemma v_empty_eq v1 v2 : account_eq v1 v2 → v_empty v1 = v_empty v2.
Proof. intros (E1 & E2 & E3 & _). unfold v_empty. by rewrite E1, E2, E3. Qed.

Lemma v_commit_eq v1 v2 : account_eq v1 v2 → account_eq (v_commit v1) (v_commit v2).
Proof. intros (E1 & E2 & E3 & E4 & E5 & _). by split_and!. Qed.

(** Clearing the journal is not seen. *)
Lemma clear_frame (t : StateDB) :
  let u := clearJournalAndRefund t in
  stateObjects u = stateObjects t ∧ env_eq t u ∧ stateObjectsDirty u = stateObjectsDirty t ∧ thash u = thash t ∧ txIndex u = txIndex t ∧ logs u = logs t ∧
  logSize u = logSize t ∧ preimages u = preimages t ∧ s_accessList u = s_accessList t ∧ validRevisions u = [] ∧ nextRevisionId u = nextRevisionId t.
Proof. unfold clearJournalAndRefund. case_if; split_and!; try done; by constructor. Qed.

Lemma clear_refund (t : StateDB) : (entries (s_journal t) = [] → refund t = 0) → refund (clearJournalAndRefund t) = 0.
Proof. unfold clearJournalAndRefund. case_if; zb; [done |]. intros Hr. apply Hr. destruct (entries (s_journal t)); [done | cbn in *; lia]. Qed.

Lemma loop_view s D t a :
  loop_left D s t → inv s → tidy s → D = dom (dirties (s_journal s)) →
  option_Forall2 account_eq (view t a) (v ← view s a; if bool_decide (a ∈ D ∩ dom (stateObjects s)) && v_empty v then None else Some (v_commit v)).
Proof.
  intros L Hi Hty HD. destruct (left_live s D t L Hi Hty HD a) as (o' & E1 & H). unfold view. rewrite E1.
  destruct (live_at s a) as [o |] eqn:El; destruct o' as [o' |]; try done; [| cbn; by case_match].
  cbn [fmap option_fmap option_map mbind option_bind].
  assert (Hg : gone s D a = bool_decide (a ∈ D ∩ dom (stateObjects s)) && empty o).
  { unfold gone. unfold live_at, obj_at in El. destruct (stateObjects s !! a) as [o1 |] eqn:Eo.
    - destruct (deleted o1); [done |]. injection El as ->. f_equal. apply bool_decide_ext. rewrite elem_of_intersection, elem_of_dom, Eo. split; [by eauto | tauto].
    - rewrite bool_decide_false; [done |]. rewrite elem_of_intersection, elem_of_dom, Eo. by intros [_ [? ?]]. }
  change (v_empty (view_of s o)) with (empty o). rewrite <- Hg. destruct (gone s D a) eqn:Eg; [constructor |]. constructor. by apply H.
Qed.

Lemma loop_inv s D t : loop_left D s t → inv s → inv t.
Proof.
  intros L [Ha Hc Hd Hj Hl Hls Hal]. pose proof L as [_ _ Li _ (_ & _ & _ & El & Els & _ & Eal) [Ej _]].
  assert (Hobj : ∀ a o, obj_at t a = Some o → ∃ o', obj_at s a = Some o' ∧ address o = address o' ∧ data o = data o').
  { intros a o. rewrite (left_object s D t L). case_decide; [| eauto]. destruct (stateObjects s !! a) as [o' |] eqn:Eo; [| eauto].
    intros [= <-]. exists o'. split; [by apply obj_at_live | apply final_flags]. }
  constructor; [| | | by rewrite Ej | by rewrite El | by rewrite Els | by rewrite Eal].
  - intros a o (o' & Ho' & -> & _)%Hobj. by apply Ha.
  - intros a o (o' & Ho' & _ & ->)%Hobj. by eapply Hc.
  - intros a [Hin | [o Ho]]%Li; [| rewrite (obj_at_live _ _ _ Ho); eauto]. apply Hd in Hin as [o Ho]. rewrite (left_object s D t L).
    repeat case_match; eauto.
Qed.

(** What the loop of Finalise leaves *)
Lemma Finalise_left s : inv s →
  let D := dom (dirties (s_journal s)) in loop_left D s (foldl (fun s a => finalise_address true a s) s (elements D)).
Proof.
  intros Hi D. replace D with (list_to_set (elements D) ∪ ∅ : gset bytes) at 1 by (rewrite union_empty_r_L; apply list_to_set_elements_L).
  apply finalise_loop; [intros b o Ho; by apply (iv_addr _ Hi), obj_at_live | apply NoDup_elements | set_solver | apply loop_left_refl].
Qed.

Lemma Finalise_inv s : inv s → inv (Finalise true s).
Proof.
  intros Hi. pose proof (loop_inv _ _ _ (Finalise_left s Hi) Hi) as [Ha Hc Hd Hj Hl Hls Hal]. unfold Finalise. set (t := foldl _ s _) in *.
  destruct (clear_frame t) as (Fo & Fe & Fd & _ & _ & F3 & F4 & _ & F6 & _). constructor.
  - intros a o Hoa. rewrite (obj_at_ext t) in Hoa by (done || symmetry; apply Fe). by apply Ha.
  - intros a o Hoa. rewrite (obj_at_ext t) in Hoa by (done || symmetry; apply Fe). by eapply Hc.
  - intros a. rewrite Fd, (obj_at_ext t) by (done || symmetry; apply Fe). apply Hd.
  - unfold clearJournalAndRefund. by case_if.
  - by rewrite F3.
  - by rewrite F4.
  - by rewrite F6.
Qed.

Lemma Finalise_refund s : inv s → tidy s → refund (Finalise true s) = 0.
Proof.
  intros Hi Hty. pose proof (Finalise_left s Hi) as L. destruct (ll_frame _ _ _ L) as (G1 & _). destruct (ll_journal _ _ _ L) as [G8 _]. apply clear_refund. rewrite G8, G1. apply Hty.
Qed.

Lemma Finalise_tidy s : inv s → tidy s → tidy (Finalise true s).
Proof.
  intros Hi Hty. pose proof (Finalise_refund s Hi Hty) as Hr0. pose proof (Finalise_left s Hi) as L. unfold Finalise in *. set (D := dom (dirties (s_journal s))) in *. set (t := foldl _ s _) in *.
  destruct (clear_frame t) as (Fo & Fe & _). pose proof (objects_ext t _ Fo Fe) as Hobj. constructor; [done |]. intros a o Hoa Hd _ k. specialize (Hobj a). rewrite Hoa in Hobj. unfold obj_opt_eq in Hobj.
  destruct (obj_at t a) as [o1 |] eqn:Eo1; [| done]. rewrite <- (oe_state _ _ _ _ Hobj), <- (oe_committed _ _ _ _ Hobj).
  destruct (left_live s D t L Hi Hty eq_refl a) as (o' & El & H). unfold live_at at 1 in El. rewrite Eo1, (oe_deleted _ _ _ _ Hobj), Hd in El.
  destruct (gone s D a); [done |]. subst o'. destruct (live_at s a); [| done]. by apply H.
Qed.

Lemma Finalise_refines s sw :
  refines s sw → ∃ D, refines (Finalise true s) (MkSaved (finalised D (sw_now sw)) [] (sw_next sw)).
Proof.
  intros [Hi Hdb Hty [H1 H2 H3 H4 H5 H6 H7 H8] Hn _]. set (D := dom (dirties (s_journal s))). pose proof (Finalise_left s Hi : loop_left D s (foldl (fun s a => finalise_address true a s) s (elements D))) as L.
  pose proof (Finalise_inv s Hi) as Hif. pose proof (Finalise_tidy s Hi Hty) as Htf. pose proof (Finalise_refund s Hi Hty) as Hr0.
  unfold Finalise in *. fold D in Hif, Htf, Hr0 |- *. set (t := foldl _ s (elements D)) in *. destruct (clear_frame t) as (Fo & Fe & Fd & F1 & F2 & F3 & F4 & F5 & F6 & F7 & F8).
  pose proof (ll_frame _ _ _ L) as (G1 & G2 & G3 & G4 & G5 & G6 & G7). pose proof (ll_journal _ _ _ L) as [G8 G9].
  exists (D ∩ dom (stateObjects s)). constructor; cbn [sw_now sw_saved sw_next]; [done | | done | | congruence |].
  - eapply (db_laws_env s); [| | done]; destruct (ll_env _ _ _ L) as (E1 & E2 & _); destruct Fe as [E3 E4 _ _]; congruence.
  - constructor; cbn [finalised w_account w_refund w_thash w_txIndex w_logs w_logSize w_preimages w_access]; [| congruence..]. intros a. etrans; [by apply (view_frame t) |]. etrans; [by apply (loop_view s D t a L Hi Hty) |].
    specialize (H1 a). destruct H1 as [v1 v2 He |]; cbn; [| constructor]. rewrite (v_empty_eq _ _ He). case_if; constructor. by apply v_commit_eq.
  - exists []. split; [| constructor]. by constructor.
Qed.

(** ** The other operations between transactions *)

(** Without snapshots, what is not journalled may change. *)
Lemma refines_frame (s t : StateDB) sw w :
  refines s sw → sw_saved sw = [] → stateObjects t = stateObjects s → env_eq s t → stateObjectsDirty t = stateObjectsDirty s →
  s_journal t = s_journal s → refund t = refund s → s_accessList t = s_accessList s → validRevisions t = validRevisions s → nextRevisionId t = nextRevisionId s →
  map_Forall (fun _ l => l ≠ []) (logs t) → logSize t = logSize s →
  w_account w = w_account (sw_now sw) → w_refund w = w_refund (sw_now sw) → w_access w = w_access (sw_now sw) →
  w_thash w = thash t → w_txIndex w = txIndex t → w_logs w = logs t → w_logSize w = logSize t → w_preimages w = preimages t →
  refines t (MkSaved w [] (sw_next sw)).
Proof.
  intros [Hi Hdb Hty Hw Hn (gs & Hl & Hgs)] Hsaved Eo Ee Ed Ej Er Eal Ev En Hlogs Els W1 W2 W3 W4 W5 W6 W7 W8.
  assert (gs = []) as -> by (rewrite Hsaved in Hgs; apply Forall2_nil_inv_r in Hgs; by destruct gs as [| g gs] using rev_ind; [| rewrite rev_unit in Hgs]).
  destruct Hw as [H1 H2 _ _ _ _ _ H8]. constructor; cbn [sw_now sw_saved sw_next].
  - destruct Hi as [Ha Hc Hd Hj Hlg Hls Hal]. constructor; [| | | by rewrite Ej | done | by rewrite Els | by rewrite Eal].
    + intros a o. rewrite (obj_at_ext s) by (done || symmetry; apply Ee). apply Ha.
    + intros a o. rewrite (obj_at_ext s) by (done || symmetry; apply Ee). apply Hc.
    + intros a. rewrite Ed, (obj_at_ext s) by (done || symmetry; apply Ee). apply Hd.
  - eapply (db_laws_env s); [apply Ee | apply Ee | done].
  - eapply (tidy_objects s); [by apply objects_ext | done..].
  - constructor; [| congruence..]. intros a. rewrite W1. etrans; [by apply (view_frame s) | apply H1].
  - congruence.
  - exists []. split; [| constructor]. destruct Hl as [Lv _ _ _]. constructor; [by rewrite Ev | done..].
Qed.

Definition with_context (th : bytes) (ti : Z) (w : world) : world :=
  MkWorld (w_account w) (w_refund w) th ti (w_logs w) (w_logSize w) (w_preimages w) (w_access w).

Lemma SetTxContext_refines th ti s sw :
  refines s sw → sw_saved sw = [] → refines (SetTxContext th ti s) (MkSaved (with_context th ti (sw_now sw)) [] (sw_next sw)).
Proof.
  intros Hr Hs. pose proof (rf_shows _ _ Hr) as [_ _ _ _ H5 H6 H7 _]. eapply (refines_frame s); try done. apply Hr.
Qed.

Definition with_logs (l : gmap bytes (list Log)) (w : world) : world :=
  MkWorld (w_account w) (w_refund w) (w_thash w) (w_txIndex w) l (w_logSize w) (w_preimages w) (w_access w).

Definition located (hash : bytes) (n : Z) (bh : bytes) (l : gmap bytes (list Log)) : gmap bytes (list Log) :=
  match l !! hash with Some x => <[hash := map (locate_log n bh) x]> l | None => l end.

Lemma GetLogs_refines hash n bh s sw :
  refines s sw → sw_saved sw = [] →
  (GetLogs hash n bh s).1 = map (locate_log n bh) (default [] (w_logs (sw_now sw) !! hash)) ∧
  refines (GetLogs hash n bh s).2 (MkSaved (with_logs (located hash n bh (w_logs (sw_now sw))) (sw_now sw)) [] (sw_next sw)).
Proof.
  intros Hr Hs. pose proof (rf_shows _ _ Hr) as [_ _ H3 H4 H5 H6 H7 _]. pose proof (iv_logs _ (rf_inv _ _ Hr)) as Hl.
  unfold GetLogs, located. rewrite <- H5. destruct (logs s !! hash) as [l |] eqn:El; (split; [done |]).
  - eapply (refines_frame s); try done. cbn. apply map_Forall_insert_2; [| done]. specialize (Hl _ _ El). cbn in Hl. by destruct l.
  - by eapply (refines_frame s).
Qed.
End Finalise.
