(* ===== verification/Bloom.v ===== *)
(** * Bloom filters of logs: core/types/bloom9.go

    A filter is 256 bytes; a value sets three of its bits, chosen by the first six
    bytes of its hash. *)

From S2P Require Import Prelude TrieNode TrieStore TrieOps StateAccess State.

Section Bloom.
  Context `{HF : Hasher}.

Abbreviation Bloom := bytes.
Definition emptyBloom : Bloom := repeat 0 256.

(** binary.BigEndian.Uint16 *)
Definition BigEndian_Uint16 (b : bytes) : Z := Z.lor (nth 1 b 0) (Z.shiftl (nth 0 b 0) 8).

Definition bloomIndex (b : bytes) : Z := 256 - Z.shiftr (Z.land (BigEndian_Uint16 b) 0x7ff) 3 - 1.

Definition bloomValues (data : bytes) : Z * Z * Z * Z * Z * Z :=
  let hashbuf := take 6 (sum256 data) in
  let v1 := u8 (Z.shiftl 1 (Z.land (nth 1 hashbuf 0) 0x7)) in
  let v2 := u8 (Z.shiftl 1 (Z.land (nth 3 hashbuf 0) 0x7)) in
  let v3 := u8 (Z.shiftl 1 (Z.land (nth 5 hashbuf 0) 0x7)) in
  let i1 := bloomIndex hashbuf in
  let i2 := bloomIndex (drop 2 hashbuf) in
  let i3 := bloomIndex (drop 4 hashbuf) in
  (i1, v1, i2, v2, i3, v3).

(** b[i] |= v *)
Definition or_at (i v : Z) (b : Bloom) : Bloom := alter (fun x => Z.lor x v) (Z.to_nat i) b.

Definition bloom_add (d : bytes) (b : Bloom) : Bloom :=
  let '(i1, v1, i2, v2, i3, v3) := bloomValues d in or_at i3 v3 (or_at i2 v2 (or_at i1 v1 b)).

(** v == v&b[i] *)
Definition has_at (i v : Z) (b : Bloom) : bool := v =? Z.land v (nth (Z.to_nat i) b 0).

Definition bloom_Test (b : Bloom) (topic : bytes) : bool :=
  let '(i1, v1, i2, v2, i3, v3) := bloomValues topic in has_at i1 v1 b && has_at i2 v2 b && has_at i3 v3 b.

(** The body of the loops of CreateBloom and LogsBloom *)
Definition add_log (b : Bloom) (log : Log) : Bloom :=
  foldl (fun b t => bloom_add t b) (bloom_add (lg_Address log) b) (lg_Topics log).

(** Of a receipt only the logs are read. *)
Definition CreateBloom (receipts : list (list Log)) : Bloom := foldl (fun b logs => foldl add_log b logs) emptyBloom receipts.

Definition LogsBloom (logs : list Log) : bytes := foldl add_log emptyBloom logs.

(** ** Filters only grow *)

Definition below (b b' : Bloom) : Prop := length b = length b' ∧ ∀ i x y, b !! i = Some x → b' !! i = Some y → Z.land x y = x.

Lemma below_refl b : below b b.
Proof. split; [done |]. intros i x y Hx Hy. rewrite Hx in Hy. injection Hy as <-. apply Z.land_diag. Qed.

Lemma below_trans b1 b2 b3 : below b1 b2 → below b2 b3 → below b1 b3.
Proof.
  intros [L1 H1] [L2 H2]. split; [congruence |]. intros i x z Hx Hz.
  destruct (lookup_lt_is_Some_2 b2 i) as [y Hy]; [rewrite <- L1; by eapply lookup_lt_Some |].
  rewrite <- (H1 i x y Hx Hy) at 1. rewrite <- Z.land_assoc, (H2 i y z Hy Hz). by apply (H1 i).
Qed.

Lemma or_at_below i v b : below b (or_at i v b).
Proof.
  split; [by unfold or_at; rewrite length_alter |]. intros j x y Hx Hy. unfold or_at in Hy. rewrite list_lookup_alter in Hy.
  case_decide as Hj; [rewrite <- Hj in Hx |]; rewrite Hx in Hy; cbn in Hy; injection Hy as <-; [| apply Z.land_diag].
  apply Z.bits_inj. intros n. rewrite Z.land_spec, Z.lor_spec. by destruct (Z.testbit x n).
Qed.

Lemma add_below d b : below b (bloom_add d b).
Proof.
  unfold bloom_add. destruct (bloomValues d) as [[[[[i1 v1] i2] v2] i3] v3].
  eapply below_trans; [apply or_at_below |]. eapply below_trans; apply or_at_below.
Qed.

Lemma foldl_below {A} (f : Bloom → A → Bloom) l : (∀ b x, below b (f b x)) → ∀ b, below b (foldl f b l).
Proof. intros Hf. induction l as [| x l IH]; intros b; cbn; [apply below_refl |]. eapply below_trans; [apply Hf | apply IH]. Qed.

Lemma log_below b log : below b (add_log b log).
Proof. eapply below_trans; [apply add_below | apply foldl_below]. intros; apply add_below. Qed.

Lemma has_below i v b b' : below b b' → has_at i v b = true → has_at i v b' = true.
Proof.
  intros [Hl H]. unfold has_at. intros E%Z.eqb_eq. apply Z.eqb_eq. rewrite !nth_lookup in *.
  destruct (b !! Z.to_nat i) as [x |] eqn:Ex; cbn in E.
  - destruct (lookup_lt_is_Some_2 b' (Z.to_nat i)) as [y Ey]; [rewrite <- Hl; by eapply lookup_lt_Some |]. rewrite Ey. cbn.
    rewrite E at 2. rewrite <- Z.land_assoc, (H _ _ _ Ex Ey). done.
  - rewrite Z.land_0_r in E. subst v. by rewrite Z.land_0_l.
Qed.

Lemma Test_below b b' d : below b b' → bloom_Test b d = true → bloom_Test b' d = true.
Proof.
  intros H. unfold bloom_Test. destruct (bloomValues d) as [[[[[i1 v1] i2] v2] i3] v3]. rewrite !andb_true_iff.
  intros [[H1 H2] H3]. split_and!; by eapply has_below.
Qed.

Lemma bloomIndex_range b : 0 <= bloomIndex b < 256.
Proof.
  unfold bloomIndex. set (x := BigEndian_Uint16 b). replace 0x7ff with (Z.ones 11) by done. rewrite Z.land_ones, Z.shiftr_div_pow2 by lia.
  pose proof (Z.mod_pos_bound x (2 ^ 11) ltac:(lia)). pose proof (Z.div_pos (x mod 2 ^ 11) (2 ^ 3) ltac:(lia) ltac:(lia)).
  assert (x mod 2 ^ 11 / 2 ^ 3 < 256) by (apply Z.div_lt_upper_bound; lia). lia.
Qed.

Lemma has_or_at i v b : (Z.to_nat i < length b)%nat → has_at i v (or_at i v b) = true.
Proof.
  intros Hi. unfold has_at, or_at. apply Z.eqb_eq. rewrite nth_lookup, list_lookup_alter, decide_True by done.
  destruct (lookup_lt_is_Some_2 b _ Hi) as [x ->]. cbn. apply Z.bits_inj. intros n. rewrite Z.land_spec, Z.lor_spec. by destruct (Z.testbit v n), (Z.testbit x n).
Qed.

Lemma Test_add d b : length b = 256%nat → bloom_Test (bloom_add d b) d = true.
Proof.
  intros Hb. unfold bloom_Test, bloom_add, bloomValues. set (h := take 6 (sum256 d)).
  pose proof (bloomIndex_range h). pose proof (bloomIndex_range (drop 2 h)). pose proof (bloomIndex_range (drop 4 h)).
  rewrite !andb_true_iff. split_and!.
  - eapply has_below; [eapply below_trans; apply or_at_below |]. apply has_or_at. lia.
  - eapply has_below; [apply or_at_below |]. apply has_or_at. unfold or_at. rewrite length_alter. lia.
  - apply has_or_at. unfold or_at. rewrite !length_alter. lia.
Qed.

(** ** What a log put into the filter *)

Definition log_values (log : Log) : list bytes := lg_Address log :: lg_Topics log.

Lemma Test_foldl ds d : d ∈ ds → ∀ b, length b = 256%nat → bloom_Test (foldl (fun b t => bloom_add t b) b ds) d = true.
Proof.
  intros Hd. induction Hd as [d ds | d d' ds Hd IH]; intros b Hb; cbn [foldl].
  - eapply Test_below; [apply foldl_below; intros; apply add_below | by apply Test_add].
  - apply IH. by rewrite <- (proj1 (add_below d' b)).
Qed.

Lemma Test_log b log d : length b = 256%nat → d ∈ log_values log → bloom_Test (add_log b log) d = true.
Proof. intros Hb Hd. change (add_log b log) with (foldl (fun b t => bloom_add t b) b (log_values log)). by apply Test_foldl. Qed.

Lemma Test_logs logs log d : log ∈ logs → d ∈ log_values log → ∀ b, length b = 256%nat → bloom_Test (foldl add_log b logs) d = true.
Proof.
  intros Hl Hd. induction Hl as [log logs | log log' logs Hl IH]; intros b Hb; cbn [foldl].
  - eapply Test_below; [apply foldl_below; intros; apply log_below | by apply Test_log].
  - apply (IH Hd). by rewrite <- (proj1 (log_below b log')).
Qed.

(** C38.  A filter never misses: the address and every topic of every log of the
    receipts test positive in the filter of the receipts, whatever else was added. *)
Theorem CreateBloom_complete receipts logs log d :
  logs ∈ receipts → log ∈ logs → d ∈ log_values log → bloom_Test (CreateBloom receipts) d = true.
Proof.
  intros Hr Hl Hd. unfold CreateBloom. assert (He : length emptyBloom = 256%nat) by done. revert He. generalize emptyBloom.
  induction Hr as [logs rs | logs logs' rs Hr IH]; intros b Hb; cbn [foldl].
  - eapply Test_below; [| by eapply Test_logs]. apply foldl_below. intros. apply foldl_below. intros. apply log_below.
  - apply (IH Hl). rewrite <- (proj1 (foldl_below add_log logs' log_below b)). done.
Qed.
End Bloom.

Lemma CreateBloom_complete_witness : ∃ log d, @bloom_Test toy_hash (@CreateBloom toy_hash [[]; [log]]) d = true.
Proof.
  exists (MkLog (repeat 7 20) [repeat 9 32] [1; 2] 5 zeroHash 0 zeroHash 0), (repeat 9 32).
  apply (@CreateBloom_complete toy_hash _ [MkLog (repeat 7 20) [repeat 9 32] [1; 2] 5 zeroHash 0 zeroHash 0] (MkLog (repeat 7 20) [repeat 9 32] [1; 2] 5 zeroHash 0 zeroHash 0));
    repeat constructor.
Defined.
