(* ===== verification/Header.v ===== *)
(** * Block headers: core/types/block.go, gen_header_rlp.go and rlpHash of hashing.go

    A header is identified by the hash of its encoding; the encoder is the one that
    rlpgen generates, on the buffer of RlpEncode. *)

From S2P Require Import Prelude RlpRaw RlpEncode RlpStream TrieNode TrieStore TrieOps StateAccess State.

Record Header := MkHeader {
  h_ParentHash : bytes;
  h_Coinbase : bytes;
  h_Root : bytes;
  h_TxHash : bytes;
  h_ReceiptHash : bytes;
  h_Bloom : bytes;
  h_Number : option Z;
  h_GasLimit : Z;
  h_GasUsed : Z;
  h_Time : Z;
  h_Extra : bytes;
  h_Random : bytes;
  h_BaseFee : option Z;
  h_WithdrawalsHash : option bytes
}.

(** A pointer to a big.Int, read *)
Definition deref {E A} (p : option A) : outcome E A := match p with Some x => Ok x | None => Panic end.

(** The part of the generated encoders that writes a big.Int *)
Definition write_big (x : option Z) (w : encBuffer) : go encBuffer :=
  match x with
  | None => Ok (append_str w [0x80])
  | Some n => if n <? 0 then Err ErrNegativeBigInt else writeBigInt n w
  end.

Definition Header_EncodeRLP (obj : Header) (w : encBuffer) : go encBuffer :=
  let '(w, tmp0) := open_list w in
  w ← writeBytes (h_ParentHash obj) w;
  w ← writeBytes (h_Coinbase obj) w;
  w ← writeBytes (h_Root obj) w;
  w ← writeBytes (h_TxHash obj) w;
  w ← writeBytes (h_ReceiptHash obj) w;
  w ← writeBytes (h_Bloom obj) w;
  w ← write_big (h_Number obj) w;
  w ← writeUint64 (h_GasLimit obj) w;
  w ← writeUint64 (h_GasUsed obj) w;
  w ← writeUint64 (h_Time obj) w;
  w ← writeBytes (h_Extra obj) w;
  w ← writeBytes (h_Random obj) w;
  let tmp1 := bool_decide (is_Some (h_BaseFee obj)) in
  let tmp2 := bool_decide (is_Some (h_WithdrawalsHash obj)) in
  w ← (if tmp1 || tmp2 then write_big (h_BaseFee obj) w else Ok w);
  w ← match h_WithdrawalsHash obj with Some h => writeBytes h w | None => Ok w end;
  listEnd tmp0 w.

(** rlp.Encode of a value with its own EncodeRLP, whose error rlpHash ignores *)
Definition rlpHash `{Hasher} (pooled : encBuffer) (EncodeRLP : encBuffer → go encBuffer) : go bytes :=
  match (buf ← EncodeRLP (getEncBuffer pooled); writeTo buf ([] : bytes)) with
  | Ok written => Ok (sum256 written)
  | Err _ => Ok (sum256 [])
  | Panic => Panic
  | OutOfFuel => OutOfFuel
  end.

Definition Header_Hash `{Hasher} (pooled : encBuffer) (h : Header) : go bytes := rlpHash pooled (Header_EncodeRLP h).

Definition HeaderParentHashFromRLP (header : bytes) : bytes :=
  match SplitList header with
  | Ok (listContent, _) =>
      match SplitString listContent with
      | Ok (parentHash, _) => if negb (len parentHash =? 32) then zeroHash else BytesToHash parentHash
      | _ => zeroHash
      end
  | _ => zeroHash
  end.

(** ** The encoding as an item *)

Definition big_item (x : option Z) : item := IBytes (match x with Some n => big_be n | None => [] end).

Definition header_item (h : Header) : item :=
  IList ([IBytes (h_ParentHash h); IBytes (h_Coinbase h); IBytes (h_Root h); IBytes (h_TxHash h); IBytes (h_ReceiptHash h); IBytes (h_Bloom h);
          big_item (h_Number h); IBytes (min_be (h_GasLimit h)); IBytes (min_be (h_GasUsed h)); IBytes (min_be (h_Time h)); IBytes (h_Extra h); IBytes (h_Random h)] ++
         match h_BaseFee h, h_WithdrawalsHash h with
         | None, None => []
         | b, None => [big_item b]
         | b, Some w => [big_item b; IBytes w]
         end).

Record header_ok (h : Header) : Prop := MkHeaderOk {
  ho_hashes : Forall (fun x => bytes_ok x ∧ len x = 32) [h_ParentHash h; h_Root h; h_TxHash h; h_ReceiptHash h; h_Random h];
  ho_coinbase : bytes_ok (h_Coinbase h) ∧ len (h_Coinbase h) = 20;
  ho_bloom : bytes_ok (h_Bloom h) ∧ len (h_Bloom h) = 256;
  ho_extra : bytes_ok (h_Extra h) ∧ len (h_Extra h) < 2 ^ 40;
  ho_number : ∃ n, h_Number h = Some n ∧ 0 <= n < 2 ^ 256;
  ho_gas : 0 <= h_GasLimit h < 2 ^ 64 ∧ 0 <= h_GasUsed h < 2 ^ 64 ∧ 0 <= h_Time h < 2 ^ 64;
  ho_fee : ∀ b, h_BaseFee h = Some b → 0 <= b < 2 ^ 256;
  ho_withdrawals : ∀ w, h_WithdrawalsHash h = Some w → bytes_ok w ∧ len w = 32 ∧ is_Some (h_BaseFee h)
}.

(** The value that the reflection-based encoder would write the same for *)
Definition header_rval (h : Header) : rval :=
  VSlice false ([VBytes (h_ParentHash h); VBytes (h_Coinbase h); VBytes (h_Root h); VBytes (h_TxHash h); VBytes (h_ReceiptHash h); VBytes (h_Bloom h);
          VBigPtr (h_Number h); VUint (h_GasLimit h); VUint (h_GasUsed h); VUint (h_Time h); VBytes (h_Extra h); VBytes (h_Random h)] ++
         match h_BaseFee h, h_WithdrawalsHash h with
         | None, None => []
         | b, None => [VBigPtr b]
         | b, Some w => [VBigPtr b; VBytes w]
         end).

Lemma write_elems_app {A} (f : A → encBuffer → go encBuffer) l k w :
  write_elems f (l ++ k) w = (w ← write_elems f l w; write_elems f k w).
Proof. revert w; induction l as [| x l IH]; intros w; cbn; [done |]. destruct (f x w); cbn; [apply IH | done..]. Qed.

Lemma Header_EncodeRLP_writer h w : Header_EncodeRLP h w = writer (header_rval h) w.
Proof.
  unfold Header_EncodeRLP, header_rval. change write_big with writeBigIntPtr. cbn [writer app]. destruct (open_list w) as [w1 lh]. cbn [write_elems writer].
  do 12 (match goal with |- (?m ≫= _) = _ => destruct m; cbn [mbind outcome_bind]; [| done..] end).
  destruct (h_BaseFee h) as [b |], (h_WithdrawalsHash h) as [wh |]; rewrite ?(bool_decide_true (is_Some (Some _))) by eauto;
    rewrite ?(bool_decide_false (is_Some None)) by (by intros [? ?]); cbn [orb write_elems writer mbind outcome_bind].
  all: repeat (match goal with |- context [?m ≫= _] => destruct m; cbn [mbind outcome_bind]; [| done..] end); done.
Qed.

(** A value that is written as a string of moderate length *)
Definition leaf (v : rval) (it : item) : Prop := ∃ b, it = IBytes b ∧ rlp_enc v = Ok (enc_string b) ∧ rval_ok v ∧ bytes_ok b ∧ len b < 2 ^ 40.

Lemma leaf_slice b : len b < 2 ^ 40 → slice_len (enc_string b).
Proof. intros Hb. pose proof (enc_string_bound b ltac:(lia)). lia. Qed.

Lemma leaf_bytes b : bytes_ok b → len b < 2 ^ 40 → leaf (VBytes b) (IBytes b).
Proof. intros Hb Hl. exists b. split_and!; try done. split; [| done]. intros e [= <-]. by apply leaf_slice. Qed.

Lemma leaf_uint x : 0 <= x < 2 ^ 64 → leaf (VUint x) (IBytes (min_be x)).
Proof.
  intros Hx. pose proof (min_be_length x Hx). exists (min_be x). split_and!; [done | done | | apply min_be_ok | lia].
  split; [| done]. intros e [= <-]. apply leaf_slice. lia.
Qed.

Lemma big_be_length n : 0 <= n < 2 ^ 256 → len (big_be n) <= 32.
Proof.
  intros Hn. unfold big_be. rewrite length_be_bytes. destruct (decide (n = 0)) as [-> | Hnz]; [by vm_compute |].
  pose proof (BitLen_bound n ltac:(lia)) as Hb. pose proof (BitLen_nonneg n). assert (BitLen n <= 256).
  { apply Z.nlt_ge. intros Hc. pose proof (Z.pow_le_mono_r 2 256 (BitLen n - 1) ltac:(lia) ltac:(lia)). lia. }
  assert ((BitLen n + 7) / 8 < 33) by (apply Z.div_lt_upper_bound; lia). lia.
Qed.

Lemma leaf_big n : 0 <= n < 2 ^ 256 → leaf (VBigPtr (Some n)) (big_item (Some n)).
Proof.
  intros Hn. pose proof (big_be_length n Hn). assert (E : rlp_enc (VBigPtr (Some n)) = Ok (enc_string (big_be n))).
  { cbn. unfold enc_big. by rewrite (proj2 (Z.ltb_ge n 0)) by lia. }
  exists (big_be n). split_and!; [done | done | | apply be_bytes_ok | lia]. cbn [rval_ok]. split; [| done].
  intros e. rewrite E. intros [= <-]. apply leaf_slice. lia.
Qed.

Lemma leaves_enc vs its : Forall2 leaf vs its →
  enc_elems rlp_enc vs = Ok (concat (map enc_item its)) ∧ fold_right (fun x P => rval_ok x ∧ P) True vs ∧
  bytes_ok (concat (map enc_item its)) ∧ len (concat (map enc_item its)) <= len its * (9 + 2 ^ 40).
Proof.
  induction 1 as [| v it vs its (b & -> & E & Hok & Hb & Hl) H (IH1 & IH2 & IH3 & IH4)]; [by split_and! |]. cbn [enc_elems map concat fold_right].
  rewrite E, IH1. pose proof (enc_string_bound b ltac:(lia)). split_and!; [done | done | done | |].
  - apply Forall_app. split; [| done]. apply enc_string_bytes; [done | lia].
  - rewrite len_app, len_cons. cbn [enc_item]. lia.
Qed.

Lemma header_leaves h : header_ok h →
  ∃ vs its, header_rval h = VSlice false vs ∧ header_item h = IList its ∧ Forall2 leaf vs its ∧ vs ≠ [] ∧ (length its <= 14)%nat.
Proof.
  intros [Hh [Hc1 Hc2] [Hb1 Hb2] [He1 He2] (n & En & Hn) (G1 & G2 & G3) Hfee Hw].
  repeat match goal with H : Forall _ (_ :: _) |- _ => apply Forall_cons in H as [[? ?] ?] end.
  eexists _, _. split; [done |]. split; [done |]. rewrite En. split; [| split; [done |]].
  - apply Forall2_app; [repeat constructor; (by apply leaf_uint) || (by apply leaf_big) || (apply leaf_bytes; (done || lia)) |].
    destruct (h_BaseFee h) as [b |], (h_WithdrawalsHash h) as [wh |].
    + destruct (Hw _ eq_refl) as (? & ? & _). repeat constructor; [by apply leaf_big, Hfee | apply leaf_bytes; (done || lia)].
    + repeat constructor. by apply leaf_big, Hfee.
    + by destruct (Hw _ eq_refl) as (_ & _ & [? ?]).
    + constructor.
  - rewrite length_app. destruct (h_BaseFee h), (h_WithdrawalsHash h); cbn; lia.
Qed.

Lemma header_encoding h : header_ok h →
  rlp_enc (header_rval h) = Ok (enc_item (header_item h)) ∧ rval_ok (header_rval h) ∧ bytes_ok (enc_item (header_item h)) ∧ slice_len (enc_item (header_item h)).
Proof.
  intros Hh. destruct (header_leaves h Hh) as (vs & its & -> & -> & Hl & Hne & Hlen). destruct (leaves_enc vs its Hl) as (E & Hok & Hb & Hs).
  assert (Hb2 : len (concat (map enc_item its)) < 2 ^ 50) by lia.
  assert (Hs2 : slice_len (enc_list (concat (map enc_item its)))).
  { unfold enc_list. rewrite len_app, head_length by lia. pose proof (headsize_range (len (concat (map enc_item its)))). lia. }
  cbn [rlp_enc rval_ok enc_item]. rewrite E. cbn [mbind outcome_bind]. split_and!; [done | intros e [= <-]; done | done | | done].
  unfold enc_list. apply Forall_app. split; [| done]. apply head_bytes; lia.
Qed.

(** ** Hashes *)

Lemma Header_Hash_spec `{Hasher} pooled h :
  length (sizebuf pooled) = 9%nat → header_ok h → Header_Hash pooled h = Ok (sum256 (enc_item (header_item h))).
Proof.
  intros Hs Hh. destruct (header_encoding h Hh) as (E & Hok & _ & _). unfold Header_Hash, rlpHash. rewrite Header_EncodeRLP_writer.
  change (buf ← writer (header_rval h) (getEncBuffer pooled); writeTo buf []) with (Encode pooled ([] : bytes) (header_rval h)).
  by rewrite (Encode_buffer pooled [] _ _ Hs Hok E).
Qed.

Lemma enc_item_inj it1 it2 : bytes_ok (enc_item it1) → slice_len (enc_item it1) → enc_item it1 = enc_item it2 → it1 = it2.
Proof.
  intros Hb Hl E. pose proof (proj2 (DecodeBytes_spec zero_stream _ it1 Hb Hl) eq_refl) as H1.
  pose proof (proj2 (DecodeBytes_spec zero_stream _ it2 Hb Hl) E) as H2. congruence.
Qed.

Lemma min_be_inj x y : 0 <= x < 2 ^ 64 → 0 <= y < 2 ^ 64 → min_be x = min_be y → x = y.
Proof. intros Hx Hy E. by rewrite <- (be_val_min_be x), <- (be_val_min_be y), E. Qed.

Lemma big_item_inj x y : 0 <= x → 0 <= y → big_item (Some x) = big_item (Some y) → x = y.
Proof. intros Hx Hy [= E]. by rewrite <- (be_val_big_be x), <- (be_val_big_be y), E. Qed.

Lemma header_item_inj h1 h2 : header_ok h1 → header_ok h2 → header_item h1 = header_item h2 → h1 = h2.
Proof.
  intros [_ _ _ _ (n1 & En1 & Hn1) (G1 & G2 & G3) F1 W1] [_ _ _ _ (n2 & En2 & Hn2) (G1' & G2' & G3') F2 W2] E. unfold header_item in E. rewrite En1, En2 in E.
  injection E as E1 E2 E3 E4 E5 E6 E7 E8 E9 E10 E11 E12 E13.
  apply min_be_inj in E8, E9, E10; try done. assert (n1 = n2) by (apply big_item_inj; [lia | lia | by unfold big_item; rewrite E7]). subst n2.
  assert (E14 : h_BaseFee h1 = h_BaseFee h2 ∧ h_WithdrawalsHash h1 = h_WithdrawalsHash h2).
  { destruct (h_BaseFee h1) as [b1 |], (h_WithdrawalsHash h1) as [w1 |], (h_BaseFee h2) as [b2 |], (h_WithdrawalsHash h2) as [w2 |]; try done;
      try (by destruct (W1 _ eq_refl) as (_ & _ & [? ?])); try (by destruct (W2 _ eq_refl) as (_ & _ & [? ?])).
    - injection E13 as E13 ->. split; [f_equal | done]. apply big_item_inj; [by apply F1 | by apply F2 | by unfold big_item; rewrite E13].
    - injection E13 as E13. split; [f_equal | done]. apply big_item_inj; [by apply F1 | by apply F2 | by unfold big_item; rewrite E13]. }
  clear E13 F1 W1 F2 W2. destruct h1, h2, E14. cbn in *. by subst.
Qed.

(** A header is known by its hash: when the hash function does not send the two
    encodings to one value, headers with the same hash are the same in every field;
    and the parent hash can be read off the encoding without decoding it. *)
Theorem Header_Hash_identifies `{Hasher} pooled h1 h2 :
  length (sizebuf pooled) = 9%nat → header_ok h1 → header_ok h2 →
  (sum256 (enc_item (header_item h1)) = sum256 (enc_item (header_item h2)) → enc_item (header_item h1) = enc_item (header_item h2)) →
  (Header_Hash pooled h1 = Header_Hash pooled h2 → h1 = h2) ∧ HeaderParentHashFromRLP (enc_item (header_item h1)) = h_ParentHash h1.
Proof.
  intros Hs H1 H2 Hinj. destruct (header_encoding h1 H1) as (_ & _ & Hb & Hl). split.
  - rewrite !Header_Hash_spec by done. intros [= E%Hinj]. apply header_item_inj; [done | done |]. by apply enc_item_inj.
  - unfold HeaderParentHashFromRLP, header_item in *. set (rest := _ ++ _) in *. cbn [enc_item] in *.
    assert (E : SplitList (enc_list (concat (map enc_item rest))) = Ok (concat (map enc_item rest), [])).
    { unfold SplitList. rewrite (proj2 (Split_spec _ KList (concat (map enc_item rest)) [] Hb Hl)); [done |]. split; [by rewrite app_nil_r | done]. }
    rewrite E. unfold rest. rewrite map_app. cbn [map app concat enc_item].
    unfold enc_list, rest in Hb, Hl. apply Forall_app in Hb as [_ Hb]. rewrite len_app in Hl. rewrite map_app in Hb, Hl. cbn [map app concat enc_item] in Hb, Hl.
    destruct H1 as [Hh _ _ _ _ _ _ _]. apply Forall_cons in Hh as [[_ Hp] _].
    rewrite (proj2 (SplitString_spec _ (h_ParentHash h1) _ Hb ltac:(lia)) eq_refl). rewrite Hp. cbn. apply BytesToHash_32. lia.
Qed.

(** A header for examples, on a given parent. *)
Definition demo_header (parent : bytes) : Header :=
  MkHeader parent (repeat 2 20) zeroHash zeroHash zeroHash (repeat 0 256) (Some 7) 20000000 21000 12 [104; 105] zeroHash (Some 1000000000) (Some zeroHash).

Lemma demo_header_ok parent : bytes_ok parent → len parent = 32 → header_ok (demo_header parent).
Proof.
  intros Hb Hl. assert (Hz : bytes_ok zeroHash) by solve_bytes. split; try done; cbn [h_Coinbase h_Bloom h_Extra demo_header].
  - repeat (apply Forall_cons; split; [done |]). done.
  - split; [solve_bytes | done].
  - split; [solve_bytes | done].
  - split; [solve_bytes | done].
  - by exists 7.
  - by intros b [= <-].
  - intros w [= <-]. split_and!; [done | done | by eexists].
Qed.

Lemma Header_Hash_identifies_witness :
  (@Header_Hash toy_hash (EncBuffer [] [] 0 (repeat 0 9)) (demo_header (repeat 1 32)) = @Header_Hash toy_hash (EncBuffer [] [] 0 (repeat 0 9)) (demo_header (repeat 3 32)) →
   demo_header (repeat 1 32) = demo_header (repeat 3 32)) ∧
  HeaderParentHashFromRLP (enc_item (header_item (demo_header (repeat 1 32)))) = repeat 1 32.
Proof.
  apply (@Header_Hash_identifies toy_hash _ (demo_header (repeat 1 32)) (demo_header (repeat 3 32))).
  - done.
  - apply demo_header_ok; [solve_bytes | done].
  - apply demo_header_ok; [solve_bytes | done].
  - intros E. vm_compute in E. discriminate E.
Defined.
