(* ===== verification/Consensus.v ===== *)
(** * The consensus engine: consensus/beacon, consensus/misc and CalcGasLimit of core/block_validator.go

    A header is checked against its parent: its time, number, gas and base fee.  A
    batch of headers is checked by a goroutine that sends one result for each header
    until it is aborted; the batch checker here is the list of the results it sends,
    and [sends] the steps of the goroutine.  The chain is the function that looks up a
    header by hash and number. *)

From S2P Require Import Prelude RlpRaw RlpEncode RlpStream TrieNode TrieStore TrieOps StateAccess State Header.

Abbreviation MinGasLimit := 5000 (only parsing).
Abbreviation MaxGasLimit := 20000000 (only parsing).
Abbreviation GasLimitBoundDivisor := 1024 (only parsing).

(** The errors of the engine; the ones that fmt.Errorf makes are named after what they say. *)
Inductive cons_error :=
| ErrUnknownAncestor | ErrInvalidNumber | errInvalidTimestamp
| ExtraTooLong | InvalidGasLimit | InvalidGasUsed | GasLimitBeyond | GasLimitBelow
| MissingBaseFee | InvalidBaseFee | MissingWithdrawalsHash | InvalidTesterPos.

Definition VerifyGaslimit (parentGasLimit headerGasLimit : Z) : option cons_error :=
  if MaxGasLimit <? headerGasLimit then Some GasLimitBeyond
  else if headerGasLimit <? MinGasLimit then Some GasLimitBelow
  else None.

Definition ElasticityMultiplier : Z := 2.
Definition BaseFeeChangeDenominator : Z := 8.

(** big.Int Div on a positive denominator *)
Definition big_Div {E} (x y : Z) : outcome E Z := if y =? 0 then Panic else Ok (x / y).

Definition CalcBaseFee {E} (parent : Header) : outcome E Z :=
  let parentGasTarget := h_GasLimit parent / ElasticityMultiplier in
  parentBaseFee ← deref (h_BaseFee parent);
  if h_GasUsed parent =? parentGasTarget then Ok parentBaseFee
  else if parentGasTarget <? h_GasUsed parent then
    num ← big_Div (u64 (h_GasUsed parent - parentGasTarget) * parentBaseFee) parentGasTarget;
    num ← big_Div num BaseFeeChangeDenominator;
    Ok (parentBaseFee + Z.max num 1)
  else
    num ← big_Div (u64 (parentGasTarget - h_GasUsed parent) * parentBaseFee) parentGasTarget;
    num ← big_Div num BaseFeeChangeDenominator;
    Ok (Z.max (parentBaseFee - num) 0).

(** The check of a result that is an error or nil *)
Definition check {E} (err : option E) : outcome E unit := match err with Some e => Err e | None => Ok () end.

Definition VerifyEIP1559Header (parent header : Header) : outcome cons_error unit :=
  _ ← check (VerifyGaslimit (h_GasLimit parent) (h_GasLimit header));
  match h_BaseFee header with
  | None => Err MissingBaseFee
  | Some baseFee =>
      expectedBaseFee ← CalcBaseFee parent;
      if negb (baseFee =? expectedBaseFee) then Err InvalidBaseFee else Ok ()
  end.

(** big.Int Uint64 *)
Definition big_Uint64 (x : Z) : Z := u64 (Z.abs x).

(** The engine and its settings for tests; fakeDelay only sleeps. *)
Record Beacon := MkBeacon { fakeFail : option Z; fakeFull : bool }.

Definition verifyHeader (beacon : Beacon) (header parent : Header) : outcome cons_error unit :=
  if 32 <? len (h_Extra header) then Err ExtraTooLong
  else if h_Time header <=? h_Time parent then Err errInvalidTimestamp
  else if MaxGasLimit <? h_GasLimit header then Err InvalidGasLimit
  else if h_GasLimit header <? h_GasUsed header then Err InvalidGasUsed
  else
    number ← deref (h_Number header);
    parentNumber ← deref (h_Number parent);
    if negb (number - parentNumber =? 1) then Err ErrInvalidNumber
    else
      _ ← VerifyEIP1559Header parent header;
      match h_WithdrawalsHash header with
      | None => Err MissingWithdrawalsHash
      | Some _ =>
          if bool_decide (fakeFail beacon = Some (big_Uint64 number)) then Err InvalidTesterPos else Ok ()
      end.

Section Chain.
  Context `{HF : Hasher} (pooled : encBuffer) (GetHeader : bytes → Z → option Header).

(** The lookup of the parent that a header names *)
Definition known_parent (header : Header) : outcome cons_error (option Header) :=
  number ← deref (h_Number header);
  Ok (GetHeader (h_ParentHash header) (u64 (big_Uint64 number - 1))).

Definition VerifyHeader (beacon : Beacon) (header : Header) : outcome cons_error unit :=
  parent ← known_parent header;
  match parent with
  | None => Err ErrUnknownAncestor
  | Some parent => verifyHeader beacon header parent
  end.

(** header.Hash() where the caller has errors of its own *)
Definition hash_of (header : Header) : outcome cons_error bytes :=
  match Header_Hash pooled header with
  | Ok h => Ok h
  | Err _ | Panic => Panic
  | OutOfFuel => OutOfFuel
  end.

(** The parent in a batch: the ancestor given or known for the first header, the header before for the others *)
Definition batch_parent (ancestor previous : option Header) (header : Header) : outcome cons_error (option Header) :=
  match previous with
  | None => match ancestor with Some a => Ok (Some a) | None => known_parent header end
  | Some p =>
      h ← hash_of p;
      Ok (if bool_decide (h = h_ParentHash header) then Some p else None)
  end.

(** The result that is sent for a header *)
Definition batch_result (beacon : Beacon) (ancestor previous : option Header) (header : Header) : outcome Empty_set (option cons_error) :=
  match (parent ← batch_parent ancestor previous header;
         match parent with None => Err ErrUnknownAncestor | Some parent => verifyHeader beacon header parent end) with
  | Ok _ => Ok None
  | Err e => Ok (Some e)
  | Panic => Panic
  | OutOfFuel => OutOfFuel
  end.

Fixpoint batch_results (beacon : Beacon) (ancestor previous : option Header) (headers : list Header) : outcome Empty_set (list (option cons_error)) :=
  match headers with
  | [] => Ok []
  | header :: rest =>
      r ← batch_result beacon ancestor previous header;
      rs ← batch_results beacon ancestor (Some header) rest;
      Ok (r :: rs)
  end.

Definition verifyHeaders (beacon : Beacon) (headers : list Header) (ancestor : option Header) : outcome Empty_set (list (option cons_error)) :=
  if fakeFull beacon || bool_decide (headers = []) then Ok (map (fun _ => None) headers)
  else batch_results beacon ancestor None headers.
End Chain.

Definition CalcGasLimit (parentGasLimit desiredLimit : Z) : Z :=
  let delta := u64 (parentGasLimit / GasLimitBoundDivisor - 1) in
  let limit := parentGasLimit in
  let desiredLimit := if desiredLimit <? MinGasLimit then MinGasLimit else desiredLimit in
  if limit <? desiredLimit then
    let limit := u64 (parentGasLimit + delta) in
    if desiredLimit <? limit then desiredLimit else limit
  else if desiredLimit <? limit then
    let limit := u64 (parentGasLimit - delta) in
    if limit <? desiredLimit then desiredLimit else limit
  else limit.

(** ** The goroutine of verifyHeaders

    At each header it sends the result or, when the abort channel is closed, may
    return instead; the results channel has room for every result. *)

Inductive goroutine :=
| Running (previous : option Header) (rest : list Header) (sent : list (option cons_error))
| Returned (sent : list (option cons_error)).

Definition sent (g : goroutine) : list (option cons_error) := match g with Running _ _ s | Returned s => s end.

Inductive sends `{Hasher} (pooled : encBuffer) GetHeader (beacon : Beacon) (ancestor : option Header) : goroutine → goroutine → Prop :=
| sends_result previous header rest s r :
    batch_result pooled GetHeader beacon ancestor previous header = Ok r →
    sends pooled GetHeader beacon ancestor (Running previous (header :: rest) s) (Running (Some header) rest (s ++ [r]))
| sends_abort previous header rest s r :
    batch_result pooled GetHeader beacon ancestor previous header = Ok r →
    sends pooled GetHeader beacon ancestor (Running previous (header :: rest) s) (Returned s)
| sends_all previous s : sends pooled GetHeader beacon ancestor (Running previous [] s) (Returned s).

(** ** The rules *)

(** What a header owes to its parent *)
Record valid_child (parent header : Header) : Prop := MkValidChild {
  vc_extra : len (h_Extra header) <= 32;
  vc_time : h_Time parent < h_Time header;
  vc_limit : MinGasLimit <= h_GasLimit header <= MaxGasLimit;
  vc_used : h_GasUsed header <= h_GasLimit header;
  vc_number : ∃ n, h_Number parent = Some n ∧ h_Number header = Some (n + 1);
  vc_fee : ∃ f, h_BaseFee header = Some f ∧ CalcBaseFee (E := cons_error) parent = Ok f;
  vc_withdrawals : is_Some (h_WithdrawalsHash header)
}.

Lemma verifyHeader_spec beacon header parent :
  fakeFail beacon = None → verifyHeader beacon header parent = Ok () ↔ valid_child parent header.
Proof.
  intros Hf. unfold verifyHeader, VerifyEIP1559Header, VerifyGaslimit. rewrite Hf. split.
  - do 4 (case_if; [done |]). destruct (h_Number header) as [n |] eqn:En; cbn [deref mbind outcome_bind]; [| done].
    destruct (h_Number parent) as [m |] eqn:Em; cbn [deref mbind outcome_bind]; [| done]. case_if; [done |]. destruct (MaxGasLimit <? h_GasLimit header) eqn:?; zb; [lia |].
    destruct (h_GasLimit header <? MinGasLimit) eqn:?; zb; cbn [check mbind outcome_bind]; [done |].
    destruct (h_BaseFee header) as [b |] eqn:Eb; [| done]. destruct (CalcBaseFee parent) as [f | | |] eqn:Ef; cbn [mbind outcome_bind]; try done.
    destruct (negb (b =? f)) eqn:Ebf; [done |]. zb. subst f. destruct (h_WithdrawalsHash header) as [w |] eqn:Ew; [| done]. intros _.
    split; try lia; [exists m; split; [done | rewrite En; f_equal; lia] | by exists b | by eexists].
  - intros [H1 H2 H3 H4 (n & Ep & Eh) (f & Eb & Ef) [w Ew]]. rewrite Ep, Eh, Eb, Ew.
    rewrite (proj2 (Z.ltb_ge 32 _)), (proj2 (Z.leb_gt _ _)), (proj2 (Z.ltb_ge MaxGasLimit _)), (proj2 (Z.ltb_ge (h_GasLimit header) (h_GasUsed header))) by lia.
    cbn [deref mbind outcome_bind]. replace (n + 1 - n =? 1) with true by (symmetry; apply Z.eqb_eq; lia). cbn [negb].
    rewrite (proj2 (Z.ltb_ge _ MinGasLimit)) by lia. cbn [check mbind outcome_bind]. rewrite Ef. cbn [mbind outcome_bind]. by rewrite Z.eqb_refl, bool_decide_false.
Qed.

(** ** The base fee *)

Lemma fee_quotient x b t : 0 <= x → 0 <= b → 0 < t → 0 <= x * b / t / 8 ∧ 8 * t * (x * b / t / 8) <= x * b.
Proof.
  intros Hx Hb Ht. pose proof (Z.mul_nonneg_nonneg x b Hx Hb). rewrite Z.div_div by lia. split; [apply Z.div_pos; lia |].
  pose proof (Z.mul_div_le (x * b) (t * 8) ltac:(lia)). lia.
Qed.

(** The fee that follows: it keeps its sign, and moves by at most an eighth of the distance
    to the target that the gas used is away. *)
Lemma CalcBaseFee_spec {E} parent b :
  h_BaseFee parent = Some b → 0 <= b → 2 <= h_GasLimit parent < 2 ^ 64 → 0 <= h_GasUsed parent < 2 ^ 64 →
  let t := h_GasLimit parent / 2 in
  ∃ f, CalcBaseFee (E := E) parent = Ok f ∧
    (h_GasUsed parent = t → f = b) ∧
    (t < h_GasUsed parent → b < f ∧ (f = b + 1 ∨ 8 * t * (f - b) <= (h_GasUsed parent - t) * b)) ∧
    (h_GasUsed parent < t → f <= b ∧ 8 * t * (b - f) <= (t - h_GasUsed parent) * b ∧ (0 < b → 0 < f) ∧ 0 <= f).
Proof.
  intros Eb Hb Hl Hu t. unfold CalcBaseFee. rewrite Eb. change (h_GasLimit parent / ElasticityMultiplier) with t. cbn [deref mbind outcome_bind].
  assert (Ht : 1 <= t) by (apply Z.div_le_lower_bound; lia). assert (Ht' : t <= h_GasLimit parent) by (apply Z.div_le_upper_bound; lia).
  unfold big_Div, BaseFeeChangeDenominator. rewrite (proj2 (Z.eqb_neq t 0)) by lia. cbn [Z.eqb mbind outcome_bind].
  case_if; [exists b; split_and!; [done | done | lia | lia] |]. case_if.
  - rewrite u64_id by lia. destruct (fee_quotient (h_GasUsed parent - t) b t ltac:(lia) Hb ltac:(lia)) as [Q1 Q2].
    set (q := (h_GasUsed parent - t) * b / t / 8) in *. exists (b + Z.max q 1). split_and!; [done | lia | | lia]. intros _. split; [lia |].
    destruct (Z.max_spec q 1) as [[? ->] | [? ->]]; [by left | right]. by replace (b + q - b) with q by lia.
  - rewrite u64_id by lia. destruct (fee_quotient (t - h_GasUsed parent) b t ltac:(lia) Hb ltac:(lia)) as [Q1 Q2].
    set (q := (t - h_GasUsed parent) * b / t / 8) in *. assert (Hq : 8 * q <= b).
    { apply (Z.mul_le_mono_pos_r _ _ t ltac:(lia)). pose proof (Z.mul_le_mono_nonneg_r (t - h_GasUsed parent) t b Hb ltac:(lia)). lia. }
    exists (Z.max (b - q) 0). rewrite Z.max_l by lia. split_and!; [done | lia | lia |]. intros _. split_and!; [lia | | lia | lia].
    by replace (b - (b - q)) with q by lia.
Qed.

(** The share of an eighth that [x] of [t] are *)
Lemma fee_share x b t : 0 <= x <= t → 0 < t → 0 <= b → 0 <= x * b / (8 * t) <= b / 8.
Proof.
  intros Hx Ht Hb. split; [apply Z.div_pos; lia |]. replace (b / 8) with (t * b / (8 * t)).
  - apply Z.div_le_mono; [lia |]. apply Z.mul_le_mono_nonneg_r; lia.
  - rewrite Z.mul_comm, Z.div_mul_cancel_r; lia.
Qed.

(** ** Chains *)

Section Chains.
  Context `{HF : Hasher} (pooled : encBuffer) (GetHeader : bytes → Z → option Header).

(** Headers each of which is a valid child of the one before; a header of the list
    names its parent by hash, the first one where [link] says so. *)
Fixpoint chained (link : bool) (parent : Header) (headers : list Header) : Prop :=
  match headers with
  | [] => True
  | h :: rest => (link = true → hash_of pooled parent = Ok (h_ParentHash h)) ∧ valid_child parent h ∧ chained true h rest
  end.

(** The parent of the first header: the ancestor given, or the header that the chain has *)
Definition base_of (ancestor : option Header) (headers : list Header) (a : Header) : Prop :=
  match ancestor with
  | Some a' => a' = a
  | None => ∀ h rest, headers = h :: rest → known_parent GetHeader h = Ok (Some a)
  end.

Lemma batch_result_first beacon ancestor h rest a :
  fakeFail beacon = None → base_of ancestor (h :: rest) a →
  batch_result pooled GetHeader beacon ancestor None h = Ok None ↔ valid_child a h.
Proof.
  intros Hf Hb. rewrite <- (verifyHeader_spec beacon h a Hf). unfold batch_result, batch_parent.
  assert (E : match ancestor with Some a => Ok (Some a) | None => known_parent GetHeader h end = Ok (Some a)).
  { destruct ancestor; cbn in Hb; [by subst | by eapply Hb]. }
  rewrite E. cbn [mbind outcome_bind]. by destruct (verifyHeader beacon h a) as [[] | | |].
Qed.

Lemma batch_result_next beacon ancestor p h :
  fakeFail beacon = None →
  batch_result pooled GetHeader beacon ancestor (Some p) h = Ok None ↔ hash_of pooled p = Ok (h_ParentHash h) ∧ valid_child p h.
Proof.
  intros Hf. rewrite <- (verifyHeader_spec beacon h p Hf). unfold batch_result, batch_parent.
  destruct (hash_of pooled p) as [x | | |]; cbn [mbind outcome_bind]; try (split; [done | by intros [? _]]).
  destruct (decide (x = h_ParentHash h)) as [-> | Hne].
  - rewrite bool_decide_true by done. destruct (verifyHeader beacon h p) as [[] | | |]; split; try done; by intros [_ ?].
  - rewrite bool_decide_false by done. split; [done |]. intros [[= ?] _]. done.
Qed.

Lemma batch_results_cons beacon ancestor previous h rest :
  batch_results pooled GetHeader beacon ancestor previous (h :: rest) = Ok (None :: map (fun _ => None) rest) ↔
  batch_result pooled GetHeader beacon ancestor previous h = Ok None ∧
  batch_results pooled GetHeader beacon ancestor (Some h) rest = Ok (map (fun _ => None) rest).
Proof.
  cbn [batch_results]. destruct (batch_result _ _ _ _ _ h) as [r | | |]; cbn [mbind outcome_bind]; try (split; [done | by intros [? _]]).
  destruct (batch_results _ _ _ _ _ rest) as [rs | | |]; cbn [mbind outcome_bind]; try (split; [done | by intros [_ ?]]).
  split; [by intros [= -> ->] | by intros [[= ->] [= ->]]].
Qed.

Lemma batch_results_next beacon ancestor headers : ∀ p,
  fakeFail beacon = None →
  batch_results pooled GetHeader beacon ancestor (Some p) headers = Ok (map (fun _ => None) headers) ↔ chained true p headers.
Proof.
  induction headers as [| h rest IH]; intros p Hf; [done |]. cbn [map chained]. rewrite batch_results_cons, batch_result_next, IH by done. tauto.
Qed.

Lemma batch_results_first beacon ancestor headers a :
  fakeFail beacon = None → base_of ancestor headers a →
  batch_results pooled GetHeader beacon ancestor None headers = Ok (map (fun _ => None) headers) ↔ chained false a headers.
Proof.
  intros Hf Hb. destruct headers as [| h rest]; [done |]. cbn [map chained]. rewrite batch_results_cons, batch_results_next by done.
  rewrite (batch_result_first beacon ancestor h rest a) by done. split; [by intros [? ?] | by intros (_ & ? & ?)].
Qed.

(** ** Runs of the goroutine *)

Lemma batch_results_snoc beacon ancestor l : ∀ previous h s r,
  batch_results pooled GetHeader beacon ancestor previous l = Ok s →
  batch_result pooled GetHeader beacon ancestor (match last l with Some p => Some p | None => previous end) h = Ok r →
  batch_results pooled GetHeader beacon ancestor previous (l ++ [h]) = Ok (s ++ [r]).
Proof.
  induction l as [| x l IH]; intros previous h s r Hs Hr; cbn [app batch_results] in *.
  - injection Hs as <-. cbn in Hr. rewrite Hr. done.
  - destruct (batch_result _ _ _ _ _ x) as [y | | |]; cbn [mbind outcome_bind] in *; try done.
    destruct (batch_results _ _ _ _ (Some x) l) as [ys | | |] eqn:El; cbn [mbind outcome_bind] in *; try done. injection Hs as <-.
    rewrite (IH (Some x) h ys r El); [done |]. rewrite last_cons in Hr. by destruct (last l).
Qed.

Lemma sends_prefix beacon ancestor headers g :
  rtc (sends pooled GetHeader beacon ancestor) (Running None headers []) g →
  ∃ l rest, headers = l ++ rest ∧ batch_results pooled GetHeader beacon ancestor None l = Ok (sent g) ∧ length l = length (sent g) ∧
    match g with Running previous rest' _ => previous = last l ∧ rest = rest' | Returned _ => True end.
Proof.
  intros Hr. pattern g. refine (rtc_ind_r _ (Running None headers []) _ _ g Hr); [by exists [], headers |].
  clear g Hr. intros g g' _ Hstep (l & rest & -> & Hl & Hlen & Hg). destruct Hstep as [previous h rest' s r E | previous h rest' s r E | previous s]; cbn [sent] in *.
  - destruct Hg as [-> ->]. exists (l ++ [h]), rest'. rewrite last_snoc, !length_app, Hlen, <- app_assoc. split_and!; [done | | done | done | done].
    apply batch_results_snoc; [done |]. by destruct (last l).
  - by exists l, rest.
  - by exists l, rest.
Qed.

Lemma batch_results_app beacon ancestor l rest : ∀ previous s rs,
  batch_results pooled GetHeader beacon ancestor previous (l ++ rest) = Ok rs → batch_results pooled GetHeader beacon ancestor previous l = Ok s →
  ∃ rs', rs = s ++ rs' ∧ batch_results pooled GetHeader beacon ancestor (match last l with Some p => Some p | None => previous end) rest = Ok rs'.
Proof.
  induction l as [| x l IH]; intros previous s rs Hrs Hs; cbn [app batch_results] in *.
  - injection Hs as <-. by exists rs.
  - destruct (batch_result _ _ _ _ _ x) as [y | | |]; cbn [mbind outcome_bind] in *; try done.
    destruct (batch_results _ _ _ _ _ l) as [ys | | |] eqn:El; cbn [mbind outcome_bind] in *; try done. injection Hs as <-.
    destruct (batch_results _ _ _ _ _ (l ++ rest)) as [zs | | |] eqn:Ea; cbn [mbind outcome_bind] in *; try done. injection Hrs as <-.
    destruct (IH (Some x) ys zs Ea El) as (rs' & -> & Hr). exists rs'. split; [done |]. rewrite last_cons. by destruct (last l).
Qed.

(** Without an abort the goroutine sends what is left. *)
Lemma sends_rest beacon ancestor rest : ∀ previous s rs,
  batch_results pooled GetHeader beacon ancestor previous rest = Ok rs →
  rtc (sends pooled GetHeader beacon ancestor) (Running previous rest s) (Returned (s ++ rs)).
Proof.
  induction rest as [| h rest IH]; intros previous s rs Hrs; cbn [batch_results] in Hrs.
  - injection Hrs as <-. rewrite app_nil_r. apply rtc_once, sends_all.
  - destruct (batch_result _ _ _ _ _ h) as [r | | |] eqn:Er; cbn [mbind outcome_bind] in *; try done.
    destruct (batch_results _ _ _ _ _ rest) as [rs' | | |] eqn:El; cbn [mbind outcome_bind] in *; try done. injection Hrs as <-.
    eapply rtc_l; [by apply sends_result |]. change (r :: rs') with ([r] ++ rs'). rewrite app_assoc. by apply IH.
Qed.

Lemma sends_completes beacon ancestor headers g rs :
  rtc (sends pooled GetHeader beacon ancestor) (Running None headers []) g → batch_results pooled GetHeader beacon ancestor None headers = Ok rs →
  sent g `prefix_of` rs ∧ match g with Running _ _ _ => rtc (sends pooled GetHeader beacon ancestor) g (Returned rs) | Returned _ => True end.
Proof.
  intros Hr Hrs. destruct (sends_prefix _ _ _ _ Hr) as (l & rest & -> & Hl & _ & Hg).
  destruct (batch_results_app _ _ _ _ _ _ _ Hrs Hl) as (rs' & -> & Hrest). split; [by exists rs' |].
  destruct g as [previous rest' s |]; [| done]. destruct Hg as [-> ->]. apply sends_rest. by destruct (last l).
Qed.

(** ** What a chain keeps *)

Record keeps (a : Header) (i : Z) (h : Header) : Prop := MkKeeps {
  kp_number : h_Number h = (fun n => n + i) <$> h_Number a;
  kp_time : h_Time a + i <= h_Time h;
  kp_fee : ∀ b, h_BaseFee a = Some b → 0 < b → ∃ f, h_BaseFee h = Some f ∧ 0 < f
}.

Lemma keeps_child a i p h :
  header_ok p → 2 <= h_GasLimit p → keeps a i p → valid_child p h → keeps a (i + 1) h.
Proof.
  intros Hp Hl [K1 K2 K3] [_ V2 _ _ (n & En & En') (f & Ef & Ec) _]. pose proof (ho_gas _ Hp) as (G1 & G2 & _). split.
  - rewrite En'. rewrite En in K1. destruct (h_Number a) as [m |]; [| done]. cbn in *. injection K1 as ->. f_equal. lia.
  - lia.
  - intros b Eb Hb. destruct (K3 b Eb Hb) as (f0 & Ef0 & Hf0). exists f. split; [done |].
    destruct (CalcBaseFee_spec (E := cons_error) p f0 Ef0 ltac:(lia) ltac:(lia) ltac:(lia)) as (f' & Ec' & F1 & F2 & F3). rewrite Ec in Ec'. injection Ec' as <-.
    destruct (Z.lt_trichotomy (h_GasUsed p) (h_GasLimit p / 2)) as [H | [H | H]]; [by apply F3 | by rewrite F1 | destruct (F2 H); lia].
Qed.

Lemma chained_keeps a headers : ∀ link p i,
  header_ok p → Forall header_ok headers → 2 <= h_GasLimit p → keeps a i p → chained link p headers →
  ∀ j h, headers !! j = Some h → keeps a (i + Z.of_nat j + 1) h ∧ MinGasLimit <= h_GasLimit h <= MaxGasLimit ∧ h_GasUsed h <= h_GasLimit h ∧
    ∀ k q, j = S k → headers !! k = Some q → hash_of pooled q = Ok (h_ParentHash h).
Proof.
  induction headers as [| x rest IH]; intros link p i Hp Hok Hl Hk Hc j h Hj; [done |]. apply Forall_cons in Hok as [Hx Hok]. destruct Hc as (_ & Hv & Hc).
  pose proof (keeps_child a i p x Hp Hl Hk Hv) as Hkx. pose proof (vc_limit _ _ Hv). destruct j as [| j]; cbn in Hj.
  - injection Hj as <-. split_and!; [by rewrite Z.add_0_r | lia | lia | apply Hv | done].
  - destruct (IH true x (i + 1) Hx Hok ltac:(lia) Hkx Hc j h Hj) as (I1 & I2 & I3 & I4).
    split_and!; [by replace (i + Z.of_nat (S j) + 1) with (i + 1 + Z.of_nat j + 1) by lia | lia | lia | done |].
    intros k q [= <-] Hq. destruct j as [| j]; cbn in Hq; [| by eapply I4]. injection Hq as <-.
    destruct rest as [| y rest]; [done |]. cbn in Hj. injection Hj as <-. destruct Hc as (Hh & _). by apply Hh.
Qed.
End Chains.

Lemma all_nil {A B} (l : list A) : ∀ s : list (option B), length l = length s → Forall (fun r => r = None) s → s = map (fun _ => None) l.
Proof.
  induction l as [| x l IH]; intros [| r s] Hl Hs; try done. apply Forall_cons in Hs as [-> Hs]. cbn [map]. injection Hl as Hl. by rewrite (IH s).
Qed.

(** ** Theorems *)

(** C36.  The base fee follows the gas used.  At the target, which is half the gas
    limit, it stays.  Above, it rises by the share of an eighth of it by which the target
    is exceeded, rounded down but at least 1, so that up to twice the target it rises by
    no more than an eighth, or by 1.  Below, it falls by the share of an eighth
    that is missing, rounded down, so by no more than an eighth: a fee below 8 does not
    fall, and a positive fee stays positive. *)
Theorem CalcBaseFee_moves {E} parent b :
  h_BaseFee parent = Some b → 0 <= b → 2 <= h_GasLimit parent < 2 ^ 64 → 0 <= h_GasUsed parent < 2 ^ 64 →
  let t := h_GasLimit parent / 2 in
  let used := h_GasUsed parent in
  ∃ f, CalcBaseFee (E := E) parent = Ok f ∧
    (used = t → f = b) ∧
    (t < used → f = b + Z.max 1 ((used - t) * b / (8 * t)) ∧ (used <= 2 * t → f - b <= Z.max 1 (b / 8))) ∧
    (used < t → f = b - (t - used) * b / (8 * t) ∧ b - b / 8 <= f <= b ∧ (0 < b → 0 < f)).
Proof.
  intros Eb Hb Hl Hu t used. unfold CalcBaseFee. rewrite Eb. change (h_GasLimit parent / ElasticityMultiplier) with t. fold used. fold used in Hu. cbn [deref mbind outcome_bind].
  assert (Ht : 1 <= t) by (apply Z.div_le_lower_bound; lia). assert (Ht' : t <= h_GasLimit parent) by (apply Z.div_le_upper_bound; lia).
  unfold big_Div, BaseFeeChangeDenominator. rewrite (proj2 (Z.eqb_neq t 0)) by lia. cbn [Z.eqb mbind outcome_bind].
  case_if; [exists b; split_and!; [done | done | lia | lia] |]. case_if; rewrite u64_id by lia; rewrite Z.div_div by lia; rewrite (Z.mul_comm t 8).
  - exists (b + Z.max ((used - t) * b / (8 * t)) 1). split_and!; [done | lia | | lia]. intros _. split; [lia |]. intros H2.
    pose proof (fee_share (used - t) b t ltac:(lia) ltac:(lia) Hb). lia.
  - pose proof (fee_share (t - used) b t ltac:(lia) ltac:(lia) Hb) as [Hq0 Hq]. pose proof (Z.mul_div_le b 8 ltac:(lia)). pose proof (Z.div_pos b 8 ltac:(lia) ltac:(lia)).
    exists (Z.max (b - (t - used) * b / (8 * t)) 0). rewrite Z.max_l by lia. split_and!; [done | lia | lia |]. intros _. split_and!; lia.
Qed.

(** C27.  The engine sends nil for every header of a batch exactly when the headers are
    a chain: each one named by the hash of the one before and following its parent in
    time, number, gas and base fee. *)
Theorem verifyHeaders_exact `{Hasher} pooled GetHeader beacon headers ancestor a :
  fakeFail beacon = None → fakeFull beacon = false → base_of GetHeader ancestor headers a →
  verifyHeaders pooled GetHeader beacon headers ancestor = Ok (map (fun _ => None) headers) ↔ chained pooled false a headers.
Proof.
  intros Hf Hff Hb. unfold verifyHeaders. rewrite Hff. destruct headers as [| h rest]; [done |]. rewrite bool_decide_false by done.
  by apply batch_results_first.
Qed.

(** C35.  However the goroutine and the abort interleave, what it has sent are the
    results of the first headers of the batch, in order, and while it has not returned
    it can still send all the others.  As long as the results are nil, the headers
    they stand for have consecutive numbers, increasing times and gas within the
    limits, name each other by hash, and have a positive base fee when the ancestor
    has one.  All can be sent when no check panics, as one does on a header whose
    number is missing. *)
Theorem verifyHeaders_run `{Hasher} pooled GetHeader beacon ancestor a headers g :
  fakeFail beacon = None → base_of GetHeader ancestor headers a → header_ok a → 2 <= h_GasLimit a → Forall header_ok headers →
  rtc (sends pooled GetHeader beacon ancestor) (Running None headers []) g →
  batch_results pooled GetHeader beacon ancestor None (take (length (sent g)) headers) = Ok (sent g) ∧ (length (sent g) <= length headers)%nat ∧
  (∀ rs, batch_results pooled GetHeader beacon ancestor None headers = Ok rs →
    sent g `prefix_of` rs ∧ match g with Running _ _ _ => rtc (sends pooled GetHeader beacon ancestor) g (Returned rs) | Returned _ => True end) ∧
  (Forall (fun r => r = None) (sent g) → ∀ i h, (i < length (sent g))%nat → headers !! i = Some h →
    h_Number h = (fun n => n + Z.of_nat i + 1) <$> h_Number a ∧ h_Time a + Z.of_nat i + 1 <= h_Time h ∧
    MinGasLimit <= h_GasLimit h <= MaxGasLimit ∧ h_GasUsed h <= h_GasLimit h ∧
    (∀ b, h_BaseFee a = Some b → 0 < b → ∃ f, h_BaseFee h = Some f ∧ 0 < f) ∧
    ∀ k p, i = S k → headers !! k = Some p → Header_Hash pooled p = Ok (h_ParentHash h)).
Proof.
  intros Hf Hb Ha Hl Hok Hr. pose proof (fun rs => sends_completes pooled GetHeader _ _ _ _ rs Hr) as Hrest. destruct (sends_prefix _ _ _ _ _ _ Hr) as (l & rest & -> & El & Hlen & _).
  split_and!; [by rewrite <- Hlen, take_app_length | rewrite length_app; lia | exact Hrest |]. intros Hnil i h Hi Hh.
  assert (Es : sent g = map (fun _ => None) l) by (by apply all_nil).
  rewrite Es in El. apply Forall_app in Hok as [Hok _]. rewrite lookup_app_l in Hh by lia.
  assert (Hb' : base_of GetHeader ancestor l a) by (destruct ancestor; [done |]; intros x t ->; by eapply Hb).
  apply (batch_results_first pooled GetHeader beacon ancestor l a Hf Hb') in El.
  destruct (chained_keeps pooled a l false a 0 Ha Hok Hl) with (j := i) (h := h) as ([K1 K2 K3] & G & U & L); [| done | done |].
  { split; [by destruct (h_Number a); cbn; rewrite ?Z.add_0_r | lia | eauto]. }
  split_and!; try done; try lia.
  - rewrite K1. destruct (h_Number a); [| done]. cbn. f_equal. lia.
  - intros k p -> Hp. rewrite lookup_app_l in Hp by lia. specialize (L k p eq_refl Hp). unfold hash_of in L. by destruct (Header_Hash pooled p); try done; injection L as ->.
Qed.

(** The gas limit that is chosen for the next block moves towards the wish without
    passing it, by less than a 1024th, and the validators accept it when the parent's
    limit and the wish are within the bounds. *)
Theorem CalcGasLimit_accepted parent desired :
  MinGasLimit <= parent <= MaxGasLimit → 0 <= desired <= MaxGasLimit →
  let limit := CalcGasLimit parent desired in
  VerifyGaslimit parent limit = None ∧ Z.abs (limit - parent) < parent / 1024 ∧
  (parent <= Z.max desired MinGasLimit → parent <= limit <= Z.max desired MinGasLimit) ∧
  (Z.max desired MinGasLimit <= parent → Z.max desired MinGasLimit <= limit <= parent).
Proof.
  intros Hp Hd limit. assert (H1 : 4 <= parent / 1024) by (apply Z.div_le_lower_bound; lia).
  assert (H2 : parent / 1024 <= parent) by (apply Z.div_le_upper_bound; lia).
  assert (E : limit = if parent <? Z.max desired MinGasLimit then Z.min (Z.max desired MinGasLimit) (parent + (parent / 1024 - 1))
                      else Z.max (Z.max desired MinGasLimit) (parent - (parent / 1024 - 1))).
  { unfold limit, CalcGasLimit. rewrite (u64_id (parent / 1024 - 1)) by lia. rewrite !u64_id by lia. set (d := if desired <? MinGasLimit then MinGasLimit else desired).
    replace (Z.max desired MinGasLimit) with d by (unfold d; case_if; lia). repeat case_if; lia. }
  rewrite E. unfold VerifyGaslimit. repeat case_if; try done; repeat split; lia.
Qed.

(** A chain of two headers on [demo_header]. *)
Definition demo_child (parent : bytes) (number time fee : Z) : Header :=
  MkHeader parent (repeat 2 20) zeroHash zeroHash zeroHash (repeat 0 256) (Some number) 20000000 21000 time [] zeroHash (Some fee) (Some zeroHash).

Definition demo_buf : encBuffer := EncBuffer [] [] 0 (repeat 0 9).
Definition demo_first : Header := demo_child (repeat 1 32) 8 13 875262500.
Definition demo_chain : list Header :=
  [demo_first; demo_child (match @Header_Hash toy_hash demo_buf demo_first with Ok h => h | _ => zeroHash end) 9 20 766084444].

Lemma demo_chain_ok : Forall header_ok demo_chain ∧ header_ok (demo_header (repeat 1 32)) ∧
  rtc (@sends toy_hash demo_buf (fun _ _ => None) (MkBeacon None false) (Some (demo_header (repeat 1 32)))) (Running None demo_chain []) (Returned [None; None]).
Proof.
  assert (Hz : bytes_ok zeroHash) by solve_bytes. assert (Hok : ∀ p n t f, bytes_ok p → len p = 32 → 0 <= n < 2 ^ 256 → 0 <= t < 2 ^ 64 → 0 <= f < 2 ^ 256 → header_ok (demo_child p n t f)).
  { intros p n t f Hp Hl Hn Ht Hf. split; try done; cbn [h_Coinbase h_Bloom h_Extra h_Number h_BaseFee h_WithdrawalsHash demo_child].
    - repeat (apply Forall_cons; split; [done |]). done.
    - split; [solve_bytes | done].
    - split; [solve_bytes | done].
    - by exists n.
    - by intros b [= <-].
    - intros w [= <-]. split_and!; [done | done | by eexists]. }
  split_and!.
  - repeat apply Forall_cons_2; [apply Hok; [solve_bytes | done..] | | done]. apply Hok; [solve_bytes | by vm_compute | done..].
  - apply demo_header_ok; [solve_bytes | done].
  - eapply rtc_l; [apply sends_result with (r := None); by vm_compute |]. eapply rtc_l; [apply sends_result with (r := None); by vm_compute |].
    apply rtc_once. apply sends_all.
Qed.

Lemma verifyHeaders_run_witness : ∃ h, demo_chain !! 1%nat = Some h ∧ h_Number h = Some 9 ∧ 14 <= h_Time h.
Proof.
  destruct demo_chain_ok as (H1 & H2 & H3). eexists. split; [reflexivity |].
  destruct (@verifyHeaders_run toy_hash demo_buf (fun _ _ => None) (MkBeacon None false) (Some (demo_header (repeat 1 32))) (demo_header (repeat 1 32)) demo_chain
    (Returned [None; None]) eq_refl eq_refl H2 ltac:(done) H1 H3) as (_ & _ & _ & H4).
  destruct (H4 ltac:(by repeat constructor) 1%nat _ ltac:(cbn; lia) eq_refl) as (Hn & Ht & _). by split.
Defined.

Lemma verifyHeaders_exact_witness : @chained toy_hash demo_buf false (demo_header (repeat 1 32)) demo_chain.
Proof.
  apply (@verifyHeaders_exact toy_hash demo_buf (fun _ _ => None) (MkBeacon None false) demo_chain (Some (demo_header (repeat 1 32))) (demo_header (repeat 1 32)) eq_refl eq_refl eq_refl).
  vm_compute. reflexivity.
Defined.

Lemma CalcBaseFee_moves_witness : ∃ f, CalcBaseFee (E := cons_error) (demo_header (repeat 1 32)) = Ok f ∧ 0 < f <= 1000000000.
Proof.
  destruct (CalcBaseFee_moves (E := cons_error) (demo_header (repeat 1 32)) 1000000000 eq_refl ltac:(done) ltac:(done) ltac:(done)) as (f & Ef & _ & _ & Hf).
  exists f. split; [done |]. destruct (Hf ltac:(vm_compute; reflexivity)) as (_ & [_ H1] & H2). split; [by apply H2 | exact H1].
Defined.

Lemma CalcGasLimit_accepted_witness : VerifyGaslimit 8000000 (CalcGasLimit 8000000 20000000) = None.
Proof. destruct (CalcGasLimit_accepted 8000000 20000000 ltac:(lia) ltac:(lia)) as [H _]. exact H. Defined.
