(* ===== verification/Uint256.v ===== *)
(** * 256-bit integers: the interface of github.com/holiman/uint256

    The library is not part of the repository: its type and functions are
    parameters of the virtual machine ([Uint256]), and what its documentation
    promises of the functions the proofs rely on is [Uint256Laws].  At the end an
    instance on Z, for witnesses. *)

From S2P Require Import Prelude.

Class Uint256 := {
  Int : Type;
  u_zero : Int;                                  (* new(Int), Clear *)
  u_one : Int;                                   (* SetOne *)
  u_allOne : Int;                                (* SetAllOne *)
  u_Add : Int → Int → Int;
  u_Sub : Int → Int → Int;
  u_Mul : Int → Int → Int;
  u_Div : Int → Int → Int;
  u_SDiv : Int → Int → Int;
  u_Mod : Int → Int → Int;
  u_SMod : Int → Int → Int;
  u_Exp : Int → Int → Int;
  u_ExtendSign : Int → Int → Int;
  u_AddMod : Int → Int → Int → Int;
  u_MulMod : Int → Int → Int → Int;
  u_Not : Int → Int;
  u_And : Int → Int → Int;
  u_Or : Int → Int → Int;
  u_Xor : Int → Int → Int;
  u_Byte : Int → Int → Int;                      (* val.Byte(th) *)
  u_Lsh : Int → Z → Int;
  u_Rsh : Int → Z → Int;
  u_SRsh : Int → Z → Int;
  u_Lt : Int → Int → bool;
  u_Gt : Int → Int → bool;
  u_Slt : Int → Int → bool;
  u_Sgt : Int → Int → bool;
  u_Eq : Int → Int → bool;
  u_LtUint64 : Int → Z → bool;
  u_GtUint64 : Int → Z → bool;
  u_IsZero : Int → bool;
  u_Sign : Int → Z;
  u_IsUint64 : Int → bool;
  u_Uint64 : Int → Z;
  u_BitLen : Int → Z;
  u_SetUint64 : Z → Int;
  u_SetBytes : bytes → Int;
  u_FromBig : Z → Int;                           (* SetFromBig, FromBig *)
  u_ToBig : Int → Z;
  u_Bytes20 : Int → bytes;
  u_Bytes32 : Int → bytes
}.

(** Uint64WithOverflow *)
Definition u_Uint64WithOverflow `{Uint256} (x : Int) : Z * bool := (u_Uint64 x, negb (u_IsUint64 x)).

(** What is documented: an Int is a number below 2^256, read by ToBig. *)
Class Uint256Laws `{Uint256} : Prop := {
  ToBig_range x : 0 <= u_ToBig x < 2 ^ 256;
  IsUint64_spec x : u_IsUint64 x = (u_ToBig x <? 2 ^ 64);
  Uint64_spec x : u_Uint64 x = u_ToBig x mod 2 ^ 64;
  IsZero_spec x : u_IsZero x = (u_ToBig x =? 0);
  BitLen_range x : 0 <= u_BitLen x <= 256;
  Add_spec x y : u_ToBig (u_Add x y) = (u_ToBig x + u_ToBig y) mod 2 ^ 256;
  Bytes20_spec x : u_Bytes20 x = be_bytes 20 (u_ToBig x);
  Bytes32_spec x : u_Bytes32 x = be_bytes 32 (u_ToBig x)
}.

Section Facts.
  Context `{UI : Uint256} `{UL : !Uint256Laws}.

Lemma Uint64_range x : 0 <= u_Uint64 x < 2 ^ 64.
Proof. rewrite Uint64_spec. apply Z.mod_pos_bound. lia. Qed.

Lemma Uint64_small x : u_IsUint64 x = true → u_Uint64 x = u_ToBig x.
Proof.
  rewrite IsUint64_spec, Uint64_spec. intros Hx. zb. pose proof (ToBig_range x). apply Z.mod_small. lia.
Qed.

Lemma WithOverflow_spec x : u_Uint64WithOverflow x = (u_Uint64 x, negb (u_ToBig x <? 2 ^ 64)).
Proof. unfold u_Uint64WithOverflow. by rewrite IsUint64_spec. Qed.

Lemma Bytes20_length x : length (u_Bytes20 x) = 20%nat.
Proof. rewrite Bytes20_spec. apply length_be_bytes. Qed.

Lemma Bytes32_length x : length (u_Bytes32 x) = 32%nat.
Proof. rewrite Bytes32_spec. apply length_be_bytes. Qed.
End Facts.

(** ** An instance *)

Definition w256 (x : Z) : Z := x mod 2 ^ 256.
Definition signed (x : Z) : Z := if x <? 2 ^ 255 then x else x - 2 ^ 256.

(** Exponentiation by repeated squaring modulo 2^256. *)
Definition exp256 (b e : Z) : Z :=
  match e with
  | Zpos p => Pos.iter_op (fun x y => w256 (x * y)) p (w256 b)
  | _ => 1
  end.

#[local] Instance Z_uint256 : Uint256 := {|
  Int := Z;
  u_zero := 0;
  u_one := 1;
  u_allOne := 2 ^ 256 - 1;
  u_Add x y := w256 (x + y);
  u_Sub x y := w256 (x - y);
  u_Mul x y := w256 (x * y);
  u_Div x y := w256 (x / y);
  u_SDiv x y := w256 (Z.quot (signed x) (signed y));
  u_Mod x y := if y =? 0 then 0 else w256 (x mod y);
  u_SMod x y := if y =? 0 then 0 else w256 (Z.rem (signed x) (signed y));
  u_Exp b e := exp256 b e;
  u_ExtendSign x b :=
    if b <? 31 then
      let n := b * 8 + 7 in
      if Z.testbit x n then w256 (Z.lor x (Z.shiftl (-1) n)) else Z.land x (Z.ones n)
    else x;
  u_AddMod x y m := if m =? 0 then 0 else (x + y) mod m;
  u_MulMod x y m := if m =? 0 then 0 else (x * y) mod m;
  u_Not x := 2 ^ 256 - 1 - x;
  u_And := Z.land;
  u_Or := Z.lor;
  u_Xor := Z.lxor;
  u_Byte x n := if n <? 32 then Z.land (Z.shiftr x (8 * (31 - n))) 255 else 0;
  u_Lsh x n := w256 (Z.shiftl x n);
  u_Rsh := Z.shiftr;
  u_SRsh x n := w256 (Z.shiftr (signed x) n);
  u_Lt := Z.ltb;
  u_Gt x y := y <? x;
  u_Slt x y := signed x <? signed y;
  u_Sgt x y := signed y <? signed x;
  u_Eq := Z.eqb;
  u_LtUint64 := Z.ltb;
  u_GtUint64 x n := n <? x;
  u_IsZero x := w256 x =? 0;
  u_Sign x := Z.sgn (signed x);
  u_IsUint64 x := w256 x <? 2 ^ 64;
  u_Uint64 x := w256 x mod 2 ^ 64;
  u_BitLen x := if w256 x =? 0 then 0 else Z.log2 (w256 x) + 1;
  u_SetUint64 x := x;
  u_SetBytes b := w256 (be_val b);
  u_FromBig := w256;
  u_ToBig := w256;
  u_Bytes20 x := be_bytes 20 (w256 x);
  u_Bytes32 x := be_bytes 32 (w256 x)
|}.

Lemma Z_uint256_laws : @Uint256Laws Z_uint256.
Proof.
  assert (Hr : ∀ x, 0 <= w256 x < 2 ^ 256) by (intros x; apply Z.mod_pos_bound; lia).
  split; try done; intros x; cbn; [| intros y; unfold w256; rewrite Z.mod_mod, Zplus_mod by lia; done].
  specialize (Hr x). destruct (Z.eqb_spec (w256 x) 0); [lia |].
  pose proof (Z.log2_nonneg (w256 x)). assert (Z.log2 (w256 x) < 256) by (apply Z.log2_lt_pow2; lia). lia.
Qed.
