(* ===== verification/VmAnalysis.v ===== *)
(** * Jump destination analysis: src/core/vm/analysis.go

    codeBitmap marks the bytes of a program that are arguments of PUSH
    instructions, up to sixteen at a time.  The theorem: it marks exactly the
    bytes that reading the program instruction by instruction skips. *)

From S2P Require Import Prelude.

Abbreviation bitvec := bytes.

Definition PUSH1 : Z := 0x60.
Definition PUSH32 : Z := 0x7f.
Definition JUMPDEST : Z := 0x5b.

(** uint16(0b1...1) with [n] ones *)
Definition setBitsMask (n : Z) : Z := Z.ones n.

(** [bits[i] |= x] *)
Definition or_at {E} (bits : bitvec) (i x : Z) : outcome E bitvec :=
  b ← at_ bits i; set_at bits i (Z.lor b x).

Definition set1 {E} (bits : bitvec) (pos : Z) : outcome E bitvec :=
  or_at bits (pos / 8) (u8 (Z.shiftl 1 (pos mod 8))).

Definition setN {E} (bits : bitvec) (flag pos : Z) : outcome E bitvec :=
  let a := Z.shiftl flag (pos mod 8) mod 2 ^ 16 in
  bits ← or_at bits (pos / 8) (u8 a);
  let b := u8 (Z.shiftr a 8) in
  if negb (b =? 0) then set_at bits (pos / 8 + 1) b else Ok bits.

Definition set8 {E} (bits : bitvec) (pos : Z) : outcome E bitvec :=
  let a := u8 (Z.shiftl 0xFF (pos mod 8)) in
  bits ← or_at bits (pos / 8) a;
  set_at bits (pos / 8 + 1) (u8 (Z.lnot a)).

Definition set16 {E} (bits : bitvec) (pos : Z) : outcome E bitvec :=
  let a := u8 (Z.shiftl 0xFF (pos mod 8)) in
  bits ← or_at bits (pos / 8) a;
  bits ← set_at bits (pos / 8 + 1) 0xFF;
  set_at bits (pos / 8 + 2) (u8 (Z.lnot a)).

Definition codeSegment {E} (bits : bitvec) (pos : Z) : outcome E bool :=
  b ← at_ bits (pos / 8); Ok (Z.land (Z.shiftr b (pos mod 8)) 1 =? 0).

(** for ; numbits >= 16; numbits -= 16 *)
Fixpoint loop16 {E} (fuel : nat) (numbits pc : Z) (bits : bitvec) : outcome E (Z * Z * bitvec) :=
  match fuel with
  | O => OutOfFuel
  | S fuel =>
      if 16 <=? numbits then bits ← set16 bits pc; loop16 fuel (numbits - 16) (pc + 16) bits
      else Ok (numbits, pc, bits)
  end.

Fixpoint loop8 {E} (fuel : nat) (numbits pc : Z) (bits : bitvec) : outcome E (Z * Z * bitvec) :=
  match fuel with
  | O => OutOfFuel
  | S fuel =>
      if 8 <=? numbits then bits ← set8 bits pc; loop8 fuel (numbits - 8) (pc + 8) bits
      else Ok (numbits, pc, bits)
  end.

(** The body of the loop after a PUSH opcode. *)
Definition mark_push {E} (op pc : Z) (bits : bitvec) : outcome E (Z * bitvec) :=
  let numbits := op - PUSH1 + 1 in
  '(numbits, pc, bits) ←
    (if 8 <=? numbits then
       '(numbits, pc, bits) ← loop16 3 numbits pc bits;
       loop8 3 numbits pc bits
     else Ok (numbits, pc, bits));
  if numbits =? 1 then bits ← set1 bits pc; Ok (pc + 1, bits)
  else if (2 <=? numbits) && (numbits <=? 7) then bits ← setN bits (setBitsMask numbits) pc; Ok (pc + numbits, bits)
  else Ok (pc, bits).

(** int8(op) *)
Definition int8 (x : Z) : Z := if x <? 128 then x else x - 256.

Fixpoint codeBitmap_loop {E} (fuel : nat) (code : bytes) (pc : Z) (bits : bitvec) : outcome E bitvec :=
  match fuel with
  | O => OutOfFuel
  | S fuel =>
      if pc <? len code then
        op ← at_ code pc;
        if int8 op <? int8 PUSH1 then codeBitmap_loop fuel code (pc + 1) bits
        else '(pc, bits) ← mark_push op (pc + 1) bits; codeBitmap_loop fuel code pc bits
      else Ok bits
  end.

Definition codeBitmapInternal {E} (code : bytes) (bits : bitvec) : outcome E bitvec :=
  codeBitmap_loop (S (length code)) code 0 bits.

Definition codeBitmap {E} (code : bytes) : outcome E bitvec :=
  codeBitmapInternal code (repeat 0 (length code / 8 + 1 + 4)).

(** ** The reference *)

(** The number of argument bytes of an opcode. *)
Definition push_size (op : Z) : nat := if (PUSH1 <=? op) && (op <=? PUSH32) then Z.to_nat (op - PUSH1 + 1) else 0.

(** Which bytes are arguments, when the first [n] are. *)
Fixpoint arguments (n : nat) (code : bytes) : list bool :=
  match code with
  | [] => []
  | op :: rest => match n with O => false :: arguments (push_size op) rest | S n => true :: arguments n rest end
  end.

(** ** Bit vectors as numbers *)

Fixpoint le_val (l : bytes) : Z := match l with [] => 0 | b :: l => b + 256 * le_val l end.

Lemma le_val_bound l : bytes_ok l → 0 <= le_val l < 256 ^ len l.
Proof.
  induction 1 as [| b l Hb Hl IH]; cbn [le_val]; [cbn; lia |]. rewrite len_cons, Z.pow_add_r, Z.pow_1_r by lia.
  unfold is_byte in Hb. lia.
Qed.

Lemma le_val_insert l i x y :
  l !! i = Some x → le_val (<[i := y]> l) = le_val l + (y - x) * 256 ^ Z.of_nat i.
Proof.
  revert i; induction l as [| b l IH]; intros [| i] Hi; try done.
  - injection Hi as ->. cbn. lia.
  - change (le_val (<[S i := y]> (b :: l))) with (b + 256 * le_val (<[i := y]> l)). cbn in Hi. rewrite (IH i Hi). cbn [le_val].
    rewrite Nat2Z.inj_succ, Z.pow_succ_r by lia. lia.
Qed.

(** The byte at [i]. *)
Lemma le_val_byte l i x : bytes_ok l → l !! i = Some x → le_val l / 256 ^ Z.of_nat i mod 256 = x.
Proof.
  intros Hl. revert i; induction Hl as [| b l Hb Hl IH]; intros [| i] Hi; try done; cbn [le_val].
  - injection Hi as ->. unfold is_byte in Hb. change (256 ^ Z.of_nat 0) with 1. rewrite Z.div_1_r.
    rewrite Z.add_mod, Z.mul_comm, Z.mod_mul, Z.add_0_r, Z.mod_mod by lia. by apply Z.mod_small.
  - cbn in Hi. rewrite Nat2Z.inj_succ, Z.pow_succ_r, <- Z.div_div by lia.
    replace ((b + 256 * le_val l) / 256) with (le_val l); [by apply IH |].
    rewrite Z.mul_comm, Z.div_add by lia. unfold is_byte in Hb. rewrite Z.div_small; lia.
Qed.

Lemma le_val_bit l i k x : bytes_ok l → l !! i = Some x → 0 <= k < 8 → Z.testbit x k = Z.testbit (le_val l) (8 * Z.of_nat i + k).
Proof.
  intros Hl Hi Hk. rewrite <- (le_val_byte l i x Hl Hi). change 256 with (2 ^ 8) at 2. rewrite Z.mod_pow2_bits_low by lia.
  change 256 with (2 ^ 8). rewrite <- Z.pow_mul_r, Z.div_pow2_bits by lia. f_equal. lia.
Qed.

Lemma le_val_zeros n : le_val (repeat 0 n) = 0.
Proof. induction n as [| n IH]; cbn [repeat le_val]; lia. Qed.

(** ** Setting bits *)

(** Setting the [n] bits from [pos] on, all of which are clear. *)
Definition sets (n pos : Z) (bits : bitvec) (r : outcome Empty_set bitvec) : Prop :=
  ∃ bits', r = Ok bits' ∧ length bits' = length bits ∧ bytes_ok bits' ∧ le_val bits' = le_val bits + Z.ones n * 2 ^ pos.

(** The bytes from [pos] on: the first has its bits below [pos mod 8] only, the
    next ones are zero. *)
Lemma clear_above bits pos i x :
  bytes_ok bits → 0 <= pos → le_val bits < 2 ^ pos → bits !! i = Some x →
  (pos / 8 = Z.of_nat i → x < 2 ^ (pos mod 8)) ∧ (pos / 8 < Z.of_nat i → x = 0).
Proof.
  intros Hb Hpos Hlt Hi. pose proof (le_val_bound bits Hb) as Hv. rewrite <- (le_val_byte bits i x Hb Hi).
  set (v := le_val bits) in *. assert (Hp : pos = 8 * (pos / 8) + pos mod 8) by (apply Z.div_mod; lia).
  pose proof (Z.mod_pos_bound pos 8 ltac:(lia)) as Hm. change 256 with (2 ^ 8) at 1 3. rewrite <- !Z.pow_mul_r by lia.
  split; intros Hq.
  - rewrite <- Hq. apply Z.le_lt_trans with (v / 2 ^ (8 * (pos / 8))).
    + apply Z.mod_le; [apply Z.div_pos; lia | lia].
    + apply Z.div_lt_upper_bound; [lia |]. rewrite <- Z.pow_add_r by lia. by rewrite <- Hp.
  - rewrite Z.div_small; [done |]. split; [lia |]. eapply Z.lt_le_trans; [exact Hlt |]. apply Z.pow_le_mono_r; lia.
Qed.

Lemma pow_split pos : 0 <= pos → 2 ^ pos = 2 ^ (pos mod 8) * 256 ^ (pos / 8).
Proof.
  intros Hpos. pose proof (Z.mod_pos_bound pos 8 ltac:(lia)). pose proof (Z.div_pos pos 8 ltac:(lia) ltac:(lia)).
  change 256 with (2 ^ 8). rewrite <- Z.pow_mul_r, <- Z.pow_add_r by lia. f_equal. rewrite (Z.div_mod pos 8) at 1 by lia. lia.
Qed.

Lemma or_clear bits pos m :
  bytes_ok bits → 0 <= pos → le_val bits < 2 ^ pos → pos / 8 < len bits → 0 <= m →
  let a := u8 (Z.shiftl m (pos mod 8)) in
  ∃ bits', @or_at Empty_set bits (pos / 8) a = Ok bits' ∧ length bits' = length bits ∧ bytes_ok bits' ∧
    le_val bits' = le_val bits + a * 256 ^ (pos / 8) ∧
    ∀ i, Z.to_nat (pos / 8) ≠ i → bits' !! i = bits !! i.
Proof.
  intros Hb Hpos Hlt Hlen Hm a. pose proof (Z.mod_pos_bound pos 8 ltac:(lia)) as Hr.
  pose proof (Z.div_pos pos 8 ltac:(lia) ltac:(lia)) as Hq.
  destruct (lookup_lt_is_Some_2 bits (Z.to_nat (pos / 8)) ltac:(lia)) as [x Hx].
  pose proof (proj1 (clear_above bits pos _ x Hb Hpos Hlt Hx) ltac:(lia)) as Hxr.
  assert (Hxb : is_byte x) by (by eapply Forall_lookup_1). unfold is_byte in Hxb.
  set (r := pos mod 8) in *.
  assert (Ha : a = Z.shiftl (m mod 2 ^ (8 - r)) r).
  { unfold a, u8. rewrite !Z.shiftl_mul_pow2 by lia. replace 256 with (2 ^ (8 - r) * 2 ^ r) by (rewrite <- Z.pow_add_r by lia; by replace (8 - r + r) with 8 by lia).
    rewrite Z.mul_mod_distr_r by lia. done. }
  assert (Hlor : Z.lor x a = x + a).
  { rewrite Ha, Z.lor_comm, lor_shift_add, Z.shiftl_mul_pow2 by lia. lia. }
  assert (Hab : 0 <= a < 256) by apply u8_byte.
  assert (Hxa : x + a < 256).
  { rewrite Ha, Z.shiftl_mul_pow2 by lia. pose proof (Z.mod_pos_bound m (2 ^ (8 - r)) ltac:(lia)).
    assert (E : 256 = 2 ^ (8 - r) * 2 ^ r) by (rewrite <- Z.pow_add_r by lia; by replace (8 - r + r) with 8 by lia). nia. }
  exists (<[Z.to_nat (pos / 8) := x + a]> bits). unfold or_at, at_, set_at.
  rewrite (proj2 (Z.ltb_ge (pos / 8) 0)) by lia. rewrite Hx. cbn [mbind outcome_bind]. repeat decide_if. cbn [andb]. rewrite Hlor.
  split_and!; [done | apply length_insert | | | intros i Hi; by apply list_lookup_insert_ne].
  - apply Forall_insert; [done |]. unfold is_byte. lia.
  - rewrite (le_val_insert _ _ x) by done. rewrite Z2Nat.id by lia. lia.
Qed.

Lemma set_clear bits pos i x :
  bytes_ok bits → 0 <= pos → is_byte x → bits !! i = Some 0 →
  ∃ bits', @set_at Empty_set _ bits (Z.of_nat i) x = Ok bits' ∧ length bits' = length bits ∧ bytes_ok bits' ∧
    le_val bits' = le_val bits + x * 256 ^ Z.of_nat i ∧ ∀ j, i ≠ j → bits' !! j = bits !! j.
Proof.
  intros Hb Hpos Hx Hi. pose proof (lookup_lt_Some _ _ _ Hi). exists (<[i := x]> bits). unfold set_at. repeat decide_if.
  cbn [andb]. rewrite Nat2Z.id. split_and!; [done | apply length_insert | by apply Forall_insert | | intros; by apply list_lookup_insert_ne].
  rewrite (le_val_insert _ _ 0) by done. lia.
Qed.

Lemma zero_above bits pos k :
  bytes_ok bits → 0 <= pos → le_val bits < 2 ^ pos → 0 < k → pos / 8 + k < len bits → bits !! Z.to_nat (pos / 8 + k) = Some 0.
Proof.
  intros Hb Hpos Hlt Hk Hlen. pose proof (Z.div_pos pos 8 ltac:(lia) ltac:(lia)) as Hq.
  destruct (lookup_lt_is_Some_2 bits (Z.to_nat (pos / 8 + k)) ltac:(lia)) as [x Hx].
  by rewrite Hx, (proj2 (clear_above bits pos _ x Hb Hpos Hlt Hx)) by lia.
Qed.

Ltac mod8_cases pos :=
  let r := fresh "r" in let Hr := fresh "Hr" in
  pose proof (Z.mod_pos_bound pos 8 ltac:(lia)) as Hr; set (r := pos mod 8) in *;
  assert (r = 0 ∨ r = 1 ∨ r = 2 ∨ r = 3 ∨ r = 4 ∨ r = 5 ∨ r = 6 ∨ r = 7) as Hcases by lia; clearbody r; clear Hr;
  destruct Hcases as [-> | [-> | [-> | [-> | [-> | [-> | [-> | ->]]]]]]].

Ltac eval_consts :=
  repeat match goal with
  | |- context [u8 ?x] => let v := eval vm_compute in (u8 x) in change (u8 x) with v
  | |- context [Z.ones ?x] => let v := eval vm_compute in (Z.ones x) in change (Z.ones x) with v
  | |- context [2 ^ ?x] => let v := eval vm_compute in (2 ^ x) in change (2 ^ x) with v
  | |- context [256 ^ ?x] => let v := eval vm_compute in (256 ^ x) in change (256 ^ x) with v
  end.

Lemma set1_sets bits pos :
  bytes_ok bits → 0 <= pos → le_val bits < 2 ^ pos → pos / 8 < len bits → sets 1 pos bits (set1 bits pos).
Proof.
  intros Hb Hpos Hlt Hlen. destruct (or_clear bits pos 1 Hb Hpos Hlt Hlen ltac:(lia)) as (b' & E1 & L1 & O1 & V1 & _).
  exists b'. split_and!; [exact E1 | done | done |]. rewrite V1, pow_split by done.
  generalize (256 ^ (pos / 8)); intros X. mod8_cases pos; eval_consts; lia.
Qed.

Lemma set8_sets bits pos :
  bytes_ok bits → 0 <= pos → le_val bits < 2 ^ pos → pos / 8 + 1 < len bits → sets 8 pos bits (set8 bits pos).
Proof.
  intros Hb Hpos Hlt Hlen. destruct (or_clear bits pos 0xFF Hb Hpos Hlt ltac:(lia) ltac:(lia)) as (b1 & E1 & L1 & O1 & V1 & R1).
  pose proof (Z.div_pos pos 8 ltac:(lia) ltac:(lia)) as Hq.
  pose proof (zero_above bits pos 1 Hb Hpos Hlt ltac:(lia) Hlen) as Hz. rewrite <- R1 in Hz by lia.
  unfold set8, sets. rewrite E1. cbn [mbind outcome_bind].
  edestruct (set_clear b1 pos (Z.to_nat (pos / 8 + 1))) as (b2 & E2 & L2 & O2 & V2 & _); [done | done | apply u8_byte | done |].
  rewrite Z2Nat.id in E2, V2 by lia. rewrite E2. exists b2. split_and!; [done | congruence | done |].
  rewrite V2, V1, pow_split, Z.pow_add_r by lia.
  generalize (256 ^ (pos / 8)); intros X. mod8_cases pos; eval_consts; lia.
Qed.

Lemma set16_sets bits pos :
  bytes_ok bits → 0 <= pos → le_val bits < 2 ^ pos → pos / 8 + 2 < len bits → sets 16 pos bits (set16 bits pos).
Proof.
  intros Hb Hpos Hlt Hlen. destruct (or_clear bits pos 0xFF Hb Hpos Hlt ltac:(lia) ltac:(lia)) as (b1 & E1 & L1 & O1 & V1 & R1).
  pose proof (Z.div_pos pos 8 ltac:(lia) ltac:(lia)) as Hq.
  pose proof (zero_above bits pos 1 Hb Hpos Hlt ltac:(lia) ltac:(lia)) as Hz. rewrite <- R1 in Hz by lia.
  pose proof (zero_above bits pos 2 Hb Hpos Hlt ltac:(lia) ltac:(lia)) as Hz2. rewrite <- R1 in Hz2 by lia.
  unfold set16, sets. rewrite E1. cbn [mbind outcome_bind].
  edestruct (set_clear b1 pos (Z.to_nat (pos / 8 + 1)) 0xFF) as (b2 & E2 & L2 & O2 & V2 & R2); [done | done | done | done |].
  rewrite Z2Nat.id in E2, V2 by lia. rewrite E2. cbn [mbind outcome_bind]. rewrite <- R2 in Hz2 by lia.
  edestruct (set_clear b2 pos (Z.to_nat (pos / 8 + 2))) as (b3 & E3 & L3 & O3 & V3 & _); [done | done | apply u8_byte | done |].
  rewrite Z2Nat.id in E3, V3 by lia. rewrite E3. exists b3. split_and!; [done | congruence | done |].
  rewrite V3, V2, V1, pow_split, !Z.pow_add_r by lia. generalize (256 ^ (pos / 8)); intros X. mod8_cases pos; eval_consts; lia.
Qed.

Lemma setN_sets bits pos n :
  bytes_ok bits → 0 <= pos → le_val bits < 2 ^ pos → 2 <= n <= 7 → pos / 8 + 1 < len bits →
  sets n pos bits (setN bits (setBitsMask n) pos).
Proof.
  intros Hb Hpos Hlt Hn Hlen. pose proof (Z.div_pos pos 8 ltac:(lia) ltac:(lia)) as Hq.
  destruct (or_clear bits pos (setBitsMask n) Hb Hpos Hlt ltac:(lia) ltac:(unfold setBitsMask; rewrite Z.ones_equiv; lia)) as (b1 & E1 & L1 & O1 & V1 & R1).
  pose proof (zero_above bits pos 1 Hb Hpos Hlt ltac:(lia) Hlen) as Hz. rewrite <- R1 in Hz by lia.
  unfold setN, sets. set (a := Z.shiftl (setBitsMask n) (pos mod 8) mod 2 ^ 16).
  assert (Ha : u8 a = u8 (Z.shiftl (setBitsMask n) (pos mod 8)) ∧ Z.ones n * 2 ^ (pos mod 8) = u8 a + 256 * u8 (Z.shiftr a 8)).
  { unfold a, setBitsMask. clear - Hn Hpos. assert (n = 2 ∨ n = 3 ∨ n = 4 ∨ n = 5 ∨ n = 6 ∨ n = 7) as Hc by lia.
    mod8_cases pos; destruct Hc as [-> | [-> | [-> | [-> | [-> | ->]]]]]; done. }
  destruct Ha as [Ha1 Ha2]. rewrite <- Ha1 in E1, V1. rewrite E1. cbn [mbind outcome_bind]. rewrite pow_split, Z.mul_assoc, Ha2 by done.
  destruct (Z.eqb_spec (u8 (Z.shiftr a 8)) 0) as [Hz0 | Hnz]; cbn [negb].
  - exists b1. split_and!; [done | done | done |]. rewrite V1, Hz0. lia.
  - edestruct (set_clear b1 pos (Z.to_nat (pos / 8 + 1)) (u8 (Z.shiftr a 8))) as (b2 & E2 & L2 & O2 & V2 & _); [done | done | apply u8_byte | done |].
    rewrite Z2Nat.id in E2, V2 by lia. rewrite E2. exists b2. split_and!; [done | congruence | done |].
    rewrite V2, V1, Z.pow_add_r by lia. lia.
Qed.

(** [bits'] is [bits] with the [n] bits from [pos] on set; [bits] has none there
    or above. *)
Record marked (n pos : Z) (bits bits' : bitvec) : Prop := MkMarked {
  mk_len : length bits' = length bits;
  mk_ok : bytes_ok bits';
  mk_val : le_val bits' = le_val bits + Z.ones n * 2 ^ pos;
  mk_below : le_val bits' < 2 ^ (pos + n)
}.

Lemma sets_marked n pos bits r :
  0 <= n → 0 <= pos → le_val bits < 2 ^ pos → sets n pos bits r → ∃ bits', r = Ok bits' ∧ marked n pos bits bits'.
Proof.
  intros Hn Hpos Hlt (bits' & -> & Hl & Ho & Hv). exists bits'. split; [done |]. constructor; try done.
  rewrite Hv, Z.ones_equiv, Z.pow_add_r by lia. nia.
Qed.

Lemma marked_refl pos bits : bytes_ok bits → le_val bits < 2 ^ pos → marked 0 pos bits bits.
Proof. intros Hb Hlt. constructor; [done | done | change (Z.ones 0) with 0; lia |]. by rewrite Z.add_0_r. Qed.

Lemma marked_trans n m pos b1 b2 b3 :
  0 <= n → 0 <= m → 0 <= pos → marked n pos b1 b2 → marked m (pos + n) b2 b3 → marked (n + m) pos b1 b3.
Proof.
  intros Hn Hm Hpos [L1 O1 V1 B1] [L2 O2 V2 B2]. constructor; [congruence | done | | by rewrite Z.add_assoc].
  rewrite V2, V1, !Z.ones_equiv, !Z.pow_add_r by lia. nia.
Qed.

Lemma div8_add pos k : (pos + 8 * k) / 8 = pos / 8 + k.
Proof. rewrite Z.mul_comm, Z.div_add by lia. done. Qed.

Lemma loop16_marked fuel n pos bits :
  0 <= n < 16 * Z.of_nat fuel → bytes_ok bits → 0 <= pos → le_val bits < 2 ^ pos → pos / 8 + 2 * (n / 16) < len bits →
  ∃ bits', @loop16 Empty_set fuel n pos bits = Ok (n mod 16, pos + 16 * (n / 16), bits') ∧ marked (16 * (n / 16)) pos bits bits'.
Proof.
  revert n pos bits; induction fuel as [| fuel IH]; intros n pos bits Hn Hb Hpos Hlt Hlen; [lia |]. cbn [loop16].
  destruct (Z.leb_spec 16 n) as [Hge | Hsm].
  - pose proof (Z.div_mod n 16 ltac:(lia)). pose proof (Z.mod_pos_bound n 16 ltac:(lia)).
    pose proof (Z.div_mod (n - 16) 16 ltac:(lia)). pose proof (Z.mod_pos_bound (n - 16) 16 ltac:(lia)).
    assert (Hdiv : n / 16 = (n - 16) / 16 + 1) by lia. assert (Hmod : n mod 16 = (n - 16) mod 16) by lia.
    pose proof (Z.div_pos (n - 16) 16 ltac:(lia) ltac:(lia)).
    destruct (sets_marked 16 pos bits (set16 bits pos)) as (b1 & -> & M1); [lia | done | done | apply set16_sets; try done; lia |].
    cbn [mbind outcome_bind]. pose proof M1 as [L1 O1 V1 B1].
    destruct (IH (n - 16) (pos + 16) b1) as (b2 & E2 & M2); [lia | done | lia | done | |].
    { pose proof (div8_add pos 2) as Hd. change (8 * 2) with 16 in Hd. rewrite L1, Hd. lia. }
    exists b2. split; [rewrite E2, Hmod, Hdiv; do 2 f_equal; f_equal; lia |].
    replace (16 * (n / 16)) with (16 + 16 * ((n - 16) / 16)) by lia. by eapply marked_trans; [lia | lia | lia | |].
  - exists bits. rewrite Z.mod_small, Z.div_small by lia. split; [do 2 f_equal; f_equal; lia | by apply marked_refl].
Qed.

Lemma loop8_marked fuel n pos bits :
  0 <= n < 8 * Z.of_nat fuel → bytes_ok bits → 0 <= pos → le_val bits < 2 ^ pos → pos / 8 + n / 8 < len bits →
  ∃ bits', @loop8 Empty_set fuel n pos bits = Ok (n mod 8, pos + 8 * (n / 8), bits') ∧ marked (8 * (n / 8)) pos bits bits'.
Proof.
  revert n pos bits; induction fuel as [| fuel IH]; intros n pos bits Hn Hb Hpos Hlt Hlen; [lia |]. cbn [loop8].
  destruct (Z.leb_spec 8 n) as [Hge | Hsm].
  - pose proof (Z.div_mod n 8 ltac:(lia)). pose proof (Z.mod_pos_bound n 8 ltac:(lia)).
    pose proof (Z.div_mod (n - 8) 8 ltac:(lia)). pose proof (Z.mod_pos_bound (n - 8) 8 ltac:(lia)).
    assert (Hdiv : n / 8 = (n - 8) / 8 + 1) by lia. assert (Hmod : n mod 8 = (n - 8) mod 8) by lia.
    pose proof (Z.div_pos (n - 8) 8 ltac:(lia) ltac:(lia)).
    destruct (sets_marked 8 pos bits (set8 bits pos)) as (b1 & -> & M1); [lia | done | done | apply set8_sets; try done; lia |].
    cbn [mbind outcome_bind]. pose proof M1 as [L1 O1 V1 B1].
    destruct (IH (n - 8) (pos + 8) b1) as (b2 & E2 & M2); [lia | done | lia | done | |].
    { pose proof (div8_add pos 1) as Hd. change (8 * 1) with 8 in Hd. rewrite L1, Hd. lia. }
    exists b2. split; [rewrite E2, Hmod, Hdiv; do 2 f_equal; f_equal; lia |].
    replace (8 * (n / 8)) with (8 + 8 * ((n - 8) / 8)) by lia. by eapply marked_trans; [lia | lia | lia | |].
  - exists bits. rewrite Z.mod_small, Z.div_small by lia. split; [do 2 f_equal; f_equal; lia | by apply marked_refl].
Qed.

(** The bits left when whole bytes have been marked. *)
Lemma mark_rest n pos bits :
  0 <= n < 8 → bytes_ok bits → 0 <= pos → le_val bits < 2 ^ pos → pos / 8 + 1 < len bits ∨ n = 0 →
  ∃ bits', (if n =? 1 then bits ← set1 bits pos; Ok (pos + 1, bits)
    else if (2 <=? n) && (n <=? 7) then bits ← setN bits (setBitsMask n) pos; Ok (pos + n, bits)
    else Ok (pos, bits)) = @Ok Empty_set _ (pos + n, bits') ∧ marked n pos bits bits'.
Proof.
  intros Hn Hb Hpos Hlt Hlen. destruct (Z.eqb_spec n 1) as [-> | H1].
  { destruct (sets_marked 1 pos bits (set1 bits pos)) as (b1 & -> & M1); [lia | done | done | apply set1_sets; try done; lia |]. by exists b1. }
  destruct (Z.leb_spec 2 n) as [H2 | H2]; cbn [andb].
  - rewrite (proj2 (Z.leb_le n 7)) by lia.
    destruct (sets_marked n pos bits (setN bits (setBitsMask n) pos)) as (b1 & -> & M1); [lia | done | done | apply setN_sets; try done; lia |].
    by exists b1.
  - assert (n = 0) as -> by lia. exists bits. rewrite Z.add_0_r. split; [done | by apply marked_refl].
Qed.

(** One PUSH with its argument bytes. *)
Lemma mark_push_marked op pos bits :
  PUSH1 <= op <= PUSH32 → bytes_ok bits → 0 <= pos → le_val bits < 2 ^ pos → pos / 8 + 4 < len bits →
  ∃ bits', @mark_push Empty_set op pos bits = Ok (pos + (op - PUSH1 + 1), bits') ∧ marked (op - PUSH1 + 1) pos bits bits'.
Proof.
  intros Hop Hb Hpos Hlt Hlen. unfold mark_push. set (n := op - PUSH1 + 1).
  assert (Hn : 1 <= n <= 32) by (unfold n, PUSH1, PUSH32 in *; lia). clearbody n. clear Hop op.
  destruct (Z.leb_spec 8 n) as [Hge | Hsm]; cbn [mbind outcome_bind]; [| apply mark_rest; try done; lia].
  assert (Hn16 : 0 <= n / 16 <= 2) by (split; [apply Z.div_pos; lia | apply Z.div_le_upper_bound; lia]).
  assert (Hdm := Z.div_mod n 16 ltac:(lia)). assert (Hm := Z.mod_pos_bound n 16 ltac:(lia)).
  destruct (loop16_marked 3 n pos bits) as (b1 & -> & M1); [lia | done | done | done | lia |]. cbn [mbind outcome_bind].
  set (k := n mod 16) in *. set (q := n / 16) in *. clearbody k q. pose proof M1 as [L1 O1 V1 B1].
  assert (Hk8 : 0 <= k / 8 < 2) by (split; [apply Z.div_pos; lia | apply Z.div_lt_upper_bound; lia]).
  assert (Hdk := Z.div_mod k 8 ltac:(lia)). assert (Hmk := Z.mod_pos_bound k 8 ltac:(lia)).
  assert (Hp1 : (pos + 16 * q) / 8 = pos / 8 + 2 * q) by (rewrite <- (div8_add pos (2 * q)); f_equal; lia).
  destruct (loop8_marked 3 k (pos + 16 * q) b1) as (b2 & -> & M2); [lia | done | lia | done | rewrite L1, Hp1; lia |].
  cbn [mbind outcome_bind]. pose proof M2 as [L2 O2 V2 B2].
  destruct (mark_rest (k mod 8) (pos + 16 * q + 8 * (k / 8)) b2) as (b3 & -> & M3); [lia | done | lia | done | |].
  { rewrite L2, L1, div8_add, Hp1. lia. }
  exists b3. split; [do 2 f_equal; lia |].
  replace n with (16 * q + (8 * (k / 8) + k mod 8)) by lia.
  eapply marked_trans; [lia | lia | lia | exact M1 |]. eapply marked_trans; [lia | lia | lia | exact M2 | exact M3].
Qed.

(** ** The loop *)

(** The arguments as a number: bit [i] is set when byte [i] is an argument. *)
Fixpoint flags (l : list bool) : Z := match l with [] => 0 | b :: l => Z.b2z b + 2 * flags l end.

Lemma flags_bit l i : Z.testbit (flags l) (Z.of_nat i) = default false (l !! i).
Proof.
  revert i; induction l as [| b l IH]; intros i; cbn [flags]; [by rewrite Z.bits_0 |].
  destruct i as [| i]; [by rewrite Z.add_comm, Z.testbit_0_r |].
  rewrite Nat2Z.inj_succ, Z.add_comm, Z.testbit_succ_r by lia. apply IH.
Qed.

Lemma arguments_take n code : arguments n code = repeat true (Nat.min n (length code)) ++ arguments 0 (drop n code).
Proof.
  revert code; induction n as [| n IH]; intros [| op code]; try done. cbn. by rewrite IH.
Qed.

Lemma testbit_above x p : 0 <= x < 2 ^ p → 0 <= p → Z.testbit x p = false.
Proof. intros Hx Hp. rewrite <- (Z.mod_small x (2 ^ p)) by done. by apply Z.mod_pow2_bits_high. Qed.

Lemma testbit_marks x n p i :
  0 <= x < 2 ^ p → 0 <= n → 0 <= p → 0 <= i →
  Z.testbit (x + Z.ones n * 2 ^ p) i = Z.testbit x i || ((p <=? i) && (i <? p + n)).
Proof.
  intros Hx Hn Hp Hi. rewrite Z.add_comm, <- lor_shift_add by lia. rewrite Z.lor_spec, Z.shiftl_spec, orb_comm by lia. f_equal.
  destruct (Z.leb_spec p i) as [Hle | Hgt]; [| by rewrite Z.testbit_neg_r by lia].
  rewrite Z.testbit_ones_nonneg by lia. cbn. destruct (Z.ltb_spec (i - p) n), (Z.ltb_spec i (p + n)); lia || done.
Qed.

Lemma lookup_repeat_lt {A} (x : A) n i : (i < n)%nat → repeat x n !! i = Some x.
Proof. intros Hi. rewrite <- (repeat_length x n) in Hi. destruct (lookup_lt_is_Some_2 _ _ Hi) as [y Hy]. rewrite Hy. f_equal. eapply repeat_spec. by apply list_elem_of_In, list_elem_of_lookup_2 with i. Qed.

Lemma arguments_length n code : length (arguments n code) = length code.
Proof. revert n; induction code as [| op code IH]; intros [| n]; cbn; [done.. | by rewrite IH | by rewrite IH]. Qed.

(** The bits of the program from [pc] on are those of the reference; the marks
    may run over the end of the program. *)
Lemma codeBitmap_loop_spec fuel code pc bits :
  bytes_ok code → 0 <= pc → (Z.to_nat (len code - pc) < fuel)%nat →
  bytes_ok bits → le_val bits < 2 ^ pc → len code / 8 + 4 < len bits →
  ∃ bits', @codeBitmap_loop Empty_set fuel code pc bits = Ok bits' ∧ length bits' = length bits ∧ bytes_ok bits' ∧
    ∀ i, 0 <= i < len code → Z.testbit (le_val bits') i =
      if i <? pc then Z.testbit (le_val bits) i else default false (arguments 0 (drop (Z.to_nat pc) code) !! Z.to_nat (i - pc)).
Proof.
  intros Hcode. revert pc bits; induction fuel as [| fuel IH]; intros pc bits Hpc Hfuel Hb Hlt Hlen; [lia |]. cbn [codeBitmap_loop].
  destruct (Z.ltb_spec pc (len code)) as [Hin | Hout].
  2: { exists bits. split_and!; try done. intros i Hi. by rewrite (proj2 (Z.ltb_lt i pc)) by lia. }
  destruct (lookup_lt_is_Some_2 code (Z.to_nat pc) ltac:(lia)) as [op Hop].
  assert (Hopb : is_byte op) by exact (Forall_lookup_1 _ _ _ _ Hcode Hop). unfold is_byte in Hopb.
  rewrite (at_index code pc op) by done. cbn [mbind outcome_bind].
  assert (Hdrop : drop (Z.to_nat pc) code = op :: drop (S (Z.to_nat pc)) code) by by apply drop_S.
  assert (Hdiv : (pc + 1) / 8 <= len code / 8) by (apply Z.div_le_mono; lia).
  assert (Hlt1 : le_val bits < 2 ^ (pc + 1)) by (rewrite Z.pow_add_r by lia; lia).
  pose proof (le_val_bound bits Hb) as Hnn.
  unfold int8. change (if PUSH1 <? 128 then PUSH1 else PUSH1 - 256) with PUSH1.
  destruct ((if op <? 128 then op else op - 256) <? PUSH1) eqn:Epush.
  - assert (Hps : push_size op = 0%nat) by (unfold push_size, PUSH1, PUSH32 in *; case_if; zb; case_match; zb; lia || done).
    destruct (IH (pc + 1) bits) as (b' & E' & L' & O' & V'); [lia | lia | done | done | done |].
    exists b'. split_and!; [done | done | done |]. intros i Hi. rewrite (V' i Hi), Hdrop.
    destruct (Z.ltb_spec i pc) as [Hlo | Hhi]; [by rewrite (proj2 (Z.ltb_lt i (pc + 1))) by lia |].
    destruct (Z.ltb_spec i (pc + 1)) as [Heq | Hgt].
    + assert (i = pc) as -> by lia. rewrite Z.sub_diag. cbn. apply testbit_above; lia.
    + cbn [arguments]. rewrite Hps. replace (Z.to_nat (i - pc)) with (S (Z.to_nat (i - (pc + 1)))) by lia. cbn.
      by replace (Z.to_nat (pc + 1)) with (S (Z.to_nat pc)) by lia.
  - assert (Hr : PUSH1 <= op <= PUSH32) by (unfold PUSH1, PUSH32 in *; case_if; zb; lia).
    set (n := op - PUSH1 + 1) in *. assert (Hn : 1 <= n) by (unfold n; lia).
    assert (Hps : push_size op = Z.to_nat n) by (unfold push_size; by rewrite (proj2 (Z.leb_le _ _) (proj1 Hr)), (proj2 (Z.leb_le _ _) (proj2 Hr))).
    destruct (mark_push_marked op (pc + 1) bits) as (b1 & -> & [L1 O1 V1 B1]); [done | done | lia | done | lia |]. fold n in V1, B1 |- *. cbn [mbind outcome_bind].
    destruct (IH (pc + 1 + n) b1) as (b' & E' & L' & O' & V'); [lia | lia | done | done | lia |].
    exists b'. split_and!; [done | congruence | done |]. intros i Hi. rewrite (V' i Hi), Hdrop, V1, testbit_marks by lia.
    destruct (Z.ltb_spec i pc) as [Hlo | Hhi].
    + rewrite (proj2 (Z.ltb_lt i (pc + 1 + n))), (proj2 (Z.leb_gt (pc + 1) i)) by lia. apply orb_false_r.
    + cbn [arguments]. rewrite Hps. destruct (Z.eq_dec i pc) as [-> | Hne].
      { rewrite Z.sub_diag, (proj2 (Z.ltb_lt pc (pc + 1 + n))), (proj2 (Z.leb_gt (pc + 1) pc)) by lia. cbn. rewrite orb_false_r. apply testbit_above; lia. }
      replace (Z.to_nat (i - pc)) with (S (Z.to_nat (i - (pc + 1)))) by lia.
      change ((false :: ?l) !! S ?j) with (l !! j). rewrite (arguments_take (Z.to_nat n)). destruct (Z.ltb_spec i (pc + 1 + n)) as [Hin' | Hout'].
      * rewrite (proj2 (Z.leb_le (pc + 1) i)) by lia. cbn [andb]. rewrite orb_true_r.
        rewrite lookup_app_l, lookup_repeat_lt; [done | |]; rewrite ?repeat_length, length_drop; lia.
      * rewrite lookup_app_r, repeat_length, length_drop by (rewrite repeat_length, length_drop; lia). rewrite drop_drop.
        repeat f_equal; lia.
Qed.

Lemma repeat_zero_ok n : bytes_ok (repeat 0 n).
Proof. by apply Forall_replicate_eq || (induction n; constructor; done). Qed.

Lemma codeBitmap_spec code :
  bytes_ok code → ∃ bits, @codeBitmap Empty_set code = Ok bits ∧ len bits = len code / 8 + 5 ∧ bytes_ok bits ∧
    ∀ i, 0 <= i < len code → Z.testbit (le_val bits) i = default false (arguments 0 code !! Z.to_nat i).
Proof.
  intros Hcode. unfold codeBitmap, codeBitmapInternal. set (bits := repeat 0 _).
  assert (Hlen : len bits = len code / 8 + 5) by (unfold bits; rewrite repeat_length, !Nat2Z.inj_add, Nat2Z.inj_div; lia).
  destruct (codeBitmap_loop_spec (S (length code)) code 0 bits) as (b' & E' & L' & O' & V'); try done; try lia.
  - apply repeat_zero_ok.
  - unfold bits. rewrite le_val_zeros. lia.
  - exists b'. split_and!; [done | by rewrite L' | done |]. intros i Hi. rewrite (V' i Hi), (proj2 (Z.ltb_ge i 0)) by lia.
    by rewrite Z.sub_0_r.
Qed.

Lemma codeSegment_spec bits pos :
  bytes_ok bits → 0 <= pos → pos / 8 < len bits → @codeSegment Empty_set bits pos = Ok (negb (Z.testbit (le_val bits) pos)).
Proof.
  intros Hb Hpos Hlen. pose proof (Z.div_pos pos 8 ltac:(lia) ltac:(lia)) as Hq. pose proof (Z.mod_pos_bound pos 8 ltac:(lia)) as Hr.
  destruct (lookup_lt_is_Some_2 bits (Z.to_nat (pos / 8)) ltac:(lia)) as [x Hx]. unfold codeSegment.
  rewrite (at_index bits (pos / 8) x) by done. cbn [mbind outcome_bind]. f_equal.
  replace pos with (8 * Z.of_nat (Z.to_nat (pos / 8)) + pos mod 8) at 2 by (rewrite Z2Nat.id by lia; symmetry; apply Z.div_mod; lia).
  rewrite <- (le_val_bit bits _ _ x Hb Hx Hr). change 1 with (Z.ones 1). rewrite Z.land_ones by lia.
  rewrite Z.shiftr_div_pow2 by lia. change (2 ^ 1) with 2. rewrite <- Z.testbit_spec' by lia.
  by destruct (Z.testbit x (pos mod 8)).
Qed.

(** C34.  Jump destination analysis is exact: codeBitmap returns, without leaving
    its bit vector even when a PUSH32 is the last byte, and codeSegment says of
    every position of the program whether it is an instruction or an argument of
    a PUSH, as reading the program instruction by instruction does. *)
Theorem codeBitmap_exact code :
  bytes_ok code →
  ∃ bits, @codeBitmap Empty_set code = Ok bits ∧
    ∀ pos b, arguments 0 code !! pos = Some b → @codeSegment Empty_set bits (Z.of_nat pos) = Ok (negb b).
Proof.
  intros Hcode. destruct (codeBitmap_spec code Hcode) as (bits & E & Hlen & Hb & Hbits). exists bits. split; [done |].
  intros pos b Hpos. assert (Hin : (pos < length code)%nat).
  { apply lookup_lt_Some in Hpos. rewrite arguments_length in Hpos. done. }
  rewrite codeSegment_spec; [| done | lia |].
  - rewrite Hbits by lia. by rewrite Nat2Z.id, Hpos.
  - rewrite Hlen. apply Z.le_lt_trans with (len code / 8); [apply Z.div_le_mono; lia | lia].
Qed.

Lemma codeBitmap_exact_witness :
  let code := [0x5b; 0x61; 0x5b; 0x5b; 0x5b; 0x7f; 0x5b] in
  bytes_ok code ∧ ∃ bits, @codeBitmap Empty_set code = Ok bits ∧ @codeSegment Empty_set bits 2 = Ok false ∧
    @codeSegment Empty_set bits 4 = Ok true.
Proof.
  intros code. assert (Hc : bytes_ok code) by (repeat constructor; unfold is_byte; lia). split; [done |].
  destruct (codeBitmap_exact code Hc) as (bits & E & H). exists bits. split; [done |].
  split; [exact (H 2%nat true eq_refl) | exact (H 4%nat false eq_refl)].
Defined.
