(* ===== verification/VmCore.v ===== *)
(** * The virtual machine: data, stack, memory and the state interface

    From src/core/vm: errors.go, stack.go, memory.go, common.go, interface.go and
    the types of interpreter.go, contract.go and zvm.go.  A frame is what one
    call runs on: the machine with the state, the program counter, the stack
    (first element on top), the memory and the contract.  Code that may panic is
    an [outcome]; the errors of the machine are values, since the state changes
    that came before them are seen by the caller. *)

From S2P Require Import Prelude RlpEncode TrieNode TrieOps StateAccess State StateWorld Uint256 VmAnalysis.

Inductive vm_error :=
| ErrOutOfGas
| ErrCodeStoreOutOfGas
| ErrDepth
| ErrInsufficientBalance
| ErrContractAddressCollision
| ErrExecutionReverted
| ErrMaxInitCodeSizeExceeded
| ErrMaxCodeSizeExceeded
| ErrInvalidJump
| ErrWriteProtection
| ErrReturnDataOutOfBounds
| ErrGasUintOverflow
| ErrInvalidCode
| ErrNonceUintOverflow
| errStopToken
| ErrStackUnderflow (stackLen required : Z)
| ErrStackOverflow (stackLen limit : Z)
| ErrInvalidOpCode (opcode : Z)
| ErrReentrancySentry
| ErrPrecompiled (code : Z).

(** err == ErrExecutionReverted *)
Definition is_reverted (e : option vm_error) : bool :=
  match e with Some ErrExecutionReverted => true | _ => false end.

(** ** The state interface *)

Class VmStateDB (SDB : Type) := {
  db_CreateAccount : bytes → SDB → SDB;
  db_SubBalance : bytes → Z → SDB → SDB;
  db_AddBalance : bytes → Z → SDB → SDB;
  db_GetBalance : bytes → SDB → Z * SDB;
  db_GetNonce : bytes → SDB → Z * SDB;
  db_SetNonce : bytes → Z → SDB → SDB;
  db_GetCodeHash : bytes → SDB → bytes * SDB;
  db_GetCode : bytes → SDB → bytes * SDB;
  db_SetCode : bytes → bytes → SDB → SDB;
  db_GetCodeSize : bytes → SDB → Z * SDB;
  db_AddRefund : Z → SDB → SDB;
  db_SubRefund : Z → SDB → outcome Empty_set SDB;
  db_GetRefund : SDB → Z;
  db_GetCommittedState : bytes → bytes → SDB → bytes * SDB;
  db_GetState : bytes → bytes → SDB → bytes * SDB;
  db_SetState : bytes → bytes → bytes → SDB → SDB;
  db_Exist : bytes → SDB → bool * SDB;
  db_Empty : bytes → SDB → bool * SDB;
  db_AddressInAccessList : bytes → SDB → bool;
  db_SlotInAccessList : bytes → bytes → SDB → outcome Empty_set (bool * bool);
  db_AddAddressToAccessList : bytes → SDB → SDB;
  db_AddSlotToAccessList : bytes → bytes → SDB → outcome Empty_set SDB;
  db_RevertToSnapshot : Z → SDB → outcome Empty_set SDB;
  db_Snapshot : SDB → Z * SDB;
  db_AddLog : Log → SDB → SDB;
  db_AddPreimage : bytes → bytes → SDB → SDB;
  db_Prepare : bytes → bytes → option bytes → list bytes → list (bytes * list bytes) → SDB → outcome Empty_set SDB
}.

(** The operations of StateWorld through the interface. *)
Definition db_run {SDB} `{VmStateDB SDB} (o : op) (s : SDB) : outcome Empty_set SDB :=
  match o with
  | OpAddBalance a x => Ok (db_AddBalance a x s)
  | OpSubBalance a x => Ok (db_SubBalance a x s)
  | OpSetNonce a n => Ok (db_SetNonce a n s)
  | OpSetCode a c => Ok (db_SetCode a c s)
  | OpSetState a k v => Ok (db_SetState a k v s)
  | OpCreateAccount a => Ok (db_CreateAccount a s)
  | OpAddLog p => Ok (db_AddLog p s)
  | OpAddPreimage h p => Ok (db_AddPreimage h p s)
  | OpAddRefund g => Ok (db_AddRefund g s)
  | OpSubRefund g => db_SubRefund g s
  | OpAddAddress a => Ok (db_AddAddressToAccessList a s)
  | OpAddSlot a k => db_AddSlotToAccessList a k s
  | OpGetBalance a => Ok (db_GetBalance a s).2
  | OpGetCode a => Ok (db_GetCode a s).2
  | OpGetState a k => Ok (db_GetState a k s).2
  | OpGetCommittedState a k => Ok (db_GetCommittedState a k s).2
  | OpSnapshot => Ok (db_Snapshot s).2
  | OpRevert id => db_RevertToSnapshot id s
  | OpSetBalance a x => Panic
  end.

(** Which of them the interface has. *)
Definition db_has (o : op) : bool := match o with OpSetBalance _ _ => false | _ => true end.

(** ** Words and slices *)

Definition int64 (x : Z) : Z := if x <? 2 ^ 63 then x else x - 2 ^ 64.
Definition MaxUint64 : Z := 2 ^ 64 - 1.

(** common/math: SafeAdd and SafeMul, the result and whether it overflowed *)
Definition SafeAdd (x y : Z) : Z * bool := (u64 (x + y), 2 ^ 64 <=? x + y).
Definition SafeMul (x y : Z) : Z * bool := (u64 (x * y), 2 ^ 64 <=? x * y).

(** common.RightPadBytes *)
Definition RightPadBytes (slice : bytes) (l : Z) : bytes :=
  if l <=? len slice then slice else slice ++ repeat 0 (Z.to_nat l - length slice).

Definition getData {E} (data : bytes) (start size : Z) : outcome E bytes :=
  let length := len data in
  let start := if length <? start then length else start in
  let stop := u64 (start + size) in
  let stop := if length <? stop then length else stop in
  d ← slice data start stop;
  Ok (RightPadBytes d (int64 size)).

Definition toWordSize (size : Z) : Z :=
  if MaxUint64 - 31 <? size then MaxUint64 / 32 + 1 else (size + 31) / 32.

(** common.BytesToAddress *)
Definition BytesToAddress (b : bytes) : bytes :=
  let b := if 20 <? len b then drop (length b - 20) b else b in
  repeat 0 (20 - length b) ++ b.

(** ** Memory *)

Record Memory := MkMemory { store : bytes; lastGasCost : Z }.

Definition NewMemory : Memory := MkMemory [] 0.

(** copy(m.store[a:b], value) *)
Definition copy_into {E} (st : bytes) (a b : Z) (value : bytes) : outcome E bytes :=
  _ ← slice st a b;
  let n := Nat.min (Z.to_nat (b - a)) (length value) in
  Ok (take (Z.to_nat a) st ++ take n value ++ drop (Z.to_nat a + n) st).

Definition mem_Set {E} (offset size : Z) (value : bytes) (m : Memory) : outcome E Memory :=
  if 0 <? size then
    if len (store m) <? u64 (offset + size) then Panic
    else st ← copy_into (store m) offset (u64 (offset + size)) value; Ok (MkMemory st (lastGasCost m))
  else Ok m.

Definition mem_Set32 {E} (offset : Z) (b32 : bytes) (m : Memory) : outcome E Memory :=
  if len (store m) <? u64 (offset + 32) then Panic
  else st ← copy_into (store m) offset (len (store m)) b32; Ok (MkMemory st (lastGasCost m)).

Definition mem_Resize (size : Z) (m : Memory) : Memory :=
  if len (store m) <? size then MkMemory (store m ++ repeat 0 (Z.to_nat (size - len (store m)))) (lastGasCost m) else m.

Definition mem_GetCopy {E} (offset size : Z) (m : Memory) : outcome E bytes :=
  if size =? 0 then Ok []
  else if offset <? len (store m) then
    if size <? 0 then Panic else slice (store m) offset (offset + size)
  else Ok [].

Definition mem_GetPtr {E} (offset size : Z) (m : Memory) : outcome E bytes :=
  if size =? 0 then Ok []
  else if offset <? len (store m) then slice (store m) offset (offset + size)
  else Ok [].

(** ** Contracts and frames *)

Record Contract := MkContract {
  CallerAddress : bytes;
  c_self : bytes;
  c_analysis : option bitvec;
  c_Code : bytes;
  c_CodeHash : bytes;
  c_Input : bytes;
  c_Gas : Z;
  c_value : Z
}.

(** ContractRef: an account outside the machine or a running contract *)
Inductive ContractRef := AccountRef (a : bytes) | CallerContract (c : Contract).

Definition ref_Address (r : ContractRef) : bytes := match r with AccountRef a => a | CallerContract c => c_self c end.

Definition set_Gas (g : Z) (c : Contract) : Contract :=
  MkContract (CallerAddress c) (c_self c) (c_analysis c) (c_Code c) (c_CodeHash c) (c_Input c) g (c_value c).
Definition set_Input (i : bytes) (c : Contract) : Contract :=
  MkContract (CallerAddress c) (c_self c) (c_analysis c) (c_Code c) (c_CodeHash c) i (c_Gas c) (c_value c).
Definition set_analysis (a : option bitvec) (c : Contract) : Contract :=
  MkContract (CallerAddress c) (c_self c) a (c_Code c) (c_CodeHash c) (c_Input c) (c_Gas c) (c_value c).

Definition NewContract (caller : ContractRef) (object : bytes) (value gas : Z) : Contract :=
  MkContract (ref_Address caller) object None [] zeroHash [] gas value.

(** SetCallCode and SetCodeOptionalHash *)
Definition SetCallCode (hash c : bytes) (k : Contract) : Contract :=
  MkContract (CallerAddress k) (c_self k) (c_analysis k) c hash (c_Input k) (c_Gas k) (c_value k).

(** AsDelegate: caller and value are those of the calling contract. *)
Definition AsDelegate {E} (caller : ContractRef) (k : Contract) : outcome E Contract :=
  match caller with
  | AccountRef _ => Panic
  | CallerContract parent =>
      Ok (MkContract (CallerAddress parent) (c_self k) (c_analysis k) (c_Code k) (c_CodeHash k) (c_Input k) (c_Gas k) (c_value parent))
  end.

Definition UseGas (gas : Z) (c : Contract) : bool * Contract :=
  if c_Gas c <? gas then (false, c) else (true, set_Gas (c_Gas c - gas) c).

(** PrecompiledContract *)
Record PrecompiledContract := MkPrecompiled {
  RequiredGas : bytes → Z;
  p_Run : bytes → bytes * option vm_error
}.

(** BlockContext, TxContext, Config and the precompiled contracts: what does not
    change while the machine runs *)
Record vm_env := MkEnv {
  GetHash : Z → outcome Empty_set bytes;
  Coinbase : bytes;
  GasLimit : Z;
  BlockNumber : Z;
  Time : Z;
  BaseFee : Z;
  Random : bytes;
  Origin : bytes;
  GasPrice : Z;
  ChainID : Z;
  EnablePreimageRecording : bool;
  aborted : bool;
  precompile : bytes → option PrecompiledContract;
  enc_pool : encBuffer
}.

(** ZVM and ZVMInterpreter; [jumpdests] is the map the contracts of a call chain share. *)
Record ZVM (SDB : Type) := MkZVM {
  z_state : SDB;
  depth : Z;
  callGasTemp : Z;
  readOnly : bool;
  returnData : bytes;
  jumpdests : gmap bytes bitvec
}.
Arguments MkZVM {SDB}.
Arguments z_state {SDB}.
Arguments depth {SDB}.
Arguments callGasTemp {SDB}.
Arguments readOnly {SDB}.
Arguments returnData {SDB}.
Arguments jumpdests {SDB}.

Section Frames.
  Context `{UI : Uint256} {SDB : Type}.

Definition with_state (s : SDB) (z : ZVM SDB) : ZVM SDB :=
  MkZVM s (depth z) (callGasTemp z) (readOnly z) (returnData z) (jumpdests z).
Definition with_callGas (g : Z) (z : ZVM SDB) : ZVM SDB :=
  MkZVM (z_state z) (depth z) g (readOnly z) (returnData z) (jumpdests z).
Definition with_returnData (d : bytes) (z : ZVM SDB) : ZVM SDB :=
  MkZVM (z_state z) (depth z) (callGasTemp z) (readOnly z) d (jumpdests z).
Definition with_readOnly (b : bool) (z : ZVM SDB) : ZVM SDB :=
  MkZVM (z_state z) (depth z) (callGasTemp z) b (returnData z) (jumpdests z).
Definition with_depth (d : Z) (z : ZVM SDB) : ZVM SDB :=
  MkZVM (z_state z) d (callGasTemp z) (readOnly z) (returnData z) (jumpdests z).
Definition with_jumpdests (j : gmap bytes bitvec) (z : ZVM SDB) : ZVM SDB :=
  MkZVM (z_state z) (depth z) (callGasTemp z) (readOnly z) (returnData z) j.

(** ScopeContext with the program counter and the machine *)
Record frame := MkFrame {
  f_zvm : ZVM SDB;
  f_pc : Z;
  f_stack : list Int;
  f_mem : Memory;
  f_contract : Contract
}.

(** ** Computations on a frame *)

Definition M (A : Type) : Type := frame → outcome Empty_set (A * frame).

Definition ret {A} (a : A) : M A := fun f => Ok (a, f).
Definition bind {A B} (m : M A) (k : A → M B) : M B := fun f => '(a, f) ← m f; k a f.
Definition lift {A} (o : outcome Empty_set A) : M A := fun f => a ← o; Ok (a, f).
Definition fail {A} : M A := fun _ => Panic.
Definition gets {A} (g : frame → A) : M A := fun f => Ok (g f, f).
Definition upd_zvm (g : ZVM SDB → ZVM SDB) : M unit :=
  fun f => Ok (tt, MkFrame (g (f_zvm f)) (f_pc f) (f_stack f) (f_mem f) (f_contract f)).
Definition set_pc (pc : Z) : M unit := fun f => Ok (tt, MkFrame (f_zvm f) pc (f_stack f) (f_mem f) (f_contract f)).
Definition set_stack (st : list Int) : M unit := fun f => Ok (tt, MkFrame (f_zvm f) (f_pc f) st (f_mem f) (f_contract f)).
Definition set_mem (m : Memory) : M unit := fun f => Ok (tt, MkFrame (f_zvm f) (f_pc f) (f_stack f) m (f_contract f)).
Definition set_contract (c : Contract) : M unit := fun f => Ok (tt, MkFrame (f_zvm f) (f_pc f) (f_stack f) (f_mem f) c).
End Frames.

Declare Scope vm_scope.
Delimit Scope vm_scope with vm.
Notation "x <- m ;; k" := (bind m (fun x => k)) (at level 100, m at next level, right associativity) : vm_scope.
Notation "m ;;; k" := (bind m (fun _ => k)) (at level 100, right associativity) : vm_scope.
Notation "'let!' p := m 'in' k" := (bind m (fun p => k))
  (at level 10, p strict pattern, m at level 200, k at level 200) : vm_scope.

Section Stack.
  Context `{UI : Uint256} {SDB : Type} `{DB : VmStateDB SDB}.
  Local Open Scope vm_scope.

(** ** Stack *)

Definition push (x : Int) : M (SDB := SDB) unit := st <- gets f_stack ;; set_stack (x :: st).

Definition pop : M (SDB := SDB) Int :=
  st <- gets f_stack ;;
  match st with x :: st => set_stack st ;;; ret x | [] => fail end.

(** Back(n), the n'th item; peek() is Back(0). *)
Definition Back (n : nat) : M (SDB := SDB) Int :=
  st <- gets f_stack ;; match st !! n with Some x => ret x | None => fail end.
Definition peek : M (SDB := SDB) Int := Back 0.

(** A write through the pointer of peek. *)
Definition poke (x : Int) : M (SDB := SDB) unit :=
  st <- gets f_stack ;; match st with _ :: st => set_stack (x :: st) | [] => fail end.

Definition dup (n : nat) : M (SDB := SDB) unit := x <- Back (n - 1) ;; push x.

Definition swap (n : nat) : M (SDB := SDB) unit :=
  st <- gets f_stack ;;
  match st !! (n - 1)%nat, st !! 0%nat with
  | Some x, Some y => set_stack (<[0%nat := x]> (<[(n - 1)%nat := y]> st))
  | _, _ => fail
  end.

(** ** Memory and state of the frame *)

Definition Set_ (offset size : Z) (value : bytes) : M (SDB := SDB) unit :=
  m <- gets f_mem ;; m <- lift (mem_Set offset size value m) ;; set_mem m.
Definition Set32 (offset : Z) (val : Int) : M (SDB := SDB) unit :=
  m <- gets f_mem ;; m <- lift (mem_Set32 offset (u_Bytes32 val) m) ;; set_mem m.
Definition GetPtr (offset size : Z) : M (SDB := SDB) bytes := m <- gets f_mem ;; lift (mem_GetPtr offset size m).
Definition GetCopy (offset size : Z) : M (SDB := SDB) bytes := m <- gets f_mem ;; lift (mem_GetCopy offset size m).

(** Calls of the state interface. *)
Definition db_get {A} (g : SDB → A * SDB) : M A :=
  z <- gets f_zvm ;; let '(a, s) := g (z_state z) in upd_zvm (with_state s) ;;; ret a.
Definition db_do (g : SDB → SDB) : M unit := z <- gets f_zvm ;; upd_zvm (with_state (g (z_state z))).
Definition db_try (g : SDB → outcome Empty_set SDB) : M unit :=
  z <- gets f_zvm ;; s <- lift (g (z_state z)) ;; upd_zvm (with_state s).

Definition use_gas (g : Z) : M (SDB := SDB) bool :=
  c <- gets f_contract ;; let '(ok, c) := UseGas g c in set_contract c ;;; ret ok.
Definition add_gas (g : Z) : M (SDB := SDB) unit :=
  c <- gets f_contract ;; set_contract (set_Gas (u64 (c_Gas c + g)) c).
End Stack.
