(* ===== verification/VmGas.v ===== *)
(** * Gas: src/core/vm gas.go, gas_table.go, operations_acl.go, memory_table.go

    The memory an instruction needs and the gas it costs beyond the constant
    part, with the access list and refund changes made while computing it. *)

From S2P Require Import Prelude TrieNode TrieOps StateAccess State StateWorld Uint256 VmAnalysis VmCore.

(** params/protocol_params.go *)
Abbreviation MemoryGas := 3 (only parsing).
Abbreviation QuadCoeffDiv := 512 (only parsing).
Abbreviation CopyGas := 3 (only parsing).
Abbreviation LogGas := 375 (only parsing).
Abbreviation LogTopicGas := 375 (only parsing).
Abbreviation LogDataGas := 8 (only parsing).
Abbreviation Keccak256Gas := 30 (only parsing).
Abbreviation Keccak256WordGas := 6 (only parsing).
Abbreviation InitCodeWordGas := 2 (only parsing).
Abbreviation MaxCodeSize := 24576 (only parsing).
Abbreviation MaxInitCodeSize := (2 * MaxCodeSize) (only parsing).
Abbreviation ExpByteEIP158 := 50 (only parsing).
Abbreviation ExpGas := 10 (only parsing).
Abbreviation CallNewAccountGas := 25000 (only parsing).
Abbreviation CallValueTransferGas := 9000 (only parsing).
Abbreviation CallStipend := 2300 (only parsing).
Abbreviation CreateGas := 32000 (only parsing).
Abbreviation Create2Gas := 32000 (only parsing).
Abbreviation CreateDataGas := 200 (only parsing).
Abbreviation CallCreateDepth := 1024 (only parsing).
Abbreviation StackLimit := 1024 (only parsing).
Abbreviation JumpdestGas := 1 (only parsing).
Abbreviation SstoreSentryGasEIP2200 := 2300 (only parsing).
Abbreviation SstoreSetGasEIP2200 := 20000 (only parsing).
Abbreviation SstoreResetGasEIP2200 := 5000 (only parsing).
Abbreviation ColdAccountAccessCostEIP2929 := 2600 (only parsing).
Abbreviation ColdSloadCostEIP2929 := 2100 (only parsing).
Abbreviation WarmStorageReadCostEIP2929 := 100 (only parsing).
Abbreviation TxAccessListStorageKeyGas := 1900 (only parsing).
Abbreviation SstoreClearsScheduleRefundEIP3529 := (SstoreResetGasEIP2200 - ColdSloadCostEIP2929 + TxAccessListStorageKeyGas) (only parsing).

(** gas.go *)
Abbreviation GasQuickStep := 2 (only parsing).
Abbreviation GasFastestStep := 3 (only parsing).
Abbreviation GasFastStep := 5 (only parsing).
Abbreviation GasMidStep := 8 (only parsing).
Abbreviation GasSlowStep := 10 (only parsing).
Abbreviation GasExtStep := 20 (only parsing).

Section Gas.
  Context `{UI : Uint256} {SDB : Type} `{DB : VmStateDB SDB}.
  Local Open Scope vm_scope.
  Abbreviation M := (M (SDB := SDB)).
  Abbreviation gas_result := (Z * option vm_error)%type.

Definition callGas (availableGas base : Z) (callCost : Int) : Z * option vm_error :=
  let availableGas := u64 (availableGas - base) in
  let gas := availableGas - availableGas / 64 in
  if negb (u_IsUint64 callCost) || (gas <? u_Uint64 callCost) then (gas, None)
  else (u_Uint64 callCost, None).

(** ** Memory sizes *)

Definition calcMemSize64WithUint (off : Int) (length64 : Z) : Z * bool :=
  if length64 =? 0 then (0, false)
  else
    let '(offset64, overflow) := u_Uint64WithOverflow off in
    if overflow then (0, true)
    else let val := u64 (offset64 + length64) in (val, val <? offset64).

Definition calcMemSize64 (off l : Int) : Z * bool :=
  if negb (u_IsUint64 l) then (0, true) else calcMemSize64WithUint off (u_Uint64 l).

(** memorySizeFunc: from the stack *)
Abbreviation memorySizeFunc := (list Int → outcome Empty_set (Z * bool)).

Definition stack_Back (st : list Int) (n : nat) : outcome Empty_set Int := match st !! n with Some x => Ok x | None => Panic end.

Definition mem_at (i j : nat) : memorySizeFunc := fun st => off ← stack_Back st i; l ← stack_Back st j; Ok (calcMemSize64 off l).
Definition mem_word (n : Z) : memorySizeFunc := fun st => off ← stack_Back st 0; Ok (calcMemSize64WithUint off n).

Definition memoryKeccak256 : memorySizeFunc := mem_at 0 1.
Definition memoryCallDataCopy : memorySizeFunc := mem_at 0 2.
Definition memoryReturnDataCopy : memorySizeFunc := mem_at 0 2.
Definition memoryCodeCopy : memorySizeFunc := mem_at 0 2.
Definition memoryExtCodeCopy : memorySizeFunc := mem_at 1 3.
Definition memoryMLoad : memorySizeFunc := mem_word 32.
Definition memoryMStore8 : memorySizeFunc := mem_word 1.
Definition memoryMStore : memorySizeFunc := mem_word 32.
Definition memoryCreate : memorySizeFunc := mem_at 1 2.
Definition memoryCreate2 : memorySizeFunc := mem_at 1 2.
Definition memoryReturn : memorySizeFunc := mem_at 0 1.
Definition memoryRevert : memorySizeFunc := mem_at 0 1.
Definition memoryLog : memorySizeFunc := mem_at 0 1.

(** The larger of two regions. *)
Definition mem_max (a b c d : nat) : memorySizeFunc := fun st =>
  '(x, overflow) ← mem_at a b st;
  if overflow : bool then Ok (0, true)
  else
    '(y, overflow) ← mem_at c d st;
    if overflow : bool then Ok (0, true)
    else Ok (if y <? x then (x, false) else (y, false)).

Definition memoryCall : memorySizeFunc := mem_max 5 6 3 4.
Definition memoryDelegateCall : memorySizeFunc := mem_max 4 5 2 3.
Definition memoryStaticCall : memorySizeFunc := mem_max 4 5 2 3.

(** ** Dynamic gas *)

(** if err != nil { return 0, err } *)
Definition or_err (m : M gas_result) (k : Z → M gas_result) : M gas_result :=
  let! (g, err) := m in match err with Some e => ret (0, Some e) | None => k g end.

(** if ... overflow { return 0, ErrGasUintOverflow } *)
Definition or_overflow (v : Z * bool) (k : Z → M gas_result) : M gas_result :=
  let '(x, overflow) := v in if overflow : bool then ret (0, Some ErrGasUintOverflow) else k x.

Definition memoryGasCost (newMemSize : Z) : M gas_result :=
  if newMemSize =? 0 then ret (0, None)
  else if 0x1FFFFFFFE0 <? newMemSize then ret (0, Some ErrGasUintOverflow)
  else
    let newMemSizeWords := toWordSize newMemSize in
    let newMemSize := u64 (newMemSizeWords * 32) in
    mem <- gets f_mem ;;
    if len (store mem) <? newMemSize then
      let square := u64 (newMemSizeWords * newMemSizeWords) in
      let linCoef := u64 (newMemSizeWords * MemoryGas) in
      let quadCoef := square / QuadCoeffDiv in
      let newTotalFee := u64 (linCoef + quadCoef) in
      let fee := u64 (newTotalFee - lastGasCost mem) in
      set_mem (MkMemory (store mem) newTotalFee) ;;; ret (fee, None)
    else ret (0, None).

Definition memoryCopierGas (stackpos : nat) (memorySize : Z) : M gas_result :=
  or_err (memoryGasCost memorySize) (fun gas =>
  words <- Back stackpos ;;
  or_overflow (u_Uint64WithOverflow words) (fun words =>
  or_overflow (SafeMul (toWordSize words) CopyGas) (fun words =>
  or_overflow (SafeAdd gas words) (fun gas => ret (gas, None))))).

Definition gasCallDataCopy : Z → M gas_result := memoryCopierGas 2.
Definition gasCodeCopy : Z → M gas_result := memoryCopierGas 2.
Definition gasExtCodeCopy : Z → M gas_result := memoryCopierGas 3.
Definition gasReturnDataCopy : Z → M gas_result := memoryCopierGas 2.

Definition makeGasLog (n memorySize : Z) : M gas_result :=
  requestedSize <- Back 1 ;;
  or_overflow (u_Uint64WithOverflow requestedSize) (fun requestedSize =>
  or_err (memoryGasCost memorySize) (fun gas =>
  or_overflow (SafeAdd gas LogGas) (fun gas =>
  or_overflow (SafeAdd gas (u64 (n * LogTopicGas))) (fun gas =>
  or_overflow (SafeMul requestedSize LogDataGas) (fun memorySizeGas =>
  or_overflow (SafeAdd gas memorySizeGas) (fun gas => ret (gas, None))))))).

Definition gasKeccak256 (memorySize : Z) : M gas_result :=
  or_err (memoryGasCost memorySize) (fun gas =>
  wordGas <- Back 1 ;;
  or_overflow (u_Uint64WithOverflow wordGas) (fun wordGas =>
  or_overflow (SafeMul (toWordSize wordGas) Keccak256WordGas) (fun wordGas =>
  or_overflow (SafeAdd gas wordGas) (fun gas => ret (gas, None))))).

Definition pureMemoryGascost (memorySize : Z) : M gas_result := memoryGasCost memorySize.

Definition gasCreateEip3860 (memorySize : Z) : M gas_result :=
  or_err (memoryGasCost memorySize) (fun gas =>
  size <- Back 2 ;;
  let '(size, overflow) := u_Uint64WithOverflow size in
  if overflow || (MaxInitCodeSize <? size) then ret (0, Some ErrGasUintOverflow)
  else
    let moreGas := u64 (InitCodeWordGas * ((size + 31) / 32)) in
    or_overflow (SafeAdd gas moreGas) (fun gas => ret (gas, None))).

Definition gasCreate2Eip3860 (memorySize : Z) : M gas_result :=
  or_err (memoryGasCost memorySize) (fun gas =>
  size <- Back 2 ;;
  let '(size, overflow) := u_Uint64WithOverflow size in
  if overflow || (MaxInitCodeSize <? size) then ret (0, Some ErrGasUintOverflow)
  else
    let moreGas := u64 ((InitCodeWordGas + Keccak256WordGas) * ((size + 31) / 32)) in
    or_overflow (SafeAdd gas moreGas) (fun gas => ret (gas, None))).

Definition gasExpEIP158 (memorySize : Z) : M gas_result :=
  x <- Back 1 ;;
  let expByteLen := (u_BitLen x + 7) / 8 in
  let gas := u64 (expByteLen * ExpByteEIP158) in
  or_overflow (SafeAdd gas ExpGas) (fun gas => ret (gas, None)).

(** The end of the three call functions: memory and the gas handed on. *)
Definition gas_and_callGas (gas : Z) : M gas_result :=
  contract <- gets f_contract ;;
  requested <- Back 0 ;;
  let '(temp, err) := callGas (c_Gas contract) gas requested in
  upd_zvm (with_callGas temp) ;;;
  match err with
  | Some e => ret (0, Some e)
  | None => or_overflow (SafeAdd gas temp) (fun gas => ret (gas, None))
  end.

Definition gasCall (memorySize : Z) : M gas_result :=
  value <- Back 2 ;;
  a <- Back 1 ;;
  let transfersValue := negb (u_IsZero value) in
  let address := u_Bytes20 a in
  emptied <- (if transfersValue then db_get (db_Empty address) else ret false) ;;
  let gas := if transfersValue && emptied then CallNewAccountGas else 0 in
  let gas := if transfersValue then u64 (gas + CallValueTransferGas) else gas in
  or_err (memoryGasCost memorySize) (fun memoryGas =>
  or_overflow (SafeAdd gas memoryGas) (fun gas => gas_and_callGas gas)).

Definition gasDelegateCall (memorySize : Z) : M gas_result := or_err (memoryGasCost memorySize) gas_and_callGas.
Definition gasStaticCall (memorySize : Z) : M gas_result := or_err (memoryGasCost memorySize) gas_and_callGas.

(** ** Access lists *)

(** The cases of makeGasSStoreFunc for a new value *)
Definition sstore_cost (clearingRefund cost : Z) (current value original : bytes) : M gas_result :=
  if bool_decide (original = current) then
    if bool_decide (original = zeroHash) then ret (u64 (cost + SstoreSetGasEIP2200), None)
    else
      (if bool_decide (value = zeroHash) then db_do (db_AddRefund clearingRefund) else ret tt) ;;;
      ret (u64 (cost + (SstoreResetGasEIP2200 - ColdSloadCostEIP2929)), None)
  else
    (if negb (bool_decide (original = zeroHash)) then
       if bool_decide (current = zeroHash) then db_try (db_SubRefund clearingRefund)
       else if bool_decide (value = zeroHash) then db_do (db_AddRefund clearingRefund)
       else ret tt
     else ret tt) ;;;
    (if bool_decide (original = value) then
       if bool_decide (original = zeroHash)
       then db_do (db_AddRefund (SstoreSetGasEIP2200 - WarmStorageReadCostEIP2929))
       else db_do (db_AddRefund (SstoreResetGasEIP2200 - ColdSloadCostEIP2929 - WarmStorageReadCostEIP2929))
     else ret tt) ;;;
    ret (u64 (cost + WarmStorageReadCostEIP2929), None).

Definition makeGasSStoreFunc (clearingRefund memorySize : Z) : M gas_result :=
  contract <- gets f_contract ;;
  if c_Gas contract <=? SstoreSentryGasEIP2200 then ret (0, Some ErrReentrancySentry)
  else
    y <- Back 1 ;;
    x <- peek ;;
    let self := c_self contract in
    let slot := u_Bytes32 x in
    current <- db_get (db_GetState self slot) ;;
    z <- gets f_zvm ;;
    let! (addrPresent, slotPresent) := lift (db_SlotInAccessList self slot (z_state z)) in
    cost <- (if negb slotPresent then
               db_try (db_AddSlotToAccessList self slot) ;;;
               if negb addrPresent then fail else ret ColdSloadCostEIP2929
             else ret 0) ;;
    let value := u_Bytes32 y in
    if bool_decide (current = value) then ret (u64 (cost + WarmStorageReadCostEIP2929), None)
    else
      original <- db_get (db_GetCommittedState self slot) ;;
      sstore_cost clearingRefund cost current value original.

Definition gasSStoreEIP3529 : Z → M gas_result := makeGasSStoreFunc SstoreClearsScheduleRefundEIP3529.

Definition gasSLoadEIP2929 (memorySize : Z) : M gas_result :=
  loc <- peek ;;
  let slot := u_Bytes32 loc in
  contract <- gets f_contract ;;
  z <- gets f_zvm ;;
  let! (_, slotPresent) := lift (db_SlotInAccessList (c_self contract) slot (z_state z)) in
  if negb slotPresent then
    db_try (db_AddSlotToAccessList (c_self contract) slot) ;;; ret (ColdSloadCostEIP2929, None)
  else ret (WarmStorageReadCostEIP2929, None).

Definition gasExtCodeCopyEIP2929 (memorySize : Z) : M gas_result :=
  or_err (gasExtCodeCopy memorySize) (fun gas =>
  a <- peek ;;
  let addr := u_Bytes20 a in
  z <- gets f_zvm ;;
  if negb (db_AddressInAccessList addr (z_state z)) then
    db_do (db_AddAddressToAccessList addr) ;;;
    or_overflow (SafeAdd gas (ColdAccountAccessCostEIP2929 - WarmStorageReadCostEIP2929)) (fun gas => ret (gas, None))
  else ret (gas, None)).

Definition gasEip2929AccountCheck (memorySize : Z) : M gas_result :=
  a <- peek ;;
  let addr := u_Bytes20 a in
  z <- gets f_zvm ;;
  if negb (db_AddressInAccessList addr (z_state z)) then
    db_do (db_AddAddressToAccessList addr) ;;;
    ret (ColdAccountAccessCostEIP2929 - WarmStorageReadCostEIP2929, None)
  else ret (0, None).

Definition makeCallVariantGasCallEIP2929 (oldCalculator : Z → M gas_result) (memorySize : Z) : M gas_result :=
  a <- Back 1 ;;
  let addr := u_Bytes20 a in
  z <- gets f_zvm ;;
  let warmAccess := db_AddressInAccessList addr (z_state z) in
  let coldCost := ColdAccountAccessCostEIP2929 - WarmStorageReadCostEIP2929 in
  paid <- (if negb warmAccess then db_do (db_AddAddressToAccessList addr) ;;; use_gas coldCost else ret true) ;;
  if negb paid then ret (0, Some ErrOutOfGas)
  else
    let! (gas, err) := oldCalculator memorySize in
    match err with
    | Some e => ret (gas, Some e)
    | None =>
        if warmAccess then ret (gas, None)
        else add_gas coldCost ;;; ret (u64 (gas + coldCost), None)
    end.

Definition gasCallEIP2929 : Z → M gas_result := makeCallVariantGasCallEIP2929 gasCall.
Definition gasDelegateCallEIP2929 : Z → M gas_result := makeCallVariantGasCallEIP2929 gasDelegateCall.
Definition gasStaticCallEIP2929 : Z → M gas_result := makeCallVariantGasCallEIP2929 gasStaticCall.
End Gas.
