(* ===== verification/VmInstr.v ===== *)
(** * Instructions: src/core/vm/instructions.go, eips.go, contract.go (jump
    destinations) and the calls of zvm.go

    One definition per instruction.  An instruction returns the data and the error
    of the Go function ([nil] data is the empty list); writes through the pointer of
    peek are [poke].  The calls take the interpreter's Run as an argument, which
    VmInterp supplies. *)

From S2P Require Import Prelude RlpEncode TrieNode TrieOps StateAccess State StateWorld Uint256 VmAnalysis VmCore VmGas.

Section Instructions.
  Context `{UI : Uint256} {SDB : Type} `{DB : VmStateDB SDB} `{HK : Hasher} (env : vm_env).
  Local Open Scope vm_scope.
  Abbreviation M := (M (SDB := SDB)).
  Abbreviation exec := (M (bytes * option vm_error)).
  Abbreviation zvm := (ZVM SDB).

(** return nil, nil *)
Definition done_ : exec := ret ([], None).

(** x, y := pop(), peek(); the result replaces y *)
Definition binary (f : Int → Int → Int) : exec := x <- pop ;; y <- peek ;; poke (f x y) ;;; done_.
Definition unary (f : Int → Int) : exec := x <- peek ;; poke (f x) ;;; done_.
Definition of_bool (b : bool) : Int := if b then u_one else u_zero.
Definition push_val (x : Int) : exec := push x ;;; done_.

Definition opAdd : exec := binary u_Add.
Definition opSub : exec := binary u_Sub.
Definition opMul : exec := binary u_Mul.
Definition opDiv : exec := binary u_Div.
Definition opSdiv : exec := binary u_SDiv.
Definition opMod : exec := binary u_Mod.
Definition opSmod : exec := binary u_SMod.
Definition opExp : exec := binary u_Exp.
Definition opSignExtend : exec := binary (fun back num => u_ExtendSign num back).
Definition opNot : exec := unary u_Not.
Definition opLt : exec := binary (fun x y => of_bool (u_Lt x y)).
Definition opGt : exec := binary (fun x y => of_bool (u_Gt x y)).
Definition opSlt : exec := binary (fun x y => of_bool (u_Slt x y)).
Definition opSgt : exec := binary (fun x y => of_bool (u_Sgt x y)).
Definition opEq : exec := binary (fun x y => of_bool (u_Eq x y)).
Definition opIszero : exec := unary (fun x => of_bool (u_IsZero x)).
Definition opAnd : exec := binary u_And.
Definition opOr : exec := binary u_Or.
Definition opXor : exec := binary u_Xor.
Definition opByte : exec := binary (fun th val => u_Byte val th).

Definition opAddmod : exec :=
  x <- pop ;; y <- pop ;; z <- peek ;;
  poke (if u_IsZero z then u_zero else u_AddMod x y z) ;;; done_.

Definition opMulmod : exec := x <- pop ;; y <- pop ;; z <- peek ;; poke (u_MulMod x y z) ;;; done_.

Definition opSHL : exec :=
  binary (fun shift value => if u_LtUint64 shift 256 then u_Lsh value (u_Uint64 shift) else u_zero).
Definition opSHR : exec :=
  binary (fun shift value => if u_LtUint64 shift 256 then u_Rsh value (u_Uint64 shift) else u_zero).
Definition opSAR : exec :=
  binary (fun shift value =>
    if u_GtUint64 shift 256 then if 0 <=? u_Sign value then u_zero else u_allOne
    else u_SRsh value (u_Uint64 shift)).

Definition opKeccak256 : exec :=
  offset <- pop ;; size <- peek ;;
  data <- GetPtr (int64 (u_Uint64 offset)) (int64 (u_Uint64 size)) ;;
  let h := sum256 data in
  (if EnablePreimageRecording env then db_do (db_AddPreimage h data) else ret tt) ;;;
  poke (u_SetBytes h) ;;; done_.

(** ** Environment *)

Definition opAddress : exec := c <- gets f_contract ;; push_val (u_SetBytes (c_self c)).

Definition opBalance : exec :=
  slot <- peek ;; b <- db_get (db_GetBalance (u_Bytes20 slot)) ;; poke (u_FromBig b) ;;; done_.

Definition opOrigin : exec := push_val (u_SetBytes (Origin env)).
Definition opCaller : exec := c <- gets f_contract ;; push_val (u_SetBytes (CallerAddress c)).
Definition opCallValue : exec := c <- gets f_contract ;; push_val (u_FromBig (c_value c)).

Definition opCallDataLoad : exec :=
  x <- peek ;;
  let '(offset, overflow) := u_Uint64WithOverflow x in
  if negb overflow then
    c <- gets f_contract ;; data <- lift (getData (c_Input c) offset 32) ;; poke (u_SetBytes data) ;;; done_
  else poke u_zero ;;; done_.

Definition opCallDataSize : exec := c <- gets f_contract ;; push_val (u_SetUint64 (len (c_Input c))).

(** An offset that does not fit a uint64 lies beyond all data. *)
Definition offset_or_max (x : Int) : Z := let '(o, overflow) := u_Uint64WithOverflow x in if overflow then MaxUint64 else o.

(** The three copies to memory *)
Definition copy_to_memory (source : M bytes) : exec :=
  memOffset <- pop ;; dataOffset <- pop ;; length <- pop ;;
  src <- source ;;
  data <- lift (getData src (offset_or_max dataOffset) (u_Uint64 length)) ;;
  Set_ (u_Uint64 memOffset) (u_Uint64 length) data ;;; done_.

Definition opCallDataCopy : exec := copy_to_memory (gets (fun f => c_Input (f_contract f))).

Definition opReturnDataSize : exec := z <- gets f_zvm ;; push_val (u_SetUint64 (len (returnData z))).

Definition opReturnDataCopy : exec :=
  memOffset <- pop ;; dataOffset <- pop ;; length <- pop ;;
  let '(offset64, overflow) := u_Uint64WithOverflow dataOffset in
  if overflow then ret ([], Some ErrReturnDataOutOfBounds)
  else
    let '(end64, overflow) := u_Uint64WithOverflow (u_Add dataOffset length) in
    z <- gets f_zvm ;;
    if overflow || (len (returnData z) <? end64) then ret ([], Some ErrReturnDataOutOfBounds)
    else
      data <- lift (slice (returnData z) offset64 end64) ;;
      Set_ (u_Uint64 memOffset) (u_Uint64 length) data ;;; done_.

Definition opExtCodeSize : exec :=
  slot <- peek ;; n <- db_get (db_GetCodeSize (u_Bytes20 slot)) ;; poke (u_SetUint64 n) ;;; done_.

Definition opCodeSize : exec := c <- gets f_contract ;; push_val (u_SetUint64 (len (c_Code c))).
Definition opCodeCopy : exec := copy_to_memory (gets (fun f => c_Code (f_contract f))).

Definition opExtCodeCopy : exec := a <- pop ;; copy_to_memory (db_get (db_GetCode (u_Bytes20 a))).

Definition opExtCodeHash : exec :=
  slot <- peek ;;
  let address := u_Bytes20 slot in
  emptied <- db_get (db_Empty address) ;;
  if emptied : bool then poke u_zero ;;; done_
  else h <- db_get (db_GetCodeHash address) ;; poke (u_SetBytes h) ;;; done_.

Definition opGasprice : exec := push_val (u_FromBig (GasPrice env)).

Definition opBlockhash : exec :=
  num <- peek ;;
  let '(num64, overflow) := u_Uint64WithOverflow num in
  if overflow then poke u_zero ;;; done_
  else
    let upper := u64 (BlockNumber env) in
    let lower := if upper <? 257 then 0 else upper - 256 in
    (if (lower <=? num64) && (num64 <? upper) then h <- lift (GetHash env num64) ;; poke (u_SetBytes h) else poke u_zero) ;;; done_.

Definition opCoinbase : exec := push_val (u_SetBytes (Coinbase env)).
Definition opTimestamp : exec := push_val (u_SetUint64 (Time env)).
Definition opNumber : exec := push_val (u_FromBig (BlockNumber env)).
Definition opRandom : exec := push_val (u_SetBytes (Random env)).
Definition opGasLimit : exec := push_val (u_SetUint64 (GasLimit env)).

(** eips.go *)
Definition opSelfBalance : exec :=
  c <- gets f_contract ;; b <- db_get (db_GetBalance (c_self c)) ;; push_val (u_FromBig b).
Definition opChainID : exec := push_val (u_FromBig (ChainID env)).
Definition opBaseFee : exec := push_val (u_FromBig (BaseFee env)).
Definition opPush0 : exec := push_val u_zero.

(** ** Stack, memory and storage *)

Definition opPop : exec := _ <- pop ;; done_.

Definition opMload : exec :=
  v <- peek ;; d <- GetPtr (int64 (u_Uint64 v)) 32 ;; poke (u_SetBytes d) ;;; done_.
Definition opMstore : exec := mStart <- pop ;; val <- pop ;; Set32 (u_Uint64 mStart) val ;;; done_.
Definition opMstore8 : exec :=
  off <- pop ;; val <- pop ;;
  m <- gets f_mem ;;
  st <- lift (set_at (store m) (u_Uint64 off) (u8 (u_Uint64 val))) ;;
  set_mem (MkMemory st (lastGasCost m)) ;;; done_.

Definition opSload : exec :=
  loc <- peek ;; c <- gets f_contract ;;
  val <- db_get (db_GetState (c_self c) (u_Bytes32 loc)) ;; poke (u_SetBytes val) ;;; done_.

(** if interpreter.readOnly { return nil, ErrWriteProtection } *)
Definition write_protected (k : exec) : exec :=
  z <- gets f_zvm ;; if readOnly z then ret ([], Some ErrWriteProtection) else k.

Definition opSstore : exec :=
  write_protected (
    loc <- pop ;; val <- pop ;; c <- gets f_contract ;;
    db_do (db_SetState (c_self c) (u_Bytes32 loc) (u_Bytes32 val)) ;;; done_).

Definition opPc : exec := pc <- gets f_pc ;; push_val (u_SetUint64 pc).
Definition opMsize : exec := m <- gets f_mem ;; push_val (u_SetUint64 (len (store m))).
Definition opGas : exec := c <- gets f_contract ;; push_val (u_SetUint64 (c_Gas c)).

(** ** Jumps *)

Definition isCode (udest : Z) : M bool :=
  c <- gets f_contract ;;
  match c_analysis c with
  | Some analysis => lift (codeSegment analysis udest)
  | None =>
      if negb (bool_decide (c_CodeHash c = zeroHash)) then
        z <- gets f_zvm ;;
        analysis <- (match jumpdests z !! c_CodeHash c with
                     | Some a => ret a
                     | None =>
                         a <- lift (codeBitmap (c_Code c)) ;;
                         upd_zvm (fun z => with_jumpdests (<[c_CodeHash c := a]> (jumpdests z)) z) ;;; ret a
                     end) ;;
        set_contract (set_analysis (Some analysis) c) ;;; lift (codeSegment analysis udest)
      else
        a <- lift (codeBitmap (c_Code c)) ;;
        set_contract (set_analysis (Some a) c) ;;; lift (codeSegment a udest)
  end.

Definition validJumpdest (dest : Int) : M bool :=
  c <- gets f_contract ;;
  let '(udest, overflow) := u_Uint64WithOverflow dest in
  if overflow || (len (c_Code c) <=? udest) then ret false
  else
    b <- lift (at_ (c_Code c) udest) ;;
    if negb (b =? JUMPDEST) then ret false else isCode udest.

(** *pc = pos.Uint64() - 1 for a valid destination *)
Definition jump_to (pos : Int) : exec :=
  valid <- validJumpdest pos ;;
  if negb valid then ret ([], Some ErrInvalidJump)
  else set_pc (u64 (u_Uint64 pos - 1)) ;;; done_.

Definition opJump : exec := if aborted env then ret ([], Some errStopToken) else pos <- pop ;; jump_to pos.

Definition opJumpi : exec :=
  if aborted env then ret ([], Some errStopToken)
  else pos <- pop ;; cond <- pop ;; if negb (u_IsZero cond) then jump_to pos else done_.

Definition opJumpdest : exec := done_.

(** ** Halting *)

Definition opReturn : exec :=
  offset <- pop ;; size <- pop ;;
  d <- GetPtr (int64 (u_Uint64 offset)) (int64 (u_Uint64 size)) ;; ret (d, Some errStopToken).

Definition opRevert : exec :=
  offset <- pop ;; size <- pop ;;
  d <- GetPtr (int64 (u_Uint64 offset)) (int64 (u_Uint64 size)) ;;
  upd_zvm (with_returnData d) ;;; ret (d, Some ErrExecutionReverted).

Definition opUndefined : exec :=
  c <- gets f_contract ;; pc <- gets f_pc ;;
  op <- lift (at_ (c_Code c) pc) ;; ret ([], Some (ErrInvalidOpCode op)).

Definition opStop : exec := ret ([], Some errStopToken).

(** ** Logs, pushes, duplications and swaps *)

Fixpoint pop_topics (size : nat) : M (list bytes) :=
  match size with
  | O => ret []
  | S size => a <- pop ;; topics <- pop_topics size ;; ret (u_Bytes32 a :: topics)
  end.

Definition makeLog (size : nat) : exec :=
  write_protected (
    mStart <- pop ;; mSize <- pop ;;
    topics <- pop_topics size ;;
    d <- GetCopy (int64 (u_Uint64 mStart)) (int64 (u_Uint64 mSize)) ;;
    c <- gets f_contract ;;
    db_do (db_AddLog (MkLog (c_self c) topics d (u64 (BlockNumber env)) zeroHash 0 zeroHash 0)) ;;; done_).

Definition opPush1 : exec :=
  c <- gets f_contract ;; pc <- gets f_pc ;;
  let pc := u64 (pc + 1) in
  set_pc pc ;;;
  if pc <? len (c_Code c) then b <- lift (at_ (c_Code c) pc) ;; push_val (u_SetUint64 b) else push_val u_zero.

Definition makePush (size pushByteSize : Z) : exec :=
  c <- gets f_contract ;; pc <- gets f_pc ;;
  let codeLen := len (c_Code c) in
  let startMin := if int64 (u64 (pc + 1)) <? codeLen then int64 (u64 (pc + 1)) else codeLen in
  let endMin := if startMin + pushByteSize <? codeLen then startMin + pushByteSize else codeLen in
  d <- lift (slice (c_Code c) startMin endMin) ;;
  push (u_SetBytes (RightPadBytes d pushByteSize)) ;;;
  set_pc (u64 (pc + size)) ;;; done_.

Definition makeDup (size : nat) : exec := dup size ;;; done_.
Definition makeSwap (size : nat) : exec := swap (size + 1) ;;; done_.
End Instructions.
