(* ===== verification/VmInterp.v ===== *)
(** * The interpreter: src/core/vm/zvm.go, interpreter.go, jump_table.go, stack_table.go

    Calls, contract creation, the instructions that use them, the instruction table
    and the main loop.  Run and the calls are mutually recursive through the
    instructions: everything that calls takes Run as an argument, and [loop] closes
    the recursion.  One unit of fuel is one iteration of the main loop of some frame;
    [OutOfFuel] is not a result of the Go code, and VmSafety shows that the gas of
    the call bounds the fuel needed.  Tracer hooks are not modelled. *)

From S2P Require Import Prelude RlpRaw RlpEncode TrieNode TrieOps StateAccess State StateWorld Uint256 VmAnalysis VmCore VmGas VmInstr.

(** crypto.CreateAddress and CreateAddress2; the error of the encoder is dropped. *)
Definition CreateAddress `{Hasher} (pooled : encBuffer) (b : bytes) (nonce : Z) : outcome Empty_set bytes :=
  match EncodeToBytes pooled (VSlice false [VInterface (Some (VByteArray b)); VInterface (Some (VUint nonce))]) with
  | Ok data => Ok (BytesToAddress (drop 12 (sum256 data)))
  | Err _ => Ok (BytesToAddress (drop 12 (sum256 [])))
  | Panic => Panic
  | OutOfFuel => OutOfFuel
  end.

Definition CreateAddress2 `{Hasher} (b salt inithash : bytes) : bytes :=
  BytesToAddress (drop 12 (sum256 ([0xff] ++ b ++ salt ++ inithash))).

Definition RunPrecompiledContract (p : PrecompiledContract) (input : bytes) (suppliedGas : Z) : bytes * Z * option vm_error :=
  let gasCost := RequiredGas p input in
  if suppliedGas <? gasCost then ([], 0, Some ErrOutOfGas)
  else let '(output, err) := p_Run p input in (output, suppliedGas - gasCost, err).

Definition is_precompile (p : option PrecompiledContract) : bool := match p with Some _ => true | None => false end.

(** err == nil *)
Definition no_error (e : option vm_error) : bool := match e with None => true | Some _ => false end.

(** opcodes.go *)
Abbreviation STOP := 0x0 (only parsing).
Abbreviation ADD := 0x1 (only parsing).
Abbreviation MUL := 0x2 (only parsing).
Abbreviation SUB := 0x3 (only parsing).
Abbreviation DIV := 0x4 (only parsing).
Abbreviation SDIV := 0x5 (only parsing).
Abbreviation MOD := 0x6 (only parsing).
Abbreviation SMOD := 0x7 (only parsing).
Abbreviation ADDMOD := 0x8 (only parsing).
Abbreviation MULMOD := 0x9 (only parsing).
Abbreviation EXP := 0xa (only parsing).
Abbreviation SIGNEXTEND := 0xb (only parsing).
Abbreviation LT := 0x10 (only parsing).
Abbreviation GT := 0x11 (only parsing).
Abbreviation SLT := 0x12 (only parsing).
Abbreviation SGT := 0x13 (only parsing).
Abbreviation EQ := 0x14 (only parsing).
Abbreviation ISZERO := 0x15 (only parsing).
Abbreviation AND := 0x16 (only parsing).
Abbreviation OR := 0x17 (only parsing).
Abbreviation XOR := 0x18 (only parsing).
Abbreviation NOT := 0x19 (only parsing).
Abbreviation BYTE := 0x1a (only parsing).
Abbreviation SHL := 0x1b (only parsing).
Abbreviation SHR := 0x1c (only parsing).
Abbreviation SAR := 0x1d (only parsing).
Abbreviation KECCAK256 := 0x20 (only parsing).
Abbreviation ADDRESS := 0x30 (only parsing).
Abbreviation BALANCE := 0x31 (only parsing).
Abbreviation ORIGIN := 0x32 (only parsing).
Abbreviation CALLER := 0x33 (only parsing).
Abbreviation CALLVALUE := 0x34 (only parsing).
Abbreviation CALLDATALOAD := 0x35 (only parsing).
Abbreviation CALLDATASIZE := 0x36 (only parsing).
Abbreviation CALLDATACOPY := 0x37 (only parsing).
Abbreviation CODESIZE := 0x38 (only parsing).
Abbreviation CODECOPY := 0x39 (only parsing).
Abbreviation GASPRICE := 0x3a (only parsing).
Abbreviation EXTCODESIZE := 0x3b (only parsing).
Abbreviation EXTCODECOPY := 0x3c (only parsing).
Abbreviation RETURNDATASIZE := 0x3d (only parsing).
Abbreviation RETURNDATACOPY := 0x3e (only parsing).
Abbreviation EXTCODEHASH := 0x3f (only parsing).
Abbreviation BLOCKHASH := 0x40 (only parsing).
Abbreviation COINBASE := 0x41 (only parsing).
Abbreviation TIMESTAMP := 0x42 (only parsing).
Abbreviation NUMBER := 0x43 (only parsing).
Abbreviation PREVRANDAO := 0x44 (only parsing).
Abbreviation GASLIMIT := 0x45 (only parsing).
Abbreviation CHAINID := 0x46 (only parsing).
Abbreviation SELFBALANCE := 0x47 (only parsing).
Abbreviation BASEFEE := 0x48 (only parsing).
Abbreviation POP := 0x50 (only parsing).
Abbreviation MLOAD := 0x51 (only parsing).
Abbreviation MSTORE := 0x52 (only parsing).
Abbreviation MSTORE8 := 0x53 (only parsing).
Abbreviation SLOAD := 0x54 (only parsing).
Abbreviation SSTORE := 0x55 (only parsing).
Abbreviation JUMP := 0x56 (only parsing).
Abbreviation JUMPI := 0x57 (only parsing).
Abbreviation PC := 0x58 (only parsing).
Abbreviation MSIZE := 0x59 (only parsing).
Abbreviation GAS := 0x5a (only parsing).
Abbreviation PUSH0 := 0x5f (only parsing).
Abbreviation DUP1 := 0x80 (only parsing).
Abbreviation SWAP1 := 0x90 (only parsing).
Abbreviation LOG0 := 0xa0 (only parsing).
Abbreviation CREATE := 0xf0 (only parsing).
Abbreviation CALL := 0xf1 (only parsing).
Abbreviation RETURN := 0xf3 (only parsing).
Abbreviation DELEGATECALL := 0xf4 (only parsing).
Abbreviation CREATE2 := 0xf5 (only parsing).
Abbreviation STATICCALL := 0xfa (only parsing).
Abbreviation REVERT := 0xfd (only parsing).

Section Interpreter.
  Context `{UI : Uint256} {SDB : Type} `{DB : VmStateDB SDB} `{HK : Hasher} (env : vm_env).
  Local Open Scope vm_scope.
  Abbreviation M := (M (SDB := SDB)).
  Abbreviation exec := (M (bytes * option vm_error)).
  Abbreviation zvm := (ZVM SDB).

(** interpreter.Run(contract, input, readOnly): also the contract, whose gas the caller reads *)
Definition runner : Type := Contract → bytes → bool → zvm → outcome Empty_set (bytes * option vm_error * Contract * zvm).

(** core/zvm.go *)
Definition CanTransfer (addr : bytes) (amount : Z) (s : SDB) : bool * SDB :=
  let '(b, s) := db_GetBalance addr s in (amount <=? b, s).

Definition Transfer (sender recipient : bytes) (amount : Z) (s : SDB) : SDB :=
  db_AddBalance recipient amount (db_SubBalance sender amount s).

(** The map of analyses in NewContract: the caller's, or a new one. *)
Definition inherit_jumpdests (caller : ContractRef) (z : zvm) : zvm :=
  match caller with CallerContract _ => z | AccountRef _ => with_jumpdests ∅ z end.

Section Calls.
  Context (run : runner).

(** The end of the three calls: an error reverts, and takes the gas if it is not ErrExecutionReverted. *)
Definition finish_call (snapshot : Z) (res : bytes) (gas : Z) (err : option vm_error) (z : zvm)
    : outcome Empty_set (bytes * Z * option vm_error * zvm) :=
  match err with
  | Some _ =>
      s ← db_RevertToSnapshot snapshot (z_state z);
      Ok (res, if is_reverted err then gas else 0, err, with_state s z)
  | None => Ok (res, gas, err, z)
  end.

Definition Call (caller : ContractRef) (addr input : bytes) (gas value : Z) (z : zvm)
    : outcome Empty_set (bytes * Z * option vm_error * zvm) :=
  if CallCreateDepth <? depth z then Ok ([], gas, Some ErrDepth, z)
  else
    let '(can, s) := if negb (value =? 0) then CanTransfer (ref_Address caller) value (z_state z) else (true, z_state z) in
    if negb can then Ok ([], gas, Some ErrInsufficientBalance, with_state s z)
    else
      let '(snapshot, s) := db_Snapshot s in
      let p := precompile env addr in
      let '(existing, s) := db_Exist addr s in
      if negb existing && negb (is_precompile p) && (value =? 0) then Ok ([], gas, None, with_state s z)
      else
        let s := if negb existing then db_CreateAccount addr s else s in
        let s := Transfer (ref_Address caller) addr value s in
        match p with
        | Some p =>
            let '(res, gas, err) := RunPrecompiledContract p input gas in
            finish_call snapshot res gas err (with_state s z)
        | None =>
            let '(code, s) := db_GetCode addr s in
            if len code =? 0 then finish_call snapshot [] gas None (with_state s z)
            else
              let '(hash, s) := db_GetCodeHash addr s in
              let contract := SetCallCode hash code (NewContract caller addr value gas) in
              '(res, err, contract, z) ← run contract input false (inherit_jumpdests caller (with_state s z));
              finish_call snapshot res (c_Gas contract) err z
        end.

Definition DelegateCall (caller : ContractRef) (addr input : bytes) (gas : Z) (z : zvm)
    : outcome Empty_set (bytes * Z * option vm_error * zvm) :=
  if CallCreateDepth <? depth z then Ok ([], gas, Some ErrDepth, z)
  else
    let '(snapshot, s) := db_Snapshot (z_state z) in
    match precompile env addr with
    | Some p =>
        let '(res, gas, err) := RunPrecompiledContract p input gas in
        finish_call snapshot res gas err (with_state s z)
    | None =>
        contract ← AsDelegate caller (NewContract caller (ref_Address caller) 0 gas);
        let '(hash, s) := db_GetCodeHash addr s in
        let '(code, s) := db_GetCode addr s in
        '(res, err, contract, z) ← run (SetCallCode hash code contract) input false (inherit_jumpdests caller (with_state s z));
        finish_call snapshot res (c_Gas contract) err z
    end.

Definition StaticCall (caller : ContractRef) (addr input : bytes) (gas : Z) (z : zvm)
    : outcome Empty_set (bytes * Z * option vm_error * zvm) :=
  if CallCreateDepth <? depth z then Ok ([], gas, Some ErrDepth, z)
  else
    let '(snapshot, s) := db_Snapshot (z_state z) in
    let s := db_AddBalance addr 0 s in
    match precompile env addr with
    | Some p =>
        let '(res, gas, err) := RunPrecompiledContract p input gas in
        finish_call snapshot res gas err (with_state s z)
    | None =>
        let contract := NewContract caller addr 0 gas in
        let '(hash, s) := db_GetCodeHash addr s in
        let '(code, s) := db_GetCode addr s in
        '(res, err, contract, z) ← run (SetCallCode hash code contract) input true (inherit_jumpdests caller (with_state s z));
        finish_call snapshot res (c_Gas contract) err z
    end.

(** The checks of create on the returned code, in order *)
Definition check_code (res : bytes) (err : option vm_error) : option vm_error :=
  match err with
  | Some e => Some e
  | None =>
      if MaxCodeSize <? len res then Some ErrMaxCodeSizeExceeded
      else match res with b :: _ => if b =? 0xEF then Some ErrInvalidCode else None | [] => None end
  end.

Definition create (caller : ContractRef) (code hash : bytes) (gas value : Z) (address : bytes) (z : zvm)
    : outcome Empty_set (bytes * bytes * Z * option vm_error * zvm) :=
  if CallCreateDepth <? depth z then Ok ([], (repeat 0 20), gas, Some ErrDepth, z)
  else
    let '(can, s) := CanTransfer (ref_Address caller) value (z_state z) in
    if negb can then Ok ([], (repeat 0 20), gas, Some ErrInsufficientBalance, with_state s z)
    else
      let '(nonce, s) := db_GetNonce (ref_Address caller) s in
      if u64 (nonce + 1) <? nonce then Ok ([], (repeat 0 20), gas, Some ErrNonceUintOverflow, with_state s z)
      else
        let s := db_SetNonce (ref_Address caller) (u64 (nonce + 1)) s in
        let s := db_AddAddressToAccessList address s in
        let '(contractHash, s) := db_GetCodeHash address s in
        let '(nonce, s) := db_GetNonce address s in
        if negb (nonce =? 0) || (negb (bool_decide (contractHash = zeroHash)) && negb (bool_decide (contractHash = EmptyCodeHash)))
        then Ok ([], (repeat 0 20), 0, Some ErrContractAddressCollision, with_state s z)
        else
          let '(snapshot, s) := db_Snapshot s in
          let s := db_CreateAccount address s in
          let s := db_SetNonce address 1 s in
          let s := Transfer (ref_Address caller) address value s in
          let contract := SetCallCode hash code (NewContract caller address value gas) in
          '(res, err, contract, z) ← run contract [] false (inherit_jumpdests caller (with_state s z));
          let err := check_code res err in
          let '(err, contract, z) :=
            match err with
            | Some e => (Some e, contract, z)
            | None =>
                let createDataGas := u64 (len res * CreateDataGas) in
                let '(paid, contract) := UseGas createDataGas contract in
                if paid then (None, contract, with_state (db_SetCode address res (z_state z)) z)
                else (Some ErrCodeStoreOutOfGas, contract, z)
            end in
          match err with
          | Some ErrCodeStoreOutOfGas | None => Ok (res, address, c_Gas contract, err, z)
          | Some _ =>
              s ← db_RevertToSnapshot snapshot (z_state z);
              let contract := if is_reverted err then contract else snd (UseGas (c_Gas contract) contract) in
              Ok (res, address, c_Gas contract, err, with_state s z)
          end.

Definition Create (caller : ContractRef) (code : bytes) (gas value : Z) (z : zvm)
    : outcome Empty_set (bytes * bytes * Z * option vm_error * zvm) :=
  let '(nonce, s) := db_GetNonce (ref_Address caller) (z_state z) in
  contractAddr ← CreateAddress (enc_pool env) (ref_Address caller) nonce;
  create caller code zeroHash gas value contractAddr (with_state s z).

(** The hash of the code is kept in codeAndHash. *)
Definition Create2 (caller : ContractRef) (code : bytes) (gas endowment : Z) (salt : Int) (z : zvm)
    : outcome Empty_set (bytes * bytes * Z * option vm_error * zvm) :=
  let hash := sum256 code in
  let contractAddr := CreateAddress2 (ref_Address caller) (u_Bytes32 salt) hash in
  create caller code hash gas endowment contractAddr z.

(** ** The instructions that call *)

(** A call made from the running contract. *)
Definition from_contract {A} (k : ContractRef → zvm → outcome Empty_set (A * zvm)) : M A :=
  c <- gets f_contract ;; z <- gets f_zvm ;;
  let! (a, z) := lift (k (CallerContract c) z) in
  upd_zvm (fun _ => z) ;;; ret a.

(** What opCreate and opCreate2 do with the result; [size] is reused for the value pushed. *)
Definition finish_opCreate (res addr : bytes) (returnGas : Z) (suberr : option vm_error) : exec :=
  let stackvalue := match suberr with Some _ => u_zero | None => u_SetBytes addr end in
  push stackvalue ;;;
  add_gas returnGas ;;;
  if is_reverted suberr then upd_zvm (with_returnData res) ;;; ret (res, None)
  else upd_zvm (with_returnData []) ;;; ret ([], None).

Definition opCreate : exec :=
  write_protected (
    value <- pop ;; offset <- pop ;; size <- pop ;;
    input <- GetCopy (int64 (u_Uint64 offset)) (int64 (u_Uint64 size)) ;;
    c <- gets f_contract ;;
    let gas := c_Gas c - c_Gas c / 64 in
    use_gas gas ;;;
    let bigVal := if u_IsZero value then 0 else u_ToBig value in
    let! (res, addr, returnGas, suberr) := from_contract (fun self z => Create self input gas bigVal z) in
    finish_opCreate res addr returnGas suberr).

Definition opCreate2 : exec :=
  write_protected (
    endowment <- pop ;; offset <- pop ;; size <- pop ;; salt <- pop ;;
    input <- GetCopy (int64 (u_Uint64 offset)) (int64 (u_Uint64 size)) ;;
    c <- gets f_contract ;;
    let gas := c_Gas c - c_Gas c / 64 in
    use_gas gas ;;;
    let bigEndowment := if u_IsZero endowment then 0 else u_ToBig endowment in
    let! (res, addr, returnGas, suberr) := from_contract (fun self z => Create2 self input gas bigEndowment salt z) in
    finish_opCreate res addr returnGas suberr).

(** What the three call instructions do with the result. *)
Definition finish_opCall (retOffset retSize : Int) (res : bytes) (returnGas : Z) (err : option vm_error) : exec :=
  push (match err with Some _ => u_zero | None => u_one end) ;;;
  (if no_error err || is_reverted err then Set_ (u_Uint64 retOffset) (u_Uint64 retSize) res else ret tt) ;;;
  add_gas returnGas ;;;
  upd_zvm (with_returnData res) ;;; ret (res, None).

Definition opCall : exec :=
  _ <- pop ;; z <- gets f_zvm ;;
  let gas := callGasTemp z in
  addr <- pop ;; value <- pop ;; inOffset <- pop ;; inSize <- pop ;; retOffset <- pop ;; retSize <- pop ;;
  let toAddr := u_Bytes20 addr in
  args <- GetPtr (int64 (u_Uint64 inOffset)) (int64 (u_Uint64 inSize)) ;;
  if readOnly z && negb (u_IsZero value) then ret ([], Some ErrWriteProtection)
  else
    let '(gas, bigVal) := if u_IsZero value then (gas, 0) else (u64 (gas + CallStipend), u_ToBig value) in
    let! (res, returnGas, err) := from_contract (fun self z => Call self toAddr args gas bigVal z) in
    finish_opCall retOffset retSize res returnGas err.

Definition opDelegateCall : exec :=
  _ <- pop ;; z <- gets f_zvm ;;
  let gas := callGasTemp z in
  addr <- pop ;; inOffset <- pop ;; inSize <- pop ;; retOffset <- pop ;; retSize <- pop ;;
  args <- GetPtr (int64 (u_Uint64 inOffset)) (int64 (u_Uint64 inSize)) ;;
  let! (res, returnGas, err) := from_contract (fun self z => DelegateCall self (u_Bytes20 addr) args gas z) in
  finish_opCall retOffset retSize res returnGas err.

Definition opStaticCall : exec :=
  _ <- pop ;; z <- gets f_zvm ;;
  let gas := callGasTemp z in
  addr <- pop ;; inOffset <- pop ;; inSize <- pop ;; retOffset <- pop ;; retSize <- pop ;;
  args <- GetPtr (int64 (u_Uint64 inOffset)) (int64 (u_Uint64 inSize)) ;;
  let! (res, returnGas, err) := from_contract (fun self z => StaticCall self (u_Bytes20 addr) args gas z) in
  finish_opCall retOffset retSize res returnGas err.

(** ** The instruction table *)

Record operation := MkOp {
  execute : exec;
  constantGas : Z;
  dynamicGas : option (Z → M (Z * option vm_error));
  op_minStack : Z;
  op_maxStack : Z;
  memorySize : option (list Int → outcome Empty_set (Z * bool))
}.

Definition maxStack (pop push : Z) : Z := StackLimit + pop - push.
Definition minStack (pops push : Z) : Z := pops.
Definition minSwapStack (n : Z) : Z := minStack n n.
Definition maxSwapStack (n : Z) : Z := maxStack n n.
Definition minDupStack (n : Z) : Z := minStack n (n + 1).
Definition maxDupStack (n : Z) : Z := maxStack n (n + 1).

Definition ops_arithmetic : list (Z * operation) := [
  (STOP, MkOp opStop 0 None (minStack 0 0) (maxStack 0 0) None);
  (ADD, MkOp opAdd GasFastestStep None (minStack 2 1) (maxStack 2 1) None);
  (MUL, MkOp opMul GasFastStep None (minStack 2 1) (maxStack 2 1) None);
  (SUB, MkOp opSub GasFastestStep None (minStack 2 1) (maxStack 2 1) None);
  (DIV, MkOp opDiv GasFastStep None (minStack 2 1) (maxStack 2 1) None);
  (SDIV, MkOp opSdiv GasFastStep None (minStack 2 1) (maxStack 2 1) None);
  (MOD, MkOp opMod GasFastStep None (minStack 2 1) (maxStack 2 1) None);
  (SMOD, MkOp opSmod GasFastStep None (minStack 2 1) (maxStack 2 1) None);
  (ADDMOD, MkOp opAddmod GasMidStep None (minStack 3 1) (maxStack 3 1) None);
  (MULMOD, MkOp opMulmod GasMidStep None (minStack 3 1) (maxStack 3 1) None);
  (EXP, MkOp opExp 0 (Some gasExpEIP158) (minStack 2 1) (maxStack 2 1) None);
  (SIGNEXTEND, MkOp opSignExtend GasFastStep None (minStack 2 1) (maxStack 2 1) None)].

Definition ops_comparison : list (Z * operation) := [
  (LT, MkOp opLt GasFastestStep None (minStack 2 1) (maxStack 2 1) None);
  (GT, MkOp opGt GasFastestStep None (minStack 2 1) (maxStack 2 1) None);
  (SLT, MkOp opSlt GasFastestStep None (minStack 2 1) (maxStack 2 1) None);
  (SGT, MkOp opSgt GasFastestStep None (minStack 2 1) (maxStack 2 1) None);
  (EQ, MkOp opEq GasFastestStep None (minStack 2 1) (maxStack 2 1) None);
  (ISZERO, MkOp opIszero GasFastestStep None (minStack 1 1) (maxStack 1 1) None);
  (AND, MkOp opAnd GasFastestStep None (minStack 2 1) (maxStack 2 1) None);
  (XOR, MkOp opXor GasFastestStep None (minStack 2 1) (maxStack 2 1) None);
  (OR, MkOp opOr GasFastestStep None (minStack 2 1) (maxStack 2 1) None);
  (NOT, MkOp opNot GasFastestStep None (minStack 1 1) (maxStack 1 1) None);
  (BYTE, MkOp opByte GasFastestStep None (minStack 2 1) (maxStack 2 1) None);
  (KECCAK256, MkOp (opKeccak256 env) Keccak256Gas (Some gasKeccak256) (minStack 2 1) (maxStack 2 1) (Some memoryKeccak256))].

Definition ops_environment : list (Z * operation) := [
  (ADDRESS, MkOp opAddress GasQuickStep None (minStack 0 1) (maxStack 0 1) None);
  (BALANCE, MkOp opBalance WarmStorageReadCostEIP2929 (Some gasEip2929AccountCheck) (minStack 1 1) (maxStack 1 1) None);
  (ORIGIN, MkOp (opOrigin env) GasQuickStep None (minStack 0 1) (maxStack 0 1) None);
  (CALLER, MkOp opCaller GasQuickStep None (minStack 0 1) (maxStack 0 1) None);
  (CALLVALUE, MkOp opCallValue GasQuickStep None (minStack 0 1) (maxStack 0 1) None);
  (CALLDATALOAD, MkOp opCallDataLoad GasFastestStep None (minStack 1 1) (maxStack 1 1) None);
  (CALLDATASIZE, MkOp opCallDataSize GasQuickStep None (minStack 0 1) (maxStack 0 1) None);
  (CALLDATACOPY, MkOp opCallDataCopy GasFastestStep (Some gasCallDataCopy) (minStack 3 0) (maxStack 3 0) (Some memoryCallDataCopy));
  (CODESIZE, MkOp opCodeSize GasQuickStep None (minStack 0 1) (maxStack 0 1) None);
  (CODECOPY, MkOp opCodeCopy GasFastestStep (Some gasCodeCopy) (minStack 3 0) (maxStack 3 0) (Some memoryCodeCopy));
  (GASPRICE, MkOp (opGasprice env) GasQuickStep None (minStack 0 1) (maxStack 0 1) None);
  (EXTCODESIZE, MkOp opExtCodeSize WarmStorageReadCostEIP2929 (Some gasEip2929AccountCheck) (minStack 1 1) (maxStack 1 1) None);
  (EXTCODECOPY, MkOp opExtCodeCopy WarmStorageReadCostEIP2929 (Some gasExtCodeCopyEIP2929) (minStack 4 0) (maxStack 4 0) (Some memoryExtCodeCopy));
  (BLOCKHASH, MkOp (opBlockhash env) GasExtStep None (minStack 1 1) (maxStack 1 1) None);
  (COINBASE, MkOp (opCoinbase env) GasQuickStep None (minStack 0 1) (maxStack 0 1) None);
  (TIMESTAMP, MkOp (opTimestamp env) GasQuickStep None (minStack 0 1) (maxStack 0 1) None);
  (NUMBER, MkOp (opNumber env) GasQuickStep None (minStack 0 1) (maxStack 0 1) None);
  (GASLIMIT, MkOp (opGasLimit env) GasQuickStep None (minStack 0 1) (maxStack 0 1) None)].

Definition ops_flow : list (Z * operation) := [
  (POP, MkOp opPop GasQuickStep None (minStack 1 0) (maxStack 1 0) None);
  (MLOAD, MkOp opMload GasFastestStep (Some pureMemoryGascost) (minStack 1 1) (maxStack 1 1) (Some memoryMLoad));
  (MSTORE, MkOp opMstore GasFastestStep (Some pureMemoryGascost) (minStack 2 0) (maxStack 2 0) (Some memoryMStore));
  (MSTORE8, MkOp opMstore8 GasFastestStep (Some pureMemoryGascost) (minStack 2 0) (maxStack 2 0) (Some memoryMStore8));
  (SLOAD, MkOp opSload 0 (Some gasSLoadEIP2929) (minStack 1 1) (maxStack 1 1) None);
  (SSTORE, MkOp opSstore 0 (Some gasSStoreEIP3529) (minStack 2 0) (maxStack 2 0) None);
  (JUMP, MkOp (opJump env) GasMidStep None (minStack 1 0) (maxStack 1 0) None);
  (JUMPI, MkOp (opJumpi env) GasSlowStep None (minStack 2 0) (maxStack 2 0) None);
  (PC, MkOp opPc GasQuickStep None (minStack 0 1) (maxStack 0 1) None);
  (MSIZE, MkOp opMsize GasQuickStep None (minStack 0 1) (maxStack 0 1) None);
  (GAS, MkOp opGas GasQuickStep None (minStack 0 1) (maxStack 0 1) None);
  (JUMPDEST, MkOp opJumpdest JumpdestGas None (minStack 0 0) (maxStack 0 0) None)].

Definition ops_calls : list (Z * operation) := [
  (CREATE, MkOp opCreate CreateGas (Some gasCreateEip3860) (minStack 3 1) (maxStack 3 1) (Some memoryCreate));
  (CALL, MkOp opCall WarmStorageReadCostEIP2929 (Some gasCallEIP2929) (minStack 7 1) (maxStack 7 1) (Some memoryCall));
  (RETURN, MkOp opReturn 0 (Some pureMemoryGascost) (minStack 2 0) (maxStack 2 0) (Some memoryReturn));
  (DELEGATECALL, MkOp opDelegateCall WarmStorageReadCostEIP2929 (Some gasDelegateCallEIP2929) (minStack 6 1) (maxStack 6 1) (Some memoryDelegateCall));
  (REVERT, MkOp opRevert 0 (Some pureMemoryGascost) (minStack 2 0) (maxStack 2 0) (Some memoryRevert));
  (RETURNDATACOPY, MkOp opReturnDataCopy GasFastestStep (Some gasReturnDataCopy) (minStack 3 0) (maxStack 3 0) (Some memoryReturnDataCopy));
  (RETURNDATASIZE, MkOp opReturnDataSize GasQuickStep None (minStack 0 1) (maxStack 0 1) None);
  (STATICCALL, MkOp opStaticCall WarmStorageReadCostEIP2929 (Some gasStaticCallEIP2929) (minStack 6 1) (maxStack 6 1) (Some memoryStaticCall));
  (SHL, MkOp opSHL GasFastestStep None (minStack 2 1) (maxStack 2 1) None);
  (SHR, MkOp opSHR GasFastestStep None (minStack 2 1) (maxStack 2 1) None);
  (SAR, MkOp opSAR GasFastestStep None (minStack 2 1) (maxStack 2 1) None);
  (EXTCODEHASH, MkOp opExtCodeHash WarmStorageReadCostEIP2929 (Some gasEip2929AccountCheck) (minStack 1 1) (maxStack 1 1) None);
  (CREATE2, MkOp opCreate2 Create2Gas (Some gasCreate2Eip3860) (minStack 4 1) (maxStack 4 1) (Some memoryCreate2));
  (CHAINID, MkOp (opChainID env) GasQuickStep None (minStack 0 1) (maxStack 0 1) None);
  (SELFBALANCE, MkOp opSelfBalance GasFastStep None (minStack 0 1) (maxStack 0 1) None);
  (BASEFEE, MkOp (opBaseFee env) GasQuickStep None (minStack 0 1) (maxStack 0 1) None);
  (PREVRANDAO, MkOp (opRandom env) GasQuickStep None (minStack 0 1) (maxStack 0 1) None);
  (PUSH0, MkOp opPush0 GasQuickStep None (minStack 0 1) (maxStack 0 1) None)].

(** PUSH1 to PUSH32, DUP1 to DUP16, SWAP1 to SWAP16 and LOG0 to LOG4 *)
Definition ops_push : list (Z * operation) :=
  (PUSH1, MkOp opPush1 GasFastestStep None (minStack 0 1) (maxStack 0 1) None) ::
  map (fun n => (PUSH1 + Z.of_nat n - 1,
                 MkOp (makePush (Z.of_nat n) (Z.of_nat n)) GasFastestStep None (minStack 0 1) (maxStack 0 1) None)) (seq 2 31).

Definition ops_dup : list (Z * operation) :=
  map (fun n => (DUP1 + Z.of_nat n - 1,
                 MkOp (makeDup n) GasFastestStep None (minDupStack (Z.of_nat n)) (maxDupStack (Z.of_nat n)) None)) (seq 1 16).

Definition ops_swap : list (Z * operation) :=
  map (fun n => (SWAP1 + Z.of_nat n - 1,
                 MkOp (makeSwap n) GasFastestStep None (minSwapStack (Z.of_nat n + 1)) (maxSwapStack (Z.of_nat n + 1)) None)) (seq 1 16).

Definition ops_log : list (Z * operation) :=
  map (fun n => (LOG0 + Z.of_nat n,
                 MkOp (makeLog env n) 0 (Some (makeGasLog (Z.of_nat n))) (minStack (2 + Z.of_nat n) 0) (maxStack (2 + Z.of_nat n) 0) (Some memoryLog)))
    (seq 0 5).

Definition newShanghaiInstructionSet : list (Z * operation) :=
  ops_arithmetic ++ ops_comparison ++ ops_environment ++ ops_flow ++ ops_push ++ ops_dup ++ ops_swap ++ ops_log ++ ops_calls.

(** in.table[op], where the slots left are filled with opUndefined *)
Definition table (op : Z) : operation :=
  match find (fun e => fst e =? op) newShanghaiInstructionSet with
  | Some (_, o) => o
  | None => MkOp opUndefined 0 None 0 (maxStack 0 0) None
  end.

(** ** The main loop *)

Definition GetOp (c : Contract) (n : Z) : outcome Empty_set Z :=
  if n <? len (c_Code c) then at_ (c_Code c) n else Ok STOP.

(** return nil, err of the loop *)
Definition stop_with (e : vm_error) : M (option (bytes * option vm_error)) := ret (Some ([], Some e)).

(** operation.memorySize(stack), to whole words; None on overflow *)
Definition memory_size (o : operation) : M (option Z) :=
  match memorySize o with
  | None => ret (Some 0)
  | Some f =>
      st <- gets f_stack ;;
      let! (memSize, overflow) := lift (f st) in
      if overflow : bool then ret None
      else
        let '(size, overflow) := SafeMul (toWordSize memSize) 32 in
        ret (if overflow then None else Some size)
  end.

(** execute, and pc++ or the end of the loop *)
Definition execute_step (o : operation) : M (option (bytes * option vm_error)) :=
  let! (res, err) := execute o in
  match err with
  | Some errStopToken => ret (Some (res, None))
  | Some e => ret (Some (res, Some e))
  | None => pc <- gets f_pc ;; set_pc (u64 (pc + 1)) ;;; ret None
  end.

(** The gas of an instruction, the memory it needs, and its execution *)
Definition perform (operation : operation) : M (option (bytes * option vm_error)) :=
  paid <- use_gas (constantGas operation) ;;
  if negb paid then stop_with ErrOutOfGas
  else
    match dynamicGas operation with
    | None => execute_step operation
    | Some dynamic =>
        size <- memory_size operation ;;
        match size with
        | None => stop_with ErrGasUintOverflow
        | Some memorySize =>
            let! (dynamicCost, err) := dynamic memorySize in
            paid <- (match err with None => use_gas dynamicCost | Some _ => ret false end) ;;
            if negb paid then stop_with ErrOutOfGas
            else
              (if 0 <? memorySize then m <- gets f_mem ;; set_mem (mem_Resize memorySize m) else ret tt) ;;;
              execute_step operation
        end
    end.

(** One iteration: None when the loop goes on *)
Definition iteration : M (option (bytes * option vm_error)) :=
  c <- gets f_contract ;; pc <- gets f_pc ;; st <- gets f_stack ;;
  op <- lift (GetOp c pc) ;;
  let operation := table op in
  let sLen := Z.of_nat (length st) in
  if sLen <? op_minStack operation then stop_with (ErrStackUnderflow sLen (op_minStack operation))
  else if op_maxStack operation <? sLen then stop_with (ErrStackOverflow sLen (op_maxStack operation))
  else perform operation.
End Calls.

(** Run, given the loop *)
Definition run_with (main : exec) : runner := fun contract input ro z =>
  let z := with_depth (depth z + 1) z in
  let protect := ro && negb (readOnly z) in
  let z := if protect then with_readOnly true z else z in
  let z := with_returnData [] z in
  '(res, err, contract, z) ←
    (if len (c_Code contract) =? 0 then Ok ([], None, contract, z)
     else
       '(r, f) ← main (MkFrame z 0 [] NewMemory (set_Input input contract));
       Ok (fst r, snd r, f_contract f, f_zvm f));
  let z := if protect then with_readOnly false z else z in
  Ok (res, err, contract, with_depth (depth z - 1) z).

Fixpoint loop (fuel : nat) : exec :=
  match fuel with
  | O => fun _ => OutOfFuel
  | S fuel =>
      r <- iteration (run_with (loop fuel)) ;;
      match r with
      | Some result => ret result
      | None => loop fuel
      end
  end.

Definition Run (fuel : nat) : runner := run_with (loop fuel).
End Interpreter.
