(* ===== verification/VmLaws.v ===== *)
(** * What the virtual machine relies on: the state interface and its laws

    [VmStateLaws] says that an implementation of vm.StateDB behaves as a world of
    accounts with saved worlds (StateWorld); the machine is verified against it.
    StateDB of core/state is an instance, by the refinement of StateSpec. *)

From S2P Require Import Prelude TrieNode TrieOps StateAccess State StateWorld StateRevert StateSnapshot StateTidy StateSpec StatePrepare VmCore.

(** ** Worlds read through the getters *)

Section Read.
  Context `{HF : Hasher}.

Definition w_read {A} (d : A) (f : account → A) (a : bytes) (w : world) : A :=
  match w_account w a with Some v => f v | None => d end.

Definition w_Exist : bytes → world → bool := w_read false (fun _ => true).
Definition w_Empty : bytes → world → bool :=
  w_read true (fun v => (v_nonce v =? 0) && (v_balance v =? 0) && bool_decide (v_codeHash v = EmptyCodeHash)).
Definition w_Balance : bytes → world → Z := w_read 0 v_balance.
Definition w_Nonce : bytes → world → Z := w_read 0 v_nonce.
Definition w_CodeHash : bytes → world → bytes := w_read zeroHash (fun v => BytesToHash (v_codeHash v)).
Definition w_Code : bytes → world → bytes := w_read [] (fun v => default [] (v_code v)).
Definition w_State (a k : bytes) : world → bytes := w_read zeroHash (fun v => v_storage v k) a.
Definition w_Committed (a k : bytes) : world → bytes := w_read zeroHash (fun v => v_committed v k) a.
End Read.

(** ** The laws *)

Class VmStateLaws `{HF : Hasher} (SDB : Type) `{DB : VmStateDB SDB} := {
  models : SDB → saved_world → Prop;
  law_op o s sw : db_has o = true → models s sw →
    match spec_op o sw with
    | Some sw' => ∃ s', db_run o s = Ok s' ∧ models s' sw'
    | None => db_run o s = Panic
    end;
  law_id s sw : models s sw → (db_Snapshot s).1 = sw_next sw;
  law_Exist a s sw : models s sw → (db_Exist a s).1 = w_Exist a (sw_now sw) ∧ models (db_Exist a s).2 sw;
  law_Empty a s sw : models s sw → (db_Empty a s).1 = w_Empty a (sw_now sw) ∧ models (db_Empty a s).2 sw;
  law_GetBalance a s sw : models s sw → (db_GetBalance a s).1 = w_Balance a (sw_now sw) ∧ models (db_GetBalance a s).2 sw;
  law_GetNonce a s sw : models s sw → (db_GetNonce a s).1 = w_Nonce a (sw_now sw) ∧ models (db_GetNonce a s).2 sw;
  law_GetCodeHash a s sw : models s sw → (db_GetCodeHash a s).1 = w_CodeHash a (sw_now sw) ∧ models (db_GetCodeHash a s).2 sw;
  law_GetCode a s sw : models s sw → (db_GetCode a s).1 = w_Code a (sw_now sw) ∧ models (db_GetCode a s).2 sw;
  law_GetCodeSize a s sw : models s sw → models (db_GetCodeSize a s).2 sw;
  law_GetState a k s sw : models s sw → (db_GetState a k s).1 = w_State a k (sw_now sw) ∧ models (db_GetState a k s).2 sw;
  law_GetCommittedState a k s sw : models s sw →
    (db_GetCommittedState a k s).1 = w_Committed a k (sw_now sw) ∧ models (db_GetCommittedState a k s).2 sw;
  law_AddressInAccessList a s sw : models s sw → db_AddressInAccessList a s = bool_decide (is_Some (w_access (sw_now sw) !! a));
  law_GetRefund s sw : models s sw → db_GetRefund s = w_refund (sw_now sw);
  law_Prepare sender coinbase dst precompiles list s sw : models s sw → sw_saved sw = [] →
    ∃ s', db_Prepare sender coinbase dst precompiles list s = Ok s' ∧
      models s' (MkSaved (with_access (prepared sender coinbase dst precompiles list) (sw_now sw)) [] (sw_next sw));
  law_SlotInAccessList a k s sw : models s sw →
    db_SlotInAccessList a k s = Ok (match w_access (sw_now sw) !! a with Some set => (true, bool_decide (k ∈ set)) | None => (false, false) end)
}.

(** ** StateDB *)

Section Instance_.
  Context `{HF : Hasher} `{HL : !HasherLaws} {T ST E : Type} `{B : !Backend T ST E}.
  Abbreviation StateDB := (StateDB (T := T) (ST := ST) (E := E)).

#[export] Instance StateDB_vm : VmStateDB StateDB := {|
  db_CreateAccount := CreateAccount;
  db_SubBalance := SubBalance;
  db_AddBalance := AddBalance;
  db_GetBalance := GetBalance;
  db_GetNonce := GetNonce;
  db_SetNonce := SetNonce;
  db_GetCodeHash := GetCodeHash;
  db_GetCode := fun a s => let '(c, s) := GetCode a s in (default [] c, s);
  db_SetCode := SetCode;
  db_GetCodeSize := GetCodeSize;
  db_AddRefund := AddRefund;
  db_SubRefund := SubRefund;
  db_GetRefund := GetRefund;
  db_GetCommittedState := GetCommittedState;
  db_GetState := GetState;
  db_SetState := SetState;
  db_Exist := Exist;
  db_Empty := Empty;
  db_AddressInAccessList := AddressInAccessList;
  db_SlotInAccessList := SlotInAccessList;
  db_AddAddressToAccessList := AddAddressToAccessList;
  db_AddSlotToAccessList := AddSlotToAccessList;
  db_RevertToSnapshot := RevertToSnapshot;
  db_Snapshot := Snapshot;
  db_AddLog := AddLog;
  db_AddPreimage := AddPreimage;
  db_Prepare := Prepare
|}.

Lemma db_run_op o (s : StateDB) : db_has o = true → db_run o s = run_op o s.
Proof. destruct o; try done. intros _. cbn. by destruct (GetCode a s). Qed.

(** A read changes only caches. *)
Lemma read_refines {A} a (d : A) f s sw : reads f → refines s sw → refines (read_object a d f s).2 sw.
Proof.
  intros Hf [Hi Hdb Hty Hw Hn (gs & Hl & Hgs)]. pose proof (read_quiet a d f s Hf (iv_addr _ Hi)) as Hq.
  pose proof (step_quiet _ _ Hi Hq) as Hs. constructor.
  - apply Hs.
  - by eapply undoes_laws; [apply Hs |].
  - by eapply tidy_same; [apply Hq | apply Hq |].
  - by eapply shows_same; [apply Hq |].
  - by rewrite (st_next _ _ Hs).
  - exists gs. split; [by eapply linked_step | done].
Qed.

Lemma reads_pure {A} (g : stateObject (ST := ST) → A) : reads (T := T) (E := E) (fun o s => (g o, o, s)).
Proof. intros o t v o' t' [= _ <- <-]. split; [apply obj_eq_refl |]. exists (dbErr t). by destruct t. Qed.

Lemma reads_CodeSize : reads (T := T) (ST := ST) (E := E) obj_CodeSize.
Proof.
  intros o t v o' t' Hf. unfold obj_CodeSize in Hf.
  assert (Hdone : obj_eq t t o o ∧ ∃ e, t = set_dbErr e t) by (split; [apply obj_eq_refl | exists (dbErr t); by destruct t]).
  destruct (code o); [by injection Hf as _ <- <- |]. case_match; [by injection Hf as _ <- <- |].
  destruct (ContractCodeSize _ _) as [size [e |]]; injection Hf as _ <- <-; [| done].
  split; [apply obj_eq_refl |]. unfold setError. destruct (dbErr t) eqn:Ed; [exists (dbErr t); by destruct t | by eexists].
Qed.

Lemma answers_read s sw a k : refines s sw →
  let w := sw_now sw in
  (Exist a s).1 = w_Exist a w ∧ (Empty a s).1 = w_Empty a w ∧ (GetBalance a s).1 = w_Balance a w ∧
  (GetNonce a s).1 = w_Nonce a w ∧ (GetCodeHash a s).1 = w_CodeHash a w ∧ default [] (GetCode a s).1 = w_Code a w ∧
  (GetState a k s).1 = w_State a k w ∧ (GetCommittedState a k s).1 = w_Committed a k w.
Proof.
  intros [_ _ _ Hw _ _] w. pose proof (shows_answers _ _ a k Hw) as H. fold w in H. unfold answers, spec_answers in H.
  unfold w_Exist, w_Empty, w_Balance, w_Nonce, w_CodeHash, w_Code, w_State, w_Committed, w_read.
  destruct (w_account w a) as [v |]; injection H as -> -> -> -> -> -> -> ->; done.
Qed.

#[export] Instance StateDB_vm_laws : VmStateLaws StateDB.
Proof.
  refine {| models := refines |}.
  all: try (intros a s sw Hr; split; [apply (answers_read s sw a [] Hr) | apply read_refines; [apply reads_pure | done]]).
  - intros o s sw Ho Hr. rewrite db_run_op by done. by apply run_op_refines.
  - by intros s sw [].
  - intros a s sw Hr. cbn. destruct (GetCode a s) as [c t] eqn:Eg. split.
    + change c with (c, t).1. rewrite <- Eg. apply (answers_read s sw a [] Hr).
    + change (refines (c, t).2 sw). rewrite <- Eg. apply read_refines; [| done]. intros o u v o' u' Hf. by apply code_read in Hf as (_ & ? & ?).
  - intros a s sw Hr. apply read_refines; [apply reads_CodeSize | done].
  - intros a k s sw Hr. split; [apply (answers_read s sw a k Hr) |]. apply read_refines; [| done].
    intros o u v o' u' Hf. by apply state_read in Hf as (_ & ? & ?).
  - intros a k s sw Hr. split; [apply (answers_read s sw a k Hr) |]. apply read_refines; [| done].
    intros o u v o' u' Hf. by apply committed_read in Hf as (_ & ? & ?).
  - intros a s sw Hr. cbn. unfold AddressInAccessList. by rewrite ContainsAddress_spec, (sh_access _ _ (rf_shows _ _ Hr)).
  - intros s sw Hr. apply (sh_refund _ _ (rf_shows _ _ Hr)).
  - intros. by apply Prepare_refines.
  - intros a k s sw Hr. cbn. unfold SlotInAccessList. rewrite Contains_spec by apply (iv_al _ (rf_inv _ _ Hr)).
    by rewrite (sh_access _ _ (rf_shows _ _ Hr)).
Defined.
End Instance_.
