(* ===== verification/VmInv.v ===== *)
(** * What a running machine keeps: worlds, frames and results

    The invariants behind the safety of the machine (VmSafety): of worlds (code
    hashes, nonces, and a refund counter that covers the slots cleared), of memory,
    contracts and frames; how worlds evolve while a frame runs; and what it means
    for a frame to go on or to end well. *)

From S2P Require Import Prelude RlpEncode TrieNode TrieOps StateAccess State StateWorld StateSupply StateSpec Uint256 VmAnalysis VmCore VmGas VmInstr VmInterp VmLaws.

(** ** Worlds *)

Section Worlds.
  Context `{HF : Hasher}.

Record account_ok (v : account) : Prop := MkAccountOk {
  ao_nonce : 0 <= v_nonce v < 2 ^ 64;
  ao_balance : 0 <= v_balance v;
  ao_code : ∀ c, v_code v = Some c → c ≠ [] → bytes_ok c ∧ len c <= MaxInitCodeSize ∧ BytesToHash (v_codeHash v) = sum256 c
}.

(** A slot that was set at the start of the transaction and is zero now *)
Definition cleared (w : world) (s : bytes * bytes) : Prop :=
  v_committed (acct w s.1) s.2 ≠ zeroHash ∧ v_storage (acct w s.1) s.2 = zeroHash.

(** The refund counter covers the clearing refund of every cleared slot. *)
Definition refund_covers (w : world) : Prop :=
  ∀ l, NoDup l → Forall (cleared w) l → SstoreClearsScheduleRefundEIP3529 * len l <= w_refund w.

Record world_ok (w : world) : Prop := MkWorldOk {
  wo_accounts : ∀ a, account_ok (acct w a);
  wo_refund : refund_covers w
}.

(** Nothing changed but the accessed addresses and slots, preimages, and accounts
    that are empty: what a static call may do *)
Record static_eq (w w' : world) : Prop := MkStatic {
  se_account : ∀ a, account_eq (acct w a) (acct w' a);
  se_refund : w_refund w' = w_refund w;
  se_logs : w_logs w' = w_logs w;
  se_logSize : w_logSize w' = w_logSize w
}.

(** Snapshots are only added, with new identifiers. *)
Definition grows (sw sw' : saved_world) : Prop :=
  sw_next sw <= sw_next sw' ∧
  ∃ ext, sw_saved sw' = ext ++ sw_saved sw ∧ Forall (fun p => sw_next sw <= p.1) ext.

(** How worlds evolve while a frame runs, read-only if [ro]: addresses stay accessed and
    money is neither made nor lost *)
Record evolves (ro : bool) (w w' : world) : Prop := MkEvolves {
  ev_access : ∀ a, is_Some (w_access w !! a) → is_Some (w_access w' !! a);
  ev_static : ro = true → static_eq w w';
  ev_supply : gains 0 w w'
}.

Definition with_now (w : world) (sw : saved_world) : saved_world := MkSaved w (sw_saved sw) (sw_next sw).

Lemma grows_refl sw : grows sw sw.
Proof. split; [done |]. by exists []. Qed.

Lemma grows_now w sw : grows sw (with_now w sw).
Proof. split; [done |]. by exists []. Qed.

Lemma grows_trans sw1 sw2 sw3 : grows sw1 sw2 → grows sw2 sw3 → grows sw1 sw3.
Proof.
  intros [N1 (e1 & S1 & F1)] [N2 (e2 & S2 & F2)]. split; [lia |]. exists (e2 ++ e1). rewrite S2, S1, app_assoc.
  split; [done |]. apply Forall_app. split; [| done]. eapply Forall_impl; [exact F2 |]. cbn. lia.
Qed.

Lemma static_refl w : static_eq w w.
Proof. by constructor. Qed.

Lemma static_trans w1 w2 w3 : static_eq w1 w2 → static_eq w2 w3 → static_eq w1 w3.
Proof. intros [A1 R1 L1 S1] [A2 R2 L2 S2]. constructor; [| congruence..]. intros a. by etrans; [apply A1 | apply A2]. Qed.

Lemma evolves_refl ro w : evolves ro w w.
Proof. constructor; [done | intros _; apply static_refl | by apply gains_same]. Qed.

Lemma evolves_trans ro w1 w2 w3 : evolves ro w1 w2 → evolves ro w2 w3 → evolves ro w1 w3.
Proof.
  intros [A1 S1 G1] [A2 S2 G2]. constructor; [by auto | intros Hro; eapply static_trans; eauto |]. exact (gains_trans _ _ _ _ _ G1 G2).
Qed.

Lemma evolves_weaken ro ro' w w' : (ro' = true → ro = true) → evolves ro w w' → evolves ro' w w'.
Proof. intros Hro [A S G]. constructor; auto. Qed.

(** The same accounts *)
Lemma evolves_same ro w w' :
  w_account w' = w_account w → (∀ a, is_Some (w_access w !! a) → is_Some (w_access w' !! a)) → (ro = true → static_eq w w') → evolves ro w w'.
Proof. intros Ha Hacc Hs. constructor; [done | done |]. apply gains_same. intros a. unfold balance, acct. by rewrite Ha. Qed.

(** A snapshot is found again after the worlds saved since. *)
Lemma restore_grown id w ext l :
  Forall (fun p : Z * world => id < p.1) ext → restore id (ext ++ (id, w) :: l) = Some (w, l).
Proof.
  induction ext as [| [i v] ext IH]; intros Hf; cbn; [by rewrite Z.eqb_refl |].
  apply Forall_cons in Hf as [Hi Hf]. cbn in Hi. rewrite (proj2 (Z.eqb_neq _ _)) by lia. by apply IH.
Qed.

(** ** Keeping worlds well formed *)

Lemma refund_covers_mono w w' :
  w_refund w <= w_refund w' → (∀ s, cleared w' s → cleared w s) → refund_covers w → refund_covers w'.
Proof. intros Hr Hc Hw l Hl Hf. specialize (Hw l Hl). etrans; [apply Hw | done]. eapply Forall_impl; eauto. Qed.

(** One more slot cleared, one refund more *)
Lemma refund_covers_clear w w' s :
  w_refund w + 4800 <= w_refund w' → (∀ t, t ≠ s → cleared w' t → cleared w t) → refund_covers w → refund_covers w'.
Proof.
  intros Hr Hc Hw l Hl Hf. destruct (decide (s ∈ l)) as [Hin | Hin].
  - destruct (list_elem_of_split _ _ Hin) as (l1 & l2 & ->). apply NoDup_app in Hl as (N1 & N2 & N3).
    apply NoDup_cons in N3 as [N3 N4]. apply Forall_app in Hf as [F1 F2]. apply Forall_cons in F2 as [_ F2].
    assert (Hle : 4800 * len (l1 ++ l2) <= w_refund w).
    { apply Hw.
      - apply NoDup_app. split_and!; [done | | done]. intros t Ht Ht2. apply (N2 t Ht). by right.
      - rewrite Forall_forall in *. intros t Ht. apply elem_of_app in Ht as [Ht | Ht].
        + apply Hc; [| by auto]. intros ->. apply (N2 s Ht). by left.
        + apply Hc; [| by auto]. by intros ->. }
    rewrite !length_app in *. cbn [length]. lia.
  - etrans; [apply (Hw l Hl) | lia]. rewrite Forall_forall in *. intros t Ht. apply Hc; [| auto]. intros ->. done.
Qed.

(** A cleared slot set again takes its refund back. *)
Lemma refund_covers_set w w' s :
  w_refund w - 4800 <= w_refund w' → cleared w s → ¬ cleared w' s → (∀ t, cleared w' t → cleared w t) →
  refund_covers w → refund_covers w'.
Proof.
  intros Hr Hs Hns Hc Hw l Hl Hf. rewrite Forall_forall in Hf.
  assert (Hle : 4800 * len (s :: l) <= w_refund w).
  { apply Hw; [apply NoDup_cons; split; [| done]; intros Hin; by apply Hns, Hf |]. rewrite Forall_forall. intros t [-> | Ht]%elem_of_cons; auto. }
  cbn [length] in Hle. lia.
Qed.

Lemma refund_covers_one w s : refund_covers w → cleared w s → 4800 <= w_refund w.
Proof. intros Hw Hs. specialize (Hw [s]). cbn in Hw. apply Hw; [apply NoDup_singleton | by rewrite Forall_singleton]. Qed.

Lemma refund_nonneg w : refund_covers w → 0 <= w_refund w.
Proof. intros Hw. specialize (Hw []). cbn in Hw. apply Hw; constructor. Qed.

(** The same accounts and refund *)
Lemma world_ok_same w w' : w_account w' = w_account w → w_refund w' = w_refund w → world_ok w → world_ok w'.
Proof.
  intros Ha Hr [Hw Hc]. assert (Hacc : ∀ a, acct w' a = acct w a) by (intros a; unfold acct; by rewrite Ha).
  constructor; [intros a; by rewrite Hacc |]. apply (refund_covers_mono w); [lia | | done].
  intros s. unfold cleared. by rewrite Hacc.
Qed.

Lemma static_same w w' :
  w_account w' = w_account w → w_refund w' = w_refund w → w_logs w' = w_logs w → w_logSize w' = w_logSize w → static_eq w w'.
Proof. intros Ha ? ? ?. constructor; try done. intros a. unfold acct. by rewrite Ha. Qed.
End Worlds.

(** ** Frames *)

Record mem_ok (m : Memory) : Prop := MkMemOk {
  mo_bytes : bytes_ok (store m);
  mo_words : ∃ w, 0 <= w <= 0xFFFFFFFF ∧ len (store m) = 32 * w ∧ lastGasCost m = 3 * w + w * w / 512
}.

Definition address_ok (a : bytes) : Prop := length a = 20%nat ∧ bytes_ok a.

(** A bit vector long enough for the code *)
Definition analysis_of (code : bytes) (a : bitvec) : Prop := bytes_ok a ∧ len a = len code / 8 + 5.

(** The codes at hand: a list of codes, to say which of them a run may meet. *)
Class Codes := codes : list bytes.

(** No two of them have the same hash. *)
Definition codes_apart `{HF : Hasher} `{CS : Codes} : Prop := ∀ c1 c2, c1 ∈ codes → c2 ∈ codes → sum256 c1 = sum256 c2 → c1 = c2.

(** A contract whose code is at hand; an empty code is not run, and a contract without
    the hash of its code keeps its analysis to itself. *)
Definition at_hand `{CS : Codes} (c : Contract) : bool :=
  bool_decide (c_CodeHash c = zeroHash) || (len (c_Code c) =? 0) || bool_decide (c_Code c ∈ codes).

(** The hash of a block that BLOCKHASH asks for is found. *)
Definition blockhash_ok (env : vm_env) : Prop := ∀ n, 0 <= n < 2 ^ 64 → ∃ h, GetHash env n = Ok h.

Section Frames.
  Context `{UI : Uint256} `{HF : Hasher} `{CS : Codes} {SDB : Type} `{DB : VmStateDB SDB} `{SL : !VmStateLaws SDB}.
  Abbreviation frame := (frame (SDB := SDB)).
  Abbreviation zvm := (ZVM SDB).

Record contract_ok (c : Contract) : Prop := MkContractOk {
  co_code : bytes_ok (c_Code c);
  co_size : len (c_Code c) <= MaxInitCodeSize;
  co_input : bytes_ok (c_Input c);
  co_inputLen : len (c_Input c) < 2 ^ 63;
  co_gas : 0 <= c_Gas c < 2 ^ 64;
  co_self : address_ok (c_self c);
  co_analysis : ∀ a, c_analysis c = Some a → analysis_of (c_Code c) a;
  co_hash : c_CodeHash c ≠ zeroHash → c_CodeHash c = sum256 (c_Code c)
}.

(** Every analysis kept is that of a code at hand with the hash it is kept under. *)
Definition jumps_ok (j : gmap bytes bitvec) : Prop :=
  ∀ h a, j !! h = Some a → ∃ code, code ∈ codes ∧ h = sum256 code ∧ analysis_of code a.

Record zvm_ok (z : zvm) : Prop := MkZvmOk {
  zo_jumps : jumps_ok (jumpdests z);
  zo_return : bytes_ok (returnData z)
}.

Record frame_ok (f : frame) (sw : saved_world) : Prop := MkFrameOk {
  fo_models : models (z_state (f_zvm f)) sw;
  fo_world : world_ok (sw_now sw);
  fo_access : is_Some (w_access (sw_now sw) !! c_self (f_contract f));
  fo_zvm : zvm_ok (f_zvm f);
  fo_contract : contract_ok (f_contract f);
  fo_codes : at_hand (f_contract f) = true;
  fo_mem : mem_ok (f_mem f);
  fo_pc : 0 <= f_pc f;
  fo_stack : Z.of_nat (length (f_stack f)) <= StackLimit
}.

(** ** Results *)

(** Gas and refund: every unit of gas is worth at most 199 of refund. *)
Definition potential (w : world) (g : Z) : Z := w_refund w + 199 * g.

(** What a run started at [z0], [sw0] with gas [g] and potential [P], read-only if
    [ro], has left when it ends; the world is only accounted for without an error, since an error makes
    the caller revert. *)
Definition ends (ro : bool) (z0 : zvm) (sw0 : saved_world) (g P : Z) (res : bytes) (err : option vm_error) (z : zvm) (gas : Z) : Prop :=
  ∃ sw, models (z_state z) sw ∧ grows sw0 sw ∧ readOnly z = readOnly z0 ∧ depth z = depth z0 ∧ zvm_ok z ∧ bytes_ok res ∧
    err ≠ Some ErrCodeStoreOutOfGas ∧ 0 <= gas <= g ∧
    (err = None → world_ok (sw_now sw) ∧ evolves ro (sw_now sw0) (sw_now sw) ∧ potential (sw_now sw) gas <= P).

(** What an iteration that goes on has left *)
Definition continues (z0 : zvm) (sw0 : saved_world) (g P : Z) (f : frame) : Prop :=
  ∃ sw, frame_ok f sw ∧ grows sw0 sw ∧ readOnly (f_zvm f) = readOnly z0 ∧ depth (f_zvm f) = depth z0 ∧
    c_Gas (f_contract f) < g ∧ evolves (readOnly z0) (sw_now sw0) (sw_now sw) ∧
    potential (sw_now sw) (c_Gas (f_contract f)) <= P.

Definition ends_frame (z0 : zvm) (sw0 : saved_world) (g P : Z) (res : bytes) (err : option vm_error) (f : frame) : Prop :=
  ends (readOnly z0) z0 sw0 g P res err (f_zvm f) (c_Gas (f_contract f)).

(** After the execution of an instruction *)
Definition executed (z0 : zvm) (sw0 : saved_world) (g P : Z) (r : bytes * option vm_error) (f : frame) : Prop :=
  match snd r with
  | None => continues z0 sw0 g P f
  | Some errStopToken => ends_frame z0 sw0 g P (fst r) None f
  | Some e => ends_frame z0 sw0 g P (fst r) (Some e) f
  end.

(** After an iteration *)
Definition iterated (z0 : zvm) (sw0 : saved_world) (g P : Z) (r : option (bytes * option vm_error)) (f : frame) : Prop :=
  match r with
  | None => continues z0 sw0 g P f
  | Some (res, err) => ends_frame z0 sw0 g P res err f
  end.

(** ** Postconditions of computations *)

Definition wp {A} (m : M (SDB := SDB) A) (Q : A → frame → Prop) (f : frame) : Prop :=
  match m f with Ok (a, f') => Q a f' | _ => False end.

Lemma wp_bind {A B} (m : M (SDB := SDB) A) (k : A → M (SDB := SDB) B) Q f :
  wp m (fun a => wp (k a) Q) f → wp (bind m k) Q f.
Proof. unfold wp, bind. destruct (m f) as [[a f'] | | |]; done. Qed.

Lemma wp_mono {A} (m : M (SDB := SDB) A) (Q R : A → frame → Prop) f :
  (∀ a f', Q a f' → R a f') → wp m Q f → wp m R f.
Proof. unfold wp. destruct (m f) as [[a f'] | | |]; auto. Qed.

Lemma wp_eq {A} (m : M (SDB := SDB) A) (Q : A → frame → Prop) f a f' : m f = Ok (a, f') → Q a f' → wp m Q f.
Proof. unfold wp. by intros ->. Qed.

Lemma wp_elim {A} (m : M (SDB := SDB) A) (Q : A → frame → Prop) f : wp m Q f → ∃ a f', m f = Ok (a, f') ∧ Q a f'.
Proof. unfold wp. destruct (m f) as [[a f'] | | |]; try done. eauto. Qed.

(** ** Runs that meet only the codes at hand *)

(** The interpreter that refuses to run any other code *)
Definition only (run : runner (SDB := SDB)) : runner (SDB := SDB) := fun c input ro z =>
  if at_hand c then run c input ro z else Ok ([], Some ErrInvalidCode, c, z).

#[local] Open Scope vm_scope.

Fixpoint loop_in (env : vm_env) (fuel : nat) : M (SDB := SDB) (bytes * option vm_error) :=
  match fuel with
  | O => fun _ => OutOfFuel
  | S fuel =>
      r <- iteration env (only (run_with (loop_in env fuel))) ;;
      match r with
      | Some r => ret r
      | None => loop_in env fuel
      end
  end.

Definition Run_in (env : vm_env) (fuel : nat) : runner (SDB := SDB) := only (run_with (loop_in env fuel)).

(** What is done with the interpreter meets only the codes at hand: it makes no
    difference to refuse all others. *)
Record meets_codes {A} (env : vm_env) (gas : Z) (act : runner (SDB := SDB) → A) : Prop := MkMeets {
  mc_same : act (Run env (S (Z.to_nat gas))) = act (Run_in env (S (Z.to_nat gas)))
}.
End Frames.
