(* ===== verification/VmMemory.v ===== *)
(** * Memory of the virtual machine: src/core/vm/memory.go, common.go and the
    memory part of gas_table.go

    Accesses inside the memory succeed and keep its size; what is written is read
    back; and expansion costs the difference of a quadratic fee without overflow. *)

From S2P Require Import Prelude TrieNode TrieOps StateAccess State StateWorld StateSupply StateSpec Uint256 VmAnalysis VmCore VmGas VmInstr VmInterp VmLaws VmInv.

(** ** Slices *)

Lemma bytes_ok_app a b : bytes_ok a → bytes_ok b → bytes_ok (a ++ b).
Proof. apply Forall_app_2. Qed.

Lemma slice_ok {E A} (l : list A) a b :
  0 <= a <= b → b <= len l → @slice E A l a b = Ok (take (Z.to_nat (b - a)) (drop (Z.to_nat a) l)).
Proof. intros Hab Hb. unfold slice. by repeat decide_if. Qed.

Lemma slice_length {A} (l : list A) a b :
  0 <= a <= b → b <= len l → len (take (Z.to_nat (b - a)) (drop (Z.to_nat a) l)) = b - a.
Proof. intros Hab Hb. rewrite length_take, length_drop. lia. Qed.

Lemma slice_bytes l a b : bytes_ok l → bytes_ok (take (Z.to_nat (b - a)) (drop (Z.to_nat a) l)).
Proof. intros Hl. by apply Forall_take, Forall_drop. Qed.

Lemma getData_ok {E} data start size :
  bytes_ok data → len data < 2 ^ 63 → 0 <= start → 0 <= size < 2 ^ 63 →
  ∃ d, @getData E data start size = Ok d ∧ len d = size ∧ bytes_ok d.
Proof.
  intros Hd Hlen Hstart Hsize. unfold getData. set (a := if len data <? start then _ else _).
  assert (Ha : 0 <= a <= len data) by (unfold a; case_if; zb; lia).
  unfold u64. rewrite Z.mod_small by lia. set (b := if len data <? a + size then _ else _).
  assert (Hb : a <= b <= len data ∧ b <= a + size) by (unfold b; case_if; zb; lia).
  rewrite slice_ok by lia. cbn [mbind outcome_bind]. eexists. split; [done |].
  pose proof (slice_length data a b ltac:(lia) ltac:(lia)) as Hl. pose proof (slice_bytes data a b Hd) as Hby.
  assert (Hi : int64 size = size) by (unfold int64; by decide_if). rewrite Hi. unfold RightPadBytes.
  case_if; zb; [split; [lia | done] |]. split; [rewrite length_app, repeat_length; lia |].
  apply bytes_ok_app; [done | apply repeat_zero_ok].
Qed.

Lemma copy_into_ok {E} st a b value :
  0 <= a <= b → b <= len st →
  ∃ st', @copy_into E st a b value = Ok st' ∧ length st' = length st ∧ (bytes_ok st → bytes_ok value → bytes_ok st').
Proof.
  intros Hab Hb. unfold copy_into. rewrite slice_ok by lia. cbn [mbind outcome_bind]. eexists. split; [done |]. split.
  - rewrite !length_app, !length_take, length_drop. lia.
  - intros Hs Hv. repeat apply bytes_ok_app; [by apply Forall_take | by apply Forall_take | by apply Forall_drop].
Qed.

(** ** Accesses *)

(** The memory holds [size] bytes from [offset], unless there are none. *)
Definition holds (m : Memory) (offset size : Z) : Prop := 0 <= size ∧ (size = 0 ∨ 0 <= offset ∧ offset + size <= len (store m)).

Lemma mem_len m : mem_ok m → len (store m) <= 0x1FFFFFFFE0.
Proof. intros [_ (w & Hw & -> & _)]. lia. Qed.

Lemma mem_ok_store m st : mem_ok m → length st = length (store m) → bytes_ok st → mem_ok (MkMemory st (lastGasCost m)).
Proof. intros [_ Hw] Hl Hb. constructor; [done |]. cbn. by rewrite Hl. Qed.

Lemma mem_Set_ok {E} m offset size value :
  mem_ok m → holds m offset size → bytes_ok value →
  ∃ m', @mem_Set E offset size value m = Ok m' ∧ mem_ok m' ∧ len (store m') = len (store m).
Proof.
  intros Hm [Hs Hh] Hv. pose proof (mem_len m Hm) as Hl. unfold mem_Set. case_if; zb; [| by exists m].
  destruct Hh as [-> | [Ho Hos]]; [lia |]. unfold u64. rewrite Z.mod_small by lia. decide_if.
  destruct (@copy_into_ok E (store m) offset (offset + size) value) as (st & -> & Hst & Hb); [lia | lia |].
  eexists. split; [done |]. split; [apply mem_ok_store; [done | done | apply Hb; [apply Hm | done]] | cbn; by rewrite Hst].
Qed.

Lemma mem_Set32_ok {E} m offset value :
  mem_ok m → holds m offset 32 → bytes_ok value →
  ∃ m', @mem_Set32 E offset value m = Ok m' ∧ mem_ok m' ∧ len (store m') = len (store m).
Proof.
  intros Hm [_ [? | [Ho Hos]]] Hv; [lia |]. pose proof (mem_len m Hm) as Hl. unfold mem_Set32.
  unfold u64. rewrite Z.mod_small by lia. decide_if.
  destruct (@copy_into_ok E (store m) offset (len (store m)) value) as (st & -> & Hst & Hb); [lia | lia |].
  eexists. split; [done |]. split; [apply mem_ok_store; [done | done | apply Hb; [apply Hm | done]] | cbn; by rewrite Hst].
Qed.

Lemma mem_GetPtr_ok {E} m offset size :
  mem_ok m → holds m offset size → ∃ d, @mem_GetPtr E offset size m = Ok d ∧ bytes_ok d ∧ len d = size.
Proof.
  intros Hm [Hs Hh]. unfold mem_GetPtr. case_if; zb; [subst; exists []; by repeat constructor |].
  destruct Hh as [-> | [Ho Hos]]; [done |]. decide_if. rewrite slice_ok by lia. eexists. split; [done |].
  split; [apply slice_bytes, Hm | rewrite slice_length by lia; lia].
Qed.

Lemma mem_GetCopy_ok {E} m offset size :
  mem_ok m → holds m offset size → ∃ d, @mem_GetCopy E offset size m = Ok d ∧ bytes_ok d ∧ len d = size.
Proof.
  intros Hm Hh. destruct (@mem_GetPtr_ok E m offset size Hm Hh) as (d & Hd & Hb & Hl). exists d. split; [| done].
  rewrite <- Hd. unfold mem_GetCopy, mem_GetPtr. destruct Hh as [Hs _]. repeat case_if; try done. zb; lia.
Qed.

(** ** Fees *)

(** The fee of a memory of [w] words *)
Definition fee (w : Z) : Z := 3 * w + w * w / 512.

Lemma fee_mono v w : 0 <= v <= w → fee v <= fee w.
Proof. intros Hvw. unfold fee. assert (v * v / 512 <= w * w / 512) by (apply Z.div_le_mono; nia). lia. Qed.

Lemma fee_bound w : 0 <= w <= 0xFFFFFFFF → 0 <= fee w < 2 ^ 56.
Proof.
  intros Hw. split; [apply (fee_mono 0 w); lia |]. pose proof (fee_mono w 0xFFFFFFFF Hw) as H.
  assert (fee 0xFFFFFFFF < 2 ^ 56) by done. lia.
Qed.

Lemma toWordSize_small n : 0 <= n <= 0x1FFFFFFFE0 → toWordSize n = (n + 31) / 32.
Proof. intros Hn. unfold toWordSize, MaxUint64. by decide_if. Qed.

Section Fees.
  Context `{UI : Uint256} {SDB : Type}.
  Abbreviation frame := (frame (SDB := SDB)).

Definition with_mem (m : Memory) (f : frame) : frame := MkFrame (f_zvm f) (f_pc f) (f_stack f) m (f_contract f).

Lemma memoryGasCost_ok size f w :
  0 <= size → 0 <= w <= 0xFFFFFFFF → len (store (f_mem f)) = 32 * w → lastGasCost (f_mem f) = fee w →
  memoryGasCost size f =
    if 0x1FFFFFFFE0 <? size then Ok ((0, Some ErrGasUintOverflow), f)
    else let w' := Z.max w ((size + 31) / 32) in Ok ((fee w' - fee w, None), with_mem (MkMemory (store (f_mem f)) (fee w')) f).
Proof.
  intros Hsize Hw Hlen Hlast. unfold memoryGasCost.
  assert (Hsame : Ok ((0, None), f) = Ok ((fee w - fee w, @None vm_error), with_mem (MkMemory (store (f_mem f)) (fee w)) f) :> outcome Empty_set _).
  { rewrite <- Hlast, Z.sub_diag. by destruct f as [? ? ? [] ?]. }
  destruct (Z.eqb_spec size 0) as [-> | Hnz].
  { cbn [Z.ltb Z.compare]. change ((0 + 31) / 32) with 0. rewrite Z.max_l by lia. done. }
  case_if; zb; [done |]. rewrite toWordSize_small by lia. set (v := (size + 31) / 32).
  assert (Hv : 0 <= v <= 0xFFFFFFFF).
  { unfold v. split; [apply Z.div_pos; lia |]. assert (v < 0xFFFFFFFF + 1) by (apply Z.div_lt_upper_bound; lia). fold v. lia. }
  unfold bind, gets. cbn [mbind outcome_bind]. unfold u64. rewrite (Z.mod_small (v * 32)) by lia. rewrite Hlen.
  case_if; zb.
  - rewrite Z.max_r by lia. pose proof (fee_bound v Hv) as Hb. pose proof (fee_mono w v ltac:(lia)) as Hm.
    rewrite !(Z.mod_small (v * v)), (Z.mod_small (v * 3)) by nia. replace (v * 3 + v * v / 512) with (fee v) by (unfold fee; lia).
    rewrite (Z.mod_small (fee v)) by lia. rewrite Hlast, (Z.mod_small (fee v - fee w)) by (pose proof (fee_bound w Hw); lia). done.
  - rewrite Z.max_l by lia. done.
Qed.

(** Growing the memory costs the difference of a quadratic fee: for a memory
    of [w] 32-byte words whose last fee is 3w + w*w/512, memoryGasCost on a requested size
    of at most 0x1FFFFFFFE0 bytes returns the fee of the words needed minus the fee
    already paid (nothing when the memory is large enough), records the new fee, and no
    64-bit operation in it overflows; larger sizes are refused and change nothing. *)
Theorem memoryGasCost_exact size f w :
  0 <= size → 0 <= w <= 0xFFFFFFFF → len (store (f_mem f)) = 32 * w → lastGasCost (f_mem f) = fee w →
  memoryGasCost size f =
    if 0x1FFFFFFFE0 <? size then Ok ((0, Some ErrGasUintOverflow), f)
    else let w' := Z.max w ((size + 31) / 32) in Ok ((fee w' - fee w, None), with_mem (MkMemory (store (f_mem f)) (fee w')) f).
Proof. apply memoryGasCost_ok. Qed.
End Fees.

(** A frame with a memory of two words *)
Definition two_words `{UI : Uint256} : frame (SDB := unit) :=
  MkFrame (MkZVM tt 0 0 false [] ∅) 0 [] (MkMemory (repeat 0 64) 6) (MkContract [] [] None [] [] [] 0 0).

#[local] Existing Instance Z_uint256.

Lemma memoryGasCost_exact_witness :
  memoryGasCost 100 two_words = Ok ((6, None), with_mem (MkMemory (repeat 0 64) 12) two_words) ∧
  memoryGasCost (2 ^ 37) two_words = Ok ((0, Some ErrGasUintOverflow), two_words).
Proof.
  split.
  - exact (memoryGasCost_exact 100 two_words 2 ltac:(lia) ltac:(lia) eq_refl eq_refl).
  - exact (memoryGasCost_exact (2 ^ 37) two_words 2 ltac:(lia) ltac:(lia) eq_refl eq_refl).
Defined.

(** The memory keeps what is written: writing a value with Set at an offset
    where it fits succeeds, reading the same place with GetPtr or GetCopy gives the
    value back, every other byte is as before, and the size and the fee are kept. *)
Theorem mem_Set_Get (m : Memory) offset value :
  value ≠ [] → holds m offset (len value) → len (store m) < 2 ^ 63 →
  ∃ m', @mem_Set Empty_set offset (len value) value m = Ok m' ∧
    @mem_GetPtr Empty_set offset (len value) m' = Ok value ∧ @mem_GetCopy Empty_set offset (len value) m' = Ok value ∧
    (∀ i, Z.of_nat i < offset ∨ offset + len value <= Z.of_nat i → store m' !! i = store m !! i) ∧
    length (store m') = length (store m) ∧ lastGasCost m' = lastGasCost m.
Proof.
  intros Hne [_ Hh] Hlen. assert (Hv : 0 < len value) by (destruct value; [done | cbn; lia]). destruct Hh as [? | [Ho Hin]]; [lia |].
  unfold mem_Set, copy_into. decide_if. unfold u64. rewrite Z.mod_small by lia. decide_if. rewrite slice_ok by lia. cbn [mbind outcome_bind].
  replace (offset + len value - offset) with (len value) by lia. rewrite Nat2Z.id, Nat.min_id, firstn_all.
  set (st := _ ++ _). assert (Hl : length st = length (store m)) by (unfold st; rewrite !length_app, length_take, length_drop; lia).
  assert (Hs : @slice Empty_set Z st offset (offset + len value) = Ok value).
  { rewrite slice_ok by lia. f_equal. replace (offset + len value - offset) with (len value) by lia. rewrite Nat2Z.id. unfold st.
    rewrite drop_app_length' by (rewrite length_take; lia). apply take_app_length. }
  eexists. split; [done |]. unfold mem_GetPtr, mem_GetCopy. cbn [store lastGasCost]. decide_if. rewrite (proj2 (Z.ltb_lt offset _)), (proj2 (Z.ltb_ge (len value) 0)) by lia.
  split_and!; [done | done | | done | done]. intros i [Hi | Hi]; unfold st.
  - rewrite lookup_app_l by (rewrite length_take; lia). by rewrite lookup_take_lt by lia.
  - rewrite app_assoc, lookup_app_r by (rewrite length_app, length_take; lia). rewrite lookup_drop. f_equal. rewrite length_app, length_take. lia.
Qed.

Lemma mem_Set_Get_witness : ∃ m', @mem_Set Empty_set 30 3 [1; 2; 3] (MkMemory (repeat 0 64) 6) = Ok m' ∧ @mem_GetPtr Empty_set 30 3 m' = Ok [1; 2; 3].
Proof.
  destruct (mem_Set_Get (MkMemory (repeat 0 64) 6) 30 [1; 2; 3] ltac:(done) ltac:(split; [lia | right; cbn; lia]) ltac:(cbn; lia)) as (m' & E & G & _). by exists m'.
Defined.
