(* ===== verification/VmSafeOps.v ===== *)
(** * Instructions that do not call keep the frame well formed *)

From S2P Require Import Prelude RlpEncode TrieNode TrieOps StateAccess State StateWorld StateSupply StateSpec Uint256 VmAnalysis VmCore VmGas VmInstr VmInterp VmLaws VmInv VmMemory.

#[local] Arguments codeBitmap : simpl never.
#[local] Arguments codeSegment : simpl never.
#[local] Arguments getData : simpl never.

Section Ops.
  Context `{UI : Uint256} `{UL : !Uint256Laws} `{HF : Hasher} `{HL : !HasherLaws} `{CS : Codes}
    {SDB : Type} `{DB : VmStateDB SDB} `{SL : !VmStateLaws SDB} (env : vm_env).
  Context (Happ : codes_apart).
  Abbreviation frame := (frame (SDB := SDB)).
  Abbreviation zvm := (ZVM SDB).
  Abbreviation exec := (M (SDB := SDB) (bytes * option vm_error)).

(** An execution that costs nothing more and leaves the refund counter *)
Definition quiet (f : frame) (sw : saved_world) (r : bytes * option vm_error) (f' : frame) : Prop :=
  ∃ sw', frame_ok f' sw' ∧ grows sw sw' ∧ readOnly (f_zvm f') = readOnly (f_zvm f) ∧ depth (f_zvm f') = depth (f_zvm f) ∧
    c_Gas (f_contract f') = c_Gas (f_contract f) ∧ evolves (readOnly (f_zvm f)) (sw_now sw) (sw_now sw') ∧
    w_refund (sw_now sw') = w_refund (sw_now sw) ∧ bytes_ok (fst r) ∧ snd r ≠ Some ErrCodeStoreOutOfGas.

(** What is known after the gas is paid, relative to the start of the iteration *)
Record paid (z0 : zvm) (sw0 : saved_world) (g P : Z) (f : frame) (sw : saved_world) : Prop := MkPaid {
  pd_ok : frame_ok f sw;
  pd_grows : grows sw0 sw;
  pd_readOnly : readOnly (f_zvm f) = readOnly z0;
  pd_depth : depth (f_zvm f) = depth z0;
  pd_gas : c_Gas (f_contract f) <= g;
  pd_evolves : evolves (readOnly z0) (sw_now sw0) (sw_now sw);
  pd_potential : potential (sw_now sw) (c_Gas (f_contract f)) <= P
}.

Lemma quiet_executed z0 sw0 g P f sw r f' :
  paid z0 sw0 g P f sw → (snd r = None → c_Gas (f_contract f) < g) → quiet f sw r f' → executed z0 sw0 g P r f'.
Proof.
  intros [Hok Hg Hro Hd Hgas Hev Hp] Hlt (sw' & Hok' & Hg' & Hro' & Hd' & Hgas' & Hev' & Hr' & Hb & Hns).
  assert (Hev2 : evolves (readOnly z0) (sw_now sw0) (sw_now sw')) by (eapply evolves_trans; [done | by rewrite <- Hro]).
  assert (Hp' : potential (sw_now sw') (c_Gas (f_contract f')) <= P) by (unfold potential in *; lia).
  assert (Hcont : c_Gas (f_contract f) < g → continues z0 sw0 g P f').
  { intros Hlt'. exists sw'. split_and!; [done | by eapply grows_trans | congruence | congruence | lia | done | done]. }
  assert (Hends : ∀ err, err ≠ Some ErrCodeStoreOutOfGas → ends_frame z0 sw0 g P (fst r) err f').
  { intros err Herr. exists sw'. pose proof (co_gas _ (fo_contract _ _ Hok')) as Hg2.
    split_and!; [apply Hok' | by eapply grows_trans | congruence | congruence | apply Hok' | done | done | lia | lia |].
    intros _. split_and!; [apply Hok' | done | done]. }
  unfold executed. destruct (snd r) as [e |]; [destruct e; by apply Hends | auto].
Qed.

(** ** Instructions with a constant cost *)

(** What an instruction must do, given that the stack has the size its table entry asks for *)
Definition op_spec (o : operation (SDB := SDB)) : Prop :=
  ∀ f sw P, frame_ok f sw → potential (sw_now sw) (c_Gas (f_contract f)) <= P → P < 2 ^ 64 →
    f_pc f < len (c_Code (f_contract f)) → op_minStack o <= Z.of_nat (length (f_stack f)) <= op_maxStack o →
    wp (perform o) (iterated (f_zvm f) sw (c_Gas (f_contract f)) P) f.

(** The same on at most [G] gas *)
Definition op_upto (G : Z) (o : operation (SDB := SDB)) : Prop :=
  ∀ f sw P, frame_ok f sw → c_Gas (f_contract f) <= G → potential (sw_now sw) (c_Gas (f_contract f)) <= P → P < 2 ^ 64 →
    f_pc f < len (c_Code (f_contract f)) → op_minStack o <= Z.of_nat (length (f_stack f)) <= op_maxStack o →
    wp (perform o) (iterated (f_zvm f) sw (c_Gas (f_contract f)) P) f.

Definition with_gas (g : Z) (f : frame) : frame := MkFrame (f_zvm f) (f_pc f) (f_stack f) (f_mem f) (set_Gas g (f_contract f)).

Lemma contract_ok_gas c g : contract_ok c → 0 <= g < 2 ^ 64 → contract_ok (set_Gas g c).
Proof. intros [] Hg. by constructor. Qed.

Lemma frame_ok_gas f sw g : frame_ok f sw → 0 <= g < 2 ^ 64 → frame_ok (with_gas g f) sw.
Proof. intros [] Hg. constructor; try done. by apply contract_ok_gas. Qed.

Lemma use_gas_eq g f :
  use_gas g f = if c_Gas (f_contract f) <? g then Ok (false, f) else Ok (true, with_gas (c_Gas (f_contract f) - g) f).
Proof.
  unfold use_gas, bind, gets, UseGas, set_contract, ret. cbn. case_if; cbn; [by destruct f | done].
Qed.

(** A frame that stops with an error *)
Lemma stop_ends f sw P e : frame_ok f sw → e ≠ ErrCodeStoreOutOfGas → ends_frame (f_zvm f) sw (c_Gas (f_contract f)) P [] (Some e) f.
Proof.
  intros Hok He. exists sw. pose proof (co_gas _ (fo_contract _ _ Hok)).
  split_and!; [apply Hok | apply grows_refl | done | done | apply Hok | constructor | congruence | lia | lia | done].
Qed.

Lemma executed_step z0 sw0 g P o f :
  wp (execute o) (executed z0 sw0 g P) f → wp (execute_step o) (iterated z0 sw0 g P) f.
Proof.
  intros Hw. unfold execute_step. apply wp_bind. eapply wp_mono; [| exact Hw]. clear Hw. intros [res err] f' Hx.
  unfold executed in Hx. cbn in Hx. destruct err as [e |]; [by destruct e |].
  unfold wp, bind, gets, set_pc, ret. cbn. destruct Hx as (sw & [] & Hrest). exists sw. split; [| done].
  constructor; try done. cbn. unfold u64. apply Z.mod_pos_bound. lia.
Qed.

Lemma perform_plain o :
  dynamicGas o = None → 0 < constantGas o →
  (∀ f sw, frame_ok f sw → f_pc f < len (c_Code (f_contract f)) → op_minStack o <= Z.of_nat (length (f_stack f)) <= op_maxStack o →
     wp (execute o) (quiet f sw) f) →
  op_spec o.
Proof.
  intros Hdyn Hcost Hexec f sw P Hok Hpot HP Hpc Hst. unfold perform. apply wp_bind.
  unfold wp at 1. rewrite use_gas_eq. pose proof (co_gas _ (fo_contract _ _ Hok)) as Hg. case_if; zb.
  { by apply stop_ends. }
  rewrite Hdyn. apply executed_step.
  assert (Hok' : frame_ok (with_gas (c_Gas (f_contract f) - constantGas o) f) sw) by (apply frame_ok_gas; [done | lia]).
  eapply wp_mono; [| exact (Hexec _ sw Hok' Hpc Hst)].
  intros r f' Hq. eapply quiet_executed; [| | exact Hq]; [| cbn; lia].
  constructor; cbn; [done | apply grows_refl | done | done | lia | apply evolves_refl |].
  unfold potential in *. lia.
Qed.

(** An instruction that ends the run and costs nothing *)
Lemma perform_halt o f sw P :
  dynamicGas o = None → constantGas o = 0 → frame_ok f sw → potential (sw_now sw) (c_Gas (f_contract f)) <= P →
  wp (execute o) (fun r f' => quiet f sw r f' ∧ snd r ≠ None) f →
  wp (perform o) (iterated (f_zvm f) sw (c_Gas (f_contract f)) P) f.
Proof.
  intros Hdyn Hcost Hok Hpot Hexec. unfold perform. apply wp_bind.
  unfold wp at 1. rewrite use_gas_eq, Hcost. pose proof (co_gas _ (fo_contract _ _ Hok)) as Hg. decide_if.
  rewrite Hdyn. apply executed_step. rewrite Z.sub_0_r.
  replace (with_gas (c_Gas (f_contract f)) f) with f by by destruct f as [? ? ? ? []].
  eapply wp_mono; [| exact Hexec]. intros r f' [Hq Hr]. eapply quiet_executed; [| done | exact Hq].
  constructor; [done | apply grows_refl | done | done | lia | apply evolves_refl | done].
Qed.

(** ** Changes of the stack *)

Definition with_stack (st : list Int) (f : frame) : frame := MkFrame (f_zvm f) (f_pc f) st (f_mem f) (f_contract f).

(** The world is the same. *)
Lemma quiet_same f f' sw res err :
  frame_ok f' sw → readOnly (f_zvm f') = readOnly (f_zvm f) → depth (f_zvm f') = depth (f_zvm f) →
  c_Gas (f_contract f') = c_Gas (f_contract f) → bytes_ok res → err ≠ Some ErrCodeStoreOutOfGas → quiet f sw (res, err) f'.
Proof. intros. exists sw. split_and!; auto using grows_refl, evolves_refl. Qed.

Lemma frame_quiet_refl f sw res err : frame_ok f sw → bytes_ok res → err ≠ Some ErrCodeStoreOutOfGas → quiet f sw (res, err) f.
Proof. intros Hok Hb He. by apply quiet_same. Qed.

Lemma frame_ok_stack f sw st : frame_ok f sw → Z.of_nat (length st) <= StackLimit → frame_ok (with_stack st f) sw.
Proof. by intros [] ?; constructor. Qed.

Lemma quiet_stack f sw st res err :
  frame_ok f sw → Z.of_nat (length st) <= StackLimit → bytes_ok res → err ≠ Some ErrCodeStoreOutOfGas → quiet f sw (res, err) (with_stack st f).
Proof.
  intros Hok Hst Hb He. apply quiet_same; auto using frame_ok_stack.
Qed.

Lemma bytes_ok_nil : bytes_ok [].
Proof. constructor. Qed.

Lemma push_quiet x f sw : frame_ok f sw → Z.of_nat (length (f_stack f)) < StackLimit → wp (push_val x) (quiet f sw) f.
Proof.
  intros Hok Hst. apply (wp_eq _ _ _ ([], None) (with_stack (x :: f_stack f) f)); [done |].
  apply quiet_stack; [done | cbn [length]; lia | apply bytes_ok_nil | done].
Qed.

Lemma unary_quiet u f sw : frame_ok f sw → (1 <= length (f_stack f))%nat → wp (unary u) (quiet f sw) f.
Proof.
  intros Hok Hst. destruct f as [z pc st m c]. cbn in Hst. destruct st as [| x st]; [cbn in Hst; lia |].
  apply (wp_eq _ _ _ ([], None) (with_stack (u x :: st) (MkFrame z pc (x :: st) m c))); [done |].
  apply quiet_stack; [done | | apply bytes_ok_nil | done]. apply (fo_stack _ _ Hok).
Qed.

Lemma binary_quiet u f sw : frame_ok f sw → (2 <= length (f_stack f))%nat → wp (binary u) (quiet f sw) f.
Proof.
  intros Hok Hst. destruct f as [z pc st m c]. cbn in Hst. destruct st as [| x [| y st]]; try (cbn in Hst; lia).
  apply (wp_eq _ _ _ ([], None) (with_stack (u x y :: st) (MkFrame z pc (x :: y :: st) m c))); [done |].
  apply quiet_stack; [done | | apply bytes_ok_nil | done]. pose proof (fo_stack _ _ Hok) as H. cbn in *. lia.
Qed.

(** ** Reads of the state *)

Definition with_zstate (s : SDB) (f : frame) : frame :=
  MkFrame (with_state s (f_zvm f)) (f_pc f) (f_stack f) (f_mem f) (f_contract f).

Lemma frame_ok_state f sw s : frame_ok f sw → models s sw → frame_ok (with_zstate s f) sw.
Proof. intros [? ? ? [] ? ? ? ?] Hs. by constructor. Qed.

Lemma db_get_eq {A} (g : SDB → A * SDB) f :
  db_get g f = let '(a, s) := g (z_state (f_zvm f)) in Ok (a, with_zstate s f).
Proof. unfold db_get, bind, gets. cbn. by destruct (g _). Qed.

Lemma quiet_state_stack f sw s st res err :
  frame_ok f sw → models s sw → Z.of_nat (length st) <= StackLimit → bytes_ok res → err ≠ Some ErrCodeStoreOutOfGas →
  quiet f sw (res, err) (with_stack st (with_zstate s f)).
Proof.
  intros Hok Hs Hst Hb He. apply quiet_same; auto using frame_ok_stack, frame_ok_state.
Qed.

Lemma frame_read_quiet {A} (g : Int → SDB → A * SDB) (h : A → Int) f sw :
  frame_ok f sw → (1 <= length (f_stack f))%nat → (∀ x s, models s sw → models (g x s).2 sw) →
  wp (bind peek (fun x => bind (db_get (g x)) (fun a => bind (poke (h a)) (fun _ => done_)))) (quiet f sw) f.
Proof.
  intros Hok Hst Hg. destruct f as [z pc st m c]. cbn in Hst. destruct st as [| x st]; [cbn in Hst; lia |].
  pose proof (Hg x _ (fo_models _ _ Hok)) as Hm. pose proof (fo_stack _ _ Hok) as Hlen. cbn in Hm, Hlen.
  unfold wp, bind, peek, Back, gets. cbn. destruct (g x (z_state z)) as [a s] eqn:Eg. cbn.
  cbn in Hm. exact (quiet_state_stack _ sw s (h a :: st) [] None Hok Hm ltac:(cbn; lia) bytes_ok_nil ltac:(done)).
Qed.

Lemma opBalance_quiet f sw : frame_ok f sw → (1 <= length (f_stack f))%nat → wp opBalance (quiet f sw) f.
Proof. intros Hok Hst. apply frame_read_quiet; [done | done |]. intros x s Hs. by apply law_GetBalance. Qed.

Lemma opExtCodeSize_quiet f sw : frame_ok f sw → (1 <= length (f_stack f))%nat → wp opExtCodeSize (quiet f sw) f.
Proof. intros Hok Hst. apply frame_read_quiet; [done | done |]. intros x s Hs. by apply law_GetCodeSize. Qed.

Lemma opSload_quiet f sw : frame_ok f sw → (1 <= length (f_stack f))%nat → wp opSload (quiet f sw) f.
Proof.
  intros Hok Hst.
  assert (Hw := frame_read_quiet (fun x => db_GetState (c_self (f_contract f)) (u_Bytes32 x)) u_SetBytes f sw Hok Hst
                  (fun x s Hs => proj2 (law_GetState _ _ _ _ Hs))).
  destruct f as [z pc st m c]. destruct st as [| x st]; [cbn in Hst; lia |]. exact Hw.
Qed.

Lemma opExtCodeHash_quiet f sw : frame_ok f sw → (1 <= length (f_stack f))%nat → wp opExtCodeHash (quiet f sw) f.
Proof.
  intros Hok Hst. destruct f as [z pc st m c]. cbn in Hst. destruct st as [| x st]; [cbn in Hst; lia |].
  pose proof (fo_stack _ _ Hok) as Hlen. cbn in Hlen. destruct (law_Empty (u_Bytes20 x) _ _ (fo_models _ _ Hok)) as [_ Hm].
  unfold wp, opExtCodeHash, bind, peek, Back, gets. cbn in *.
  destruct (db_Empty (u_Bytes20 x) (z_state z)) as [b s] eqn:Ee. cbn in Hm. destruct b; cbn.
  - exact (quiet_state_stack _ sw s (u_zero :: st) [] None Hok Hm ltac:(cbn; lia) bytes_ok_nil ltac:(done)).
  - destruct (law_GetCodeHash (u_Bytes20 x) _ _ Hm) as [_ Hm'].
    destruct (db_GetCodeHash (u_Bytes20 x) s) as [h s'] eqn:Eh. cbn in Hm' |- *.
    exact (quiet_state_stack _ sw s' (u_SetBytes h :: st) [] None Hok Hm' ltac:(cbn; lia) bytes_ok_nil ltac:(done)).
Qed.

Lemma opSelfBalance_quiet f sw : frame_ok f sw → Z.of_nat (length (f_stack f)) < StackLimit → wp opSelfBalance (quiet f sw) f.
Proof.
  intros Hok Hst. destruct f as [z pc st m c]. cbn in Hst. destruct (law_GetBalance (c_self c) _ _ (fo_models _ _ Hok)) as [_ Hm].
  unfold wp, opSelfBalance, bind, gets. cbn in *.
  destruct (db_GetBalance (c_self c) (z_state z)) as [b s]. cbn in Hm |- *.
  exact (quiet_state_stack _ sw s (u_FromBig b :: st) [] None Hok Hm ltac:(cbn [length]; lia) bytes_ok_nil ltac:(done)).
Qed.

(** ** Data, pushes, duplications and swaps *)

Lemma opCallDataLoad_quiet f sw : frame_ok f sw → (1 <= length (f_stack f))%nat → wp opCallDataLoad (quiet f sw) f.
Proof.
  intros Hok Hst. destruct f as [z pc st m c]. cbn in Hst. destruct st as [| x st]; [cbn in Hst; lia |].
  pose proof (fo_stack _ _ Hok) as Hlen. cbn in Hlen. pose proof (fo_contract _ _ Hok) as Hc. cbn in Hc.
  unfold wp, opCallDataLoad, bind, peek, Back, gets. cbn.
  assert (Hq : ∀ y, quiet (MkFrame z pc (x :: st) m c) sw ([], None) (MkFrame z pc (y :: st) m c))
    by (intros y; exact (quiet_stack _ sw (y :: st) [] None Hok ltac:(cbn [length]; lia) bytes_ok_nil ltac:(done))).
  destruct (negb (negb (u_IsUint64 x))); [| apply Hq].
  pose proof (Uint64_range x) as Hx.
  destruct (@getData_ok Empty_set (c_Input c) (u_Uint64 x) 32) as (d & Ed & _); [apply Hc | apply Hc | lia | lia |].
  unfold lift. cbn. rewrite Ed. cbn. apply Hq.
Qed.

Lemma opPush1_quiet f sw :
  frame_ok f sw → f_pc f < len (c_Code (f_contract f)) → Z.of_nat (length (f_stack f)) < StackLimit → wp opPush1 (quiet f sw) f.
Proof.
  intros Hok Hpc Hst. destruct f as [z pc st m c]. cbn in *. pose proof (fo_pc _ _ Hok) as H0. cbn in H0.
  pose proof (co_size _ (fo_contract _ _ Hok)) as Hsz. cbn in Hsz.
  assert (Hq : ∀ y, quiet (MkFrame z pc st m c) sw ([], None) (MkFrame z (pc + 1) (y :: st) m c)).
  { intros y. apply quiet_same; try done.
    destruct Hok. constructor; cbn in *; try done; lia. }
  unfold wp, opPush1, bind, gets, set_pc. cbn. unfold u64. rewrite Z.mod_small by lia. case_if; zb; [| apply Hq].
  destruct (lookup_lt_is_Some_2 (c_Code c) (Z.to_nat (pc + 1)) ltac:(lia)) as [b Hb].
  unfold lift. rewrite (at_index _ _ b) by (lia || done). cbn. apply Hq.
Qed.

Lemma makePush_quiet n f sw :
  0 <= n <= 32 → frame_ok f sw → f_pc f < len (c_Code (f_contract f)) → Z.of_nat (length (f_stack f)) < StackLimit →
  wp (makePush n n) (quiet f sw) f.
Proof.
  intros Hn Hok Hpc Hst. destruct f as [z pc st m c]. cbn in *. pose proof (fo_pc _ _ Hok) as H0. cbn in H0.
  pose proof (co_size _ (fo_contract _ _ Hok)) as Hsz. cbn in Hsz.
  unfold wp, makePush, bind, gets, set_pc, lift. cbn. unfold u64. rewrite !(Z.mod_small (pc + _)) by lia.
  assert (Hi : int64 (pc + 1) = pc + 1) by (unfold int64; by decide_if). rewrite Hi.
  assert (Es : (if pc + 1 <? len (c_Code c) then pc + 1 else len (c_Code c)) = pc + 1) by (case_if; zb; lia). rewrite Es.
  set (b := if pc + 1 + n <? len (c_Code c) then _ else _).
  assert (Hb : pc + 1 <= b <= len (c_Code c)) by (unfold b; case_if; zb; lia).
  rewrite slice_ok by lia. cbn. apply quiet_same; try done.
  destruct Hok. constructor; cbn in *; try done; lia.
Qed.

Lemma makeDup_quiet n f sw :
  (1 <= n)%nat → frame_ok f sw → (n <= length (f_stack f))%nat → Z.of_nat (length (f_stack f)) < StackLimit → wp (makeDup n) (quiet f sw) f.
Proof.
  intros Hn Hok Hst Hlt. destruct (lookup_lt_is_Some_2 (f_stack f) (n - 1) ltac:(lia)) as [x Hx].
  apply (wp_eq _ _ _ ([], None) (with_stack (x :: f_stack f) f)).
  - unfold makeDup, dup, Back, bind, gets. cbn. rewrite Hx. done.
  - apply quiet_stack; [done | cbn [length]; lia | apply bytes_ok_nil | done].
Qed.

Lemma makeSwap_quiet n f sw : frame_ok f sw → (n + 1 <= length (f_stack f))%nat → wp (makeSwap n) (quiet f sw) f.
Proof.
  intros Hok Hst. destruct (lookup_lt_is_Some_2 (f_stack f) (n + 1 - 1) ltac:(lia)) as [x Hx].
  destruct (lookup_lt_is_Some_2 (f_stack f) 0 ltac:(lia)) as [y Hy].
  eapply wp_eq.
  - unfold makeSwap, swap, bind, gets. cbn. rewrite Hx, Hy. done.
  - apply (quiet_stack f sw _ [] None); [done | rewrite !length_insert; apply Hok | apply bytes_ok_nil | done].
Qed.

(** ** Jumps *)

(** Only the kept analyses changed. *)
Definition same_frame (f : frame) (sw : saved_world) (f' : frame) : Prop :=
  frame_ok f' sw ∧ f_stack f' = f_stack f ∧ readOnly (f_zvm f') = readOnly (f_zvm f) ∧ depth (f_zvm f') = depth (f_zvm f) ∧
  c_Gas (f_contract f') = c_Gas (f_contract f).

Lemma codeSegment_ok code a udest :
  analysis_of code a → 0 <= udest < len code → ∃ b, @codeSegment Empty_set a udest = Ok b.
Proof.
  intros [Hb Hl] Hu. rewrite codeSegment_spec; [by eexists | done | lia |]. rewrite Hl.
  assert (udest / 8 <= len code / 8) by (apply Z.div_le_mono; lia). lia.
Qed.

Lemma contract_ok_analysis c a : contract_ok c → analysis_of (c_Code c) a → contract_ok (set_analysis (Some a) c).
Proof. intros [] Ha. constructor; try done. by intros b [= <-]. Qed.

Lemma isCode_ok udest f sw :
  frame_ok f sw → 0 <= udest < len (c_Code (f_contract f)) → wp (isCode udest) (fun _ => same_frame f sw) f.
Proof.
  intros Hok Hu. destruct f as [z pc st m c]. cbn in Hu. pose proof (fo_contract _ _ Hok) as Hc. cbn in Hc.
  pose proof (fo_zvm _ _ Hok) as Hz. cbn in Hz.
  assert (Hnew : ∃ a, @codeBitmap Empty_set (c_Code c) = Ok a ∧ analysis_of (c_Code c) a).
  { destruct (codeBitmap_spec (c_Code c) (co_code _ Hc)) as (a & Ea & Hl & Hb & _). by exists a. }
  destruct Hnew as (a0 & Ea & Ha0).
  assert (Hset : ∀ a j, analysis_of (c_Code c) a → jumps_ok j →
    same_frame (MkFrame z pc st m c) sw (MkFrame (with_jumpdests j z) pc st m (set_analysis (Some a) c))).
  { intros a j Ha Hj. split_and!; try done. destruct Hok as [? ? ? [] ? ? ? ? ?]. constructor; try done. by apply contract_ok_analysis. }
  assert (Hseg : ∀ a, analysis_of (c_Code c) a → ∃ b, @codeSegment Empty_set a udest = Ok b) by (intros; by eapply codeSegment_ok).
  unfold wp, isCode, bind, gets. cbn. destruct (c_analysis c) as [a |] eqn:Eca.
  { destruct (Hseg a (co_analysis _ Hc _ Eca)) as [b Eb]. unfold lift. rewrite Eb. cbn. by split_and!. }
  assert (Hin : c_CodeHash c ≠ zeroHash → c_Code c ∈ codes).
  { pose proof (fo_codes _ _ Hok) as Hk. cbn in Hk. unfold at_hand in Hk. intros Hh. rewrite bool_decide_false, (proj2 (Z.eqb_neq _ 0)) in Hk by (done || lia). by apply bool_decide_eq_true in Hk. }
  pose proof (zo_jumps _ Hz) as Hj. case_bool_decide as Hh; cbn.
  { unfold lift. rewrite Ea. cbn. destruct (Hseg a0 Ha0) as [b ->]. cbn. destruct z. by apply (Hset a0). }
  destruct (jumpdests z !! c_CodeHash c) as [a |] eqn:Ej.
  - destruct (Hj _ _ Ej) as (code & Hsz & Hcode & [Hb Hl]).
    assert (Ha : analysis_of (c_Code c) a).
    { split; [done |]. rewrite Hl. rewrite (Happ code (c_Code c)); [done | done | by apply Hin |]. rewrite <- Hcode. by apply Hc. }
    cbn. unfold lift. destruct (Hseg a Ha) as [b ->]. cbn. destruct z. by apply (Hset a).
  - unfold lift. rewrite Ea. cbn. destruct (Hseg a0 Ha0) as [b ->]. cbn. apply (Hset a0 (<[c_CodeHash c := a0]> (jumpdests z))); [done |].
    intros h a. rewrite lookup_insert_Some. intros [[<- <-] | [_ ?]]; [| by apply Hj].
    exists (c_Code c). split_and!; [by apply Hin | by apply Hc | done].
Qed.

Lemma validJumpdest_ok dest f sw : frame_ok f sw → wp (validJumpdest dest) (fun _ => same_frame f sw) f.
Proof.
  intros Hok. assert (Hrefl : same_frame f sw f) by done.
  unfold wp, validJumpdest, bind, gets. cbn. case_if; [done |]. zb.
  pose proof (Uint64_range dest) as Hr.
  destruct (lookup_lt_is_Some_2 (c_Code (f_contract f)) (Z.to_nat (u_Uint64 dest)) ltac:(lia)) as [b Hb].
  unfold lift. rewrite (at_index _ _ b) by (lia || done). cbn. case_if; [done |].
  pose proof (isCode_ok (u_Uint64 dest) f sw Hok ltac:(lia)) as Hw. exact Hw.
Qed.

Lemma jump_to_quiet pos f f0 sw :
  frame_ok f sw → readOnly (f_zvm f) = readOnly (f_zvm f0) → depth (f_zvm f) = depth (f_zvm f0) →
  c_Gas (f_contract f) = c_Gas (f_contract f0) → wp (jump_to pos) (quiet f0 sw) f.
Proof.
  intros Hok Hro Hd Hg. unfold jump_to. apply wp_bind.
  eapply wp_mono; [| apply (validJumpdest_ok pos f sw Hok)]. intros b f' (Hok' & Hst' & Hro' & Hd' & Hg').
  destruct b; cbn.
  - unfold wp, bind, set_pc, done_, ret. cbn. apply quiet_same; cbn; try congruence; [| constructor].
    destruct Hok'. constructor; try done. cbn. unfold u64. apply Z.mod_pos_bound. lia.
  - unfold wp, ret. apply quiet_same; try congruence. constructor.
Qed.

Lemma opJump_quiet f sw : frame_ok f sw → (1 <= length (f_stack f))%nat → wp (opJump env) (quiet f sw) f.
Proof.
  intros Hok Hst. unfold opJump. destruct (aborted env); [by apply frame_quiet_refl |].
  destruct f as [z pc st m c]. destruct st as [| x st]; [cbn in Hst; lia |]. apply wp_bind. unfold wp at 1. cbn.
  apply jump_to_quiet; try done. apply (frame_ok_stack (MkFrame z pc (x :: st) m c)); [done |].
  pose proof (fo_stack _ _ Hok) as H. cbn in *. lia.
Qed.

Lemma opJumpi_quiet f sw : frame_ok f sw → (2 <= length (f_stack f))%nat → wp (opJumpi env) (quiet f sw) f.
Proof.
  intros Hok Hst. unfold opJumpi. destruct (aborted env); [by apply frame_quiet_refl |].
  destruct f as [z pc st m c]. destruct st as [| x [| y st]]; try (cbn in Hst; lia). apply wp_bind. unfold wp at 1. cbn.
  apply wp_bind. unfold wp at 1. cbn. pose proof (fo_stack _ _ Hok) as H. cbn in H.
  assert (Hst' : Z.of_nat (length st) <= StackLimit) by lia. case_if.
  - apply jump_to_quiet; try done. by apply (frame_ok_stack (MkFrame z pc (x :: y :: st) m c)).
  - apply (quiet_stack (MkFrame z pc (x :: y :: st) m c)); [done | done | constructor | done].
Qed.

Lemma opPop_quiet f sw : frame_ok f sw → (1 <= length (f_stack f))%nat → wp opPop (quiet f sw) f.
Proof.
  intros Hok Hst. destruct f as [z pc st m c]. destruct st as [| x st]; [cbn in Hst; lia |].
  pose proof (fo_stack _ _ Hok) as H. cbn in H.
  apply (quiet_stack (MkFrame z pc (x :: st) m c) sw st [] None); [done | lia | constructor | done].
Qed.

Lemma ternary_quiet (u : Int → Int → Int → Int) f sw :
  frame_ok f sw → (3 <= length (f_stack f))%nat →
  wp (bind pop (fun x => bind pop (fun y => bind peek (fun z => bind (poke (u x y z)) (fun _ => done_))))) (quiet f sw) f.
Proof.
  intros Hok Hst. destruct f as [z pc st m c]. destruct st as [| x [| y [| w st]]]; try (cbn in Hst; lia).
  pose proof (fo_stack _ _ Hok) as H. cbn in H.
  apply (quiet_stack (MkFrame z pc (x :: y :: w :: st) m c) sw (u x y w :: st) [] None); [done | cbn [length]; lia | constructor | done].
Qed.

Lemma opBlockhash_quiet f sw : blockhash_ok env → frame_ok f sw → (1 <= length (f_stack f))%nat → wp (opBlockhash env) (quiet f sw) f.
Proof.
  intros Hb Hok Hst. destruct f as [z pc st m c]. destruct st as [| x st]; [cbn in Hst; lia |].
  pose proof (fo_stack _ _ Hok) as H. cbn in H.
  assert (Hq : ∀ y, quiet (MkFrame z pc (x :: st) m c) sw ([], None) (MkFrame z pc (y :: st) m c))
    by (intros y; exact (quiet_stack _ sw (y :: st) [] None Hok ltac:(cbn [length]; lia) bytes_ok_nil ltac:(done))).
  unfold wp, opBlockhash, bind, peek, Back, gets. cbn. destruct (negb (u_IsUint64 x)); cbn; [apply Hq |].
  case_if; cbn; [| apply Hq]. destruct (Hb (u_Uint64 x) (Uint64_range x)) as [h ->]. apply Hq.
Qed.

Lemma opStop_quiet f sw : frame_ok f sw → wp opStop (fun r f' => quiet f sw r f' ∧ snd r ≠ None) f.
Proof. intros Hok. split; [apply frame_quiet_refl; [done | constructor | done] | done]. Qed.

Lemma opUndefined_quiet f sw :
  frame_ok f sw → f_pc f < len (c_Code (f_contract f)) → wp opUndefined (fun r f' => quiet f sw r f' ∧ snd r ≠ None) f.
Proof.
  intros Hok Hpc. pose proof (fo_pc _ _ Hok) as H0.
  destruct (lookup_lt_is_Some_2 (c_Code (f_contract f)) (Z.to_nat (f_pc f)) ltac:(lia)) as [b Hb].
  unfold wp, opUndefined, bind, gets, lift. cbn. rewrite (at_index _ _ b) by (lia || done). cbn.
  split; [apply frame_quiet_refl; [done | constructor | done] | done].
Qed.

End Ops.
