(* ===== verification/VmSafeMem.v ===== *)
(** * Instructions with dynamic gas: memory, logs and reads of storage *)

From S2P Require Import Prelude RlpEncode TrieNode TrieOps StateAccess State StateWorld StateSupply StateSpec Uint256 VmAnalysis VmCore VmGas VmInstr VmInterp VmLaws VmInv VmMemory VmSafeOps.

#[local] Arguments getData : simpl never.
#[local] Arguments toWordSize : simpl never.
#[local] Arguments offset_or_max : simpl never.
#[local] Arguments slice : simpl never.
#[local] Arguments mem_Set : simpl never.
#[local] Arguments mem_Set32 : simpl never.
#[local] Arguments mem_GetPtr : simpl never.
#[local] Arguments mem_GetCopy : simpl never.

Section Dynamic.
  Context `{UI : Uint256} `{UL : !Uint256Laws} `{HF : Hasher} `{HL : !HasherLaws} `{CS : Codes}
    {SDB : Type} `{DB : VmStateDB SDB} `{SL : !VmStateLaws SDB} (env : vm_env).
  Abbreviation frame := (frame (SDB := SDB)).
  Abbreviation zvm := (ZVM SDB).
  Abbreviation exec := (M (SDB := SDB) (bytes * option vm_error)).
  Abbreviation operation := (operation (SDB := SDB)).

(** The memory is as large as the instruction asks for. *)
Definition needs (o : operation) (f : frame) : Prop :=
  match memorySize o with
  | None => True
  | Some mf => ∃ v, mf (f_stack f) = Ok (v, false) ∧ 0 <= v <= len (store (f_mem f))
  end.

(** The size function of an instruction answers on every stack the table admits. *)
Definition sized (o : operation) : Prop :=
  match memorySize o with
  | None => True
  | Some mf => ∀ st, op_minStack o <= Z.of_nat (length st) → ∃ v b, mf st = Ok (v, b) ∧ 0 <= v < 2 ^ 64
  end.

(** After the dynamic gas: [X] relates the machine, the stack, the world and the cost. *)
Definition charged (X : zvm → list Int → saved_world → Z → Prop) (ms : Z) (f : frame) (sw : saved_world) (r : Z * option vm_error) (f1 : frame) : Prop :=
  ∃ sw1, models (z_state (f_zvm f1)) sw1 ∧ grows sw sw1 ∧ readOnly (f_zvm f1) = readOnly (f_zvm f) ∧
    depth (f_zvm f1) = depth (f_zvm f) ∧ zvm_ok (f_zvm f1) ∧ 0 <= c_Gas (f_contract f1) <= c_Gas (f_contract f) ∧
    (snd r = None →
       0 <= fst r ∧ X (f_zvm f1) (f_stack f1) sw1 (fst r) ∧ f_pc f1 = f_pc f ∧ f_stack f1 = f_stack f ∧ f_contract f1 = f_contract f ∧
       mem_ok (mem_Resize ms (f_mem f1)) ∧ world_ok (sw_now sw1) ∧ evolves (readOnly (f_zvm f)) (sw_now sw) (sw_now sw1) ∧
       w_refund (sw_now sw1) = w_refund (sw_now sw)).

Lemma words_cover v : 0 <= v < 2 ^ 64 → 0 <= v <= toWordSize v * 32.
Proof.
  intros Hv. unfold toWordSize, MaxUint64. case_if; zb; [change ((2 ^ 64 - 1) / 32) with (2 ^ 59 - 1); lia |].
  pose proof (Z.div_mod (v + 31) 32 ltac:(lia)). pose proof (Z.mod_pos_bound (v + 31) 32 ltac:(lia)). lia.
Qed.

(** What memory_size computes *)
Lemma memory_size_ok o f :
  sized o → op_minStack o <= Z.of_nat (length (f_stack f)) →
  ∃ r, memory_size o f = Ok (r, f) ∧
    match r with
    | None => True
    | Some ms => 0 <= ms < 2 ^ 64 ∧ ms mod 32 = 0 ∧
        match memorySize o with None => ms = 0 | Some mf => ∃ v, mf (f_stack f) = Ok (v, false) ∧ 0 <= v <= ms end
    end.
Proof.
  intros Hs Hst. unfold memory_size, sized in *. destruct (memorySize o) as [mf |]; [| by exists (Some 0)].
  destruct (Hs _ Hst) as (v & b & Ev & Hv). unfold bind, gets, lift. cbn. rewrite Ev. cbn.
  destruct b; [by exists None |]. unfold SafeMul. pose proof (words_cover v Hv) as Hc. case_if; [by exists None |]. zb.
  unfold u64. rewrite Z.mod_small by lia. exists (Some (toWordSize v * 32)). split; [done |].
  split_and!; [lia | lia | apply Z.mod_mul; lia | exists v; split; [done | lia]].
Qed.

Lemma mem_Resize_len ms m : 0 <= ms → ms <= len (store (mem_Resize ms m)).
Proof. intros Hms. unfold mem_Resize. case_if; zb; [| lia]. cbn. rewrite length_app, repeat_length. lia. Qed.

Lemma ends_weaken ro (z0 : zvm) sw0 g g' P res err z gas : g <= g' → ends ro z0 sw0 g P res err z gas → ends ro z0 sw0 g' P res err z gas.
Proof. intros Hg (sw & H1 & H2 & H3 & H4 & H5 & H6 & H7 & H8 & H9). exists sw. split_and!; try done; lia. Qed.

Lemma charged_stop X ms f sw r f1 P g e :
  charged X ms f sw r f1 → e ≠ ErrCodeStoreOutOfGas → c_Gas (f_contract f) <= g → ends_frame (f_zvm f) sw g P [] (Some e) f1.
Proof.
  intros (sw1 & Hm & Hg & Hro & Hd & Hz & Hgas & _) He Hle. exists sw1. split_and!; try done; congruence || lia.
Qed.

Lemma perform_general G o dg X :
  dynamicGas o = Some dg → 0 <= constantGas o → sized o →
  (∀ f sw ms P, frame_ok f sw → op_minStack o <= Z.of_nat (length (f_stack f)) <= op_maxStack o → 0 <= ms < 2 ^ 64 → ms mod 32 = 0 →
     (memorySize o = None → ms = 0) → potential (sw_now sw) (c_Gas (f_contract f)) <= P < 2 ^ 64 → wp (dg ms) (charged X ms f sw) f) →
  (∀ z0 sw0 g P f sw cost, paid z0 sw0 g P f sw → P < 2 ^ 64 → g = c_Gas (f_contract f) + constantGas o + cost → g < 2 ^ 64 → 0 <= cost →
     X (f_zvm f) (f_stack f) sw cost → g <= G → potential (sw_now sw) g <= P →
     f_pc f < len (c_Code (f_contract f)) → op_minStack o <= Z.of_nat (length (f_stack f)) <= op_maxStack o → needs o f →
     wp (execute o) (executed z0 sw0 g P) f) →
  op_upto G o.
Proof.
  intros Hdyn Hcost Hsized Hdg Hexec f sw P Hok HG Hpot HP Hpc Hst. unfold perform. apply wp_bind.
  unfold wp at 1. rewrite use_gas_eq. pose proof (co_gas _ (fo_contract _ _ Hok)) as Hg. case_if; zb.
  { by apply stop_ends. }
  rewrite Hdyn. set (f1 := with_gas (c_Gas (f_contract f) - constantGas o) f).
  assert (Hok1 : frame_ok f1 sw) by (apply frame_ok_gas; [done | lia]).
  apply wp_bind. destruct (memory_size_ok o f1 Hsized ltac:(apply Hst)) as (r & Er & Hr). apply (wp_eq _ _ _ _ _ Er).
  destruct r as [ms |]; [| apply (wp_eq _ _ _ (Some ([], Some ErrGasUintOverflow)) f1); [done |]].
  2: { refine (ends_weaken _ _ _ _ _ _ _ _ _ _ _ (stop_ends f1 sw P ErrGasUintOverflow Hok1 ltac:(done))). cbn. lia. }
  destruct Hr as (Hms & Hmod & Hv). apply wp_bind. eapply wp_mono; [| apply (Hdg f1 sw ms P); try done].
  2: { intros Hnone. by rewrite Hnone in Hv. }
  2: { unfold potential in *. cbn. lia. }
  intros [cost err] f2 Hch. apply wp_bind.
  destruct err as [e |]; [apply (wp_eq _ _ _ (Some ([], Some ErrOutOfGas)) f2); [done |]; refine (charged_stop X ms f1 sw _ f2 P _ ErrOutOfGas Hch ltac:(done) _); cbn; lia |].
  unfold wp at 1. rewrite use_gas_eq. case_if; zb.
  { apply (wp_eq _ _ _ (Some ([], Some ErrOutOfGas)) f2); [done |]; refine (charged_stop X ms f1 sw _ f2 P _ ErrOutOfGas Hch ltac:(done) _); cbn; lia. }
  destruct Hch as (sw2 & Hm2 & Hg2 & Hro2 & Hd2 & Hz2 & Hgas2 & Hrest). destruct (Hrest eq_refl) as (Hc0 & HX & Epc & Est & Ec & Hmem & Hw2 & Hev2 & Href2).
  clear Hrest. cbn [negb]. apply wp_bind. set (f3 := with_gas _ f2).
  apply (wp_eq _ _ _ tt (with_mem (mem_Resize ms (f_mem f2)) f3)).
  { case_if; zb; [done |]. unfold ret. do 2 f_equal. unfold f3, with_mem, with_gas, mem_Resize. cbn. decide_if. done. }
  apply executed_step. cbn [fst snd] in *.
  assert (Hok3 : frame_ok (with_mem (mem_Resize ms (f_mem f2)) f3) sw2).
  { destruct Hok1 as [_ _ Hacc _ Hcon ? _ Hpc1 Hst1]. constructor; cbn; try done; rewrite ?Ec, ?Epc, ?Est; try done.
    - by apply (ev_access _ _ _ Hev2).
    - apply contract_ok_gas; [done |]. rewrite Ec in *. cbn in *. lia. }
  unfold f1 in Ec, Hro2, Hd2. cbn in Ec, Hro2, Hd2.
  eapply (Hexec _ _ _ _ _ sw2 cost); try done.
  - constructor; cbn; try done; [rewrite Ec; cbn; lia |]. unfold potential in *. rewrite Href2, Ec. cbn. lia.
  - cbn. rewrite Ec. cbn. lia.
  - lia.
  - unfold potential in *. lia.
  - cbn. rewrite Ec, Epc. done.
  - cbn. by rewrite Est.
  - unfold needs. destruct (memorySize o) as [mf |]; [| done]. destruct Hv as (v & Ev & Hvm). exists v. cbn.
    rewrite Est. split; [done |]. pose proof (mem_Resize_len ms (f_mem f2)). lia.
Qed.

(** An instruction that is quiet after paying *)
Lemma perform_dynamic o dg lo :
  dynamicGas o = Some dg → 0 <= constantGas o → sized o →
  (∀ f sw ms P, frame_ok f sw → op_minStack o <= Z.of_nat (length (f_stack f)) <= op_maxStack o → 0 <= ms < 2 ^ 64 → ms mod 32 = 0 →
     (memorySize o = None → ms = 0) → potential (sw_now sw) (c_Gas (f_contract f)) <= P < 2 ^ 64 → wp (dg ms) (charged (fun _ _ _ c => lo <= c) ms f sw) f) →
  (∀ f sw, frame_ok f sw → f_pc f < len (c_Code (f_contract f)) → op_minStack o <= Z.of_nat (length (f_stack f)) <= op_maxStack o → needs o f →
     wp (execute o) (fun r f' => quiet f sw r f' ∧ (snd r = None → 0 < constantGas o + lo)) f) →
  op_spec o.
Proof.
  intros Hdyn Hc Hs Hdg Hexec f0 sw1 P0 Hok0. eapply (perform_general (c_Gas (f_contract f0))); [done | done | done | done | | done | done].
  intros z0 sw0 g P f sw cost Hpaid HP Hg Hg64 Hcost HX HG Hpot Hpc Hst Hn.
  eapply wp_mono; [| apply (Hexec f sw (pd_ok _ _ _ _ _ _ Hpaid) Hpc Hst Hn)].
  intros r f' [Hq Hpos]. eapply quiet_executed; [done | | done]. intros Hr. specialize (Hpos Hr). cbn in HX. lia.
Qed.

(** ** Dynamic gas *)

Lemma charged_ret (X : zvm → list Int → saved_world → Z → Prop) ms f sw lg cost err :
  frame_ok f sw → mem_ok (mem_Resize ms (MkMemory (store (f_mem f)) lg)) → (err = None → 0 <= cost ∧ X (f_zvm f) (f_stack f) sw cost) →
  charged X ms f sw (cost, err) (with_mem (MkMemory (store (f_mem f)) lg) f).
Proof.
  intros Hok Hm Hx. exists sw. pose proof (co_gas _ (fo_contract _ _ Hok)) as Hg.
  split_and!; try (done || lia || apply grows_refl || apply Hok). intros He. destruct (Hx He) as [H1 H2].
  split_and!; (done || apply Hok || apply evolves_refl).
Qed.

(** An error of the gas function *)
Lemma charged_err X ms f sw lg cost e :
  frame_ok f sw → charged X ms f sw (cost, Some e) (with_mem (MkMemory (store (f_mem f)) lg) f).
Proof.
  intros Hok. exists sw. pose proof (co_gas _ (fo_contract _ _ Hok)) as Hg.
  split_and!; try (done || lia || apply grows_refl || apply Hok).
Qed.

Lemma mem_cost ms f sw :
  frame_ok f sw → 0 <= ms < 2 ^ 64 → ms mod 32 = 0 →
  memoryGasCost ms f = Ok ((0, Some ErrGasUintOverflow), f) ∨
  ∃ c lg, memoryGasCost ms f = Ok ((c, None), with_mem (MkMemory (store (f_mem f)) lg) f) ∧ 0 <= c < 2 ^ 56 ∧
    mem_ok (mem_Resize ms (MkMemory (store (f_mem f)) lg)).
Proof.
  intros Hok Hms Hmod. destruct (fo_mem _ _ Hok) as [Hb (w & Hw & Hlen & Hlast)].
  rewrite (memoryGasCost_ok ms f w) by (done || lia). case_if; zb; [by left |]. right.
  assert (Hq : (ms + 31) / 32 = ms / 32).
  { pose proof (Z.div_mod ms 32 ltac:(lia)). rewrite Hmod in *. symmetry. apply (Z.div_unique _ _ _ 31); lia. }
  pose proof (Z.div_mod ms 32 ltac:(lia)) as Hdm. rewrite Hmod in Hdm. rewrite Hq. set (v := ms / 32) in *.
  assert (Hv : 0 <= v <= 0xFFFFFFFF) by lia. eexists _, _. split; [done |]. split.
  - pose proof (fee_bound (Z.max w v) ltac:(lia)). pose proof (fee_bound w Hw). pose proof (fee_mono w (Z.max w v) ltac:(lia)). lia.
  - unfold mem_Resize. cbn [store lastGasCost]. case_if; zb.
    + constructor; [apply bytes_ok_app; [done | apply repeat_zero_ok] |]. exists v.
      split; [lia |]. cbn. rewrite Z.max_r by lia. rewrite length_app, repeat_length. split; [lia | done].
    + constructor; [done |]. exists w. split; [lia |]. cbn. rewrite Z.max_l by lia. done.
Qed.

Lemma wp_mem_cost X ms f sw (k : Z → M (SDB := SDB) (Z * option vm_error)) :
  frame_ok f sw → 0 <= ms < 2 ^ 64 → ms mod 32 = 0 →
  (∀ c lg, 0 <= c < 2 ^ 56 → mem_ok (mem_Resize ms (MkMemory (store (f_mem f)) lg)) →
     wp (k c) (charged X ms f sw) (with_mem (MkMemory (store (f_mem f)) lg) f)) →
  wp (or_err (memoryGasCost ms) k) (charged X ms f sw) f.
Proof.
  intros Hok Hms Hmod Hk. unfold or_err. apply wp_bind. destruct (mem_cost ms f sw Hok Hms Hmod) as [E | (c & lg & E & Hc & Hm)].
  - apply (wp_eq _ _ _ _ _ E). unfold wp, ret. pose proof (charged_err X ms f sw (lastGasCost (f_mem f)) 0 ErrGasUintOverflow Hok) as H.
    by destruct f as [? ? ? [] ?].
  - apply (wp_eq _ _ _ _ _ E). by apply Hk.
Qed.

Lemma wp_or_overflow v k (Q : Z * option vm_error → frame → Prop) f :
  Q (0, Some ErrGasUintOverflow) f → (snd v = false → wp (k (fst v)) Q f) → wp (or_overflow v k) Q f.
Proof. intros H1 H2. unfold or_overflow. destruct v as [x b]. cbn in H2. destruct b; [done | by apply H2]. Qed.

Lemma SafeAdd_fst x y : snd (SafeAdd x y) = false → 0 <= x → 0 <= y → fst (SafeAdd x y) = x + y.
Proof. unfold SafeAdd. cbn. intros H Hx Hy. zb. unfold u64. apply Z.mod_small. lia. Qed.

Lemma SafeMul_fst x y : snd (SafeMul x y) = false → 0 <= x → 0 <= y → fst (SafeMul x y) = x * y.
Proof. unfold SafeMul. cbn. intros H Hx Hy. zb. unfold u64. apply Z.mod_small. nia. Qed.

Lemma toWordSize_nonneg n : 0 <= n < 2 ^ 64 → 0 <= toWordSize n.
Proof. intros Hn. pose proof (words_cover n Hn). lia. Qed.

Lemma wp_Back n (k : Int → M (SDB := SDB) (Z * option vm_error)) Q f :
  (n < length (f_stack f))%nat → (∀ x, f_stack f !! n = Some x → wp (k x) Q f) → wp (bind (Back n) k) Q f.
Proof.
  intros Hn Hk. destruct (lookup_lt_is_Some_2 _ _ Hn) as [x Hx]. apply wp_bind. apply (wp_eq _ _ _ x f); [| by apply Hk].
  unfold Back, bind, gets. cbn. by rewrite Hx.
Qed.

Lemma wp_Uint64WithOverflow x k (Q : Z * option vm_error → frame → Prop) f :
  Q (0, Some ErrGasUintOverflow) f → (0 <= u_Uint64 x < 2 ^ 64 → wp (k (u_Uint64 x)) Q f) → wp (or_overflow (u_Uint64WithOverflow x) k) Q f.
Proof. intros H1 H2. apply wp_or_overflow; [done |]. intros _. apply H2, Uint64_range. Qed.

Lemma copier_charged n ms f sw :
  frame_ok f sw → (n < length (f_stack f))%nat → 0 <= ms < 2 ^ 64 → ms mod 32 = 0 → wp (memoryCopierGas n ms) (charged (fun _ _ _ c => 0 <= c) ms f sw) f.
Proof.
  intros Hok Hn Hms Hmod. apply wp_mem_cost; [done | done | done |]. intros c lg Hc Hm.
  apply wp_Back; [done |]. intros x _. assert (Herr := fun v => charged_err (fun _ _ _ c => 0 <= c) ms f sw lg v ErrGasUintOverflow Hok).
  apply wp_Uint64WithOverflow; [apply Herr |]. intros Hx. pose proof (toWordSize_nonneg _ Hx).
  apply wp_or_overflow; [apply Herr |]. intros E1. apply SafeMul_fst in E1 as ->; [| lia | lia].
  apply wp_or_overflow; [apply Herr |]. intros E2. apply SafeAdd_fst in E2 as ->; [| lia | lia].
  apply charged_ret; [done | done |]. intros _. lia.
Qed.

Lemma gasKeccak256_charged ms f sw :
  frame_ok f sw → (1 < length (f_stack f))%nat → 0 <= ms < 2 ^ 64 → ms mod 32 = 0 → wp (gasKeccak256 ms) (charged (fun _ _ _ c => 0 <= c) ms f sw) f.
Proof.
  intros Hok Hn Hms Hmod. apply wp_mem_cost; [done | done | done |]. intros c lg Hc Hm.
  apply wp_Back; [done |]. intros x _. assert (Herr := fun v => charged_err (fun _ _ _ c => 0 <= c) ms f sw lg v ErrGasUintOverflow Hok).
  apply wp_Uint64WithOverflow; [apply Herr |]. intros Hx. pose proof (toWordSize_nonneg _ Hx).
  apply wp_or_overflow; [apply Herr |]. intros E1. apply SafeMul_fst in E1 as ->; [| lia | lia].
  apply wp_or_overflow; [apply Herr |]. intros E2. apply SafeAdd_fst in E2 as ->; [| lia | lia].
  apply charged_ret; [done | done |]. intros _. lia.
Qed.

Lemma makeGasLog_charged n ms f sw :
  0 <= n <= 4 → frame_ok f sw → (1 < length (f_stack f))%nat → 0 <= ms < 2 ^ 64 → ms mod 32 = 0 →
  wp (makeGasLog n ms) (charged (fun _ _ _ c => 375 <= c) ms f sw) f.
Proof.
  intros Hn4 Hok Hn Hms Hmod. apply wp_Back; [done |]. intros x _. set (X := fun _ _ _ c => 375 <= c).
  apply wp_Uint64WithOverflow.
  { pose proof (charged_err X ms f sw (lastGasCost (f_mem f)) 0 ErrGasUintOverflow Hok) as H. by destruct f as [? ? ? [] ?]. }
  intros Hx. apply wp_mem_cost; [done | done | done |]. intros c lg Hc Hm.
  assert (Herr := fun v => charged_err X ms f sw lg v ErrGasUintOverflow Hok).
  apply wp_or_overflow; [apply Herr |]. intros E1. apply SafeAdd_fst in E1 as ->; [| lia | lia].
  assert (En : u64 (n * 375) = n * 375) by (unfold u64; apply Z.mod_small; lia). rewrite En.
  apply wp_or_overflow; [apply Herr |]. intros E2. apply SafeAdd_fst in E2 as ->; [| lia | lia].
  apply wp_or_overflow; [apply Herr |]. intros E3. apply SafeMul_fst in E3 as ->; [| lia | lia].
  apply wp_or_overflow; [apply Herr |]. intros E4. apply SafeAdd_fst in E4 as ->; [| lia | lia].
  apply charged_ret; [done | done |]. intros _. unfold X. lia.
Qed.

Lemma pure_charged ms f sw :
  frame_ok f sw → 0 <= ms < 2 ^ 64 → ms mod 32 = 0 → wp (pureMemoryGascost ms) (charged (fun _ _ _ c => 0 <= c) ms f sw) f.
Proof.
  intros Hok Hms Hmod. unfold pureMemoryGascost. destruct (mem_cost ms f sw Hok Hms Hmod) as [E | (c & lg & E & Hc & Hm)].
  - apply (wp_eq _ _ _ _ _ E).
    pose proof (charged_err (fun _ _ _ c => 0 <= c) ms f sw (lastGasCost (f_mem f)) 0 ErrGasUintOverflow Hok) as H. by destruct f as [? ? ? [] ?].
  - apply (wp_eq _ _ _ _ _ E). apply charged_ret; [done | done |]. intros _. lia.
Qed.

Lemma mem_Resize_0 m : mem_Resize 0 m = m.
Proof. unfold mem_Resize. decide_if. done. Qed.

(** Without memory *)
Lemma charged_same (X : zvm → list Int → saved_world → Z → Prop) f sw cost err :
  frame_ok f sw → (err = None → 0 <= cost ∧ X (f_zvm f) (f_stack f) sw cost) → charged X 0 f sw (cost, err) f.
Proof.
  intros Hok Hx. pose proof (charged_ret X 0 f sw (lastGasCost (f_mem f)) cost err Hok) as H.
  rewrite mem_Resize_0 in H. pose proof (fo_mem _ _ Hok) as Hm. destruct f as [? ? ? [] ?]. by apply H.
Qed.

Lemma gasExp_charged ms f sw :
  frame_ok f sw → (1 < length (f_stack f))%nat → wp (gasExpEIP158 ms) (charged (fun _ _ _ c => 10 <= c) 0 f sw) f.
Proof.
  intros Hok Hn. apply wp_Back; [done |]. intros x _. pose proof (BitLen_range x) as Hb.
  assert (Hl : 0 <= (u_BitLen x + 7) / 8 <= 32).
  { split; [apply Z.div_pos; lia |]. assert ((u_BitLen x + 7) / 8 < 33) by (apply Z.div_lt_upper_bound; lia). lia. }
  assert (Eu : u64 ((u_BitLen x + 7) / 8 * 50) = (u_BitLen x + 7) / 8 * 50) by (unfold u64; apply Z.mod_small; lia).
  cbv zeta. rewrite Eu. apply wp_or_overflow; [by apply charged_same |]. intros E. apply SafeAdd_fst in E as ->; [| lia | lia].
  apply charged_same; [done |]. intros _. lia.
Qed.

(** ** Access lists *)

(** The world with another refund counter and access list *)
Definition tuned (w : world) (r : Z) (acc : gmap bytes (gset bytes)) : world :=
  MkWorld (w_account w) r (w_thash w) (w_txIndex w) (w_logs w) (w_logSize w) (w_preimages w) acc.

(** A state change that touches only the access list *)
Lemma charged_access (X : zvm → list Int → saved_world → Z → Prop) ms f sw lg s acc cost err :
  frame_ok f sw → mem_ok (mem_Resize ms (MkMemory (store (f_mem f)) lg)) →
  let w := sw_now sw in
  models s (with_now (tuned w (w_refund w) acc) sw) →
  (∀ a, is_Some (w_access w !! a) → is_Some (acc !! a)) →
  (err = None → 0 <= cost ∧ X (with_state s (f_zvm f)) (f_stack f) (with_now (tuned w (w_refund w) acc) sw) cost) →
  charged X ms f sw (cost, err) (with_zstate s (with_mem (MkMemory (store (f_mem f)) lg) f)).
Proof.
  intros Hok Hm w Hs Hacc Hx. set (w' := tuned _ _ _) in Hs. exists (with_now w' sw).
  pose proof (co_gas _ (fo_contract _ _ Hok)) as Hg.
  split_and!; [done | apply grows_now | done | done | destruct Hok as [? ? ? [] ? ? ? ? ?]; by constructor | cbn; lia | cbn; lia |].
  intros He. destruct (Hx He) as [H1 H2]. split_and!; try done; cbn; [by apply (world_ok_same w), Hok | by apply evolves_same].
Qed.

Lemma add_address_models a s sw :
  models s sw →
  ∃ acc, let w := sw_now sw in
    models (db_AddAddressToAccessList a s)
      (with_now (tuned w (w_refund w) acc) sw) ∧
    (∀ b, is_Some (w_access w !! b) → is_Some (acc !! b)) ∧ is_Some (acc !! a).
Proof.
  intros Hs. pose proof (law_op (OpAddAddress a) s sw eq_refl Hs) as H. cbn in H. destruct H as (s' & [= <-] & Hs').
  eexists. split; [exact Hs' |]. destruct (w_access (sw_now sw) !! a) eqn:Ea; [split; [done | eauto] |]. split.
  - intros b Hb. rewrite lookup_insert. case_decide; [eauto | done].
  - rewrite lookup_insert. rewrite decide_True by done. eauto.
Qed.

Lemma add_slot_models a k s sw :
  models s sw →
  ∃ s' acc, let w := sw_now sw in
    db_AddSlotToAccessList a k s = Ok s' ∧
    models s' (with_now (tuned w (w_refund w) acc) sw) ∧
    (∀ b, is_Some (w_access w !! b) → is_Some (acc !! b)).
Proof.
  intros Hs. pose proof (law_op (OpAddSlot a k) s sw eq_refl Hs) as H. cbn in H. destruct H as (s' & Er & Hs').
  eexists s', _. split; [done |]. split; [exact Hs' |]. intros b Hb. rewrite lookup_insert. case_decide; [eauto | done].
Qed.

Lemma with_mem_same (f : frame) : with_mem (MkMemory (store (f_mem f)) (lastGasCost (f_mem f))) f = f.
Proof. by destruct f as [? ? ? [] ?]. Qed.

Lemma mem_ok_resize_0 f sw : frame_ok f sw → mem_ok (mem_Resize 0 (MkMemory (store (f_mem f)) (lastGasCost (f_mem f)))).
Proof. intros Hok. rewrite mem_Resize_0. pose proof (fo_mem _ _ Hok) as Hm. by destruct (f_mem f). Qed.

(** The access of an address, then a cost *)
Lemma address_charged (X : zvm → list Int → saved_world → Z → Prop) ms f sw lg a cost err :
  frame_ok f sw → mem_ok (mem_Resize ms (MkMemory (store (f_mem f)) lg)) →
  (err = None → 0 <= cost ∧ ∀ s acc, is_Some (acc !! a) →
     X (with_state s (f_zvm f)) (f_stack f) (with_now (tuned (sw_now sw) (w_refund (sw_now sw)) acc) sw) cost) →
  let f1 := with_mem (MkMemory (store (f_mem f)) lg) f in
  charged X ms f sw (cost, err) (with_zstate (db_AddAddressToAccessList a (z_state (f_zvm f1))) f1).
Proof.
  intros Hok Hm Hx f1. destruct (add_address_models a _ _ (fo_models _ _ Hok)) as (acc & Hs & Hacc & Ha).
  eapply charged_access; [done | done | exact Hs | done |]. intros He. destruct (Hx He). auto.
Qed.

Lemma gasSLoad_charged ms f sw :
  frame_ok f sw → (0 < length (f_stack f))%nat → wp (gasSLoadEIP2929 ms) (charged (fun _ _ _ c => 100 <= c) 0 f sw) f.
Proof.
  intros Hok Hn. apply wp_Back; [done |]. intros x _. set (slot := u_Bytes32 x). cbv zeta.
  unfold wp, bind, gets, lift. cbn. rewrite (law_SlotInAccessList _ _ _ _ (fo_models _ _ Hok)). cbn.
  set (p := match w_access (sw_now sw) !! c_self (f_contract f) with Some _ => _ | None => _ end). destruct p as [ap sp].
  destruct sp; cbn.
  - apply charged_same; [done |]. intros _. lia.
  - unfold db_try, bind, gets, lift. cbn. destruct (add_slot_models (c_self (f_contract f)) slot _ _ (fo_models _ _ Hok)) as (s' & acc & Es & Hs & Hacc).
    rewrite Es. cbn. pose proof (charged_access (fun _ _ _ c => 100 <= c) 0 f sw (lastGasCost (f_mem f)) s' acc 2100 None Hok (mem_ok_resize_0 _ _ Hok) Hs Hacc) as H.
    rewrite with_mem_same in H. apply H. intros _. lia.
Qed.

Lemma accountCheck_charged ms f sw :
  frame_ok f sw → (0 < length (f_stack f))%nat → wp (gasEip2929AccountCheck ms) (charged (fun _ _ _ c => 0 <= c) 0 f sw) f.
Proof.
  intros Hok Hn. apply wp_Back; [done |]. intros x _. cbv zeta. unfold wp, bind, gets. cbn. case_if.
  - pose proof (address_charged (fun _ _ _ c => 0 <= c) 0 f sw (lastGasCost (f_mem f)) (u_Bytes20 x) (2600 - 100) None Hok (mem_ok_resize_0 _ _ Hok)) as H.
    rewrite with_mem_same in H. apply H. intros _. split; [lia |]. intros. lia.
  - apply charged_same; [done |]. intros _. lia.
Qed.

Lemma gasExtCodeCopy_charged ms f sw :
  frame_ok f sw → (3 < length (f_stack f))%nat → 0 <= ms < 2 ^ 64 → ms mod 32 = 0 →
  wp (gasExtCodeCopyEIP2929 ms) (charged (fun _ _ _ c => 0 <= c) ms f sw) f.
Proof.
  intros Hok Hn Hms Hmod. unfold gasExtCodeCopyEIP2929, or_err at 1. apply wp_bind.
  set (X := fun _ _ _ c => 0 <= c).
  assert (Hw : wp (memoryCopierGas 3 ms) (fun r f1 => ∃ lg, f1 = with_mem (MkMemory (store (f_mem f)) lg) f ∧
    (snd r = None → 0 <= fst r ∧ mem_ok (mem_Resize ms (MkMemory (store (f_mem f)) lg)))) f).
  { unfold memoryCopierGas, or_err. apply wp_bind.
    destruct (mem_cost ms f sw Hok Hms Hmod) as [E | (c & lg & E & Hc & Hm)]; apply (wp_eq _ _ _ _ _ E).
    { exists (lastGasCost (f_mem f)). by rewrite with_mem_same. }
    apply wp_Back; [done |]. intros x _.
    apply wp_Uint64WithOverflow; [by exists lg |]. intros Hx. pose proof (toWordSize_nonneg _ Hx).
    apply wp_or_overflow; [by exists lg |]. intros E1. apply SafeMul_fst in E1 as ->; [| lia | lia].
    apply wp_or_overflow; [by exists lg |]. intros E2. apply SafeAdd_fst in E2 as ->; [| lia | lia].
    exists lg. split; [done |]. intros _. split; [cbn; lia | done]. }
  eapply wp_mono; [| exact Hw]. clear Hw. intros [c err] f1 (lg & -> & Hrest). destruct err as [e |]; [by apply charged_err |].
  destruct (Hrest eq_refl) as [Hc Hm]. cbn in Hc. apply wp_Back; [cbn; lia |]. intros x _. cbv zeta.
  unfold wp at 1, bind, gets. cbn. case_if; [| apply charged_ret; [done | done |]; intros _; unfold X; lia].
  cbn. change (wp (or_overflow (SafeAdd c (2600 - 100)) (fun g => ret (g, None))) (charged X ms f sw)
    (with_zstate (db_AddAddressToAccessList (u_Bytes20 x) (z_state (f_zvm f))) (with_mem (MkMemory (store (f_mem f)) lg) f))).
  apply wp_or_overflow; [by apply address_charged |]. intros E. apply SafeAdd_fst in E as ->; [| lia | lia].
  apply address_charged; [done | done |]. intros _. split; [lia |]. intros. unfold X. lia.
Qed.

(** ** Memory sizes *)

Lemma calc_range off l v b : calcMemSize64 off l = (v, b) → 0 <= v < 2 ^ 64.
Proof.
  unfold calcMemSize64, calcMemSize64WithUint, u_Uint64WithOverflow. intros H. repeat case_match; simplify_eq; try lia.
  unfold u64. apply Z.mod_pos_bound. lia.
Qed.

Lemma calcUint_range off n v b : calcMemSize64WithUint off n = (v, b) → 0 <= v < 2 ^ 64.
Proof.
  unfold calcMemSize64WithUint, u_Uint64WithOverflow. intros H. repeat case_match; simplify_eq; try lia.
  unfold u64. apply Z.mod_pos_bound. lia.
Qed.

(** A region inside the memory, at both widths *)
Record inside (m : Memory) (off l : Z) : Prop := MkInside {
  in_holds : holds m off l;
  in_signed : holds m (int64 off) (int64 l);
  in_size : 0 <= l < 2 ^ 63
}.

Lemma calcUint_inside off n v m :
  calcMemSize64WithUint off n = (v, false) → 0 <= n < 2 ^ 64 → v <= len (store m) → mem_ok m → inside m (u_Uint64 off) n.
Proof.
  intros Hc Hn Hv Hm. pose proof (mem_len _ Hm) as Hlen. unfold calcMemSize64WithUint, u_Uint64WithOverflow in Hc.
  pose proof (Uint64_range off) as Ho. case_if; zb.
  { subst n. constructor; change (int64 0) with 0; [split; [lia | by left].. | lia]. }
  destruct (negb (u_IsUint64 off)); [done |]. injection Hc as Hval Hov. zb. unfold u64 in *.
  assert (Hs : u_Uint64 off + n < 2 ^ 64).
  { destruct (Z.lt_ge_cases (u_Uint64 off + n) (2 ^ 64)) as [? | Hge]; [done |].
    rewrite <- (Z.mod_unique (u_Uint64 off + n) (2 ^ 64) 1 (u_Uint64 off + n - 2 ^ 64)) in Hov by lia. lia. }
  rewrite Z.mod_small in * by lia.
  assert (Hi : int64 (u_Uint64 off) = u_Uint64 off ∧ int64 n = n) by (unfold int64; split; decide_if; done).
  destruct Hi as [Ho1 Hn1]. constructor; rewrite ?Ho1, ?Hn1; [split; [lia | right; lia].. | lia].
Qed.

Lemma calc_inside off l v m :
  calcMemSize64 off l = (v, false) → v <= len (store m) → mem_ok m → inside m (u_Uint64 off) (u_Uint64 l) ∧ u_ToBig l = u_Uint64 l.
Proof.
  unfold calcMemSize64. intros Hc Hv Hm. destruct (u_IsUint64 l) eqn:El; [| done]. cbn in Hc. split.
  - eapply calcUint_inside; [done | apply Uint64_range | done | done].
  - symmetry. by apply Uint64_small.
Qed.

Lemma mem_at_sized i j st : (i < length st)%nat → (j < length st)%nat → ∃ v b, mem_at i j st = Ok (v, b) ∧ 0 <= v < 2 ^ 64.
Proof.
  intros Hi Hj. unfold mem_at, stack_Back. destruct (lookup_lt_is_Some_2 _ _ Hi) as [x ->]. destruct (lookup_lt_is_Some_2 _ _ Hj) as [y ->].
  cbn. destruct (calcMemSize64 x y) as [v b] eqn:Ec. exists v, b. split; [done |]. by eapply calc_range.
Qed.

Lemma mem_word_sized n st : (0 < length st)%nat → ∃ v b, mem_word n st = Ok (v, b) ∧ 0 <= v < 2 ^ 64.
Proof.
  intros Hi. unfold mem_word, stack_Back. destruct (lookup_lt_is_Some_2 _ _ Hi) as [x ->].
  cbn. destruct (calcMemSize64WithUint x n) as [v b] eqn:Ec. exists v, b. split; [done |]. by eapply calcUint_range.
Qed.

Lemma mem_word_inv n x st r : mem_word n (x :: st) = Ok r → calcMemSize64WithUint x n = r.
Proof. by intros [= H]. Qed.

Lemma mem_at_inv i j st x y r : st !! i = Some x → st !! j = Some y → mem_at i j st = Ok r → calcMemSize64 x y = r.
Proof. intros Hx Hy. unfold mem_at, stack_Back. rewrite Hx, Hy. by intros [= H]. Qed.

Lemma mem_max_sized a b c d st :
  (a < length st)%nat → (b < length st)%nat → (c < length st)%nat → (d < length st)%nat →
  ∃ v o, mem_max a b c d st = Ok (v, o) ∧ 0 <= v < 2 ^ 64.
Proof.
  intros Ha Hb Hc Hd. unfold mem_max. destruct (mem_at_sized a b st Ha Hb) as (x & ox & -> & Hx). cbn.
  destruct ox; [exists 0, true; split; [done | lia] |]. destruct (mem_at_sized c d st Hc Hd) as (y & oy & -> & Hy). cbn.
  destruct oy; [exists 0, true; split; [done | lia] |]. case_if; by eexists _, _.
Qed.

(** ** Memory instructions *)

(** The memory and the stack are replaced. *)
Lemma quiet_mem f sw st m res err :
  frame_ok f sw → Z.of_nat (length st) <= StackLimit → mem_ok m → bytes_ok res → err ≠ Some ErrCodeStoreOutOfGas →
  quiet f sw (res, err) (with_stack st (with_mem m f)).
Proof. intros Hok Hst Hm Hb He. apply quiet_same; try done. destruct Hok. by constructor. Qed.

Lemma opMload_quiet f sw : 
  frame_ok f sw → (1 <= length (f_stack f))%nat → (∃ v, mem_word 32 (f_stack f) = Ok (v, false) ∧ 0 <= v <= len (store (f_mem f))) →
  wp opMload (quiet f sw) f.
Proof.
  intros Hok Hst (v & Ev & Hv). destruct f as [z pc st m c]. destruct st as [| x st]; [cbn in Hst; lia |]. cbn [f_stack f_mem] in Ev, Hv.
  apply mem_word_inv in Ev. pose proof (fo_mem _ _ Hok) as Hm. cbn in Hm. pose proof (fo_stack _ _ Hok) as Hlen. cbn in Hlen.
  destruct (calcUint_inside _ _ _ m Ev ltac:(lia) ltac:(lia) Hm) as [_ Hh _]. change (int64 32) with 32 in Hh.
  destruct (@mem_GetPtr_ok Empty_set m _ _ Hm Hh) as (d & Ed & _).
  unfold wp, opMload, GetPtr, bind, peek, Back, gets, lift. cbn. rewrite Ed. cbn.
  exact (quiet_stack _ sw (u_SetBytes d :: st) [] None Hok ltac:(cbn [length]; lia) bytes_ok_nil ltac:(done)).
Qed.

Lemma opMstore_quiet f sw : 
  frame_ok f sw → (2 <= length (f_stack f))%nat → (∃ v, mem_word 32 (f_stack f) = Ok (v, false) ∧ 0 <= v <= len (store (f_mem f))) →
  wp opMstore (quiet f sw) f.
Proof.
  intros Hok Hst (v & Ev & Hv). destruct f as [z pc st m c]. destruct st as [| x [| y st]]; try (cbn in Hst; lia). cbn [f_stack f_mem] in Ev, Hv.
  apply mem_word_inv in Ev. pose proof (fo_mem _ _ Hok) as Hm. cbn in Hm. pose proof (fo_stack _ _ Hok) as Hlen. cbn in Hlen.
  destruct (calcUint_inside _ _ _ m Ev ltac:(lia) ltac:(lia) Hm) as [Hh _ _].
  destruct (@mem_Set32_ok Empty_set m _ (u_Bytes32 y) Hm Hh) as (m' & Em & Hm' & _).
  { rewrite Bytes32_spec. apply be_bytes_ok. }
  unfold wp, opMstore, Set32, bind, pop, gets, lift. cbn. rewrite Em. cbn.
  exact (quiet_mem _ sw st m' [] None Hok ltac:(lia) Hm' bytes_ok_nil ltac:(done)).
Qed.

Lemma opMstore8_quiet f sw : 
  frame_ok f sw → (2 <= length (f_stack f))%nat → (∃ v, mem_word 1 (f_stack f) = Ok (v, false) ∧ 0 <= v <= len (store (f_mem f))) →
  wp opMstore8 (quiet f sw) f.
Proof.
  intros Hok Hst (v & Ev & Hv). destruct f as [z pc st m c]. destruct st as [| x [| y st]]; try (cbn in Hst; lia). cbn [f_stack f_mem] in Ev, Hv.
  apply mem_word_inv in Ev. pose proof (fo_mem _ _ Hok) as Hm. cbn in Hm. pose proof (fo_stack _ _ Hok) as Hlen. cbn in Hlen.
  destruct (calcUint_inside _ _ _ m Ev ltac:(lia) ltac:(lia) Hm) as [[_ Hh] _ _]. destruct Hh as [? | [H0 H1]]; [done |].
  destruct (lookup_lt_is_Some_2 (store m) (Z.to_nat (u_Uint64 x)) ltac:(lia)) as [b Hb].
  unfold wp, opMstore8, bind, pop, gets, lift. cbn. rewrite (set_at_index _ _ b) by (lia || done). cbn.
  refine (quiet_mem _ sw st _ [] None Hok ltac:(lia) _ bytes_ok_nil ltac:(done)). apply mem_ok_store; [done | apply length_insert |].
  apply Forall_insert; [apply Hm |]. unfold u8. apply Z.mod_pos_bound. lia.
Qed.

(** The world changes. *)
Lemma quiet_world f sw s w st res err :
  frame_ok f sw → models s (with_now w sw) → world_ok w → evolves (readOnly (f_zvm f)) (sw_now sw) w →
  w_refund w = w_refund (sw_now sw) → Z.of_nat (length st) <= StackLimit → bytes_ok res → err ≠ Some ErrCodeStoreOutOfGas →
  quiet f sw (res, err) (with_stack st (with_zstate s f)).
Proof.
  intros Hok Hs Hw Hev Hr Hst Hb He. exists (with_now w sw). split_and!; try done; [| apply grows_now].
  destruct Hok as [_ _ Hacc [] ? ? ? ? ?]. constructor; try done. by apply (ev_access _ _ _ Hev).
Qed.

Lemma opKeccak256_quiet f sw :
  frame_ok f sw → (2 <= length (f_stack f))%nat → (∃ v, mem_at 0 1 (f_stack f) = Ok (v, false) ∧ 0 <= v <= len (store (f_mem f))) →
  wp (opKeccak256 env) (quiet f sw) f.
Proof.
  intros Hok Hst (v & Ev & Hv). destruct f as [z pc st m c]. destruct st as [| x [| y st]]; try (cbn in Hst; lia).
  cbn [f_stack f_mem] in Ev, Hv. apply (mem_at_inv _ _ _ x y) in Ev; [| done | done].
  pose proof (fo_mem _ _ Hok) as Hm. cbn in Hm. pose proof (fo_stack _ _ Hok) as Hlen. cbn in Hlen.
  destruct (calc_inside _ _ _ m Ev ltac:(lia) Hm) as [[_ Hh _] _].
  destruct (@mem_GetPtr_ok Empty_set m _ _ Hm Hh) as (d & Ed & _).
  unfold wp, opKeccak256, GetPtr, bind, pop, peek, Back, gets, lift. cbn. rewrite Ed. cbn.
  destruct (EnablePreimageRecording env); cbn.
  - pose proof (law_op (OpAddPreimage (sum256 d) d) _ _ eq_refl (fo_models _ _ Hok)) as H. cbn in H. destruct H as (s' & [= <-] & Hs').
    refine (quiet_world _ sw _ _ (u_SetBytes (sum256 d) :: st) [] None Hok Hs' _ _ _ ltac:(cbn [length]; lia) bytes_ok_nil ltac:(done)).
    + by apply (world_ok_same (sw_now sw)), Hok.
    + apply evolves_same; [done | done |]. intros _. by apply static_same.
    + done.
  - exact (quiet_stack _ sw (u_SetBytes (sum256 d) :: st) [] None Hok ltac:(cbn [length]; lia) bytes_ok_nil ltac:(done)).
Qed.

Lemma opReturn_quiet f sw :
  frame_ok f sw → (2 <= length (f_stack f))%nat → (∃ v, mem_at 0 1 (f_stack f) = Ok (v, false) ∧ 0 <= v <= len (store (f_mem f))) →
  wp opReturn (fun r f' => quiet f sw r f' ∧ snd r ≠ None) f.
Proof.
  intros Hok Hst (v & Ev & Hv). destruct f as [z pc st m c]. destruct st as [| x [| y st]]; try (cbn in Hst; lia).
  cbn [f_stack f_mem] in Ev, Hv. apply (mem_at_inv _ _ _ x y) in Ev; [| done | done].
  pose proof (fo_mem _ _ Hok) as Hm. cbn in Hm. pose proof (fo_stack _ _ Hok) as Hlen. cbn in Hlen.
  destruct (calc_inside _ _ _ m Ev ltac:(lia) Hm) as [[_ Hh _] _].
  destruct (@mem_GetPtr_ok Empty_set m _ _ Hm Hh) as (d & Ed & Hb & _).
  unfold wp, opReturn, GetPtr, bind, pop, gets, lift. cbn. rewrite Ed. cbn. split; [| done].
  exact (quiet_stack _ sw st d (Some errStopToken) Hok ltac:(lia) Hb ltac:(done)).
Qed.

Lemma opRevert_quiet f sw :
  frame_ok f sw → (2 <= length (f_stack f))%nat → (∃ v, mem_at 0 1 (f_stack f) = Ok (v, false) ∧ 0 <= v <= len (store (f_mem f))) →
  wp opRevert (fun r f' => quiet f sw r f' ∧ snd r ≠ None) f.
Proof.
  intros Hok Hst (v & Ev & Hv). destruct f as [z pc st m c]. destruct st as [| x [| y st]]; try (cbn in Hst; lia).
  cbn [f_stack f_mem] in Ev, Hv. apply (mem_at_inv _ _ _ x y) in Ev; [| done | done].
  pose proof (fo_mem _ _ Hok) as Hm. cbn in Hm. pose proof (fo_stack _ _ Hok) as Hlen. cbn in Hlen.
  destruct (calc_inside _ _ _ m Ev ltac:(lia) Hm) as [[_ Hh _] _].
  destruct (@mem_GetPtr_ok Empty_set m _ _ Hm Hh) as (d & Ed & Hb & _).
  unfold wp, opRevert, GetPtr, bind, pop, gets, lift. cbn. rewrite Ed. cbn. split; [| done].
  apply quiet_same; try done. destruct Hok as [? ? ? [] ? ? ? ? ?]. constructor; try done. cbn in *. lia.
Qed.

(** The copies to memory; the source is read without a change of the world. *)
Lemma copy_quiet (src : M (SDB := SDB) bytes) f sw data :
  frame_ok f sw → (3 <= length (f_stack f))%nat → (∃ v, mem_at 0 2 (f_stack f) = Ok (v, false) ∧ 0 <= v <= len (store (f_mem f))) →
  (∀ st, ∃ s, src (with_stack st f) = Ok (data, with_stack st (with_zstate s f)) ∧ models s sw) → bytes_ok data → len data < 2 ^ 63 →
  wp (copy_to_memory src) (quiet f sw) f.
Proof.
  intros Hok Hst (v & Ev & Hv) Hsrc Hb Hl. destruct f as [z pc st m c]. destruct st as [| x [| y [| l st]]]; try (cbn in Hst; lia).
  cbn [f_stack f_mem] in Ev, Hv. apply (mem_at_inv _ _ _ x l) in Ev; [| done | done].
  pose proof (fo_mem _ _ Hok) as Hm. cbn in Hm. pose proof (fo_stack _ _ Hok) as Hlen. cbn in Hlen.
  destruct (calc_inside _ _ _ m Ev ltac:(lia) Hm) as [[Hh _ Hsz] _].
  destruct (@getData_ok Empty_set data (offset_or_max y) (u_Uint64 l)) as (d & Ed & _ & Hbd); [done | done | | done |].
  { unfold offset_or_max, u_Uint64WithOverflow. case_if; [unfold MaxUint64; lia |]. apply Uint64_range. }
  destruct (@mem_Set_ok Empty_set m _ _ d Hm Hh Hbd) as (m' & Em & Hm' & _).
  destruct (Hsrc st) as (s & Es & Hs). unfold with_stack, with_zstate in Es. cbn in Es.
  unfold wp, copy_to_memory, Set_, bind, pop, gets, lift. cbn. rewrite Es. cbn. rewrite Ed. cbn. rewrite Em. cbn.
  apply quiet_same; try done. destruct Hok as [? ? ? [] ? ? ? ? ?]. constructor; try done. cbn in *. lia.
Qed.

Lemma opCallDataCopy_quiet f sw :
  frame_ok f sw → (3 <= length (f_stack f))%nat → (∃ v, mem_at 0 2 (f_stack f) = Ok (v, false) ∧ 0 <= v <= len (store (f_mem f))) →
  wp opCallDataCopy (quiet f sw) f.
Proof.
  intros Hok Hst Hn. pose proof (fo_contract _ _ Hok) as Hc. apply (copy_quiet _ _ _ (c_Input (f_contract f))); [done | done | done | | apply Hc | apply Hc].
  intros st. exists (z_state (f_zvm f)). split; [| apply Hok]. by destruct f as [[] ? ? ? ?].
Qed.

Lemma opCodeCopy_quiet f sw :
  frame_ok f sw → (3 <= length (f_stack f))%nat → (∃ v, mem_at 0 2 (f_stack f) = Ok (v, false) ∧ 0 <= v <= len (store (f_mem f))) →
  wp opCodeCopy (quiet f sw) f.
Proof.
  intros Hok Hst Hn. pose proof (fo_contract _ _ Hok) as Hc. pose proof (co_size _ Hc).
  apply (copy_quiet _ _ _ (c_Code (f_contract f))); [done | done | done | | apply Hc | lia].
  intros st. exists (z_state (f_zvm f)). split; [| apply Hok]. by destruct f as [[] ? ? ? ?].
Qed.

Lemma w_Code_ok w a : world_ok w → bytes_ok (w_Code a w) ∧ len (w_Code a w) <= MaxInitCodeSize.
Proof.
  intros [Hw _]. specialize (Hw a) as [_ _ Hc]. unfold w_Code, w_read, acct in *. destruct (w_account w a) as [v |]; [| by split; [constructor | cbn; lia]].
  cbn in Hc |- *. destruct (v_code v) as [c |]; cbn; [| by split; [constructor | cbn; lia]].
  destruct (decide (c = [])) as [-> | Hne]; [by split; [constructor | cbn; lia] |]. by destruct (Hc c eq_refl Hne) as (? & ? & _).
Qed.

Lemma opExtCodeCopy_quiet f sw :
  frame_ok f sw → (4 <= length (f_stack f))%nat → (∃ v, mem_at 1 3 (f_stack f) = Ok (v, false) ∧ 0 <= v <= len (store (f_mem f))) →
  wp opExtCodeCopy (quiet f sw) f.
Proof.
  intros Hok Hst Hn. destruct f as [z pc st m c]. destruct st as [| a st]; [cbn in Hst; lia |]. cbn in Hst.
  assert (Hok' : frame_ok (MkFrame z pc st m c) sw).
  { apply (frame_ok_stack (MkFrame z pc (a :: st) m c)); [done |]. pose proof (fo_stack _ _ Hok) as H. cbn in H. lia. }
  destruct (law_GetCode (u_Bytes20 a) _ _ (fo_models _ _ Hok')) as [Ec Hs]. cbn in Ec, Hs.
  destruct (w_Code_ok _ (u_Bytes20 a) (fo_world _ _ Hok')) as [Hb Hl].
  change (wp (copy_to_memory (db_get (db_GetCode (u_Bytes20 a)))) (quiet (MkFrame z pc (a :: st) m c) sw) (MkFrame z pc st m c)).
  eapply wp_mono; [| apply (copy_quiet _ (MkFrame z pc st m c) sw (w_Code (u_Bytes20 a) (sw_now sw)) Hok')].
  - intros r f' Hq. exact Hq.
  - cbn. lia.
  - exact Hn.
  - intros st'. exists (snd (db_GetCode (u_Bytes20 a) (z_state z))). split; [| done].
    rewrite db_get_eq. cbn. destruct (db_GetCode (u_Bytes20 a) (z_state z)) as [code s]. cbn in *. by subst code.
  - done.
  - lia.
Qed.

Lemma opReturnDataCopy_quiet f sw :
  frame_ok f sw → (3 <= length (f_stack f))%nat → (∃ v, mem_at 0 2 (f_stack f) = Ok (v, false) ∧ 0 <= v <= len (store (f_mem f))) →
  wp opReturnDataCopy (quiet f sw) f.
Proof.
  intros Hok Hst (v & Ev & Hv). destruct f as [z pc st m c]. destruct st as [| x [| y [| l st]]]; try (cbn in Hst; lia).
  cbn [f_stack f_mem] in Ev, Hv. apply (mem_at_inv _ _ _ x l) in Ev; [| done | done].
  pose proof (fo_mem _ _ Hok) as Hm. cbn in Hm. pose proof (fo_stack _ _ Hok) as Hlen. cbn in Hlen.
  destruct (calc_inside _ _ _ m Ev ltac:(lia) Hm) as [[Hh _ Hsz] Hl].
  assert (Hq : ∀ err, err ≠ Some ErrCodeStoreOutOfGas → quiet (MkFrame z pc (x :: y :: l :: st) m c) sw ([], err) (MkFrame z pc st m c))
    by (intros err He; exact (quiet_stack _ sw st [] err Hok ltac:(lia) bytes_ok_nil ltac:(done))).
  unfold wp, opReturnDataCopy, Set_, bind, pop, gets, lift. cbn. rewrite !IsUint64_spec. destruct (negb (u_ToBig y <? 2 ^ 64)) eqn:E1; [by apply Hq |]. cbn.
  apply negb_false_iff in E1. zb. case_if; [by apply Hq |]. zb. pose proof (ToBig_range y) as Hy.
  assert (Ey : u_Uint64 y = u_ToBig y) by (rewrite Uint64_spec; apply Z.mod_small; lia).
  assert (Eyl : u_Uint64 (u_Add y l) = u_Uint64 y + u_Uint64 l).
  { rewrite Uint64_spec, Add_spec, Hl, Ey. rewrite (Z.mod_small _ (2 ^ 256)) by lia. apply Z.mod_small.
    rewrite Add_spec, Hl, (Z.mod_small _ (2 ^ 256)) in * by lia. lia. }
  rewrite Eyl in *. rewrite slice_ok by lia. cbn.
  destruct (@mem_Set_ok Empty_set m _ _ (take (Z.to_nat (u_Uint64 y + u_Uint64 l - u_Uint64 y)) (drop (Z.to_nat (u_Uint64 y)) (returnData z))) Hm Hh) as (m' & Em & Hm' & _).
  { apply slice_bytes. apply (zo_return _ (fo_zvm _ _ Hok)). }
  rewrite Em. cbn. exact (quiet_mem _ sw st m' [] None Hok ltac:(lia) Hm' bytes_ok_nil ltac:(done)).
Qed.

Lemma pop_topics_ok n (f : frame) :
  (n <= length (f_stack f))%nat → ∃ topics, pop_topics n f = Ok (topics, with_stack (drop n (f_stack f)) f).
Proof.
  revert f; induction n as [| n IH]; intros f Hn; cbn.
  - exists []. by destruct f.
  - destruct f as [z pc st m c]. cbn in Hn. destruct st as [| x st]; [cbn in Hn; lia |]. cbn in Hn.
    destruct (IH (MkFrame z pc st m c) ltac:(cbn; lia)) as (topics & Et). exists (u_Bytes32 x :: topics).
    unfold bind, pop, gets. cbn. rewrite Et. done.
Qed.

Lemma makeLog_quiet n f sw :
  frame_ok f sw → (2 + n <= length (f_stack f))%nat → (∃ v, mem_at 0 1 (f_stack f) = Ok (v, false) ∧ 0 <= v <= len (store (f_mem f))) →
  wp (makeLog env n) (quiet f sw) f.
Proof.
  intros Hok Hst (v & Ev & Hv). destruct f as [z pc st m c]. destruct st as [| x [| y st]]; try (cbn in Hst; lia).
  cbn [f_stack f_mem] in Ev, Hv. apply (mem_at_inv _ _ _ x y) in Ev; [| done | done]. cbn in Hst.
  pose proof (fo_mem _ _ Hok) as Hm. cbn in Hm. pose proof (fo_stack _ _ Hok) as Hlen. cbn in Hlen.
  destruct (calc_inside _ _ _ m Ev ltac:(lia) Hm) as [[_ Hh _] _].
  destruct (@mem_GetCopy_ok Empty_set m _ _ Hm Hh) as (d & Ed & Hb & _).
  unfold wp, makeLog, write_protected, GetCopy, bind, pop, gets, lift. cbn. destruct (readOnly z) eqn:Ero.
  { apply frame_quiet_refl; [done | constructor | done]. }
  cbn. destruct (pop_topics_ok n (MkFrame z pc st m c) ltac:(cbn; lia)) as (topics & ->). cbn. rewrite Ed. cbn.
  set (log := MkLog _ _ _ _ _ _ _ _).
  pose proof (law_op (OpAddLog log) _ _ eq_refl (fo_models _ _ Hok)) as H. cbn in H. destruct H as (s' & [= <-] & Hs').
  refine (quiet_world _ sw _ _ (drop n st) [] None Hok Hs' _ _ _ _ bytes_ok_nil ltac:(done)).
  - by apply (world_ok_same (sw_now sw)), Hok.
  - apply evolves_same; [done | done |]. cbn. by rewrite Ero.
  - done.
  - rewrite length_drop. lia.
Qed.

End Dynamic.

(** ** Tactics for the entries of the table *)

Ltac bounds Hst := cbn in Hst; unfold minDupStack, maxDupStack, minSwapStack, maxSwapStack, minStack, maxStack in Hst.

Ltac plain_op H :=
  apply perform_plain; [done | cbn; lia |]; intros ? ? ? ? Hst; bounds Hst; cbn [execute]; apply H; (done || lia).

(** [G]: the gas; [H]: the execution *)
Ltac dynamic_op lo G H :=
  eapply (perform_dynamic _ _ lo); [done | cbn; lia | |
    intros ? ? ms ? ? Hst ? ? Hnone ?; bounds Hst; try (rewrite (Hnone eq_refl)); apply G; (done || lia) |
    intros ? ? ? ? Hst Hn; bounds Hst; cbn [execute]; eapply wp_mono; [| apply H; (done || lia)]; intros; split; [done | cbn; lia]].

Ltac sized_op := intros st Hst; cbn in Hst; unfold minStack in Hst; (apply mem_at_sized || apply mem_word_sized); cbn; lia.

Ltac entry := apply Forall_cons; split; cbn [snd].

Section Table.
  Context `{UI : Uint256} `{UL : !Uint256Laws} `{HF : Hasher} `{HL : !HasherLaws} `{CS : Codes}
    {SDB : Type} `{DB : VmStateDB SDB} `{SL : !VmStateLaws SDB} (env : vm_env).
  Abbreviation frame := (frame (SDB := SDB)).

(** ** The instructions of the table that do not call *)

Lemma gets_push (A : Type) (g : frame → A) (h : A → Int) f sw :
  frame_ok f sw → Z.of_nat (length (f_stack f)) < StackLimit → wp (bind (gets g) (fun a => push_val (h a))) (quiet f sw) f.
Proof. intros Hok Hst. exact (push_quiet (h (g f)) f sw Hok Hst). Qed.

Lemma ops_push_ok : Forall (fun e => op_spec e.2) (ops_push (SDB := SDB)).
Proof.
  apply Forall_cons. split; [cbn [snd]; plain_op opPush1_quiet |]. rewrite Forall_map, Forall_forall. intros n Hseq%elem_of_seq. cbn [snd].
  plain_op makePush_quiet.
Qed.

Lemma ops_dup_ok : Forall (fun e => op_spec e.2) (ops_dup (SDB := SDB)).
Proof. unfold ops_dup. rewrite Forall_map, Forall_forall. intros n Hseq%elem_of_seq. cbn [snd]. plain_op makeDup_quiet. Qed.

Lemma ops_swap_ok : Forall (fun e => op_spec e.2) (ops_swap (SDB := SDB)).
Proof. unfold ops_swap. rewrite Forall_map, Forall_forall. intros n Hseq%elem_of_seq. cbn [snd]. plain_op makeSwap_quiet. Qed.

Lemma ops_arithmetic_ok : Forall (fun e => op_spec e.2) (tail (ops_arithmetic (SDB := SDB))).
Proof.
  repeat (entry; [try plain_op binary_quiet; try plain_op ternary_quiet |]); [| constructor].
  dynamic_op 10 gasExp_charged binary_quiet. done.
Qed.

Lemma ops_comparison_ok : Forall (fun e => op_spec e.2) (ops_comparison (SDB := SDB) env).
Proof.
  repeat (entry; [try plain_op binary_quiet; try plain_op unary_quiet |]); [| constructor].
  dynamic_op 0 gasKeccak256_charged opKeccak256_quiet. sized_op.
Qed.

Lemma ops_environment_ok : blockhash_ok env → Forall (fun e => op_spec e.2) (ops_environment (SDB := SDB) env).
Proof.
  intros Hb. unfold ops_environment.
  entry; [plain_op gets_push |].
  entry; [dynamic_op 0 accountCheck_charged opBalance_quiet; done |].
  entry; [plain_op push_quiet |].
  entry; [plain_op gets_push |].
  entry; [plain_op gets_push |].
  entry; [plain_op opCallDataLoad_quiet |].
  entry; [plain_op gets_push |].
  entry; [dynamic_op 0 copier_charged opCallDataCopy_quiet; sized_op |].
  entry; [plain_op gets_push |].
  entry; [dynamic_op 0 copier_charged opCodeCopy_quiet; sized_op |].
  entry; [plain_op push_quiet |].
  entry; [dynamic_op 0 accountCheck_charged opExtCodeSize_quiet; done |].
  entry; [dynamic_op 0 gasExtCodeCopy_charged opExtCodeCopy_quiet; sized_op |].
  entry; [plain_op (fun f sw => opBlockhash_quiet env f sw Hb) |].
  repeat (entry; [plain_op push_quiet |]). constructor.
Qed.

Lemma ops_log_ok : Forall (fun e => op_spec e.2) (ops_log (SDB := SDB) env).
Proof.
  unfold ops_log. rewrite Forall_map, Forall_forall. intros n Hseq%elem_of_seq. cbn [snd].
  dynamic_op 375 makeGasLog_charged makeLog_quiet. sized_op.
Qed.
End Table.
