(* ===== verification/VmSafeStore.v ===== *)
(** * SSTORE and the instructions of control flow *)

From S2P Require Import Prelude RlpEncode TrieNode TrieOps StateAccess State StateWorld StateSupply StateSpec Uint256 VmAnalysis VmCore VmGas VmInstr VmInterp VmLaws VmInv VmMemory VmSafeOps VmSafeMem.

Section Store.
  Context `{UI : Uint256} `{UL : !Uint256Laws} `{HF : Hasher} `{HL : !HasherLaws} `{CS : Codes}
    {SDB : Type} `{DB : VmStateDB SDB} `{SL : !VmStateLaws SDB} (env : vm_env).
  Context (Happ : codes_apart).
  Abbreviation frame := (frame (SDB := SDB)).
  Abbreviation zvm := (ZVM SDB).

(** ** Slots *)

Lemma w_State_acct a k w : w_State a k w = v_storage (acct w a) k.
Proof. unfold w_State, w_read, acct. by destruct (w_account w a). Qed.

Lemma w_Committed_acct a k w : w_Committed a k w = v_committed (acct w a) k.
Proof. unfold w_Committed, w_read, acct. by destruct (w_account w a). Qed.

Definition set_slot (a k x : bytes) (w : world) : world :=
  change a (fun v => MkView (v_nonce v) (v_balance v) (v_codeHash v) (v_code v)
                       (fun k' => if decide (k' = k) then x else v_storage v k') (v_committed v)) w.

Lemma cleared_other a k x w r acc s : s ≠ (a, k) → cleared (set_slot a k x (tuned w r acc)) s → cleared w s.
Proof.
  intros Hs. unfold cleared, set_slot. rewrite acct_change. destruct s as [b k']. cbn. case_decide as Hb; [| done]. subst b.
  cbn. case_decide; [| done]. subst k'. done.
Qed.

Lemma cleared_here a k x w r acc :
  cleared (set_slot a k x (tuned w r acc)) (a, k) ↔ v_committed (acct w a) k ≠ zeroHash ∧ x = zeroHash.
Proof. unfold cleared, set_slot. rewrite acct_change. cbn. rewrite decide_True by done. cbn. by rewrite decide_True by done. Qed.

(** The refund counter after a write covers the cleared slots, when it changed by
    what makeGasSStoreFunc says. *)
Lemma covers_write w a k x r acc :
  refund_covers w →
  let c := v_storage (acct w a) k in
  let o := v_committed (acct w a) k in
  (c = x → w_refund w <= r) →
  (c ≠ x → o ≠ zeroHash → x = zeroHash → w_refund w + 4800 <= r) →
  (c ≠ x → o ≠ zeroHash → c = zeroHash → w_refund w - 4800 <= r) →
  (c ≠ x → (o = zeroHash ∨ (c ≠ zeroHash ∧ x ≠ zeroHash)) → w_refund w <= r) →
  refund_covers (set_slot a k x (tuned w r acc)).
Proof.
  intros Hw c o H1 H2 H3 H4. set (w' := set_slot a k x (tuned w r acc)).
  assert (Hr : w_refund w' = r) by done. assert (Hother := cleared_other a k x w r acc). fold w' in Hother.
  assert (Hhere := cleared_here a k x w r acc). fold w' in Hhere. fold o in Hhere.
  assert (Hmono : (cleared w' (a, k) → cleared w (a, k)) → w_refund w <= r → refund_covers w').
  { intros Hc Hle. apply (refund_covers_mono w); [by rewrite Hr | | done]. intros s Hs.
    destruct (decide (s = (a, k))) as [-> |]; auto. }
  destruct (decide (c = x)) as [Ec | Ec].
  { apply Hmono; [| auto]. rewrite Hhere. unfold cleared. cbn. fold c o. intros [? ->]. done. }
  destruct (decide (o = zeroHash)) as [Eo | Eo].
  { apply Hmono; [rewrite Hhere; by intros [? _] | auto]. }
  destruct (decide (x = zeroHash)) as [Ex | Ex].
  { apply (refund_covers_clear w w' (a, k)); [rewrite Hr; auto | done | done]. }
  destruct (decide (c = zeroHash)) as [Ec0 | Ec0].
  { apply (refund_covers_set w w' (a, k)); [rewrite Hr; auto | done | rewrite Hhere; by intros [_ ?] | | done].
    intros s Hs. destruct (decide (s = (a, k))) as [-> | ?]; [| auto]. by apply Hhere in Hs as [_ ?]. }
  apply Hmono; [rewrite Hhere; by intros [_ ?] | auto].
Qed.

(** ** Steps of the gas function *)

Lemma wp_get {A} (g : SDB → A * SDB) v (k : A → M (SDB := SDB) (Z * option vm_error)) Q f sw :
  models (z_state (f_zvm f)) sw → (∀ s, models s sw → (g s).1 = v ∧ models (g s).2 sw) →
  (∀ s, models s sw → wp (k v) Q (with_zstate s f)) → wp (bind (db_get g) k) Q f.
Proof.
  intros Hs Hg Hk. apply wp_bind. destruct (Hg _ Hs) as [Ev Hm]. unfold wp at 1. rewrite db_get_eq.
  destruct (g (z_state (f_zvm f))) as [a s]. cbn in *. subst a. by apply Hk.
Qed.

Lemma wp_do {A} (g : SDB → SDB) (k : unit → M (SDB := SDB) A) Q f :
  wp (k tt) Q (with_zstate (g (z_state (f_zvm f))) f) → wp (bind (db_do g) k) Q f.
Proof. done. Qed.

Lemma wp_try {A} (g : SDB → outcome Empty_set SDB) s (k : unit → M (SDB := SDB) A) Q f :
  g (z_state (f_zvm f)) = Ok s → wp (k tt) Q (with_zstate s f) → wp (bind (db_try g) k) Q f.
Proof. intros Hg Hk. unfold wp, bind, db_try, bind, gets, lift. cbn. rewrite Hg. exact Hk. Qed.

Lemma add_refund_models g s sw w r acc :
  models s (with_now (tuned w r acc) sw) → models (db_AddRefund g s) (with_now (tuned w (u64 (r + g)) acc) sw).
Proof. intros Hs. pose proof (law_op (OpAddRefund g) s _ eq_refl Hs) as H. cbn in H. by destruct H as (s' & [= <-] & Hs'). Qed.

Lemma sub_refund_models g s sw w r acc :
  g <= r → models s (with_now (tuned w r acc) sw) →
  ∃ s', db_SubRefund g s = Ok s' ∧ models s' (with_now (tuned w (u64 (r - g)) acc) sw).
Proof.
  intros Hg Hs. pose proof (law_op (OpSubRefund g) s _ eq_refl Hs) as H. cbn in H.
  rewrite (proj2 (Z.ltb_ge _ _)) in H by done. cbn in H. by destruct H as (s' & ? & ?); exists s'.
Qed.

(** What the gas function of SSTORE leaves *)
Definition sstore_gas (f : frame) (sw : saved_world) (a k x : bytes) (r : Z * option vm_error) (f1 : frame) : Prop :=
  let w := sw_now sw in
  ∃ s cost r' acc, r = (cost, None) ∧ f1 = with_zstate s f ∧ models s (with_now (tuned w r' acc) sw) ∧
    (∀ b, is_Some (w_access w !! b) → is_Some (acc !! b)) ∧
    100 <= cost ∧ r' <= w_refund w + 199 * cost ∧ refund_covers (set_slot a k x (tuned w r' acc)).

Ltac cases_lia := intros; repeat match goal with H : _ ∨ _ |- _ => destruct H | H : _ ∧ _ |- _ => destruct H end; congruence || lia.

(** The cases for a new value *)
Lemma sstore_refund f sw s a k x acc cost0 :
  frame_ok f sw → 2300 < c_Gas (f_contract f) → potential (sw_now sw) (c_Gas (f_contract f)) < 2 ^ 64 →
  let w := sw_now sw in
  (∀ b, is_Some (w_access w !! b) → is_Some (acc !! b)) → 0 <= cost0 <= 2100 →
  models s (with_now (tuned w (w_refund w) acc) sw) → v_storage (acct w a) k ≠ x →
  wp (sstore_cost SstoreClearsScheduleRefundEIP3529 cost0 (v_storage (acct w a) k) x (v_committed (acct w a) k))
    (sstore_gas f sw a k x) (with_zstate s f).
Proof.
  intros Hok Hgas Hpot w Hacc Hc0 Hs Hne. set (c := v_storage _ _) in *. set (o := v_committed _ _).
  pose proof (wo_refund _ (fo_world _ _ Hok)) as Hcov. pose proof (refund_nonneg _ Hcov) as Hr0. fold w in Hcov, Hr0.
  unfold potential in Hpot. fold w in Hpot.
  (* the end: a cost and a counter *)
  assert (Hend : ∀ s' cost r', models s' (with_now (tuned w r' acc) sw) → 100 <= cost <= 2300 + 20000 → r' <= w_refund w + 199 * cost →
    (o ≠ zeroHash → x = zeroHash → w_refund w + 4800 <= r') → (o ≠ zeroHash → c = zeroHash → w_refund w - 4800 <= r') →
    (o = zeroHash ∨ (c ≠ zeroHash ∧ x ≠ zeroHash) → w_refund w <= r') →
    wp (ret (u64 cost, None)) (sstore_gas f sw a k x) (with_zstate s' (with_zstate s f))).
  { intros s' cost r' Hs' Hcost Hr' H2 H3 H4. unfold wp, ret. exists s', cost, r', acc.
    assert (Eu : u64 cost = cost) by (unfold u64; apply Z.mod_small; lia). rewrite Eu.
    split_and!; [done | done | done | done | lia | done |].
    apply covers_write; [done | by intros ? | by intros _ ? ?; auto | by intros _ ? ?; auto | by intros _ ?; auto]. }
  assert (Hadd : ∀ g, 0 <= g <= 19900 → u64 (w_refund w + g) = w_refund w + g) by (intros; unfold u64; apply Z.mod_small; lia).
  assert (Hsame : with_zstate s (with_zstate s f) = with_zstate s f) by done.
  unfold sstore_cost. case_bool_decide as Eoc.
  - case_bool_decide as Eo.
    + rewrite <- Hsame. eapply Hend; [done | lia | lia | done | done | lia].
    + case_bool_decide as Ex.
      * apply wp_do. eapply Hend; [by apply add_refund_models | | | | |]; rewrite ?Hadd by lia; lia || (intros; lia).
      * rewrite <- Hsame. apply wp_bind. eapply Hend; [done | lia | lia | done | lia |lia].
  - destruct (decide (o = zeroHash)) as [Eo | Eo].
    + rewrite (bool_decide_true (o = zeroHash)) by done. cbn [negb]. apply wp_bind. unfold wp at 1, ret at 1. case_bool_decide.
      * apply wp_do. eapply Hend; [by apply add_refund_models | | | | |]; rewrite ?Hadd by lia; try lia; intros; done || lia.
      * apply wp_bind. rewrite <- Hsame. eapply Hend; [done | lia | lia | done | done | lia].
    + rewrite (bool_decide_false (o = zeroHash)) by done. cbn [negb]. case_bool_decide as Ec.
      * assert (Hcl : cleared w (a, k)) by (split; done). pose proof (refund_covers_one _ _ Hcov Hcl) as H4800.
        assert (Esub : u64 (w_refund w - 4800) = w_refund w - 4800) by (unfold u64; apply Z.mod_small; lia).
        destruct (sub_refund_models 4800 s _ _ _ _ H4800 Hs) as (s1 & Es1 & Hs1). rewrite Esub in Hs1.
        apply (wp_try _ s1); [exact Es1 |]. case_bool_decide as Eox.
        -- assert (Eadd : u64 (w_refund w - 4800 + (5000 - 2100 - 100)) = w_refund w - 4800 + (5000 - 2100 - 100)) by (unfold u64; apply Z.mod_small; lia).
           apply wp_do. eapply Hend; [by apply add_refund_models | | | | |]; rewrite ?Eadd; try lia; cases_lia.
        -- apply wp_bind. eapply Hend; [exact Hs1 | | | | |]; try lia; cases_lia.
      * case_bool_decide as Ex.
        -- apply wp_do. rewrite bool_decide_false by congruence. apply wp_bind.
           eapply Hend; [by apply add_refund_models | | | | |]; rewrite ?Hadd by lia; try lia; intros; lia.
        -- apply wp_bind. unfold wp at 1, ret at 1. case_bool_decide.
           ++ apply wp_do. eapply Hend; [by apply add_refund_models | | | | |]; rewrite ?Hadd by lia; try lia; intros; done || lia.
           ++ apply wp_bind. rewrite <- Hsame. eapply Hend; [done | lia | lia | done | done | lia].
Qed.

(** The gas of SSTORE above the sentry *)
Lemma gasSStore_ok f sw ms x y st :
  frame_ok f sw → f_stack f = x :: y :: st → 2300 < c_Gas (f_contract f) → potential (sw_now sw) (c_Gas (f_contract f)) < 2 ^ 64 →
  wp (gasSStoreEIP3529 ms) (sstore_gas f sw (c_self (f_contract f)) (u_Bytes32 x) (u_Bytes32 y)) f.
Proof.
  intros Hok Hst Hgas Hpot. unfold gasSStoreEIP3529, makeGasSStoreFunc. apply wp_bind. unfold wp at 1, gets. decide_if.
  apply wp_Back; [rewrite Hst; cbn; lia |]. intros y' Hy. rewrite Hst in Hy. injection Hy as <-.
  apply wp_Back; [rewrite Hst; cbn; lia |]. intros x' Hx. rewrite Hst in Hx. injection Hx as <-. cbv zeta.
  set (a := c_self (f_contract f)). set (k := u_Bytes32 x). set (v := u_Bytes32 y). set (w := sw_now sw).
  eapply wp_get; [apply Hok | intros s; apply (law_GetState a k) |]. intros s Hs.
  apply wp_bind. unfold wp at 1, gets. cbn [with_zstate with_state z_state f_zvm]. apply wp_bind. unfold wp at 1, lift.
  rewrite (law_SlotInAccessList _ _ _ _ Hs). cbn [mbind outcome_bind].
  destruct (fo_access _ _ Hok) as [set Hset]. fold a w in Hset. fold w. rewrite Hset.
  (* after the slot was accessed *)
  assert (Hafter : ∀ s1 acc cost0, models s1 (with_now (tuned w (w_refund w) acc) sw) → (∀ b, is_Some (w_access w !! b) → is_Some (acc !! b)) →
    0 <= cost0 <= 2100 →
    wp (if bool_decide (w_State a k w = v) then ret (u64 (cost0 + 100), None)
        else bind (db_get (db_GetCommittedState a k)) (fun original => sstore_cost (5000 - 2100 + 1900) cost0 (w_State a k w) v original))
      (sstore_gas f sw a k v) (with_zstate s1 f)).
  { intros s1 acc cost0 Hs1 Hacc Hc0. case_bool_decide as Ec.
    - unfold wp, ret. exists s1, (cost0 + 100), (w_refund w), acc. unfold u64. rewrite Z.mod_small by lia.
      pose proof (wo_refund _ (fo_world _ _ Hok)) as Hcov. rewrite w_State_acct in Ec.
      split_and!; [done | done | done | done | lia | fold w; lia |]. fold w. apply covers_write; [done | done | congruence..].
    - eapply wp_get; [exact Hs1 | intros s2; apply (law_GetCommittedState a k) |]. intros s2 Hs2. cbn [sw_now with_now].
      assert (Eo : w_Committed a k (tuned w (w_refund w) acc) = v_committed (acct w a) k) by exact (w_Committed_acct a k (tuned w (w_refund w) acc)). rewrite Eo.
      rewrite w_State_acct in *. exact (sstore_refund f sw s2 a k v acc cost0 Hok Hgas Hpot Hacc Hc0 Hs2 Ec). }
  destruct (decide (k ∈ set)) as [Hin | Hin].
  - rewrite bool_decide_true by done. cbn [negb]. apply wp_bind. apply (wp_eq _ _ _ 0 (with_zstate s f)); [done |].
    apply (Hafter s (w_access w) 0); [| done | lia]. by destruct sw as [[]].
  - rewrite bool_decide_false by done. cbn [negb]. apply wp_bind.
    destruct (add_slot_models a k s sw Hs) as (s1 & acc & Es1 & Hs1 & Hacc). apply (wp_try _ s1); [done |]. by apply (Hafter s1 acc 2100).
Qed.

Lemma sstore_world f sw r' acc k v :
  frame_ok f sw → (∀ b, is_Some (w_access (sw_now sw) !! b) → is_Some (acc !! b)) →
  refund_covers (set_slot (c_self (f_contract f)) k v (tuned (sw_now sw) r' acc)) →
  world_ok (set_slot (c_self (f_contract f)) k v (tuned (sw_now sw) r' acc)).
Proof.
  intros Hok Hacc Hcov. constructor; [| done]. intros b. unfold set_slot. rewrite acct_change.
  pose proof (wo_accounts _ (fo_world _ _ Hok)) as Ha. case_decide; [| exact (Ha b)].
  destruct (Ha (c_self (f_contract f))) as [Hn Hbal Hc]. by constructor.
Qed.

Lemma sstore_ok : op_spec (MkOp opSstore 0 (Some gasSStoreEIP3529) (minStack 2 0) (maxStack 2 0) None) (SDB := SDB).
Proof.
  intros f sw P Hok Hpot HP Hpc Hst. cbn in Hst. unfold minStack, maxStack in Hst. destruct (f_stack f) as [| x [| y st]] eqn:Est; try (cbn in Hst; lia).
  pose proof (co_gas _ (fo_contract _ _ Hok)) as Hg. unfold perform. apply wp_bind. unfold wp at 1. rewrite use_gas_eq. cbn [constantGas]. decide_if.
  replace (with_gas (c_Gas (f_contract f) - 0) f) with f by (rewrite Z.sub_0_r; by destruct f as [? ? ? ? []]).
  cbn [dynamicGas]. apply wp_bind. apply (wp_eq _ _ _ (Some 0) f); [done |]. apply wp_bind.
  destruct (Z.le_gt_cases (c_Gas (f_contract f)) 2300) as [Hle | Hgt].
  { apply (wp_eq _ _ _ (0, Some ErrReentrancySentry) f); [unfold gasSStoreEIP3529, makeGasSStoreFunc, bind, gets; cbn; by decide_if |].
    by apply stop_ends. }
  eapply wp_mono; [| apply (gasSStore_ok f sw 0 x y st Hok Est Hgt); lia]. intros r f1 (s & cost & r' & acc & -> & -> & Hs & Hacc & Hcost & Hr' & Hcov).
  set (a := c_self (f_contract f)) in *. set (k := u_Bytes32 x) in *. set (v := u_Bytes32 y) in *. set (w := sw_now sw) in *.
  assert (Hstop : ∀ e g, e ≠ ErrCodeStoreOutOfGas → 0 <= g <= c_Gas (f_contract f) → ends_frame (f_zvm f) sw (c_Gas (f_contract f)) P [] (Some e) (with_gas g (with_zstate s f))).
  { intros e g He Hg'. eexists. split; [exact Hs |]. split_and!; [apply grows_now | done | done | destruct Hok as [? ? ? [] ? ? ? ? ?]; by constructor | constructor | congruence | cbn; lia | cbn; lia | done]. }
  apply wp_bind. unfold wp at 1. rewrite use_gas_eq. cbn [f_contract with_zstate]. case_if; zb.
  { specialize (Hstop ErrOutOfGas (c_Gas (f_contract f)) ltac:(done) ltac:(lia)). by destruct f as [? ? ? ? []]. }
  cbn [negb]. apply wp_bind. apply (wp_eq _ _ _ tt (with_gas (c_Gas (f_contract f) - cost) (with_zstate s f))); [done |].
  apply executed_step. cbn [execute]. unfold opSstore, write_protected. apply wp_bind. unfold wp at 1, gets. cbn [f_zvm with_gas with_zstate with_state readOnly].
  destruct (readOnly (f_zvm f)) eqn:Ero; [apply Hstop; (done || lia) |].
  destruct f as [z pc stk m c]. cbn in Est. subst stk. unfold wp, bind, pop, gets. cbn.
  pose proof (law_op (OpSetState a k v) s _ eq_refl Hs) as H. cbn in H. destruct H as (s' & [= <-] & Hs').
  exists (with_now (set_slot a k v (tuned w r' acc)) sw). pose proof (sstore_world _ _ r' acc k v Hok Hacc Hcov) as Hw'.
  split_and!; cbn; try done; [| apply grows_now | lia | |].
  - destruct Hok as [_ _ Hac [] Hcon ? ? ? Hlen]. constructor; try done; [by apply Hacc | apply contract_ok_gas; [done | cbn in *; lia] | cbn in *; lia].
  - cbn in Ero. constructor; [done | by rewrite Ero |]. apply gains_same. intros b. unfold balance, set_slot. rewrite acct_change.
    case_decide; [by subst b | done].
  - unfold potential in *. fold w in Hpot. cbn in Hpot |- *. lia.
Qed.

(** ** Control flow *)

Lemma jumpdest_quiet f sw : frame_ok f sw → wp (SDB := SDB) opJumpdest (quiet f sw) f.
Proof. intros Hok. apply frame_quiet_refl; [done | constructor | done]. Qed.

Lemma ops_flow_ok : Forall (fun e => op_spec e.2) (ops_flow (SDB := SDB) env).
Proof.
  unfold ops_flow.
  entry; [plain_op opPop_quiet |].
  entry; [dynamic_op 0 pure_charged opMload_quiet; sized_op |].
  entry; [dynamic_op 0 pure_charged opMstore_quiet; sized_op |].
  entry; [dynamic_op 0 pure_charged opMstore8_quiet; sized_op |].
  entry; [dynamic_op 100 gasSLoad_charged opSload_quiet; done |].
  entry; [apply sstore_ok |].
  entry; [plain_op opJump_quiet |].
  entry; [plain_op opJumpi_quiet |].
  do 3 (entry; [plain_op gets_push |]).
  entry; [plain_op jumpdest_quiet |]. constructor.
Qed.
End Store.
