(* ===== verification/VmSafeCalls.v ===== *)
(** * Calls and contract creation *)

From S2P Require Import Prelude RlpRaw RlpEncode TrieNode TrieOps StateAccess State StateWorld StateSupply StateSpec Uint256 VmAnalysis VmCore VmGas VmInstr VmInterp VmLaws VmInv VmMemory VmSafeOps VmSafeMem VmSafeStore.

(** ** Changes of one account *)

Section Accounts.
  Context `{HF : Hasher}.

Lemma world_ok_change a f w :
  account_ok (f (acct w a)) →
  (∀ k, v_committed (f (acct w a)) k ≠ zeroHash → v_storage (f (acct w a)) k = zeroHash → cleared w (a, k)) →
  world_ok w → world_ok (change a f w).
Proof.
  intros Ha Hc [Hw Hr]. constructor.
  - intros b. rewrite acct_change. by case_decide.
  - apply (refund_covers_mono w); [done | | done]. intros [b k] Hs. unfold cleared in Hs. rewrite acct_change in Hs. cbn in Hs.
    case_decide; [subst b; by apply Hc; apply Hs | exact Hs].
Qed.

Lemma static_change a f w : account_eq (acct w a) (f (acct w a)) → static_eq w (change a f w).
Proof. intros Ha. constructor; try done. intros b. rewrite acct_change. case_decide; [by subst b | done]. Qed.

Lemma evolves_change ro a f w :
  (ro = true → account_eq (acct w a) (f (acct w a))) → v_balance (f (acct w a)) = balance w a → evolves ro w (change a f w).
Proof.
  intros Ha Hb. constructor; [done | intros Hro; by apply static_change, Ha |]. pose proof (gains_change a f w) as H. by rewrite Hb, Z.sub_diag in H.
Qed.

(** Only the balance changes. *)
Lemma world_ok_balance a f w :
  (∀ v, v_nonce (f v) = v_nonce v ∧ v_codeHash (f v) = v_codeHash v ∧ v_code (f v) = v_code v ∧ v_storage (f v) = v_storage v ∧
        v_committed (f v) = v_committed v) →
  0 <= v_balance (f (acct w a)) → world_ok w → world_ok (change a f w).
Proof.
  intros Hf Hb Hw. destruct (Hf (acct w a)) as (E1 & E2 & E3 & E4 & E5). apply world_ok_change; [| | done].
  - destruct (wo_accounts _ Hw a) as [Hn _ Hc]. constructor; [by rewrite E1 | done | by rewrite E2, E3].
  - rewrite E4, E5. by split.
Qed.

Lemma w_Nonce_acct a w : w_Nonce a w = v_nonce (acct w a).
Proof. unfold w_Nonce, w_read, acct. by destruct (w_account w a). Qed.

Lemma w_Balance_acct a w : w_Balance a w = balance w a.
Proof. unfold w_Balance, w_read, balance, acct. by destruct (w_account w a). Qed.

Lemma w_CodeHash_ok w a : world_ok w → w_Code a w ≠ [] → w_CodeHash a w = sum256 (w_Code a w).
Proof.
  intros [Hw _] Hne. specialize (Hw a) as [_ _ Hc]. unfold w_Code, w_CodeHash, w_read, acct in *. destruct (w_account w a) as [v |]; [| done].
  cbn in *. destruct (v_code v) as [c |]; [| done]. cbn in *. by apply Hc.
Qed.
End Accounts.

(** ** Addresses of contracts *)

Section Addresses.
  Context `{HF : Hasher} `{HL : !HasherLaws}.

Lemma CreateAddress_spec pool b nonce :
  length (sizebuf pool) = 9%nat → address_ok b → 0 <= nonce < 2 ^ 64 →
  CreateAddress pool b nonce = Ok (BytesToAddress (drop 12 (sum256 (enc_list (enc_string b ++ enc_string (min_be nonce)))))).
Proof.
  intros Hp [Hlb Hb] Hn. unfold CreateAddress. pose proof (min_be_length nonce Hn) as Hm.
  pose proof (enc_string_bound b ltac:(lia)) as H1. pose proof (enc_string_bound (min_be nonce) ltac:(lia)) as H2.
  rewrite EncodeToBytes_spec; [cbn; by rewrite app_nil_r | done |].
  assert (Hs : ∀ e, Ok (enc_string b) = Ok e :> go bytes → slice_len e) by (intros e [= <-]; lia).
  assert (Hs2 : ∀ e, Ok (enc_string (min_be nonce)) = Ok e :> go bytes → slice_len e) by (intros e [= <-]; lia).
  cbn. split; [| repeat (split; try exact Hs; try exact Hs2; try done; try lia)]. intros e [= <-]. rewrite app_nil_r. unfold enc_list. rewrite length_app, Nat2Z.inj_add, head_length; rewrite length_app; [| lia].
  pose proof (headsize_range (Z.of_nat (length (enc_string b) + length (enc_string (min_be nonce))))). lia.
Qed.

Lemma address_of_hash d : address_ok (BytesToAddress (drop 12 (sum256 d))).
Proof.
  pose proof (sum256_length d) as Hl. set (h := drop 12 (sum256 d)).
  assert (Hh : length h = 20%nat) by (unfold h; by rewrite length_drop, Hl). unfold BytesToAddress. decide_if. rewrite Hh. cbn [Nat.sub repeat app].
  split; [done | apply Forall_drop, sum256_bytes].
Qed.
End Addresses.

Section Calls.
  Context `{UI : Uint256} `{UL : !Uint256Laws} `{HF : Hasher} `{HL : !HasherLaws} `{CS : Codes}
    {SDB : Type} `{DB : VmStateDB SDB} `{SL : !VmStateLaws SDB} (env : vm_env).
  Abbreviation frame := (frame (SDB := SDB)).
  Abbreviation zvm := (ZVM SDB).

(** What an operation between two states may do *)
Record steps (ro : bool) (s : SDB) (sw0 sw : saved_world) : Prop := MkSteps {
  sp_models : models s sw;
  sp_grows : grows sw0 sw;
  sp_world : world_ok (sw_now sw);
  sp_evolves : evolves ro (sw_now sw0) (sw_now sw);
  sp_refund : w_refund (sw_now sw) = w_refund (sw_now sw0)
}.

Lemma steps_refl ro s sw : models s sw → world_ok (sw_now sw) → steps ro s sw sw.
Proof. intros Hs Hw. constructor; auto using grows_refl, evolves_refl. Qed.

(** One more operation *)
Lemma steps_op ro o s sw0 sw w :
  db_has o = true → plain o = true → steps ro s sw0 sw → spec_plain o (sw_now sw) = Some w → world_ok w →
  evolves ro (sw_now sw) w → w_refund w = w_refund (sw_now sw) → ∃ s', db_run o s = Ok s' ∧ steps ro s' sw0 (with_now w sw).
Proof.
  intros Ho Hp [Hs Hg Hw Hev Hr] Hspec Hw' Hev' Hr'. pose proof (law_op o s sw Ho Hs) as H.
  assert (E : spec_op o sw = Some (with_now w sw)) by (destruct o; try done; cbn [spec_op]; by rewrite Hspec). rewrite E in H.
  destruct H as (s' & Es & Hs'). exists s'. split; [done |]. constructor; [done | | done | | cbn; congruence].
  - eapply grows_trans; [done | apply grows_now].
  - by eapply evolves_trans.
Qed.

Lemma steps_read {A} ro (g : SDB → A * SDB) v s sw0 sw :
  steps ro s sw0 sw → (∀ s, models s sw → (g s).1 = v ∧ models (g s).2 sw) → ∃ s', g s = (v, s') ∧ steps ro s' sw0 sw.
Proof.
  intros [Hs Hg Hw Hev Hr] Hread. destruct (Hread s Hs) as [Ev Hm]. destruct (g s) as [a s']. cbn in *. subst a.
  exists s'. split; [done |]. by constructor.
Qed.

(** The balance that [x] is added to *)
Definition credit (x : Z) (v : account) : account :=
  MkView (v_nonce v) (v_balance v + x) (v_codeHash v) (v_code v) (v_storage v) (v_committed v).
Definition debit (x : Z) (v : account) : account :=
  MkView (v_nonce v) (v_balance v - x) (v_codeHash v) (v_code v) (v_storage v) (v_committed v).

Lemma credit_models a x s sw : models s sw → models (db_AddBalance a x s) (with_now (change a (credit x) (sw_now sw)) sw).
Proof. intros Hs. pose proof (law_op (OpAddBalance a x) s sw eq_refl Hs) as H. cbn in H. by destruct H as (s' & [= <-] & Hs'). Qed.

Lemma debit_models a x s sw : models s sw → models (db_SubBalance a x s) (with_now (change a (debit x) (sw_now sw)) sw).
Proof. intros Hs. pose proof (law_op (OpSubBalance a x) s sw eq_refl Hs) as H. cbn in H. by destruct H as (s' & [= <-] & Hs'). Qed.

Lemma credit_ok a x w : 0 <= balance w a + x → world_ok w → world_ok (change a (credit x) w).
Proof. intros Hx. apply world_ok_balance; [by intros v; split_and! | done]. Qed.

Lemma debit_ok a x w : x <= balance w a → world_ok w → world_ok (change a (debit x) w).
Proof. intros Hx. apply world_ok_balance; [by intros v; split_and! |]. unfold balance in Hx. cbn. lia. Qed.

Lemma AddZero_steps ro a s sw0 sw : steps ro s sw0 sw → ∃ sw', steps ro (db_AddBalance a 0 s) sw0 sw'.
Proof.
  intros [Hs Hg Hw Hev Hr]. exists (with_now (change a (credit 0) (sw_now sw)) sw). constructor; [by apply credit_models | | | | done].
  - eapply grows_trans; [done | apply grows_now].
  - apply credit_ok; [| done]. rewrite Z.add_0_r. apply (wo_accounts _ Hw a).
  - eapply evolves_trans; [done |]. apply evolves_change; [| apply Z.add_0_r]. intros _. split_and!; try done. cbn. lia.
Qed.

(** Sender and recipient may be the same. *)
Lemma Transfer_steps ro a b x s sw0 sw :
  steps ro s sw0 sw → 0 <= x <= balance (sw_now sw) a → (ro = true → x = 0) → ∃ sw', steps ro (Transfer a b x s) sw0 sw'.
Proof.
  intros [Hs Hg Hw Hev Hr] Hx Hro. set (w := sw_now sw) in *. set (w1 := change a (debit x) w). set (w2 := change b (credit x) w1).
  assert (Hw1 : world_ok w1) by (apply debit_ok; [lia | done]). exists (with_now w2 sw).
  constructor; [exact (credit_models _ _ _ (with_now w1 sw) (debit_models _ _ _ _ Hs)) | | | | done].
  - eapply grows_trans; [done | apply grows_now].
  - apply credit_ok; [| done]. pose proof (ao_balance _ (wo_accounts _ Hw1 b)). unfold balance. lia.
  - eapply evolves_trans; [done |]. constructor; [done | |].
    + intros E. specialize (Hro E). subst x. eapply static_trans; apply static_change; split_and!; try done; cbn; lia.
    + pose proof (gains_trans _ _ _ _ _ (gains_change a (debit x) w) (gains_change b (credit x) w1)) as H. fold w1 w2 in H. unfold balance in H. cbn in H.
      by replace (_ + _) with 0 in H by lia.
Qed.

Lemma CanTransfer_steps ro a x s sw0 sw :
  steps ro s sw0 sw → ∃ s', CanTransfer a x s = (x <=? balance (sw_now sw) a, s') ∧ steps ro s' sw0 sw.
Proof.
  intros Hst. destruct (steps_read ro (db_GetBalance a) _ s sw0 sw Hst (fun t Ht => law_GetBalance a t sw Ht)) as (s' & E & Hs').
  exists s'. split; [| done]. unfold CanTransfer. rewrite E. by rewrite w_Balance_acct.
Qed.

(** An account that is not there is created. *)
Lemma CreateAccount_steps ro a s sw0 sw :
  steps ro s sw0 sw → (ro = true → w_Exist a (sw_now sw) = false) →
  ∃ sw', steps ro (db_CreateAccount a s) sw0 sw' ∧ ∀ b, balance (sw_now sw') b = balance (sw_now sw) b.
Proof.
  intros Hst Hro. edestruct (steps_op ro (OpCreateAccount a) s sw0 sw) as (s' & [= <-] & Hs'); [done | done | done | done | | | done |].
  - apply world_ok_change; [| done | apply Hst]. constructor; [cbn; lia | apply (wo_accounts _ (sp_world _ _ _ _ Hst) a) | done].
  - apply evolves_change; [| done]. intros Hr. specialize (Hro Hr). unfold w_Exist, w_read in Hro. unfold acct. by destruct (w_account (sw_now sw) a).
  - eexists. split; [done |]. intros b. unfold balance. cbn [sw_now with_now]. rewrite acct_change. case_decide; [by subst b | done].
Qed.

Definition with_nonce (n : Z) (v : account) : account :=
  MkView n (v_balance v) (v_codeHash v) (v_code v) (v_storage v) (v_committed v).

Lemma SetNonce_steps a n s sw0 sw :
  steps false s sw0 sw → 0 <= n < 2 ^ 64 → ∃ sw', steps false (db_SetNonce a n s) sw0 sw' ∧ sw_now sw' = change a (with_nonce n) (sw_now sw).
Proof.
  intros Hst Hn. edestruct (steps_op false (OpSetNonce a n) s sw0 sw) as (s' & [= <-] & Hs'); [done | done | done | done | | | done |].
  - apply world_ok_change; [| by split | apply Hst]. destruct (wo_accounts _ (sp_world _ _ _ _ Hst) a) as [_ Hb Hc]. by constructor.
  - by apply evolves_change.
  - by eexists.
Qed.

Lemma balance_nonce a n w b : balance (change a (with_nonce n) w) b = balance w b.
Proof. unfold balance. rewrite acct_change. case_decide; [by subst b | done]. Qed.

Lemma SetCode_steps a c s sw0 sw :
  steps false s sw0 sw → bytes_ok c → len c <= MaxInitCodeSize → ∃ sw', steps false (db_SetCode a c s) sw0 sw' ∧ w_Code a (sw_now sw') = c.
Proof.
  intros Hst Hb Hl. edestruct (steps_op false (OpSetCode a c) s sw0 sw) as (s' & [= <-] & Hs'); [done | done | done | done | | | done |].
  - apply world_ok_change; [| by split | apply Hst]. destruct (wo_accounts _ (sp_world _ _ _ _ Hst) a) as [Hn Hbal _]. constructor; [done | done |].
    cbn. intros c' [= <-] _. split_and!; [done | done |]. apply BytesToHash_32, sum256_length.
  - by apply evolves_change.
  - eexists. split; [done |]. unfold w_Code, w_read. cbn. by rewrite decide_True.
Qed.

Lemma AddAddress_steps ro a s sw0 sw :
  steps ro s sw0 sw → ∃ sw' acc, steps ro (db_AddAddressToAccessList a s) sw0 sw' ∧ sw_now sw' = tuned (sw_now sw) (w_refund (sw_now sw)) acc ∧ is_Some (acc !! a).
Proof.
  intros [Hs Hg Hw Hev Hr]. destruct (add_address_models a s sw Hs) as (acc & Hs' & Hacc & Ha).
  exists (with_now (tuned (sw_now sw) (w_refund (sw_now sw)) acc) sw), acc. split; [| by split]. constructor; [exact Hs' | | | |].
  - eapply grows_trans; [done | apply grows_now].
  - by apply (world_ok_same (sw_now sw)).
  - eapply evolves_trans; [done |]. apply evolves_same; [done | done |]. intros _. by apply static_same.
  - done.
Qed.

(** ** Snapshots *)

Lemma Snapshot_steps ro s sw :
  models s sw → world_ok (sw_now sw) →
  ∃ s', db_Snapshot s = (sw_next sw, s') ∧
    steps ro s' (MkSaved (sw_now sw) ((sw_next sw, sw_now sw) :: sw_saved sw) (sw_next sw + 1))
               (MkSaved (sw_now sw) ((sw_next sw, sw_now sw) :: sw_saved sw) (sw_next sw + 1)).
Proof.
  intros Hs Hw. pose proof (law_op OpSnapshot s sw eq_refl Hs) as H. cbn in H. destruct H as (s' & [= <-] & Hs').
  pose proof (law_id s sw Hs) as Hid. destruct (db_Snapshot s) as [id s1]. cbn in *. subst id. exists s1. split; [done |]. by apply steps_refl.
Qed.

(** The snapshot taken at [sw] is reverted to. *)
Lemma Revert_back s sw sw1 :
  models s sw1 → grows (MkSaved (sw_now sw) ((sw_next sw, sw_now sw) :: sw_saved sw) (sw_next sw + 1)) sw1 →
  ∃ s', db_RevertToSnapshot (sw_next sw) s = Ok s' ∧ models s' (MkSaved (sw_now sw) (sw_saved sw) (sw_next sw1)).
Proof.
  intros Hs [_ (ext & Esaved & Hext)]. pose proof (law_op (OpRevert (sw_next sw)) s sw1 eq_refl Hs) as H. cbn in Esaved, Hext.
  cbn [spec_op] in H. rewrite Esaved, restore_grown in H by (eapply Forall_impl; [exact Hext | cbn; lia]). exact H.
Qed.

Lemma grows_snapshot sw : grows sw (MkSaved (sw_now sw) ((sw_next sw, sw_now sw) :: sw_saved sw) (sw_next sw + 1)).
Proof. split; [cbn; lia |]. exists [(sw_next sw, sw_now sw)]. split; [done |]. repeat constructor. cbn. lia. Qed.

(** ** The interpreter as the calls see it *)

(** Run on a contract with at most [n] gas *)
Definition run_ok (n : Z) (run : runner (SDB := SDB)) : Prop :=
  ∀ c input ro z sw P,
    models (z_state z) sw → world_ok (sw_now sw) → is_Some (w_access (sw_now sw) !! c_self c) → zvm_ok z →
    (c_Code c ≠ [] → contract_ok (set_Input input c)) → 0 <= c_Gas c <= n → potential (sw_now sw) (c_Gas c) <= P → P < 2 ^ 64 →
    ∃ res err c' z', run c input ro z = Ok (res, err, c', z') ∧
      ends (ro || readOnly z) z sw (c_Gas c) P res err z' (c_Gas c').

(** What a call or a creation has left, with [R] of the world *)
Definition left_over (R : saved_world → Prop) (ro : bool) (z0 : zvm) (sw0 : saved_world) (gas : Z) (res : bytes) (gas' : Z) (z : zvm) : Prop :=
  ∃ sw, models (z_state z) sw ∧ grows sw0 sw ∧ readOnly z = readOnly z0 ∧ depth z = depth z0 ∧ zvm_ok z ∧ bytes_ok res ∧
    0 <= gas' <= gas ∧ world_ok (sw_now sw) ∧ evolves ro (sw_now sw0) (sw_now sw) ∧
    potential (sw_now sw) gas' <= potential (sw_now sw0) gas ∧ R sw.

(** After an error of a call the world is the one before. *)
Definition called (ro : bool) (z0 : zvm) (sw0 : saved_world) (gas : Z) (res : bytes) (gas' : Z) (err : option vm_error) (z : zvm) : Prop :=
  left_over (fun sw => err ≠ None → sw_now sw = sw_now sw0) ro z0 sw0 gas res gas' z.

(** A failed creation changes at most the nonce of the creator and the addresses accessed. *)
Definition nonce_only (a : bytes) (w w' : world) : Prop :=
  w' = w ∨ ∃ acc, w' = tuned (change a (with_nonce (u64 (w_Nonce a w + 1))) w) (w_refund w) acc.

(** After an error of a creation, other than the one of the code's gas, the creator's
    nonce is what changed; without an error the code is what was returned. *)
Definition created_world (caller : bytes) (sw0 : saved_world) (res a : bytes) (err : option vm_error) (sw : saved_world) : Prop :=
  match err with
  | None => w_Code a (sw_now sw) = res
  | Some ErrCodeStoreOutOfGas => True
  | Some _ => nonce_only caller (sw_now sw0) (sw_now sw)
  end.

Definition created (caller : bytes) (z0 : zvm) (sw0 : saved_world) (gas : Z) (res a : bytes) (gas' : Z) (err : option vm_error) (z : zvm) : Prop :=
  left_over (created_world caller sw0 res a err) false z0 sw0 gas res gas' z.

(** The world after a snapshot *)
Definition snapped (sw : saved_world) : saved_world :=
  MkSaved (sw_now sw) ((sw_next sw, sw_now sw) :: sw_saved sw) (sw_next sw + 1).

Lemma finish_ok ro z0 sw0 gas res gas1 err z :
  world_ok (sw_now sw0) →
  ends ro z0 (snapped sw0) gas (potential (sw_now sw0) gas) res err z gas1 →
  ∃ gas' z', finish_call (sw_next sw0) res gas1 err z = Ok (res, gas', err, z') ∧ called ro z0 sw0 gas res gas' err z'.
Proof.
  intros Hw0 (sw & Hs & Hg & Hro & Hd & Hz & Hb & _ & Hgas & Hok). unfold finish_call. destruct err as [e |].
  - destruct (Revert_back _ _ _ Hs Hg) as (s' & -> & Hs'). cbn [mbind outcome_bind]. eexists _, _. split; [done |].
    assert (Hle : 0 <= (if is_reverted (Some e) then gas1 else 0) <= gas) by (case_if; lia).
    exists (MkSaved (sw_now sw0) (sw_saved sw0) (sw_next sw)). destruct Hg as [Hn _]. cbn in Hn.
    split_and!; try done; try lia; try apply evolves_refl.
    + split; [cbn; lia |]. by exists [].
    + destruct Hz. by constructor.
    + unfold potential. cbn [sw_now]. lia.
  - destruct (Hok eq_refl) as (Hw & Hev & Hp). eexists _, _. split; [done |]. exists sw.
    split_and!; try done; try lia. eapply grows_trans; [apply grows_snapshot | done].
Qed.

Lemma with_state_ok (z : zvm) s : zvm_ok z → zvm_ok (with_state s z).
Proof. intros []. by constructor. Qed.

Lemma inherit_ok caller (z : zvm) : zvm_ok z → zvm_ok (inherit_jumpdests caller z).
Proof. intros [Hj Hr]. destruct caller; [| done]. constructor; [| done]. intros h b. cbn. by rewrite lookup_empty. Qed.

Lemma inherit_state caller (z : zvm) :
  z_state (inherit_jumpdests caller z) = z_state z ∧ readOnly (inherit_jumpdests caller z) = readOnly z ∧
  depth (inherit_jumpdests caller z) = depth z.
Proof. by destruct caller. Qed.

(** ** Precompiled contracts *)

Definition precompiles_ok : Prop :=
  ∀ a p input, precompile env a = Some p → bytes_ok input →
    0 <= RequiredGas p input ∧ bytes_ok (fst (p_Run p input)) ∧ snd (p_Run p input) ≠ Some ErrCodeStoreOutOfGas.

Lemma precompiled_ends ro (z0 : zvm) sw0 sw s a p input gas :
  precompiles_ok → precompile env a = Some p → bytes_ok input → 0 <= gas → zvm_ok z0 →
  steps ro s (snapped sw0) sw →
  let '(res, gas1, err) := RunPrecompiledContract p input gas in
  ends ro z0 (snapped sw0) gas (potential (sw_now sw0) gas) res err (with_state s z0) gas1.
Proof.
  intros Hpre Hp Hi Hgas Hz [Hs Hg Hw Hev Hr]. destruct (Hpre a p input Hp Hi) as (Hg0 & Hb & He). unfold RunPrecompiledContract.
  case_if; zb.
  - exists sw. split_and!; try done; try lia. by apply with_state_ok.
  - destruct (p_Run p input) as [out err]. exists sw. split_and!; try done; try lia; [by apply with_state_ok |].
    intros _. split_and!; try done. unfold potential. cbn in Hr. rewrite Hr. cbn. lia.
Qed.

(** A call that ends before anything changed *)
Lemma called_same ro (z : zvm) sw s gas err :
  models s sw → world_ok (sw_now sw) → zvm_ok z → 0 <= gas → called ro z sw gas [] gas err (with_state s z).
Proof.
  intros Hs Hw Hz Hg. exists sw.
  split_and!; try done; auto using grows_refl, evolves_refl, with_state_ok.
Qed.

Lemma called_now ro (z : zvm) sw gas err :
  models (z_state z) sw → world_ok (sw_now sw) → zvm_ok z → 0 <= gas → called ro z sw gas [] gas err z.
Proof. intros Hs Hw Hz Hg. pose proof (called_same ro z sw _ gas err Hs Hw Hz Hg) as H. by destruct z. Qed.

Section Run.
  Context (n : Z) (run : runner (SDB := SDB)) (Hrun : run_ok n run) (Hpre : precompiles_ok).

(** The code of an account, run as a contract *)
Lemma run_code ro z sw0 sw s caller c input gas (roArg : bool) :
  steps ro s (snapped sw0) sw → zvm_ok z → ro = roArg || readOnly z → is_Some (w_access (sw_now sw) !! c_self c) →
  (c_Code c ≠ [] → contract_ok (set_Input input c)) → c_Gas c = gas → 0 <= gas <= n → potential (sw_now sw0) gas < 2 ^ 64 →
  ∃ res err c' z', run c input roArg (inherit_jumpdests caller (with_state s z)) = Ok (res, err, c', z') ∧
    ends ro z (snapped sw0) gas (potential (sw_now sw0) gas) res err z' (c_Gas c').
Proof.
  intros [Hs Hg Hw Hev Hr] Hz Hro Hacc Hc Hgas Hn Hp. destruct (inherit_state caller (with_state s z)) as (E1 & E2 & E3). cbn in E1, E2, E3.
  destruct (Hrun c input roArg (inherit_jumpdests caller (with_state s z)) sw (potential (sw_now sw) gas)) as (res & err & c' & z' & Er & Hend).
  - by rewrite E1.
  - done.
  - done.
  - by apply inherit_ok, with_state_ok.
  - done.
  - lia.
  - by rewrite Hgas.
  - unfold potential in *. cbn in Hr. lia.
  - exists res, err, c', z'. split; [done |]. destruct Hend as (sw' & Hs' & Hg' & Hro' & Hd' & Hz' & Hb' & He' & Hgas' & Hok').
    exists sw'. split_and!; [done | by eapply grows_trans | congruence | congruence | done | done | done | lia | lia |]. intros He.
    destruct (Hok' He) as (Hw' & Hev' & Hp'). split_and!; [done | | unfold potential in *; cbn in Hr; lia].
    eapply evolves_trans; [exact Hev |]. by rewrite E2, <- Hro in Hev'.
Qed.

Lemma call_contract_ok k addr w input :
  world_ok w → bytes_ok input → len input < 2 ^ 63 → w_Code addr w ≠ [] →
  c_analysis k = None → 0 <= c_Gas k < 2 ^ 64 → address_ok (c_self k) →
  contract_ok (set_Input input (SetCallCode (w_CodeHash addr w) (w_Code addr w) k)).
Proof.
  intros Hw Hi Hl Hne Hk Hg Ha. destruct (w_Code_ok w addr Hw) as [Hb Hsz]. constructor; cbn; try done.
  - by rewrite Hk.
  - intros _. by apply w_CodeHash_ok.
Qed.

Lemma Call_ok caller addr input gas value z sw :
  models (z_state z) sw → world_ok (sw_now sw) → zvm_ok z → address_ok addr → bytes_ok input → len input < 2 ^ 63 →
  0 <= gas <= n → gas < 2 ^ 64 → potential (sw_now sw) gas < 2 ^ 64 → is_Some (w_access (sw_now sw) !! addr) → 0 <= value → (readOnly z = true → value = 0) →
  ∃ res gas' err z', Call env run caller addr input gas value z = Ok (res, gas', err, z') ∧
    called (readOnly z) z sw gas res gas' err z'.
Proof.
  intros Hs Hw Hz Ha Hi Hil Hg Hg64 Hp Hacc Hv Hro. unfold Call. case_if.
  { eexists _, _, _, _. split; [done |]. apply called_now; (done || lia). }
  assert (Hcan : ∃ b s1, (if negb (value =? 0) then CanTransfer (ref_Address caller) value (z_state z) else (true, z_state z)) = (b, s1) ∧ models s1 sw ∧
    (b = true → value <= balance (sw_now sw) (ref_Address caller))).
  { destruct (Z.eqb_spec value 0) as [-> | Hnz]; cbn [negb]; [eexists _, _; split_and!; [done | done |]; intros _; apply (wo_accounts _ Hw) |]. destruct (CanTransfer_steps (readOnly z) (ref_Address caller) value (z_state z) sw sw) as (s1 & -> & Hs1); [by apply steps_refl |].
    eexists _, _. split_and!; [done | apply Hs1 |]. intros Hle. by apply Z.leb_le. }
  destruct Hcan as (b & s1 & -> & Hs1 & Hle). destruct b; cbn [negb].
  2: { eexists _, _, _, _. split; [done |]. apply called_same; (done || lia). }
  destruct (Snapshot_steps (readOnly z) s1 sw Hs1 Hw) as (s2 & -> & H2). fold (snapped sw) in H2.
  destruct (steps_read _ (db_Exist addr) _ _ _ _ H2 (fun t Ht => law_Exist addr t _ Ht)) as (s3 & -> & H3). cbn [sw_now snapped] in *.
  destruct (negb (w_Exist addr (sw_now sw)) && negb (is_precompile (precompile env addr)) && (value =? 0)).
  { eexists _, _, _, _. split; [done |]. exists (snapped sw).
    split_and!; [apply H3 | apply grows_snapshot | done | done | by apply with_state_ok | constructor | lia | lia | done | apply evolves_refl | done | done]. }
  set (s4 := if negb (w_Exist addr (sw_now sw)) then db_CreateAccount addr s3 else s3).
  assert (H4 : ∃ sw4, steps (readOnly z) s4 (snapped sw) sw4 ∧ ∀ b, balance (sw_now sw4) b = balance (sw_now sw) b).
  { unfold s4. destruct (w_Exist addr (sw_now sw)) eqn:Eex; cbn [negb]; [eauto |].
    destruct (CreateAccount_steps (readOnly z) addr s3 _ _ H3) as (sw4 & ? & ?); eauto. }
  destruct H4 as (sw4 & H4 & Hb4). destruct (Transfer_steps (readOnly z) (ref_Address caller) addr value _ _ _ H4) as (sw5 & H5); [| done |].
  { rewrite Hb4. specialize (Hle eq_refl). lia. }
  destruct (precompile env addr) as [p |] eqn:Ep.
  { pose proof (precompiled_ends _ z sw sw5 _ addr p input gas Hpre Ep Hi ltac:(lia) Hz H5) as He.
    destruct (RunPrecompiledContract p input gas) as [[res gas1] err].
    destruct (finish_ok _ _ _ _ _ _ _ _ Hw He) as (gas' & z' & -> & Hc). by eexists _, _, _, _. }
  destruct (steps_read _ (db_GetCode addr) _ _ _ _ H5 (fun t Ht => law_GetCode addr t _ Ht)) as (s6 & -> & H6).
  destruct (Z.eqb_spec (len (w_Code addr (sw_now sw5))) 0) as [Ecode | Ecode].
  { destruct (finish_ok (readOnly z) z sw gas [] gas None (with_state s6 z) Hw) as (gas' & z' & -> & Hc); [| by eexists _, _, _, _].
    destruct H6 as [Hm6 Hg6 Hw6 Hev6 Hr6]. exists sw5. split_and!; [done | done | done | done | by apply with_state_ok | constructor | done | lia | lia |].
    intros _. split_and!; try done. unfold potential. cbn in Hr6. rewrite Hr6. done. }
  destruct (steps_read _ (db_GetCodeHash addr) _ _ _ _ H6 (fun t Ht => law_GetCodeHash addr t _ Ht)) as (s7 & -> & H7).
  destruct (run_code (readOnly z) z sw sw5 s7 caller (SetCallCode (w_CodeHash addr (sw_now sw5)) (w_Code addr (sw_now sw5)) (NewContract caller addr value gas)) input gas false)
    as (res & err & c' & z' & -> & Hend); try done; try lia.
  - cbn. apply (ev_access _ _ _ (sp_evolves _ _ _ _ H7)). done.
  - intros Hne. apply call_contract_ok; try done; [apply H7 | cbn; lia].
  - cbn [mbind outcome_bind]. destruct (finish_ok _ _ _ _ _ _ _ _ Hw Hend) as (gas' & z2 & -> & Hc). by eexists _, _, _, _.
Qed.

Lemma DelegateCall_ok c addr input gas z sw :
  models (z_state z) sw → world_ok (sw_now sw) → zvm_ok z → address_ok (c_self c) → bytes_ok input → len input < 2 ^ 63 →
  0 <= gas <= n → gas < 2 ^ 64 → potential (sw_now sw) gas < 2 ^ 64 → is_Some (w_access (sw_now sw) !! c_self c) →
  ∃ res gas' err z', DelegateCall env run (CallerContract c) addr input gas z = Ok (res, gas', err, z') ∧
    called (readOnly z) z sw gas res gas' err z'.
Proof.
  intros Hs Hw Hz Ha Hi Hil Hg Hg64 Hp Hacc. unfold DelegateCall. case_if.
  { eexists _, _, _, _. split; [done |]. apply called_now; (done || lia). }
  destruct (Snapshot_steps (readOnly z) (z_state z) sw Hs Hw) as (s2 & -> & H2). fold (snapped sw) in H2.
  destruct (precompile env addr) as [p |] eqn:Ep.
  { pose proof (precompiled_ends _ z sw _ _ addr p input gas Hpre Ep Hi ltac:(lia) Hz H2) as He.
    destruct (RunPrecompiledContract p input gas) as [[res gas1] err].
    destruct (finish_ok _ _ _ _ _ _ _ _ Hw He) as (gas' & z' & -> & Hc). by eexists _, _, _, _. }
  cbn [AsDelegate mbind outcome_bind].
  destruct (steps_read _ (db_GetCodeHash addr) _ _ _ _ H2 (fun t Ht => law_GetCodeHash addr t _ Ht)) as (s3 & -> & H3).
  destruct (steps_read _ (db_GetCode addr) _ _ _ _ H3 (fun t Ht => law_GetCode addr t _ Ht)) as (s4 & -> & H4).
  set (k := MkContract _ _ _ _ _ _ _ _).
  destruct (run_code (readOnly z) z sw (snapped sw) s4 (CallerContract c)
    (SetCallCode (w_CodeHash addr (sw_now (snapped sw))) (w_Code addr (sw_now (snapped sw))) k) input gas false)
    as (res & err & c' & z' & -> & Hend); try done; try lia.
  - intros Hne. apply call_contract_ok; try done. cbn; lia.
  - cbn [mbind outcome_bind]. destruct (finish_ok _ _ _ _ _ _ _ _ Hw Hend) as (gas' & z2 & -> & Hc). by eexists _, _, _, _.
Qed.

Lemma StaticCall_ok caller addr input gas z sw :
  models (z_state z) sw → world_ok (sw_now sw) → zvm_ok z → address_ok addr → bytes_ok input → len input < 2 ^ 63 →
  0 <= gas <= n → gas < 2 ^ 64 → potential (sw_now sw) gas < 2 ^ 64 → is_Some (w_access (sw_now sw) !! addr) →
  ∃ res gas' err z', StaticCall env run caller addr input gas z = Ok (res, gas', err, z') ∧
    called true z sw gas res gas' err z'.
Proof.
  intros Hs Hw Hz Ha Hi Hil Hg Hg64 Hp Hacc. unfold StaticCall. case_if.
  { eexists _, _, _, _. split; [done |]. apply called_now; (done || lia). }
  destruct (Snapshot_steps true (z_state z) sw Hs Hw) as (s1 & -> & H1). fold (snapped sw) in H1.
  destruct (AddZero_steps true addr s1 _ _ H1) as (sw2 & H2).
  destruct (precompile env addr) as [p |] eqn:Ep.
  { pose proof (precompiled_ends _ z sw _ _ addr p input gas Hpre Ep Hi ltac:(lia) Hz H2) as He.
    destruct (RunPrecompiledContract p input gas) as [[res gas1] err].
    destruct (finish_ok _ _ _ _ _ _ _ _ Hw He) as (gas' & z' & -> & Hc). by eexists _, _, _, _. }
  destruct (steps_read _ (db_GetCodeHash addr) _ _ _ _ H2 (fun t Ht => law_GetCodeHash addr t _ Ht)) as (s3 & -> & H3).
  destruct (steps_read _ (db_GetCode addr) _ _ _ _ H3 (fun t Ht => law_GetCode addr t _ Ht)) as (s4 & -> & H4).
  destruct (run_code true z sw sw2 s4 caller
    (SetCallCode (w_CodeHash addr (sw_now sw2)) (w_Code addr (sw_now sw2)) (NewContract caller addr 0 gas)) input gas true)
    as (res & err & c' & z' & -> & Hend); try done; try lia.
  - cbn. by apply (ev_access _ _ _ (sp_evolves _ _ _ _ H4)).
  - intros Hne. apply call_contract_ok; try done; [apply H4 | cbn; lia].
  - cbn [mbind outcome_bind]. destruct (finish_ok _ _ _ _ _ _ _ _ Hw Hend) as (gas' & z2 & -> & Hc). by eexists _, _, _, _.
Qed.

(** ** Creation *)

Lemma created_steps c (z : zvm) sw0 sw s gas res a gas' e :
  steps false s sw0 sw → zvm_ok z → 0 <= gas' <= gas → bytes_ok res → created_world c sw0 res a (Some e) sw →
  created c z sw0 gas res a gas' (Some e) (with_state s z).
Proof.
  intros [Hs Hg Hw Hev Hr] Hz Hgas Hb Hc. exists sw. split_and!; try done; try lia; [by apply with_state_ok | unfold potential; rewrite Hr; lia].
Qed.

Lemma created_ends caller (z z' : zvm) sw0 sw1 gas res g1 s2 gas' c address :
  steps false s2 sw0 sw1 → ends false z (snapped sw1) gas (potential (sw_now sw1) gas) res None z' g1 → 0 <= gas' <= g1 →
  (c = None ∨ c = Some res ∧ len res <= MaxInitCodeSize) →
  created caller z sw0 gas res address gas' (match c with Some _ => None | None => Some ErrCodeStoreOutOfGas end)
    (match c with Some code => with_state (db_SetCode address code (z_state z')) z' | None => z' end).
Proof.
  intros [Hs Hg Hw Hev Hr] (sw & Hs' & Hg' & Hro' & Hd' & Hz' & Hb' & _ & Hgas' & Hok') Hle Hc. destruct (Hok' eq_refl) as (Hw' & Hev' & Hp').
  assert (Hg2 : grows sw0 sw) by (eapply grows_trans; [done |]; eapply grows_trans; [apply grows_snapshot | done]).
  assert (Hev2 : evolves false (sw_now sw0) (sw_now sw)) by (eapply evolves_trans; [exact Hev | exact Hev']).
  assert (Hp2 : potential (sw_now sw) gas' <= potential (sw_now sw0) gas) by (unfold potential in *; lia).
  destruct Hc as [-> | [-> Hl]].
  - exists sw. split_and!; try done; lia.
  - destruct (SetCode_steps address res (z_state z') sw sw) as (sw2 & [Hm2 Hg3 Hw2 Hev3 Hr2] & Hcode); [by apply steps_refl | done | done |].
    exists sw2. split_and!; try done; try lia; [by eapply grows_trans | by apply with_state_ok | by eapply evolves_trans |].
    unfold potential in *. lia.
Qed.

(** The revert of a failed creation *)
Lemma created_revert caller (z z' : zvm) sw0 sw1 s1 gas res a g1 err gas' e :
  steps false s1 sw0 sw1 → ends false z (snapped sw1) gas (potential (sw_now sw1) gas) res err z' g1 → 0 <= gas' <= gas →
  nonce_only caller (sw_now sw0) (sw_now sw1) →
  ∃ s, db_RevertToSnapshot (sw_next sw1) (z_state z') = Ok s ∧ created caller z sw0 gas res a gas' (Some e) (with_state s z').
Proof.
  intros [Hs Hg Hw Hev Hr] (sw & Hs' & Hg' & Hro' & Hd' & Hz' & Hb' & _ & _) Hle Hn1. destruct (Revert_back _ _ _ Hs' Hg') as (s & -> & Hs2).
  exists s. split; [done |]. exists (MkSaved (sw_now sw1) (sw_saved sw1) (sw_next sw)). destruct Hg' as [Hn _]. cbn in Hn.
  split_and!; try done; try lia.
  - eapply grows_trans; [exact Hg |]. split; [cbn; lia |]. by exists [].
  - by apply with_state_ok.
  - unfold potential. cbn. lia.
  - by destruct e.
Qed.

Lemma check_code_err res err : err ≠ Some ErrCodeStoreOutOfGas → check_code res err ≠ Some ErrCodeStoreOutOfGas.
Proof. intros He. unfold check_code. destruct err as [e |]; [congruence |]. case_if; [done |]. repeat case_match; congruence. Qed.

Lemma check_code_none res err : check_code res err = None → err = None ∧ len res <= MaxCodeSize.
Proof. unfold check_code. destruct err; [done |]. case_if; zb; [done |]. done. Qed.

Lemma create_ok caller code hash gas value address z sw :
  models (z_state z) sw → world_ok (sw_now sw) → zvm_ok z → readOnly z = false → address_ok address → bytes_ok code → len code <= MaxInitCodeSize →
  (hash ≠ zeroHash → hash = sum256 code) → 0 <= value → 0 <= gas <= n → gas < 2 ^ 64 → potential (sw_now sw) gas < 2 ^ 64 →
  ∃ res a gas' err z', create run caller code hash gas value address z = Ok (res, a, gas', err, z') ∧ created (ref_Address caller) z sw gas res a gas' err z'.
Proof.
  intros Hs Hw Hz Hro Ha Hb Hl Hh Hv Hg Hg64 Hp. pose proof (steps_refl false _ _ Hs Hw) as St0. unfold create. case_if.
  { eexists _, _, _, _, _. split; [done |]. pose proof (created_steps (ref_Address caller) z sw sw _ gas [] (repeat 0 20) gas ErrDepth St0 Hz ltac:(lia) bytes_ok_nil ltac:(by left)) as H. by destruct z. }
  destruct (CanTransfer_steps false (ref_Address caller) value _ _ _ St0) as (s1 & -> & St1). case_if.
  { eexists _, _, _, _, _. split; [done |]. apply (created_steps _ z sw sw); (done || lia || apply bytes_ok_nil || by left). }
  destruct (steps_read _ (db_GetNonce (ref_Address caller)) _ _ _ _ St1 (fun t Ht => law_GetNonce _ t _ Ht)) as (s2 & -> & St2). case_if.
  { eexists _, _, _, _, _. split; [done |]. apply (created_steps _ z sw sw); (done || lia || apply bytes_ok_nil || by left). }
  destruct (SetNonce_steps (ref_Address caller) (u64 (w_Nonce (ref_Address caller) (sw_now sw) + 1)) _ _ _ St2) as (sw3 & St3 & E3).
  { unfold u64. apply Z.mod_pos_bound. lia. }
  destruct (AddAddress_steps false address _ _ _ St3) as (sw4 & acc & St4 & E4 & Hacc).
  assert (Hn4 : nonce_only (ref_Address caller) (sw_now sw) (sw_now sw4)) by (right; exists acc; by rewrite E4, E3).
  destruct (steps_read _ (db_GetCodeHash address) _ _ _ _ St4 (fun t Ht => law_GetCodeHash _ t _ Ht)) as (s5 & -> & St5).
  destruct (steps_read _ (db_GetNonce address) _ _ _ _ St5 (fun t Ht => law_GetNonce _ t _ Ht)) as (s6 & -> & St6). case_if.
  { eexists _, _, _, _, _. split; [done |]. apply (created_steps _ z sw sw4); (done || lia || apply bytes_ok_nil). }
  destruct (Snapshot_steps false s6 sw4 (sp_models _ _ _ _ St6) (sp_world _ _ _ _ St6)) as (s7 & -> & St7). fold (snapped sw4) in St7.
  destruct (CreateAccount_steps false address _ _ _ St7 ltac:(done)) as (sw8 & St8 & Hb8).
  destruct (SetNonce_steps address 1 _ _ _ St8 ltac:(lia)) as (sw9 & St9 & E9).
  destruct (Transfer_steps false (ref_Address caller) address value _ _ _ St9) as (sw10 & St10); [| done |].
  { rewrite E9, balance_nonce, Hb8. cbn [sw_now snapped]. rewrite E4. unfold tuned. change (0 <= value <= balance (sw_now sw3) (ref_Address caller)). rewrite E3, balance_nonce. zb. lia. }
  destruct (run_code false z sw4 sw10 _ caller (SetCallCode hash code (NewContract caller address value gas)) [] gas false St10 Hz)
    as (res & err & c' & z' & -> & Hend).
  { by rewrite Hro. }
  { cbn. apply (ev_access _ _ _ (sp_evolves _ _ _ _ St10)). cbn. by rewrite E4. }
  { intros _. constructor; cbn; try done; lia. }
  { done. } { done. }
  { unfold potential in *. rewrite (sp_refund _ _ _ _ St6). done. }
  cbn [mbind outcome_bind]. pose proof Hend as (swr & _ & _ & _ & _ & _ & Hbr & Her & Hgr & _).
  destruct (check_code res err) as [e |] eqn:Ec.
  - assert (Hce : e ≠ ErrCodeStoreOutOfGas) by (intros ->; by apply (check_code_err res err)).
    set (gas' := c_Gas (if is_reverted (Some e) then c' else snd (UseGas (c_Gas c') c'))).
    assert (Hgas' : 0 <= gas' <= gas).
    { unfold gas'. case_if; [lia |]. unfold UseGas. rewrite Z.ltb_irrefl. cbn. lia. }
    destruct (created_revert (ref_Address caller) z z' sw sw4 s6 gas res address _ err gas' e St6 Hend Hgas' Hn4) as (s & Es & Hc).
    exists res, address, gas', (Some e), (with_state s z'). split; [| done]. destruct e; try done; cbn [mbind outcome_bind]; by rewrite Es.
  - apply check_code_none in Ec as [-> Hlen]. unfold UseGas. case_if; zb.
    + eexists _, _, _, _, _. split; [done |]. eapply (created_ends _ z z' sw sw4 gas res (c_Gas c') _ _ None address St6 Hend); [lia | by left].
    + eexists _, _, _, _, _. split; [done |]. cbn.
      assert (Hu : 0 <= u64 (len res * 200)) by (unfold u64; apply Z.mod_pos_bound; lia).
      eapply (created_ends _ z z' sw sw4 gas res (c_Gas c') _ _ (Some res) address St6 Hend); [lia | right; split; [done | lia]].
Qed.

Lemma Create_ok caller code gas value z sw :
  length (sizebuf (enc_pool env)) = 9%nat → address_ok (ref_Address caller) →
  models (z_state z) sw → world_ok (sw_now sw) → zvm_ok z → readOnly z = false → bytes_ok code → len code <= MaxInitCodeSize →
  0 <= value → 0 <= gas <= n → gas < 2 ^ 64 → potential (sw_now sw) gas < 2 ^ 64 →
  ∃ res a gas' err z', Create env run caller code gas value z = Ok (res, a, gas', err, z') ∧ created (ref_Address caller) z sw gas res a gas' err z'.
Proof.
  intros Hpool Hca Hs Hw Hz Hro Hb Hl Hv Hg Hg64 Hp. unfold Create.
  destruct (law_GetNonce (ref_Address caller) _ _ Hs) as [En Hs1]. destruct (db_GetNonce (ref_Address caller) (z_state z)) as [nonce s1]. cbn in En, Hs1. subst nonce.
  rewrite CreateAddress_spec; [| done | done |].
  2: { rewrite w_Nonce_acct. apply (wo_accounts _ Hw). }
  cbn [mbind outcome_bind]. destruct (create_ok caller code zeroHash gas value (BytesToAddress (drop 12 (sum256 (enc_list
    (enc_string (ref_Address caller) ++ enc_string (min_be (w_Nonce (ref_Address caller) (sw_now sw)))))))) (with_state s1 z) sw) as (res & a & gas' & err & z' & E & Hc); try done.
  - by apply with_state_ok.
  - apply address_of_hash.
  - exists res, a, gas', err, z'. split; [exact E | exact Hc].
Qed.

Lemma Create2_ok caller code gas value salt z sw :
  models (z_state z) sw → world_ok (sw_now sw) → zvm_ok z → readOnly z = false → bytes_ok code → len code <= MaxInitCodeSize →
  0 <= value → 0 <= gas <= n → gas < 2 ^ 64 → potential (sw_now sw) gas < 2 ^ 64 →
  ∃ res a gas' err z', Create2 run caller code gas value salt z = Ok (res, a, gas', err, z') ∧ created (ref_Address caller) z sw gas res a gas' err z'.
Proof. intros. unfold Create2. apply create_ok; try done. apply address_of_hash. Qed.
End Run.
End Calls.
