(* ===== verification/VmSafeCallOps.v ===== *)
(** * The instructions that call and create *)

From S2P Require Import Prelude RlpRaw RlpEncode TrieNode TrieOps StateAccess State StateWorld StateSupply StateSpec Uint256 VmAnalysis VmCore VmGas VmInstr VmInterp VmLaws VmInv VmMemory VmSafeOps VmSafeMem VmSafeStore VmSafeCalls.

#[local] Arguments mem_Set : simpl never.
#[local] Arguments mem_GetPtr : simpl never.
#[local] Arguments mem_GetCopy : simpl never.
#[local] Arguments toWordSize : simpl never.

Section CallOps.
  Context `{UI : Uint256} `{UL : !Uint256Laws} `{HF : Hasher} `{HL : !HasherLaws} `{CS : Codes}
    {SDB : Type} `{DB : VmStateDB SDB} `{SL : !VmStateLaws SDB} (env : vm_env).
  Abbreviation frame := (frame (SDB := SDB)).
  Abbreviation zvm := (ZVM SDB).
  Abbreviation gasM := (M (SDB := SDB) (Z * option vm_error)).

(** ** Gas of creations *)

Definition small_code (z : zvm) (st : list Int) (sw : saved_world) (cost : Z) : Prop :=
  ∀ size, st !! 2%nat = Some size → u_Uint64 size <= MaxInitCodeSize.

Lemma create_charged (m : Z → Z) ms f sw :
  (∀ size, 0 <= m size) → frame_ok f sw → (2 < length (f_stack f))%nat → 0 <= ms < 2 ^ 64 → ms mod 32 = 0 →
  wp (or_err (memoryGasCost ms) (fun gas => bind (Back 2) (fun size =>
        let '(size, overflow) := u_Uint64WithOverflow size in
        if overflow || (MaxInitCodeSize <? size) then ret (0, Some ErrGasUintOverflow)
        else or_overflow (SafeAdd gas (m size)) (fun gas => ret (gas, None)))))
    (charged small_code ms f sw) f.
Proof.
  intros Hm0 Hok Hn Hms Hmod. apply wp_mem_cost; [done | done | done |]. intros c lg Hc Hm.
  apply wp_Back; [done |]. intros x Hx. assert (Herr := fun v => charged_err small_code ms f sw lg v ErrGasUintOverflow Hok).
  unfold u_Uint64WithOverflow. case_if; [apply Herr |]. zb. apply wp_or_overflow; [apply Herr |].
  intros E. specialize (Hm0 (u_Uint64 x)). apply SafeAdd_fst in E as ->; [| lia | lia].
  apply charged_ret; [done | done |]. intros _. split; [lia |]. intros size Hs. cbn in Hx. rewrite Hx in Hs. injection Hs as <-. lia.
Qed.

Lemma gasCreate_charged ms f sw :
  frame_ok f sw → (2 < length (f_stack f))%nat → 0 <= ms < 2 ^ 64 → ms mod 32 = 0 → wp (gasCreateEip3860 ms) (charged small_code ms f sw) f.
Proof.
  intros. apply (create_charged (fun size => u64 (2 * ((size + 31) / 32)))); try done. intros. unfold u64. apply Z.mod_pos_bound. lia.
Qed.

Lemma gasCreate2_charged ms f sw :
  frame_ok f sw → (2 < length (f_stack f))%nat → 0 <= ms < 2 ^ 64 → ms mod 32 = 0 → wp (gasCreate2Eip3860 ms) (charged small_code ms f sw) f.
Proof.
  intros. apply (create_charged (fun size => u64 ((2 + 6) * ((size + 31) / 32)))); try done. intros. unfold u64. apply Z.mod_pos_bound. lia.
Qed.

(** ** Gas of calls *)

Lemma callGas_range avail base cost : ∃ t, callGas avail base cost = (t, None) ∧ 0 <= t <= 2 ^ 64 - 2 ^ 58.
Proof.
  unfold callGas. set (a := u64 (avail - base)). assert (Ha : 0 <= a < 2 ^ 64) by (unfold a, u64; apply Z.mod_pos_bound; lia).
  pose proof (Z.div_mod a 64 ltac:(lia)) as Hd. pose proof (Z.mod_pos_bound a 64 ltac:(lia)) as Hm.
  pose proof (Uint64_range cost) as Hu. case_if; eexists; (split; [done |]); zb; lia.
Qed.

(** The frame of a call's gas function: memory fee, gas to hand on and caches may change. *)
Definition call_frame (f : frame) (s : SDB) (t lg : Z) : frame :=
  MkFrame (with_callGas t (with_state s (f_zvm f))) (f_pc f) (f_stack f) (MkMemory (store (f_mem f)) lg) (f_contract f).

Definition call_gas (extra ms : Z) (f : frame) (sw : saved_world) (r : Z * option vm_error) (f1 : frame) : Prop :=
  ∃ s t lg, f1 = call_frame f s t lg ∧ models s sw ∧
    (snd r = None → mem_ok (mem_Resize ms (MkMemory (store (f_mem f)) lg)) ∧ 0 <= t ∧ t + extra <= fst r < 2 ^ 64 - 2500).

Lemma with_zstate_refl (f : frame) : with_zstate (z_state (f_zvm f)) f = f.
Proof. by destruct f as [[] ? ? ? ?]. Qed.

Lemma gas_and_callGas_ok extra ms f sw s lg gas :
  models s sw → mem_ok (mem_Resize ms (MkMemory (store (f_mem f)) lg)) → (0 < length (f_stack f))%nat → 0 <= extra <= gas → gas < 2 ^ 57 →
  wp (gas_and_callGas gas) (call_gas extra ms f sw) (call_frame f s (callGasTemp (f_zvm f)) lg).
Proof.
  intros Hs Hm Hst He Hg. unfold gas_and_callGas. apply wp_bind. unfold wp at 1, gets.
  apply wp_Back; [done |]. intros x _. destruct (callGas_range (c_Gas (f_contract (call_frame f s (callGasTemp (f_zvm f)) lg))) gas x) as (t & -> & Ht).
  apply wp_bind. apply (wp_eq _ _ _ tt (call_frame f s t lg)); [done |].
  apply wp_or_overflow; [by exists s, t, lg |]. intros E. apply SafeAdd_fst in E as ->; [| lia | lia].
  exists s, t, lg. split_and!; [done | done |]. intros _. split; [done |]. cbn. lia.
Qed.

Lemma wp_mem_call extra ms f sw s (k : Z → gasM) :
  frame_ok f sw → models s sw → 0 <= ms < 2 ^ 64 → ms mod 32 = 0 →
  (∀ c lg, 0 <= c < 2 ^ 56 → mem_ok (mem_Resize ms (MkMemory (store (f_mem f)) lg)) →
     wp (k c) (call_gas extra ms f sw) (call_frame f s (callGasTemp (f_zvm f)) lg)) →
  wp (or_err (memoryGasCost ms) k) (call_gas extra ms f sw) (with_zstate s f).
Proof.
  intros Hok Hs Hms Hmod Hk. unfold or_err. apply wp_bind.
  destruct (mem_cost ms (with_zstate s f) sw (frame_ok_state _ _ _ Hok Hs) Hms Hmod) as [E | (c & lg & E & Hc & Hm)]; apply (wp_eq _ _ _ _ _ E).
  - exists s, (callGasTemp (f_zvm f)), (lastGasCost (f_mem f)). split_and!; [| done | done]. by destruct f as [[] ? ? [] ?].
  - by apply Hk.
Qed.

(** What CALL adds for the transfer of a value *)
Definition value_gas (st : list Int) : Z := match st !! 2%nat with Some v => if u_IsZero v then 0 else CallValueTransferGas | None => 0 end.

Lemma gasCall_ok ms f sw :
  frame_ok f sw → (6 < length (f_stack f))%nat → 0 <= ms < 2 ^ 64 → ms mod 32 = 0 → wp (gasCall ms) (call_gas (value_gas (f_stack f)) ms f sw) f.
Proof.
  intros Hok Hst Hms Hmod. apply wp_Back; [lia |]. intros v Hv. apply wp_Back; [lia |]. intros a _. cbv zeta.
  unfold value_gas. rewrite Hv.
  assert (Htail : ∀ s gas, models s sw → (if u_IsZero v then 0 else 9000) <= gas < 40000 →
    wp (or_err (memoryGasCost ms) (fun memoryGas => or_overflow (SafeAdd gas memoryGas) (fun gas => gas_and_callGas gas)))
      (call_gas (if u_IsZero v then 0 else 9000) ms f sw) (with_zstate s f)).
  { intros s gas Hs Hg. assert (0 <= (if u_IsZero v then 0 else 9000)) by (case_if; lia). apply wp_mem_call; [done | done | done | done |]. intros c lg Hc Hm.
    apply wp_or_overflow; [by exists s, (callGasTemp (f_zvm f)), lg |]. intros E. apply SafeAdd_fst in E as ->; [| lia | lia].
    apply gas_and_callGas_ok; [done | done | lia | lia | lia]. }
  destruct (u_IsZero v); cbn [negb andb].
  - apply wp_bind. unfold wp at 1, ret. specialize (Htail (z_state (f_zvm f)) 0). rewrite with_zstate_refl in Htail.
    apply Htail; [apply Hok | lia].
  - eapply wp_get; [apply Hok | intros s; apply (law_Empty (u_Bytes20 a)) |]. intros s Hs.
    assert (Hu : ∀ b : bool, u64 ((if b then 25000 else 0) + 9000) = (if b then 25000 else 0) + 9000) by (intros []; done). rewrite Hu.
    apply Htail; [done | case_if; lia].
Qed.

Lemma gasDelegateCall_ok ms f sw :
  frame_ok f sw → (5 < length (f_stack f))%nat → 0 <= ms < 2 ^ 64 → ms mod 32 = 0 → wp (gasDelegateCall ms) (call_gas 0 ms f sw) f.
Proof.
  intros Hok Hst Hms Hmod. cut (wp (gasDelegateCall ms) (call_gas 0 ms f sw) (with_zstate (z_state (f_zvm f)) f)); [by rewrite with_zstate_refl |].
  apply wp_mem_call; [done | apply Hok | done | done |]. intros c lg Hc Hm. apply gas_and_callGas_ok; [apply Hok | done | lia | lia | lia].
Qed.

(** After the gas of a call: the address is accessed and the gas handed on is paid for. *)
Definition call_ready (extra : list Int → Z) (z : zvm) (st : list Int) (sw : saved_world) (cost : Z) : Prop :=
  (∀ a, st !! 1%nat = Some a → is_Some (w_access (sw_now sw) !! u_Bytes20 a)) ∧ 0 <= callGasTemp z ∧ callGasTemp z + extra st <= cost.

Lemma call_frame_charged extra ms f sw acc s t lg g cost err :
  frame_ok f sw → (∀ a, is_Some (w_access (sw_now sw) !! a) → is_Some (acc !! a)) →
  models s (with_now (tuned (sw_now sw) (w_refund (sw_now sw)) acc) sw) → 0 <= g <= c_Gas (f_contract f) →
  (err = None → g = c_Gas (f_contract f) ∧ mem_ok (mem_Resize ms (MkMemory (store (f_mem f)) lg)) ∧ 0 <= t ∧ 0 <= extra (f_stack f) ∧
     t + extra (f_stack f) <= cost ∧ ∀ a, f_stack f !! 1%nat = Some a → is_Some (acc !! u_Bytes20 a)) →
  charged (call_ready extra) ms f sw (cost, err) (with_gas g (call_frame f s t lg)).
Proof.
  intros Hok Hacc Hs Hg Hx. set (w' := tuned _ _ _) in Hs. exists (with_now w' sw).
  split_and!; [done | apply grows_now | done | done | destruct Hok as [? ? ? [] ? ? ? ? ?]; by constructor | cbn; lia | cbn; lia |].
  intros He. destruct (Hx He) as (-> & Hm & Ht & Hex & Hcost & Ha). split_and!; try done; cbn;
    [lia | by destruct (f_contract f) | by apply (world_ok_same (sw_now sw)), Hok | by apply evolves_same].
Qed.

Lemma call_frame_gas (f : frame) s t lg : with_gas (c_Gas (f_contract f)) (call_frame f s t lg) = call_frame f s t lg.
Proof. by destruct f as [? ? ? ? []]. Qed.

Lemma same_access (sw : saved_world) : with_now (tuned (sw_now sw) (w_refund (sw_now sw)) (w_access (sw_now sw))) sw = sw.
Proof. by destruct sw as [[] ? ?]. Qed.

Section Variant.
  Context (old : Z → gasM) (extra : list Int → Z) (n : nat).
  Context (extra_pos : ∀ st, 0 <= extra st) (n_pos : (0 < n)%nat).
  Context (old_ok : ∀ ms f sw, frame_ok f sw → (n < length (f_stack f))%nat → 0 <= ms < 2 ^ 64 → ms mod 32 = 0 → wp (old ms) (call_gas (extra (f_stack f)) ms f sw) f).

(** The address is in the access list. *)
Lemma variant_warm ms f sw :
  frame_ok f sw → (n < length (f_stack f))%nat → 0 <= ms < 2 ^ 64 → ms mod 32 = 0 →
  (∀ a, f_stack f !! 1%nat = Some a → is_Some (w_access (sw_now sw) !! u_Bytes20 a)) →
  wp (old ms) (charged (call_ready extra) ms f sw) f.
Proof.
  intros Hok Hn Hms Hmod Ha. eapply wp_mono; [| by apply old_ok]. intros [cost err] f1 (s & t & lg & -> & Hs & Hx). cbn [fst snd] in Hx.
  rewrite <- call_frame_gas. pose proof (co_gas _ (fo_contract _ _ Hok)). apply (call_frame_charged _ _ _ _ (w_access (sw_now sw))); [done | done | by rewrite same_access | lia |].
  intros He. destruct (Hx He) as (Hm & Ht & Hc). split_and!; (done || apply extra_pos || lia).
Qed.

(** Otherwise the gas for the access is taken before and given back after. *)
Lemma variant_cold ms f sw a :
  frame_ok f sw → (n < length (f_stack f))%nat → 0 <= ms < 2 ^ 64 → ms mod 32 = 0 → f_stack f !! 1%nat = Some a →
  wp (bind (bind (db_do (db_AddAddressToAccessList (u_Bytes20 a))) (fun _ => use_gas 2500)) (fun p =>
        if negb p then ret (0, Some ErrOutOfGas)
        else bind (old ms) (fun r => let '(gas, err) := r in
          match err with
          | Some e => ret (gas, Some e)
          | None => bind (add_gas 2500) (fun _ => ret (u64 (gas + 2500), None))
          end)))
    (charged (call_ready extra) ms f sw) f.
Proof.
  intros Hok Hn Hms Hmod Ha. pose proof (co_gas _ (fo_contract _ _ Hok)) as Hg.
  destruct (add_address_models (u_Bytes20 a) _ _ (fo_models _ _ Hok)) as (acc & Hs & Hacc & Hin). set (s1 := db_AddAddressToAccessList _ _) in *.
  apply wp_bind, wp_bind. apply (wp_eq _ _ _ tt (with_zstate s1 f)); [done |]. unfold wp at 1. rewrite use_gas_eq. cbn [f_contract with_zstate]. case_if; zb; cbn [negb].
  { change (charged (call_ready extra) ms f sw (0, Some ErrOutOfGas) (with_zstate s1 f)).
    replace (with_zstate s1 f) with (with_gas (c_Gas (f_contract f)) (call_frame f s1 (callGasTemp (f_zvm f)) (lastGasCost (f_mem f))))
      by by destruct f as [[] ? ? [] []]. apply (call_frame_charged _ _ _ _ acc); (done || lia). }
  set (f2 := with_gas (c_Gas (f_contract f) - 2500) (with_zstate s1 f)). set (sw1 := with_now (tuned (sw_now sw) (w_refund (sw_now sw)) acc) sw) in *.
  assert (Hok2 : frame_ok f2 sw1).
  { destruct Hok. constructor; try done; [by apply (world_ok_same (sw_now sw)) | by apply Hacc | by destruct fo_zvm; constructor | apply contract_ok_gas; [done | cbn; lia]]. }
  apply wp_bind. eapply wp_mono; [| by apply (old_ok ms f2 sw1)]. intros [cost err] f3 (s & t & lg & -> & Hs3 & Hx). cbn [fst snd] in Hx.
  destruct err as [e |].
  - change (charged (call_ready extra) ms f sw (cost, Some e) (with_gas (c_Gas (f_contract f) - 2500) (call_frame f s t lg))).
    apply (call_frame_charged _ _ _ _ acc); (done || lia).
  - destruct (Hx eq_refl) as (Hm & Ht & Hc). apply wp_bind. apply (wp_eq _ _ _ tt (with_gas (c_Gas (f_contract f)) (call_frame f s t lg))).
    { unfold add_gas, bind, gets, set_contract. cbn. rewrite Z.sub_add. unfold u64. by rewrite Z.mod_small by lia. }
    specialize (extra_pos (f_stack f)). cbn in Hc. unfold u64. rewrite Z.mod_small by lia.
    apply (call_frame_charged _ _ _ _ acc); [done | done | done | lia |]. intros _. split_and!; (done || lia || idtac). intros b Hb. rewrite Ha in Hb. by injection Hb as <-.
Qed.

Lemma variant_charged ms f sw :
  frame_ok f sw → (n < length (f_stack f))%nat → 0 <= ms < 2 ^ 64 → ms mod 32 = 0 →
  wp (makeCallVariantGasCallEIP2929 old ms) (charged (call_ready extra) ms f sw) f.
Proof.
  intros Hok Hn Hms Hmod. apply wp_Back; [lia |]. intros a Ha. cbv zeta. apply wp_bind. unfold wp at 1, gets.
  rewrite (law_AddressInAccessList _ _ _ (fo_models _ _ Hok)). case_bool_decide as Hw; cbn [negb].
  - apply wp_bind. unfold wp at 1, ret. apply wp_bind. eapply wp_mono; [| apply variant_warm; try done].
    + by intros [? []] ? H.
    + intros b Hb. cbn in Ha. rewrite Ha in Hb. by injection Hb as <-.
  - by apply variant_cold.
Qed.
End Variant.

Lemma value_gas_pos st : 0 <= value_gas st.
Proof. unfold value_gas. destruct (st !! 2%nat); [| lia]. case_if; lia. Qed.

(** ** After a call *)

Lemma resumed z0 sw0 g P f sw R ro gasC res gas' z' cg st m rd :
  paid z0 sw0 g P f sw → potential (sw_now sw) g <= P → left_over R ro (f_zvm f) sw gasC res gas' z' → (readOnly z0 = true → ro = true) →
  0 <= cg → cg + gasC < g → g < 2 ^ 64 → mem_ok m → bytes_ok rd → Z.of_nat (length st) <= StackLimit →
  continues z0 sw0 g P (MkFrame (with_returnData rd z') (f_pc f) st m (set_Gas (u64 (cg + gas')) (f_contract f))).
Proof.
  intros [Hok Hg Hro Hd Hgas Hev Hp] Hpot (sw' & Hs & Hg' & Hro' & Hd' & Hz & Hb & Hgas' & Hw & Hev' & Hp' & _) Hros Hcg Hlt H64 Hm Hrd Hst.
  assert (Hu : u64 (cg + gas') = cg + gas') by (unfold u64; apply Z.mod_small; lia). rewrite Hu. exists sw'. destruct Hok as [_ _ Hacc _ Hcon ? _ Hpc _]. split_and!.
  - constructor; try done; [by apply (ev_access _ _ _ Hev') | by destruct Hz; constructor | apply contract_ok_gas; [done | lia]].
  - by eapply grows_trans.
  - cbn. congruence.
  - cbn. congruence.
  - cbn. lia.
  - eapply evolves_trans; [exact Hev |]. by eapply evolves_weaken; [| exact Hev'].
  - unfold potential in *. cbn [f_contract c_Gas set_Gas]. lia.
Qed.

Lemma wp_from_contract {A B} (k : ContractRef → zvm → outcome Empty_set (A * zvm)) (K : A → M (SDB := SDB) B) Q z pc st m c a z' :
  k (CallerContract c) z = Ok (a, z') → wp (K a) Q (MkFrame z' pc st m c) → wp (bind (from_contract k) K) Q (MkFrame z pc st m c).
Proof. intros E Hk. unfold from_contract, wp, bind, gets, lift. cbn. rewrite E. cbn. exact Hk. Qed.

Lemma mem_max_inside a b c d st xa xb xc xd v m :
  mem_max a b c d st = Ok (v, false) → v <= len (store m) → mem_ok m →
  st !! a = Some xa → st !! b = Some xb → st !! c = Some xc → st !! d = Some xd →
  inside m (u_Uint64 xa) (u_Uint64 xb) ∧ inside m (u_Uint64 xc) (u_Uint64 xd).
Proof.
  intros E Hv Hm Ha Hb Hc Hd. unfold mem_max in E. destruct (mem_at a b st) as [[v1 []] | | |] eqn:E1; try done. cbn in E.
  destruct (mem_at c d st) as [[v2 []] | | |] eqn:E2; try done. cbn in E.
  apply (mem_at_inv _ _ _ xa xb) in E1; [| done | done]. apply (mem_at_inv _ _ _ xc xd) in E2; [| done | done].
  destruct (v2 <? v1) eqn:Elt; injection E as <-; zb; (split; [eapply calc_inside in E1 | eapply calc_inside in E2]; (apply E1 || apply E2 || done || lia)).
Qed.

Lemma finish_opCall_ok z0 sw0 g P f sw ro gasC ro_ rs res gas' err z' st :
  paid z0 sw0 g P f sw → potential (sw_now sw) g <= P → called ro (f_zvm f) sw gasC res gas' err z' → (readOnly z0 = true → ro = true) →
  c_Gas (f_contract f) + gasC < g → g < 2 ^ 64 → inside (f_mem f) (u_Uint64 ro_) (u_Uint64 rs) → Z.of_nat (length st) < StackLimit →
  wp (finish_opCall ro_ rs res gas' err) (executed z0 sw0 g P) (MkFrame z' (f_pc f) st (f_mem f) (f_contract f)).
Proof.
  intros Hpaid Hpot Hc Hros Hlt H64 [Hh _ _] Hst. pose proof (pd_ok _ _ _ _ _ _ Hpaid) as Hok. pose proof (fo_mem _ _ Hok) as Hm.
  pose proof (co_gas _ (fo_contract _ _ Hok)) as Hcg. assert (Hb : bytes_ok res) by (destruct Hc as (? & ? & ? & ? & ? & ? & ? & _); done).
  assert (Hk : ∀ v m, mem_ok m → continues z0 sw0 g P (MkFrame (with_returnData res z') (f_pc f) (v :: st) m (set_Gas (u64 (c_Gas (f_contract f) + gas')) (f_contract f)))).
  { intros v m Hm'. eapply resumed; try done; [lia | cbn [length]; lia]. }
  unfold finish_opCall. apply wp_bind. eapply wp_eq; [done |]. apply wp_bind. case_if.
  - destruct (@mem_Set_ok Empty_set _ _ _ res Hm Hh Hb) as (m' & Em & Hm' & _). unfold Set_, wp, bind, gets, lift. cbn. rewrite Em. cbn. by apply Hk.
  - eapply wp_eq; [done |]. by apply Hk.
Qed.

(** ** The call instructions *)

Section Exec.
  Context (n : Z) (run : runner (SDB := SDB)) (Hrun : run_ok n run) (Hpre : precompiles_ok env).
  Context (hpool : length (sizebuf (enc_pool env)) = 9%nat).

(** A frame that has paid for a call of [gasC] *)
Record paid_call (extra : list Int → Z) (z0 : zvm) (sw0 : saved_world) (g P : Z) (f : frame) (sw : saved_world) : Prop := MkPaidCall {
  pc_paid : paid z0 sw0 g P f sw;
  pc_bound : P < 2 ^ 64;
  pc_width : g < 2 ^ 64;
  pc_fuel : g <= n + 1;
  pc_potential : potential (sw_now sw) g <= P;
  pc_access : ∀ a, f_stack f !! 1%nat = Some a → is_Some (w_access (sw_now sw) !! u_Bytes20 a);
  pc_temp : 0 <= callGasTemp (f_zvm f);
  pc_cost : c_Gas (f_contract f) + callGasTemp (f_zvm f) + extra (f_stack f) < g
}.

Lemma args_ok (m : Memory) off l : mem_ok m → inside m off l → ∃ d, mem_GetPtr (E := Empty_set) (int64 off) (int64 l) m = Ok d ∧ bytes_ok d ∧ len d < 2 ^ 63.
Proof.
  intros Hm [_ Hh Hl]. destruct (@mem_GetPtr_ok Empty_set m _ _ Hm Hh) as (d & Ed & Hb & Hlen). exists d. split_and!; [done | done |].
  rewrite Hlen. unfold int64. decide_if. lia.
Qed.

Lemma Bytes20_ok x : address_ok (u_Bytes20 x).
Proof. split; [apply Bytes20_length |]. rewrite Bytes20_spec. apply be_bytes_ok. Qed.

Lemma opCall_ok z0 sw0 g P f sw :
  paid_call value_gas z0 sw0 g P f sw → (7 <= length (f_stack f))%nat → Z.of_nat (length (f_stack f)) <= 1030 →
  (∃ v, memoryCall (f_stack f) = Ok (v, false) ∧ 0 <= v <= len (store (f_mem f))) →
  wp (opCall env run) (executed z0 sw0 g P) f.
Proof.
  intros [Hpaid HP Hw Hn Hpot Hacc Ht Hc] Hlo Hhi (v & Ev & Hv). pose proof (pd_ok _ _ _ _ _ _ Hpaid) as Hok. pose proof (co_gas _ (fo_contract _ _ Hok)) as Hg.
  destruct f as [z pc stk m c]. cbn in *. destruct stk as [| x0 [| a [| val [| io [| is_ [| ro [| rs st]]]]]]]; try (cbn in Hlo; lia).
  destruct (mem_max_inside _ _ _ _ _ ro rs io is_ v m Ev ltac:(lia) (fo_mem _ _ Hok)) as [Hret Hin]; try done.
  destruct (args_ok m _ _ (fo_mem _ _ Hok) Hin) as (args & Eargs & Hab & Hal). specialize (Hacc a eq_refl). unfold value_gas in Hc. cbn in Hc.
  unfold opCall. do 8 (apply wp_bind; eapply wp_eq; [done |]; cbn [f_zvm]). apply wp_bind. unfold GetPtr. apply wp_bind. eapply wp_eq; [done |].
  unfold wp at 1, lift. cbn [f_mem]. rewrite Eargs. cbn [mbind outcome_bind].
  destruct (readOnly z && negb (u_IsZero val)) eqn:Ero.
  { eapply quiet_executed; [exact Hpaid | done |]. refine (quiet_stack _ sw st [] (Some ErrWriteProtection) Hok _ bytes_ok_nil ltac:(done)). cbn in Hhi |- *. lia. }
  set (gv := if u_IsZero val then _ else _). assert (Hgv : ∃ gasC value, gv = (gasC, value) ∧ 0 <= gasC ∧ c_Gas c + gasC < g ∧ 0 <= value ∧ (readOnly z = true → value = 0)).
  { unfold gv. destruct (u_IsZero val); eexists _, _; (split; [done |]); [split_and!; (done || lia) |]. unfold u64. rewrite Z.mod_small by lia.
    rewrite andb_true_r in Ero. split_and!; [lia | lia | apply ToBig_range |]. by rewrite Ero. }
  clearbody gv. destruct Hgv as (gasC & value & -> & Hgc & Hlt & Hv0 & Hval).
  destruct (Call_ok env n run Hrun Hpre (CallerContract c) (u_Bytes20 a) args gasC value z sw) as (res & gas' & err & z' & E & Hcalled); try done; try lia.
  - apply Hok.
  - apply Hok.
  - apply Hok.
  - apply Bytes20_ok.
  - unfold potential in *. lia.
  - eapply wp_from_contract; [exact E |]. cbv iota beta.
    refine (finish_opCall_ok _ _ _ _ _ _ _ _ _ _ _ _ _ _ _ Hpaid Hpot Hcalled _ Hlt Hw Hret _); [| cbn in Hhi |- *; lia].
    intros Hr. by rewrite <- (pd_readOnly _ _ _ _ _ _ Hpaid) in Hr.
Qed.

(** DELEGATECALL and STATICCALL differ in the call they make. *)
Lemma call_op_ok (k : bytes → bytes → Z → ContractRef → zvm → outcome Empty_set (bytes * Z * option vm_error * zvm)) ro z0 sw0 g P f sw :
  (∀ a args gasC c z, is_Some (w_access (sw_now sw) !! u_Bytes20 a) → is_Some (w_access (sw_now sw) !! c_self c) → models (z_state z) sw → zvm_ok z → contract_ok c →
     bytes_ok args → len args < 2 ^ 63 → 0 <= gasC <= n → gasC < 2 ^ 64 → potential (sw_now sw) gasC < 2 ^ 64 → world_ok (sw_now sw) →
     ∃ res gas' err z', k (u_Bytes20 a) args gasC (CallerContract c) z = Ok (res, gas', err, z') ∧ called (ro || readOnly z) z sw gasC res gas' err z') →
  paid_call (fun _ => 0) z0 sw0 g P f sw → (6 <= length (f_stack f))%nat → Z.of_nat (length (f_stack f)) <= 1029 →
  (∃ v, mem_max 4 5 2 3 (f_stack f) = Ok (v, false) ∧ 0 <= v <= len (store (f_mem f))) →
  wp (bind pop (fun _ => bind (gets f_zvm) (fun z => let gas := callGasTemp z in
        bind pop (fun addr => bind pop (fun inOffset => bind pop (fun inSize => bind pop (fun retOffset => bind pop (fun retSize =>
          bind (GetPtr (int64 (u_Uint64 inOffset)) (int64 (u_Uint64 inSize))) (fun args =>
            bind (from_contract (k (u_Bytes20 addr) args gas)) (fun '(res, returnGas, err) => finish_opCall retOffset retSize res returnGas err))))))))))
    (executed z0 sw0 g P) f.
Proof.
  intros Hk [Hpaid HP Hw Hn Hpot Hacc Ht Hc] Hlo Hhi (v & Ev & Hv). pose proof (pd_ok _ _ _ _ _ _ Hpaid) as Hok. pose proof (co_gas _ (fo_contract _ _ Hok)) as Hg.
  destruct f as [z pc stk m c]. cbn in *. destruct stk as [| x0 [| a [| io [| is_ [| r_ [| rs st]]]]]]; try (cbn in Hlo; lia).
  destruct (mem_max_inside _ _ _ _ _ r_ rs io is_ v m Ev ltac:(lia) (fo_mem _ _ Hok)) as [Hret Hin]; try done.
  destruct (args_ok m _ _ (fo_mem _ _ Hok) Hin) as (args & Eargs & Hab & Hal). specialize (Hacc a eq_refl).
  do 7 (apply wp_bind; eapply wp_eq; [done |]; cbn [f_zvm]). apply wp_bind. unfold GetPtr. apply wp_bind. eapply wp_eq; [done |].
  unfold wp at 1, lift. cbn [f_mem]. rewrite Eargs. cbn [mbind outcome_bind].
  destruct (Hk a args (callGasTemp z) c z Hacc (fo_access _ _ Hok) (fo_models _ _ Hok) (fo_zvm _ _ Hok) (fo_contract _ _ Hok) Hab Hal) as (res & gas' & err & z' & E & Hcalled);
    [lia | lia | unfold potential in *; lia | apply Hok |].
  eapply wp_from_contract; [exact E |]. cbv iota beta.
  refine (finish_opCall_ok _ _ _ _ _ _ _ _ _ _ _ _ _ _ _ Hpaid Hpot Hcalled _ ltac:(cbn; lia) Hw Hret _); [| cbn in Hhi |- *; lia].
  intros Hr. rewrite <- (pd_readOnly _ _ _ _ _ _ Hpaid) in Hr. cbn in Hr. rewrite Hr. apply orb_true_r.
Qed.

Lemma opDelegateCall_ok z0 sw0 g P f sw :
  paid_call (fun _ => 0) z0 sw0 g P f sw → (6 <= length (f_stack f))%nat → Z.of_nat (length (f_stack f)) <= 1029 →
  (∃ v, memoryDelegateCall (f_stack f) = Ok (v, false) ∧ 0 <= v <= len (store (f_mem f))) →
  wp (opDelegateCall env run) (executed z0 sw0 g P) f.
Proof.
  apply (call_op_ok (fun a args gas self z => DelegateCall env run self a args gas z) false). intros. apply (DelegateCall_ok env n run Hrun Hpre); try done. by apply co_self.
Qed.

Lemma opStaticCall_ok z0 sw0 g P f sw :
  paid_call (fun _ => 0) z0 sw0 g P f sw → (6 <= length (f_stack f))%nat → Z.of_nat (length (f_stack f)) <= 1029 →
  (∃ v, memoryStaticCall (f_stack f) = Ok (v, false) ∧ 0 <= v <= len (store (f_mem f))) →
  wp (opStaticCall env run) (executed z0 sw0 g P) f.
Proof.
  apply (call_op_ok (fun a args gas self z => StaticCall env run self a args gas z) true). intros. apply (StaticCall_ok env n run Hrun Hpre); try done. apply Bytes20_ok.
Qed.

(** ** The creation instructions *)

Record paid_create (z0 : zvm) (sw0 : saved_world) (g P : Z) (f : frame) (sw : saved_world) : Prop := MkPaidCreate {
  pn_paid : paid z0 sw0 g P f sw;
  pn_bound : P < 2 ^ 64;
  pn_width : g < 2 ^ 64;
  pn_fuel : g <= n + 1;
  pn_potential : potential (sw_now sw) g <= P;
  pn_code : ∀ size, f_stack f !! 2%nat = Some size → u_Uint64 size <= MaxInitCodeSize;
  pn_cost : c_Gas (f_contract f) < g
}.

Lemma finish_opCreate_ok z0 sw0 g P f sw R gasC res addr gas' err z' cg st :
  paid z0 sw0 g P f sw → potential (sw_now sw) g <= P → left_over R false (f_zvm f) sw gasC res gas' z' → readOnly (f_zvm f) = false →
  0 <= cg → cg + gasC < g → g < 2 ^ 64 → Z.of_nat (length st) < StackLimit →
  wp (finish_opCreate res addr gas' err) (executed z0 sw0 g P) (MkFrame z' (f_pc f) st (f_mem f) (set_Gas cg (f_contract f))).
Proof.
  intros Hpaid Hpot Hc Hro Hcg Hlt H64 Hst. assert (Hb : bytes_ok res) by (destruct Hc as (? & ? & ? & ? & ? & ? & ? & _); done).
  assert (Hk : ∀ v rd, bytes_ok rd → continues z0 sw0 g P (MkFrame (with_returnData rd z') (f_pc f) (v :: st) (f_mem f) (set_Gas (u64 (cg + gas')) (f_contract f)))).
  { intros v rd Hrd. eapply resumed; try done; [| apply Hpaid | cbn [length]; lia]. intros Hr. rewrite <- (pd_readOnly _ _ _ _ _ _ Hpaid) in Hr. congruence. }
  unfold finish_opCreate. do 2 (apply wp_bind; eapply wp_eq; [done |]). case_if; apply wp_bind; (eapply wp_eq; [done |]); apply Hk; (done || apply bytes_ok_nil).
Qed.

(** What follows the pops *)
Lemma create_tail_ok (k : bytes → Z → ContractRef → zvm → outcome Empty_set (bytes * bytes * Z * option vm_error * zvm)) z0 sw0 g P f sw st off size :
  (∀ code gasC c z, address_ok (c_self c) → models (z_state z) sw → world_ok (sw_now sw) → zvm_ok z → readOnly z = false → bytes_ok code → len code <= MaxInitCodeSize →
     0 <= gasC <= n → gasC < 2 ^ 64 → potential (sw_now sw) gasC < 2 ^ 64 →
     ∃ res a gas' err z', k code gasC (CallerContract c) z = Ok (res, a, gas', err, z') ∧ created (c_self c) z sw gasC res a gas' err z') →
  paid_create z0 sw0 g P f sw → readOnly (f_zvm f) = false → inside (f_mem f) (u_Uint64 off) (u_Uint64 size) → u_Uint64 size <= MaxInitCodeSize →
  Z.of_nat (length st) < StackLimit →
  wp (bind (GetCopy (int64 (u_Uint64 off)) (int64 (u_Uint64 size))) (fun input => bind (gets f_contract) (fun c =>
        let gas := c_Gas c - c_Gas c / 64 in
        bind (use_gas gas) (fun _ => bind (from_contract (k input gas)) (fun '(res, addr, returnGas, suberr) => finish_opCreate res addr returnGas suberr)))))
    (executed z0 sw0 g P) (MkFrame (f_zvm f) (f_pc f) st (f_mem f) (f_contract f)).
Proof.
  intros Hk [Hpaid HP Hw Hn Hpot _ Hc] Hro [_ Hh Hl] Hsz Hst. pose proof (pd_ok _ _ _ _ _ _ Hpaid) as Hok. pose proof (co_gas _ (fo_contract _ _ Hok)) as Hg.
  destruct (@mem_GetCopy_ok Empty_set _ _ _ (fo_mem _ _ Hok) Hh) as (code & Ecode & Hb & Hlen).
  assert (Hcl : len code <= MaxInitCodeSize) by (rewrite Hlen; unfold int64; decide_if; lia).
  unfold GetCopy. do 2 apply wp_bind. eapply wp_eq; [done |]. unfold wp at 1, lift. cbn [f_mem]. rewrite Ecode. cbn [mbind outcome_bind].
  apply wp_bind. eapply wp_eq; [done |]. cbv zeta. cbn [f_contract]. set (cg := c_Gas (f_contract f)) in *.
  assert (Hd : 0 <= cg / 64 <= cg) by (pose proof (Z.div_mod cg 64 ltac:(lia)); pose proof (Z.mod_pos_bound cg 64 ltac:(lia)); pose proof (Z.div_pos cg 64 ltac:(lia) ltac:(lia)); lia).
  apply wp_bind. unfold wp at 1. rewrite use_gas_eq. cbn [f_contract]. fold cg. decide_if.
  destruct (Hk code (cg - cg / 64) (set_Gas (cg - (cg - cg / 64)) (f_contract f)) (f_zvm f)) as (res & a & gas' & err & z' & E & Hcr); try done; try lia; try (by apply (fo_contract _ _ Hok)); try (by apply Hok).
  - unfold potential in *. lia.
  - eapply wp_from_contract; [exact E |]. cbv iota beta. refine (finish_opCreate_ok _ _ _ _ _ _ _ _ _ _ _ _ _ _ _ Hpaid Hpot Hcr Hro _ _ Hw Hst); lia.
Qed.

Lemma opCreate_ok z0 sw0 g P f sw :
  paid_create z0 sw0 g P f sw → (3 <= length (f_stack f))%nat → Z.of_nat (length (f_stack f)) <= 1026 →
  (∃ v, memoryCreate (f_stack f) = Ok (v, false) ∧ 0 <= v <= len (store (f_mem f))) → wp (opCreate env run) (executed z0 sw0 g P) f.
Proof.
  intros Hp Hlo Hhi (v & Ev & Hv). pose proof (pn_paid _ _ _ _ _ _ Hp) as Hpaid. pose proof (pd_ok _ _ _ _ _ _ Hpaid) as Hok.
  unfold opCreate, write_protected. apply wp_bind. unfold wp at 1, gets. destruct (readOnly (f_zvm f)) eqn:Ero.
  { eapply quiet_executed; [exact Hpaid | done |]. apply frame_quiet_refl; [done | constructor | done]. }
  destruct f as [z pc stk m c]. cbn in *. destruct stk as [| x0 [| off [| size st]]]; try (cbn in Hlo; lia).
  apply (mem_at_inv _ _ _ off size) in Ev; [| done | done]. destruct (calc_inside _ _ _ m Ev ltac:(lia) (fo_mem _ _ Hok)) as [Hin _].
  pose proof (pn_code _ _ _ _ _ _ Hp size eq_refl) as Hsz. do 3 (apply wp_bind; eapply wp_eq; [done |]).
  eapply (create_tail_ok (fun input gas self z => Create env run self input gas _ z) _ _ _ _ (MkFrame z pc (x0 :: off :: size :: st) m c)); [| exact Hp | done | done | done | cbn in Hhi |- *; lia].
  intros. apply (Create_ok env n run Hrun); try done. case_if; [lia | apply ToBig_range].
Qed.

Lemma opCreate2_ok z0 sw0 g P f sw :
  paid_create z0 sw0 g P f sw → (4 <= length (f_stack f))%nat → Z.of_nat (length (f_stack f)) <= 1027 →
  (∃ v, memoryCreate2 (f_stack f) = Ok (v, false) ∧ 0 <= v <= len (store (f_mem f))) → wp (opCreate2 run) (executed z0 sw0 g P) f.
Proof.
  intros Hp Hlo Hhi (v & Ev & Hv). pose proof (pn_paid _ _ _ _ _ _ Hp) as Hpaid. pose proof (pd_ok _ _ _ _ _ _ Hpaid) as Hok.
  unfold opCreate2, write_protected. apply wp_bind. unfold wp at 1, gets. destruct (readOnly (f_zvm f)) eqn:Ero.
  { eapply quiet_executed; [exact Hpaid | done |]. apply frame_quiet_refl; [done | constructor | done]. }
  destruct f as [z pc stk m c]. cbn in *. destruct stk as [| x0 [| off [| size [| salt st]]]]; try (cbn in Hlo; lia).
  apply (mem_at_inv _ _ _ off size) in Ev; [| done | done]. destruct (calc_inside _ _ _ m Ev ltac:(lia) (fo_mem _ _ Hok)) as [Hin _].
  pose proof (pn_code _ _ _ _ _ _ Hp size eq_refl) as Hsz. do 4 (apply wp_bind; eapply wp_eq; [done |]).
  eapply (create_tail_ok (fun input gas self z => Create2 run self input gas _ salt z) _ _ _ _ (MkFrame z pc (x0 :: off :: size :: salt :: st) m c)); [| exact Hp | done | done | done | cbn in Hhi |- *; lia].
  intros. apply (Create2_ok n run Hrun); try done. case_if; [lia | apply ToBig_range].
Qed.
End Exec.
End CallOps.
