(* ===== verification/VmSafety.v ===== *)
(** * The interpreter ends: safety, termination and gas *)

From S2P Require Import Prelude RlpRaw RlpEncode TrieNode TrieOps StateAccess State StateWorld StateSupply StateSpec Uint256 VmAnalysis VmCore VmGas VmInstr VmInterp VmLaws VmInv VmMemory VmSafeOps VmSafeMem VmSafeStore VmSafeCalls VmSafeCallOps.

#[local] Arguments mem_Set : simpl never.
#[local] Arguments mem_GetPtr : simpl never.
#[local] Arguments mem_GetCopy : simpl never.
#[local] Arguments toWordSize : simpl never.

Section Safety.
  Context `{UI : Uint256} `{UL : !Uint256Laws} `{HF : Hasher} `{HL : !HasherLaws} `{CS : Codes}
    {SDB : Type} `{DB : VmStateDB SDB} `{SL : !VmStateLaws SDB} (env : vm_env).
  Context (Happ : codes_apart).
  Abbreviation frame := (frame (SDB := SDB)).
  Abbreviation zvm := (ZVM SDB).
  Context (Hpre : precompiles_ok env) (Hblock : blockhash_ok env) (hpool : length (sizebuf (enc_pool env)) = 9%nat).

(** ** The rest of the table *)

Lemma op_spec_upto G o : op_spec o → op_upto (SDB := SDB) G o.
Proof. intros Ho f sw P Hok _. by apply Ho. Qed.

Section Calls.
  Context (n : Z) (run : runner (SDB := SDB)) (Hrun : run_ok n run).

Ltac upto := apply op_spec_upto.

Lemma calling_ok extra mn (o : operation (SDB := SDB)) dg :
  dynamicGas o = Some dg → constantGas o = 100 → sized o → op_minStack o = Z.of_nat mn →
  (∀ ms f sw, frame_ok f sw → (mn <= length (f_stack f))%nat → 0 <= ms < 2 ^ 64 → ms mod 32 = 0 → wp (dg ms) (charged (call_ready extra) ms f sw) f) →
  (∀ z0 sw0 g P f sw, paid_call n extra z0 sw0 g P f sw → (mn <= length (f_stack f))%nat → Z.of_nat (length (f_stack f)) <= op_maxStack o → needs o f →
     wp (execute o) (executed z0 sw0 g P) f) →
  op_upto (n + 1) o.
Proof.
  intros Hd Hc Hs Hmn Hdg Hx. eapply (perform_general _ _ _ (call_ready extra)); [done | lia | done | |].
  - intros f sw ms P Hok Hst Hms Hmod _ _. apply Hdg; (done || lia).
  - intros z0 sw0 g P f sw cost Hpaid HP Hg H64 Hcost (Ha & Ht & Hle) HG Hpot _ Hst Hn. apply (Hx _ _ _ _ _ sw); [| lia | lia | done].
    constructor; (done || lia).
Qed.

Lemma creating_ok mn (o : operation (SDB := SDB)) dg :
  dynamicGas o = Some dg → constantGas o = 32000 → sized o → op_minStack o = Z.of_nat mn →
  (∀ ms f sw, frame_ok f sw → (mn <= length (f_stack f))%nat → 0 <= ms < 2 ^ 64 → ms mod 32 = 0 → wp (dg ms) (charged small_code ms f sw) f) →
  (∀ z0 sw0 g P f sw, paid_create n z0 sw0 g P f sw → (mn <= length (f_stack f))%nat → Z.of_nat (length (f_stack f)) <= op_maxStack o → needs o f →
     wp (execute o) (executed z0 sw0 g P) f) →
  op_upto (n + 1) o.
Proof.
  intros Hd Hc Hs Hmn Hdg Hx. eapply (perform_general _ _ _ small_code); [done | lia | done | |].
  - intros f sw ms P Hok Hst Hms Hmod _ _. apply Hdg; (done || lia).
  - intros z0 sw0 g P f sw cost Hpaid HP Hg H64 Hcost HX HG Hpot _ Hst Hn. apply (Hx _ _ _ _ _ sw); [| lia | lia | done].
    constructor; (done || lia).
Qed.

Lemma ending_ok dg (o : operation (SDB := SDB)) :
  dynamicGas o = Some dg → constantGas o = 0 → sized o → op_minStack o = 2 →
  (∀ ms f sw, frame_ok f sw → 0 <= ms < 2 ^ 64 → ms mod 32 = 0 → wp (dg ms) (charged (fun _ _ _ c => 0 <= c) ms f sw) f) →
  (∀ f sw, frame_ok f sw → (2 <= length (f_stack f))%nat → needs o f → wp (execute o) (fun r f' => quiet f sw r f' ∧ snd r ≠ None) f) →
  op_spec o.
Proof.
  intros Hd Hc Hs Hmn Hdg Hx. eapply (perform_dynamic _ _ 0); [done | lia | done | |].
  - intros f sw ms P Hok Hst Hms Hmod _ _. by apply Hdg.
  - intros f sw Hok _ Hst Hn. eapply wp_mono; [| apply (Hx f sw Hok); (done || lia)]. intros r f' [Hq Hr]. by split.
Qed.

Lemma ops_calls_ok : Forall (fun e => op_upto (n + 1) e.2) (ops_calls env run).
Proof.
  unfold ops_calls.
  entry. { apply (creating_ok 3 _ gasCreateEip3860); try done; [sized_op | |]; intros. { by apply gasCreate_charged. } by eapply opCreate_ok. }
  entry. { apply (calling_ok value_gas 7 _ gasCallEIP2929); try done.
    - intros st Hst. cbn in Hst. unfold minStack in Hst. apply mem_max_sized; lia.
    - intros. apply (variant_charged _ _ 6); try done; [apply value_gas_pos | lia | intros; by apply gasCall_ok].
    - intros. by eapply opCall_ok. }
  entry. { upto. apply (ending_ok pureMemoryGascost); try done; [sized_op | |]; intros. { by apply pure_charged. } by apply opReturn_quiet. }
  entry. { apply (calling_ok (fun _ => 0) 6 _ gasDelegateCallEIP2929); try done.
    - intros st Hst. cbn in Hst. unfold minStack in Hst. apply mem_max_sized; lia.
    - intros. apply (variant_charged _ _ 5); try done; [lia | intros; by apply gasDelegateCall_ok].
    - intros. by eapply opDelegateCall_ok. }
  entry. { upto. apply (ending_ok pureMemoryGascost); try done; [sized_op | |]; intros. { by apply pure_charged. } by apply opRevert_quiet. }
  entry. { upto. dynamic_op 0 copier_charged opReturnDataCopy_quiet. sized_op. }
  entry. { upto. plain_op gets_push. }
  entry. { apply (calling_ok (fun _ => 0) 6 _ gasStaticCallEIP2929); try done.
    - intros st Hst. cbn in Hst. unfold minStack in Hst. apply mem_max_sized; lia.
    - intros. apply (variant_charged _ _ 5); try done; [lia | intros; by apply gasDelegateCall_ok].
    - intros. by eapply opStaticCall_ok. }
  do 3 (entry; [upto; plain_op binary_quiet |]).
  entry. { upto. dynamic_op 0 accountCheck_charged opExtCodeHash_quiet. done. }
  entry. { apply (creating_ok 4 _ gasCreate2Eip3860); try done; [sized_op | |]; intros. { apply gasCreate2_charged; (done || lia). } by eapply opCreate2_ok. }
  entry. { upto. plain_op push_quiet. }
  entry. { upto. plain_op opSelfBalance_quiet. }
  repeat (entry; [upto; plain_op push_quiet |]). constructor.
Qed.

(** ** The table *)

Definition table_halts (f : frame) (sw : saved_world) (o : operation (SDB := SDB)) : Prop :=
  dynamicGas o = None ∧ constantGas o = 0 ∧ wp (execute o) (fun r f' => quiet f sw r f' ∧ snd r ≠ None) f.

Lemma table_ok op f sw P :
  frame_ok f sw → c_Gas (f_contract f) <= n + 1 → potential (sw_now sw) (c_Gas (f_contract f)) <= P → P < 2 ^ 64 →
  (op ≠ STOP → f_pc f < len (c_Code (f_contract f))) → let o := table env run op in
  op_minStack o <= Z.of_nat (length (f_stack f)) <= op_maxStack o →
  wp (perform o) (iterated (f_zvm f) sw (c_Gas (f_contract f)) P) f.
Proof.
  intros Hok Hg Hpot HP Hpc o Hst.
  assert (Hrest : Forall (fun e => op_upto (n + 1) e.2) (tail (newShanghaiInstructionSet env run))).
  { unfold newShanghaiInstructionSet. change (tail (?a ++ ?b)) with (tail a ++ b). rewrite !Forall_app.
    split_and!; try apply ops_calls_ok;
      (eapply Forall_impl; [(apply ops_arithmetic_ok || apply ops_comparison_ok || by apply ops_environment_ok || by apply ops_flow_ok || apply ops_push_ok || apply ops_dup_ok || apply ops_swap_ok || apply ops_log_ok) |];
       intros e He; by apply op_spec_upto). }
  destruct (decide (op = STOP)) as [-> | Hne].
  - apply perform_halt; try done. by apply opStop_quiet.
  - assert (Hcase : o = MkOp opUndefined 0 None 0 (maxStack 0 0) None ∨ op_upto (n + 1) o).
    { subst o. unfold table. destruct (find _ _) as [[x o] |] eqn:Ef; [right | by left].
      apply find_some in Ef as [Hin Hx]. cbn in Hx. zb. subst x. change (newShanghaiInstructionSet env run) with ((STOP, MkOp opStop 0 None (minStack 0 0) (maxStack 0 0) None) :: tail (newShanghaiInstructionSet env run)) in Hin.
      destruct Hin as [[= <- _] | Hin]; [done |]. rewrite Forall_forall in Hrest. by specialize (Hrest (op, o) (proj2 (list_elem_of_In _ _) Hin)). }
    destruct Hcase as [-> | Ho]; [| apply Ho; auto]. apply perform_halt; try done. apply opUndefined_quiet; auto.
Qed.

Lemma iteration_ok f sw P :
  frame_ok f sw → c_Gas (f_contract f) <= n + 1 → potential (sw_now sw) (c_Gas (f_contract f)) <= P → P < 2 ^ 64 →
  wp (iteration env run) (iterated (f_zvm f) sw (c_Gas (f_contract f)) P) f.
Proof.
  intros Hok Hg Hpot HP. unfold iteration. do 3 (apply wp_bind; eapply wp_eq; [done |]).
  assert (Hop : ∃ op, GetOp (f_contract f) (f_pc f) = Ok op ∧ (op ≠ STOP → f_pc f < len (c_Code (f_contract f)))).
  { pose proof (fo_pc _ _ Hok). unfold GetOp. case_if; zb; [| by exists STOP]. destruct (lookup_lt_is_Some_2 (c_Code (f_contract f)) (Z.to_nat (f_pc f))) as [x Hx]; [lia |].
    exists x. split; [| done]. unfold at_. decide_if. by rewrite Hx. }
  destruct Hop as (op & Eop & Hpc). apply wp_bind. unfold wp at 1, lift. rewrite Eop. cbn [mbind outcome_bind].
  cbv zeta. case_if; [by apply stop_ends |]. case_if; [by apply stop_ends |]. zb. apply table_ok; try done.
Qed.
End Calls.

(** ** The loop *)

Lemma continues_ends z0 sw0 g P f f' res err :
  continues z0 sw0 g P f → (∀ sw, frame_ok f sw → potential (sw_now sw) (c_Gas (f_contract f)) <= P →
     ends_frame (f_zvm f) sw (c_Gas (f_contract f)) P res err f') → ends_frame z0 sw0 g P res err f'.
Proof.
  intros (sw & Hok & Hg & Hro & Hd & Hgas & Hev & Hp) Hends. destruct (Hends sw Hok Hp) as (sw' & Hs & Hg' & Hro' & Hd' & Hz & Hb & Hne & Hgas' & Hok').
  exists sw'. split_and!; [done | by eapply grows_trans | congruence | congruence | done | done | done | lia | lia |].
  intros He. destruct (Hok' He) as (Hw & Hev' & Hp'). split_and!; [done | | done]. eapply evolves_trans; [done |]. by rewrite <- Hro.
Qed.

(** A loop that ends on less gas than [fuel] *)
Definition ends_below (fuel : Z) (main : M (SDB := SDB) (bytes * option vm_error)) : Prop :=
  ∀ f sw P, frame_ok f sw → c_Gas (f_contract f) < fuel → potential (sw_now sw) (c_Gas (f_contract f)) <= P → P < 2 ^ 64 →
    wp main (fun r f' => ends_frame (f_zvm f) sw (c_Gas (f_contract f)) P (fst r) (snd r) f') f.

Lemma start_ok ro c input (z : zvm) sw :
  models (z_state z) sw → world_ok (sw_now sw) → is_Some (w_access (sw_now sw) !! c_self c) → zvm_ok z → contract_ok (set_Input input c) → at_hand c = true →
  frame_ok (MkFrame (MkZVM (z_state z) (depth z + 1) (callGasTemp z) ro [] (jumpdests z)) 0 [] NewMemory (set_Input input c)) sw.
Proof. intros Hs Hw Ha Hz Hc Hk. constructor; try done; [by destruct Hz; constructor |]. split; [constructor |]. by exists 0. Qed.

Lemma refused_ok ro c (z : zvm) sw P :
  models (z_state z) sw → zvm_ok z → 0 <= c_Gas c →
  ∃ res err c' z', @Ok Empty_set _ ([], Some ErrInvalidCode, c, z) = Ok (res, err, c', z') ∧ ends (ro || readOnly z) z sw (c_Gas c) P res err z' (c_Gas c').
Proof. intros Hs Hz Hg. eexists _, _, _, _. split; [done |]. exists sw. split_and!; try done. apply grows_refl. Qed.

Lemma run_with_ok fuel main : ends_below fuel main → run_ok (fuel - 1) (only (run_with main)).
Proof.
  intros Hmain c input ro z sw P Hs Hw Hacc Hz Hc Hgas Hpot HP. unfold only. destruct (at_hand c) eqn:Hk; [| apply refused_ok; (done || lia)]. unfold run_with. cbv zeta.
  set (z1 := with_returnData [] _). assert (Ez1 : z1 = MkZVM (z_state z) (depth z + 1) (callGasTemp z) (ro || readOnly z) [] (jumpdests z)).
  { unfold z1. destruct z as [? ? ? [] ? ?], ro; done. }
  assert (Hback : ∀ z' : zvm, readOnly z' = (ro || readOnly z) → depth z' = depth z + 1 →
    let z2 := if ro && negb (readOnly (with_depth (depth z + 1) z)) then with_readOnly false z' else z' in
    z_state (with_depth (depth z2 - 1) z2) = z_state z' ∧ readOnly (with_depth (depth z2 - 1) z2) = readOnly z ∧ depth (with_depth (depth z2 - 1) z2) = depth z ∧
    (zvm_ok z' → zvm_ok (with_depth (depth z2 - 1) z2))).
  { intros z' Hr Hd. cbn in Hr |- *. destruct ro, (readOnly z); cbn in *; split_and!; (done || lia || (intros []; by constructor)). }
  destruct (len (c_Code c) =? 0) eqn:Elen; zb.
  - cbn [mbind outcome_bind]. eexists _, _, _, _. split; [done |]. destruct (Hback z1) as (Es & Er & Ed & Hzv); [by rewrite Ez1 | by rewrite Ez1 |]. cbv zeta in *.
    exists sw. rewrite Es, Er, Ed. split_and!; [by rewrite Ez1 | apply grows_refl | done | done | apply Hzv; rewrite Ez1; by destruct Hz; constructor | constructor | done | lia | lia |].
    intros _. split_and!; [done | apply evolves_refl | done].
  - assert (Hcon : contract_ok (set_Input input c)) by (apply Hc; intros E; by rewrite E in Elen).
    rewrite Ez1. pose proof (start_ok (ro || readOnly z) c input z sw Hs Hw Hacc Hz Hcon Hk) as Hok.
    destruct (wp_elim _ _ _ (Hmain _ _ P Hok ltac:(cbn; lia) Hpot HP)) as ([res err] & f' & E & sw' & Hs' & Hg' & Hro' & Hd' & Hz' & Hb & Hne & Hgas' & Hrest).
    cbn in Hro', Hd'. rewrite E. cbn [mbind outcome_bind fst snd]. eexists _, _, _, _. split; [done |].
    destruct (Hback (f_zvm f') Hro' Hd') as (Es & Er & Ed & Hzv). cbv zeta in *. exists sw'. rewrite Es, Er, Ed.
    split_and!; [done | done | done | done | by apply Hzv | done | done | cbn in *; lia | cbn in *; lia | done].
Qed.

Lemma loop_ok fuel : ends_below (Z.of_nat fuel) (loop_in env fuel).
Proof.
  induction fuel as [| fuel IH]; intros f sw P Hok Hg Hpot HP.
  { pose proof (co_gas _ (fo_contract _ _ Hok)). lia. }
  cbn [loop_in]. apply wp_bind. eapply wp_mono; [| apply (iteration_ok _ _ (run_with_ok _ _ IH) f sw P Hok ltac:(lia) Hpot HP)].
  intros [[res err] |] f' Hit; [done |]. cbn in Hit. destruct (Hit) as (sw' & Hok' & _ & _ & _ & Hlt & _ & Hp').
  destruct (wp_elim _ _ _ (IH f' sw' P Hok' ltac:(lia) Hp' HP)) as (r & f2 & E & _). eapply wp_eq; [exact E |].
  eapply continues_ends; [exact Hit |]. intros sw2 Hok2 Hp2. destruct (wp_elim _ _ _ (IH f' sw2 P Hok2 ltac:(lia) Hp2 HP)) as (r' & f3 & E' & H).
  rewrite E in E'. by injection E' as <- <-.
Qed.

Lemma Run_ok fuel : run_ok (Z.of_nat fuel - 1) (Run_in env fuel).
Proof. apply run_with_ok, loop_ok. Qed.
End Safety.
