(* ===== verification/VmFuel.v ===== *)
(** * More fuel changes no result *)

From S2P Require Import Prelude RlpRaw RlpEncode TrieNode TrieOps StateAccess State Uint256 VmAnalysis VmCore VmGas VmInstr VmInterp.

Section Fuel.
  Context `{UI : Uint256} `{HF : Hasher} {SDB : Type} `{DB : VmStateDB SDB} (env : vm_env).
  Abbreviation runner := (runner (SDB := SDB)).
  Abbreviation operation := (operation (SDB := SDB)).

(** ** Computations that return more *)

Definition mono {A} (m m' : M (SDB := SDB) A) : Prop := ∀ f r, m f = Ok r → m' f = Ok r.

Definition extends (run run' : runner) : Prop := ∀ c input ro z r, run c input ro z = Ok r → run' c input ro z = Ok r.

Lemma mono_refl {A} (m : M (SDB := SDB) A) : mono m m.
Proof. by intros f r. Qed.

Lemma mono_bind {A B} (m m' : M (SDB := SDB) A) (k k' : A → M (SDB := SDB) B) :
  mono m m' → (∀ a, mono (k a) (k' a)) → mono (bind m k) (bind m' k').
Proof.
  intros Hm Hk f r. unfold bind. destruct (m f) as [[a f'] | | |] eqn:E; try done. rewrite (Hm _ _ E). apply Hk.
Qed.

Lemma mono_from_contract {A} (k k' : ContractRef → ZVM SDB → outcome Empty_set (A * ZVM SDB)) :
  (∀ c z r, k c z = Ok r → k' c z = Ok r) → mono (from_contract k) (from_contract k').
Proof.
  intros Hk. apply mono_bind; [apply mono_refl |]. intros c. apply mono_bind; [apply mono_refl |]. intros z. apply mono_bind.
  - intros f r. unfold lift. destruct (k (CallerContract c) z) as [[a z'] | | |] eqn:E; try done. by rewrite (Hk _ _ _ E).
  - intros [a z']. apply mono_refl.
Qed.

Section Extends.
  Context (run run' : runner) (Hext : extends run run').

Ltac runs :=
  repeat match goal with
  | |- context [if ?b then _ else _] => destruct b
  | |- context [let '(_, _) := ?x in _] => destruct x
  | |- context [AsDelegate ?a ?b] => destruct (AsDelegate a b); cbn [mbind outcome_bind]
  | |- context [match precompile env ?a with _ => _ end] => destruct (precompile env a)
  | |- context [run ?c ?i ?ro ?z] => let E := fresh in destruct (run c i ro z) eqn:E; [apply Hext in E; rewrite E | done..]
  end; try done.

Lemma Call_extends caller addr input gas value z r :
  Call env run caller addr input gas value z = Ok r → Call env run' caller addr input gas value z = Ok r.
Proof. unfold Call. runs. Qed.

Lemma DelegateCall_extends caller addr input gas z r :
  DelegateCall env run caller addr input gas z = Ok r → DelegateCall env run' caller addr input gas z = Ok r.
Proof. unfold DelegateCall. runs. Qed.

Lemma StaticCall_extends caller addr input gas z r :
  StaticCall env run caller addr input gas z = Ok r → StaticCall env run' caller addr input gas z = Ok r.
Proof. unfold StaticCall. runs. Qed.

Lemma create_extends caller code hash gas value address z r :
  create run caller code hash gas value address z = Ok r → create run' caller code hash gas value address z = Ok r.
Proof. unfold create. runs. Qed.

Lemma Create_extends caller code gas value z r :
  Create env run caller code gas value z = Ok r → Create env run' caller code gas value z = Ok r.
Proof.
  unfold Create. destruct (db_GetNonce _ _) as [nonce s]. destruct (CreateAddress _ _ _) as [a | | |]; try done. apply create_extends.
Qed.

(** ** Instructions *)

(** The same instruction up to what it returns *)
Definition op_mono (o o' : operation) : Prop :=
  constantGas o = constantGas o' ∧ dynamicGas o = dynamicGas o' ∧ op_minStack o = op_minStack o' ∧ op_maxStack o = op_maxStack o' ∧
  memorySize o = memorySize o' ∧ mono (execute o) (execute o').

Ltac monos := repeat first [match goal with |- mono ?m ?m => apply mono_refl end | apply mono_from_contract; intros | apply mono_bind; [| intros] | match goal with |- mono (if ?b then _ else _) _ => destruct b end].

Lemma opCreate_mono : mono (opCreate env run) (opCreate env run').
Proof. unfold opCreate, write_protected. monos. by apply Create_extends. Qed.

Lemma opCreate2_mono : mono (opCreate2 run) (opCreate2 run').
Proof. unfold opCreate2, write_protected. monos. by apply create_extends. Qed.

Lemma opCall_mono : mono (opCall env run) (opCall env run').
Proof.
  unfold opCall. do 9 (apply mono_bind; [apply mono_refl | intros]). case_if; [apply mono_refl |]. destruct (if u_IsZero _ then _ else _).
  apply mono_bind; [| intros; apply mono_refl]. apply mono_from_contract. intros. by apply Call_extends.
Qed.

Lemma opDelegateCall_mono : mono (opDelegateCall env run) (opDelegateCall env run').
Proof. unfold opDelegateCall. monos. by apply DelegateCall_extends. Qed.

Lemma opStaticCall_mono : mono (opStaticCall env run) (opStaticCall env run').
Proof. unfold opStaticCall. monos. by apply StaticCall_extends. Qed.

Lemma find_mono (l l' : list (Z * operation)) op :
  Forall2 (fun e e' => e.1 = e'.1 ∧ op_mono e.2 e'.2) l l' →
  option_Forall2 (fun e e' => op_mono e.2 e'.2) (find (fun e => e.1 =? op) l) (find (fun e => e.1 =? op) l').
Proof. induction 1 as [| [x o] [x' o'] l l' [Hx Ho] _ IH]; cbn in *; [constructor |]. subst x'. case_if; [by constructor | done]. Qed.

Lemma op_mono_refl o : op_mono o o.
Proof. split_and!; [done.. | apply mono_refl]. Qed.

Lemma op_mono_exec x x' c d mn mx ms : mono x x' → op_mono (MkOp x c d mn mx ms) (MkOp x' c d mn mx ms).
Proof. intros Hx. by split_and!. Qed.

Lemma same_mono (l : list (Z * operation)) : Forall2 (fun e e' => e.1 = e'.1 ∧ op_mono e.2 e'.2) l l.
Proof. induction l; constructor; [split; [done | apply op_mono_refl] | done]. Qed.

Lemma table_mono op : op_mono (table env run op) (table env run' op).
Proof.
  assert (H : option_Forall2 (fun e e' => op_mono e.2 e'.2) (find (fun e => e.1 =? op) (newShanghaiInstructionSet env run))
                                                          (find (fun e => e.1 =? op) (newShanghaiInstructionSet env run'))).
  { apply find_mono. unfold newShanghaiInstructionSet. repeat (apply Forall2_app; [apply same_mono |]).
    unfold ops_calls.
    repeat first [apply Forall2_nil; done | apply Forall2_cons; split; [split; cbn [fst snd]; [reflexivity | first [match goal with |- op_mono ?o ?o => apply op_mono_refl end | apply op_mono_exec]] |]];
      [apply opCreate_mono | apply opCall_mono | apply opDelegateCall_mono | apply opStaticCall_mono | apply opCreate2_mono]. }
  unfold table. destruct H as [[x o] [x' o'] H |]; [exact H | apply op_mono_refl].
Qed.

Lemma perform_mono o o' : op_mono o o' → mono (perform o) (perform o').
Proof.
  intros (Ec & Ed & _ & _ & Em & Hx). unfold perform, memory_size. rewrite Ec, Ed, Em.
  assert (Hs : mono (execute_step o) (execute_step o')) by (apply mono_bind; [done | intros; apply mono_refl]).
  apply mono_bind; [apply mono_refl |]. intros []; [| apply mono_refl]. cbn [negb]. destruct (dynamicGas o') as [dg |]; [| done].
  apply mono_bind; [apply mono_refl |]. intros [ms |]; [| apply mono_refl]. apply mono_bind; [apply mono_refl |]. intros [cost err].
  apply mono_bind; [apply mono_refl |]. intros []; [| apply mono_refl]. cbn [negb]. apply mono_bind; [apply mono_refl | done].
Qed.

Lemma iteration_mono : mono (iteration env run) (iteration env run').
Proof.
  unfold iteration. do 4 (apply mono_bind; [apply mono_refl | intros]). pose proof (table_mono a2) as Ht. destruct (Ht) as (_ & _ & Emin & Emax & _). rewrite Emin, Emax.
  case_if; [apply mono_refl |]. case_if; [apply mono_refl |]. exact (perform_mono _ _ Ht).
Qed.
End Extends.

(** ** The loop *)

Lemma run_with_extends main main' : mono main main' → extends (run_with main) (run_with main').
Proof.
  intros Hm c input ro z r. unfold run_with. cbv zeta. destruct (len (c_Code c) =? 0); [done |].
  match goal with |- context [main ?f] => destruct (main f) eqn:E end; try done. by rewrite (Hm _ _ E).
Qed.

Lemma loop_mono fuel : mono (loop env fuel) (loop env (S fuel)).
Proof.
  induction fuel as [| fuel IH]; [by intros f r |]. cbn [loop]. apply mono_bind.
  - apply iteration_mono, run_with_extends, IH.
  - intros []; [apply mono_refl | exact IH].
Qed.

Lemma Run_extends fuel fuel' : (fuel <= fuel')%nat → extends (Run env fuel) (Run env fuel').
Proof.
  induction 1 as [| fuel' _ IH]; [by intros c input ro z r |]. intros c input ro z r Hr. apply (run_with_extends _ _ (loop_mono fuel')), IH, Hr.
Qed.
End Fuel.
