(* ===== verification/VmSpec.v ===== *)
(** * What calls and creations promise

    The theorems about the machine as a whole, on any state that keeps the laws of
    VmLaws and so on StateDB: calls and creations end on more fuel than gas, with
    one result whatever the fuel, without a panic of the runtime; a call that fails
    leaves the world it found; a static call changes nothing that can be read; a
    failed creation changes the creator's nonce.  Of the hash function they ask that
    the codes at hand have different hashes, where the codes at hand ([Codes]) are a
    list that has the codes the call runs. *)

From S2P Require Import Prelude RlpRaw RlpEncode TrieNode TrieStore TrieOps TrieHash StateAccess State StateWorld StateSupply StateRevert StateSpec Uint256 VmAnalysis VmCore VmGas VmInstr VmInterp VmLaws VmInv VmMemory VmSafeOps VmSafeMem VmSafeStore VmSafeCalls VmSafeCallOps VmSafety VmFuel.

Section Spec.
  Context `{UI : Uint256} `{UL : !Uint256Laws} `{HF : Hasher} `{HL : !HasherLaws} `{CS : Codes}
    {SDB : Type} `{DB : VmStateDB SDB} `{SL : !VmStateLaws SDB}.
  Abbreviation zvm := (ZVM SDB).

(** What the machine relies on: the precompiled contracts, the function behind
    BLOCKHASH and the encoder's buffer *)
Record env_ok (env : vm_env) : Prop := MkEnvOk {
  eo_precompiles : precompiles_ok env;
  eo_blockhash : blockhash_ok env;
  eo_pool : length (sizebuf (enc_pool env)) = 9%nat
}.

(** A machine that may be given [gas] *)
Record vm_ready (z : zvm) (sw : saved_world) (gas : Z) : Prop := MkReady {
  vr_models : models (z_state z) sw;
  vr_world : world_ok (sw_now sw);
  vr_zvm : zvm_ok z;
  vr_gas : 0 <= gas < 2 ^ 64;
  vr_potential : potential (sw_now sw) gas < 2 ^ 64
}.

(** An address that may be called with [input] *)
Record callee_ok (sw : saved_world) (addr input : bytes) : Prop := MkCallee {
  ce_address : address_ok addr;
  ce_input : bytes_ok input ∧ len input < 2 ^ 63;
  ce_access : is_Some (w_access (sw_now sw) !! addr)
}.

(** The machine after a call or creation *)
Definition vm_kept (z : zvm) (sw : saved_world) (gas gas' : Z) (z' : zvm) : Prop :=
  0 <= gas' <= gas ∧ readOnly z' = readOnly z ∧ depth z' = depth z ∧
  ∃ sw', models (z_state z') sw' ∧ world_ok (sw_now sw') ∧ zvm_ok z' ∧ grows sw sw' ∧ gains 0 (sw_now sw) (sw_now sw').

Section Promises.
  Context (env : vm_env) (Henv : env_ok env) (Happ : codes_apart).

Lemma Run_gas gas : 0 <= gas → run_ok gas (Run_in env (S (Z.to_nat gas))).
Proof.
  intros Hg. destruct Henv as [Hp Hh Hpool]. pose proof (Run_ok env Happ Hp Hh Hpool (S (Z.to_nat gas))) as H. by replace gas with (Z.of_nat (S (Z.to_nat gas)) - 1) at 1 by lia.
Qed.

Lemma Run_more gas fuel : gas < Z.of_nat fuel → 0 <= gas → extends (Run env (S (Z.to_nat gas))) (Run env fuel).
Proof. intros Hf Hg. apply Run_extends. lia. Qed.

(** ** Results, whatever the fuel *)

Lemma Call_all caller addr input gas value z sw :
  vm_ready z sw gas → callee_ok sw addr input → 0 <= value → (readOnly z = true → value = 0) → meets_codes env gas (fun run => Call env run caller addr input gas value z) →
  ∃ res gas' err z', (∀ fuel, gas < Z.of_nat fuel → Call env (Run env fuel) caller addr input gas value z = Ok (res, gas', err, z')) ∧
    called (readOnly z) z sw gas res gas' err z'.
Proof.
  intros [Hs Hw Hz Hg Hp] [Ha [Hi Hl] Hacc] Hv Hro Hm.
  destruct (Call_ok env gas _ (Run_gas gas ltac:(lia)) (eo_precompiles _ Henv) caller addr input gas value z sw) as (res & gas' & err & z' & E & Hc); try done; [lia | lia |].
  exists res, gas', err, z'. split; [| done]. intros fuel Hf. rewrite <- (mc_same _ _ _ Hm) in E. by eapply Call_extends; [apply (Run_more gas); (done || lia) |].
Qed.

Lemma StaticCall_all caller addr input gas z sw :
  vm_ready z sw gas → callee_ok sw addr input → meets_codes env gas (fun run => StaticCall env run caller addr input gas z) →
  ∃ res gas' err z', (∀ fuel, gas < Z.of_nat fuel → StaticCall env (Run env fuel) caller addr input gas z = Ok (res, gas', err, z')) ∧
    called true z sw gas res gas' err z'.
Proof.
  intros [Hs Hw Hz Hg Hp] [Ha [Hi Hl] Hacc] Hm.
  destruct (StaticCall_ok env gas _ (Run_gas gas ltac:(lia)) (eo_precompiles _ Henv) caller addr input gas z sw) as (res & gas' & err & z' & E & Hc); try done; [lia | lia |].
  exists res, gas', err, z'. split; [| done]. intros fuel Hf. rewrite <- (mc_same _ _ _ Hm) in E. by eapply StaticCall_extends; [apply (Run_more gas); (done || lia) |].
Qed.

Lemma Create_all caller code gas value z sw :
  vm_ready z sw gas → address_ok (ref_Address caller) → bytes_ok code → len code <= MaxInitCodeSize → 0 <= value → readOnly z = false → meets_codes env gas (fun run => Create env run caller code gas value z) →
  ∃ res a gas' err z', (∀ fuel, gas < Z.of_nat fuel → Create env (Run env fuel) caller code gas value z = Ok (res, a, gas', err, z')) ∧
    created (ref_Address caller) z sw gas res a gas' err z'.
Proof.
  intros [Hs Hw Hz Hg Hp] Ha Hb Hl Hv Hro Hm.
  destruct (Create_ok env gas _ (Run_gas gas ltac:(lia)) caller code gas value z sw (eo_pool _ Henv) Ha) as (res & a & gas' & err & z' & E & Hc); try done; [lia | lia |].
  exists res, a, gas', err, z'. split; [| done]. intros fuel Hf. rewrite <- (mc_same _ _ _ Hm) in E. by eapply Create_extends; [apply (Run_more gas); (done || lia) |].
Qed.

Lemma left_over_kept R ro z sw gas res gas' z' : left_over R ro z sw gas res gas' z' → vm_kept z sw gas gas' z'.
Proof. intros (sw' & Hs & Hg & Hro & Hd & Hz & _ & Hgas & Hw & Hev & _). pose proof (ev_supply _ _ _ Hev). unfold vm_kept. eauto 12. Qed.
End Promises.

(** ** Theorems *)

(** C3.  A call ends: given more fuel than gas it returns, with one result whatever
    the fuel, never a panic of the runtime and never more gas than it was given; and
    the machine it leaves may be used again: the state is a state of a well-formed
    world, the snapshots taken before are still there, read-only mode and depth are
    as before, and so is the sum of all balances.  Jump analyses are kept by the hash
    of the code: the codes at hand, which have every code that the call runs under its
    hash ([meets_codes]), have different hashes. *)
Theorem Call_returns env caller addr input gas value z sw :
  env_ok env → codes_apart → vm_ready z sw gas → callee_ok sw addr input → 0 <= value → (readOnly z = true → value = 0) →
  meets_codes env gas (fun run => Call env run caller addr input gas value z) →
  ∃ res gas' err z', (∀ fuel, gas < Z.of_nat fuel → Call env (Run env fuel) caller addr input gas value z = Ok (res, gas', err, z')) ∧
    bytes_ok res ∧ vm_kept z sw gas gas' z'.
Proof.
  intros Henv Happ Hr Hc Hv Hro Hm. destruct (Call_all env Henv Happ caller addr input gas value z sw Hr Hc Hv Hro Hm) as (res & gas' & err & z' & E & H).
  exists res, gas', err, z'. split_and!; [done | | by eapply left_over_kept]. by destruct H as (? & ? & ? & ? & ? & ? & ? & _).
Qed.

(** C11.  Money is neither made nor lost: whatever code a call runs, however deep, and
    whether it fails or not, no balance is below zero after it, and the sum of the
    balances, over every set of accounts that holds those that differ, is the sum
    before; the codes at hand, which are those the call runs, have different hashes. *)
Theorem Call_conserves env caller addr input gas value z sw fuel res gas' err z' :
  env_ok env → codes_apart → vm_ready z sw gas → callee_ok sw addr input → 0 <= value → (readOnly z = true → value = 0) → gas < Z.of_nat fuel →
  meets_codes env gas (fun run => Call env run caller addr input gas value z) →
  Call env (Run env fuel) caller addr input gas value z = Ok (res, gas', err, z') →
  ∃ sw', models (z_state z') sw' ∧ (∀ a, 0 <= balance (sw_now sw') a) ∧
    ∃ A : gset bytes, ∀ B, A ⊆ B → total (balance (sw_now sw')) B = total (balance (sw_now sw)) B.
Proof.
  intros Henv Happ Hr Hc Hv Hro Hf Hm E. destruct (Call_all env Henv Happ caller addr input gas value z sw Hr Hc Hv Hro Hm) as (res1 & gas1 & err1 & z1 & E1 & H).
  rewrite (E1 _ Hf) in E. injection E as -> -> -> ->. destruct (left_over_kept _ _ _ _ _ _ _ _ H) as (_ & _ & _ & sw' & Hs & Hw & _ & _ & Hg). exists sw'.
  split_and!; [done | intros a; apply (wo_accounts _ Hw) |]. destruct (gains_total _ _ _ Hg) as (A & HA). exists A. intros B HB. rewrite (HA B HB). lia.
Qed.

(** C10.  A call that fails leaves the world it found: accounts, storage, logs, refund
    counter and access list are those before the call; the codes at hand, which are
    those the call runs, have different hashes. *)
Theorem Call_error_reverts env caller addr input gas value z sw fuel res gas' e z' :
  env_ok env → codes_apart → vm_ready z sw gas → callee_ok sw addr input → 0 <= value → (readOnly z = true → value = 0) → gas < Z.of_nat fuel →
  meets_codes env gas (fun run => Call env run caller addr input gas value z) →
  Call env (Run env fuel) caller addr input gas value z = Ok (res, gas', Some e, z') →
  ∃ sw', models (z_state z') sw' ∧ sw_now sw' = sw_now sw.
Proof.
  intros Henv Happ Hr Hc Hv Hro Hf Hm E. destruct (Call_all env Henv Happ caller addr input gas value z sw Hr Hc Hv Hro Hm) as (res1 & gas1 & err1 & z1 & E1 & H).
  rewrite (E1 _ Hf) in E. injection E as -> -> -> ->. destruct H as (sw' & Hs & _ & _ & _ & _ & _ & _ & _ & _ & _ & HR). exists sw'. auto.
Qed.

(** C8.  A static call changes nothing that can be read back: after it, with or
    without an error, every account has the balance, nonce, code and storage it had,
    and the refund counter and the logs are the same, whatever code was run; the codes
    at hand, which are those the call runs, have different hashes. *)
Theorem StaticCall_static env caller addr input gas z sw :
  env_ok env → codes_apart → vm_ready z sw gas → callee_ok sw addr input →
  meets_codes env gas (fun run => StaticCall env run caller addr input gas z) →
  ∃ res gas' err z', (∀ fuel, gas < Z.of_nat fuel → StaticCall env (Run env fuel) caller addr input gas z = Ok (res, gas', err, z')) ∧
    vm_kept z sw gas gas' z' ∧ ∃ sw', models (z_state z') sw' ∧ static_eq (sw_now sw) (sw_now sw').
Proof.
  intros Henv Happ Hr Hc Hm. destruct (StaticCall_all env Henv Happ caller addr input gas z sw Hr Hc Hm) as (res & gas' & err & z' & E & H).
  exists res, gas', err, z'. split_and!; [done | by eapply left_over_kept |].
  destruct H as (sw' & Hs & _ & _ & _ & _ & _ & _ & _ & Hev & _). exists sw'. split; [done |]. by apply Hev.
Qed.

(** C31.  A creation ends, on more fuel than gas and with one result whatever the
    fuel; when it succeeds the account at the address returned has the code the
    constructor returned, and when it fails, except on the gas to store that code,
    nothing changed but the creator's nonce and the addresses accessed; the codes at
    hand, which are those the creation runs, have different hashes. *)
Theorem Create_outcome env caller code gas value z sw :
  env_ok env → codes_apart → vm_ready z sw gas → address_ok (ref_Address caller) → bytes_ok code → len code <= MaxInitCodeSize → 0 <= value → readOnly z = false →
  meets_codes env gas (fun run => Create env run caller code gas value z) →
  ∃ res a gas' err z', (∀ fuel, gas < Z.of_nat fuel → Create env (Run env fuel) caller code gas value z = Ok (res, a, gas', err, z')) ∧
    vm_kept z sw gas gas' z' ∧ ∃ sw', models (z_state z') sw' ∧ created_world (ref_Address caller) sw res a err sw'.
Proof.
  intros Henv Happ Hr Ha Hb Hl Hv Hro Hm. destruct (Create_all env Henv Happ caller code gas value z sw Hr Ha Hb Hl Hv Hro Hm) as (res & a & gas' & err & z' & E & H).
  exists res, a, gas', err, z'. split_and!; [done | by eapply left_over_kept |].
  destruct H as (sw' & Hs & _ & _ & _ & _ & _ & _ & _ & _ & _ & HR). by exists sw'.
Qed.
End Spec.

(** ** A machine on a concrete state *)

#[local] Existing Instances toy_hash toy_hash_laws.
#[local] Existing Instance Z_uint256.
#[local] Existing Instance Z_uint256_laws.

(** A jump over an invalid byte, then a store of 1 *)
Definition demo_store : bytes := [0x60; 4; 0x56; 0xfe; 0x5b; 0x60; 1; 0x60; 0; 0x55].
Definition demo_revert : bytes := demo_store ++ [0x60; 0; 0x60; 0; 0xfd].
#[local] Instance demo_codes : Codes := [demo_store; demo_revert].

Lemma demo_apart : codes_apart.
Proof. intros c1 c2 [-> | [-> | []%elem_of_nil]%elem_of_cons]%elem_of_cons [-> | [-> | []%elem_of_nil]%elem_of_cons]%elem_of_cons E; (done || discriminate E). Qed.

Definition demo_a : bytes := repeat 1 20.
Definition demo_b : bytes := repeat 2 20.
Definition demo_c : bytes := repeat 3 20.

(** Two contracts that write a slot, the second then reverts, and an account with money *)
Definition demo_accounts : gmap bytes StateAccount :=
  {[ demo_a := MkAccount 1 0 EmptyRootHash (sum256 demo_store);
     demo_b := MkAccount 1 0 EmptyRootHash (sum256 demo_revert);
     demo_c := MkAccount 7 10000000 EmptyRootHash EmptyCodeHash ]}.

#[local] Instance demo_backend : Backend (gmap bytes StateAccount) unit unit := {|
  GetAccount := fun t a => inr (t !! a);
  OpenStorageTrie := fun _ _ _ => inr tt;
  GetStorage := fun _ _ _ => inr [];
  ContractCode := fun _ h => (if bool_decide (h = sum256 demo_store) then Some demo_store else Some demo_revert, None);
  ContractCodeSize := fun _ h => (if bool_decide (h = sum256 demo_store) then len demo_store else len demo_revert, None)
|}.

Abbreviation demo_db := (State.StateDB (T := gmap bytes StateAccount) (ST := unit) (E := unit)).

Definition demo_start : demo_db :=
  MkState demo_accounts None [] ∅ ∅ ∅ ∅ ∅ ∅ ∅ ∅ None 0 zeroHash 0 ∅ 0 ∅ newAccessList newJournal [] 0.

(** What the transaction's preparation does: the callee is accessed *)
Definition demo_state (a : bytes) : demo_db := AddAddressToAccessList a demo_start.
Definition demo_zvm (a : bytes) : ZVM demo_db := MkZVM (demo_state a) 0 0 false [] ∅.
Definition demo_world (a : bytes) : saved_world :=
  with_now (MkWorld (view demo_start) 0 zeroHash 0 ∅ 0 ∅ {[ a := ∅ ]}) (MkSaved (world_of demo_start) [] 0).

Definition demo_env : vm_env :=
  MkEnv (fun n => Ok (be_bytes 32 n)) (repeat 9 20) 30000000 100 1700000000 7 (repeat 8 32) demo_c 10 1 false false (fun _ => None)
    (EncBuffer [] [] 0 (repeat 0 9)).

Lemma demo_env_ok : env_ok demo_env.
Proof. constructor; [done | | done]. intros n _. by eexists. Qed.

Lemma demo_view x : view demo_start x = (fun d => view_of demo_start (newObject x (Some d))) <$> (demo_accounts !! x).
Proof.
  unfold view, live_at, obj_at. cbn [stateObjects demo_start]. rewrite lookup_empty.
  change (load_account demo_start x) with (inr (demo_accounts !! x) : unit + option StateAccount). by destruct (demo_accounts !! x).
Qed.

Lemma demo_committed d x k : committed_val demo_start (newObject x d) k = zeroHash.
Proof.
  unfold committed_val, obj_GetCommittedState. cbn [pendingStorage originStorage newObject]. rewrite !lookup_empty. cbn. by case_match.
Qed.

Lemma demo_world_ok a : world_ok (sw_now (demo_world a)).
Proof.
  constructor.
  - intros x. unfold acct. cbn [w_account sw_now demo_world with_now]. rewrite demo_view. unfold demo_accounts.
    destruct (_ !! x) as [d |] eqn:Ed; [| constructor; cbn; [lia | lia | done]]. cbn.
    apply lookup_insert_Some in Ed as [[<- <-] | [_ Ed]]; [| apply lookup_insert_Some in Ed as [[<- <-] | [_ Ed]]; [| apply lookup_singleton_Some in Ed as [<- <-]]];
      (constructor; [cbn; lia | cbn; lia |]); intros c Hc _; vm_compute in Hc; [injection Hc as <-.. | done];
      (split_and!; [repeat constructor; lia | done | by vm_compute]).
  - intros l _ Hl. destruct l as [| [x k] l]; [done |]. inversion Hl as [| ? ? [Hc _]]; subst. exfalso. apply Hc. unfold acct. cbn.
    rewrite demo_view. destruct (_ !! x); [apply demo_committed | done].
Qed.

Lemma demo_models a : models (demo_state a) (demo_world a).
Proof.
  assert (Hr : models demo_start (MkSaved (world_of demo_start) [] 0)).
  { unfold models, StateDB_vm_laws. apply (new_refines [] (fun _ => inr demo_accounts) None); [done | | constructor; [| done]].
    - intros x d [= Hd]. unfold demo_accounts in Hd.
      apply lookup_insert_Some in Hd as [[_ <-] | [_ Hd]]; [| apply lookup_insert_Some in Hd as [[_ <-] | [_ Hd]]; [| apply lookup_singleton_Some in Hd as [_ <-]]]; done.
    - intros r x t k v _ [= <-]. done. }
  destruct (law_op (OpAddAddress a) demo_start (MkSaved (world_of demo_start) [] 0) eq_refl Hr) as (s & [= <-] & Hs). exact Hs.
Qed.

Lemma demo_ready a gas : 0 <= gas < 2 ^ 50 → vm_ready (demo_zvm a) (demo_world a) gas.
Proof.
  intros Hg. constructor; [apply demo_models | apply demo_world_ok | | lia |].
  - constructor; [| constructor]. intros h b. cbn. by rewrite lookup_empty.
  - unfold potential. cbn. lia.
Qed.

Lemma demo_callee a : address_ok a → callee_ok (demo_world a) a [].
Proof. intros Ha. constructor; [done | split; [constructor | done] |]. cbn. rewrite lookup_singleton, decide_True by done. eauto. Qed.

(** Results without the machine *)
Definition outcome_of {A B} (r : outcome Empty_set (A * B)) : option A := match r with Ok (a, _) => Some a | _ => None end.

Definition demo_call (a : bytes) := Call demo_env (Run demo_env (Z.to_nat 30001)) (AccountRef demo_c) a [] 30000 0 (demo_zvm a).
Definition demo_static (a : bytes) := StaticCall demo_env (Run demo_env (Z.to_nat 30001)) (AccountRef demo_c) a [] 30000 (demo_zvm a).
Definition demo_create (code : bytes) (gas : Z) :=
  Create demo_env (Run demo_env (Z.to_nat (gas + 1))) (AccountRef demo_c) code gas 5 (demo_zvm demo_c).

Lemma demo_address b : 0 <= b < 256 → address_ok (repeat b 20).
Proof. intros Hb. split; [done |]. apply Forall_forall. intros x Hx. apply list_elem_of_In, repeat_spec in Hx. by subst x. Qed.

(** The runs of the demonstrations meet the codes of the two contracts only. *)
Lemma demo_call_codes a value : a = demo_a ∧ (value = 0 ∨ value = 5) ∨ a = demo_b ∧ value = 0 →
  meets_codes demo_env 30000 (fun run => Call demo_env run (AccountRef demo_c) a [] 30000 value (demo_zvm a)).
Proof. intros [[-> [-> | ->]] | [-> ->]]; split; vm_compute; reflexivity. Qed.

Lemma demo_static_codes : meets_codes demo_env 30000 (fun run => StaticCall demo_env run (AccountRef demo_c) demo_a [] 30000 (demo_zvm demo_a)).
Proof. split. vm_compute. reflexivity. Qed.

Lemma demo_create_codes : meets_codes demo_env 1000 (fun run => Create demo_env run (AccountRef demo_c) [0x60; 2; 0x60; 0; 0xf3] 1000 5 (demo_zvm demo_c)).
Proof. split. vm_compute. reflexivity. Qed.

(** The contract stores 1 and ends. *)
Lemma Call_returns_witness :
  ∃ z', demo_call demo_a = Ok ([], 7882, None, z') ∧ vm_kept (demo_zvm demo_a) (demo_world demo_a) 30000 7882 z'.
Proof.
  destruct (Call_returns demo_env (AccountRef demo_c) demo_a [] 30000 0 (demo_zvm demo_a) (demo_world demo_a)) as (res & gas' & err & z' & E & _ & Hk);
    [exact demo_env_ok | exact demo_apart | by apply demo_ready | by apply demo_callee, demo_address | done | done | apply demo_call_codes; auto |].
  specialize (E (Z.to_nat 30001) ltac:(lia)). assert (P : outcome_of (demo_call demo_a) = Some ([], 7882, None)) by (vm_compute; reflexivity).
  fold (demo_call demo_a) in E. rewrite E in P. injection P as -> -> ->. exists z'. split; [exact E | exact Hk].
Defined.

(** The caller sends 5 to the contract. *)
Lemma Call_conserves_witness :
  ∃ r z' sw', Call demo_env (Run demo_env (Z.to_nat 30001)) (AccountRef demo_c) demo_a [] 30000 5 (demo_zvm demo_a) = Ok (r, z') ∧ snd r = None ∧
    models (z_state z') sw' ∧ ∃ A : gset bytes, ∀ B, A ⊆ B → total (balance (sw_now sw')) B = total (balance (sw_now (demo_world demo_a))) B.
Proof.
  pose proof (fun res gas' e z' => Call_conserves demo_env (AccountRef demo_c) demo_a [] 30000 5 (demo_zvm demo_a) (demo_world demo_a) (Z.to_nat 30001) res gas' e z'
    demo_env_ok demo_apart (demo_ready demo_a 30000 ltac:(lia)) (demo_callee demo_a (demo_address 1 ltac:(lia))) ltac:(lia) ltac:(done) ltac:(lia) (demo_call_codes demo_a 5 ltac:(auto))) as H.
  set (r := Call _ _ _ _ _ _ _ _) in *. assert (P : outcome_of r = Some ([], 7882, None)) by (vm_compute; reflexivity).
  clearbody r. destruct r as [[p z'] | | |]; [| discriminate P..]. injection P as ->.
  destruct (H _ _ _ _ eq_refl) as (sw' & Hs & _ & HA). exists ([], 7882, None), z', sw'. split; [reflexivity | split; [reflexivity | by split]].
Defined.

(** The contract stores 1 and reverts. *)
Lemma Call_error_reverts_witness :
  ∃ gas' z' sw', demo_call demo_b = Ok ([], gas', Some ErrExecutionReverted, z') ∧ models (z_state z') sw' ∧ sw_now sw' = sw_now (demo_world demo_b).
Proof.
  pose proof (fun res gas' e z' => Call_error_reverts demo_env (AccountRef demo_c) demo_b [] 30000 0 (demo_zvm demo_b) (demo_world demo_b) (Z.to_nat 30001) res gas' e z'
    demo_env_ok demo_apart (demo_ready demo_b 30000 ltac:(lia)) (demo_callee demo_b (demo_address 2 ltac:(lia))) ltac:(lia) (fun _ => eq_refl) ltac:(lia) (demo_call_codes demo_b 0 ltac:(auto))) as H.
  fold (demo_call demo_b) in H. assert (P : outcome_of (demo_call demo_b) = Some ([], 7876, Some ErrExecutionReverted)) by (vm_compute; reflexivity).
  destruct (demo_call demo_b) as [[p z'] | | |]; [| discriminate P..]. injection P as ->.
  destruct (H _ _ _ _ eq_refl) as (sw' & Hs & Hw). exists 7876, z', sw'. split; [reflexivity | split; [exact Hs | exact Hw]].
Defined.

(** The store is refused. *)
Lemma StaticCall_static_witness :
  ∃ z' sw', demo_static demo_a = Ok ([], 0, Some ErrWriteProtection, z') ∧ models (z_state z') sw' ∧ static_eq (sw_now (demo_world demo_a)) (sw_now sw').
Proof.
  destruct (StaticCall_static demo_env (AccountRef demo_c) demo_a [] 30000 (demo_zvm demo_a) (demo_world demo_a)) as (res & gas' & err & z' & E & _ & sw' & Hs & Hw);
    [exact demo_env_ok | exact demo_apart | by apply demo_ready | by apply demo_callee, demo_address | exact demo_static_codes |].
  specialize (E (Z.to_nat 30001) ltac:(lia)). assert (P : outcome_of (demo_static demo_a) = Some ([], 0, Some ErrWriteProtection)) by (vm_compute; reflexivity).
  fold (demo_static demo_a) in E. rewrite E in P. injection P as -> -> ->. exists z', sw'. split; [exact E | split; [exact Hs | exact Hw]].
Defined.

(** The constructor returns two zero bytes. *)
Lemma Create_outcome_witness :
  ∃ a z' sw', demo_create [0x60; 2; 0x60; 0; 0xf3] 1000 = Ok ([0; 0], a, 591, None, z') ∧ models (z_state z') sw' ∧ w_Code a (sw_now sw') = [0; 0].
Proof.
  destruct (Create_outcome demo_env (AccountRef demo_c) [0x60; 2; 0x60; 0; 0xf3] 1000 5 (demo_zvm demo_c) (demo_world demo_c)) as (res & a & gas' & err & z' & E & _ & sw' & Hs & Hw);
    [exact demo_env_ok | exact demo_apart | by apply demo_ready | by apply demo_address | repeat constructor; lia | done | done | done | exact demo_create_codes |].
  specialize (E (Z.to_nat 1001) ltac:(lia)).
  assert (P : (fun p : bytes * bytes * Z * option vm_error => let '(res, _, gas', err) := p in (res, gas', err)) <$> outcome_of (demo_create [0x60; 2; 0x60; 0; 0xf3] 1000) = Some ([0; 0], 591, None)) by (vm_compute; reflexivity).
  change (demo_create [0x60; 2; 0x60; 0; 0xf3] 1000 = Ok (res, a, gas', err, z')) in E. rewrite E in P. injection P as -> -> ->. exists a, z', sw'. split; [exact E | split; [exact Hs | exact Hw]].
Defined.
