(* ===== verification/VmCreate.v ===== *)
(** * Creations that cannot pay for their code: create of core/vm/zvm.go

    No instruction of the interpreter ends with ErrCodeStoreOutOfGas, so that a
    creation with this error is one whose constructor ended well; what it leaves is
    then compared with what the constructor left. *)

From S2P Require Import Prelude RlpRaw RlpEncode TrieNode TrieStore TrieOps TrieHash StateAccess State StateWorld StateSupply StateSpec Uint256 VmAnalysis VmCore VmGas VmInstr VmInterp VmLaws VmInv VmMemory VmSafeOps VmSafeMem VmSafeCalls VmSpec.

(** ** Errors of the interpreter *)

Section Errors.
  Context `{UI : Uint256} `{HF : Hasher} {SDB : Type} `{DB : VmStateDB SDB} (env : vm_env).
  Abbreviation M := (M (SDB := SDB)).

(** Whatever a computation returns has [Q]. *)
Definition yields {A} (Q : A → Prop) (m : M A) : Prop := ∀ f a f', m f = Ok (a, f') → Q a.

Lemma yields_bind {A B} (Q : B → Prop) (m : M A) (k : A → M B) : (∀ a, yields Q (k a)) → yields Q (bind m k).
Proof. intros Hk f b f'. unfold bind. destruct (m f) as [[a f1] | | |]; try done. apply Hk. Qed.

Lemma yields_then {A B} (P : A → Prop) (Q : B → Prop) (m : M A) (k : A → M B) : yields P m → (∀ a, P a → yields Q (k a)) → yields Q (bind m k).
Proof. intros Hm Hk f b f'. unfold bind. destruct (m f) as [[a f1] | | |] eqn:E; try done. eapply Hk, Hm, E. Qed.

Lemma yields_ret {A} (Q : A → Prop) x : Q x → yields Q (ret x : M A).
Proof. by intros Hx f a f' [= <- <-]. Qed.

Definition other_error (r : bytes * option vm_error) : Prop := snd r ≠ Some ErrCodeStoreOutOfGas.

Definition other_end (r : option (bytes * option vm_error)) : Prop := match r with Some r => other_error r | None => True end.

Ltac other :=
  repeat first
    [ match goal with |- yields _ (if ?b then _ else _) => destruct b end
    | match goal with |- yields _ (let '(_, _) := ?x in _) => destruct x end
    | match goal with |- yields _ (match ?x with _ => _ end) => destruct x end
    | apply yields_ret; by intros [=]
    | match goal with |- yields _ (bind _ _) => apply yields_bind; intros end
    | progress cbn beta zeta
    | match goal with |- yields ?Q ?m => let m' := eval red in m in change (yields Q m') end ].

Ltac each_other := repeat (apply Forall_cons; split; [cbn [snd execute]; solve [other] |]); constructor.
Ltac map_other := apply Forall_map, Forall_forall; intros n _; cbn [compose snd execute]; solve [other].

Lemma table_other run op : yields other_error (execute (table env run op)).
Proof.
  assert (H : Forall (fun e => yields other_error (execute e.2)) (newShanghaiInstructionSet env run)).
  { unfold newShanghaiInstructionSet. rewrite !Forall_app. split_and!; [each_other | each_other | each_other | each_other | apply Forall_cons; split; [cbn [snd execute]; solve [other] | map_other] | map_other | map_other | map_other | each_other]. }
  unfold table. destruct (find _ _) as [[x o] |] eqn:E; [| other]. apply find_some in E as [Hin _]. rewrite Forall_forall in H.
  exact (H (x, o) (proj2 (list_elem_of_In _ _) Hin)).
Qed.

Lemma execute_other o : yields other_error (execute o) → yields other_end (execute_step (SDB := SDB) o).
Proof.
  intros Ho. eapply yields_then; [exact Ho |]. intros [res [e |]] He; [| do 2 (apply yields_bind; intros); by apply yields_ret]. destruct e; try (by apply yields_ret).
Qed.

Lemma iteration_other run : yields other_end (iteration env run).
Proof.
  unfold iteration. do 4 (apply yields_bind; intros). set (o := table env run a2). pose proof (execute_other o (table_other run a2)) as Ho.
  case_if; [by apply yields_ret |]. case_if; [by apply yields_ret |]. unfold perform. apply yields_bind. intros []; [| by apply yields_ret]. cbn [negb].
  destruct (dynamicGas o); [| done]. apply yields_bind. intros [ms |]; [| by apply yields_ret]. apply yields_bind. intros [cost err].
  apply yields_bind. intros []; [| by apply yields_ret]. cbn [negb]. by apply yields_bind.
Qed.

Lemma loop_other fuel : yields other_error (loop env fuel).
Proof.
  induction fuel as [| fuel IH]; [done |]. cbn [loop]. eapply yields_then; [apply iteration_other |]. intros [r |] Hr; [by apply yields_ret | done].
Qed.

(** Run does not end with the error of a creation. *)
Lemma Run_other fuel c input ro z res err c' z' : Run env fuel c input ro z = Ok (res, err, c', z') → err ≠ Some ErrCodeStoreOutOfGas.
Proof.
  unfold Run, run_with. cbv zeta. destruct (len (c_Code c) =? 0); [cbn [mbind outcome_bind]; intros Hr; by injection Hr as _ <- _ _ |]. match goal with |- context [loop env fuel ?f] => destruct (loop env fuel f) as [[r f'] | | |] eqn:E end; try done.
  cbn [mbind outcome_bind]. intros Hr. injection Hr as _ <- _ _. exact (loop_other fuel _ _ _ E).
Qed.
End Errors.

(** ** The account that a creation makes *)

Section Create.
  Context `{UI : Uint256} `{HF : Hasher} {SDB : Type} `{DB : VmStateDB SDB} `{SL : !VmStateLaws SDB} (env : vm_env).
  Abbreviation zvm := (ZVM SDB).

(** What a creation has done when the constructor starts: the creator's nonce is one
    more and the value is paid, the account made has nonce 1, no code, and the value. *)
Record entered (caller address : bytes) (value : Z) (w w1 : world) : Prop := MkEntered {
  en_nonce : w_Nonce address w1 = 1;
  en_code : w_Code address w1 = [];
  en_value : balance w1 address = balance w address + value;
  en_paid : balance w1 caller = balance w caller - value;
  en_creator : w_Nonce caller w1 = w_Nonce caller w + 1
}.

Lemma set_nonce_models a n (s : SDB) sw : models s sw → models (db_SetNonce a n s) (with_now (change a (with_nonce n) (sw_now sw)) sw).
Proof. intros Hs. pose proof (law_op (OpSetNonce a n) s sw eq_refl Hs) as H. cbn in H. by destruct H as (s' & [= <-] & Hs'). Qed.

Lemma create_account_models a (s : SDB) sw :
  models s sw → models (db_CreateAccount a s) (with_now (change a (fun v => MkView 0 (v_balance v) EmptyCodeHash None (fun _ => zeroHash) (fun _ => zeroHash)) (sw_now sw)) sw).
Proof. intros Hs. pose proof (law_op (OpCreateAccount a) s sw eq_refl Hs) as H. cbn in H. by destruct H as (s' & [= <-] & Hs'). Qed.

Lemma read_models {A} (g : SDB → A * SDB) v s sw : (g s).1 = v ∧ models (g s).2 sw → ∃ s', g s = (v, s') ∧ models s' sw.
Proof. destruct (g s) as [a s']. cbn. intros [-> Hs]. by exists s'. Qed.

Lemma entered_world caller address value w acc :
  address ≠ caller → entered caller address value w
    (change address (credit value) (change caller (debit value) (change address (with_nonce 1)
      (change address (fun v => MkView 0 (v_balance v) EmptyCodeHash None (fun _ => zeroHash) (fun _ => zeroHash))
        (tuned (change caller (with_nonce (w_Nonce caller w + 1)) w) (w_refund w) acc))))).
Proof.
  intros Hne. assert (Ht : ∀ w' r b, acct (tuned w' r acc) b = acct w' b) by done.
  assert (Hc : ∀ b w', w_Code b w' = default [] (v_code (acct w' b))) by (intros b w'; unfold w_Code, w_read, acct; by destruct (w_account w' b)).
  constructor; rewrite ?w_Nonce_acct, ?Hc; unfold balance; repeat rewrite acct_change, ?decide_True, ?decide_False by done; rewrite ?Ht, ?acct_change, ?decide_True, ?decide_False by done; done.
Qed.

(** C40.  Whenever a creation reports ErrCodeStoreOutOfGas it is not undone: the
    constructor ended without an error and returned code that its gas left does not
    pay for, and the machine and the gas are exactly those that the constructor
    left: the account it ran in, made with nonce 1 and the value sent, stays, the
    creator has paid, and the gas is handed back. *)
Theorem create_store_gas_keeps fuel caller code hash gas value address (z : zvm) sw res a gas' z' :
  models (z_state z) sw → world_ok (sw_now sw) → address ≠ ref_Address caller →
  create (Run env fuel) caller code hash gas value address z = Ok (res, a, gas', Some ErrCodeStoreOutOfGas, z') →
  a = address ∧ ∃ s sw1 c', models s sw1 ∧ entered (ref_Address caller) address value (sw_now sw) (sw_now sw1) ∧
    Run env fuel (SetCallCode hash code (NewContract caller address value gas)) [] false (inherit_jumpdests caller (with_state s z)) = Ok (res, None, c', z') ∧
    gas' = c_Gas c' ∧ gas' < u64 (len res * CreateDataGas).
Proof.
  intros Hs Hw Hne. unfold create. case_if; [done |]. unfold CanTransfer.
  destruct (read_models _ _ _ _ (law_GetBalance (ref_Address caller) _ _ Hs)) as (s1 & -> & H1). case_if; [done |].
  destruct (read_models _ _ _ _ (law_GetNonce (ref_Address caller) _ _ H1)) as (s2 & -> & H2). destruct (u64 _ <? _) eqn:Eo; [done |].
  pose proof (wo_accounts _ Hw (ref_Address caller)) as [Hn _ _]. rewrite <- w_Nonce_acct in Hn.
  set (n := w_Nonce _ _) in *. assert (Hu : u64 (n + 1) = n + 1) by (destruct (decide (n = 2 ^ 64 - 1)) as [E | ?]; [rewrite E in Eo; by vm_compute in Eo | apply u64_id; lia]).
  rewrite Hu. pose proof (set_nonce_models (ref_Address caller) (n + 1) _ _ H2) as H3. destruct (add_address_models address _ _ H3) as (acc & H4 & _). cbv zeta in H4.
  destruct (read_models _ _ _ _ (law_GetCodeHash address _ _ H4)) as (s5 & -> & H5). destruct (read_models _ _ _ _ (law_GetNonce address _ _ H5)) as (s6 & -> & H6).
  case_if; [done |]. pose proof (law_op OpSnapshot _ _ eq_refl H6) as H7. cbn in H7. destruct H7 as (s7 & E7 & H7). destruct (db_Snapshot s6) as [id s7']. cbn in E7. injection E7 as ->.
  pose proof (credit_models address value _ _ (debit_models (ref_Address caller) value _ _ (set_nonce_models address 1 _ _ (create_account_models address _ _ H7)))) as H8.
  fold (Transfer (ref_Address caller) address value (db_SetNonce address 1 (db_CreateAccount address s7))) in H8.
  set (s8 := Transfer _ _ _ _) in *. destruct (Run env fuel _ _ _ _) as [[[[res1 err1] c1] z1] | | |] eqn:Er; try done. cbn [mbind outcome_bind].
  pose proof (Run_other env _ _ _ _ _ _ _ _ _ Er) as Hne1. destruct (check_code res1 err1) as [e |] eqn:Ec.
  - assert (He : e ≠ ErrCodeStoreOutOfGas) by (intros ->; by apply (check_code_err res1 err1)). destruct e; try done; destruct (db_RevertToSnapshot _ _); done.
  - apply check_code_none in Ec as [-> _]. unfold UseGas. case_if; [| done]. intros [= <- <- <- <-]. zb. split; [done |]. eexists s8, _, c1. split; [exact H8 |]. split_and!; try done.
    cbn [sw_now with_now]. by apply entered_world.
Qed.
End Create.

(** ** A constructor that returns 32 zero bytes and has 991 of gas left *)

#[local] Existing Instances toy_hash toy_hash_laws demo_backend Z_uint256.

Abbreviation demo_unpaid :=
  (create (Run demo_env (Z.to_nat 1001)) (AccountRef demo_c) [0x60; 32; 0x60; 0; 0xf3] zeroHash 1000 5 (repeat 4 20) (demo_zvm demo_c)) (only parsing).

Lemma create_store_gas_keeps_witness :
  ∃ z' s sw1 c', demo_unpaid = Ok (repeat 0 32, repeat 4 20, 991, Some ErrCodeStoreOutOfGas, z') ∧ models s sw1 ∧ balance (sw_now sw1) (repeat 4 20) = balance (sw_now (demo_world demo_c)) (repeat 4 20) + 5 ∧
    Run demo_env (Z.to_nat 1001) (SetCallCode zeroHash [0x60; 32; 0x60; 0; 0xf3] (NewContract (AccountRef demo_c) (repeat 4 20) 5 1000)) [] false
      (inherit_jumpdests (AccountRef demo_c) (with_state s (demo_zvm demo_c))) = Ok (repeat 0 32, None, c', z').
Proof.
  pose proof (fun res a gas' z' => create_store_gas_keeps demo_env (Z.to_nat 1001) (AccountRef demo_c) [0x60; 32; 0x60; 0; 0xf3] zeroHash 1000 5 (repeat 4 20) (demo_zvm demo_c) (demo_world demo_c)
    res a gas' z' (demo_models demo_c) (demo_world_ok demo_c) ltac:(discriminate)) as H.
  set (r := create _ _ _ _ _ _ _ _) in *. assert (P : outcome_of r = Some (repeat 0 32, repeat 4 20, 991, Some ErrCodeStoreOutOfGas)) by (vm_compute; reflexivity).
  clearbody r. destruct r as [[p z'] | | |]; [| discriminate P..]. injection P as ->.
  destruct (H _ _ _ _ eq_refl) as (_ & s & sw1 & c' & Hs & He & Hr & _). exists z', s, sw1, c'. split; [reflexivity | split; [exact Hs | split; [exact (en_value _ _ _ _ _ He) | exact Hr]]].
Defined.
