(* ===== verification/VmJump.v ===== *)
(** * Jumps reach instructions *)

From S2P Require Import Prelude RlpRaw RlpEncode TrieNode TrieOps StateAccess State Uint256 VmAnalysis VmCore VmGas VmInstr.

#[local] Arguments codeBitmap : simpl never.
#[local] Arguments codeSegment : simpl never.

Section Jump.
  Context `{UI : Uint256} `{UL : !Uint256Laws} `{HF : Hasher} {SDB : Type} `{DB : VmStateDB SDB}.
  Abbreviation frame := (frame (SDB := SDB)).

(** The analyses kept for the running code are its own. *)
Definition cached (f : frame) : Prop :=
  let c := f_contract f in
  (∀ a, c_analysis c = Some a → @codeBitmap Empty_set (c_Code c) = Ok a) ∧
  (∀ a, c_CodeHash c ≠ zeroHash → jumpdests (f_zvm f) !! c_CodeHash c = Some a → @codeBitmap Empty_set (c_Code c) = Ok a).

(** A destination: inside the program, a JUMPDEST, and not an argument of a PUSH *)
Definition destination (code : bytes) (dest : Z) : bool :=
  (dest <? len code) && bool_decide (code !! Z.to_nat dest = Some JUMPDEST) && bool_decide (arguments 0 code !! Z.to_nat dest = Some false).

(** Two frames that differ in what was analysed *)
Definition reanalysed (f f' : frame) : Prop :=
  f_pc f' = f_pc f ∧ f_stack f' = f_stack f ∧ f_mem f' = f_mem f ∧
  set_analysis None (f_contract f') = set_analysis None (f_contract f) ∧ with_jumpdests ∅ (f_zvm f') = with_jumpdests ∅ (f_zvm f).

Lemma segment_exact code bits dest b :
  bytes_ok code → @codeBitmap Empty_set code = Ok bits → 0 <= dest → arguments 0 code !! Z.to_nat dest = Some b →
  @codeSegment Empty_set bits dest = Ok (negb b).
Proof.
  intros Hc Eb Hd Ha. destruct (codeBitmap_spec code Hc) as (bits' & E & Hlen & Hb & Hbits). rewrite Eb in E. injection E as <-.
  assert (Hin : (Z.to_nat dest < length code)%nat) by (apply lookup_lt_Some in Ha; by rewrite arguments_length in Ha).
  rewrite codeSegment_spec; [| done | done |].
  - rewrite Hbits by lia. by rewrite Ha.
  - rewrite Hlen. apply Z.le_lt_trans with (len code / 8); [apply Z.div_le_mono; lia | lia].
Qed.

Lemma isCode_exact dest f b :
  bytes_ok (c_Code (f_contract f)) → cached f → 0 <= dest → arguments 0 (c_Code (f_contract f)) !! Z.to_nat dest = Some b →
  ∃ f', isCode dest f = Ok (negb b, f') ∧ cached f' ∧ reanalysed f f'.
Proof.
  intros Hc [Ha Hj] Hd Hb. destruct f as [z pc st m c]. cbn in *. destruct (codeBitmap_spec (c_Code c) Hc) as (bits & E & _).
  assert (Hseg : @codeSegment Empty_set bits dest = Ok (negb b)) by by eapply segment_exact.
  assert (Hset : ∀ j, (∀ a, c_CodeHash c ≠ zeroHash → j !! c_CodeHash c = Some a → a = bits) →
    let f' := MkFrame (with_jumpdests j z) pc st m (set_analysis (Some bits) c) in cached f' ∧ reanalysed (MkFrame z pc st m c) f').
  { intros j Hjb f'. split; [split; cbn |]; [by intros a [= <-] | intros a Hh Hl; by rewrite (Hjb a Hh Hl) | by split_and!]. }
  unfold isCode, bind, gets, lift, set_contract, upd_zvm. cbn. destruct (c_analysis c) as [a |] eqn:Eca.
  { specialize (Ha a eq_refl). rewrite E in Ha. injection Ha as <-. rewrite Hseg. cbn. eexists. split; [done |]. split; [| by split_and!].
    split; cbn; [rewrite Eca; by intros ? [= <-] | done]. }
  case_bool_decide as Hh; cbn.
  - rewrite E. cbn. rewrite Hseg. cbn. eexists. split; [done |]. destruct (Hset (jumpdests z)) as [H1 H2]; [done | by destruct z].
  - destruct (jumpdests z !! c_CodeHash c) as [a |] eqn:Ej; cbn.
    + specialize (Hj a Hh eq_refl). rewrite E in Hj. injection Hj as <-. rewrite Hseg. cbn. eexists. split; [done |].
      destruct (Hset (jumpdests z)) as [H1 H2]; [| by destruct z]. intros a _ Hl. congruence.
    + rewrite E. cbn. rewrite Hseg. cbn. eexists. split; [done |]. apply Hset. intros a _. rewrite lookup_insert, decide_True by done. by intros [= <-].
Qed.

Lemma validJumpdest_spec dest f :
  bytes_ok (c_Code (f_contract f)) → len (c_Code (f_contract f)) < 2 ^ 64 → cached f →
  ∃ f', validJumpdest dest f = Ok (destination (c_Code (f_contract f)) (u_ToBig dest), f') ∧ cached f' ∧ reanalysed f f'.
Proof.
  intros Hc Hl Hca. pose proof (ToBig_range dest) as Hr. unfold validJumpdest, bind, gets, lift, destination. cbn. rewrite IsUint64_spec.
  assert (Hsame : ∃ f', (Ok (false, f) : outcome Empty_set (bool * frame)) = Ok (false, f') ∧ cached f' ∧ reanalysed f f') by (exists f; by split_and!).
  destruct (Z.ltb_spec (u_ToBig dest) (len (c_Code (f_contract f)))) as [Hin | Hout].
  2: { cbn [andb]. replace (negb (u_ToBig dest <? 2 ^ 64) || (len (c_Code (f_contract f)) <=? u_Uint64 dest)) with true; [done |].
       symmetry. apply orb_true_iff. destruct (Z.ltb_spec (u_ToBig dest) (2 ^ 64)); [right | by left]. rewrite Uint64_spec, Z.mod_small by lia. by apply Z.leb_le. }
  assert (Hu : u_Uint64 dest = u_ToBig dest) by (rewrite Uint64_spec; apply Z.mod_small; lia). rewrite Hu. rewrite (proj2 (Z.ltb_lt _ _)), (proj2 (Z.leb_gt _ _)) by lia. cbn [negb orb].
  destruct (lookup_lt_is_Some_2 (c_Code (f_contract f)) (Z.to_nat (u_ToBig dest)) ltac:(lia)) as [x Hx]. rewrite (at_index _ _ x) by (lia || done). rewrite Hx. cbn.
  destruct (Z.eqb_spec x JUMPDEST) as [-> | Hne]; cbn [negb]; [rewrite bool_decide_true by done | rewrite bool_decide_false by congruence; exact Hsame]. cbn [andb].
  destruct (lookup_lt_is_Some_2 (arguments 0 (c_Code (f_contract f))) (Z.to_nat (u_ToBig dest))) as [b Hb]; [rewrite arguments_length; lia |].
  rewrite Hb. replace (bool_decide (Some b = Some false)) with (negb b) by (by destruct b). apply isCode_exact; (done || lia).
Qed.

(** C32.  JUMP goes to an instruction: the jump succeeds exactly when the destination,
    at its full 256 bits, lies in the program, is a JUMPDEST and is not an argument of
    a PUSH; then the next instruction is the one at the destination.  In every other
    case it is ErrInvalidJump, never a panic, and the analyses kept stay those
    of the code. *)
Theorem opJump_exact env dest st (f : frame) :
  f_stack f = dest :: st → aborted env = false → bytes_ok (c_Code (f_contract f)) → len (c_Code (f_contract f)) < 2 ^ 64 → cached f →
  let ok := destination (c_Code (f_contract f)) (u_ToBig dest) in
  ∃ f', opJump env f = Ok (([], if ok then None else Some ErrInvalidJump), f') ∧ cached f' ∧ f_stack f' = st ∧ f_mem f' = f_mem f ∧
    (ok = true → u64 (f_pc f' + 1) = u_ToBig dest).
Proof.
  intros Hst Hab Hc Hl Hca ok. destruct f as [z pc stk m c]. cbn in Hst. subst stk. set (f1 := MkFrame z pc st m c).
  destruct (validJumpdest_spec dest f1 Hc Hl Hca) as (f2 & E & Hca2 & (_ & Es & Em & _)).
  unfold opJump. rewrite Hab. unfold jump_to, bind, pop, gets. cbn - [validJumpdest]. fold f1. rewrite E. change (destination (c_Code (f_contract f1)) (u_ToBig dest)) with ok.
  destruct ok eqn:Eok; cbn; (eexists; split_and!; [reflexivity | exact Hca2 | exact Es | exact Em |]); [intros _ | done]. cbn.
  unfold ok, destination in Eok. apply andb_true_iff in Eok as [[Hin _]%andb_true_iff _]. zb. pose proof (ToBig_range dest).
  rewrite Uint64_spec, (Z.mod_small (u_ToBig dest)) by lia. unfold u64. rewrite Zplus_mod_idemp_l, Z.sub_add. apply Z.mod_small. lia.
Qed.
End Jump.

#[local] Existing Instance Z_uint256.
#[local] Existing Instance Z_uint256_laws.
#[local] Instance zero_hash : Hasher := fun _ => zeroHash.

(** JUMPDEST; PUSH1 0x5b; JUMPDEST *)
Definition jumps : Contract := MkContract [] [] None [0x5b; 0x60; 0x5b; 0x5b] zeroHash [] 0 0.
Definition jump_frame (dest : Z) : frame (SDB := unit) := MkFrame (MkZVM tt 0 0 false [] ∅) 0 [dest] NewMemory jumps.
Definition jump_env : vm_env :=
  MkEnv (fun _ => Ok []) [] 0 0 0 0 [] [] 0 0 false false (fun _ => None) (EncBuffer [] [] 0 []).

Lemma opJump_exact_witness :
  (∃ f', opJump jump_env (jump_frame 3) = Ok (([], None), f') ∧ u64 (f_pc f' + 1) = 3) ∧
  (∃ f', opJump jump_env (jump_frame 2) = Ok (([], Some ErrInvalidJump), f')).
Proof.
  assert (Hc : ∀ d, cached (jump_frame d)) by (intros d; split; [done |]; intros a Hh; done).
  assert (Hb : bytes_ok (c_Code jumps)) by (repeat constructor; lia). split.
  - destruct (opJump_exact (UI := Z_uint256) jump_env 3 [] (jump_frame 3) eq_refl eq_refl Hb ltac:(done) (Hc 3)) as (f' & E & _ & _ & _ & Hp). exists f'. split; [exact E | by apply Hp].
  - destruct (opJump_exact (UI := Z_uint256) jump_env 2 [] (jump_frame 2) eq_refl eq_refl Hb ltac:(done) (Hc 2)) as (f' & E & _). exists f'. exact E.
Defined.
