(* ===== verification/TxTransition.v ===== *)
(** * Transactions: core/state_transition.go and core/gaspool.go

    A message buys its gas, pays for its data, is run by the machine as a call or a
    creation, and settles: the refund, the gas left, the fee of the block's producer.
    The fee cap and the tip cap are set, as TransactionToMessage sets them; the
    result of TransitionDb is the error or the execution result, with the pool and the
    machine it leaves. *)

From S2P Require Import Prelude RlpRaw RlpEncode TrieNode TrieOps StateAccess State Uint256 VmAnalysis VmCore VmGas VmInstr VmInterp.

Abbreviation TxGas := 21000 (only parsing).
Abbreviation TxGasContractCreation := 53000 (only parsing).
Abbreviation TxDataNonZeroGasEIP2028 := 16 (only parsing).
Abbreviation TxDataZeroGas := 4 (only parsing).
Abbreviation TxAccessListAddressGas := 2400 (only parsing).
Abbreviation RefundQuotientEIP3529 := 5 (only parsing).

(** core/error.go *)
Inductive core_error :=
| ErrNonceTooLow | ErrNonceTooHigh | ErrNonceMax | ErrGasLimitReached | ErrInsufficientFundsForTransfer | TxErrMaxInitCodeSizeExceeded
| ErrInsufficientFunds | TxErrGasUintOverflow | ErrIntrinsicGas | ErrTipAboveFeeCap | ErrTipVeryHigh | ErrFeeCapVeryHigh | ErrFeeCapTooLow
| ErrSenderNoEOA.

(** ** The gas pool *)

Definition AddGas (amount gp : Z) : outcome Empty_set Z := if MaxUint64 - amount <? gp then Panic else Ok (u64 (gp + amount)).

Definition SubGas (amount gp : Z) : core_error + Z := if gp <? amount then inl ErrGasLimitReached else inr (u64 (gp - amount)).

(** ** Messages *)

Record Message := MkMessage {
  m_To : option bytes;
  m_From : bytes;
  m_Nonce : Z;
  m_Value : Z;
  m_GasLimit : Z;
  m_GasPrice : Z;
  m_GasFeeCap : Z;
  m_GasTipCap : Z;
  m_Data : bytes;
  m_AccessList : list (bytes * list bytes);
  SkipAccountChecks : bool
}.

(** The price of TransactionToMessage under a base fee *)
Definition effective_price (tipCap feeCap baseFee : Z) : Z := Z.min (tipCap + baseFee) feeCap.

Definition StorageKeys (al : list (bytes * list bytes)) : Z := foldr (fun e n => len (snd e) + n) 0 al.

Definition core_toWordSize (size : Z) : Z := if MaxUint64 - 31 <? size then MaxUint64 / 32 + 1 else (size + 31) / 32.

(** (math.MaxUint64-gas)/price < n, else gas += n * price *)
Definition charge (price n gas : Z) : core_error + Z :=
  if (MaxUint64 - gas) / price <? n then inl TxErrGasUintOverflow else inr (u64 (gas + u64 (n * price))).

(** The non-zero bytes *)
Definition nonzero (data : bytes) : Z := len (filter (fun b => b ≠ 0) data).

Definition IntrinsicGas (data : bytes) (accessList : list (bytes * list bytes)) (isContractCreation : bool) : core_error + Z :=
  let gas := if isContractCreation then TxGasContractCreation else TxGas in
  let dataLen := len data in
  let r :=
    if 0 <? dataLen then
      let nz := nonzero data in
      match charge TxDataNonZeroGasEIP2028 nz gas with
      | inl e => inl e
      | inr gas =>
          match charge TxDataZeroGas (dataLen - nz) gas with
          | inl e => inl e
          | inr gas => if isContractCreation then charge InitCodeWordGas (core_toWordSize dataLen) gas else inr gas
          end
      end
    else inr gas in
  match r with
  | inl e => inl e
  | inr gas => inr (u64 (u64 (gas + u64 (len accessList * TxAccessListAddressGas)) + u64 (StorageKeys accessList * TxAccessListStorageKeyGas)))
  end.

(** ** The transition *)

Section Transition.
  Context `{UI : Uint256} `{HF : Hasher} {SDB : Type} `{DB : VmStateDB SDB}.
  Context (env : vm_env) (NoBaseFee : bool) (ActivePrecompiles : list bytes) (run : runner (SDB := SDB)).

Record StateTransition := MkTransition {
  gp : Z;
  gasRemaining : Z;
  initialGas : Z;
  t_zvm : ZVM SDB
}.

Record ExecutionResult := MkResult { UsedGas : Z; r_Err : option vm_error; ReturnData : bytes }.

(** NewStateTransition *)
Definition NewStateTransition (z : ZVM SDB) (pool : Z) : StateTransition := MkTransition pool 0 0 z.

Definition with_db (s : SDB) (st : StateTransition) : StateTransition :=
  MkTransition (gp st) (gasRemaining st) (initialGas st) (with_state s (t_zvm st)).

Definition buyGas (msg : Message) (st : StateTransition) : option core_error * StateTransition :=
  let mgval := m_GasLimit msg * m_GasPrice msg in
  let balanceCheck := m_GasLimit msg * m_GasFeeCap msg + m_Value msg in
  let '(have, s) := db_GetBalance (m_From msg) (z_state (t_zvm st)) in
  let st := with_db s st in
  if have <? balanceCheck then (Some ErrInsufficientFunds, st)
  else
    match SubGas (m_GasLimit msg) (gp st) with
    | inl e => (Some e, st)
    | inr pool =>
        (None, MkTransition pool (u64 (gasRemaining st + m_GasLimit msg)) (m_GasLimit msg)
                 (with_state (db_SubBalance (m_From msg) mgval s) (t_zvm st)))
    end.

(** The checks of the account *)
Definition check_account (msg : Message) (st : StateTransition) : option core_error * StateTransition :=
  if SkipAccountChecks msg then (None, st)
  else
    let '(stNonce, s) := db_GetNonce (m_From msg) (z_state (t_zvm st)) in
    let st := with_db s st in
    if stNonce <? m_Nonce msg then (Some ErrNonceTooHigh, st)
    else if m_Nonce msg <? stNonce then (Some ErrNonceTooLow, st)
    else if u64 (stNonce + 1) <? stNonce then (Some ErrNonceMax, st)
    else
      let '(codeHash, s) := db_GetCodeHash (m_From msg) s in
      let st := with_db s st in
      if negb (bool_decide (codeHash = zeroHash)) && negb (bool_decide (codeHash = EmptyCodeHash)) then (Some ErrSenderNoEOA, st)
      else (None, st).

(** The checks of the fees *)
Definition check_fees (msg : Message) : option core_error :=
  if negb NoBaseFee || (0 <? BitLen (m_GasFeeCap msg)) || (0 <? BitLen (m_GasTipCap msg)) then
    if 256 <? BitLen (m_GasFeeCap msg) then Some ErrFeeCapVeryHigh
    else if 256 <? BitLen (m_GasTipCap msg) then Some ErrTipVeryHigh
    else if m_GasFeeCap msg <? m_GasTipCap msg then Some ErrTipAboveFeeCap
    else if m_GasFeeCap msg <? BaseFee env then Some ErrFeeCapTooLow
    else None
  else None.

Definition preCheck (msg : Message) (st : StateTransition) : option core_error * StateTransition :=
  let '(err, st) := check_account msg st in
  match err with
  | Some e => (Some e, st)
  | None => match check_fees msg with Some e => (Some e, st) | None => buyGas msg st end
  end.

Definition gasUsed (st : StateTransition) : Z := u64 (initialGas st - gasRemaining st).

Definition refundGas (refundQuotient : Z) (msg : Message) (st : StateTransition) : outcome Empty_set StateTransition :=
  let refund := gasUsed st / refundQuotient in
  let s := z_state (t_zvm st) in
  let refund := if db_GetRefund s <? refund then db_GetRefund s else refund in
  let rem := u64 (gasRemaining st + refund) in
  let s := db_AddBalance (m_From msg) (rem * m_GasPrice msg) s in
  pool ← AddGas rem (gp st);
  Ok (MkTransition pool rem (initialGas st) (with_state s (t_zvm st))).

(** The machine runs the message: what it returned, and the gas left. *)
Definition run_message (msg : Message) (gas : Z) (z : ZVM SDB) : outcome Empty_set (bytes * Z * option vm_error * ZVM SDB) :=
  let sender := AccountRef (m_From msg) in
  match m_To msg with
  | None =>
      '(ret, _, gas, vmerr, z) ← Create env run sender (m_Data msg) gas (m_Value msg) z;
      Ok (ret, gas, vmerr, z)
  | Some to =>
      let '(nonce, s) := db_GetNonce (m_From msg) (z_state z) in
      let s := db_SetNonce (m_From msg) (u64 (nonce + 1)) s in
      Call env run sender to (m_Data msg) gas (m_Value msg) (with_state s z)
  end.

(** The fee of the producer *)
Definition pay_fee (msg : Message) (st : StateTransition) : StateTransition :=
  let effectiveTip := Z.min (m_GasTipCap msg) (m_GasFeeCap msg - BaseFee env) in
  if NoBaseFee && (m_GasFeeCap msg =? 0) && (m_GasTipCap msg =? 0) then st
  else with_db (db_AddBalance (Coinbase env) (gasUsed st * effectiveTip) (z_state (t_zvm st))) st.

(** The checks of a message, and its intrinsic gas *)
Definition accept_message (msg : Message) (st : StateTransition) : option core_error * StateTransition :=
  let '(err, st) := preCheck msg st in
  match err with
  | Some e => (Some e, st)
  | None =>
      let contractCreation := bool_decide (m_To msg = None) in
      match IntrinsicGas (m_Data msg) (m_AccessList msg) contractCreation with
      | inl e => (Some e, st)
      | inr gas =>
          if gasRemaining st <? gas then (Some ErrIntrinsicGas, st)
          else
            let st := MkTransition (gp st) (u64 (gasRemaining st - gas)) (initialGas st) (t_zvm st) in
            let '(can, s) := if 0 <? m_Value msg then CanTransfer (m_From msg) (m_Value msg) (z_state (t_zvm st)) else (true, z_state (t_zvm st)) in
            let st := with_db s st in
            if negb can then (Some ErrInsufficientFundsForTransfer, st)
            else if contractCreation && (MaxInitCodeSize <? len (m_Data msg)) then (Some TxErrMaxInitCodeSizeExceeded, st)
            else (None, st)
      end
  end.

(** A message that was accepted is run. *)
Definition perform_message (msg : Message) (st : StateTransition) : outcome Empty_set (bytes * Z * option vm_error * ZVM SDB) :=
  s ← db_Prepare (m_From msg) (Coinbase env) (m_To msg) ActivePrecompiles (m_AccessList msg) (z_state (t_zvm st));
  run_message msg (gasRemaining st) (with_state s (t_zvm st)).

(** What is left of the gas is paid back, and the producer is paid. *)
Definition settle_message (msg : Message) (ret : bytes) (vmerr : option vm_error) (st : StateTransition) : outcome Empty_set (ExecutionResult * StateTransition) :=
  st ← refundGas RefundQuotientEIP3529 msg st;
  let st := pay_fee msg st in
  Ok (MkResult (gasUsed st) vmerr ret, st).

Definition TransitionDb (msg : Message) (st : StateTransition)
    : outcome Empty_set ((core_error + ExecutionResult) * StateTransition) :=
  let '(err, st) := accept_message msg st in
  match err with
  | Some e => Ok (inl e, st)
  | None =>
      '(ret, gas, vmerr, z) ← perform_message msg st;
      '(res, st) ← settle_message msg ret vmerr (MkTransition (gp st) gas (initialGas st) z);
      Ok (inr res, st)
  end.

Definition ApplyMessage (msg : Message) (z : ZVM SDB) (pool : Z) := TransitionDb msg (NewStateTransition z pool).
End Transition.
