(* ===== verification/TxTypes.v ===== *)
(** * Transactions as data: core/types/transaction.go, tx_dynamic_fee.go, transaction_signing.go, hashing.go and TransactionToMessage

    A transaction holds the data of a DynamicFeeTx, its only kind.  The numbers of the
    data are set, as NewTx and the decoders set them.  The signature scheme is not part
    of the repository: the lengths of keys and signatures and the address of a key are
    parameters. *)

From S2P Require Import Prelude RlpRaw RlpEncode RlpStream RlpTyped TrieNode TrieStore TrieOps StateAccess State Header Uint256 VmAnalysis VmCore VmGas VmInstr VmInterp TxTransition.

Record DynamicFeeTx := MkDynamicFeeTx {
  tx_ChainID : Z;
  tx_Nonce : Z;
  tx_GasTipCap : Z;
  tx_GasFeeCap : Z;
  tx_Gas : Z;
  tx_To : option bytes;
  tx_Value : Z;
  tx_Data : bytes;
  tx_AccessList : list (bytes * list bytes);
  tx_PublicKey : bytes;
  tx_Signature : bytes
}.

Definition DynamicFeeTxType : Z := 0x02.

(** The errors of the package besides those of rlp *)
Inductive types_error :=
| errShortTypedTx | ErrTxTypeNotSupported | ErrInvalidChainId | ErrGasFeeCapTooLow | rlpError (e : rlp_error).

Definition of_rlp {A} (o : go A) : outcome types_error A :=
  match o with Ok x => Ok x | Err e => Err (rlpError e) | Panic => Panic | OutOfFuel => OutOfFuel end.

(** ** Encoding *)

(** The fields of structs as the encoder sees them; none is optional. *)
Definition struct_of (l : list rval) : rval := VStruct (map (fun x => (x, (false, false))) l).

Definition tuple_rval (t : bytes * list bytes) : rval := struct_of [VByteArray (fst t); VSlice false (map VByteArray (snd t))].

Definition tx_rval (tx : DynamicFeeTx) : rval :=
  struct_of [VBigPtr (Some (tx_ChainID tx)); VUint (tx_Nonce tx); VBigPtr (Some (tx_GasTipCap tx)); VBigPtr (Some (tx_GasFeeCap tx)); VUint (tx_Gas tx);
             VPtr KString (VByteArray <$> tx_To tx); VBigPtr (Some (tx_Value tx)); VBytes (tx_Data tx); VSlice false (map tuple_rval (tx_AccessList tx));
             VBytes (tx_PublicKey tx); VBytes (tx_Signature tx)].

(** The types of the fields *)
Definition tuple_type : rtype := TStruct [(TByteArray 20, false); (TSlice (TByteArray 32), false)].

Definition tx_type : rtype :=
  TStruct (map (fun t => (t, false)) [TBigPtr; TUint 8; TBigPtr; TBigPtr; TUint 8; TNilPtr KString (TByteArray 20); TBigPtr; TByteSlice; TSlice tuple_type; TByteSlice; TByteSlice]).

(** The fields that decoding set *)
Definition array_of (v : rval) : option bytes := match v with VByteArray b => Some b | _ => None end.

Definition tuple_of (v : rval) : option (bytes * list bytes) :=
  match v with
  | VStruct [(VByteArray a, _); (VSlice false keys, _)] => keys ← mapM array_of keys; Some (a, keys)
  | _ => None
  end.

Definition tx_of (v : rval) : option DynamicFeeTx :=
  match v with
  | VStruct [(VBigPtr (Some chain), _); (VUint nonce, _); (VBigPtr (Some tip), _); (VBigPtr (Some cap), _); (VUint gas, _); (VPtr _ to, _); (VBigPtr (Some value), _);
             (VBytes data, _); (VSlice false al, _); (VBytes pk, _); (VBytes sig, _)] =>
      to ← match to with Some a => Some <$> array_of a | None => Some None end;
      al ← mapM tuple_of al;
      Some (MkDynamicFeeTx chain nonce tip cap gas to value data al pk sig)
  | _ => None
  end.

(** encodeTyped into a bytes.Buffer that holds [w] *)
Definition encodeTyped (pooled : encBuffer) (tx : DynamicFeeTx) (w : bytes) : go bytes := Encode pooled (w ++ [DynamicFeeTxType]) (tx_rval tx).

Definition MarshalBinary (pooled : encBuffer) (tx : DynamicFeeTx) : go bytes := encodeTyped pooled tx [].

(** Transaction.EncodeRLP to a writer *)
Definition Transaction_EncodeRLP `{io_Writer W} (pooled : encBuffer) (tx : DynamicFeeTx) (w : W) : go W :=
  buf ← encodeTyped pooled tx [];
  Encode pooled w (VBytes buf).

Definition DynamicFeeTx_decode (pooled : Stream) (input : bytes) : outcome types_error DynamicFeeTx :=
  v ← of_rlp (DecodeBytes_into pooled tx_type input);
  match tx_of v with Some tx => Ok tx | None => Panic end.

Definition decodeTyped (pooled : Stream) (b : bytes) : outcome types_error DynamicFeeTx :=
  if len b <=? 1 then Err errShortTypedTx
  else if negb (nth 0 b 0 =? DynamicFeeTxType) then Err ErrTxTypeNotSupported
  else DynamicFeeTx_decode pooled (drop 1 b).

Definition UnmarshalBinary (pooled : Stream) (b : bytes) : outcome types_error DynamicFeeTx := decodeTyped pooled b.

(** ** Hashes *)

Definition prefixedRlpHash `{Hasher} (pooled : encBuffer) (prefix : Z) (x : rval) : go bytes :=
  match Encode pooled ([prefix] : bytes) x with
  | Ok written => Ok (sum256 written)
  | Err _ => Ok (sum256 [prefix])
  | Panic => Panic
  | OutOfFuel => OutOfFuel
  end.

Definition Transaction_Hash `{Hasher} (pooled : encBuffer) (tx : DynamicFeeTx) : go bytes := prefixedRlpHash pooled DynamicFeeTxType (tx_rval tx).

(** ** Prices *)

Definition effectiveGasPrice (tx : DynamicFeeTx) (baseFee : option Z) : Z :=
  match baseFee with
  | None => tx_GasFeeCap tx
  | Some baseFee =>
      let tip := tx_GasFeeCap tx - baseFee in
      let tip := if tx_GasTipCap tx <? tip then tx_GasTipCap tx else tip in
      tip + baseFee
  end.

Definition EffectiveGasTip (tx : DynamicFeeTx) (baseFee : option Z) : Z * option types_error :=
  match baseFee with
  | None => (tx_GasTipCap tx, None)
  | Some baseFee =>
      let err := if tx_GasFeeCap tx <? baseFee then Some ErrGasFeeCapTooLow else None in
      (Z.min (tx_GasTipCap tx) (tx_GasFeeCap tx - baseFee), err)
  end.

Definition Transaction_Cost (tx : DynamicFeeTx) : Z := tx_GasFeeCap tx * tx_Gas tx + tx_Value tx.

(** ** Signers *)

Section Signers.
  Context (DilithiumPublicKeyLength DilithiumSignatureLength : Z) (GetDilithiumAddressFromPK : bytes → bytes).

(** copy into an array of [n] zeros *)
Definition fill (n : Z) (b : bytes) : bytes := take (Z.to_nat n) b ++ repeat 0 (Z.to_nat n - length b).

Definition DilithiumPKToAddress (publicKey : bytes) : bytes := GetDilithiumAddressFromPK (fill DilithiumPublicKeyLength publicKey).

(** DynamicFeeTx.copy *)
Definition tx_copy (tx : DynamicFeeTx) : DynamicFeeTx :=
  MkDynamicFeeTx (tx_ChainID tx) (tx_Nonce tx) (tx_GasTipCap tx) (tx_GasFeeCap tx) (tx_Gas tx) (tx_To tx) (tx_Value tx) (tx_Data tx) (tx_AccessList tx)
    (fill DilithiumPublicKeyLength (tx_PublicKey tx)) (fill DilithiumSignatureLength (tx_Signature tx)).

Definition setSignatureAndPublicKeyValues (chainID : Z) (signature publicKey : bytes) (tx : DynamicFeeTx) : DynamicFeeTx :=
  MkDynamicFeeTx chainID (tx_Nonce tx) (tx_GasTipCap tx) (tx_GasFeeCap tx) (tx_Gas tx) (tx_To tx) (tx_Value tx) (tx_Data tx) (tx_AccessList tx) publicKey signature.

(** A ShanghaiSigner is its chain id. *)
Definition ShanghaiSigner_Sender (chainId : Z) (tx : DynamicFeeTx) : outcome types_error bytes :=
  if negb (tx_ChainID tx =? chainId) then Err ErrInvalidChainId
  else Ok (DilithiumPKToAddress (tx_PublicKey tx)).

(** Sender with the cache of the transaction: the signer it was filled by and the address *)
Definition Sender (signer : Z) (tx : DynamicFeeTx) (from : option (Z * bytes)) : outcome types_error bytes * option (Z * bytes) :=
  let miss :=
    match ShanghaiSigner_Sender signer tx with
    | Ok addr => (Ok addr, Some (signer, addr))
    | o => (o, from)
    end in
  match from with
  | Some (s, addr) => if signer =? s then (Ok addr, from) else miss
  | None => miss
  end.

Definition decodeSignature {E} (sig : bytes) : outcome E bytes := if negb (len sig =? DilithiumSignatureLength) then Panic else Ok (fill DilithiumSignatureLength sig).

Definition decodePublicKey {E} (pk : bytes) : outcome E bytes := if negb (len pk =? DilithiumPublicKeyLength) then Panic else Ok (fill DilithiumPublicKeyLength pk).

Definition SignatureAndPublicKeyValues (chainId : Z) (tx : DynamicFeeTx) (sig pk : bytes) : outcome types_error (bytes * bytes) :=
  if negb (tx_ChainID tx =? 0) && negb (tx_ChainID tx =? chainId) then Err ErrInvalidChainId
  else
    signature ← decodeSignature sig;
    publicKey ← decodePublicKey pk;
    Ok (signature, publicKey).

Definition WithSignatureAndPublicKey (signer : Z) (sig pk : bytes) (tx : DynamicFeeTx) : outcome types_error DynamicFeeTx :=
  '(signature, publicKey) ← SignatureAndPublicKeyValues signer tx sig pk;
  Ok (setSignatureAndPublicKeyValues signer signature publicKey (tx_copy tx)).

(** The hash that is signed; the values are held in interfaces. *)
Definition ShanghaiSigner_Hash `{Hasher} (pooled : encBuffer) (chainId : Z) (tx : DynamicFeeTx) : go bytes :=
  prefixedRlpHash pooled DynamicFeeTxType
    (VSlice false (map (fun v => VInterface (Some v))
      [VBigPtr (Some chainId); VUint (tx_Nonce tx); VBigPtr (Some (tx_GasTipCap tx)); VBigPtr (Some (tx_GasFeeCap tx)); VUint (tx_Gas tx);
       VPtr KString (VByteArray <$> tx_To tx); VBigPtr (Some (tx_Value tx)); VBytes (tx_Data tx); VSlice false (map tuple_rval (tx_AccessList tx))])).

(** SignTx with a signing function *)
Definition SignTx `{Hasher} (pooled : encBuffer) (sign : bytes → outcome types_error bytes) (pk : bytes) (signer : Z) (tx : DynamicFeeTx) : outcome types_error DynamicFeeTx :=
  if negb (tx_ChainID tx =? 0) && negb (tx_ChainID tx =? signer) then Err ErrInvalidChainId
  else
    h ← of_rlp (ShanghaiSigner_Hash pooled signer tx);
    sig ← sign h;
    WithSignatureAndPublicKey signer sig pk tx.

(** TransactionToMessage: the message, or the error of the sender *)
Definition TransactionToMessage (tx : DynamicFeeTx) (signer : Z) (from : option (Z * bytes)) (baseFee : option Z) : outcome types_error Message * option (Z * bytes) :=
  let price := match baseFee with Some b => Z.min (tx_GasTipCap tx + b) (tx_GasFeeCap tx) | None => tx_GasFeeCap tx end in
  let '(o, from) := Sender signer tx from in
  ((a ← o; Ok (MkMessage (tx_To tx) a (tx_Nonce tx) (tx_Value tx) (tx_Gas tx) price (tx_GasFeeCap tx) (tx_GasTipCap tx) (tx_Data tx) (tx_AccessList tx) false)), from).
End Signers.

(** ** Values of transactions *)

Lemma tuple_type_ok : rtype_ok tuple_type.
Proof. split; [done |]. split; [by repeat constructor |]. exists [(TByteArray 20, false); (TSlice (TByteArray 32), false)], []. split_and!; [done | by repeat constructor | constructor]. Qed.

Lemma required_ok l : Forall rtype_ok l → rtype_ok (TStruct (map (fun t => (t, false)) l)).
Proof.
  intros Hl. split; [| split].
  - induction Hl as [| t l Ht _ IH]; [done |]. by split.
  - apply Forall_map, Forall_forall. done.
  - exists (map (fun t => (t, false)) l), []. split_and!; [by rewrite app_nil_r | apply Forall_map, Forall_forall; done | constructor].
Qed.

Lemma tx_type_ok : rtype_ok tx_type.
Proof. apply required_ok. pose proof tuple_type_ok. repeat (apply Forall_cons; split; [done |]). done. Qed.

Lemma arrays_typed n l : Forall (fun k : bytes => length k = n) l ↔ Forall (typed (TByteArray n)) (map VByteArray l).
Proof. by rewrite Forall_map. Qed.

Lemma arrays_of l : Forall (typed (TByteArray 32)) l → ∃ keys, l = map VByteArray keys ∧ Forall (fun k => length k = 32%nat) keys.
Proof.
  induction 1 as [| v l Hv _ (keys & -> & Hk)]; [by exists [] |]. destruct v; try done. exists (b :: keys). split; [done |]. by constructor.
Qed.

Lemma tuple_typed t : typed tuple_type (tuple_rval t) ↔ length (fst t) = 20%nat ∧ Forall (fun k => length k = 32%nat) (snd t).
Proof.
  unfold tuple_rval, struct_of. split.
  - intros Hv. apply required_typed in Hv as (l & E & Hl); [| by repeat constructor]. cbn [map] in E. inversion Hl as [| ? x ? l' Hx Hl']; subst. inversion Hl' as [| ? y ? l'' Hy Hl'']; subst.
    inversion Hl''; subst. cbn [map] in E. injection E as <- <-. split; [done |]. by apply arrays_typed.
  - intros [H1 H2]. apply required_typed; [by repeat constructor |]. eexists. split; [reflexivity |]. constructor; [done |]. constructor; [| constructor]. by apply arrays_typed.
Qed.

Lemma tuple_of_typed v : typed tuple_type v → ∃ t, v = tuple_rval t.
Proof.
  destruct v as [| | | | | | | | | | vs |]; try done. intros Hv. apply required_typed in Hv as (l & -> & Hl); [| by repeat constructor].
  inversion Hl as [| ? x ? l' Hx Hl']; subst. inversion Hl' as [| ? y ? l'' Hy Hl'']; subst. inversion Hl''; subst. cbn [fst] in Hx, Hy.
  destruct x; try done. destruct y; try done. destruct tail; [done |]. destruct (arrays_of _ Hy) as (keys & -> & _). by exists (b, keys).
Qed.

Lemma tuples_of_typed l : Forall (typed tuple_type) l → ∃ al, l = map tuple_rval al.
Proof. induction 1 as [| v l Hv _ (al & ->)]; [by exists [] |]. destruct (tuple_of_typed v Hv) as [t ->]. by exists (t :: al). Qed.

Lemma mapM_array keys : mapM array_of (map VByteArray keys) = Some keys.
Proof. induction keys as [| k keys IH]; [done |]. cbn in *. by rewrite IH. Qed.

Lemma mapM_tuple al : mapM tuple_of (map tuple_rval al) = Some al.
Proof.
  induction al as [| [a keys] al IH]; [done |]. cbn [map mapM]. change (mapM tuple_of (tuple_rval (a, keys) :: map tuple_rval al)) with (t ← tuple_of (tuple_rval (a, keys)); l ← mapM tuple_of (map tuple_rval al); Some (t :: l)).
  rewrite IH. cbn. by rewrite mapM_array.
Qed.

Lemma tx_of_rval tx : tx_of (tx_rval tx) = Some tx.
Proof. destruct tx as [c n tip cap g [to |] v d al pk sg]; unfold tx_rval, struct_of; cbn [map tx_of fmap option_fmap option_map array_of mbind option_bind tx_AccessList]; by rewrite mapM_tuple. Qed.

(** The conditions on the fields of a transaction *)
Definition fields_ok (tx : DynamicFeeTx) : Prop :=
  (0 <= tx_ChainID tx ∧ 0 <= tx_GasTipCap tx ∧ 0 <= tx_GasFeeCap tx ∧ 0 <= tx_Value tx) ∧ 0 <= tx_Nonce tx < 2 ^ 64 ∧ 0 <= tx_Gas tx < 2 ^ 64 ∧
  (∀ a, tx_To tx = Some a → length a = 20%nat) ∧
  Forall (fun t => length (fst t) = 20%nat ∧ Forall (fun k => length k = 32%nat) (snd t)) (tx_AccessList tx).

Lemma address_pointer_typed to : typed (TNilPtr KString (TByteArray 20)) (VPtr KString (VByteArray <$> to)) ↔ ∀ a, to = Some a → length a = 20%nat.
Proof.
  destruct to as [a |]; cbn [fmap option_fmap option_map typed]; [| by split; [intros _ a |]]. split; [intros (_ & Ha & _) b [= <-]; done |]. intros Ha. specialize (Ha a eq_refl).
  assert (E : enc_val (VByteArray a) = head 0x80 0xB7 20 ++ a).
  { unfold enc_val. cbn. unfold enc_string. destruct (single_byte a) eqn:Es; [destruct a as [| x [|]]; done |]. by rewrite Ha. }
  split_and!; [done | done | |]; rewrite E; intros Hc; apply (f_equal length) in Hc; rewrite length_app, Ha in Hc; cbn in Hc; lia.
Qed.

Lemma access_typed al : Forall (fun t => length (fst t) = 20%nat ∧ Forall (fun k => length k = 32%nat) (snd t)) al ↔ Forall (typed tuple_type) (map tuple_rval al).
Proof. rewrite Forall_map. split; intros H; apply (Forall_impl _ _ _ H); intros t; apply tuple_typed. Qed.

Lemma tx_typed tx : typed tx_type (tx_rval tx) ↔ fields_ok tx.
Proof.
  assert (Hreq : Forall (fun f : rtype * bool => snd f = false) (map (fun t => (t, false)) [TBigPtr; TUint 8; TBigPtr; TBigPtr; TUint 8; TNilPtr KString (TByteArray 20); TBigPtr; TByteSlice; TSlice tuple_type; TByteSlice; TByteSlice]))
    by (apply Forall_map, Forall_forall; done).
  unfold tx_rval, struct_of, tx_type, fields_ok. change (256 ^ 8) with (2 ^ 64) in *. split.
  - intros Hv. apply (required_typed _ _ Hreq) in Hv as (l & E & Hl). apply (f_equal (map fst)) in E. rewrite !flagged_fst in E. subst l.
    repeat match goal with H : Forall2 _ (map _ (_ :: _)) _ |- _ => cbn [map] in H | H : Forall2 _ (_ :: _) (_ :: _) |- _ => apply Forall2_cons in H as [? H] end. cbn [fst] in *.
    repeat match goal with H : typed (TUint 8) (VUint ?n) |- _ => change (0 <= n < 2 ^ 64) in H end.
    rewrite access_typed, <- address_pointer_typed. split_and!; done || lia.
  - intros ((H1 & H2 & H3 & H4) & H5 & H6 & H7 & H8). apply (required_typed _ _ Hreq). eexists. split; [reflexivity |].
    cbn [map]. repeat (apply Forall2_cons; split; [try done; cbn [fst] |]); try done; [by apply address_pointer_typed | by apply access_typed].
Qed.

Lemma typed_tx v : typed tx_type v → ∃ tx, v = tx_rval tx ∧ fields_ok tx.
Proof.
  intros Hv. assert (Hx : ∃ tx, v = tx_rval tx); [| destruct Hx as [tx ->]; exists tx; split; [done | by apply tx_typed]].
  destruct v as [| | | | | | | | | | vs |]; try done. apply required_typed in Hv as (l & -> & Hl); [| apply Forall_map, Forall_forall; done].
  cbn [map] in Hl. do 11 (apply Forall2_cons_inv_l in Hl as (? & ? & ? & Hl & ->)). apply Forall2_nil_inv_l in Hl as ->. cbn [fst] in *.
  repeat match goal with
  | H : typed TBigPtr ?x |- _ => destruct x as [| [?|] | | | | | | | | | |]; try done; clear H
  | H : typed (TUint 8) ?x |- _ => destruct x; try done; clear H
  | H : typed TByteSlice ?x |- _ => destruct x; try done; clear H
  | H : typed (TSlice tuple_type) ?x |- _ => destruct x as [| | | | | | | | | [|] ? | |]; try done; apply tuples_of_typed in H as [? ->]
  end.
  destruct x4 as [| | | k' [y |] | | | | | | | |]; try done; cbn [typed] in H4.
  - destruct H4 as (-> & H4 & _). destruct y; try done. eexists (MkDynamicFeeTx _ _ _ _ _ (Some _) _ _ _ _ _). reflexivity.
  - subst k'. eexists (MkDynamicFeeTx _ _ _ _ _ None _ _ _ _ _). reflexivity.
Qed.

(** A transaction that a program can hold: its encoding is made of bytes and fits a slice. *)
Definition tx_ok (tx : DynamicFeeTx) : Prop :=
  fields_ok tx ∧ bytes_ok (enc_val (tx_rval tx)) ∧ slice_len (DynamicFeeTxType :: enc_val (tx_rval tx)).

Lemma Encode_tx pooled tx w : length (sizebuf pooled) = 9%nat → tx_ok tx → Encode pooled (w : bytes) (tx_rval tx) = Ok (w ++ enc_val (tx_rval tx)).
Proof.
  intros Hs (Hf & Hb & Hl). rewrite len_cons in Hl. apply tx_typed in Hf. apply Encode_buffer; [done | | by apply (typed_encodes tx_type tx_type_ok)].
  apply (typed_rval_ok tx_type tx_type_ok); [done | done | lia].
Qed.

(** ** Theorems *)

(** C18.  The wire format of transactions is exact: UnmarshalBinary accepts an input and
    gives a transaction precisely when MarshalBinary writes that input for it, so no
    transaction has two encodings; and it always returns. *)
Theorem UnmarshalBinary_exact pooled stream b :
  length (sizebuf pooled) = 9%nat → bytes_ok b → slice_len b →
  (∀ tx, UnmarshalBinary stream b = Ok tx ↔ tx_ok tx ∧ MarshalBinary pooled tx = Ok b) ∧ returns (UnmarshalBinary stream b).
Proof.
  intros Hs Hb Hl. unfold UnmarshalBinary, decodeTyped, DynamicFeeTx_decode, MarshalBinary, encodeTyped. cbn [app].
  assert (Hback : ∀ tx, tx_ok tx → Encode pooled [DynamicFeeTxType] (tx_rval tx) = Ok b → b = DynamicFeeTxType :: enc_val (tx_rval tx) ∧ DecodeBytes_into stream tx_type (enc_val (tx_rval tx)) = Ok (tx_rval tx)).
  { intros tx Htx E. rewrite (Encode_tx pooled tx _ Hs Htx) in E. injection E as <-. split; [done |]. clear Hb Hl. destruct Htx as (Hf & Hb' & Hl'). rewrite len_cons in Hl'.
    apply (DecodeBytes_into_spec stream tx_type); [apply tx_type_ok | done | lia |]. apply tx_typed in Hf. split; [done | by apply (typed_encodes tx_type tx_type_ok)]. }
  destruct b as [| x [| y b]].
  - split; [| done]. intros tx. split; [done |]. intros [Htx E]. by destruct (Hback tx Htx E).
  - split; [| done]. intros tx. split; [done |]. intros [Htx E]. destruct (Hback tx Htx E) as [[= _ E2] _]. symmetry in E2. destruct Htx as (Hf & _). apply tx_typed in Hf.
    pose proof (ed_pos _ _ _ _ (decoder_exact 0 tx_type tx_type_ok) _ Hf) as Hp. by rewrite E2 in Hp.
  - rewrite !len_cons. rewrite (proj2 (Z.leb_gt _ 1)) by lia. cbn [nth drop] in *. destruct (negb (x =? DynamicFeeTxType)) eqn:Ex; zb.
    { split; [| done]. intros tx. split; [done |]. intros [Htx E]. destruct (Hback tx Htx E) as [[= -> _] _]. done. }
    subst x. apply Forall_cons in Hb as [_ Hb]. rewrite !len_cons in Hl.
    assert (Hl' : slice_len (y :: b)) by (rewrite len_cons; lia).
    assert (Hdec : ∀ v, DecodeBytes_into stream tx_type (y :: b) = Ok v → ∃ tx, v = tx_rval tx ∧ tx_ok tx ∧ enc_val (tx_rval tx) = y :: b).
    { intros v E. apply (DecodeBytes_into_spec stream tx_type _ _ tx_type_ok Hb Hl') in E as [Hv E]. destruct (typed_tx v Hv) as (tx & -> & Hf). exists tx. apply enc_val_ok in E.
      split_and!; [done | | done]. split_and!; [done | by rewrite E | rewrite E, !len_cons; lia]. }
    assert (Hret : returns (DecodeBytes_into stream tx_type (y :: b))).
    { by apply (DecodeBytes_into_returns (K := nilable)); [apply tx_type_ok | |]. }
    split.
    + intros tx. split.
      * destruct (DecodeBytes_into stream tx_type (y :: b)) as [v | e | |]; try done. destruct (Hdec v eq_refl) as (tx' & -> & Htx & E). cbn [of_rlp mbind outcome_bind]. rewrite tx_of_rval.
        intros [= ->]. split; [done |]. by rewrite (Encode_tx pooled tx _ Hs Htx), E.
      * intros [Htx E]. destruct (Hback tx Htx E) as [[= Eb] ED]. rewrite Eb, ED. cbn [of_rlp mbind outcome_bind]. by rewrite tx_of_rval.
    + destruct (DecodeBytes_into stream tx_type (y :: b)) as [v | e | |]; try done. destruct (Hdec v eq_refl) as (tx' & -> & _). cbn [of_rlp mbind outcome_bind]. by rewrite tx_of_rval.
Qed.

(** A transaction is known by its hash: two transactions with the same hash have
    the same fields when the hash function does not send their encodings to one value. *)
Theorem Transaction_Hash_identifies `{Hasher} pooled tx1 tx2 :
  length (sizebuf pooled) = 9%nat → tx_ok tx1 → tx_ok tx2 →
  (sum256 (DynamicFeeTxType :: enc_val (tx_rval tx1)) = sum256 (DynamicFeeTxType :: enc_val (tx_rval tx2)) → enc_val (tx_rval tx1) = enc_val (tx_rval tx2)) →
  Transaction_Hash pooled tx1 = Transaction_Hash pooled tx2 → tx1 = tx2.
Proof.
  intros Hs H1 H2 Hinj. unfold Transaction_Hash, prefixedRlpHash. rewrite !Encode_tx by done. intros [= E%Hinj]. destruct H1 as (F1 & Hb & Hl), H2 as (F2 & _). rewrite len_cons in Hl.
  apply tx_typed in F1, F2. pose proof (typed_encodes tx_type tx_type_ok _ F1) as E1. pose proof (typed_encodes tx_type tx_type_ok _ F2) as E2. rewrite <- E in E2.
  pose proof (proj2 (DecodeBytes_into_spec zero_stream tx_type _ (tx_rval tx1) tx_type_ok Hb ltac:(lia)) (conj F1 E1)) as D1.
  pose proof (proj2 (DecodeBytes_into_spec zero_stream tx_type _ (tx_rval tx2) tx_type_ok Hb ltac:(lia)) (conj F2 E2)) as D2.
  assert (Er : tx_rval tx1 = tx_rval tx2) by congruence. apply (f_equal tx_of) in Er. rewrite !tx_of_rval in Er. congruence.
Qed.

Section SignerTheorems.
  Context (pkLen sigLen : Z) (addressOf : bytes → bytes).

(** What the cache of a transaction may hold *)
Definition cache_ok (tx : DynamicFeeTx) (from : option (Z * bytes)) : Prop :=
  ∀ s a, from = Some (s, a) → ShanghaiSigner_Sender pkLen addressOf s tx = Ok a.

(** C37.  The sender of a transaction is the address of the public key that it carries,
    for the signer of its chain, and an error for any other; the cached sender is the
    one that is computed.  The signature is not looked at: with any signature the
    sender, and the message that is run, are the same. *)
Theorem Sender_exact signer tx from sig :
  cache_ok tx from →
  let '(o, from') := Sender pkLen addressOf signer tx from in
  o = (if tx_ChainID tx =? signer then Ok (DilithiumPKToAddress pkLen addressOf (tx_PublicKey tx)) else Err ErrInvalidChainId) ∧ cache_ok tx from' ∧
  ∀ baseFee, TransactionToMessage pkLen addressOf (setSignatureAndPublicKeyValues (tx_ChainID tx) sig (tx_PublicKey tx) tx) signer None baseFee =
             TransactionToMessage pkLen addressOf tx signer None baseFee.
Proof.
  intros Hc. assert (E : ShanghaiSigner_Sender pkLen addressOf signer tx =
    if tx_ChainID tx =? signer then Ok (DilithiumPKToAddress pkLen addressOf (tx_PublicKey tx)) else Err ErrInvalidChainId) by (unfold ShanghaiSigner_Sender; by destruct (tx_ChainID tx =? signer)).
  unfold Sender. assert (Hmiss : ∀ a, ShanghaiSigner_Sender pkLen addressOf signer tx = Ok a → cache_ok tx (Some (signer, a))) by (by intros a Ha s b [= <- <-]).
  destruct from as [[s a] |]; [destruct (signer =? s) eqn:Es; zb |].
  - subst s. rewrite <- E, (Hc signer a eq_refl). done.
  - rewrite <- E. destruct (ShanghaiSigner_Sender pkLen addressOf signer tx) as [b | e | |] eqn:Eb; done || by split_and!; [| apply Hmiss |].
  - rewrite <- E. destruct (ShanghaiSigner_Sender pkLen addressOf signer tx) as [b | e | |] eqn:Eb; done || by split_and!; [| apply Hmiss |].
Qed.

(** The price that a message pays is the effective gas price of its transaction,
    the tip is the rest over the base fee, and Cost bounds what gas and value can cost. *)
Theorem message_price tx signer from b msg from' :
  TransactionToMessage pkLen addressOf tx signer from (Some b) = (Ok msg, from') →
  m_GasPrice msg = effectiveGasPrice tx (Some b) ∧ m_GasPrice msg = b + fst (EffectiveGasTip tx (Some b)) ∧
  (snd (EffectiveGasTip tx (Some b)) = None ↔ b <= tx_GasFeeCap tx) ∧
  (0 <= tx_Gas tx → m_GasLimit msg * m_GasPrice msg + m_Value msg <= Transaction_Cost tx).
Proof.
  unfold TransactionToMessage. destruct (Sender pkLen addressOf signer tx from) as [[a | e | |] from1]; cbn [mbind outcome_bind]; try done. intros [= <- <-].
  cbn [m_GasPrice m_GasLimit m_Value]. unfold effectiveGasPrice, EffectiveGasTip, Transaction_Cost. cbn [fst snd]. split_and!.
  - case_if; lia.
  - lia.
  - case_if; split; (done || lia).
  - intros Hg. pose proof (Z.mul_le_mono_nonneg_l (Z.min (tx_GasTipCap tx + b) (tx_GasFeeCap tx)) (tx_GasFeeCap tx) (tx_Gas tx) Hg ltac:(lia)). lia.
Qed.

(** Signing a transaction changes its chain id, key and signature only: the hash
    that was signed is the one that the signed transaction has, and its sender is the
    address of the signing key. *)
Theorem SignTx_Sender `{Hasher} pooled sign pk signer tx tx' :
  SignTx pkLen sigLen pooled sign pk signer tx = Ok tx' →
  Sender pkLen addressOf signer tx' None = (Ok (DilithiumPKToAddress pkLen addressOf pk), Some (signer, DilithiumPKToAddress pkLen addressOf pk)) ∧
  ShanghaiSigner_Hash pooled signer tx' = ShanghaiSigner_Hash pooled signer tx ∧
  (∃ h sig, ShanghaiSigner_Hash pooled signer tx = Ok h ∧ sign h = Ok sig ∧ tx_Signature tx' = sig) ∧
  tx' = setSignatureAndPublicKeyValues signer (tx_Signature tx') pk tx.
Proof.
  assert (Hfill : ∀ n (b : bytes), len b = n → fill n b = b).
  { intros n b Hb. unfold fill. rewrite <- Hb, Nat2Z.id, firstn_all, Nat.sub_diag. by rewrite app_nil_r. }
  unfold SignTx, WithSignatureAndPublicKey, SignatureAndPublicKeyValues, decodeSignature, decodePublicKey. case_if; [done |].
  destruct (ShanghaiSigner_Hash pooled signer tx) as [h | e | |] eqn:Eh; cbn [of_rlp mbind outcome_bind]; try done.
  destruct (sign h) as [sig | e | |] eqn:Es; cbn [mbind outcome_bind]; try done.
  destruct (negb (len sig =? sigLen)) eqn:E1; zb; cbn [mbind outcome_bind]; [done |]. destruct (negb (len pk =? pkLen)) eqn:E2; zb; cbn [mbind outcome_bind]; [done |].
  intros [= <-]. rewrite !(Hfill _ _ E1), !(Hfill _ _ E2). unfold Sender, ShanghaiSigner_Sender. cbn [tx_ChainID tx_PublicKey setSignatureAndPublicKeyValues]. rewrite Z.eqb_refl. cbn [negb].
  split_and!; [done | exact Eh | by exists h, sig | done].
Qed.
End SignerTheorems.

(** ** A transaction for examples *)

Definition demo_tx (nonce : Z) : DynamicFeeTx :=
  MkDynamicFeeTx 1 nonce 2 20 60000 (Some (repeat 7 20)) 5 [1; 0] [(repeat 8 20, [repeat 9 32])] [1; 2; 3] [4; 5].

Definition demo_key_address (pk : bytes) : bytes := take 20 (pk ++ repeat 0 20).

Lemma demo_tx_ok n : n = 3 ∨ n = 4 → tx_ok (demo_tx n).
Proof.
  intros Hn. split; [split_and!; try done; [destruct Hn; subst; done.. | by intros a [= <-] | by repeat constructor] |].
  destruct Hn as [-> | ->]; (split; [solve_bytes | vm_compute; reflexivity]).
Qed.

Lemma UnmarshalBinary_exact_witness : ∃ b, MarshalBinary (EncBuffer [] [] 0 (repeat 0 9)) (demo_tx 3) = Ok b ∧ UnmarshalBinary zero_stream b = Ok (demo_tx 3).
Proof.
  exists (DynamicFeeTxType :: enc_val (tx_rval (demo_tx 3))).
  assert (E : MarshalBinary (EncBuffer [] [] 0 (repeat 0 9)) (demo_tx 3) = Ok (DynamicFeeTxType :: enc_val (tx_rval (demo_tx 3)))) by (vm_compute; reflexivity).
  split; [exact E |].
  destruct (UnmarshalBinary_exact (EncBuffer [] [] 0 (repeat 0 9)) zero_stream (DynamicFeeTxType :: enc_val (tx_rval (demo_tx 3))) eq_refl ltac:(solve_bytes) ltac:(vm_compute; reflexivity)) as [H _].
  destruct (H (demo_tx 3)) as [_ H2]. apply H2. split; [apply demo_tx_ok; by left | exact E].
Defined.

Lemma Transaction_Hash_identifies_witness : @Transaction_Hash toy_hash (EncBuffer [] [] 0 (repeat 0 9)) (demo_tx 3) ≠ @Transaction_Hash toy_hash (EncBuffer [] [] 0 (repeat 0 9)) (demo_tx 4).
Proof.
  intros E. assert (Hne : demo_tx 3 ≠ demo_tx 4) by done. apply Hne.
  apply (@Transaction_Hash_identifies toy_hash (EncBuffer [] [] 0 (repeat 0 9)) (demo_tx 3) (demo_tx 4) eq_refl (demo_tx_ok 3 ltac:(by left)) (demo_tx_ok 4 ltac:(by right))); [| exact E].
  intros Es. vm_compute in Es. discriminate Es.
Defined.

Lemma Sender_exact_witness : fst (Sender 3 demo_key_address 1 (demo_tx 3) None) = Ok (demo_key_address [1; 2; 3]).
Proof.
  pose proof (Sender_exact 3 demo_key_address 1 (demo_tx 3) None [] ltac:(by intros s a)) as H. destruct (Sender 3 demo_key_address 1 (demo_tx 3) None) as [o f]. destruct H as [H _]. exact H.
Defined.

Lemma message_price_witness : ∃ msg from, TransactionToMessage 3 demo_key_address (demo_tx 3) 1 None (Some 7) = (Ok msg, from) ∧ m_GasPrice msg = 9.
Proof.
  eexists _, _. split; [reflexivity |]. exact (proj1 (message_price 3 demo_key_address (demo_tx 3) 1 None 7 _ _ eq_refl)).
Defined.

Lemma SignTx_Sender_witness : ∃ tx', @SignTx 3 2 toy_hash (EncBuffer [] [] 0 (repeat 0 9)) (fun _ => Ok [6; 7]) [1; 1; 1] 1 (demo_tx 3) = Ok tx' ∧ fst (Sender 3 demo_key_address 1 tx' None) = Ok (demo_key_address [1; 1; 1]).
Proof.
  assert (E : @SignTx 3 2 toy_hash (EncBuffer [] [] 0 (repeat 0 9)) (fun _ => Ok [6; 7]) [1; 1; 1] 1 (demo_tx 3) =
    Ok (setSignatureAndPublicKeyValues 1 [6; 7] [1; 1; 1] (demo_tx 3))) by (vm_compute; reflexivity).
  eexists. split; [exact E |]. destruct (@SignTx_Sender 3 2 demo_key_address toy_hash _ _ _ _ _ _ E) as [H _]. by rewrite H.
Defined.
