(* ===== verification/TxSpec.v ===== *)
(** * What the processing of a transaction promises

    The cost of a message's data is exact; a message is refused before anything
    changed or accepted; an accepted message ends, gives back to the pool the gas it
    did not use, and burns the base fee of the gas it used and nothing else. *)

From S2P Require Import Prelude RlpRaw RlpEncode TrieNode TrieStore TrieOps TrieHash StateAccess State StateWorld StateSupply StateRevert StateSpec StatePrepare Uint256 VmAnalysis VmCore VmGas VmInstr VmInterp VmLaws VmInv VmMemory VmSafeOps VmSafeCalls VmFuel VmSpec TxTransition.

(** ** The cost of data *)

Lemma charge_exact price n gas :
  0 < price → 0 <= n → 0 <= gas <= MaxUint64 →
  charge price n gas = if MaxUint64 <? gas + n * price then inl TxErrGasUintOverflow else inr (gas + n * price).
Proof.
  intros Hp Hn Hg. unfold charge. pose proof (Z.mul_nonneg_nonneg n price ltac:(lia) ltac:(lia)).
  assert (E : ((MaxUint64 - gas) / price <? n) = (MaxUint64 <? gas + n * price)).
  { apply eq_true_iff_eq. rewrite !Z.ltb_lt. split; intros Hlt; [| apply Z.div_lt_upper_bound; lia].
    apply Z.lt_nge. intros Hge. apply (Z.div_le_lower_bound (MaxUint64 - gas) price n) in Hp; lia. }
  rewrite E. case_if; zb; [done |]. unfold MaxUint64 in *. by rewrite (u64_id (n * price)), u64_id by lia.
Qed.

(** What the data costs, in unbounded numbers *)
Definition data_cost (data : bytes) (creation : bool) : Z :=
  (if creation then 53000 + 2 * ((len data + 31) / 32) else 21000) + 16 * nonzero data + 4 * (len data - nonzero data).

Definition access_cost (al : list (bytes * list bytes)) : Z := 2400 * len al + 1900 * StorageKeys al.

Lemma nonzero_range data : 0 <= nonzero data <= len data.
Proof. unfold nonzero. pose proof (length_filter (fun b => b ≠ 0) data). lia. Qed.

Lemma StorageKeys_nonneg al : 0 <= StorageKeys al.
Proof. unfold StorageKeys. induction al as [| e al IH]; cbn; lia. Qed.

Lemma access_wraps g al : u64 (u64 (g + u64 (len al * 2400)) + u64 (StorageKeys al * 1900)) = u64 (g + access_cost al).
Proof. unfold u64, access_cost. rewrite Zplus_mod_idemp_l, Zplus_mod_idemp_r, <- Zplus_mod_idemp_l, Zplus_mod_idemp_r, Zplus_mod_idemp_l. f_equal. lia. Qed.

Lemma core_toWordSize_exact n : 0 <= n < 2 ^ 63 → core_toWordSize n = (n + 31) / 32.
Proof. intros Hn. unfold core_toWordSize, MaxUint64. case_if; zb; [lia | done]. Qed.

Lemma IntrinsicGas_cost data al creation :
  len data < 2 ^ 63 →
  IntrinsicGas data al creation =
    if MaxUint64 <? data_cost data creation then inl TxErrGasUintOverflow else inr (u64 (data_cost data creation + access_cost al)).
Proof.
  intros Hl. pose proof (nonzero_range data) as Hn. unfold IntrinsicGas, data_cost. set (nz := nonzero data) in *. set (n := len data) in *.
  rewrite core_toWordSize_exact by lia. pose proof (Z.div_pos (n + 31) 32 ltac:(lia) ltac:(lia)) as Hw.
  assert (Hd : (n + 31) / 32 <= n + 31) by (apply Z.div_le_upper_bound; lia). case_if; zb.
  - rewrite charge_exact by (unfold MaxUint64; destruct creation; lia). case_if; zb; [case_if; zb; [done | destruct creation; lia] |].
    rewrite charge_exact by (destruct creation; lia). case_if; zb; [case_if; zb; [done | destruct creation; lia] |].
    destruct creation.
    + rewrite charge_exact by lia. case_if; zb; (case_if; zb; try lia); [done |]. rewrite access_wraps. do 2 f_equal. lia.
    + case_if; zb; [lia |]. rewrite access_wraps. do 2 f_equal. lia.
  - assert (n = 0) by lia. assert (nz = 0) by lia. assert ((n + 31) / 32 = 0) by (apply Z.div_small; lia).
    assert (Hc : MaxUint64 = 18446744073709551615) by done. destruct creation; (case_if; zb; [lia |]; rewrite access_wraps; do 2 f_equal; lia).
Qed.

Section Messages.
  Context `{UI : Uint256} `{UL : !Uint256Laws} `{HF : Hasher} `{HL : !HasherLaws} `{CS : Codes}
    {SDB : Type} `{DB : VmStateDB SDB} `{SL : !VmStateLaws SDB}.
  Abbreviation zvm := (ZVM SDB).

(** ** Acceptance *)

(** The sender's account, under the nonce of the message *)
Definition account_accepts (msg : Message) (w : world) : Prop :=
  SkipAccountChecks msg = true ∨
  (m_Nonce msg = w_Nonce (m_From msg) w ∧ m_Nonce msg + 1 < 2 ^ 64 ∧
   (w_CodeHash (m_From msg) w = zeroHash ∨ w_CodeHash (m_From msg) w = EmptyCodeHash)).

Definition fees_accepted (env : vm_env) (msg : Message) : Prop :=
  BitLen (m_GasFeeCap msg) <= 256 ∧ BitLen (m_GasTipCap msg) <= 256 ∧ m_GasTipCap msg <= m_GasFeeCap msg ∧ BaseFee env <= m_GasFeeCap msg.

Definition gas_bought (msg : Message) (w : world) (pool : Z) : Prop :=
  m_GasLimit msg * m_GasFeeCap msg + m_Value msg <= balance w (m_From msg) ∧ m_GasLimit msg <= pool.

(** The gas the message needs before it runs *)
Definition intrinsic (msg : Message) : Z := u64 (data_cost (m_Data msg) (bool_decide (m_To msg = None)) + access_cost (m_AccessList msg)).

Definition data_accepted (msg : Message) : Prop :=
  data_cost (m_Data msg) (bool_decide (m_To msg = None)) < 2 ^ 64 ∧ intrinsic msg <= m_GasLimit msg ∧
  (m_To msg = None → len (m_Data msg) <= MaxInitCodeSize).

Definition prechecked (env : vm_env) (msg : Message) (w : world) (pool : Z) : Prop :=
  account_accepts msg w ∧ fees_accepted env msg ∧ gas_bought msg w pool.

(** The world in which the message's gas is paid *)
Definition paid (msg : Message) (sw : saved_world) : saved_world :=
  with_now (change (m_From msg) (debit (m_GasLimit msg * m_GasPrice msg)) (sw_now sw)) sw.

(** A message, the machine and the pool it may be given to: the sender is known, the
    price is at most the fee cap, and no snapshot is kept from another transaction. *)
Record tx_ready (msg : Message) (z : zvm) (sw : saved_world) (pool : Z) : Prop := MkTxReady {
  tr_vm : vm_ready z sw (m_GasLimit msg);
  tr_saved : sw_saved sw = [];
  tr_write : readOnly z = false;
  tr_pool : 0 <= pool < 2 ^ 64;
  tr_from : address_ok (m_From msg);
  tr_to : ∀ a, m_To msg = Some a → address_ok a;
  tr_data : bytes_ok (m_Data msg) ∧ len (m_Data msg) < 2 ^ 63;
  tr_nonce : 0 <= m_Nonce msg < 2 ^ 64;
  tr_value : 0 <= m_Value msg;
  tr_tip : 0 <= m_GasTipCap msg;
  tr_price : 0 <= m_GasPrice msg <= m_GasFeeCap msg
}.

Section Checks.
  Context (env : vm_env).

Lemma check_fees_spec msg : check_fees env false msg = None ↔ fees_accepted env msg.
Proof. unfold check_fees, fees_accepted. cbn [negb orb]. repeat (case_if; zb; [split; [done | lia] |]). split; [lia | done]. Qed.

Lemma check_account_spec msg (z : zvm) sw pool :
  models (z_state z) sw → 0 <= m_Nonce msg < 2 ^ 64 → 0 <= w_Nonce (m_From msg) (sw_now sw) < 2 ^ 64 →
  ∃ err s', check_account msg (NewStateTransition z pool) = (err, NewStateTransition (with_state s' z) pool) ∧ models s' sw ∧
    (err = None ↔ account_accepts msg (sw_now sw)).
Proof.
  intros Hs Hm Hn. unfold check_account, account_accepts. destruct (SkipAccountChecks msg).
  { exists None, (z_state z). destruct z. split_and!; [done | done |]. split; [by left | done]. }
  cbn [NewStateTransition t_zvm]. destruct (law_GetNonce (m_From msg) (z_state z) sw Hs) as [E1 H1].
  destruct (db_GetNonce (m_From msg) (z_state z)) as [n s1]. cbn in E1, H1. subst n. set (n := w_Nonce (m_From msg) (sw_now sw)) in *.
  destruct (law_GetCodeHash (m_From msg) s1 sw H1) as [E2 H2]. destruct (db_GetCodeHash (m_From msg) s1) as [h s2]. cbn in E2, H2. subst h.
  case_if; zb; [exists (Some ErrNonceTooHigh), s1; split_and!; [done | done | split; [done | intros [? | ?]; [done | lia]]] |].
  case_if; zb; [exists (Some ErrNonceTooLow), s1; split_and!; [done | done | split; [done | intros [? | ?]; [done | lia]]] |].
  destruct (decide (n + 1 < 2 ^ 64)) as [Hlt | Hge].
  - rewrite u64_id by lia. rewrite (proj2 (Z.ltb_ge (n + 1) n)) by lia.
    destruct (_ && _) eqn:Hc.
    + apply andb_true_iff in Hc as [Hc1 Hc2]. apply negb_true_iff, bool_decide_eq_false in Hc1, Hc2.
      exists (Some ErrSenderNoEOA), s2. split_and!; [done | done |]. split; [done |]. intros [? | (_ & _ & [? | ?])]; done.
    + apply andb_false_iff in Hc. rewrite !negb_false_iff, !bool_decide_eq_true in Hc.
      exists None, s2. split_and!; [done | done |]. split; [| done]. intros _. right. split_and!; [lia | lia | done].
  - replace (u64 (n + 1)) with 0 by (replace (n + 1) with (2 ^ 64) by lia; done). rewrite (proj2 (Z.ltb_lt 0 n)) by lia.
    exists (Some ErrNonceMax), s1. split_and!; [done | done | split; [done | intros [? | ?]; [done | lia]]].
Qed.

Lemma buyGas_spec msg (z : zvm) sw pool :
  models (z_state z) sw → 0 <= m_GasLimit msg → 0 <= pool < 2 ^ 64 →
  ∃ err s', buyGas msg (NewStateTransition z pool) =
      (err, match err with
            | None => MkTransition (pool - m_GasLimit msg) (m_GasLimit msg) (m_GasLimit msg) (with_state s' z)
            | Some _ => NewStateTransition (with_state s' z) pool
            end) ∧
    models s' (match err with None => paid msg sw | Some _ => sw end) ∧ (err = None ↔ gas_bought msg (sw_now sw) pool).
Proof.
  intros Hs Hg Hp. unfold buyGas, gas_bought. cbn [NewStateTransition t_zvm]. destruct (law_GetBalance (m_From msg) (z_state z) sw Hs) as [E1 H1].
  rewrite w_Balance_acct in E1. destruct (db_GetBalance (m_From msg) (z_state z)) as [b s1]. cbn in E1, H1. subst b.
  case_if; zb; [exists (Some ErrInsufficientFunds), s1; split_and!; [done | done | split; [done | lia]] |].
  unfold SubGas. cbn [with_db gp gasRemaining t_zvm NewStateTransition]. case_if; zb; [exists (Some ErrGasLimitReached), s1; split_and!; [done | done | split; [done | lia]] |].
  exists None, (db_SubBalance (m_From msg) (m_GasLimit msg * m_GasPrice msg) s1). rewrite !u64_id by lia.
  split_and!; [done | by apply debit_models | split; [lia | done]].
Qed.

(** Without an error of preCheck the gas is paid, and with one nothing changed. *)
Lemma preCheck_spec msg (z : zvm) sw pool :
  tx_ready msg z sw pool →
  ∃ err s', preCheck env false msg (NewStateTransition z pool) =
      (err, match err with
            | None => MkTransition (pool - m_GasLimit msg) (m_GasLimit msg) (m_GasLimit msg) (with_state s' z)
            | Some _ => NewStateTransition (with_state s' z) pool
            end) ∧
    models s' (match err with None => paid msg sw | Some _ => sw end) ∧ (err = None ↔ prechecked env msg (sw_now sw) pool).
Proof.
  intros [[Hs Hw _ Hg _] _ _ Hp _ _ _ Hn _ _ _]. unfold preCheck, prechecked.
  destruct (check_account_spec msg z sw pool Hs Hn) as (err & s1 & -> & H1 & Hiff1).
  { rewrite w_Nonce_acct. apply (wo_accounts _ Hw). }
  destruct err as [e |]; [exists (Some e), s1; split_and!; [done | done | split; [done | tauto]] |].
  pose proof (check_fees_spec msg) as Hiff2. destruct (check_fees env false msg) as [e |]; [exists (Some e), s1; split_and!; [done | done | split; [done | tauto]] |].
  destruct (buyGas_spec msg (with_state s1 z) sw pool) as (err & s2 & -> & H2 & Hiff3); [done | lia | done |].
  exists err, s2. split_and!; [by destruct err | done | tauto].
Qed.
End Checks.

(** ** Execution *)

(** The world when the machine is done, by its error *)
Definition ran (msg : Message) (sw0 : saved_world) (ret : bytes) (err : option vm_error) (sw : saved_world) : Prop :=
  match m_To msg with
  | Some _ => err ≠ None → sw_now sw = change (m_From msg) (with_nonce (u64 (w_Nonce (m_From msg) (sw_now sw0) + 1))) (sw_now sw0)
  | None => ∃ a, created_world (m_From msg) sw0 ret a err sw
  end.

(** The world in which what is left of the gas is paid back, and the producer is paid *)
Definition tip_of (env : vm_env) (msg : Message) : Z := Z.min (m_GasTipCap msg) (m_GasFeeCap msg - BaseFee env).

Definition settled (env : vm_env) (msg : Message) (used : Z) (w : world) : world :=
  change (Coinbase env) (credit (used * tip_of env msg)) (change (m_From msg) (credit ((m_GasLimit msg - used) * m_GasPrice msg)) w).

Section Run.
  Context (env : vm_env) (Henv : env_ok env) (precompiles : list bytes).

(** *** On an interpreter that ends *)

Section Runner.
  Context (n : Z) (run : runner (SDB := SDB)) (Hrun : run_ok n run).

Lemma run_message_ok msg gas (z : zvm) sw :
  vm_ready z sw gas → gas <= n → readOnly z = false → address_ok (m_From msg) →
  (∀ a, m_To msg = Some a → address_ok a ∧ is_Some (w_access (sw_now sw) !! a)) →
  bytes_ok (m_Data msg) → len (m_Data msg) < 2 ^ 63 → (m_To msg = None → len (m_Data msg) <= MaxInitCodeSize) → 0 <= m_Value msg →
  ∃ ret gas' err z', run_message env run msg gas z = Ok (ret, gas', err, z') ∧ left_over (ran msg sw ret err) false z sw gas ret gas' z'.
Proof.
  intros [Hs Hw Hz Hg Hp] Hgn Hro Hf Hto Hb Hl Hc Hv. unfold run_message, ran. destruct (m_To msg) as [to |].
  - destruct (Hto to eq_refl) as [Ha Hacc].
    destruct (steps_read false (db_GetNonce (m_From msg)) _ _ sw sw (steps_refl _ _ _ Hs Hw) (fun t Ht => law_GetNonce _ t sw Ht)) as (s1 & -> & H1).
    set (k := u64 (w_Nonce (m_From msg) (sw_now sw) + 1)). pose proof (u64_range (w_Nonce (m_From msg) (sw_now sw) + 1)) as Hn. fold k in Hn.
    destruct (SetNonce_steps (m_From msg) k s1 sw sw H1 Hn) as (sw2 & [Hs2 Hg2 Hw2 Hev2 Hr2] & Enow).
    destruct (Call_ok env n run Hrun (eo_precompiles _ Henv) (AccountRef (m_From msg)) to (m_Data msg) gas (m_Value msg) (with_state (db_SetNonce (m_From msg) k s1) z) sw2)
      as (ret & gas' & err & z' & E & (sw' & Hs' & Hg' & Hro' & Hd' & Hz' & Hb' & Hgas & Hw' & Hev & Hpot & HR)); try done; try lia;
      try (by apply with_state_ok); try (by apply (ev_access _ _ _ Hev2)); try (cbn [readOnly with_state]; by rewrite Hro); try (unfold potential in *; by rewrite Hr2).
    + exists ret, gas', err, z'. split; [done |]. cbn [readOnly with_state] in *. rewrite Hro in Hev. exists sw'. split_and!; try done; try lia.
      * by eapply grows_trans.
      * by eapply evolves_trans.
      * unfold potential in *. by rewrite Hr2 in Hpot.
      * intros He. by rewrite (HR He).
  - destruct (Create_ok env n run Hrun (AccountRef (m_From msg)) (m_Data msg) gas (m_Value msg) z sw (eo_pool _ Henv) Hf)
      as (ret & a & gas' & err & z' & E & Hcr); try done; try lia; [by apply Hc |].
    exists ret, gas', err, z'. split; [by rewrite E |].
    destruct Hcr as (sw' & Hs' & Hg' & Hro' & Hd' & Hz' & Hb' & Hgas & Hw' & Hev & Hpot & HR). exists sw'. split_and!; try done; try lia. by exists a.
Qed.

(** The world in which the message's addresses are accessed *)
Definition accessed (msg : Message) (sw : saved_world) : saved_world :=
  MkSaved (with_access (prepared (m_From msg) (Coinbase env) (m_To msg) precompiles (m_AccessList msg)) (sw_now sw)) [] (sw_next sw).

Lemma perform_message_ok msg gas pool (z : zvm) sw :
  vm_ready z sw gas → gas <= n → sw_saved sw = [] → readOnly z = false → address_ok (m_From msg) → (∀ a, m_To msg = Some a → address_ok a) →
  bytes_ok (m_Data msg) → len (m_Data msg) < 2 ^ 63 → (m_To msg = None → len (m_Data msg) <= MaxInitCodeSize) → 0 <= m_Value msg →
  ∃ ret left err z' sw', perform_message env precompiles run msg (MkTransition pool gas (m_GasLimit msg) z) = Ok (ret, left, err, z') ∧
    0 <= left <= gas ∧ models (z_state z') sw' ∧ world_ok (sw_now sw') ∧ gains 0 (sw_now (accessed msg sw)) (sw_now sw') ∧
    ran msg (accessed msg sw) ret err sw' ∧ zvm_ok z' ∧ readOnly z' = false.
Proof.
  intros [Hs Hw Hz Hg Hpot] Hgn Hsaved Hro Hf Hto Hb Hl Hc Hv. unfold perform_message. cbn [gp gasRemaining initialGas t_zvm].
  destruct (law_Prepare (m_From msg) (Coinbase env) (m_To msg) precompiles (m_AccessList msg) _ _ Hs Hsaved) as (s1 & -> & H1). cbn [mbind outcome_bind].
  destruct (run_message_ok msg gas (with_state s1 z) (accessed msg sw)) as (ret & left & err & z' & E2 & sw' & Hs' & _ & Hro' & _ & Hz' & _ & Hgas' & Hw' & Hev & _ & HR); try done.
  { constructor; [done | by apply (world_ok_same (sw_now sw)) | by apply with_state_ok | done | done]. }
  { intros a Ha. split; [by apply Hto |]. cbn. rewrite Ha. apply prepared_dst. }
  exists ret, left, err, z', sw'. split_and!; try done; try lia; [apply (ev_supply _ _ _ Hev) | by rewrite Hro'].
Qed.
End Runner.

(** The gas that is charged of what was spent: a fifth at most is refunded *)
Definition charged_gas (spent refund : Z) : Z := spent - Z.min (spent / 5) refund.

Lemma charged_gas_bounds spent refund : 0 <= spent → 0 <= refund → 0 <= charged_gas spent refund <= spent ∧ 4 * spent <= 5 * charged_gas spent refund.
Proof. intros Hs Hr. unfold charged_gas. pose proof (Z.mul_div_le spent 5 ltac:(lia)). pose proof (Z.div_pos spent 5 ltac:(lia) ltac:(lia)). lia. Qed.

Lemma refundGas_spec msg (st : StateTransition (SDB := SDB)) sw :
  models (z_state (t_zvm st)) sw → 0 <= w_refund (sw_now sw) → 0 <= gasRemaining st <= initialGas st → 0 <= gp st → gp st + initialGas st < 2 ^ 64 →
  let used := charged_gas (initialGas st - gasRemaining st) (w_refund (sw_now sw)) in
  ∃ s', refundGas 5 msg st = Ok (MkTransition (gp st + (initialGas st - used)) (initialGas st - used) (initialGas st) (with_state s' (t_zvm st))) ∧
    models s' (with_now (change (m_From msg) (credit ((initialGas st - used) * m_GasPrice msg)) (sw_now sw)) sw).
Proof.
  intros Hs Hr Hg Hp Hi used. unfold refundGas, gasUsed. rewrite (law_GetRefund _ _ Hs), (u64_id (initialGas st - gasRemaining st)) by lia.
  set (u := initialGas st - gasRemaining st) in *. set (refund := if w_refund (sw_now sw) <? u / 5 then w_refund (sw_now sw) else u / 5).
  assert (Hb : gasRemaining st + refund = initialGas st - used) by (unfold used, charged_gas, refund; case_if; zb; lia).
  pose proof (charged_gas_bounds u (w_refund (sw_now sw)) ltac:(lia) Hr) as Hu. fold used in Hu. rewrite u64_id by lia.
  unfold AddGas. case_if; zb; [unfold MaxUint64 in *; lia |]. cbn [mbind outcome_bind]. rewrite u64_id, Hb by lia.
  exists (db_AddBalance (m_From msg) ((initialGas st - used) * m_GasPrice msg) (z_state (t_zvm st))). split; [done | by apply credit_models].
Qed.

Lemma settle_message_spec msg ret err left pool (z : zvm) sw :
  models (z_state z) sw → 0 <= w_refund (sw_now sw) → 0 <= left <= m_GasLimit msg → 0 <= pool → pool + m_GasLimit msg < 2 ^ 64 →
  let used := charged_gas (m_GasLimit msg - left) (w_refund (sw_now sw)) in
  ∃ s', settle_message env false msg ret err (MkTransition pool left (m_GasLimit msg) z) =
      Ok (MkResult used err ret, MkTransition (pool + (m_GasLimit msg - used)) (m_GasLimit msg - used) (m_GasLimit msg) (with_state s' z)) ∧
    models s' (with_now (settled env msg used (sw_now sw)) sw).
Proof.
  intros Hs Hr Hl Hp Hpool used. pose proof (charged_gas_bounds (m_GasLimit msg - left) (w_refund (sw_now sw)) ltac:(lia) Hr) as Hu. fold used in Hu.
  destruct (refundGas_spec msg (MkTransition pool left (m_GasLimit msg) z) sw) as (s3 & E3 & H3); [done | done | cbn; lia | done | done |].
  cbn [initialGas gasRemaining gp t_zvm] in E3, H3. fold used in E3, H3. unfold settle_message. rewrite E3. cbn [mbind outcome_bind]. unfold pay_fee, gasUsed. cbn [andb with_db initialGas gasRemaining gp t_zvm].
  replace (m_GasLimit msg - (m_GasLimit msg - used)) with used by lia. rewrite u64_id by lia.
  eexists. split; [done |]. exact (credit_models _ _ _ _ H3).
Qed.

(** The three ends of a message: refused before anything changed, refused with its
    gas bought, or run. *)
Definition untouched (msg : Message) (sw : saved_world) (pool : Z) (e : core_error) (st : StateTransition (SDB := SDB)) : Prop :=
  gp st = pool ∧ models (z_state (t_zvm st)) sw.

Definition gas_kept (msg : Message) (sw : saved_world) (pool : Z) (e : core_error) (st : StateTransition (SDB := SDB)) : Prop :=
  gp st = pool - m_GasLimit msg ∧ models (z_state (t_zvm st)) (paid msg sw).

Definition prepared_world (msg : Message) (sw : saved_world) : saved_world :=
  MkSaved (with_access (prepared (m_From msg) (Coinbase env) (m_To msg) precompiles (m_AccessList msg)) (sw_now (paid msg sw))) [] (sw_next sw).

(** The message was run and [left] of its gas remained. *)
Definition executed (msg : Message) (sw : saved_world) (pool left : Z) (res : ExecutionResult) (st : StateTransition (SDB := SDB)) : Prop :=
  intrinsic msg <= m_GasLimit msg - left <= m_GasLimit msg ∧
  ∃ sw', UsedGas res = charged_gas (m_GasLimit msg - left) (w_refund (sw_now sw')) ∧ gp st = pool - UsedGas res ∧
    models (z_state (t_zvm st)) (with_now (settled env msg (UsedGas res) (sw_now sw')) sw') ∧ world_ok (sw_now sw') ∧
    gains 0 (sw_now (prepared_world msg sw)) (sw_now sw') ∧ ran msg (prepared_world msg sw) (ReturnData res) (r_Err res) sw' ∧
    zvm_ok (t_zvm st) ∧ readOnly (t_zvm st) = false.

Lemma executed_bounds msg sw pool left res st : executed msg sw pool left res st → 4 * intrinsic msg <= 5 * UsedGas res ∧ 0 <= UsedGas res <= m_GasLimit msg.
Proof.
  intros (Hl & sw' & -> & _ & _ & Hw & _). pose proof (refund_nonneg _ (wo_refund _ Hw)) as Hr.
  pose proof (u64_range (data_cost (m_Data msg) (bool_decide (m_To msg = None)) + access_cost (m_AccessList msg))) as Hi. fold (intrinsic msg) in Hi.
  pose proof (charged_gas_bounds (m_GasLimit msg - left) _ ltac:(lia) Hr). lia.
Qed.

Lemma paid_ready msg z sw pool s gas :
  tx_ready msg z sw pool → gas_bought msg (sw_now sw) pool → models s (paid msg sw) → 0 <= gas <= m_GasLimit msg →
  vm_ready (with_state s z) (paid msg sw) gas.
Proof.
  intros [[Hs Hw Hz Hg Hp] _ _ _ _ _ _ _ Hv _ Hprice] [Hbal _] Hm Hgas. constructor; [done | | by apply with_state_ok | lia |].
  - apply debit_ok; [| done]. pose proof (Z.mul_le_mono_nonneg_l (m_GasPrice msg) (m_GasFeeCap msg) (m_GasLimit msg)). lia.
  - unfold potential in *. cbn. lia.
Qed.

Lemma data_accepted_dec msg : Decision (data_accepted msg).
Proof. unfold data_accepted. apply _. Defined.

Lemma can_transfer msg (s : SDB) sw pool :
  gas_bought msg (sw_now sw) pool → 0 <= m_GasLimit msg → m_GasPrice msg <= m_GasFeeCap msg → models s (paid msg sw) →
  ∃ s', (if 0 <? m_Value msg then CanTransfer (m_From msg) (m_Value msg) s else (true, s)) = (true, s') ∧ models s' (paid msg sw).
Proof.
  intros [Hbal _] Hg Hp Hs. case_if; [| by exists s]. unfold CanTransfer. destruct (law_GetBalance (m_From msg) s _ Hs) as [E H].
  destruct (db_GetBalance (m_From msg) s) as [b s']. cbn [fst snd] in *. subst b. exists s'. split; [| done]. rewrite w_Balance_acct. f_equal. apply Z.leb_le.
  pose proof (Z.mul_le_mono_nonneg_l (m_GasPrice msg) (m_GasFeeCap msg) (m_GasLimit msg)). unfold balance, paid. cbn [sw_now with_now].
  rewrite acct_change, decide_True by done. unfold balance in Hbal. cbn. lia.
Qed.

(** The checks: refused before anything changed, refused with the gas bought, or accepted *)
Lemma accept_message_spec msg (z : zvm) sw pool :
  tx_ready msg z sw pool →
  ∃ err st, accept_message env false msg (NewStateTransition z pool) = (err, st) ∧
    match err with
    | Some e => (¬ prechecked env msg (sw_now sw) pool ∧ untouched msg sw pool e st) ∨
                (prechecked env msg (sw_now sw) pool ∧ ¬ data_accepted msg ∧ gas_kept msg sw pool e st)
    | None => prechecked env msg (sw_now sw) pool ∧ data_accepted msg ∧
        ∃ s', st = MkTransition (pool - m_GasLimit msg) (m_GasLimit msg - intrinsic msg) (m_GasLimit msg) (with_state s' z) ∧ models s' (paid msg sw)
    end.
Proof.
  intros Hr. destruct (preCheck_spec env msg z sw pool Hr) as (err & s1 & E1 & H1 & Hiff). unfold accept_message.
  rewrite E1. destruct err as [e |].
  { eexists (Some e), _. split; [done |]. left. split; [| by split]. intros Hpre. by apply Hiff in Hpre. }
  assert (Hpre : prechecked env msg (sw_now sw) pool) by (by apply Hiff). pose proof Hpre as (_ & _ & Hbought). destruct (tr_data _ _ _ _ Hr) as [Hb Hl].
  rewrite IntrinsicGas_cost by done. unfold data_accepted. fold (intrinsic msg). cbn [gasRemaining gp t_zvm initialGas].
  pose proof (tr_vm _ _ _ _ Hr) as [_ _ _ HG _]. pose proof (tr_price _ _ _ _ Hr) as HP.
  case_if; zb; [eexists _, _; split; [done |]; right; split_and!; [done | unfold MaxUint64 in *; lia | by split] |].
  case_if; zb; [eexists _, _; split; [done |]; right; split_and!; [done | lia | by split] |].
  pose proof (u64_range (data_cost (m_Data msg) (bool_decide (m_To msg = None)) + access_cost (m_AccessList msg))) as Hi. fold (intrinsic msg) in Hi.
  rewrite u64_id by lia. cbn [z_state with_state]. destruct (can_transfer msg s1 sw pool Hbought) as (s2 & -> & H2); [lia | lia | done |].
  cbn [negb]. destruct (_ && _) eqn:Hsize.
  - apply andb_true_iff in Hsize as [Ht Hsize]. apply bool_decide_eq_true in Ht. zb.
    eexists _, _. split; [done |]. right. split_and!; [done | intros (_ & _ & Hm); specialize (Hm Ht); lia | by split].
  - eexists None, _. split; [done |]. split_and!; [done | unfold MaxUint64 in *; lia | lia | | by exists s2].
    intros Ht. rewrite bool_decide_true in Hsize by done. cbn in Hsize. zb. done.
Qed.

Lemma ApplyMessage_ok n run msg (z : zvm) sw pool :
  run_ok n run → m_GasLimit msg <= n → tx_ready msg z sw pool →
  ∃ r st', ApplyMessage env false precompiles run msg z pool = Ok (r, st') ∧
    match r with
    | inl e => (¬ prechecked env msg (sw_now sw) pool ∧ untouched msg sw pool e st') ∨
               (prechecked env msg (sw_now sw) pool ∧ ¬ data_accepted msg ∧ gas_kept msg sw pool e st')
    | inr res => prechecked env msg (sw_now sw) pool ∧ data_accepted msg ∧
        ∃ st0 left z', accept_message env false msg (NewStateTransition z pool) = (None, st0) ∧
          perform_message env precompiles run msg st0 = Ok (ReturnData res, left, r_Err res, z') ∧ executed msg sw pool left res st'
    end.
Proof.
  intros Hrun Hn Hr. unfold ApplyMessage, TransitionDb. destruct (accept_message_spec msg z sw pool Hr) as (err & st & -> & H).
  destruct err as [e |]; [by eexists (inl e), _ |]. destruct H as (Hpre & Hdata & s & -> & Hs). pose proof Hpre as (_ & _ & Hbought). pose proof Hdata as (_ & Hfit & Hm).
  pose proof (u64_range (data_cost (m_Data msg) (bool_decide (m_To msg = None)) + access_cost (m_AccessList msg))) as Hi. fold (intrinsic msg) in Hi.
  pose proof (tr_pool _ _ _ _ Hr) as Hpool. assert (Hlim : m_GasLimit msg <= pool) by apply Hbought.
  destruct (perform_message_ok n run Hrun msg (m_GasLimit msg - intrinsic msg) (pool - m_GasLimit msg) (with_state s z) (paid msg sw))
    as (ret & left & err & z' & sw' & E & Hleft & Hs' & Hw' & Hg' & HR & Hz' & Hro'); try (by apply Hr); try done; try lia.
  { eapply paid_ready; [done.. | lia]. }
  { apply (tr_data _ _ _ _ Hr). }
  destruct (settle_message_spec msg ret err left (pool - m_GasLimit msg) z' sw' Hs' (refund_nonneg _ (wo_refund _ Hw'))) as (s' & E' & H'); try lia.
  eexists (inr (MkResult _ err ret)), _. rewrite E. cbn [mbind outcome_bind gp initialGas]. rewrite E'. cbn [mbind outcome_bind]. split; [done |].
  split_and!; [done.. |]. eexists _, left, z'. split_and!; [done.. |]. split; [lia |]. exists sw'. cbn [UsedGas ReturnData r_Err gp t_zvm].
  split_and!; try done; [lia | by apply with_state_ok].
Qed.

(** *** On the interpreter, when the message meets only codes at hand *)

(** A message that is accepted meets only codes at hand when it is run. *)
Definition message_codes (msg : Message) (z : zvm) (pool : Z) : Prop :=
  ∀ st, accept_message env false msg (NewStateTransition z pool) = (None, st) → meets_codes env (m_GasLimit msg) (fun run => perform_message env precompiles run msg st).

Lemma perform_extends run run' msg (st : StateTransition (SDB := SDB)) r :
  extends run run' → perform_message env precompiles run msg st = Ok r → perform_message env precompiles run' msg st = Ok r.
Proof.
  intros Hext. unfold perform_message. destruct (db_Prepare _ _ _ _ _ _); try done. cbn [mbind outcome_bind]. unfold run_message. destruct (m_To msg) as [to |].
  - destruct (db_GetNonce _ _). by apply Call_extends.
  - destruct (Create env run _ _ _ _ _) as [x | | |] eqn:E; try done. by rewrite (Create_extends env _ _ Hext _ _ _ _ _ _ E).
Qed.

Lemma ApplyMessage_all msg (z : zvm) sw pool :
  codes_apart → tx_ready msg z sw pool → message_codes msg z pool →
  ∃ r st', (∀ fuel, m_GasLimit msg < Z.of_nat fuel → ApplyMessage env false precompiles (Run env fuel) msg z pool = Ok (r, st')) ∧
    match r with
    | inl e => (¬ prechecked env msg (sw_now sw) pool ∧ untouched msg sw pool e st') ∨
               (prechecked env msg (sw_now sw) pool ∧ ¬ data_accepted msg ∧ gas_kept msg sw pool e st')
    | inr res => prechecked env msg (sw_now sw) pool ∧ data_accepted msg ∧
        ∃ st0 left z', accept_message env false msg (NewStateTransition z pool) = (None, st0) ∧
          (∀ fuel, m_GasLimit msg < Z.of_nat fuel → perform_message env precompiles (Run env fuel) msg st0 = Ok (ReturnData res, left, r_Err res, z')) ∧
          executed msg sw pool left res st'
    end.
Proof.
  intros Happ Hr Hm. pose proof (vr_gas _ _ _ (tr_vm _ _ _ _ Hr)) as HG. set (run0 := Run_in env (S (Z.to_nat (m_GasLimit msg)))).
  destruct (ApplyMessage_ok (m_GasLimit msg) run0 msg z sw pool (Run_gas env Henv Happ (m_GasLimit msg) ltac:(lia)) ltac:(lia) Hr) as (r & st' & E & H).
  assert (Hsame : ∀ fuel st0 x, m_GasLimit msg < Z.of_nat fuel → accept_message env false msg (NewStateTransition z pool) = (None, st0) →
    perform_message env precompiles run0 msg st0 = Ok x → perform_message env precompiles (Run env fuel) msg st0 = Ok x).
  { intros fuel st0 x Hf Ha Hx. unfold run0 in Hx. rewrite <- (mc_same _ _ _ (Hm st0 Ha)) in Hx. eapply perform_extends; [apply (Run_more env (m_GasLimit msg)); (done || lia) | exact Hx]. }
  exists r, st'. split.
  - intros fuel Hf. unfold ApplyMessage, TransitionDb in *. destruct (accept_message _ _ _ _) as [[e |] st0]; [done |].
    destruct (perform_message env precompiles run0 msg st0) as [x | | |] eqn:Ep; try done. by rewrite (Hsame fuel st0 x Hf eq_refl Ep).
  - destruct r as [e | res]; [done |]. destruct H as (Hpre & Hdata & st0 & left & z' & Ha & Hp & Hx). split_and!; [done.. |]. exists st0, left, z'. split_and!; [done | | done].
    intros fuel Hf. by apply Hsame.
Qed.
End Run.

(** ** Money *)

Lemma credit_gains a x w : gains x w (change a (credit x) w).
Proof. pose proof (gains_change a (credit x) w) as H. unfold balance in H. cbn in H. by replace x with (v_balance (acct w a) + x - v_balance (acct w a)) at 1 by lia. Qed.

Lemma debit_gains a x w : gains (- x) w (change a (debit x) w).
Proof. pose proof (gains_change a (debit x) w) as H. unfold balance in H. cbn in H. by replace (- x) with (v_balance (acct w a) - x - v_balance (acct w a)) by lia. Qed.

Lemma executed_gains env precompiles msg sw used w :
  gains 0 (sw_now (prepared_world env precompiles msg sw)) w →
  gains (- (used * (m_GasPrice msg - tip_of env msg))) (sw_now sw) (settled env msg used w).
Proof.
  intros Hg. pose proof (debit_gains (m_From msg) (m_GasLimit msg * m_GasPrice msg) (sw_now sw)) as H1. fold (sw_now (paid msg sw)) in H1.
  assert (H2 : gains 0 (sw_now (paid msg sw)) (sw_now (prepared_world env precompiles msg sw))) by (by apply gains_same).
  pose proof (credit_gains (m_From msg) ((m_GasLimit msg - used) * m_GasPrice msg) w) as H3.
  pose proof (credit_gains (Coinbase env) (used * tip_of env msg) (change (m_From msg) (credit ((m_GasLimit msg - used) * m_GasPrice msg)) w)) as H4.
  pose proof (gains_trans _ _ _ _ _ H1 (gains_trans _ _ _ _ _ H2 (gains_trans _ _ _ _ _ Hg (gains_trans _ _ _ _ _ H3 H4)))) as H.
  unfold settled. by match type of H with gains ?x _ _ => replace (- _) with x by lia end.
Qed.

Lemma settled_ok env msg used w :
  world_ok w → 0 <= used <= m_GasLimit msg → 0 <= m_GasPrice msg → 0 <= tip_of env msg → world_ok (settled env msg used w).
Proof.
  intros Hw Hu Hp Ht. assert (H1 : world_ok (change (m_From msg) (credit ((m_GasLimit msg - used) * m_GasPrice msg)) w)).
  { apply credit_ok; [| done]. pose proof (ao_balance _ (wo_accounts _ Hw (m_From msg))). unfold balance. nia. }
  apply credit_ok; [| done]. pose proof (ao_balance _ (wo_accounts _ H1 (Coinbase env))). unfold balance. nia.
Qed.

(** What a failed call costs the account [a]: the nonce and the gas of the sender, the
    tip of the producer *)
Definition charged (env : vm_env) (msg : Message) (used : Z) (a : bytes) (v : account) : account :=
  MkView (if decide (a = m_From msg) then u64 (v_nonce v + 1) else v_nonce v)
    (v_balance v - (if decide (a = m_From msg) then used * m_GasPrice msg else 0) + (if decide (a = Coinbase env) then used * tip_of env msg else 0))
    (v_codeHash v) (v_code v) (v_storage v) (v_committed v).

Lemma charged_settled env precompiles msg used sw a :
  let w0 := sw_now (prepared_world env precompiles msg sw) in
  acct (settled env msg used (change (m_From msg) (with_nonce (u64 (w_Nonce (m_From msg) w0 + 1))) w0)) a = charged env msg used a (acct (sw_now sw) a).
Proof.
  intros w0. assert (E0 : ∀ b, acct w0 b = if decide (b = m_From msg) then debit (m_GasLimit msg * m_GasPrice msg) (acct (sw_now sw) b) else acct (sw_now sw) b).
  { intros b. change (acct w0 b) with (acct (sw_now (paid msg sw)) b). unfold paid. cbn [sw_now with_now]. rewrite acct_change. case_decide; [by subst b | done]. }
  assert (En : w_Nonce (m_From msg) w0 = v_nonce (acct (sw_now sw) (m_From msg))) by (rewrite w_Nonce_acct, E0, decide_True by done; done).
  rewrite En. unfold settled, charged. rewrite !acct_change, !E0. destruct (decide (a = Coinbase env)) as [-> | Hc]; destruct (decide (_ = m_From msg)) as [Ha | Ha].
  - rewrite Ha, !(decide_True (P := m_From msg = m_From msg)) by done. unfold credit, debit, with_nonce. cbn. f_equal. lia.
  - unfold credit. cbn. f_equal. lia.
  - subst a. rewrite !(decide_True (P := m_From msg = m_From msg)) by done. unfold credit, debit, with_nonce. cbn. f_equal. lia.
  - destruct (acct (sw_now sw) a). cbn. f_equal. lia.
Qed.
End Messages.

(** ** Theorems *)

(** The cost of a message's data is exact in 64 bits: IntrinsicGas fails with
    ErrGasUintOverflow when the cost of the base, the bytes and, for a creation, the
    words of the code does not fit, and is the cost of these plus that of the access
    list otherwise; only the access list may wrap around. *)
Theorem IntrinsicGas_exact data al creation :
  len data < 2 ^ 63 →
  IntrinsicGas data al creation =
    (if 2 ^ 64 <=? data_cost data creation then inl TxErrGasUintOverflow else inr (u64 (data_cost data creation + access_cost al))).
Proof. intros Hl. rewrite IntrinsicGas_cost by done. unfold MaxUint64. repeat case_if; zb; done || lia. Qed.

Lemma IntrinsicGas_exact_witness : IntrinsicGas [1; 0; 0] [([7], [[1]; [2]])] true = inr (53000 + 16 + 8 + 2 + 2400 + 3800).
Proof. rewrite IntrinsicGas_exact; [reflexivity | done]. Defined.

Section Theorems.
  Context `{UI : Uint256} `{UL : !Uint256Laws} `{HF : Hasher} `{HL : !HasherLaws} `{CS : Codes}
    {SDB : Type} `{DB : VmStateDB SDB} `{SL : !VmStateLaws SDB}.
  Abbreviation zvm := (ZVM SDB).

(** C6.  A message that passes the checks is run to the end: on more fuel than gas the
    transition returns a result, one whatever the fuel.  The gas used is the gas the
    message spent, that is its limit without what the machine left, less a refund
    that is the refund counter but at most a fifth of the gas spent; the block's pool
    has the gas that was not used; and of all the money only the base fee of the gas
    used is gone, with no balance below zero.  The codes at hand, which are those the
    message runs, have different hashes. *)
Theorem ApplyMessage_settles env precompiles msg (z : zvm) sw pool :
  env_ok env → codes_apart → tx_ready msg z sw pool → message_codes env precompiles msg z pool → prechecked env msg (sw_now sw) pool → data_accepted msg →
  m_GasPrice msg = effective_price (m_GasTipCap msg) (m_GasFeeCap msg) (BaseFee env) →
  ∃ res st' sw' st0 left z', (∀ fuel, m_GasLimit msg < Z.of_nat fuel → ApplyMessage env false precompiles (Run env fuel) msg z pool = Ok (inr res, st')) ∧
    accept_message env false msg (NewStateTransition z pool) = (None, st0) ∧
    (∀ fuel, m_GasLimit msg < Z.of_nat fuel → perform_message env precompiles (Run env fuel) msg st0 = Ok (ReturnData res, left, r_Err res, z')) ∧
    intrinsic msg <= m_GasLimit msg - left <= m_GasLimit msg ∧
    UsedGas res = m_GasLimit msg - left - Z.min ((m_GasLimit msg - left) / 5) (w_refund (sw_now sw')) ∧ 0 <= w_refund (sw_now sw') ∧
    gp st' = pool - UsedGas res ∧ models (z_state (t_zvm st')) sw' ∧ world_ok (sw_now sw') ∧
    ∃ A : gset bytes, ∀ B, A ⊆ B → total (balance (sw_now sw')) B = total (balance (sw_now sw)) B - UsedGas res * BaseFee env.
Proof.
  intros Henv Happ Hr Hm Hpre Hdata Hprice. destruct (ApplyMessage_all env Henv precompiles msg z sw pool Happ Hr Hm) as (r & st' & E & H).
  destruct r as [e | res]; [destruct H as [[? _] | (_ & ? & _)]; done |]. destruct H as (_ & _ & st0 & left & z' & Ha & Hp & Hx). pose proof (executed_bounds _ _ _ _ _ _ _ _ Hx) as [_ Hu].
  destruct Hx as (Hl & sw' & Hused & Hgp & Hs & Hw & Hg & _). pose proof (refund_nonneg _ (wo_refund _ Hw)) as Href.
  assert (Htip : m_GasPrice msg - tip_of env msg = BaseFee env) by (rewrite Hprice; unfold effective_price, tip_of; lia).
  assert (Ht : 0 <= tip_of env msg) by (pose proof (tr_tip _ _ _ _ Hr); destruct Hpre as (_ & (_ & _ & _ & ?) & _); unfold tip_of; lia).
  pose proof (tr_price _ _ _ _ Hr) as HP. exists res, st', (with_now (settled env msg (UsedGas res) (sw_now sw')) sw'), st0, left, z'. split_and!; [done | done | done | lia | lia | exact Hused | exact Href | done | exact Hs | by apply settled_ok; (done || lia) |].
  destruct (gains_total _ _ _ (executed_gains env precompiles msg sw (UsedGas res) _ Hg)) as (A & HA). exists A. intros B HB.
  cbn [sw_now with_now]. rewrite (HA B HB), Htip. lia.
Qed.

(** C13.  A message is run exactly when it is valid: its nonce is that of the sender's
    account, which has no code, its fee cap is at least the tip and the base fee,
    the sender can pay the gas at the fee cap and the value, the pool has the gas,
    which covers the cost of the data, and the code of a creation is not too long; the
    codes at hand, which are those the message runs, have different hashes. *)
Theorem ApplyMessage_accepts env precompiles msg (z : zvm) sw pool fuel :
  env_ok env → codes_apart → tx_ready msg z sw pool → message_codes env precompiles msg z pool → m_GasLimit msg < Z.of_nat fuel →
  (∃ res st', ApplyMessage env false precompiles (Run env fuel) msg z pool = Ok (inr res, st')) ↔
  (prechecked env msg (sw_now sw) pool ∧ data_accepted msg).
Proof.
  intros Henv Happ Hr Hm Hf. destruct (ApplyMessage_all env Henv precompiles msg z sw pool Happ Hr Hm) as (r & st' & E & H). rewrite (E fuel Hf).
  destruct r as [e | res].
  - split; [by intros (? & ? & ?) |]. intros [? ?]. destruct H as [[? _] | (_ & ? & _)]; done.
  - destruct H as (? & ? & _). split; [done |]. by eauto.
Qed.

(** C14.  A message that is refused by the checks of nonce, fees, funds or pool leaves
    the world and the pool as they were; one refused later, for its data, has paid
    for its gas, and nothing else changed. *)
Theorem ApplyMessage_refuses env precompiles msg (z : zvm) sw pool fuel e st' :
  tx_ready msg z sw pool → ApplyMessage env false precompiles (Run env fuel) msg z pool = Ok (inl e, st') →
  (¬ prechecked env msg (sw_now sw) pool ∧ gp st' = pool ∧ models (z_state (t_zvm st')) sw) ∨
  (prechecked env msg (sw_now sw) pool ∧ ¬ data_accepted msg ∧ gp st' = pool - m_GasLimit msg ∧ models (z_state (t_zvm st')) (paid msg sw)).
Proof.
  intros Hr. unfold ApplyMessage, TransitionDb. destruct (accept_message_spec env msg z sw pool Hr) as ([e1 |] & st & -> & H); [by intros [= <- <-] |].
  destruct (perform_message _ _ _ _ _) as [[[[ret left] err] z'] | | |]; try done. cbn [mbind outcome_bind]. by destruct (settle_message _ _ _ _ _ _) as [[res st1] | | |].
Qed.

(** C12.  A call that fails costs the gas and nothing else: in every account nonce,
    balance, code and storage are those before the message, but for the sender, who
    has the next nonce and has paid the gas used at the price of the message, and
    the producer of the block, who has the tip; logs and refund counter are as before.
    The codes at hand, which are those the message runs, have different hashes. *)
Theorem ApplyMessage_failed_call env precompiles msg (z : zvm) sw pool fuel to res e st' :
  env_ok env → codes_apart → tx_ready msg z sw pool → message_codes env precompiles msg z pool → m_GasLimit msg < Z.of_nat fuel → m_To msg = Some to →
  ApplyMessage env false precompiles (Run env fuel) msg z pool = Ok (inr res, st') → r_Err res = Some e →
  ∃ sw', models (z_state (t_zvm st')) sw' ∧ (∀ a, acct (sw_now sw') a = charged env msg (UsedGas res) a (acct (sw_now sw) a)) ∧
    w_logs (sw_now sw') = w_logs (sw_now sw) ∧ w_refund (sw_now sw') = w_refund (sw_now sw).
Proof.
  intros Henv Happ Hr Hm Hf Hto E1 He. destruct (ApplyMessage_all env Henv precompiles msg z sw pool Happ Hr Hm) as (r & st1 & E & H).
  rewrite (E fuel Hf) in E1. injection E1 as -> ->. destruct H as (_ & _ & st0 & left & z' & _ & _ & _ & sw' & _ & _ & Hs & _ & _ & HR & _).
  unfold ran in HR. rewrite Hto in HR. rewrite (HR ltac:(by rewrite He)) in Hs. eexists. split; [exact Hs |].
  split_and!; [| done..]. intros a. apply charged_settled.
Qed.
End Theorems.

(** ** A message on a concrete state *)

#[local] Existing Instances toy_hash toy_hash_laws demo_backend demo_codes Z_uint256 Z_uint256_laws.

Definition demo_message (to : bytes) (nonce : Z) : Message := MkMessage (Some to) demo_c nonce 5 60000 9 20 2 [1; 0] [] false.

Lemma demo_tx_ready b nonce : 0 <= b < 256 → 0 <= nonce < 2 ^ 64 →
  tx_ready (demo_message (repeat b 20) nonce) (demo_zvm demo_a) (demo_world demo_a) 100000.
Proof.
  intros Hb Hn. constructor; cbn [demo_message m_GasLimit m_From m_To m_Data m_Nonce m_Value m_GasTipCap m_GasPrice m_GasFeeCap]; try done; try lia.
  - by apply demo_ready.
  - by apply demo_address.
  - intros a [= <-]. by apply demo_address.
  - split; [repeat constructor; lia | done].
Qed.

Lemma demo_prechecked to : prechecked demo_env (demo_message to 7) (sw_now (demo_world demo_a)) 100000.
Proof.
  split_and!; [right; split_and!; [by vm_compute | done | right; by vm_compute] | repeat split; by vm_compute |]. split; by vm_compute.
Qed.

Lemma demo_accepted to : data_accepted (demo_message to 7).
Proof. split_and!; [by vm_compute | by vm_compute | done]. Qed.

Definition demo_apply (to : bytes) (nonce : Z) := ApplyMessage demo_env false [] (Run demo_env (Z.to_nat 60001)) (demo_message to nonce) (demo_zvm demo_a) 100000.

(** The checks of the demonstrations are decided, and their runs meet only the two codes. *)
Lemma demo_message_codes to : to = demo_a ∨ to = demo_b → message_codes demo_env [] (demo_message to 7) (demo_zvm demo_a) 100000.
Proof.
  intros H st E. assert (Est : st = snd (accept_message demo_env false (demo_message to 7) (NewStateTransition (demo_zvm demo_a) 100000))) by (by rewrite E).
  rewrite Est. clear E Est. split. destruct H as [-> | ->]; vm_compute; reflexivity.
Qed.

(** The contract stores 1 *)
Lemma ApplyMessage_settles_witness :
  ∃ ret st', demo_apply demo_a 7 = Ok (inr (MkResult 43138 None ret), st') ∧ gp st' = 100000 - 43138.
Proof.
  destruct (ApplyMessage_settles demo_env [] (demo_message demo_a 7) (demo_zvm demo_a) (demo_world demo_a) 100000) as (res & st' & sw' & st0 & left & z' & E & _ & _ & _ & _ & _ & Hgp & _);
    [exact demo_env_ok | exact demo_apart | by apply demo_tx_ready | apply demo_message_codes; auto | apply demo_prechecked | apply demo_accepted | done |].
  specialize (E (Z.to_nat 60001) ltac:(cbn; lia)). fold (demo_apply demo_a 7) in E.
  assert (P : outcome_of (demo_apply demo_a 7) = Some (inr (MkResult 43138 None []))) by (vm_compute; reflexivity).
  rewrite E in P. injection P as ->. exists [], st'. split; [exact E | exact Hgp].
Defined.

Lemma ApplyMessage_accepts_witness : ∃ res st', demo_apply demo_a 7 = Ok (inr res, st').
Proof.
  apply (ApplyMessage_accepts demo_env [] (demo_message demo_a 7) (demo_zvm demo_a) (demo_world demo_a) 100000 (Z.to_nat 60001));
    [exact demo_env_ok | exact demo_apart | by apply demo_tx_ready | apply demo_message_codes; auto | cbn; lia | split; [apply demo_prechecked | apply demo_accepted]].
Defined.

(** The nonce is too high. *)
Lemma ApplyMessage_refuses_witness :
  ∃ st', demo_apply demo_a 8 = Ok (inl ErrNonceTooHigh, st') ∧ gp st' = 100000 ∧ models (z_state (t_zvm st')) (demo_world demo_a).
Proof.
  pose proof (fun e st' => ApplyMessage_refuses demo_env [] (demo_message demo_a 8) (demo_zvm demo_a) (demo_world demo_a) 100000 (Z.to_nat 60001) e st'
    (demo_tx_ready 1 8 ltac:(lia) ltac:(lia))) as H. fold (demo_apply demo_a 8) in H.
  assert (P : outcome_of (demo_apply demo_a 8) = Some (inl ErrNonceTooHigh)) by (vm_compute; reflexivity).
  destruct (demo_apply demo_a 8) as [[r st'] | | |]; [| discriminate P..]. injection P as ->. exists st'. split; [reflexivity |].
  destruct (H _ _ eq_refl) as [(_ & H1 & H2) | ((Ha & _) & _)]; [split; [exact H1 | exact H2] |].
  exfalso. destruct Ha as [Ha | (Ha & _)]; [discriminate Ha | vm_compute in Ha; discriminate Ha].
Defined.

(** The contract stores 1 and reverts. *)
Lemma ApplyMessage_failed_call_witness :
  ∃ res st' sw', demo_apply demo_b 7 = Ok (inr res, st') ∧ UsedGas res = 43144 ∧ r_Err res = Some ErrExecutionReverted ∧ models (z_state (t_zvm st')) sw' ∧
    balance (sw_now sw') demo_b = 0 ∧ balance (sw_now sw') demo_c = 10000000 - 43144 * 9.
Proof.
  pose proof (fun res e st' => ApplyMessage_failed_call demo_env [] (demo_message demo_b 7) (demo_zvm demo_a) (demo_world demo_a) 100000 (Z.to_nat 60001) demo_b res e st'
    demo_env_ok demo_apart (demo_tx_ready 2 7 ltac:(lia) ltac:(lia)) (demo_message_codes demo_b ltac:(auto)) ltac:(cbn; lia) eq_refl) as H. fold (demo_apply demo_b 7) in H.
  assert (P : outcome_of (demo_apply demo_b 7) = Some (inr (MkResult 43144 (Some ErrExecutionReverted) []))) by (vm_compute; reflexivity).
  destruct (demo_apply demo_b 7) as [[r st'] | | |]; [| discriminate P..]. injection P as ->.
  destruct (H _ _ _ eq_refl eq_refl) as (sw' & Hs & Ha & _). eexists _, st', sw'. split; [reflexivity |]. split; [reflexivity |]. split; [reflexivity |].
  split; [exact Hs |]. unfold balance. rewrite !Ha. split; vm_compute; reflexivity.
Defined.
