(* ===== verification/GoHeap.v ===== *)
(** * The heaps of Go's container/heap

    The transaction pool keeps nonces and prices in heaps.  A heap is a slice whose
    elements are not less than their parents; the functions of the standard library
    restore this after a change.  The theorems, for any order: the elements stay the
    same, the result is a heap again, and its first element is a least one. *)

From Stdlib Require Import ZifyNat.
From S2P Require Import Prelude.

#[local] Ltac Zify.zify_post_hook ::= Z.to_euclidean_division_equations.

Section Heap.
  Context {A E : Type} (less : A → A → bool).

Definition elem_at (l : list A) (i : nat) : outcome E A := match l !! i with Some x => Ok x | None => Panic end.

Definition Less (l : list A) (i j : nat) : outcome E bool := x ← elem_at l i; y ← elem_at l j; Ok (less x y).

Definition Swap (l : list A) (i j : nat) : outcome E (list A) := x ← elem_at l i; y ← elem_at l j; Ok (<[i := y]> (<[j := x]> l)).

(** h.Pop of a slice: its last element *)
Definition pop_last (l : list A) : outcome E (A * list A) := x ← elem_at l (length l - 1); Ok (x, take (length l - 1) l).

Fixpoint heap_up (fuel : nat) (l : list A) (j : nat) : outcome E (list A) :=
  match fuel with
  | O => OutOfFuel
  | S fuel =>
      let i := ((j - 1) / 2)%nat in
      if Nat.eqb i j then Ok l
      else
        b ← Less l j i;
        if negb b then Ok l else l ← Swap l i j; heap_up fuel l i
  end.

(** The slice afterwards and where the element went *)
Fixpoint heap_down (fuel : nat) (l : list A) (i n : nat) : outcome E (list A * nat) :=
  match fuel with
  | O => OutOfFuel
  | S fuel =>
      let j1 := (2 * i + 1)%nat in
      if Nat.leb n j1 then Ok (l, i)
      else
        let j2 := (j1 + 1)%nat in
        right ← (if Nat.ltb j2 n then Less l j2 j1 else Ok false);
        let j := if right : bool then j2 else j1 in
        b ← Less l j i;
        if negb b then Ok (l, i) else l ← Swap l i j; heap_down fuel l j n
  end.

(** Init: i counts the nodes that are still to be sifted down. *)
Fixpoint Init_loop (i : nat) (l : list A) : outcome E (list A) :=
  match i with
  | O => Ok l
  | S i => '(l, _) ← heap_down (S (length l)) l i (length l); Init_loop i l
  end.

Definition heap_Init (l : list A) : outcome E (list A) := Init_loop (length l / 2)%nat l.

Definition heap_Push (x : A) (l : list A) : outcome E (list A) :=
  let l := l ++ [x] in
  heap_up (S (length l)) l (length l - 1).

Definition heap_Pop (l : list A) : outcome E (A * list A) :=
  let n := (length l - 1)%nat in
  l ← Swap l 0 n;
  '(l, _) ← heap_down (S (length l)) l 0 n;
  pop_last l.

Definition heap_Remove (l : list A) (i : nat) : outcome E (A * list A) :=
  let n := (length l - 1)%nat in
  l ← (if negb (Nat.eqb n i) then
         l ← Swap l i n;
         '(l, i') ← heap_down (S (length l)) l i n;
         if negb (Nat.ltb i i') then heap_up (S (length l)) l i else Ok l
       else Ok l);
  pop_last l.
End Heap.

(** ** Correctness *)

Section Correct.
  Context {A E : Type} (less : A → A → bool).
  Context (less_asym : ∀ x y, less x y = true → less y x = false) (le_trans : ∀ x y z, less y x = false → less z y = false → less z x = false).

Abbreviation le x y := (less y x = false).
Abbreviation parent k := ((k - 1) / 2)%nat.

(** The edge from [k] to its parent is in order. *)
Definition edge (l : list A) (k : nat) : Prop := ∀ x y, l !! k = Some x → l !! parent k = Some y → le y x.

Definition heap (l : list A) : Prop := ∀ k, (0 < k)%nat → edge l k.

Lemma le_refl x : le x x.
Proof. destruct (less x x) eqn:E0; [by rewrite (less_asym _ _ E0) in E0 | done]. Qed.

Lemma le_less x y : less x y = true → le x y.
Proof. apply less_asym. Qed.

Lemma lookup_swap (l : list A) i j x y k : l !! i = Some x → l !! j = Some y →
  <[i := y]> (<[j := x]> l) !! k = if decide (k = i) then Some y else if decide (k = j) then Some x else l !! k.
Proof.
  intros Hi%lookup_lt_Some Hj%lookup_lt_Some. destruct (decide (k = i)) as [-> | Hne]; [apply list_lookup_insert_eq; by rewrite length_insert |].
  rewrite list_lookup_insert_ne by done. destruct (decide (k = j)) as [-> | Hne2]; [by apply list_lookup_insert_eq | by apply list_lookup_insert_ne].
Qed.
Lemma Swap_ok (l : list A) i j x y : l !! i = Some x → l !! j = Some y → Swap (E := E) l i j = Ok (<[i := y]> (<[j := x]> l)) ∧ <[i := y]> (<[j := x]> l) ≡ₚ l.
Proof.
  intros Hi Hj. unfold Swap, elem_at. rewrite Hi, Hj. split; [done |]. destruct (decide (i = j)) as [-> | Hne].
  - rewrite Hi in Hj. injection Hj as <-. rewrite list_insert_insert_eq. by rewrite list_insert_id.
  - apply Permutation_inj. rewrite !length_insert. split; [done |]. exists (fun k => if decide (k = i) then j else if decide (k = j) then i else k). split.
    + intros a b. repeat case_decide; congruence.
    + intros k. rewrite (lookup_swap l i j x y) by done. repeat case_decide; congruence.
Qed.

Lemma Less_ok (l : list A) i j x y : l !! i = Some x → l !! j = Some y → Less (E := E) less l i j = Ok (less x y).
Proof. intros Hi Hj. unfold Less, elem_at. by rewrite Hi, Hj. Qed.

Definition heap_upto (l : list A) (n : nat) : Prop := ∀ k, (0 < k < n)%nat → edge l k.

(** The first [n] are in order but for the edge above [j]. *)
Definition up_inv (l : list A) (j n : nat) : Prop :=
  (∀ k, (0 < k < n)%nat → k ≠ j → edge l k) ∧
  (∀ k x y, (0 < k < n)%nat → parent k = j → (0 < j)%nat → l !! k = Some x → l !! parent j = Some y → le y x).

Lemma up_inv_swap l j n x y : (0 < j < n)%nat → l !! j = Some x → l !! parent j = Some y → le x y → up_inv l j n → up_inv (<[parent j := x]> (<[j := y]> l)) (parent j) n.
Proof.
  intros Hj Hx Hy Hlt [H1 H2]. set (i := parent j) in *. assert (Hi : (i < j)%nat) by (unfold i; lia). split.
  - intros k Hk Hne u v. rewrite !(lookup_swap l i j y x) by done. rewrite (decide_False (P := k = i)) by done. destruct (decide (k = j)) as [-> | Hkj].
    + intros [= <-]. fold i. rewrite decide_True by done. by intros [= <-].
    + intros Hu. destruct (decide (parent k = i)) as [Ep | Ep]; [intros [= <-]; apply (le_trans _ y); [done |]; apply (H1 k); try done; by rewrite Ep |].
      destruct (decide (parent k = j)) as [Ej | Ej]; [intros [= <-]; by apply (H2 k); [| | lia | |] | by apply (H1 k)].
  - intros k u v Hk Ek Hi0. rewrite !(lookup_swap l i j y x) by done. rewrite (decide_False (P := k = i)) by lia. rewrite (decide_False (P := parent i = i)) by lia. rewrite (decide_False (P := parent i = j)) by lia.
    destruct (decide (k = j)) as [-> | Hkj]; [intros [= <-] Hv; apply (H1 i); (done || lia) |]. intros Hu Hv. apply (le_trans _ y); [apply (H1 i); (done || lia) |].
    apply (H1 k); try done. by rewrite Ek.
Qed.

Lemma heap_up_ok fuel : ∀ l j n, (j < n <= length l)%nat → (j < fuel)%nat → up_inv l j n →
  ∃ l', heap_up (E := E) less fuel l j = Ok l' ∧ l' ≡ₚ l ∧ heap_upto l' n ∧ ∀ k, (n <= k)%nat → l' !! k = l !! k.
Proof.
  induction fuel as [| fuel IH]; intros l j n Hl Hf Hinv; [lia |]. cbn [heap_up]. destruct (Nat.eqb_spec (parent j) j) as [E0 | Hne].
  - exists l. split_and!; [done | done | | done]. intros k Hk. apply Hinv; lia.
  - destruct (lookup_lt_is_Some_2 l j ltac:(lia)) as [x Hx]. destruct (lookup_lt_is_Some_2 l (parent j)) as [y Hy]; [lia |].
    rewrite (Less_ok l j (parent j) x y) by done. cbn [mbind outcome_bind]. destruct (less x y) eqn:Elt; cbn [negb].
    + destruct (Swap_ok l (parent j) j y x Hy Hx) as [-> Hperm]. cbn [mbind outcome_bind].
      destruct (IH (<[parent j := x]> (<[j := y]> l)) (parent j) n) as (l' & E1 & Hp' & Hh & Hk'); [rewrite !length_insert; lia | lia | apply up_inv_swap; try done; [lia | by apply le_less] |].
      exists l'. split_and!; [done | by rewrite Hp' | done |]. intros k Hk. rewrite Hk' by done. rewrite !list_lookup_insert_ne by lia. done.
    + exists l. split_and!; [done | done | | done]. intros k Hk. destruct (decide (k = j)) as [-> | Hkj]; [| by apply Hinv]. intros u v. rewrite Hx, Hy. by intros [= <-] [= <-].
Qed.

(** ** Sifting down *)

(** What sifting from [i] did to [l] when the heap has [n] elements and [l'], [i'] come out *)
Record sifted (l : list A) (i0 i n : nat) (l' : list A) (i' : nat) : Prop := MkSifted {
  sf_pos : (i <= i')%nat;
  sf_perm : l' ≡ₚ l;
  sf_edges : ∀ k, (0 < k < n)%nat → (i0 <= parent k)%nat → edge l' k;
  sf_kept : ∀ k, k ≠ i → ((0 < k)%nat → (parent k < i)%nat) ∨ (n <= k)%nat → l' !! k = l !! k;
  sf_still : i' = i → l' = l;
  sf_moved : (i < i')%nat → ∃ k x, (0 < k < n)%nat ∧ parent k = i ∧ l !! k = Some x ∧ l' !! i = Some x
}.

(** In order below [i0] but for the edges below [i] *)
Definition down_inv (l : list A) (i0 i n : nat) : Prop :=
  (∀ k, (0 < k < n)%nat → (i0 <= parent k)%nat → parent k ≠ i → edge l k) ∧
  ((i0 < i)%nat → ∀ k x y, (0 < k < n)%nat → parent k = i → l !! k = Some x → l !! parent i = Some y → le y x).

(** [j] is the least child of [i]. *)
Definition least_child (l : list A) (i n j : nat) (c : A) : Prop :=
  (0 < j < n)%nat ∧ parent j = i ∧ l !! j = Some c ∧ ∀ k y, (0 < k < n)%nat → parent k = i → l !! k = Some y → le c y.

Lemma down_inv_swap l i0 i n j x c : (i0 <= i)%nat → l !! i = Some x → least_child l i n j c → le c x → down_inv l i0 i n → down_inv (<[i := c]> (<[j := x]> l)) i0 j n.
Proof.
  intros Hi Hx (Hj & Ej & Hc & Hmin) Hlt [D1 D2]. split.
  - intros k Hk Hpk Hne u v. rewrite !(lookup_swap l i j x c) by done. rewrite (decide_False (P := parent k = j)) by done.
    destruct (decide (k = i)) as [-> | Hki].
    + rewrite (decide_False (P := parent i = i)) by lia. intros [= <-] Hv. apply (D2 ltac:(lia) j); done.
    + destruct (decide (k = j)) as [-> | Hkj]; [rewrite decide_True by done; by intros [= <-] [= <-] |].
      destruct (decide (parent k = i)) as [Ep | Ep]; [intros Hu [= <-]; by apply (Hmin k) | by apply (D1 k)].
  - intros _ k u v Hk Ek. rewrite !(lookup_swap l i j x c) by done. rewrite (decide_False (P := k = i)) by lia. rewrite (decide_False (P := k = j)) by lia. rewrite decide_True by done.
    intros Hu [= <-]. apply (D1 k); [done | lia | lia | done |]. by rewrite Ek.
Qed.

Lemma sifted_swap l i0 i n j x c l' i' : l !! i = Some x → least_child l i n j c → sifted (<[i := c]> (<[j := x]> l)) i0 j n l' i' → sifted l i0 i n l' i'.
Proof.
  intros Hx (Hj & Ej & Hc & _) [Hpos Hperm Hedges Hkept _ _]. pose proof (Swap_ok l i j x c Hx Hc) as [_ Hp]. split.
  - lia.
  - by rewrite Hperm.
  - done.
  - intros k Hk Hout. rewrite Hkept by lia. rewrite (lookup_swap l i j x c) by done. rewrite decide_False by done. by rewrite decide_False by lia.
  - lia.
  - intros _. exists j, c. split_and!; [lia | lia | done | done |]. rewrite Hkept by lia. rewrite (lookup_swap l i j x c) by done. by rewrite decide_True.
Qed.

Lemma choose_child l i n : (2 * i + 1 < n)%nat → (n <= length l)%nat →
  ∃ j c, (right ← (if Nat.ltb (2 * i + 1 + 1) n then Less (E := E) less l (2 * i + 1 + 1) (2 * i + 1) else Ok false); Ok (if right : bool then 2 * i + 1 + 1 else 2 * i + 1)%nat) = Ok j ∧ least_child l i n j c.
Proof.
  intros H1 Hn. destruct (lookup_lt_is_Some_2 l (2 * i + 1)) as [c1 Hc1]; [lia |]. destruct (Nat.ltb_spec (2 * i + 1 + 1) n) as [H2 | H2].
  - destruct (lookup_lt_is_Some_2 l (2 * i + 1 + 1)) as [c2 Hc2]; [lia |]. rewrite (Less_ok l _ _ c2 c1) by done. cbn [mbind outcome_bind]. destruct (less c2 c1) eqn:Elt.
    + exists (2 * i + 1 + 1)%nat, c2. split; [done |]. split_and!; [lia | lia | lia | done |]. intros k y Hk Ek Hy.
      destruct (decide (k = 2 * i + 1 + 1)%nat) as [-> | Hne]; [rewrite Hc2 in Hy; injection Hy as <-; apply le_refl |].
      replace k with (2 * i + 1)%nat in Hy by lia. rewrite Hc1 in Hy. injection Hy as <-. by apply le_less.
    + exists (2 * i + 1)%nat, c1. split; [done |]. split_and!; [lia | lia | lia | done |]. intros k y Hk Ek Hy.
      destruct (decide (k = 2 * i + 1)%nat) as [-> | Hne]; [rewrite Hc1 in Hy; injection Hy as <-; apply le_refl |].
      replace k with (2 * i + 1 + 1)%nat in Hy by lia. rewrite Hc2 in Hy. by injection Hy as <-.
  - exists (2 * i + 1)%nat, c1. split; [done |]. split_and!; [lia | lia | lia | done |]. intros k y Hk Ek Hy. replace k with (2 * i + 1)%nat in Hy by lia. rewrite Hc1 in Hy. injection Hy as <-. apply le_refl.
Qed.

Lemma heap_down_ok i0 n fuel : ∀ l i, (i0 <= i < length l)%nat → (n <= length l)%nat → (length l - i < fuel)%nat → down_inv l i0 i n →
  ∃ l' i', heap_down (E := E) less fuel l i n = Ok (l', i') ∧ sifted l i0 i n l' i'.
Proof.
  induction fuel as [| fuel IH]; intros l i Hi Hn Hf Hinv; [lia |]. cbn [heap_down].
  assert (Hstill : (∀ k, (0 < k < n)%nat → parent k = i → edge l k) → sifted l i0 i n l i).
  { intros Hedge. split; [lia | done | | done | done | lia]. intros k Hk Hp. destruct (decide (parent k = i)); [by apply Hedge | by apply Hinv]. }
  destruct (Nat.leb_spec n (2 * i + 1)) as [Hle | Hlt]; [exists l, i; split; [done |]; apply Hstill; intros; lia |].
  destruct (choose_child l i n Hlt Hn) as (j & c & Ej & Hc). destruct (if Nat.ltb (2 * i + 1 + 1) n then _ else _) as [right | | |]; try done. cbn [mbind outcome_bind] in Ej |- *.
  assert ((if right : bool then 2 * i + 1 + 1 else 2 * i + 1)%nat = j) as -> by congruence. clear Ej.
  destruct (lookup_lt_is_Some_2 l i) as [x Hx]; [lia |]. pose proof Hc as (Hj & Epj & Hcj & Hmin). rewrite (Less_ok l j i c x) by done. cbn [mbind outcome_bind].
  destruct (less c x) eqn:Elt; cbn [negb].
  - destruct (Swap_ok l i j x c Hx Hcj) as [-> _]. cbn [mbind outcome_bind].
    destruct (IH (<[i := c]> (<[j := x]> l)) j) as (l' & i' & E1 & Hs); [rewrite !length_insert; lia | rewrite !length_insert; lia | rewrite !length_insert; lia | apply down_inv_swap; try done; [lia | by apply le_less] |].
    exists l', i'. split; [done |]. by apply (sifted_swap l i0 i n j x c).
  - exists l, i. split; [done |]. apply Hstill. intros k Hk Ek u v Hu. rewrite Ek, Hx. intros [= <-]. by apply (le_trans _ c), (Hmin k).
Qed.

(** ** The operations *)

Lemma heap_least l x y : heap l → l !! 0%nat = Some x → y ∈ l → le x y.
Proof.
  intros Hh Hx Hy. apply list_elem_of_lookup in Hy as [i Hi]. revert y Hi. induction i as [i IH] using lt_wf_ind. intros y Hi. destruct (decide (i = 0%nat)) as [-> | Hne].
  - rewrite Hx in Hi. injection Hi as <-. apply le_refl.
  - pose proof (lookup_lt_Some _ _ _ Hi). destruct (lookup_lt_is_Some_2 l (parent i)) as [z Hz]; [lia |]. apply (le_trans _ z); [apply (IH (parent i)); [lia | done] |]. apply (Hh i); [lia | done | done].
Qed.

Lemma heap_nil : heap [].
Proof. by intros k _ x y. Qed.

Lemma heap_take l n : heap_upto l n → heap (take n l).
Proof. intros H k Hk x y. rewrite !lookup_take_Some. intros [Hx Hl] [Hy _]. by apply (H k). Qed.

Lemma heap_upto_length l : heap_upto l (length l) ↔ heap l.
Proof. split; intros H k Hk x y Hx Hy; [pose proof (lookup_lt_Some _ _ _ Hx); by apply (H k) | by apply (H k); [lia | |]]. Qed.

Lemma pop_last_ok (l : list A) x : l !! (length l - 1)%nat = Some x → pop_last (E := E) l = Ok (x, take (length l - 1) l) ∧ l ≡ₚ x :: take (length l - 1) l.
Proof.
  intros Hx. unfold pop_last, elem_at. rewrite Hx. split; [done |]. pose proof (lookup_lt_Some _ _ _ Hx) as Hl.
  rewrite <- (take_drop (length l - 1) l) at 1. rewrite (drop_S _ _ _ Hx). replace (S (length l - 1)) with (length l) by lia. rewrite drop_all, Permutation_app_comm. done.
Qed.

Lemma heap_Push_ok x l : heap l → ∃ l', heap_Push (E := E) less x l = Ok l' ∧ l' ≡ₚ x :: l ∧ heap l'.
Proof.
  intros Hh. unfold heap_Push. rewrite length_app. cbn [length]. replace (length l + 1 - 1)%nat with (length l) by lia.
  destruct (heap_up_ok (S (length l + 1)) (l ++ [x]) (length l) (length l + 1)) as (l' & E1 & Hp & Hh' & _); [rewrite length_app; cbn; lia | lia | |].
  - split; [| intros k u v Hk Ek Hl; lia]. intros k Hk Hne u v. rewrite !lookup_app_l by lia. apply Hh. lia.
  - exists l'. split_and!; [done | by rewrite Hp, Permutation_app_comm |]. apply heap_upto_length. rewrite (Permutation_length Hp), length_app. done.
Qed.

Lemma heap_Pop_ok l x : heap l → l !! 0%nat = Some x → ∃ l', heap_Pop (E := E) less l = Ok (x, l') ∧ l ≡ₚ x :: l' ∧ heap l'.
Proof.
  intros Hh Hx. pose proof (lookup_lt_Some _ _ _ Hx) as Hl. unfold heap_Pop. set (n := (length l - 1)%nat). destruct (lookup_lt_is_Some_2 l n) as [z Hz]; [lia |].
  destruct (Swap_ok l 0 n x z Hx Hz) as [-> Hp]. cbn [mbind outcome_bind]. set (l1 := <[0%nat := z]> (<[n := x]> l)) in *. assert (Hl1 : length l1 = length l) by (unfold l1; by rewrite !length_insert).
  destruct (heap_down_ok 0 n (S (length l1)) l1 0) as (l2 & i' & -> & [_ Hp2 Hedges Hkept Hstill Hmoved]); [lia | lia | lia | |].
  - split; [| lia]. intros k Hk _ Hne u v. unfold l1. rewrite !(lookup_swap l 0 n x z) by done. rewrite !decide_False by lia. apply Hh. lia.
  - cbn [mbind outcome_bind]. assert (Hl2 : length l2 = length l) by (by rewrite (Permutation_length Hp2)). assert (Hlast : l2 !! (length l2 - 1)%nat = Some x).
    { rewrite Hl2. fold n. destruct (decide (n = 0%nat)) as [En | En].
      - destruct (decide (i' = 0%nat)) as [Ei | Ei]; [| destruct Hmoved as (? & ? & ? & _); lia]. rewrite (Hstill Ei). unfold l1. rewrite (lookup_swap l 0 n x z) by done. rewrite decide_True by done.
        rewrite En, Hx in Hz. by injection Hz as <-.
      - rewrite Hkept by lia. unfold l1. rewrite (lookup_swap l 0 n x z) by done. rewrite decide_False by done. by rewrite decide_True. }
    destruct (pop_last_ok l2 x Hlast) as [-> Hp3]. exists (take (length l2 - 1) l2). split_and!; [done | by rewrite <- Hp, <- Hp2 |]. apply heap_take. intros k Hk. apply Hedges; lia.
Qed.

Lemma heap_Remove_ok l i x : heap l → l !! i = Some x → ∃ l', heap_Remove (E := E) less l i = Ok (x, l') ∧ l ≡ₚ x :: l' ∧ heap l'.
Proof.
  intros Hh Hx. pose proof (lookup_lt_Some _ _ _ Hx) as Hl. unfold heap_Remove. set (n := (length l - 1)%nat).
  assert (Hend : ∀ l2, l2 ≡ₚ l → l2 !! n = Some x → heap_upto l2 n → ∃ l', pop_last (E := E) l2 = Ok (x, l') ∧ l ≡ₚ x :: l' ∧ heap l').
  { intros l2 Hp Hlast Hup. pose proof (Permutation_length Hp) as El. unfold n in *. rewrite <- El in Hlast, Hup. destruct (pop_last_ok l2 x Hlast) as [-> Hp2].
    exists (take (length l2 - 1) l2). split_and!; [done | by rewrite <- Hp | by apply heap_take]. }
  destruct (Nat.eqb_spec n i) as [<- | Hne]; cbn [negb mbind outcome_bind]; [apply Hend; [done | done |]; intros k Hk; apply Hh; lia |].
  destruct (lookup_lt_is_Some_2 l n) as [z Hz]; [lia |]. destruct (Swap_ok l i n x z Hx Hz) as [-> Hp]. cbn [mbind outcome_bind].
  set (l1 := <[i := z]> (<[n := x]> l)) in *. assert (Hl1 : length l1 = length l) by (unfold l1; by rewrite !length_insert).
  assert (Hsame : ∀ k, k ≠ i → k ≠ n → l1 !! k = l !! k) by (intros k H1 H2; unfold l1; rewrite (lookup_swap l i n x z) by done; by rewrite !decide_False).
  assert (Hn1 : l1 !! n = Some x) by (unfold l1; rewrite (lookup_swap l i n x z) by done; by rewrite decide_False, decide_True).
  destruct (heap_down_ok i n (S (length l1)) l1 i) as (l2 & i' & -> & [Hpos Hp2 Hedges Hkept Hstill Hmoved]); [lia | lia | lia | |].
  { split; [| lia]. intros k Hk Hpk Hnp u v. rewrite !Hsame by lia. apply Hh. lia. }
  cbn [mbind outcome_bind]. destruct (Nat.ltb_spec i i') as [Hlt | Hge]; cbn [negb].
  - apply Hend; [by rewrite Hp2 | by rewrite Hkept by lia |]. intros k Hk. destruct (decide (i <= parent k)%nat) as [Hpk | Hpk]; [by apply Hedges |].
    intros u v. rewrite (Hkept (parent k)) by lia. rewrite (Hsame (parent k)) by lia. destruct (decide (k = i)) as [-> | Hki].
    + destruct (Hmoved Hlt) as (c & w & Hc & Epc & Hw & ->). intros [= <-] Hv. rewrite Hsame in Hw by lia. apply (le_trans _ x); [by apply (Hh i); [lia | |] |]. apply (Hh c); [lia | done |]. by rewrite Epc.
    + rewrite Hkept by lia. rewrite Hsame by lia. apply Hh. lia.
  - assert (i' = i) as -> by lia. rewrite (Hstill eq_refl) in *. destruct (heap_up_ok (S (length l1)) l1 i n) as (l3 & -> & Hp3 & Hup & Hk3); [lia | lia | |].
    + split.
      * intros k Hk Hki u v. destruct (decide (parent k = i)) as [Ep | Ep]; [apply Hedges; lia |]. rewrite !Hsame by lia. apply Hh. lia.
      * intros k u v Hk Ek Hi0 Hu Hv. rewrite Hsame in Hu, Hv by lia. apply (le_trans _ x); [by apply (Hh i) | apply (Hh k); [lia | done | by rewrite Ek]].
    + cbn [mbind outcome_bind]. apply Hend; [by rewrite Hp3 | by rewrite Hk3 | done].
Qed.

Lemma Init_loop_ok i : ∀ l, (i <= length l)%nat → (∀ k, (0 < k < length l)%nat → (i <= parent k)%nat → edge l k) → ∃ l', Init_loop (E := E) less i l = Ok l' ∧ l' ≡ₚ l ∧ heap l'.
Proof.
  induction i as [| i IH]; intros l Hi Hedges; cbn [Init_loop].
  - exists l. split_and!; [done | done |]. apply heap_upto_length. intros k Hk. apply Hedges; lia.
  - destruct (heap_down_ok i (length l) (S (length l)) l i) as (l2 & i' & -> & [_ Hp Hedges2 _ _ _]); [lia | lia | lia | split; [intros k Hk Hpk Hne; apply Hedges; lia | lia] |].
    cbn [mbind outcome_bind]. pose proof (Permutation_length Hp) as El. destruct (IH l2) as (l' & E1 & Hp' & Hh); [lia | intros k Hk Hpk; apply Hedges2; lia |].
    exists l'. split_and!; [done | by rewrite Hp' | done].
Qed.

Lemma heap_Init_ok l : ∃ l', heap_Init (E := E) less l = Ok l' ∧ l' ≡ₚ l ∧ heap l'.
Proof. apply Init_loop_ok; [lia |]. intros k Hk Hp. lia. Qed.
End Correct.
