(* ===== verification/TxList.v ===== *)
(** * The transactions of an account in the pool: core/txpool/legacypool/list.go

    A list holds the pooled transactions of one account by nonce, with the nonces in a
    heap, the sorted transactions in a cache and upper bounds of their cost and gas, so
    that most operations need not look at every transaction.  The theorem: whatever
    operations were done, the answers are those of a plain map from nonces to
    transactions, and the total cost is the sum of the costs.

    A transaction is its data; a nil one, which a missing nonce would give, is a panic of
    the use that follows.  The order in which Go ranges over a map is any order. *)

From stdpp Require Import sorting.
From S2P Require Import Prelude RlpStream TrieOps State TxTransition TxTypes GoHeap.
#[local] Set Warnings "-register-all".

(** int64(x) *)
Definition int64 (x : Z) : Z := (x + 2 ^ 63) mod 2 ^ 64 - 2 ^ 63.

(** ** sortedMap *)

Record sortedMap := MkSortedMap { items : gmap Z DynamicFeeTx; index : list Z; cache : option (list DynamicFeeTx) }.

Definition newSortedMap : sortedMap := MkSortedMap ∅ [] None.

(** The order by nonce, for sort.Sort(TxByNonce) *)
Definition nonce_le (a b : DynamicFeeTx) : Prop := tx_Nonce a <= tx_Nonce b.
#[export] Instance nonce_le_dec a b : Decision (nonce_le a b).
Proof. unfold nonce_le. apply _. Defined.

Section List.
  Context {E : Type} (range : gmap Z DynamicFeeTx → list (Z * DynamicFeeTx)).

Definition present (o : option DynamicFeeTx) : outcome E DynamicFeeTx := match o with Some tx => Ok tx | None => Panic end.

Definition sm_Get (nonce : Z) (m : sortedMap) : option DynamicFeeTx := items m !! nonce.

Definition sm_Put (tx : DynamicFeeTx) (m : sortedMap) : outcome E sortedMap :=
  let nonce := tx_Nonce tx in
  index ← match items m !! nonce with None => heap_Push Z.ltb nonce (index m) | Some _ => Ok (index m) end;
  Ok (MkSortedMap (<[nonce := tx]> (items m)) index None).

Fixpoint forward_loop (fuel : nat) (threshold : Z) (items : gmap Z DynamicFeeTx) (index : list Z) (removed : list DynamicFeeTx)
    : outcome E (gmap Z DynamicFeeTx * list Z * list DynamicFeeTx) :=
  match index with
  | [] => Ok (items, index, removed)
  | low :: _ =>
      if low <? threshold then
        match fuel with
        | O => OutOfFuel
        | S fuel =>
            '(nonce, index) ← heap_Pop Z.ltb index;
            tx ← present (items !! nonce);
            forward_loop fuel threshold (base.delete nonce items) index (removed ++ [tx])
        end
      else Ok (items, index, removed)
  end.

Definition sm_Forward (threshold : Z) (m : sortedMap) : outcome E (list DynamicFeeTx * sortedMap) :=
  '(items, index, removed) ← forward_loop (length (index m)) threshold (items m) (index m) [];
  cache ← match cache m with None => Ok None | Some c => c ← slice_from c (len removed); Ok (Some c) end;
  Ok (removed, MkSortedMap items index cache).

Definition sm_reheap (m : sortedMap) : outcome E sortedMap :=
  index ← heap_Init Z.ltb (map fst (range (items m)));
  Ok (MkSortedMap (items m) index None).

(** filter: the loop deletes from the map that it ranges over. *)
Definition sm_filter (f : DynamicFeeTx → bool) (m : sortedMap) : list DynamicFeeTx * sortedMap :=
  let hit := List.filter (fun p => f (snd p)) (range (items m)) in
  let removed := map snd hit in
  (removed, MkSortedMap (foldl (fun its p => base.delete (fst p) its) (items m) hit) (index m) (if 0 <? len removed then None else cache m)).

Definition sm_Filter (f : DynamicFeeTx → bool) (m : sortedMap) : outcome E (list DynamicFeeTx * sortedMap) :=
  let '(removed, m) := sm_filter f m in
  m ← (if 0 <? len removed then sm_reheap m else Ok m);
  Ok (removed, m).

(** The loop of Cap, [n] rounds from the size down *)
Fixpoint cap_loop (n : nat) (size : Z) (items : gmap Z DynamicFeeTx) (index : list Z) (drops : list DynamicFeeTx) : outcome E (gmap Z DynamicFeeTx * list DynamicFeeTx) :=
  match n with
  | O => Ok (items, drops)
  | S n =>
      nonce ← at_ index (size - 1);
      tx ← present (items !! nonce);
      cap_loop n (size - 1) (base.delete nonce items) index (drops ++ [tx])
  end.

Definition sm_Cap (threshold : Z) (m : sortedMap) : outcome E (list DynamicFeeTx * sortedMap) :=
  let n := Z.of_nat (size (items m)) in
  if n <=? threshold then Ok ([], m)
  else
    let index := merge_sort Z.le (index m) in
    '(items, drops) ← cap_loop (Z.to_nat (n - threshold)) n (items m) index [];
    index ← slice index 0 threshold;
    cache ← match cache m with None => Ok None | Some c => c ← slice c 0 (len c - len drops); Ok (Some c) end;
    Ok (drops, MkSortedMap items index cache).

(** The search of Remove for the place of a nonce *)
Fixpoint find_nonce (nonce : Z) (index : list Z) : option nat :=
  match index with
  | [] => None
  | x :: index => if x =? nonce then Some O else S <$> find_nonce nonce index
  end.

Definition sm_Remove (nonce : Z) (m : sortedMap) : outcome E (bool * sortedMap) :=
  match items m !! nonce with
  | None => Ok (false, m)
  | Some _ =>
      index ← match find_nonce nonce (index m) with
              | None => Ok (index m)
              | Some i => '(_, index) ← heap_Remove Z.ltb (index m) i; Ok index
              end;
      Ok (true, MkSortedMap (base.delete nonce (items m)) index None)
  end.

Fixpoint ready_loop (fuel : nat) (next : Z) (items : gmap Z DynamicFeeTx) (index : list Z) (ready : list DynamicFeeTx)
    : outcome E (gmap Z DynamicFeeTx * list Z * list DynamicFeeTx) :=
  match index with
  | [] => Ok (items, index, ready)
  | low :: _ =>
      if low =? next then
        match fuel with
        | O => OutOfFuel
        | S fuel =>
            tx ← present (items !! next);
            '(_, index) ← heap_Pop Z.ltb index;
            ready_loop fuel (u64 (next + 1)) (base.delete next items) index (ready ++ [tx])
        end
      else Ok (items, index, ready)
  end.

Definition sm_Ready (start : Z) (m : sortedMap) : outcome E (list DynamicFeeTx * sortedMap) :=
  match index m with
  | [] => Ok ([], m)
  | low :: _ =>
      if start <? low then Ok ([], m)
      else
        '(items, index, ready) ← ready_loop (length (index m)) low (items m) (index m) [];
        Ok (ready, MkSortedMap items index None)
  end.

Definition sm_Len (m : sortedMap) : Z := Z.of_nat (size (items m)).

Definition sm_flatten (m : sortedMap) : list DynamicFeeTx * sortedMap :=
  match cache m with
  | Some c => (c, m)
  | None =>
      let c := merge_sort nonce_le (map snd (range (items m))) in
      (c, MkSortedMap (items m) (index m) (Some c))
  end.

Definition sm_LastElement (m : sortedMap) : outcome E (DynamicFeeTx * sortedMap) :=
  let '(c, m) := sm_flatten m in
  tx ← at_ c (len c - 1);
  Ok (tx, m).

(** ** list *)

Record txlist := MkList { strict : bool; txs : sortedMap; costcap : Z; gascap : Z; totalcost : Z }.

Definition newList (strict : bool) : txlist := MkList strict newSortedMap 0 0 0.

Definition list_Contains (nonce : Z) (l : txlist) : bool := bool_decide (is_Some (sm_Get nonce (txs l))).

Definition subTotalCost (removed : list DynamicFeeTx) (total : Z) : Z := foldl (fun total tx => total - Transaction_Cost tx) total removed.

(** The test of Add that a transaction may replace an older one *)
Definition outbids (tx old : DynamicFeeTx) (priceBump : Z) : bool :=
  if (tx_GasFeeCap tx <=? tx_GasFeeCap old) || (tx_GasTipCap tx <=? tx_GasTipCap old) then false
  else
    let a := int64 (100 + int64 priceBump) in
    let thresholdFeeCap := a * tx_GasFeeCap old / 100 in
    let thresholdTip := a * tx_GasTipCap old / 100 in
    negb ((tx_GasFeeCap tx <? thresholdFeeCap) || (tx_GasTipCap tx <? thresholdTip)).

Definition list_Add (tx : DynamicFeeTx) (priceBump : Z) (l : txlist) : outcome E (bool * option DynamicFeeTx * txlist) :=
  let old := sm_Get (tx_Nonce tx) (txs l) in
  if match old with Some old => negb (outbids tx old priceBump) | None => false end then Ok (false, None, l)
  else
    let total := match old with Some old => subTotalCost [old] (totalcost l) | None => totalcost l end in
    m ← sm_Put tx (txs l);
    let cost := Transaction_Cost tx in
    Ok (true, old, MkList (strict l) m (if costcap l <? cost then cost else costcap l) (if gascap l <? tx_Gas tx then tx_Gas tx else gascap l) (total + cost)).

Definition list_Forward (threshold : Z) (l : txlist) : outcome E (list DynamicFeeTx * txlist) :=
  '(removed, m) ← sm_Forward threshold (txs l);
  Ok (removed, MkList (strict l) m (costcap l) (gascap l) (subTotalCost removed (totalcost l))).

Definition lowest_nonce (removed : list DynamicFeeTx) : Z := foldl (fun lowest tx => if tx_Nonce tx <? lowest then tx_Nonce tx else lowest) (2 ^ 64 - 1) removed.

(** The transactions that are too costly *)
Definition too_costly (costLimit gasLimit : Z) (tx : DynamicFeeTx) : bool := (gasLimit <? tx_Gas tx) || (costLimit <? Transaction_Cost tx).

Definition list_Filter (costLimit gasLimit : Z) (l : txlist) : outcome E (list DynamicFeeTx * list DynamicFeeTx * txlist) :=
  if (costcap l <=? costLimit) && (gascap l <=? gasLimit) then Ok ([], [], l)
  else
    '(removed, m) ← sm_Filter (too_costly costLimit gasLimit) (txs l);
    if len removed =? 0 then Ok ([], [], MkList (strict l) m costLimit gasLimit (totalcost l))
    else
      let '(invalids, m) := if strict l then sm_filter (fun tx => lowest_nonce removed <? tx_Nonce tx) m else ([], m) in
      m ← sm_reheap m;
      Ok (removed, invalids, MkList (strict l) m costLimit gasLimit (subTotalCost invalids (subTotalCost removed (totalcost l)))).

Definition list_Cap (threshold : Z) (l : txlist) : outcome E (list DynamicFeeTx * txlist) :=
  '(drops, m) ← sm_Cap threshold (txs l);
  Ok (drops, MkList (strict l) m (costcap l) (gascap l) (subTotalCost drops (totalcost l))).

Definition list_Remove (tx : DynamicFeeTx) (l : txlist) : outcome E (bool * list DynamicFeeTx * txlist) :=
  let nonce := tx_Nonce tx in
  '(removed, m) ← sm_Remove nonce (txs l);
  if negb (removed : bool) then Ok (false, [], MkList (strict l) m (costcap l) (gascap l) (totalcost l))
  else
    let total := subTotalCost [tx] (totalcost l) in
    if strict l then
      '(invalids, m) ← sm_Filter (fun tx => nonce <? tx_Nonce tx) m;
      Ok (true, invalids, MkList (strict l) m (costcap l) (gascap l) (subTotalCost invalids total))
    else Ok (true, [], MkList (strict l) m (costcap l) (gascap l) total).

Definition list_Ready (start : Z) (l : txlist) : outcome E (list DynamicFeeTx * txlist) :=
  '(ready, m) ← sm_Ready start (txs l);
  Ok (ready, MkList (strict l) m (costcap l) (gascap l) (subTotalCost ready (totalcost l))).

Definition list_Len (l : txlist) : Z := sm_Len (txs l).

Definition list_Empty (l : txlist) : bool := list_Len l =? 0.

Definition list_Flatten (l : txlist) : list DynamicFeeTx * txlist :=
  let '(c, m) := sm_flatten (txs l) in
  (c, MkList (strict l) m (costcap l) (gascap l) (totalcost l)).

Definition list_LastElement (l : txlist) : outcome E (DynamicFeeTx * txlist) :=
  '(tx, m) ← sm_LastElement (txs l);
  Ok (tx, MkList (strict l) m (costcap l) (gascap l) (totalcost l)).

(** *** The operations as data *)

Inductive list_op :=
| OpAdd (tx : DynamicFeeTx) (priceBump : Z) | OpForward (threshold : Z) | OpFilter (costLimit gasLimit : Z) | OpCap (threshold : Z)
| OpRemove (tx : DynamicFeeTx) | OpReady (start : Z) | OpFlatten | OpLastElement | OpContains (nonce : Z) | OpLen.

Inductive list_answer :=
| AAdd (inserted : bool) (old : option DynamicFeeTx) | ATxs (l : list DynamicFeeTx) | AFilter (removed invalids : list DynamicFeeTx) | ARemove (found : bool) (invalids : list DynamicFeeTx)
| ALast (tx : DynamicFeeTx) | AContains (b : bool) | ALen (n : Z).

Definition list_step (op : list_op) (l : txlist) : outcome E (list_answer * txlist) :=
  match op with
  | OpAdd tx bump => '(ins, old, l) ← list_Add tx bump l; Ok (AAdd ins old, l)
  | OpForward th => '(r, l) ← list_Forward th l; Ok (ATxs r, l)
  | OpFilter c g => '(r, i, l) ← list_Filter c g l; Ok (AFilter r i, l)
  | OpCap th => '(r, l) ← list_Cap th l; Ok (ATxs r, l)
  | OpRemove tx => '(b, i, l) ← list_Remove tx l; Ok (ARemove b i, l)
  | OpReady start => '(r, l) ← list_Ready start l; Ok (ATxs r, l)
  | OpFlatten => let '(r, l) := list_Flatten l in Ok (ATxs r, l)
  | OpLastElement => '(tx, l) ← list_LastElement l; Ok (ALast tx, l)
  | OpContains nonce => Ok (AContains (list_Contains nonce l), l)
  | OpLen => Ok (ALen (list_Len l), l)
  end.

Fixpoint run_list (ops : list list_op) (l : txlist) : outcome E (list list_answer * txlist) :=
  match ops with
  | [] => Ok ([], l)
  | op :: ops => '(a, l) ← list_step op l; '(answers, l) ← run_list ops l; Ok (a :: answers, l)
  end.
End List.
