(* ===== verification/TxListSpec.v ===== *)
(** * What the transaction lists of the pool promise

    The specification of core/txpool/legacypool/list.go is a plain list of transactions
    by increasing nonce: [spec_step] says what an operation makes of it and answers.  The
    theorem [list_refines] is a refinement, for every order in which the maps of the code
    are ranged over. *)

From stdpp Require Import sorting.
From S2P Require Import Prelude TxTransition TxTypes GoHeap TxList.
#[local] Set Warnings "-register-all".

Abbreviation txmap := (gmap Z DynamicFeeTx).

(** ** Maps and their transactions *)

Definition keyed (M : txmap) : Prop := ∀ n tx, M !! n = Some tx → tx_Nonce tx = n ∧ 0 <= n < 2 ^ 64.

(** The transactions of a map, once each *)
Definition enum (M : txmap) (l : list DynamicFeeTx) : Prop := NoDup l ∧ ∀ tx, tx ∈ l ↔ M !! tx_Nonce tx = Some tx.

Abbreviation nonce_lt := (fun a b : DynamicFeeTx => tx_Nonce a < tx_Nonce b).

(** The transactions of a map by increasing nonce *)
Definition in_order (M : txmap) (l : list DynamicFeeTx) : Prop := StronglySorted nonce_lt l ∧ ∀ tx, tx ∈ l ↔ M !! tx_Nonce tx = Some tx.

Lemma sorted_NoDup l : StronglySorted nonce_lt l → NoDup l.
Proof.
  induction 1 as [| tx l _ IH Hlt]; constructor; [| done]. intros Hin. rewrite Forall_forall in Hlt. specialize (Hlt tx Hin). lia.
Qed.

Lemma in_order_enum M l : in_order M l → enum M l.
Proof. intros [Hs Hm]. split; [by apply sorted_NoDup | done]. Qed.

Lemma enum_perm M l l' : enum M l → enum M l' → l ≡ₚ l'.
Proof. intros [Hn Hm] [Hn' Hm']. apply NoDup_Permutation; [done | done |]. intros tx. by rewrite Hm, Hm'. Qed.

Lemma in_order_unique M l l' : in_order M l → in_order M l' → l = l'.
Proof.
  intros H H'. apply (StronglySorted_unique_strong nonce_lt); [intros a b _ _ ? ?; lia | apply H | apply H' |]. by apply (enum_perm M); apply in_order_enum.
Qed.

Lemma keyed_sub M M' : keyed M → M' ⊆ M → keyed M'.
Proof. intros HM Hs n tx Hn. apply HM. by eapply lookup_weaken. Qed.

Lemma keyed_filter M (P : Z * DynamicFeeTx → Prop) `{!∀ p, Decision (P p)} : keyed M → keyed (filter P M).
Proof. intros HM. eapply keyed_sub; [done | apply map_filter_subseteq]. Qed.

Lemma enum_values M : keyed M → enum M (map_to_list M).*2.
Proof.
  intros HM. split.
  - apply NoDup_fmap_2_strong; [| apply NoDup_map_to_list]. intros [n tx] [n' tx'] H1%elem_of_map_to_list H2%elem_of_map_to_list E. cbn in E. subst tx'.
    destruct (HM _ _ H1) as [E1 _], (HM _ _ H2) as [E2 _]. congruence.
  - intros tx. rewrite list_elem_of_fmap. split.
    + intros ([n tx'] & -> & Hin%elem_of_map_to_list). cbn. by destruct (HM _ _ Hin) as [-> _].
    + intros Hin. exists (tx_Nonce tx, tx). split; [done | by apply elem_of_map_to_list].
Qed.

(** ** Costs *)

Definition list_cost (l : list DynamicFeeTx) : Z := foldr (fun tx n => Transaction_Cost tx + n) 0 l.

Lemma list_cost_app l l' : list_cost (l ++ l') = list_cost l + list_cost l'.
Proof. induction l as [| tx l IH]; cbn; [done |]. unfold list_cost in *. lia. Qed.

Lemma list_cost_perm l l' : l ≡ₚ l' → list_cost l = list_cost l'.
Proof. induction 1; unfold list_cost in *; cbn; lia. Qed.

Lemma subTotalCost_spec l n : subTotalCost l n = n - list_cost l.
Proof. revert n. induction l as [| tx l IH]; intros n; cbn; [lia |]. unfold subTotalCost in *. rewrite IH. unfold list_cost. cbn. lia. Qed.

(** ** The invariant of sortedMap *)

Abbreviation zheap := (heap Z.ltb).

Lemma ltb_asym x y : (x <? y) = true → (y <? x) = false.
Proof. lia. Qed.

Lemma ltb_trans x y z : (y <? x) = false → (z <? y) = false → (z <? x) = false.
Proof. lia. Qed.

(** The index is a heap of the nonces. *)
Definition index_ok (M : txmap) (ix : list Z) : Prop := zheap ix ∧ NoDup ix ∧ ∀ n, n ∈ ix ↔ is_Some (M !! n).

Record sm_ok (m : sortedMap) : Prop := MkSmOk {
  so_keyed : keyed (items m);
  so_index : index_ok (items m) (index m);
  so_cache : ∀ c, cache m = Some c → in_order (items m) c
}.

Lemma new_map_ok : sm_ok newSortedMap.
Proof. split; [by intros n tx Hn | | done]. split_and!; [apply heap_nil | constructor |]. intros n. cbn. rewrite lookup_empty. split; [by intros ?%not_elem_of_nil | by intros [? ?]]. Qed.

Lemma index_low M low ix : index_ok M (low :: ix) → (∃ tx, M !! low = Some tx) ∧ ∀ n tx, M !! n = Some tx → low <= n.
Proof.
  intros (Hh & _ & Hm). split; [apply Hm; left |]. intros n tx Hn. assert (Hin : n ∈ low :: ix) by (apply Hm; by eexists).
  pose proof (heap_least Z.ltb ltb_asym ltb_trans _ low n Hh eq_refl Hin). lia.
Qed.

Lemma index_delete M n ix ix' : NoDup ix → (∀ k, k ∈ ix ↔ is_Some (M !! k)) → ix ≡ₚ n :: ix' → zheap ix' → index_ok (base.delete n M) ix'.
Proof.
  intros Hn Hm Hp Hh. rewrite Hp in Hn. apply NoDup_cons in Hn as [Hni Hn]. split_and!; [done | done |]. intros k. destruct (decide (k = n)) as [-> | Hne].
  - rewrite lookup_delete_eq. split; [done | by intros [? ?]].
  - rewrite lookup_delete_ne by done. rewrite <- Hm, Hp, elem_of_cons. split; [by right | by intros [? | ?]].
Qed.

Lemma index_Pop {E} M low ix : index_ok M (low :: ix) → ∃ ix', heap_Pop (E := E) Z.ltb (low :: ix) = Ok (low, ix') ∧ index_ok (base.delete low M) ix' ∧ length ix' = length ix.
Proof.
  intros (Hh & Hn & Hm). destruct (heap_Pop_ok (E := E) Z.ltb ltb_asym ltb_trans _ low Hh eq_refl) as (ix' & E1 & Hp & Hh'). exists ix'. split_and!; [done | by eapply index_delete |].
  apply Permutation_length in Hp. cbn in Hp. lia.
Qed.

Section Ops.
  Context {E : Type} (range : txmap → list (Z * DynamicFeeTx)) (Hrange : ∀ M, range M ≡ₚ map_to_list M).

Lemma sm_Put_ok tx m : sm_ok m → 0 <= tx_Nonce tx < 2 ^ 64 → ∃ m', sm_Put (E := E) tx m = Ok m' ∧ sm_ok m' ∧ items m' = <[tx_Nonce tx := tx]> (items m).
Proof.
  intros [HM (Hh & Hn & Hm) _] Htx. assert (HM' : keyed (<[tx_Nonce tx := tx]> (items m))).
  { intros n t [[<- <-] | [_ Hnt]]%lookup_insert_Some; [done | by apply HM]. }
  unfold sm_Put. destruct (items m !! tx_Nonce tx) as [old |] eqn:Eo.
  - eexists. split; [done |]. split; [| done]. split; [done | | done]. split_and!; [done | done |]. intros n. cbn [items]. rewrite Hm. destruct (decide (n = tx_Nonce tx)) as [-> | Hne].
    + rewrite lookup_insert_eq, Eo. split; by eexists.
    + by rewrite lookup_insert_ne.
  - destruct (heap_Push_ok (E := E) Z.ltb ltb_asym ltb_trans (tx_Nonce tx) (index m) Hh) as (ix & -> & Hp & Hh'). eexists. split; [done |]. split; [| done]. split; [done | | done]. cbn [items index].
    split_and!; [done | rewrite Hp; apply NoDup_cons; split; [rewrite Hm, Eo; by intros [? ?] | done] |]. intros n. rewrite Hp, elem_of_cons, Hm. destruct (decide (n = tx_Nonce tx)) as [-> | Hne].
    + rewrite lookup_insert_eq. split; [by eexists | by left].
    + rewrite lookup_insert_ne by done. split; [by intros [? | ?] | by right].
Qed.

(** A transaction before all the others *)
Lemma in_order_cons (M M' : txmap) tx l : keyed M → M !! tx_Nonce tx = Some tx → (∀ n t, M !! n = Some t → tx_Nonce tx <= n) →
  (∀ n, n ≠ tx_Nonce tx → M' !! n = M !! n) → M' !! tx_Nonce tx = None → in_order M' l → in_order M (tx :: l).
Proof.
  intros HM Htx Hlow Hsame Hnone [Hs Hl]. split.
  - constructor; [done |]. apply Forall_forall. intros t Ht%Hl. assert (tx_Nonce t ≠ tx_Nonce tx) by congruence. rewrite Hsame in Ht by done. specialize (Hlow _ _ Ht). lia.
  - intros t. rewrite elem_of_cons, Hl. split.
    + intros [-> | Ht]; [done |]. assert (tx_Nonce t ≠ tx_Nonce tx) by congruence. by rewrite <- Hsame.
    + intros Ht. destruct (decide (tx_Nonce t = tx_Nonce tx)) as [En | Hne]; [left; congruence | right; by rewrite Hsame].
Qed.

Lemma in_order_empty M : (∀ n, M !! n = None) → in_order M [].
Proof. intros H. split; [constructor |]. intros tx. rewrite H. split; [by intros ?%not_elem_of_nil | done]. Qed.

Lemma forward_loop_ok th fuel : ∀ M ix removed, keyed M → index_ok M ix → (length ix <= fuel)%nat →
  ∃ ix' rem, forward_loop (E := E) fuel th M ix removed = Ok (filter (fun p => th <= p.1) M, ix', removed ++ rem) ∧ index_ok (filter (fun p => th <= p.1) M) ix' ∧
    in_order (filter (fun p => ¬ th <= p.1) M) rem.
Proof.
  induction fuel as [| fuel IH]; intros M ix removed HM Hix Hf; destruct ix as [| low ix]; cbn [length] in Hf; try lia; cbn [forward_loop].
  1, 2: exists [], []; assert (Hnone : ∀ n, M !! n = None) by (intros n; destruct (M !! n) eqn:En; [| done]; destruct Hix as (_ & _ & Hm); assert (Hc : n ∈ []) by (apply Hm; by eexists); by apply not_elem_of_nil in Hc);
    assert (M = ∅) as -> by (by apply map_empty); rewrite map_filter_empty, app_nil_r; split_and!; [done | done | apply in_order_empty; intros n; by rewrite map_filter_empty].
  destruct (index_low M low ix Hix) as [[tx Htx] Hlow]. destruct (Z.ltb_spec low th) as [Hlt | Hge].
  - destruct (index_Pop (E := E) M low ix Hix) as (ix1 & -> & Hix1 & Hl). cbn [mbind outcome_bind]. rewrite Htx. cbn [present mbind outcome_bind].
    destruct (IH (base.delete low M) ix1 (removed ++ [tx])) as (ix' & rem & E1 & Hix' & Hrem); [eapply keyed_sub; [done | apply delete_subseteq] | done | lia |].
    destruct (HM _ _ Htx) as [En _]. assert (Ef : filter (fun p => th <= p.1) (base.delete low M) = filter (fun p => th <= p.1) M).
    { apply map_filter_delete_not. intros t _. cbn. lia. }
    rewrite Ef in *. exists ix', (tx :: rem). rewrite E1, <- app_assoc. split_and!; [done | done |]. subst low. rewrite map_filter_delete in Hrem.
    eapply in_order_cons; [by apply keyed_filter | | | | apply lookup_delete_eq | exact Hrem].
    + apply map_lookup_filter_Some. cbn. split; [done | lia].
    + intros n t Hn%map_lookup_filter_Some_1_1. by eapply Hlow.
    + intros n Hn. by apply lookup_delete_ne.
  - assert (Hall : ∀ n t, M !! n = Some t → th <= n) by (intros n t Hn; specialize (Hlow n t Hn); lia).
    assert (Ef : filter (fun p => th <= p.1) M = M) by (apply map_filter_id; intros n t Hn; cbn; by eapply Hall).
    exists (low :: ix), []. rewrite Ef, app_nil_r. split_and!; [done | done |]. apply in_order_empty. intros n. apply map_lookup_filter_None. right. intros t Ht. cbn. specialize (Hall n t Ht). lia.
Qed.

#[local] Instance nonce_le_trans : Transitive nonce_le.
Proof. unfold nonce_le. intros a b c. lia. Qed.

#[local] Instance nonce_le_total : Total nonce_le.
Proof. unfold nonce_le. intros a b. lia. Qed.

Lemma sorted_strict (M : txmap) l : (∀ tx, tx ∈ l → M !! tx_Nonce tx = Some tx) → NoDup l → StronglySorted nonce_le l → StronglySorted nonce_lt l.
Proof.
  intros Hl Hn Hs. induction Hs as [| tx l Hs IH Hle]; [constructor |]. apply NoDup_cons in Hn as [Hni Hn]. constructor; [apply IH; [intros t Ht; apply Hl; by right | done] |].
  apply Forall_forall. intros t Ht. rewrite Forall_forall in Hle. specialize (Hle t Ht). unfold nonce_le in Hle. assert (tx_Nonce tx ≠ tx_Nonce t); [| lia]. intros En.
  pose proof (Hl tx (list_elem_of_here _ _)) as H1. pose proof (Hl t (list_elem_of_further _ _ _ Ht)) as H2. rewrite En, H2 in H1. by injection H1 as ->.
Qed.

Lemma sort_in_order M l : keyed M → l ≡ₚ (map_to_list M).*2 → in_order M (merge_sort nonce_le l).
Proof.
  intros HM Hp. destruct (enum_values M HM) as [Hn Hm]. assert (Hmem : ∀ tx, tx ∈ merge_sort nonce_le l ↔ M !! tx_Nonce tx = Some tx) by (intros tx; by rewrite merge_sort_Permutation, Hp).
  split; [| done]. apply (sorted_strict M); [intros tx; apply Hmem | by rewrite merge_sort_Permutation, Hp | apply (StronglySorted_merge_sort _)].
Qed.

Lemma in_order_app (M1 M2 M : txmap) l1 l2 : in_order M1 l1 → in_order M2 l2 → (∀ n a m b, M1 !! n = Some a → M2 !! m = Some b → n < m) → (∀ n t, M !! n = Some t ↔ M1 !! n = Some t ∨ M2 !! n = Some t) → in_order M (l1 ++ l2).
Proof.
  intros [Hs1 Hm1] [Hs2 Hm2] Hlt HM. split.
  - apply StronglySorted_app. split_and!; [| done | done]. intros a b Ha%Hm1 Hb%Hm2. by eapply Hlt.
  - intros t. by rewrite elem_of_app, Hm1, Hm2, HM.
Qed.

(** A sorted list of all transactions begins with those below a threshold. *)
Lemma in_order_split M th c r : keyed M → in_order M c → in_order (filter (fun p => ¬ th <= p.1) M) r → ∃ r2, c = r ++ r2 ∧ in_order (filter (fun p => th <= p.1) M) r2.
Proof.
  intros HM Hc Hr. pose proof (sort_in_order (filter (fun p => th <= p.1) M) _ (keyed_filter M _ HM) (reflexivity _)) as H2. eexists. split; [| exact H2].
  apply (in_order_unique M); [done |]. apply (in_order_app _ _ M _ _ Hr H2).
  - intros n a m b [_ H]%map_lookup_filter_Some [_ H']%map_lookup_filter_Some. cbn in H, H'. lia.
  - intros n t. rewrite !map_lookup_filter_Some. cbn. destruct (decide (th <= n)); tauto.
Qed.

Lemma sm_Forward_ok th m : sm_ok m →
  ∃ removed m', sm_Forward (E := E) th m = Ok (removed, m') ∧ sm_ok m' ∧ items m' = filter (fun p => th <= p.1) (items m) ∧ in_order (filter (fun p => ¬ th <= p.1) (items m)) removed.
Proof.
  intros [HM Hix Hc]. unfold sm_Forward. destruct (forward_loop_ok th (length (index m)) (items m) (index m) [] HM Hix ltac:(lia)) as (ix' & rem & -> & Hix' & Hrem). cbn [mbind outcome_bind app].
  destruct (cache m) as [c |] eqn:Ec.
  - destruct (in_order_split (items m) th c rem HM (Hc c eq_refl) Hrem) as (r2 & -> & Hr2). rewrite slice_from_app. cbn [mbind outcome_bind]. eexists _, _. split; [done |]. split_and!; [| done | done].
    split; [by apply keyed_filter | done |]. by intros c [= <-].
  - eexists _, _. split; [done |]. split_and!; [| done | done]. split; [by apply keyed_filter | done | done].
Qed.

(** ** Filtering *)

Lemma foldl_delete (hit : list (Z * DynamicFeeTx)) (M : txmap) n : foldl (fun its p => base.delete (fst p) its) M hit !! n = if decide (n ∈ hit.*1) then None else M !! n.
Proof.
  revert M. induction hit as [| [k t] hit IH]; intros M; cbn [foldl fmap list_fmap fst].
  - rewrite decide_False; [done |]. apply not_elem_of_nil.
  - rewrite IH. destruct (decide (n ∈ hit.*1)) as [Hin | Hin]; [rewrite decide_True; [done |]; by right |]. destruct (decide (n = k)) as [-> | Hne].
    + rewrite lookup_delete_eq, decide_True; [done |]. left.
    + rewrite lookup_delete_ne by done. rewrite decide_False; [done |]. by intros [? | ?]%elem_of_cons.
Qed.

Lemma elem_filter {A} (f : A → bool) l x : x ∈ List.filter f l ↔ f x = true ∧ x ∈ l.
Proof. rewrite !list_elem_of_In. rewrite filter_In. tauto. Qed.

Lemma NoDup_list_filter {A} (f : A → bool) (l : list A) : NoDup l → NoDup (List.filter f l).
Proof. induction 1 as [| x l Hx Hl IH]; cbn; [constructor |]. destruct (f x); [| done]. constructor; [by rewrite elem_filter; intros [_ ?] | done]. Qed.

Lemma sm_filter_ok f m : keyed (items m) → let '(removed, m') := sm_filter range f m in
  items m' = filter (fun p => ¬ f p.2 = true) (items m) ∧ enum (filter (fun p => ¬ ¬ f p.2 = true) (items m)) removed ∧ index m' = index m ∧ cache m' = if 0 <? len removed then None else cache m.
Proof.
  intros HM. unfold sm_filter. set (hit := List.filter _ (range (items m))).
  assert (Hhit : ∀ n t, (n, t) ∈ hit ↔ f t = true ∧ items m !! n = Some t) by (intros n t; unfold hit; rewrite elem_filter, Hrange, elem_of_map_to_list; done).
  assert (Hnd : NoDup hit) by (apply NoDup_list_filter; rewrite Hrange; apply NoDup_map_to_list). split_and!; [| | done | done].
  - cbn [items]. apply map_eq. intros n. rewrite foldl_delete. destruct (decide (n ∈ hit.*1)) as [Hin | Hin].
    + apply list_elem_of_fmap in Hin as ([n' t] & -> & Hin). apply Hhit in Hin as [Hf Hn]. symmetry. apply map_lookup_filter_None. right. intros t'. cbn. rewrite Hn. intros [= <-]. tauto.
    + destruct (items m !! n) as [t |] eqn:En; symmetry; [apply map_lookup_filter_Some; split; [done |] | apply map_lookup_filter_None; by left]. cbn. intros Hf. apply Hin. apply list_elem_of_fmap. exists (n, t). split; [done | by apply Hhit].
  - change (map snd hit) with hit.*2. split.
    + apply NoDup_fmap_2_strong; [| done]. intros [n t] [n' t'] [_ H1]%Hhit [_ H2]%Hhit Et. cbn in Et. subst t'. destruct (HM _ _ H1) as [E1 _], (HM _ _ H2) as [E2 _]. congruence.
    + intros t. rewrite list_elem_of_fmap, map_lookup_filter_Some. cbn. split.
      * intros ([n t'] & -> & [Hf Hn]%Hhit). cbn. destruct (HM _ _ Hn) as [-> _]. split; [done | tauto].
      * intros [Hn Hf]. exists (tx_Nonce t, t). split; [done |]. apply Hhit. split; [by destruct (f t); [| exfalso; apply Hf] | done].
Qed.

Lemma sm_reheap_ok m : keyed (items m) → ∃ m', sm_reheap (E := E) range m = Ok m' ∧ sm_ok m' ∧ items m' = items m.
Proof.
  intros HM. unfold sm_reheap. destruct (heap_Init_ok (E := E) Z.ltb ltb_asym ltb_trans (map fst (range (items m)))) as (ix & -> & Hp & Hh). cbn [mbind outcome_bind]. eexists. split; [done |]. split; [| done].
  change (map fst (range (items m))) with (range (items m)).*1 in Hp. rewrite Hrange in Hp. split; [done | | done]. cbn [index items]. split_and!; [done | rewrite Hp; apply NoDup_fst_map_to_list |]. intros n. rewrite Hp, list_elem_of_fmap. split.
  - intros ([n' t] & -> & Hin%elem_of_map_to_list). by eexists.
  - intros [t Ht]. exists (n, t). split; [done | by apply elem_of_map_to_list].
Qed.

Lemma enum_nil (M : txmap) : enum M [] → ∀ n t, M !! n = Some t → keyed M → False.
Proof. intros [_ H] n t Ht HM. destruct (HM _ _ Ht) as [<- _]. apply H in Ht. by apply not_elem_of_nil in Ht. Qed.

Lemma sm_Filter_ok f m : sm_ok m →
  ∃ removed m', sm_Filter (E := E) range f m = Ok (removed, m') ∧ sm_ok m' ∧ items m' = filter (fun p => ¬ f p.2 = true) (items m) ∧ enum (filter (fun p => ¬ ¬ f p.2 = true) (items m)) removed.
Proof.
  intros [HM Hix Hc]. pose proof (sm_filter_ok f m HM) as H. unfold sm_Filter. destruct (sm_filter range f m) as [removed m1]. destruct H as (Hi & Hr & Hx & Hca). assert (HM1 : keyed (items m1)) by (rewrite Hi; by apply keyed_filter).
  destruct (0 <? len removed) eqn:El.
  - destruct (sm_reheap_ok m1 HM1) as (m2 & -> & Hok & Hi2). cbn [mbind outcome_bind]. eexists _, m2. split; [done |]. split_and!; [done | by rewrite Hi2 | done].
  - assert (removed = []) as -> by (destruct removed; [done |]; apply Z.ltb_ge in El; cbn [length] in El; lia). eexists _, m1. split; [done |]. split_and!; [| done | done].
    assert (Ei : items m1 = items m).
    { rewrite Hi. apply map_filter_id. intros n t Hn. cbn. intros Hf. apply (enum_nil _ Hr n t); [| by apply keyed_filter]. apply map_lookup_filter_Some. split; [done | cbn; tauto]. }
    split; [by rewrite Ei | by rewrite Ei, Hx | rewrite Ei, Hca; done].
Qed.

(** ** Cap, Remove, Ready *)

Lemma find_nonce_ok n ix : n ∈ ix → ∃ i, find_nonce n ix = Some i ∧ ix !! i = Some n.
Proof.
  induction ix as [| x ix IH]; [by intros ?%not_elem_of_nil |]. intros Hin. cbn [find_nonce]. destruct (Z.eqb_spec x n) as [-> | Hne]; [by exists O |].
  apply elem_of_cons in Hin as [? | Hin]; [congruence |]. destruct (IH Hin) as (i & -> & Hi). by exists (S i).
Qed.

Lemma sm_Remove_ok n m : sm_ok m → ∃ m', sm_Remove (E := E) n m = Ok (bool_decide (is_Some (items m !! n)), m') ∧ sm_ok m' ∧ items m' = base.delete n (items m).
Proof.
  intros [HM Hix Hc]. unfold sm_Remove. destruct (items m !! n) as [tx |] eqn:En.
  - pose proof Hix as (Hh & Hn & Hm). destruct (find_nonce_ok n (index m)) as (i & -> & Hi); [apply Hm; by eexists |]. destruct (heap_Remove_ok (E := E) Z.ltb ltb_asym ltb_trans _ i n Hh Hi) as (ix' & -> & Hp & Hh'). cbn [mbind outcome_bind].
    rewrite bool_decide_true by by eexists. eexists. split; [done |]. split; [| done]. split; [eapply keyed_sub; [done | apply delete_subseteq] | by eapply index_delete | done].
  - rewrite bool_decide_false by by intros [? ?]. eexists. split; [done |]. rewrite delete_id by done. done.
Qed.

Lemma sorted_filter (R : relation DynamicFeeTx) (Q : DynamicFeeTx → Prop) `{!∀ t, Decision (Q t)} ls : StronglySorted R ls → StronglySorted R (filter Q ls).
Proof.
  induction 1 as [| t ls Hs IH Hlt]; [constructor |]. rewrite filter_cons. destruct (decide (Q t)); [| done]. constructor; [done |]. apply Forall_forall. intros t' [_ Ht']%list_elem_of_filter. rewrite Forall_forall in Hlt. by apply Hlt.
Qed.

Lemma in_order_sub (M M' : txmap) ls (Q : DynamicFeeTx → Prop) `{!∀ t, Decision (Q t)} : in_order M ls → (∀ t, M' !! tx_Nonce t = Some t ↔ Q t ∧ M !! tx_Nonce t = Some t) → in_order M' (filter Q ls).
Proof.
  intros [Hs Hl] HM'. split; [by apply sorted_filter |]. intros t. by rewrite list_elem_of_filter, HM', Hl.
Qed.

Lemma in_order_inv M t ls : keyed M → in_order M (t :: ls) → M !! tx_Nonce t = Some t ∧ in_order (base.delete (tx_Nonce t) M) ls.
Proof.
  intros HM [Hs Hl]. inversion Hs as [| ? ? Hs' Hlt]; subst. split; [apply Hl; left |]. split; [done |]. rewrite Forall_forall in Hlt. intros t'. specialize (Hl t'). rewrite elem_of_cons in Hl. split.
  - intros Hin. rewrite lookup_delete_ne; [apply Hl; by right |]. specialize (Hlt t' Hin). lia.
  - intros [Hne Hin]%lookup_delete_Some. apply Hl in Hin as [-> | ?]; done.
Qed.

Lemma in_order_low M t ls low ix : keyed M → in_order M (t :: ls) → index_ok M (low :: ix) → low = tx_Nonce t.
Proof.
  intros HM Ho Hix. destruct (index_low M low ix Hix) as [[tx Htx] Hlow]. destruct (in_order_inv M t ls HM Ho) as [Ht _]. specialize (Hlow _ _ Ht). destruct (HM _ _ Htx) as [En _]. destruct Ho as [Hs Hl].
  assert (Hin : tx ∈ t :: ls) by (apply Hl; by rewrite En). apply elem_of_cons in Hin as [-> | Hin]; [done |]. inversion Hs as [| ? ? _ Hlt]; subst. rewrite Forall_forall in Hlt. specialize (Hlt tx Hin). lia.
Qed.

Lemma index_empty M ix : index_ok M ix → in_order M [] → keyed M → ix = [].
Proof.
  intros (_ & _ & Hm) [_ Hl] HM. destruct ix as [| n ix]; [done |]. assert (is_Some (M !! n)) as [t Ht] by (apply Hm; left). destruct (HM _ _ Ht) as [En _]. rewrite <- En in Ht. apply Hl in Ht. by apply not_elem_of_nil in Ht.
Qed.

(** The transactions at the head of [ls] whose nonces follow each other from [n] *)
Fixpoint consecutive (n : Z) (ls : list DynamicFeeTx) : list DynamicFeeTx :=
  match ls with
  | [] => []
  | t :: ls => if tx_Nonce t =? n then t :: consecutive (n + 1) ls else []
  end.

(** The last nonce of 64 bits has none after it. *)
Lemma consecutive_wrap M t ls : keyed M → in_order M (t :: ls) → consecutive (u64 (tx_Nonce t + 1)) ls = consecutive (tx_Nonce t + 1) ls.
Proof.
  intros HM Ho. destruct ls as [| t' ls]; [done |]. destruct Ho as [Hs Hl]. inversion Hs as [| ? ? _ Hlt]; subst. apply Forall_cons in Hlt as [Hlt _].
  assert (Ht' : M !! tx_Nonce t' = Some t') by (apply Hl; right; left). assert (Ht : M !! tx_Nonce t = Some t) by (apply Hl; left). destruct (HM _ _ Ht'), (HM _ _ Ht). unfold u64. rewrite Z.mod_small by lia. done.
Qed.

Lemma ready_loop_ok fuel : ∀ next M ix ready ls, keyed M → index_ok M ix → in_order M ls → (length ix <= fuel)%nat →
  ∃ M' ix', ready_loop (E := E) fuel next M ix ready = Ok (M', ix', ready ++ consecutive next ls) ∧ keyed M' ∧ index_ok M' ix' ∧ in_order M' (drop (length (consecutive next ls)) ls).
Proof.
  induction fuel as [| fuel IH]; intros next M ix ready ls HM Hix Ho Hf; (destruct ls as [| t ls]; [pose proof (index_empty M ix Hix Ho HM); subst ix; exists M, []; cbn; rewrite app_nil_r; done |]).
  all: destruct (in_order_inv M t ls HM Ho) as [Ht Ho']; destruct ix as [| low ix]; [exfalso; destruct Hix as (_ & _ & Hm); assert (Hc : tx_Nonce t ∈ []) by (apply Hm; by eexists); by apply not_elem_of_nil in Hc |].
  all: cbn [length] in Hf; try lia. pose proof (in_order_low M t ls low ix HM Ho Hix) as ->. cbn [ready_loop consecutive]. destruct (Z.eqb_spec (tx_Nonce t) next) as [<- | Hne].
  - rewrite Ht. cbn [present mbind outcome_bind]. destruct (index_Pop (E := E) M _ ix Hix) as (ix1 & -> & Hix1 & Hl). cbn [mbind outcome_bind].
    destruct (IH (u64 (tx_Nonce t + 1)) (base.delete (tx_Nonce t) M) ix1 (ready ++ [t]) ls) as (M' & ix' & -> & HM' & Hix' & Hr); [eapply keyed_sub; [done | apply delete_subseteq] | done | done | lia |].
    rewrite (consecutive_wrap M t ls HM Ho) in *. exists M', ix'. rewrite <- app_assoc. done.
  - exists M, (tx_Nonce t :: ix). rewrite app_nil_r. done.
Qed.

(** What Ready answers and leaves *)
Definition ready_part (start : Z) (ls : list DynamicFeeTx) : list DynamicFeeTx :=
  match ls with
  | [] => []
  | t :: _ => if start <? tx_Nonce t then [] else consecutive (tx_Nonce t) ls
  end.

Lemma sm_Ready_ok start m ls : sm_ok m → in_order (items m) ls →
  ∃ m', sm_Ready (E := E) start m = Ok (ready_part start ls, m') ∧ sm_ok m' ∧ in_order (items m') (drop (length (ready_part start ls)) ls).
Proof.
  intros Hok Ho. pose proof Hok as [HM Hix Hc]. unfold sm_Ready. destruct ls as [| t ls].
  - rewrite (index_empty _ _ Hix Ho HM). by exists m.
  - destruct (index m) as [| low ix] eqn:Ei.
    { exfalso. destruct (in_order_inv _ _ _ HM Ho) as [Ht _]. destruct Hix as (_ & _ & Hm). assert (Hn : tx_Nonce t ∈ []) by (apply Hm; by eexists). by apply not_elem_of_nil in Hn. }
    pose proof (in_order_low _ _ _ _ _ HM Ho Hix). subst low. unfold ready_part. destruct (start <? tx_Nonce t); [by exists m |].
    destruct (ready_loop_ok (length (tx_Nonce t :: ix)) (tx_Nonce t) _ _ [] _ HM Hix Ho (le_n _)) as (M' & ix' & -> & HM' & Hix' & Hr). cbn [mbind outcome_bind app]. eexists. split; [done |]. split; [by split | done].
Qed.

Lemma sorted_lookup (R : relation Z) ix : StronglySorted R ix → ∀ j k x y, (j < k)%nat → ix !! j = Some x → ix !! k = Some y → R x y.
Proof.
  induction 1 as [| z ix Hs IH Hlt]; intros j k x y Hjk Hj Hk; [done |]. destruct k as [| k]; [lia |]. destruct j as [| j]; cbn in Hj, Hk; [| eapply (IH j k); [lia | done | done]].
  injection Hj as <-. rewrite Forall_forall in Hlt. apply Hlt. by eapply list_elem_of_lookup_2.
Qed.

Abbreviation nonces := (fmap (M := list) tx_Nonce).

Lemma nonces_sorted ls : StronglySorted nonce_lt ls → StronglySorted Z.lt (nonces ls).
Proof. induction 1 as [| t ls Hs IH Hlt]; cbn; constructor; [done |]. apply Forall_fmap. exact Hlt. Qed.

Lemma sorted_lt_le ix : StronglySorted Z.lt ix → StronglySorted Z.le ix ∧ NoDup ix.
Proof.
  induction 1 as [| z ix Hs [IH1 IH2] Hlt]; [split; constructor |]. split; constructor; [done | eapply Forall_impl; [exact Hlt | cbn; lia] | | done]. intros Hin. rewrite Forall_forall in Hlt. specialize (Hlt z Hin). lia.
Qed.

Lemma nonces_elem M ls n : keyed M → in_order M ls → n ∈ nonces ls ↔ is_Some (M !! n).
Proof.
  intros HM [_ Hl]. rewrite list_elem_of_fmap. split.
  - intros (t & -> & Ht%Hl). by eexists.
  - intros [t Ht]. destruct (HM _ _ Ht) as [<- _]. exists t. split; [done | by apply Hl].
Qed.

(** The sorted nonces are an index. *)
Lemma nonces_index M ls : keyed M → in_order M ls → index_ok M (nonces ls).
Proof.
  intros HM Ho. pose proof (nonces_sorted ls (proj1 Ho)) as Hs. split_and!; [| by apply sorted_lt_le | intros n; by apply nonces_elem].
  intros k Hk x y Hx Hy. pose proof (sorted_lookup _ _ Hs ((k - 1) / 2)%nat k y x ltac:(apply Nat.Div0.div_lt_upper_bound; lia) Hy Hx). lia.
Qed.

Lemma index_sorted M ls ix : keyed M → in_order M ls → index_ok M ix → merge_sort Z.le ix = nonces ls.
Proof.
  intros HM Ho (_ & Hn & Hm). pose proof (sorted_lt_le _ (nonces_sorted ls (proj1 Ho))) as [Hs Hnd]. apply (StronglySorted_unique Z.le); [apply (StronglySorted_merge_sort Z.le) | done |]. rewrite merge_sort_Permutation. apply NoDup_Permutation; [done | done |]. intros n. rewrite Hm. symmetry. by apply nonces_elem.
Qed.

Lemma in_order_size M ls : keyed M → in_order M ls → size M = length ls.
Proof.
  intros HM Ho. rewrite <- (length_map_to_list M), <- (length_fmap snd). apply Permutation_length, (enum_perm M); [by apply enum_values | by apply in_order_enum].
Qed.

Lemma in_order_snoc M t ls : keyed M → in_order M (ls ++ [t]) → M !! tx_Nonce t = Some t ∧ in_order (base.delete (tx_Nonce t) M) ls.
Proof.
  intros HM [Hs Hl]. apply StronglySorted_app in Hs as (Hlt & Hs & _). split; [apply Hl; rewrite elem_of_app; right; left |]. split; [done |]. intros t'. specialize (Hl t'). rewrite elem_of_app, list_elem_of_singleton in Hl. split.
  - intros Hin. rewrite lookup_delete_ne; [apply Hl; by left |]. specialize (Hlt t' t Hin ltac:(left)). lia.
  - intros [Hne Hin]%lookup_delete_Some. apply Hl in Hin as [? | ->]; done.
Qed.

Lemma cap_step k (M : txmap) t ls tail drops : M !! tx_Nonce t = Some t →
  cap_loop (E := E) (S k) (len (ls ++ [t])) M (nonces (ls ++ [t]) ++ tail) drops = cap_loop k (len ls) (base.delete (tx_Nonce t) M) (nonces ls ++ tx_Nonce t :: tail) (drops ++ [t]).
Proof.
  intros Ht. cbn [cap_loop]. rewrite fmap_app, <- app_assoc. cbn [fmap list_fmap app]. assert (len (ls ++ [t]) - 1 = len ls) as ->. { rewrite length_app. cbn [length]. lia. }
  unfold at_ at 1. rewrite (proj2 (Z.ltb_ge _ 0)) by (lia). rewrite list_lookup_middle by (rewrite Nat2Z.id, length_fmap; done). cbn [mbind outcome_bind]. by rewrite Ht.
Qed.

Lemma cap_loop_ok k : ∀ M ls tail drops, keyed M → in_order M ls → (k <= length ls)%nat →
  ∃ M', cap_loop (E := E) k (len ls) M (nonces ls ++ tail) drops = Ok (M', drops ++ reverse (drop (length ls - k) ls)) ∧ keyed M' ∧ in_order M' (take (length ls - k) ls).
Proof.
  induction k as [| k IH]; intros M ls tail drops HM Ho Hk.
  - exists M. rewrite Nat.sub_0_r, drop_all, firstn_all, reverse_nil, app_nil_r. done.
  - destruct ls as [| t ls _] using rev_ind; [cbn in Hk; lia |]. rewrite length_app in Hk. cbn [length] in Hk. destruct (in_order_snoc M t ls HM Ho) as [Ht Ho']. rewrite cap_step by done.
    destruct (IH (base.delete (tx_Nonce t) M) ls (tx_Nonce t :: tail) (drops ++ [t])) as (M' & -> & HM' & Hr); [eapply keyed_sub; [done | apply delete_subseteq] | done | lia |]. exists M'.
    rewrite length_app. cbn [length]. replace (length ls + 1 - S k)%nat with (length ls - k)%nat by lia. rewrite drop_app_le, take_app_le, reverse_app, <- app_assoc by lia. done.
Qed.

Lemma cap_loop_negative ls : ∀ k M tail drops, keyed M → in_order M ls → (length ls < k)%nat → cap_loop (E := E) k (len ls) M (nonces ls ++ tail) drops = Panic.
Proof.
  induction ls as [| t ls IH] using rev_ind; intros k M tail drops HM Ho Hk; (destruct k as [| k]; [lia |]); [done |]. rewrite length_app in Hk. cbn [length] in Hk.
  destruct (in_order_snoc M t ls HM Ho) as [Ht Ho']. rewrite cap_step by done. apply IH; [eapply keyed_sub; [done | apply delete_subseteq] | done | lia].
Qed.

Lemma slice_head {A} (l : list A) n : 0 <= n <= len l → slice (E := E) l 0 n = Ok (take (Z.to_nat n) l).
Proof. intros Hn. rewrite <- (take_drop (Z.to_nat n) l) at 1. apply slice_prefix_app. rewrite length_take. lia. Qed.

Lemma sm_Cap_ok th m ls : sm_ok m → in_order (items m) ls → 0 <= th →
  ∃ m', sm_Cap (E := E) th m = Ok (reverse (drop (Z.to_nat th) ls), m') ∧ sm_ok m' ∧ in_order (items m') (take (Z.to_nat th) ls).
Proof.
  intros Hok Ho Hth. pose proof Hok as [HM Hix Hc]. unfold sm_Cap. rewrite (in_order_size _ ls HM Ho). destruct (Z.leb_spec (Z.of_nat (length ls)) th) as [Hle | Hgt].
  - exists m. rewrite drop_ge, take_ge by lia. done.
  - rewrite (index_sorted _ ls _ HM Ho Hix). destruct (cap_loop_ok (Z.to_nat (Z.of_nat (length ls) - th)) (items m) ls [] [] HM Ho ltac:(lia)) as (M' & E1 & HM' & Ho'). rewrite app_nil_r in E1. rewrite E1. cbn [mbind outcome_bind app].
    replace (length ls - Z.to_nat (Z.of_nat (length ls) - th))%nat with (Z.to_nat th) in * by lia.
    rewrite slice_head, <- fmap_take by (rewrite length_fmap; lia). cbn [mbind outcome_bind]. destruct (cache m) as [c |] eqn:Ec.
    + rewrite (in_order_unique _ c ls (Hc c eq_refl) Ho). rewrite slice_head by (rewrite length_reverse, length_drop; lia). cbn [mbind outcome_bind].
      rewrite length_reverse, length_drop. replace (Z.to_nat (len ls - Z.of_nat (length ls - Z.to_nat th))) with (Z.to_nat th) by lia. eexists. split; [done |]. split; [| done]. split; [done | by apply nonces_index | by intros c' [= <-]].
    + eexists. split; [done |]. split; [| done]. split; [done | by apply nonces_index | done].
Qed.

Lemma sm_Cap_negative th m ls : sm_ok m → in_order (items m) ls → th < 0 → sm_Cap (E := E) th m = Panic.
Proof.
  intros [HM Hix _] Ho Hth. unfold sm_Cap. rewrite (in_order_size _ ls HM Ho), (proj2 (Z.leb_gt _ th)), (index_sorted _ ls _ HM Ho Hix) by lia. pose proof (cap_loop_negative ls (Z.to_nat (Z.of_nat (length ls) - th)) (items m) [] [] HM Ho ltac:(lia)) as E1.
  rewrite app_nil_r in E1. by rewrite E1.
Qed.

Lemma sm_flatten_ok m ls : sm_ok m → in_order (items m) ls → ∃ m', sm_flatten range m = (ls, m') ∧ sm_ok m' ∧ in_order (items m') ls.
Proof.
  intros Hok Ho. pose proof Hok as [HM Hix Hc]. unfold sm_flatten. destruct (cache m) as [c |] eqn:Ec.
  - exists m. by rewrite (in_order_unique _ c ls (Hc c eq_refl) Ho).
  - assert (Hs : in_order (items m) (merge_sort nonce_le (map snd (range (items m))))) by (apply sort_in_order; [done |]; change (map snd ?l) with l.*2; by rewrite Hrange).
    eexists. split; [by rewrite (in_order_unique _ _ ls Hs Ho) |]. split; [| done]. split; [done | done |]. intros c [= <-]. done.
Qed.

(** ** The specification *)

Definition spec_get (n : Z) (ls : list DynamicFeeTx) : option DynamicFeeTx := head (filter (fun t => tx_Nonce t = n) ls).

Definition spec_put (tx : DynamicFeeTx) (ls : list DynamicFeeTx) : list DynamicFeeTx :=
  filter (fun t => tx_Nonce t < tx_Nonce tx) ls ++ tx :: filter (fun t => tx_Nonce tx < tx_Nonce t) ls.

(** What an operation answers on the transactions [ls] and leaves of them *)
Definition spec_step (strict : bool) (op : list_op) (ls : list DynamicFeeTx) : outcome E (list_answer * list DynamicFeeTx) :=
  match op with
  | OpAdd tx bump =>
      match spec_get (tx_Nonce tx) ls with
      | Some old => if outbids tx old bump then Ok (AAdd true (Some old), spec_put tx ls) else Ok (AAdd false None, ls)
      | None => Ok (AAdd true None, spec_put tx ls)
      end
  | OpForward th => Ok (ATxs (filter (fun t => tx_Nonce t < th) ls), filter (fun t => th <= tx_Nonce t) ls)
  | OpFilter c g =>
      let bad := filter (fun t => too_costly c g t = true) ls in
      let rest := filter (fun t => ¬ too_costly c g t = true) ls in
      match bad with
      | [] => Ok (AFilter [] [], ls)
      | b :: _ =>
          if strict then Ok (AFilter bad (filter (fun t => tx_Nonce b < tx_Nonce t) rest), filter (fun t => ¬ tx_Nonce b < tx_Nonce t) rest)
          else Ok (AFilter bad [], rest)
      end
  | OpCap th => if th <? 0 then Panic else Ok (ATxs (reverse (drop (Z.to_nat th) ls)), take (Z.to_nat th) ls)
  | OpRemove tx =>
      match spec_get (tx_Nonce tx) ls with
      | None => Ok (ARemove false [], ls)
      | Some _ =>
          if strict then Ok (ARemove true (filter (fun t => tx_Nonce tx < tx_Nonce t) ls), filter (fun t => tx_Nonce t < tx_Nonce tx) ls)
          else Ok (ARemove true [], filter (fun t => tx_Nonce t ≠ tx_Nonce tx) ls)
      end
  | OpReady start => Ok (ATxs (ready_part start ls), drop (length (ready_part start ls)) ls)
  | OpFlatten => Ok (ATxs ls, ls)
  | OpLastElement => match last ls with Some tx => Ok (ALast tx, ls) | None => Panic end
  | OpContains n => Ok (AContains (bool_decide (n ∈ nonces ls)), ls)
  | OpLen => Ok (ALen (len ls), ls)
  end.

Fixpoint spec_run (strict : bool) (ops : list list_op) (ls : list DynamicFeeTx) : outcome E (list list_answer * list DynamicFeeTx) :=
  match ops with
  | [] => Ok ([], ls)
  | op :: ops => '(a, ls) ← spec_step strict op ls; '(answers, ls) ← spec_run strict ops ls; Ok (a :: answers, ls)
  end.

(** Nonces are uint64, and the pool removes transactions that it holds. *)
Definition op_valid (op : list_op) (ls : list DynamicFeeTx) : Prop :=
  match op with
  | OpAdd tx _ => 0 <= tx_Nonce tx < 2 ^ 64
  | OpRemove tx => ∀ t, t ∈ ls → tx_Nonce t = tx_Nonce tx → t = tx
  | _ => True
  end.

Fixpoint ops_valid (strict : bool) (ops : list list_op) (ls : list DynamicFeeTx) : Prop :=
  match ops with
  | [] => True
  | op :: ops => op_valid op ls ∧ match spec_step strict op ls with Ok (_, ls) => ops_valid strict ops ls | _ => True end
  end.

(** Transactions that the code finds by ranging over a map come in any order. *)
Definition answer_equiv (a b : list_answer) : Prop :=
  match a, b with
  | AFilter r i, AFilter r' i' => r ≡ₚ r' ∧ i ≡ₚ i'
  | ARemove f i, ARemove f' i' => f = f' ∧ i ≡ₚ i'
  | _, _ => a = b
  end.

(** A list of the code holds the transactions [ls]. *)
Record list_ok (str : bool) (l : txlist) (ls : list DynamicFeeTx) : Prop := MkListOk {
  lo_strict : strict l = str;
  lo_map : sm_ok (txs l);
  lo_txs : in_order (items (txs l)) ls;
  lo_total : totalcost l = list_cost ls;
  lo_caps : ∀ t, t ∈ ls → Transaction_Cost t <= costcap l ∧ tx_Gas t <= gascap l
}.

Definition refines (str : bool) (o : outcome E (list_answer * txlist)) (s : outcome E (list_answer * list DynamicFeeTx)) : Prop :=
  match s with
  | Ok (a, ls) => ∃ a' l, o = Ok (a', l) ∧ answer_equiv a' a ∧ list_ok str l ls
  | _ => o = Panic
  end.

(** ** The operations refine it *)

Lemma cost_split (Q : DynamicFeeTx → Prop) `{!∀ t, Decision (Q t)} ls : list_cost ls = list_cost (filter Q ls) + list_cost (filter (fun t => ¬ Q t) ls).
Proof. rewrite <- list_cost_app. apply list_cost_perm. symmetry. apply filter_app_complement. Qed.

Lemma in_order_filter (M : txmap) ls (P : Z * DynamicFeeTx → Prop) (Q : DynamicFeeTx → Prop) `{!∀ p, Decision (P p)} `{!∀ t, Decision (Q t)} : in_order M ls → (∀ t, P (tx_Nonce t, t) ↔ Q t) → in_order (filter P M) (filter Q ls).
Proof. intros Ho HP. apply (in_order_sub M); [done |]. intros t. rewrite map_lookup_filter_Some, HP. tauto. Qed.

Lemma filter_get M ls n : keyed M → in_order M ls → filter (fun t => tx_Nonce t = n) ls = option_list (M !! n).
Proof.
  intros HM Ho. pose proof (sorted_NoDup _ (proj1 Ho)) as Hn. destruct Ho as [_ Hl]. destruct (M !! n) as [tx |] eqn:En; cbn [option_list from_option].
  - destruct (HM _ _ En) as [E1 _]. apply Permutation_singleton_r. symmetry. apply NoDup_Permutation; [apply NoDup_singleton | by apply NoDup_filter |]. intros t. rewrite list_elem_of_singleton, list_elem_of_filter, Hl. split; [intros ->; by rewrite E1 | intros [E2 Ht]; congruence].
  - destruct (filter _ ls) as [| t ts] eqn:Ef; [done |]. assert (Ht : t ∈ filter (fun t => tx_Nonce t = n) ls) by (rewrite Ef; left). apply list_elem_of_filter in Ht as [E1 Ht]. apply Hl in Ht. congruence.
Qed.

Lemma spec_get_ok M ls n : keyed M → in_order M ls → spec_get n ls = M !! n.
Proof. intros HM Ho. unfold spec_get. rewrite (filter_get M) by done. by destruct (M !! n). Qed.

Lemma cost_three n ls : list_cost ls = list_cost (filter (fun t => tx_Nonce t < n) ls) + list_cost (filter (fun t => tx_Nonce t = n) ls) + list_cost (filter (fun t => n < tx_Nonce t) ls).
Proof.
  induction ls as [| t ls IH]; [done |]. rewrite !filter_cons. cbn [list_cost foldr]. unfold list_cost in *. destruct (decide (tx_Nonce t < n)), (decide (tx_Nonce t = n)), (decide (n < tx_Nonce t)); cbn [foldr]; lia.
Qed.

Lemma spec_put_ok M ls tx : in_order M ls → in_order (<[tx_Nonce tx := tx]> M) (spec_put tx ls).
Proof.
  intros [Hs Hl]. split.
  - apply StronglySorted_app. split_and!; [| by apply sorted_filter |].
    + intros a b [Ha _]%list_elem_of_filter [-> | [Hb _]%list_elem_of_filter]%elem_of_cons; lia.
    + constructor; [by apply sorted_filter |]. apply Forall_forall. by intros b [Hb _]%list_elem_of_filter.
  - intros t. unfold spec_put. rewrite elem_of_app, elem_of_cons, !list_elem_of_filter, Hl, lookup_insert_Some. split.
    + intros [[Hlt Ht] | [-> | [Hlt Ht]]]; [right | by left | right]; (split; [lia | done]).
    + intros [[_ ->] | [Hne Ht]]; [tauto |]. destruct (decide (tx_Nonce t < tx_Nonce tx)); [by left | right; right; split; [lia | done]].
Qed.

Lemma spec_put_elem tx ls t : t ∈ spec_put tx ls → t = tx ∨ t ∈ ls.
Proof. unfold spec_put. rewrite elem_of_app, elem_of_cons, !list_elem_of_filter. tauto. Qed.

Lemma list_Add_refines str l ls tx bump : list_ok str l ls → op_valid (OpAdd tx bump) ls → refines str (list_step range (OpAdd tx bump) l) (spec_step str (OpAdd tx bump) ls).
Proof.
  intros Hok Htx. pose proof Hok as [Hst Hm Ho Ht Hc]. cbn [op_valid] in Htx. cbn [spec_step list_step]. rewrite (spec_get_ok (items (txs l))) by (done || apply Hm). unfold list_Add, sm_Get.
  destruct (sm_Put_ok tx (txs l) Hm Htx) as (m' & E1 & Hm' & Hi).
  assert (Hput : ∀ old total, items (txs l) !! tx_Nonce tx = old → total = list_cost ls - list_cost (option_list old) → list_ok str (MkList (strict l) m' (if costcap l <? Transaction_Cost tx then Transaction_Cost tx else costcap l) (if gascap l <? tx_Gas tx then tx_Gas tx else gascap l) (total + Transaction_Cost tx)) (spec_put tx ls)).
  { intros old total Eo ->. split; [done | done | cbn [txs]; rewrite Hi; by apply spec_put_ok | |].
    - cbn [totalcost]. unfold spec_put. rewrite list_cost_app. cbn [list_cost foldr]. rewrite (cost_three (tx_Nonce tx) ls), (filter_get (items (txs l)) ls) by (done || apply Hm). rewrite Eo. unfold list_cost. lia.
    - cbn [costcap gascap]. intros t [-> | Hin]%spec_put_elem; [| specialize (Hc t Hin)]; destruct (Z.ltb_spec (costcap l) (Transaction_Cost tx)), (Z.ltb_spec (gascap l) (tx_Gas tx)); lia. }
  destruct (items (txs l) !! tx_Nonce tx) as [old |] eqn:Eo; [destruct (outbids tx old bump); cbn [negb] |]; rewrite ?E1; cbn [mbind outcome_bind refines]; eexists _, _; (split; [done |]); (split; [done |]); [| done |].
  - apply (Hput (Some old)); [done |]. rewrite subTotalCost_spec. cbn. lia.
  - apply (Hput None); [done |]. cbn. lia.
Qed.

(** What is left when the transactions outside [Q] are taken out *)
Lemma kept_ok str l ls m removed (Q : DynamicFeeTx → Prop) `{!∀ t, Decision (Q t)} : list_ok str l ls → sm_ok m → in_order (items m) (filter Q ls) → removed ≡ₚ filter (fun t => ¬ Q t) ls →
  list_ok str (MkList (strict l) m (costcap l) (gascap l) (subTotalCost removed (totalcost l))) (filter Q ls).
Proof.
  intros [Hst _ _ Ht Hc] Hm Ho Hp. split; [done | done | done | |].
  - cbn [totalcost]. rewrite subTotalCost_spec, Ht, (cost_split Q ls), (list_cost_perm _ _ Hp). lia.
  - intros t [_ Hin]%list_elem_of_filter. by apply Hc.
Qed.

Lemma list_Forward_refines str l ls th : list_ok str l ls → refines str (list_step range (OpForward th) l) (spec_step str (OpForward th) ls).
Proof.
  intros Hok. pose proof Hok as [Hst Hm Ho Ht Hc]. cbn [list_step spec_step refines]. unfold list_Forward. destruct (sm_Forward_ok th (txs l) Hm) as (removed & m' & -> & Hm' & Hi & Hr). cbn [mbind outcome_bind].
  assert (Er : removed = filter (fun t => tx_Nonce t < th) ls) by (apply (in_order_unique _ _ _ Hr), (in_order_filter _ ls); [done |]; cbn; lia).
  eexists _, _. split; [done |]. split; [by rewrite Er |]. apply kept_ok; [done | done | rewrite Hi; by apply in_order_filter |]. rewrite Er. apply reflexive_eq, list_filter_iff. lia.
Qed.

(** What is left when [removed] is taken off an end of [ls] *)
Lemma cut_ok str l ls m removed ls' : list_ok str l ls → sm_ok m → in_order (items m) ls' → removed ++ ls' ≡ₚ ls →
  list_ok str (MkList (strict l) m (costcap l) (gascap l) (subTotalCost removed (totalcost l))) ls'.
Proof.
  intros [Hst _ _ Ht Hc] Hm Ho Hp. split; [done | done | done | |].
  - cbn [totalcost]. rewrite subTotalCost_spec, Ht, <- (list_cost_perm _ _ Hp), list_cost_app. lia.
  - intros t Hin. apply Hc. rewrite <- Hp. apply elem_of_app. by right.
Qed.

Lemma list_Cap_refines str l ls th : list_ok str l ls → refines str (list_step range (OpCap th) l) (spec_step str (OpCap th) ls).
Proof.
  intros Hok. pose proof Hok as [Hst Hm Ho Ht Hc]. cbn [list_step spec_step]. unfold list_Cap. destruct (Z.ltb_spec th 0) as [Hneg | Hth]; cbn [refines].
  - by rewrite (sm_Cap_negative th _ ls).
  - destruct (sm_Cap_ok th (txs l) ls Hm Ho Hth) as (m' & -> & Hm' & Ho'). cbn [mbind outcome_bind]. eexists _, _. split; [done |]. split; [done |]. eapply cut_ok; [done | done | done |].
    rewrite reverse_Permutation, Permutation_app_comm, take_drop. done.
Qed.

Lemma consecutive_prefix n ls : consecutive n ls ++ drop (length (consecutive n ls)) ls = ls.
Proof. revert n. induction ls as [| t ls IH]; intros n; cbn [consecutive]; [done |]. destruct (tx_Nonce t =? n); [| done]. cbn. by rewrite IH. Qed.

Lemma list_Ready_refines str l ls start : list_ok str l ls → refines str (list_step range (OpReady start) l) (spec_step str (OpReady start) ls).
Proof.
  intros Hok. pose proof Hok as [Hst Hm Ho Ht Hc]. cbn [list_step spec_step refines]. unfold list_Ready. destruct (sm_Ready_ok start (txs l) ls Hm Ho) as (m' & -> & Hm' & Ho'). cbn [mbind outcome_bind]. eexists _, _. split; [done |]. split; [done |].
  eapply cut_ok; [done | done | done |]. unfold ready_part. destruct ls as [| t ls]; [done |]. destruct (start <? tx_Nonce t); [done |]. by rewrite consecutive_prefix.
Qed.

(** Filter of the sorted map, on the transactions by nonce *)
Lemma hit_perm (M : txmap) ls f removed : in_order M ls → enum (filter (fun p => ¬ ¬ f p.2 = true) M) removed → removed ≡ₚ filter (fun t => f t = true) ls.
Proof.
  intros Ho Hr. apply (enum_perm _ _ _ Hr), in_order_enum, in_order_filter; [done |]. intros t. cbn. split; [by destruct (f t); [| intros H; exfalso; apply H] | tauto].
Qed.

Lemma sm_Filter_list f m ls : sm_ok m → in_order (items m) ls →
  ∃ removed m', sm_Filter (E := E) range f m = Ok (removed, m') ∧ sm_ok m' ∧ in_order (items m') (filter (fun t => ¬ f t = true) ls) ∧ removed ≡ₚ filter (fun t => f t = true) ls.
Proof.
  intros Hm Ho. destruct (sm_Filter_ok f m Hm) as (removed & m' & E1 & Hm' & Hi & Hr). exists removed, m'. split_and!; [done | done | rewrite Hi; by apply in_order_filter | by eapply hit_perm].
Qed.

Lemma sm_filter_list f m ls : sm_ok m → in_order (items m) ls →
  ∃ removed m', sm_filter range f m = (removed, m') ∧ keyed (items m') ∧ in_order (items m') (filter (fun t => ¬ f t = true) ls) ∧ removed ≡ₚ filter (fun t => f t = true) ls.
Proof.
  intros Hm Ho. pose proof (sm_filter_ok f m (so_keyed _ Hm)) as H. destruct (sm_filter range f m) as [removed m']. destruct H as (Hi & Hr & _ & _). exists removed, m'.
  split_and!; [done | rewrite Hi; by apply keyed_filter, Hm | rewrite Hi; by apply in_order_filter | by eapply hit_perm].
Qed.

Lemma lowest_fold l : ∀ a, let r := foldl (fun lowest tx => if tx_Nonce tx <? lowest then tx_Nonce tx else lowest) a l in r <= a ∧ (∀ t, t ∈ l → r <= tx_Nonce t) ∧ (r = a ∨ ∃ t, t ∈ l ∧ r = tx_Nonce t).
Proof.
  induction l as [| t l IH]; intros a; cbn [foldl]; [split_and!; [done | by intros t ?%not_elem_of_nil | by left] |]. destruct (IH (if tx_Nonce t <? a then tx_Nonce t else a)) as (H1 & H2 & H3). destruct (Z.ltb_spec (tx_Nonce t) a); (split_and!; [lia | intros t' [-> | Hin]%elem_of_cons; [lia | by apply H2] |]).
  1: right. 2: destruct H3 as [H3 | H3]; [by left | right]. 1: destruct H3 as [H3 | H3]; [exists t; split; [left | done] |]. all: destruct H3 as (t' & Ht & H3); exists t'; (split; [by right | done]).
Qed.

(** The nonce of the first of the sorted transactions *)
Lemma lowest_nonce_ok removed b bad : removed ≡ₚ b :: bad → StronglySorted nonce_lt (b :: bad) → tx_Nonce b < 2 ^ 64 → lowest_nonce removed = tx_Nonce b.
Proof.
  intros Hp Hs Hb. destruct (lowest_fold removed (2 ^ 64 - 1)) as (H1 & H2 & H3). fold (lowest_nonce removed) in *. assert (Hin : b ∈ removed) by (rewrite Hp; left). specialize (H2 b Hin). destruct H3 as [H3 | (t & Ht & H3)]; [lia |].
  rewrite Hp in Ht. apply elem_of_cons in Ht as [-> | Ht]; [done |]. inversion Hs as [| ? ? _ Hlt]; subst. rewrite Forall_forall in Hlt. specialize (Hlt t Ht). lia.
Qed.

Lemma too_costly_false c g t : ¬ too_costly c g t = true ↔ Transaction_Cost t <= c ∧ tx_Gas t <= g.
Proof. unfold too_costly. lia. Qed.

Lemma filter_none (Q : DynamicFeeTx → Prop) `{!∀ t, Decision (Q t)} ls : filter Q ls = [] → filter (fun t => ¬ Q t) ls = ls.
Proof.
  induction ls as [| t ls IH]; [done |]. rewrite !filter_cons. destruct (decide (Q t)); [done |]. intros Hf. rewrite decide_True by done. by rewrite IH.
Qed.

Lemma list_Filter_refines str l ls c g : list_ok str l ls → refines str (list_step range (OpFilter c g) l) (spec_step str (OpFilter c g) ls).
Proof.
  intros Hok. pose proof Hok as [Hst Hm Ho Ht Hc]. cbn [list_step spec_step]. unfold list_Filter. set (bad := filter (fun t => too_costly c g t = true) ls). set (rest := filter (fun t => ¬ too_costly c g t = true) ls).
  assert (Hcaps : ∀ t, t ∈ rest → Transaction_Cost t <= c ∧ tx_Gas t <= g) by (intros t [Hf _]%list_elem_of_filter; by apply too_costly_false).
  destruct (_ && _) eqn:Ecap.
  { assert (Hbad : bad = []).
    { destruct bad as [| b bs] eqn:Eb; [done |]. assert (Hin : b ∈ bad) by (rewrite Eb; left). apply list_elem_of_filter in Hin as [Hf Hin]. specialize (Hc b Hin). unfold too_costly in Hf. lia. }
    rewrite Hbad. by eexists _, _. }
  destruct (sm_Filter_list (too_costly c g) (txs l) ls Hm Ho) as (removed & m1 & -> & Hm1 & Ho1 & Hr). cbn [mbind outcome_bind]. fold bad in Hr. fold rest in Ho1. assert (Hcost : list_cost ls = list_cost bad + list_cost rest) by exact (cost_split (fun t => too_costly c g t = true) ls).
  destruct bad as [| b bs] eqn:Eb.
  { apply Permutation_nil_r in Hr as ->. cbn [length Z.of_nat Z.eqb]. assert (Erest : rest = ls) by (by apply filter_none). rewrite Erest in *. eexists _, _. split; [done |]. split; [done |]. by split. }
  assert (El : (len removed =? 0) = false) by (apply Z.eqb_neq; rewrite (Permutation_length Hr); cbn; lia). rewrite El, Hst. cbn [refines]. rewrite <- (list_cost_perm _ _ Hr) in Hcost. destruct str.
  - assert (Hb : b ∈ bad) by (rewrite Eb; left). apply list_elem_of_filter in Hb as [_ Hb]. apply (proj2 Ho), (so_keyed _ Hm) in Hb as [_ Hb].
    rewrite (lowest_nonce_ok removed b bs Hr) by (lia || (rewrite <- Eb; by apply sorted_filter, Ho)).
    destruct (sm_filter_list (fun t => tx_Nonce b <? tx_Nonce t) m1 rest Hm1 Ho1) as (inv & m2 & -> & HM2 & Ho2 & Hr2). destruct (sm_reheap_ok m2 HM2) as (m3 & -> & Hm3 & Hi3). cbn [mbind outcome_bind].
    rewrite (list_filter_iff _ (fun t => tx_Nonce b < tx_Nonce t)) in Hr2 by (intros t; apply Z.ltb_lt). rewrite (list_filter_iff _ (fun t => ¬ tx_Nonce b < tx_Nonce t)) in Ho2 by (intros t; by rewrite Z.ltb_lt).
    eexists _, _. split; [done |]. split; [done |]. split; [done | done | cbn [txs]; by rewrite Hi3 | | cbn [costcap gascap]; intros t [_ Hin]%list_elem_of_filter; by apply Hcaps].
    cbn [totalcost]. rewrite !subTotalCost_spec, Ht, (list_cost_perm _ _ Hr2). assert (list_cost rest = list_cost (filter (fun t => tx_Nonce b < tx_Nonce t) rest) + list_cost (filter (fun t => ¬ tx_Nonce b < tx_Nonce t) rest)) by exact (cost_split (fun t => tx_Nonce b < tx_Nonce t) rest). lia.
  - destruct (sm_reheap_ok m1 (so_keyed _ Hm1)) as (m3 & -> & Hm3 & Hi3). cbn [mbind outcome_bind]. eexists _, _. split; [done |]. split; [done |]. split; [done | done | cbn [txs]; by rewrite Hi3 | | done].
    cbn [totalcost]. rewrite !subTotalCost_spec, Ht. cbn [list_cost foldr]. lia.
Qed.

Lemma list_Remove_refines str l ls tx : list_ok str l ls → op_valid (OpRemove tx) ls → refines str (list_step range (OpRemove tx) l) (spec_step str (OpRemove tx) ls).
Proof.
  intros Hok Hv. pose proof Hok as [Hst Hm Ho Ht Hc]. cbn [list_step spec_step op_valid] in *. unfold list_Remove. rewrite (spec_get_ok (items (txs l))) by (done || apply Hm). destruct (sm_Remove_ok (tx_Nonce tx) (txs l) Hm) as (m1 & -> & Hm1 & Hi1). cbn [mbind outcome_bind].
  destruct (items (txs l) !! tx_Nonce tx) as [t |] eqn:Eg.
  2: { rewrite bool_decide_false by (by intros [? ?]). cbn [negb refines]. eexists _, _. split; [done |]. split; [done |]. rewrite delete_id in Hi1 by done. split; [done | done | cbn [txs]; by rewrite Hi1 | done | done]. }
  rewrite bool_decide_true by done. cbn [negb]. destruct (so_keyed _ Hm _ _ Eg) as [En _]. assert (t = tx) as -> by (apply Hv; [apply Ho; congruence | done]). rewrite Hst.
  assert (Hone : filter (fun t => tx_Nonce t = tx_Nonce tx) ls = [tx]) by (rewrite (filter_get (items (txs l))) by (done || apply Hm); by rewrite Eg).
  assert (Ho1 : in_order (items m1) (filter (fun t => tx_Nonce t ≠ tx_Nonce tx) ls)).
  { apply (in_order_sub _ _ _ _ Ho). intros t. rewrite Hi1, lookup_delete_Some. split; intros [? ?]; done. }
  pose proof (cost_three (tx_Nonce tx) ls) as Hcost. rewrite Hone in Hcost. destruct str.
  - destruct (sm_Filter_list (fun t => tx_Nonce tx <? tx_Nonce t) m1 _ Hm1 Ho1) as (inv & m2 & -> & Hm2 & Ho2 & Hr). cbn [mbind outcome_bind refines].
    rewrite list_filter_filter, (list_filter_iff _ (fun t => tx_Nonce tx < tx_Nonce t)) in Hr by lia. rewrite list_filter_filter, (list_filter_iff _ (fun t => tx_Nonce t < tx_Nonce tx)) in Ho2 by lia.
    eexists _, _. split; [done |]. split; [done |]. split; [done | done | done | | intros t [_ Hin]%list_elem_of_filter; by apply Hc]. cbn [totalcost]. rewrite !subTotalCost_spec, Ht, (list_cost_perm _ _ Hr). lia.
  - cbn [refines]. eexists _, _. split; [done |]. split; [done |]. pose proof (kept_ok false l ls m1 [tx] (fun t => tx_Nonce t ≠ tx_Nonce tx) Hok Hm1 Ho1) as H. rewrite Hst in H. apply H. rewrite <- Hone. apply reflexive_eq, list_filter_iff. lia.
Qed.

Lemma list_query_refines str l ls op : list_ok str l ls → match op with OpFlatten | OpLastElement | OpContains _ | OpLen => True | _ => False end → refines str (list_step range op l) (spec_step str op ls).
Proof.
  intros Hok Hop. pose proof Hok as [Hst Hm Ho Ht Hc]. destruct (sm_flatten_ok (txs l) ls Hm Ho) as (m' & Ef & Hm' & Ho'). destruct op; try done; cbn [list_step spec_step].
  - unfold list_Flatten. rewrite Ef. eexists _, _. split; [done |]. split; [done |]. by split.
  - unfold list_LastElement, sm_LastElement. rewrite Ef. cbn [mbind outcome_bind]. destruct ls as [| t ls _] using rev_ind; [done |]. rewrite last_snoc. cbn [refines]. unfold at_. rewrite len_app. cbn [length].
    rewrite (proj2 (Z.ltb_ge _ 0)) by lia. rewrite list_lookup_middle by lia. cbn [mbind outcome_bind]. eexists _, _. split; [done |]. split; [done |]. by split.
  - eexists _, _. split; [done |]. split; [| done]. cbn [answer_equiv]. f_equal. unfold list_Contains, sm_Get. apply bool_decide_ext. symmetry. apply nonces_elem; [apply Hm | done].
  - eexists _, _. split; [done |]. split; [| done]. cbn [answer_equiv]. unfold list_Len, sm_Len. rewrite (in_order_size _ ls); [done | apply Hm | done].
Qed.

Lemma list_step_refines str l ls op : list_ok str l ls → op_valid op ls → refines str (list_step range op l) (spec_step str op ls).
Proof.
  intros Hok Hv. destruct op; [by apply list_Add_refines | by apply list_Forward_refines | by apply list_Filter_refines | by apply list_Cap_refines | by apply list_Remove_refines | by apply list_Ready_refines | by apply list_query_refines ..].
Qed.

Lemma new_list_ok str : list_ok str (newList str) [].
Proof. split; [done | apply new_map_ok | apply in_order_empty; intros n; apply lookup_empty | done | by intros t ?%not_elem_of_nil]. Qed.

Lemma run_refines str ops : ∀ l ls, list_ok str l ls → ops_valid str ops ls →
  match spec_run str ops ls with
  | Ok (answers, ls') => ∃ answers' l', run_list (E := E) range ops l = Ok (answers', l') ∧ Forall2 answer_equiv answers' answers ∧ list_ok str l' ls'
  | _ => run_list (E := E) range ops l = Panic
  end.
Proof.
  induction ops as [| op ops IH]; intros l ls Hok Hv; cbn [spec_run run_list]; [by eexists _, _ |]. destruct Hv as [Hop Hv]. pose proof (list_step_refines str l ls op Hok Hop) as H. unfold refines in H.
  destruct (spec_step str op ls) as [[a ls1] | ? | |]; cbn [mbind outcome_bind]; [| by rewrite H ..]. destruct H as (a' & l1 & -> & Ha & Hok1). cbn [mbind outcome_bind]. specialize (IH l1 ls1 Hok1 Hv).
  destruct (spec_run str ops ls1) as [[answers ls2] | ? | |]; cbn [mbind outcome_bind]; [| by rewrite IH ..]. destruct IH as (answers' & l2 & -> & Hans & Hok2). cbn [mbind outcome_bind]. eexists _, _. split; [done |]. split; [by constructor | done].
Qed.

(** C21.  The transaction list of an account, with its heap of nonces, its cache of sorted
    transactions, its caps and its running total, behaves like a plain list of
    transactions in the order of their nonces.  For any sequence of Add, Forward, Filter,
    Cap, Remove, Ready, Flatten, LastElement, Contains and Len on a new list, strict or
    not, the code panics exactly when the plain list does (a negative Cap, the last
    element of nothing); otherwise its answers are the plain list's, and at the end the
    heap, the cache and the map agree, the total is the sum of the costs and the caps
    bound the cost and the gas of every transaction.  The order in which Go ranges over
    maps does not matter. *)
Theorem list_refines (str : bool) (ops : list list_op) : ops_valid str ops [] →
  match spec_run str ops [] with
  | Ok (answers, ls) => ∃ answers' l, run_list (E := E) range ops (newList str) = Ok (answers', l) ∧ Forall2 answer_equiv answers' answers ∧ list_ok str l ls
  | _ => run_list (E := E) range ops (newList str) = Panic
  end.
Proof. apply run_refines, new_list_ok. Qed.
End Ops.

Definition demo_list_tx (nonce gas fee : Z) : DynamicFeeTx := MkDynamicFeeTx 1 nonce fee fee gas None 0 [] [] [] [].

Definition demo_list_ops : list list_op :=
  [OpAdd (demo_list_tx 7 21000 100) 10; OpAdd (demo_list_tx 5 21000 100) 10; OpAdd (demo_list_tx 6 50000 100) 10; OpAdd (demo_list_tx 6 50000 105) 10; OpAdd (demo_list_tx 5 21000 110) 10;
   OpFlatten; OpReady 5; OpAdd (demo_list_tx 9 30000 100) 10; OpAdd (demo_list_tx 8 21000 100) 10; OpAdd (demo_list_tx 11 21000 100) 10; OpFilter 100000000 25000; OpCap 1; OpLastElement; OpForward 9; OpLen].

Definition demo_list_answers : list list_answer :=
  let t7 := demo_list_tx 7 21000 100 in let t5 := demo_list_tx 5 21000 100 in let t6 := demo_list_tx 6 50000 100 in let t5' := demo_list_tx 5 21000 110 in
  [AAdd true None; AAdd true None; AAdd true None; AAdd false None; AAdd true (Some t5); ATxs [t5'; t6; t7]; ATxs [t5'; t6; t7]; AAdd true None; AAdd true None; AAdd true None;
   AFilter [demo_list_tx 9 30000 100] [demo_list_tx 11 21000 100]; ATxs []; ALast (demo_list_tx 8 21000 100); ATxs [demo_list_tx 8 21000 100]; ALen 0].

Lemma list_refines_witness : ops_valid (E := unit) true demo_list_ops [] ∧
  ∃ answers l, run_list (E := unit) map_to_list demo_list_ops (newList true) = Ok (answers, l) ∧ Forall2 answer_equiv answers demo_list_answers ∧ list_ok true l [].
Proof.
  assert (Hv : ops_valid (E := unit) true demo_list_ops []) by (vm_compute; repeat split; done). split; [exact Hv |].
  exact (list_refines (E := unit) map_to_list (fun M => reflexivity _) true demo_list_ops Hv).
Defined.
