(* ===== verification/BlockContext.v ===== *)
(** * The context of a block: core/zvm.go

    GetHashFn makes the function behind BLOCKHASH: it walks the chain back from the
    block and keeps the hashes it found in a cache that later calls share.  The chain
    is the function that looks up a header by hash and number.  A header without a base
    fee, which the consensus engine refuses, has no context here. *)

From S2P Require Import Prelude RlpRaw RlpEncode RlpStream TrieNode TrieStore TrieOps StateAccess State Header Consensus Uint256 VmAnalysis VmCore TxTransition.

Section HashFn.
  Context (GetHeader : bytes → Z → option Header) (ref : Header).

(** The loop of the function: headers are looked up until the number is reached *)
Fixpoint hash_loop (fuel : nat) (n : Z) (lastKnownHash : bytes) (lastKnownNumber : Z) (cache : list bytes) : outcome Empty_set (bytes * list bytes) :=
  match fuel with
  | O => OutOfFuel
  | S fuel =>
      match GetHeader lastKnownHash lastKnownNumber with
      | None => Ok (zeroHash, cache)
      | Some header =>
          number ← deref (h_Number header);
          let cache := cache ++ [h_ParentHash header] in
          let lastKnownNumber := u64 (big_Uint64 number - 1) in
          if n =? lastKnownNumber then Ok (h_ParentHash header, cache)
          else hash_loop fuel n (h_ParentHash header) lastKnownNumber cache
      end
  end.

(** A call of the function, on the cache that the calls before left; as many rounds
    as the block has ancestors are enough *)
Definition GetHashFn (cache : list bytes) (n : Z) : outcome Empty_set (bytes * list bytes) :=
  number ← deref (h_Number ref);
  if big_Uint64 number <=? n then Ok (zeroHash, cache)
  else
    let cache := match cache with [] => [h_ParentHash ref] | _ => cache end in
    let idx := u64 (big_Uint64 number - n - 1) in
    if idx <? len cache then
      h ← at_ cache idx;
      Ok (h, cache)
    else
      lastKnownHash ← at_ cache (len cache - 1);
      hash_loop (Z.to_nat (big_Uint64 number)) n lastKnownHash (u64 (big_Uint64 number - len cache)) cache.

(** ** The hashes of the ancestors *)

(** The hash of the ancestor [i + 1] generations back, when the headers on the way are known *)
Fixpoint ancestor (N : Z) (i : nat) : option bytes :=
  match i with
  | O => Some (h_ParentHash ref)
  | S i => h ← ancestor N i; h_ParentHash <$> GetHeader h (N - Z.of_nat (S i))
  end.

Definition block_hash (N n : Z) : bytes := if N <=? n then zeroHash else default zeroHash (ancestor N (Z.to_nat (N - n - 1))).

Definition cached (N : Z) (cache : list bytes) : Prop := len cache <= N ∧ ∀ i h, cache !! i = Some h → ancestor N i = Some h.

Section Number.
  Context (N : Z) (HN : h_Number ref = Some N) (Hr : 0 <= N < 2 ^ 64) (Hnum : ∀ h k hd, GetHeader h k = Some hd → h_Number hd = Some k).

Lemma ancestor_none i j : (i <= j)%nat → ancestor N i = None → ancestor N j = None.
Proof. intros Hij Hi. induction Hij as [| j _ IH]; [done |]. cbn. by rewrite IH. Qed.

Lemma cached_snoc cache h : len cache < N → cached N cache → ancestor N (length cache) = Some h → cached N (cache ++ [h]).
Proof.
  intros Hl [_ Hc] Ha. split; [rewrite len_app; cbn; lia |]. intros i x Hi. apply lookup_app_Some in Hi as [Hi | [Hi Hx]]; [by apply Hc |].
  apply list_lookup_singleton_Some in Hx as [Hz <-]. by replace i with (length cache) by lia.
Qed.

Lemma hash_loop_spec fuel n : ∀ cache last, 0 <= n → n + len cache < N → N - n - len cache <= Z.of_nat fuel →
  cached N cache → ancestor N (length cache - 1) = Some last → (0 < length cache)%nat →
  ∃ cache', hash_loop fuel n last (u64 (N - len cache)) cache = Ok (block_hash N n, cache') ∧ cached N cache'.
Proof.
  induction fuel as [| fuel IH]; intros cache last Hn Hlt Hf Hc Hlast Hpos; [lia |]. cbn [hash_loop]. rewrite u64_id by lia.
  assert (Hstep : ancestor N (length cache) = h_ParentHash <$> GetHeader last (N - len cache)).
  { replace (length cache) with (S (length cache - 1)) at 1 by lia. cbn [ancestor]. rewrite Hlast. cbn [mbind option_bind]. do 2 f_equal. lia. }
  destruct (GetHeader last (N - len cache)) as [hd |] eqn:Eh; cbn in Hstep.
  - rewrite (Hnum _ _ _ Eh). cbn [deref mbind outcome_bind]. unfold big_Uint64. rewrite Z.abs_eq, (u64_id (N - len cache)), (u64_id (N - len cache - 1)) by lia.
    pose proof (cached_snoc cache _ ltac:(lia) Hc Hstep) as Hc'. case_if.
    + exists (cache ++ [h_ParentHash hd]). split; [| done]. unfold block_hash. rewrite (proj2 (Z.leb_gt N n)) by lia.
      replace (Z.to_nat (N - n - 1)) with (length cache) by lia. by rewrite Hstep.
    + destruct (IH (cache ++ [h_ParentHash hd]) (h_ParentHash hd)) as (cache' & E & Hc''); rewrite ?len_app, ?length_app; cbn [length]; try done; try lia.
      * by replace (length cache + 1 - 1)%nat with (length cache) by lia.
      * exists cache'. split; [| done]. rewrite len_app in E. cbn [length] in E. replace (N - len cache - 1) with (N - (len cache + Z.of_nat 1)) by lia.
        rewrite u64_id in E by lia. exact E.
  - exists cache. split; [| done]. unfold block_hash. rewrite (proj2 (Z.leb_gt N n)) by lia. by rewrite (ancestor_none (length cache)) by (done || lia).
Qed.

Lemma GetHashFn_spec cache n : 0 <= n → cached N cache → ∃ cache', GetHashFn cache n = Ok (block_hash N n, cache') ∧ cached N cache'.
Proof.
  intros Hn Hc. unfold GetHashFn. rewrite HN. cbn [deref mbind outcome_bind]. unfold big_Uint64. rewrite Z.abs_eq, u64_id by lia.
  destruct (N <=? n) eqn:En; zb; [exists cache; split; [unfold block_hash; by rewrite (proj2 (Z.leb_le N n)) | done] |].
  set (c := match cache with [] => _ | _ => cache end). assert (Hcc : cached N c ∧ (0 < length c)%nat).
  { destruct cache as [| h cache]; cbn; [| split; [done | lia]]. split; [| lia]. split; [cbn; lia |]. intros i h Hi. apply list_lookup_singleton_Some in Hi as [-> <-]. done. }
  destruct Hcc as [Hcc Hpos]. rewrite u64_id by lia. case_if.
  - destruct (lookup_lt_is_Some_2 c (Z.to_nat (N - n - 1)) ltac:(lia)) as [h Eh]. unfold at_. rewrite (proj2 (Z.ltb_ge _ 0)) by lia. rewrite Eh. cbn [mbind outcome_bind].
    exists c. split; [| done]. unfold block_hash. rewrite (proj2 (Z.leb_gt N n)) by lia. by rewrite (proj2 Hcc _ _ Eh).
  - destruct (lookup_lt_is_Some_2 c (Z.to_nat (len c - 1)) ltac:(lia)) as [h Eh]. unfold at_. rewrite (proj2 (Z.ltb_ge _ 0)) by lia. rewrite Eh. cbn [mbind outcome_bind].
    apply hash_loop_spec; try done; try lia. apply (proj2 Hcc). rewrite <- Eh. f_equal. lia.
Qed.
End Number.
End HashFn.

(** ** Contexts *)

(** NewZVMBlockContext, with the settings of the machine: chain id, preimage recording,
    precompiled contracts and the encoder's pool.  The answers of GetHash do not depend
    on the calls before ([GetHashFn_calls]), so that each call is one on an empty cache. *)
Definition NewZVMBlockContext (GetHeader : bytes → Z → option Header) (chainID : Z) (record : bool) (precompile : bytes → option PrecompiledContract) (pool : encBuffer)
    (header : Header) (author : option bytes) : outcome Empty_set vm_env :=
  baseFee ← deref (h_BaseFee header);
  number ← deref (h_Number header);
  Ok (MkEnv (fun n => '(h, _) ← GetHashFn GetHeader header [] n; Ok h)
        (default (h_Coinbase header) author) (h_GasLimit header) number (h_Time header) baseFee (h_Random header) [] 0 chainID record false precompile pool).

(** NewZVMTxContext, set in the context of the block *)
Definition NewZVMTxContext (msg : Message) (env : vm_env) : vm_env :=
  MkEnv (GetHash env) (Coinbase env) (GasLimit env) (BlockNumber env) (Time env) (BaseFee env) (Random env) (m_From msg) (m_GasPrice msg) (ChainID env)
    (EnablePreimageRecording env) (aborted env) (precompile env) (enc_pool env).

(** The answers to a sequence of calls *)
Fixpoint hash_calls (GetHeader : bytes → Z → option Header) (ref : Header) (cache : list bytes) (ns : list Z) : outcome Empty_set (list bytes) :=
  match ns with
  | [] => Ok []
  | n :: ns =>
      '(h, cache) ← GetHashFn GetHeader ref cache n;
      hs ← hash_calls GetHeader ref cache ns;
      Ok (h :: hs)
  end.

(** C33.  BLOCKHASH answers with the hash of the ancestor of the number asked for, zero
    for the block itself, later ones and ancestors that are not known, whatever was
    asked before: the cache is not seen, and every call returns. *)
Theorem GetHashFn_calls GetHeader ref N ns :
  h_Number ref = Some N → 0 <= N < 2 ^ 64 → (∀ h k hd, GetHeader h k = Some hd → h_Number hd = Some k) → Forall (fun n => 0 <= n) ns →
  hash_calls GetHeader ref [] ns = Ok (map (block_hash GetHeader ref N) ns).
Proof.
  intros HN Hr Hnum Hns. assert (Hc : cached GetHeader ref N []) by (split; [cbn; lia | by intros i h Hi]). revert Hc. generalize (@nil bytes).
  induction Hns as [| n ns Hn _ IH]; intros cache Hc; [done |]. cbn [hash_calls map]. destruct (GetHashFn_spec GetHeader ref N HN Hr Hnum cache n Hn Hc) as (cache' & -> & Hc').
  cbn [mbind outcome_bind]. by rewrite (IH cache' Hc').
Qed.

Lemma GetHashFn_calls_witness :
  hash_calls (fun h k => if (k =? 6) && bool_decide (h = repeat 1 32) then Some (demo_child (repeat 3 32) 6 11 5) else None) (demo_header (repeat 1 32)) [] [5; 6; 7; 2; 5] =
    Ok [repeat 3 32; repeat 1 32; zeroHash; zeroHash; repeat 3 32].
Proof.
  rewrite (GetHashFn_calls _ (demo_header (repeat 1 32)) 7); [vm_compute; reflexivity | done | done | | by repeat constructor].
  intros h k hd. case_if; [| done]. intros [= <-]. cbn. f_equal. lia.
Defined.
