(* ===== verification/BlockProcess.v ===== *)
(** * Blocks: core/state_processor.go and Finalize of consensus/beacon

    A block's transactions are turned into messages and applied one after the other,
    each on the state that the one before left, sharing the gas pool; then the
    withdrawals are paid.  The interpreter is an argument, as in the transition; Process
    of the program is the one with Run.  The state is any implementation of the machine's interface
    that also has the operations between transactions. *)

From S2P Require Import Prelude RlpRaw RlpEncode RlpStream TrieNode TrieStore TrieOps StateAccess State StateFinalise Bloom Header Consensus Uint256 VmAnalysis VmCore VmGas VmInstr VmInterp TxTransition TxTypes BlockContext.

(** EffectiveGasPrice, which the processor leaves nil, is not a field here. *)
Record Receipt := MkReceipt {
  rc_Type : Z;
  PostState : bytes;
  Status : Z;
  CumulativeGasUsed : Z;
  rc_Bloom : bytes;
  Logs : list Log;
  rc_TxHash : bytes;
  ContractAddress : bytes;
  rc_GasUsed : Z;
  rc_BlockHash : bytes;
  rc_BlockNumber : Z;
  TransactionIndex : Z
}.

Abbreviation ReceiptStatusFailed := 0 (only parsing).
Abbreviation ReceiptStatusSuccessful := 1 (only parsing).

Record Withdrawal := MkWithdrawal { wd_Index : Z; Validator : Z; wd_Address : bytes; wd_Amount : Z }.

(** A transaction with what it caches of its sender *)
Record Transaction := MkTransaction { inner : DynamicFeeTx; tx_from : option (Z * bytes) }.

Record Block := MkBlock { b_header : Header; b_transactions : list Transaction; b_withdrawals : list Withdrawal }.

(** What the processor needs of the state besides the machine's interface *)
Class BlockStateDB (SDB : Type) := {
  db_Finalise : bool → SDB → SDB;
  db_SetTxContext : bytes → Z → SDB → SDB;
  db_GetLogs : bytes → Z → bytes → SDB → list Log * SDB;
  db_TxIndex : SDB → Z
}.

Inductive process_error := TxError (e : types_error) | ApplyError (e : core_error).

(** A result whose error cannot be one of the callee *)
Definition no_err {E A} (o : go A) : outcome E A := match o with Ok x => Ok x | Err _ | Panic => Panic | OutOfFuel => OutOfFuel end.

Section Process.
  Context `{UI : Uint256} `{HF : Hasher} {SDB : Type} `{DB : VmStateDB SDB} `{BD : BlockStateDB SDB}.
  Context (pkLen : Z) (addressOf : bytes → bytes) (precompiles : list bytes) (run : vm_env → runner (SDB := SDB)).

(** What is left by applyTransaction: the pool, the gas used in the block, the machine *)
Record progress := MkProgress { pg_gp : Z; pg_usedGas : Z; pg_zvm : ZVM SDB }.

(** The end of applyTransaction, with the result of the message *)
Definition make_receipt (env : vm_env) (msg : Message) (blockNumber : Z) (blockHash txHash : bytes) (tx : DynamicFeeTx) (usedGas : Z) (result : ExecutionResult) (s : SDB)
    : outcome Empty_set (Receipt * SDB) :=
  let status := match r_Err result with Some _ => ReceiptStatusFailed | None => ReceiptStatusSuccessful end in
  contract ← match m_To msg with None => CreateAddress (enc_pool env) (Origin env) (tx_Nonce tx) | Some _ => Ok (repeat 0 20) end;
  let '(l, s) := db_GetLogs txHash (big_Uint64 blockNumber) blockHash s in
  Ok (MkReceipt DynamicFeeTxType [] status usedGas (CreateBloom [l]) l txHash contract (UsedGas result) blockHash blockNumber (db_TxIndex s), s).

Definition applyTransaction (env : vm_env) (msg : Message) (blockNumber : Z) (blockHash txHash : bytes) (tx : DynamicFeeTx) (p : progress)
    : outcome Empty_set ((core_error + Receipt) * progress) :=
  let env := NewZVMTxContext msg env in
  '(r, st) ← ApplyMessage env false precompiles (run env) msg (pg_zvm p) (pg_gp p);
  match r with
  | inl e => Ok (inl e, MkProgress (gp st) (pg_usedGas p) (t_zvm st))
  | inr result =>
      let s := db_Finalise true (z_state (t_zvm st)) in
      let usedGas := u64 (pg_usedGas p + UsedGas result) in
      '(receipt, s) ← make_receipt env msg blockNumber blockHash txHash tx usedGas result s;
      Ok (inr receipt, MkProgress (gp st) usedGas (with_state s (t_zvm st)))
  end.

(** The loop over the transactions; the index of the transaction that was refused goes with the error. *)
Fixpoint process_txs (env : vm_env) (signer : Z) (header : Header) (blockNumber : Z) (blockHash : bytes) (i : Z) (txs : list Transaction) (p : progress)
    : outcome Empty_set ((Z * process_error + list Receipt) * progress) :=
  match txs with
  | [] => Ok (inr [], p)
  | tx :: txs =>
      match fst (TransactionToMessage pkLen addressOf (inner tx) signer (tx_from tx) (h_BaseFee header)) with
      | Ok msg =>
          txHash ← no_err (Transaction_Hash (enc_pool env) (inner tx));
          let p := MkProgress (pg_gp p) (pg_usedGas p) (with_state (db_SetTxContext txHash i (z_state (pg_zvm p))) (pg_zvm p)) in
          '(r, p) ← applyTransaction env msg blockNumber blockHash txHash (inner tx) p;
          match r with
          | inl e => Ok (inl (i, ApplyError e), p)
          | inr receipt =>
              '(rs, p) ← process_txs env signer header blockNumber blockHash (i + 1) txs p;
              Ok (match rs with inl e => inl e | inr rs => inr (receipt :: rs) end, p)
          end
      | Err e => Ok (inl (i, TxError e), p)
      | Panic => Panic
      | OutOfFuel => OutOfFuel
      end
  end.

(** Beacon.Finalize *)
Definition Beacon_Finalize (withdrawals : list Withdrawal) (s : SDB) : SDB :=
  foldl (fun s w => db_AddBalance (wd_Address w) (wd_Amount w * 1000000000) s) s withdrawals.

(** Process: the receipts, their logs and the gas used, with the state *)
Definition Process (GetHeader : bytes → Z → option Header) (chainID : Z) (record : bool) (precompile : bytes → option PrecompiledContract) (pool : encBuffer)
    (block : Block) (s : SDB) : outcome Empty_set ((Z * process_error + list Receipt * list Log * Z) * SDB) :=
  let header := b_header block in
  blockHash ← no_err (Header_Hash pool header);
  blockNumber ← deref (h_Number header);
  gp ← AddGas (h_GasLimit header) 0;
  env ← NewZVMBlockContext GetHeader chainID record precompile pool header None;
  let z := MkZVM s 0 0 false [] ∅ in
  '(r, p) ← process_txs env chainID header blockNumber blockHash 0 (b_transactions block) (MkProgress gp 0 z);
  let s := z_state (pg_zvm p) in
  match r with
  | inl e => Ok (inl e, s)
  | inr receipts => Ok (inr (receipts, concat (map Logs receipts), pg_usedGas p), Beacon_Finalize (b_withdrawals block) s)
  end.
End Process.

#[export] Instance StateDB_block `{HF : Hasher} {T ST E : Type} `{B : !Backend T ST E} : BlockStateDB (StateDB (T := T) (ST := ST) (E := E)) := {|
  db_Finalise := Finalise;
  db_SetTxContext := SetTxContext;
  db_GetLogs := GetLogs;
  db_TxIndex := txIndex
|}.
