(* ===== verification/BlockSpec.v ===== *)
(** * What the processing of a block promises

    Against the laws of the state between transactions, the processing of a block ends
    with a receipt for each transaction or the refusal of one of them; a processed block
    uses no more gas than its limit, and of all the money only the base fees are gone
    and only the withdrawals new. *)

From S2P Require Import Prelude RlpRaw RlpEncode RlpStream RlpTyped TrieNode TrieStore TrieOps TrieHash StateAccess State StateWorld StateSupply StateRevert StateSpec StatePrepare StateFinalise Bloom Header Consensus Uint256 VmAnalysis VmCore VmGas VmInstr VmInterp VmLaws VmInv VmMemory VmSafeOps VmSafeCalls VmSafety VmSpec TxTransition TxTypes TxSpec BlockContext BlockProcess.

(** ** The laws of the state between transactions *)

Class BlockStateLaws `{HF : Hasher} (SDB : Type) `{DB : VmStateDB SDB} `{SL : !VmStateLaws SDB} `{BD : BlockStateDB SDB} := {
  law_Finalise s sw : models s sw → ∃ D, models (db_Finalise true s) (MkSaved (finalised D (sw_now sw)) [] (sw_next sw));
  law_SetTxContext th ti s sw : models s sw → sw_saved sw = [] → models (db_SetTxContext th ti s) (MkSaved (with_context th ti (sw_now sw)) [] (sw_next sw));
  law_GetLogs hash n bh s sw : models s sw → sw_saved sw = [] →
    (db_GetLogs hash n bh s).1 = map (locate_log n bh) (default [] (w_logs (sw_now sw) !! hash)) ∧
    models (db_GetLogs hash n bh s).2 (MkSaved (with_logs (located hash n bh (w_logs (sw_now sw))) (sw_now sw)) [] (sw_next sw));
  law_TxIndex s sw : models s sw → db_TxIndex s = w_txIndex (sw_now sw)
}.

#[export] Instance StateDB_block_laws `{HF : Hasher} `{HL : !HasherLaws} {T ST E : Type} `{B : !Backend T ST E} : BlockStateLaws (StateDB (T := T) (ST := ST) (E := E)).
Proof.
  split.
  - intros s sw. apply Finalise_refines.
  - intros th ti s sw. apply SetTxContext_refines.
  - intros hash n bh s sw. apply GetLogs_refines.
  - intros s sw Hr. by destruct (rf_shows _ _ Hr).
Qed.

(** ** The end of a transaction *)

Section Ends.
  Context `{HF : Hasher}.

Lemma acct_finalised D w a : acct (finalised D w) a = v_commit (acct w a) ∨ (acct (finalised D w) a = empty_account ∧ (w_account w a = None ∨ v_empty (acct w a) = true)).
Proof.
  unfold acct, finalised. cbn. destruct (w_account w a) as [v |] eqn:Ev; cbn; [| by right; split; [| left]]. destruct (bool_decide (a ∈ D) && v_empty v) eqn:E; [| by left].
  right. split; [done | right]. cbn. by apply andb_true_iff in E as [_ ?].
Qed.

Lemma balance_finalised D w a : balance (finalised D w) a = balance w a.
Proof.
  unfold balance. destruct (acct_finalised D w a) as [-> | [-> [Hn | He]]]; [done | unfold acct; by rewrite Hn |].
  unfold v_empty in He. apply andb_true_iff in He as [He _]. apply andb_true_iff in He as [_ He]. zb. by rewrite He.
Qed.

Lemma finalised_ok D w : world_ok w → world_ok (finalised D w).
Proof.
  intros [Hw _]. split.
  - intros a. destruct (acct_finalised D w a) as [-> | [-> _]]; [by destruct (Hw a) |]. by split.
  - intros l _ Hl. cbn. destruct l as [| s l]; [done |]. apply Forall_cons in Hl as [[H1 H2] _]. exfalso.
    destruct (acct_finalised D w s.1) as [E | [E _]]; rewrite E in H1, H2; done.
Qed.

End Ends.

Section Block.
  Context `{UI : Uint256} `{UL : !Uint256Laws} `{HF : Hasher} `{HL : !HasherLaws} `{CS : Codes}
    {SDB : Type} `{DB : VmStateDB SDB} `{SL : !VmStateLaws SDB} `{BD : BlockStateDB SDB} `{BL : !BlockStateLaws SDB}.
  Context (pkLen : Z) (addressOf : bytes → bytes) (precompiles : list bytes).
  Context (Haddr : ∀ pk, address_ok (addressOf pk)).
  Abbreviation progress := (progress (SDB := SDB)).

(** The state between two transactions *)
Record between (p : progress) (sw : saved_world) : Prop := MkBetween {
  bt_models : models (z_state (pg_zvm p)) sw;
  bt_saved : sw_saved sw = [];
  bt_world : world_ok (sw_now sw);
  bt_refund : w_refund (sw_now sw) = 0;
  bt_zvm : zvm_ok (pg_zvm p);
  bt_write : readOnly (pg_zvm p) = false
}.

(** A message made from a transaction, before it is known whether it may run *)
Record message_ok (msg : Message) : Prop := MkMessageOk {
  mo_from : address_ok (m_From msg);
  mo_to : ∀ a, m_To msg = Some a → address_ok a;
  mo_data : bytes_ok (m_Data msg) ∧ len (m_Data msg) < 2 ^ 63;
  mo_nonce : 0 <= m_Nonce msg < 2 ^ 64;
  mo_gas : 0 <= m_GasLimit msg < 2 ^ 64;
  mo_value : 0 <= m_Value msg;
  mo_tip : 0 <= m_GasTipCap msg;
  mo_price : 0 <= m_GasPrice msg <= m_GasFeeCap msg
}.

(** A message for more gas than the pool has is refused. *)
Lemma ApplyMessage_over env run msg (z : ZVM SDB) pool : pool < m_GasLimit msg → ∃ e st, ApplyMessage env false precompiles run msg z pool = Ok (inl e, st).
Proof.
  intros Hg. unfold ApplyMessage, TransitionDb, accept_message. assert (Hpre : ∃ e st, preCheck env false msg (NewStateTransition z pool) = (Some e, st)); [| destruct Hpre as (e & st & ->); by eauto].
  unfold preCheck. assert (Hacc : ∃ err st, check_account msg (NewStateTransition z pool) = (err, st) ∧ gp st = pool).
  { unfold check_account. destruct (SkipAccountChecks msg); [by eexists _, _ |]. destruct (db_GetNonce _ _) as [n s]. repeat (case_if; [by eexists _, _ |]).
    destruct (db_GetCodeHash _ s) as [h s2]. case_if; by eexists _, _. }
  destruct Hacc as (err & st & -> & Hgp). destruct err; [by eauto |]. destruct (check_fees env false msg); [by eauto |].
  unfold buyGas. destruct (db_GetBalance _ _) as [b s]. case_if; [by eauto |]. unfold SubGas. cbn [gp with_db]. rewrite Hgp, (proj2 (Z.ltb_lt _ _)) by done. by eauto.
Qed.

Lemma NewZVMTxContext_ok msg env : env_ok env → env_ok (NewZVMTxContext msg env).
Proof. intros [H1 H2 H3]. by constructor. Qed.

(** What a receipt says of the transaction that made [p'] of [p] *)
Record receipt_of (msg : Message) (p p' : progress) (rc : Receipt) : Prop := MkReceiptOf {
  ro_gas : pg_gp p' = pg_gp p - rc_GasUsed rc;
  ro_bounds : 4 * intrinsic msg <= 5 * rc_GasUsed rc ∧ rc_GasUsed rc <= m_GasLimit msg <= pg_gp p;
  ro_used : pg_usedGas p' = u64 (pg_usedGas p + rc_GasUsed rc);
  ro_cumulative : CumulativeGasUsed rc = pg_usedGas p';
  ro_bloom : rc_Bloom rc = CreateBloom [Logs rc]
}.

Lemma intrinsic_nonneg msg : 0 <= intrinsic msg.
Proof. apply u64_range. Qed.

Section Env.
  Context (env : vm_env) (Henv : env_ok env) (n : Z) (run : vm_env → runner (SDB := SDB)) (Hrun : ∀ env, env_ok env → run_ok n (run env)).

Lemma make_receipt_spec msg blockNumber blockHash txHash tx usedGas result (s : SDB) sw :
  message_ok msg → 0 <= tx_Nonce tx < 2 ^ 64 → models s sw → sw_saved sw = [] →
  ∃ rc s' sw', make_receipt (NewZVMTxContext msg env) msg blockNumber blockHash txHash tx usedGas result s = Ok (rc, s') ∧ models s' sw' ∧ sw_saved sw' = [] ∧
    w_account (sw_now sw') = w_account (sw_now sw) ∧ w_refund (sw_now sw') = w_refund (sw_now sw) ∧
    rc_GasUsed rc = UsedGas result ∧ CumulativeGasUsed rc = usedGas ∧ rc_Bloom rc = CreateBloom [Logs rc].
Proof.
  intros Hm Hn Hs Hsaved. unfold make_receipt. cbn [Origin enc_pool NewZVMTxContext].
  assert (Hc : ∃ c, match m_To msg with None => CreateAddress (enc_pool env) (m_From msg) (tx_Nonce tx) | Some _ => Ok (repeat 0 20) end = Ok c).
  { destruct (m_To msg); [by eexists |]. rewrite CreateAddress_spec; [by eexists | apply Henv | | done]. destruct (mo_from _ Hm). split; [lia | done]. }
  destruct Hc as [c ->]. cbn [mbind outcome_bind]. destruct (law_GetLogs txHash (big_Uint64 blockNumber) blockHash s sw Hs Hsaved) as [_ Hl].
  destruct (db_GetLogs txHash (big_Uint64 blockNumber) blockHash s) as [l s']. cbn [snd] in Hl. by eexists _, s', _.
Qed.

Lemma applyTransaction_spec msg blockNumber blockHash txHash tx (p : progress) sw :
  message_ok msg → m_GasPrice msg = effective_price (m_GasTipCap msg) (m_GasFeeCap msg) (BaseFee env) → 0 <= tx_Nonce tx < 2 ^ 64 →
  between p sw → 0 <= pg_gp p < 2 ^ 56 → pg_gp p <= n →
  ∃ r p', applyTransaction precompiles run env msg blockNumber blockHash txHash tx p = Ok (r, p') ∧
    match r with
    | inl _ => True
    | inr rc => receipt_of msg p p' rc ∧ ∃ sw', between p' sw' ∧ gains (- (rc_GasUsed rc * BaseFee env)) (sw_now sw) (sw_now sw')
    end.
Proof.
  intros Hm Hprice Hn [Hs Hsaved Hw Href Hz Hro] Hgp Hfuel. unfold applyTransaction. set (env' := NewZVMTxContext msg env).
  assert (Henv' : env_ok env') by (by apply NewZVMTxContext_ok). destruct (decide (pg_gp p < m_GasLimit msg)) as [Hover | Hfit].
  { destruct (ApplyMessage_over env' (run env') msg (pg_zvm p) (pg_gp p) Hover) as (e & st & ->). by eexists (inl e), _. }
  pose proof Hm as [M1 M2 M3 M4 M5 M6 M7 M8]. assert (Hready : tx_ready msg (pg_zvm p) sw (pg_gp p)).
  { constructor; try done; [| lia]. constructor; try done. unfold potential. rewrite Href. lia. }
  destruct (ApplyMessage_ok env' Henv' precompiles n (run env') msg (pg_zvm p) sw (pg_gp p) (Hrun env' Henv') ltac:(lia) Hready) as (r & st & E & H). rewrite E. cbn [mbind outcome_bind].
  destruct r as [e | res]; [by eexists (inl e), _ |]. destruct H as (Hpre & _ & st0 & left & z0 & _ & _ & Hx). destruct (executed_bounds _ _ _ _ _ _ _ _ Hx) as [Hu1 Hu2].
  destruct Hx as (_ & sw1 & _ & Hgp' & Hs1 & Hw1 & Hg1 & _ & Hz1 & Hro1).
  pose proof (intrinsic_nonneg msg) as Hi. assert (Ht : 0 <= tip_of env' msg) by (destruct Hpre as (_ & (_ & _ & _ & ?) & _); unfold tip_of; lia).
  pose proof (executed_gains env' precompiles msg sw (UsedGas res) _ Hg1) as Hgain. assert (Htip : m_GasPrice msg - tip_of env' msg = BaseFee env) by (rewrite Hprice; unfold effective_price, tip_of; cbn; lia).
  rewrite Htip in Hgain. set (w2 := settled env' msg (UsedGas res) (sw_now sw1)) in *. assert (Hw2 : world_ok w2) by (apply settled_ok; (done || lia)).
  destruct (law_Finalise _ _ Hs1) as (D & Hs2). cbn [sw_now with_now] in Hs2. set (used := u64 (pg_usedGas p + UsedGas res)).
  destruct (make_receipt_spec msg blockNumber blockHash txHash tx used res _ _ Hm Hn Hs2 eq_refl) as (rc & s3 & sw3 & E3 & Hs3 & Hsv3 & Ha3 & Hr3 & Rg & Rc & Rb).
  fold env' in E3. rewrite E3. cbn [mbind outcome_bind]. eexists (inr rc), _. split; [done |]. split; [constructor; cbn [pg_gp pg_usedGas]; [lia | lia | by rewrite Rg | done | done] |].
  exists sw3. split.
  - constructor; cbn [pg_zvm z_state with_state]; [done | done | | done | by apply with_state_ok | done].
    apply (world_ok_same (finalised D w2)); [done | done |]. by apply finalised_ok.
  - rewrite Rg. replace (- (UsedGas res * BaseFee env)) with (- (UsedGas res * BaseFee env) + 0) by lia. eapply gains_trans; [exact Hgain |]. apply gains_same. intros a.
    rewrite <- (balance_finalised D w2 a). unfold balance, acct. by rewrite Ha3.
Qed.

(** ** Transactions as messages *)

(** A transaction that was decoded or made by the program, with a cache that the signers filled *)
Definition tx_sound (tx : Transaction) : Prop := tx_ok (inner tx) ∧ cache_ok pkLen addressOf (inner tx) (tx_from tx).

Lemma tx_bytes tx : tx_ok tx → (bytes_ok (tx_Data tx) ∧ len (tx_Data tx) < 2 ^ 63) ∧ ∀ a, tx_To tx = Some a → address_ok a.
Proof.
  intros (Hf & Hb & Hl). rewrite len_cons in Hl. pose proof Hf as Ht. apply tx_typed in Ht. pose proof (typed_rval_ok tx_type tx_type_ok _ Ht Hb ltac:(lia)) as Hr.
  destruct Hr as (_ & _ & _ & _ & _ & _ & (_ & Hto) & _ & (Hdl & Hd) & _). split.
  - split; [done |]. specialize (Hdl _ eq_refl). by apply enc_string_slice_len.
  - intros a Ea. rewrite Ea in Hto. cbn in Hto. destruct Hf as (_ & _ & _ & Hlen & _). split; [by apply Hlen | apply Hto].
Qed.

Lemma Sender_ok tx signer from : cache_ok pkLen addressOf tx from →
  match fst (Sender pkLen addressOf signer tx from) with Ok a => address_ok a | Err _ => True | _ => False end.
Proof.
  intros Hc. assert (Hs : ∀ s, match ShanghaiSigner_Sender pkLen addressOf s tx with Ok a => address_ok a | Err _ => True | _ => False end).
  { intros s. unfold ShanghaiSigner_Sender. case_if; [done |]. apply Haddr. }
  unfold Sender. destruct from as [[s a] |].
  - destruct (signer =? s); [cbn; specialize (Hs s); by rewrite (Hc s a eq_refl) in Hs |]. specialize (Hs signer). by destruct (ShanghaiSigner_Sender _ _ signer tx).
  - specialize (Hs signer). by destruct (ShanghaiSigner_Sender _ _ signer tx).
Qed.

Lemma TransactionToMessage_ok tx signer b : tx_sound tx → 0 <= b →
  match fst (TransactionToMessage pkLen addressOf (inner tx) signer (tx_from tx) (Some b)) with
  | Ok msg => message_ok msg ∧ m_GasPrice msg = effective_price (m_GasTipCap msg) (m_GasFeeCap msg) b
  | Err _ => True
  | _ => False
  end.
Proof.
  intros [Htx Hc] Hb. pose proof (Sender_ok _ signer _ Hc) as Hs. destruct (tx_bytes _ Htx) as [Hd Hto]. destruct Htx as (((_ & H2 & H3 & H4) & H5 & H6 & _) & _).
  unfold TransactionToMessage. destruct (Sender pkLen addressOf signer (inner tx) (tx_from tx)) as [[a | e | |] from]; cbn [fst mbind outcome_bind] in *; try done.
  split; [| done]. constructor; cbn; done || lia.
Qed.

(** ** The transactions of a block *)

Definition gas_sum (rs : list Receipt) : Z := foldr (fun r n => rc_GasUsed r + n) 0 rs.

(** The receipts of a processed block that had used [used] gas before *)
Record receipts_ok (used : Z) (txs : list Transaction) (rs : list Receipt) : Prop := MkReceiptsOk {
  rs_length : length rs = length txs;
  rs_each : ∀ k r, rs !! k = Some r → 0 <= rc_GasUsed r ∧ CumulativeGasUsed r = used + gas_sum (take (S k) rs) ∧ rc_Bloom r = CreateBloom [Logs r]
}.

Lemma receipts_ok_cons used tx txs r rs :
  0 <= rc_GasUsed r → CumulativeGasUsed r = used + rc_GasUsed r → rc_Bloom r = CreateBloom [Logs r] → receipts_ok (used + rc_GasUsed r) txs rs → receipts_ok used (tx :: txs) (r :: rs).
Proof.
  intros H1 H2 H3 [Hlen HE]. split; [cbn; lia |]. intros [| k] x Hx; cbn in Hx.
  - injection Hx as <-. rewrite firstn_cons, firstn_O. cbn [gas_sum foldr]. split_and!; (done || lia).
  - destruct (HE k x Hx) as (E1 & E2 & E3). split_and!; [done | | done]. rewrite E2, firstn_cons. unfold gas_sum. cbn [foldr]. lia.
Qed.

Lemma set_context_between h i p sw : between p sw →
  ∃ sw', between (MkProgress (pg_gp p) (pg_usedGas p) (with_state (db_SetTxContext h i (z_state (pg_zvm p))) (pg_zvm p))) sw' ∧ gains 0 (sw_now sw) (sw_now sw').
Proof.
  intros [Hs Hsaved Hw Href Hz Hro]. exists (MkSaved (with_context h i (sw_now sw)) [] (sw_next sw)). split; [| by apply gains_same].
  constructor; cbn [pg_zvm z_state with_state]; [by apply law_SetTxContext | done | | done | by apply with_state_ok | done].
  by apply (world_ok_same (sw_now sw)).
Qed.

Lemma process_txs_spec header signer blockNumber blockHash : h_BaseFee header = Some (BaseFee env) → 0 <= BaseFee env →
  ∀ txs i p sw, Forall tx_sound txs → between p sw → 0 <= pg_usedGas p → 0 <= pg_gp p → pg_usedGas p + pg_gp p < 2 ^ 56 → pg_gp p <= n →
  ∃ r p', process_txs pkLen addressOf precompiles run env signer header blockNumber blockHash i txs p = Ok (r, p') ∧
    match r with
    | inl (j, _) => i <= j < i + len txs
    | inr rs => receipts_ok (pg_usedGas p) txs rs ∧ pg_usedGas p' = pg_usedGas p + gas_sum rs ∧ pg_gp p' = pg_gp p - gas_sum rs ∧ 0 <= pg_gp p' ∧
        ∃ sw', between p' sw' ∧ gains (- (gas_sum rs * BaseFee env)) (sw_now sw) (sw_now sw')
    end.
Proof.
  intros Hbf Hb0. induction txs as [| tx txs IH]; intros i p sw Htxs Hp H0 H1 H2 Hf.
  { eexists (inr []), p. split; [done |]. split_and!; [by split | cbn; lia | cbn; lia | done |]. exists sw. split; [done | by apply gains_same]. }
  apply Forall_cons in Htxs as [Htx Htxs]. cbn [process_txs]. rewrite Hbf. pose proof (TransactionToMessage_ok tx signer _ Htx Hb0) as Hmsg.
  destruct (fst (TransactionToMessage _ _ _ _ _ _)) as [msg | e | |]; try done; [| by eexists (inl (i, TxError e)), _; split; [done | rewrite len_cons; lia]].
  destruct Hmsg as [Hm Hprice]. unfold Transaction_Hash, prefixedRlpHash. rewrite Encode_tx by (apply Henv || apply Htx). cbn [no_err mbind outcome_bind].
  set (h := sum256 _). destruct (set_context_between h i p sw Hp) as (sw1 & Hp1 & G1). set (p1 := MkProgress _ _ _) in *.
  assert (Hnonce : 0 <= tx_Nonce (inner tx) < 2 ^ 64) by (by destruct Htx as [[(_ & ? & _) _] _]).
  destruct (applyTransaction_spec msg blockNumber blockHash h (inner tx) p1 sw1 Hm Hprice Hnonce Hp1) as (r & p2 & -> & Hr); [cbn; lia | done |]. cbn [mbind outcome_bind].
  destruct r as [e | rc]; [by eexists (inl (i, ApplyError e)), _; split; [done | rewrite len_cons; lia] |]. destruct Hr as [[R1 [R2 R3] R4 R5 R6] (sw2 & Hp2 & G2)].
  pose proof (intrinsic_nonneg msg). cbn [p1 pg_gp pg_usedGas] in R1, R3, R4. rewrite u64_id in R4 by lia.
  destruct (IH (i + 1) p2 sw2 Htxs Hp2 ltac:(lia) ltac:(lia) ltac:(lia) ltac:(lia)) as (r & p3 & -> & Hrs). cbn [mbind outcome_bind].
  destruct r as [[j e] | rs]; [by eexists (inl (j, e)), _; split; [done | rewrite len_cons; lia] |]. destruct Hrs as (S1 & S2 & S3 & S4 & sw3 & Hp3 & G3).
  eexists (inr (rc :: rs)), p3. split; [done |]. cbn [gas_sum foldr]. fold (gas_sum rs).
  split_and!; [apply receipts_ok_cons; [lia | lia | done | by rewrite R4 in S1] | lia | lia | done |].
  exists sw3. split; [done |]. pose proof (gains_trans _ _ _ _ _ (gains_trans _ _ _ _ _ G1 G2) G3) as G. by replace (- ((rc_GasUsed rc + gas_sum rs) * BaseFee env)) with (0 + - (rc_GasUsed rc * BaseFee env) + - (gas_sum rs * BaseFee env)) by lia.
Qed.
End Env.

(** ** Withdrawals *)

Definition withdrawn (ws : list Withdrawal) : Z := foldr (fun w n => wd_Amount w * 1000000000 + n) 0 ws.

Lemma Beacon_Finalize_spec ws : ∀ (s : SDB) sw, Forall (fun w => 0 <= wd_Amount w) ws → models s sw → sw_saved sw = [] → world_ok (sw_now sw) →
  ∃ sw', models (Beacon_Finalize ws s) sw' ∧ sw_saved sw' = [] ∧ world_ok (sw_now sw') ∧ gains (withdrawn ws) (sw_now sw) (sw_now sw').
Proof.
  induction ws as [| w ws IH]; intros s sw Hws Hs Hsaved Hw; [exists sw; split_and!; try done; by apply gains_same |].
  apply Forall_cons in Hws as [H0 Hws]. set (x := wd_Amount w * 1000000000). pose proof (credit_models (wd_Address w) x s sw Hs) as Hs1.
  destruct (IH _ _ Hws Hs1 Hsaved) as (sw' & Hs' & Hsaved' & Hw' & G); [| exists sw'; split_and!; try done].
  - apply credit_ok; [| done]. destruct (wo_accounts _ Hw (wd_Address w)). unfold balance. lia.
  - exact (gains_trans _ _ _ _ _ (credit_gains (wd_Address w) x (sw_now sw)) G).
Qed.

(** A block that can be processed: its number fits a word, and no gas limit near a word is meant *)
Record block_sound (block : Block) (baseFee : Z) : Prop := MkBlockSound {
  bs_header : header_ok (b_header block);
  bs_fee : h_BaseFee (b_header block) = Some baseFee;
  bs_number : ∀ N, h_Number (b_header block) = Some N → N < 2 ^ 64;
  bs_gas : h_GasLimit (b_header block) < 2 ^ 56;
  bs_txs : Forall tx_sound (b_transactions block);
  bs_withdrawals : Forall (fun w => 0 <= wd_Amount w) (b_withdrawals block)
}.

(** What the chain and the settings of the machine must be: a header that is found has
    the number that was asked for, and the precompiled contracts keep their promises. *)
Record chain_sound (GetHeader : bytes → Z → option Header) (precompile : bytes → option PrecompiledContract) (pool : encBuffer) : Prop := MkChainSound {
  cs_number : ∀ h k hd, GetHeader h k = Some hd → h_Number hd = Some k;
  cs_precompiles : ∀ a p input, precompile a = Some p → bytes_ok input →
    0 <= RequiredGas p input ∧ bytes_ok (fst (p_Run p input)) ∧ snd (p_Run p input) ≠ Some ErrCodeStoreOutOfGas;
  cs_pool : length (sizebuf pool) = 9%nat
}.

Lemma NewZVMBlockContext_ok GetHeader chainID record precompile pool header env :
  chain_sound GetHeader precompile pool → header_ok header → (∀ N, h_Number header = Some N → N < 2 ^ 64) →
  NewZVMBlockContext GetHeader chainID record precompile pool header None = Ok env → env_ok env.
Proof.
  intros [Hnum Hpre Hpool] Hh H64. destruct (ho_number _ Hh) as (N & HN & HN2). unfold NewZVMBlockContext. destruct (h_BaseFee header) as [b |]; [| done]. rewrite HN. cbn [deref mbind outcome_bind].
  intros [= <-]. constructor; [exact Hpre | | exact Hpool]. intros n Hn. cbn [GetHash].
  destruct (GetHashFn_spec GetHeader header N HN ltac:(specialize (H64 N HN); lia) Hnum [] n ltac:(lia)) as (cache & -> & _); [split; [cbn; lia | by intros i h Hi] |]. by eexists.
Qed.

(** The processing of a block meets only the codes at hand: it makes no difference
    to refuse all others. *)
Record process_codes {A} (fuel : nat) (act : (vm_env → runner (SDB := SDB)) → A) : Prop := MkProcessCodes {
  pc_same : act (fun env => Run env fuel) = act (fun env => Run_in env fuel)
}.

(** C2.  Processing a block always ends, with a receipt for every transaction or the
    refusal of one of them, when it is given more fuel than its gas limit, the
    limit is below 2^56 and the block's number below 2^64.  The receipts add up: each
    counts the gas used so far, all together use no more than the limit of the block.  Of the money of all accounts the
    base fee of the gas that was used is gone, the withdrawals are new, and nothing else
    has changed: the rest of the fees went to the coinbase.  The headers found by the
    chain have the numbers asked for, and the codes at hand, which are those the
    block's transactions run, have different hashes. *)
Theorem Process_conserves fuel GetHeader chainID record precompile pool block baseFee (s : SDB) sw :
  chain_sound GetHeader precompile pool → block_sound block baseFee → h_GasLimit (b_header block) < Z.of_nat fuel →
  codes_apart → process_codes fuel (fun run => Process pkLen addressOf precompiles run GetHeader chainID record precompile pool block s) →
  models s sw → sw_saved sw = [] → world_ok (sw_now sw) → w_refund (sw_now sw) = 0 →
  ∃ r s', Process pkLen addressOf precompiles (fun env => Run env fuel) GetHeader chainID record precompile pool block s = Ok (r, s') ∧
    match r with
    | inl (i, _) => 0 <= i < len (b_transactions block)
    | inr (receipts, logs, used) =>
        receipts_ok 0 (b_transactions block) receipts ∧ logs = concat (map Logs receipts) ∧ used = gas_sum receipts ∧ used <= h_GasLimit (b_header block) ∧
        ∃ sw', models s' sw' ∧ sw_saved sw' = [] ∧ world_ok (sw_now sw') ∧
          ∃ A : gset bytes, ∀ B, A ⊆ B → total (balance (sw_now sw')) B = total (balance (sw_now sw)) B - used * baseFee + withdrawn (b_withdrawals block)
    end.
Proof.
  intros Hchain [Hh Hfee H64 Hg1 Htxs Hwd] Hg2 Happ Hcodes Hs Hsaved Hw Href. rewrite (pc_same _ _ Hcodes). clear Hcodes.
  destruct (ho_number _ Hh) as (N & HN & _). destruct (ho_gas _ Hh) as (Hg0 & _). pose proof (ho_fee _ Hh _ Hfee) as Hb.
  pose proof (fun env => NewZVMBlockContext_ok GetHeader chainID record precompile pool (b_header block) env Hchain Hh H64) as Henv.
  unfold Process. rewrite Header_Hash_spec, HN by (done || apply Hchain). cbn [no_err deref mbind outcome_bind]. unfold AddGas. rewrite (proj2 (Z.ltb_ge _ 0)) by (unfold MaxUint64; lia). cbn [mbind outcome_bind].
  rewrite Z.add_0_l, u64_id by lia. unfold NewZVMBlockContext in *. rewrite Hfee, HN in *. cbn [deref mbind outcome_bind] in *. set (env := MkEnv _ _ _ _ _ _ _ _ _ _ _ _ _ _) in *.
  pose proof (Henv env eq_refl) as He. clear Henv. set (p := MkProgress _ 0 _). set (bh := sum256 _).
  assert (Hp : between p sw) by (by constructor). assert (Hrun : ∀ env, env_ok env → run_ok (Z.of_nat fuel - 1) (Run_in env fuel)) by (intros env' [H1 H2 H3]; by apply Run_ok).
  destruct (process_txs_spec env He _ _ Hrun (b_header block) chainID N bh Hfee ltac:(cbn; lia) (b_transactions block) 0 p sw Htxs Hp) as (r & p' & -> & Hr); try (cbn; lia). cbn [mbind outcome_bind].
  destruct r as [[j e] | rs]; [by eexists (inl (j, e)), _ |]. destruct Hr as (R1 & R2 & R3 & R4 & sw1 & [Hs1 Hsaved1 Hw1 _ _ _] & G1). cbn [p pg_usedGas pg_gp] in *.
  destruct (Beacon_Finalize_spec (b_withdrawals block) _ _ Hwd Hs1 Hsaved1 Hw1) as (sw2 & Hs2 & Hsaved2 & Hw2 & G2).
  eexists (inr (rs, _, _)), _. split; [done |]. split_and!; [done | done | lia | lia |]. exists sw2. split_and!; try done.
  destruct (gains_total _ _ _ (gains_trans _ _ _ _ _ G1 G2)) as [A HA]. exists A. intros B HB. rewrite (HA B HB), R2. cbn. lia.
Qed.
End Block.

(** ** A block of two transactions, one of which fails, and a withdrawal *)

#[local] Existing Instances toy_hash toy_hash_laws demo_backend demo_codes Z_uint256 Z_uint256_laws.

Definition demo_pool : encBuffer := EncBuffer [] [] 0 (repeat 0 9).

Definition demo_call_tx (nonce : Z) (to : bytes) : Transaction := MkTransaction (MkDynamicFeeTx 1 nonce 2 20 60000 (Some to) 5 [1; 0] [] [1; 2; 3] [4; 5]) None.

Definition demo_block : Block :=
  MkBlock (MkHeader (repeat 1 32) (repeat 9 20) zeroHash zeroHash zeroHash (repeat 0 256) (Some 100) 200000 0 12 [104; 105] zeroHash (Some 7) (Some zeroHash))
    [demo_call_tx 7 demo_a; demo_call_tx 8 demo_b] [MkWithdrawal 0 3 demo_b 2].

Lemma demo_call_tx_sound n b : n = 7 ∧ b = 1 ∨ n = 8 ∧ b = 2 → tx_sound 3 (fun _ => demo_c) (demo_call_tx n (repeat b 20)).
Proof.
  intros H. split; [| by intros s a]. split; [split_and!; try done; [destruct H as [[-> ->] | [-> ->]]; done.. | by intros a [= <-]] |].
  destruct H as [[-> ->] | [-> ->]]; (split; [solve_bytes | vm_compute; reflexivity]).
Qed.

Lemma demo_block_sound : block_sound 3 (fun _ => demo_c) demo_block 7.
Proof.
  assert (Hz : bytes_ok zeroHash) by solve_bytes. constructor; [| done | by intros N [= <-] | cbn; lia | | by repeat constructor].
  - split; try done; cbn [h_Coinbase h_Bloom h_Extra demo_block b_header h_ParentHash h_Root h_TxHash h_ReceiptHash h_Random h_Number].
    + repeat (apply Forall_cons; split; [split; [solve_bytes | done] |]). done.
    + split; [solve_bytes | done].
    + split; [solve_bytes | done].
    + split; [solve_bytes | done].
    + by exists 100.
    + by intros x [= <-].
    + intros x [= <-]. done.
  - repeat (apply Forall_cons; split; [apply demo_call_tx_sound; lia |]). done.
Qed.

Definition demo_process := Process 3 (fun _ => demo_c) [] (fun env => Run env (Z.to_nat 200001)) (fun _ _ => None) 1 false (fun _ => None) demo_pool demo_block (demo_state demo_a).

Lemma demo_process_codes : process_codes (Z.to_nat 200001) (fun run => Process 3 (fun _ => demo_c) [] run (fun _ _ => None) 1 false (fun _ => None) demo_pool demo_block (demo_state demo_a)).
Proof. split. vm_compute. reflexivity. Qed.

Lemma Process_conserves_witness :
  ∃ rs logs s' sw', demo_process = Ok (inr (rs, logs, 86282), s') ∧ map (fun r => (Status r, CumulativeGasUsed r)) rs = [(1, 43138); (0, 86282)] ∧ models s' sw' ∧
    ∃ A : gset bytes, ∀ B, A ⊆ B → total (balance (sw_now sw')) B = total (balance (sw_now (demo_world demo_a))) B - 86282 * 7 + 2000000000.
Proof.
  destruct (Process_conserves 3 (fun _ => demo_c) [] (fun _ => demo_address 3 ltac:(lia)) (Z.to_nat 200001) (fun _ _ => None) 1 false (fun _ => None) demo_pool demo_block 7 (demo_state demo_a) (demo_world demo_a))
    as (r & s' & E & H); [by constructor | exact demo_block_sound | cbn; lia | exact demo_apart | exact demo_process_codes | apply demo_models | done | apply demo_world_ok | done |].
  fold demo_process in E.
  assert (P : (fun r => match r with inr (rs, _, used) => Some (map (fun r => (Status r, CumulativeGasUsed r)) rs, used) | inl _ => None end) <$> outcome_of demo_process = Some (Some ([(1, 43138); (0, 86282)], 86282)))
    by (vm_compute; reflexivity).
  rewrite E in P |- *. destruct r as [[i e] | [[rs logs] used]]; [discriminate P |]. injection P as Ers ->. destruct H as (_ & _ & _ & _ & sw' & Hs & _ & _ & A & HA).
  exists rs, logs, s', sw'. split_and!; [done | exact Ers | exact Hs |]. exists A. exact HA.
Defined.
