(* ===== verification/BlockBody.v ===== *)
(** * What a header says of its block: ValidateBody of core/block_validator.go

    The lists of a block as DerivableLists (core/types/transaction.go, receipt.go and
    withdrawal.go with the generated encoders of logs and withdrawals), and the
    validation of a body against the header.  What the validator asks of the chain's
    database, whether it has a block and its state, are two functions.  The theorems:
    a body is accepted exactly when the roots fit, and a header fits one body only. *)

From S2P Require Import Prelude RlpRaw RlpEncode RlpStream RlpTyped TrieEncoding TrieNode TrieSpec TrieStore TrieOps TriePaths TrieRefine TrieHash TrieBinding TrieCommit StackTrie DeriveSha State Header Consensus TxTypes BlockProcess.
#[local] Set Warnings "-register-all".

(** ** The encoders *)

Definition Log_EncodeRLP (obj : Log) (w : encBuffer) : go encBuffer :=
  let '(w, tmp0) := open_list w in
  w ← writeBytes (lg_Address obj) w;
  let '(w, tmp1) := open_list w in
  w ← write_elems writeBytes (lg_Topics obj) w;
  w ← listEnd tmp1 w;
  w ← writeBytes (lg_Data obj) w;
  listEnd tmp0 w.

Definition Withdrawal_EncodeRLP (obj : Withdrawal) (w : encBuffer) : go encBuffer :=
  let '(w, tmp0) := open_list w in
  w ← writeUint64 (wd_Index obj) w;
  w ← writeUint64 (Validator obj) w;
  w ← writeBytes (wd_Address obj) w;
  w ← writeUint64 (wd_Amount obj) w;
  listEnd tmp0 w.

Definition statusEncoding (r : Receipt) : bytes :=
  if len (PostState r) =? 0 then
    if Status r =? ReceiptStatusFailed then [] else [0x01]
  else PostState r.

(** The writer of a receiptRLP: the struct writer of its type *)
Definition receiptRLP_writer (r : Receipt) (w : encBuffer) : go encBuffer :=
  let '(w, lh) := open_list w in
  w ← writeBytes (statusEncoding r) w;
  w ← writeUint64 (CumulativeGasUsed r) w;
  w ← writeByteArray (rc_Bloom r) w;
  w ← match Logs r with
      | [] => Ok (append_str w [0xC0])
      | logs => let '(w, lh) := open_list w in w ← write_elems Log_EncodeRLP logs w; listEnd lh w
      end;
  listEnd lh w.

(** ** The lists *)

Section Lists.
  Context (pooled : encBuffer).

(** rlp.Encode to a buffer, of which the error is dropped; nothing is written then. *)
Definition encode_quietly (write_to : encBuffer → go encBuffer) (w : bytes) : outcome Empty_set bytes :=
  match (buf ← write_to (getEncBuffer pooled); writeTo buf w) with
  | Ok w => Ok w
  | Err _ => Ok w
  | Panic => Panic
  | OutOfFuel => OutOfFuel
  end.

(** s[i], which panics out of range *)
Definition item_at {A} (s : list A) (i : Z) : outcome Empty_set A := match s !! Z.to_nat i with Some x => Ok x | None => Panic end.

#[export] Instance Transactions_list : DerivableList (list DynamicFeeTx) := {
  dl_Len := fun s => len s;
  EncodeIndex := fun s i w => tx ← item_at s i; encode_quietly (writer (tx_rval tx)) (w ++ [DynamicFeeTxType])
}.

#[export] Instance Withdrawals_list : DerivableList (list Withdrawal) := {
  dl_Len := fun s => len s;
  EncodeIndex := fun s i w => x ← item_at s i; encode_quietly (Withdrawal_EncodeRLP x) w
}.

#[export] Instance Receipts_list : DerivableList (list Receipt) := {
  dl_Len := fun rs => len rs;
  EncodeIndex := fun rs i w =>
    r ← item_at rs i;
    let w := w ++ [rc_Type r] in
    if rc_Type r =? DynamicFeeTxType then encode_quietly (receiptRLP_writer r) w else Ok w
}.
End Lists.

(** ** Validation *)

Inductive body_error :=
| ErrKnownBlock | TxRootMismatch (remote local : bytes) | MissingWithdrawals | WithdrawalsRootMismatch (remote local : bytes) | WithdrawalsPresent
| ErrUnknownAncestor | ErrPrunedAncestor.

Section Validate.
  Context `{HF : Hasher} (pooled hb : encBuffer) (HasBlockAndState HasBlock : bytes → Z → bool).

#[local] Instance hasher_of_validator : TrieHasher (StackTrie * list write) := StackTrie_TrieHasher hb.

(** [None] among the withdrawals is a nil slice, [None] as a result is a nil error. *)
Definition ValidateBody (header : Header) (txs : list DynamicFeeTx) (withdrawals : option (list Withdrawal)) : outcome Empty_set (option body_error) :=
  hash ← never (Header_Hash pooled header);
  number ← match h_Number header with Some n => Ok (u64 n) | None => Panic end;
  if HasBlockAndState hash number then Ok (Some ErrKnownBlock)
  else
    '(hash, _) ← @DeriveSha _ _ hasher_of_validator (Transactions_list pooled) txs (NewStackTrie false, []);
    if negb (bool_decide (hash = h_TxHash header)) then Ok (Some (TxRootMismatch (h_TxHash header) hash))
    else
      bad ← match h_WithdrawalsHash header, withdrawals with
            | Some _, None => Ok (Some MissingWithdrawals)
            | Some remote, Some ws =>
                '(hash, _) ← @DeriveSha _ _ hasher_of_validator (Withdrawals_list pooled) ws (NewStackTrie false, []);
                Ok (if negb (bool_decide (hash = remote)) then Some (WithdrawalsRootMismatch remote hash) else None)
            | None, Some _ => Ok (Some WithdrawalsPresent)
            | None, None => Ok None
            end;
      match bad with
      | Some e => Ok (Some e)
      | None =>
          if negb (HasBlockAndState (h_ParentHash header) (u64 (number - 1))) then
            if negb (HasBlock (h_ParentHash header) (u64 (number - 1))) then Ok (Some ErrUnknownAncestor) else Ok (Some ErrPrunedAncestor)
          else Ok None
      end.
End Validate.

(** ** The encodings as values *)

Lemma write_fields_all l n w : (length l <= n)%nat → write_fields writer (map (fun x => (x, (false, false))) l) n w = write_elems writer l w.
Proof. revert n w. induction l as [| x l IH]; intros [| n] w Hn; cbn in *; [done | done | lia |]. destruct (writer x w); [apply IH; lia | done..]. Qed.

Lemma fieldsToWrite_required {A} (l : list A) : fieldsToWrite (map (fun x => (x, (false, false))) l) = length l.
Proof.
  unfold fieldsToWrite. assert (E : firstOptionalField (map (fun x => (x, (false, false))) l) = length l) by (induction l as [| x l IH]; cbn; [done | by rewrite IH]).
  by rewrite E, length_map, Nat.eqb_refl.
Qed.

Lemma writer_struct_of l w : writer (struct_of l) w = (let '(w, lh) := open_list w in w ← write_elems writer l w; listEnd lh w).
Proof. unfold struct_of. cbn [writer]. destruct (open_list w) as [w1 lh]. by rewrite fieldsToWrite_required, write_fields_all. Qed.

Lemma write_array b w : (2 <= length b)%nat → writeBytes b w = writeByteArray b w.
Proof. destruct b as [| x [| y b]]; cbn [length]; [lia | lia | done]. Qed.

Lemma write_arrays n l w : (2 <= n)%nat → Forall (fun b : bytes => length b = n) l → write_elems writeBytes l w = write_elems writer (map VByteArray l) w.
Proof.
  intros Hn Hl. revert w. induction Hl as [| b l Hb _ IH]; intros w; [done |]. cbn [map write_elems writer]. rewrite <- write_array by lia.
  destruct (writeBytes b w); [apply IH | done..].
Qed.

Definition withdrawal_rval (x : Withdrawal) : rval := struct_of [VUint (wd_Index x); VUint (Validator x); VByteArray (wd_Address x); VUint (wd_Amount x)].
Definition withdrawal_type : rtype := TStruct (map (fun t => (t, false)) [TUint 8; TUint 8; TByteArray 20; TUint 8]).

Definition log_rval (x : Log) : rval := struct_of [VByteArray (lg_Address x); VSlice false (map VByteArray (lg_Topics x)); VBytes (lg_Data x)].
Definition log_type : rtype := TStruct (map (fun t => (t, false)) [TByteArray 20; TSlice (TByteArray 32); TByteSlice]).

(** The generated encoder of logs opens a list also when there are no topics. *)
Definition log_written (x : Log) : rval := struct_of [VByteArray (lg_Address x); struct_of (map VByteArray (lg_Topics x)); VBytes (lg_Data x)].

Definition receipt_rval (log : Log → rval) (r : Receipt) : rval := struct_of [VBytes (statusEncoding r); VUint (CumulativeGasUsed r); VByteArray (rc_Bloom r); VSlice false (map log (Logs r))].
Definition receipt_type : rtype := TStruct (map (fun t => (t, false)) [TByteSlice; TUint 8; TByteArray 256; TSlice log_type]).

Lemma Withdrawal_EncodeRLP_writer x w : length (wd_Address x) = 20%nat → Withdrawal_EncodeRLP x w = writer (withdrawal_rval x) w.
Proof.
  intros Ha. unfold withdrawal_rval. rewrite writer_struct_of. unfold Withdrawal_EncodeRLP. destruct (open_list w) as [w1 lh]. cbn [write_elems writer].
  repeat (match goal with |- (?m ≫= _) = _ => destruct m; cbn [mbind outcome_bind]; [| done..] end; rewrite ?(write_array (wd_Address x)) by lia). done.
Qed.

Definition log_sized (x : Log) : Prop := length (lg_Address x) = 20%nat ∧ Forall (fun b => length b = 32%nat) (lg_Topics x).

Lemma Log_EncodeRLP_writer x w : log_sized x → Log_EncodeRLP x w = writer (log_written x) w.
Proof.
  intros [Ha Ht]. unfold log_written. rewrite writer_struct_of. unfold Log_EncodeRLP. destruct (open_list w) as [w1 lh]. cbn [write_elems].
  change (writer (VByteArray (lg_Address x)) w1) with (writeByteArray (lg_Address x) w1). rewrite write_array by lia. destruct (writeByteArray (lg_Address x) w1) as [w2 | | |]; cbn [mbind outcome_bind]; [| done..].
  rewrite writer_struct_of. destruct (open_list w2) as [w3 lh1]. rewrite (write_arrays 32) by (done || lia).
  repeat (match goal with |- (?m ≫= _) = _ => destruct m; cbn [mbind outcome_bind]; [| done..] end). change (writer (VBytes (lg_Data x))) with (writeBytes (lg_Data x)).
  repeat (match goal with |- (?m ≫= _) = _ => destruct m; cbn [mbind outcome_bind]; [| done..] end). done.
Qed.

Lemma write_logs l w : Forall log_sized l → write_elems Log_EncodeRLP l w = write_elems writer (map log_written l) w.
Proof.
  intros Hl. revert w. induction Hl as [| x l Hx _ IH]; intros w; [done |]. cbn [map write_elems]. rewrite <- Log_EncodeRLP_writer by done.
  destruct (Log_EncodeRLP x w); [apply IH | done..].
Qed.

Lemma receiptRLP_writer_writer r w : Forall log_sized (Logs r) → receiptRLP_writer r w = writer (receipt_rval log_written r) w.
Proof.
  intros Hl. unfold receipt_rval. rewrite writer_struct_of. unfold receiptRLP_writer. destruct (open_list w) as [w1 lh]. cbn [write_elems].
  change (writer (VBytes (statusEncoding r))) with (writeBytes (statusEncoding r)). change (writer (VUint (CumulativeGasUsed r))) with (writeUint64 (CumulativeGasUsed r)).
  change (writer (VByteArray (rc_Bloom r))) with (writeByteArray (rc_Bloom r)).
  do 3 (match goal with |- (?m ≫= _) = _ => destruct m; cbn [mbind outcome_bind]; [| done..] end).
  destruct (Logs r) as [| x logs]; [done |]. cbn [map writer]. destruct (open_list _) as [w2 lh1].
  change (Log_EncodeRLP x w2 ≫= _) with (write_elems Log_EncodeRLP (x :: logs) w2). rewrite write_logs by done. cbn [map].
  by repeat (match goal with |- context [?m ≫= _] => destruct m; cbn [mbind outcome_bind]; [| done..] end).
Qed.

(** Values that are encoded alike *)
Definition alike (v v' : rval) : Prop := rlp_enc v = rlp_enc v' ∧ (rval_ok v → rval_ok v').

Lemma alike_refl v : alike v v.
Proof. by split. Qed.

Lemma enc_fields_all l n : (length l <= n)%nat → enc_fields rlp_enc (map (fun x => (x, (false, false))) l) n = enc_elems rlp_enc l.
Proof. revert n. induction l as [| x l IH]; intros [| n] Hn; cbn in *; [done | done | lia |]. by rewrite IH by lia. Qed.

Lemma enc_struct_of l : rlp_enc (struct_of l) = rlp_enc (VSlice false l).
Proof. unfold struct_of. cbn [rlp_enc]. by rewrite fieldsToWrite_required, enc_fields_all. Qed.

Lemma ok_struct_of l : rval_ok (struct_of l) ↔ rval_ok (VSlice false l).
Proof.
  pose proof (enc_struct_of l) as E. unfold struct_of in *. cbn [rval_ok]. rewrite E. apply and_iff_compat_l. clear E. induction l as [| x l IH]; [done |]. cbn. by rewrite IH.
Qed.

Lemma alike_slice l l' : Forall2 alike l l' → alike (VSlice false l) (VSlice false l').
Proof.
  intros Hl. assert (E : enc_elems rlp_enc l = enc_elems rlp_enc l') by (induction Hl as [| x y l l' [Hx _] _ IH]; [done |]; cbn; by rewrite Hx, IH).
  split; cbn [rlp_enc rval_ok]; rewrite E; [done |]. intros [H1 H2]. split; [done |]. clear E H1. induction Hl as [| x y l l' [_ Hx] _ IH]; [done |]. destruct H2. split; [by apply Hx | by apply IH].
Qed.

Lemma alike_trans v1 v2 v3 : alike v1 v2 → alike v2 v3 → alike v1 v3.
Proof. intros [E1 H1] [E2 H2]. split; [by rewrite E1 | auto]. Qed.

Lemma alike_struct l l' : Forall2 alike l l' → alike (struct_of l) (struct_of l').
Proof. intros [E H]%alike_slice. split; [by rewrite !enc_struct_of | by rewrite !ok_struct_of]. Qed.

Lemma log_alike x : alike (log_rval x) (log_written x).
Proof.
  apply alike_struct. repeat (apply Forall2_cons; split; [try apply alike_refl |]); [| constructor].
  split; [by rewrite enc_struct_of | by rewrite ok_struct_of].
Qed.

Lemma receipt_alike r : alike (receipt_rval log_rval r) (receipt_rval log_written r).
Proof.
  apply alike_struct. repeat (apply Forall2_cons; split; [try apply alike_refl |]); [| constructor]. apply alike_slice. apply Forall2_fmap, Forall_Forall2_diag, Forall_forall. intros x _. apply log_alike.
Qed.

(** A value of a type that fits memory *)
Definition item_ok (t : rtype) (v : rval) : Prop := typed t v ∧ bytes_ok (enc_val v) ∧ len (enc_val v) < 2 ^ 55.

Lemma item_rval_ok t v : rtype_ok t → item_ok t v → rval_ok v.
Proof. intros Ht (Hv & Hb & Hl). apply (typed_rval_ok t Ht v Hv Hb). lia. Qed.

Lemma encode_quietly_ok pooled t v v' f w : length (sizebuf pooled) = 9%nat → rtype_ok t → item_ok t v → alike v v' → (∀ w, f w = writer v' w) →
  encode_quietly pooled f w = Ok (w ++ enc_val v).
Proof.
  intros Hp Ht Hv [E Hok] Hf. unfold encode_quietly. rewrite Hf. pose proof (typed_encodes t Ht v (proj1 Hv)) as Ev. rewrite E in Ev.
  pose proof (Encode_buffer pooled w v' _ Hp (Hok (item_rval_ok t v Ht Hv)) Ev) as EB. unfold Encode in EB. cbn zeta in EB. by rewrite EB.
Qed.

Lemma list_encodes {A} `{!DerivableList (list A)} (l : list A) (enc : A → bytes) : dl_Len l = len l → (∀ i x, l !! i = Some x → EncodeIndex l (Z.of_nat i) [] = Ok (enc x)) → encodes l (map enc l).
Proof.
  intros Hn He. split; [by rewrite length_map |]. intros i x Hx. change (map enc l) with (enc <$> l) in Hx. apply list_lookup_fmap_Some in Hx as (y & -> & Hy). by apply He.
Qed.

Lemma item_at_ok {A} (l : list A) i x : l !! i = Some x → item_at l (Z.of_nat i) = Ok x.
Proof. unfold item_at. rewrite Nat2Z.id. by intros ->. Qed.

Definition tx_item (tx : DynamicFeeTx) : bytes := DynamicFeeTxType :: enc_val (tx_rval tx).
Definition withdrawal_item (x : Withdrawal) : bytes := enc_val (withdrawal_rval x).
Definition receipt_item_of (r : Receipt) : bytes := DynamicFeeTxType :: enc_val (receipt_rval log_rval r).

Lemma withdrawal_type_ok : rtype_ok withdrawal_type.
Proof. apply required_ok. by repeat (apply Forall_cons; split; [done |]). Qed.

Lemma log_type_ok : rtype_ok log_type.
Proof. apply required_ok. by repeat (apply Forall_cons; split; [done |]). Qed.

Lemma receipt_type_ok : rtype_ok receipt_type.
Proof. apply required_ok. pose proof log_type_ok. by repeat (apply Forall_cons; split; [done |]). Qed.

(** ** The items of the lists *)

Lemma item_value t v x : rtype_ok t → item_ok t v → is_byte x → value_ok (enc_val v) ∧ value_ok (x :: enc_val v).
Proof.
  intros Ht (Hv & Hb & Hl) Hx. pose proof (ed_pos _ _ _ _ (decoder_exact 0 t Ht) v Hv) as Hpos.
  split; (split_and!; [| | rewrite ?len_cons; lia]); [intros E; by rewrite E in Hpos | done | done | by constructor].
Qed.

Section Encodes.
  Context (pooled : encBuffer) (Hp : length (sizebuf pooled) = 9%nat).

Definition txs_ok (txs : list DynamicFeeTx) : Prop := Forall (fun tx => item_ok tx_type (tx_rval tx)) txs ∧ len txs < 2 ^ 63.
Definition withdrawals_ok (ws : list Withdrawal) : Prop := Forall (fun x => item_ok withdrawal_type (withdrawal_rval x)) ws ∧ len ws < 2 ^ 63.
Definition all_receipts_ok (rs : list Receipt) : Prop := Forall (fun r => item_ok receipt_type (receipt_rval log_rval r) ∧ rc_Type r = DynamicFeeTxType) rs ∧ len rs < 2 ^ 63.

Lemma txs_encodes txs : txs_ok txs → @encodes _ (Transactions_list pooled) txs (map tx_item txs) ∧ Forall value_ok (map tx_item txs) ∧ len (map tx_item txs) < 2 ^ 63.
Proof.
  intros [H Hn]. split_and!; [| | by rewrite length_map].
  - apply list_encodes; [done |]. intros i tx Hi. rewrite Forall_lookup in H. cbn [EncodeIndex Transactions_list]. rewrite (item_at_ok _ _ _ Hi). cbn [mbind outcome_bind app].
    exact (encode_quietly_ok pooled tx_type _ _ _ [DynamicFeeTxType] Hp tx_type_ok (H i tx Hi) (alike_refl _) ltac:(done)).
  - apply Forall_map. apply (Forall_impl _ _ _ H). intros tx Htx. by apply (item_value tx_type _ DynamicFeeTxType tx_type_ok Htx).
Qed.

Lemma withdrawal_sized x : typed withdrawal_type (withdrawal_rval x) → length (wd_Address x) = 20%nat.
Proof. intros H. apply required_typed in H as (l & E & Hl); [| by repeat constructor]. apply (f_equal (map fst)) in E. rewrite !flagged_fst in E. subst l. cbn [map] in Hl. do 2 (apply Forall2_cons in Hl as [_ Hl]). by apply Forall2_cons in Hl as [? _]. Qed.

Lemma withdrawals_encodes ws : withdrawals_ok ws →
  @encodes _ (Withdrawals_list pooled) ws (map withdrawal_item ws) ∧ Forall value_ok (map withdrawal_item ws) ∧ len (map withdrawal_item ws) < 2 ^ 63.
Proof.
  intros [H Hn]. split_and!; [| | by rewrite length_map].
  - apply list_encodes; [done |]. intros i x Hi. rewrite Forall_lookup in H. pose proof (H i x Hi) as Hx. cbn [EncodeIndex Withdrawals_list]. rewrite (item_at_ok _ _ _ Hi). cbn [mbind outcome_bind].
    apply (encode_quietly_ok pooled withdrawal_type _ _ _ [] Hp withdrawal_type_ok Hx (alike_refl _)). intros w. by apply Withdrawal_EncodeRLP_writer, withdrawal_sized, Hx.
  - apply Forall_map. apply (Forall_impl _ _ _ H). intros x Hx. by apply (item_value withdrawal_type _ 0 withdrawal_type_ok Hx).
Qed.

Lemma log_typed x : typed log_type (log_rval x) → log_sized x.
Proof.
  intros H. apply required_typed in H as (l & E & Hl); [| by repeat constructor]. apply (f_equal (map fst)) in E. rewrite !flagged_fst in E. subst l. cbn [map] in Hl.
  apply Forall2_cons in Hl as [Ha Hl]. apply Forall2_cons in Hl as [Ht _]. split; [done |]. by apply arrays_typed.
Qed.

Lemma receipt_logs r : typed receipt_type (receipt_rval log_rval r) → Forall log_sized (Logs r).
Proof.
  intros H. apply required_typed in H as (l & E & Hl); [| by repeat constructor]. apply (f_equal (map fst)) in E. rewrite !flagged_fst in E. subst l. cbn [map] in Hl.
  do 3 (apply Forall2_cons in Hl as [_ Hl]). apply Forall2_cons in Hl as [Ht _]. change (Forall (typed log_type) (map log_rval (Logs r))) in Ht. rewrite Forall_map in Ht.
  apply (Forall_impl _ _ _ Ht). intros x. apply log_typed.
Qed.

Lemma receipts_encodes rs : all_receipts_ok rs →
  @encodes _ (Receipts_list pooled) rs (map receipt_item_of rs) ∧ Forall value_ok (map receipt_item_of rs) ∧ len (map receipt_item_of rs) < 2 ^ 63.
Proof.
  intros [H Hn]. split_and!; [| | by rewrite length_map].
  - apply list_encodes; [done |]. intros i x Hi. rewrite Forall_lookup in H. destruct (H i x Hi) as [Hx HT]. cbn [EncodeIndex Receipts_list]. rewrite (item_at_ok _ _ _ Hi). cbn [mbind outcome_bind app].
    rewrite HT, Z.eqb_refl. apply (encode_quietly_ok pooled receipt_type _ _ _ [DynamicFeeTxType] Hp receipt_type_ok Hx (receipt_alike x)). intros w. by apply receiptRLP_writer_writer, receipt_logs, Hx.
  - apply Forall_map. apply (Forall_impl _ _ _ H). intros x [Hx _]. by apply (item_value receipt_type _ DynamicFeeTxType receipt_type_ok Hx).
Qed.
End Encodes.

(** ** Lists are known by their roots *)

Lemma map_inj_forall {A B} (f : A → B) (P : A → Prop) l l' : (∀ x y, P x → P y → f x = f y → x = y) → Forall P l → Forall P l' → map f l = map f l' → l = l'.
Proof.
  intros Hf Hl. revert l'. induction Hl as [| x l Hx _ IH]; intros [| y l'] Hl' E; cbn in E; try done. apply Forall_cons in Hl' as [Hy Hl']. injection E as E1 E2. f_equal; [by apply Hf | by apply IH].
Qed.

Lemma tx_items_inj txs txs' : txs_ok txs → txs_ok txs' → map tx_item txs = map tx_item txs' → txs = txs'.
Proof.
  intros [H _] [H' _]. apply (map_inj_forall _ (fun tx => item_ok tx_type (tx_rval tx))); [| done | done]. intros x y (Hx & Hb & Hl) (Hy & _) [= E].
  pose proof (typed_inj tx_type _ _ tx_type_ok Hx Hy Hb ltac:(lia) E) as Er. apply (f_equal tx_of) in Er. rewrite !tx_of_rval in Er. by injection Er.
Qed.

Lemma withdrawal_items_inj ws ws' : withdrawals_ok ws → withdrawals_ok ws' → map withdrawal_item ws = map withdrawal_item ws' → ws = ws'.
Proof.
  intros [H _] [H' _]. apply (map_inj_forall _ (fun x => item_ok withdrawal_type (withdrawal_rval x))); [| done | done]. intros x y (Hx & Hb & Hl) (Hy & _) E.
  pose proof (typed_inj withdrawal_type _ _ withdrawal_type_ok Hx Hy Hb ltac:(lia) E) as Er. destruct x, y. unfold withdrawal_rval, struct_of in Er. cbn in Er. by injection Er as -> -> -> ->.
Qed.

Lemma index_map_inj items items' : len items < 2 ^ 63 → len items' < 2 ^ 63 → (∀ key, bytes_ok key → index_map items !! key = index_map items' !! key) → items = items'.
Proof.
  assert (Hone : ∀ l l' i v, len l < 2 ^ 63 → len l' < 2 ^ 63 → (∀ key, bytes_ok key → index_map l !! key = index_map l' !! key) → l !! i = Some v → l' !! i = Some v).
  { intros l l' i v Hl Hl' E Hv. assert (Hi : Z.of_nat i < len l) by (apply lookup_lt_Some in Hv; lia).
    assert (Hk : index_map l !! index_key (Z.of_nat i) = Some v) by (apply (index_map_taken l Hl); exists (Z.of_nat i); rewrite Nat2Z.id; split_and!; [done | lia | done | done]).
    rewrite E in Hk by (apply index_key_ok; lia). apply (index_map_taken l' Hl') in Hk as (j & _ & Hj & Hv' & Ek). pose proof (item_range l' j v Hj Hv').
    apply index_key_inj in Ek; [| lia | lia]. subst j. by rewrite Nat2Z.id in Hv'. }
  intros Hn Hn' E. apply list_eq. intros i. apply option_eq. intros v. split; apply Hone; try done. intros key Hk. symmetry. by apply E.
Qed.

(** ** Theorems *)

Section Theorems.
  Context `{HF : Hasher} `{HL : !HasherLaws} (pooled hb : encBuffer) (Hp : length (sizebuf pooled) = 9%nat) (Hhb : length (sizebuf hb) = 9%nat).
  Context (HasBlockAndState HasBlock : bytes → Z → bool).

(** [h] is the root hash of the trie of a list. *)
Definition root_of_items (items : list bytes) (h : bytes) : Prop := ∃ a, wf_root a ∧ holds a (index_map items) ∧ h = tree_root a.

Lemma derive_root {L} `{!DerivableList L} (l : L) items : encodes l items ∧ Forall value_ok items ∧ len items < 2 ^ 63 →
  ∃ h t', @DeriveSha _ _ (StackTrie_TrieHasher hb) _ l (NewStackTrie false, []) = Ok (h, t') ∧ ∀ h', h = h' ↔ root_of_items items h'.
Proof.
  intros (He & Hv & Hn). destruct (@DeriveSha_ok HF _ _ _ (StackTrie_Laws hb Hhb) _ l items He Hv Hn (NewStackTrie false, []) I) as (a & t' & E & Hw & Hh).
  exists (tree_root a), t'. split; [done |]. intros h'. split; [intros <-; by exists a |]. intros (b & Hwb & Hhb' & ->). f_equal. by eapply holds_canonical.
Qed.

(** What a validator demands of the body of a header *)
Record body_fits (header : Header) (n : Z) (txs : list DynamicFeeTx) (ws : option (list Withdrawal)) : Prop := MkBodyFits {
  bf_new : ∀ h, Header_Hash pooled header = Ok h → HasBlockAndState h (u64 n) = false;
  bf_txs : root_of_items (map tx_item txs) (h_TxHash header);
  bf_withdrawals : match h_WithdrawalsHash header, ws with
                   | Some h, Some ws => root_of_items (map withdrawal_item ws) h
                   | None, None => True
                   | _, _ => False
                   end;
  bf_parent : HasBlockAndState (h_ParentHash header) (u64 (u64 n - 1)) = true
}.

Definition body_ok (txs : list DynamicFeeTx) (ws : option (list Withdrawal)) : Prop := txs_ok txs ∧ ∀ l, ws = Some l → withdrawals_ok l.

Lemma ValidateBody_spec header n h txs ws : Header_Hash pooled header = Ok h → h_Number header = Some n → body_ok txs ws →
  ∃ r, ValidateBody pooled hb HasBlockAndState HasBlock header txs ws = Ok r ∧ (r = None ↔ body_fits header n txs ws).
Proof.
  intros Eh En [Htx Hws]. unfold ValidateBody. rewrite Eh, En. cbn [never mbind outcome_bind].
  destruct (HasBlockAndState h (u64 n)) eqn:Ek; [exists (Some ErrKnownBlock); split; [done |]; split; [done |]; intros [Hnew _ _ _]; by rewrite (Hnew h Eh) in Ek |].
  destruct (derive_root txs _ (txs_encodes pooled Hp txs Htx)) as (h1 & t1 & E1 & H1). unfold hasher_of_validator. rewrite E1. cbn [mbind outcome_bind].
  destruct (bool_decide (h1 = h_TxHash header)) eqn:Eb; cbn [negb];
    [| apply bool_decide_eq_false in Eb; eexists; split; [done |]; split; [done |]; intros [_ Hr _ _]; destruct Eb; by apply H1].
  apply bool_decide_eq_true, H1 in Eb.
  assert (Hbad : ∃ bad, match h_WithdrawalsHash header, ws with
            | Some _, None => Ok (Some MissingWithdrawals)
            | Some remote, Some ws =>
                '(hash, _) ← @DeriveSha _ _ (StackTrie_TrieHasher hb) (Withdrawals_list pooled) ws (NewStackTrie false, []);
                Ok (if negb (bool_decide (hash = remote)) then Some (WithdrawalsRootMismatch remote hash) else None)
            | None, Some _ => Ok (Some WithdrawalsPresent)
            | None, None => Ok None
            end = Ok bad ∧ (bad = None ↔ match h_WithdrawalsHash header, ws with Some h, Some ws => root_of_items (map withdrawal_item ws) h | None, None => True | _, _ => False end)).
  { destruct (h_WithdrawalsHash header) as [wh |], ws as [l |]; try (eexists; split; [done |]; by split).
    destruct (derive_root l _ (withdrawals_encodes pooled Hp l (Hws l eq_refl))) as (h2 & t2 & E2 & H2). rewrite E2. cbn [mbind outcome_bind]. eexists. split; [done |].
    rewrite <- H2. destruct (bool_decide (h2 = wh)) eqn:Ew; cbn [negb]; [by apply bool_decide_eq_true in Ew | by apply bool_decide_eq_false in Ew]. }
  destruct Hbad as (bad & -> & Hbad). cbn [mbind outcome_bind]. destruct bad as [e |]; [exists (Some e); split; [done |]; split; [done |]; intros [_ _ Hw _]; by apply Hbad in Hw |].
  destruct (HasBlockAndState (h_ParentHash header) (u64 (u64 n - 1))) eqn:Ep; cbn [negb].
  - exists None. split; [done |]. split; [| done]. intros _. split; [intros h' Eh'; rewrite Eh in Eh'; by injection Eh' as <- | done | by apply Hbad | done].
  - destruct (HasBlock _ _); cbn [negb]; (eexists; split; [done |]; split; [done |]); intros [_ _ _ Hpar]; by rewrite Hpar in Ep.
Qed.

Lemma roots_bind items items' h : root_of_items items h → root_of_items items' h → len items < 2 ^ 63 → len items' < 2 ^ 63 →
  (∀ a b, wf_root a → holds a (index_map items) → wf_root b → holds b (index_map items') → hash_sound a b) → items = items'.
Proof.
  intros (a & Hwa & Ha & ->) (b & Hwb & Hb & E) Hn Hn' Hs. apply index_map_inj; [done | done |].
  assert (Hbd : ∀ l t, len l < 2 ^ 63 → holds t (index_map l) → bounded t) by (intros l t Hl Ht; eapply holds_bounded; [done | by eapply taken_bounded, index_map_taken]).
  assert (a = b) as <- by (apply tree_root_binds; [done | done | by apply (Hbd items) | by apply (Hbd items') | by apply Hs | done]). intros key Hk. by apply (holds_same a).
Qed.

(** C25.  Validating a body always returns, and accepts exactly the bodies that fit: the
    block is not known with its state, the transaction root of the header is that of the
    transactions, there are withdrawals just when the header has their root and they fit
    it, and the parent is known with its state. *)
Theorem ValidateBody_exact header n txs ws : header_ok header → h_Number header = Some n → body_ok txs ws →
  ∃ r, ValidateBody pooled hb HasBlockAndState HasBlock header txs ws = Ok r ∧ (r = None ↔ body_fits header n txs ws).
Proof.
  intros Hh En Hok. by apply (ValidateBody_spec header n _ txs ws (Header_Hash_spec pooled header Hp Hh) En).
Qed.

(** C19.  A header fits one body only: two bodies that are accepted under the same header
    have the same transactions and the same withdrawals, unless the hash function sends
    two nodes at the same path of the tries of the two bodies to one value. *)
Theorem ValidateBody_binds header n txs ws txs' ws' : header_ok header → h_Number header = Some n → body_ok txs ws → body_ok txs' ws' →
  (∀ items items' a b, items = map tx_item txs ∧ items' = map tx_item txs' ∨ (∃ l l', ws = Some l ∧ ws' = Some l' ∧ items = map withdrawal_item l ∧ items' = map withdrawal_item l') →
    wf_root a → holds a (index_map items) → wf_root b → holds b (index_map items') → hash_sound a b) →
  ValidateBody pooled hb HasBlockAndState HasBlock header txs ws = Ok None → ValidateBody pooled hb HasBlockAndState HasBlock header txs' ws' = Ok None →
  txs = txs' ∧ ws = ws'.
Proof.
  intros Hh En Hok Hok' Hs E E'. pose proof (Header_Hash_spec pooled header Hp Hh) as Eh. set (h := sum256 _) in Eh.
  destruct (ValidateBody_spec header n h txs ws Eh En Hok) as (r & Er & Hr). rewrite E in Er. injection Er as <-. destruct Hr as [Hr _]. destruct (Hr eq_refl) as [_ Htx Hw _].
  destruct (ValidateBody_spec header n h txs' ws' Eh En Hok') as (r' & Er' & Hr'). rewrite E' in Er'. injection Er' as <-. destruct Hr' as [Hr' _]. destruct (Hr' eq_refl) as [_ Htx' Hw' _].
  destruct Hok as [[Htxs Hn] Hwok], Hok' as [[Htxs' Hn'] Hwok']. split.
  - apply tx_items_inj; [done | done |]. apply (roots_bind _ _ (h_TxHash header)); [done | done | by rewrite length_map | by rewrite length_map |]. intros a b. apply Hs. by left.
  - destruct (h_WithdrawalsHash header) as [wh |], ws as [l |], ws' as [l' |]; try done. f_equal. destruct (Hwok l eq_refl) as [Hl Hln], (Hwok' l' eq_refl) as [Hl' Hln'].
    apply withdrawal_items_inj; [done | done |]. apply (roots_bind _ _ wh); [done | done | by rewrite length_map | by rewrite length_map |]. intros a b. apply Hs. right. by exists l, l'.
Qed.
End Theorems.

(** ** Example *)

Definition demo_txs : list DynamicFeeTx := [demo_tx 3; demo_tx 4].
Definition demo_withdrawals : list Withdrawal := [MkWithdrawal 0 3 (repeat 7 20) 2].

Definition demo_root_of {L} `{!DerivableList L} (l : L) : bytes :=
  match @DeriveSha _ _ (@StackTrie_TrieHasher toy_hash example_buf) _ l (NewStackTrie false, []) with Ok (h, _) => h | _ => [] end.

Definition demo_tx_root : bytes := Eval vm_compute in @demo_root_of _ (Transactions_list example_buf) demo_txs.
Definition demo_withdrawal_root : bytes := Eval vm_compute in @demo_root_of _ (Withdrawals_list example_buf) demo_withdrawals.

Definition demo_block_header : Header :=
  let h := demo_header (repeat 1 32) in
  MkHeader (h_ParentHash h) (h_Coinbase h) (h_Root h) demo_tx_root (h_ReceiptHash h) (h_Bloom h) (h_Number h) (h_GasLimit h) (h_GasUsed h) (h_Time h)
    (h_Extra h) (h_Random h) (h_BaseFee h) (Some demo_withdrawal_root).

(** The chain has the parent, which is block 6. *)
Definition demo_has (h : bytes) (n : Z) : bool := bool_decide (h = repeat 1 32) && (n =? 6).

Lemma demo_body_ok : body_ok demo_txs (Some demo_withdrawals).
Proof.
  split; [split; [| done] | intros l [= <-]; split; [| done]].
  - repeat (apply Forall_cons; split; [split_and!; [apply tx_typed; apply demo_tx_ok; tauto | solve_bytes | by vm_compute] |]). constructor.
  - repeat (apply Forall_cons; split; [split_and!; [| solve_bytes | by vm_compute] |]); [| constructor]. apply required_typed; [by repeat constructor |]. eexists. split; [reflexivity |].
    cbn [map]. repeat (apply Forall2_cons; split; [done |]). constructor.
Qed.

Lemma demo_block_header_ok : header_ok demo_block_header.
Proof.
  destruct (demo_header_ok (repeat 1 32) ltac:(solve_bytes) eq_refl) as [H1 H2 H3 H4 H5 H6 H7 H8]. split; try done.
  - repeat match goal with H : Forall _ (_ :: _) |- _ => apply Forall_cons in H as [? H] end.
    repeat (apply Forall_cons; split; [first [done | split; [solve_bytes | by vm_compute]] |]). constructor.
  - intros w [= <-]. split_and!; [solve_bytes | by vm_compute | by eexists].
Qed.

Lemma ValidateBody_exact_witness : body_fits (HF := toy_hash) example_buf demo_has demo_block_header 7 demo_txs (Some demo_withdrawals).
Proof.
  destruct (@ValidateBody_exact toy_hash toy_hash_laws example_buf example_buf eq_refl eq_refl demo_has demo_has demo_block_header 7 demo_txs (Some demo_withdrawals)
    demo_block_header_ok eq_refl demo_body_ok) as (r & E & H). destruct H as [H _]. apply H.
  assert (E2 : @ValidateBody toy_hash example_buf example_buf demo_has demo_has demo_block_header demo_txs (Some demo_withdrawals) = Ok None) by (vm_compute; reflexivity).
  rewrite E in E2. injection E2 as E2. exact E2.
Defined.

Lemma ValidateBody_binds_witness :
  @ValidateBody toy_hash example_buf example_buf demo_has demo_has demo_block_header demo_txs (Some demo_withdrawals) = Ok None ∧ demo_txs = demo_txs ∧ Some demo_withdrawals = Some demo_withdrawals.
Proof.
  assert (E : @ValidateBody toy_hash example_buf example_buf demo_has demo_has demo_block_header demo_txs (Some demo_withdrawals) = Ok None) by (vm_compute; reflexivity).
  split; [exact E |].
  apply (@ValidateBody_binds toy_hash toy_hash_laws example_buf example_buf eq_refl eq_refl demo_has demo_has demo_block_header 7 demo_txs (Some demo_withdrawals) demo_txs (Some demo_withdrawals)
    demo_block_header_ok eq_refl demo_body_ok demo_body_ok); [| exact E | exact E].
  intros items items' a b Hi Hwa Ha Hwb Hb. assert (items' = items) as -> by (destruct Hi as [[-> ->] | (l & l' & [= <-] & [= <-] & -> & ->)]; reflexivity).
  assert (a = b) as <- by exact (holds_canonical a b _ Hwa Hwb Ha Hb). apply hash_sound_same. intros _. apply toy_not_empty.
Defined.
