(* ===== verification/SecureTrie.v ===== *)
(** * Tries of accounts and slots: trie/secure_trie.go, the account formats and the trie database

    A StateTrie keeps its values under the hashes of their keys: accounts in their RLP
    form under the hash of the address, slots without leading zeros under the hash of the
    slot.  Reads and writes are exact with respect to the maps from hashes to accounts and
    to slots that a trie holds, and the roots are those of the tries of the encodings.

    The theorem is the interface [TrieLaws] on which the state computes its root. *)

From S2P Require Import Prelude RlpRaw RlpEncode RlpStream RlpTyped TrieEncoding TrieNode TrieSpec TrieUpdate TrieStore TrieOps TriePaths TrieRefine TrieHash TrieCommit StateAccess State TxTypes Header BlockBody.

(** ** Accounts in RLP *)

Definition StateAccount_EncodeRLP (obj : StateAccount) (w : encBuffer) : go encBuffer :=
  let '(w, tmp0) := open_list w in
  w ← writeUint64 (Nonce obj) w;
  if Balance obj <? 0 then Err ErrNegativeBigInt
  else
    w ← writeBigInt (Balance obj) w;
    w ← writeBytes (Root obj) w;
    w ← writeBytes (CodeHash obj) w;
    listEnd tmp0 w.

(** rlp.EncodeToBytes of a value with an EncodeRLP method *)
Definition encode_to_bytes (pooled : encBuffer) (write_to : encBuffer → go encBuffer) : go bytes :=
  buf ← write_to (getEncBuffer pooled);
  makeBytes buf.

(** The account as the decoder sees it *)
Definition account_type : rtype := TStruct (map (fun t => (t, false)) [TUint 8; TBigPtr; TByteArray 32; TByteSlice]).

Definition account_rval (d : StateAccount) : rval := struct_of [VUint (Nonce d); VBigPtr (Some (Balance d)); VByteArray (Root d); VBytes (CodeHash d)].

Definition account_of (v : rval) : option StateAccount :=
  match v with
  | VStruct [(VUint nonce, _); (VBigPtr (Some balance), _); (VByteArray root, _); (VBytes codeHash, _)] => Some (MkAccount nonce balance root codeHash)
  | _ => None
  end.

(** A slim account as the encoder sees it *)
Definition slim_rval (d : SlimAccount) : rval := struct_of [VUint (sl_Nonce d); VBigPtr (Some (sl_Balance d)); VBytes (sl_Root d); VBytes (sl_CodeHash d)].

Definition SlimAccountRLP `{HF : Hasher} (pooled : encBuffer) (account : StateAccount) : outcome Empty_set bytes :=
  let slim := MkSlim (Nonce account) (Balance account) (if bool_decide (Root account = EmptyRootHash) then [] else Root account)
                (if bool_decide (CodeHash account = EmptyCodeHash) then [] else CodeHash account) in
  match EncodeToBytes pooled (slim_rval slim) with
  | Ok data => Ok data
  | Err _ | Panic => Panic
  | OutOfFuel => OutOfFuel
  end.

Fixpoint TrimLeftZeroes (s : bytes) : bytes :=
  match s with
  | [] => []
  | x :: s' => if x =? 0 then TrimLeftZeroes s' else s
  end.

(** ** StateTrie *)

Record StateTrie := MkStateTrie { sec_trie : Trie; secKeyCache : gmap bytes bytes }.

Inductive sec_error := SecTrie (e : trie_error) | SecRlp (e : rlp_error) | SecNotFound | SecPanic.

Section SecureTrie.
  Context `{HF : Hasher} (pooled hb : encBuffer) (stream : Stream).

Definition sec_out {A} (o : tr A) : outcome sec_error A := match o with Ok x => Ok x | Err e => Err (SecTrie e) | Panic => Panic | OutOfFuel => OutOfFuel end.
Definition rlp_out {A} (o : go A) : outcome sec_error A := match o with Ok x => Ok x | Err e => Err (SecRlp e) | Panic => Panic | OutOfFuel => OutOfFuel end.

Definition hashKey (key : bytes) : bytes := sum256 key.

Definition sec_GetStorage (t : StateTrie) (key : bytes) : outcome sec_error bytes * StateTrie :=
  let '(o, tr) := Get (sec_trie t) (hashKey key) in
  (enc ← sec_out o;
   match enc with
   | None => Ok []
   | Some enc => if len enc =? 0 then Ok [] else '(_, content, _) ← rlp_out (Split enc); Ok content
   end, MkStateTrie tr (secKeyCache t)).

Definition sec_GetAccount (t : StateTrie) (address : bytes) : outcome sec_error (option StateAccount) * StateTrie :=
  let '(o, tr) := Get (sec_trie t) (hashKey address) in
  (res ← sec_out o;
   match res with
   | None => Ok None
   | Some res => v ← rlp_out (DecodeBytes_into stream account_type res); match account_of v with Some d => Ok (Some d) | None => Panic end
   end, MkStateTrie tr (secKeyCache t)).

(** The key cache is written when the trie was. *)
Definition noted (hk key : bytes) (p : tr unit * Trie) (cache : gmap bytes bytes) : outcome sec_error unit * StateTrie :=
  let '(o, tr) := p in
  (sec_out o, MkStateTrie tr (match o with Ok _ => <[hk := key]> cache | _ => cache end)).

Definition sec_UpdateStorage (t : StateTrie) (key value : bytes) : outcome sec_error unit * StateTrie :=
  let hk := hashKey key in
  match EncodeToBytes pooled (VBytes value) with
  | Ok v => noted hk key (Update (sec_trie t) hk v) (secKeyCache t)
  | Err _ => noted hk key (Update (sec_trie t) hk []) (secKeyCache t)
  | Panic => (Panic, t)
  | OutOfFuel => (OutOfFuel, t)
  end.

Definition sec_UpdateAccount (t : StateTrie) (address : bytes) (acc : StateAccount) : outcome sec_error unit * StateTrie :=
  let hk := hashKey address in
  match encode_to_bytes pooled (StateAccount_EncodeRLP acc) with
  | Ok data => noted hk address (Update (sec_trie t) hk data) (secKeyCache t)
  | Err e => (Err (SecRlp e), t)
  | Panic => (Panic, t)
  | OutOfFuel => (OutOfFuel, t)
  end.

(** DeleteStorage and DeleteAccount *)
Definition sec_Delete (t : StateTrie) (key : bytes) : outcome sec_error unit * StateTrie :=
  let hk := hashKey key in
  let '(o, tr) := Delete (sec_trie t) hk in
  (sec_out o, MkStateTrie tr (base.delete hk (secKeyCache t))).

Definition sec_GetKey (preimage : option (bytes → bytes)) (t : StateTrie) (shaKey : bytes) : bytes :=
  match secKeyCache t !! shaKey with
  | Some key => key
  | None => match preimage with None => [] | Some f => f (BytesToHash shaKey) end
  end.

Definition sec_Hash (t : StateTrie) : outcome sec_error bytes * StateTrie :=
  let '(o, tr) := Hash hb (sec_trie t) in
  (sec_out o, MkStateTrie tr (secKeyCache t)).

(** NewStateTrie, for a state and for an account *)
Definition NewStateTrie (id : ID) (db : bytes → option Reader) : outcome sec_error StateTrie :=
  t ← sec_out (New id db);
  Ok (MkStateTrie t ∅).

Definition StateTrieID (root : bytes) : ID := MkID root zero_hash root.
Definition StorageTrieID (stateRoot owner root : bytes) : ID := MkID stateRoot owner root.
End SecureTrie.

(** *** The interface Trie of core/state/database.go

    Its reads are in [Backend].  Accounts and slots are in tries of one kind; the
    interface tells them apart. *)

Class TrieWriter (T ST E : Type) := {
  UpdateStorage : ST → bytes → bytes → bytes → outcome Empty_set (option E * ST);
  DeleteStorage : ST → bytes → bytes → outcome Empty_set (option E * ST);
  StorageHash : ST → outcome Empty_set (bytes * ST);
  UpdateAccount : T → bytes → StateAccount → outcome Empty_set (option E * T);
  DeleteAccount : T → bytes → outcome Empty_set (option E * T);
  AccountHash : T → outcome Empty_set (bytes * T)
}.

(** An error that is returned, or a panic *)
Definition fallible {X} (p : outcome sec_error unit * X) : outcome Empty_set (option sec_error * X) :=
  match p with
  | (Ok _, t) => Ok (None, t)
  | (Err e, t) => Ok (Some e, t)
  | (Panic, _) => Panic
  | (OutOfFuel, _) => OutOfFuel
  end.

Definition total {X} (p : outcome sec_error bytes * X) : outcome Empty_set (bytes * X) :=
  match p with
  | (Ok h, t) => Ok (h, t)
  | (Err _, _) | (Panic, _) => Panic
  | (OutOfFuel, _) => OutOfFuel
  end.

(** The interface for reads has no place for a panic; [SecPanic] stands for it. *)
Definition readable {X} (o : outcome sec_error X) : sec_error + X :=
  match o with Ok x => inr x | Err e => inl e | Panic | OutOfFuel => inl SecPanic end.

(** cachingDB, with what the disk has of tries and of code.  What a read loads into a
    trie is not kept. *)
Definition cachingDB `{HF : Hasher} (stream : Stream) (triedb : bytes → option Reader) (ReadCode : bytes → bytes) : Backend StateTrie StateTrie sec_error := {|
  GetAccount := fun t a => readable (sec_GetAccount stream t a).1;
  OpenStorageTrie := fun stateRoot address root => readable (NewStateTrie (StorageTrieID stateRoot (sum256 address) root) triedb);
  GetStorage := fun t _ k => readable (sec_GetStorage t k).1;
  ContractCode := fun _ h => if 0 <? len (ReadCode h) then (Some (ReadCode h), None) else (None, Some SecNotFound);
  ContractCodeSize := fun _ h => if 0 <? len (ReadCode h) then (len (ReadCode h), None) else (0, Some SecNotFound)
|}.

Definition OpenTrie `{HF : Hasher} (triedb : bytes → option Reader) (root : bytes) : sec_error + StateTrie := readable (NewStateTrie (StateTrieID root) triedb).

Definition StateTrie_writer `{HF : Hasher} (pooled hb : encBuffer) : TrieWriter StateTrie StateTrie sec_error := {|
  UpdateStorage := fun t _ k v => fallible (sec_UpdateStorage pooled t k v);
  DeleteStorage := fun t _ k => fallible (sec_Delete t k);
  StorageHash := fun t => total (sec_Hash hb t);
  UpdateAccount := fun t a d => fallible (sec_UpdateAccount pooled t a d);
  DeleteAccount := fun t a => fallible (sec_Delete t a);
  AccountHash := fun t => total (sec_Hash hb t)
|}.

(** ** What a trie of accounts or of slots holds *)

Definition account_enc (d : StateAccount) : bytes := enc_val (account_rval d).
Definition account_ok (d : StateAccount) : Prop := item_ok account_type (account_rval d).

(** A slot as it is stored: without leading zeros, and not zero *)
Definition slot_ok (v : bytes) : Prop := v ≠ [] ∧ bytes_ok v ∧ len v <= 32 ∧ TrimLeftZeroes v = v.

Definition slots_ok (S : gmap bytes bytes) : Prop := map_Forall (fun h v => length h = 32%nat ∧ slot_ok v) S.
Definition accounts_ok (A : gmap bytes StateAccount) : Prop := map_Forall (fun h d => length h = 32%nat ∧ account_ok d) A.

(** The roots of the tries that hold slots and accounts *)
Definition slots_root `{HF : Hasher} (S : gmap bytes bytes) (r : bytes) : Prop := ∃ a, wf_root a ∧ holds a (enc_string <$> S) ∧ r = tree_root a.
Definition accounts_root `{HF : Hasher} (A : gmap bytes StateAccount) (r : bytes) : Prop := ∃ a, wf_root a ∧ holds a (account_enc <$> A) ∧ r = tree_root a.

Lemma account_type_ok : rtype_ok account_type.
Proof. apply required_ok. by repeat (apply Forall_cons; split; [done |]). Qed.

Lemma account_sized d : typed account_type (account_rval d) → length (Root d) = 32%nat ∧ 0 <= Balance d.
Proof.
  intros H. apply required_typed in H as (l & E & Hl); [| by repeat constructor]. apply (f_equal (map fst)) in E. rewrite !flagged_fst in E. subst l. cbn [map] in Hl.
  apply Forall2_cons in Hl as [_ Hl]. apply Forall2_cons in Hl as [Hb Hl]. by apply Forall2_cons in Hl as [Hr _].
Qed.

Lemma StateAccount_EncodeRLP_writer d w : length (Root d) = 32%nat → 0 <= Balance d → StateAccount_EncodeRLP d w = writer (account_rval d) w.
Proof.
  intros Hr Hb. unfold account_rval. rewrite writer_struct_of. unfold StateAccount_EncodeRLP. destruct (open_list w) as [w1 lh]. cbn [write_elems writer writeBigIntPtr].
  rewrite (proj2 (Z.ltb_ge (Balance d) 0)) by done. repeat (match goal with |- (?m ≫= _) = _ => destruct m; cbn [mbind outcome_bind]; [| done..] end; rewrite ?(write_array (Root d)) by lia). done.
Qed.

(** *** The laws of the interface *)

Class TrieLaws (T ST E : Type) `{HF : Hasher} `{B : !Backend T ST E} `{W : !TrieWriter T ST E} := {
  slots_in : ST → gmap bytes bytes → Prop;
  accounts_in : T → gmap bytes StateAccount → Prop;
  slots_in_ok t S : slots_in t S → slots_ok S;
  GetStorage_in t S a k : slots_in t S → GetStorage t a k = inr (default [] (S !! sum256 k));
  UpdateStorage_in t S a k v : slots_in t S → slot_ok v → ∃ t', UpdateStorage t a k v = Ok (None, t') ∧ slots_in t' (<[sum256 k := v]> S);
  DeleteStorage_in t S a k : slots_in t S → ∃ t', DeleteStorage t a k = Ok (None, t') ∧ slots_in t' (base.delete (sum256 k) S);
  StorageHash_in t S : slots_in t S → ∃ r t', StorageHash t = Ok (r, t') ∧ slots_root S r ∧ slots_in t' S;
  GetAccount_in t A a : accounts_in t A → GetAccount t a = inr (A !! sum256 a);
  UpdateAccount_in t A a d : accounts_in t A → account_ok d → ∃ t', UpdateAccount t a d = Ok (None, t') ∧ accounts_in t' (<[sum256 a := d]> A);
  DeleteAccount_in t A a : accounts_in t A → ∃ t', DeleteAccount t a = Ok (None, t') ∧ accounts_in t' (base.delete (sum256 a) A);
  AccountHash_in t A : accounts_in t A → ∃ r t', AccountHash t = Ok (r, t') ∧ accounts_root A r ∧ accounts_in t' A
}.

(** *** Accounts of ordinary sizes *)

Definition acct_ok (d : StateAccount) : Prop :=
  0 <= Nonce d < 2 ^ 64 ∧ 0 <= Balance d < 2 ^ 256 ∧ (length (Root d) = 32%nat ∧ bytes_ok (Root d)) ∧ length (CodeHash d) = 32%nat ∧ bytes_ok (CodeHash d).

Lemma struct_leaves vs its : Forall2 leaf vs its → (length its <= 14)%nat →
  ∃ e, rlp_enc (struct_of vs) = Ok e ∧ rval_ok (struct_of vs) ∧ bytes_ok e ∧ len e < 2 ^ 55.
Proof.
  intros Hl Hn. destruct (leaves_enc vs its Hl) as (E & Hok & Hb & Hs). set (p := concat (map enc_item its)) in *.
  assert (E1 : rlp_enc (struct_of vs) = Ok (enc_list p)).
  { unfold struct_of. cbn [rlp_enc]. by rewrite fieldsToWrite_required, enc_fields_elems, take_ge, flagged_fst, E by (rewrite length_map; done). }
  assert (Hlen : len (enc_list p) < 2 ^ 55). { unfold enc_list. rewrite len_app, head_length by lia. pose proof (headsize_range (len p)). lia. }
  exists (enc_list p). split_and!; [done | | | done].
  - split; [intros e He; change (rlp_enc (struct_of vs) = Ok e) in He; rewrite E1 in He; injection He as <-; lia |]. clear -Hok. unfold struct_of. induction vs as [| v vs IH]; [done |]. destruct Hok as [Hv Hok]. split; [done | by apply IH].
  - unfold enc_list. apply Forall_app. split; [| done]. apply head_bytes; lia.
Qed.

Lemma leaf_array b : bytes_ok b → len b < 2 ^ 40 → leaf (VByteArray b) (IBytes b).
Proof. intros Hb Hl. exists b. split_and!; try done. split; [| done]. intros e [= <-]. by apply leaf_slice. Qed.

Lemma acct_account d : acct_ok d → account_ok d.
Proof.
  intros (Hn & Hb & [Hr1 Hr2] & Hc1 & Hc2). destruct (struct_leaves [VUint (Nonce d); VBigPtr (Some (Balance d)); VByteArray (Root d); VBytes (CodeHash d)] [IBytes (min_be (Nonce d)); big_item (Some (Balance d)); IBytes (Root d); IBytes (CodeHash d)])
    as (e & E & _ & He & Hlen); [repeat constructor; [by apply leaf_uint | by apply leaf_big | apply leaf_array; [done | lia] | apply leaf_bytes; [done | lia]] | cbn; lia |].
  unfold account_ok, item_ok, account_rval. rewrite (enc_val_ok _ _ E). split_and!; [| done | done]. apply required_typed; [by repeat constructor |]. eexists. split; [reflexivity |].
  repeat constructor; cbn; lia || done.
Qed.

Lemma SlimAccountRLP_ok `{HF : Hasher} pooled d : length (sizebuf pooled) = 9%nat → acct_ok d → ∃ b, SlimAccountRLP pooled d = Ok b.
Proof.
  intros Hp (Hn & Hb & [Hr1 Hr2] & Hc1 & Hc2). unfold SlimAccountRLP. set (rt := if bool_decide (Root d = _) then _ else _). set (ch := if bool_decide _ then _ else CodeHash d).
  assert (bytes_ok rt ∧ len rt < 2 ^ 40) as [Hrt1 Hrt2] by (unfold rt; case_bool_decide; split; (done || lia || constructor)). assert (bytes_ok ch ∧ len ch < 2 ^ 40) as [Hch1 Hch2] by (unfold ch; case_bool_decide; split; (done || lia || constructor)).
  destruct (struct_leaves [VUint (Nonce d); VBigPtr (Some (Balance d)); VBytes rt; VBytes ch] [IBytes (min_be (Nonce d)); big_item (Some (Balance d)); IBytes rt; IBytes ch])
    as (e & E & Hok & _ & _); [repeat constructor; [by apply leaf_uint | by apply leaf_big | by apply leaf_bytes | by apply leaf_bytes] | cbn; lia |].
  unfold slim_rval. cbn [sl_Nonce sl_Balance sl_Root sl_CodeHash]. rewrite EncodeToBytes_spec by done. rewrite E. by eexists.
Qed.

Section SecureTrieLaws.
  Context `{HF : Hasher} `{HL : !HasherLaws} (pooled hb : encBuffer) (stream : Stream).
  Context (Hp : length (sizebuf pooled) = 9%nat) (Hhb : length (sizebuf hb) = 9%nat).

Lemma account_encodes d : account_ok d → encode_to_bytes pooled (StateAccount_EncodeRLP d) = Ok (account_enc d).
Proof.
  intros Hd. pose proof (account_sized d (proj1 Hd)) as [Hr Hb]. unfold encode_to_bytes. rewrite StateAccount_EncodeRLP_writer by done. change (EncodeToBytes pooled (account_rval d) = Ok (account_enc d)).
  rewrite EncodeToBytes_spec; [by apply (typed_encodes account_type account_type_ok), Hd | done | by apply (item_rval_ok account_type _ account_type_ok)].
Qed.

Lemma account_value d : account_ok d → value_ok (account_enc d).
Proof. intros Hd. by apply (item_value account_type _ 0 account_type_ok Hd). Qed.

Lemma account_decodes d : account_ok d → DecodeBytes_into stream account_type (account_enc d) = Ok (account_rval d).
Proof.
  intros (Hd & Hb & Hl). apply (DecodeBytes_into_spec stream account_type); [apply account_type_ok | done | unfold account_enc; lia |]. split; [done | by apply (typed_encodes account_type account_type_ok)].
Qed.

Definition trie_slots (t : StateTrie) (S : gmap bytes bytes) : Prop := represents (sec_trie t) (enc_string <$> S) ∧ slots_ok S.
Definition trie_accounts (t : StateTrie) (A : gmap bytes StateAccount) : Prop := represents (sec_trie t) (account_enc <$> A) ∧ accounts_ok A.

Lemma slot_value v : slot_ok v → value_ok (enc_string v).
Proof.
  intros (Hne & Hb & Hl & _). pose proof (enc_string_pos v). pose proof (enc_string_bound v ltac:(lia)). split_and!; [by intros E; rewrite E in * | apply enc_string_bytes; [done | lia] | lia].
Qed.

Lemma slot_split v : slot_ok v → ∃ k, Split (enc_string v) = Ok (k, v, []).
Proof.
  intros Hv. pose proof (slot_value v Hv) as (_ & Hb & Hl). exists (if single_byte v then KByte else KString). apply Split_spec; [done | lia |]. rewrite app_nil_r. by destruct (single_byte v) eqn:E.
Qed.

(** Updating and deleting, for tries of any kind of values *)
Lemma Update_map t m key v : represents t m → bytes_ok key → value_ok v → ∃ t', Update t key v = (Ok tt, t') ∧ represents t' (<[key := v]> m).
Proof.
  intros [a0 Hr] Hk (Hne & Hv & Hs). destruct (Update_ok t a0 m key v Hr Hk Hv Hs) as (t' & -> & _ & Hr'). rewrite decide_False in Hr' by done. exists t'. split; [done | by exists a0].
Qed.

Lemma Delete_map t m key : represents t m → bytes_ok key → ∃ t', Delete t key = (Ok tt, t') ∧ represents t' (base.delete key m).
Proof. intros [a0 Hr] Hk. destruct (Delete_ok t a0 m key Hr Hk) as (t' & -> & _ & Hr'). exists t'. split; [done | by exists a0]. Qed.

Lemma Get_map t m key : represents t m → bytes_ok key → (Get t key).1 = Ok (m !! key).
Proof. intros (a0 & a & Hr) Hk. by destruct (Get_ok t a0 a m key Hr Hk) as (t' & -> & _). Qed.

Lemma Hash_map t m : represents t m → map_Forall (fun h _ => length h = 32%nat) m → ∃ a t', Hash hb t = (Ok (tree_root a), t') ∧ wf_root a ∧ holds a m ∧ represents t' m.
Proof.
  intros (a0 & a & Hr) Hk. assert (Hbd : bounded a). { eapply holds_bounded; [apply Hr |]. intros h v Hh. specialize (Hk h v Hh). cbn in *. lia. }
  destruct (Hash_ok hb Hhb t a0 a m Hr Hbd) as (t' & E & Hr' & _). exists a, t'. split_and!; [done | apply Hr | apply Hr | by exists a0, a].
Qed.

Lemma slots_keys S : slots_ok S → map_Forall (fun h _ => length h = 32%nat) (enc_string <$> S).
Proof. intros HS h v. rewrite lookup_fmap_Some. intros (x & _ & Hx). by apply (HS h x). Qed.

Lemma accounts_keys A : accounts_ok A → map_Forall (fun h _ => length h = 32%nat) (account_enc <$> A).
Proof. intros HA h v. rewrite lookup_fmap_Some. intros (x & _ & Hx). by apply (HA h x). Qed.

Lemma sec_GetStorage_ok t S k : trie_slots t S → (sec_GetStorage t k).1 = Ok (default [] (S !! sum256 k)).
Proof.
  intros [Hr HS]. unfold sec_GetStorage, hashKey. pose proof (Get_map _ _ (sum256 k) Hr (sum256_bytes k)) as E. destruct (Get (sec_trie t) (sum256 k)) as [o tr]. cbn in E. subst o. cbn [fst sec_out mbind outcome_bind].
  rewrite lookup_fmap. destruct (S !! sum256 k) as [v |] eqn:Ev; [| done]. cbn [fmap option_fmap option_map default]. destruct (HS _ _ Ev) as [_ Hv]. pose proof (enc_string_pos v). rewrite (proj2 (Z.eqb_neq _ 0)) by lia.
  destruct (slot_split v Hv) as [kd ->]. done.
Qed.

Lemma sec_GetAccount_ok t A a : trie_accounts t A → (sec_GetAccount stream t a).1 = Ok (A !! sum256 a).
Proof.
  intros [Hr HA]. unfold sec_GetAccount, hashKey. pose proof (Get_map _ _ (sum256 a) Hr (sum256_bytes a)) as E. destruct (Get (sec_trie t) (sum256 a)) as [o tr]. cbn in E. subst o. cbn [fst sec_out mbind outcome_bind].
  rewrite lookup_fmap. destruct (A !! sum256 a) as [d |] eqn:Ed; [| done]. cbn [fmap option_fmap option_map]. destruct (HA _ _ Ed) as [_ Hd]. rewrite account_decodes by done. cbn. by destruct d.
Qed.

Lemma slots_ok_insert S k v : slots_ok S → slot_ok v → slots_ok (<[sum256 k := v]> S).
Proof. intros HS Hv. apply map_Forall_insert_2; [| done]. split; [apply sum256_length | done]. Qed.

Lemma accounts_ok_insert A a d : accounts_ok A → account_ok d → accounts_ok (<[sum256 a := d]> A).
Proof. intros HA Hd. apply map_Forall_insert_2; [| done]. split; [apply sum256_length | done]. Qed.

Lemma sec_UpdateStorage_ok t S k v : trie_slots t S → slot_ok v → ∃ t', sec_UpdateStorage pooled t k v = (Ok tt, t') ∧ trie_slots t' (<[sum256 k := v]> S).
Proof.
  intros [Hr HS] Hv. pose proof (slot_value v Hv) as Hval. unfold sec_UpdateStorage, hashKey. assert (E : EncodeToBytes pooled (VBytes v) = Ok (enc_string v)).
  { rewrite EncodeToBytes_spec; [done | done |]. split; [| apply Hv]. intros e [= <-]. destruct Hval as (_ & _ & Hl). lia. }
  rewrite E. destruct (Update_map _ _ (sum256 k) _ Hr (sum256_bytes k) Hval) as (tr & -> & Hr'). eexists. split; [done |]. split; [cbn [sec_trie]; by rewrite fmap_insert | by apply slots_ok_insert].
Qed.

Lemma sec_UpdateAccount_ok t A a d : trie_accounts t A → account_ok d → ∃ t', sec_UpdateAccount pooled t a d = (Ok tt, t') ∧ trie_accounts t' (<[sum256 a := d]> A).
Proof.
  intros [Hr HA] Hd. unfold sec_UpdateAccount, hashKey. rewrite account_encodes by done. destruct (Update_map _ _ (sum256 a) _ Hr (sum256_bytes a) (account_value d Hd)) as (tr & -> & Hr').
  eexists. split; [done |]. split; [cbn [sec_trie]; by rewrite fmap_insert | by apply accounts_ok_insert].
Qed.

Lemma sec_Delete_slots t S k : trie_slots t S → ∃ t', sec_Delete t k = (Ok tt, t') ∧ trie_slots t' (base.delete (sum256 k) S).
Proof.
  intros [Hr HS]. unfold sec_Delete, hashKey. destruct (Delete_map _ _ (sum256 k) Hr (sum256_bytes k)) as (tr & -> & Hr'). eexists. split; [done |]. split; [cbn [sec_trie]; by rewrite fmap_delete | by apply map_Forall_delete].
Qed.

Lemma sec_Delete_accounts t A a : trie_accounts t A → ∃ t', sec_Delete t a = (Ok tt, t') ∧ trie_accounts t' (base.delete (sum256 a) A).
Proof.
  intros [Hr HA]. unfold sec_Delete, hashKey. destruct (Delete_map _ _ (sum256 a) Hr (sum256_bytes a)) as (tr & -> & Hr'). eexists. split; [done |]. split; [cbn [sec_trie]; by rewrite fmap_delete | by apply map_Forall_delete].
Qed.

Lemma sec_Hash_slots t S : trie_slots t S → ∃ r t', sec_Hash hb t = (Ok r, t') ∧ slots_root S r ∧ trie_slots t' S.
Proof.
  intros [Hr HS]. unfold sec_Hash. destruct (Hash_map _ _ Hr (slots_keys S HS)) as (a & tr & -> & Hw & Hh & Hr'). eexists _, _. split; [done |]. split; [by exists a | done].
Qed.

Lemma sec_Hash_accounts t A : trie_accounts t A → ∃ r t', sec_Hash hb t = (Ok r, t') ∧ accounts_root A r ∧ trie_accounts t' A.
Proof.
  intros [Hr HA]. unfold sec_Hash. destruct (Hash_map _ _ Hr (accounts_keys A HA)) as (a & tr & -> & Hw & Hh & Hr'). eexists _, _. split; [done |]. split; [by exists a | done].
Qed.

(** A StateTrie over any database keeps the laws. *)
Definition StateTrie_laws (triedb : bytes → option Reader) (ReadCode : bytes → bytes) :
  @TrieLaws StateTrie StateTrie sec_error HF (cachingDB stream triedb ReadCode) (StateTrie_writer pooled hb).
Proof.
  refine (@Build_TrieLaws _ _ _ HF (cachingDB stream triedb ReadCode) (StateTrie_writer pooled hb) trie_slots trie_accounts _ _ _ _ _ _ _ _ _); cbn [GetStorage cachingDB UpdateStorage DeleteStorage StorageHash GetAccount UpdateAccount DeleteAccount AccountHash StateTrie_writer].
  - by intros t S [_ HS].
  - intros t S a k Ht. by rewrite (sec_GetStorage_ok t S k Ht).
  - intros t S a k v Ht Hv. destruct (sec_UpdateStorage_ok t S k v Ht Hv) as (t' & -> & Ht'). by exists t'.
  - intros t S a k Ht. destruct (sec_Delete_slots t S k Ht) as (t' & -> & Ht'). by exists t'.
  - intros t S Ht. destruct (sec_Hash_slots t S Ht) as (r & t' & -> & Hr & Ht'). by exists r, t'.
  - intros t A a Ht. by rewrite (sec_GetAccount_ok t A a Ht).
  - intros t A a d Ht Hd. destruct (sec_UpdateAccount_ok t A a d Ht Hd) as (t' & -> & Ht'). by exists t'.
  - intros t A a Ht. destruct (sec_Delete_accounts t A a Ht) as (t' & -> & Ht'). by exists t'.
  - intros t A Ht. destruct (sec_Hash_accounts t A Ht) as (r & t' & -> & Hr & Ht'). by exists r, t'.
Defined.
End SecureTrieLaws.
