(* ===== verification/StateRoot.v ===== *)
(** * The state root: IntermediateRoot of statedb.go with updateTrie and updateRoot of state_object.go

    After a transaction the changed accounts are pending in memory.  IntermediateRoot
    writes their slots into their storage tries, the roots of those into the accounts and
    the accounts into the account trie, of which it returns the hash.  The code ranges over
    maps; here their keys come in one order.  The prefetcher and counters for metrics are
    left out, as is the call of UpdateContractCode, which does nothing. *)

From S2P Require Import Prelude RlpRaw RlpEncode TrieNode TrieOps TrieHash StateAccess State StateFinalise SecureTrie.

Section StateRoot.
  Context `{HF : Hasher} {T ST E : Type} `{B : !Backend T ST E} `{W : !TrieWriter T ST E} (pooled : encBuffer).
  Abbreviation StateDB := (StateDB (T := T) (ST := ST) (E := E)).
  Abbreviation stateObject := (stateObject (ST := ST)).

Definition set_s_trie (t : T) (s : StateDB) : StateDB :=
  MkState t (snap s) (originalRoot s) (accounts s) (storages s) (accountsOrigin s) (storagesOrigin s)
    (stateObjects s) (stateObjectsPending s) (stateObjectsDirty s) (stateObjectsDestruct s) (dbErr s) (refund s) (thash s)
    (txIndex s) (logs s) (logSize s) (preimages s) (s_accessList s) (s_journal s) (validRevisions s)
    (nextRevisionId s).

Definition reset_pending (o : stateObject) : stateObject :=
  MkObject (address o) (addrHash o) (origin o) (data o) (o_trie o) (code o) (originStorage o) ∅ (dirtyStorage o) (dirtyCode o) (deleted o) (created o).

Definition set_root (r : bytes) (o : stateObject) : stateObject := with_data (MkAccount (Nonce (data o)) (Balance (data o)) r (CodeHash (data o))) o.

(** The encoding of a slot for the snapshots; an error would leave it nil. *)
Definition encode_slot (v : bytes) : outcome Empty_set (option bytes) :=
  match EncodeToBytes pooled (VBytes v) with
  | Ok b => Ok (Some b)
  | Err _ => Ok None
  | Panic => Panic
  | OutOfFuel => OutOfFuel
  end.

(** The caches of changed slots, until the commit *)
Definition cache_slot (o : stateObject) (khash : bytes) (encoded : option bytes) (prev : bytes) (s : StateDB) : outcome Empty_set StateDB :=
  let storage := <[khash := encoded]> (default ∅ (storages s !! addrHash o)) in
  let origin := default ∅ (storagesOrigin s !! address o) in
  origin ← match origin !! khash with
           | Some _ => Ok origin
           | None =>
               if bool_decide (prev = zeroHash) then Ok (<[khash := None]> origin)
               else b ← encode_slot (TrimLeftZeroes prev); Ok (<[khash := b]> origin)
           end;
  Ok (set_caches (accounts s) (<[addrHash o := storage]> (storages s)) (accountsOrigin s) (<[address o := origin]> (storagesOrigin s)) s).

(** The loop of updateTrie on one slot *)
Definition update_slot (key value : bytes) (o : stateObject) (t : ST) (s : StateDB) : outcome Empty_set (option E * stateObject * ST * StateDB) :=
  let prev := default zeroHash (originStorage o !! key) in
  if bool_decide (value = prev) then Ok (None, o, t, s)
  else
    let o := set_origin_cache key value o in
    '(err, t, encoded) ←
      (if bool_decide (value = zeroHash) then
         '(err, t) ← DeleteStorage t (address o) key; Ok (err, t, None)
       else
         let trimmed := TrimLeftZeroes value in
         encoded ← encode_slot trimmed;
         '(err, t) ← UpdateStorage t (address o) key trimmed; Ok (err, t, encoded));
    match err with
    | Some e => Ok (Some e, o, t, setError (ErrStorage e) s)
    | None => s ← cache_slot o (sum256 key) encoded prev s; Ok (None, o, t, s)
    end.

Fixpoint update_slots (l : list (bytes * bytes)) (o : stateObject) (t : ST) (s : StateDB) : outcome Empty_set (option E * stateObject * ST * StateDB) :=
  match l with
  | [] => Ok (None, o, t, s)
  | (key, value) :: l =>
      '(err, o, t, s) ← update_slot key value o t s;
      match err with
      | Some e => Ok (Some e, o, t, s)
      | None => update_slots l o t s
      end
  end.

(** updateTrie: the trie or nil, or the error; the object keeps the trie by its pointer. *)
Definition updateTrie (o : stateObject) (s : StateDB) : outcome Empty_set ((E + option ST) * stateObject * StateDB) :=
  let o := obj_finalise o in
  if decide (pendingStorage o = ∅) then Ok (inr (o_trie o), o, s)
  else
    let '(tr, o) := getTrie o s in
    match tr with
    | inl e => Ok (inl e, o, setError (ErrStorage e) s)
    | inr t =>
        '(err, o, t, s) ← update_slots (map_to_list (pendingStorage o)) o t s;
        let o := set_trie_cache (Some t) o in
        match err with
        | Some e => Ok (inl e, o, s)
        | None => Ok (inr (Some t), reset_pending o, s)
        end
    end.

Definition updateRoot (o : stateObject) (s : StateDB) : outcome Empty_set (stateObject * StateDB) :=
  '(r, o, s) ← updateTrie o s;
  match r with
  | inl _ | inr None => Ok (o, s)
  | inr (Some t) => '(h, t) ← StorageHash t; Ok (set_root h (set_trie_cache (Some t) o), s)
  end.

Definition updateStateObject (obj : stateObject) (s : StateDB) : outcome Empty_set StateDB :=
  let addr := address obj in
  '(err, t) ← UpdateAccount (s_trie s) addr (data obj);
  let s := set_s_trie t s in
  let s := match err with Some e => setError (ErrUpdateObject addr e) s | None => s end in
  slim ← SlimAccountRLP pooled (data obj);
  accountsOrigin' ← match accountsOrigin s !! address obj with
                    | Some _ => Ok (accountsOrigin s)
                    | None =>
                        match origin obj with
                        | None => Ok (<[address obj := None]> (accountsOrigin s))
                        | Some d => b ← SlimAccountRLP pooled d; Ok (<[address obj := Some b]> (accountsOrigin s))
                        end
                    end;
  Ok (set_caches (<[addrHash obj := slim]> (accounts s)) (storages s) accountsOrigin' (storagesOrigin s) s).

Definition deleteStateObject (obj : stateObject) (s : StateDB) : outcome Empty_set StateDB :=
  let addr := address obj in
  '(err, t) ← DeleteAccount (s_trie s) addr;
  let s := set_s_trie t s in
  Ok (match err with Some e => setError (ErrDeleteObject addr e) s | None => s end).

(** The two loops of IntermediateRoot *)
Definition root_object (addr : bytes) (s : StateDB) : outcome Empty_set StateDB :=
  match stateObjects s !! addr with
  | None => Panic
  | Some obj =>
      if deleted obj then Ok s
      else '(obj, s) ← updateRoot obj s; Ok (set_objects (<[addr := obj]> (stateObjects s)) s)
  end.

Definition write_object (addr : bytes) (s : StateDB) : outcome Empty_set StateDB :=
  match stateObjects s !! addr with
  | None => Panic
  | Some obj => if deleted obj then deleteStateObject obj s else updateStateObject obj s
  end.

Fixpoint for_each (f : bytes → StateDB → outcome Empty_set StateDB) (l : list bytes) (s : StateDB) : outcome Empty_set StateDB :=
  match l with
  | [] => Ok s
  | addr :: l => s ← f addr s; for_each f l s
  end.

Definition IntermediateRoot (deleteEmptyObjects : bool) (s : StateDB) : outcome Empty_set (bytes * StateDB) :=
  let s := Finalise deleteEmptyObjects s in
  s ← for_each root_object (elements (stateObjectsPending s)) s;
  s ← for_each write_object (elements (stateObjectsPending s)) s;
  let s := set_objPending ∅ s in
  '(h, t) ← AccountHash (s_trie s);
  Ok (h, set_s_trie t s).
End StateRoot.
