(* ===== verification/StateRootSpec.v ===== *)
(** * The state root commits to the world

    IntermediateRoot returns the root of the trie that holds, under the hash of its
    address, every account of the world with the root of the trie of its slots.  By
    TrieBinding such a root determines the accounts. *)

From S2P Require Import Prelude RlpRaw RlpEncode RlpTyped TrieNode TrieSpec TrieStore TrieOps TrieRefine TrieHash StateAccess State StateWorld StateRevert StateSnapshot StateTidy StateSpec StateFinalise TxTypes BlockBody SecureTrie StateRoot.

(** ** Slots with and without leading zeros *)

Definition word (v : bytes) : Prop := length v = 32%nat ∧ bytes_ok v.

Lemma trim_split v : ∃ n, v = repeat 0 n ++ TrimLeftZeroes v.
Proof.
  induction v as [| x v [n IH]]; [by exists O |]. cbn [TrimLeftZeroes]. destruct (Z.eqb_spec x 0) as [-> | Hx]; [| by exists O]. exists (S n). cbn. by f_equal.
Qed.

Lemma trim_idem v : TrimLeftZeroes (TrimLeftZeroes v) = TrimLeftZeroes v.
Proof. induction v as [| x v IH]; [done |]. cbn [TrimLeftZeroes]. destruct (x =? 0) eqn:Ex; [done |]. cbn [TrimLeftZeroes]. by rewrite Ex. Qed.

Lemma trim_zeros n v : TrimLeftZeroes (repeat 0 n ++ v) = TrimLeftZeroes v.
Proof. induction n as [| n IH]; [done |]. cbn. apply IH. Qed.

Lemma take_zeros n m : take n (repeat 0 m) = repeat 0 (n `min` m).
Proof. revert m. induction n as [| n IH]; intros [| m]; [done.. |]. cbn. by rewrite IH. Qed.

Lemma SetBytes_short v : len v <= 32 → SetBytes zeroHash v = repeat 0 (32 - length v) ++ v.
Proof.
  intros Hv. unfold SetBytes. rewrite (proj2 (Z.ltb_ge 32 _)) by lia. unfold zeroHash. rewrite take_zeros. do 2 f_equal. lia.
Qed.

Lemma word_trim v : word v → SetBytes zeroHash (TrimLeftZeroes v) = v ∧ (v ≠ zeroHash → slot_ok (TrimLeftZeroes v)).
Proof.
  intros [Hl Hb]. destruct (trim_split v) as [n E]. assert (Hn : (n + length (TrimLeftZeroes v) = 32)%nat) by (apply (f_equal length) in E; rewrite length_app, repeat_length in E; lia).
  assert (E32 : SetBytes zeroHash (TrimLeftZeroes v) = v) by (rewrite SetBytes_short by lia; symmetry; etransitivity; [exact E |]; do 2 f_equal; lia). split; [done |]. intros Hz.
  split_and!; [| | lia | apply trim_idem].
  - intros E0. apply Hz. rewrite <- E32, E0. done.
  - rewrite E in Hb. by apply Forall_app in Hb as [_ Hb].
Qed.

Lemma slot_untrim v : slot_ok v → SetBytes zeroHash v ≠ zeroHash ∧ TrimLeftZeroes (SetBytes zeroHash v) = v.
Proof.
  intros (Hne & Hb & Hl & Ht). rewrite SetBytes_short by done. rewrite trim_zeros. split; [| done]. intros E. apply Hne. rewrite <- Ht, <- (trim_zeros (32 - length v)), E. done.
Qed.

(** ** What the tries hold *)

Section RootSpec.
  Context `{HF : Hasher} `{HL : !HasherLaws} {T ST E : Type} `{B : !Backend T ST E} `{W : !TrieWriter T ST E} `{L : !TrieLaws T ST E}.
  Context (pooled : encBuffer) (Hp : length (sizebuf pooled) = 9%nat).
  Abbreviation StateDB := (StateDB (T := T) (ST := ST) (E := E)).
  Abbreviation stateObject := (stateObject (ST := ST)).

(** The addresses and slots at hand, which their hashes tell apart *)
  Context (addrs keys : bytes → Prop).
  Context (Haddrs : ∀ a b, addrs a → addrs b → sum256 a = sum256 b → a = b) (Hkeys : ∀ a b, keys a → keys b → sum256 a = sum256 b → a = b).

Definition slot (S : gmap bytes bytes) (k : bytes) : bytes := SetBytes zeroHash (default [] (S !! sum256 k)).

(** The trie of slots has those that are not zero. *)
Definition stored (S : gmap bytes bytes) (f : bytes → bytes) : Prop :=
  ∀ k, keys k → S !! sum256 k = if decide (f k = zeroHash) then None else Some (TrimLeftZeroes (f k)).

(** The trie of accounts has the accounts of a world, each with the root of its slots. *)
Definition mirrors (A : gmap bytes StateAccount) (w : bytes → option account) : Prop :=
  ∀ a, addrs a →
    match w a with
    | None => A !! sum256 a = None
    | Some v => ∃ r S, A !! sum256 a = Some (MkAccount (v_nonce v) (v_balance v) r (v_codeHash v)) ∧ slots_root S r ∧ stored S (v_storage v)
    end.

Lemma slot_none S k : S !! sum256 k = None → slot S k = zeroHash.
Proof. intros E0. unfold slot. by rewrite E0. Qed.

Lemma stored_slots S f : slots_ok S → (∀ k, keys k → slot S k = f k) → stored S f.
Proof.
  intros HS Hf k Hk. rewrite <- (Hf k Hk). unfold slot. destruct (S !! sum256 k) as [v |] eqn:Ev; [change (default [] (Some v)) with v | by rewrite decide_True].
  destruct (HS _ _ Ev) as [_ Hv]. destruct (slot_untrim v Hv) as [Hz Ht]. rewrite decide_False by done. by rewrite Ht.
Qed.

Lemma slot_insert S k k' v : keys k → keys k' → word v → v ≠ zeroHash → slot (<[sum256 k := TrimLeftZeroes v]> S) k' = if decide (k' = k) then v else slot S k'.
Proof.
  intros Hk Hk' Hv Hz. unfold slot. case_decide as Ek; [subst k'; rewrite lookup_insert_eq; cbn; by apply word_trim |]. rewrite lookup_insert_ne; [done |]. intros Eh. by apply Ek, Hkeys.
Qed.

Lemma slot_delete S k k' : keys k → keys k' → slot (base.delete (sum256 k) S) k' = if decide (k' = k) then zeroHash else slot S k'.
Proof.
  intros Hk Hk'. unfold slot. case_decide as Ek; [subst k'; by rewrite lookup_delete_eq |]. rewrite lookup_delete_ne; [done |]. intros Eh. by apply Ek, Hkeys.
Qed.

(** ** Objects and their tries *)

(** The object [o] stands on the slots [S] of its trie: what it has cached and what it
    would read is there, and what it overwrites was read before or is not there.
    [d]: the account was destructed in this block. *)
Record obj_base (d : bool) (s : StateDB) (o : stateObject) (S : gmap bytes bytes) : Prop := MkBase {
  ob_trie : match o_trie o with Some t => slots_in t S | None => ∃ t, OpenStorageTrie (originalRoot s) (address o) (Root (data o)) = inr t ∧ slots_in t S end;
  ob_root : slots_root S (Root (data o));
  ob_origin : ∀ k v, keys k → originStorage o !! k = Some v → slot S k = v;
  ob_read : ∀ k, keys k → originStorage o !! k = None → if d then slot S k = zeroHash else ∃ o', obj_LoadState o k s = (slot S k, o', []);
  ob_written : ∀ k v, pendingStorage o !! k = Some v ∨ dirtyStorage o !! k = Some v → keys k ∧ word v ∧ (is_Some (originStorage o !! k) ∨ d = true)
}.

Lemma base_overwrites d s o S k v : obj_base d s o S → pendingStorage o !! k = Some v ∨ dirtyStorage o !! k = Some v → originStorage o !! k = None → slot S k = zeroHash.
Proof. intros [_ _ _ Hr Hw] Hv Ho. destruct (Hw k v Hv) as (Hk & _ & [[x Hx] | ->]); [congruence |]. by apply Hr. Qed.

Definition destructed (s : StateDB) (a : bytes) : bool := bool_decide (is_Some (stateObjectsDestruct s !! a)).

Lemma base_committed s o S k : obj_base (destructed s (address o)) s o S → keys k → committed_val s o k = default (slot S k) (pendingStorage o !! k).
Proof.
  intros [_ _ Ho Hr _] Hk. unfold committed_val, obj_GetCommittedState. destruct (pendingStorage o !! k) as [v |]; [done |]. destruct (originStorage o !! k) as [v |] eqn:Ek; [symmetry; by apply Ho |].
  specialize (Hr k Hk Ek). unfold destructed in Hr. destruct (bool_decide _); [done |]. destruct Hr as (o' & ->). done.
Qed.

Lemma base_state s o S k : obj_base (destructed s (address o)) s o S → keys k → state_val s o k = default (default (slot S k) (pendingStorage o !! k)) (dirtyStorage o !! k).
Proof. intros Hb Hk. unfold state_val, obj_GetState. destruct (dirtyStorage o !! k); [done |]. by apply base_committed. Qed.

(** ** updateTrie *)

(** Only the caches of changed slots differ. *)
Definition cached (s s' : StateDB) : Prop := ∃ st so, s' = set_caches (accounts s) st (accountsOrigin s) so s.

Lemma cached_refl s : cached s s.
Proof. exists (storages s), (storagesOrigin s). by destruct s. Qed.

Lemma cached_trans s1 s2 s3 : cached s1 s2 → cached s2 s3 → cached s1 s3.
Proof. intros (st & so & ->) (st' & so' & ->). by exists st', so'. Qed.

Lemma slot_word S k : slots_ok S → word (slot S k).
Proof.
  clear Hp. intros HS. unfold slot. assert (H : ∀ v, bytes_ok v → len v <= 32 → word (SetBytes zeroHash v)).
  { intros v Hb Hl. rewrite SetBytes_short by done. split; [rewrite length_app, repeat_length; lia |]. apply Forall_app. split; [| done]. by apply Forall_forall; intros x ->%list_elem_of_In%repeat_spec. }
  destruct (S !! sum256 k) as [v |] eqn:Ev; [| apply H; [constructor | done]]. destruct (HS _ _ Ev) as [_ (_ & Hb & Hl & _)]. by apply H.
Qed.

Lemma encode_slot_ok v : word v → ∃ b, encode_slot pooled (TrimLeftZeroes v) = Ok b.
Proof.
  intros [Hl Hb]. destruct (trim_split v) as [n E0]. unfold encode_slot. assert (Hs : bytes_ok (TrimLeftZeroes v)) by (rewrite E0 in Hb; by apply Forall_app in Hb as [_ Hb]).
  assert (Hlen : len (TrimLeftZeroes v) <= 32) by (apply (f_equal length) in E0; rewrite length_app in E0; lia). rewrite EncodeToBytes_spec; [by eexists | done |].
  split; [| done]. intros e [= <-]. pose proof (enc_string_bound (TrimLeftZeroes v) ltac:(lia)). lia.
Qed.

Lemma cache_slot_ok o kh enc prev s : word prev → ∃ s', cache_slot pooled o kh enc prev s = Ok s' ∧ cached s s'.
Proof.
  intros Hw. unfold cache_slot. destruct (encode_slot_ok prev Hw) as [b Eb]. destruct (default ∅ (storagesOrigin s !! address o) !! kh); cbn [mbind outcome_bind]; [eexists; split; [done |]; by eexists _, _ |].
  case_bool_decide; [| rewrite Eb]; cbn [mbind outcome_bind]; (eexists; split; [done |]; by eexists _, _).
Qed.

Definition with_origin (og : gmap bytes bytes) (o : stateObject) : stateObject :=
  MkObject (address o) (addrHash o) (origin o) (data o) (o_trie o) (code o) og (pendingStorage o) (dirtyStorage o) (dirtyCode o) (deleted o) (created o).

(** What is cached as original is what the trie has. *)
Definition original (og S : gmap bytes bytes) : Prop := ∀ k v, keys k → og !! k = Some v → slot S k = v.

Lemma update_slot_ok k v o t s S : slots_in t S → keys k → word v → (originStorage o !! k = None → slot S k = zeroHash) → original (originStorage o) S →
  ∃ og t' s' S', update_slot pooled k v o t s = Ok (None, with_origin og o, t', s') ∧ cached s s' ∧ slots_in t' S' ∧
    (∀ k', keys k' → slot S' k' = if decide (k' = k) then v else slot S k') ∧ original og S' ∧ ∀ k', k' ≠ k → og !! k' = originStorage o !! k'.
Proof.
  intros Ht Hk Hv Hz Ho. unfold update_slot. assert (Hprev : default zeroHash (originStorage o !! k) = slot S k) by (destruct (originStorage o !! k) as [x |] eqn:Ex; [symmetry; by apply Ho | symmetry; by apply Hz]).
  rewrite Hprev. case_bool_decide as Ev.
  - exists (originStorage o), t, s, S. split_and!; [by destruct o | apply cached_refl | done | | done | done]. intros k' Hk'. case_decide as Ek; [by subst | done].
  - set (og := <[k := v]> (originStorage o)). assert (Hog : ∀ S', (∀ k', keys k' → slot S' k' = if decide (k' = k) then v else slot S k') → original og S').
    { intros S' HS' k' v' Hk'. unfold og. rewrite HS' by done. case_decide as Ek; [subst k'; rewrite lookup_insert_eq; by intros [= <-] |]. rewrite lookup_insert_ne by done. by apply Ho. }
    assert (Hne : ∀ k', k' ≠ k → og !! k' = originStorage o !! k') by (intros k' Ek; unfold og; by rewrite lookup_insert_ne). pose proof (slot_word S k (slots_in_ok t S Ht)) as Hw.
    change (set_origin_cache k v o) with (with_origin og o). case_bool_decide as Evz.
    + destruct (DeleteStorage_in t S (address (with_origin og o)) k Ht) as (t' & -> & Ht'). cbn [mbind outcome_bind]. destruct (cache_slot_ok (with_origin og o) (sum256 k) None _ s Hw) as (s' & -> & Hs). cbn [mbind outcome_bind].
      assert (HS' : ∀ k', keys k' → slot (base.delete (sum256 k) S) k' = if decide (k' = k) then v else slot S k') by (intros k' Hk'; rewrite slot_delete, Evz by done; done).
      eexists og, t', s', _. split_and!; [done | done | exact Ht' | exact HS' | by apply Hog | done].
    + destruct (encode_slot_ok v Hv) as [b ->]. cbn [mbind outcome_bind]. destruct (UpdateStorage_in t S (address (with_origin og o)) k _ Ht (proj2 (word_trim v Hv) Evz)) as (t' & -> & Ht'). cbn [mbind outcome_bind].
      destruct (cache_slot_ok (with_origin og o) (sum256 k) b _ s Hw) as (s' & -> & Hs). cbn [mbind outcome_bind].
      assert (HS' : ∀ k', keys k' → slot (<[sum256 k := TrimLeftZeroes v]> S) k' = if decide (k' = k) then v else slot S k') by (intros k' Hk'; by apply slot_insert).
      eexists og, t', s', _. split_and!; [done | done | exact Ht' | exact HS' | by apply Hog | done].
Qed.

Lemma update_slots_ok l : ∀ o t s S, NoDup l.*1 → slots_in t S → original (originStorage o) S → (∀ k v, (k, v) ∈ l → keys k ∧ word v ∧ (originStorage o !! k = None → slot S k = zeroHash)) →
  ∃ og t' s' S', update_slots pooled l o t s = Ok (None, with_origin og o, t', s') ∧ cached s s' ∧ slots_in t' S' ∧
    (∀ k, keys k → slot S' k = default (slot S k) (list_to_map (M := gmap bytes bytes) l !! k)) ∧ original og S'.
Proof.
  induction l as [| [k v] l IH]; intros o t s S Hn Ht Ho Hl; cbn [update_slots].
  { exists (originStorage o), t, s, S. split_and!; [by destruct o | apply cached_refl | done | done | done]. }
  cbn [fmap list_fmap fst] in Hn. apply NoDup_cons in Hn as [Hk Hn]. destruct (Hl k v ltac:(left)) as (Hkk & Hv & Hz).
  destruct (update_slot_ok k v o t s S Ht Hkk Hv Hz Ho) as (og1 & t1 & s1 & S1 & -> & Hs1 & Ht1 & HS1 & Ho1 & Hog1). cbn [mbind outcome_bind].
  destruct (IH (with_origin og1 o) t1 s1 S1 Hn Ht1 Ho1) as (og & t' & s' & S' & E1 & Hs' & Ht' & HS' & Ho').
  { intros k' v' Hin. destruct (Hl k' v' ltac:(by right)) as (Hkk' & Hv' & Hz'). assert (Hne : k' ≠ k) by (intros ->; apply Hk, list_elem_of_fmap; by exists (k, v')). split_and!; [done | done |].
    cbn [originStorage with_origin]. rewrite Hog1, HS1, decide_False by done. done. }
  exists og, t', s', S'. split_and!; [exact E1 | by eapply cached_trans | done | | done]. intros k' Hk'. rewrite HS' by done. cbn [list_to_map foldr]. rewrite HS1 by done.
  destruct (decide (k' = k)) as [-> | Hne]; [| by rewrite lookup_insert_ne]. rewrite lookup_insert_eq. by rewrite (not_elem_of_list_to_map_1 l k Hk).
Qed.

Lemma base_slots_ok d s o S : obj_base d s o S → slots_ok S.
Proof. intros [Ht _ _ _ _]. destruct (o_trie o) as [t |]; [by apply slots_in_ok in Ht |]. destruct Ht as (t & _ & Ht). by apply slots_in_ok in Ht. Qed.

Lemma base_getTrie d s o S : obj_base d s o S → ∃ t ot, getTrie (obj_finalise o) s = (inr t, set_trie_cache ot (obj_finalise o)) ∧ slots_in t S.
Proof.
  intros [Ht _ _ _ _]. unfold getTrie. cbn [o_trie obj_finalise address data]. destruct (o_trie o) as [t |] eqn:Et; [exists t, (Some t); split; [| done]; unfold set_trie_cache; cbn; by rewrite <- Et at 1 |].
  destruct Ht as (t & -> & Ht). by exists t, (Some t).
Qed.

(** Nothing but the root and the caches of an object changes. *)
Definition same_account (o o' : stateObject) : Prop :=
  address o' = address o ∧ addrHash o' = addrHash o ∧ origin o' = origin o ∧ deleted o' = deleted o ∧
  data o' = MkAccount (Nonce (data o)) (Balance (data o)) (Root (data o')) (CodeHash (data o)).

Lemma updateRoot_ok d s o S : obj_base d s o S →
  ∃ o' s' S', updateRoot pooled o s = Ok (o', s') ∧ cached s s' ∧ same_account o o' ∧ slots_root S' (Root (data o')) ∧ slots_ok S' ∧
    ∀ k, keys k → slot S' k = default (default (slot S k) (pendingStorage o !! k)) (dirtyStorage o !! k).
Proof.
  intros Hb. pose proof (base_slots_ok _ _ _ _ Hb) as HS. pose proof Hb as [Ht Hr Ho _ Hw]. unfold updateRoot, updateTrie. case_decide as Ep.
  - cbn [mbind outcome_bind]. assert (Hnone : ∀ k, default (default (slot S k) (pendingStorage o !! k)) (dirtyStorage o !! k) = slot S k).
    { intros k. apply (f_equal (fun m => m !! k)) in Ep. cbn [pendingStorage obj_finalise] in Ep. rewrite lookup_union, lookup_empty in Ep. by destruct (dirtyStorage o !! k), (pendingStorage o !! k). }
    cbn [o_trie obj_finalise]. destruct (o_trie o) as [t |] eqn:Et.
    + destruct (StorageHash_in t S Ht) as (r & t' & -> & Hr' & _). cbn [mbind outcome_bind]. eexists _, s, S. split; [done |]. split_and!; [apply cached_refl | by split_and! | done | done | by intros k _; rewrite Hnone].
    + eexists _, s, S. split; [done |]. split_and!; [apply cached_refl | | done | done | by intros k _; rewrite Hnone]. split_and!; try done. cbn. by destruct (data o).
  - destruct (base_getTrie d s o S Hb) as (t & ot & -> & Htt). set (o1 := set_trie_cache ot (obj_finalise o)).
    assert (Hlist : ∀ k v, (k, v) ∈ map_to_list (pendingStorage o1) → keys k ∧ word v ∧ (originStorage o1 !! k = None → slot S k = zeroHash)).
    { intros k v Hin%elem_of_map_to_list. cbn [pendingStorage o1 set_trie_cache obj_finalise] in Hin. assert (Hkv : pendingStorage o !! k = Some v ∨ dirtyStorage o !! k = Some v) by (apply lookup_union_Some_raw in Hin as [? | [_ ?]]; [by right | by left]).
      destruct (Hw k v Hkv) as (? & ? & _). split_and!; [done | done |]. exact (base_overwrites d s o S k v Hb Hkv). }
    destruct (update_slots_ok (map_to_list (pendingStorage o1)) o1 t s S (NoDup_fst_map_to_list _) Htt Ho Hlist) as (og & t1 & s1 & S1 & E1 & Hs1 & Ht1 & HS1 & _). rewrite E1. cbn [mbind outcome_bind].
    destruct (StorageHash_in t1 S1 Ht1) as (r & t2 & -> & Hr' & _). cbn [mbind outcome_bind]. eexists _, s1, S1. split; [done |]. split_and!; [done | by split_and! | done | by apply slots_in_ok in Ht1 |].
    intros k Hk. rewrite HS1, list_to_map_to_list by done. cbn [pendingStorage o1 set_trie_cache obj_finalise]. rewrite lookup_union. by destruct (dirtyStorage o !! k), (pendingStorage o !! k).
Qed.

(** ** The loops of IntermediateRoot *)

Lemma LoadState_env o k (s s' : StateDB) : snap s' = snap s → originalRoot s' = originalRoot s → obj_LoadState o k s' = obj_LoadState o k s.
Proof. intros Hs Hr. unfold obj_LoadState, getTrie. by rewrite Hs, Hr. Qed.

Lemma base_env d s s' o S : snap s' = snap s → originalRoot s' = originalRoot s → obj_base d s o S → obj_base d s' o S.
Proof.
  intros Hs Hr [H1 H2 H3 H4 H5]. constructor; [by rewrite Hr | done | done | | done]. intros k Hk Ho. specialize (H4 k Hk Ho). destruct d; [done |]. by rewrite (LoadState_env o k s s').
Qed.

(** An object after the first loop *)
Definition rooted (d : bool) (s : StateDB) (o o' : stateObject) : Prop :=
  if deleted o then o' = o
  else same_account o o' ∧ ∃ S S', obj_base d s o S ∧ slots_root S' (Root (data o')) ∧ slots_ok S' ∧
    ∀ k, keys k → slot S' k = default (default (slot S k) (pendingStorage o !! k)) (dirtyStorage o !! k).

Lemma root_object_ok d s a o : stateObjects s !! a = Some o → (deleted o = false → ∃ S, obj_base d s o S) →
  ∃ o' s1, root_object pooled a s = Ok (set_objects (<[a := o']> (stateObjects s)) s1) ∧ cached s s1 ∧ rooted d s o o'.
Proof.
  intros Ho Hb. unfold root_object, rooted. rewrite Ho. destruct (deleted o) eqn:Ed.
  - exists o, s. split_and!; [| apply cached_refl | done]. rewrite insert_id by done. by destruct s.
  - destruct (Hb eq_refl) as [S HS]. destruct (updateRoot_ok d s o S HS) as (o' & s1 & S' & -> & Hs & Hsame & Hr & HS' & Hk). cbn [mbind outcome_bind]. exists o', s1. split_and!; [| done | done | by exists S, S'].
    destruct Hs as (st & so & ->). done.
Qed.

Lemma root_loop_ok ds s l : ∀ m s1, NoDup l → cached s s1 → (∀ a, a ∈ l → m !! a = stateObjects s !! a) →
  (∀ a, a ∈ l → ∃ o, stateObjects s !! a = Some o ∧ (deleted o = false → ∃ S, obj_base (ds a) s o S)) →
  ∃ m' s2, for_each (root_object pooled) l (set_objects m s1) = Ok (set_objects m' s2) ∧ cached s s2 ∧
    (∀ a, a ∉ l → m' !! a = m !! a) ∧ ∀ a, a ∈ l → ∃ o o', stateObjects s !! a = Some o ∧ m' !! a = Some o' ∧ rooted (ds a) s o o'.
Proof.
  induction l as [| a l IH]; intros m s1 Hn Hs Hm Hl; cbn [for_each]; [exists m, s1; split_and!; [done | done | done | by intros b ?%not_elem_of_nil] |].
  apply NoDup_cons in Hn as [Ha Hn]. destruct (Hl a ltac:(left)) as (o & Ho & Hb). pose proof Hs as (st & so & Es1).
  assert (Hm1 : stateObjects (set_objects m s1) !! a = Some o) by (cbn; rewrite Hm by left; done).
  destruct (root_object_ok (ds a) (set_objects m s1) a o Hm1) as (o' & s2 & -> & Hs2 & Hr).
  { intros Hd. destruct (Hb Hd) as [S HS]. exists S. apply (base_env _ s); [by subst s1.. | done]. }
  cbn [mbind outcome_bind stateObjects set_objects].
  assert (Hs2' : cached s (set_objects (stateObjects s) s2)) by (destruct Hs2 as (st2 & so2 & ->); subst s1; by exists st2, so2).
  destruct (IH (<[a := o']> m) (set_objects (stateObjects s) s2)) as (m' & s3 & E1 & Hs3 & Hout & Hin).
  { done. } { done. } { intros b Hb2. rewrite lookup_insert_ne by (intros ->; done). apply Hm. by right. } { intros b Hb2. apply Hl. by right. }
  exists m', s3. split_and!; [exact E1 | done | |].
  - intros b Hb2. rewrite not_elem_of_cons in Hb2. rewrite Hout by tauto. rewrite lookup_insert_ne by (intros ->; tauto). done.
  - intros b Hb2. apply elem_of_cons in Hb2 as [-> | Hb2]; [| by apply Hin]. exists o, o'. split_and!; [done | by rewrite Hout, lookup_insert_eq |].
    unfold rooted in *. destruct (deleted o); [done |]. destruct Hr as [H1 (S & S' & HS & H2)]. split; [done |]. exists S, S'. split; [| done]. apply (base_env _ (set_objects m s1)); [by subst s1.. | done].
Qed.

(** What the account trie has of an object *)
Definition entry (o : stateObject) : option StateAccount := if deleted o then None else Some (data o).

Definition writable (a : bytes) (o : stateObject) : Prop := addrs a ∧ address o = a ∧ (deleted o = false → acct_ok (data o)) ∧ ∀ d, origin o = Some d → acct_ok d.

Lemma write_object_ok a s A o : stateObjects s !! a = Some o → writable a o → accounts_in (s_trie s) A →
  ∃ s', write_object pooled a s = Ok s' ∧ accounts_in (s_trie s') (partial_alter (fun _ => entry o) (sum256 a) A) ∧ stateObjects s' = stateObjects s ∧ dbErr s' = dbErr s.
Proof.
  intros Ho (_ & Ha & Hd & Hor) HA. unfold write_object, entry. rewrite Ho. destruct (deleted o).
  - unfold deleteStateObject. rewrite Ha. destruct (DeleteAccount_in (s_trie s) A a HA) as (t & -> & Ht). cbn [mbind outcome_bind]. eexists. by split_and!.
  - unfold updateStateObject. rewrite Ha. specialize (Hd eq_refl). destruct (UpdateAccount_in (s_trie s) A a (data o) HA (acct_account _ Hd)) as (t & -> & Ht). cbn [mbind outcome_bind].
    destruct (SlimAccountRLP_ok pooled (data o) Hp Hd) as [b ->]. cbn [mbind outcome_bind accountsOrigin set_s_trie]. destruct (accountsOrigin s !! a); cbn [mbind outcome_bind]; [eexists; by split_and! |].
    destruct (origin o) as [d |] eqn:Eo; [destruct (SlimAccountRLP_ok pooled d Hp (Hor d eq_refl)) as [b' ->] |]; cbn [mbind outcome_bind]; eexists; by split_and!.
Qed.

Lemma write_loop_ok l : ∀ s A, NoDup l → accounts_in (s_trie s) A → (∀ a, a ∈ l → ∃ o, stateObjects s !! a = Some o ∧ writable a o) →
  ∃ s' A', for_each (write_object pooled) l s = Ok s' ∧ accounts_in (s_trie s') A' ∧ stateObjects s' = stateObjects s ∧ dbErr s' = dbErr s ∧
    (∀ a o, a ∈ l → stateObjects s !! a = Some o → A' !! sum256 a = entry o) ∧ ∀ h, (∀ a, a ∈ l → sum256 a ≠ h) → A' !! h = A !! h.
Proof.
  induction l as [| a l IH]; intros s A Hn HA Hl; cbn [for_each]; [exists s, A; split_and!; [done | done | done | done | by intros a o ?%not_elem_of_nil | done] |].
  apply NoDup_cons in Hn as [Ha Hn]. destruct (Hl a ltac:(left)) as (o & Ho & Hw). destruct (write_object_ok a s A o Ho Hw HA) as (s1 & -> & HA1 & Es1 & Ed1). cbn [mbind outcome_bind].
  destruct (IH s1 _ Hn HA1) as (s' & A' & E1 & HA' & Es & Ed & Hin & Hout). { intros b Hb. rewrite Es1. apply Hl. by right. }
  exists s', A'. split_and!; [done | done | congruence | congruence | |].
  - intros b ob Hb Hob. apply elem_of_cons in Hb as [-> | Hb]; [| apply Hin; [done | congruence]]. rewrite Hout; [rewrite lookup_partial_alter_eq; congruence |].
    intros c Hc Eh. apply Ha. destruct (Hl c ltac:(by right)) as (oc & _ & Hcw & _). rewrite <- (Haddrs c a Hcw (proj1 Hw) Eh). done.
  - intros h Hh. rewrite Hout by (intros c Hc; apply Hh; by right). rewrite lookup_partial_alter_ne; [done |]. apply Hh. left.
Qed.

(** ** The state *)

Record store_ok (s : StateDB) (A : gmap bytes StateAccount) : Prop := MkStore {
  so_trie : accounts_in (s_trie s) A;
  so_db : ∀ a, addrs a → load_account s a = inr (A !! sum256 a) ∧ ∀ d, A !! sum256 a = Some d → ∃ S, obj_base false s (newObject a (Some d)) S;
  so_obj : ∀ a o, stateObjects s !! a = Some o → addrs a ∧ (∀ d, origin o = Some d → acct_ok d) ∧ (deleted o = false → acct_ok (data o) ∧ ∃ S, obj_base (destructed s a) s o S);
  so_clean : ∀ a o, stateObjects s !! a = Some o → dirties (s_journal s) !! a = None → a ∉ stateObjectsPending s →
    deleted o = false ∧ A !! sum256 a = Some (data o) ∧ pendingStorage o = ∅;
  so_pending : ∀ a, a ∈ stateObjectsPending s → is_Some (stateObjects s !! a);
  so_destruct : ∀ a, is_Some (stateObjectsDestruct s !! a) → is_Some (stateObjects s !! a)
}.

(** What is read does not depend on what was written. *)
Lemma LoadState_value o1 o2 k (s : StateDB) v o' errs : address o2 = address o1 → addrHash o2 = addrHash o1 → o_trie o2 = o_trie o1 → Root (data o2) = Root (data o1) →
  obj_LoadState o1 k s = (v, o', errs) → ∃ o'', obj_LoadState o2 k s = (v, o'', errs).
Proof.
  intros Ea Eh Et Er. unfold obj_LoadState, getTrie. rewrite Eh, Et, Er, Ea. destruct (match snap s with Some _ => _ | None => _ end) as [[value err] es]. destruct err; [| by intros [= <- _ <-]; eexists].
  destruct (o_trie o1) as [t |].
  - rewrite Ea. destruct (GetStorage t (address o1) k); intros [= <- _ <-]; by eexists.
  - destruct (OpenStorageTrie _ _ _) as [e | t]; [intros [= <- _ <-]; by eexists |]. cbn [address set_trie_cache]. rewrite Ea. destruct (GetStorage t (address o1) k); intros [= <- _ <-]; by eexists.
Qed.

Lemma base_finalise d s o S c1 c2 : obj_base d s o S → obj_base d s (set_flags c1 c2 (obj_finalise o)) S.
Proof.
  intros [H1 H2 H3 H4 H5]. constructor; [done | done | done | |].
  - intros k Hk Ho. specialize (H4 k Hk Ho). destruct d; [done |]. destruct H4 as (o' & E0). by eapply LoadState_value; [| | | | exact E0].
  - cbn [pendingStorage dirtyStorage set_flags obj_finalise originStorage]. intros k v [Hv | Hv]; [| by rewrite lookup_empty in Hv]. apply H5. apply lookup_union_Some_raw in Hv as [? | [_ ?]]; [by right | by left].
Qed.

Lemma finalise_pending l : ∀ (s : StateDB),
  let t := foldl (fun s a => finalise_address true a s) s l in
  (∀ a, is_Some (stateObjects t !! a) ↔ is_Some (stateObjects s !! a)) ∧ ∀ a, a ∈ stateObjectsPending t ↔ a ∈ stateObjectsPending s ∨ (a ∈ l ∧ is_Some (stateObjects s !! a)).
Proof.
  induction l as [| b l IH]; intros s; cbn [foldl]; [split; [done |]; intros a; split; [by left | intros [? | [?%not_elem_of_nil _]]; done] |].
  assert (Hb : (∀ a, is_Some (stateObjects (finalise_address true b s) !! a) ↔ is_Some (stateObjects s !! a)) ∧ ∀ a, a ∈ stateObjectsPending (finalise_address true b s) ↔ a ∈ stateObjectsPending s ∨ (a = b ∧ is_Some (stateObjects s !! a))).
  { unfold finalise_address. destruct (stateObjects s !! b) as [o |] eqn:Eo; [| split; [done |]; intros a; split; [by left | intros [? | [-> [? ?]]]; [done | congruence]]].
    assert (Hobj : ∀ (o' : stateObject) a, is_Some (<[b := o']> (stateObjects s) !! a) ↔ is_Some (stateObjects s !! a)) by (intros o' a; rewrite lookup_insert_is_Some; split; [intros [<- | [_ ?]]; [by eexists | done] | destruct (decide (b = a)); tauto]).
    assert (Hpend : ∀ a, a ∈ stateObjectsPending s ∪ {[b]} ↔ a ∈ stateObjectsPending s ∨ (a = b ∧ is_Some (stateObjects s !! a))) by (intros a; rewrite elem_of_union, elem_of_singleton; split; [intros [? | ->]; [by left | right; split; [done | by eexists]] | tauto]).
    cbn [andb]. destruct (empty o); [destruct (stateObjectsDestruct s !! address o) |]; (split; [apply Hobj | apply Hpend]). }
  destruct Hb as [Hb1 Hb2]. specialize (IH (finalise_address true b s)) as [I1 I2]. split; intros a; [by rewrite I1, Hb1 |]. rewrite I2, Hb1, Hb2, elem_of_cons. tauto.
Qed.

Lemma tree_root_word a : word (tree_root a).
Proof. unfold tree_root. assert (He : word EmptyRootHash) by (split; [apply length_be_bytes | apply be_bytes_ok]). destruct a; [done | split; [apply sum256_length | apply sum256_bytes]..]. Qed.

Lemma rooted_acct o o' S : same_account o o' → slots_root S (Root (data o')) → acct_ok (data o) → acct_ok (data o').
Proof. intros (_ & _ & _ & _ & E0) (a & _ & _ & Er) (H1 & H2 & _ & H4 & H5). rewrite E0. split_and!; try done; cbn; try lia; rewrite Er; apply tree_root_word. Qed.

(** ** After Finalise *)

Record settled (t : StateDB) (A : gmap bytes StateAccount) : Prop := MkSettled {
  se_trie : accounts_in (s_trie t) A;
  se_db : ∀ a, addrs a → stateObjects t !! a = None → load_account t a = inr (A !! sum256 a) ∧ destructed t a = false ∧ ∀ d, A !! sum256 a = Some d → ∃ S, obj_base false t (newObject a (Some d)) S;
  se_obj : ∀ a o, stateObjects t !! a = Some o → addrs a ∧ address o = a ∧ (∀ d, origin o = Some d → acct_ok d) ∧ (deleted o = false → acct_ok (data o) ∧ ∃ S, obj_base (destructed t a) t o S);
  se_clean : ∀ a o, stateObjects t !! a = Some o → a ∉ stateObjectsPending t → deleted o = false ∧ A !! sum256 a = Some (data o) ∧ ∃ S, obj_base (destructed t a) t o S ∧ ∀ k, keys k → state_val t o k = slot S k;
  se_pending : ∀ a, a ∈ stateObjectsPending t → is_Some (stateObjects t !! a)
}.

Lemma final_base s t o a : destructed t a = destructed s a → empty o = false → snap t = snap s → originalRoot t = originalRoot s →
  (deleted o = false → acct_ok (data o) ∧ ∃ S, obj_base (destructed s a) s o S) → deleted (final_object o) = false → acct_ok (data o) ∧ ∃ S, obj_base (destructed t a) t (final_object o) S.
Proof.
  intros Hd He Hs Hr Hb Hdel. unfold final_object in *. rewrite He in *. destruct (Hb Hdel) as [Hacct [S HS]]. split; [done |]. exists S. rewrite Hd. apply (base_env _ s); [done | done |]. by apply base_finalise.
Qed.

Lemma Finalise_settled s A : inv s → tidy s → store_ok s A → settled (Finalise true s) A.
Proof.
  intros Hi Hty [S1 S2 S3 S4 S5 S6]. set (D := dom (dirties (s_journal s))).
  pose proof (Finalise_left s Hi : loop_left D s (foldl (fun s a => finalise_address true a s) s (elements D))) as Lf.
  destruct (finalise_pending (elements D) s) as [_ Hpend]. unfold Finalise. fold D. set (u := foldl _ s (elements D)) in *. set (t := clearJournalAndRefund u).
  destruct (clear_frame u) as (Fo & [F1 F2 F3 F4] & _). fold t in Fo, F1, F2, F3, F4. assert (Fp : stateObjectsPending t = stateObjectsPending u) by (unfold t, clearJournalAndRefund; by case_if).
  destruct Lf as [Lo Ld _ (E1 & E2 & E3) _ _]. rewrite <- Fo in Lo.
  assert (Hs : snap t = snap s) by congruence. assert (Hr : originalRoot t = originalRoot s) by congruence. assert (Htr : s_trie t = s_trie s) by congruence.
  assert (Hde : ∀ a, (∀ o, stateObjects s !! a = Some o → empty o = false ∨ a ∉ D) → destructed t a = destructed s a) by (intros a Ha; unfold destructed; by rewrite <- F4, Ld).
  assert (Hld : ∀ a, load_account t a = load_account s a) by (intros a; unfold load_account; by rewrite Htr, Hs).
  assert (Hpd : ∀ a, a ∈ stateObjectsPending t ↔ a ∈ stateObjectsPending s ∨ a ∈ D ∧ is_Some (stateObjects s !! a)) by (intros a; rewrite Fp, Hpend, elem_of_elements; done).
  constructor.
  - by rewrite Htr.
  - intros a Ha Hn. destruct (S2 a Ha) as [Hl Hd]. rewrite Hld. assert (Hns : stateObjects s !! a = None) by (rewrite Lo in Hn; case_decide; [by destruct (stateObjects s !! a) | done]).
    split_and!; [done | |].
    + rewrite Hde by (intros o Ho; congruence). unfold destructed. apply bool_decide_false. intros [o Ho]%S6. congruence.
    + intros d Hd'. destruct (Hd d Hd') as [S HS]. exists S. by apply (base_env _ s).
  - intros a o Ho. rewrite Lo in Ho. case_decide as Ha.
    + destruct (stateObjects s !! a) as [o0 |] eqn:Eo; [| done]. injection Ho as <-. destruct (S3 a o0 Eo) as (H1 & H3 & H4). destruct (final_flags o0) as [-> ->].
      assert (Hor : origin (final_object o0) = origin o0) by (unfold final_object; by destruct (empty o0)). rewrite Hor. split_and!; [done | by apply (iv_addr _ Hi), obj_at_live | done |].
      destruct (empty o0) eqn:Ee; [rewrite final_live, Ee; done |]. apply (final_base s); try done. apply Hde. intros o Ho. left. congruence.
    + destruct (S3 a o Ho) as (H1 & H3 & H4). split_and!; [done | by apply (iv_addr _ Hi), obj_at_live | done |]. intros Hdl. destruct (H4 Hdl) as [Hacct [S HS]]. split; [done |]. exists S. rewrite Hde by (by intros ? _; right). by apply (base_env _ s).
  - intros a o Ho Hnp. rewrite Hpd in Hnp. rewrite Lo in Ho. case_decide as Ha; [destruct (stateObjects s !! a) as [o0 |] eqn:Eo; [exfalso; apply Hnp; right; split; [done | by eexists] | done] |].
    destruct (S4 a o Ho) as (H1 & H2 & H3); [by apply not_elem_of_dom | tauto |]. destruct (S3 a o Ho) as (_ & _ & H4). destruct (H4 H1) as [_ [S HS]].
    pose proof (iv_addr _ Hi a o (obj_at_live _ _ _ Ho)) as Hadr. assert (Hda : destructed t a = destructed s a) by (apply Hde; by intros ? _; right). split_and!; [done | done |]. exists S. rewrite Hda. split; [by apply (base_env _ s) |].
    assert (Henv : env_at t s (address o)) by (split_and!; [done | done |]; rewrite Hadr, <- F4; apply Ld; by intros ? _; right).
    intros k Hk. rewrite (state_env t s o k Henv), (ty_object _ Hty a o (obj_at_live _ _ _ Ho) H1) by (by apply not_elem_of_dom).
    rewrite (base_committed s o S k) by (by rewrite ?Hadr). by rewrite H3, lookup_empty.
  - intros a Ha. apply Hpd in Ha. rewrite Lo. assert (Hsome : is_Some (stateObjects s !! a)) by (destruct Ha as [Ha | [_ Ha]]; [by apply S5 | done]). destruct Hsome as [o ->]. case_decide; by eexists.
Qed.

(** ** The root *)

Section Settled.
  Context (t : StateDB) (A A' : gmap bytes StateAccount) (m : gmap bytes stateObject) (Ht : settled t A).
  Context (Hroot : ∀ a, a ∈ stateObjectsPending t → ∃ o o', stateObjects t !! a = Some o ∧ m !! a = Some o' ∧ rooted (destructed t a) t o o').
  Context (Hin : ∀ a o, a ∈ stateObjectsPending t → m !! a = Some o → A' !! sum256 a = entry o).
  Context (Hout : ∀ h, (∀ a, a ∈ stateObjectsPending t → sum256 a ≠ h) → A' !! h = A !! h).

Lemma outside_same a : addrs a → a ∉ stateObjectsPending t → A' !! sum256 a = A !! sum256 a.
Proof.
  intros Ha Hn. apply Hout. intros b Hb Eh. apply Hn. destruct (se_pending _ _ Ht b Hb) as [o Ho]. destruct (se_obj _ _ Ht b o Ho) as (Hab & _). by rewrite <- (Haddrs b a Hab Ha Eh).
Qed.

Lemma pending_mirrored a o : stateObjects t !! a = Some o → a ∈ stateObjectsPending t →
  if deleted o then A' !! sum256 a = None
  else ∃ r S, A' !! sum256 a = Some (MkAccount (Nonce (data o)) (Balance (data o)) r (CodeHash (data o))) ∧ slots_root S r ∧ stored S (state_val t o).
Proof.
  intros Ho Ha. destruct (Hroot a Ha) as (o0 & o' & Ho0 & Hm & Hr). rewrite Ho in Ho0. injection Ho0 as <-. rewrite (Hin a o' Ha Hm). unfold rooted, entry in *. destruct (se_obj _ _ Ht a o Ho) as (_ & Hadr & _).
  destruct (deleted o) eqn:Ed; [subst o'; by rewrite Ed |]. destruct Hr as [(_ & _ & _ & Hd & Hdata) (S & S' & Hb & HR & HS & Hk)]. rewrite Hd, Ed. exists (Root (data o')), S'. split_and!; [by rewrite Hdata at 1 | done |].
  apply stored_slots; [done |]. intros k Hkk. rewrite Hk by done. symmetry. apply base_state; [by rewrite Hadr | done].
Qed.

Lemma settled_mirrors : mirrors A' (view t).
Proof.
  intros a Ha. unfold view, live_at, obj_at. destruct (stateObjects t !! a) as [o |] eqn:Eo.
  - destruct (decide (a ∈ stateObjectsPending t)) as [Hp' | Hn].
    + pose proof (pending_mirrored a o Eo Hp') as H. by destruct (deleted o).
    + destruct (se_clean _ _ Ht a o Eo Hn) as (Hd & HA & S & Hb & Hk). rewrite Hd. cbn. exists (Root (data o)), S. split_and!.
      * rewrite (outside_same a Ha Hn), HA. by destruct (data o).
      * apply Hb.
      * apply stored_slots; [by eapply base_slots_ok |]. intros k Hkk. symmetry. by apply Hk.
  - destruct (se_db _ _ Ht a Ha Eo) as (Hl & Hd & HS). assert (Hn : a ∉ stateObjectsPending t) by (intros [o Ho]%(se_pending _ _ Ht); congruence). rewrite Hl.
    destruct (A !! sum256 a) as [d |] eqn:EA; cbn; [| by rewrite (outside_same a Ha Hn)]. destruct (HS d eq_refl) as [S Hb]. exists (Root d), S. split_and!.
    + rewrite (outside_same a Ha Hn), EA. by destruct d.
    + apply Hb.
    + apply stored_slots; [by eapply base_slots_ok |]. intros k Hkk. symmetry. rewrite (base_state t (newObject a (Some d)) S k); [done | cbn [address newObject]; by rewrite Hd | done].
Qed.
End Settled.

Lemma IntermediateRoot_settled s A : settled (Finalise true s) A →
  ∃ root s' A', IntermediateRoot pooled true s = Ok (root, s') ∧ accounts_root A' root ∧ mirrors A' (view (Finalise true s)) ∧ dbErr s' = dbErr (Finalise true s) ∧ accounts_in (s_trie s') A' ∧
    ∀ h, (∀ a, a ∈ stateObjectsPending (Finalise true s) → sum256 a ≠ h) → A' !! h = A !! h.
Proof.
  intros Ht. unfold IntermediateRoot. set (t := Finalise true s) in *. set (l := elements (stateObjectsPending t)).
  assert (Hl : ∀ a, a ∈ l ↔ a ∈ stateObjectsPending t) by (intros a; apply elem_of_elements).
  destruct (root_loop_ok (destructed t) t l (stateObjects t) t (NoDup_elements _) (cached_refl t)) as (m & s1 & E1 & Hs1 & _ & Hroot).
  { done. } { intros a Ha%Hl. destruct (se_pending _ _ Ht a Ha) as [o Ho]. exists o. split; [done |]. intros Hd. by apply (se_obj _ _ Ht a o Ho). }
  replace (set_objects (stateObjects t) t) with t in E1 by (by destruct t). rewrite E1. cbn [mbind outcome_bind]. destruct Hs1 as (st & so & ->). cbn [stateObjectsPending set_objects set_caches]. fold l.
  set (s2 := set_objects m _). destruct (write_loop_ok l s2 A (NoDup_elements _) (se_trie _ _ Ht)) as (s3 & A' & -> & HA' & _ & Ed & Hin & Hout).
  { intros a Ha. destruct (Hroot a Ha) as (o & o' & Ho & Hm & Hr). exists o'. split; [done |]. destruct (se_obj _ _ Ht a o Ho) as (H1 & H2 & H3 & H4). unfold rooted in Hr. destruct (deleted o) eqn:Edl; [subst o'; split_and!; [done | done | congruence | done] |]. destruct (H4 eq_refl) as [Hacct _].
    destruct Hr as [Hsame (S & S' & _ & HR & _)]. pose proof Hsame as (E2 & _ & E3 & _). split_and!; [done | congruence | intros _; by eapply rooted_acct | by rewrite E3]. }
  cbn [mbind outcome_bind s_trie set_objPending]. destruct (AccountHash_in (s_trie s3) A' HA') as (r & tr & -> & Hr & HA2). cbn [mbind outcome_bind]. eexists r, _, A'. split; [done |]. split_and!; [done | | done | done |].
  - eapply (settled_mirrors t A A' m Ht).
    + intros a Ha. apply Hroot. by apply Hl.
    + intros a o Ha Hm. apply Hin; [by apply Hl | done].
    + intros h Hh. apply Hout. intros a Ha%Hl. by apply Hh.
  - intros h Hh. apply Hout. intros a Ha%Hl. by apply Hh.
Qed.
End RootSpec.
