(* ===== verification/StateStore.v ===== *)
(** * The state stands on its tries

    The invariant that IntermediateRoot relies on, and that every operation of the state
    keeps, reverts included: each object stands on the slots of its storage trie, and the
    journal leads back to objects that do. *)

From S2P Require Import Prelude RlpRaw RlpEncode TrieNode TrieSpec TrieOps TrieRefine TrieHash StateAccess State StateWorld StateRevert StateSnapshot StateTidy StateSpec StateFinalise SecureTrie StateRoot StateRootSpec.

Lemma union_inside (a : bytes) (X : gset bytes) : a ∈ X → {[a]} ∪ X = X.
Proof. set_solver. Qed.

Lemma union_undone (a : bytes) (X : gset bytes) : a ∉ X → ({[a]} ∪ X) ∖ {[a]} = X.
Proof. set_solver. Qed.

Section Store.
  Context `{HF : Hasher} `{HL : !HasherLaws} {T ST E : Type} `{B : !Backend T ST E} `{W : !TrieWriter T ST E} `{L : !TrieLaws T ST E}.
  Abbreviation StateDB := (StateDB (T := T) (ST := ST) (E := E)).
  Abbreviation stateObject := (stateObject (ST := ST)).
  Abbreviation journalEntry := (journalEntry (ST := ST)).
  Context (addrs keys : bytes → Prop).
  Abbreviation obj_base := (obj_base keys).

(** ** The database *)

(** What a new state reads: the accounts of the trie, each over the trie of its slots *)
Record database_ok (s0 : StateDB) (A : gmap bytes StateAccount) : Prop := MkDatabase {
  db_trie : accounts_in (s_trie s0) A;
  db_account : ∀ a, addrs a → load_account s0 a = inr (A !! sum256 a) ∧ ∀ d, A !! sum256 a = Some d → acct_ok d ∧ ∃ S, obj_base false s0 (newObject a (Some d)) S;
  db_absent : ∀ a, addrs a → A !! sum256 a = None → ∃ S, obj_base false s0 (fresh_object a) S;
  db_empty : ∀ a, addrs a → ∃ t, OpenStorageTrie (originalRoot s0) a EmptyRootHash = inr t ∧ slots_in t ∅
}.

  Context (s0 : StateDB) (A : gmap bytes StateAccount) (Hdb : database_ok s0 A).

(** ** Objects *)

Record obj_shape (d : bool) (a : bytes) (o : stateObject) : Prop := MkShape {
  os_addrs : addrs a;
  os_address : address o = a;
  os_code : bytes_ok (CodeHash (data o));
  os_origin : ∀ d, origin o = Some d → acct_ok d;
  os_base : deleted o = false → ∃ S, obj_base d s0 o S
}.

Lemma base_cong d (s : StateDB) o1 o2 S : address o2 = address o1 → addrHash o2 = addrHash o1 → o_trie o2 = o_trie o1 → Root (data o2) = Root (data o1) →
  originStorage o2 = originStorage o1 → pendingStorage o2 = pendingStorage o1 → dirtyStorage o2 = dirtyStorage o1 → obj_base d s o1 S → obj_base d s o2 S.
Proof.
  intros E1 E2 E3 E4 E5 E6 E7 [H1 H2 H3 H4 H5]. constructor; [by rewrite E3, E1, E4 | by rewrite E4 | by rewrite E5 | | by rewrite E5, E6, E7].
  rewrite E5. intros k Hk Ho. specialize (H4 k Hk Ho). destruct d; [done |]. destruct H4 as (o' & Hl). by eapply LoadState_value; [| | | | exact Hl].
Qed.

Lemma shape_setData d a o n b : obj_shape d a o → obj_shape d a (with_data (MkAccount n b (Root (data o)) (CodeHash (data o))) o).
Proof. intros [H1 H2 H3 H4 H5]. constructor; try done. intros Hd. destruct (H5 Hd) as [S HS]. exists S. by eapply base_cong; [.. | exact HS]. Qed.

Lemma shape_setCode d a o h c : bytes_ok h → obj_shape d a o → obj_shape d a (setCode h c o).
Proof. intros Hh [H1 H2 H3 H4 H5]. constructor; try done. intros Hd. destruct (H5 Hd) as [S HS]. exists S. by eapply base_cong; [.. | exact HS]. Qed.

Lemma shape_code_cache d a o c : obj_shape d a o → obj_shape d a (set_code_cache c o).
Proof. intros [H1 H2 H3 H4 H5]. constructor; try done. intros Hd. destruct (H5 Hd) as [S HS]. exists S. by eapply base_cong; [.. | exact HS]. Qed.

(** A slot that was read, or that the destructed account cannot have *)
Definition touched (d : bool) (o : stateObject) (k : bytes) : Prop := keys k ∧ (is_Some (originStorage o !! k) ∨ d = true).

Lemma shape_setState d a o k v : touched d o k → word v → obj_shape d a o → obj_shape d a (setState k v o).
Proof.
  intros [Hk Ht] Hv [H1 H2 H3 H4 H5]. constructor; try done. intros Hd. destruct (H5 Hd) as [S [B1 B2 B3 B4 B5]]. exists S. constructor; try done.
  - intros k' Hk' Ho. specialize (B4 k' Hk' Ho). destruct d; [done |]. destruct B4 as (o' & Hl). by eapply LoadState_value; [| | | | exact Hl].
  - cbn [pendingStorage dirtyStorage setState originStorage]. intros k' v' [Hp | Hp]; [apply B5; by left |]. apply lookup_insert_Some in Hp as [[<- <-] | [_ Hp]]; [done | apply B5; by right].
Qed.

(** ** Reading slots *)

Definition grown (o o' : stateObject) : Prop := ∀ k, is_Some (originStorage o !! k) → is_Some (originStorage o' !! k).

Lemma LoadState_caches o k s v o' : obj_LoadState o k s = (v, o', []) → ∃ ot, o' = set_origin_cache k v (set_trie_cache ot o) ∧
  (ot = o_trie o ∨ ∃ t, ot = Some t ∧ o_trie o = None ∧ OpenStorageTrie (originalRoot s) (address o) (Root (data o)) = inr t).
Proof.
  unfold obj_LoadState, getTrie. destruct (match snap s with Some _ => _ | None => _ end) as [[value err] es]. destruct err.
  - destruct (o_trie o) as [t |] eqn:Et.
    + destruct (GetStorage t (address o) k); [intros [= _ _ H]; by destruct es |]. intros [= <- <- ->]. exists (Some t). split; [unfold set_trie_cache; by rewrite <- Et; destruct o | by left].
    + destruct (OpenStorageTrie _ _ _) as [e | t] eqn:Eo; [intros [= _ _ H]; by destruct es |]. cbn [address set_trie_cache]. destruct (GetStorage t (address o) k); [intros [= _ _ H]; by destruct es |].
      intros [= <- <- ->]. exists (Some t). split; [done | right; by exists t].
  - intros [= <- <- ->]. exists (o_trie o). split; [unfold set_trie_cache; by destruct o | by left].
Qed.

Lemma LoadState_trie o1 o2 k (s : StateDB) v o' errs : address o2 = address o1 → addrHash o2 = addrHash o1 → (getTrie o2 s).1 = (getTrie o1 s).1 →
  obj_LoadState o1 k s = (v, o', errs) → ∃ o'', obj_LoadState o2 k s = (v, o'', errs).
Proof.
  intros Ea Eh Et. unfold obj_LoadState. rewrite Eh. destruct (match snap s with Some _ => _ | None => _ end) as [[value err] es]. destruct err; [| by intros [= <- _ <-]; eexists].
  pose proof (getTrie_frame o1 s) as F1. pose proof (getTrie_frame o2 s) as F2. destruct (getTrie o1 s) as [r1 p1], (getTrie o2 s) as [r2 p2]. cbn in Et. subst r2. destruct F1 as [F1 _], F2 as [F2 _].
  destruct r1 as [e | t]; [intros [= <- _ <-]; by eexists |]. rewrite F1, F2, Ea. destruct (GetStorage t (address o1) k); intros [= <- _ <-]; by eexists.
Qed.

Lemma base_loaded d o k S ot : keys k → obj_base d s0 o S → (ot = o_trie o ∨ ∃ t, ot = Some t ∧ o_trie o = None ∧ OpenStorageTrie (originalRoot s0) (address o) (Root (data o)) = inr t) →
  obj_base d s0 (set_origin_cache k (slot S k) (set_trie_cache ot o)) S.
Proof.
  intros Hk [H1 H2 H3 H4 H5] Hot. constructor; cbn [o_trie set_origin_cache set_trie_cache originalRoot address data originStorage pendingStorage dirtyStorage].
  - destruct Hot as [-> | (t & -> & Et & Eo)]; [done |]. rewrite Et in H1. destruct H1 as (t' & E1 & Ht). congruence.
  - done.
  - intros k' v' Hk'. destruct (decide (k' = k)) as [-> | Hne]; [rewrite lookup_insert_eq; by intros [= <-] | rewrite lookup_insert_ne by done; by apply H3].
  - intros k' Hk' Ho. apply lookup_insert_None in Ho as [Ho _]. specialize (H4 k' Hk' Ho). destruct d; [done |]. destruct H4 as (o' & Hl). eapply LoadState_trie; [| | | exact Hl]; [done | done |].
    unfold getTrie. cbn [o_trie set_origin_cache set_trie_cache originalRoot address data]. destruct Hot as [-> | (t & -> & -> & ->)]; [| done]. destruct (o_trie o); [done |]. by destruct (OpenStorageTrie _ _ _).
  - intros k' v' Hv. destruct (H5 k' v' Hv) as (? & ? & [Hs | ->]); (split_and!; [done | done |]); [left | by right]. apply lookup_insert_is_Some'. by right.
Qed.

(** A state that reads what [s0] reads *)
Definition env0 (s : StateDB) : Prop := s_trie s = s_trie s0 ∧ snap s = snap s0 ∧ originalRoot s = originalRoot s0.

Lemma committed_shape s a o k v o' s' : env0 s → obj_shape (destructed s a) a o → deleted o = false → keys k → obj_GetCommittedState o k s = (v, o', s') →
  s' = s ∧ word v ∧ obj_shape (destructed s a) a o' ∧ grown o o' ∧ touched (destructed s a) o' k ∧ deleted o' = false ∧ dirtyStorage o' = dirtyStorage o.
Proof.
  intros (_ & Es & Er) Hsh Hd Hk. pose proof Hsh as [H1 H2 H3 H4 H5]. destruct (H5 Hd) as [S HS]. pose proof HS as [B1 B2 B3 B4 B5]. pose proof (slot_word S k (base_slots_ok _ _ _ _ _ HS)) as Hw. unfold obj_GetCommittedState.
  destruct (pendingStorage o !! k) as [x |] eqn:Ep.
  { intros [= <- <- <-]. destruct (B5 k x (or_introl Ep)) as (_ & Hx & Hto). split_and!; [done | done | done | by intros ? | by split | done | done]. }
  destruct (originStorage o !! k) as [x |] eqn:Eo.
  { intros [= <- <- <-]. rewrite <- (B3 k x Hk Eo). split_and!; [done | done | done | by intros ? | split; [done |]; left; by eexists | done | done]. }
  specialize (B4 k Hk Eo). rewrite H2. fold (destructed s a). destruct (destructed s a) eqn:Ed.
  { intros [= <- <- <-]. split_and!; [done | | done | by intros ? | by split; [| right] | done | done]. by rewrite <- B4. }
  destruct B4 as (o1 & E1). rewrite (LoadState_env o k s0 s Es Er), E1. cbn [foldl]. intros [= <- <- <-]. destruct (LoadState_caches o k s0 _ _ E1) as (ot & -> & Hot).
  split_and!; [done | done | | | | done | done].
  - constructor; try done. intros _. exists S. by apply base_loaded.
  - intros k' Hs. cbn. apply lookup_insert_is_Some'. by right.
  - split; [done |]. left. cbn. rewrite lookup_insert_eq. by eexists.
Qed.

Lemma state_shape s a o k v o' s' : env0 s → obj_shape (destructed s a) a o → deleted o = false → keys k → obj_GetState o k s = (v, o', s') →
  s' = s ∧ word v ∧ obj_shape (destructed s a) a o' ∧ grown o o' ∧ touched (destructed s a) o' k ∧ deleted o' = false.
Proof.
  intros He Hsh Hd Hk. unfold obj_GetState. destruct (dirtyStorage o !! k) as [x |] eqn:Ex.
  - intros [= <- <- <-]. pose proof Hsh as [_ _ _ _ H5]. destruct (H5 Hd) as [S [_ _ _ _ B5]]. destruct (B5 k x (or_intror Ex)) as (_ & Hx & Hto). split_and!; [done | done | done | by intros ? | by split | done].
  - intros Hg. by destruct (committed_shape s a o k v o' s' He Hsh Hd Hk Hg) as (? & ? & ? & ? & ? & ? & ?).
Qed.

Lemma code_shape s a d o c o' s' : obj_shape d a o → obj_Code o s = (c, o', s') → obj_shape d a o' ∧ grown o o' ∧ deleted o' = deleted o ∧ (∃ e, s' = set_dbErr e s) ∧ CodeHash (data o') = CodeHash (data o).
Proof.
  intros Hsh. assert (Hid : ∃ e, s = set_dbErr e s) by (exists (dbErr s); by destruct s). unfold obj_Code. assert (Hg : grown o o) by by intros ?. destruct (code o); [by intros [= _ <- <-] |]. case_bool_decide; [by intros [= _ <- <-] |].
  destruct (ContractCode _ _) as [c1 err]. intros [= _ <- <-]. split_and!; [by apply shape_code_cache | by intros ? | done | | done]. destruct err; [| done]. unfold setError. destruct (dbErr s); [done | by eexists].
Qed.

(** ** What the journal leads back to *)

Definition grows (m m' : gmap bytes stateObject) : Prop := ∀ a o, m !! a = Some o → ∃ o', m' !! a = Some o' ∧ grown o o'.

(** The entries of changes of an object, in a state with objects [m] and destructed
    accounts [de] *)
Definition fits (de : gset bytes) (m : gmap bytes stateObject) (e : journalEntry) : Prop :=
  match e with
  | balanceChange a _ | nonceChange a _ => is_Some (m !! a)
  | codeChange a _ h => is_Some (m !! a) ∧ bytes_ok h
  | storageChange a k v => (∃ o, m !! a = Some o ∧ touched (bool_decide (a ∈ de)) o k) ∧ word v
  | createObjectChange _ | resetObjectChange _ _ _ _ _ _ _ _ => False
  | _ => True
  end.

(** Undoing the entries, newest first, restores objects that stand on their tries. *)
Fixpoint revertible (pend : gset bytes) (es : list journalEntry) (m : gmap bytes stateObject) (de : gset bytes) : Prop :=
  match es with
  | [] => True
  | (createObjectChange a) :: es => (a ∉ pend) ∧ (a ∉ de) ∧ revertible pend es (base.delete a m) de
  | (resetObjectChange a prev pd _ _ _ _ _) :: es =>
      let de := if pd then de else de ∖ {[a]} in
      obj_shape (bool_decide (a ∈ de)) a prev ∧ revertible pend es (<[a := prev]> m) de
  | e :: es => fits de m e ∧ revertible pend es m de
  end.

Lemma revertible_fits pend e es m de : fits de m e → revertible pend es m de → revertible pend (e :: es) m de.
Proof. by destruct e. Qed.

Lemma grown_trans o1 o2 o3 : grown o1 o2 → grown o2 o3 → grown o1 o3.
Proof. intros H1 H2 k Hk. by apply H2, H1. Qed.

Lemma grows_insert m m' a (o : stateObject) : grows m m' → grows (<[a := o]> m) (<[a := o]> m').
Proof.
  intros Hg b ob Hb. apply lookup_insert_Some in Hb as [[<- <-] | [Hne Hb]]; [exists o; split; [by rewrite lookup_insert_eq | by intros ?] |]. rewrite lookup_insert_ne by done. by apply Hg.
Qed.

Lemma grows_delete m m' a : grows m m' → grows (base.delete a m) (base.delete a m').
Proof. intros Hg b ob Hb. apply lookup_delete_Some in Hb as [Hne Hb]. rewrite lookup_delete_ne by done. by apply Hg. Qed.

Lemma grows_put m a o' : (∀ o, m !! a = Some o → grown o o') → grows m (<[a := o']> m).
Proof.
  intros Ho b ob Hb. destruct (decide (b = a)) as [-> | Hne]; [exists o'; split; [by rewrite lookup_insert_eq | by apply Ho] |]. exists ob. split; [by rewrite lookup_insert_ne | by intros ?].
Qed.

Lemma fits_grows de m m' e : grows m m' → fits de m e → fits de m' e.
Proof.
  intros Hg. assert (Hs : ∀ a, is_Some (m !! a) → is_Some (m' !! a)) by (intros a [o Ho]; destruct (Hg a o Ho) as (o' & -> & _); by eexists).
  destruct e; cbn; try done; [by apply Hs | by apply Hs | | intros [? ?]; split; [by apply Hs | done]].
  intros [(o & Ho & Hk & Ht) Hv]. split; [| done]. destruct (Hg _ _ Ho) as (o' & Ho' & Hgo). exists o'. split; [done |]. split; [done |]. destruct Ht; [left; by apply Hgo | by right].
Qed.

Lemma revertible_grows pend es : ∀ m m' de, grows m m' → revertible pend es m de → revertible pend es m' de.
Proof.
  induction es as [| e es IH]; intros m m' de Hg; [done |].
  assert (Hf : fits de m e ∧ revertible pend es m de → fits de m' e ∧ revertible pend es m' de) by (intros [? ?]; split; [by eapply fits_grows | by eapply IH]).
  destruct e; try exact Hf; cbn [revertible].
  - intros (? & ? & ?). split_and!; [done | done |]. by eapply IH; [apply grows_delete |].
  - intros (? & ?). split; [done |]. by eapply IH; [apply grows_insert |].
Qed.

(** ** States *)

Record shaped (m : gmap bytes stateObject) (pend de : gset bytes) (es : list journalEntry) : Prop := MkShaped {
  sp_obj : ∀ a o, m !! a = Some o → obj_shape (bool_decide (a ∈ de)) a o;
  sp_loaded : ∀ a, a ∈ pend ∪ de → is_Some (m !! a);
  sp_undo : revertible pend es m de
}.

Lemma shaped_put m pend de es a o' : shaped m pend de es → (∀ o, m !! a = Some o → grown o o') → obj_shape (bool_decide (a ∈ de)) a o' → shaped (<[a := o']> m) pend de es.
Proof.
  intros [H1 H2 H3] Hg Ho. constructor.
  - intros b ob Hb. apply lookup_insert_Some in Hb as [[<- <-] | [_ Hb]]; [done | by apply H1].
  - intros b Hb. apply lookup_insert_is_Some'. right. by apply H2.
  - eapply revertible_grows; [by apply grows_put | done].
Qed.

Lemma shaped_entry m pend de es e : fits de m e → shaped m pend de es → shaped m pend de (e :: es).
Proof. intros He [H1 H2 H3]. constructor; [done | done | by apply revertible_fits]. Qed.

Lemma slots_root_empty : slots_root ∅ EmptyRootHash.
Proof. exists TNil. split_and!; [by left | rewrite fmap_empty; split; [intros key _; by rewrite lookup_empty | by intros [| ? ?] v _] | done]. Qed.

(** A new object over no slots *)
Lemma fresh_shape a : addrs a → obj_shape true a (fresh_object a).
Proof.
  intros Ha. constructor; try done; [apply sum256_bytes |]. intros _. exists ∅. constructor; cbn [o_trie fresh_object originStorage pendingStorage dirtyStorage].
  - by apply (db_empty _ _ Hdb).
  - apply slots_root_empty.
  - intros k v _. by rewrite lookup_empty.
  - intros k _ _. unfold slot. by rewrite lookup_empty.
  - intros k v. rewrite lookup_empty. by intros [? | ?].
Qed.

Lemma absent_shape a : addrs a → A !! sum256 a = None → obj_shape false a (fresh_object a).
Proof. intros Ha Hn. constructor; try done; [apply sum256_bytes |]. intros _. by apply (db_absent _ _ Hdb). Qed.

Lemma account_shape a d : addrs a → A !! sum256 a = Some d → obj_shape false a (newObject a (Some d)).
Proof.
  intros Ha HA. destruct (db_account _ _ Hdb a Ha) as [_ Hd]. destruct (Hd d HA) as [Hok HS]. constructor; try done; [apply Hok |]. by intros ? [= <-].
Qed.

Lemma shaped_create m pend de es a : shaped m pend de es → addrs a → m !! a = None → A !! sum256 a = None → shaped (<[a := fresh_object a]> m) pend de (createObjectChange a :: es).
Proof.
  intros Hs Ha Hn HA. assert (Hno : a ∉ pend ∪ de) by (intros [o Ho]%(sp_loaded _ _ _ _ Hs); congruence). rewrite not_elem_of_union in Hno. destruct Hno as [Hnp Hnd].
  destruct (shaped_put m pend de es a (fresh_object a) Hs) as [H1 H2 _]; [intros o Ho; congruence | rewrite bool_decide_false by done; by apply absent_shape |].
  constructor; [done | done |]. cbn [revertible]. rewrite delete_insert_id by done. split_and!; [done | done | apply Hs].
Qed.

Lemma shaped_reset m pend de es a p pd e1 e2 e3 e4 e5 : shaped m pend de es → addrs a → m !! a = Some p → pd = bool_decide (a ∈ de) →
  shaped (<[a := fresh_object a]> m) pend ({[a]} ∪ de) (resetObjectChange a p pd e1 e2 e3 e4 e5 :: es).
Proof.
  intros [H1 H2 H3] Ha Hp ->. constructor.
  - intros b o Hb. apply lookup_insert_Some in Hb as [[<- <-] | [Hne Hb]]; [rewrite bool_decide_true by set_solver; by apply fresh_shape |].
    replace (bool_decide (b ∈ {[a]} ∪ de)) with (bool_decide (b ∈ de)) by (apply bool_decide_ext; set_solver). by apply H1.
  - intros b Hb. apply lookup_insert_is_Some'. destruct (decide (a = b)) as [-> | Hne]; [by left | right]. apply H2. set_solver.
  - cbn [revertible]. rewrite insert_insert_eq, insert_id by done. destruct (decide (a ∈ de)) as [Hd | Hd].
    + rewrite (bool_decide_true _ Hd), union_inside, (bool_decide_true _ Hd) by done. rewrite <- (bool_decide_true _ Hd) at 1. split; [by apply H1 | done].
    + rewrite (bool_decide_false _ Hd), union_undone by done. split; [by apply H1 | done].
Qed.

Lemma shaped_uncreate m pend de es a : shaped m pend de (createObjectChange a :: es) → shaped (base.delete a m) pend de es.
Proof.
  intros [H1 H2 (Hp & Hd & H3)]. constructor; [intros b o [_ Hb]%lookup_delete_Some; by apply H1 | | done]. intros b Hb. assert (Hne : a ≠ b) by (intros ->; set_solver). rewrite lookup_delete_ne by done. by apply H2.
Qed.

Lemma shaped_unreset m pend de es a p (pd : bool) e1 e2 e3 e4 e5 : shaped m pend de (resetObjectChange a p pd e1 e2 e3 e4 e5 :: es) → shaped (<[a := p]> m) pend (if pd then de else de ∖ {[a]}) es.
Proof.
  intros [H1 H2 [Hp H3]]. constructor; [| | done].
  - intros b o Hb. apply lookup_insert_Some in Hb as [[<- <-] | [Hne Hb]]; [done |].
    replace (bool_decide (b ∈ (if pd then de else de ∖ {[a]}))) with (bool_decide (b ∈ de)) by (apply bool_decide_ext; destruct pd; set_solver). by apply H1.
  - intros b Hb. apply lookup_insert_is_Some'. right. apply H2. destruct pd; set_solver.
Qed.

(** ** The invariant, operation by operation *)

Definition shape (s : StateDB) : Prop :=
  env0 s ∧ shaped (stateObjects s) (stateObjectsPending s) (dom (stateObjectsDestruct s)) (rev (entries (s_journal s))).

Lemma destructed_dom (s : StateDB) a : destructed s a = bool_decide (a ∈ dom (stateObjectsDestruct s)).
Proof. apply bool_decide_ext. by rewrite elem_of_dom. Qed.

Lemma shape_object s a o : shape s → stateObjects s !! a = Some o → obj_shape (destructed s a) a o.
Proof. intros [_ Hs] Ho. rewrite destructed_dom. by apply (sp_obj _ _ _ _ Hs). Qed.

Lemma shape_frame (s s' : StateDB) : s_trie s' = s_trie s → snap s' = snap s → originalRoot s' = originalRoot s → stateObjects s' = stateObjects s → stateObjectsPending s' = stateObjectsPending s →
  stateObjectsDestruct s' = stateObjectsDestruct s → s_journal s' = s_journal s → shape s → shape s'.
Proof. unfold shape, env0. by intros -> -> -> -> -> -> ->. Qed.

Lemma shape_put s a o' : shape s → address o' = a → (∀ o, stateObjects s !! a = Some o → grown o o') → obj_shape (destructed s a) a o' → shape (setStateObject o' s).
Proof. intros [He Hs] <- Hg Ho. split; [done |]. apply shaped_put; [done | done |]. by rewrite <- destructed_dom. Qed.

Lemma shape_append s e : fits (dom (stateObjectsDestruct s)) (stateObjects s) e → shape s → shape (append e s).
Proof. intros He [H1 H2]. split; [done |]. cbn. rewrite rev_unit. by apply shaped_entry. Qed.

Lemma shape_change s a o o' e : shape s → stateObjects s !! a = Some o → grown o o' → obj_shape (destructed s a) a o' → fits (dom (stateObjectsDestruct s)) (stateObjects s) e →
  shape (setStateObject o' (append e s)).
Proof. intros Hs Ho Hg Ho' He. apply (shape_put _ a); [by apply shape_append | by apply Ho' | cbn; intros o1 Ho1; rewrite Ho in Ho1; by injection Ho1 as <- | done]. Qed.

Lemma load_env0 s a : env0 s → addrs a → load_account s a = inr (A !! sum256 a).
Proof. intros (Et & Es & _) Ha. destruct (db_account _ _ Hdb a Ha) as [<- _]. unfold load_account. by rewrite Et, Es. Qed.

Lemma getDeleted_shape s a : shape s → addrs a →
  ∃ s', getDeletedStateObject a s = (stateObjects s' !! a, s') ∧ shape s' ∧ (stateObjects s' !! a = None → A !! sum256 a = None) ∧ dom (stateObjectsDestruct s') = dom (stateObjectsDestruct s).
Proof.
  intros Hs Ha. unfold getDeletedStateObject. destruct (stateObjects s !! a) as [o |] eqn:Eo; [exists s; by rewrite Eo |]. rewrite (load_env0 s a (proj1 Hs) Ha).
  destruct (A !! sum256 a) as [d |] eqn:EA; [| exists s; by rewrite Eo]. exists (setStateObject (newObject a (Some d)) s). split_and!; [cbn; by rewrite lookup_insert_eq | | cbn; by rewrite lookup_insert_eq | done].
  apply (shape_put _ a); [done | done | intros o Ho; congruence |]. assert (Hd : destructed s a = false); [| rewrite Hd; by apply account_shape].
  rewrite destructed_dom. apply bool_decide_false. intros Hin. destruct (sp_loaded _ _ _ _ (proj2 Hs) a) as [o Ho]; [set_solver | congruence].
Qed.

Lemma getState_shape s a : shape s → addrs a →
  ∃ s', shape s' ∧ ((∃ o, getStateObject a s = (Some o, s') ∧ stateObjects s' !! a = Some o ∧ deleted o = false) ∨ getStateObject a s = (None, s')).
Proof.
  intros Hs Ha. destruct (getDeleted_shape s a Hs Ha) as (s' & E1 & Hs' & _). exists s'. split; [done |]. unfold getStateObject. rewrite E1. destruct (stateObjects s' !! a) as [o |] eqn:Eo; [| by right].
  destruct (deleted o) eqn:Ed; [by right | left; by exists o].
Qed.

Lemma createObject_shaped s a : shape s → addrs a → shape (createObject a s).2 ∧ stateObjects (createObject a s).2 !! a = Some (fresh_object a).
Proof.
  intros Hs Ha. destruct (getDeleted_shape s a Hs Ha) as (t & E1 & Ht & Hn & _). unfold createObject. rewrite E1. split; [| cbn [snd stateObjects setStateObject set_objects address newObject]; by rewrite lookup_insert_eq].
  pose proof Ht as [He Hsh]. destruct (stateObjects t !! a) as [p |] eqn:Ep.
  - pose proof (os_address _ _ _ (shape_object t a p Ht Ep)) as Hpa. cbn [snd]. rewrite Hpa. fold (destructed t a). rewrite destructed_dom.
    pose proof (shaped_reset _ _ _ _ a p _ (accounts t !! addrHash p) (storages t !! addrHash p) (bool_decide (is_Some (accountsOrigin t !! a))) (mjoin (accountsOrigin t !! a)) (storagesOrigin t !! a) Hsh Ha Ep eq_refl) as Hr.
    destruct (decide (a ∈ dom (stateObjectsDestruct t))) as [Hd | Hd].
    + rewrite (bool_decide_true _ Hd) in *. rewrite union_inside in Hr by done. split; [done |]. cbn. by rewrite rev_unit.
    + rewrite (bool_decide_false _ Hd) in *. split; [done |]. cbn. rewrite rev_unit, dom_insert_L. exact Hr.
  - cbn [snd]. split; [done |]. cbn. rewrite rev_unit. apply shaped_create; [done | done | done | by apply Hn].
Qed.

Lemma GetOrNew_shape s a : shape s → addrs a → shape (GetOrNewStateObject a s) ∧ ∃ o, stateObjects (GetOrNewStateObject a s) !! a = Some o ∧ deleted o = false.
Proof.
  intros Hs Ha. unfold GetOrNewStateObject. destruct (getState_shape s a Hs Ha) as (t & Ht & [(o & -> & Ho & Hd) | ->]); [split; [done | by exists o] |].
  destruct (createObject_shaped t a Ht Ha) as [H1 H2]. split; [done | by exists (fresh_object a)].
Qed.

Lemma with_object_shape s a f : shape s → addrs a → (∀ t o, shape t → stateObjects t !! a = Some o → deleted o = false → shape (f o t)) → shape (with_object a f s).
Proof. intros Hs Ha Hf. destruct (GetOrNew_shape s a Hs Ha) as (H1 & o & Ho & Hd). unfold with_object. rewrite Ho. by apply Hf. Qed.

Lemma SetBalance_shape s a o x : shape s → stateObjects s !! a = Some o → shape (obj_SetBalance x o s).
Proof.
  intros Hs Ho. pose proof (shape_object s a o Hs Ho) as Hsh. apply (shape_change s a o); [done | done | by intros ? | by apply shape_setData |]. cbn. rewrite (os_address _ _ _ Hsh). by eexists.
Qed.

Lemma SetNonce_shape s a o x : shape s → stateObjects s !! a = Some o → shape (obj_SetNonce x o s).
Proof.
  intros Hs Ho. pose proof (shape_object s a o Hs Ho) as Hsh. apply (shape_change s a o); [done | done | by intros ? | by apply shape_setData |]. cbn. rewrite (os_address _ _ _ Hsh). by eexists.
Qed.

Lemma AddBalance_shape s a o x : shape s → stateObjects s !! a = Some o → shape (obj_AddBalance x o s).
Proof. intros Hs Ho. unfold obj_AddBalance. case_if; [case_if; [by apply shape_append | done] | by apply (SetBalance_shape s a)]. Qed.

Lemma SubBalance_shape s a o x : shape s → stateObjects s !! a = Some o → shape (obj_SubBalance x o s).
Proof. intros Hs Ho. unfold obj_SubBalance. case_if; [done | by apply (SetBalance_shape s a)]. Qed.

Lemma SetCode_shape s a o c : shape s → stateObjects s !! a = Some o → shape (obj_SetCode (sum256 c) c o s).
Proof.
  intros Hs Ho. pose proof (shape_object s a o Hs Ho) as Hsh. unfold obj_SetCode. destruct (obj_Code o s) as [[pc o1] s1] eqn:Ec.
  destruct (code_shape s a _ o pc o1 s1 Hsh Ec) as (H1 & H2 & _ & (e & ->) & _). apply (shape_change _ a o); [by apply (shape_frame s) | done | done | apply shape_setCode; [apply sum256_bytes | done] |].
  cbn. rewrite (os_address _ _ _ H1). split; [by eexists | by apply H1].
Qed.

Lemma SetState_shape s a o k v : shape s → stateObjects s !! a = Some o → deleted o = false → keys k → word v → shape (obj_SetState k v o s).
Proof.
  intros Hs Ho Hd Hk Hv. pose proof (shape_object s a o Hs Ho) as Hsh. unfold obj_SetState. destruct (obj_GetState o k s) as [[prev o1] s1] eqn:Eg.
  destruct (state_shape s a o k prev o1 s1 (proj1 Hs) Hsh Hd Hk Eg) as (-> & Hw & H1 & H2 & H3 & _). pose proof (os_address _ _ _ H1) as Ha1.
  assert (Hs1 : shape (setStateObject o1 s)) by (apply (shape_put _ a); [done | done | intros o2 Ho2; rewrite Ho in Ho2; by injection Ho2 as <- | done]).
  case_bool_decide; [done |]. assert (Ho1 : stateObjects (setStateObject o1 s) !! a = Some o1) by (cbn; by rewrite Ha1, lookup_insert_eq).
  apply (shape_change _ a o1); [done | done | by intros ? | by apply shape_setState |]. cbn. rewrite Ha1. split; [| done]. exists o1. split; [by rewrite lookup_insert_eq |]. by rewrite <- destructed_dom.
Qed.

Lemma CreateAccount_shape s a : shape s → addrs a → shape (CreateAccount a s).
Proof.
  intros Hs Ha. unfold CreateAccount. destruct (createObject_shaped s a Hs Ha) as [H1 H2]. destruct (createObject a s) as [[p |] t]; cbn [snd] in *; [| done]. rewrite H2.
  apply (shape_put _ a); [done | done | intros o Ho; rewrite H2 in Ho; injection Ho as <-; by intros ? |]. apply shape_setData. by apply shape_object.
Qed.

Lemma read_shape {X} s a (dflt : X) f : shape s → addrs a →
  (∀ t o v o' t', shape t → stateObjects t !! a = Some o → deleted o = false → f o t = (v, o', t') → obj_shape (destructed t a) a o' ∧ grown o o' ∧ ∃ e, t' = set_dbErr e t) →
  shape (read_object a dflt f s).2.
Proof.
  intros Hs Ha Hf. unfold read_object. destruct (getState_shape s a Hs Ha) as (t & Ht & [(o & -> & Ho & Hd) | ->]); [| done]. destruct (f o t) as [[v o'] t'] eqn:Ef.
  destruct (Hf t o v o' t' Ht Ho Hd Ef) as (H1 & H2 & e & ->). cbn [snd]. apply (shape_put _ a); [by apply (shape_frame t) | by apply H1 | intros o1 Ho1; cbn in Ho1; rewrite Ho in Ho1; by injection Ho1 as <- | done].
Qed.

(** Operations on the addresses and slots at hand *)
Definition op_ok (o : op) : Prop :=
  match o with
  | OpAddBalance a _ | OpSubBalance a _ | OpSetBalance a _ | OpSetNonce a _ | OpSetCode a _ | OpCreateAccount a | OpGetBalance a | OpGetCode a => addrs a
  | OpSetState a k v => addrs a ∧ keys k ∧ word v
  | OpGetState a k | OpGetCommittedState a k => addrs a ∧ keys k
  | _ => True
  end.

Lemma plain_shape o s s' : plain o = true → op_ok o → shape s → run_op o s = Ok s' → shape s'.
Proof.
  intros Hp Hok Hs Hr. assert (Hid : ∀ t : StateDB, ∃ e, t = set_dbErr e t) by (intros t; exists (dbErr t); by destruct t).
  destruct o; try done; cbn [run_op op_ok] in *; try (injection Hr as <-).
  - apply with_object_shape; [done | done |]. intros. by eapply AddBalance_shape.
  - apply with_object_shape; [done | done |]. intros. by eapply SubBalance_shape.
  - apply with_object_shape; [done | done |]. intros. by eapply SetBalance_shape.
  - apply with_object_shape; [done | done |]. intros. by eapply SetNonce_shape.
  - apply with_object_shape; [done | done |]. intros. by eapply SetCode_shape.
  - destruct Hok as (? & ? & ?). apply with_object_shape; [done | done |]. intros. by eapply SetState_shape.
  - by apply CreateAccount_shape.
  - eapply shape_frame; [..| by apply (shape_append s (addLogChange (thash s)))]; done.
  - unfold AddPreimage. destruct (preimages s !! h); [done |]. eapply shape_frame; [..| by apply (shape_append s (addPreimageChange h))]; done.
  - eapply shape_frame; [..| by apply (shape_append s (refundChange (refund s)))]; done.
  - unfold SubRefund in Hr. cbn zeta in Hr. case_if; [done |]. injection Hr as <-. eapply shape_frame; [..| by apply (shape_append s (refundChange (refund s)))]; done.
  - unfold AddAddressToAccessList. destruct (AddAddress a (s_accessList s)) as [[] al]; [apply shape_append; [done |] |]; by apply (shape_frame s).
  - unfold AddSlotToAccessList in Hr. destruct (AddSlot a k (s_accessList s)) as [[[am sm] al] | | |]; try done. cbn in Hr. injection Hr as <-. assert (Hal : shape (set_accessList al s)) by (by apply (shape_frame s)). destruct am, sm; [apply shape_append; [done |]; by apply shape_append | by apply shape_append.. | done].
  - apply read_shape; [done | done |]. intros t o v o' t' Ht Ho _ [= _ <- <-]. split_and!; [by apply shape_object | by intros ? | apply Hid].
  - apply read_shape; [done | done |]. intros t o v o' t' Ht Ho _ Hf. destruct (code_shape t a _ o v o' t' (shape_object t a o Ht Ho) Hf) as (? & ? & _ & ? & _). by split_and!.
  - destruct Hok as [Ha Hk]. apply read_shape; [done | done |]. intros t o v o' t' Ht Ho Hd Hf. destruct (state_shape t a o k v o' t' (proj1 Ht) (shape_object t a o Ht Ho) Hd Hk Hf) as (-> & _ & ? & ? & _). by split_and!.
  - destruct Hok as [Ha Hk]. apply read_shape; [done | done |]. intros t o v o' t' Ht Ho Hd Hf. destruct (committed_shape t a o k v o' t' (proj1 Ht) (shape_object t a o Ht Ho) Hd Hk Hf) as (-> & _ & ? & ? & _). by split_and!.
Qed.

(** ** Undoing *)

Lemma BytesToHash_bytes b : bytes_ok b → bytes_ok (BytesToHash b).
Proof.
  intros Hb. unfold BytesToHash. apply Forall_app. split; [by apply Forall_forall; intros x ->%list_elem_of_In%repeat_spec |]. case_if; [by apply Forall_drop | done].
Qed.

(** The state with the objects, and the entries that are left to undo *)
Definition undoing (es : list journalEntry) (s : StateDB) : Prop := env0 s ∧ shaped (stateObjects s) (stateObjectsPending s) (dom (stateObjectsDestruct s)) es.

Lemma undo_object_shape a f es s s' : undoing es s → is_Some (stateObjects s !! a) → undo_object a f s = Ok s' →
  (∀ o, stateObjects s !! a = Some o → obj_shape (destructed s a) a o → grown o (f o) ∧ obj_shape (destructed s a) a (f o)) → undoing es s'.
Proof.
  intros [He Hs] [o Ho] Hu Hf. unfold undo_object, getStateObject, getDeletedStateObject in Hu. rewrite Ho in Hu. destruct (deleted o); [done |]. injection Hu as <-.
  destruct (Hf o Ho) as [Hg Hsh]; [rewrite destructed_dom; by apply (sp_obj _ _ _ _ Hs) |]. split; [done |]. cbn. rewrite (os_address _ _ _ Hsh).
  apply shaped_put; [done | intros o1 Ho1; rewrite Ho in Ho1; by injection Ho1 as <- | by rewrite <- destructed_dom].
Qed.

Lemma undoing_frame es (s s' : StateDB) : s_trie s' = s_trie s → snap s' = snap s → originalRoot s' = originalRoot s → stateObjects s' = stateObjects s → stateObjectsPending s' = stateObjectsPending s →
  stateObjectsDestruct s' = stateObjectsDestruct s → undoing es s → undoing es s'.
Proof. unfold undoing, env0. by intros -> -> -> -> -> ->. Qed.

Lemma revert_entry_shape e es s s' : undoing (e :: es) s → revert_entry e s = Ok s' → undoing es s'.
Proof.
  intros [He Hs] Hr. pose proof Hs as [H1 H2 H3].
  assert (Hrest : (∀ a, e ≠ createObjectChange a) → (∀ a p b e1 e2 e3 e4 e5, e ≠ resetObjectChange a p b e1 e2 e3 e4 e5) → fits (dom (stateObjectsDestruct s)) (stateObjects s) e ∧ undoing es s).
  { intros N1 N2. assert (Hfr : fits (dom (stateObjectsDestruct s)) (stateObjects s) e ∧ revertible (stateObjectsPending s) es (stateObjects s) (dom (stateObjectsDestruct s))) by (destruct e; try exact H3; [by destruct (N1 account) | by edestruct N2]). split; [by apply Hfr |]. split; [done |]. by constructor; [.. | apply Hfr]. }
  destruct e; try (destruct Hrest as [Hfit Hu]; [done | done |]); cbn [revert_entry fits] in *.
  - injection Hr as <-. split; [done |]. cbn. by apply shaped_uncreate in Hs.
  - injection Hr as <-. apply shaped_unreset in Hs. destruct H3 as [Hp _]. pose proof (os_address _ _ _ Hp) as Hpa. destruct prevdestruct; cbn [negb]; (split; [done |]); cbn; rewrite Hpa; [done |]. by rewrite dom_delete_L.
  - eapply undo_object_shape; [done | done | done |]. intros o _ Ho. split; [by intros ? | by apply shape_setData].
  - eapply undo_object_shape; [done | done | done |]. intros o _ Ho. split; [by intros ? | by apply shape_setData].
  - destruct Hfit as [(o0 & Ho0 & Ht) Hw]. eapply undo_object_shape; [done | by eexists | done |]. intros o Ho Hsh. rewrite Ho0 in Ho. injection Ho as ->. split; [by intros ? |]. apply shape_setState; [by rewrite destructed_dom | done | done].
  - destruct Hfit as [Hin Hb]. eapply undo_object_shape; [done | done | done |]. intros o _ Ho. split; [by intros ? | apply shape_setCode; [by apply BytesToHash_bytes | done]].
  - injection Hr as <-. by apply (undoing_frame es s).
  - case_if; [injection Hr as <-; by apply (undoing_frame es s) |]. inv_bind Hr. injection Hr as <-. by apply (undoing_frame es s).
  - injection Hr as <-. by apply (undoing_frame es s).
  - by injection Hr as <-.
  - injection Hr as <-. by apply (undoing_frame es s).
  - inv_bind Hr. injection Hr as <-. by apply (undoing_frame es s).
Qed.

Lemma revert_entries_shape es : ∀ rest s s', undoing (es ++ rest) s → revert_entries es s = Ok s' → undoing rest s'.
Proof.
  induction es as [| e es IH]; intros rest s s' Hs Hr; cbn in Hr; [by injection Hr as <- |]. destruct (revert_entry e s) as [u | | |] eqn:Ee; try done. cbn in Hr.
  apply (revert_entry_shape e (es ++ rest) s u Hs) in Ee. eapply IH; [| exact Hr]. by apply (undoing_frame _ u).
Qed.

Lemma journal_revert_shape n s s' : shape s → journal_revert n s = Ok s' → shape s'.
Proof.
  intros Hs Hr. unfold journal_revert in Hr. destruct (revert_entries _ s) as [u | | |] eqn:Eu; try done. cbn in Hr. destruct (keeps_revert _ _ _ Eu) as (Hj & _). rewrite Hj in Hr. cbn in Hr.
  unfold slice in Hr. case_if; [| done]. cbn in Hr. injection Hr as <-. apply (revert_entries_shape _ (rev (take (Z.to_nat n) (entries (s_journal s))))) in Eu; [| by rewrite <- rev_app_distr, take_drop].
  destruct Eu as [He Hu]. split; [done |]. cbn. rewrite Z.sub_0_r. exact Hu.
Qed.

Lemma Revert_shape id s s' : shape s → RevertToSnapshot id s = Ok s' → shape s'.
Proof.
  intros Hs Hr. unfold RevertToSnapshot in Hr. destruct (_ !! _) as [[i n] |]; [| done]. case_if; [done |]. destruct (journal_revert n s) as [u | | |] eqn:Eu; try done. cbn in Hr.
  destruct (slice (validRevisions u) _ _) as [r | | |]; try done. cbn in Hr. injection Hr as <-. apply (shape_frame u); try done. by eapply journal_revert_shape.
Qed.

Lemma run_op_shape o s s' : op_ok o → shape s → run_op o s = Ok s' → shape s'.
Proof.
  intros Hok Hs Hr. destruct (plain o) eqn:Ep; [by eapply plain_shape |]. destruct o; try done; cbn [run_op] in Hr; [| by eapply Revert_shape]. injection Hr as <-. by apply (shape_frame s).
Qed.
End Store.
