(* ===== verification/StateBlock.v ===== *)
(** * The root after the transactions of a block

    From a state that stands on its tries, any transactions, with their snapshots and
    reverts, and Finalise after each lead to a state whose IntermediateRoot is the root
    of the tries of its world. *)

From S2P Require Import Prelude RlpRaw RlpEncode RlpStream TrieNode TrieSpec TrieStore TrieOps TrieRefine TrieHash TrieCommit StateAccess State StateWorld StateRevert StateSnapshot StateTidy StateSpec StateFinalise StatePrepare SecureTrie StateRoot StateRootSpec StateStore.

Section Block.
  Context `{HF : Hasher} `{HL : !HasherLaws} {T ST E : Type} `{B : !Backend T ST E} `{W : !TrieWriter T ST E} `{L : !TrieLaws T ST E}.
  Abbreviation StateDB := (StateDB (T := T) (ST := ST) (E := E)).
  Abbreviation stateObject := (stateObject (ST := ST)).
  Context (addrs keys : bytes → Prop).

(** ** A database without a snapshot *)

Lemma trie_base (s : StateDB) o S t : snap s = None → o_trie o = None → OpenStorageTrie (originalRoot s) (address o) (Root (data o)) = inr t → slots_in t S → slots_root S (Root (data o)) →
  originStorage o = ∅ → pendingStorage o = ∅ → dirtyStorage o = ∅ → obj_base keys false s o S.
Proof.
  intros Hs Ht Ho HS Hr E1 E2 E3. constructor.
  - rewrite Ht. by exists t.
  - done.
  - intros k v _. by rewrite E1, lookup_empty.
  - intros k _ _. unfold obj_LoadState, getTrie. rewrite Hs, Ht, Ho. cbn [address set_trie_cache]. rewrite (GetStorage_in t S (address o) k HS). by eexists.
  - intros k v. rewrite E2, E3, lookup_empty. by intros [? | ?].
Qed.

(** What a database without a snapshot has to hold *)
Record tries_ok (s0 : StateDB) (A : gmap bytes StateAccount) : Prop := MkTries {
  tr_trie : accounts_in (s_trie s0) A;
  tr_snap : snap s0 = None;
  tr_account : ∀ a d, addrs a → A !! sum256 a = Some d → acct_ok d ∧ ∃ S t, OpenStorageTrie (originalRoot s0) a (Root d) = inr t ∧ slots_in t S ∧ slots_root S (Root d);
  tr_empty : ∀ a, addrs a → ∃ t, OpenStorageTrie (originalRoot s0) a EmptyRootHash = inr t ∧ slots_in t ∅
}.

Lemma tries_database s0 A : tries_ok s0 A → database_ok addrs keys s0 A.
Proof.
  intros [H1 H2 H3 H4]. constructor.
  - done.
  - intros a Ha. split; [unfold load_account; by rewrite H2, (GetAccount_in _ A a H1) |]. intros d Hd. destruct (H3 a d Ha Hd) as (Hok & S & t & Ht & HS & Hr). split; [done |]. exists S. by eapply trie_base.
  - intros a Ha _. destruct (H4 a Ha) as (t & Ht & HS). exists ∅. eapply trie_base; try done. apply slots_root_empty.
  - done.
Qed.

  Context (s0 : StateDB) (A : gmap bytes StateAccount) (Hdb : database_ok addrs keys s0 A).
  Abbreviation shape := (shape addrs keys s0).
  Abbreviation op_ok := (op_ok addrs keys).

(** ** Objects that were only read *)

(** An object that neither the journal nor the block has changed is the account of the trie. *)
Definition clean (s : StateDB) : Prop :=
  ∀ a o, addrs a → obj_at s a = Some o → dirties (s_journal s) !! a = None → a ∉ stateObjectsPending s → deleted o = false ∧ A !! sum256 a = Some (data o) ∧ pendingStorage o = ∅.

Lemma clean_objects (s s' : StateDB) :
  (∀ a, obj_opt_eq s s' (obj_at s a) (obj_at s' a)) → s_journal s' = s_journal s → stateObjectsPending s' = stateObjectsPending s → clean s → clean s'.
Proof.
  intros Hs Hj Hp Hc a o Ha Ho Hd Hn. rewrite Hj in Hd. rewrite Hp in Hn. specialize (Hs a). rewrite Ho in Hs. unfold obj_opt_eq in Hs. destruct (obj_at s a) as [o1 |] eqn:E1; [| done].
  rewrite <- (oe_deleted _ _ _ _ Hs), <- (oe_data _ _ _ _ Hs), <- (oe_pending _ _ _ _ Hs). by apply (Hc a o1).
Qed.

Lemma clean_same s s' : same s s' → s_journal s' = s_journal s → clean s → clean s'.
Proof. intros Hs Hj. apply clean_objects; [apply Hs | done | symmetry; apply Hs]. Qed.

Lemma revert_entry_pending e (s s' : StateDB) : revert_entry e s = Ok s' → stateObjectsPending s' = stateObjectsPending s.
Proof.
  assert (Hu : ∀ a f, undo_object a f s = Ok s' → stateObjectsPending s' = stateObjectsPending s).
  { intros a f. unfold undo_object. destruct (getState_ok s a) as (t & -> & [Q _] & _). destruct (live_at s a); [| done]. intros [= <-]. symmetry. apply (sm_pending _ _ Q). }
  destruct e; cbn [revert_entry]; try apply Hu; try (by intros [= <-]); intros Hr.
  - injection Hr as <-. by destruct prevdestruct.
  - case_if; [by injection Hr as <- |]. inv_bind Hr. by injection Hr as <-.
  - inv_bind Hr. by injection Hr as <-.
Qed.

Lemma revert_entries_pending es : ∀ (s s' : StateDB), revert_entries es s = Ok s' → stateObjectsPending s' = stateObjectsPending s.
Proof.
  induction es as [| e es IH]; intros s s' Hr; cbn in Hr; [by injection Hr as <- |]. destruct (revert_entry e s) as [u | | |] eqn:Eu; try done. cbn in Hr. apply IH in Hr. rewrite Hr. by apply revert_entry_pending in Eu.
Qed.

Lemma clean_undoes s s' : addr_ok s' → clean s → undoes s s' → clean s'.
Proof.
  intros Ha Hc (es & He & Hj & u & Hu & Hs) a o Haa Ho Hd Hn. rewrite Hj in Hd. apply append_all_dirties in Hd as [Hd Hes]. pose proof (revert_entries_pending _ _ _ Hu) as Hp.
  pose proof (revert_entries_other (rev es) s' u a Ha) as H. rewrite Ho in H. pose proof (sm_objects _ _ Hs a) as H2. unfold obj_opt_eq in *.
  destruct (obj_at u a) as [ou |]; [| by destruct H; try done; apply Forall_rev]. destruct (obj_at s a) as [os |] eqn:Eo; [| done].
  assert (H1 : obj_eq s' u o ou) by (apply H; [by apply Forall_rev.. | done]).
  rewrite (oe_deleted _ _ _ _ H1), (oe_data _ _ _ _ H1), (oe_pending _ _ _ _ H1), <- (oe_deleted _ _ _ _ H2), <- (oe_data _ _ _ _ H2), <- (oe_pending _ _ _ _ H2).
  apply (Hc a); [done | done | done |]. by rewrite (sm_pending _ _ Hs), Hp.
Qed.

(** ** The invariant *)

Record good (s : StateDB) : Prop := MkGood {
  gd_inv : inv s;
  gd_tidy : tidy s;
  gd_shape : shape s;
  gd_clean : clean s;
  gd_saved : ∃ gs, linked s gs ∧ Forall (fun g => tidy g.2 ∧ clean g.2) gs
}.

Lemma run_op_good o s s' : op_ok o → good s → run_op o s = Ok s' → good s' ∧ (plain o = true → validRevisions s' = validRevisions s).
Proof.
  intros Hok [Hi Hty Hsh Hc (gs & Hl & Hgs)] Hr. pose proof (run_op_shape addrs keys s0 A Hdb o s s' Hok Hsh Hr) as Hsh'. destruct (plain o) eqn:Ep.
  { pose proof (plain_step o s s' Ep Hi Hr) as Hst. pose proof Hst as [Hu Hi' Hv Hn]. split; [| done]. constructor; [done | | done | | exists gs; split; [exact (linked_step s s' gs Hi Hst Hl) | done]].
    - eapply tidy_undoes; [apply Hi' | done | done].
    - eapply clean_undoes; [apply Hi' | done | done]. }
  split; [| done]. destruct o; try done; cbn [run_op] in Hr.
  - injection Hr as <-. destruct (Snapshot_linked s gs Hi Hl) as [Hi' Hl']. constructor; [done | | done | | eexists; split; [exact Hl' | apply Forall_app; split; [done | by constructor; [split | constructor]]]].
    + eapply tidy_same; [apply same_revisions | done | done].
    + eapply clean_same; [apply same_revisions | done | done].
  - destruct (Revert_known s s' gs id Hl Hr) as (i & g & Hg). destruct (Revert_ok s gs i id g Hi Hl Hg) as (t & Et & Hs & Hj & _ & Hi' & Hl'). rewrite Et in Hr. injection Hr as ->.
    destruct (proj1 (Forall_lookup _ _) Hgs i _ Hg) as [Htg Hcg]. constructor; [done | by eapply tidy_same | done | by eapply clean_same | exists (take i gs); split; [done | by apply Forall_take]].
Qed.

Lemma run_ops_good ops : ∀ s s', Forall op_ok ops → good s → run_ops ops s = Ok s' → good s' ∧ (Forall (fun o => plain o = true) ops → validRevisions s' = validRevisions s).
Proof.
  induction ops as [| o ops IH]; intros s s' Hok Hs Hr; cbn in Hr; [by injection Hr as <- |]. apply Forall_cons in Hok as [Ho Hok]. destruct (run_op o s) as [t | | |] eqn:Et; try done. cbn in Hr.
  destruct (run_op_good o s t Ho Hs Et) as [Ht Hv]. destruct (IH t s' Hok Ht Hr) as [Hs' Hv']. split; [done |]. intros [Hpo Hpl]%Forall_cons. by rewrite Hv', Hv.
Qed.

(** ** Between transactions *)

Lemma Finalise_frame s : inv s →
  s_trie (Finalise true s) = s_trie s ∧ snap (Finalise true s) = snap s ∧ originalRoot (Finalise true s) = originalRoot s ∧ validRevisions (Finalise true s) = [] ∧ entries (s_journal (Finalise true s)) = [] ∧
  (∀ a, stateObjects (Finalise true s) !! a = (if decide (is_Some (dirties (s_journal s) !! a)) then final_object <$> stateObjects s !! a else stateObjects s !! a)) ∧
  (∀ a, (∀ o, stateObjects s !! a = Some o → empty o = false ∨ dirties (s_journal s) !! a = None) → stateObjectsDestruct (Finalise true s) !! a = stateObjectsDestruct s !! a) ∧
  (∀ a, a ∈ stateObjectsPending (Finalise true s) ↔ a ∈ stateObjectsPending s ∨ is_Some (dirties (s_journal s) !! a) ∧ is_Some (stateObjects s !! a)).
Proof.
  intros Hi. set (D := dom (dirties (s_journal s))). pose proof (Finalise_left s Hi : loop_left D s (foldl (fun s a => finalise_address true a s) s (elements D))) as [Lo Ld _ (E1 & E2 & E3) _ [Ej _]].
  destruct (finalise_pending (elements D) s) as [_ Hpend]. unfold Finalise. fold D. set (u := foldl _ s (elements D)) in *. destruct (clear_frame u) as (Fo & [F1 F2 F3 F4] & _ & _ & _ & _ & _ & _ & _ & Fv & _).
  assert (Fp : stateObjectsPending (clearJournalAndRefund u) = stateObjectsPending u) by (unfold clearJournalAndRefund; by case_if).
  split_and!; [congruence | congruence | congruence | done | | | |].
  - unfold clearJournalAndRefund. case_if; zb; [done |]. destruct (entries (s_journal u)) eqn:Eu; cbn in *; [done | lia].
  - intros a. rewrite Fo, Lo. apply decide_ext. apply elem_of_dom.
  - intros a Ha. rewrite <- F4. apply Ld. intros o Ho. destruct (Ha o Ho); [by left | right; by apply not_elem_of_dom].
  - intros a. rewrite Fp, Hpend, elem_of_elements. unfold D. by rewrite elem_of_dom.
Qed.

Lemma Finalise_shape s : inv s → shape s → shape (Finalise true s).
Proof.
  intros Hi [(He1 & He2 & He3) Hs]. destruct (Finalise_frame s Hi) as (E1 & E2 & E3 & _ & Ej & Fo & Fd & Fp). set (t := Finalise true s) in *. split; [by unfold env0; rewrite E1, E2, E3 |].
  assert (Hda : ∀ a, (∀ o, stateObjects s !! a = Some o → empty o = false ∨ dirties (s_journal s) !! a = None) → bool_decide (a ∈ dom (stateObjectsDestruct t)) = bool_decide (a ∈ dom (stateObjectsDestruct s)))
    by (intros a Ha; apply bool_decide_ext; by rewrite !elem_of_dom, (Fd a Ha)).
  constructor; [| | by rewrite Ej].
  - intros a o Ho. rewrite Fo in Ho. case_decide as Hdirty; [| rewrite Hda by (intros ? _; right; by apply eq_None_not_Some); by apply (sp_obj _ _ _ _ _ _ _ Hs)].
    destruct (stateObjects s !! a) as [o0 |] eqn:Eo; [| done]. injection Ho as <-. destruct (sp_obj _ _ _ _ _ _ _ Hs a o0 Eo) as [H1 H2 H3 H4 H5]. destruct (final_flags o0) as [Fa Fdt].
    assert (Hor : origin (final_object o0) = origin o0) by (unfold final_object; by destruct (empty o0)). constructor; [done | by rewrite Fa | by rewrite Fdt | by rewrite Hor |].
    rewrite final_live. destruct (empty o0) eqn:Ee; [done |]. intros Hdel. destruct (H5 Hdel) as [S HS]. exists S. rewrite Hda by (intros o1 Ho1; rewrite Eo in Ho1; injection Ho1 as <-; by left). unfold final_object. rewrite Ee. by apply base_finalise.
  - intros a Ha. rewrite Fo. assert (Hsome : is_Some (stateObjects s !! a)).
    { apply elem_of_union in Ha as [[Ha | [_ Ha]]%Fp | Ha]; [by apply (sp_loaded _ _ _ _ _ _ _ Hs), elem_of_union_l | done |]. destruct (stateObjects s !! a) eqn:Eo; [by eexists |]. rewrite <- Eo. apply (sp_loaded _ _ _ _ _ _ _ Hs), elem_of_union_r, elem_of_dom.
      rewrite <- Fd by (intros ? ?; congruence). by apply elem_of_dom. }
    destruct Hsome as [o ->]. case_decide; by eexists.
Qed.

Lemma Finalise_clean s : inv s → shape s → clean s → clean (Finalise true s).
Proof.
  intros Hi Hs Hc a o Ha Ho _ Hn. destruct (Finalise_frame s Hi) as (E1 & E2 & _ & _ & _ & Fo & _ & Fp). rewrite Fp in Hn. unfold obj_at in Ho. rewrite Fo in Ho.
  destruct (stateObjects s !! a) as [o1 |] eqn:E0.
  - assert (Hnd : ¬ is_Some (dirties (s_journal s) !! a)) by (intros Hd; apply Hn; right; split; [done | by eexists]). rewrite decide_False in Ho by done. injection Ho as <-.
    apply (Hc a); [done | by apply obj_at_live | by apply eq_None_not_Some | tauto].
  - assert (Hl : load_account (Finalise true s) a = inr (A !! sum256 a)) by (unfold load_account; rewrite E1, E2; by apply (load_env0 addrs keys s0 A Hdb s a (proj1 Hs))). rewrite Hl in Ho.
    replace (if decide _ then _ else _) with (@None stateObject) in Ho by (by case_decide). destruct (A !! sum256 a) as [d |]; [| done]. by injection Ho as <-.
Qed.

Lemma Finalise_good s : good s → good (Finalise true s) ∧ validRevisions (Finalise true s) = [].
Proof.
  intros [Hi Hty Hsh Hc _]. destruct (Finalise_frame s Hi) as (_ & _ & _ & Hv & _). split; [| done]. constructor; [by apply Finalise_inv | by apply Finalise_tidy | by apply Finalise_shape | by apply Finalise_clean |].
  exists []. split; [by constructor | constructor].
Qed.

(** Without snapshots, what is not journalled may change. *)
Lemma good_frame (s t : StateDB) : good s → validRevisions s = [] → s_trie t = s_trie s → snap t = snap s → originalRoot t = originalRoot s → stateObjects t = stateObjects s → stateObjectsPending t = stateObjectsPending s →
  stateObjectsDirty t = stateObjectsDirty s → stateObjectsDestruct t = stateObjectsDestruct s → s_journal t = s_journal s → refund t = refund s → logs t = logs s → logSize t = logSize s → validRevisions t = [] → al_ok (s_accessList t) → good t.
Proof.
  intros [Hi Hty Hsh Hc _] Hv E1 E2 E3 E4 E5 E6 E7 E8 E9 E10 E11 Hv' Hal. assert (He : env_eq s t) by (by constructor). pose proof (objects_ext s t E4 He) as Hob. constructor.
  - destruct Hi as [Ha Hco Hd Hj Hl Hls _]. constructor; [| | | by rewrite E8 | by rewrite E10 | by rewrite E11 | done].
    + intros a o. rewrite (obj_at_ext s) by done. apply Ha.
    + intros a o. rewrite (obj_at_ext s) by done. apply Hco.
    + intros a. rewrite E6, (obj_at_ext s) by done. apply Hd.
  - by eapply tidy_objects.
  - by eapply shape_frame.
  - by eapply clean_objects.
  - exists []. split; [by constructor | constructor].
Qed.

(** A transaction as the processor runs it: the context, what is read and paid before the
    access list is made, the message, Finalise *)
Record txn := MkTxn { x_hash : bytes; x_index : Z; x_before : list op; x_sender : bytes; x_coinbase : bytes; x_dst : option bytes; x_precompiles : list bytes; x_list : AccessList; x_ops : list op }.

Definition run_txn (x : txn) (s : StateDB) : outcome Empty_set StateDB :=
  s ← run_ops (x_before x) (SetTxContext (x_hash x) (x_index x) s);
  s ← Prepare (x_sender x) (x_coinbase x) (x_dst x) (x_precompiles x) (x_list x) s;
  s ← run_ops (x_ops x) s;
  Ok (Finalise true s).

Fixpoint run_txns (xs : list txn) (s : StateDB) : outcome Empty_set StateDB :=
  match xs with
  | [] => Ok s
  | x :: xs => s ← run_txn x s; run_txns xs s
  end.

Definition txn_ok (x : txn) : Prop := Forall op_ok (x_before x) ∧ Forall (fun o => plain o = true) (x_before x) ∧ Forall op_ok (x_ops x).

Lemma Prepare_list sender coinbase dst precompiles list (s : StateDB) : ∃ al, Prepare sender coinbase dst precompiles list s = Ok (set_accessList al s) ∧ al_ok al.
Proof.
  unfold Prepare. destruct (add_address_spec _ sender new_ok) as [K1 _]. set (al1 := add_address newAccessList sender) in *. set (al2 := match dst with Some d => add_address al1 d | None => al1 end).
  assert (K2 : al_ok al2) by (unfold al2; destruct dst as [d |]; [by apply add_address_spec | done]). destruct (add_addresses_spec precompiles al2 K2) as [K3 _]. destruct (@add_entries_spec Empty_set list _ K3) as (al4 & -> & K4 & _). cbn [mbind outcome_bind].
  eexists. split; [done |]. by apply add_address_spec.
Qed.

Lemma run_txn_good x s s' : txn_ok x → good s → validRevisions s = [] → run_txn x s = Ok s' → good s' ∧ validRevisions s' = [].
Proof.
  intros (H1 & H2 & H3) Hs Hv Hr. unfold run_txn in Hr. set (c := SetTxContext (x_hash x) (x_index x) s) in *. assert (Hc : good c) by (eapply (good_frame s); try done; apply Hs).
  destruct (run_ops (x_before x) c) as [b | | |] eqn:Eb; try done. cbn [mbind outcome_bind] in Hr. destruct (run_ops_good _ c b H1 Hc Eb) as [Hb Hvb]. specialize (Hvb H2). change (validRevisions c) with (validRevisions s) in Hvb.
  destruct (Prepare_list (x_sender x) (x_coinbase x) (x_dst x) (x_precompiles x) (x_list x) b) as (al & Ep & Hal). rewrite Ep in Hr. cbn [mbind outcome_bind] in Hr.
  assert (Hp : good (set_accessList al b)) by (eapply (good_frame b); try done; cbn; congruence). destruct (run_ops (x_ops x) _) as [u | | |] eqn:Eu; try done. cbn in Hr. injection Hr as <-.
  apply Finalise_good. by apply (run_ops_good _ _ u H3 Hp Eu).
Qed.

Lemma run_txns_good xs : ∀ s s', Forall txn_ok xs → good s → validRevisions s = [] → run_txns xs s = Ok s' → good s' ∧ validRevisions s' = [].
Proof.
  induction xs as [| x xs IH]; intros s s' Hx Hs Hv Hr; cbn in Hr; [by injection Hr as <- |]. apply Forall_cons in Hx as [Hx Hxs]. destruct (run_txn x s) as [t | | |] eqn:Et; try done. cbn in Hr.
  destruct (run_txn_good x s t Hx Hs Hv Et) as [Ht Hvt]. by apply (IH t).
Qed.

(** ** The beginning and the end *)

Lemma new_good root OpenTrie snaps : NewState root OpenTrie snaps = inr s0 → (∀ a d, load_account s0 a = inr (Some d) → length (CodeHash d) = 32%nat) → good s0 ∧ validRevisions s0 = [].
Proof.
  intros Hn Hc. destruct (new_consistent root OpenTrie snaps s0 Hn Hc) as [Hi _]. pose proof (tidy_new _ _ _ _ Hn) as Hty. unfold NewState in Hn. destruct (OpenTrie root) as [e | tr]; [done |]. injection Hn as Es.
  assert (Eo : stateObjects s0 = ∅) by (by subst). assert (Ep : stateObjectsPending s0 = ∅) by (by subst). assert (Ed : stateObjectsDestruct s0 = ∅) by (by subst). assert (Ej : s_journal s0 = newJournal) by (by subst). assert (Ev : validRevisions s0 = []) by (by subst).
  split; [| done]. constructor; [done | done | | | exists []; split; [by constructor | constructor]].
  - split; [done |]. rewrite Eo, Ep, Ed, Ej. constructor; [intros a o; by rewrite lookup_empty | | done]. rewrite dom_empty_L. set_solver.
  - intros a o Ha Ho _ _. unfold obj_at in Ho. rewrite Eo, lookup_empty, (proj1 (db_account _ _ _ _ Hdb a Ha)) in Ho. destruct (A !! sum256 a); [| done]. by injection Ho as <-.
Qed.

(** The nonce and the balance of a live account are in range. *)
Definition in_range (s : StateDB) (a : bytes) : bool :=
  match live_at s a with
  | Some o => (0 <=? Nonce (data o)) && (Nonce (data o) <? 2 ^ 64) && (0 <=? Balance (data o)) && (Balance (data o) <? 2 ^ 256)
  | None => true
  end.

Lemma good_store s : good s → (∀ a, addrs a → in_range s a = true) → store_ok addrs keys s A.
Proof.
  intros [Hi Hty Hsh Hc _] Hr. pose proof Hsh as [(E1 & E2 & E3) Hs]. constructor.
  - rewrite E1. apply Hdb.
  - intros a Ha. rewrite (load_env0 addrs keys s0 A Hdb s a (proj1 Hsh) Ha). split; [done |]. intros d Hd. destruct (proj2 (db_account _ _ _ _ Hdb a Ha) d Hd) as [_ [S HS]]. exists S. by apply (base_env keys _ s0).
  - intros a o Ho. pose proof (shape_object addrs keys s0 s a o Hsh Ho) as [H1 H2 H3 H4 H5]. split_and!; [done | done |]. intros Hd. destruct (H5 Hd) as [S HS]. split; [| exists S; by apply (base_env keys _ s0)].
    specialize (Hr a H1). unfold in_range, live_at in Hr. rewrite (obj_at_live _ _ _ Ho), Hd in Hr. zb. destruct (ob_root _ _ _ _ _ HS) as (tr & _ & _ & Er).
    split_and!; try lia; [rewrite Er; apply tree_root_word.. | by apply (iv_code _ Hi a), obj_at_live | done].
  - intros a o Ho Hd Hn. apply (Hc a); [by apply (shape_object addrs keys s0 s a o Hsh Ho) | by apply obj_at_live | done | done].
  - intros a Ha. apply (sp_loaded _ _ _ _ _ _ _ Hs). set_solver.
  - intros a Ha. apply (sp_loaded _ _ _ _ _ _ _ Hs), elem_of_union_r. by apply elem_of_dom.
Qed.

(** C5.  The root of a block commits to its world.  Start a state over tries of accounts
    and slots, apply any transactions to it, each with its context, its access list, its
    snapshots and reverts and Finalise at its end, then any further operations (the
    withdrawals).  If nonces and balances are then in range and the hashes tell the
    addresses and slots apart, IntermediateRoot does not fail: it returns the root of a trie
    that has, for each address, exactly the account that the finalised state shows, with the
    root of the trie of the slots that are not zero, and no entry when there is no account;
    accounts that the block did not change have the entries they had. *)
Theorem IntermediateRoot_commits pooled root OpenTrie snaps xs ops s :
  length (sizebuf pooled) = 9%nat → (∀ a b, addrs a → addrs b → sum256 a = sum256 b → a = b) → (∀ a b, keys a → keys b → sum256 a = sum256 b → a = b) →
  NewState root OpenTrie snaps = inr s0 → (∀ a d, load_account s0 a = inr (Some d) → length (CodeHash d) = 32%nat) →
  Forall txn_ok xs → Forall op_ok ops → (t ← run_txns xs s0; run_ops ops t) = Ok s → (∀ a, addrs a → in_range s a = true) →
  ∃ r s' A', IntermediateRoot pooled true s = Ok (r, s') ∧ accounts_root A' r ∧ mirrors addrs keys A' (view (Finalise true s)) ∧ accounts_in (s_trie s') A' ∧
    ∀ h, (∀ a, a ∈ stateObjectsPending (Finalise true s) → sum256 a ≠ h) → A' !! h = A !! h.
Proof.
  intros Hp Ha Hk Hn Hc Hxs Hops Hr Hrange. destruct (new_good root OpenTrie snaps Hn Hc) as [H0 Hv0]. destruct (run_txns xs s0) as [t | | |] eqn:Et; try done. cbn [mbind outcome_bind] in Hr.
  destruct (run_txns_good xs s0 t Hxs H0 Hv0 Et) as [Ht _]. destruct (run_ops_good ops t s Hops Ht Hr) as [Hs _]. pose proof (good_store s Hs Hrange) as Hst. pose proof (Finalise_settled addrs keys s A (gd_inv _ Hs) (gd_tidy _ Hs) Hst) as Hset.
  destruct (IntermediateRoot_settled pooled Hp addrs keys Ha Hk s A Hset) as (r & s' & A' & E1 & H1 & H2 & _ & H3 & H4). by exists r, s', A'.
Qed.
End Block.

(** ** A block on an empty database *)

#[local] Existing Instance toy_hash.
#[local] Existing Instance toy_hash_laws.

Definition no_reader (_ : bytes) : option Reader := None.
Definition nine_buffer : encBuffer := EncBuffer [] [] 0 (repeat 0 9).

#[local] Instance toy_db : Backend StateTrie StateTrie sec_error := cachingDB zero_stream no_reader (fun _ => []).
#[local] Instance toy_writer : TrieWriter StateTrie StateTrie sec_error := StateTrie_writer nine_buffer nine_buffer.
#[local] Instance toy_tries : TrieLaws StateTrie StateTrie sec_error := StateTrie_laws nine_buffer nine_buffer zero_stream eq_refl eq_refl no_reader (fun _ => []).

Definition block_start : StateDB (T := StateTrie) (ST := StateTrie) (E := sec_error) :=
  MkState (MkStateTrie (empty_trie (MkReader zero_hash None None)) ∅) None EmptyRootHash ∅ ∅ ∅ ∅ ∅ ∅ ∅ ∅ None 0 zeroHash 0 ∅ 0 ∅ newAccessList newJournal [] 0.

Definition toy_addrs (a : bytes) : Prop := a ∈ [[1]; [2]; [3]].
Definition toy_keys (k : bytes) : Prop := k ∈ [[7]; [8]].
Definition toy_value (x : Z) : bytes := repeat 0 31 ++ [x].

(** Two accounts with slots, one of which the second transaction clears; a third account that
    is created, changed and left empty by a revert *)
Definition toy_block : list txn :=
  [MkTxn [1] 0 [OpAddBalance [1] 100; OpSetNonce [1] 1] [1] [3] (Some [2]) [] [] [OpSnapshot; OpAddBalance [2] 5; OpSetState [2] [7] (toy_value 9); OpSetState [2] [8] (toy_value 4); OpSetCode [2] [6; 0]];
   MkTxn [2] 1 [OpSubBalance [1] 30; OpSetNonce [1] 2] [1] [3] (Some [2]) [] [] [OpGetState [2] [7]; OpSetState [2] [7] (toy_value 0); OpSnapshot; OpCreateAccount [3]; OpSetState [3] [7] (toy_value 1); OpRevert 1; OpAddBalance [3] 0]].

Lemma NewStateTrie_empty owner db : NewStateTrie (StorageTrieID EmptyRootHash owner EmptyRootHash) db = Ok (MkStateTrie (empty_trie (MkReader owner None None)) ∅).
Proof.
  unfold NewStateTrie, New, newTrieReader. cbn [StateRoot id_Owner id_Root StorageTrieID]. by rewrite (bool_decide_true (EmptyRootHash = EmptyRootHash)), orb_true_r, andb_false_r by done.
Qed.

Lemma block_tries : tries_ok toy_addrs block_start ∅.
Proof.
  assert (He : represents (empty_trie (MkReader zero_hash None None)) ∅) by (exists TNil; apply empty_represents). constructor.
  - split; [by rewrite fmap_empty | done].
  - done.
  - intros a d _. by rewrite lookup_empty.
  - intros a _. eexists. split; [cbn [OpenStorageTrie toy_db cachingDB originalRoot block_start]; by rewrite NewStateTrie_empty |]. split; [| done]. rewrite fmap_empty. exists TNil. apply empty_represents.
Qed.

Lemma block_new : NewState EmptyRootHash (OpenTrie no_reader) None = inr block_start.
Proof. unfold NewState, OpenTrie. change (StateTrieID EmptyRootHash) with (StorageTrieID EmptyRootHash zero_hash EmptyRootHash). by rewrite NewStateTrie_empty. Qed.

(** The state after the block and a withdrawal *)
Abbreviation block_run := (t ← run_txns toy_block block_start; run_ops [OpAddBalance [1] 7] t).
Definition block_end : StateDB (T := StateTrie) (ST := StateTrie) (E := sec_error) := match block_run with Ok s => s | _ => block_start end.

Lemma block_runs : block_run = Ok block_end.
Proof. assert (H : match block_run with Ok _ => true | _ => false end = true) by (vm_compute; reflexivity). unfold block_end. by destruct block_run. Qed.

Lemma block_range a : toy_addrs a → in_range block_end a = true.
Proof. intros Ha. unfold toy_addrs in Ha. repeat (apply elem_of_cons in Ha as [-> | Ha]; [vm_compute; reflexivity |]). by apply elem_of_nil in Ha. Qed.

Lemma hashes_apart (l : list bytes) : NoDup (map sum256 l) → ∀ a b, a ∈ l → b ∈ l → sum256 a = sum256 b → a = b.
Proof.
  intros Hl a b Ha Hb Eab. apply list_elem_of_lookup in Ha as [i Hi]. apply list_elem_of_lookup in Hb as [j Hj]. assert (i = j) as ->; [| congruence].
  eapply NoDup_lookup; [exact Hl | rewrite list_lookup_fmap, Hi; reflexivity | rewrite list_lookup_fmap, Hj; cbn; by rewrite Eab].
Qed.

Ltac decided := refine (bool_decide_unpack _ _); vm_compute; exact I.

Lemma IntermediateRoot_commits_witness :
  ∃ r s' A', block_run = Ok block_end ∧ IntermediateRoot nine_buffer true block_end = Ok (r, s') ∧ accounts_root A' r ∧ mirrors toy_addrs toy_keys A' (view (Finalise true block_end)) ∧
    (v_nonce <$> view (Finalise true block_end) [1]) = Some 2 ∧ (v_balance <$> view (Finalise true block_end) [1]) = Some 77 ∧
    ((fun v => (v_storage v [7], v_storage v [8])) <$> view (Finalise true block_end) [2]) = Some (zeroHash, toy_value 4) ∧ A' !! sum256 [3] = None.
Proof.
  destruct (IntermediateRoot_commits toy_addrs toy_keys block_start ∅ (tries_database _ _ _ _ block_tries) nine_buffer EmptyRootHash (OpenTrie no_reader) None toy_block [OpAddBalance [1] 7] block_end)
    as (r & s' & A' & H1 & H2 & H3 & _ & _).
  - reflexivity.
  - apply (hashes_apart [[1]; [2]; [3]]). decided.
  - apply (hashes_apart [[7]; [8]]). decided.
  - exact block_new.
  - intros a d. unfold load_account. cbn [snap block_start]. rewrite (GetAccount_in _ ∅ a (tr_trie _ _ _ block_tries)). by rewrite lookup_empty.
  - repeat constructor; cbn; unfold toy_addrs, toy_keys, word; decided.
  - constructor; [| constructor]. unfold op_ok, toy_addrs. decided.
  - exact block_runs.
  - exact block_range.
  - exists r, s', A'. split_and!; [exact block_runs | done | done | done | vm_compute; reflexivity.. |].
    pose proof (H3 [3] ltac:(unfold toy_addrs; decided)) as H. assert (Hn : view (Finalise true block_end) [3] = None) by (vm_compute; reflexivity). by rewrite Hn in H.
Defined.
